(* ===== verification/_CoqProject ===== *)
-Q . S2P
Prelude.v
Models.v
TopomContext.v
TopomState.v
TopomCache.v
TopomProxy.v
TopomSlots.v
TopomGroup.v
TopomFrame.v
TopomInv.v
TopomRules.v
TopomSlotOps.v
TopomGroupOps.v
TopomRebalance.v
RebalanceTheorems.v
TopomSafety.v
TopomTheorems.v
TopomFunctional.v
Bufio.v
BufioSpec.v
Resp.v
RespNumbers.v
RespSpec.v
RespTheorems.v
Mapper.v
Stream.v
Router.v
RouterInv.v
RouterTheorems.v
Forward.v
ForwardTheorems.v
Session.v
AuthBruteforce.v
HotKeyCache.v
HotKeyProtocol.v
Limiter.v
SessionState.v
ClusterNodes.v
SessionHandler.v
SessionSafety.v
BackendConn.v
BackendTheorems.v
Pipeline.v
SlotLock.v
TopomACL.v
ACLTheorems.v
Broadcast.v
BroadcastTheorems.v
PitrFiles.v
PitrRun.v
PitrTheorems.v
RdbAnalysis.v
RdbPaths.v
RdbManager.v
RdbJobs.v
RdbApi.v
RedisClient.v
RedisPool.v
Sentinel.v
TopomStats.v
Ha.v
HaTheorems.v
TopomQPS.v
ProxyServer.v
Units.v
TopomApi.v
TopomApiTheorems.v
Store.v
StoreTheorems.v
FsClient.v
FsTheorems.v
AdminConfig.v
AdminDashboard.v
Configs.v
