(* ===== verification/Prelude.v ===== *)
(** Codis: a verification of the cluster manager and of the proxy's protocol and routing.

    * The program

    Codis shards a Redis key space into 1024 slots over groups of Redis servers.  A
    dashboard (src/pkg/topom) owns the cluster description: which group serves a slot,
    which slot is being migrated, which server of a group is master, which proxies exist.
    It keeps the description in a coordinator (zookeeper, etcd or a file system, behind
    src/pkg/models), reads it through a cache, and tells the proxies what to do.  A proxy
    (src/pkg/proxy) decodes client requests from the Redis protocol (src/pkg/proxy/redis
    over src/pkg/utils/bufio2), hashes their keys to slots and forwards them to the
    backend connections its routing table names; the dashboard fills the table slot by
    slot.  A session authenticates its client, splits requests on several keys, answers
    some reads from a cache of hot keys, and puts the replies together again.

    * Files

    - Prelude: outcomes of Go code (a value, an error, a panic), the state monad [M] with
      [defer], early exits and loops, and the reasoning rules used throughout: [wp]
      (postconditions), [safe] (no panic and an invariant kept on every path), [okp]
      (what a successful result satisfies) and [errp] (which errors are possible).
    - Models: src/pkg/models, the records of the cluster description.
    - TopomContext: src/pkg/topom/context.go, pure functions of the description; [toSlot]
      is what a proxy is told about a slot, [isSlotLocked] whether it must hold requests.
    - TopomState: the world of the dashboard (coordinator contents, cache and its dirty
      hooks, the proxies' tables, the lock, the environment's answers) and the calls that
      leave the process.  Reads, writes, proxy and server calls get their answers from
      [Env]; a write may fail before or after it took effect, and a proxy call may be
      lost or only its answer may be.
    - TopomCache: topom_cache.go, and its coherence: whatever writes failed, the context
      of the next operation shows the store.
    - TopomProxy, TopomSlots, TopomGroup: topom_proxy.go, topom_slots.go and
      topom_action.go, topom_group.go and topom_sentinel.go, one definition for each
      operation, with [Start] and the life cycle of topom.go.
    - TopomRebalance, RebalanceTheorems: [SlotsRebalance] of topom_slots.go, over any
      ordered tree (class [RBTree]), and what its plan achieves.
    - TopomACL, ACLTheorems: topom_acl.go; the world is extended with the outcome of the
      last update at the proxies and the commands the Redis servers accepted.
    - TopomFrame, TopomInv, TopomRules, TopomSlotOps, TopomGroupOps, TopomSafety: the
      invariant [Inv] of the dashboard and the proof that every operation keeps it; the
      data type [op] of operations, [run_op], and [reach], the worlds reached from an
      initial one by operations, proxy crashes and dashboard restarts.
    - TopomTheorems: the theorems on reachable worlds and concrete runs.
    - TopomFunctional: what single operations do to the store.
    - Bufio, BufioSpec: bufio2's reader and writer over any [io.Reader] and [io.Writer]
      (type classes [IOReader], [IOWriter] with the laws of the Go contracts), refined to
      byte streams: [holds b s] when the unread bytes of the reader are [s], [sinks b s]
      when the bytes written so far are [s].
    - Resp, RespNumbers, RespSpec, RespTheorems: the Redis protocol coder, its number
      formats, the reference serializer [wire] and the round trips.
    - Mapper, Stream: the command table, the key hash and the routing of
      Stream commands.
    - Router, RouterInv, RouterTheorems: the routing table with its
      two shared, reference-counted connection pools; connections are objects in a store,
      shared by the slots that point to them.  The pools of the ACL users are Forward's.
    - Forward, ForwardTheorems: forward.go, request.go, acl.go, acl_backend.go and the
      choice of a connection in backend.go and router.go.  The world [Fwd] is the routing
      table, the ACL snapshot, the pools of the users, and the log [fw_sent] of all
      messages pushed to connections (a push to a closed one panics); which connections are up, what servers answer and
      when the client is gone come from the class [Net].
    - Session: the handlers of session.go that split a request over keys
      and coalesce the replies, as plans, and their refinement of one Redis server.
    - AuthBruteforce: auth_bruteforce.go.  Parsing of addresses (class [Addresses]) and
      the order of Go's map iteration (class [MapRange]) are parameters with laws.
    - HotKeyCache, HotKeyProtocol: hot_key_cache.go, its refinement
      of a map, and the interleavings of reads and writes as step relations: [pstep], and
      [racy_step] in which the check of a token and the store are two steps.
    - Limiter: qps_limiter.go, with IEEE doubles from the Standard Library's SpecFloat.
    - SessionState, ClusterNodes, SessionHandler: the session and its registry
      (client_list.go), cluster_nodes.go, and the whole of [handleRequest] with
      session_auth.go, over the world [HW] of a session and the proxy it belongs to.
    - SessionSafety: what every request keeps, and what a request of an
      unauthorized client can do.
    - BackendConn, BackendTheorems: the goroutines of a backend connection (backend.go,
      delay.go, the flushing rule of redis/conn.go) as a step function on the program
      counters of the writer and of one reader for each established link; the network
      and the clock are the environment's, the server is the class [Server].
    - Pipeline: the request queue (request.go) and the two loops of a session, the reader
      with the whole of [handleRequest], as an interleaving [pipe_step].
    - SlotLock: the lock and the reference counter of a slot (slots.go, forward.go) under
      any number of requests and fills, as an interleaving [lstep]: a request reads the
      method before the lock, and may be dropped by its connection without an answer.
    - Broadcast, BroadcastTheorems: hot_key_cache_broadcast.go and topom_hot_key_cache.go,
      the reporter of a proxy, the dashboard's fan-out and the caches of the other
      proxies, as a step relation [bstep].
    - PitrFiles, PitrRun, PitrTheorems: point-in-time recovery
      (topom_pitr.go, topom_pitr_run.go, topom_pitr_api.go).  A job runs in a state monad
      with a trace of what it did; the class [Outside] answers its calls; [mstep]
      interleaves the API with the goroutines of the jobs.
    - RdbAnalysis: the statistics of topom_rdb_analysis.go, object by object,
      and what they amount to for a whole file.  RdbPaths: the paths of the workspace.
      RdbManager, RdbJobs: the manager of the jobs with uploads and downloads
      (topom_rdb_analysis_remote_fetch.go); [rm_exec] executes one event of any request or
      goroutine.  RdbApi: topom_rdb_analysis_api.go and the check of the server.
    - RedisClient: the dashboard's client of a Redis server
      (utils/redis/client.go and reply.go), over the class [RedisEnd] of what servers
      answer and when the time is read.  RedisPool: the pool of clients and the cache of
      run ids.  Sentinel: sentinel.go, the commands to one sentinel and the votes of many,
      and the watcher of topom_sentinel.go.
    - TopomStats: topom_stats.go and utils/sync2/future.go, the refreshes of the
      dashboard's statistics with their goroutines.  TopomQPS: topom_qps_limit.go.
    - Ha, HaTheorems: cmd/ha/main.go, the health checker, against any dashboard and
      against the modelled one.
    - ProxyServer: the life of a proxy (proxy.go, jodis.go) with its
      sentinel monitors and the pools of its ACL users as events [pv_exec], and the
      handlers of proxy_api.go.
    - Units: utils/bytesize and utils/timesize.
    - TopomApi, TopomApiTheorems: the dashboard's HTTP API (topom_api.go, utils/rpc), the
      routes and handlers, those of recoveries and RDB analyses included, and the client's
      calls; bodies are encoded and requests are routed by the classes [Binding] (whose
      laws are for UTF-8 texts and 64-bit numbers) and [Martini].
    - Store, StoreTheorems: models/store.go over the interface [Client] of a coordinator
      with its laws [ClientLaws]; [holds] relates its documents to the description [db] of
      TopomState.  FsClient, FsTheorems: models/fs/fsclient.go over a tree of files whose
      system calls fail as the class [FsEnv] says, an instance of the interface.
    - AdminConfig: codis-admin on a coordinator (cmd/admin/admin.go
      with utils/args.go and cmd/internal/coordinator/args.go), over the store.
      AdminDashboard: its commands on a dashboard
      (cmd/admin/dashboard.go), over any dashboard, and over HTTP at the modelled one.
    - Configs: config.go of the proxy and of the dashboard.

    * What the theorems show

    The theorem that states a property carries its number in its comment.

    - Migration: in every run without forced operations, at every moment, two proxies
      that both serve a slot unlocked agree on the group ([migration_agreement]), and once
      a migration is stored every proxy serving from the target knows the source
      ([migrating_knows_source]).  No operation on slots, groups, servers, sentinels and
      proxies panics ([no_panic]), except on a list of slots with a null
      ([null_slot_panics]), the description stays well formed ([cluster_well_formed]),
      operations start from a fresh view of it ([newContext_fresh]).  The selection of migrations, each step of one, parallel
      planning and promotions do what they say (TopomFunctional), and rebalancing leaves
      every group within one slot of its share ([rebalance_balances]).
    - ACLs: which AUTH a proxy answers with OK after an update is what the request says
      ([acl_logins], whose right-hand side uses none of the code's normalization), and servers, store and proxies learn of an update in this order
      ([UpdateACL_correct]); [acl_write_forgotten] shows the one case in which the
      dashboard loses track.
    - Recovery: whatever the API and the jobs do in which order, every step of a recovery
      comes after the success of the steps it depends on ([pitr_guarded]), one job at most
      holds a server ([pitr_exclusive]), and every job returns ([pitr_ends]); a job that
      is cancelled between two steps however blocks its server for ever
      ([interrupted_job_stuck]).  Timestamps are found however the file is read
      ([scan_range]), manifests are read back as printed ([manifest_print]).
    - RDB analysis: a job shown as done reports all keys of its file that count, with the
      right sums and the first keys in order ([rdb_report_true]); temporary files, slots
      for downloads and jobs are accounted for in every interleaving ([rdb_accounted]),
      though requests that check the number of jobs together exceed it
      ([limit_exceeded]); files are read only below the workspace ([resolve_confined]) and
      fetched only from servers of the product ([remote_fetch_confined]).
    - Servers: a pooled client belongs to one user at a time and is in no pending
      exchange when it is handed out ([pool_exclusive]); [SetMaster] is one transaction
      ([SetMaster_transaction]).  The masters the sentinels name are the newest that a
      majority reported ([masters_elected]), every announcement is followed
      by a query that begins after it ([announcement_followed]), and a sentinel
      told to monitor groups has been told all of them ([monitor_told]); when a sentinel
      answers too late, its goroutine meets a closed client ([late_monitor_panics]).
    - Health: a round of codis-ha does only what the states it saw call for ([ha_round]),
      asks for the replacement of a dead master ([ha_failover]) and shuts down only servers that are in no
      group ([ha_shutdown_safe]).  [ha_blocked], [ha_unseen] and [stray_master_kept] are
      cases in which it does not do what its comments say.  The rate limit reaches the
      proxies ([qps_update_correct]) and its status tells the truth ([qps_status_true]).
    - Proxy: a closed proxy stays closed, with no shared connection and no sentinel client
      left ([proxy_close_final]), though with the pools of its ACL users
      ([user_pool_outlives]); what
      the dashboard records of a proxy's slots is what the proxy serves ([fill_refines]);
      [stale_switch]: masters named by replaced sentinels can still be switched to.
    - API: a call of the client is the operation it names ([api_faithful]); without the key
      of the product a request to any route changes nothing ([api_guarded]); plans are read back as
      printed ([parse_print_plan]).
    - Store: over any coordinator with the laws, the store is the description that the
      dashboard's theorems are about ([store_refines]); the coordinator in a directory has
      the laws whichever system calls fail ([fs_coordinator]).
    - Administration: a dump of a cluster can be restored, when no migration or promotion is
      under way and every slot has a group ([dump_restore]); a restoration that is refused
      has written nothing ([config_restore]), but one that the coordinator interrupts leaves
      slots without their groups ([restore_interrupted]), and an unassigned slot is refused
      ([unassigned_refused]).  The conversion of a description of Codis 1 keeps its slots
      and servers ([convert_correct]).  Commands are the operations they are named after
      ([admin_commands]); those that only show a plan change nothing ([unconfirmed_reads])
      and print the whole of it ([printed_plan]).
    - Configurations: one that is accepted is one the parts can work with
      ([proxy_config_works], [dashboard_config_works]), and the default ones are accepted
      ([default_proxy_accepted], [default_dashboard_accepted]).
    - Units: sizes and durations survive the configuration file ([units_roundtrip]), except
      durations with nanoseconds ([duration_not_read_back]) and sizes that do not fit
      64 bits ([size_overflows]).
    - Protocol: replies and requests survive the wire however it is cut into packets
      ([decode_encode], [decode_encode_request]), no input makes the coder panic
      ([codec_no_panic]), numbers are read as the standard library does
      ([Btoi64_ParseInt]).  Further theorems of these files: inline requests, the
      allocator's slices never overlap, printing of numbers.
    - Routing: the open connections of the shared pools are exactly those needed
      ([router_connections]), filling a slot and following a failover have the described
      effect ([FillSlot_correct], [SwitchMasters_correct]), Stream commands are sent to
      the slot of all their keys ([stream_route_safe]), keys are hashed by their tags
      ([Hash_tag]), and the refused commands with a '-' in their names are not refused
      ([getOpInfo_dashed]).
    - Forwarding: a request is handed to a connection of its database and user that leads
      to the slot's server, after the source of a migration has moved its key
      ([forward_correct]), and forwarding ends ([forward_ends]).  An update of the ACL between
      the choice of a connection and the push makes the push panic ([push_after_SetACL]).
    - Connections: every request pushed is answered once ([backend_exactly_once]), with
      the reply to its own message ([backend_own_reply]), and does not wait for ever
      ([backend_all_answered]); [dropped_request_delays] and [closed_request_forgotten]
      show that the two conditions of the last are needed.  Pipelined requests are
      answered in order ([pipeline_in_order]).  A slot is changed only when no request it
      forwarded is unanswered, and never again after one was dropped
      ([fill_waits_for_requests]); [old_method] is a request forwarded by a method that the
      slot no longer has.
    - Sessions: MGET, MSET, DEL and EXISTS over many slots behave as on one server in
      whatever order the parts are run ([sharding_transparent]; not so an MSET that
      repeats a key, [mset_repeated]), and fail as a whole when one part fails
      ([coalesce_all_or_error]).  No request panics or leaves the session's database, as
      long as the ACL is not updated in the middle of one ([session_confined]), and nobody gets
      at a server or a cached value without logging in ([no_access_without_auth]).  CLUSTER NODES gives every slot to one of the
      proxies ([cluster_nodes_view]).
    - Guards: a locked address stays locked ([auth_lock_holds]) and guessing is throttled
      ([auth_throttled]).
    - Hot keys: the cache is bounded ([cache_bounded]), implements a map with time limits
      ([cache_refines]), and a hit is current whenever no executed write is
      unacknowledged, in runs without an acknowledgement between the check of a token and
      the store ([hot_key_fresh]).  [pipelined_read_stale] and [store_race_stale] show that
      both conditions are needed, and the code does not ensure the second one;
      [empty_hit_is_nil]: a hit on an empty value is answered as if there were none.
      Invalidations for the other proxies are not lost while the reporter is enabled, and
      when no call fails they take effect ([broadcast_delivers]).

    * Bounds and fuel

    Loops over slots, groups and servers are recursions on lists.  [plan_actions] takes as
    many turns as the configured parallelism, which [plan_actions_disjoint] shows to be enough.  The retry
    loop [processSlotAction] may run for ever when servers fail: it takes a bound, and
    keeps the invariant for every bound.  [ReadSlice] has a bound of one more than the buffer size, [Write] and
    [WriteString] of two more than their argument, both proved to be enough for every
    reader and writer.  [ReadBytes], [ReadFull] and nested arrays are bounded by an
    argument; the round-trip theorems hold for every bound above the length of the
    message, and the absence of panics for every bound.  The retry loop of forwarding has
    a bound on its rounds; [forward_ends] gives one that is enough, and the other theorems hold
    for every bound.  Evictions from the hot-key cache are bounded by its number of entries.
    [even_out], the loop of the rebalancing, has a bound computed from the slots and the
    groups; running out of it counts as a panic, which [no_panic] excludes.
    The loops of a recovery that wait for a server take one turn a second until their
    timeout; their bound is two turns more, and [pitr_ends] shows that it is enough.
    Action indexes and counters are
    integers of unbounded size where the theorems say so; the table of printed numbers
    keeps the 32-bit wrap-around of its offsets.

    * Not modelled

    The zookeeper, etcd and consul clients (protocols of third-party libraries); JSON, a
    parameter where a round trip matters; TOML, the export of the counters to statsd and
    influxdb, log files; of codis-admin the overview, the direct commands on proxies and the
    commands on recoveries and RDB files, and the main functions of the other command line
    tools; listeners, sockets and their deadlines; in the session handler a request's forwarding is one step, and the
    lock of the slot and the connection it goes to are modelled in files of their own;
    the parser of RDB files and the Redis server itself. *)

From stdpp Require Export base option list gmap strings sorting.
From Stdlib Require Export ZArith Lia.

#[global] Open Scope Z_scope.

(** * Outcomes of Go code

    A Go function with an [error] result either returns a value ([Ok]), returns
    a non-nil error ([Err]) or panics ([Panic]). *)
Inductive outcome (E A : Type) : Type :=
| Ok (a : A)
| Err (e : E)
| Panic.
Arguments Ok {E A} a.
Arguments Err {E A} e.
Arguments Panic {E A}.

(** A pure fallible computation is an [outcome]; a stateful one threads a world. *)
Definition M (W E A : Type) : Type := W → outcome E A * W.

Section monad.
Context {W E : Type}.

#[global] Instance outcome_ret : MRet (outcome E) := λ A a, Ok a.
#[global] Instance outcome_bind : MBind (outcome E) := λ A B k m,
  match m with Ok a => k a | Err e => Err e | Panic => Panic end.

#[global] Instance M_ret : MRet (M W E) := λ A a w, (Ok a, w).
#[global] Instance M_bind : MBind (M W E) := λ A B k m w,
  match m w with
  | (Ok a, w') => k a w'
  | (Err e, w') => (Err e, w')
  | (Panic, w') => (Panic, w')
  end.

(** [return nil, err] *)
Definition fail {A} (e : E) : M W E A := λ w, (Err e, w).
(** a run-time panic *)
Definition panic {A} : M W E A := λ w, (Panic, w).
Definition lift {A} (r : outcome E A) : M W E A := λ w, (r, w).
Definition gets {A} (f : W → A) : M W E A := λ w, (Ok (f w), w).
Definition modify (f : W → W) : M W E unit := λ w, (Ok tt, f w).
(** [defer cleanup()]: the cleanup runs when the rest of the function is done,
    on every path out of it. *)
Definition defer {A} (cleanup : W → W) (m : M W E A) : M W E A := λ w,
  let '(r, w') := m w in (r, cleanup w').
(** a call whose error is logged and otherwise ignored *)
Definition ignore_err {A} (m : M W E A) : M W E unit := λ w,
  let '(r, w') := m w in
  (match r with Panic => Panic | _ => Ok tt end, w').
(** [if err := m(); err != nil { handler }] *)
Definition on_err {A} (m : M W E A) (h : E → M W E A) : M W E A := λ w,
  match m w with
  | (Err e, w') => h e w'
  | rw => rw
  end.

(** ** Postconditions *)
Definition wp {A} (m : M W E A) (Q : outcome E A → W → Prop) (w : W) : Prop :=
  Q (m w).1 (m w).2.

Lemma wp_mono {A} (m : M W E A) (Q Q' : outcome E A → W → Prop) w :
  wp m Q w → (∀ r w', Q r w' → Q' r w') → wp m Q' w.
Proof. unfold wp. auto. Qed.

Lemma wp_and {A} (m : M W E A) (Q Q' : outcome E A → W → Prop) w :
  wp m Q w → wp m Q' w → wp m (λ r w', Q r w' ∧ Q' r w') w.
Proof. by unfold wp. Qed.

Lemma wp_ret {A} (a : A) Q w : Q (Ok a) w → wp (mret a) Q w.
Proof. done. Qed.

Lemma wp_fail {A} (e : E) (Q : outcome E A → W → Prop) w : Q (Err e) w → wp (fail e) Q w.
Proof. done. Qed.

Lemma wp_panic {A} (Q : outcome E A → W → Prop) w : Q Panic w → wp panic Q w.
Proof. done. Qed.

Lemma wp_lift {A} (r : outcome E A) Q w : Q r w → wp (lift r) Q w.
Proof. done. Qed.

Lemma wp_gets {A} (f : W → A) Q w : Q (Ok (f w)) w → wp (gets f) Q w.
Proof. done. Qed.

Lemma wp_modify (f : W → W) Q w : Q (Ok tt) (f w) → wp (modify f) Q w.
Proof. done. Qed.

Lemma wp_bind {A B} (m : M W E A) (k : A → M W E B) Q w :
  wp m (λ r w', match r with
                | Ok a => wp (k a) Q w'
                | Err e => Q (Err e) w'
                | Panic => Q Panic w'
                end) w →
  wp (m ≫= k) Q w.
Proof.
  unfold wp, mbind, M_bind. destruct (m w) as [[a|e|] w'] eqn:E1; cbn; done.
Qed.

Lemma wp_defer {A} c (m : M W E A) Q w :
  wp m (λ r w', Q r (c w')) w → wp (defer c m) Q w.
Proof. unfold wp, defer. by destruct (m w). Qed.

Lemma wp_ignore_err {A} (m : M W E A) Q w :
  wp m (λ r w', Q (match r with Panic => Panic | _ => Ok tt end) w') w →
  wp (ignore_err m) Q w.
Proof. unfold wp, ignore_err. by destruct (m w). Qed.

Lemma wp_on_err {A} (m : M W E A) h Q w :
  wp m (λ r w', match r with Err e => wp (h e) Q w' | _ => Q r w' end) w →
  wp (on_err m h) Q w.
Proof. unfold wp, on_err. by destruct (m w) as [[] ?]. Qed.

Lemma wp_lift_bind {A B} (r : outcome E A) (k : A → M W E B) Q w :
  (∀ a, r = Ok a → wp (k a) Q w) →
  (∀ e, r = Err e → Q (Err e) w) → (r = Panic → Q Panic w) →
  wp (lift r ≫= k) Q w.
Proof. intros H1 H2 H3. apply wp_bind, wp_lift. destruct r; eauto. Qed.

(** ** Invariants: [safe I m] when [m], started where [I] holds, does not panic and
    leaves a world where [I] holds, whatever else its outcome is. *)
Definition safe (I : W → Prop) {A} (m : M W E A) : Prop :=
  ∀ w, I w → wp m (λ r w', r ≠ Panic ∧ I w') w.

Lemma safe_ret I {A} (a : A) : safe I (mret a).
Proof. by intros w. Qed.
Lemma safe_fail I {A} e : safe I (fail (A := A) e).
Proof. by intros w. Qed.
Lemma safe_gets I {A} (f : W → A) : safe I (gets f).
Proof. by intros w. Qed.
Lemma safe_modify (I : W → Prop) f : (∀ w, I w → I (f w)) → safe I (modify f).
Proof. intros Hf w Hw. split; [done|]. by apply Hf. Qed.
Lemma safe_bind I {A B} (m : M W E A) (k : A → M W E B) :
  safe I m → (∀ a, safe I (k a)) → safe I (m ≫= k).
Proof.
  intros Hm Hk w Hw. apply wp_bind. eapply wp_mono; [by apply Hm|].
  intros [a|e|] w' [? ?]; [by apply Hk|done|done].
Qed.
Lemma safe_lift_bind I {A B} (r : outcome E A) (k : A → M W E B) :
  r ≠ Panic → (∀ a, r = Ok a → safe I (k a)) → safe I (lift r ≫= k).
Proof.
  intros Hr Hk w Hw. apply wp_lift_bind; [|done|done]. intros a Ha. by apply Hk.
Qed.
Lemma safe_gets_bind I {A B} (f : W → A) (k : A → M W E B) :
  (∀ a, safe I (k a)) → safe I (gets f ≫= k).
Proof. intros Hk. by apply safe_bind; [apply safe_gets|]. Qed.
Lemma safe_ignore_err I {A} (m : M W E A) : safe I m → safe I (ignore_err m).
Proof.
  intros Hm w Hw. apply wp_ignore_err. eapply wp_mono; [by apply Hm|].
  by intros [a|e|] w' [? ?].
Qed.
Lemma safe_on_err I {A} (m : M W E A) h :
  safe I m → (∀ e, safe I (h e)) → safe I (on_err m h).
Proof.
  intros Hm Hh w Hw. apply wp_on_err. eapply wp_mono; [by apply Hm|].
  intros [a|e|] w' [? ?]; [done|by apply Hh|done].
Qed.
(** A deferred cleanup that takes the invariant [J] of the body back to [I]. *)
Lemma safe_defer (I J : W → Prop) c {A} (m : M W E A) :
  (∀ w, I w → J w) → (∀ w, J w → I (c w)) → safe J m → safe I (defer c m).
Proof.
  intros HIJ HJI Hm w Hw. apply wp_defer. eapply wp_mono; [by apply Hm, HIJ|].
  intros r w' [? ?]. split; [done|]. by apply HJI.
Qed.

Lemma safe_result I {A} (m : M W E A) w r w' : safe I m → I w → m w = (r, w') → I w'.
Proof. intros Hm Hw Hr. destruct (Hm w Hw) as [_ H2]. by rewrite Hr in H2. Qed.

(** ** Results: [okp m Q w] when [m], if it returns a value, returns one that satisfies [Q]. *)
Definition okp {A} (m : M W E A) (Q : A → W → Prop) (w : W) : Prop :=
  ∀ a w', m w = (Ok a, w') → Q a w'.

Lemma okp_mono {A} (m : M W E A) (Q Q' : A → W → Prop) w :
  okp m Q w → (∀ a w', Q a w' → Q' a w') → okp m Q' w.
Proof. unfold okp. eauto. Qed.
Lemma okp_ret {A} (a : A) (Q : A → W → Prop) w : Q a w → okp (mret a) Q w.
Proof. by intros ? ? ? [= -> ->]. Qed.
Lemma okp_fail {A} e (Q : A → W → Prop) w : okp (fail e) Q w.
Proof. by intros ? ?. Qed.
Lemma okp_panic {A} (Q : A → W → Prop) w : okp panic Q w.
Proof. by intros ? ?. Qed.
Lemma okp_lift {A} (r : outcome E A) (Q : A → W → Prop) w :
  (∀ a, r = Ok a → Q a w) → okp (lift r) Q w.
Proof. intros HQ ? ? [= -> ->]. auto. Qed.
Lemma okp_gets {A} (f : W → A) (Q : A → W → Prop) w : Q (f w) w → okp (gets f) Q w.
Proof. by intros ? ? ? [= <- <-]. Qed.
Lemma okp_modify f (Q : unit → W → Prop) w : Q tt (f w) → okp (modify f) Q w.
Proof. by intros ? [] ? [= <-]. Qed.
Lemma okp_bind {A B} (m : M W E A) (k : A → M W E B) Q w :
  okp m (λ a w', okp (k a) Q w') w → okp (m ≫= k) Q w.
Proof.
  intros Hm b w'. unfold mbind, M_bind. destruct (m w) as [[a|e|] w0] eqn:Ha; [|done..].
  by apply Hm.
Qed.
Lemma okp_defer {A} c (m : M W E A) (Q : A → W → Prop) w :
  okp m (λ a w', Q a (c w')) w → okp (defer c m) Q w.
Proof.
  intros Hm a w'. unfold defer. destruct (m w) as [r w0] eqn:Ha. intros [= -> <-]. by apply Hm.
Qed.
Lemma okp_on_err {A} (m : M W E A) h (Q : A → W → Prop) w :
  okp m Q w → (∀ e w', okp (h e) Q w') → okp (on_err m h) Q w.
Proof.
  intros Hm Hh a w'. unfold on_err. destruct (m w) as [[x|e|] w0] eqn:Ha; [|apply Hh|done].
  intros [= -> ->]. by apply Hm.
Qed.
Lemma okp_wp {A} (m : M W E A) (Q : outcome E A → W → Prop) w :
  wp m Q w → okp m (λ a w', Q (Ok a) w') w.
Proof. unfold wp. intros HQ a w' Ha. by rewrite Ha in HQ. Qed.

(** ** Errors: [errp P m] when every error [m] returns satisfies [P]. *)
Definition errp (P : E → Prop) {A} (m : M W E A) : Prop :=
  ∀ w e w', m w = (Err e, w') → P e.

Lemma errp_ret P {A} (a : A) : errp P (mret a).
Proof. by intros ? ?. Qed.
Lemma errp_gets P {A} (f : W → A) : errp P (gets f).
Proof. by intros ? ?. Qed.
Lemma errp_modify P f : errp P (modify f).
Proof. by intros ? ?. Qed.
Lemma errp_fail (P : E → Prop) {A} e : P e → errp P (fail (A := A) e).
Proof. by intros ? ? ? ? [= <- _]. Qed.
Lemma errp_bind P {A B} (m : M W E A) (k : A → M W E B) :
  errp P m → (∀ a, errp P (k a)) → errp P (m ≫= k).
Proof.
  intros Hm Hk w e w'. unfold mbind, M_bind. destruct (m w) as [[a|x|] w0] eqn:Ha; [apply Hk| |done].
  intros [= <- <-]. by eapply Hm.
Qed.
End monad.

Arguments M_bind : simpl never.
Arguments wp : simpl never.

(** [for _, x := range l { body }] with early exit on error *)
Fixpoint for_each {W E A} (l : list A) (body : A → M W E unit) : M W E unit :=
  match l with
  | [] => mret tt
  | x :: l' => body x ;; for_each l' body
  end.

Lemma safe_for_each {W E A} (I : W → Prop) (l : list A) (body : A → M W E unit) :
  (∀ x, x ∈ l → safe I (body x)) → safe I (for_each l body).
Proof.
  induction l as [|x l IH]; intros Hb; cbn; [apply safe_ret|].
  apply safe_bind; [apply Hb; by constructor|]. intros _. apply IH.
  intros y Hy. apply Hb. by constructor.
Qed.

Lemma errp_for_each {W E A} (P : E → Prop) (l : list A) (body : A → M W E unit) :
  (∀ x, errp P (body x)) → errp P (for_each l body).
Proof.
  intros Hb. induction l as [|x l IH]; cbn; [apply errp_ret|]. by apply errp_bind.
Qed.

Create HintDb safe.
#[export] Hint Resolve safe_ret safe_fail safe_gets : safe.

(** One symbolic-execution step on a [wp] goal. *)
Ltac wp_step :=
  lazymatch goal with
  | |- wp (mret _) _ _ => apply wp_ret
  | |- wp (gets _) _ _ => apply wp_gets
  | |- wp (modify _) _ _ => apply wp_modify
  | |- wp (fail _) _ _ => apply wp_fail
  | |- wp panic _ _ => apply wp_panic
  | |- wp (lift _) _ _ => apply wp_lift
  | |- wp (defer _ _) _ _ => apply wp_defer
  | |- wp (ignore_err _) _ _ => apply wp_ignore_err
  | |- wp (on_err _ _) _ _ => apply wp_on_err
  | |- wp (mbind _ _) _ _ => apply wp_bind
  end.
Ltac wp_steps := repeat (wp_step; cbn beta iota).

(** The same on an [okp] goal. *)
Ltac okp_step :=
  lazymatch goal with
  | |- okp (mret _) _ _ => apply okp_ret
  | |- okp (gets _) _ _ => apply okp_gets
  | |- okp (modify _) _ _ => apply okp_modify
  | |- okp (fail _) _ _ => apply okp_fail
  | |- okp panic _ _ => apply okp_panic
  | |- okp (lift _) _ _ => apply okp_lift; intros ? ?
  | |- okp (defer _ _) _ _ => apply okp_defer
  | |- okp (mbind _ _) _ _ => apply okp_bind
  end.
