(* ===== verification/Models.v ===== *)
(** Data model shared by the dashboard and the proxies (pkg/models).

    The structs of slots.go, group.go, proxy.go, sentinel.go, acl.go,
    proxy_qps_limit.go, topom.go and action.go, the forward-method parser and the
    sorting helpers of sorter.go.  A Go [int] or [int64] is a [Z]; [i64] writes out
    the 64-bit wrap-around where the code adds.  A Go slice is a list. *)

From S2P Require Import Prelude.
(** 64-bit two's complement wrap-around of Go's [int] and [int64]. *)
Definition i64 (z : Z) : Z := (z + 2 ^ 63) `mod` 2 ^ 64 - 2 ^ 63.
Definition max_int64 : Z := 2 ^ 63 - 1.

Lemma i64_id z : - 2 ^ 63 ≤ z ≤ max_int64 → i64 z = z.
Proof. unfold i64, max_int64. intros ?. rewrite Z.mod_small; lia. Qed.

(** pkg/utils/math2 *)
Definition MaxInt (a b : Z) : Z := if decide (a > b) then a else b.
Definition MinInt (a b : Z) : Z := if decide (a < b) then a else b.
(** [None] is the panic for an empty interval. *)
Definition MinMaxInt (v mn mx : Z) : option Z :=
  if decide (mn ≤ mx) then Some (MinInt (MaxInt v mn) mx) else None.

Lemma MaxInt_max a b : MaxInt a b = a `max` b.
Proof. unfold MaxInt. case_decide; lia. Qed.
Lemma MinInt_min a b : MinInt a b = a `min` b.
Proof. unfold MinInt. case_decide; lia. Qed.

(** ** action.go: the action states.

    The Go code keeps a state as a string; [ActionOther] holds every string that
    is not one of the named constants. *)
Inductive ActionState : Type :=
| ActionNothing
| ActionPending
| ActionPreparing
| ActionPrepared
| ActionMigrating
| ActionFinished
| ActionSyncing
| ActionOther (s : string).

#[export] Instance ActionState_eq_dec : EqDecision ActionState.
Proof. solve_decision. Defined.

(** ** slots.go *)
Definition ForwardSync : Z := 0.
Definition ForwardSemiAsync : Z := 1.
Definition MaxSlotNum : Z := 1024.

Record Slot := mkSlot {
  slot_Id : Z;
  slot_Locked : bool;
  slot_BackendAddr : string;
  slot_BackendAddrGroupId : Z;
  slot_MigrateFrom : string;
  slot_MigrateFromGroupId : Z;
  slot_ForwardMethod : Z;
  slot_ReplicaGroups : list (list string)
}.

#[export] Instance Slot_eq_dec : EqDecision Slot.
Proof. solve_decision. Defined.

(** [strings.ToUpper] on the bytes of an ASCII string; what it does to a string
    with bytes above 127 is a parameter. *)
Class UnicodeUpper := unicode_upper : string → string.

Definition ascii_code (a : Ascii.ascii) : Z := Z.of_N (Ascii.N_of_ascii a).
Definition upper_ascii (a : Ascii.ascii) : Ascii.ascii :=
  if decide (97 ≤ ascii_code a ≤ 122)
  then Ascii.ascii_of_N (Z.to_N (ascii_code a - 32)) else a.
Fixpoint string_map (f : Ascii.ascii → Ascii.ascii) (s : string) : string :=
  match s with
  | EmptyString => EmptyString
  | String a s' => String (f a) (string_map f s')
  end.
Fixpoint string_all (p : Ascii.ascii → bool) (s : string) : bool :=
  match s with
  | EmptyString => true
  | String a s' => p a && string_all p s'
  end.
Definition is_ascii (s : string) : bool :=
  string_all (λ a, bool_decide (ascii_code a < 128)) s.
Definition ToUpper `{UnicodeUpper} (s : string) : string :=
  if is_ascii s then string_map upper_ascii s else unicode_upper s.

Definition ParseForwardMethod `{UnicodeUpper} (s : string) : Z * bool :=
  let u := ToUpper s in
  if decide (u = "SYNC"%string) then (ForwardSync, true)
  else if decide (u = "SEMI-ASYNC"%string) then (ForwardSemiAsync, true)
  else (ForwardSync, false).

(** [SlotMapping.Action] *)
Record SlotAction := mkSlotAction {
  sa_Index : Z;
  sa_State : ActionState;
  sa_TargetId : Z
}.

Record SlotMapping := mkSlotMapping {
  sm_Id : Z;
  sm_GroupId : Z;
  sm_Action : SlotAction
}.

#[export] Instance SlotAction_eq_dec : EqDecision SlotAction.
Proof. solve_decision. Defined.
#[export] Instance SlotMapping_eq_dec : EqDecision SlotMapping.
Proof. solve_decision. Defined.

(** [&SlotMapping{Id: id, GroupId: gid}] *)
Definition no_action : SlotAction := mkSlotAction 0 ActionNothing 0.
Definition new_mapping (id gid : Z) : SlotMapping := mkSlotMapping id gid no_action.

Definition sm_State (m : SlotMapping) : ActionState := sa_State (sm_Action m).
Definition sm_Index (m : SlotMapping) : Z := sa_Index (sm_Action m).
Definition sm_TargetId (m : SlotMapping) : Z := sa_TargetId (sm_Action m).
(** field assignments [m.Action.State = st], [m.Action.Index = i], [m.Action.TargetId = g] *)
Definition sm_set_State (st : ActionState) (m : SlotMapping) : SlotMapping :=
  mkSlotMapping (sm_Id m) (sm_GroupId m) (mkSlotAction (sm_Index m) st (sm_TargetId m)).
Definition sm_set_Index (i : Z) (m : SlotMapping) : SlotMapping :=
  mkSlotMapping (sm_Id m) (sm_GroupId m) (mkSlotAction i (sm_State m) (sm_TargetId m)).
Definition sm_set_TargetId (g : Z) (m : SlotMapping) : SlotMapping :=
  mkSlotMapping (sm_Id m) (sm_GroupId m) (mkSlotAction (sm_Index m) (sm_State m) g).

(** ** group.go *)
Definition MaxGroupId : Z := 9999.

(** [GroupServer.Action] *)
Record ServerAction := mkServerAction { ga_Index : Z; ga_State : ActionState }.

Record GroupServer := mkGroupServer {
  gs_Addr : string;
  gs_DataCenter : string;
  gs_Action : ServerAction;
  gs_ReplicaGroup : bool
}.

(** [Group.Promoting] *)
Record Promoting := mkPromoting { pr_Index : Z; pr_State : ActionState }.

Record Group := mkGroup {
  g_Id : Z;
  g_Servers : list GroupServer;
  g_Promoting : Promoting;
  g_OutOfSync : bool
}.

#[export] Instance ServerAction_eq_dec : EqDecision ServerAction.
Proof. solve_decision. Defined.
#[export] Instance GroupServer_eq_dec : EqDecision GroupServer.
Proof. solve_decision. Defined.
#[export] Instance Promoting_eq_dec : EqDecision Promoting.
Proof. solve_decision. Defined.
#[export] Instance Group_eq_dec : EqDecision Group.
Proof. solve_decision. Defined.

Definition new_group (gid : Z) (servers : list GroupServer) : Group :=
  mkGroup gid servers (mkPromoting 0 ActionNothing) false.
Definition g_set_Servers (l : list GroupServer) (g : Group) : Group :=
  mkGroup (g_Id g) l (g_Promoting g) (g_OutOfSync g).
Definition g_set_OutOfSync (b : bool) (g : Group) : Group :=
  mkGroup (g_Id g) (g_Servers g) (g_Promoting g) b.
Definition g_set_Promoting (i : Z) (st : ActionState) (g : Group) : Group :=
  mkGroup (g_Id g) (g_Servers g) (mkPromoting i st) (g_OutOfSync g).
Definition gs_set_Action (i : Z) (st : ActionState) (x : GroupServer) : GroupServer :=
  mkGroupServer (gs_Addr x) (gs_DataCenter x) (mkServerAction i st) (gs_ReplicaGroup x).
Definition gs_set_ReplicaGroup (b : bool) (x : GroupServer) : GroupServer :=
  mkGroupServer (gs_Addr x) (gs_DataCenter x) (gs_Action x) b.

(** ** proxy.go, sentinel.go, proxy_qps_limit.go, acl.go, topom.go *)
Record Proxy := mkProxy {
  p_Id : Z;
  p_Token : string;
  p_StartTime : string;
  p_AdminAddr : string;
  p_ProtoType : string;
  p_ProxyAddr : string;
  p_JodisPath : string;
  p_ProductName : string;
  p_Pid : Z;
  p_Pwd : string;
  p_Sys : string;
  p_Hostname : string;
  p_DataCenter : string
}.

Definition p_set_Id (i : Z) (p : Proxy) : Proxy :=
  mkProxy i (p_Token p) (p_StartTime p) (p_AdminAddr p) (p_ProtoType p) (p_ProxyAddr p)
    (p_JodisPath p) (p_ProductName p) (p_Pid p) (p_Pwd p) (p_Sys p) (p_Hostname p)
    (p_DataCenter p).

Record Sentinel := mkSentinel { se_Servers : list string; se_OutOfSync : bool }.

Record ProxyQPSLimit := mkProxyQPSLimit {
  ql_Revision : Z;
  ql_Limit : Z;
  ql_UpdatedAt : string
}.

(** [DB *int] is an option. *)
Record ACLUser := mkACLUser {
  au_Name : string;
  au_Enabled : bool;
  au_DB : option Z;
  au_PasswordHashes : list string;
  au_Rules : list string
}.

Record ACL := mkACL {
  acl_Revision : Z;
  acl_Enabled : bool;
  acl_Users : list ACLUser;
  acl_UpdatedAt : string
}.

(** models.Topom, the record written under the dashboard's lock *)
Record TopomModel := mkTopomModel {
  tm_Token : string;
  tm_StartTime : string;
  tm_AdminAddr : string;
  tm_ProductName : string;
  tm_Pid : Z;
  tm_Pwd : string;
  tm_Sys : string
}.

#[export] Instance Proxy_eq_dec : EqDecision Proxy.
Proof. solve_decision. Defined.
#[export] Instance Sentinel_eq_dec : EqDecision Sentinel.
Proof. solve_decision. Defined.
#[export] Instance ProxyQPSLimit_eq_dec : EqDecision ProxyQPSLimit.
Proof. solve_decision. Defined.
#[export] Instance ACLUser_eq_dec : EqDecision ACLUser.
Proof. solve_decision. Defined.
#[export] Instance ACL_eq_dec : EqDecision ACL.
Proof. solve_decision. Defined.

Definition zero_Sentinel : Sentinel := mkSentinel [] false.
Definition zero_ACL : ACL := mkACL 0 false [] "".
Definition zero_ProxyQPSLimit : ProxyQPSLimit := mkProxyQPSLimit 0 0 "".

(** ** sorter.go

    [sort.Sort] orders the values of the map by [Id]; with pairwise distinct ids
    the result does not depend on the sorting algorithm. *)
Definition group_le (a b : Group) : Prop := g_Id a ≤ g_Id b.
Definition proxy_le (a b : Proxy) : Prop := p_Id a ≤ p_Id b.
#[export] Instance group_le_dec : RelDecision group_le.
Proof. intros a b. unfold group_le. apply _. Defined.
#[export] Instance proxy_le_dec : RelDecision proxy_le.
Proof. intros a b. unfold proxy_le. apply _. Defined.

Definition SortGroup (group : gmap Z Group) : list Group :=
  merge_sort group_le (map_to_list group).*2.
Definition SortProxy (proxy : gmap string Proxy) : list Proxy :=
  merge_sort proxy_le (map_to_list proxy).*2.

Lemma SortGroup_sorted group : Sorted group_le (SortGroup group).
Proof.
  apply Sorted_merge_sort. intros a b. unfold group_le. lia.
Qed.

Lemma SortGroup_perm group : SortGroup group ≡ₚ (map_to_list group).*2.
Proof. apply merge_sort_Permutation. Qed.
