(* ===== verification/TopomContext.v ===== *)
(** The dashboard's view of the cluster (pkg/topom/context.go).

    [context] is what one dashboard operation sees: the slot table, the groups, the
    proxies, the sentinels, the ACL and the limiter configuration.  Every query of
    context.go is a function of it.  A query that can call [log.Panicf] returns an
    [outcome]; a loop over a Go map takes the list of values in the order the
    runtime visits them. *)

From S2P Require Import Prelude Models.
(** The errors of the dashboard, one constructor per message. *)
Inductive terror : Type :=
| ErrClosedTopom
| ErrNotOnline
| ErrStore (what : string)                      (* "store: <what> failed" *)
| ErrInvalidNumberOfSlots (n : Z)
| ErrSlotNotExist (sid : Z)
| ErrGroupNotExist (gid : Z)
| ErrGroupHasNoServer (gid : Z) (addr : string)
| ErrServerNotExist (addr : string)
| ErrProxyNotExist (token : string)
| ErrGroupIsEmpty (gid : Z)
| ErrGroupNotEmpty (gid : Z)
| ErrInvalidGroupId (gid : Z)
| ErrGroupExists (gid : Z)
| ErrSlotActionExists (sid : Z)
| ErrSlotActionNotExist (sid : Z)
| ErrSlotActionNotPending (sid : Z)
| ErrSlotActionInvalid (sid : Z)
| ErrSlotInGroup (sid gid : Z)
| ErrSlotGroupNotZero (sid : Z)
| ErrInvalidSlotRange (beg end_ : Z)
| ErrInvalidSlotAction (sid : Z)
| ErrResyncSlots (token : string)
| ErrInvalidServerAddr
| ErrServerExists (addr : string)
| ErrGroupPromoting (gid : Z)
| ErrGroupPromotingIndex (gid index : Z)
| ErrCantRemoveMaster (gid : Z)
| ErrCantPromoteMaster (gid : Z)
| ErrMigrationRunning (n : Z)
| ErrGroupActionInvalid (gid : Z)
| ErrGroupHasNoMaster (gid : Z) (master : string)
| ErrServerActionExists (addr : string)
| ErrServerActionNotExist (addr : string)
| ErrServerActionInvalid (addr : string)
| ErrSyncACL (addr : string)
| ErrProxyFetchModel (addr : string)
| ErrProxyXAuth (addr : string)
| ErrProxyExists (token : string)
| ErrProxyShutdown (token : string)
| ErrProxyReinit (token what : string)
| ErrInvalidSentinelAddr
| ErrSentinelExists (addr : string)
| ErrSentinelNotFound (addr : string)
| ErrSentinelFlush (addr : string)
| ErrSentinelRemove (addr : string)
| ErrSentinelMonitor
| ErrProxySentinel (token : string)
| ErrNoValidGroup
| ErrRedis (addr : string)
| ErrMissingQPSLimitRequest
| ErrNegativeQPSLimit
| ErrQPSLimitSync (tokens : list string).

#[export] Instance terror_eq_dec : EqDecision terror.
Proof. solve_decision. Defined.

(** An IP address in canonical form; [None] is the nil [net.IP]. *)
Abbreviation IP := string.

Record context := mkContext {
  ctx_slots : list SlotMapping;
  ctx_group : gmap Z Group;
  ctx_proxy : gmap string Proxy;
  ctx_sentinel : Sentinel;
  ctx_acl : ACL;
  ctx_proxyQPSLimit : ProxyQPSLimit;
  ctx_hosts : string → option IP;
  ctx_method : Z
}.

(** ** Slots *)

(** [slots[sid]] for a Go index; [None] is the index-out-of-range panic. *)
Definition zlookup {A} (l : list A) (i : Z) : option A :=
  if decide (0 ≤ i) then l !! Z.to_nat i else None.

Definition getSlotMapping (ctx : context) (sid : Z) : outcome terror SlotMapping :=
  if decide (Z.of_nat (length (ctx_slots ctx)) ≠ MaxSlotNum)
  then Err (ErrInvalidNumberOfSlots (Z.of_nat (length (ctx_slots ctx))))
  else if decide (0 ≤ sid ∧ sid < MaxSlotNum)
  then match zlookup (ctx_slots ctx) sid with Some m => Ok m | None => Panic end
  else Err (ErrSlotNotExist sid).

Definition uses_group (gid : Z) (m : SlotMapping) : bool :=
  bool_decide (sm_GroupId m = gid) || bool_decide (sm_TargetId m = gid).

Definition getSlotMappingsByGroupId (ctx : context) (gid : Z) : list SlotMapping :=
  filter (λ m, uses_group gid m = true) (ctx_slots ctx).

(** The running maximum starts at 0, the zero value of the named result. *)
Definition maxSlotActionIndex (ctx : context) : Z :=
  foldl (λ mx m, if decide (sm_State m ≠ ActionNothing) then MaxInt mx (sm_Index m) else mx)
    0 (ctx_slots ctx).

(** ** Groups *)

Definition getGroup (ctx : context) (gid : Z) : outcome terror Group :=
  match ctx_group ctx !! gid with
  | Some g => Ok g
  | None => Err (ErrGroupNotExist gid)
  end.

Fixpoint find_server (addr : string) (i : Z) (l : list GroupServer) : option Z :=
  match l with
  | [] => None
  | x :: l' => if decide (gs_Addr x = addr) then Some i else find_server addr (i + 1) l'
  end.

Definition getGroupIndex (g : Group) (addr : string) : outcome terror Z :=
  match find_server addr 0 (g_Servers g) with
  | Some i => Ok i
  | None => Err (ErrGroupHasNoServer (g_Id g) addr)
  end.

(** [gs] are the groups in the order the map is ranged over. *)
Fixpoint getGroupByServer (gs : list Group) (addr : string) : outcome terror (Group * Z) :=
  match gs with
  | [] => Err (ErrServerNotExist addr)
  | g :: gs' =>
      match find_server addr 0 (g_Servers g) with
      | Some i => Ok (g, i)
      | None => getGroupByServer gs' addr
      end
  end.

Definition is_pending (x : GroupServer) : bool :=
  bool_decide (ga_State (gs_Action x) = ActionPending).

Definition maxSyncActionIndex (gs : list Group) : Z :=
  foldl (λ mx g,
    foldl (λ mx x, if is_pending x then MaxInt mx (ga_Index (gs_Action x)) else mx)
      mx (g_Servers g)) 0 gs.

Definition minSyncActionIndex (gs : list Group) : string :=
  let d := foldl (λ d g,
    foldl (λ d x,
      if is_pending x then
        match d with
        | None => Some x
        | Some y => if decide (ga_Index (gs_Action x) < ga_Index (gs_Action y))
                    then Some x else d
        end
      else d) d (g_Servers g)) None gs in
  match d with
  | None => ""%string
  | Some x => gs_Addr x
  end.

Definition getGroupMaster (ctx : context) (gid : Z) : string :=
  match ctx_group ctx !! gid with
  | Some g => match g_Servers g with x :: _ => gs_Addr x | [] => ""%string end
  | None => ""%string
  end.

Definition getGroupMasters (gs : list Group) : gmap Z string :=
  foldl (λ ms g, match g_Servers g with
                 | x :: _ => <[g_Id g := gs_Addr x]> ms
                 | [] => ms
                 end) ∅ gs.

Definition getGroupIds (gs : list Group) : gset Z :=
  foldl (λ ids g, {[ g_Id g ]} ∪ ids) ∅ gs.

Definition isGroupInUse (ctx : context) (gid : Z) : bool :=
  existsb (uses_group gid) (ctx_slots ctx).

Definition isGroupLocked (ctx : context) (gid : Z) : outcome terror bool :=
  match ctx_group ctx !! gid with
  | Some g =>
      match pr_State (g_Promoting g) with
      | ActionNothing => Ok false
      | ActionPreparing => Ok false
      | ActionPrepared => Ok true
      | ActionFinished => Ok false
      | _ => Panic
      end
  | None => Ok false
  end.

Definition isGroupPromoting (ctx : context) (gid : Z) : bool :=
  match ctx_group ctx !! gid with
  | Some g => bool_decide (pr_State (g_Promoting g) ≠ ActionNothing)
  | None => false
  end.

(** ** From a mapping to what a proxy is told *)

Definition isSlotLocked (ctx : context) (m : SlotMapping) : outcome terror bool :=
  match sm_State m with
  | ActionNothing | ActionPending => isGroupLocked ctx (sm_GroupId m)
  | ActionPreparing => isGroupLocked ctx (sm_GroupId m)
  | ActionPrepared => Ok true
  | ActionMigrating =>
      (* [a || b]: the second call happens only when the first is false *)
      a ← isGroupLocked ctx (sm_GroupId m);
      if (a : bool) then Ok true else isGroupLocked ctx (sm_TargetId m)
  | ActionFinished => isGroupLocked ctx (sm_TargetId m)
  | _ => Panic
  end.

Definition lookupIPAddr (ctx : context) (addr : string) : option IP := ctx_hosts ctx addr.

Definition getPriority (ctx : context) (dc : string) (ip : option IP) (s : GroupServer) : Z :=
  match ip with
  | None => 2
  | Some i =>
      if decide (dc ≠ gs_DataCenter s) then 2
      else match lookupIPAddr ctx (gs_Addr s) with
           | Some j => if decide (i = j) then 0 else 1
           | None => 1
           end
  end.

Definition toReplicaGroups (ctx : context) (gid : Z) (p : option Proxy) : list (list string) :=
  match ctx_group ctx !! gid with
  | None => []
  | Some g =>
      if decide (pr_State (g_Promoting g) ≠ ActionNothing) then []
      else if decide ((length (g_Servers g) <= 1)%nat) then []
      else
        let dc := match p with Some p => p_DataCenter p | None => ""%string end in
        let ip := match p with Some p => lookupIPAddr ctx (p_AdminAddr p) | None => None end in
        let bucket k := map gs_Addr (filter (λ s,
          gs_ReplicaGroup s = true ∧ getPriority ctx dc ip s = k) (g_Servers g)) in
        filter (λ l, l ≠ []) [bucket 0; bucket 1; bucket 2]
  end.

Definition toSlot (ctx : context) (m : SlotMapping) (p : option Proxy) : outcome terror Slot :=
  locked ← isSlotLocked ctx m;
  match sm_State m with
  | ActionNothing | ActionPending =>
      Ok (mkSlot (sm_Id m) locked
            (getGroupMaster ctx (sm_GroupId m)) (sm_GroupId m) "" 0
            (ctx_method ctx) (toReplicaGroups ctx (sm_GroupId m) p))
  | ActionPreparing =>
      Ok (mkSlot (sm_Id m) locked
            (getGroupMaster ctx (sm_GroupId m)) (sm_GroupId m) "" 0
            (ctx_method ctx) [])
  | ActionPrepared | ActionMigrating =>
      Ok (mkSlot (sm_Id m) locked
            (getGroupMaster ctx (sm_TargetId m)) (sm_TargetId m)
            (getGroupMaster ctx (sm_GroupId m)) (sm_GroupId m)
            (ctx_method ctx) [])
  | ActionFinished =>
      Ok (mkSlot (sm_Id m) locked
            (getGroupMaster ctx (sm_TargetId m)) (sm_TargetId m) "" 0
            (ctx_method ctx) [])
  | _ => Panic
  end.

Fixpoint toSlotSlice (ctx : context) (slots : list SlotMapping) (p : option Proxy)
    : outcome terror (list Slot) :=
  match slots with
  | [] => Ok []
  | m :: slots' =>
      s ← toSlot ctx m p;
      l ← toSlotSlice ctx slots' p;
      Ok (s :: l)
  end.

(** ** Proxies *)

Definition getProxy (ctx : context) (token : string) : outcome terror Proxy :=
  match ctx_proxy ctx !! token with
  | Some p => Ok p
  | None => Err (ErrProxyNotExist token)
  end.

Definition maxProxyId (ctx : context) : Z :=
  map_fold (λ _ p mx, MaxInt mx (p_Id p)) 0 (ctx_proxy ctx).

(** * Properties of the queries *)

Lemma zlookup_Some {A} (l : list A) i x :
  zlookup l i = Some x ↔ 0 ≤ i ∧ l !! Z.to_nat i = Some x.
Proof. unfold zlookup. case_decide; naive_solver. Qed.

Lemma getSlotMapping_Ok ctx sid m :
  getSlotMapping ctx sid = Ok m ↔
  Z.of_nat (length (ctx_slots ctx)) = MaxSlotNum ∧ 0 ≤ sid < MaxSlotNum ∧
  ctx_slots ctx !! Z.to_nat sid = Some m.
Proof.
  unfold getSlotMapping. case_decide as Hl; [naive_solver|].
  case_decide as Hs; [|naive_solver].
  destruct (zlookup (ctx_slots ctx) sid) eqn:E; split; intros H.
  - apply zlookup_Some in E. naive_solver.
  - apply zlookup_Some in E. naive_solver.
  - done.
  - assert (zlookup (ctx_slots ctx) sid = Some m); [apply zlookup_Some; naive_solver|congruence].
Qed.

Lemma getSlotMapping_no_panic ctx sid : getSlotMapping ctx sid ≠ Panic.
Proof.
  unfold getSlotMapping. repeat case_decide; try done.
  destruct (zlookup _ _) eqn:E; [done|]. exfalso. revert E. unfold zlookup.
  case_decide; [|lia]. intros Hn%lookup_ge_None. unfold MaxSlotNum in *. lia.
Qed.

(** The index a new slot action gets exceeds that of every action in progress. *)
Lemma foldl_max_ge {A} (P : A → Prop) `{∀ x, Decision (P x)} (f : A → Z) l mx :
  mx ≤ foldl (λ mx m, if decide (P m) then MaxInt mx (f m) else mx) mx l ∧
  ∀ x, x ∈ l → P x →
    f x ≤ foldl (λ mx m, if decide (P m) then MaxInt mx (f m) else mx) mx l.
Proof.
  revert mx. induction l as [|y l IH]; intros mx; cbn.
  - split; [lia|]. intros x Hx. by apply elem_of_nil in Hx.
  - destruct (IH (if decide (P y) then MaxInt mx (f y) else mx)) as [IH1 IH2].
    rewrite MaxInt_max in *.
    split; [case_decide; lia|].
    intros x [->|Hx]%elem_of_cons HP; [|eauto].
    case_decide; [lia|done].
Qed.

Lemma maxSlotActionIndex_ge ctx m :
  m ∈ ctx_slots ctx → sm_State m ≠ ActionNothing → sm_Index m ≤ maxSlotActionIndex ctx.
Proof. intros. by apply (foldl_max_ge (λ m, sm_State m ≠ ActionNothing) sm_Index). Qed.

Lemma maxSlotActionIndex_nonneg ctx : 0 ≤ maxSlotActionIndex ctx.
Proof. apply (foldl_max_ge (λ m, sm_State m ≠ ActionNothing) sm_Index). Qed.

Lemma isGroupInUse_true ctx gid :
  isGroupInUse ctx gid = true ↔
  ∃ m, m ∈ ctx_slots ctx ∧ (sm_GroupId m = gid ∨ sm_TargetId m = gid).
Proof.
  unfold isGroupInUse. rewrite existsb_exists.
  setoid_rewrite <- list_elem_of_In. unfold uses_group.
  setoid_rewrite orb_true_iff. setoid_rewrite bool_decide_eq_true. done.
Qed.

Lemma find_server_Some addr i l k :
  find_server addr i l = Some k →
  ∃ x, i ≤ k ∧ l !! Z.to_nat (k - i) = Some x ∧ gs_Addr x = addr.
Proof.
  revert i. induction l as [|y l IH]; intros i; cbn; [done|]. case_decide as Hy.
  - intros [= <-]. exists y. rewrite Z.sub_diag. split_and!; [lia|done|done].
  - intros (x & ? & Hx & ?)%IH. exists x. split_and!; [lia| |done].
    replace (Z.to_nat (k - i)) with (S (Z.to_nat (k - (i + 1)))) by lia. done.
Qed.

Lemma find_server_None addr i l :
  find_server addr i l = None ↔ ∀ x, x ∈ l → gs_Addr x ≠ addr.
Proof.
  revert i. induction l as [|y l IH]; intros i; cbn.
  - split; [|done]. intros _ x Hx. by apply elem_of_nil in Hx.
  - case_decide; [split; [done|set_solver]|]. rewrite IH. set_solver.
Qed.

Lemma getGroupByServer_Ok gs addr g i :
  getGroupByServer gs addr = Ok (g, i) →
  g ∈ gs ∧ ∃ x, 0 ≤ i ∧ g_Servers g !! Z.to_nat i = Some x ∧ gs_Addr x = addr.
Proof.
  induction gs as [|g' gs IH]; cbn; [done|].
  destruct (find_server addr 0 (g_Servers g')) eqn:Hf.
  - intros [= <- <-]. apply find_server_Some in Hf as (x & ? & Hx & ?).
    rewrite Z.sub_0_r in Hx. split; [set_solver|eauto].
  - intros [? ?]%IH. split; [set_solver|done].
Qed.

Lemma isGroupLocked_false_no_prepared ctx gid g :
  isGroupLocked ctx gid = Ok false → ctx_group ctx !! gid = Some g →
  pr_State (g_Promoting g) ≠ ActionPrepared.
Proof. unfold isGroupLocked. intros H1 H2. rewrite H2 in H1. by destruct (pr_State _). Qed.

Lemma toSlot_Ok ctx m p s :
  toSlot ctx m p = Ok s →
  slot_Id s = sm_Id m ∧ isSlotLocked ctx m = Ok (slot_Locked s) ∧
  slot_ForwardMethod s = ctx_method ctx.
Proof.
  unfold toSlot. destruct (isSlotLocked ctx m) as [b|e|] eqn:Hl; cbn; [|done..].
  destruct (sm_State m); intros [= <-]; cbn; by rewrite ?Hl.
Qed.

Lemma toSlotSlice_Ok ctx slots p l :
  toSlotSlice ctx slots p = Ok l →
  Forall2 (λ m s, toSlot ctx m p = Ok s) slots l.
Proof.
  revert l. induction slots as [|m slots IH]; intros l; cbn.
  - intros [= <-]. constructor.
  - destruct (toSlot ctx m p) eqn:E1; cbn; [|done..].
    destruct (toSlotSlice ctx slots p) eqn:E2; cbn; [|done..].
    intros [= <-]. constructor; auto.
Qed.
