(* ===== verification/TopomState.v ===== *)
(** The dashboard's state, its cache and the coordinator (pkg/topom/topom.go,
    topom_cache.go).

    [world] is a dashboard ([Topom]), the coordinator content it writes to ([db],
    the abstract store that Store.v implements over paths and JSON documents) and
    the slot tables the proxies hold.  The cache holds the very objects an
    operation mutates, so an operation writes through to [w_cache]; the deferred
    [dirty...Cache] hooks drop the entries it touched before the next operation.

    Everything outside the repository's code (coordinator, proxies' admin API,
    Redis servers, clock, DNS, map iteration order) is the class [Env], indexed by
    a counter that every external call advances. *)

From S2P Require Import Prelude Models TopomContext.
(** * The coordinator's content *)
Record db := mkDb {
  db_slots : gmap Z SlotMapping;
  db_group : gmap Z Group;
  db_proxy : gmap string Proxy;
  db_sentinel : option Sentinel;
  db_acl : option ACL;
  db_qps : option ProxyQPSLimit;
  db_lock : option TopomModel
}.

Definition db_set_slot (m : SlotMapping) (d : db) : db :=
  mkDb (<[sm_Id m := m]> (db_slots d)) (db_group d) (db_proxy d) (db_sentinel d)
    (db_acl d) (db_qps d) (db_lock d).
Definition db_set_group (g : Group) (d : db) : db :=
  mkDb (db_slots d) (<[g_Id g := g]> (db_group d)) (db_proxy d) (db_sentinel d)
    (db_acl d) (db_qps d) (db_lock d).
Definition db_del_group (gid : Z) (d : db) : db :=
  mkDb (db_slots d) (delete gid (db_group d)) (db_proxy d) (db_sentinel d)
    (db_acl d) (db_qps d) (db_lock d).
Definition db_set_proxy (p : Proxy) (d : db) : db :=
  mkDb (db_slots d) (db_group d) (<[p_Token p := p]> (db_proxy d)) (db_sentinel d)
    (db_acl d) (db_qps d) (db_lock d).
Definition db_del_proxy (t : string) (d : db) : db :=
  mkDb (db_slots d) (db_group d) (delete t (db_proxy d)) (db_sentinel d)
    (db_acl d) (db_qps d) (db_lock d).
Definition db_set_sentinel (s : Sentinel) (d : db) : db :=
  mkDb (db_slots d) (db_group d) (db_proxy d) (Some s) (db_acl d) (db_qps d) (db_lock d).
Definition db_set_acl (a : ACL) (d : db) : db :=
  mkDb (db_slots d) (db_group d) (db_proxy d) (db_sentinel d) (Some a) (db_qps d) (db_lock d).
Definition db_set_qps (q : ProxyQPSLimit) (d : db) : db :=
  mkDb (db_slots d) (db_group d) (db_proxy d) (db_sentinel d) (db_acl d) (Some q) (db_lock d).
Definition db_set_lock (l : option TopomModel) (d : db) : db :=
  mkDb (db_slots d) (db_group d) (db_proxy d) (db_sentinel d) (db_acl d) (db_qps d) l.

(** * The environment *)

(** A coordinator write that reports an error may still have taken effect. *)
Inductive write_outcome := WriteOk | WriteErr (applied : bool).
(** A failed [FillSlots] leaves a prefix of its slots installed. *)
Inductive fill_outcome := FillOk | FillErr (n : nat).

Class Env := {
  env_read : nat → bool;                        (* coordinator read succeeds *)
  env_write : nat → write_outcome;              (* coordinator write *)
  env_fill : nat → fill_outcome;                (* a proxy's FillSlots *)
  env_call : nat → bool;                        (* another remote call succeeds *)
  env_model : nat → option Proxy;               (* a proxy's Model() *)
  env_migrate : nat → option Z;                 (* SLOTSMGRT...: keys left, None an error *)
  env_keyspace : nat → option (list Z);         (* INFO keyspace: the databases in use *)
  env_runid : nat → string → string;            (* a server's run id, "" when unknown *)
  env_resolve : nat → string → option IP;       (* DNS, as of one context *)
  env_now : nat → string;                       (* formatted clock *)
  env_range : nat → list Z → list Z;            (* map iteration order *)
  env_range_tokens : nat → list string → list string
}.

Class EnvLaws `{Env} := {
  env_range_perm t l : env_range t l ≡ₚ l;
  env_range_tokens_perm t l : env_range_tokens t l ≡ₚ l
}.

(** The configuration fields the modelled code reads. *)
Class Config := {
  cfg_MigrationMethod : string;
  cfg_MigrationParallelSlots : Z;
  cfg_BackendAuthUsername : string
}.

(** * The cache *)

Inductive hook :=
| HookSlots (sid : Z)
| HookGroup (gid : Z)
| HookProxy (token : string)
| HookSentinel
| HookACL
| HookProxyQPSLimit
| HookAll.

Record cache := mkCache {
  c_hooks : list hook;
  c_slots : option (list (option SlotMapping));
  c_group : option (gmap Z (option Group));
  c_proxy : option (gmap string (option Proxy));
  c_sentinel : option Sentinel;
  c_acl : option ACL;
  c_qps : option ProxyQPSLimit
}.

Definition c_set_hooks h (c : cache) : cache :=
  mkCache h (c_slots c) (c_group c) (c_proxy c) (c_sentinel c) (c_acl c) (c_qps c).
Definition c_set_slots x (c : cache) : cache :=
  mkCache (c_hooks c) x (c_group c) (c_proxy c) (c_sentinel c) (c_acl c) (c_qps c).
Definition c_set_group x (c : cache) : cache :=
  mkCache (c_hooks c) (c_slots c) x (c_proxy c) (c_sentinel c) (c_acl c) (c_qps c).
Definition c_set_proxy x (c : cache) : cache :=
  mkCache (c_hooks c) (c_slots c) (c_group c) x (c_sentinel c) (c_acl c) (c_qps c).
Definition c_set_sentinel x (c : cache) : cache :=
  mkCache (c_hooks c) (c_slots c) (c_group c) (c_proxy c) x (c_acl c) (c_qps c).
Definition c_set_acl x (c : cache) : cache :=
  mkCache (c_hooks c) (c_slots c) (c_group c) (c_proxy c) (c_sentinel c) x (c_qps c).
Definition c_set_qps x (c : cache) : cache :=
  mkCache (c_hooks c) (c_slots c) (c_group c) (c_proxy c) (c_sentinel c) (c_acl c) x.

Definition empty_cache : cache := mkCache [] None None None None None None.

(** * The world *)

(** A proxy's slot table as filled by the dashboard: slot id to the last
    [models.Slot] it accepted for it. *)
Abbreviation table := (gmap Z Slot).

Record world := mkWorld {
  w_db : db;
  w_cache : cache;
  w_closed : bool;
  w_online : bool;
  w_disabled : bool;                       (* action.disabled *)
  w_interval : Z;                          (* action.interval *)
  w_executor : Z;                          (* action.executor *)
  w_masters : option (gmap Z string);      (* ha.masters *)
  w_tables : gmap string table;            (* what each proxy was last told *)
  w_hosts : string → option IP;            (* ctx.hosts of the current context *)
  w_tick : nat;
  w_log : list (db * gmap string table)    (* every state of store and tables, latest first *)
}.

(** A change of the store or of a table is one more entry of the log. *)
Definition set_db x (w : world) : world :=
  mkWorld x (w_cache w) (w_closed w) (w_online w) (w_disabled w) (w_interval w)
    (w_executor w) (w_masters w) (w_tables w) (w_hosts w) (w_tick w)
    ((x, w_tables w) :: w_log w).
Definition set_cache x (w : world) : world :=
  mkWorld (w_db w) x (w_closed w) (w_online w) (w_disabled w) (w_interval w)
    (w_executor w) (w_masters w) (w_tables w) (w_hosts w) (w_tick w) (w_log w).
Definition set_closed x (w : world) : world :=
  mkWorld (w_db w) (w_cache w) x (w_online w) (w_disabled w) (w_interval w)
    (w_executor w) (w_masters w) (w_tables w) (w_hosts w) (w_tick w) (w_log w).
Definition set_online x (w : world) : world :=
  mkWorld (w_db w) (w_cache w) (w_closed w) x (w_disabled w) (w_interval w)
    (w_executor w) (w_masters w) (w_tables w) (w_hosts w) (w_tick w) (w_log w).
Definition set_disabled x (w : world) : world :=
  mkWorld (w_db w) (w_cache w) (w_closed w) (w_online w) x (w_interval w)
    (w_executor w) (w_masters w) (w_tables w) (w_hosts w) (w_tick w) (w_log w).
Definition set_interval x (w : world) : world :=
  mkWorld (w_db w) (w_cache w) (w_closed w) (w_online w) (w_disabled w) x
    (w_executor w) (w_masters w) (w_tables w) (w_hosts w) (w_tick w) (w_log w).
Definition set_executor x (w : world) : world :=
  mkWorld (w_db w) (w_cache w) (w_closed w) (w_online w) (w_disabled w) (w_interval w)
    x (w_masters w) (w_tables w) (w_hosts w) (w_tick w) (w_log w).
Definition set_masters x (w : world) : world :=
  mkWorld (w_db w) (w_cache w) (w_closed w) (w_online w) (w_disabled w) (w_interval w)
    (w_executor w) x (w_tables w) (w_hosts w) (w_tick w) (w_log w).
Definition set_tables x (w : world) : world :=
  mkWorld (w_db w) (w_cache w) (w_closed w) (w_online w) (w_disabled w) (w_interval w)
    (w_executor w) (w_masters w) x (w_hosts w) (w_tick w) ((w_db w, x) :: w_log w).
Definition set_hosts x (w : world) : world :=
  mkWorld (w_db w) (w_cache w) (w_closed w) (w_online w) (w_disabled w) (w_interval w)
    (w_executor w) (w_masters w) (w_tables w) x (w_tick w) (w_log w).
Definition set_tick x (w : world) : world :=
  mkWorld (w_db w) (w_cache w) (w_closed w) (w_online w) (w_disabled w) (w_interval w)
    (w_executor w) (w_masters w) (w_tables w) (w_hosts w) x (w_log w).

Abbreviation T := (M world terror).

(** Each external call reads the environment at the current counter and advances it. *)
Definition next_tick : T nat := λ w, (Ok (w_tick w), set_tick (S (w_tick w)) w).

(** * Cache invalidation (the [dirty...Cache] functions) *)

Definition push_hook (h : hook) (w : world) : world :=
  set_cache (c_set_hooks (c_hooks (w_cache w) ++ [h]) (w_cache w)) w.

Definition dirtySlotsCache (sid : Z) : world → world := push_hook (HookSlots sid).
Definition dirtyGroupCache (gid : Z) : world → world := push_hook (HookGroup gid).
Definition dirtyProxyCache (token : string) : world → world := push_hook (HookProxy token).
Definition dirtySentinelCache : world → world := push_hook HookSentinel.
Definition dirtyACLCache : world → world := push_hook HookACL.
Definition dirtyProxyQPSLimitCache : world → world := push_hook HookProxyQPSLimit.
Definition dirtyCacheAll : world → world := push_hook HookAll.

(** The closure a hook runs; [None] is the index-out-of-range panic. *)
Definition run_hook (h : hook) (c : cache) : option cache :=
  match h with
  | HookSlots sid =>
      match c_slots c with
      | None => Some c
      | Some l =>
          if decide (0 ≤ sid < Z.of_nat (length l))
          then Some (c_set_slots (Some (<[Z.to_nat sid := None]> l)) c)
          else None
      end
  | HookGroup gid =>
      Some (match c_group c with
            | None => c
            | Some g => c_set_group (Some (<[gid := None]> g)) c
            end)
  | HookProxy t =>
      Some (match c_proxy c with
            | None => c
            | Some p => c_set_proxy (Some (<[t := None]> p)) c
            end)
  | HookSentinel => Some (c_set_sentinel None c)
  | HookACL => Some (c_set_acl None c)
  | HookProxyQPSLimit => Some (c_set_qps None c)
  | HookAll => Some (mkCache (c_hooks c) None None None None None None)
  end.

(** [for i := hooks.Len(); i != 0; i-- { hooks.Remove(hooks.Front())() }] *)
Fixpoint run_hooks (hs : list hook) (c : cache) : option cache :=
  match hs with
  | [] => Some (c_set_hooks [] c)
  | h :: hs' => c' ← run_hook h (c_set_hooks hs' c); run_hooks hs' c'
  end.

(** * The store, as the dashboard calls it (models.Store)

    [must] is always false in these calls: a missing node is a nil document. *)
Section store.
Context `{Env}.

Definition store_read (what : string) {A} (f : db → A) : T A :=
  t ← next_tick;
  if env_read t then gets (λ w, f (w_db w)) else fail (ErrStore what).

Definition store_write (what : string) (f : db → db) : T unit :=
  t ← next_tick;
  match env_write t with
  | WriteOk => modify (λ w, set_db (f (w_db w)) w)
  | WriteErr true => modify (λ w, set_db (f (w_db w)) w) ;; fail (ErrStore what)
  | WriteErr false => fail (ErrStore what)
  end.

Definition LoadSlotMapping (sid : Z) : T (option SlotMapping) :=
  store_read "load slots" (λ d, db_slots d !! sid).
Definition LoadGroup (gid : Z) : T (option Group) :=
  store_read "load group" (λ d, db_group d !! gid).
Definition LoadProxy (t : string) : T (option Proxy) :=
  store_read "load proxy" (λ d, db_proxy d !! t).

Definition or_new_mapping (sid : Z) (m : option SlotMapping) : SlotMapping :=
  default (new_mapping sid 0) m.

(** [SlotMappings]: all 1024 mappings, from slot [i] on *)
Fixpoint SlotMappings_from (i : Z) (n : nat) : T (list SlotMapping) :=
  match n with
  | O => mret []
  | S n' =>
      m ← LoadSlotMapping i;
      l ← SlotMappings_from (i + 1) n';
      mret (or_new_mapping i m :: l)
  end.
Definition SlotMappings : T (list SlotMapping) := SlotMappings_from 0 1024.

(** [ListGroup] and [ListProxy]: one listing, then one read per path; the
    documents are keyed by the id they carry. *)
Definition list_docs {K V} `{Countable K} (what : string) (get : db → gmap K V)
    (key : V → K) : T (gmap K V) :=
  vs ← store_read what (λ d, (map_to_list (get d)).*2);
  for_each vs (λ _, store_read what (λ _, ())) ;;
  mret (foldl (λ m v, <[key v := v]> m) ∅ vs).
Definition ListGroup : T (gmap Z Group) := list_docs "load group" db_group g_Id.
Definition ListProxy : T (gmap string Proxy) := list_docs "load proxy" db_proxy p_Token.

(** ** The [storeUpdate...] wrappers *)
Definition storeUpdateSlotMapping (m : SlotMapping) : T unit :=
  store_write "update slot" (db_set_slot m).
Definition storeCreateGroup (g : Group) : T unit :=
  store_write "create group" (db_set_group g).
Definition storeUpdateGroup (g : Group) : T unit :=
  store_write "update group" (db_set_group g).
Definition storeRemoveGroup (g : Group) : T unit :=
  store_write "remove group" (db_del_group (g_Id g)).
Definition storeCreateProxy (p : Proxy) : T unit :=
  store_write "create proxy" (db_set_proxy p).
Definition storeUpdateProxy (p : Proxy) : T unit :=
  store_write "update proxy" (db_set_proxy p).
Definition storeRemoveProxy (p : Proxy) : T unit :=
  store_write "remove proxy" (db_del_proxy (p_Token p)).
Definition storeUpdateSentinel (s : Sentinel) : T unit :=
  store_write "update sentinel" (db_set_sentinel s).
Definition storeUpdateACL (a : ACL) : T unit :=
  store_write "update acl" (db_set_acl a).
Definition storeUpdateProxyQPSLimit (q : ProxyQPSLimit) : T unit :=
  store_write "update proxy qps limit" (db_set_qps q).

(** * Refilling the cache *)

(** assignments to the cached objects *)
Definition put_slot (i : nat) (m : SlotMapping) (w : world) : world :=
  match c_slots (w_cache w) with
  | Some l => set_cache (c_set_slots (Some (<[i := Some m]> l)) (w_cache w)) w
  | None => w
  end.
Definition put_group (gid : Z) (g : Group) (w : world) : world :=
  match c_group (w_cache w) with
  | Some gs => set_cache (c_set_group (Some (<[gid := Some g]> gs)) (w_cache w)) w
  | None => w
  end.
Definition put_sentinel (s : Sentinel) (w : world) : world :=
  set_cache (c_set_sentinel (Some s) (w_cache w)) w.

Definition refill_slot (i : nat) : T unit :=
  c ← gets w_cache;
  match c_slots c with
  | Some l =>
      match l !! i with
      | Some None =>
          m ← LoadSlotMapping (Z.of_nat i);
          modify (put_slot i (or_new_mapping (Z.of_nat i) m))
      | _ => mret tt
      end
  | None => mret tt
  end.

Definition refillCacheSlots : T unit :=
  c ← gets w_cache;
  match c_slots c with
  | None =>
      l ← SlotMappings;
      modify (λ w, set_cache (c_set_slots (Some (Some <$> l)) (w_cache w)) w)
  | Some l => for_each (seq 0 (length l)) refill_slot
  end.

(** The body of the loops of [refillCacheGroup] and [refillCacheProxy]: a nil entry
    is loaded, and deleted when the store has no such document. *)
Definition refill_entry {K V} `{Countable K}
    (get : cache → option (gmap K (option V)))
    (set : option (gmap K (option V)) → cache → cache)
    (load : K → T (option V)) (k : K) : T unit :=
  c ← gets w_cache;
  match get c with
  | Some m =>
      match m !! k with
      | Some None =>
          v ← load k;
          modify (λ w, match get (w_cache w) with
                       | Some m =>
                           set_cache (set (Some match v with
                                                | Some x => <[k := Some x]> m
                                                | None => delete k m
                                                end) (w_cache w)) w
                       | None => w
                       end)
      | _ => mret tt
      end
  | None => mret tt
  end.

Definition refillCacheGroup : T unit :=
  c ← gets w_cache;
  match c_group c with
  | None =>
      g ← ListGroup;
      modify (λ w, set_cache (c_set_group (Some (Some <$> g)) (w_cache w)) w)
  | Some gs =>
      t ← next_tick;
      for_each (env_range t (map_to_list gs).*1) (refill_entry c_group c_set_group LoadGroup)
  end.

Definition refillCacheProxy : T unit :=
  c ← gets w_cache;
  match c_proxy c with
  | None =>
      p ← ListProxy;
      modify (λ w, set_cache (c_set_proxy (Some (Some <$> p)) (w_cache w)) w)
  | Some ps =>
      t ← next_tick;
      for_each (env_range_tokens t (map_to_list ps).*1)
        (refill_entry c_proxy c_set_proxy LoadProxy)
  end.

Definition refillCacheSentinel : T unit :=
  c ← gets w_cache;
  match c_sentinel c with
  | Some _ => mret tt
  | None =>
      s ← store_read "load sentinel" db_sentinel;
      modify (λ w, set_cache (c_set_sentinel (Some (default zero_Sentinel s)) (w_cache w)) w)
  end.

Definition refillCacheACL : T unit :=
  c ← gets w_cache;
  match c_acl c with
  | Some _ => mret tt
  | None =>
      a ← store_read "load acl" db_acl;
      modify (λ w, set_cache (c_set_acl (Some (default zero_ACL a)) (w_cache w)) w)
  end.

Definition refillCacheProxyQPSLimit : T unit :=
  c ← gets w_cache;
  match c_qps c with
  | Some _ => mret tt
  | None =>
      q ← store_read "load proxy qps limit" db_qps;
      modify (λ w, set_cache (c_set_qps (Some (default zero_ProxyQPSLimit q)) (w_cache w)) w)
  end.

Definition pop_hooks : T unit := λ w,
  match run_hooks (c_hooks (w_cache w)) (w_cache w) with
  | Some c => (Ok tt, set_cache c w)
  | None => (Panic, w)
  end.

Definition refillCache : T unit :=
  pop_hooks ;;
  refillCacheSlots ;;
  refillCacheGroup ;;
  refillCacheProxy ;;
  refillCacheSentinel ;;
  refillCacheACL ;;
  refillCacheProxyQPSLimit.

(** * Contexts *)
Context `{Config} `{UnicodeUpper}.

(** What a context sees of the cached objects: the context holds the cache's own
    slice and maps, so reading it again after a mutation sees the new values.
    [None]: a nil entry would be dereferenced. *)
Definition ctx_of (w : world) : option context :=
  let c := w_cache w in
  cs ← c_slots c;
  slots ← mapM id cs;
  cg ← c_group c;
  cp ← c_proxy c;
  se ← c_sentinel c;
  a ← c_acl c;
  q ← c_qps c;
  Some (mkContext slots (omap id cg) (omap id cp) se a q (w_hosts w)
          (ParseForwardMethod cfg_MigrationMethod).1).

Definition cur_ctx : T context := λ w,
  match ctx_of w with
  | Some ctx => (Ok ctx, w)
  | None => (Panic, w)
  end.

Definition newContext : T context :=
  w ← gets id;
  if w_closed w then fail ErrClosedTopom
  else if w_online w then
    refillCache ;;
    t ← next_tick;
    modify (set_hosts (env_resolve t)) ;;
    cur_ctx
  else fail ErrNotOnline.

(** [for _, g := range ctx.group]: the groups in iteration order *)
Definition range_groups (ctx : context) : T (list Group) :=
  t ← next_tick;
  mret (omap (λ gid, ctx_group ctx !! gid) (env_range t (map_to_list (ctx_group ctx)).*1)).
Definition range_proxies (ctx : context) : T (list Proxy) :=
  t ← next_tick;
  mret (omap (λ tk, ctx_proxy ctx !! tk)
          (env_range_tokens t (map_to_list (ctx_proxy ctx)).*1)).

(** * Life cycle (topom.go; [Start] is in TopomGroup.v) *)

(** [New]: a dashboard that has read nothing yet; what is outside it stays. *)
Definition New (w : world) : world :=
  mkWorld (w_db w) empty_cache false false false 0 0 None (w_tables w) (w_hosts w)
    (w_tick w) (w_log w).

(** [store.Acquire(model)]: creates the lock node, and fails when the node exists. *)
Definition Acquire (model : TopomModel) : T unit :=
  w ← gets id;
  t ← next_tick;
  match db_lock (w_db w), env_write t with
  | Some _, _ => fail (ErrStore "acquire lock")
  | None, WriteErr true =>
      modify (λ w, set_db (db_set_lock (Some model) (w_db w)) w) ;;
      fail (ErrStore "acquire lock")
  | None, WriteErr false => fail (ErrStore "acquire lock")
  | None, WriteOk => modify (λ w, set_db (db_set_lock (Some model) (w_db w)) w)
  end.

Definition Close : T unit :=
  w ← gets id;
  if w_closed w then mret tt
  else
    modify (set_closed true) ;;
    if w_online w
    then store_write "release lock" (db_set_lock None)
    else mret tt.

Definition IsOnline (w : world) : bool := w_online w && negb (w_closed w).
Definition IsClosed (w : world) : bool := w_closed w.

Definition SetSlotActionInterval (us : Z) : T unit :=
  match MinMaxInt us 0 (1000 * 1000) with
  | Some us => modify (set_interval us)
  | None => panic
  end.
Definition SetSlotActionDisabled (b : bool) : T unit := modify (set_disabled b).

Definition Slots : T (list Slot) :=
  ctx ← newContext;
  lift (toSlotSlice ctx (ctx_slots ctx) None).

Definition Reload : T unit :=
  newContext ;;
  defer dirtyCacheAll (mret tt).
End store.
