(* ===== verification/TopomCache.v ===== *)
(** Coherence of the dashboard's cache with the coordinator.

    [coh H w] says that every cached entry that no queued hook (and no hook of [H],
    the hooks the running operation has deferred) will drop agrees with the store.
    The rules below show that each primitive of TopomState.v keeps it, and
    [newContext_fresh] that under it a context is exactly the store's content. *)

From S2P Require Import Prelude Models TopomContext TopomState.
(** * What the store says *)

Definition slot_at (d : db) (i : Z) : SlotMapping := or_new_mapping i (db_slots d !! i).
Definition all_slots (d : db) : list SlotMapping := slot_at d <$> seqZ 0 MaxSlotNum.

(** Documents are stored under their own id. *)
Record db_wf (d : db) : Prop := {
  db_wf_slots i m : db_slots d !! i = Some m → sm_Id m = i;
  db_wf_group gid g : db_group d !! gid = Some g → g_Id g = gid;
  db_wf_proxy t p : db_proxy d !! t = Some p → p_Token p = t
}.

(** * Coherence *)

(** Which entries a hook drops. *)
Definition hits_slot (i : Z) (h : hook) : bool :=
  match h with HookSlots j => bool_decide (i = j) | HookAll => true | _ => false end.
Definition hits_group (i : Z) (h : hook) : bool :=
  match h with HookGroup j => bool_decide (i = j) | HookAll => true | _ => false end.
Definition hits_proxy (t : string) (h : hook) : bool :=
  match h with HookProxy t' => bool_decide (t = t') | HookAll => true | _ => false end.
Definition hits_sentinel (h : hook) : bool :=
  match h with HookSentinel | HookAll => true | _ => false end.
Definition hits_acl (h : hook) : bool :=
  match h with HookACL | HookAll => true | _ => false end.
Definition hits_qps (h : hook) : bool :=
  match h with HookProxyQPSLimit | HookAll => true | _ => false end.

(** [dirty p D]: some hook of [D] satisfies [p]. *)
Definition dirty (p : hook → bool) (D : list hook) : Prop := existsb p D = true.

Definition slots_coh (D : list hook) (c : option (list (option SlotMapping))) (d : db) : Prop :=
  match c with
  | None => True
  | Some l =>
      Z.of_nat (length l) = MaxSlotNum ∧
      ∀ i m, l !! i = Some (Some m) →
        sm_Id m = Z.of_nat i ∧
        (dirty (hits_slot (Z.of_nat i)) D ∨ m = slot_at d (Z.of_nat i))
  end.

Definition map_coh {K V} `{Countable K} (key : V → K) (hits : K → hook → bool)
    (D : list hook) (c : option (gmap K (option V))) (d : gmap K V) : Prop :=
  match c with
  | None => True
  | Some m => ∀ k,
      (∀ v, m !! k = Some (Some v) → key v = k) ∧
      (dirty (hits k) D ∨ m !! k = Some None ∨ m !! k = Some <$> d !! k)
  end.

Definition cell_coh {A} (hits : hook → bool) (D : list hook) (c : option A) (x : A) : Prop :=
  dirty hits D ∨ c = None ∨ c = Some x.

Record cache_coh (D : list hook) (c : cache) (d : db) : Prop := {
  cc_range sid : HookSlots sid ∈ D → 0 ≤ sid < MaxSlotNum;
  cc_slots : slots_coh D (c_slots c) d;
  cc_group : map_coh g_Id hits_group D (c_group c) (db_group d);
  cc_proxy : map_coh p_Token hits_proxy D (c_proxy c) (db_proxy d);
  cc_sentinel : cell_coh hits_sentinel D (c_sentinel c)
                  (default zero_Sentinel (db_sentinel d));
  cc_acl : cell_coh hits_acl D (c_acl c) (default zero_ACL (db_acl d));
  cc_qps : cell_coh hits_qps D (c_qps c) (default zero_ProxyQPSLimit (db_qps d))
}.

Arguments slots_coh : simpl never.
Arguments map_coh : simpl never.
Arguments cell_coh : simpl never.

Definition coh (H : list hook) (w : world) : Prop :=
  db_wf (w_db w) ∧ cache_coh (c_hooks (w_cache w) ++ H) (w_cache w) (w_db w).

(** A context whose objects carry the ids they are filed under. *)
Record ctx_wf (ctx : context) : Prop := {
  cw_length : Z.of_nat (length (ctx_slots ctx)) = MaxSlotNum;
  cw_slots i m : ctx_slots ctx !! i = Some m → sm_Id m = Z.of_nat i;
  cw_group gid g : ctx_group ctx !! gid = Some g → g_Id g = gid;
  cw_proxy t p : ctx_proxy ctx !! t = Some p → p_Token p = t
}.

(** The context that shows exactly the store's content. *)
Definition ctx_db `{Config} `{UnicodeUpper} (d : db) (hosts : string → option IP) : context :=
  mkContext (all_slots d) (db_group d) (db_proxy d)
    (default zero_Sentinel (db_sentinel d)) (default zero_ACL (db_acl d))
    (default zero_ProxyQPSLimit (db_qps d)) hosts
    (ParseForwardMethod cfg_MigrationMethod).1.

(** What an operation that only refills the cache leaves alone. *)
Definition same_outside (w w' : world) : Prop :=
  w_db w' = w_db w ∧ w_closed w' = w_closed w ∧ w_online w' = w_online w ∧
  w_disabled w' = w_disabled w ∧ w_interval w' = w_interval w ∧
  w_executor w' = w_executor w ∧ w_masters w' = w_masters w ∧ w_tables w' = w_tables w ∧
  w_log w' = w_log w.

#[export] Instance same_outside_refl : Reflexive same_outside.
Proof. by intros w. Qed.
#[export] Instance same_outside_trans : Transitive same_outside.
Proof. unfold same_outside. intros x y z Hxy Hyz. destruct_and!. split_and!; congruence. Qed.

(** * Generic lemmas *)

Lemma slot_at_Id d i : db_wf d → sm_Id (slot_at d i) = i.
Proof.
  intros Hd. unfold slot_at, or_new_mapping. destruct (db_slots d !! i) eqn:E; cbn; [|done].
  by eapply db_wf_slots.
Qed.

Lemma all_slots_lookup d i m :
  all_slots d !! i = Some m ↔ (i < 1024)%nat ∧ m = slot_at d (Z.of_nat i).
Proof.
  unfold all_slots. rewrite list_lookup_fmap, fmap_Some. setoid_rewrite lookup_seqZ.
  unfold MaxSlotNum. split.
  - intros (x & [-> ?] & ->). split; [lia|]. f_equal.
  - intros [? ->]. exists (Z.of_nat i). split; [lia|done].
Qed.

Lemma length_all_slots d : Z.of_nat (length (all_slots d)) = MaxSlotNum.
Proof. unfold all_slots. rewrite length_fmap, length_seqZ. done. Qed.

Lemma ctx_db_wf `{Config} `{UnicodeUpper} d hosts : db_wf d → ctx_wf (ctx_db d hosts).
Proof.
  intros Hd. split; cbn.
  - apply length_all_slots.
  - intros i m [_ ->]%all_slots_lookup. by apply slot_at_Id.
  - apply Hd.
  - apply Hd.
Qed.

Lemma dirty_elem p h D : h ∈ D → p h = true → dirty p D.
Proof. intros Hh Hp. apply existsb_exists. exists h. by rewrite <-list_elem_of_In. Qed.

Lemma dirty_mono p D D' : D ⊆ D' → dirty p D → dirty p D'.
Proof.
  intros HD (h & Hh & Hp)%existsb_exists. apply (dirty_elem p h); [|done].
  apply HD. by apply list_elem_of_In.
Qed.

Lemma cache_coh_weaken D D' c d :
  D ⊆ D' → (∀ sid, HookSlots sid ∈ D' → 0 ≤ sid < MaxSlotNum) →
  cache_coh D c d → cache_coh D' c d.
Proof.
  intros HD HR [C1 C2 C3 C4 C5 C6 C7]. pose proof (λ p, dirty_mono p D D' HD) as Hm.
  split; unfold slots_coh, map_coh, cell_coh in *; [done| | | |naive_solver..].
  - destruct (c_slots c); [|done]. destruct C2 as [? C2]. split; [done|].
    intros i m Hi. destruct (C2 i m Hi). naive_solver.
  - destruct (c_group c); [|done]. intros k. destruct (C3 k). naive_solver.
  - destruct (c_proxy c); [|done]. intros k. destruct (C4 k). naive_solver.
Qed.

(** * Running the hooks *)

Lemma map_coh_hook {K V} `{Countable K} (key : V → K) hits h hs m k0 (d : gmap K V) :
  (∀ k, k ≠ k0 → hits k h = false) →
  map_coh key hits (h :: hs) (Some m) d → map_coh key hits hs (Some (<[k0 := None]> m)) d.
Proof.
  intros Hh Hm k. destruct (Hm k) as [H1 H2]. rewrite lookup_insert.
  case_decide as Hk; [naive_solver|]. split; [done|].
  destruct H2 as [Hd|]; [|auto]. unfold dirty in *. cbn in Hd.
  rewrite (Hh k) in Hd by done. auto.
Qed.

Lemma slots_coh_hook sid hs l d :
  0 ≤ sid < MaxSlotNum → slots_coh (HookSlots sid :: hs) (Some l) d →
  slots_coh hs (Some (<[Z.to_nat sid := None]> l)) d.
Proof.
  intros Hs [Hlen Hc]. split; [by rewrite length_insert|]. intros i m Hm.
  destruct (decide (i = Z.to_nat sid)) as [->|Hne].
  { rewrite list_lookup_insert_eq in Hm by lia. done. }
  rewrite list_lookup_insert_ne in Hm by done.
  destruct (Hc i m Hm) as [? [Hd|?]]; [|auto]. split; [done|]. left. revert Hd.
  unfold dirty. cbn. rewrite bool_decide_eq_false_2 by lia. done.
Qed.

Lemma run_hook_coh h hs c d :
  cache_coh (h :: hs) c d → ∃ c', run_hook h c = Some c' ∧ cache_coh hs c' d.
Proof.
  intros [C1 C2 C3 C4 C5 C6 C7].
  assert (∀ sid, HookSlots sid ∈ hs → 0 ≤ sid < MaxSlotNum) as HR
    by (intros; apply C1; by constructor).
  destruct h as [sid|gid|t| | | |]; cbn.
  - assert (0 ≤ sid < MaxSlotNum) by (apply C1; constructor).
    destruct (c_slots c) as [l|] eqn:Hl.
    + rewrite decide_True by (destruct C2; lia). eexists; split; [done|].
      split; try done. by apply slots_coh_hook.
    + eexists; split; [done|]. split; try done. by rewrite Hl.
  - eexists; split; [done|]. destruct (c_group c) eqn:Hg; split; try done; cbn.
    + apply (map_coh_hook _ _ (HookGroup gid)); [|done].
      intros k ?. cbn. by rewrite bool_decide_eq_false_2.
    + by rewrite Hg.
  - eexists; split; [done|]. destruct (c_proxy c) eqn:Hp; split; try done; cbn.
    + apply (map_coh_hook _ _ (HookProxy t)); [|done].
      intros k ?. cbn. by rewrite bool_decide_eq_false_2.
    + by rewrite Hp.
  - eexists; split; [done|]. split; try done. by right; left.
  - eexists; split; [done|]. split; try done. by right; left.
  - eexists; split; [done|]. split; try done. by right; left.
  - eexists; split; [done|]. split; cbn; try done; by right; left.
Qed.

Lemma cache_coh_set_hooks D c d hs : cache_coh D (c_set_hooks hs c) d ↔ cache_coh D c d.
Proof. split; intros []; split; done. Qed.

Lemma run_hooks_coh hs c d :
  cache_coh hs c d →
  ∃ c', run_hooks hs c = Some c' ∧ cache_coh [] c' d ∧ c_hooks c' = [].
Proof.
  revert c. induction hs as [|h hs IH]; intros c Hc; cbn.
  - eexists; split_and!; [done| |done]. by apply cache_coh_set_hooks.
  - destruct (run_hook_coh h hs (c_set_hooks hs c) d) as (c' & -> & Hc').
    { by apply cache_coh_set_hooks. }
    cbn. by apply IH.
Qed.

Lemma pop_hooks_wp w :
  coh [] w →
  wp pop_hooks (λ r w', r = Ok tt ∧ coh [] w' ∧ c_hooks (w_cache w') = [] ∧
                        same_outside w w') w.
Proof.
  intros [Hd Hc]. rewrite app_nil_r in Hc. unfold wp, pop_hooks.
  destruct (run_hooks_coh _ _ _ Hc) as (c' & -> & Hc' & Hh). cbn.
  split_and!; [done|split; [done|]|done|done]. cbn. by rewrite Hh.
Qed.

(** * Reading the store *)

Lemma set_tick_tick a b w : set_tick a (set_tick b w) = set_tick a w.
Proof. done. Qed.

Section refill.
Context `{Env} `{Config} `{UnicodeUpper}.

Lemma wp_next_tick (Q : outcome terror nat → world → Prop) w :
  Q (Ok (w_tick w)) (set_tick (S (w_tick w)) w) → wp next_tick Q w.
Proof. done. Qed.

(** Only the counter moved, and an [Ok] result satisfies [P]. *)
Definition only_tick {A} (P : A → Prop) (w : world) (r : outcome terror A) (w' : world) : Prop :=
  (∃ t, w' = set_tick t w) ∧ r ≠ Panic ∧ ∀ a, r = Ok a → P a.

Lemma store_read_wp what {A} (f : db → A) w :
  wp (store_read what f) (only_tick (λ a, a = f (w_db w)) w) w.
Proof.
  unfold store_read. wp_step. apply wp_next_tick. destruct (env_read _); wp_step.
  - split_and!; [by eexists|done|by intros a [= <-]].
  - split_and!; [by eexists|done|done].
Qed.

(** Sequencing of two reads. *)
Lemma only_tick_bind {A B} (P : A → Prop) (Q : B → Prop) (m : T A) (k : A → T B) w :
  wp m (only_tick P w) w →
  (∀ a t, P a → wp (k a) (only_tick Q (set_tick t w)) (set_tick t w)) →
  wp (m ≫= k) (only_tick Q w) w.
Proof.
  intros Hm Hk. wp_step. eapply wp_mono; [exact Hm|].
  intros r w' ([t ->] & Hp & HP). destruct r as [a|e|]; [|by split_and!; eauto|done].
  eapply wp_mono; [by apply Hk, HP|].
  intros r w' ([t' ->] & Hp' & HQ). split_and!; eauto.
Qed.

Lemma SlotMappings_from_wp i n w :
  wp (SlotMappings_from i n)
     (only_tick (λ l, l = slot_at (w_db w) <$> seqZ i (Z.of_nat n)) w) w.
Proof.
  revert i w. induction n as [|n IH]; intros i w; cbn.
  - wp_step. split_and!; [by exists (w_tick w); destruct w|done|by intros a [= <-]].
  - eapply only_tick_bind; [apply store_read_wp|]. intros m t ->.
    eapply only_tick_bind; [apply IH|]. cbn. intros l t' ->. wp_step.
    split_and!; [by exists t'|done|]. intros l' [= <-].
    rewrite (seqZ_cons i) by lia. rewrite fmap_cons. f_equal. f_equal. f_equal; lia.
Qed.

Lemma for_each_reads_wp what {A} (l : list A) w :
  wp (for_each l (λ _, store_read what (λ _, ()))) (only_tick (λ _, True) w) w.
Proof.
  revert w. induction l as [|x l IH]; intros w; cbn.
  - wp_step. split_and!; [by exists (w_tick w); destruct w|done|done].
  - eapply only_tick_bind; [apply store_read_wp|]. intros [] t _. apply IH.
Qed.

Lemma foldl_insert_lookup {K V} `{Countable K} (key : V → K) (vs : list V) (m : gmap K V) k v :
  NoDup (key <$> vs) → (∀ v', v' ∈ vs → m !! key v' = None) →
  foldl (λ m v, <[key v := v]> m) m vs !! k = Some v ↔
    (v ∈ vs ∧ key v = k) ∨ m !! k = Some v.
Proof.
  revert m. induction vs as [|x vs IH]; intros m Hnd Hm; cbn.
  - rewrite elem_of_nil. tauto.
  - apply NoDup_cons in Hnd as [Hx Hnd].
    rewrite IH; [|done|].
    + rewrite lookup_insert, elem_of_cons. case_decide as Hk.
      * subst k. rewrite (Hm x) by constructor. split.
        -- intros [[Hv Hk]|[= ->]]; left; auto.
        -- intros [[[->|Hv] Hk]|?]; [by right|by left|done].
      * split.
        -- intros [[Hv Hkv]|Hv]; [by left; auto|by right].
        -- intros [[[->|Hv] Hkv]|Hv]; [done|by left|by right].
    + intros v' Hv'. rewrite lookup_insert_ne; [apply Hm; by constructor|].
      intros Heq. apply Hx. rewrite Heq. by apply list_elem_of_fmap_2.
Qed.

Lemma list_docs_wp what {K V} `{Countable K} (get : db → gmap K V) (key : V → K) w :
  (∀ k v, get (w_db w) !! k = Some v → key v = k) →
  wp (list_docs what get key) (only_tick (λ m, m = get (w_db w)) w) w.
Proof.
  intros Hwf. unfold list_docs.
  eapply only_tick_bind; [apply store_read_wp|]. intros vs t ->.
  eapply only_tick_bind; [apply for_each_reads_wp|]. intros _ t' _. wp_step.
  split_and!; [by exists t'|done|]. intros m [= <-]. cbn.
  assert (Hkeys : key <$> (map_to_list (get (w_db w))).*2 = (map_to_list (get (w_db w))).*1).
  { rewrite <-list_fmap_compose. apply list_fmap_ext. intros i [k v] Hi. cbn.
    apply Hwf. apply elem_of_map_to_list. by eapply list_elem_of_lookup_2. }
  apply map_eq. intros k. apply option_eq. intros v.
  rewrite foldl_insert_lookup.
  - rewrite lookup_empty. split.
    + intros [[Hv <-]|?]; [|done]. apply list_elem_of_fmap in Hv as ([k v'] & -> & Hkv).
      apply elem_of_map_to_list in Hkv. cbn. by rewrite (Hwf _ _ Hkv).
    + intros Hv. left. split; [|by apply Hwf]. apply list_elem_of_fmap.
      exists (k, v). split; [done|]. by apply elem_of_map_to_list.
  - rewrite Hkeys. apply NoDup_fst_map_to_list.
  - intros. apply lookup_empty.
Qed.

(** ** The slot table *)

Definition put_slots (x : option (list (option SlotMapping))) (t : nat) (w : world) : world :=
  set_tick t (set_cache (c_set_slots x (w_cache w)) w).

Lemma put_slots_id x t w : c_slots (w_cache w) = x → set_tick t w = put_slots x t w.
Proof. intros <-. by destruct w as [? []]. Qed.

Lemma refill_slot_wp i l w :
  db_wf (w_db w) → c_slots (w_cache w) = Some l → slots_coh [] (Some l) (w_db w) →
  wp (refill_slot i)
     (λ r w', ∃ t l', w' = put_slots (Some l') t w ∧ slots_coh [] (Some l') (w_db w) ∧
        r ≠ Panic ∧ (∀ j m, l !! j = Some (Some m) → l' !! j = Some (Some m)) ∧
        (r = Ok tt → (i < length l)%nat → ∃ m, l' !! i = Some (Some m))) w.
Proof.
  intros Hd Hl Hc. unfold refill_slot. wp_steps. rewrite Hl.
  assert (Hw : w = put_slots (Some l) (w_tick w) w).
  { rewrite <-(put_slots_id _ _ _ Hl). by destruct w. }
  destruct (l !! i) as [[m|]|] eqn:Hi.
  - wp_step. exists (w_tick w), l. split_and!; eauto.
  - wp_step. eapply wp_mono; [apply store_read_wp|].
    intros r w' ([t ->] & Hp & HP). destruct r as [m|e|]; cycle 1;
      [by exists t, l; split_and!; [by apply put_slots_id|done..]|done|].
    rewrite (HP m eq_refl). wp_step. unfold put_slot. cbn. rewrite Hl.
    exists t, (<[i := Some (slot_at (w_db w) (Z.of_nat i))]> l).
    pose proof (lookup_lt_Some _ _ _ Hi).
    split_and!; [done| |done| |].
    + destruct Hc as [Hlen Hc]. split; [by rewrite length_insert|]. intros j m'.
      destruct (decide (i = j)) as [<-|?].
      * rewrite list_lookup_insert_eq by done. intros [= <-].
        split; [by apply slot_at_Id|by right].
      * rewrite list_lookup_insert_ne by done. apply Hc.
    + intros j m' Hj. rewrite list_lookup_insert_ne by congruence. done.
    + intros _ _. rewrite list_lookup_insert_eq by done. eauto.
  - wp_step. exists (w_tick w), l. split_and!; try done.
    intros _ ?%lookup_lt_is_Some. rewrite Hi in *. by destruct H2.
Qed.

Lemma refill_slots_wp ix l w :
  db_wf (w_db w) → c_slots (w_cache w) = Some l → slots_coh [] (Some l) (w_db w) →
  wp (for_each ix refill_slot)
     (λ r w', ∃ t l', w' = put_slots (Some l') t w ∧ slots_coh [] (Some l') (w_db w) ∧
        r ≠ Panic ∧ (∀ j m, l !! j = Some (Some m) → l' !! j = Some (Some m)) ∧
        (r = Ok tt → ∀ i, i ∈ ix → (i < length l)%nat → ∃ m, l' !! i = Some (Some m))) w.
Proof.
  revert l w. induction ix as [|i ix IH]; intros l w Hd Hl Hc; cbn.
  - wp_step. exists (w_tick w), l. split_and!; try done.
    + rewrite <-(put_slots_id _ _ _ Hl). by destruct w.
    + intros _ i Hi. by apply elem_of_nil in Hi.
  - wp_step. eapply wp_mono; [by apply (refill_slot_wp i l)|].
    intros r w' (t & l' & -> & Hc' & Hp & Hk & Hi).
    destruct r as [[]|e|]; cycle 1; [by exists t, l'; split_and!|done|].
    eapply wp_mono; [by apply (IH l')|].
    intros r w' (t' & l'' & -> & Hc'' & Hp' & Hk' & Hi').
    exists t', l''. split_and!; eauto. intros -> j [->|Hj]%elem_of_cons Hlt.
    + destruct (Hi eq_refl Hlt) as [m Hm]. eauto.
    + apply Hi'; [done..|]. destruct Hc, Hc'. lia.
Qed.

Lemma slots_full d l :
  slots_coh [] (Some l) d →
  (∀ i, (i < length l)%nat → ∃ m, l !! i = Some (Some m)) → l = Some <$> all_slots d.
Proof.
  intros [Hlen Hc] Hall. apply list_eq. intros i. rewrite list_lookup_fmap.
  destruct (decide (i < length l)%nat) as [Hi|Hi].
  - destruct (Hall i Hi) as [m Hm]. rewrite Hm.
    destruct (Hc i m Hm) as [_ [?| ->]]; [done|].
    rewrite (proj2 (all_slots_lookup d i (slot_at d (Z.of_nat i)))); [done|]. split; [|done].
    unfold MaxSlotNum in *; lia.
  - rewrite (proj2 (lookup_ge_None l i)) by lia. symmetry. apply fmap_None, lookup_ge_None.
    pose proof (length_all_slots d). unfold MaxSlotNum in *; lia.
Qed.

Lemma refillCacheSlots_wp w :
  db_wf (w_db w) → slots_coh [] (c_slots (w_cache w)) (w_db w) →
  wp refillCacheSlots
     (λ r w', ∃ t x, w' = put_slots x t w ∧ slots_coh [] x (w_db w) ∧ r ≠ Panic ∧
                     (r = Ok tt → x = Some (Some <$> all_slots (w_db w)))) w.
Proof.
  intros Hd Hc. unfold refillCacheSlots. wp_steps.
  destruct (c_slots (w_cache w)) as [l|] eqn:Hl.
  - eapply wp_mono; [by apply refill_slots_wp|].
    intros r w' (t & l' & -> & Hc' & Hp & _ & Hi). exists t, (Some l').
    split_and!; try done. intros ->. f_equal. apply slots_full; [done|].
    intros i Hlt. apply Hi; [done| |destruct Hc, Hc'; lia].
    apply elem_of_seq. destruct Hc, Hc'. lia.
  - wp_step. eapply wp_mono; [apply SlotMappings_from_wp|].
    intros r w' ([t ->] & Hp & HP). destruct r as [l|e|]; [|..]; cycle 2; [done|..].
    + wp_step. rewrite (HP l eq_refl). exists t, (Some (Some <$> all_slots (w_db w))).
      split_and!; try done. split; [by rewrite length_fmap, length_all_slots|].
      intros i m. rewrite list_lookup_fmap, fmap_Some.
      intros (m' & [_ ->]%all_slots_lookup & [= ->]). split; [by apply slot_at_Id|by right].
    + exists t, None. split_and!; try done. by apply put_slots_id.
Qed.

(** ** The group and proxy maps *)

(** A cached map component: its accessor and its assignment. *)
Record component {K V} `{Countable K} (get : cache → option (gmap K (option V)))
    (set : option (gmap K (option V)) → cache → cache) : Prop := {
  comp_get_set x c : get (set x c) = x;
  comp_set_set x y c : set x (set y c) = set x c;
  comp_set_get c : set (get c) c = c
}.

Lemma group_component : component c_group c_set_group.
Proof. split; [done..|by intros []]. Qed.
Lemma proxy_component : component c_proxy c_set_proxy.
Proof. split; [done..|by intros []]. Qed.

Section component.
Context {K V : Type} `{Countable K}.
Context (get : cache → option (gmap K (option V))).
Context (set : option (gmap K (option V)) → cache → cache).
Context (comp : component get set).
Context (what : string) (look : db → gmap K V) (key : V → K) (hits : K → hook → bool).

Definition put_map (x : option (gmap K (option V))) (t : nat) (w : world) : world :=
  set_tick t (set_cache (set x (w_cache w)) w).

Lemma put_map_id x t w : get (w_cache w) = x → set_tick t w = put_map x t w.
Proof.
  intros <-. unfold put_map. rewrite (comp_set_get _ _ comp). by destruct w.
Qed.

Lemma put_map_put_map x y t t' w : put_map x t (put_map y t' w) = put_map x t w.
Proof. unfold put_map. cbn. by rewrite (comp_set_set _ _ comp). Qed.

Definition load (k : K) : T (option V) := store_read what (λ d, look d !! k).

Lemma refill_entry_wp k m w :
  (∀ k v, look (w_db w) !! k = Some v → key v = k) →
  get (w_cache w) = Some m → map_coh key hits [] (Some m) (look (w_db w)) →
  wp (refill_entry get set load k)
     (λ r w', ∃ t m', w' = put_map (Some m') t w ∧
        map_coh key hits [] (Some m') (look (w_db w)) ∧ r ≠ Panic ∧
        (∀ j, m' !! j = Some None → m !! j = Some None) ∧
        (r = Ok tt → m' !! k ≠ Some None)) w.
Proof.
  intros Hwf Hm Hc. unfold refill_entry. wp_steps. rewrite Hm.
  assert (Hw : w = put_map (Some m) (w_tick w) w).
  { rewrite <-(put_map_id _ _ _ Hm). by destruct w. }
  destruct (m !! k) as [[v|]|] eqn:Hk.
  1,3: wp_step; exists (w_tick w), m; split_and!; [done..|by rewrite Hk].
  wp_step. eapply wp_mono; [apply store_read_wp|].
  intros r w' ([t ->] & Hp & HP). destruct r as [v|e|]; cycle 1.
  { exists t, m. split_and!; [by apply put_map_id|done..]. }
  { done. }
  rewrite (HP v eq_refl). wp_step. cbn. rewrite Hm.
  eexists t, _. split; [reflexivity|].
  destruct (look (w_db w) !! k) as [x|] eqn:Hx; split_and!; try done.
  - intros j. destruct (Hc j) as [Hc1 Hc2]. rewrite lookup_insert.
    case_decide; [|done]. subst j. split; [intros ? [= <-]; by apply Hwf|].
    right; right. by rewrite Hx.
  - intros j. rewrite lookup_insert. case_decide; congruence.
  - intros _. by rewrite lookup_insert_eq.
  - intros j. destruct (Hc j) as [Hc1 Hc2]. rewrite lookup_delete.
    case_decide; [|done]. subst j. split; [done|]. right; right. by rewrite Hx.
  - intros j. rewrite lookup_delete. case_decide; congruence.
  - intros _. by rewrite lookup_delete_eq.
Qed.

Lemma refill_entries_wp ks m w :
  (∀ k v, look (w_db w) !! k = Some v → key v = k) →
  get (w_cache w) = Some m → map_coh key hits [] (Some m) (look (w_db w)) →
  wp (for_each ks (refill_entry get set load))
     (λ r w', ∃ t m', w' = put_map (Some m') t w ∧
        map_coh key hits [] (Some m') (look (w_db w)) ∧ r ≠ Panic ∧
        (∀ j, m' !! j = Some None → m !! j = Some None) ∧
        (r = Ok tt → ∀ k, k ∈ ks → m' !! k ≠ Some None)) w.
Proof.
  revert m w. induction ks as [|k ks IH]; intros m w Hwf Hm Hc; cbn.
  - wp_step. exists (w_tick w), m. split_and!; try done.
    + rewrite <-(put_map_id _ _ _ Hm). by destruct w.
    + intros _ k Hk. by apply elem_of_nil in Hk.
  - wp_step. eapply wp_mono; [by apply (refill_entry_wp k m)|].
    intros r w' (t & m' & -> & Hc' & Hp & Hn & Hk).
    destruct r as [[]|e|]; cycle 1; [by exists t, m'; split_and!|done|].
    eapply wp_mono; [apply (IH m'); [done|cbn; by rewrite (comp_get_set _ _ comp)|done]|].
    intros r w' (t' & m'' & -> & Hc'' & Hp' & Hn' & Hk').
    exists t', m''. rewrite put_map_put_map. split_and!; auto.
    intros -> j [->|Hj]%elem_of_cons; [|auto]. intros ?%Hn'. by apply Hk.
Qed.

Lemma map_full m d :
  map_coh key hits [] (Some m) d → (∀ k, m !! k ≠ Some None) → m = Some <$> d.
Proof.
  intros Hc Hn. apply map_eq. intros k. rewrite lookup_fmap.
  destruct (Hc k) as [_ [?|[?|?]]]; [done|by edestruct Hn|done].
Qed.

Lemma map_coh_full d :
  (∀ k v, d !! k = Some v → key v = k) → map_coh key hits [] (Some (Some <$> d)) d.
Proof.
  intros Hwf k. rewrite lookup_fmap. split; [|by right; right].
  intros v. rewrite fmap_Some. intros (? & ? & [= ->]). by apply Hwf.
Qed.

(** The common shape of [refillCacheGroup] and [refillCacheProxy]. *)
Lemma refill_map_wp (ks : nat → list K → list K) w :
  (∀ t l, ks t l ≡ₚ l) →
  (∀ k v, look (w_db w) !! k = Some v → key v = k) →
  map_coh key hits [] (get (w_cache w)) (look (w_db w)) →
  wp (c ← gets w_cache;
      match get c with
      | None =>
          d ← list_docs what look key;
          modify (λ w, set_cache (set (Some (Some <$> d)) (w_cache w)) w)
      | Some m =>
          t ← next_tick;
          for_each (ks t (map_to_list m).*1) (refill_entry get set load)
      end)
     (λ r w', ∃ t x, w' = put_map x t w ∧ map_coh key hits [] x (look (w_db w)) ∧
        r ≠ Panic ∧ (r = Ok tt → x = Some (Some <$> look (w_db w)))) w.
Proof.
  intros Hks Hwf Hc. wp_steps. destruct (get (w_cache w)) as [m|] eqn:Hm.
  - wp_step. apply wp_next_tick.
    eapply wp_mono; [by apply (refill_entries_wp _ m)|].
    intros r w' (t & m' & -> & Hc' & Hp & Hn & Hk). exists t, (Some m').
    split_and!; try done. intros ->. f_equal. apply map_full; [done|].
    intros k Hbad. apply (Hk eq_refl k); [|done].
    rewrite Hks. apply list_elem_of_fmap. exists (k, None).
    split; [done|]. by apply elem_of_map_to_list, Hn.
  - wp_step. eapply wp_mono; [by apply (list_docs_wp what look key)|].
    intros r w' ([t ->] & Hp & HP). destruct r as [d|e|]; cycle 1.
    + exists t, None. split_and!; try done. by apply put_map_id.
    + done.
    + rewrite (HP d eq_refl). wp_step.
      exists t, (Some (Some <$> look (w_db w))). split_and!; try done.
      by apply map_coh_full.
Qed.
End component.

(** ** The single documents *)
Lemma refill_cell_wp {A} (get : cache → option A) (set : option A → cache → cache)
    what (look : db → option A) (zero : A) (hits : hook → bool) w :
  (∀ c, set (get c) c = c) →
  cell_coh hits [] (get (w_cache w)) (default zero (look (w_db w))) →
  wp (c ← gets w_cache;
      match get c with
      | Some _ => mret tt
      | None =>
          s ← store_read what look;
          modify (λ w, set_cache (set (Some (default zero s)) (w_cache w)) w)
      end)
     (λ r w', ∃ t x, w' = set_tick t (set_cache (set x (w_cache w)) w) ∧
        cell_coh hits [] x (default zero (look (w_db w))) ∧ r ≠ Panic ∧
        (r = Ok tt → x = Some (default zero (look (w_db w))))) w.
Proof.
  intros Hset Hc. wp_steps.
  assert (Hid : ∀ t, set_tick t w = set_tick t (set_cache (set (get (w_cache w)) (w_cache w)) w)).
  { intros t. rewrite Hset. by destruct w. }
  destruct (get (w_cache w)) as [x|] eqn:Hx.
  - wp_step. exists (w_tick w), (Some x). split_and!; try done.
    + rewrite <-Hid. by destruct w.
    + intros _. by destruct Hc as [?|[?|?]].
  - wp_step. eapply wp_mono; [apply store_read_wp|].
    intros r w' ([t ->] & Hp & HP). destruct r as [v|e|]; cycle 1.
    + exists t, None. split_and!; try done.
    + done.
    + rewrite (HP v eq_refl). wp_step.
      exists t, (Some (default zero (look (w_db w)))). split_and!; try done. by right; right.
Qed.

(** * The whole refill *)

Record full_cache (c : cache) (d : db) : Prop := {
  fc_hooks : c_hooks c = [];
  fc_slots : c_slots c = Some (Some <$> all_slots d);
  fc_group : c_group c = Some (Some <$> db_group d);
  fc_proxy : c_proxy c = Some (Some <$> db_proxy d);
  fc_sentinel : c_sentinel c = Some (default zero_Sentinel (db_sentinel d));
  fc_acl : c_acl c = Some (default zero_ACL (db_acl d));
  fc_qps : c_qps c = Some (default zero_ProxyQPSLimit (db_qps d))
}.

Definition refilled (w : world) (r : outcome terror unit) (w' : world) : Prop :=
  coh [] w' ∧ same_outside w w' ∧ r ≠ Panic ∧ (r = Ok tt → full_cache (w_cache w') (w_db w')).

(** A world in the middle of the refill of [w], its cache being [c]. *)
Record refilling (w w' : world) (c : cache) : Prop := {
  rf_outside : same_outside w w';
  rf_cache : w_cache w' = c
}.

Lemma refilling_put w w1 w2 c c' t :
  refilling w w1 c → w2 = set_tick t (set_cache c' w1) → refilling w w2 c'.
Proof. intros [Ho Hc] ->. split; [|done]. etrans; [exact Ho|]. done. Qed.

Lemma refilled_err w w' e : coh [] w' → same_outside w w' → refilled w (Err e) w'.
Proof. by intros; split_and!. Qed.

Context `{!EnvLaws}.

Lemma refilled_stop w w' c e :
  db_wf (w_db w) → refilling w w' c → cache_coh [] c (w_db w) → c_hooks c = [] →
  refilled w (Err e) w'.
Proof.
  intros Hd [Ho <-] Hc Hh. apply refilled_err; [|done]. destruct Ho as (Edb & _).
  split; rewrite Edb; [done|]. by rewrite Hh.
Qed.

(** One component of the refill, by its specification [lem]; [R] is the [refilling]
    fact before it and, with the component filled in, after it. *)
Ltac refill_stage R lem :=
  let Ec := fresh in let Ed := fresh in let r := fresh in let Eq := fresh in
  pose proof (rf_cache _ _ _ R) as Ec; pose proof (proj1 (rf_outside _ _ _ R)) as Ed;
  eapply wp_mono; [apply lem; rewrite ?Ed, ?Ec; first [assumption|by intros []]|];
  unfold put_slots, put_map; rewrite Ec, Ed; intros r ? (? & ? & Eq & ? & ? & ?);
  apply (refilling_put _ _ _ _ _ _ R) in Eq; cbn in Eq; clear Ec Ed R; rename Eq into R;
  destruct r as [[]|?|]; cycle 1; [by eapply refilled_stop|done|].

Lemma refillCache_wp w : coh [] w → wp refillCache (refilled w) w.
Proof.
  intros Hcoh. unfold refillCache. wp_step. eapply wp_mono; [by apply pop_hooks_wp|].
  clear Hcoh. intros r w1 (-> & [Hd Hc] & Hh & Hs).
  rewrite app_nil_r, Hh in Hc. destruct Hc as [C1 C2 C3 C4 C5 C6 C7].
  pose proof (Build_refilling w w1 _ Hs eq_refl) as R. pose proof (proj1 Hs) as Edb.
  rewrite Edb in Hd, C2, C3, C4, C5, C6, C7.
  destruct (w_cache w1) as [hs cs cg cp cse ca cq]. cbn in Hh, C2, C3, C4, C5, C6, C7. subst hs.
  clear Hs Edb. pose proof (db_wf_group _ Hd). pose proof (db_wf_proxy _ Hd).
  pose proof env_range_perm. pose proof env_range_tokens_perm.
  wp_step. refill_stage R refillCacheSlots_wp.
  wp_step. refill_stage R (refill_map_wp _ _ group_component "load group" db_group g_Id
    hits_group env_range).
  wp_step. refill_stage R (refill_map_wp _ _ proxy_component "load proxy" db_proxy p_Token
    hits_proxy env_range_tokens).
  wp_step. refill_stage R (refill_cell_wp c_sentinel c_set_sentinel "load sentinel" db_sentinel
    zero_Sentinel hits_sentinel).
  wp_step. refill_stage R (refill_cell_wp c_acl c_set_acl "load acl" db_acl zero_ACL hits_acl).
  refill_stage R (refill_cell_wp c_qps c_set_qps "load proxy qps limit" db_qps
    zero_ProxyQPSLimit hits_qps).
  destruct R as [Ho Hcache]. pose proof (proj1 Ho) as Edb.
  split; [|split; [done|split; [done|]]].
  - split; rewrite Edb, ?Hcache; [done|]. by split.
  - intros _. rewrite Edb, Hcache. split; cbn; auto.
Qed.

Lemma full_cache_ctx w :
  full_cache (w_cache w) (w_db w) → ctx_of w = Some (ctx_db (w_db w) (w_hosts w)).
Proof.
  intros [F1 F2 F3 F4 F5 F6 F7]. unfold ctx_of. rewrite F2, F3, F4, F5, F6, F7. cbn.
  assert (mapM id (Some <$> all_slots (w_db w)) = Some (all_slots (w_db w))) as ->.
  { apply mapM_Some. generalize (all_slots (w_db w)). intros l.
    induction l; cbn; constructor; auto. }
  cbn. unfold ctx_db. do 2 f_equal.
  - apply map_eq. intros k. rewrite lookup_omap, lookup_fmap. by destruct (_ !! k).
  - apply map_eq. intros k. rewrite lookup_omap, lookup_fmap. by destruct (_ !! k).
Qed.

(** The specification of [newContext] every operation starts from. *)
Lemma newContext_wp w (Q : outcome terror context → world → Prop) :
  coh [] w →
  (∀ w', coh [] w' → same_outside w w' → full_cache (w_cache w') (w_db w') →
     w_closed w = false → w_online w = true →
     Q (Ok (ctx_db (w_db w) (w_hosts w'))) w') →
  (∀ e w', coh [] w' → same_outside w w' → Q (Err e) w') →
  wp newContext Q w.
Proof.
  intros Hc Hok Herr. unfold newContext. wp_steps. cbn.
  destruct (w_closed w) eqn:Ecl; [by wp_step; apply Herr|].
  destruct (w_online w) eqn:Eon; [|by wp_step; apply Herr].
  wp_step. eapply wp_mono; [by apply refillCache_wp|].
  intros r w1 (Hc1 & Hs1 & Hp & Hf). destruct r as [[]|e|]; [|by apply Herr|done].
  wp_step. apply wp_next_tick. wp_steps. specialize (Hf eq_refl).
  unfold wp, cur_ctx. rewrite full_cache_ctx by (by destruct Hf; split).
  pose proof Hs1 as (Hdb & _). cbn. rewrite Hdb.
  apply (Hok (set_hosts (env_resolve (w_tick w1)) (set_tick (S (w_tick w1)) w1))); auto.
Qed.

(** The errors of [newContext]. *)
Definition context_error (e : terror) : Prop :=
  match e with ErrClosedTopom | ErrNotOnline | ErrStore _ => True | _ => False end.

Lemma next_tick_errp P : errp P next_tick.
Proof. by intros ? ?. Qed.
Lemma cur_ctx_errp P : errp P cur_ctx.
Proof. intros w e w'. unfold cur_ctx. by destruct (ctx_of w). Qed.
Lemma pop_hooks_errp P : errp P pop_hooks.
Proof. intros w e w'. unfold pop_hooks. by destruct (run_hooks _ _). Qed.

Ltac errp_step :=
  first [ apply errp_ret | apply errp_gets | apply errp_modify | apply next_tick_errp
        | apply cur_ctx_errp | apply pop_hooks_errp | by apply errp_fail
        | apply errp_for_each; intros ? | apply errp_bind; [|intros ?] | case_match ].

Lemma store_read_errp what {A} (f : db → A) : errp context_error (store_read what f).
Proof. unfold store_read. repeat errp_step. Qed.

Lemma SlotMappings_from_errp i n : errp context_error (SlotMappings_from i n).
Proof.
  revert i. induction n as [|n IH]; intros i; cbn; [apply errp_ret|].
  apply errp_bind; [apply store_read_errp|]. intros m. apply errp_bind; [apply IH|].
  intros l. apply errp_ret.
Qed.

Lemma refillCache_errp : errp context_error refillCache.
Proof.
  unfold refillCache, refillCacheSlots, refillCacheGroup, refillCacheProxy, refillCacheSentinel,
    refillCacheACL, refillCacheProxyQPSLimit, refill_entry, refill_slot, ListGroup, ListProxy,
    list_docs, LoadSlotMapping, LoadGroup, LoadProxy.
  repeat first [apply store_read_errp|apply SlotMappings_from_errp|errp_step].
Qed.

Lemma newContext_errp : errp context_error newContext.
Proof. unfold newContext. repeat first [apply refillCache_errp|errp_step]. Qed.
End refill.
