(* ===== verification/TopomProxy.v ===== *)
(** Proxies as seen from the dashboard (pkg/topom/topom_proxy.go): pushing slot
    tables to them, adding, removing and re-initialising them. *)

From S2P Require Import Prelude Models TopomContext TopomState.
Definition token_table (w : world) (token : string) : table :=
  default ∅ (w_tables w !! token).

(** [shouldSyncProxyQPSLimit] (topom_qps_limit.go) *)
Definition shouldSyncProxyQPSLimit (q : ProxyQPSLimit) : bool := bool_decide (ql_Revision q > 0).

Section proxy.
Context `{Env} `{Config} `{UnicodeUpper}.

(** A proxy accepts one slot. *)
Definition fill_slot (p : Proxy) (s : Slot) : T unit :=
  modify (λ w, set_tables
    (<[p_Token p := <[slot_Id s := s]> (token_table w (p_Token p))]> (w_tables w)) w).

(** [ApiClient.FillSlots]: the proxy takes the slots one by one and stops at the first
    it refuses; [true] when the call succeeded. *)
Definition FillSlots (p : Proxy) (slots : list Slot) : T bool :=
  t ← next_tick;
  match env_fill t with
  | FillOk => for_each slots (fill_slot p) ;; mret true
  | FillErr n => for_each (take n slots) (fill_slot p) ;; mret false
  end.

(** The goroutines of [resyncSlotMappings]: one [FillSlots] per proxy; the tokens of
    the proxies that failed. *)
Fixpoint fill_all (ctx : context) (slots : list SlotMapping) (ps : list Proxy)
    : T (list string) :=
  match ps with
  | [] => mret []
  | p :: ps' =>
      l ← lift (toSlotSlice ctx slots (Some p));
      ok ← FillSlots p l;
      failed ← fill_all ctx slots ps';
      mret (if ok : bool then failed else p_Token p :: failed)
  end.

Definition resyncSlotMappings (slots : list SlotMapping) : T unit :=
  match slots with
  | [] => mret tt
  | _ =>
      ctx ← cur_ctx;
      ps ← range_proxies ctx;
      failed ← fill_all ctx slots ps;
      match failed with
      | [] => mret tt
      | t :: _ => fail (ErrResyncSlots t)
      end
  end.

Definition resyncSlotMappingsByGroupId (gid : Z) : T unit :=
  ctx ← cur_ctx;
  resyncSlotMappings (getSlotMappingsByGroupId ctx gid).

(** Another call of the proxy's admin API, or of a Redis server. *)
Definition call (e : terror) : T unit :=
  t ← next_tick;
  if env_call t then mret tt else fail e.

Definition reinitProxy (p : Proxy) : T unit :=
  ctx ← cur_ctx;
  l ← lift (toSlotSlice ctx (ctx_slots ctx) (Some p));
  ok ← FillSlots p l;
  if negb ok then fail (ErrProxyReinit (p_Token p) "fillslots")
  else
    call (ErrProxyReinit (p_Token p) "set acl") ;;
    (if shouldSyncProxyQPSLimit (ctx_proxyQPSLimit ctx)
     then call (ErrProxyReinit (p_Token p) "set qps limit") else mret tt) ;;
    call (ErrProxyReinit (p_Token p) "start") ;;
    call (ErrProxyReinit (p_Token p) "set sentinels").

(** [proxy.NewApiClient(addr).Model()] *)
Definition fetch_model (addr : string) : T Proxy :=
  t ← next_tick;
  match env_model t with
  | Some p => mret p
  | None => fail (ErrProxyFetchModel addr)
  end.

Definition CreateProxy (addr : string) : T unit :=
  ctx ← newContext;
  p ← fetch_model addr;
  call (ErrProxyXAuth addr) ;;
  match ctx_proxy ctx !! p_Token p with
  | Some _ => fail (ErrProxyExists (p_Token p))
  | None =>
      let p := p_set_Id (i64 (maxProxyId ctx + 1)) p in
      defer (dirtyProxyCache (p_Token p)) (
        storeCreateProxy p ;;
        reinitProxy p)
  end.

Definition OnlineProxy (addr : string) : T unit :=
  ctx ← newContext;
  p ← fetch_model addr;
  call (ErrProxyXAuth addr) ;;
  defer (dirtyProxyCache (p_Token p)) (
    match ctx_proxy ctx !! p_Token p with
    | Some d =>
        let p := p_set_Id (p_Id d) p in
        storeUpdateProxy p ;; reinitProxy p
    | None =>
        let p := p_set_Id (i64 (maxProxyId ctx + 1)) p in
        storeCreateProxy p ;; reinitProxy p
    end).

(** A proxy that shuts down closes its router, which empties its slot table. *)
Definition Shutdown (p : Proxy) : T bool :=
  t ← next_tick;
  if env_call t
  then modify (λ w, set_tables (delete (p_Token p) (w_tables w)) w) ;; mret true
  else mret false.

Definition RemoveProxy (token : string) (force : bool) : T unit :=
  ctx ← newContext;
  p ← lift (getProxy ctx token);
  ok ← Shutdown p;
  if negb ok && negb force then fail (ErrProxyShutdown (p_Token p))
  else
    defer (dirtyProxyCache (p_Token p)) (storeRemoveProxy p).

Definition ReinitProxy (token : string) : T unit :=
  ctx ← newContext;
  p ← lift (getProxy ctx token);
  reinitProxy p.
End proxy.
