(* ===== verification/TopomSlots.v ===== *)
(** Slot operations of the dashboard (pkg/topom/topom_slots.go, topom_action.go).

    Creating and removing migration actions, the prepare/complete state machine of a
    migration, the executor that drives it, and the forced assignments.  An
    assignment to a field of [m] writes the cached object ([put_slot]); code after it
    that reads the context reads it again ([cur_ctx]). *)

From S2P Require Import Prelude Models TopomContext TopomState TopomProxy.
Section slots.
Context `{Env} `{Config} `{UnicodeUpper}.

Definition put_slot_at (sid : Z) (m : SlotMapping) : T unit :=
  modify (put_slot (Z.to_nat sid) m).

(** ** Creating actions *)

(** [m.Action.State = ActionPending; m.Action.Index = ctx.maxSlotActionIndex() + 1;
    m.Action.TargetId = gid; return s.storeUpdateSlotMapping(m)].  The maximum is
    taken after the state was assigned, so it sees [m] as pending. *)
Definition start_action (sid : Z) (m : SlotMapping) (gid : Z) : T unit :=
  put_slot_at sid (sm_set_State ActionPending m) ;;
  ctx ← cur_ctx;
  let m1 := sm_set_TargetId gid
              (sm_set_Index (i64 (maxSlotActionIndex ctx + 1)) (sm_set_State ActionPending m)) in
  put_slot_at sid m1 ;;
  storeUpdateSlotMapping m1.

(** The second loop of the bulk operations; [k] is what follows it. *)
Fixpoint start_actions (target : Z → Z) (pending : list Z) (k : T unit) : T unit :=
  match pending with
  | [] => k
  | sid :: pending' =>
      ctx ← cur_ctx;
      m ← lift (getSlotMapping ctx sid);
      defer (dirtySlotsCache (sm_Id m)) (
        start_action sid m (target sid) ;;
        start_actions target pending' k)
  end.

Definition SlotCreateAction (sid gid : Z) : T unit :=
  ctx ← newContext;
  g ← lift (getGroup ctx gid);
  match g_Servers g with
  | [] => fail (ErrGroupIsEmpty gid)
  | _ =>
      m ← lift (getSlotMapping ctx sid);
      if decide (sm_State m ≠ ActionNothing) then fail (ErrSlotActionExists sid)
      else if decide (sm_GroupId m = gid) then fail (ErrSlotInGroup sid gid)
      else defer (dirtySlotsCache (sm_Id m)) (start_action sid m (g_Id g))
  end.

(** The first loop of [SlotCreateActionSome]. *)
Fixpoint some_pending (groupFrom gid : Z) (numSlots : Z) (slots : list SlotMapping)
    (pending : list Z) : list Z :=
  match slots with
  | [] => pending
  | m :: slots' =>
      if decide (Z.of_nat (length pending) >= numSlots) then pending
      else if decide (sm_State m ≠ ActionNothing) then
        some_pending groupFrom gid numSlots slots' pending
      else if decide (sm_GroupId m ≠ groupFrom) then
        some_pending groupFrom gid numSlots slots' pending
      else if decide (sm_GroupId m = gid) then
        some_pending groupFrom gid numSlots slots' pending
      else some_pending groupFrom gid numSlots slots' (pending ++ [sm_Id m])
  end.

Definition SlotCreateActionSome (groupFrom groupTo numSlots : Z) : T unit :=
  ctx ← newContext;
  g ← lift (getGroup ctx groupTo);
  match g_Servers g with
  | [] => fail (ErrGroupIsEmpty (g_Id g))
  | _ =>
      start_actions (λ _, g_Id g)
        (some_pending groupFrom (g_Id g) numSlots (ctx_slots ctx) []) (mret tt)
  end.

(** The first loop of [SlotCreateActionRange], over [sid], [sid+1], ... ([n] of them). *)
Fixpoint range_pending (ctx : context) (gid : Z) (must : bool) (sid : Z) (n : nat)
    (pending : list Z) : outcome terror (list Z) :=
  match n with
  | O => Ok pending
  | S n' =>
      m ← getSlotMapping ctx sid;
      if decide (sm_State m ≠ ActionNothing) then
        if must then Err (ErrSlotActionExists sid)
        else range_pending ctx gid must (sid + 1) n' pending
      else if decide (sm_GroupId m = gid) then
        if must then Err (ErrSlotInGroup sid gid)
        else range_pending ctx gid must (sid + 1) n' pending
      else range_pending ctx gid must (sid + 1) n' (pending ++ [sm_Id m])
  end.

Definition SlotCreateActionRange (beg end_ gid : Z) (must : bool) : T unit :=
  ctx ← newContext;
  if decide (¬ (beg >= 0 ∧ beg ≤ end_ ∧ end_ < MaxSlotNum))
  then fail (ErrInvalidSlotRange beg end_)
  else
    g ← lift (getGroup ctx gid);
    match g_Servers g with
    | [] => fail (ErrGroupIsEmpty (g_Id g))
    | _ =>
        pending ← lift (range_pending ctx (g_Id g) must beg (Z.to_nat (end_ - beg + 1)) []);
        start_actions (λ _, g_Id g) pending (mret tt)
    end.

Definition SlotRemoveAction (sid : Z) : T unit :=
  ctx ← newContext;
  m ← lift (getSlotMapping ctx sid);
  if decide (sm_State m = ActionNothing) then fail (ErrSlotActionNotExist sid)
  else if decide (sm_State m ≠ ActionPending) then fail (ErrSlotActionNotPending sid)
  else
    defer (dirtySlotsCache (sm_Id m))
      (storeUpdateSlotMapping (new_mapping (sm_Id m) (sm_GroupId m))).

(** ** Preparing an action *)

(** [minActionIndex(filter)]: scans [slots] from index [i]; the picked pointer is
    kept with its index. *)
Fixpoint minActionIndex (accept : SlotMapping → bool) (filter : SlotMapping → bool)
    (i : Z) (slots : list SlotMapping) (picked : option (Z * SlotMapping))
    : option (Z * SlotMapping) :=
  match slots with
  | [] => picked
  | m :: slots' =>
      if decide (sm_State m = ActionNothing) then
        minActionIndex accept filter (i + 1) slots' picked
      else if filter m then
        if match picked with
           | Some (_, p) => bool_decide (sm_Index p < sm_Index m)
           | None => false
           end
        then minActionIndex accept filter (i + 1) slots' picked
        else minActionIndex accept filter (i + 1) slots'
               (if accept m then Some (i, m) else picked)
      else minActionIndex accept filter (i + 1) slots' picked
  end.

Definition pick_action (accept : SlotMapping → bool) (disabled : bool)
    (slots : list SlotMapping) : option (Z * SlotMapping) :=
  match minActionIndex accept (λ m, bool_decide (sm_State m ≠ ActionPending)) 0 slots None with
  | Some p => Some p
  | None =>
      if disabled then None
      else minActionIndex accept (λ m, bool_decide (sm_State m = ActionPending)) 0 slots None
  end.

(** The cases of the switch; each falls through to the next. *)
Definition prepare_prepared (i : Z) (m : SlotMapping) : T (Z * bool) :=
  defer (dirtySlotsCache (sm_Id m)) (
    let m1 := sm_set_State ActionMigrating m in
    put_slot_at i m1 ;;
    resyncSlotMappings [m1] ;;
    storeUpdateSlotMapping m1 ;;
    mret (sm_Id m1, true)).

Definition prepare_preparing (i : Z) (m : SlotMapping) : T (Z * bool) :=
  defer (dirtySlotsCache (sm_Id m)) (
    let m1 := sm_set_State ActionPrepared m in
    put_slot_at i m1 ;;
    on_err (resyncSlotMappings [m1]) (λ e,
      let m0 := sm_set_State ActionPreparing m1 in
      put_slot_at i m0 ;;
      ignore_err (resyncSlotMappings [m0]) ;;
      fail e) ;;
    storeUpdateSlotMapping m1 ;;
    prepare_prepared i m1).

Definition prepare_pending (i : Z) (m : SlotMapping) : T (Z * bool) :=
  defer (dirtySlotsCache (sm_Id m)) (
    let m1 := sm_set_State ActionPreparing m in
    put_slot_at i m1 ;;
    storeUpdateSlotMapping m1 ;;
    prepare_preparing i m1).

Definition prepare_action (i : Z) (m : SlotMapping) : T (Z * bool) :=
  match sm_State m with
  | ActionPending => prepare_pending i m
  | ActionPreparing => prepare_preparing i m
  | ActionPrepared => prepare_prepared i m
  | ActionMigrating => mret (sm_Id m, true)
  | ActionFinished => mret (sm_Id m, true)
  | _ => fail (ErrSlotActionInvalid (sm_Id m))
  end.

(** [accept] and [update] are closures over a state [St] of the caller. *)
Definition SlotActionPrepareFilter {St} (accept : St → SlotMapping → bool)
    (update : SlotMapping → St → bool * St) (st : St) : T (Z * bool * St) :=
  ctx ← newContext;
  disabled ← gets w_disabled;
  match pick_action (accept st) disabled (ctx_slots ctx) with
  | None => mret (0, false, st)
  | Some (i, m) =>
      let '(ok, st') := update m st in
      if negb ok then mret (0, false, st')
      else
        '(sid, ok) ← prepare_action i m;
        mret (sid, ok, st')
  end.

(** nil closures accept everything *)
Definition SlotActionPrepare : T (Z * bool) :=
  '(sid, ok, _) ← SlotActionPrepareFilter (λ _ _, true) (λ _ st, (true, st)) ();
  mret (sid, ok).

(** ** Completing an action *)

Definition complete_finished (m : SlotMapping) : T unit :=
  resyncSlotMappings [m] ;;
  defer (dirtySlotsCache (sm_Id m))
    (storeUpdateSlotMapping (new_mapping (sm_Id m) (sm_TargetId m))).

Definition SlotActionComplete (sid : Z) : T unit :=
  ctx ← newContext;
  m ← lift (getSlotMapping ctx sid);
  match sm_State m with
  | ActionMigrating =>
      defer (dirtySlotsCache (sm_Id m)) (
        let m1 := sm_set_State ActionFinished m in
        put_slot_at sid m1 ;;
        storeUpdateSlotMapping m1 ;;
        complete_finished m1)
  | ActionFinished => complete_finished m
  | _ => fail (ErrSlotActionInvalid (sm_Id m))
  end.

(** ** Executing an action *)

(** The closure [newSlotActionExecutor] returns. *)
Inductive executor :=
| ExecMigrate (sid : Z) (from dest : string)
| ExecFinished.

Definition newSlotActionExecutor (sid : Z) : T (option executor) :=
  ctx ← newContext;
  m ← lift (getSlotMapping ctx sid);
  match sm_State m with
  | ActionMigrating =>
      disabled ← gets w_disabled;
      if disabled : bool then mret None
      else if isGroupPromoting ctx (sm_GroupId m) then mret None
      else if isGroupPromoting ctx (sm_TargetId m) then mret None
      else
        modify (λ w, set_executor (i64 (w_executor w + 1)) w) ;;
        mret (Some (ExecMigrate sid (getGroupMaster ctx (sm_GroupId m))
                      (getGroupMaster ctx (sm_TargetId m))))
  | ActionFinished => mret (Some ExecFinished)
  | _ => fail (ErrSlotActionInvalid (sm_Id m))
  end.

(** The smallest database above [db] that holds keys, [-1] when there is none. *)
Definition next_database (db : Z) (dbs : list Z) : Z :=
  foldl (λ nextdb i,
    if decide ((nextdb = -1 ∨ i < nextdb) ∧ db < i) then i else nextdb) (-1) dbs.

Definition run_executor (e : executor) (db : Z) : T (Z * Z) :=
  match e with
  | ExecFinished => mret (0, -1)
  | ExecMigrate sid from dest =>
      defer (λ w, set_executor (i64 (w_executor w - 1)) w) (
        if decide (from = ""%string) then mret (0, -1)
        else
          call (ErrRedis from) ;;                    (* GetClient *)
          call (ErrRedis from) ;;                    (* Select(db) *)
          t ← next_tick;
          match env_migrate t with                   (* MigrateSlot / MigrateSlotAsync *)
          | None => fail (ErrRedis from)
          | Some n =>
              if decide (n ≠ 0) then mret (n, db)
              else
                t ← next_tick;
                match env_keyspace t with            (* InfoKeySpace *)
                | None => fail (ErrRedis from)
                | Some dbs => mret (0, next_database db dbs)
                end
          end)
  end.

(** [processSlotAction]: one turn of the loop per unit of fuel; [None] when the fuel
    runs out (the Go loop runs while the dashboard is online). *)
Fixpoint processSlotAction (fuel : nat) (sid : Z) (db : Z) : T (option unit) :=
  match fuel with
  | O => mret None
  | S fuel' =>
      w ← gets id;
      if negb (IsOnline w) then mret (Some tt)
      else
        e ← newSlotActionExecutor sid;
        match e with
        | None => processSlotAction fuel' sid db     (* sleep, try again *)
        | Some e =>
            '(n, nextdb) ← run_executor e db;
            if decide (n = 0 ∧ nextdb = -1) then
              SlotActionComplete sid ;; mret (Some tt)
            else processSlotAction fuel' sid nextdb
        end
  end.

(** ** Planning a round of migrations ([ProcessSlotAction])

    The closures' state: the groups and the slots already taken in this round. *)
Record round := mkRound { rd_marks : gset Z; rd_plans : gset Z }.

Definition accept_action (st : round) (m : SlotMapping) : bool :=
  if decide (sm_GroupId m ∈ rd_marks st ∨ sm_TargetId m ∈ rd_marks st) then false
  else if decide (sm_Id m ∈ rd_plans st) then false
  else true.

Definition update_action (m : SlotMapping) (st : round) : bool * round :=
  let marks := if decide (sm_GroupId m ≠ 0) then {[ sm_GroupId m ]} ∪ rd_marks st
               else rd_marks st in
  (true, mkRound ({[ sm_TargetId m ]} ∪ marks) ({[ sm_Id m ]} ∪ rd_plans st)).

Definition parallel_slots : Z := MaxInt 1 cfg_MigrationParallelSlots.

(** [for parallel > len(plans) { ... }]; [n] bounds the turns. *)
Fixpoint plan_actions (n : nat) (st : round) : T round :=
  match n with
  | O => mret st
  | S n' =>
      if decide (parallel_slots > Z.of_nat (size (rd_plans st))) then
        '(_, ok, st') ← SlotActionPrepareFilter accept_action update_action st;
        if (ok : bool) then plan_actions n' st' else mret st'
      else mret st
  end.

(** ** Forced assignments *)

(** The checks of [SlotsAssignGroup]; [None] is a nil pointer, which panics. *)
Fixpoint check_assign (ctx : context) (slots : list (option SlotMapping)) : outcome terror (list SlotMapping) :=
  match slots with
  | [] => Ok []
  | None :: _ => Panic
  | Some m :: slots' =>
      _ ← getSlotMapping ctx (sm_Id m);
      g ← getGroup ctx (sm_GroupId m);
      match g_Servers g with
      | [] => Err (ErrGroupIsEmpty (g_Id g))
      | _ =>
          if decide (sm_State m ≠ ActionNothing) then Err (ErrInvalidSlotAction (sm_Id m))
          else ms ← check_assign ctx slots'; Ok (m :: ms)
      end
  end.

(** The loop marking the groups out of sync; [k] follows it. *)
Fixpoint assign_groups (slots : list SlotMapping) (k : T unit) : T unit :=
  match slots with
  | [] => k
  | m :: slots' =>
      ctx ← cur_ctx;
      match ctx_group ctx !! sm_GroupId m with
      | None => panic
      | Some g =>
          if g_OutOfSync g then assign_groups slots' k
          else
            defer (dirtyGroupCache (g_Id g)) (
              let g1 := g_set_OutOfSync true g in
              modify (put_group (sm_GroupId m) g1) ;;
              storeUpdateGroup g1 ;;
              assign_groups slots' k)
      end
  end.

(** The loop storing the mappings; [k] follows it. *)
Fixpoint assign_slots (slots : list SlotMapping) (k : T unit) : T unit :=
  match slots with
  | [] => k
  | m :: slots' =>
      defer (dirtySlotsCache (sm_Id m)) (
        storeUpdateSlotMapping m ;;
        assign_slots slots' k)
  end.

Definition SlotsAssignGroup (slots : list (option SlotMapping)) : T unit :=
  ctx ← newContext;
  ms ← lift (check_assign ctx slots);
  let fresh := (λ m, new_mapping (sm_Id m) (sm_GroupId m)) <$> ms in
  assign_groups ms (assign_slots fresh (resyncSlotMappings fresh)).

Fixpoint check_offline (ctx : context) (slots : list (option SlotMapping)) : outcome terror (list SlotMapping) :=
  match slots with
  | [] => Ok []
  | None :: _ => Panic
  | Some m :: slots' =>
      _ ← getSlotMapping ctx (sm_Id m);
      if decide (sm_GroupId m ≠ 0) then Err (ErrSlotGroupNotZero (sm_Id m))
      else ms ← check_offline ctx slots'; Ok (m :: ms)
  end.

Definition SlotsAssignOffline (slots : list (option SlotMapping)) : T unit :=
  ctx ← newContext;
  ms ← lift (check_offline ctx slots);
  let fresh := (λ m, new_mapping (sm_Id m) 0) <$> ms in
  assign_slots fresh (resyncSlotMappings fresh).
End slots.
