(* ===== verification/TopomGroup.v ===== *)
(** Group operations of the dashboard (pkg/topom/topom_group.go, topom_sentinel.go,
    and [ProcessSyncAction] of topom_action.go).

    Groups and their servers, the promotion of a server to master, the replica
    flags, the replication ("sync") actions of servers, and the sentinels. *)

From S2P Require Import Prelude Models TopomContext TopomState TopomProxy.
(** [g.Servers[i]] with an index the code has found before. *)
Definition server_at (g : Group) (i : Z) : option GroupServer := zlookup (g_Servers g) i.
(** assignment through the pointer [g.Servers[i]] *)
Definition g_alter_server (f : GroupServer → GroupServer) (i : Z) (g : Group) : Group :=
  g_set_Servers (alter f (Z.to_nat i) (g_Servers g)) g.

(** The servers of [GroupDelServer]: all but the one at [index]. *)
Definition drop_server (index : Z) (l : list GroupServer) : list GroupServer :=
  delete (Z.to_nat index) l.

(** [for i, x := range g.Servers { if i != index && i != 0 { ... } }] *)
Fixpoint neither_server (index i : Z) (l : list GroupServer) : list GroupServer :=
  match l with
  | [] => []
  | x :: l' =>
      if decide (i ≠ index ∧ i ≠ 0) then x :: neither_server index (i + 1) l'
      else neither_server index (i + 1) l'
  end.

(** The order of the servers after a promotion: the promoted one, those that are
    neither promoted nor master, the old master.  [None]: index out of range. *)
Definition promoted_servers (index : Z) (l : list GroupServer) : option (list GroupServer) :=
  x ← zlookup l index;
  y ← l !! 0%nat;
  Some ([x] ++ neither_server index 0 l ++ [y]).

(** [g.Servers[0], g.Servers[index] = g.Servers[index], g.Servers[0]] *)
Definition swap_servers (index : Z) (l : list GroupServer) : option (list GroupServer) :=
  x ← zlookup l index;
  y ← l !! 0%nat;
  Some (<[Z.to_nat index := y]> (<[0%nat := x]> l)).

Section group.
Context `{Env} `{Config} `{UnicodeUpper}.

Definition put_group_at (gid : Z) (g : Group) : T unit := modify (put_group gid g).

(** ** Creating, removing, resyncing *)

Definition CreateGroup (gid : Z) : T unit :=
  ctx ← newContext;
  if decide (gid ≤ 0 ∨ gid > MaxGroupId) then fail (ErrInvalidGroupId gid)
  else
    match ctx_group ctx !! gid with
    | Some _ => fail (ErrGroupExists gid)
    | None => defer (dirtyGroupCache gid) (storeCreateGroup (new_group gid []))
    end.

Definition RemoveGroup (gid : Z) : T unit :=
  ctx ← newContext;
  g ← lift (getGroup ctx gid);
  match g_Servers g with
  | [] => defer (dirtyGroupCache (g_Id g)) (storeRemoveGroup g)
  | _ => fail (ErrGroupNotEmpty gid)
  end.

Definition ResyncGroup (gid : Z) : T unit :=
  ctx ← newContext;
  g ← lift (getGroup ctx gid);
  resyncSlotMappingsByGroupId gid ;;
  defer (dirtyGroupCache gid) (
    let g1 := g_set_OutOfSync false g in
    put_group_at gid g1 ;;
    storeUpdateGroup g1).

Fixpoint resync_groups (gids : list Z) : T unit :=
  match gids with
  | [] => mret tt
  | gid :: gids' =>
      ctx ← cur_ctx;
      match ctx_group ctx !! gid with
      | None => panic
      | Some g =>
          resyncSlotMappingsByGroupId (g_Id g) ;;
          defer (dirtyGroupCache (g_Id g)) (
            let g1 := g_set_OutOfSync false g in
            put_group_at gid g1 ;;
            storeUpdateGroup g1 ;;
            resync_groups gids')
      end
  end.

(** the keys of [ctx.group] in iteration order *)
Definition range_gids (ctx : context) : T (list Z) :=
  t ← next_tick;
  mret (env_range t (map_to_list (ctx_group ctx)).*1).

Definition ResyncGroupAll : T unit :=
  ctx ← newContext;
  gids ← range_gids ctx;
  resync_groups gids.

(** ** Servers of a group *)

(** [if p := ctx.sentinel; len(p.Servers) != 0 { defer s.dirtySentinelCache();
    p.OutOfSync = true; if err := s.storeUpdateSentinel(p); err != nil ... }],
    followed by [extra] in the same branch, then the rest [k]. *)
Definition sentinel_out_of_sync {A} (extra : T unit) (k : T A) : T A :=
  ctx ← cur_ctx;
  match se_Servers (ctx_sentinel ctx) with
  | [] => k
  | servers =>
      defer dirtySentinelCache (
        let p := mkSentinel servers true in
        modify (put_sentinel p) ;;
        storeUpdateSentinel p ;;
        extra ;;
        k)
  end.

Definition shouldSyncACLRuntime (acl : ACL) : bool :=
  bool_decide (acl_Revision acl ≠ 0) || acl_Enabled acl ||
  match acl_Users acl with [] => false | _ => true end.

(** The Redis calls of [syncACLToRedisServer] succeed or fail as one. *)
Definition syncACLToRedisAddr (addr : string) (acl : ACL) : T unit :=
  if shouldSyncACLRuntime acl then call (ErrSyncACL addr) else mret tt.

Definition has_server (addr : string) (g : Group) : bool :=
  existsb (λ x, bool_decide (gs_Addr x = addr)) (g_Servers g).

Definition GroupAddServer (gid : Z) (dc addr : string) : T unit :=
  ctx ← newContext;
  if decide (addr = ""%string) then fail ErrInvalidServerAddr
  else
    gs ← range_groups ctx;
    if existsb (has_server addr) gs then fail (ErrServerExists addr)
    else
      g ← lift (getGroup ctx gid);
      if decide (pr_State (g_Promoting g) ≠ ActionNothing)
      then fail (ErrGroupPromoting (g_Id g))
      else
        sentinel_out_of_sync (mret tt) (
          defer (dirtyGroupCache (g_Id g)) (
            syncACLToRedisAddr addr (ctx_acl ctx) ;;
            let x := mkGroupServer addr dc (mkServerAction 0 ActionNothing) false in
            let g1 := g_set_Servers (g_Servers g ++ [x]) g in
            put_group_at gid g1 ;;
            storeUpdateGroup g1)).

(** The group [GroupDelServer] writes. *)
Definition without_server (index : Z) (g : Group) : Group :=
  let g1 := if decide (index ≠ 0 ∧ gs_ReplicaGroup <$> server_at g index = Some true)
            then g_set_OutOfSync true g else g in
  let slice := drop_server index (g_Servers g) in
  let g2 := match slice with [] => g_set_OutOfSync false g1 | _ => g1 end in
  g_set_Servers slice g2.

Definition GroupDelServer (gid : Z) (addr : string) : T unit :=
  ctx ← newContext;
  g ← lift (getGroup ctx gid);
  index ← lift (getGroupIndex g addr);
  if decide (pr_State (g_Promoting g) ≠ ActionNothing)
  then fail (ErrGroupPromoting (g_Id g))
  else if decide (index = 0 ∧
                  (length (g_Servers g) ≠ 1%nat ∨ isGroupInUse ctx (g_Id g) = true))
  then fail (ErrCantRemoveMaster (g_Id g))
  else
    sentinel_out_of_sync (mret tt) (
      defer (dirtyGroupCache (g_Id g)) (
        let g1 := without_server index g in
        put_group_at gid g1 ;;
        storeUpdateGroup g1)).

(** ** Promoting a server *)

Definition promote_finished (gid : Z) (g : Group) : T unit :=
  ctx ← cur_ctx;
  resyncSlotMappings (getSlotMappingsByGroupId ctx (g_Id g)) ;;
  defer (dirtyGroupCache (g_Id g)) (storeUpdateGroup (new_group (g_Id g) (g_Servers g))).

Definition promote_prepared (gid : Z) (g : Group) : T unit :=
  sentinel_out_of_sync
    (* the error of [RemoveGroups] is only logged *)
    (ignore_err (call (ErrRedis "sentinel")) ;;
     modify (λ w, set_masters (delete gid <$> w_masters w) w))
    (defer (dirtyGroupCache (g_Id g)) (
       match promoted_servers (pr_Index (g_Promoting g)) (g_Servers g) with
       | None => panic
       | Some slice =>
           let g1 := g_set_Promoting 0 ActionFinished
                       (g_set_Servers (gs_set_Action 0 ActionNothing <$> slice) g) in
           put_group_at gid g1 ;;
           storeUpdateGroup g1 ;;
           (* [SetMaster("NO:ONE")] on the new master: errors are only logged *)
           ignore_err (call (ErrRedis "master")) ;;
           promote_finished gid g1
       end)).

Definition promote_preparing (gid : Z) (g : Group) : T unit :=
  defer (dirtyGroupCache (g_Id g)) (
    ctx ← cur_ctx;
    let slots := getSlotMappingsByGroupId ctx (g_Id g) in
    let g1 := g_set_Promoting (pr_Index (g_Promoting g)) ActionPrepared g in
    put_group_at gid g1 ;;
    on_err (resyncSlotMappings slots) (λ e,
      put_group_at gid (g_set_Promoting (pr_Index (g_Promoting g)) ActionPreparing g) ;;
      ignore_err (resyncSlotMappings slots) ;;
      fail e) ;;
    storeUpdateGroup g1 ;;
    promote_prepared gid g1).

Definition promote_nothing (gid index : Z) (g : Group) : T unit :=
  defer (dirtyGroupCache (g_Id g)) (
    let g1 := g_set_Promoting index ActionPreparing g in
    put_group_at gid g1 ;;
    storeUpdateGroup g1 ;;
    promote_preparing gid g1).

Definition GroupPromoteServer (gid : Z) (addr : string) : T unit :=
  ctx ← newContext;
  g ← lift (getGroup ctx gid);
  index ← lift (getGroupIndex g addr);
  if decide (pr_State (g_Promoting g) ≠ ActionNothing ∧ index ≠ pr_Index (g_Promoting g))
  then fail (ErrGroupPromotingIndex (g_Id g) (pr_Index (g_Promoting g)))
  else if decide (pr_State (g_Promoting g) = ActionNothing ∧ index = 0)
  then fail (ErrCantPromoteMaster (g_Id g))
  else
    n ← gets w_executor;
    if decide (n ≠ 0) then fail (ErrMigrationRunning n)
    else
      match pr_State (g_Promoting g) with
      | ActionNothing => promote_nothing gid index g
      | ActionPreparing => promote_preparing gid g
      | ActionPrepared => promote_prepared gid g
      | ActionFinished => promote_finished gid g
      | _ => fail (ErrGroupActionInvalid gid)
      end.

(** ** Failover reported by the sentinels *)

(** The server whose run id is that of [master]; [rid] is the [InfoCache]. *)
Fixpoint find_runid (rid : string → string) (master : string) (i : Z)
    (l : list GroupServer) : option Z :=
  match l with
  | [] => None
  | x :: l' =>
      if decide (rid master ≠ ""%string ∧ rid master = rid (gs_Addr x)) then Some i
      else find_runid rid master (i + 1) l'
  end.

Definition trySwitchGroupMaster (gid : Z) (master : string) (rid : string → string) : T unit :=
  ctx ← newContext;
  g ← lift (getGroup ctx gid);
  match match find_server master 0 (g_Servers g) with
        | Some i => Some i
        | None => find_runid rid master 0 (g_Servers g)
        end with
  | None => fail (ErrGroupHasNoMaster (g_Id g) master)
  | Some index =>
      if decide (index = 0) then mret tt
      else
        defer (dirtyGroupCache (g_Id g)) (
          match swap_servers index (g_Servers g) with
          | None => panic
          | Some l =>
              let g1 := g_set_OutOfSync true (g_set_Servers l g) in
              put_group_at gid g1 ;;
              storeUpdateGroup g1
          end)
  end.

(** ** Replica flags *)

Definition EnableReplicaGroups (gid : Z) (addr : string) (value : bool) : T unit :=
  ctx ← newContext;
  g ← lift (getGroup ctx gid);
  index ← lift (getGroupIndex g addr);
  if decide (pr_State (g_Promoting g) ≠ ActionNothing)
  then fail (ErrGroupPromoting (g_Id g))
  else
    defer (dirtyGroupCache (g_Id g)) (
      let g1 := if decide (length (g_Servers g) ≠ 1%nat ∧ isGroupInUse ctx (g_Id g) = true)
                then g_set_OutOfSync true g else g in
      let g2 := g_alter_server (gs_set_ReplicaGroup value) index g1 in
      put_group_at gid g2 ;;
      storeUpdateGroup g2).

Fixpoint enable_all (value : bool) (gids : list Z) : T unit :=
  match gids with
  | [] => mret tt
  | gid :: gids' =>
      ctx ← cur_ctx;
      match ctx_group ctx !! gid with
      | None => panic
      | Some g =>
          if decide (pr_State (g_Promoting g) ≠ ActionNothing)
          then fail (ErrGroupPromoting (g_Id g))
          else
            defer (dirtyGroupCache (g_Id g)) (
              if forallb (λ x, bool_decide (gs_ReplicaGroup x = value)) (g_Servers g)
              then enable_all value gids'
              else
                let g1 := g_set_Servers (gs_set_ReplicaGroup value <$> g_Servers g) g in
                let g2 := if decide (length (g_Servers g) ≠ 1%nat ∧
                                     isGroupInUse ctx (g_Id g) = true)
                          then g_set_OutOfSync true g1 else g1 in
                put_group_at gid g2 ;;
                storeUpdateGroup g2 ;;
                enable_all value gids')
      end
  end.

Definition EnableReplicaGroupsAll (value : bool) : T unit :=
  ctx ← newContext;
  gids ← range_gids ctx;
  enable_all value gids.

(** ** Replication actions of servers *)

Definition server_state (g : Group) (i : Z) : option ActionState :=
  (λ x, ga_State (gs_Action x)) <$> server_at g i.

Definition SyncCreateAction (addr : string) : T unit :=
  ctx ← newContext;
  gs ← range_groups ctx;
  '(g, index) ← lift (getGroupByServer gs addr);
  if decide (pr_State (g_Promoting g) ≠ ActionNothing)
  then fail (ErrGroupPromoting (g_Id g))
  else if decide (server_state g index = Some ActionPending)
  then fail (ErrServerActionExists addr)
  else
    defer (dirtyGroupCache (g_Id g)) (
      gs ← range_groups ctx;
      let g1 := g_alter_server
                  (gs_set_Action (i64 (maxSyncActionIndex gs + 1)) ActionPending) index g in
      put_group_at (g_Id g) g1 ;;
      storeUpdateGroup g1).

Definition SyncRemoveAction (addr : string) : T unit :=
  ctx ← newContext;
  gs ← range_groups ctx;
  '(g, index) ← lift (getGroupByServer gs addr);
  if decide (pr_State (g_Promoting g) ≠ ActionNothing)
  then fail (ErrGroupPromoting (g_Id g))
  else if decide (server_state g index = Some ActionNothing)
  then fail (ErrServerActionNotExist addr)
  else
    defer (dirtyGroupCache (g_Id g)) (
      let g1 := g_alter_server (gs_set_Action 0 ActionNothing) index g in
      put_group_at (g_Id g) g1 ;;
      storeUpdateGroup g1).

Definition SyncActionPrepare : T string :=
  ctx ← newContext;
  gs ← range_groups ctx;
  let addr := minSyncActionIndex gs in
  if decide (addr = ""%string) then mret ""%string
  else
    gs ← range_groups ctx;
    '(g, index) ← lift (getGroupByServer gs addr);
    if decide (pr_State (g_Promoting g) ≠ ActionNothing) then mret ""%string
    else if decide (server_state g index ≠ Some ActionPending)
    then fail (ErrServerActionInvalid addr)
    else
      defer (dirtyGroupCache (g_Id g)) (
        let g1 := g_alter_server (gs_set_Action 0 ActionSyncing) index g in
        put_group_at (g_Id g) g1 ;;
        storeUpdateGroup g1 ;;
        mret addr).

(** the two strings [SyncActionComplete] stores *)
Definition state_synced : ActionState := ActionOther "synced".
Definition state_synced_failed : ActionState := ActionOther "synced_failed".

Definition set_sync_state (st : ActionState) (x : GroupServer) : GroupServer :=
  gs_set_Action (ga_Index (gs_Action x)) st x.

Definition SyncActionComplete (addr : string) (failed : bool) : T unit :=
  ctx ← newContext;
  gs ← range_groups ctx;
  match getGroupByServer gs addr with
  | Ok (g, index) =>
      if decide (pr_State (g_Promoting g) ≠ ActionNothing) then mret tt
      else if decide (server_state g index ≠ Some ActionSyncing) then mret tt
      else
        defer (dirtyGroupCache (g_Id g)) (
          let st := if failed then state_synced_failed else state_synced in
          let g1 := g_alter_server (set_sync_state st) index g in
          put_group_at (g_Id g) g1 ;;
          storeUpdateGroup g1)
  | _ => mret tt
  end.

(** The closure of [newSyncActionExecutor]: the server and its new master. *)
Definition newSyncActionExecutor (addr : string) : T (option string) :=
  ctx ← newContext;
  gs ← range_groups ctx;
  match getGroupByServer gs addr with
  | Ok (g, index) =>
      if decide (server_state g index ≠ Some ActionSyncing) then mret None
      else if decide (index ≠ 0) then
        match g_Servers g with
        | x :: _ => mret (Some (gs_Addr x))
        | [] => panic
        end
      else mret (Some "NO:ONE"%string)
  | _ => mret None
  end.

Definition ProcessSyncAction : T unit :=
  addr ← SyncActionPrepare;
  if decide (addr = ""%string) then mret tt
  else
    e ← newSyncActionExecutor addr;
    match e with
    | None => mret tt
    | Some _master =>
        t ← next_tick;                                (* SetMaster *)
        SyncActionComplete addr (negb (env_call t))
    end.

(** ** Sentinels *)

Definition AddSentinel (addr : string) : T unit :=
  ctx ← newContext;
  if decide (addr = ""%string) then fail ErrInvalidSentinelAddr
  else
    let p := ctx_sentinel ctx in
    if decide (addr ∈ se_Servers p) then fail (ErrSentinelExists addr)
    else
      call (ErrSentinelFlush addr) ;;
      defer dirtySentinelCache (
        let p1 := mkSentinel (se_Servers p ++ [addr]) true in
        modify (put_sentinel p1) ;;
        storeUpdateSentinel p1).

Definition DelSentinel (addr : string) (force : bool) : T unit :=
  ctx ← newContext;
  if decide (addr = ""%string) then fail ErrInvalidSentinelAddr
  else
    let p := ctx_sentinel ctx in
    let slice := filter (λ x, x ≠ addr) (se_Servers p) in
    if decide (length slice = length (se_Servers p)) then fail (ErrSentinelNotFound addr)
    else
      defer dirtySentinelCache (
        let p1 := mkSentinel (se_Servers p) true in
        modify (put_sentinel p1) ;;
        storeUpdateSentinel p1 ;;
        (if force then ignore_err (call (ErrSentinelRemove addr))
         else call (ErrSentinelRemove addr)) ;;
        let p2 := mkSentinel slice true in
        modify (put_sentinel p2) ;;
        storeUpdateSentinel p2).

Definition SwitchMasters (masters : gmap Z string) : T unit :=
  w ← gets id;
  if w_closed w then fail ErrClosedTopom
  else
    modify (set_masters (Some masters)) ;;
    t ← next_tick;
    for_each (env_range t (map_to_list masters).*1) (λ gid,
      match masters !! gid with
      | Some master => ignore_err (trySwitchGroupMaster gid master (env_runid t))
      | None => mret tt
      end).

(** [rewatchSentinels] restarts the monitor goroutines; of the dashboard's state it
    only clears the masters when no sentinel is left. *)
Definition rewatchSentinels (servers : list string) : T unit :=
  match servers with
  | [] => modify (set_masters None)
  | _ => mret tt
  end.

(** [Start] of topom.go; the goroutines it starts call the operations below. *)
Definition Start (model : TopomModel) (routines : bool) : T unit :=
  w ← gets id;
  if w_closed w then fail ErrClosedTopom
  else if w_online w then mret tt
  else
    Acquire model ;;
    modify (set_online true) ;;
    if routines then
      ctx ← newContext;
      rewatchSentinels (se_Servers (ctx_sentinel ctx))
    else mret tt.

(** The proxies' [SetSentinels] calls; the tokens of those that failed. *)
Fixpoint set_sentinels (ps : list Proxy) : T (list string) :=
  match ps with
  | [] => mret []
  | p :: ps' =>
      t ← next_tick;
      failed ← set_sentinels ps';
      mret (if env_call t then failed else p_Token p :: failed)
  end.

Definition ResyncSentinels : T unit :=
  ctx ← newContext;
  defer dirtySentinelCache (
    let servers := se_Servers (ctx_sentinel ctx) in
    let p := mkSentinel servers true in
    modify (put_sentinel p) ;;
    storeUpdateSentinel p ;;
    ignore_err (call ErrSentinelMonitor) ;;            (* RemoveGroupsAll *)
    call ErrSentinelMonitor ;;                         (* MonitorGroups *)
    rewatchSentinels servers ;;
    ps ← range_proxies ctx;
    failed ← set_sentinels ps;
    match failed with
    | t :: _ => fail (ErrProxySentinel t)
    | [] =>
        let p1 := mkSentinel servers false in
        modify (put_sentinel p1) ;;
        storeUpdateSentinel p1
    end).
End group.
