(* ===== verification/TopomFrame.v ===== *)
(** How the primitives of TopomState.v act on coherence and on the context.

    An operation assigns fields of cached objects ([put_slot], [put_group],
    [put_sentinel]), stores documents and queues hooks.  Each lemma says that [coh]
    survives such a step when the hook that drops the touched entry is among the
    deferred ones, and what the context reads afterwards. *)

From S2P Require Import Prelude Models TopomContext TopomState TopomCache.
(** * Hooks *)

Definition hook_ok (h : hook) : Prop :=
  match h with HookSlots sid => 0 ≤ sid < MaxSlotNum | _ => True end.

Lemma coh_weaken h H w : hook_ok h → coh H w → coh (h :: H) w.
Proof.
  intros Hh [Hd Hc]. split; [done|]. eapply cache_coh_weaken; [| |exact Hc].
  - intros x. rewrite !elem_of_app, elem_of_cons. tauto.
  - intros sid. rewrite elem_of_app, elem_of_cons. intros [Hs|[<-|Hs]]; [|done|].
    + eapply cc_range; [exact Hc|]. by apply elem_of_app; left.
    + eapply cc_range; [exact Hc|]. by apply elem_of_app; right.
Qed.

Lemma coh_push h H w : coh (h :: H) w → coh H (push_hook h w).
Proof.
  intros [Hd Hc]. split; [done|]. cbn. rewrite <-app_assoc. cbn.
  by apply cache_coh_set_hooks.
Qed.

Lemma coh_other H w w' : w_db w' = w_db w → w_cache w' = w_cache w → coh H w → coh H w'.
Proof. unfold coh. by intros -> ->. Qed.

(** * Assignments to cached objects *)

Lemma map_coh_insert {K V} `{Countable K} (key : V → K) hits D m (d : gmap K V) k v :
  dirty (hits k) D → key v = k →
  map_coh key hits D (Some m) d → map_coh key hits D (Some (<[k := Some v]> m)) d.
Proof.
  intros Hk Hv Hm j. destruct (Hm j) as [H1 H2]. rewrite lookup_insert.
  case_decide; [|done]. subst j. split; [by intros ? [= <-]|by left].
Qed.

Lemma dirty_app p h D H : h ∈ H → p h = true → dirty p (D ++ H).
Proof. intros. apply (dirty_elem p h); [|done]. apply elem_of_app. by right. Qed.

Lemma coh_put_slot H i m w :
  HookSlots (Z.of_nat i) ∈ H → sm_Id m = Z.of_nat i → coh H w → coh H (put_slot i m w).
Proof.
  intros Hh Hm [Hd Hc]. unfold put_slot. destruct (c_slots (w_cache w)) as [l|] eqn:Hl; [|done].
  split; [done|]. destruct Hc as [C1 C2 C3 C4 C5 C6 C7]. split; try done. cbn.
  rewrite Hl in C2. destruct C2 as [Hlen C2]. split; [by rewrite length_insert|].
  intros j m' Hj. destruct (decide (i = j)) as [<-|?].
  - destruct (decide (i < length l)%nat).
    + rewrite list_lookup_insert_eq in Hj by done. simplify_eq. split; [done|].
      left. eapply dirty_app; [done|]. by apply bool_decide_eq_true.
    + rewrite list_insert_ge in Hj by lia. by apply C2.
  - rewrite list_lookup_insert_ne in Hj by done. by apply C2.
Qed.

Lemma coh_put_group H gid g w :
  HookGroup gid ∈ H → g_Id g = gid → coh H w → coh H (put_group gid g w).
Proof.
  intros Hh Hg [Hd Hc]. unfold put_group. destruct (c_group (w_cache w)) as [l|] eqn:Hl; [|done].
  split; [done|]. destruct Hc as [C1 C2 C3 C4 C5 C6 C7]. split; try done. cbn.
  rewrite Hl in C3. apply map_coh_insert; [|done|done].
  eapply dirty_app; [done|]. by apply bool_decide_eq_true.
Qed.

Lemma coh_put_sentinel H s w : HookSentinel ∈ H → coh H w → coh H (put_sentinel s w).
Proof.
  intros Hh [Hd Hc]. split; [done|]. destruct Hc as [C1 C2 C3 C4 C5 C6 C7].
  split; try done. left. by eapply dirty_app.
Qed.

(** * Writes to the store *)

Lemma map_coh_store {K V} `{Countable K} (key : V → K) hits D c (d d' : gmap K V) k :
  dirty (hits k) D → (∀ j, j ≠ k → d' !! j = d !! j) →
  map_coh key hits D c d → map_coh key hits D c d'.
Proof.
  intros Hk Hd Hm. destruct c as [m|]; [|done]. intros j. destruct (Hm j) as [H1 H2].
  split; [done|]. destruct (decide (j = k)) as [->|?]; [by left|]. by rewrite Hd.
Qed.

Lemma slot_at_set_slot d m i :
  slot_at (db_set_slot m d) i = if decide (sm_Id m = i) then m else slot_at d i.
Proof. unfold slot_at. cbn. rewrite lookup_insert. by case_decide. Qed.

Lemma coh_store_slot H m w :
  HookSlots (sm_Id m) ∈ H → coh H w → coh H (set_db (db_set_slot m (w_db w)) w).
Proof.
  intros Hh [[W1 W2 W3] [C1 C2 C3 C4 C5 C6 C7]]. split; split; try done; cbn.
  - intros i m'. rewrite lookup_insert. case_decide; [by intros [= <-]|apply W1].
  - destruct (c_slots (w_cache w)) as [l|]; [|done]. destruct C2 as [Hlen C2].
    split; [done|]. intros i m' Hi. destruct (C2 i m' Hi) as [? Hs]. split; [done|].
    rewrite slot_at_set_slot. case_decide as Hm; [|done].
    left. eapply dirty_app; [done|]. by apply bool_decide_eq_true.
Qed.

Lemma coh_store_group H g w :
  HookGroup (g_Id g) ∈ H → coh H w → coh H (set_db (db_set_group g (w_db w)) w).
Proof.
  intros Hh [[W1 W2 W3] [C1 C2 C3 C4 C5 C6 C7]]. split; split; try done; cbn.
  - intros i m'. rewrite lookup_insert. case_decide; [by intros [= <-]|apply W2].
  - eapply map_coh_store; [|intros; by rewrite lookup_insert_ne|done].
    eapply dirty_app; [done|]. by apply bool_decide_eq_true.
Qed.

Lemma coh_remove_group H gid w :
  HookGroup gid ∈ H → coh H w → coh H (set_db (db_del_group gid (w_db w)) w).
Proof.
  intros Hh [[W1 W2 W3] [C1 C2 C3 C4 C5 C6 C7]]. split; split; try done; cbn.
  - intros i m'. rewrite lookup_delete. case_decide; [done|apply W2].
  - eapply map_coh_store; [|intros; by rewrite lookup_delete_ne|done].
    eapply dirty_app; [done|]. by apply bool_decide_eq_true.
Qed.

Lemma coh_store_proxy H p w :
  HookProxy (p_Token p) ∈ H → coh H w → coh H (set_db (db_set_proxy p (w_db w)) w).
Proof.
  intros Hh [[W1 W2 W3] [C1 C2 C3 C4 C5 C6 C7]]. split; split; try done; cbn.
  - intros i m'. rewrite lookup_insert. case_decide; [by intros [= <-]|apply W3].
  - eapply map_coh_store; [|intros; by rewrite lookup_insert_ne|done].
    eapply dirty_app; [done|]. by apply bool_decide_eq_true.
Qed.

Lemma coh_remove_proxy H t w :
  HookProxy t ∈ H → coh H w → coh H (set_db (db_del_proxy t (w_db w)) w).
Proof.
  intros Hh [[W1 W2 W3] [C1 C2 C3 C4 C5 C6 C7]]. split; split; try done; cbn.
  - intros i m'. rewrite lookup_delete. case_decide; [done|apply W3].
  - eapply map_coh_store; [|intros; by rewrite lookup_delete_ne|done].
    eapply dirty_app; [done|]. by apply bool_decide_eq_true.
Qed.

Lemma coh_store_sentinel H s w :
  HookSentinel ∈ H → coh H w → coh H (set_db (db_set_sentinel s (w_db w)) w).
Proof.
  intros Hh [[W1 W2 W3] [C1 C2 C3 C4 C5 C6 C7]]. split; split; try done; cbn.
  left. by eapply dirty_app.
Qed.

Lemma coh_store_lock H l w : coh H w → coh H (set_db (db_set_lock l (w_db w)) w).
Proof. intros [[W1 W2 W3] [C1 C2 C3 C4 C5 C6 C7]]. by split; split. Qed.

(** * The context after an assignment *)

Definition ctx_set_slots x (c : context) : context :=
  mkContext x (ctx_group c) (ctx_proxy c) (ctx_sentinel c) (ctx_acl c)
    (ctx_proxyQPSLimit c) (ctx_hosts c) (ctx_method c).
Definition ctx_set_group x (c : context) : context :=
  mkContext (ctx_slots c) x (ctx_proxy c) (ctx_sentinel c) (ctx_acl c)
    (ctx_proxyQPSLimit c) (ctx_hosts c) (ctx_method c).
Definition ctx_set_sentinel x (c : context) : context :=
  mkContext (ctx_slots c) (ctx_group c) (ctx_proxy c) x (ctx_acl c)
    (ctx_proxyQPSLimit c) (ctx_hosts c) (ctx_method c).

Lemma mapM_id_Some {A} (l : list (option A)) k : mapM id l = Some k ↔ l = Some <$> k.
Proof.
  revert k. induction l as [|[x|] l IH]; intros k; cbn.
  - split; [by intros [= <-]|by destruct k].
  - destruct (mapM id l) as [k'|]; cbn.
    + split; [intros [= <-]; cbn; f_equal; by apply IH|].
      destruct k as [|y k]; intros [= -> ->]. f_equal. f_equal.
      by apply (inj Some), IH.
    + split; [done|]. destruct k as [|y k]; intros [= -> ->].
      by assert (None = Some k) by (by apply IH).
  - split; [done|]. by destruct k.
Qed.

Section ctx.
Context `{Config} `{UnicodeUpper}.

(** What [ctx_of w = Some ctx] says of the cache. *)
Lemma ctx_of_Some w ctx :
  ctx_of w = Some ctx →
  c_slots (w_cache w) = Some (Some <$> ctx_slots ctx) ∧
  (∃ gs, c_group (w_cache w) = Some gs ∧ ctx_group ctx = omap id gs) ∧
  (∃ ps, c_proxy (w_cache w) = Some ps ∧ ctx_proxy ctx = omap id ps) ∧
  c_sentinel (w_cache w) = Some (ctx_sentinel ctx).
Proof.
  unfold ctx_of. destruct (c_slots (w_cache w)) as [cs|]; cbn; [|done].
  destruct (mapM id cs) as [l|] eqn:Hl; cbn; [|done]. apply mapM_id_Some in Hl as ->.
  destruct (c_group (w_cache w)), (c_proxy (w_cache w)), (c_sentinel (w_cache w)),
    (c_acl (w_cache w)), (c_qps (w_cache w)); cbn; try done.
  intros [= <-]. cbn. split_and!; eauto.
Qed.

Lemma ctx_of_wf D w ctx : coh D w → ctx_of w = Some ctx → ctx_wf ctx.
Proof.
  intros [_ [C1 C2 C3 C4 _ _ _]] (Hs & (gs & Hg & Hg') & (ps & Hp & Hp') & _)%ctx_of_Some.
  rewrite Hs in C2. rewrite Hg in C3. rewrite Hp in C4. destruct C2 as [Hlen C2].
  rewrite length_fmap in Hlen. split; [done|..].
  - intros i m Hi. apply (C2 i m). rewrite list_lookup_fmap. by rewrite Hi.
  - intros k g. rewrite Hg', lookup_omap. intros (x & Hx & Hid)%bind_Some. cbn in Hid. subst x. by apply (C3 k).
  - intros k g. rewrite Hp', lookup_omap. intros (x & Hx & Hid)%bind_Some. cbn in Hid. subst x. by apply (C4 k).
Qed.

Lemma ctx_of_put_slot w ctx i m :
  ctx_of w = Some ctx →
  ctx_of (put_slot i m w) = Some (ctx_set_slots (<[i := m]> (ctx_slots ctx)) ctx).
Proof.
  intros Hc. pose proof (ctx_of_Some _ _ Hc) as (Hs & _). unfold put_slot. rewrite Hs.
  revert Hc. unfold ctx_of. rewrite Hs. cbn. rewrite <-list_fmap_insert.
  rewrite (proj2 (mapM_id_Some _ _) eq_refl), (proj2 (mapM_id_Some _ _) eq_refl). cbn.
  destruct (c_group (w_cache w)), (c_proxy (w_cache w)), (c_sentinel (w_cache w)),
    (c_acl (w_cache w)), (c_qps (w_cache w)); cbn; try done.
  by intros [= <-].
Qed.

Lemma ctx_of_put_group w ctx gid g :
  ctx_of w = Some ctx →
  ctx_of (put_group gid g w) = Some (ctx_set_group (<[gid := g]> (ctx_group ctx)) ctx).
Proof.
  intros Hc. pose proof (ctx_of_Some _ _ Hc) as (Hs & (gs & Hg & Hg') & _).
  unfold put_group. rewrite Hg.
  revert Hc. unfold ctx_of. cbn. rewrite Hs, Hg. cbn.
  rewrite (proj2 (mapM_id_Some _ _) eq_refl). cbn.
  destruct (c_proxy (w_cache w)), (c_sentinel (w_cache w)),
    (c_acl (w_cache w)), (c_qps (w_cache w)); cbn; try done.
  intros [= <-]. cbn. do 2 f_equal. by rewrite (omap_insert_Some _ _ _ _ g).
Qed.

Lemma ctx_of_put_sentinel w ctx s :
  ctx_of w = Some ctx → ctx_of (put_sentinel s w) = Some (ctx_set_sentinel s ctx).
Proof.
  unfold ctx_of. cbn. destruct (c_slots (w_cache w)) as [cs|]; cbn; [|done].
  destruct (mapM id cs) as [l|]; cbn; [|done].
  destruct (c_group (w_cache w)), (c_proxy (w_cache w)), (c_sentinel (w_cache w)),
    (c_acl (w_cache w)), (c_qps (w_cache w)); cbn; try done.
  by intros [= <-].
Qed.

Lemma ctx_of_same w w' :
  w_cache w' = w_cache w → w_hosts w' = w_hosts w → ctx_of w' = ctx_of w.
Proof. unfold ctx_of. by intros -> ->. Qed.

Lemma ctx_of_hook w h : ctx_of (push_hook h w) = ctx_of w.
Proof. done. Qed.
End ctx.
