(* ===== verification/TopomInv.v ===== *)
(** The invariant of the dashboard's world.

    [cluster_ok] is what the documents in the store satisfy: every group a slot refers
    to exists and has a server, action states are the ones the code knows, a server
    address belongs to one group only.  [tables_ok] relates the slot tables of the
    proxies to the stored state of each migration: [admits] says which entries a
    proxy may hold in each phase of it.  [Inv] adds the coherence of the cache.

    An operation starts from a fresh context and ends with [Inv]; in between [body]
    holds, relative to a frame of facts fixed when the operation started. *)

From S2P Require Import Prelude Models TopomContext TopomState TopomCache TopomFrame.
(** * Well-formed documents *)

Definition addrs (g : Group) : list string := gs_Addr <$> g_Servers g.

(** [L]: the groups known to exist and to have a server. *)
Definition slot_ok (L : Z → Prop) (m : SlotMapping) : Prop :=
  (sm_GroupId m = 0 ∨ L (sm_GroupId m)) ∧
  match sm_State m with
  | ActionNothing => True
  | ActionPending | ActionPreparing | ActionPrepared | ActionMigrating | ActionFinished =>
      L (sm_TargetId m)
  | ActionSyncing | ActionOther _ => False
  end.

Definition group_ok (gid : Z) (g : Group) : Prop :=
  0 < gid ≤ MaxGroupId ∧ g_Id g = gid ∧ NoDup (addrs g) ∧
  match pr_State (g_Promoting g) with
  | ActionNothing | ActionFinished => True
  | ActionPreparing | ActionPrepared =>
      0 < pr_Index (g_Promoting g) < Z.of_nat (length (g_Servers g))
  | _ => False
  end.

Definition alive (gs : gmap Z Group) (gid : Z) : Prop :=
  ∃ g, gs !! gid = Some g ∧ g_Servers g ≠ [].

(** No address in two groups. *)
Definition uniq (gs : gmap Z Group) : Prop :=
  ∀ k1 k2 g1 g2 a, gs !! k1 = Some g1 → gs !! k2 = Some g2 →
    a ∈ addrs g1 → a ∈ addrs g2 → k1 = k2.

Record cluster_ok (d : db) : Prop := {
  ok_slots i m : all_slots d !! i = Some m → slot_ok (alive (db_group d)) m;
  ok_group gid g : db_group d !! gid = Some g → group_ok gid g;
  ok_uniq : uniq (db_group d)
}.

(** * The phases of a migration, as the proxies may see them *)

Inductive phase : Type :=
| Serving (src : Z)            (* no migration, or one not started *)
| Switching (src dst : Z)      (* preparing: proxies are being locked *)
| Switched (src dst : Z)       (* every proxy knows the target *)
| Landing (src dst : Z)        (* all keys moved, the source is being forgotten *)
| NoPhase.

Definition phase_of (m : SlotMapping) : phase :=
  match sm_State m with
  | ActionNothing | ActionPending => Serving (sm_GroupId m)
  | ActionPreparing => Switching (sm_GroupId m) (sm_TargetId m)
  | ActionPrepared | ActionMigrating => Switched (sm_GroupId m) (sm_TargetId m)
  | ActionFinished => Landing (sm_GroupId m) (sm_TargetId m)
  | _ => NoPhase
  end.

(** The entries a proxy may hold for a slot in a phase. *)
Definition admits (ph : phase) (e : Slot) : Prop :=
  match ph with
  | Serving s => slot_BackendAddrGroupId e = s ∧ slot_MigrateFromGroupId e = 0
  | Switching s t =>
      (slot_BackendAddrGroupId e = s ∧ slot_MigrateFromGroupId e = 0) ∨
      (slot_BackendAddrGroupId e = t ∧ slot_MigrateFromGroupId e = s ∧ slot_Locked e = true)
  | Switched s t => slot_BackendAddrGroupId e = t ∧ slot_MigrateFromGroupId e = s
  | Landing s t =>
      slot_BackendAddrGroupId e = t ∧
      (slot_MigrateFromGroupId e = s ∨ slot_MigrateFromGroupId e = 0)
  | NoPhase => False
  end.

(** Every table belongs to a registered proxy, and its entries are admitted. *)
Definition tables_ok (d : db) (tabs : gmap string table) : Prop :=
  ∀ t tb, tabs !! t = Some tb →
    is_Some (db_proxy d !! t) ∧
    ∀ i e, tb !! i = Some e → 0 ≤ i < MaxSlotNum ∧ admits (phase_of (slot_at d i)) e.

(** The invariant with hooks [D] still to run.  [S] is off where forced assignments
    are among the operations. *)
Record settled (S : bool) (D : list hook) (w : world) : Prop := {
  st_coh : coh D w;
  st_cluster : cluster_ok (w_db w);
  st_tables : S = true → tables_ok (w_db w) (w_tables w);
  st_log : S = true → ∀ d tabs, (d, tabs) ∈ w_log w → tables_ok d tabs
}.

(** The invariant between two operations. *)
Definition Inv (strict : bool) (w : world) : Prop := settled strict [] w.

(** * Inside an operation *)

(** What is known while an operation runs: the groups that stay alive, the phase of
    each slot in the store and in the cached objects, the groups as they were (every
    group but [fr_free] keeps its addresses), proxies that are registered, and whether
    the context knows all of them. *)
Record frame := mkFrame {
  fr_alive : Z → Prop;
  fr_phase : Z → phase;
  fr_cached : Z → phase;
  fr_group0 : gmap Z Group;
  fr_free : option Z;
  fr_proxies : string → Prop;
  fr_full : bool
}.

Definition groups_ok (F : frame) (gs : gmap Z Group) : Prop :=
  (∀ gid g, gs !! gid = Some g → group_ok gid g) ∧
  (∀ gid, fr_alive F gid → alive gs gid) ∧
  uniq gs ∧
  (∀ gid, fr_free F ≠ Some gid → addrs <$> gs !! gid = addrs <$> fr_group0 F !! gid).

Definition slots_ok (S : bool) (L : Z → Prop) (K : Z → phase) (slots : list SlotMapping) : Prop :=
  ∀ i m, slots !! i = Some m →
    slot_ok L m ∧ (S = true → phase_of m = K (Z.of_nat i)).

(** What a context read inside the operation satisfies. *)
Definition view_ok (S : bool) (F : frame) (ctx : context) : Prop :=
  slots_ok S (fr_alive F) (fr_cached F) (ctx_slots ctx) ∧ groups_ok F (ctx_group ctx) ∧
  ∀ t, is_Some (ctx_proxy ctx !! t) → fr_proxies F t.

Section body.
Context `{Config} `{UnicodeUpper}.

Record body (S : bool) (F : frame) (D : list hook) (w : world) : Prop := {
  b_coh : coh D w;
  b_slots : slots_ok S (fr_alive F) (fr_phase F) (all_slots (w_db w));
  b_group : groups_ok F (db_group (w_db w));
  b_ctx : ∃ ctx, ctx_of w = Some ctx ∧ view_ok S F ctx ∧
            (fr_full F = true →
               ∀ t, is_Some (db_proxy (w_db w) !! t) → is_Some (ctx_proxy ctx !! t));
  b_proxies t : fr_proxies F t → is_Some (db_proxy (w_db w) !! t);
  b_tables : S = true → tables_ok (w_db w) (w_tables w);
  b_log : S = true → ∀ d tabs, (d, tabs) ∈ w_log w → tables_ok d tabs
}.

(** ** Generic facts *)

Lemma slot_ok_mono (L L' : Z → Prop) m : (∀ k, L k → L' k) → slot_ok L m → slot_ok L' m.
Proof.
  unfold slot_ok. intros HL [Hg Hs]. split; [naive_solver|]. destruct (sm_State m); auto.
Qed.

Lemma all_slots_set_slot d m :
  0 ≤ sm_Id m → all_slots (db_set_slot m d) = <[Z.to_nat (sm_Id m) := m]> (all_slots d).
Proof.
  intros Hm. apply list_eq. intros i. apply option_eq. intros x.
  rewrite all_slots_lookup, slot_at_set_slot, list_lookup_insert_Some, all_slots_lookup.
  pose proof (length_all_slots d). unfold MaxSlotNum in *. case_decide; split; intros Hx.
  - left. split_and!; [lia|naive_solver|lia].
  - destruct Hx as [(? & -> & ?)|(? & ? & ?)]; [split; [lia|done]|lia].
  - right. split_and!; [lia|naive_solver..].
  - destruct Hx as [(? & -> & ?)|(? & ? & ?)]; [lia|done].
Qed.

(** Phases with one entry changed. *)
Definition upd (K : Z → phase) (i : Z) (ph : phase) (j : Z) : phase :=
  if decide (j = i) then ph else K j.

Lemma upd_same K i j : upd K i (K i) j = K j.
Proof. unfold upd. by case_decide; subst. Qed.

Lemma slots_ok_insert S L K slots i m :
  slots_ok S L K slots → slot_ok L m →
  slots_ok S L (upd K (Z.of_nat i) (phase_of m)) (<[i := m]> slots).
Proof.
  intros Hs Hm j m' [(-> & -> & ?)|[? Hj]]%list_lookup_insert_Some; unfold upd.
  - by rewrite decide_True.
  - rewrite decide_False by lia. by apply Hs.
Qed.

Lemma slots_ok_ext S L K K' slots :
  (S = true → ∀ i, K i = K' i) → slots_ok S L K slots → slots_ok S L K' slots.
Proof.
  intros HK Hs i m Hi. destruct (Hs i m Hi) as [? Hp]. split; [done|].
  intros HS. by rewrite <-HK, Hp.
Qed.

(** A group document that fits in the place of [gid]. *)
Record fits (F : frame) (gid : Z) (g : Group) : Prop := {
  fit_ok : group_ok gid g;
  fit_alive : fr_alive F gid → g_Servers g ≠ [];
  fit_free gid' : gid' ≠ gid → fr_free F ≠ Some gid';
  fit_others gid' g' a : gid' ≠ gid → fr_group0 F !! gid' = Some g' →
    a ∈ addrs g → a ∈ addrs g' → False;
  fit_same : fr_free F = Some gid ∨ Some (addrs g) = addrs <$> fr_group0 F !! gid
}.

Lemma groups_ok_addrs F gs gid g a :
  groups_ok F gs → fr_free F ≠ Some gid → gs !! gid = Some g → a ∈ addrs g →
  ∃ g', fr_group0 F !! gid = Some g' ∧ a ∈ addrs g'.
Proof.
  intros (_ & _ & _ & Hs) Hf Hg Ha. specialize (Hs gid Hf). rewrite Hg in Hs.
  cbn in Hs. symmetry in Hs. apply fmap_Some in Hs as (g' & Hg' & Hs). exists g'.
  by rewrite <-Hs.
Qed.

Lemma groups_ok_insert F gs gid g :
  groups_ok F gs → fits F gid g → groups_ok F (<[gid := g]> gs).
Proof.
  intros HG [F1 F2 F3 F4 F5]. pose proof HG as (G1 & G2 & G3 & G4).
  assert (Hout : ∀ k g' a, k ≠ gid → gs !! k = Some g' → a ∈ addrs g → a ∈ addrs g' → False).
  { intros k g' a Hk Hg' Ha Ha'.
    destruct (groups_ok_addrs F gs k g' a) as (g0 & ? & ?); eauto. }
  split_and!.
  - intros k g'. rewrite lookup_insert. case_decide; [naive_solver|apply G1].
  - intros k Hk. unfold alive. destruct (decide (gid = k)) as [<-|?].
    + rewrite lookup_insert_eq. eauto.
    + rewrite lookup_insert_ne by done. by apply G2.
  - intros k1 k2 g1 g2 a. rewrite !lookup_insert. repeat case_decide; intros; simplify_eq; auto.
    + exfalso. eapply Hout; eauto.
    + exfalso. eapply (Hout k1); eauto.
    + by eapply G3.
  - intros k Hk. rewrite lookup_insert. case_decide; [|by apply G4]. subst k.
    by destruct F5 as [?|F5].
Qed.

(** A change of a group that keeps its addresses fits. *)
Lemma fits_same F gs gid g g' :
  groups_ok F gs → gs !! gid = Some g → (∀ k, k ≠ gid → fr_free F ≠ Some k) →
  addrs g' = addrs g → group_ok gid g' → fits F gid g'.
Proof.
  intros HG Hg Hf Ha Hg'. pose proof HG as (G1 & G2 & G3 & G4). split; try done.
  - intros Hl. destruct (G2 gid Hl) as (x & Hx & Hne). simplify_eq.
    intros Hn. apply Hne. apply (f_equal length) in Ha. unfold addrs in Ha.
    rewrite !length_fmap, Hn in Ha. by destruct (g_Servers g).
  - intros k g0 a Hk Hg0 Ha1 Ha2. rewrite Ha in Ha1. specialize (G4 k (Hf k Hk)).
    rewrite Hg0 in G4. apply fmap_Some in G4 as (g1 & Hg1 & Hs).
    rewrite Hs in Ha2. apply Hk. eapply (G3 k gid); eauto.
  - destruct (decide (fr_free F = Some gid)) as [?|Hn]; [by left|right].
    rewrite <-(G4 gid Hn), Hg. cbn. by rewrite Ha.
Qed.

(** ** Primitive steps *)

Lemma body_other S F D w w' :
  w_db w' = w_db w → w_cache w' = w_cache w → w_hosts w' = w_hosts w →
  w_tables w' = w_tables w → w_log w' = w_log w → body S F D w → body S F D w'.
Proof.
  intros E1 E2 E3 E4 E5 [B1 B2 B2' B3 B4 B5 B6].
  split; rewrite ?E1, ?E4, ?E5, ?(ctx_of_same w w') by done; try done.
  by apply (coh_other _ w).
Qed.

(** One more entry of the log. *)
Lemma log_cons (S : bool) d tabs (l : list (db * gmap string table)) :
  (S = true → tables_ok d tabs) →
  (S = true → ∀ d tabs, (d, tabs) ∈ l → tables_ok d tabs) →
  S = true → ∀ d' tabs', (d', tabs') ∈ (d, tabs) :: l → tables_ok d' tabs'.
Proof. intros Ht Hl HS d' tabs' [[= -> ->]|?]%elem_of_cons; [by apply Ht|by apply Hl]. Qed.

Lemma body_settled S F D w : body S F D w → settled S D w.
Proof.
  intros [B1 Hs (G1 & G2 & G3 & G4) B3 B4 B5 B6]. split; [done| |done|done]. split; try done.
  intros i m Hi. eapply slot_ok_mono; [apply G2|]. by apply (Hs i m).
Qed.

Lemma body_weaken S F D h w : hook_ok h → body S F D w → body S F (h :: D) w.
Proof. intros Hh []. split; try done. by apply coh_weaken. Qed.

Lemma body_push S F D h w : body S F (h :: D) w → body S F D (push_hook h w).
Proof. intros []. split; try done. by apply coh_push. Qed.

Lemma settled_push S D h w : settled S (h :: D) w → settled S D (push_hook h w).
Proof. intros []. split; try done. by apply coh_push. Qed.

(** The frame after an assignment to a cached mapping, and after a write of one. *)
Definition fr_put (m : SlotMapping) (F : frame) : frame :=
  mkFrame (fr_alive F) (fr_phase F) (upd (fr_cached F) (sm_Id m) (phase_of m))
    (fr_group0 F) (fr_free F) (fr_proxies F) (fr_full F).
Definition fr_store (m : SlotMapping) (F : frame) : frame :=
  mkFrame (fr_alive F) (upd (fr_phase F) (sm_Id m) (phase_of m)) (fr_cached F)
    (fr_group0 F) (fr_free F) (fr_proxies F) (fr_full F).

(** Frames whose phases agree pointwise. *)
Record frame_eq (S : bool) (F F' : frame) : Prop := {
  fe_alive : fr_alive F = fr_alive F';
  fe_phase i : S = true → fr_phase F i = fr_phase F' i;
  fe_cached i : S = true → fr_cached F i = fr_cached F' i;
  fe_group0 : fr_group0 F = fr_group0 F';
  fe_free : fr_free F = fr_free F';
  fe_proxies : fr_proxies F = fr_proxies F';
  fe_full : fr_full F = fr_full F'
}.

Lemma body_ext S F F' D w : frame_eq S F F' → body S F D w → body S F' D w.
Proof.
  destruct F, F'. intros [] [B1 B2 B2' (ctx & Hc & (Hv1 & Hv2) & Hf) B4 B5]; cbn in *. subst.
  split; try done.
  - eapply slots_ok_ext; [|exact B2]. auto.
  - exists ctx. split; [done|]. split; [|done]. split; [|done].
    eapply slots_ok_ext; [|exact Hv1]. auto.
Qed.

Lemma body_put_slot S F D i m w :
  HookSlots (Z.of_nat i) ∈ D → sm_Id m = Z.of_nat i → slot_ok (fr_alive F) m →
  body S F D w → body S (fr_put m F) D (put_slot i m w).
Proof.
  intros Hh Hm Hok [B1 B2 B2' (ctx & Hc & (Hs & Hg) & Hpr) B4 B5 B6].
  assert (w_db (put_slot i m w) = w_db w ∧ w_tables (put_slot i m w) = w_tables w) as [E1 E2].
  { unfold put_slot. by destruct (c_slots _). }
  assert (w_log (put_slot i m w) = w_log w) as E3 by (unfold put_slot; by destruct (c_slots _)).
  split; rewrite ?E1, ?E2, ?E3; try done.
  - by apply coh_put_slot.
  - eexists. split; [by apply ctx_of_put_slot|]. split; [|done].
    split; [|done]. cbn. rewrite Hm. by apply slots_ok_insert.
Qed.

Lemma body_put_group S F D gid g w :
  HookGroup gid ∈ D → fits F gid g → body S F D w → body S F D (put_group gid g w).
Proof.
  intros Hh Hf [B1 B2 B2' (ctx & Hc & (Hs & Hg & Hp) & Hpr) B4 B5 B6].
  assert (w_db (put_group gid g w) = w_db w ∧ w_tables (put_group gid g w) = w_tables w) as [E1 E2].
  { unfold put_group. by destruct (c_group _). }
  assert (w_log (put_group gid g w) = w_log w) as E3 by (unfold put_group; by destruct (c_group _)).
  split; rewrite ?E1, ?E2, ?E3; try done.
  - apply coh_put_group; [done| |done]. apply (fit_ok _ _ _ Hf).
  - eexists. split; [by apply ctx_of_put_group|]. split; [|done].
    split; [done|]. split; [|done]. by apply groups_ok_insert.
Qed.

Lemma body_put_sentinel S F D s w :
  HookSentinel ∈ D → body S F D w → body S F D (put_sentinel s w).
Proof.
  intros Hh [B1 B2 B2' (ctx & Hc & Hv) B4 B5 B6]. split; try done.
  - by apply coh_put_sentinel.
  - eexists. by split; [by apply ctx_of_put_sentinel|].
Qed.

Lemma tables_ok_ext d d' tabs :
  (∀ t, is_Some (db_proxy d !! t) → is_Some (db_proxy d' !! t)) →
  (∀ i, 0 ≤ i < MaxSlotNum → phase_of (slot_at d' i) = phase_of (slot_at d i)) →
  tables_ok d tabs → tables_ok d' tabs.
Proof.
  intros Hp Hs Ht t tb Htb. destruct (Ht t tb Htb) as [H1 H2]. split; [by apply Hp|].
  intros i e He. destruct (H2 i e He) as [Hi Ha]. split; [done|]. by rewrite Hs.
Qed.

Lemma all_slots_at d i : 0 ≤ i < MaxSlotNum → all_slots d !! Z.to_nat i = Some (slot_at d i).
Proof.
  unfold MaxSlotNum. intros Hi. apply all_slots_lookup. split; [lia|]. by rewrite Z2Nat.id by lia.
Qed.

Lemma body_phase S F D w i :
  body S F D w → S = true → 0 ≤ i < MaxSlotNum → phase_of (slot_at (w_db w) i) = fr_phase F i.
Proof.
  intros [_ Hs _ _ _ _ _] HS Hi. destruct (Hs _ _ (all_slots_at (w_db w) i Hi)) as [_ Hp].
  rewrite Hp by done. f_equal. unfold MaxSlotNum in *. lia.
Qed.

Lemma body_hook_range S F D w sid : body S F D w → HookSlots sid ∈ D → 0 ≤ sid < MaxSlotNum.
Proof.
  intros [[_ HB] _ _ _ _ _ _] Hh. eapply cc_range; [exact HB|]. apply elem_of_app. by right.
Qed.

(** Writing a mapping: the proxies' entries must be admitted in its phase. *)
Lemma body_store_slot S F D m w :
  HookSlots (sm_Id m) ∈ D → slot_ok (fr_alive F) m →
  (S = true → tables_ok (db_set_slot m (w_db w)) (w_tables w)) →
  body S F D w → body S (fr_store m F) D (set_db (db_set_slot m (w_db w)) w).
Proof.
  intros Hh Hok Ht HB. pose proof (body_hook_range _ _ _ _ _ HB Hh) as Hr.
  destruct HB as [B1 Hs Hg B3 B4 B5 B6]. split; try done.
  - by apply coh_store_slot.
  - cbn. rewrite all_slots_set_slot by lia. rewrite <-(Z2Nat.id (sm_Id m)) at 1 by lia.
    by apply slots_ok_insert.
  - by apply log_cons.
Qed.

(** A write that leaves the phase alone asks nothing of the proxies. *)
Lemma tables_ok_same_phase S F D m w :
  body S F D w → (S = true → phase_of m = fr_phase F (sm_Id m)) → S = true →
  tables_ok (db_set_slot m (w_db w)) (w_tables w).
Proof.
  intros HB Hp HS. eapply tables_ok_ext; [..|by apply (b_tables _ _ _ _ HB)]; [done|].
  intros i Hi. rewrite slot_at_set_slot. case_decide; [subst i|done].
  rewrite Hp by done. symmetry. by eapply body_phase.
Qed.

Lemma body_store_group S F D g w :
  HookGroup (g_Id g) ∈ D → fits F (g_Id g) g →
  body S F D w → body S F D (set_db (db_set_group g (w_db w)) w).
Proof.
  intros Hh Hf [B1 Hs Hg B3 B4 B5 B6]. split; try done.
  - by apply coh_store_group.
  - by apply groups_ok_insert.
  - by apply log_cons.
Qed.

Lemma body_store_sentinel S F D s w :
  HookSentinel ∈ D → body S F D w → body S F D (set_db (db_set_sentinel s (w_db w)) w).
Proof.
  intros Hh []. split; try done; [by apply coh_store_sentinel|by apply log_cons].
Qed.

(** The frame with one more registered proxy. *)
Definition fr_register (t : string) (F : frame) : frame :=
  mkFrame (fr_alive F) (fr_phase F) (fr_cached F) (fr_group0 F) (fr_free F)
    (λ t', t' = t ∨ fr_proxies F t') false.

Lemma body_store_proxy S F D p w :
  HookProxy (p_Token p) ∈ D → body S F D w →
  body S (fr_register (p_Token p) F) D (set_db (db_set_proxy p (w_db w)) w).
Proof.
  intros Hh [B1 B2 B2' (ctx & Hc & (Hs & Hg & Hp) & Hpr) B4 B5 B6].
  assert (∀ t, is_Some (db_proxy (w_db w) !! t) →
               is_Some (<[p_Token p := p]> (db_proxy (w_db w)) !! t)) as Hmono.
  { intros t. rewrite lookup_insert. by case_decide. }
  split; try done.
  - by apply coh_store_proxy.
  - exists ctx. split; [done|]. split; [|done]. split; [done|]. split; [done|].
    intros. right. by apply Hp.
  - intros t [->|Ht]; cbn; [by rewrite lookup_insert_eq|]. by apply Hmono, B4.
  - intros HS. eapply tables_ok_ext; [..|by apply B5]; done.
  - apply log_cons; [|done]. intros HS. eapply tables_ok_ext; [..|by apply B5]; done.
Qed.
End body.
