(* ===== verification/TopomRules.v ===== *)
(** Rules for the monadic steps of an operation under [body], and how an operation
    starts from and returns to [Inv]. *)

From S2P Require Import Prelude Models TopomContext TopomState TopomCache TopomFrame.
From S2P Require Import TopomProxy TopomInv.
(** * What a context read under [body] looks like *)

Definition ctx_view (S : bool) (F : frame) (ctx : context) : Prop :=
  ctx_wf ctx ∧ view_ok S F ctx.

(** A mapping that may be pushed to the proxies: what they are told of it is admitted
    in the stored phase. *)
Definition pushable (S : bool) (F : frame) (m : SlotMapping) : Prop :=
  slot_ok (fr_alive F) m ∧ 0 ≤ sm_Id m < MaxSlotNum ∧
  (S = true → ∀ ctx p s, toSlot ctx m p = Ok s → admits (fr_phase F (sm_Id m)) s).

(** Store and cache agree on the phases. *)
Definition synced (F : frame) : Prop := ∀ i, fr_cached F i = fr_phase F i.

(** The entry computed from a mapping is admitted in the mapping's own phase. *)
Lemma toSlot_admits ctx m p s : toSlot ctx m p = Ok s → admits (phase_of m) s.
Proof.
  unfold toSlot, phase_of. destruct (isSlotLocked ctx m); cbn; [|done..].
  destruct (sm_State m); intros [= <-]; cbn; auto.
Qed.

Lemma pushable_phase S F m :
  slot_ok (fr_alive F) m → 0 ≤ sm_Id m < MaxSlotNum →
  (S = true → phase_of m = fr_phase F (sm_Id m)) → pushable S F m.
Proof.
  intros Hok Hr Hp. split_and!; [done|lia|lia|]. intros HS ctx p s Hs.
  rewrite <-Hp by done. by eapply toSlot_admits.
Qed.

Lemma ctx_view_slot S F ctx i m :
  ctx_view S F ctx → ctx_slots ctx !! i = Some m →
  slot_ok (fr_alive F) m ∧ sm_Id m = Z.of_nat i ∧ 0 ≤ sm_Id m < MaxSlotNum ∧
  (S = true → phase_of m = fr_cached F (sm_Id m)).
Proof.
  intros (Hw & Hs & _) Hi. destruct (Hs i m Hi) as [Hok Hp].
  pose proof (cw_slots _ Hw i m Hi) as Hid. rewrite <-Hid in Hp.
  pose proof (cw_length _ Hw). pose proof (lookup_lt_Some _ _ _ Hi).
  split_and!; [done|done|lia|lia|done].
Qed.

Lemma ctx_view_elem S F ctx m :
  ctx_view S F ctx → synced F → m ∈ ctx_slots ctx → pushable S F m.
Proof.
  intros Hv HF [i Hi]%list_elem_of_lookup.
  destruct (ctx_view_slot _ _ _ _ _ Hv Hi) as (Hok & _ & Hr & Hp).
  apply pushable_phase; [done..|]. by rewrite <-HF.
Qed.

(** * Turning mappings into what the proxies are told *)

Lemma isGroupLocked_total S F ctx gid :
  ctx_view S F ctx → ∃ b, isGroupLocked ctx gid = Ok b.
Proof.
  intros (_ & _ & (HG & _) & _). unfold isGroupLocked.
  destruct (ctx_group ctx !! gid) as [g|] eqn:Hg; [|eauto].
  destruct (HG gid g Hg) as (_ & _ & _ & Hp). destruct (pr_State _); eauto; done.
Qed.

Lemma toSlot_total S F ctx L m p :
  ctx_view S F ctx → slot_ok L m → ∃ s, toSlot ctx m p = Ok s.
Proof.
  intros Hv [_ Hs]. unfold toSlot, isSlotLocked.
  destruct (isGroupLocked_total S F ctx (sm_GroupId m) Hv) as [b Hb].
  destruct (isGroupLocked_total S F ctx (sm_TargetId m) Hv) as [b' Hb'].
  destruct (sm_State m); rewrite ?Hb; cbn; try done; try (by eexists).
  - destruct b; rewrite ?Hb'; cbn; by eexists.
  - rewrite Hb'. by eexists.
Qed.

Lemma toSlotSlice_total S F ctx L ms p :
  ctx_view S F ctx → (∀ m, m ∈ ms → slot_ok L m) → ∃ l, toSlotSlice ctx ms p = Ok l.
Proof.
  intros Hv. induction ms as [|m ms IH]; intros Hms; cbn; [by eexists|].
  destruct (toSlot_total S F ctx L m p Hv) as [s ->]; [apply Hms; by constructor|].
  destruct IH as [l ->]; [intros; apply Hms; by constructor|]. by eexists.
Qed.

(** A prepared slot is told locked. *)
Lemma toSlot_prepared ctx m p s :
  toSlot ctx m p = Ok s → sm_State m = ActionPrepared →
  slot_Locked s = true ∧ slot_BackendAddrGroupId s = sm_TargetId m ∧
  slot_MigrateFromGroupId s = sm_GroupId m.
Proof. unfold toSlot, isSlotLocked. intros Hs Hm. rewrite Hm in Hs. by simplify_eq/=. Qed.

Section rules.
Context `{Env} `{Config} `{UnicodeUpper}.

Abbreviation B S F D := (body S F D).

(** * Steps that leave the store alone *)

Lemma safe_defer_hook S F D h {A} (m : T A) :
  hook_ok h → safe (B S F (h :: D)) m → safe (B S F D) (defer (push_hook h) m).
Proof.
  intros Hh. apply safe_defer; intros w; [by apply body_weaken|by apply body_push].
Qed.

Lemma safe_tick_bind S F D {A} (k : nat → T A) :
  (∀ t, safe (B S F D) (k t)) → safe (B S F D) (next_tick ≫= k).
Proof.
  intros Hk w Hw. apply wp_bind, wp_next_tick. cbn. apply Hk. by apply (body_other _ _ _ w).
Qed.

Lemma safe_call S F D e : safe (B S F D) (call e).
Proof. apply safe_tick_bind. intros t. destruct (env_call t); auto with safe. Qed.

Lemma safe_modify_other S F D f :
  (∀ w, w_db (f w) = w_db w ∧ w_cache (f w) = w_cache w ∧ w_hosts (f w) = w_hosts w ∧
        w_tables (f w) = w_tables w ∧ w_log (f w) = w_log w) → safe (B S F D) (modify f : T unit).
Proof. intros Hf. apply safe_modify. intros w. apply body_other; apply Hf. Qed.

Lemma body_ctx_view S F D w :
  body S F D w → ∃ ctx, ctx_of w = Some ctx ∧ ctx_view S F ctx.
Proof.
  intros [B1 _ _ (ctx & Hc & Hv & _) _ _ _]. exists ctx. split; [done|].
  split; [by eapply ctx_of_wf|done].
Qed.

Lemma wp_cur_ctx ctx {A} (k : context → T A) Q w :
  ctx_of w = Some ctx → wp (k ctx) Q w → wp (cur_ctx ≫= k) Q w.
Proof. intros Hc HQ. apply wp_bind. unfold wp at 1, cur_ctx. by rewrite Hc. Qed.

Lemma safe_cur_ctx S F D {A} (k : context → T A) :
  (∀ ctx, ctx_view S F ctx → safe (B S F D) (k ctx)) → safe (B S F D) (cur_ctx ≫= k).
Proof.
  intros Hk w Hw. destruct (body_ctx_view _ _ _ _ Hw) as (ctx & Hc & Hv).
  apply (wp_cur_ctx ctx); [done|]. by apply Hk.
Qed.

(** An assignment that leaves the phase alone. *)
Lemma safe_put_slot S F D i m :
  HookSlots (Z.of_nat i) ∈ D → sm_Id m = Z.of_nat i → slot_ok (fr_alive F) m →
  (S = true → phase_of m = fr_cached F (Z.of_nat i)) →
  safe (B S F D) (modify (put_slot i m) : T unit).
Proof.
  intros Hh Hm Hok Hp. apply safe_modify. intros w Hw.
  apply (body_ext S (fr_put m F)); [|by apply body_put_slot].
  split; try done. intros j HS. cbn. rewrite Hm, Hp by done. apply upd_same.
Qed.

Lemma safe_put_group S F D gid g :
  HookGroup gid ∈ D → fits F gid g → safe (B S F D) (modify (put_group gid g) : T unit).
Proof. intros. apply safe_modify. intros w. by apply body_put_group. Qed.

Lemma safe_put_sentinel S F D s :
  HookSentinel ∈ D → safe (B S F D) (modify (put_sentinel s) : T unit).
Proof. intros. apply safe_modify. intros w. by apply body_put_sentinel. Qed.

(** * Writes *)

(** A write whose effect keeps the invariant. *)
Lemma safe_store_write S F D what f :
  (∀ w, B S F D w → B S F D (set_db (f (w_db w)) w)) → safe (B S F D) (store_write what f).
Proof.
  intros Hf. apply safe_tick_bind. intros t.
  destruct (env_write t) as [|[]]; [by apply safe_modify| |apply safe_fail].
  apply safe_bind; [by apply safe_modify|]. auto with safe.
Qed.

(** A write that leaves the phase alone. *)
Lemma safe_store_slot S F D m :
  HookSlots (sm_Id m) ∈ D → slot_ok (fr_alive F) m →
  (S = true → phase_of m = fr_phase F (sm_Id m)) →
  safe (B S F D) (storeUpdateSlotMapping m).
Proof.
  intros Hh Hok Hp. apply safe_store_write. intros w Hw.
  apply (body_ext S (fr_store m F)).
  - split; try done. intros j HS. cbn. rewrite Hp by done. apply upd_same.
  - apply body_store_slot; try done. by eapply tables_ok_same_phase.
Qed.

Lemma safe_store_group S F D g :
  HookGroup (g_Id g) ∈ D → fits F (g_Id g) g → safe (B S F D) (storeUpdateGroup g).
Proof. intros. apply safe_store_write. intros w. by apply body_store_group. Qed.

Lemma safe_create_group S F D g :
  HookGroup (g_Id g) ∈ D → fits F (g_Id g) g → safe (B S F D) (storeCreateGroup g).
Proof. intros. apply safe_store_write. intros w. by apply body_store_group. Qed.

Lemma safe_store_sentinel S F D s :
  HookSentinel ∈ D → safe (B S F D) (storeUpdateSentinel s).
Proof. intros. apply safe_store_write. intros w. by apply body_store_sentinel. Qed.

(** * Pushing slots to the proxies *)

Lemma tables_ok_put d t s w :
  tables_ok d (w_tables w) → is_Some (db_proxy d !! t) → 0 ≤ slot_Id s < MaxSlotNum →
  admits (phase_of (slot_at d (slot_Id s))) s →
  tables_ok d (<[t := <[slot_Id s := s]> (token_table w t)]> (w_tables w)).
Proof.
  intros Ht Hp Hr Ha t' tb. rewrite lookup_insert. case_decide; [|apply Ht]. subst t'.
  intros [= <-]. split; [done|]. intros i e. rewrite lookup_insert.
  case_decide; [by intros [= <-]; subst i|]. unfold token_table.
  destruct (w_tables w !! t) as [tb|] eqn:Htb; [by apply (Ht t tb)|].
  change (@empty table _ !! i = Some e → 0 ≤ i < MaxSlotNum ∧ admits (phase_of (slot_at d i)) e).
  by rewrite lookup_empty.
Qed.

Lemma safe_fill_slot S F D p s :
  fr_proxies F (p_Token p) →
  (S = true → 0 ≤ slot_Id s < MaxSlotNum ∧ admits (fr_phase F (slot_Id s)) s) →
  safe (B S F D) (fill_slot p s).
Proof.
  intros Hp Hs. apply safe_modify. intros w Hw. pose proof Hw as [B1 B2 B2' B3 B4 B5 B6].
  assert (S = true → tables_ok (w_db w)
    (<[p_Token p := <[slot_Id s := s]> (token_table w (p_Token p))]> (w_tables w))) as Ht.
  { intros HS. destruct (Hs HS) as [Hr Ha].
    apply tables_ok_put; [by apply B5|by apply B4|done|]. by rewrite (body_phase S F D w). }
  split; try done. by apply log_cons.
Qed.

Lemma safe_FillSlots S F D p l :
  fr_proxies F (p_Token p) →
  (S = true → ∀ s, s ∈ l →
     0 ≤ slot_Id s < MaxSlotNum ∧ admits (fr_phase F (slot_Id s)) s) →
  safe (B S F D) (FillSlots p l).
Proof.
  intros Hp Hl. apply safe_tick_bind. intros t.
  destruct (env_fill t) as [|n]; (apply safe_bind; [apply safe_for_each|auto with safe]);
    intros s Hs; (apply safe_fill_slot; [done|]); intros HS; apply Hl; try done.
  apply elem_of_take in Hs as (i & Hi & _). by apply list_elem_of_lookup_2 in Hi.
Qed.

(** The entries computed from pushable mappings. *)
Lemma pushable_slots S F ctx ms p l :
  toSlotSlice ctx ms (Some p) = Ok l → (∀ m, m ∈ ms → pushable S F m) →
  S = true → ∀ s, s ∈ l → 0 ≤ slot_Id s < MaxSlotNum ∧ admits (fr_phase F (slot_Id s)) s.
Proof.
  intros Hl Hms HS s [i Hi]%list_elem_of_lookup. apply toSlotSlice_Ok in Hl.
  destruct (Forall2_lookup_r _ _ _ _ _ Hl Hi) as (m & Hm & Hts).
  destruct (Hms m) as (Hok & Hr & Hp); [by eapply list_elem_of_lookup_2|].
  pose proof (toSlot_Ok _ _ _ _ Hts) as (-> & _ & _). split; [done|]. by eapply Hp.
Qed.

Lemma safe_fill_all S F D ctx ms ps :
  ctx_view S F ctx → (∀ m, m ∈ ms → pushable S F m) →
  (∀ p, p ∈ ps → fr_proxies F (p_Token p)) → safe (B S F D) (fill_all ctx ms ps).
Proof.
  intros Hv Hms. induction ps as [|p ps IH]; intros Hps; cbn; [apply safe_ret|].
  destruct (toSlotSlice_total S F ctx (fr_alive F) ms (Some p) Hv) as [l Hl].
  { intros m Hm. by apply Hms. }
  apply safe_lift_bind; [by rewrite Hl|]. intros l' Hl'.
  apply safe_bind.
  - apply safe_FillSlots; [apply Hps; by constructor|]. by eapply pushable_slots.
  - intros ok. apply safe_bind; [|auto with safe].
    apply IH. intros. apply Hps. by constructor.
Qed.

Lemma safe_range_proxies_bind S F D ctx {A} (k : list Proxy → T A) :
  ctx_view S F ctx →
  (∀ ps, (∀ p, p ∈ ps → fr_proxies F (p_Token p)) → safe (B S F D) (k ps)) →
  safe (B S F D) (range_proxies ctx ≫= k).
Proof.
  intros (Hw & _ & _ & Hp) Hk w Hb. apply wp_bind. unfold range_proxies.
  apply wp_bind, wp_next_tick. cbn. apply wp_ret. apply Hk.
  - intros p (t & Ht & Hl)%list_elem_of_omap. rewrite (cw_proxy _ Hw t p Hl).
    apply Hp. by eexists.
  - by apply (body_other _ _ _ w).
Qed.

Lemma safe_resync S F D ms :
  (∀ m, m ∈ ms → pushable S F m) → safe (B S F D) (resyncSlotMappings ms).
Proof.
  intros Hms. unfold resyncSlotMappings. destruct ms as [|m ms]; [apply safe_ret|].
  apply safe_cur_ctx. intros ctx Hv. apply safe_range_proxies_bind; [done|]. intros ps Hps.
  apply safe_bind; [by apply safe_fill_all|]. intros [|t ts]; auto with safe.
Qed.

Lemma pushable_by_group S F ctx gid m :
  ctx_view S F ctx → synced F → m ∈ getSlotMappingsByGroupId ctx gid → pushable S F m.
Proof. intros Hv HF [_ Hm]%list_elem_of_filter. by eapply ctx_view_elem. Qed.

Lemma safe_resync_group S F D gid :
  synced F → safe (B S F D) (resyncSlotMappingsByGroupId gid).
Proof.
  intros HF. apply safe_cur_ctx. intros ctx Hv. apply safe_resync. intros m. by eapply pushable_by_group.
Qed.

(** * Starting and finishing an operation *)

Definition phases (d : db) (i : Z) : phase := phase_of (slot_at d i).
Definition registered (d : db) (t : string) : Prop := is_Some (db_proxy d !! t).

(** The frame of an operation that may change the addresses of [free] only. *)
Definition frame_of (d : db) (L : Z → Prop) (free : option Z) : frame :=
  mkFrame L (phases d) (phases d) (db_group d) free (registered d) true.

Definition frame_fine (d : db) (L : Z → Prop) : Prop :=
  (∀ i m, all_slots d !! i = Some m → slot_ok L m) ∧ (∀ k, L k → alive (db_group d) k).

Lemma frame_alive d : cluster_ok d → frame_fine d (alive (db_group d)).
Proof. intros [Hs _ _]. by split. Qed.

Lemma frame_slots S d L : frame_fine d L → slots_ok S L (phases d) (all_slots d).
Proof.
  intros [F1 F2] i m Hi. split; [by eapply F1|]. intros _.
  by apply all_slots_lookup in Hi as [_ ->].
Qed.

Lemma frame_groups d L free :
  cluster_ok d → frame_fine d L → groups_ok (frame_of d L free) (db_group d).
Proof. intros [C1 C2 C3] [F1 F2]. by split_and!. Qed.

Lemma ctx_db_view S d L free hosts :
  db_wf d → cluster_ok d → frame_fine d L → ctx_view S (frame_of d L free) (ctx_db d hosts).
Proof.
  intros. split; [by apply ctx_db_wf|].
  split; [by apply frame_slots|]. split; [by apply frame_groups|done].
Qed.

Lemma frame_synced d L free : synced (frame_of d L free).
Proof. done. Qed.

Context `{!EnvLaws}.

Lemma body_start S w w' L free :
  Inv S w → coh [] w' → same_outside w w' → full_cache (w_cache w') (w_db w') →
  frame_fine (w_db w) L → body S (frame_of (w_db w) L free) [] w'.
Proof.
  intros [[I1 _] I2 I3 I4] Hc (Hdb & _ & _ & _ & _ & _ & _ & Htab & Hlog) Hf HL.
  split; rewrite ?Hdb, ?Htab, ?Hlog; try done.
  - by apply frame_slots.
  - by apply frame_groups.
  - exists (ctx_db (w_db w) (w_hosts w')). split.
    + rewrite <-Hdb. by apply full_cache_ctx.
    + split; [|done]. by apply ctx_db_view.
Qed.

Lemma Inv_same_outside S w w' : Inv S w → coh [] w' → same_outside w w' → Inv S w'.
Proof.
  intros [I1 I2 I3 I4] Hc (Hdb & _ & _ & _ & _ & _ & _ & Htab & Hlog).
  split; rewrite ?Hdb, ?Htab, ?Hlog; done.
Qed.

(** An operation keeps the invariant when, for some frame, the code after [newContext]
    leaves a settled world. *)
Lemma op_start_wp S {A} (k : context → T A) :
  (∀ d hosts, db_wf d → cluster_ok d →
     ∃ L free, frame_fine d L ∧ ∀ w, w_db w = d → B S (frame_of d L free) [] w →
       wp (k (ctx_db d hosts)) (λ r w', r ≠ Panic ∧ Inv S w') w) →
  safe (Inv S) (newContext ≫= k).
Proof.
  intros Hk w HI. pose proof HI as [I1 I2 I3 I4]. apply wp_bind. apply newContext_wp; [done|..].
  - intros w' Hc Hs Hf _ _. destruct (Hk (w_db w) (w_hosts w')) as (L & X & HL & Hsafe);
      [by destruct I1|done|].
    apply Hsafe; [apply Hs|]. by eapply body_start.
  - intros e w' Hc Hs. split; [done|]. by eapply Inv_same_outside.
Qed.

Lemma op_start S {A} (k : context → T A) :
  (∀ d hosts, db_wf d → cluster_ok d →
     ∃ L free, frame_fine d L ∧ safe (B S (frame_of d L free) []) (k (ctx_db d hosts))) →
  safe (Inv S) (newContext ≫= k).
Proof.
  intros Hk. apply op_start_wp. intros d hosts Hwf Hd.
  destruct (Hk d hosts Hwf Hd) as (L & X & HL & Hs). exists L, X. split; [done|].
  intros w _ Hw. eapply wp_mono; [by apply Hs|]. intros r w' [? ?]. split; [done|].
  by eapply body_settled.
Qed.

(** The usual frame: every group that has a server keeps one. *)
Lemma op_start_alive S free {A} (k : context → T A) :
  (∀ d hosts, db_wf d → cluster_ok d →
     ctx_view S (frame_of d (alive (db_group d)) free) (ctx_db d hosts) →
     safe (B S (frame_of d (alive (db_group d)) free) []) (k (ctx_db d hosts))) →
  safe (Inv S) (newContext ≫= k).
Proof.
  intros Hk. apply op_start. intros d hosts Hwf Hd. exists (alive (db_group d)), free.
  pose proof (frame_alive d Hd). split; [done|]. apply Hk; [done..|]. by apply ctx_db_view.
Qed.

Lemma safe_newContext S {A} (k : context → T A) :
  (∀ ctx, safe (Inv S) (k ctx)) → safe (Inv S) (newContext ≫= k).
Proof.
  intros Hk w HI. pose proof HI as [I1 I2 I3 I4]. apply wp_bind. apply newContext_wp; [done|..].
  - intros w' Hc Hs _ _ _. apply Hk. by eapply Inv_same_outside.
  - intros e w' Hc Hs. split; [done|]. by eapply Inv_same_outside.
Qed.
End rules.
