(* ===== verification/TopomSlotOps.v ===== *)
(** The slot operations keep the invariant.

    Creating and removing actions leaves every phase alone; preparing and completing
    an action moves one slot to the next phase, which is allowed because the proxies
    were all told before the store is. *)

From S2P Require Import Prelude Models TopomContext TopomState TopomCache TopomFrame.
From S2P Require Import TopomProxy TopomSlots TopomInv TopomRules.
(** * Automation *)

Ltac hook_in := by repeat constructor.

(** One structural step on [safe _ m]; leaves the side conditions to the caller. *)
Ltac safe_step :=
  lazymatch goal with
  | |- safe _ (mret _) => apply safe_ret
  | |- safe _ (fail _) => apply safe_fail
  | |- safe _ (gets _ ≫= _) => apply safe_gets_bind; intros ?
  | |- safe _ (lift _ ≫= _) => apply safe_lift_bind; [try done|intros ? ?]
  | |- safe _ (cur_ctx ≫= _) => apply safe_cur_ctx; intros ? ?
  | |- safe _ (next_tick ≫= _) => apply safe_tick_bind; intros ?
  | |- safe _ (call _) => apply safe_call
  | |- safe _ (resyncSlotMappingsByGroupId _) => apply safe_resync_group
  | |- safe _ (ignore_err _) => apply safe_ignore_err
  | |- safe _ (on_err _ _) => apply safe_on_err; [|intros ?]
  | |- safe (body _ _ _) (defer _ _) => apply safe_defer_hook; [try done|]
  | |- safe _ (_ ≫= _) => apply safe_bind; [|intros ?]
  end.

Lemma getSlotMapping_db `{Config} `{UnicodeUpper} d hosts sid m :
  db_wf d → getSlotMapping (ctx_db d hosts) sid = Ok m →
  0 ≤ sid < MaxSlotNum ∧ m = slot_at d sid ∧ sm_Id m = sid.
Proof.
  intros Hd (_ & Hr & Hl)%getSlotMapping_Ok. cbn in Hl.
  apply all_slots_lookup in Hl as [_ ->]. rewrite Z2Nat.id by lia.
  split_and!; [lia|lia|done|by apply slot_at_Id].
Qed.

Lemma getGroup_Ok ctx gid g : getGroup ctx gid = Ok g ↔ ctx_group ctx !! gid = Some g.
Proof. unfold getGroup. destruct (ctx_group ctx !! gid); split; congruence. Qed.

Lemma getGroup_no_panic ctx gid : getGroup ctx gid ≠ Panic.
Proof. unfold getGroup. by destruct (_ !! _). Qed.

#[export] Hint Resolve getSlotMapping_no_panic getGroup_no_panic : safe.

(** A mapping under the operation's hands: where it sits and its stored phase. *)
Record holds (S : bool) (F : frame) (m : SlotMapping) : Prop := {
  h_ok : slot_ok (fr_alive F) m;
  h_range : 0 ≤ sm_Id m < MaxSlotNum;
  h_phase : S = true → phase_of m = fr_phase F (sm_Id m)
}.

Lemma holds_pushable S F m : holds S F m → pushable S F m.
Proof. intros []. by apply pushable_phase. Qed.

Lemma ctx_view_getSlotMapping S F ctx sid m :
  ctx_view S F ctx → synced F → getSlotMapping ctx sid = Ok m →
  sm_Id m = sid ∧ holds S F m.
Proof.
  intros Hv HF (Hl & Hr & Hm)%getSlotMapping_Ok.
  destruct (ctx_view_slot _ _ _ _ _ Hv Hm) as (Hok & Hid & Hr' & Hp).
  rewrite Z2Nat.id in Hid by lia. split; [done|]. split; [done..|].
  intros HS. by rewrite Hp, HF.
Qed.

Lemma put_slot_put_slot i m m' w : put_slot i m (put_slot i m' w) = put_slot i m w.
Proof.
  unfold put_slot. destruct (c_slots (w_cache w)) as [l|] eqn:Hl; cbn.
  - by rewrite list_insert_insert_eq.
  - by rewrite Hl.
Qed.

Section ops.
Context `{Env} `{Config} `{UnicodeUpper}.
Abbreviation B S F D := (body S F D).

(** * Creating actions *)

Definition pending_action (gid idx : Z) (m : SlotMapping) : SlotMapping :=
  sm_set_TargetId gid (sm_set_Index idx (sm_set_State ActionPending m)).

(** The index the new action gets: one above the largest in use, the mapping itself
    counted as pending with the index it still carries. *)
Definition next_index (ctx : context) (sid : Z) (m : SlotMapping) : Z :=
  i64 (maxSlotActionIndex (ctx_set_slots
    (<[Z.to_nat sid := sm_set_State ActionPending m]> (ctx_slots ctx)) ctx) + 1).

(** [start_action] is one assignment and one write. *)
Lemma start_action_wp sid m gid w ctx (Q : outcome terror unit → world → Prop) :
  ctx_of w = Some ctx →
  (let m1 := pending_action gid (next_index ctx sid m) m in
   wp (put_slot_at sid m1 ;; storeUpdateSlotMapping m1) Q w) →
  wp (start_action sid m gid) Q w.
Proof.
  intros Hc HQ. unfold start_action, put_slot_at. apply wp_bind, wp_modify.
  eapply wp_cur_ctx; [by apply ctx_of_put_slot|].
  apply wp_bind, wp_modify. rewrite put_slot_put_slot. apply HQ.
Qed.

Lemma start_action_safe S F D m gid :
  HookSlots (sm_Id m) ∈ D → synced F → holds S F m → fr_alive F gid →
  (S = true → phase_of m = Serving (sm_GroupId m)) →
  safe (B S F D) (start_action (sm_Id m) m gid).
Proof.
  intros Hh HF [Hok Hr Hp] Hg Hst w Hw.
  destruct (body_ctx_view _ _ _ _ Hw) as (ctx & Hc & _). eapply start_action_wp; [done|]. cbn.
  generalize (next_index ctx (sm_Id m) m). intros idx. clear ctx Hc. revert w Hw.
  assert (slot_ok (fr_alive F) (pending_action gid idx m)) by (split; [apply Hok|done]).
  assert (S = true → phase_of (pending_action gid idx m) = fr_phase F (sm_Id m)).
  { intros HS. by rewrite <-Hp, Hst. }
  apply safe_bind; [|intros _].
  - apply safe_put_slot; rewrite ?HF, ?Z2Nat.id by lia; done.
  - by apply safe_store_slot.
Qed.

(** The slots a bulk operation moves: none has left the phase of plain serving. *)
Lemma start_actions_safe S F D target pending (k : T unit) :
  synced F →
  (∀ sid, sid ∈ pending → fr_alive F (target sid) ∧
     (S = true → ∃ s, fr_phase F sid = Serving s)) →
  (∀ D', safe (B S F D') k) → safe (B S F D) (start_actions target pending k).
Proof.
  intros HF. revert D. induction pending as [|sid pending IH]; intros D Hp Hk; [apply Hk|].
  cbn. apply safe_cur_ctx. intros ctx Hv. apply safe_lift_bind; [auto with safe|].
  intros m Hm. destruct (ctx_view_getSlotMapping _ _ _ _ _ Hv HF Hm) as [<- Hh].
  destruct (Hp (sm_Id m)) as [Hal Hs]; [by constructor|].
  apply safe_defer_hook; [apply Hh|]. apply safe_bind; [|intros _].
  - apply start_action_safe; try done; [by constructor|]. intros HS.
    destruct (Hs HS) as [s Hs']. pose proof (h_phase _ _ _ Hh HS) as Hph.
    rewrite Hs' in Hph. revert Hph. unfold phase_of. by destruct (sm_State m).
  - apply IH; [|done]. intros. apply Hp. by constructor.
Qed.

(** What the first loops of the bulk operations collect. *)
Lemma some_pending_elem from gid n slots pending sid :
  sid ∈ some_pending from gid n slots pending →
  sid ∈ pending ∨ ∃ m, m ∈ slots ∧ sm_Id m = sid ∧ sm_State m = ActionNothing ∧
                       sm_GroupId m = from ∧ from ≠ gid.
Proof.
  revert pending. induction slots as [|m slots IH]; intros pending; cbn; [auto|].
  assert (∀ m' : SlotMapping, m' ∈ slots → m' ∈ m :: slots) by (intros; by constructor).
  repeat case_decide; auto; intros [Hin|(m' & ? & ?)]%IH; eauto 10.
  apply elem_of_app in Hin as [?| ->%list_elem_of_singleton]; [auto|].
  right. exists m. split_and!; [by constructor|done..|congruence].
Qed.

Lemma range_pending_elem ctx gid must sid0 n pending l sid :
  ctx_wf ctx → range_pending ctx gid must sid0 n pending = Ok l → sid ∈ l →
  sid ∈ pending ∨ ∃ m, m ∈ ctx_slots ctx ∧ sm_Id m = sid ∧ sm_State m = ActionNothing ∧
                       sm_GroupId m ≠ gid ∧ sid0 ≤ sid < sid0 + Z.of_nat n.
Proof.
  intros Hw. revert sid0 pending. induction n as [|n IH]; intros sid0 pending; cbn.
  { intros [= <-]. auto. }
  destruct (getSlotMapping ctx sid0) as [m|e|] eqn:Hm; cbn; [|done..].
  assert (∀ s, sid0 + 1 ≤ s < sid0 + 1 + Z.of_nat n → sid0 ≤ s < sid0 + Z.of_nat (S n)) by lia.
  repeat case_decide; destruct must; try done; intros Hl Hin;
    destruct (IH _ _ Hl Hin) as [Hin'|(m' & ? & ? & ? & ? & ?)]; eauto 10.
  all: apply elem_of_app in Hin' as [?| ->%list_elem_of_singleton]; [auto|].
  all: apply getSlotMapping_Ok in Hm as (_ & ? & Hm); right; exists m.
  all: pose proof (cw_slots _ Hw _ _ Hm); apply list_elem_of_lookup_2 in Hm.
  all: split_and!; done || lia.
Qed.

Lemma nothing_serving S F ctx m :
  ctx_view S F ctx → synced F → m ∈ ctx_slots ctx → sm_State m = ActionNothing →
  S = true → ∃ s, fr_phase F (sm_Id m) = Serving s.
Proof.
  intros Hv HF [i Hi]%list_elem_of_lookup Hst HS.
  destruct (ctx_view_slot _ _ _ _ _ Hv Hi) as (_ & _ & _ & Hp).
  rewrite <-HF, <-Hp by done. unfold phase_of. rewrite Hst. eauto.
Qed.

Lemma range_pending_no_panic ctx gid must sid0 n pending :
  range_pending ctx gid must sid0 n pending ≠ Panic.
Proof.
  revert sid0 pending. induction n as [|n IH]; intros sid0 pending; cbn; [done|].
  pose proof (getSlotMapping_no_panic ctx sid0). destruct (getSlotMapping ctx sid0); cbn; [|done..].
  repeat case_decide; destruct must; done.
Qed.

Context `{!EnvLaws}.

(** The group an action targets has a server. *)
Lemma getGroup_alive d hosts gid g :
  db_wf d → getGroup (ctx_db d hosts) gid = Ok g → g_Servers g ≠ [] →
  g_Id g = gid ∧ alive (db_group d) gid.
Proof.
  intros Hd Hg%getGroup_Ok Hne. cbn in Hg. split; [by eapply db_wf_group|]. by exists g.
Qed.

Lemma SlotCreateAction_safe S sid gid : safe (Inv S) (SlotCreateAction sid gid).
Proof.
  apply (op_start_alive S None). intros d hosts Hwf Hd Hv.
  apply safe_lift_bind; [auto with safe|]. intros g Hg.
  destruct (g_Servers g) eqn:Hs; [apply safe_fail|].
  apply getGroup_alive in Hg as [Hid Hal]; [|done|by rewrite Hs].
  apply safe_lift_bind; [auto with safe|]. intros m Hm.
  destruct (ctx_view_getSlotMapping _ _ _ _ _ Hv (frame_synced _ _ _) Hm) as [<- Hh].
  case_decide as Hst; [apply safe_fail|]. case_decide; [apply safe_fail|].
  apply safe_defer_hook; [apply Hh|].
  apply start_action_safe; try done; [by constructor|by cbn; rewrite Hid|].
  intros _. unfold phase_of. by rewrite Hst.
Qed.

Lemma SlotCreateActionSome_safe S from to n : safe (Inv S) (SlotCreateActionSome from to n).
Proof.
  apply (op_start_alive S None). intros d hosts Hwf Hd Hv.
  apply safe_lift_bind; [auto with safe|]. intros g Hg.
  destruct (g_Servers g) eqn:Hs; [apply safe_fail|].
  apply getGroup_alive in Hg as [Hid Hal]; [|done|by rewrite Hs].
  apply start_actions_safe; [done| |intros; apply safe_ret].
  intros sid [Hin|(m & Hm & <- & Hst & _)]%some_pending_elem; [by apply elem_of_nil in Hin|].
  split; [by cbn; rewrite Hid|]. by eapply nothing_serving.
Qed.

Lemma SlotCreateActionRange_safe S beg end_ gid must :
  safe (Inv S) (SlotCreateActionRange beg end_ gid must).
Proof.
  apply (op_start_alive S None). intros d hosts Hwf Hd Hv.
  case_decide; [apply safe_fail|].
  apply safe_lift_bind; [auto with safe|]. intros g Hg.
  destruct (g_Servers g) eqn:Hs; [apply safe_fail|].
  apply getGroup_alive in Hg as [Hid Hal]; [|done|by rewrite Hs].
  apply safe_lift_bind; [apply range_pending_no_panic|]. intros pending Hl.
  apply start_actions_safe; [done| |intros; apply safe_ret]. intros sid Hin.
  destruct (range_pending_elem _ _ _ _ _ _ _ _ (ctx_db_wf d hosts Hwf) Hl Hin)
    as [Hin'|(m & Hm & <- & Hst & _)]; [by apply elem_of_nil in Hin'|].
  split; [by cbn; rewrite Hid|]. by eapply nothing_serving.
Qed.

Lemma SlotRemoveAction_safe S sid : safe (Inv S) (SlotRemoveAction sid).
Proof.
  apply (op_start_alive S None). intros d hosts Hwf Hd Hv.
  apply safe_lift_bind; [auto with safe|]. intros m Hm.
  destruct (ctx_view_getSlotMapping _ _ _ _ _ Hv (frame_synced _ _ _) Hm) as [<- [Hok Hr Hp]].
  case_decide; [apply safe_fail|]. case_decide as Hst; [apply safe_fail|].
  apply safe_defer_hook; [done|].
  apply safe_store_slot; [by constructor|split; [apply Hok|done]|].
  intros HS. etransitivity; [|by apply Hp]. unfold phase_of. by rewrite Hst.
Qed.

(** * Moving a slot to its next phase *)

(** Every entry the proxies hold for the slot was computed from [m]. *)
Definition told (m : SlotMapping) (t : string) (w : world) : Prop :=
  ∀ tb e, w_tables w !! t = Some tb → tb !! sm_Id m = Some e →
    ∃ ctx p, toSlot ctx m p = Ok e.

Lemma fill_slot_told ctx m p s w :
  toSlot ctx m (Some p) = Ok s →
  wp (fill_slot p s) (λ _ w', (∀ t, told m t w → told m t w') ∧ told m (p_Token p) w') w.
Proof.
  intros Hs. pose proof (toSlot_Ok _ _ _ _ Hs) as (Hid & _ & _). apply wp_modify.
  assert (told m (p_Token p) (set_tables (<[p_Token p := <[slot_Id s := s]>
    (token_table w (p_Token p))]> (w_tables w)) w)) as Hnew.
  { intros tb e. cbn. rewrite lookup_insert_eq. intros [= <-].
    rewrite <-Hid, lookup_insert_eq. intros [= <-]. eauto. }
  split; [|done]. intros t Ht. destruct (decide (t = p_Token p)) as [->|Hne]; [done|].
  intros tb e. cbn. rewrite lookup_insert_ne by done. apply Ht.
Qed.

Lemma FillSlots_told ctx m p l w :
  toSlotSlice ctx [m] (Some p) = Ok l →
  wp (FillSlots p l) (λ r w', w_db w' = w_db w ∧ (∀ t, told m t w → told m t w') ∧
    (r = Ok true → told m (p_Token p) w')) w.
Proof.
  intros Hl. apply toSlotSlice_Ok in Hl.
  apply Forall2_cons_inv_l in Hl as (s & l0 & Hs & ->%Forall2_nil_inv_l & ->).
  unfold FillSlots. apply wp_bind, wp_next_tick. cbn.
  pose proof (fill_slot_told ctx m p s (set_tick (S (w_tick w)) w) Hs) as Hfill.
  assert (wp (fill_slot p s ;; mret tt) (λ r w', r = Ok tt ∧ w_db w' = w_db w ∧
    (∀ t, told m t w → told m t w') ∧ told m (p_Token p) w') (set_tick (S (w_tick w)) w)) as Hone.
  { wp_step. apply wp_modify. apply wp_ret. split; [done|]. split; [done|]. apply Hfill. }
  destruct (env_fill _) as [|[|n]]; wp_step.
  - eapply wp_mono; [exact Hone|]. intros r w' (-> & ? & ? & ?). by wp_step.
  - apply wp_ret. by wp_step.
  - cbn. rewrite firstn_nil. eapply wp_mono; [exact Hone|]. intros r w' (-> & ? & ? & ?). by wp_step.
Qed.

Lemma fill_all_told ctx m ps w :
  wp (fill_all ctx [m] ps) (λ r w', w_db w' = w_db w ∧ (∀ t, told m t w → told m t w') ∧
    (r = Ok [] → ∀ p, p ∈ ps → told m (p_Token p) w')) w.
Proof.
  revert w. induction ps as [|p ps IH]; intros w; cbn.
  - wp_step. split_and!; try done. intros _ p Hp. by apply elem_of_nil in Hp.
  - apply wp_lift_bind; [|by intros; split_and!..]. intros l Hl.
    wp_step. eapply wp_mono; [by apply (FillSlots_told _ _ _ _ _ Hl)|].
    intros r w1 (E1 & Ht & Hp). destruct r as [ok|e|]; [|by split_and!..].
    wp_step. eapply wp_mono; [apply IH|]. intros r w2 (E1' & Ht' & Hp').
    destruct r as [failed|e|]; [wp_step|..];
      (split_and!; [congruence|by auto|]); [|done..].
    destruct ok; [|done]. intros [= ->] q [->|Hq]%elem_of_cons; [|by apply Hp'].
    by apply Ht', Hp.
Qed.

(** When the push of one mapping succeeds, every registered proxy was told. *)
Lemma resync_told S F D m w :
  fr_full F = true → pushable S F m → B S F D w →
  wp (resyncSlotMappings [m]) (λ r w', (r ≠ Panic ∧ B S F D w') ∧ w_db w' = w_db w ∧
    (S = true → r = Ok tt → ∀ t, told m t w')) w.
Proof.
  intros Hfull Hm Hw. apply wp_and.
  { apply safe_resync; [|done]. by intros ? ->%list_elem_of_singleton. }
  pose proof Hw as [B1 _ _ (ctx & Hc & Hv & Hall) _ Htab _]. cbn.
  apply (wp_cur_ctx ctx); [done|]. unfold range_proxies.
  wp_step. wp_step. apply wp_next_tick. cbn. wp_step. wp_step.
  eapply wp_mono; [apply fill_all_told|]. intros r w' (E1 & Ht & Hp).
  destruct r as [failed|e|]; [|done..].
  destruct failed as [|t0 ts]; wp_step; [|done]. split; [done|]. intros HS _ t.
  destruct (w_tables w !! t) as [tb|] eqn:Htb.
  - destruct (Htab HS t tb Htb) as [[p0 Hreg] _].
    destruct (Hall Hfull t) as [p Hpr]; [by eexists|].
    assert (p_Token p = t) as <- by (by apply (cw_proxy ctx (ctx_of_wf D w ctx B1 Hc))).
    apply Hp; [done|]. apply list_elem_of_omap. exists (p_Token p). split; [|done].
    rewrite env_range_tokens_perm. apply list_elem_of_fmap. exists (p_Token p, p).
    split; [done|]. by apply elem_of_map_to_list.
  - apply Ht. intros tb e. cbn. by rewrite Htb.
Qed.

(** Writing a mapping once the proxies were told. *)
Lemma store_slot_wp S F D m w (Q : outcome terror unit → world → Prop) :
  HookSlots (sm_Id m) ∈ D → slot_ok (fr_alive F) m → B S F D w →
  (S = true → tables_ok (db_set_slot m (w_db w)) (w_tables w)) →
  (∀ w', B S (fr_store m F) D w' → Q (Ok tt) w') →
  (∀ e w', settled S D w' → Q (Err e) w') →
  wp (storeUpdateSlotMapping m) Q w.
Proof.
  intros Hh Hok Hw Ht HOk HErr. unfold storeUpdateSlotMapping, store_write.
  wp_step. apply wp_next_tick.
  assert (B S (fr_store m F) D (set_db (db_set_slot m (w_db w)) w)) as Hw1
    by (by apply body_store_slot).
  destruct (env_write _) as [|[]]; wp_steps.
  - apply HOk. by apply (body_other _ _ _ (set_db (db_set_slot m (w_db w)) w)).
  - apply HErr. eapply body_settled. by apply (body_other _ _ _ (set_db (db_set_slot m (w_db w)) w)).
  - apply HErr. eapply body_settled. by apply (body_other _ _ _ w).
Qed.

(** The entries of one slot change their phase. *)
Lemma tables_ok_move d m tabs :
  tables_ok d tabs →
  (∀ t tb e, tabs !! t = Some tb → tb !! sm_Id m = Some e →
     admits (phase_of (slot_at d (sm_Id m))) e → admits (phase_of m) e) →
  tables_ok (db_set_slot m d) tabs.
Proof.
  intros Ht Hm t tb Htb. destruct (Ht t tb Htb) as [Hr He]. split; [done|].
  intros i e Hi. destruct (He i e Hi) as [? Ha]. split; [done|].
  rewrite slot_at_set_slot. case_decide; [subst i|done]. by eapply Hm.
Qed.

Lemma wp_defer_settled S D h {A} (m : T A) w :
  wp m (λ r w', r ≠ Panic ∧ settled S (h :: D) w') w →
  wp (defer (push_hook h) m) (λ r w', r ≠ Panic ∧ settled S D w') w.
Proof.
  intros Hm. wp_step. eapply wp_mono; [exact Hm|]. intros r w' [? ?].
  split; [done|]. by apply settled_push.
Qed.

Lemma safe_settled S F D {A} (m : T A) w :
  safe (B S F D) m → B S F D w → wp m (λ r w', r ≠ Panic ∧ settled S D w') w.
Proof.
  intros Hs Hw. eapply wp_mono; [by apply Hs|]. intros r w' [? ?]. split; [done|].
  by eapply body_settled.
Qed.

Lemma body_put_slot_at S F D m w :
  HookSlots (sm_Id m) ∈ D → slot_ok (fr_alive F) m → B S F D w →
  B S (fr_put m F) D (put_slot (Z.to_nat (sm_Id m)) m w).
Proof.
  intros Hh Hok Hw. pose proof (body_hook_range _ _ _ _ _ Hw Hh).
  apply body_put_slot; rewrite ?Z2Nat.id by lia; done.
Qed.

Lemma synced_move F m : synced F → synced (fr_store m (fr_put m F)).
Proof. intros HF i. unfold fr_store, fr_put, upd. cbn. by case_decide. Qed.

Lemma upd_eq K i ph : upd K i ph i = ph.
Proof. unfold upd. by rewrite decide_True. Qed.

(** ** The cases of [SlotActionPrepare] *)

Lemma prepare_prepared_safe S F D m :
  synced F → holds S F m → sm_State m = ActionPrepared →
  safe (B S F D) (prepare_prepared (sm_Id m) m).
Proof.
  intros HF [Hok Hr Hp] Hst. apply safe_defer_hook; [done|]. cbn zeta.
  assert (slot_ok (fr_alive F) (sm_set_State ActionMigrating m)) as Hok'.
  { destruct Hok as [? Ht]. split; [done|]. by rewrite Hst in Ht. }
  assert (S = true → phase_of (sm_set_State ActionMigrating m) = fr_phase F (sm_Id m)) as Hp'.
  { intros HS. rewrite <-Hp by done. unfold phase_of. by rewrite Hst. }
  apply safe_bind; [|intros _].
  { apply safe_put_slot; rewrite ?Z2Nat.id, ?HF by lia; try done. by constructor. }
  apply safe_bind; [|intros _].
  { apply safe_resync. intros ? ->%list_elem_of_singleton. by apply pushable_phase. }
  apply safe_bind; [|intros _; apply safe_ret].
  apply safe_store_slot; try done. by constructor.
Qed.

Lemma prepare_preparing_settled S F D m w :
  synced F → fr_full F = true → holds S F m → sm_State m = ActionPreparing → B S F D w →
  wp (prepare_preparing (sm_Id m) m) (λ r w', r ≠ Panic ∧ settled S D w') w.
Proof.
  intros HF Hfull [Hok Hr Hp] Hst Hw. apply wp_defer_settled. cbn zeta.
  apply (body_weaken _ _ _ (HookSlots (sm_Id m))) in Hw; [|done].
  set (m1 := sm_set_State ActionPrepared m). set (D' := HookSlots (sm_Id m) :: D) in *.
  assert (HookSlots (sm_Id m) ∈ D') as Hh by constructor.
  assert (slot_ok (fr_alive F) m1) as Hok1.
  { destruct Hok as [? Ht]. split; [done|]. by rewrite Hst in Ht. }
  wp_step. apply wp_modify.
  pose proof (body_put_slot_at _ _ _ m1 _ Hh Hok1 Hw) as Hw1. clear Hw.
  assert (pushable S (fr_put m1 F) m1) as Hpush.
  { split_and!; [done|apply Hr..|]. intros HS ctx p s Hs. cbn. rewrite <-Hp by done.
    destruct (toSlot_prepared _ _ _ _ Hs eq_refl) as (? & ? & ?).
    unfold phase_of. rewrite Hst. right. done. }
  wp_step. wp_step. eapply wp_mono; [apply (resync_told S (fr_put m1 F) D'); [done..|exact Hw1]|].
  clear Hw1. intros r w1 ((Hnp & Hw1) & _ & Htold). destruct r as [[]|e|]; [| |done].
  - wp_step. apply (store_slot_wp S (fr_put m1 F) D'); [done..| | |].
    + intros HS. apply tables_ok_move; [by apply Hw1|].
      intros t tb x Htb Hx _. destruct (Htold HS eq_refl t tb x Htb Hx) as (ctx & p & Hts).
      by eapply toSlot_admits.
    + intros w2 Hw2. eapply safe_settled; [|exact Hw2].
      apply (prepare_prepared_safe S _ D' m1); [by apply synced_move| |done].
      split; [done..|]. intros _. cbn. by rewrite upd_eq.
    + done.
  - (* roll back *)
    set (m0 := sm_set_State ActionPreparing m1).
    assert (slot_ok (fr_alive F) m0) as Hok0 by (split; [apply Hok|apply Hok1]).
    wp_step. apply wp_modify.
    pose proof (body_put_slot_at S (fr_put m1 F) D' m0 w1 Hh Hok0 Hw1) as Hw2.
    assert (pushable S (fr_put m0 (fr_put m1 F)) m0) as Hpush0.
    { apply pushable_phase; [done..|]. intros HS.
      cbn. rewrite <-Hp by done. unfold phase_of. by rewrite Hst. }
    wp_step. eapply wp_mono; [apply (safe_ignore_err (B S (fr_put m0 (fr_put m1 F)) D'));
      [|exact Hw2]; apply safe_resync; by intros ? ->%list_elem_of_singleton|].
    pose proof body_settled. intros [[]|x|] w2 [? Hw3]; [|by eauto|done].
    wp_step. by eauto.
Qed.

Lemma prepare_pending_settled S F D m w :
  synced F → fr_full F = true → holds S F m → sm_State m = ActionPending → B S F D w →
  wp (prepare_pending (sm_Id m) m) (λ r w', r ≠ Panic ∧ settled S D w') w.
Proof.
  intros HF Hfull [Hok Hr Hp] Hst Hw. apply wp_defer_settled. cbn zeta.
  apply (body_weaken _ _ _ (HookSlots (sm_Id m))) in Hw; [|done].
  set (m1 := sm_set_State ActionPreparing m). set (D' := HookSlots (sm_Id m) :: D) in *.
  assert (HookSlots (sm_Id m) ∈ D') as Hh by constructor.
  assert (slot_ok (fr_alive F) m1) as Hok1.
  { destruct Hok as [? Ht]. split; [done|]. by rewrite Hst in Ht. }
  wp_step. apply wp_modify.
  pose proof (body_put_slot_at _ _ _ m1 _ Hh Hok1 Hw) as Hw1. clear Hw.
  wp_step. apply (store_slot_wp S (fr_put m1 F) D'); [done..| | |].
  - intros HS. apply tables_ok_move; [by apply Hw1|]. intros t tb x _ _.
    rewrite (body_phase _ _ _ _ _ Hw1) by done. cbn. rewrite <-Hp by done.
    unfold phase_of. rewrite Hst. cbn. auto.
  - intros w2 Hw2. apply (prepare_preparing_settled S (fr_store m1 (fr_put m1 F)) D' m1 w2);
      [by apply synced_move|done| |done|done].
    split; [done..|]. intros _. cbn. by rewrite upd_eq.
  - done.
Qed.

Lemma prepare_action_settled S F D m w :
  synced F → fr_full F = true → holds S F m → B S F D w →
  wp (prepare_action (sm_Id m) m) (λ r w', r ≠ Panic ∧ settled S D w') w.
Proof.
  intros HF Hfull Hh Hw. unfold prepare_action. pose proof (body_settled _ _ _ _ Hw).
  destruct (sm_State m) eqn:Hst; try by split.
  - by apply (prepare_pending_settled S F).
  - by apply (prepare_preparing_settled S F).
  - eapply safe_settled; [by apply prepare_prepared_safe|done].
Qed.

(** ** Picking the action to prepare *)

Lemma minActionIndex_lookup accept filt i slots picked k m :
  minActionIndex accept filt i slots picked = Some (k, m) →
  picked = Some (k, m) ∨
  (i ≤ k ∧ slots !! Z.to_nat (k - i) = Some m ∧ sm_State m ≠ ActionNothing ∧
   filt m = true ∧ accept m = true).
Proof.
  revert i picked. induction slots as [|x slots IH]; intros i picked; cbn; [auto|].
  assert (∀ k', i + 1 ≤ k' ∧ slots !! Z.to_nat (k' - (i + 1)) = Some m ∧
            sm_State m ≠ ActionNothing ∧ filt m = true ∧ accept m = true →
          i ≤ k' ∧ (x :: slots) !! Z.to_nat (k' - i) = Some m ∧
            sm_State m ≠ ActionNothing ∧ filt m = true ∧ accept m = true) as Hshift.
  { intros k' (? & Hl & ?). split; [lia|].
    by replace (Z.to_nat (k' - i)) with (S (Z.to_nat (k' - (i + 1)))) by lia. }
  case_decide as Hst; [intros [?|?]%IH; eauto|].
  destruct (filt x) eqn:Hf; [|intros [?|?]%IH; eauto].
  destruct (match picked with Some _ => _ | None => _ end); [intros [?|?]%IH; eauto|].
  destruct (accept x) eqn:Ha; [|intros [?|?]%IH; eauto].
  intros [[= <- <-]|?]%IH; [|eauto]. right. rewrite Z.sub_diag. split_and!; [lia|done..].
Qed.

Lemma pick_action_lookup accept disabled slots k m :
  pick_action accept disabled slots = Some (k, m) →
  0 ≤ k ∧ slots !! Z.to_nat k = Some m ∧ sm_State m ≠ ActionNothing ∧ accept m = true.
Proof.
  unfold pick_action. destruct (minActionIndex _ _ _ _ _) as [[k' m']|] eqn:Hp.
  - intros [= -> ->]. apply minActionIndex_lookup in Hp as [?|(? & Hl & ? & _ & ?)]; [done|].
    by rewrite Z.sub_0_r in Hl.
  - destruct disabled; [done|].
    intros [?|(? & Hl & ? & _ & ?)]%minActionIndex_lookup; [done|].
    by rewrite Z.sub_0_r in Hl.
Qed.

Lemma SlotActionPrepareFilter_safe S {St} (accept : St → SlotMapping → bool)
    (update : SlotMapping → St → bool * St) st :
  safe (Inv S) (SlotActionPrepareFilter accept update st).
Proof.
  apply op_start_wp. intros d hosts Hwf Hd. exists (alive (db_group d)), None.
  pose proof (frame_alive d Hd) as Hfine. split; [done|]. intros w _ Hw.
  pose proof (ctx_db_view S d _ None hosts Hwf Hd Hfine) as Hv.
  pose proof (body_settled _ _ _ _ Hw) as Hset.
  wp_step. wp_step. destruct (pick_action _ _ _) as [[i m]|] eqn:Hpick; [|by wp_step].
  destruct (update m st) as [[] st']; cbn; [|by wp_step].
  apply pick_action_lookup in Hpick as (Hi & Hm & _ & _).
  destruct (ctx_view_slot _ _ _ _ _ Hv Hm) as (Hok & Hid & Hr & Hp).
  rewrite Z2Nat.id in Hid by lia. subst i. wp_step. eapply wp_mono.
  - by apply (prepare_action_settled S (frame_of d (alive (db_group d)) None) [] m w).
  - intros [[sid ok]|e|] w' [? ?]; [by wp_step|done|done].
Qed.

Lemma SlotActionPrepare_safe S : safe (Inv S) SlotActionPrepare.
Proof.
  apply safe_bind; [apply SlotActionPrepareFilter_safe|].
  intros [[sid ok] st]. apply safe_ret.
Qed.

Lemma plan_actions_safe S n st : safe (Inv S) (plan_actions n st).
Proof.
  revert st. induction n as [|n IH]; intros st; cbn; [apply safe_ret|].
  case_decide; [|apply safe_ret].
  apply safe_bind; [apply SlotActionPrepareFilter_safe|]. intros [[sid ok] st'].
  destruct ok; [apply IH|apply safe_ret].
Qed.

(** ** Completing *)

Lemma complete_finished_settled S F D m w :
  fr_full F = true → holds S F m → sm_State m = ActionFinished → B S F D w →
  wp (complete_finished m) (λ r w', r ≠ Panic ∧ settled S D w') w.
Proof.
  intros Hfull Hh Hst Hw. pose proof Hh as [Hok Hr Hp]. apply wp_bind.
  eapply wp_mono; [apply (resync_told S F D m w); [done|by apply holds_pushable|done]|].
  intros r w1 ((Hnp & Hw1) & _ & Htold). destruct r as [[]|e|]; [| |done].
  2: { split; [done|]. by eapply body_settled. }
  apply wp_defer_settled. apply (body_weaken _ _ _ (HookSlots (sm_Id m))) in Hw1; [|done].
  eapply (store_slot_wp S F); [by constructor| |exact Hw1| | |by auto].
  - destruct Hok as [_ Ht]. rewrite Hst in Ht. split; [by right|done].
  - intros HS. apply tables_ok_move; [by apply Hw1|]. intros t tb e Htb He _.
    destruct (Htold HS eq_refl t tb e Htb He) as (ctx & p & Hts). revert Hts.
    unfold toSlot. rewrite Hst. destruct (isSlotLocked ctx m); cbn; [|done..].
    by intros [= <-].
  - intros w2 Hw2. split; [done|]. by eapply body_settled.
Qed.

Lemma SlotActionComplete_safe S sid : safe (Inv S) (SlotActionComplete sid).
Proof.
  apply op_start_wp. intros d hosts Hwf Hd. exists (alive (db_group d)), None.
  pose proof (frame_alive d Hd) as Hfine. split; [done|]. intros w _ Hw.
  pose proof (ctx_db_view S d _ None hosts Hwf Hd Hfine) as Hv.
  pose proof (body_settled _ _ _ _ Hw) as Hset. set (F := frame_of _ _ _) in *.
  apply wp_lift_bind; [|by split|by intros ?%getSlotMapping_no_panic].
  intros m Hm. destruct (ctx_view_getSlotMapping _ _ _ _ _ Hv (frame_synced _ _ _) Hm)
    as [<- Hh]. destruct (sm_State m) eqn:Hst; try (by wp_step; split).
  - (* migrating *)
    apply wp_defer_settled. cbn zeta. destruct Hh as [Hok Hr Hp].
    apply (body_weaken _ _ _ (HookSlots (sm_Id m))) in Hw; [|done].
    set (m1 := sm_set_State ActionFinished m).
    assert (slot_ok (fr_alive F) m1) as Hok1.
    { destruct Hok as [? Ht]. split; [done|]. by rewrite Hst in Ht. }
    wp_step. apply wp_modify.
    pose proof (body_put_slot_at _ _ _ m1 _ (list_elem_of_here _ _) Hok1 Hw) as Hw1. clear Hw.
    wp_step. apply (store_slot_wp S (fr_put m1 F) [HookSlots (sm_Id m)]);
      [by constructor|done|done| | |done].
    + intros HS. apply tables_ok_move; [by apply Hw1|]. intros t tb x _ _.
      rewrite (body_phase _ _ _ _ _ Hw1) by done. cbn [fr_put fr_phase].
      change (sm_Id m1) with (sm_Id m). rewrite <-Hp by done.
      unfold phase_of. rewrite Hst. cbn. intros [? ?]. auto.
    + intros w2 Hw2.
      apply (complete_finished_settled S (fr_store m1 (fr_put m1 F)) _ m1); try done.
      split; [done..|]. intros _. cbn. by rewrite upd_eq.
  - (* finished *)
    by apply (complete_finished_settled S F [] m).
Qed.

(** ** The executor *)

Lemma Inv_other S w w' :
  w_db w' = w_db w → w_cache w' = w_cache w → w_tables w' = w_tables w →
  w_log w' = w_log w → Inv S w → Inv S w'.
Proof.
  intros E1 E2 E3 E4 [I1 I2 I3 I4].
  split; rewrite ?E1, ?E3, ?E4; try done. by apply (coh_other _ w).
Qed.

Lemma safe_Inv_tick S {A} (k : nat → T A) :
  (∀ t, safe (Inv S) (k t)) → safe (Inv S) (next_tick ≫= k).
Proof.
  intros Hk w Hw. apply wp_bind, wp_next_tick. cbn. apply Hk. by apply (Inv_other _ w).
Qed.

Lemma safe_Inv_call S e : safe (Inv S) (call e).
Proof. apply safe_Inv_tick. intros t. destruct (env_call t); auto with safe. Qed.

Lemma newSlotActionExecutor_safe S sid : safe (Inv S) (newSlotActionExecutor sid).
Proof.
  apply safe_newContext. intros ctx. apply safe_lift_bind; [auto with safe|]. intros m _.
  destruct (sm_State m); auto with safe. apply safe_gets_bind. intros dis.
  destruct dis; auto with safe. destruct (isGroupPromoting _ _); auto with safe.
  destruct (isGroupPromoting _ _); auto with safe.
  apply safe_bind; [|auto with safe]. apply safe_modify. intros w. by apply Inv_other.
Qed.

Lemma run_executor_safe S e db : safe (Inv S) (run_executor e db).
Proof.
  destruct e as [sid from dest|]; cbn; [|auto with safe].
  apply (safe_defer _ (Inv S)); [done|intros w; by apply Inv_other|].
  case_decide; auto with safe.
  apply safe_bind; [apply safe_Inv_call|]. intros _.
  apply safe_bind; [apply safe_Inv_call|]. intros _.
  apply safe_Inv_tick. intros t. destruct (env_migrate t); auto with safe.
  case_decide; auto with safe.
  apply safe_Inv_tick. intros t'. destruct (env_keyspace t'); auto with safe.
Qed.

Lemma processSlotAction_safe S fuel sid db : safe (Inv S) (processSlotAction fuel sid db).
Proof.
  revert db. induction fuel as [|fuel IH]; intros db; cbn; auto with safe.
  apply safe_gets_bind. intros w. destruct (IsOnline w); cbn; auto with safe.
  apply safe_bind; [apply newSlotActionExecutor_safe|]. intros [e|]; [|apply IH].
  apply safe_bind; [apply run_executor_safe|]. intros [n nextdb].
  case_decide; [|apply IH]. apply safe_bind; [apply SlotActionComplete_safe|]. auto with safe.
Qed.

(** * Forced assignments: the cluster stays well formed *)

(** no slot of the request is null *)
Definition no_null (slots : list (option SlotMapping)) : bool := forallb (λ m, bool_decide (m ≠ None)) slots.

Lemma check_assign_spec ctx slots :
  (no_null slots = true → check_assign ctx slots ≠ Panic) ∧ (no_null slots = false → ∀ ms, check_assign ctx slots ≠ Ok ms) ∧
  (∀ ms, check_assign ctx slots = Ok ms → ∀ m, m ∈ ms →
     0 ≤ sm_Id m < MaxSlotNum ∧ alive (ctx_group ctx) (sm_GroupId m)).
Proof.
  unfold no_null. induction slots as [|[m|] slots (IH0 & IH1 & IH2)]; cbn -[bool_decide];
    [|rewrite bool_decide_true by done; cbn -[bool_decide]|by rewrite bool_decide_false by naive_solver].
  { split_and!; [done..|]. intros ms [= <-] m Hm. by apply elem_of_nil in Hm. }
  pose proof (getSlotMapping_no_panic ctx (sm_Id m)) as Hn.
  destruct (getSlotMapping ctx (sm_Id m)) as [m'|e|] eqn:Hm; cbn; [|done..].
  apply getSlotMapping_Ok in Hm as (_ & Hr & _).
  pose proof (getGroup_no_panic ctx (sm_GroupId m)) as Hn'.
  destruct (getGroup ctx (sm_GroupId m)) as [g|e|] eqn:Hg; cbn; [|done..].
  apply getGroup_Ok in Hg. destruct (g_Servers g) eqn:Hs; [done|].
  case_decide; [done|]. destruct (check_assign ctx slots) as [ms|e|]; cbn; [|done|split_and!; [by apply IH0|done|done]].
  split_and!; [done|by intros Hf ? ?; apply (IH1 Hf ms)|]. intros ? [= <-] x [->|Hx]%elem_of_cons; [|by apply (IH2 ms)].
  split; [done|]. exists g. by rewrite Hs.
Qed.

Lemma assign_slots_safe F D slots (k : T unit) :
  (∀ m, m ∈ slots → 0 ≤ sm_Id m < MaxSlotNum ∧ slot_ok (fr_alive F) m) →
  (∀ D', safe (B false F D') k) → safe (B false F D) (assign_slots slots k).
Proof.
  revert D. induction slots as [|m slots IH]; intros D Hs Hk; cbn; [apply Hk|].
  destruct (Hs m) as [Hr Hok]; [by constructor|].
  apply safe_defer_hook; [done|]. apply safe_bind; [|intros _].
  - by apply safe_store_slot; [by constructor|..].
  - apply IH; [|done]. intros. apply Hs. by constructor.
Qed.

Lemma assign_groups_safe F D slots (k : T unit) :
  fr_free F = None → (∀ m, m ∈ slots → fr_alive F (sm_GroupId m)) →
  (∀ D', safe (B false F D') k) → safe (B false F D) (assign_groups slots k).
Proof.
  intros HF. revert D. induction slots as [|m slots IH]; intros D Hs Hk; cbn; [apply Hk|].
  assert (∀ D', safe (B false F D') (assign_groups slots k)) as Hrest.
  { intros D'. apply IH; [|done]. intros. apply Hs. by constructor. }
  apply safe_cur_ctx. intros ctx (_ & _ & HG & _). pose proof HG as (G1 & G2 & _).
  destruct (G2 (sm_GroupId m)) as (g & Hg & _); [apply Hs; by constructor|]. rewrite Hg.
  destruct (g_OutOfSync g); [apply Hrest|]. destruct (G1 _ _ Hg) as (? & Hid & ?).
  assert (fits F (sm_GroupId m) (g_set_OutOfSync true g)) as Hfit.
  { eapply fits_same; [done|done|by rewrite HF|done|]. exact (G1 _ _ Hg). }
  apply safe_defer_hook; [done|]. rewrite Hid. apply safe_bind; [|intros _].
  { apply safe_put_group; [by constructor|done]. }
  apply safe_bind; [|intros _; apply Hrest].
  apply safe_store_group; cbn; rewrite Hid; [by constructor|done].
Qed.

(** An operation that checks its argument first leaves the rest alone when the check does not pass. *)
Lemma checked_keeps (check : context → outcome terror (list SlotMapping)) (k : list SlotMapping → T unit) w :
  (∀ ctx ms, check ctx ≠ Ok ms) → Inv false w → Inv false ((ctx ← newContext; ms ← lift (check ctx); k ms) w).2.
Proof.
  intros Hc Hw. assert (safe (Inv false) (newContext ;; mret tt)) as Hs by (apply safe_newContext; intros; apply safe_ret).
  destruct (Hs w Hw) as [_ Hi]. unfold mbind, M_bind, lift in *. destruct (newContext w) as [[ctx|e|] w']; [|done..].
  specialize (Hc ctx). destruct (check ctx) as [ms|e|]; [by destruct (Hc ms)|done..].
Qed.

Lemma SlotsAssignGroup_safe slots : no_null slots = true → safe (Inv false) (SlotsAssignGroup slots).
Proof.
  intros Hnull. apply (op_start_alive false None). intros d hosts Hwf Hd Hv.
  destruct (check_assign_spec (ctx_db d hosts) slots) as (Hn & _ & Hc).
  apply safe_lift_bind; [by apply Hn|]. intros ms Ha. specialize (Hc ms Ha).
  assert (∀ m, m ∈ (λ m, new_mapping (sm_Id m) (sm_GroupId m)) <$> ms →
    0 ≤ sm_Id m < MaxSlotNum ∧ slot_ok (alive (db_group d)) m) as Hfresh.
  { intros ? (m & -> & Hm)%list_elem_of_fmap. destruct (Hc m Hm). split; [done|].
    split; [by right|done]. }
  apply assign_groups_safe; [done|intros m Hm; by apply (Hc m)|]. intros D.
  apply assign_slots_safe; [done|]. intros D'. apply safe_resync.
  intros m Hm. destruct (Hfresh m Hm). by split; [|split].
Qed.
Lemma SlotsAssignGroup_keeps slots w : Inv false w → Inv false (SlotsAssignGroup slots w).2.
Proof.
  intros Hw. destruct (no_null slots) eqn:Hn; [by apply (SlotsAssignGroup_safe slots Hn w Hw)|].
  apply (checked_keeps (λ ctx, check_assign ctx slots)); [|done]. intros ctx ms. destruct (check_assign_spec ctx slots) as (_ & Hc & _). by apply Hc.
Qed.

Lemma check_offline_spec ctx slots :
  (no_null slots = true → check_offline ctx slots ≠ Panic) ∧ (no_null slots = false → ∀ ms, check_offline ctx slots ≠ Ok ms) ∧
  (∀ ms, check_offline ctx slots = Ok ms → ∀ m, m ∈ ms → 0 ≤ sm_Id m < MaxSlotNum).
Proof.
  unfold no_null. induction slots as [|[m|] slots (IH0 & IH1 & IH2)]; cbn -[bool_decide];
    [|rewrite bool_decide_true by done; cbn -[bool_decide]|by rewrite bool_decide_false by naive_solver].
  { split_and!; [done..|]. intros ms [= <-] m Hm. by apply elem_of_nil in Hm. }
  pose proof (getSlotMapping_no_panic ctx (sm_Id m)) as Hn.
  destruct (getSlotMapping ctx (sm_Id m)) as [m'|e|] eqn:Hm; cbn; [|done..].
  apply getSlotMapping_Ok in Hm as (_ & Hr & _).
  case_decide; [done|]. destruct (check_offline ctx slots) as [ms|e|]; cbn; [|done|split_and!; [by apply IH0|done|done]].
  split_and!; [done|by intros Hf ? ?; apply (IH1 Hf ms)|]. intros ? [= <-] x [->|Hx]%elem_of_cons; [done|by apply (IH2 ms)].
Qed.

Lemma SlotsAssignOffline_safe slots : no_null slots = true → safe (Inv false) (SlotsAssignOffline slots).
Proof.
  intros Hnull. apply (op_start_alive false None). intros d hosts Hwf Hd Hv.
  destruct (check_offline_spec (ctx_db d hosts) slots) as (Hn & _ & Hc).
  apply safe_lift_bind; [by apply Hn|]. intros ms Ha. specialize (Hc ms Ha).
  assert (∀ m, m ∈ (λ m, new_mapping (sm_Id m) 0) <$> ms →
    0 ≤ sm_Id m < MaxSlotNum ∧ slot_ok (alive (db_group d)) m) as Hfresh.
  { intros ? (m & -> & Hm)%list_elem_of_fmap. split; [exact (Hc m Hm)|]. split; [by left|done]. }
  apply assign_slots_safe; [done|]. intros D'. apply safe_resync.
  intros m Hm. destruct (Hfresh m Hm). by split; [|split].
Qed.
Lemma SlotsAssignOffline_keeps slots w : Inv false w → Inv false (SlotsAssignOffline slots w).2.
Proof.
  intros Hw. destruct (no_null slots) eqn:Hn; [by apply (SlotsAssignOffline_safe slots Hn w Hw)|].
  apply (checked_keeps (λ ctx, check_offline ctx slots)); [|done]. intros ctx ms. destruct (check_offline_spec ctx slots) as (_ & Hc & _). by apply Hc.
Qed.
End ops.
