(* ===== verification/TopomGroupOps.v ===== *)
(** The group, sentinel and proxy operations keep the invariant. *)

From S2P Require Import Prelude Models TopomContext TopomState TopomCache TopomFrame.
From S2P Require Import TopomProxy TopomSlots TopomGroup TopomInv TopomRules TopomSlotOps.
(** * Rearranging servers *)

Lemma alter_addrs f i (l : list GroupServer) :
  (∀ x, gs_Addr (f x) = gs_Addr x) → gs_Addr <$> alter f i l = gs_Addr <$> l.
Proof.
  intros Hf. apply list_eq. intros j. rewrite !list_lookup_fmap, list_lookup_alter.
  case_decide; [|done]. subst j. destruct (l !! i); cbn; [by rewrite Hf|done].
Qed.

Lemma fmap_addrs f (l : list GroupServer) :
  (∀ x, gs_Addr (f x) = gs_Addr x) → gs_Addr <$> (f <$> l) = gs_Addr <$> l.
Proof. intros Hf. rewrite <-list_fmap_compose. apply list_fmap_ext. intros. apply Hf. Qed.

Lemma neither_server_past index i l :
  0 < i → index < i → neither_server index i l = l.
Proof.
  revert i. induction l as [|x l IH]; intros i ? ?; cbn; [done|].
  rewrite decide_True by lia. f_equal. apply IH; lia.
Qed.

Lemma neither_server_delete index i l :
  0 < i ≤ index → neither_server index i l = delete (Z.to_nat (index - i)) l.
Proof.
  revert i. induction l as [|x l IH]; intros i Hi; cbn; [by destruct (Z.to_nat _)|].
  destruct (decide (i = index)) as [->|?].
  - rewrite decide_False by lia. rewrite Z.sub_diag. apply neither_server_past; lia.
  - rewrite decide_True by lia.
    replace (Z.to_nat (index - i)) with (S (Z.to_nat (index - (i + 1)))) by lia.
    cbn. f_equal. apply IH. lia.
Qed.

(** A promotion reorders the servers: the promoted one first, the old master last. *)
Lemma promoted_servers_spec index l :
  0 < index < Z.of_nat (length l) →
  ∃ x y mid, promoted_servers index l = Some (x :: mid ++ [y]) ∧
    l !! Z.to_nat index = Some x ∧ l !! 0%nat = Some y ∧ x :: mid ++ [y] ≡ₚ l.
Proof.
  intros Hi. destruct (lookup_lt_is_Some_2 l (Z.to_nat index)) as [x Hx]; [lia|].
  destruct l as [|y l]; [cbn in Hi; lia|].
  exists x, y, (neither_server index 0 (y :: l)). unfold promoted_servers.
  rewrite (proj2 (zlookup_Some _ _ x)) by (split; [lia|done]).
  split_and!; [done|done|done|]. cbn. rewrite decide_False, neither_server_delete by lia.
  rewrite (Permutation_app_comm _ [y]). cbn. rewrite Permutation_swap. f_equiv.
  replace (Z.to_nat index) with (S (Z.to_nat (index - 1))) in Hx by lia. cbn in Hx.
  symmetry. by apply delete_Permutation.
Qed.

Lemma swap_servers_spec index l :
  0 ≤ index < Z.of_nat (length l) →
  ∃ l', swap_servers index l = Some l' ∧ l' ≡ₚ l ∧ l' !! 0%nat = l !! Z.to_nat index.
Proof.
  intros Hi. destruct (lookup_lt_is_Some_2 l (Z.to_nat index)) as [x Hx]; [lia|].
  destruct l as [|y l]; [cbn in Hi; lia|]. unfold swap_servers.
  rewrite (proj2 (zlookup_Some _ _ x)) by (split; [lia|done]). cbn.
  eexists. split; [done|]. destruct (Z.to_nat index) as [|k]; cbn in Hx |- *.
  - by simplify_eq.
  - split; [|done]. pose proof (lookup_lt_Some _ _ _ Hx).
    change (x :: <[k := y]> l ≡ₚ y :: l).
    rewrite <-(list_insert_id l k x) at 2 by done.
    rewrite (insert_take_drop l k x), (insert_take_drop l k y) by done.
    rewrite <-!Permutation_middle. apply Permutation_swap.
Qed.

(** * Group documents that fit *)

(** In an operation that may change the addresses of [gid]. *)
Lemma fits_sub F gid g g' :
  fr_free F = Some gid → fits F gid g → (∀ a, a ∈ addrs g' → a ∈ addrs g) →
  group_ok gid g' → (fr_alive F gid → g_Servers g' ≠ []) → fits F gid g'.
Proof.
  intros HF [F1 F2 F3 F4 F5] Ha Hok Hne. split; try done; [|by left].
  intros k g0 a Hk Hg0 ? ?. by eapply F4; eauto.
Qed.

Lemma fits_ctx S F ctx gid g :
  ctx_view S F ctx → (∀ k, k ≠ gid → fr_free F ≠ Some k) → ctx_group ctx !! gid = Some g →
  fits F gid g.
Proof.
  intros (_ & _ & HG & _) HF Hg. eapply fits_same; [done|done|done|done|].
  pose proof HG as (G1 & _). by apply G1.
Qed.

(** Same addresses, still well formed. *)
Lemma fits_addrs F gid g g' :
  fits F gid g → addrs g' = addrs g → g_Id g' = g_Id g → g_Promoting g' = g_Promoting g →
  fits F gid g'.
Proof.
  intros [(O1 & O2 & O3 & O4) F2 F3 F4 F5] Ha Hid Hp.
  assert (length (g_Servers g') = length (g_Servers g)) as Hlen.
  { apply (f_equal length) in Ha. unfold addrs in Ha. by rewrite !length_fmap in Ha. }
  split; rewrite ?Ha; try done.
  - split_and!; [lia|lia|congruence|by rewrite Ha|]. by rewrite Hp, Hlen.
  - intros Hl Hn. rewrite Hn in Hlen. destruct (g_Servers g) eqn:Hs; [|done]. by destruct F2.
Qed.

Lemma groups_ok_delete F gs gid :
  groups_ok F gs → fr_free F = Some gid → (fr_alive F gid → False) →
  groups_ok F (delete gid gs).
Proof.
  intros (G1 & G2 & G3 & G4) HF Hna. split_and!.
  - intros k g [_ Hk]%lookup_delete_Some. by apply G1.
  - intros k Hk. unfold alive. destruct (decide (gid = k)) as [<-|?]; [done|].
    rewrite lookup_delete_ne by done. by apply G2.
  - intros k1 k2 g1 g2 a [_ ?]%lookup_delete_Some [_ ?]%lookup_delete_Some. by eapply G3.
  - intros k Hk. rewrite HF in Hk. rewrite lookup_delete_ne by congruence. apply G4.
    by rewrite HF.
Qed.

Section ops.
Context `{Env} `{Config} `{UnicodeUpper} `{!EnvLaws}.
Abbreviation B S F D := (body S F D).

(** An assignment to a cached group followed by its write. *)
Lemma safe_update_group S F D gid g :
  HookGroup gid ∈ D → fits F gid g → safe (B S F D) (put_group_at gid g ;; storeUpdateGroup g).
Proof.
  intros Hh Hf. pose proof (fit_ok _ _ _ Hf) as (_ & Hid & _).
  apply safe_bind; [by apply safe_put_group|]. intros _.
  by apply safe_store_group; rewrite Hid.
Qed.

Lemma safe_update_group_bind S F D gid g {A} (k : T A) :
  HookGroup gid ∈ D → fits F gid g → safe (B S F D) k →
  safe (B S F D) (put_group_at gid g ;; storeUpdateGroup g ;; k).
Proof.
  intros Hh Hf Hk. pose proof (fit_ok _ _ _ Hf) as (_ & Hid & _).
  apply safe_bind; [by apply safe_put_group|]. intros _.
  apply safe_bind; [by apply safe_store_group; rewrite Hid|]. by intros _.
Qed.

Lemma ctx_view_group S F ctx gid g :
  ctx_view S F ctx → ctx_group ctx !! gid = Some g → group_ok gid g.
Proof. intros (_ & _ & (G1 & _) & _). apply G1. Qed.

(** ** Creating, removing, resyncing *)

Lemma CreateGroup_safe S gid : safe (Inv S) (CreateGroup gid).
Proof.
  apply (op_start_alive S (Some gid)). intros d hosts Hwf Hd Hv.
  case_decide as Hr; [apply safe_fail|]. cbn.
  destruct (db_group d !! gid) as [g|] eqn:Hg; [apply safe_fail|].
  apply safe_defer_hook; [done|]. apply safe_create_group; cbn; [by constructor|].
  split; cbn.
  - split_and!; [lia|lia|done|constructor|done].
  - intros (g & Hg' & _). congruence.
  - congruence.
  - intros ? ? a _ _ Ha. by apply elem_of_nil in Ha.
  - by left.
Qed.

Lemma RemoveGroup_safe S gid : safe (Inv S) (RemoveGroup gid).
Proof.
  apply (op_start_alive S (Some gid)). intros d hosts Hwf Hd Hv.
  apply safe_lift_bind; [auto with safe|]. intros g Hg%getGroup_Ok.
  destruct (g_Servers g) eqn:Hs; [|apply safe_fail].
  pose proof (ctx_view_group _ _ _ _ _ Hv Hg) as (_ & Hid & _). rewrite Hid.
  apply safe_defer_hook; [done|]. apply safe_store_write. intros w [B1 B2 B2' B3 B4 B5 B6].
  rewrite Hid. split; try done.
  - apply coh_remove_group; [by constructor|done].
  - apply groups_ok_delete; [done|done|]. intros (g' & Hg' & Hne). cbn in Hg. congruence.
  - by apply log_cons.
Qed.

Lemma ResyncGroup_safe S gid : safe (Inv S) (ResyncGroup gid).
Proof.
  apply (op_start_alive S None). intros d hosts Hwf Hd Hv.
  apply safe_lift_bind; [auto with safe|]. intros g Hg%getGroup_Ok.
  apply safe_bind; [by apply safe_resync_group|]. intros _.
  apply safe_defer_hook; [done|]. apply safe_update_group; [by constructor|].
  eapply fits_addrs; [by eapply fits_ctx|done..].
Qed.

(** The groups of the context are those the operation started with. *)
Lemma ctx_view_dom S F ctx gid :
  ctx_view S F ctx → fr_free F = None → is_Some (fr_group0 F !! gid) →
  ∃ g, ctx_group ctx !! gid = Some g.
Proof.
  intros (_ & _ & (_ & _ & _ & G4) & _) HF [g0 Hg0]. specialize (G4 gid).
  rewrite HF, Hg0 in G4. destruct (ctx_group ctx !! gid); eauto.
  by specialize (G4 ltac:(done)).
Qed.

Lemma resync_groups_safe S F D gids :
  synced F → fr_free F = None → (∀ gid, gid ∈ gids → is_Some (fr_group0 F !! gid)) →
  safe (B S F D) (resync_groups gids).
Proof.
  intros HF Hfree. revert D. induction gids as [|gid gids IH]; intros D Hg; cbn; [apply safe_ret|].
  apply safe_cur_ctx. intros ctx Hv.
  destruct (ctx_view_dom _ _ _ gid Hv Hfree) as [g Hcg]; [apply Hg; by constructor|].
  rewrite Hcg. pose proof (ctx_view_group _ _ _ _ _ Hv Hcg) as (_ & Hid & _). rewrite Hid.
  apply safe_bind; [by apply safe_resync_group|]. intros _.
  apply safe_defer_hook; [done|]. apply safe_update_group_bind; [by constructor| |].
  - eapply fits_addrs; [eapply fits_ctx; [done|by rewrite Hfree|done]|done..].
  - apply IH. intros. apply Hg. by constructor.
Qed.

Lemma safe_range_gids_bind S F D ctx {A} (k : list Z → T A) :
  (∀ gids, (∀ gid, gid ∈ gids → is_Some (ctx_group ctx !! gid)) → safe (B S F D) (k gids)) →
  safe (B S F D) (range_gids ctx ≫= k).
Proof.
  intros Hk w Hb. apply wp_bind. unfold range_gids. apply wp_bind, wp_next_tick. cbn.
  apply wp_ret. apply Hk; [|by apply (body_other _ _ _ w)].
  intros gid. rewrite env_range_perm. intros ([k' g] & -> & Hin)%list_elem_of_fmap.
  apply elem_of_map_to_list in Hin. by eexists.
Qed.

Lemma ResyncGroupAll_safe S : safe (Inv S) ResyncGroupAll.
Proof.
  apply (op_start_alive S None). intros d hosts Hwf Hd Hv.
  apply safe_range_gids_bind. intros gids Hg. by apply resync_groups_safe.
Qed.

(** ** Adding and removing servers *)

Lemma safe_sentinel_out_of_sync S F D extra {A} (k : T A) :
  (∀ D', safe (B S F D') extra) → (∀ D', safe (B S F D') k) →
  safe (B S F D) (sentinel_out_of_sync extra k).
Proof.
  intros He Hk. apply safe_cur_ctx. intros ctx _. destruct (se_Servers _); [apply Hk|].
  apply safe_defer_hook; [done|]. apply safe_bind; [apply safe_put_sentinel; by constructor|].
  intros _. apply safe_bind; [apply safe_store_sentinel; by constructor|]. intros _.
  apply safe_bind; [apply He|]. intros _. apply Hk.
Qed.

Lemma safe_range_groups_bind S F D ctx {A} (k : list Group → T A) :
  (∀ gs, (∀ g, g ∈ gs ↔ ∃ gid, ctx_group ctx !! gid = Some g) → safe (B S F D) (k gs)) →
  safe (B S F D) (range_groups ctx ≫= k).
Proof.
  intros Hk w Hb. apply wp_bind. unfold range_groups. apply wp_bind, wp_next_tick. cbn.
  apply wp_ret. apply Hk; [|by apply (body_other _ _ _ w)].
  intros g. rewrite list_elem_of_omap. setoid_rewrite env_range_perm.
  split; [naive_solver|]. intros [gid Hg]. exists gid. split; [|done].
  apply list_elem_of_fmap. exists (gid, g). split; [done|]. by apply elem_of_map_to_list.
Qed.

Lemma has_server_true addr g : has_server addr g = true ↔ addr ∈ addrs g.
Proof.
  unfold has_server, addrs. rewrite existsb_exists, list_elem_of_fmap.
  setoid_rewrite <-list_elem_of_In. setoid_rewrite bool_decide_eq_true. naive_solver.
Qed.

Lemma not_has_server addr gs g :
  existsb (has_server addr) gs = false → g ∈ gs → addr ∉ addrs g.
Proof.
  intros Hn Hg Ha%has_server_true. apply not_true_iff_false in Hn. apply Hn.
  apply existsb_exists. exists g. by rewrite <-list_elem_of_In.
Qed.

Lemma safe_syncACL S F D addr acl : safe (B S F D) (syncACLToRedisAddr addr acl).
Proof.
  unfold syncACLToRedisAddr. destruct (shouldSyncACLRuntime acl); [apply safe_call|apply safe_ret].
Qed.

Lemma GroupAddServer_safe S gid dc addr : safe (Inv S) (GroupAddServer gid dc addr).
Proof.
  apply (op_start_alive S (Some gid)). intros d hosts Hwf Hd Hv.
  case_decide; [apply safe_fail|]. apply safe_range_groups_bind. intros gs Hgs.
  destruct (existsb _ gs) eqn:Hfresh; [apply safe_fail|].
  apply safe_lift_bind; [auto with safe|]. intros g Hg%getGroup_Ok.
  case_decide as Hpr; [apply safe_fail|].
  pose proof (ctx_view_group _ _ _ _ _ Hv Hg) as (Hr & Hid & Hnd & _).
  assert (fits (frame_of d (alive (db_group d)) (Some gid)) gid g) as [F1 F2 F3 F4 F5].
  { eapply fits_ctx; [done| |done]. cbn. congruence. }
  apply safe_sentinel_out_of_sync; [intros; apply safe_ret|]. intros D'. rewrite Hid.
  apply safe_defer_hook; [done|]. apply safe_bind; [apply safe_syncACL|]. intros _.
  apply safe_update_group; [by constructor|].
  assert (∀ k g', db_group d !! k = Some g' → addr ∉ addrs g') as Hnew.
  { intros k g' Hk. eapply not_has_server; [done|]. apply Hgs. by exists k. }
  split; try done.
  - split_and!; [lia|lia|done| |by cbn; rewrite Hpr].
    unfold addrs. cbn. rewrite fmap_app. apply NoDup_app. split_and!; [done| |apply NoDup_singleton].
    intros a Ha ->%list_elem_of_singleton. by eapply Hnew.
  - intros _. cbn. by destruct (g_Servers g).
  - unfold addrs at 1. cbn [g_Servers g_set_Servers]. intros k g' a Hk Hg'. rewrite fmap_app.
    intros [Ha| ->%list_elem_of_singleton]%elem_of_app; [by eapply F4|]. by eapply Hnew.
  - by left.
Qed.

(** The groups some slot uses. *)
Definition used (d : db) (gid : Z) : Prop :=
  alive (db_group d) gid ∧
  ∃ i m, all_slots d !! i = Some m ∧ (sm_GroupId m = gid ∨ sm_TargetId m = gid).

Lemma frame_used d : cluster_ok d → frame_fine d (used d).
Proof.
  intros [Hs _ _]. split; [|by intros k [? _]]. intros i m Hi.
  destruct (Hs i m Hi) as [Hg Ht]. split.
  - destruct Hg as [?|?]; [by left|right]. split; [done|]. eauto.
  - destruct (sm_State m); try done; (split; [done|]; eauto).
Qed.

Lemma drop_server_elem index l (x : GroupServer) : x ∈ drop_server index l → x ∈ l.
Proof. intros Hx. eapply (sublist_subseteq (drop_server index l)); [apply sublist_delete|done]. Qed.

Lemma without_server_addrs index g a : a ∈ addrs (without_server index g) → a ∈ addrs g.
Proof.
  unfold addrs, without_server. cbn. intros (x & -> & Hx%drop_server_elem)%list_elem_of_fmap.
  by apply list_elem_of_fmap_2.
Qed.

Lemma without_server_ok index g gid :
  group_ok gid g → pr_State (g_Promoting g) = ActionNothing →
  group_ok gid (without_server index g).
Proof.
  intros (Hr & Hid & Hnd & _) Hp. unfold without_server.
  split_and!; [lia|lia| | |].
  - cbn. destruct (drop_server _ _); cbn; by repeat case_decide.
  - unfold addrs in *. cbn. unfold drop_server. rewrite list_fmap_delete.
    eapply sublist_NoDup; [exact Hnd|]. apply sublist_delete.
  - cbn. destruct (drop_server _ _); cbn; repeat case_decide; cbn; by rewrite Hp.
Qed.

Lemma GroupDelServer_safe S gid addr : safe (Inv S) (GroupDelServer gid addr).
Proof.
  apply op_start. intros d hosts Hwf Hd. exists (used d), (Some gid).
  pose proof (frame_used d Hd) as Hfine. split; [done|].
  pose proof (ctx_db_view S d _ (Some gid) hosts Hwf Hd Hfine) as Hv.
  apply safe_lift_bind; [auto with safe|]. intros g Hg%getGroup_Ok.
  unfold getGroupIndex. destruct (find_server addr 0 (g_Servers g)) as [index|] eqn:Hf;
    [|apply safe_lift_bind; [done|intros ? ?; done]].
  apply safe_lift_bind; [done|]. intros ? [= <-].
  apply find_server_Some in Hf as (x & Hi & Hx & _). rewrite Z.sub_0_r in Hx.
  apply lookup_lt_Some in Hx.
  case_decide as Hpr; [apply safe_fail|]. case_decide as Hmaster; [apply safe_fail|].
  pose proof (ctx_view_group _ _ _ _ _ Hv Hg) as Hok. pose proof Hok as (_ & Hid & _).
  apply safe_sentinel_out_of_sync; [intros; apply safe_ret|]. intros D'. rewrite Hid.
  apply safe_defer_hook; [done|]. apply safe_update_group; [by constructor|].
  eapply fits_sub; [done|eapply fits_ctx; [done|cbn; congruence|done]| |by apply without_server_ok|].
  { intros a. apply without_server_addrs. }
  intros (_ & i & m & Hm & Huse) Hnil. apply (f_equal length) in Hnil.
  unfold without_server, drop_server in Hnil. cbn in Hnil. rewrite length_delete in Hnil
    by (by apply lookup_lt_is_Some). apply Hmaster. split; [lia|]. right.
  rewrite Hid. apply isGroupInUse_true. exists m. split; [|done].
  cbn. by eapply list_elem_of_lookup_2.
Qed.

(** ** Promotion *)

Lemma perm_addrs (l l' : list GroupServer) a :
  l' ≡ₚ l → a ∈ gs_Addr <$> l' → a ∈ gs_Addr <$> l.
Proof. by intros ->. Qed.

(** A reordering of the servers, with their action flags rewritten, fits. *)
Lemma fits_reorder F gid g g' l f :
  fr_free F = Some gid → fits F gid g → l ≡ₚ g_Servers g → g_Servers g' = f <$> l →
  (∀ x, gs_Addr (f x) = gs_Addr x) → g_Id g' = g_Id g →
  match pr_State (g_Promoting g') with
  | ActionNothing | ActionFinished => True
  | ActionPreparing | ActionPrepared =>
      0 < pr_Index (g_Promoting g') < Z.of_nat (length (g_Servers g))
  | _ => False
  end → fits F gid g'.
Proof.
  intros HF Hfit Hl Hg' Hf Hid Hpr. pose proof Hfit as [(Hr & Hid' & Hnd & _) F2 _ _ _].
  assert (addrs g' = gs_Addr <$> l) as Ha.
  { unfold addrs. rewrite Hg'. by apply fmap_addrs. }
  assert (length (g_Servers g') = length (g_Servers g)) as Hlen.
  { by rewrite Hg', length_fmap, Hl. }
  eapply fits_sub; [done|done|..].
  - intros a. rewrite Ha. by apply perm_addrs.
  - split_and!; [lia|lia|congruence| |by rewrite Hlen]. rewrite Ha.
    unfold addrs in Hnd. by rewrite Hl.
  - intros Hal Hn. apply (F2 Hal). rewrite Hn in Hlen. by destruct (g_Servers g).
Qed.

(** Only the promotion state changes. *)
Lemma fits_promoting F gid g i st :
  fr_free F = Some gid → fits F gid g →
  match st with
  | ActionNothing | ActionFinished => True
  | ActionPreparing | ActionPrepared => 0 < i < Z.of_nat (length (g_Servers g))
  | _ => False
  end → fits F gid (g_set_Promoting i st g).
Proof.
  intros HF Hfit Hst. eapply (fits_reorder F gid g _ (g_Servers g) id); try done.
  by rewrite list_fmap_id.
Qed.

Lemma safe_update_hook S F D gid g {A} (k : T A) :
  fits F gid g → safe (B S F (HookGroup gid :: D)) k →
  safe (B S F D) (defer (dirtyGroupCache gid) (put_group_at gid g ;; storeUpdateGroup g ;; k)).
Proof.
  intros Hf Hk. apply safe_defer_hook; [done|].
  apply safe_update_group_bind; [by constructor|done|done].
Qed.

Lemma promote_finished_safe S F D gid g :
  synced F → fr_free F = Some gid → fits F gid g → safe (B S F D) (promote_finished gid g).
Proof.
  intros HF Hfree Hfit. pose proof (fit_ok _ _ _ Hfit) as (_ & Hid & _).
  apply safe_cur_ctx. intros ctx Hv. apply safe_bind.
  { apply safe_resync. intros m. by apply pushable_by_group. }
  intros _. rewrite Hid. apply safe_defer_hook; [done|].
  assert (fits F gid (new_group gid (g_Servers g))).
  { eapply (fits_reorder F gid g _ (g_Servers g) id); try done. by rewrite list_fmap_id. }
  by apply safe_store_group; [by constructor|].
Qed.

Lemma promote_prepared_safe S F D gid g :
  synced F → fr_free F = Some gid → fits F gid g →
  pr_State (g_Promoting g) = ActionPrepared → safe (B S F D) (promote_prepared gid g).
Proof.
  intros HF Hfree Hfit Hst. pose proof (fit_ok _ _ _ Hfit) as (_ & Hid & _ & Hidx).
  rewrite Hst in Hidx. apply safe_sentinel_out_of_sync; intros D'.
  { apply safe_bind; [apply safe_ignore_err, safe_call|]. intros _. by apply safe_modify_other. }
  rewrite Hid. apply safe_defer_hook; [done|].
  destruct (promoted_servers_spec _ _ Hidx) as (x & y & mid & -> & _ & _ & Hperm).
  assert (fits F gid (g_set_Promoting 0 ActionFinished
    (g_set_Servers (gs_set_Action 0 ActionNothing <$> x :: mid ++ [y]) g))) as Hfit'.
  { by eapply (fits_reorder F gid g _ (x :: mid ++ [y])). }
  apply safe_update_group_bind; [by constructor|done|].
  apply safe_bind; [apply safe_ignore_err, safe_call|]. intros _.
  by apply promote_finished_safe.
Qed.

Lemma promote_preparing_safe S F D gid g :
  synced F → fr_free F = Some gid → fits F gid g →
  pr_State (g_Promoting g) = ActionPreparing → safe (B S F D) (promote_preparing gid g).
Proof.
  intros HF Hfree Hfit Hst. pose proof (fit_ok _ _ _ Hfit) as (_ & Hid & _ & Hidx).
  rewrite Hst in Hidx. unfold promote_preparing. rewrite Hid. apply safe_defer_hook; [done|].
  apply safe_cur_ctx. intros ctx Hv. cbn zeta.
  assert (∀ D', safe (B S F D') (resyncSlotMappings (getSlotMappingsByGroupId ctx gid))) as Hres.
  { intros D'. apply safe_resync. intros m. by apply pushable_by_group. }
  assert (∀ st, st = ActionPreparing ∨ st = ActionPrepared →
    fits F gid (g_set_Promoting (pr_Index (g_Promoting g)) st g)) as Hfits.
  { intros st Hst'. apply fits_promoting; [done|done|]. by destruct Hst' as [->| ->]. }
  apply safe_bind; [apply safe_put_group; [by constructor|auto]|]. intros _.
  apply safe_bind.
  { apply safe_on_err; [apply Hres|]. intros e.
    apply safe_bind; [apply safe_put_group; [by constructor|auto]|]. intros _.
    apply safe_bind; [by apply safe_ignore_err|]. intros _. apply safe_fail. }
  intros _. apply safe_bind.
  { apply safe_store_group; cbn; rewrite Hid; [by constructor|auto]. }
  intros _. apply promote_prepared_safe; auto.
Qed.

Lemma getGroupIndex_range g addr index :
  getGroupIndex g addr = Ok index → 0 ≤ index < Z.of_nat (length (g_Servers g)).
Proof.
  unfold getGroupIndex. destruct (find_server _ _ _) eqn:Hf; intros [= <-].
  apply find_server_Some in Hf as (x & ? & Hx & _). apply lookup_lt_Some in Hx. lia.
Qed.

Lemma getGroupIndex_no_panic g addr : getGroupIndex g addr ≠ Panic.
Proof. unfold getGroupIndex. by destruct (find_server _ _ _). Qed.

Lemma GroupPromoteServer_safe S gid addr : safe (Inv S) (GroupPromoteServer gid addr).
Proof.
  apply (op_start_alive S (Some gid)). intros d hosts Hwf Hd Hv.
  apply safe_lift_bind; [auto with safe|]. intros g Hg%getGroup_Ok.
  apply safe_lift_bind; [apply getGroupIndex_no_panic|]. intros index Hi%getGroupIndex_range.
  case_decide; [apply safe_fail|]. case_decide as Hm; [apply safe_fail|].
  apply safe_gets_bind. intros n. case_decide; [apply safe_fail|].
  set (F := frame_of _ _ _) in *.
  assert (fits F gid g) as Hfit by (eapply fits_ctx; [done|cbn; congruence|done]).
  pose proof (fit_ok _ _ _ Hfit) as (_ & Hid & _ & Hidx).
  destruct (pr_State (g_Promoting g)) eqn:Hst; try apply safe_fail.
  - (* nothing *)
    assert (fits F gid (g_set_Promoting index ActionPreparing g)).
    { apply fits_promoting; [done|done|]. destruct (decide (index = 0)); [|lia].
      by destruct Hm. }
    unfold promote_nothing. rewrite Hid. apply safe_update_hook; [done|].
    by apply promote_preparing_safe.
  - by apply promote_preparing_safe.
  - by apply promote_prepared_safe.
  - by apply promote_finished_safe.
Qed.

(** ** Failover *)

Lemma find_runid_range rid master i l k :
  find_runid rid master i l = Some k → i ≤ k < i + Z.of_nat (length l).
Proof.
  revert i. induction l as [|x l IH]; intros i; cbn; [done|].
  case_decide; [intros [= <-]; lia|]. intros ?%IH. lia.
Qed.

Lemma trySwitchGroupMaster_safe S gid master rid :
  safe (Inv S) (trySwitchGroupMaster gid master rid).
Proof.
  apply (op_start_alive S (Some gid)). intros d hosts Hwf Hd Hv.
  apply safe_lift_bind; [auto with safe|]. intros g Hg%getGroup_Ok.
  set (F := frame_of _ _ _) in *.
  assert (fits F gid g) as Hfit by (eapply fits_ctx; [done|cbn; congruence|done]).
  pose proof (fit_ok _ _ _ Hfit) as (_ & Hid & _ & Hpr).
  destruct (match find_server master 0 (g_Servers g) with Some i => _ | None => _ end)
    as [index|] eqn:Hidx; [|apply safe_fail].
  assert (0 ≤ index < Z.of_nat (length (g_Servers g))) as Hr.
  { destruct (find_server master 0 (g_Servers g)) eqn:Hf.
    - simplify_eq. apply find_server_Some in Hf as (x & ? & Hx & _).
      apply lookup_lt_Some in Hx. lia.
    - apply find_runid_range in Hidx. lia. }
  case_decide; [apply safe_ret|]. rewrite Hid. apply safe_defer_hook; [done|].
  destruct (swap_servers_spec _ _ Hr) as (l & -> & Hperm & _).
  apply safe_update_group; [by constructor|].
  eapply (fits_reorder F gid g _ l id); try done.
  by rewrite list_fmap_id.
Qed.

Lemma SwitchMasters_safe S masters : safe (Inv S) (SwitchMasters masters).
Proof.
  apply safe_gets_bind. intros w. destruct (w_closed w); [apply safe_fail|].
  apply safe_bind; [apply safe_modify; intros w'; by apply Inv_other|]. intros _.
  apply safe_Inv_tick. intros t. apply safe_for_each. intros gid _.
  destruct (masters !! gid); [|apply safe_ret].
  apply safe_ignore_err, trySwitchGroupMaster_safe.
Qed.

(** ** Flags and actions of servers *)

Lemma alter_server_addrs f i g :
  (∀ x, gs_Addr (f x) = gs_Addr x) → addrs (g_alter_server f i g) = addrs g.
Proof. intros Hf. unfold addrs. cbn. by apply alter_addrs. Qed.

Lemma EnableReplicaGroups_safe S gid addr value : safe (Inv S) (EnableReplicaGroups gid addr value).
Proof.
  apply (op_start_alive S (Some gid)). intros d hosts Hwf Hd Hv.
  apply safe_lift_bind; [auto with safe|]. intros g Hg%getGroup_Ok.
  apply safe_lift_bind; [apply getGroupIndex_no_panic|]. intros index _.
  case_decide as Hpr; [apply safe_fail|].
  pose proof (ctx_view_group _ _ _ _ _ Hv Hg) as (_ & Hid & _). rewrite Hid.
  apply safe_defer_hook; [done|]. apply safe_update_group; [by constructor|].
  eapply fits_addrs; [eapply fits_ctx; [done|cbn; congruence|exact Hg]|..].
  - rewrite alter_server_addrs by done. by case_decide.
  - cbn. by case_decide.
  - cbn. by case_decide.
Qed.

Lemma enable_all_safe S F D value gids :
  fr_free F = None → (∀ gid, gid ∈ gids → is_Some (fr_group0 F !! gid)) →
  safe (B S F D) (enable_all value gids).
Proof.
  intros Hfree. revert D. induction gids as [|gid gids IH]; intros D Hg; cbn; [apply safe_ret|].
  assert (∀ D', safe (B S F D') (enable_all value gids)) as Hrest.
  { intros D'. apply IH. intros. apply Hg. by constructor. }
  apply safe_cur_ctx. intros ctx Hv.
  destruct (ctx_view_dom _ _ _ gid Hv Hfree) as [g Hcg]; [apply Hg; by constructor|].
  rewrite Hcg. case_decide; [apply safe_fail|].
  pose proof (ctx_view_group _ _ _ _ _ Hv Hcg) as (_ & Hid & _). rewrite Hid.
  apply safe_defer_hook; [done|]. destruct (forallb _ _); [apply Hrest|].
  apply safe_update_group_bind; [by constructor| |apply Hrest].
  eapply fits_addrs; [eapply fits_ctx; [done|by rewrite Hfree|exact Hcg]|..].
  - unfold addrs. case_decide; cbn; by apply fmap_addrs.
  - by case_decide.
  - by case_decide.
Qed.

Lemma EnableReplicaGroupsAll_safe S value : safe (Inv S) (EnableReplicaGroupsAll value).
Proof.
  apply (op_start_alive S None). intros d hosts Hwf Hd Hv.
  apply safe_range_gids_bind. intros gids Hg. by apply enable_all_safe.
Qed.

Lemma getGroupByServer_no_panic gs addr : getGroupByServer gs addr ≠ Panic.
Proof. induction gs as [|g gs IH]; cbn; [done|]. by destruct (find_server _ _ _). Qed.

(** A change of one server of a group found by address, stored. *)
Lemma safe_alter_server S F D ctx gs addr g i f :
  ctx_view S F ctx → fr_free F = None → (∀ g, g ∈ gs ↔ ∃ gid, ctx_group ctx !! gid = Some g) →
  getGroupByServer gs addr = Ok (g, i) → (∀ x, gs_Addr (f x) = gs_Addr x) →
  HookGroup (g_Id g) ∈ D →
  safe (B S F D)
    (put_group_at (g_Id g) (g_alter_server f i g) ;; storeUpdateGroup (g_alter_server f i g)).
Proof.
  intros Hv Hfree Hgs [Hin _]%getGroupByServer_Ok Hf Hh. apply Hgs in Hin as [gid Hg].
  pose proof (ctx_view_group _ _ _ _ _ Hv Hg) as (_ & Hid & _). rewrite Hid in *.
  apply safe_update_group; [done|].
  eapply fits_addrs; [eapply fits_ctx; [done|by rewrite Hfree|exact Hg]| |done|done].
  by apply alter_server_addrs.
Qed.

Lemma SyncCreateAction_safe S addr : safe (Inv S) (SyncCreateAction addr).
Proof.
  apply (op_start_alive S None). intros d hosts Hwf Hd Hv.
  apply safe_range_groups_bind. intros gs Hgs.
  apply safe_lift_bind; [apply getGroupByServer_no_panic|]. intros [g i] Hg.
  cbn zeta. case_decide; [apply safe_fail|]. cbn zeta. case_decide; [apply safe_fail|].
  apply safe_defer_hook; [done|]. apply safe_range_groups_bind. intros gs' _.
  eapply safe_alter_server; [exact Hv|done|exact Hgs|exact Hg|done|by constructor].
Qed.

Lemma SyncRemoveAction_safe S addr : safe (Inv S) (SyncRemoveAction addr).
Proof.
  apply (op_start_alive S None). intros d hosts Hwf Hd Hv.
  apply safe_range_groups_bind. intros gs Hgs.
  apply safe_lift_bind; [apply getGroupByServer_no_panic|]. intros [g i] Hg.
  cbn zeta. case_decide; [apply safe_fail|]. cbn zeta. case_decide; [apply safe_fail|].
  apply safe_defer_hook; [done|].
  eapply safe_alter_server; [exact Hv|done|exact Hgs|exact Hg|done|by constructor].
Qed.

Lemma SyncActionPrepare_safe S : safe (Inv S) SyncActionPrepare.
Proof.
  apply (op_start_alive S None). intros d hosts Hwf Hd Hv.
  apply safe_range_groups_bind. intros gs0 _. cbn zeta. case_decide; [apply safe_ret|].
  apply safe_range_groups_bind. intros gs Hgs.
  apply safe_lift_bind; [apply getGroupByServer_no_panic|]. intros [g i] Hg.
  case_decide; [apply safe_ret|]. case_decide; [apply safe_fail|].
  apply safe_defer_hook; [done|]. apply getGroupByServer_Ok in Hg as [Hin _].
  apply Hgs in Hin as [gid Hg].
  pose proof (ctx_view_group _ _ _ _ _ Hv Hg) as (_ & Hid & _). rewrite Hid.
  apply safe_update_group_bind; [by constructor| |apply safe_ret].
  eapply fits_addrs; [eapply fits_ctx; [done|done|exact Hg]| |done|done].
  by apply alter_server_addrs.
Qed.

Lemma SyncActionComplete_safe S addr failed : safe (Inv S) (SyncActionComplete addr failed).
Proof.
  apply (op_start_alive S None). intros d hosts Hwf Hd Hv.
  apply safe_range_groups_bind. intros gs Hgs.
  destruct (getGroupByServer gs addr) as [[g i]|e|] eqn:Hg; [|apply safe_ret..].
  case_decide; [apply safe_ret|]. case_decide; [apply safe_ret|].
  apply safe_defer_hook; [done|].
  eapply safe_alter_server; [exact Hv|done|exact Hgs|exact Hg|done|by constructor].
Qed.

Lemma newSyncActionExecutor_safe S addr : safe (Inv S) (newSyncActionExecutor addr).
Proof.
  apply (op_start_alive S None). intros d hosts Hwf Hd Hv.
  apply safe_range_groups_bind. intros gs Hgs.
  destruct (getGroupByServer gs addr) as [[g i]|e|] eqn:Hg; [|apply safe_ret..].
  apply getGroupByServer_Ok in Hg as (_ & x & _ & Hx & _).
  case_decide; [apply safe_ret|]. case_decide; [|apply safe_ret].
  destruct (g_Servers g); [done|apply safe_ret].
Qed.

Lemma ProcessSyncAction_safe S : safe (Inv S) ProcessSyncAction.
Proof.
  apply safe_bind; [apply SyncActionPrepare_safe|]. intros addr.
  case_decide; [apply safe_ret|].
  apply safe_bind; [apply newSyncActionExecutor_safe|]. intros [m|]; [|apply safe_ret].
  apply safe_Inv_tick. intros t. apply SyncActionComplete_safe.
Qed.

(** ** Sentinels *)

Lemma safe_update_sentinel_bind S F D p {A} (k : T A) :
  HookSentinel ∈ D → safe (B S F D) k →
  safe (B S F D) (modify (put_sentinel p) ;; storeUpdateSentinel p ;; k).
Proof.
  intros Hh Hk. apply safe_bind; [by apply safe_put_sentinel|]. intros _.
  apply safe_bind; [by apply safe_store_sentinel|]. by intros _.
Qed.

Lemma safe_update_sentinel S F D p :
  HookSentinel ∈ D → safe (B S F D) (modify (put_sentinel p) ;; storeUpdateSentinel p).
Proof.
  intros Hh. apply safe_bind; [by apply safe_put_sentinel|]. intros _. by apply safe_store_sentinel.
Qed.

Lemma AddSentinel_safe S addr : safe (Inv S) (AddSentinel addr).
Proof.
  apply (op_start_alive S None). intros d hosts Hwf Hd Hv.
  cbn zeta. case_decide; [apply safe_fail|]. cbn zeta. case_decide; [apply safe_fail|].
  apply safe_bind; [apply safe_call|]. intros _.
  apply safe_defer_hook; [done|]. apply safe_update_sentinel. by constructor.
Qed.

Lemma DelSentinel_safe S addr force : safe (Inv S) (DelSentinel addr force).
Proof.
  apply (op_start_alive S None). intros d hosts Hwf Hd Hv.
  cbn zeta. case_decide; [apply safe_fail|]. cbn zeta. case_decide; [apply safe_fail|].
  apply safe_defer_hook; [done|]. apply safe_update_sentinel_bind; [by constructor|].
  apply safe_bind; [destruct force; [apply safe_ignore_err|]; apply safe_call|]. intros _.
  apply safe_update_sentinel. by constructor.
Qed.

Lemma set_sentinels_safe S F D ps : safe (B S F D) (set_sentinels ps).
Proof.
  induction ps as [|p ps IH]; cbn; [apply safe_ret|]. apply safe_tick_bind. intros t.
  apply safe_bind; [apply IH|]. intros l. apply safe_ret.
Qed.

Lemma ResyncSentinels_safe S : safe (Inv S) ResyncSentinels.
Proof.
  apply (op_start_alive S None). intros d hosts Hwf Hd Hv.
  apply safe_defer_hook; [done|]. apply safe_update_sentinel_bind; [by constructor|].
  apply safe_bind; [apply safe_ignore_err, safe_call|]. intros _.
  apply safe_bind; [apply safe_call|]. intros _. apply safe_bind.
  { unfold rewatchSentinels. destruct (se_Servers _); [by apply safe_modify_other|apply safe_ret]. }
  intros _. apply safe_range_proxies_bind; [done|]. intros ps _.
  apply safe_bind; [apply set_sentinels_safe|]. intros [|t l]; [|apply safe_fail].
  apply safe_update_sentinel. by constructor.
Qed.
End ops.
