(* ===== verification/TopomRebalance.v ===== *)
(** Slot rebalancing (pkg/topom/topom_slots.go, [SlotsRebalance]).

    The plan is computed from the slots and the groups that have a server: slots under
    migration count for their target, every group keeps idle slots up to the lower bound
    and puts the others on a list of slots it can give away, slots of no group go to the
    smallest group, and then the largest group gives to the smallest one until that no
    longer helps.  The groups are kept in a red-black tree ordered by their sizes. *)

From S2P Require Import Prelude Models TopomContext TopomState TopomProxy TopomSlots.
(** * The tree (github.com/emirpasic/gods/trees/redblacktree)

    [rb_keys] lists the keys from the left-most node to the right-most one.  What the
    code relies on: [Put] and [Remove] keep the keys in the order of the comparator as
    long as it is an order and the tree is sorted by it, and [Left] and [Right] are the
    two ends, nil in an empty tree. *)
Record cmp_order (cmp : Z → Z → Z) : Prop := {
  cmp_same x y : cmp x y = 0 ↔ x = y;
  cmp_swap x y : cmp x y < 0 ↔ 0 < cmp y x;
  cmp_trans x y z : cmp x y < 0 → cmp y z < 0 → cmp x z < 0;
}.

Abbreviation sorted_by cmp := (StronglySorted (λ x y : Z, cmp x y < 0)).

Class RBTree := {
  rbtree : Type;
  rb_keys : rbtree → list Z;
  rb_New : rbtree;
  rb_Put : (Z → Z → Z) → Z → rbtree → rbtree;
  rb_Remove : (Z → Z → Z) → Z → rbtree → rbtree;
  rb_Left : rbtree → option Z;
  rb_Right : rbtree → option Z;
  rb_Size : rbtree → Z;
  rb_New_spec : rb_keys rb_New = [];
  rb_Put_spec cmp k t : cmp_order cmp → sorted_by cmp (rb_keys t) → k ∉ rb_keys t →
    sorted_by cmp (rb_keys (rb_Put cmp k t)) ∧ rb_keys (rb_Put cmp k t) ≡ₚ k :: rb_keys t;
  rb_Remove_spec cmp k t : cmp_order cmp → sorted_by cmp (rb_keys t) → k ∈ rb_keys t →
    sorted_by cmp (rb_keys (rb_Remove cmp k t)) ∧ rb_keys t ≡ₚ k :: rb_keys (rb_Remove cmp k t);
  rb_Left_spec t : rb_Left t = head (rb_keys t);
  rb_Right_spec t : rb_Right t = last (rb_keys t);
  rb_Size_spec t : rb_Size t = Z.of_nat (length (rb_keys t));
}.

(** * The plan *)

(** the variables of the function that its loops change *)
Record tally := mkTally {
  assigned : gmap Z Z;
  pendings : gmap Z (list Z);
  moveout : gmap Z Z;
  docking : list Z;
}.

(** reading a missing key gives the zero value *)
Definition at0 (m : gmap Z Z) (k : Z) : Z := default 0 (m !! k).
Definition pending_of (t : tally) (gid : Z) : list Z := default [] (pendings t !! gid).

Definition groupSize (t : tally) (gid : Z) : Z :=
  at0 (assigned t) gid + Z.of_nat (length (pending_of t gid)) - at0 (moveout t) gid.

(** [assigned[gid]++], [pendings[gid] = append(pendings[gid], sid)], [moveout[gid] += d] *)
Definition count_assigned (gid : Z) (t : tally) : tally :=
  mkTally (<[gid := at0 (assigned t) gid + 1]> (assigned t)) (pendings t) (moveout t) (docking t).
Definition add_pending (gid sid : Z) (t : tally) : tally :=
  mkTally (assigned t) (<[gid := pending_of t gid ++ [sid]]> (pendings t)) (moveout t) (docking t).
Definition add_moveout (gid d : Z) (t : tally) : tally :=
  mkTally (assigned t) (pendings t) (<[gid := at0 (moveout t) gid + d]> (moveout t)) (docking t).
Definition dock (sid : Z) (t : tally) : tally :=
  mkTally (assigned t) (pendings t) (moveout t) (docking t ++ [sid]).

Definition no_tally : tally := mkTally ∅ ∅ ∅ [].

(** the groups with a server, sorted; the order in which the map is ranged over is lost *)
Definition valid_groups (gs : list Group) : list Z :=
  merge_sort Z.le (g_Id <$> filter (λ g, g_Servers g ≠ []) gs).

(** don't migrate slot if it's being migrated *)
Definition tally_migrating (slots : list SlotMapping) (t : tally) : tally :=
  foldl (λ t m, if decide (sm_State m ≠ ActionNothing) then count_assigned (sm_TargetId m) t else t) t slots.

(** don't migrate slot if groupSize < lowerBound *)
Definition tally_idle (lowerBound : Z) (slots : list SlotMapping) (t : tally) : tally :=
  foldl (λ t m,
    if decide (sm_State m ≠ ActionNothing) then t
    else if decide (sm_GroupId m ≠ 0) then
      if decide (groupSize t (sm_GroupId m) < lowerBound) then count_assigned (sm_GroupId m) t
      else add_pending (sm_GroupId m) (sm_Id m) t
    else t) t slots.

(** the comparator of the tree; it reads the sizes at the time of the call *)
Definition by_size (t : tally) (gid1 gid2 : Z) : Z :=
  if decide (gid1 ≠ gid2) then
    let d := groupSize t gid1 - groupSize t gid2 in
    if decide (d ≠ 0) then d else gid1 - gid2
  else 0.

Section plan.
Context `{RBTree}.

Definition new_tree (t : tally) (groupIds : list Z) : rbtree :=
  foldl (λ tree gid, rb_Put (by_size t) gid tree) rb_New groupIds.

(** assign offline slots to the smallest group *)
Fixpoint place_offline (slots : list SlotMapping) (t : tally) (tree : rbtree) : outcome terror (tally * rbtree) :=
  match slots with
  | [] => Ok (t, tree)
  | m :: slots' =>
      if decide (sm_State m ≠ ActionNothing) then place_offline slots' t tree
      else if decide (sm_GroupId m ≠ 0) then place_offline slots' t tree
      else match rb_Left tree with
      | None => Panic
      | Some dest =>
          let tree := rb_Remove (by_size t) dest tree in
          let t := add_moveout dest (-1) (dock (sm_Id m) t) in
          place_offline slots' t (rb_Put (by_size t) dest tree)
      end
  end.

(** rebalance between different server groups; running out of [fuel] counts as a panic *)
Fixpoint even_out (fuel : nat) (lowerBound upperBound : Z) (t : tally) (tree : rbtree) : outcome terror tally :=
  match fuel with
  | O => Panic
  | S fuel =>
      if decide (rb_Size tree >= 2) then
        match rb_Right tree with
        | None => Panic
        | Some from =>
            let tree := rb_Remove (by_size t) from tree in
            if decide (Z.of_nat (length (pending_of t from)) = at0 (moveout t) from)
            then even_out fuel lowerBound upperBound t tree
            else match rb_Left tree with
            | None => Panic
            | Some dest =>
                let tree := rb_Remove (by_size t) dest tree in
                let fromSize := groupSize t from in
                let destSize := groupSize t dest in
                if decide (fromSize ≤ lowerBound) then Ok t
                else if decide (destSize >= upperBound) then Ok t
                else if decide (fromSize - destSize ≤ 1) then Ok t
                else
                  let t := add_moveout dest (-1) (add_moveout from 1 t) in
                  even_out fuel lowerBound upperBound t (rb_Put (by_size t) dest (rb_Put (by_size t) from tree))
            end
        end
      else Ok t
  end.

(** [for gid, n := range moveout]: the highest slots of a group leave it *)
Definition take_out (t : tally) (gid n : Z) : outcome terror tally :=
  if decide (n < 0) then Ok t
  else
    let sids := merge_sort Z.ge (pending_of t gid) in
    if decide (Z.of_nat (length sids) < n) then Panic
    else
      let t := if decide (n > 0)
               then mkTally (assigned t) (<[gid := drop (Z.to_nat n) sids]> (pendings t)) (moveout t)
                      (docking t ++ take (Z.to_nat n) sids)
               else t in
      Ok (mkTally (assigned t) (pendings t) (delete gid (moveout t)) (docking t)).

Fixpoint take_outs (entries : list (Z * Z)) (t : tally) : outcome terror tally :=
  match entries with
  | [] => Ok t
  | (gid, n) :: entries' => t ← take_out t gid n; take_outs entries' t
  end.

(** the inner loop of the last one: at most [n] of the docked slots go to [gid] *)
Fixpoint hand_some (n : nat) (gid : Z) (docking : list Z) (plans : gmap Z Z) : list Z * gmap Z Z :=
  match n, docking with
  | S n, sid :: docking => hand_some n gid docking (<[sid := gid]> plans)
  | _, _ => (docking, plans)
  end.

Fixpoint hand_out (moveout : gmap Z Z) (groupIds docking : list Z) (plans : gmap Z Z) : gmap Z Z :=
  match groupIds with
  | [] => plans
  | gid :: groupIds =>
      let '(docking, plans) := hand_some (Z.to_nat (- at0 moveout gid)) gid docking plans in
      hand_out moveout groupIds docking plans
  end.

(** Turns of [even_out] that are always enough: a turn either takes a group out of the
    tree or brings a group nearer to its bounds by one slot. *)
Definition rebalance_fuel (slots : list SlotMapping) (groupIds : list Z) : nat :=
  S (length slots + length slots + length groupIds).

(** [SlotsRebalance] up to [if !confirm] *)
Definition rebalance_plan (slots : list SlotMapping) (groupIds : list Z) : outcome terror (gmap Z Z) :=
  let n := Z.of_nat (length groupIds) in
  let lowerBound := MaxSlotNum / n in
  let t := tally_idle lowerBound slots (tally_migrating slots no_tally) in
  '(t, tree) ← place_offline slots t (new_tree t groupIds);
  let upperBound := (MaxSlotNum + n - 1) / n in
  t ← even_out (rebalance_fuel slots groupIds) lowerBound upperBound t tree;
  t ← take_outs (map_to_list (moveout t)) t;
  Ok (hand_out (moveout t) groupIds (merge_sort Z.le (docking t)) ∅).

Context `{Env} `{Config} `{UnicodeUpper}.

Definition SlotsRebalance (confirm : bool) : T (gmap Z Z) :=
  ctx ← newContext;
  let groupIds := valid_groups (map_to_list (ctx_group ctx)).*2 in
  match groupIds with
  | [] => fail ErrNoValidGroup
  | _ =>
      plans ← lift (rebalance_plan (ctx_slots ctx) groupIds);
      if confirm then
        start_actions (λ sid, at0 plans sid) (merge_sort Z.le (map_to_list plans).*1) (mret tt) ;;
        mret plans
      else mret plans
  end.
End plan.

(** * A tree that satisfies the laws: a sorted list *)
Fixpoint list_Put (cmp : Z → Z → Z) (k : Z) (l : list Z) : list Z :=
  match l with
  | [] => [k]
  | x :: l' => if decide (cmp k x < 0) then k :: l else x :: list_Put cmp k l'
  end.

Lemma list_Put_perm cmp k l : list_Put cmp k l ≡ₚ k :: l.
Proof. induction l as [|x l IH]; cbn; [done|]. case_decide; [done|]. by rewrite IH, Permutation_swap. Qed.

Lemma list_Put_sorted cmp k l : cmp_order cmp → sorted_by cmp l → k ∉ l → sorted_by cmp (list_Put cmp k l).
Proof.
  intros Hc. induction 1 as [|x l Hl IH Hx]; cbn; intros Hk; [by repeat constructor|].
  apply not_elem_of_cons in Hk as [Hkx Hk]. case_decide as Hlt.
  - constructor; [by constructor|]. constructor; [done|]. eapply Forall_impl; [exact Hx|].
    intros y Hy. by eapply (cmp_trans cmp Hc).
  - constructor; [by apply IH|]. rewrite list_Put_perm. constructor; [|done].
    apply (cmp_swap cmp Hc). assert (cmp k x ≠ 0) by (rewrite (cmp_same cmp Hc); done). lia.
Qed.

Program Definition list_tree : RBTree := {|
  rbtree := list Z;
  rb_keys := id;
  rb_New := [];
  rb_Put := list_Put;
  rb_Remove := λ _ k l, filter (λ x, x ≠ k) l;
  rb_Left := head;
  rb_Right := last;
  rb_Size := λ l, Z.of_nat (length l);
|}.
Next Obligation. done. Qed.
Next Obligation. intros cmp k t Hc Hs Hk. split; [by apply list_Put_sorted|apply list_Put_perm]. Qed.
Next Obligation.
  intros cmp k t Hc Hs Hk. unfold id in *. split.
  - clear Hk. induction Hs as [|x l Hl IH Hx]; [constructor|]. rewrite filter_cons. case_decide; [|done].
    constructor; [done|]. apply Forall_forall. intros y [_ Hy]%list_elem_of_filter. by rewrite Forall_forall in Hx; apply Hx.
  - assert (NoDup t) as Hnd.
    { clear Hk. induction Hs as [|x l Hl IH Hx]; [constructor|]. constructor; [|done]. intros Hin.
      rewrite Forall_forall in Hx. specialize (Hx x Hin). pose proof (cmp_same cmp Hc x x). lia. }
    apply NoDup_Permutation; [done|..].
    + constructor; [by intros [? _]%list_elem_of_filter|by apply NoDup_filter].
    + intros x. rewrite elem_of_cons, list_elem_of_filter. destruct (decide (x = k)) as [->|]; naive_solver.
Qed.
Next Obligation. done. Qed.
Next Obligation. done. Qed.
Next Obligation. done. Qed.
