(* ===== verification/RebalanceTheorems.v ===== *)
(** What rebalancing plans, and that carrying the plan out keeps the cluster sound.

    The sizes of the groups are summed over the list of groups; [spread] is the invariant
    of the loop that evens them out, [gap] its measure. *)

From S2P Require Import Prelude Models TopomContext TopomState TopomCache TopomFrame.
From S2P Require Import TopomProxy TopomSlots TopomInv TopomRules TopomSlotOps TopomRebalance.
(** * Sums over the groups *)
Fixpoint total (f : Z → Z) (l : list Z) : Z := match l with [] => 0 | g :: l => f g + total f l end.

Lemma total_ext f f' l : (∀ g, g ∈ l → f' g = f g) → total f' l = total f l.
Proof.
  induction l as [|x l IH]; cbn; [done|]. intros Hf. rewrite Hf by by left. f_equal. apply IH. intros g Hg. apply Hf. by right.
Qed.

Lemma total_change f f' l k d : NoDup l → k ∈ l → f' k = f k + d → (∀ g, g ≠ k → f' g = f g) →
  total f' l = total f l + d.
Proof.
  intros Hnd Hk Hd Hf. induction Hnd as [|x l Hx Hnd IH]; [by apply not_elem_of_nil in Hk|]. cbn.
  apply elem_of_cons in Hk as [->|Hk].
  - rewrite Hd. rewrite (total_ext f f' l); [lia|]. intros g Hg. apply Hf. by intros ->.
  - rewrite IH by done. rewrite Hf by (by intros ->). lia.
Qed.

Lemma total_le f f' l : (∀ g, g ∈ l → f g ≤ f' g) → total f l ≤ total f' l.
Proof.
  induction l as [|x l IH]; cbn; [done|]. intros Hf. pose proof (Hf x ltac:(by left)).
  assert (total f l ≤ total f' l) by (apply IH; intros g Hg; apply Hf; by right). lia.
Qed.

Lemma total_lt f f' l k : k ∈ l → f k < f' k → (∀ g, g ∈ l → f g ≤ f' g) → total f l < total f' l.
Proof.
  intros Hk Hlt. induction l as [|x l IH]; [by apply not_elem_of_nil in Hk|]. intros Hf. cbn.
  pose proof (Hf x ltac:(by left)). assert (∀ g, g ∈ l → f g ≤ f' g) as Hl by (intros g Hg; apply Hf; by right).
  pose proof (total_le f f' l Hl). apply elem_of_cons in Hk as [->|Hk]; [lia|]. specialize (IH Hk Hl). lia.
Qed.

Lemma total_const c l : total (λ _, c) l = c * Z.of_nat (length l).
Proof. induction l as [|x l IH]; cbn -[Z.of_nat Z.mul]; [lia|]. rewrite IH. lia. Qed.

Lemma total_nonneg f l : (∀ g, g ∈ l → 0 ≤ f g) → 0 ≤ total f l.
Proof. intros Hf. apply (total_le (λ _, 0)) in Hf. rewrite total_const in Hf. lia. Qed.

Lemma total_add f f' l : total (λ g, f g + f' g) l = total f l + total f' l.
Proof. induction l as [|x l IH]; cbn; lia. Qed.

(** * Counting *)
Lemma filter_all {A} (P : A → Prop) `{∀ x, Decision (P x)} (l : list A) : (∀ x, x ∈ l → P x) → filter P l = l.
Proof.
  induction l as [|x l IH]; intros Hl; [done|]. rewrite filter_cons, decide_True by (apply Hl; by left). f_equal.
  apply IH. intros y Hy. apply Hl. by right.
Qed.

Lemma filter_none {A} (P : A → Prop) `{∀ x, Decision (P x)} (l : list A) : (∀ x, x ∈ l → ¬ P x) → filter P l = [].
Proof.
  induction l as [|x l IH]; intros Hl; [done|]. rewrite filter_cons, decide_False by (apply Hl; by left).
  apply IH. intros y Hy. apply Hl. by right.
Qed.

(** * Reading a tally after a change *)
Lemma at0_insert m k v g : at0 (<[k := v]> m) g = if decide (g = k) then v else at0 m g.
Proof. unfold at0. case_decide as E; [by subst; rewrite lookup_insert_eq|by rewrite lookup_insert_ne]. Qed.

Lemma groupSize_moveout k d t g : groupSize (add_moveout k d t) g = groupSize t g - (if decide (g = k) then d else 0).
Proof. unfold groupSize, add_moveout. cbn. rewrite at0_insert. case_decide as E; [subst|]; unfold pending_of; cbn; lia. Qed.

Lemma groupSize_dock sid t : groupSize (dock sid t) = groupSize t.
Proof. done. Qed.

(** * The order of the tree *)
Lemma by_size_order t : cmp_order (by_size t).
Proof.
  split; intros; unfold by_size in *; repeat case_decide; subst; try lia; try done.
Qed.

Lemma resorted t t' K : (∀ g, g ∈ K → groupSize t' g = groupSize t g) → sorted_by (by_size t) K → sorted_by (by_size t') K.
Proof.
  intros Hs. induction 1 as [|x l Hl IH Hx]; [constructor|]. constructor.
  - apply IH. intros g Hg. apply Hs. by right.
  - rewrite Forall_forall in Hx |- *. intros y Hy. specialize (Hx y Hy). unfold by_size in *.
    rewrite (Hs x), (Hs y) by set_solver. done.
Qed.

Lemma sorted_NoDup t K : sorted_by (by_size t) K → NoDup K.
Proof.
  induction 1 as [|x l Hl IH Hx]; [constructor|]. constructor; [|done]. intros Hin.
  rewrite Forall_forall in Hx. specialize (Hx x Hin). pose proof (cmp_same _ (by_size_order t) x x). lia.
Qed.

Lemma by_size_le t x y : by_size t x y < 0 → groupSize t x ≤ groupSize t y.
Proof. unfold by_size. repeat case_decide; lia. Qed.

Lemma head_least t K d k : sorted_by (by_size t) K → head K = Some d → k ∈ K → groupSize t d ≤ groupSize t k.
Proof.
  intros Hs Hd Hk. destruct Hs as [|x l Hl Hx]; [done|]. injection Hd as ->.
  apply elem_of_cons in Hk as [->|Hk]; [done|]. rewrite Forall_forall in Hx. by apply by_size_le, Hx.
Qed.

Lemma last_greatest t K d k : sorted_by (by_size t) K → last K = Some d → k ∈ K → groupSize t k ≤ groupSize t d.
Proof.
  induction 1 as [|x l Hl IH Hx]; [done|]. intros Hd Hk. destruct l as [|y l].
  - injection Hd as ->. by apply list_elem_of_singleton in Hk as ->.
  - apply elem_of_cons in Hk as [->|Hk]; [|by apply IH]. rewrite last_cons_cons in Hd.
    apply last_Some in Hd as [l' Hl']. rewrite Hl' in Hx. rewrite Forall_forall in Hx. apply by_size_le, Hx. set_solver.
Qed.

(** * What the first two loops count *)
Definition migrating_to (slots : list SlotMapping) (g : Z) : list SlotMapping :=
  filter (λ m, sm_State m ≠ ActionNothing ∧ sm_TargetId m = g) slots.
Definition idle_in (slots : list SlotMapping) (g : Z) : list Z :=
  sm_Id <$> filter (λ m, sm_State m = ActionNothing ∧ sm_GroupId m = g) slots.

(** [kept] are the idle slots of the group that were counted as assigned *)
Record tallied (lower : Z) (slots seen : list SlotMapping) (t : tally) : Prop := {
  td_moveout : moveout t = ∅;
  td_docking : docking t = [];
  td_group g : g ≠ 0 → ∃ kept, at0 (assigned t) g = Z.of_nat (length (migrating_to slots g)) + Z.of_nat (length kept) ∧
    idle_in seen g ≡ₚ kept ++ pending_of t g ∧ (kept ≠ [] → at0 (assigned t) g ≤ lower);
}.

Lemma migrating_tally slots g : let t := tally_migrating slots no_tally in
  at0 (assigned t) g = Z.of_nat (length (migrating_to slots g)) ∧ pendings t = ∅ ∧ moveout t = ∅ ∧ docking t = [].
Proof.
  unfold tally_migrating, migrating_to. induction slots as [|m slots IH] using rev_ind; [done|].
  rewrite foldl_app, filter_app. cbn [foldl]. set (t := foldl _ _ _) in *. destruct IH as (Ha & Hp & Hm & Hd).
  rewrite filter_cons, filter_nil. case_decide as Hs.
  - cbn [count_assigned assigned pendings moveout docking]. rewrite at0_insert.
    destruct (decide (g = sm_TargetId m)) as [->|Hg].
    + rewrite decide_True by done. rewrite Ha, length_app. cbn [length]. split_and!; [lia|done..].
    + rewrite decide_False by naive_solver. by rewrite app_nil_r.
  - rewrite decide_False by naive_solver. by rewrite app_nil_r.
Qed.

Lemma idle_in_snoc seen m g : idle_in (seen ++ [m]) g =
  idle_in seen g ++ (if decide (sm_State m = ActionNothing ∧ sm_GroupId m = g) then [sm_Id m] else []).
Proof. unfold idle_in. rewrite filter_app, fmap_app, filter_cons, filter_nil. by case_decide. Qed.

Lemma idle_tally lower slots seen : tallied lower slots seen (tally_idle lower seen (tally_migrating slots no_tally)).
Proof.
  unfold tally_idle. induction seen as [|m seen [IHm IHd IHg]] using rev_ind.
  { cbn. destruct (migrating_tally slots 0) as (_ & Hp & Hm & Hd). split; [done..|]. intros g _. exists [].
    destruct (migrating_tally slots g) as (Ha & _). unfold pending_of. rewrite Ha, Hp, lookup_empty. cbn. split_and!; [lia|done..]. }
  rewrite foldl_app. cbn [foldl]. set (t := foldl _ _ seen) in *.
  destruct (decide (sm_State m ≠ ActionNothing)) as [Hs|Hs%dec_stable].
  { split; [done..|]. intros g Hg. rewrite idle_in_snoc, decide_False, app_nil_r by naive_solver. by apply IHg. }
  destruct (decide (sm_GroupId m ≠ 0)) as [H0|H0%dec_stable].
  2: { split; [done..|]. intros g Hg. rewrite idle_in_snoc, decide_False, app_nil_r by naive_solver. by apply IHg. }
  destruct (decide (groupSize t (sm_GroupId m) < lower)) as [Hlt|Hge]; split; try done; intros g Hg; rewrite idle_in_snoc;
    destruct (IHg g Hg) as (kept & Ha & Hi & Hk).
  - cbn [count_assigned assigned]. rewrite at0_insert. unfold count_assigned, pending_of. cbn [pendings]. fold (pending_of t g).
    destruct (decide (g = sm_GroupId m)) as [->|Hne].
    + exists (kept ++ [sm_Id m]). rewrite decide_True by done. rewrite length_app, Hi. cbn [length]. split_and!; [lia|solve_Permutation|].
      intros _. unfold groupSize in Hlt. rewrite IHm in Hlt. unfold at0 in Hlt at 2. rewrite lookup_empty in Hlt. cbn in Hlt. lia.
    + exists kept. rewrite decide_False by naive_solver. by rewrite app_nil_r.
  - exists kept. unfold add_pending, pending_of. cbn [assigned pendings]. split; [done|]. split; [|done].
    destruct (decide (g = sm_GroupId m)) as [->|Hne].
    + rewrite decide_True by done. rewrite lookup_insert_eq. cbn. rewrite Hi. unfold pending_of. by rewrite app_assoc.
    + rewrite decide_False by naive_solver. rewrite lookup_insert_ne by done. by rewrite app_nil_r.
Qed.

(** * The loops, for sound slots and a list of groups *)
Section loops.
Context `{RBTree} (G : list Z).
Hypotheses (HG : NoDup G) (HG0 : 0 ∉ G).

Definition slot_fits (m : SlotMapping) : Prop :=
  if decide (sm_State m = ActionNothing) then sm_GroupId m = 0 ∨ sm_GroupId m ∈ G else sm_TargetId m ∈ G.

(** Every slot is counted once: in its group or target, or among those of no group. *)
Lemma total_slots slots : Forall slot_fits slots →
  total (λ g, Z.of_nat (length (migrating_to slots g)) + Z.of_nat (length (idle_in slots g))) G +
  Z.of_nat (length (idle_in slots 0)) = Z.of_nat (length slots).
Proof.
  induction 1 as [|m slots Hm _ IH].
  { cbn. assert (∀ l, total (λ _, 0 + 0) l = 0) as -> by (intros l; induction l; cbn; lia). done. }
  unfold slot_fits in Hm. set (f g := Z.of_nat (length (migrating_to slots g)) + Z.of_nat (length (idle_in slots g))) in *.
  set (k := if decide (sm_State m = ActionNothing) then sm_GroupId m else sm_TargetId m).
  assert (∀ g, Z.of_nat (length (migrating_to (m :: slots) g)) + Z.of_nat (length (idle_in (m :: slots) g)) = f g + if decide (g = k) then 1 else 0) as Hf.
  { intros g. unfold f, k, migrating_to, idle_in. rewrite !filter_cons.
    destruct (decide (sm_State m = ActionNothing)) as [Hs|Hs].
    - rewrite (decide_False (P := _ ∧ sm_TargetId m = g)) by naive_solver. destruct (decide (g = sm_GroupId m)) as [->|Hg].
      + rewrite decide_True by done. rewrite fmap_cons. cbn [length]. lia.
      + rewrite decide_False by naive_solver. lia.
    - rewrite (decide_False (P := _ ∧ sm_GroupId m = g)) by naive_solver. destruct (decide (g = sm_TargetId m)) as [->|Hg].
      + rewrite decide_True by done. cbn [length]. lia.
      + rewrite decide_False by naive_solver. lia. }
  assert (Z.of_nat (length (idle_in (m :: slots) 0)) = Z.of_nat (length (idle_in slots 0)) +
    (if decide (sm_State m = ActionNothing ∧ sm_GroupId m = 0) then 1 else 0)) as ->.
  { unfold idle_in. rewrite filter_cons. destruct (decide (sm_State m = ActionNothing ∧ sm_GroupId m = 0)); [|lia].
    rewrite fmap_cons. cbn [length]. lia. }
  rewrite (total_ext _ _ _ (λ g _, Hf g)). cbn [length].
  destruct (decide (sm_State m = ActionNothing ∧ sm_GroupId m = 0)) as [H0|H0].
  - destruct H0 as [Hs H0]. rewrite (total_ext f); [lia|]. intros g Hg. rewrite decide_False; [lia|].
    unfold k. rewrite decide_True by done. rewrite H0. by intros ->.
  - rewrite (total_change f _ G k 1); [lia|done|..].
    + unfold k. destruct (decide (sm_State m = ActionNothing)); [|done]. naive_solver.
    + by rewrite decide_True.
    + intros g Hg. rewrite decide_False by done. lia.
Qed.

(** ** Slots of no group *)
Record placed (t : tally) (tree : rbtree) : Prop := {
  pd_sorted : sorted_by (by_size t) (rb_keys tree);
  pd_keys : rb_keys tree ≡ₚ G;
  pd_dom g : g ∉ G → moveout t !! g = None;
  pd_moveout g : at0 (moveout t) g ≤ 0;
}.

Lemma new_tree_placed t : moveout t = ∅ → placed t (new_tree t G).
Proof.
  intros Hm. assert (∀ l tree, NoDup l → (∀ g, g ∈ l → g ∉ rb_keys tree) → sorted_by (by_size t) (rb_keys tree) →
    let tree' := foldl (λ tree gid, rb_Put (by_size t) gid tree) tree l in
    sorted_by (by_size t) (rb_keys tree') ∧ rb_keys tree' ≡ₚ l ++ rb_keys tree) as Hgo.
  { intros l. induction l as [|x l IH]; intros tree Hnd Hout Hs; [done|]. cbn. apply NoDup_cons in Hnd as [Hx Hnd].
    destruct (rb_Put_spec (by_size t) x tree (by_size_order t) Hs) as [Hs' Hp']; [apply Hout; by left|].
    destruct (IH (rb_Put (by_size t) x tree)) as [Ha Hb]; [done| |done|].
    - intros g Hg. rewrite Hp'. apply not_elem_of_cons. split; [by intros ->|]. apply Hout. by right.
    - split; [done|]. rewrite Hb, Hp'. solve_Permutation. }
  destruct (Hgo G rb_New HG) as [Hs Hp]; [|rewrite rb_New_spec; constructor|].
  { intros g _. rewrite rb_New_spec. apply not_elem_of_nil. }
  rewrite rb_New_spec, app_nil_r in Hp. split; [done..| |]; intros g; unfold at0; rewrite Hm, lookup_empty; done.
Qed.

(** A group is taken out of the tree, its size changes, and it is put back. *)
Lemma tree_replace t t' tree k : k ∈ rb_keys tree → (∀ g, g ≠ k → groupSize t' g = groupSize t g) →
  sorted_by (by_size t) (rb_keys tree) →
  let tree' := rb_Put (by_size t') k (rb_Remove (by_size t) k tree) in
  sorted_by (by_size t') (rb_keys tree') ∧ rb_keys tree' ≡ₚ rb_keys tree.
Proof.
  intros Hk Hsz Hs. destruct (rb_Remove_spec (by_size t) k tree (by_size_order t) Hs Hk) as [Hs' Hp].
  pose proof (sorted_NoDup _ _ Hs) as Hnd. rewrite Hp in Hnd. apply NoDup_cons in Hnd as [Hout _].
  destruct (rb_Put_spec (by_size t') k (rb_Remove (by_size t) k tree) (by_size_order t')) as [Ha Hb]; [|done|].
  - eapply resorted; [|exact Hs']. intros g Hg. apply Hsz. by intros ->.
  - split; [done|]. by rewrite Hb, Hp.
Qed.

Lemma placed_all slots t tree : G ≠ [] → placed t tree →
  ∃ t' tree', place_offline slots t tree = Ok (t', tree') ∧ placed t' tree' ∧
    assigned t' = assigned t ∧ pendings t' = pendings t ∧ docking t' = docking t ++ idle_in slots 0 ∧
    total (at0 (moveout t')) G = total (at0 (moveout t)) G - Z.of_nat (length (idle_in slots 0)).
Proof.
  intros Hne. revert t tree. induction slots as [|m slots IH]; intros t tree Hp.
  { exists t, tree. split; [done|]. split; [done|]. unfold idle_in. cbn. rewrite app_nil_r. split_and!; done || lia. }
  cbn [place_offline]. assert (idle_in (m :: slots) 0 = (if decide (sm_State m = ActionNothing ∧ sm_GroupId m = 0) then [sm_Id m] else []) ++ idle_in slots 0) as ->.
  { unfold idle_in. rewrite filter_cons. by case_decide. }
  destruct (decide (sm_State m ≠ ActionNothing)) as [Hs|Hs%dec_stable]; [rewrite decide_False by naive_solver; by apply IH|].
  destruct (decide (sm_GroupId m ≠ 0)) as [H0|H0%dec_stable]; [rewrite decide_False by naive_solver; by apply IH|].
  rewrite decide_True by done. rewrite rb_Left_spec. destruct (head (rb_keys tree)) as [dest|] eqn:Hd.
  2: { exfalso. apply Hne. pose proof (pd_keys t tree Hp) as Hk. destruct (rb_keys tree); [|done]. by apply Permutation_nil in Hk. }
  assert (dest ∈ rb_keys tree) as Hin by (destruct (rb_keys tree); [done|injection Hd as ->; by left]).
  assert (dest ∈ G) as HinG by by rewrite <-(pd_keys t tree Hp).
  set (t1 := add_moveout dest (-1) (dock (sm_Id m) t)).
  destruct (tree_replace t t1 tree dest Hin) as [Hs1 Hp1]; [|apply (pd_sorted t tree Hp)|].
  { intros g Hg. unfold t1. rewrite groupSize_moveout, groupSize_dock, decide_False by done. lia. }
  destruct (IH t1 (rb_Put (by_size t1) dest (rb_Remove (by_size t) dest tree))) as (t' & tree' & Ho & Hpl & Ha & Hpe & Hdo & Htot).
  { split; [done|by rewrite Hp1, (pd_keys t tree Hp)|..].
    - intros g Hg. unfold t1, add_moveout, dock. cbn. rewrite lookup_insert_ne by (by intros ->). by apply (pd_dom t tree Hp).
    - intros g. unfold t1, add_moveout, dock. cbn [moveout]. rewrite at0_insert. pose proof (pd_moveout t tree Hp).
      case_decide; [specialize (H1 dest); lia|done]. }
  exists t', tree'. split; [done|]. split; [done|]. split; [by rewrite Ha|]. split; [by rewrite Hpe|]. split.
  { rewrite Hdo. unfold t1, add_moveout, dock. cbn. by rewrite <-app_assoc. }
  rewrite Htot, length_app. cbn [length]. rewrite (total_change (at0 (moveout t)) (at0 (moveout t1)) G dest (-1) HG HinG); [lia|..].
  - unfold t1, add_moveout, dock. cbn [moveout]. by rewrite at0_insert, decide_True.
  - intros g Hg. unfold t1, add_moveout, dock. cbn [moveout]. by rewrite at0_insert, decide_False.
Qed.

(** ** Evening out *)
Context (lower upper N : Z).
Hypotheses (Hlower : 0 ≤ lower) (Hbounds : lower ≤ upper ≤ lower + 1) (HN : N ≤ upper * Z.of_nat (length G)).

(** a group has given away all it can *)
Definition spent (t : tally) (g : Z) : Prop := Z.of_nat (length (pending_of t g)) = at0 (moveout t) g.

Record sound (t : tally) : Prop := {
  so_room g : at0 (moveout t) g ≤ Z.of_nat (length (pending_of t g));
  so_dom g : g ∉ G → moveout t !! g = None;
  so_total : total (groupSize t) G = N;
}.

Record spread (t : tally) (tree : rbtree) : Prop := {
  sp_sorted : sorted_by (by_size t) (rb_keys tree);
  sp_sub g : g ∈ rb_keys tree → g ∈ G;
  sp_out g : g ∈ G → g ∉ rb_keys tree → spent t g ∧ ∀ k, k ∈ rb_keys tree → groupSize t k ≤ groupSize t g;
  sp_sound : sound t;
}.

(** what the loop leaves *)
Definition even (t : tally) : Prop := ∀ g, g ∈ G → spent t g ∨
  (groupSize t g ≤ upper ∧ (groupSize t g ≤ lower ∨ ∀ h, h ∈ G → lower ≤ groupSize t h)).

(** how far a size is from the bounds *)
Definition gap (s : Z) : Z := Z.max 0 (lower - s) + Z.max 0 (s - upper).
Definition measure (t : tally) (tree : rbtree) : Z := total (λ g, gap (groupSize t g)) G + Z.of_nat (length (rb_keys tree)).

Lemma not_all_large t : sound t → (∀ g, g ∈ G → upper ≤ groupSize t g) → ∀ g, g ∈ G → groupSize t g ≤ upper.
Proof.
  intros Hs Hall g Hg. destruct (decide (groupSize t g ≤ upper)) as [|Hgt]; [done|].
  assert (upper < groupSize t g) as Hup by lia. pose proof (total_lt (λ _, upper) (groupSize t) G g Hg Hup Hall) as Hlt. rewrite total_const, (so_total t Hs) in Hlt. lia.
Qed.

(** The sizes of the groups in the tree are at least [low]; so are then all sizes. *)
Lemma spread_least t tree low : spread t tree → rb_keys tree ≠ [] → (∀ k, k ∈ rb_keys tree → low ≤ groupSize t k) →
  ∀ g, g ∈ G → low ≤ groupSize t g.
Proof.
  intros Hs Hne Hlow g Hg. destruct (decide (g ∈ rb_keys tree)) as [|Hout]; [by apply Hlow|].
  destruct (sp_out t tree Hs g Hg Hout) as [_ Hk]. destruct (rb_keys tree) as [|k ks]; [done|].
  specialize (Hk k ltac:(by left)). specialize (Hlow k ltac:(by left)). lia.
Qed.

(** A reason to stop: the largest size is small, the smallest is large, or they are close. *)
Lemma stop_even t tree least greatest : spread t tree → rb_keys tree ≠ [] →
  (∀ k, k ∈ rb_keys tree → least ≤ groupSize t k ≤ greatest) → greatest ≤ lower ∨ upper ≤ least ∨ greatest - least ≤ 1 →
  even t.
Proof.
  intros Hs Hne Hk Hstop g Hg. destruct (decide (g ∈ rb_keys tree)) as [Hin|Hout].
  2: { left. by apply (sp_out t tree Hs). }
  right. pose proof (Hk g Hin). pose proof (spread_least t tree least Hs Hne (λ k Hin, proj1 (Hk k Hin))) as Hleast.
  pose proof (not_all_large t (sp_sound t tree Hs)) as Hlarge. destruct (decide (upper ≤ least)) as [Hul|Hul].
  - split; [apply Hlarge; [|done]; intros h Hh; specialize (Hleast h Hh); lia|]. right. intros h Hh. specialize (Hleast h Hh). lia.
  - split; [lia|]. destruct (decide (groupSize t g ≤ lower)); [by left|]. right. intros h Hh. specialize (Hleast h Hh). lia.
Qed.

Lemma gap_move x y : lower < x → y < upper → 1 < x - y → gap (x - 1) + gap (y + 1) < gap x + gap y.
Proof. unfold gap. lia. Qed.

Lemma total_two f f' a b da db : a ∈ G → b ∈ G → a ≠ b → f' a = f a + da → f' b = f b + db → (∀ g, g ≠ a → g ≠ b → f' g = f g) →
  total f' G = total f G + da + db.
Proof.
  intros Ha Hb Hab Hfa Hfb Hf. set (f1 g := if decide (g = a) then f a + da else f g).
  rewrite (total_change f1 f' G b db HG Hb), (total_change f f1 G a da HG Ha); [lia|..]; unfold f1.
  - by rewrite decide_True.
  - intros g Hg. by rewrite decide_False.
  - by rewrite Hfb, decide_False.
  - intros g Hg. case_decide as E; [by subst|]. by apply Hf.
Qed.

(** Two groups are taken out of the tree, their sizes change, and they are put back. *)
Lemma tree_replace2 t t' tree tree1 from dest : sorted_by (by_size t) (rb_keys tree) → from ∈ rb_keys tree →
  tree1 = rb_Remove (by_size t) from tree → dest ∈ rb_keys tree1 → (∀ g, g ≠ from → g ≠ dest → groupSize t' g = groupSize t g) →
  let tree' := rb_Put (by_size t') dest (rb_Put (by_size t') from (rb_Remove (by_size t) dest tree1)) in
  sorted_by (by_size t') (rb_keys tree') ∧ rb_keys tree' ≡ₚ rb_keys tree.
Proof.
  intros Hs Hf -> Hd Hsz. set (tree1 := rb_Remove (by_size t) from tree) in *.
  destruct (rb_Remove_spec (by_size t) from tree (by_size_order t) Hs Hf) as [Hs1 Hp1]. fold tree1 in Hs1, Hp1.
  destruct (rb_Remove_spec (by_size t) dest tree1 (by_size_order t) Hs1 Hd) as [Hs2 Hp2].
  pose proof (sorted_NoDup _ _ Hs) as Hnd. rewrite Hp1, Hp2 in Hnd. apply NoDup_cons in Hnd as [Hout1 Hnd].
  apply NoDup_cons in Hnd as [Hout2 _]. apply not_elem_of_cons in Hout1 as [Hne Hout1].
  destruct (rb_Put_spec (by_size t') from (rb_Remove (by_size t) dest tree1) (by_size_order t')) as [Hs3 Hp3]; [|done|].
  { eapply resorted; [|exact Hs2]. intros g Hg. apply Hsz; by intros ->. }
  destruct (rb_Put_spec (by_size t') dest _ (by_size_order t') Hs3) as [Hs4 Hp4].
  { rewrite Hp3. apply not_elem_of_cons. split; [by intros ->|done]. }
  split; [done|]. rewrite Hp4, Hp3, Hp1, Hp2. solve_Permutation.
Qed.

Definition same_slots (t t' : tally) : Prop :=
  assigned t' = assigned t ∧ pendings t' = pendings t ∧ docking t' = docking t ∧
  total (at0 (moveout t')) G = total (at0 (moveout t)) G.

Lemma same_slots_trans t t' t'' : same_slots t t' → same_slots t' t'' → same_slots t t''.
Proof. unfold same_slots. naive_solver congruence. Qed.

(** The largest group in the tree can give nothing more: it stays out. *)
Lemma spread_spent t tree from : spread t tree → last (rb_keys tree) = Some from → spent t from →
  spread t (rb_Remove (by_size t) from tree) ∧
  S (length (rb_keys (rb_Remove (by_size t) from tree))) = length (rb_keys tree).
Proof.
  intros [Hs Hsub Hout Hso] Hl Hsp. assert (from ∈ rb_keys tree) as Hin by (apply last_Some in Hl as [l' ->]; set_solver).
  destruct (rb_Remove_spec (by_size t) from tree (by_size_order t) Hs Hin) as [Hs1 Hp1].
  set (tree1 := rb_Remove (by_size t) from tree) in *. assert (∀ g, g ∈ rb_keys tree ↔ g = from ∨ g ∈ rb_keys tree1) as Hel.
  { intros g. by rewrite Hp1, elem_of_cons. }
  split; [|by rewrite Hp1]. split; [done| |  |done].
  - intros g Hg. apply Hsub, Hel. by right.
  - intros g Hg Hng. destruct (decide (g = from)) as [->|Hne].
    + split; [done|]. intros k Hk. apply (last_greatest t (rb_keys tree) from k Hs Hl). apply Hel. by right.
    + destruct (Hout g Hg) as [Ha Hb]; [rewrite Hel; naive_solver|]. split; [done|]. intros k Hk. apply Hb, Hel. by right.
Qed.

Definition move_one (from dest : Z) (t : tally) : tally := add_moveout dest (-1) (add_moveout from 1 t).

Lemma move_one_size from dest t g : from ≠ dest →
  groupSize (move_one from dest t) g = groupSize t g + (if decide (g = from) then -1 else if decide (g = dest) then 1 else 0).
Proof. intros Hne. unfold move_one. rewrite !groupSize_moveout. repeat case_decide; subst; try done; lia. Qed.

Lemma move_one_moveout from dest t g : from ≠ dest →
  at0 (moveout (move_one from dest t)) g = at0 (moveout t) g + (if decide (g = from) then 1 else if decide (g = dest) then -1 else 0).
Proof. intros Hne. unfold move_one, add_moveout. cbn [moveout]. rewrite !at0_insert. repeat case_decide; subst; try done; lia. Qed.

(** The largest group gives one slot to the smallest. *)
Lemma spread_move t tree from dest : spread t tree → last (rb_keys tree) = Some from → ¬ spent t from →
  let tree1 := rb_Remove (by_size t) from tree in
  head (rb_keys tree1) = Some dest → lower < groupSize t from → groupSize t dest < upper → 1 < groupSize t from - groupSize t dest →
  let t' := move_one from dest t in
  let tree' := rb_Put (by_size t') dest (rb_Put (by_size t') from (rb_Remove (by_size t) dest tree1)) in
  spread t' tree' ∧ measure t' tree' < measure t tree ∧ same_slots t t'.
Proof.
  intros [Hs Hsub Hout [Hroom Hdom Htot]] Hl Hsp tree1 Hd Hf Hde Hdiff t' tree'.
  assert (from ∈ rb_keys tree) as Hin by (apply last_Some in Hl as [l' ->]; set_solver).
  destruct (rb_Remove_spec (by_size t) from tree (by_size_order t) Hs Hin) as [Hs1 Hp1]. fold tree1 in Hs1, Hp1.
  assert (dest ∈ rb_keys tree1) as Hin1 by (destruct (rb_keys tree1); [done|injection Hd as ->; by left]).
  assert (from ≠ dest) as Hne by (intros ->; lia). assert (dest ∈ rb_keys tree) as Hin2 by (rewrite Hp1; by right).
  pose proof (move_one_size from dest t) as Hsz. pose proof (move_one_moveout from dest t) as Hmo. fold t' in Hsz, Hmo.
  destruct (tree_replace2 t t' tree tree1 from dest Hs Hin eq_refl Hin1) as [Hs' Hp'].
  { intros g H1 H2. rewrite Hsz, !decide_False by done. lia. }
  fold tree' in Hs', Hp'. assert (∀ g, pending_of t' g = pending_of t g) as Hpe by done.
  assert (total (groupSize t') G = total (groupSize t) G + -1 + 1) as Htot'.
  { apply (total_two _ _ from dest); auto; try intros g Hg1 Hg2; rewrite Hsz by done; repeat case_decide; done || lia. }
  assert (total (λ g, gap (groupSize t' g)) G < total (λ g, gap (groupSize t g)) G) as Hgap.
  { rewrite (total_two (λ g, gap (groupSize t g)) _ from dest (gap (groupSize t from - 1) - gap (groupSize t from))
      (gap (groupSize t dest + 1) - gap (groupSize t dest))); auto.
    - pose proof (gap_move (groupSize t from) (groupSize t dest) Hf Hde Hdiff). lia.
    - cbn beta. rewrite Hsz, decide_True by done. replace (groupSize t from + -1) with (groupSize t from - 1) by lia. lia.
    - cbn beta. rewrite Hsz, decide_False, decide_True by done. lia.
    - intros g Hg1 Hg2. rewrite Hsz, !decide_False by done. f_equal. lia. }
  split; [|split].
  - split; [done|intros g; rewrite Hp'; apply Hsub|..].
    + intros g Hg Hng. rewrite Hp' in Hng. destruct (Hout g Hg Hng) as [Ha Hb].
      assert (g ≠ from ∧ g ≠ dest) as [Hg1 Hg2] by (split; by intros ->). split.
      * unfold spent in *. rewrite Hpe, Hmo, !decide_False by done. lia.
      * intros k Hk. rewrite Hp' in Hk. pose proof (Hb k Hk). pose proof (Hb from Hin). rewrite !Hsz by done.
        rewrite (decide_False (P := g = from)), (decide_False (P := g = dest)) by done. repeat case_decide; subst; lia.
    + split.
      * intros g. specialize (Hroom g). unfold spent in Hsp. rewrite Hpe, Hmo by done. repeat case_decide; subst; lia.
      * intros g Hg. unfold t', move_one, add_moveout. cbn [moveout].
        rewrite !lookup_insert_ne by (intros ->; apply Hg, Hsub; done). by apply Hdom.
      * lia.
  - unfold measure. rewrite Hp'. lia.
  - split; [done|]. split; [done|]. split; [done|]. rewrite (total_two (at0 (moveout t)) _ from dest 1 (-1)); auto; [lia|..];
      try intros g Hg1 Hg2; rewrite Hmo by done; repeat case_decide; done || lia.
Qed.

Lemma even_out_ok fuel t tree : spread t tree → measure t tree < Z.of_nat fuel →
  ∃ t', even_out fuel lower upper t tree = Ok t' ∧ sound t' ∧ even t' ∧ same_slots t t'.
Proof.
  revert t tree. induction fuel as [|fuel IH]; intros t tree Hsp Hm.
  { exfalso. unfold measure in Hm. assert (0 ≤ total (λ g, gap (groupSize t g)) G); [|lia].
    apply total_nonneg. unfold gap. lia. }
  assert (even t → ∃ t', Ok (E := terror) t = Ok t' ∧ sound t' ∧ even t' ∧ same_slots t t') as Hstop.
  { intros He. exists t. split; [done|]. split; [apply (sp_sound t tree Hsp)|done]. }
  cbn [even_out]. rewrite rb_Size_spec. case_decide as Hsize.
  2: { apply Hstop. destruct (rb_keys tree) as [|k [|]] eqn:Hk; [| |cbn in Hsize; lia].
    - intros g Hg. left. apply (sp_out t tree Hsp g Hg). rewrite Hk. apply not_elem_of_nil.
    - eapply (stop_even t tree (groupSize t k) (groupSize t k) Hsp); rewrite ?Hk; [done| |lia].
      intros k' ->%list_elem_of_singleton. lia. }
  rewrite rb_Right_spec. destruct (last (rb_keys tree)) as [from|] eqn:Hl.
  2: { apply last_None in Hl. rewrite Hl in Hsize. cbn in Hsize. lia. }
  case_decide as Hspent.
  { destruct (spread_spent t tree from Hsp Hl Hspent) as [Hsp' Hlen]. apply IH; [done|]. unfold measure in *. lia. }
  set (tree1 := rb_Remove (by_size t) from tree) in *. pose proof (sp_sorted t tree Hsp) as Hs.
  assert (from ∈ rb_keys tree) as Hin by (apply last_Some in Hl as [l' ->]; set_solver).
  destruct (rb_Remove_spec (by_size t) from tree (by_size_order t) Hs Hin) as [Hs1 Hp1]. fold tree1 in Hs1, Hp1.
  rewrite rb_Left_spec. destruct (head (rb_keys tree1)) as [dest|] eqn:Hd.
  2: { rewrite Hp1 in Hsize. destruct (rb_keys tree1); [cbn in Hsize; lia|done]. }
  assert (∀ k, k ∈ rb_keys tree → groupSize t dest ≤ groupSize t k ≤ groupSize t from) as Hall.
  { intros k Hk. split; [|exact (last_greatest t (rb_keys tree) from k Hs Hl Hk)]. assert (dest ∈ rb_keys tree) as Hdin.
    { rewrite Hp1. right. destruct (rb_keys tree1); [done|injection Hd as ->; by left]. }
    rewrite Hp1 in Hk. apply elem_of_cons in Hk as [->|Hk]; [exact (last_greatest t (rb_keys tree) from dest Hs Hl Hdin)|exact (head_least t (rb_keys tree1) dest k Hs1 Hd Hk)]. }
  assert (rb_keys tree ≠ []) as Hne by (intros E; rewrite E in Hsize; cbn in Hsize; lia).
  pose proof (stop_even t tree _ _ Hsp Hne Hall) as He.
  case_decide; [apply Hstop, He; lia|]. case_decide; [apply Hstop, He; lia|]. case_decide; [apply Hstop, He; lia|].
  destruct (spread_move t tree from dest Hsp Hl Hspent Hd ltac:(lia) ltac:(lia) ltac:(lia)) as (Hsp' & Hm' & Hsame).
  fold tree1 in Hsp', Hm'. fold (move_one from dest t).
  destruct (IH _ _ Hsp' ltac:(lia)) as (t' & Ho & Hso & Hev & Hsame'). exists t'. split_and!; try done. by eapply same_slots_trans.
Qed.

End loops.

(** * The slots that leave *)
Definition leaving (t : tally) (g n : Z) : list Z := take (Z.to_nat n) (merge_sort Z.ge (pending_of t g)).

Lemma take_out_ok t g n : n ≤ Z.of_nat (length (pending_of t g)) → ∃ t', take_out t g n = Ok t' ∧
  docking t' = docking t ++ leaving t g n ∧ (∀ h, h ≠ g → pending_of t' h = pending_of t h) ∧
  (∀ h, moveout t' !! h = if decide (h = g ∧ 0 ≤ n) then None else moveout t !! h).
Proof.
  intros Hn. unfold take_out, leaving. case_decide as Hneg.
  { exists t. split; [done|]. split; [|split; [done|]]. 
    - replace (Z.to_nat n) with 0%nat by lia. by rewrite app_nil_r.
    - intros h. by rewrite decide_False by lia. }
  rewrite decide_False by (rewrite merge_sort_Permutation; lia). eexists. split; [done|].
  destruct (decide (n > 0)) as [Hpos|Hzero]; cbn [assigned pendings moveout docking].
  - split; [done|]. split.
    + intros h Hh. unfold pending_of. cbn [pendings]. by rewrite lookup_insert_ne.
    + intros h. destruct (decide (h = g)) as [->|Hh]; [by rewrite lookup_delete_eq, decide_True by lia|].
      by rewrite lookup_delete_ne, decide_False by naive_solver.
  - split; [by replace (Z.to_nat n) with 0%nat by lia; rewrite app_nil_r|]. split; [done|].
    intros h. destruct (decide (h = g)) as [->|Hh]; [by rewrite lookup_delete_eq, decide_True by lia|].
    by rewrite lookup_delete_ne, decide_False by naive_solver.
Qed.

Lemma take_outs_ok entries t : NoDup entries.*1 → (∀ g n, (g, n) ∈ entries → n ≤ Z.of_nat (length (pending_of t g))) →
  ∃ t', take_outs entries t = Ok t' ∧ docking t' = docking t ++ concat ((λ '(g, n), leaving t g n) <$> entries) ∧
    (∀ g n, (g, n) ∈ entries → moveout t' !! g = if decide (0 ≤ n) then None else moveout t !! g) ∧
    (∀ g, g ∉ entries.*1 → moveout t' !! g = moveout t !! g).
Proof.
  revert t. induction entries as [|[g n] entries IH]; intros t Hnd Hn.
  { exists t. cbn. rewrite app_nil_r. split_and!; try done. by intros g n ?%not_elem_of_nil. }
  cbn in Hnd. apply NoDup_cons in Hnd as [Hg Hnd].
  destruct (take_out_ok t g n) as (t1 & Ho & Hd & Hp & Hm); [apply Hn; by left|].
  assert (∀ h k, (h, k) ∈ entries → h ≠ g) as Hother.
  { intros h k Hin ->. apply Hg, list_elem_of_fmap. by exists (g, k). }
  destruct (IH t1 Hnd) as (t' & Hos & Hds & Hms & Hrest).
  { intros h k Hin. rewrite Hp by eauto. apply Hn. by right. }
  exists t'. cbn [take_outs]. rewrite Ho. split; [exact Hos|]. split; [|split].
  - rewrite Hds, Hd, <-app_assoc. cbn. do 2 f_equal. f_equal. apply list_fmap_ext. intros i [h k] Hin%list_elem_of_lookup_2.
    unfold leaving. by rewrite Hp by eauto.
  - intros h k [[= -> ->]|Hin]%elem_of_cons.
    + rewrite Hrest, Hm by done. repeat case_decide; naive_solver.
    + rewrite (Hms h k Hin), Hm. rewrite (decide_False (P := _ ∧ _)); [done|]. intros [-> _]. by apply (Hother g k Hin).
  - intros h Hh. cbn in Hh. apply not_elem_of_cons in Hh as [Hh1 Hh2]. rewrite Hrest, Hm by done. by rewrite decide_False by naive_solver.
Qed.

Lemma entries_groups G (mo : gmap Z Z) : NoDup G → (∀ g, g ∉ G → mo !! g = None) →
  map_to_list mo ≡ₚ omap (λ g, (g,.) <$> mo !! g) G.
Proof.
  intros HG Hdom. apply NoDup_Permutation; [apply NoDup_map_to_list|..].
  - eapply (NoDup_fmap_1 fst). clear Hdom. induction HG as [|x l Hx Hl IH]; cbn; [constructor|].
    destruct (mo !! x) as [v0|]; [|done]. cbn. constructor; [|done]. intros Hin. apply Hx.
    apply list_elem_of_fmap in Hin as ([y v] & -> & Hin). apply list_elem_of_omap in Hin as (y0 & Hz & Hv).
    apply fmap_Some in Hv as (? & _ & [= -> _]). done.
  - intros [g n]. rewrite elem_of_map_to_list, list_elem_of_omap. split.
    + intros Hg. exists g. split; [|by rewrite Hg]. destruct (decide (g ∈ G)); [done|]. by rewrite Hdom in Hg.
    + intros (h & _ & Hv). by apply fmap_Some in Hv as (? & Hv & [= -> ->]).
Qed.

Lemma docked_perm G t : NoDup G → (∀ g, g ∉ G → moveout t !! g = None) →
  concat ((λ '(g, n), leaving t g n) <$> map_to_list (moveout t)) ≡ₚ concat ((λ g, leaving t g (at0 (moveout t) g)) <$> G).
Proof.
  intros HG Hdom. rewrite (entries_groups G (moveout t) HG Hdom). clear. induction G as [|g l IH]; cbn; [done|].
  unfold at0. destruct (moveout t !! g) as [n|] eqn:Hg; cbn; [by apply Permutation_app_head|done].
Qed.

(** * Handing out *)
Lemma hand_some_spec n gid docking plans : hand_some n gid docking plans =
  (drop n docking, foldl (λ p sid, <[sid := gid]> p) plans (take n docking)).
Proof. revert docking plans. induction n as [|n IH]; intros [|sid docking] plans; cbn; [done..|]. apply IH. Qed.

Lemma foldl_hand_lookup gid l (plans : gmap Z Z) sid : 
  foldl (λ p sid, <[sid := gid]> p) plans l !! sid = if decide (sid ∈ l) then Some gid else plans !! sid.
Proof.
  revert plans. induction l as [|x l IH]; intros plans; cbn [foldl].
  { by rewrite decide_False by apply not_elem_of_nil. }
  rewrite IH. destruct (decide (sid ∈ l)) as [Hin|Hin]; [by rewrite decide_True by (by right)|].
  destruct (decide (sid = x)) as [->|Hne]; [by rewrite lookup_insert_eq, decide_True by (by left)|].
  rewrite lookup_insert_ne, decide_False by set_solver. done.
Qed.

Lemma hand_out_ok (mo : gmap Z Z) l dk plans : NoDup dk → NoDup l →
  Z.of_nat (length dk) = total (λ g, Z.max 0 (- at0 mo g)) l →
  let plans' := hand_out mo l dk plans in
  (∀ sid, sid ∉ dk → plans' !! sid = plans !! sid) ∧
  (∀ sid, sid ∈ dk → ∃ g, g ∈ l ∧ plans' !! sid = Some g ∧ at0 mo g < 0) ∧
  ∀ g, g ∈ l → Z.of_nat (length (filter (λ sid, plans' !! sid = Some g) dk)) = Z.max 0 (- at0 mo g).
Proof.
  revert dk plans. induction l as [|x l IH]; intros dk plans Hnd Hl Hlen; cbn [hand_out].
  { destruct dk; [|cbn in Hlen; lia]. split; [done|]. split; [by intros ? ?%not_elem_of_nil|by intros ? ?%not_elem_of_nil]. }
  rewrite hand_some_spec. set (n := Z.to_nat (- at0 mo x)). apply NoDup_cons in Hl as [Hx Hl]. cbn in Hlen.
  set (plans1 := foldl _ plans (take n dk)). rewrite <-(take_drop n dk) in Hnd. apply NoDup_app in Hnd as (Hnd1 & Hdis & Hnd2).
  assert (0 ≤ total (λ g, Z.max 0 (- at0 mo g)) l) as Hnn by (apply total_nonneg; lia).
  assert (length (take n dk) = n) as Hln by (rewrite length_take; lia).
  destruct (IH (drop n dk) plans1 Hnd2 Hl) as (H1 & H2 & H3); [rewrite length_drop; lia|].
  set (plans' := hand_out mo l (drop n dk) plans1) in *.
  assert (∀ sid, sid ∈ take n dk → plans' !! sid = Some x) as Hhead.
  { intros sid Hin. rewrite H1 by by apply Hdis. unfold plans1. by rewrite foldl_hand_lookup, decide_True. }
  assert (∀ sid, sid ∈ dk ↔ sid ∈ take n dk ∨ sid ∈ drop n dk) as Hel by (intros sid; by rewrite <-elem_of_app, take_drop).
  split; [|split].
  - intros sid Hout. rewrite Hel in Hout. rewrite H1 by naive_solver. unfold plans1. rewrite foldl_hand_lookup, decide_False by naive_solver. done.
  - intros sid [Hin|Hin]%Hel.
    + exists x. split; [by left|]. split; [by apply Hhead|]. assert (n ≠ 0%nat) by (intros E; rewrite E in Hin; by apply not_elem_of_nil in Hin). lia.
    + destruct (H2 sid Hin) as (g & Hg & ?). exists g. split; [by right|done].
  - intros g Hg. rewrite <-(take_drop n dk), filter_app, length_app. apply elem_of_cons in Hg as [->|Hg].
    + rewrite filter_all by done. rewrite filter_none; [cbn; lia|]. intros sid Hin Hp.
      destruct (H2 sid Hin) as (g & Hg & Hp2 & _). congruence.
    + rewrite filter_none; [cbn; by apply H3|]. intros sid Hin Hp. rewrite (Hhead sid Hin) in Hp. congruence.
Qed.
Lemma NoDup_concat_fmap {A B} (f : A → list B) l : NoDup l → (∀ x, x ∈ l → NoDup (f x)) →
  (∀ x y b, b ∈ f x → b ∈ f y → x = y) → NoDup (concat (f <$> l)).
Proof.
  intros Hl Hf Hdis. induction Hl as [|x l Hx Hl IH]; cbn; [constructor|]. apply NoDup_app. split; [apply Hf; by left|]. split.
  - intros b Hb (k & Hk & Hbk)%list_elem_of_In%in_concat. apply list_elem_of_In, list_elem_of_fmap in Hk as (y & -> & Hy).
    apply list_elem_of_In in Hbk. by rewrite (Hdis x y b Hb Hbk) in Hx.
  - apply IH. intros y Hy. apply Hf. by right.
Qed.

(** * The plan *)
Section result.
Context `{RBTree} (G : list Z) (slots : list SlotMapping).
Hypotheses (Hne : G ≠ []) (HG : NoDup G) (HG0 : 0 ∉ G).
Hypotheses (Hlen : Z.of_nat (length slots) = MaxSlotNum) (Hids : NoDup (sm_Id <$> slots)) (Hfit : Forall (slot_fits G) slots).

Abbreviation n := (Z.of_nat (length G)).
Definition lowerBound : Z := MaxSlotNum / n.
Definition upperBound : Z := (MaxSlotNum + n - 1) / n.

Lemma n_pos : 0 < n.
Proof. destruct G; [done|]. cbn [length]. lia. Qed.

Lemma bounds_ok : 0 ≤ lowerBound ∧ (lowerBound ≤ upperBound ≤ lowerBound + 1) ∧ MaxSlotNum ≤ upperBound * n ∧ lowerBound * n ≤ MaxSlotNum.
Proof.
  pose proof n_pos. unfold lowerBound, upperBound, MaxSlotNum.
  pose proof (Z.div_mod 1024 n ltac:(lia)). pose proof (Z.mod_pos_bound 1024 n ltac:(lia)).
  pose proof (Z.div_mod (1024 + n - 1) n ltac:(lia)). pose proof (Z.mod_pos_bound (1024 + n - 1) n ltac:(lia)).
  split; [apply Z.div_pos; lia|]. nia.
Qed.

(** the docked slots: those of no group and those that leave theirs *)
Definition departing (t : tally) (g : Z) : list Z := if decide (g = 0) then idle_in slots 0 else leaving t g (at0 (moveout t) g).
Definition docked (t : tally) : list Z := concat (departing t <$> 0 :: G).

(** where the sizes in [t] come from *)
Definition accounted (t : tally) : Prop := ∀ g, g ≠ 0 → ∃ kept,
  at0 (assigned t) g = Z.of_nat (length (migrating_to slots g)) + Z.of_nat (length kept) ∧
  idle_in slots g ≡ₚ kept ++ pending_of t g ∧ (kept ≠ [] → at0 (assigned t) g ≤ lowerBound).

Lemma idle_in_elem g sid : sid ∈ idle_in slots g ↔ ∃ m, m ∈ slots ∧ sm_Id m = sid ∧ sm_State m = ActionNothing ∧ sm_GroupId m = g.
Proof. unfold idle_in. rewrite list_elem_of_fmap. setoid_rewrite list_elem_of_filter. naive_solver. Qed.

Lemma same_slot m m' : m ∈ slots → m' ∈ slots → sm_Id m = sm_Id m' → m = m'.
Proof.
  intros [i Hi]%list_elem_of_lookup [j Hj]%list_elem_of_lookup Heq.
  assert (i = j) as ->; [|congruence]. apply (NoDup_lookup (sm_Id <$> slots) i j (sm_Id m) Hids); rewrite list_lookup_fmap, ?Hi, ?Hj; cbn; congruence.
Qed.

Lemma NoDup_ids (P : SlotMapping → Prop) `{∀ m, Decision (P m)} : NoDup (sm_Id <$> filter P slots).
Proof. eapply sublist_NoDup; [exact Hids|]. apply fmap_sublist, sublist_filter. Qed.

Lemma pending_idle t g sid : accounted t → g ≠ 0 → sid ∈ pending_of t g → sid ∈ idle_in slots g.
Proof. intros Ha Hg Hin. destruct (Ha g Hg) as (kept & _ & -> & _). apply elem_of_app. by right. Qed.

Lemma leaving_pending t g k sid : sid ∈ leaving t g k → sid ∈ pending_of t g.
Proof. unfold leaving. intros (i & Hin%list_elem_of_lookup_2 & _)%elem_of_take. by rewrite merge_sort_Permutation in Hin. Qed.

Lemma departing_idle t g sid : accounted t → sid ∈ departing t g → sid ∈ idle_in slots g.
Proof.
  intros Ha. unfold departing. case_decide as Hg; [by subst|]. intros Hin%leaving_pending. by eapply pending_idle.
Qed.

Lemma docked_elem t sid : accounted t → sid ∈ docked t ↔ ∃ g, g ∈ 0 :: G ∧ sid ∈ departing t g.
Proof.
  intros Ha. unfold docked. rewrite list_elem_of_In, in_concat. split.
  - intros (l & Hl & Hin). apply list_elem_of_In, list_elem_of_fmap in Hl as (g & -> & Hg). exists g. by rewrite <-list_elem_of_In in Hin.
  - intros (g & Hg & Hin). exists (departing t g). rewrite <-!list_elem_of_In. split; [|done]. apply list_elem_of_fmap. eauto.
Qed.

Lemma leaving_NoDup t g k : accounted t → g ≠ 0 → NoDup (leaving t g k).
Proof.
  intros Ha Hg. unfold leaving. eapply sublist_NoDup; [|apply sublist_take]. rewrite merge_sort_Permutation.
  destruct (Ha g Hg) as (kept & _ & Hi & _). pose proof (NoDup_ids (λ m, sm_State m = ActionNothing ∧ sm_GroupId m = g)) as Hnd.
  fold (idle_in slots g) in Hnd. rewrite Hi in Hnd. by apply NoDup_app in Hnd as (_ & _ & ?).
Qed.

Lemma docked_NoDup t : accounted t → NoDup (docked t).
Proof.
  intros Ha. apply NoDup_concat_fmap; [by constructor|..].
  - intros g _. unfold departing. case_decide as Hg; [apply NoDup_ids|by apply leaving_NoDup].
  - intros g h sid Hg%departing_idle Hh%departing_idle; [|done..].
    apply idle_in_elem in Hg as (m & Hm & Hid & _ & <-), Hh as (m' & Hm' & Hid' & _ & <-). by rewrite (same_slot m m') by congruence.
Qed.

Lemma leaving_length t g : at0 (moveout t) g ≤ Z.of_nat (length (pending_of t g)) →
  Z.of_nat (length (leaving t g (at0 (moveout t) g))) = Z.max 0 (at0 (moveout t) g).
Proof. intros Hr. unfold leaving. rewrite length_take, merge_sort_Permutation. lia. Qed.

Record planned (t : tally) (plans : gmap Z Z) : Prop := {
  pn_accounted : accounted t;
  pn_sound : sound G MaxSlotNum t;
  pn_even : even G lowerBound upperBound t;
  pn_none sid : sid ∉ docked t → plans !! sid = None;
  pn_some sid : sid ∈ docked t → ∃ g, g ∈ G ∧ plans !! sid = Some g ∧ at0 (moveout t) g < 0;
  pn_count g : g ∈ G → Z.of_nat (length (filter (λ sid, plans !! sid = Some g) (docked t))) = Z.max 0 (- at0 (moveout t) g);
}.

Lemma accounted_size t g : accounted t → g ≠ 0 →
  groupSize t g = Z.of_nat (length (migrating_to slots g)) + Z.of_nat (length (idle_in slots g)) - at0 (moveout t) g.
Proof. intros Ha Hg. destruct (Ha g Hg) as (kept & Has & Hi & _). unfold groupSize. rewrite Has, Hi, length_app. lia. Qed.

(** The first loops count every slot and put the slots of no group somewhere. *)
Lemma first_loops : ∃ t tree,
  place_offline slots (tally_idle lowerBound slots (tally_migrating slots no_tally))
    (new_tree (tally_idle lowerBound slots (tally_migrating slots no_tally)) G) = Ok (t, tree) ∧
  spread G MaxSlotNum t tree ∧ measure G lowerBound upperBound t tree < Z.of_nat (rebalance_fuel slots G) ∧
  accounted t ∧ docking t = idle_in slots 0 ∧ total (at0 (moveout t)) G = - Z.of_nat (length (idle_in slots 0)).
Proof.
  set (t0 := tally_idle _ _ _). destruct (idle_tally lowerBound slots slots) as [Tm Td Tg]. fold t0 in Tm, Td, Tg.
  destruct (placed_all G HG slots t0 (new_tree t0 G) Hne (new_tree_placed G HG t0 Tm)) as (t & tree & Ho & [Ps Pk Pd Pm] & Ha & Hp & Hd & Htot).
  assert (accounted t) as Hacc by (intros g Hg; unfold pending_of; rewrite Ha, Hp; by apply Tg).
  assert (∀ g, g ∈ G → g ≠ 0) as H0 by (intros g Hg ->; done).
  assert (total (at0 (moveout t)) G = - Z.of_nat (length (idle_in slots 0))) as Hmo.
  { rewrite Htot, Tm. assert (total (at0 ∅) G = 0) as ->; [|lia]. rewrite (total_ext (λ _, 0)); [apply total_const|done]. }
  assert (total (groupSize t) G = MaxSlotNum) as Hsum.
  { rewrite <-Hlen, <-(total_slots G HG HG0 slots Hfit), <-(Z.opp_involutive (Z.of_nat (length (idle_in slots 0)))), <-Hmo.
    rewrite (total_ext (λ g, (Z.of_nat (length (migrating_to slots g)) + Z.of_nat (length (idle_in slots g))) + - at0 (moveout t) g)).
    - rewrite total_add. assert (∀ l, total (λ g, - at0 (moveout t) g) l = - total (at0 (moveout t)) l) as ->; [|lia].
      intros l. induction l; cbn; lia.
    - intros g Hg. rewrite accounted_size by auto. lia. }
  exists t, tree. split; [done|]. split; [|split]; [| |by rewrite Hd, Td].
  - split; [done|intros g; by rewrite Pk|intros g Hg Hout; by rewrite Pk in Hout|].
    split; [|done|done]. intros g. specialize (Pm g). lia.
  - unfold measure. rewrite Pk. destruct bounds_ok as (B1 & B2 & B3 & B4).
    assert (total (λ g, gap lowerBound upperBound (groupSize t g)) G ≤ total (λ g, lowerBound + groupSize t g) G) as Hle.
    { apply total_le. intros g Hg. rewrite (accounted_size t g) by auto. specialize (Pm g). unfold gap. lia. }
    rewrite total_add, total_const, Hsum in Hle. unfold rebalance_fuel. lia.
Qed.

(** The groups that are left with something to receive. *)
Lemma left_moveout t t' : 
  (∀ g k, (g, k) ∈ map_to_list (moveout t) → moveout t' !! g = if decide (0 ≤ k) then None else moveout t !! g) →
  (∀ g, g ∉ (map_to_list (moveout t)).*1 → moveout t' !! g = moveout t !! g) → ∀ g, at0 (moveout t') g = Z.min 0 (at0 (moveout t) g).
Proof.
  intros Hin Hout g. unfold at0. destruct (moveout t !! g) as [k|] eqn:Hg.
  - rewrite (Hin g k) by by apply elem_of_map_to_list. case_decide; rewrite ?Hg; cbn; lia.
  - rewrite Hout, Hg; [done|]. intros ([? k] & -> & Hk)%list_elem_of_fmap. apply elem_of_map_to_list in Hk. cbn in Hg. congruence.
Qed.

Lemma docked_length t : accounted t → sound G MaxSlotNum t → total (at0 (moveout t)) G = - Z.of_nat (length (idle_in slots 0)) →
  Z.of_nat (length (docked t)) = total (λ g, Z.max 0 (- at0 (moveout t) g)) G.
Proof.
  intros Ha Hs Hmo. unfold docked. rewrite fmap_cons. cbn [concat]. rewrite length_app.
  change (departing t 0) with (idle_in slots 0).
  assert (Z.of_nat (length (concat (departing t <$> G))) = total (λ g, Z.max 0 (- at0 (moveout t) g) + at0 (moveout t) g) G) as Hc.
  { clear Hmo Hne HG Hfit. revert HG0. generalize G as l. intros l. induction l as [|g l IH]; intros H0; [done|]. rewrite fmap_cons. cbn [concat total].
    apply not_elem_of_cons in H0 as [Hg H0]. rewrite length_app, Nat2Z.inj_add, (IH H0). f_equal. unfold departing.
    rewrite decide_False by done. rewrite leaving_length by apply (so_room _ _ t Hs). lia. }
  rewrite Nat2Z.inj_add, Hc, total_add. lia.
Qed.

Lemma rebalance_planned : ∃ t plans, rebalance_plan slots G = Ok plans ∧ planned t plans.
Proof.
  destruct first_loops as (t0 & tree & Ho & Hsp & Hfuel & Hacc & Hdock & Hmo). destruct bounds_ok as (B1 & B2 & B3 & B4).
  destruct (even_out_ok G HG HG0 lowerBound upperBound MaxSlotNum B1 B2 B3 _ t0 tree Hsp Hfuel) as (t & He & Hso & Hev & Ha & Hp & Hd & Htot).
  assert (accounted t) as Hacct by (intros g Hg; unfold pending_of; rewrite Ha, Hp; by apply Hacc).
  destruct (take_outs_ok (map_to_list (moveout t)) t) as (t1 & Ht & Hd1 & Hin1 & Hout1).
  { apply NoDup_fst_map_to_list. }
  { intros g k Hk%elem_of_map_to_list. pose proof (so_room _ _ t Hso g) as Hr. unfold at0 in Hr. by rewrite Hk in Hr. }
  pose proof (left_moveout t t1 Hin1 Hout1) as Hmin.
  assert (merge_sort Z.le (docking t1) ≡ₚ docked t) as Hperm.
  { rewrite merge_sort_Permutation, Hd1, (docked_perm G t HG (so_dom _ _ t Hso)). unfold docked. rewrite fmap_cons. cbn [concat].
    rewrite Hd, Hdock. apply Permutation_app_head. clear Hev Hso Hsp Ho Hfuel Hne HG Hfit Hmo Htot. revert HG0. generalize G as l. intros l.
    induction l as [|g l IH]; intros H0; [done|]. rewrite !fmap_cons. cbn [concat]. apply not_elem_of_cons in H0 as [Hg H0].
    rewrite (IH H0). unfold departing at 2. by rewrite decide_False. }
  destruct (hand_out_ok (moveout t1) G (merge_sort Z.le (docking t1)) ∅) as (P1 & P2 & P3).
  { rewrite Hperm. by apply docked_NoDup. } { done. }
  { rewrite Hperm, docked_length by (done || congruence). apply total_ext. intros g _. rewrite Hmin. lia. }
  set (plans := hand_out _ _ _ _) in *. exists t, plans. split.
  - unfold rebalance_plan. fold lowerBound upperBound. rewrite Ho. cbn [mbind outcome_bind]. rewrite He. cbn [mbind outcome_bind].
    by rewrite Ht.
  - split; try done.
    + intros sid Hs. apply P1. by rewrite Hperm.
    + intros sid Hs. destruct (P2 sid) as (g & ? & ? & Hg); [by rewrite Hperm|]. exists g. rewrite Hmin in Hg. split_and!; try done; lia.
    + intros g Hg. specialize (P3 g Hg). rewrite Hmin in P3. rewrite <-Hperm. lia.
Qed.

(** * What the plan achieves *)

(** the group a slot is in when its migration, or the one planned for it, is over *)
Definition ends_in (plans : gmap Z Z) (m : SlotMapping) : Z :=
  if decide (sm_State m = ActionNothing) then default (sm_GroupId m) (plans !! sm_Id m) else sm_TargetId m.
Definition final_size (plans : gmap Z Z) (g : Z) : Z := Z.of_nat (length (filter (λ m, ends_in plans m = g) slots)).

(** decides each condition from the hypotheses *)
Local Ltac settle := repeat first
  [rewrite decide_True by (split_and?; congruence)
  |rewrite decide_False by (let E := fresh in intros E; destruct_and? E; congruence)]; cbn [length]; lia.

Lemma count_three plans g l : length (filter (λ m, ends_in plans m = g) l) =
  (length (migrating_to l g) + length (filter (λ m, sm_State m = ActionNothing ∧ plans !! sm_Id m = Some g) l) +
   length (filter (λ m, (sm_State m = ActionNothing ∧ sm_GroupId m = g) ∧ plans !! sm_Id m = None) l))%nat.
Proof.
  unfold migrating_to, ends_in. induction l as [|m l IH]; [done|]. rewrite !filter_cons.
  destruct (decide (sm_State m = ActionNothing)) as [Hs|Hs]; [destruct (plans !! sm_Id m) as [h|] eqn:Hp|]; cbn [from_option id].
  - destruct (decide (h = g)) as [->|Hh]; settle.
  - destruct (decide (sm_GroupId m = g)) as [Hg|Hg]; settle.
  - destruct (decide (sm_TargetId m = g)) as [Hg|Hg]; settle.
Qed.

Lemma planned_docked t plans sid g : planned t plans → plans !! sid = Some g → sid ∈ docked t.
Proof. intros Hp Hs. destruct (decide (sid ∈ docked t)) as [|Hout]; [done|]. rewrite (pn_none t plans Hp sid Hout) in Hs. done. Qed.

(** A slot that is docked and idle in [g] left [g]. *)
Lemma docked_leaves t sid g : accounted t → g ≠ 0 → sid ∈ docked t → sid ∈ idle_in slots g → sid ∈ leaving t g (at0 (moveout t) g).
Proof.
  intros Ha Hg (h & _ & Hin)%docked_elem Hi; [|done]. pose proof (departing_idle t h sid Ha Hin) as Hi'.
  apply idle_in_elem in Hi as (m & Hm & Hid & _ & Hgr), Hi' as (m' & Hm' & Hid' & _ & Hgr').
  assert (h = g) as -> by (rewrite <-Hgr, <-Hgr'; by rewrite (same_slot m m') by congruence).
  unfold departing in Hin. by rewrite decide_False in Hin.
Qed.

Lemma docked_elem_leaving t sid g : accounted t → g ∈ G → sid ∈ leaving t g (at0 (moveout t) g) → sid ∈ docked t.
Proof.
  intros Ha Hg Hin. apply docked_elem; [done|]. exists g. split; [by right|]. unfold departing.
  rewrite decide_False; [done|]. by intros ->.
Qed.

Lemma final_size_groupSize t plans g : planned t plans → g ∈ G → final_size plans g = groupSize t g.
Proof.
  intros Hp Hg. assert (g ≠ 0) as Hg0 by (by intros ->). pose proof (pn_accounted t plans Hp) as Ha.
  unfold final_size. rewrite count_three, accounted_size by done.
  assert (sm_Id <$> filter (λ m, sm_State m = ActionNothing ∧ plans !! sm_Id m = Some g) slots ≡ₚ filter (λ sid, plans !! sid = Some g) (docked t)) as H1.
  { apply NoDup_Permutation; [apply NoDup_ids|by apply NoDup_filter, docked_NoDup|]. intros sid.
    rewrite list_elem_of_fmap, list_elem_of_filter. setoid_rewrite list_elem_of_filter. split.
    - intros (m & -> & (Hs & Hpl) & Hm). split; [done|]. by eapply planned_docked.
    - intros [Hpl Hd]. apply docked_elem in Hd as (h & _ & Hin%departing_idle); [|done..].
      apply idle_in_elem in Hin as (m & Hm & <- & Hs & _). eauto. }
  assert (idle_in slots g ≡ₚ (sm_Id <$> filter (λ m, (sm_State m = ActionNothing ∧ sm_GroupId m = g) ∧ plans !! sm_Id m = None) slots) ++ leaving t g (at0 (moveout t) g)) as H2.
  { apply NoDup_Permutation; [apply NoDup_ids|..].
    - apply NoDup_app. split; [apply NoDup_ids|]. split.
      + intros sid (m & -> & Hm)%list_elem_of_fmap Hl. apply list_elem_of_filter in Hm as [[_ Hpl] _]. apply (docked_elem_leaving t _ g Ha Hg) in Hl.
        destruct (pn_some t plans Hp _ Hl) as (h & _ & Hh & _). congruence.
      + by apply leaving_NoDup.
    - intros sid. rewrite elem_of_app. split.
      + intros Hi. destruct (plans !! sid) as [h|] eqn:Hpl.
        * right. apply docked_leaves; [done..| |done]. by eapply planned_docked.
        * left. apply idle_in_elem in Hi as (m & Hm & <- & Hs & Hgr). apply list_elem_of_fmap. exists m. split; [done|]. by apply list_elem_of_filter.
      + intros [Hi|Hl]; [|by eapply pending_idle, leaving_pending].
        apply list_elem_of_fmap in Hi as (m & -> & Hm). apply list_elem_of_filter in Hm as [[[Hs Hgr] _] Hm]. apply idle_in_elem. eauto. }
  pose proof (pn_count t plans Hp g Hg) as Hc. rewrite <-H1 in Hc.
  rewrite H2, length_app. rewrite length_fmap in Hc |- *.
  pose proof (leaving_length t g (so_room _ _ t (pn_sound t plans Hp) g)). lia.
Qed.


(** A group that could give nothing more and is still above the lower bound: nothing in it
    is idle. *)
Lemma spent_busy t plans g m : planned t plans → g ∈ G → spent t g → lowerBound < groupSize t g →
  m ∈ slots → ends_in plans m = g → sm_State m ≠ ActionNothing.
Proof.
  intros Hp Hg Hsp Hlt Hm He Hs. assert (g ≠ 0) as Hg0 by (by intros ->). pose proof (pn_accounted t plans Hp) as Ha.
  unfold ends_in in He. rewrite decide_True in He by done. unfold spent in Hsp. destruct (plans !! sm_Id m) as [h|] eqn:Hpl.
  - cbn in He. subst h. destruct (pn_some t plans Hp (sm_Id m)) as (h & _ & Hh & Hneg); [by eapply planned_docked|].
    assert (h = g) as -> by congruence. lia.
  - cbn in He. destruct (Ha g Hg0) as (kept & Has & Hi & Hk). unfold groupSize in Hlt.
    destruct (decide (kept = [])) as [->|Hkept]; [|specialize (Hk Hkept); lia].
    assert (sm_Id m ∈ docked t) as Hd.
    { apply (docked_elem_leaving t _ g Ha Hg). unfold leaving. rewrite take_ge by (rewrite merge_sort_Permutation; lia).
      rewrite merge_sort_Permutation. cbn in Hi. rewrite <-Hi. apply idle_in_elem. eauto. }
    destruct (pn_some t plans Hp _ Hd) as (h & _ & Hh & _). congruence.
Qed.

Record rebalanced (plans : gmap Z Z) : Prop := {
  rl_moves sid g : plans !! sid = Some g → g ∈ G ∧
    ∃ m, m ∈ slots ∧ sm_Id m = sid ∧ sm_State m = ActionNothing ∧ sm_GroupId m ≠ g;
  rl_offline m : m ∈ slots → sm_State m = ActionNothing → sm_GroupId m = 0 → is_Some (plans !! sm_Id m);
  rl_upper g : g ∈ G → upperBound < final_size plans g → ∀ m, m ∈ slots → ends_in plans m = g → sm_State m ≠ ActionNothing;
  rl_lower g h : g ∈ G → h ∈ G → lowerBound < final_size plans g → final_size plans h < lowerBound →
    ∀ m, m ∈ slots → ends_in plans m = g → sm_State m ≠ ActionNothing;
  rl_even : (∀ m, m ∈ slots → sm_State m = ActionNothing) → ∀ g, g ∈ G → lowerBound ≤ final_size plans g ≤ upperBound;
}.

Lemma planned_rebalanced t plans : planned t plans → rebalanced plans.
Proof.
  intros Hp. pose proof (pn_accounted t plans Hp) as Ha. destruct bounds_ok as (B1 & B2 & B3 & B4).
  assert (∀ g, g ∈ G → upperBound < final_size plans g → ∀ m, m ∈ slots → ends_in plans m = g → sm_State m ≠ ActionNothing) as Hup.
  { intros g Hg Hlt m. rewrite (final_size_groupSize t plans g Hp Hg) in Hlt.
    destruct (pn_even t plans Hp g Hg) as [Hsp|[? _]]; [|lia]. eapply spent_busy; [done..|lia]. }
  assert (∀ g h, g ∈ G → h ∈ G → lowerBound < final_size plans g → final_size plans h < lowerBound →
    ∀ m, m ∈ slots → ends_in plans m = g → sm_State m ≠ ActionNothing) as Hlow.
  { intros g h Hg Hh Hlt Hlth m. rewrite (final_size_groupSize t plans) in Hlt, Hlth by done.
    destruct (pn_even t plans Hp g Hg) as [Hsp|[_ [?|Hall]]]; [eapply spent_busy; done|lia|]. specialize (Hall h Hh). lia. }
  assert (∀ g, 0 < final_size plans g → ∃ m, m ∈ slots ∧ ends_in plans m = g) as Hsome.
  { intros g Hg. unfold final_size in Hg. destruct (filter _ slots) as [|m l] eqn:Hf; [cbn in Hg; lia|].
    exists m. assert (m ∈ filter (λ m, ends_in plans m = g) slots) as [? ?]%list_elem_of_filter by (rewrite Hf; by left). done. }
  split; [| |done|done|].
  - intros sid g Hs. pose proof (planned_docked t plans sid g Hp Hs) as Hd.
    destruct (pn_some t plans Hp sid Hd) as (h & Hh & Hs' & Hneg). assert (h = g) as -> by congruence. split; [done|].
    pose proof Hd as (k & _ & Hin)%docked_elem; [|done]. pose proof (departing_idle t k sid Ha Hin) as Hi.
    apply idle_in_elem in Hi as (m & Hm & Hid & Hst & Hgr). exists m. split_and!; [done..|]. intros Hgg.
    assert (sid ∈ leaving t g (at0 (moveout t) g)) as Hl.
    { apply docked_leaves; [done|by intros ->|done|]. apply idle_in_elem. eauto. }
    unfold leaving in Hl. replace (Z.to_nat (at0 (moveout t) g)) with 0%nat in Hl by lia. by apply not_elem_of_nil in Hl.
  - intros m Hm Hst Hgr. destruct (pn_some t plans Hp (sm_Id m)) as (h & _ & Hh & _); [|by rewrite Hh].
    apply docked_elem; [done|]. exists 0. split; [by left|]. unfold departing. rewrite decide_True by done. apply idle_in_elem. eauto.
  - intros Hidle. assert (∀ g, g ∈ G → final_size plans g ≤ upperBound) as Hle.
    { intros g Hg. destruct (decide (final_size plans g ≤ upperBound)) as [|Hgt]; [done|]. destruct (Hsome g) as (m & Hm & He); [lia|].
      by destruct (Hup g Hg ltac:(lia) m Hm He (Hidle m Hm)). }
    intros h Hh. split; [|by apply Hle]. destruct (decide (lowerBound ≤ final_size plans h)) as [|Hlt]; [done|]. exfalso.
    assert (total (final_size plans) G < total (λ _, lowerBound) G) as Htot.
    { apply (total_lt _ _ G h Hh); [lia|]. intros g Hg. destruct (decide (final_size plans g ≤ lowerBound)) as [|Hgt]; [done|].
      destruct (Hsome g) as (m & Hm & He); [lia|]. by destruct (Hlow g h Hg Hh ltac:(lia) ltac:(lia) m Hm He (Hidle m Hm)). }
    rewrite total_const, (total_ext (groupSize t)), (so_total _ _ t (pn_sound t plans Hp)) in Htot; [lia|].
    intros g Hg. by apply final_size_groupSize.
Qed.
End result.

(** * On the cluster description *)
Section cluster.
Context `{RBTree} (d : db).
Hypotheses (Hwf : db_wf d) (Hok : cluster_ok d).

Definition live_groups (d : db) : list Z := valid_groups (map_to_list (db_group d)).*2.

Lemma groups_elem g : g ∈ live_groups d ↔ alive (db_group d) g.
Proof.
  unfold live_groups, valid_groups, alive. rewrite merge_sort_Permutation, list_elem_of_fmap. split.
  - intros (x & -> & Hx). apply list_elem_of_filter in Hx as [Hs Hx]. apply list_elem_of_fmap in Hx as ([k y] & -> & Hk).
    apply elem_of_map_to_list in Hk. cbn in *. rewrite (db_wf_group d Hwf k y Hk). eauto.
  - intros (x & Hx & Hs). exists x. split; [by rewrite (db_wf_group d Hwf g x Hx)|]. apply list_elem_of_filter. split; [done|].
    apply list_elem_of_fmap. exists (g, x). split; [done|]. by apply elem_of_map_to_list.
Qed.

Lemma groups_NoDup : NoDup (live_groups d).
Proof.
  unfold live_groups, valid_groups. rewrite merge_sort_Permutation.
  assert (g_Id <$> (map_to_list (db_group d)).*2 = (map_to_list (db_group d)).*1) as Hids.
  { rewrite <-list_fmap_compose. apply list_fmap_ext. intros i [k g] Hk%list_elem_of_lookup_2%elem_of_map_to_list. by apply (db_wf_group d Hwf). }
  eapply sublist_NoDup; [|apply fmap_sublist, sublist_filter]. rewrite Hids. apply NoDup_fst_map_to_list.
Qed.

Lemma groups_positive : 0 ∉ live_groups d.
Proof. intros (g & Hg & _)%groups_elem. destruct (ok_group d Hok 0 g Hg) as [? _]. lia. Qed.

Lemma all_slots_id i m : all_slots d !! i = Some m → sm_Id m = Z.of_nat i.
Proof. intros [_ ->]%all_slots_lookup. by apply slot_at_Id. Qed.

Lemma slots_ids : NoDup (sm_Id <$> all_slots d).
Proof.
  apply NoDup_alt. intros i j sid Hi Hj. rewrite list_lookup_fmap in Hi, Hj.
  apply fmap_Some in Hi as (m & Hm & ->), Hj as (m' & Hm' & Heq).
  apply all_slots_id in Hm, Hm'. lia.
Qed.

Lemma slots_fit : Forall (slot_fits (live_groups d)) (all_slots d).
Proof.
  apply Forall_lookup. intros i m Hm. destruct (ok_slots d Hok i m Hm) as [Hg Ha]. unfold slot_fits.
  case_decide as Hs; [by rewrite groups_elem|]. rewrite groups_elem. by destruct (sm_State m).
Qed.

Lemma cluster_plan : live_groups d ≠ [] → ∃ plans, rebalance_plan (all_slots d) (live_groups d) = Ok plans ∧
  rebalanced (live_groups d) (all_slots d) plans.
Proof.
  intros Hne. pose proof (length_all_slots d) as Hlen.
  destruct (rebalance_planned (live_groups d) (all_slots d) Hne groups_NoDup groups_positive Hlen slots_ids slots_fit) as (t & plans & Hp & Hpl).
  exists plans. split; [done|]. by eapply planned_rebalanced; eauto using groups_NoDup, groups_positive, slots_ids, slots_fit.
Qed.
End cluster.

(** * The operation *)
Section operation.
Context `{RBTree} `{Env} `{Config} `{UnicodeUpper} `{!EnvLaws}.

Lemma plans_elem (plans : gmap Z Z) sid : sid ∈ merge_sort Z.le (map_to_list plans).*1 → ∃ g, plans !! sid = Some g.
Proof. rewrite merge_sort_Permutation. intros ([k g] & -> & Hk)%list_elem_of_fmap. exists g. by apply elem_of_map_to_list. Qed.

Lemma SlotsRebalance_safe S confirm : safe (Inv S) (SlotsRebalance confirm).
Proof.
  apply (op_start_alive S None). intros d hosts Hwf Hd Hv. change (valid_groups _) with (live_groups d). cbn zeta.
  destruct (decide (live_groups d = [])) as [Hn|Hn]; [rewrite Hn; apply safe_fail|].
  destruct (cluster_plan d Hwf Hd Hn) as (plans & Hp & Hr).
  assert (safe (body S (frame_of d (alive (db_group d)) None) [])
    (lift (rebalance_plan (ctx_slots (ctx_db d hosts)) (live_groups d)) ≫= λ plans,
       if confirm then start_actions (λ sid, at0 plans sid) (merge_sort Z.le (map_to_list plans).*1) (mret tt) ;; mret plans
       else mret plans)) as Hsafe; [|by destruct (live_groups d)].
  change (ctx_slots (ctx_db d hosts)) with (all_slots d). apply safe_lift_bind; [by rewrite Hp|]. intros plans' Hp'. assert (plans' = plans) as -> by congruence. clear Hp'.
  destruct confirm; [|apply safe_ret]. apply safe_bind; [|intros; apply safe_ret].
  apply start_actions_safe; [done| |intros; apply safe_ret]. intros sid (g & Hg)%plans_elem.
  destruct (rl_moves _ _ _ Hr sid g Hg) as (HgG & m & Hm & <- & Hst & _). split.
  - unfold at0. rewrite Hg. cbn. by apply groups_elem.
  - by eapply nothing_serving.
Qed.

End operation.
