(* ===== verification/TopomSafety.v ===== *)
(** What every run of the dashboard satisfies.

    [op] lists the operations of the dashboard; [reach] the worlds it can get to from
    a store and tables that fit together, by operations in any order, restarts of the
    dashboard and exits of proxies.  The theorems: no operation panics, the cluster
    description stays well formed, a fresh context is the content of the store, and
    while slots migrate two proxies that both serve a slot agree on its group. *)

From S2P Require Import Prelude Models TopomContext TopomState TopomCache TopomFrame.
From S2P Require Import TopomProxy TopomSlots TopomGroup TopomInv TopomRules.
From S2P Require Import TopomSlotOps TopomGroupOps TopomRebalance RebalanceTheorems.
Section proxies.
Context `{Env} `{Config} `{UnicodeUpper} `{!EnvLaws}.
Abbreviation B S F D := (body S F D).

Lemma reinitProxy_safe S F D p :
  synced F → fr_proxies F (p_Token p) → safe (B S F D) (reinitProxy p).
Proof.
  intros HF Hp. apply safe_cur_ctx. intros ctx Hv.
  destruct (toSlotSlice_total S F ctx (fr_alive F) (ctx_slots ctx) (Some p) Hv) as [l Hl].
  { intros m Hm. by apply (ctx_view_elem S F ctx). }
  apply safe_lift_bind; [by rewrite Hl|]. intros l' Hl'. apply safe_bind.
  { apply safe_FillSlots; [done|]. eapply pushable_slots; [done|].
    intros m. by apply ctx_view_elem. }
  intros ok. destruct ok; cbn; [|apply safe_fail].
  apply safe_bind; [apply safe_call|]. intros _. apply safe_bind.
  { destruct (shouldSyncProxyQPSLimit _); [apply safe_call|apply safe_ret]. }
  intros _. apply safe_bind; [apply safe_call|]. intros _. apply safe_call.
Qed.

(** Registering a proxy, then filling it. *)
Lemma register_settled S F D p what w :
  synced F → B S F D w →
  wp (defer (dirtyProxyCache (p_Token p)) (store_write what (db_set_proxy p) ;; reinitProxy p))
     (λ r w', r ≠ Panic ∧ settled S D w') w.
Proof.
  intros HF Hw. apply wp_defer_settled.
  apply (body_weaken _ _ _ (HookProxy (p_Token p))) in Hw; [|done].
  set (D' := HookProxy (p_Token p) :: D) in *. unfold store_write. wp_step. wp_step.
  apply wp_next_tick.
  assert (B S F D' (set_tick (Datatypes.S (w_tick w)) w)) as Hw1 by (by apply (body_other _ _ _ w)).
  pose proof (body_store_proxy S F D' p _ (list_elem_of_here _ _) Hw1) as Hw2.
  destruct (env_write _) as [|[]]; wp_steps.
  - eapply safe_settled; [by apply (reinitProxy_safe S (fr_register (p_Token p) F) D'); [|left]|].
    exact Hw2.
  - split; [done|]. by eapply body_settled.
  - split; [done|]. by eapply body_settled.
Qed.

Lemma fetch_model_safe S F D addr : safe (B S F D) (fetch_model addr).
Proof. apply safe_tick_bind. intros t. destruct (env_model t); auto with safe. Qed.

(** Steps that keep [body], then one that settles. *)
Lemma wp_safe_bind S F D {A C} (m : T A) (k : A → T C) w :
  safe (B S F D) m → B S F D w →
  (∀ a w', B S F D w' → wp (k a) (λ r w'', r ≠ Panic ∧ settled S D w'') w') →
  wp (m ≫= k) (λ r w', r ≠ Panic ∧ settled S D w') w.
Proof.
  intros Hm Hw Hk. wp_step. eapply wp_mono; [by apply Hm|].
  intros [a|e|] w' [? Hb]; [by apply Hk|split; [done|by eapply body_settled]|done].
Qed.

Lemma op_start_frame S {A} (k : context → T A) :
  (∀ d hosts w, db_wf d → cluster_ok d → w_db w = d →
     ctx_view S (frame_of d (alive (db_group d)) None) (ctx_db d hosts) →
     B S (frame_of d (alive (db_group d)) None) [] w →
     wp (k (ctx_db d hosts)) (λ r w', r ≠ Panic ∧ Inv S w') w) →
  safe (Inv S) (newContext ≫= k).
Proof.
  intros Hk. apply op_start_wp. intros d hosts Hwf Hd. exists (alive (db_group d)), None.
  pose proof (frame_alive d Hd). split; [done|]. intros w Hdb Hw.
  apply Hk; try done. by apply ctx_db_view.
Qed.

Lemma CreateProxy_safe S addr : safe (Inv S) (CreateProxy addr).
Proof.
  apply op_start_frame. intros d hosts w _ _ _ Hv Hw.
  eapply wp_safe_bind; [apply fetch_model_safe|done|]. intros p w1 Hw1.
  eapply wp_safe_bind; [apply safe_call|done|]. intros _ w2 Hw2. cbn.
  destruct (db_proxy d !! p_Token p); [wp_step; split; [done|by eapply body_settled]|].
  by apply (register_settled S (frame_of d (alive (db_group d)) None) [] (p_set_Id _ p)).
Qed.

Lemma OnlineProxy_safe S addr : safe (Inv S) (OnlineProxy addr).
Proof.
  apply op_start_frame. intros d hosts w _ _ _ Hv Hw.
  eapply wp_safe_bind; [apply fetch_model_safe|done|]. intros p w1 Hw1.
  eapply wp_safe_bind; [apply safe_call|done|]. intros _ w2 Hw2. cbn.
  destruct (db_proxy d !! p_Token p) as [x|].
  - by apply (register_settled S (frame_of d (alive (db_group d)) None) [] (p_set_Id (p_Id x) p)).
  - by apply (register_settled S (frame_of d (alive (db_group d)) None) [] (p_set_Id _ p)).
Qed.

Lemma ReinitProxy_safe S token : safe (Inv S) (ReinitProxy token).
Proof.
  apply (op_start_alive S None). intros d hosts Hwf Hd Hv.
  apply safe_lift_bind; [unfold getProxy; by destruct (_ !! _)|]. intros p Hp.
  apply reinitProxy_safe; [done|]. unfold getProxy in Hp. cbn in *.
  destruct (db_proxy d !! token) eqn:Ht; simplify_eq. unfold registered.
  by rewrite (db_wf_proxy _ Hwf _ _ Ht), Ht.
Qed.

(** Dropping the table of a proxy. *)
Lemma tables_ok_delete d tabs t : tables_ok d tabs → tables_ok d (delete t tabs).
Proof. intros Ht t' tb [_ Htb]%lookup_delete_Some. by apply Ht. Qed.

Lemma RemoveProxy_safe S token force :
  (S = true → force = false) → safe (Inv S) (RemoveProxy token force).
Proof.
  intros Hforce. apply op_start_frame. intros d hosts w Hwf Hd Hdb Hv Hw.
  apply wp_lift_bind; [|intros; split; [done|by eapply body_settled]|
    unfold getProxy; by destruct (_ !! _)].
  intros p Hp. unfold getProxy in Hp. cbn in Hp.
  destruct (db_proxy d !! token) as [p'|] eqn:Ht; simplify_eq.
  pose proof (db_wf_proxy _ Hwf _ _ Ht) as Htok. set (F := frame_of _ _ _) in *.
  unfold Shutdown. wp_step. wp_step. apply wp_next_tick.
  assert (B S F [] (set_tick (Datatypes.S (w_tick w)) w)) as Hw1 by (by apply (body_other _ _ _ w)).
  set (w1 := set_tick _ w) in *. clearbody w1.
  assert (∀ w2, B S F [] w2 → (S = true → w_tables w2 !! p_Token p = None) →
    wp (defer (dirtyProxyCache (p_Token p)) (storeRemoveProxy p))
       (λ r w', r ≠ Panic ∧ Inv S w') w2) as Hrm.
  { intros w2 Hw2 Hgone. apply wp_defer_settled.
    apply (body_weaken _ _ _ (HookProxy (p_Token p))) in Hw2; [|done].
    assert (settled S [HookProxy (p_Token p)]
      (set_db (db_del_proxy (p_Token p) (w_db w2)) w2)) as Hset.
    { pose proof (body_settled _ _ _ _ Hw2) as [S1 [S2a S2b S2c] S3 S4].
      assert (S = true → tables_ok (db_del_proxy (p_Token p) (w_db w2)) (w_tables w2)) as Ht'.
      { intros HS t tb Htb. destruct (S3 HS t tb Htb) as [? ?]. split; [|done]. cbn.
        rewrite lookup_delete_ne; [done|]. intros <-. by rewrite Hgone in Htb. }
      split; [apply coh_remove_proxy; [by constructor|done]|by split|done|by apply log_cons]. }
    unfold storeRemoveProxy, store_write. wp_step. apply wp_next_tick.
    destruct (env_write _) as [|[]]; wp_steps; (split; [done|]).
    - destruct Hset. by split.
    - destruct Hset. by split.
    - eapply body_settled. by apply (body_other _ _ _ w2). }
  destruct (env_call _); wp_steps; cbn.
  - apply Hrm; [|intros _; cbn; by rewrite lookup_delete_eq]. destruct Hw1 as [B1 B2 B2' B3 B4 B5 B6].
    split; try done.
    + intros HS. by apply tables_ok_delete, B5.
    + apply log_cons; [|done]. intros HS. by apply tables_ok_delete, B5.
  - destruct force; cbn.
    + apply Hrm; [done|]. intros HS. by specialize (Hforce HS).
    + wp_step. split; [done|]. by eapply body_settled.
Qed.
End proxies.

(** * The life cycle *)
Section life.
Context `{Env} `{Config} `{UnicodeUpper} `{!EnvLaws}.

Lemma Inv_lock S l w : Inv S w → Inv S (set_db (db_set_lock l (w_db w)) w).
Proof.
  intros [I1 [I2a I2b I2c] I3 I4]. split; [by apply coh_store_lock|by split|done|].
  by apply log_cons.
Qed.

Lemma Start_safe S model routines : safe (Inv S) (Start model routines).
Proof.
  apply safe_gets_bind. intros w. destruct (w_closed w), (w_online w); auto with safe.
  apply safe_bind.
  { apply safe_gets_bind. intros w'. apply safe_Inv_tick. intros t.
    destruct (db_lock _), (env_write t) as [|[]]; auto with safe.
    - apply safe_modify. intros. by apply Inv_lock.
    - apply safe_bind; [apply safe_modify; intros; by apply Inv_lock|]. auto with safe. }
  intros _. apply safe_bind; [apply safe_modify; intros ?; by apply Inv_other|]. intros _.
  destruct routines; [|apply safe_ret]. apply safe_newContext. intros ctx.
  unfold rewatchSentinels. destruct (se_Servers _); [|apply safe_ret].
  apply safe_modify. intros ?. by apply Inv_other.
Qed.

Lemma Close_safe S : safe (Inv S) Close.
Proof.
  apply safe_gets_bind. intros w. destruct (w_closed w); auto with safe.
  apply safe_bind; [apply safe_modify; intros ?; by apply Inv_other|]. intros _.
  destruct (w_online w); auto with safe. apply safe_Inv_tick. intros t.
  destruct (env_write t) as [|[]]; auto with safe.
  - apply safe_modify. intros. by apply Inv_lock.
  - apply safe_bind; [apply safe_modify; intros; by apply Inv_lock|]. auto with safe.
Qed.

Lemma Reload_safe S : safe (Inv S) Reload.
Proof.
  apply (op_start_alive S None). intros d hosts _ _ _.
  apply safe_defer_hook; [done|apply safe_ret].
Qed.

Lemma Slots_safe S : safe (Inv S) Slots.
Proof.
  apply (op_start_alive S None). intros d hosts Hwf Hd Hv.
  destruct (toSlotSlice_total S _ (ctx_db d hosts) (alive (db_group d)) (all_slots d) None Hv)
    as [l Hl].
  - intros m [i Hi]%list_elem_of_lookup. by eapply ok_slots.
  - intros w Hw. apply wp_lift. cbn. by rewrite Hl.
Qed.

Lemma SetSlotActionInterval_safe S us : safe (Inv S) (SetSlotActionInterval us).
Proof. apply safe_modify. intros w. by apply Inv_other. Qed.

Lemma New_Inv S w : Inv S w → Inv S (New w).
Proof.
  intros [[I1 _] I2 I3 I4]. split; try done. split; [done|].
  split; cbn; try done; try by right; left. intros sid Hs. by apply elem_of_nil in Hs.
Qed.

(** A proxy process that exits on its own takes its table with it. *)
Definition proxy_exit (t : string) (w : world) : world :=
  set_tables (delete t (w_tables w)) w.

Lemma proxy_exit_Inv S t w : Inv S w → Inv S (proxy_exit t w).
Proof.
  intros [I1 I2 I3 I4].
  assert (S = true → tables_ok (w_db w) (delete t (w_tables w))) as Ht.
  { intros HS. by apply tables_ok_delete, I3. }
  split; try done. by apply log_cons.
Qed.
End life.

(** * Operations and runs *)

Inductive op :=
| OpStart (model : TopomModel) (routines : bool)
| OpClose
| OpReload
| OpSlots
| OpSetSlotActionInterval (us : Z)
| OpSetSlotActionDisabled (b : bool)
| OpSlotCreateAction (sid gid : Z)
| OpSlotCreateActionSome (from to n : Z)
| OpSlotCreateActionRange (beg end_ gid : Z) (must : bool)
| OpSlotRemoveAction (sid : Z)
| OpSlotsRebalance (confirm : bool)
| OpSlotActionPrepare
| OpPlanActions (n : nat) (st : round)
| OpNewSlotActionExecutor (sid : Z)
| OpRunExecutor (e : executor) (db : Z)
| OpSlotActionComplete (sid : Z)
| OpSlotsAssignGroup (slots : list (option SlotMapping))
| OpSlotsAssignOffline (slots : list (option SlotMapping))
| OpCreateGroup (gid : Z)
| OpRemoveGroup (gid : Z)
| OpResyncGroup (gid : Z)
| OpResyncGroupAll
| OpGroupAddServer (gid : Z) (dc addr : string)
| OpGroupDelServer (gid : Z) (addr : string)
| OpGroupPromoteServer (gid : Z) (addr : string)
| OpTrySwitchGroupMaster (gid : Z) (master : string) (rid : string → string)
| OpSwitchMasters (masters : gmap Z string)
| OpEnableReplicaGroups (gid : Z) (addr : string) (value : bool)
| OpEnableReplicaGroupsAll (value : bool)
| OpSyncCreateAction (addr : string)
| OpSyncRemoveAction (addr : string)
| OpProcessSyncAction
| OpSyncActionComplete (addr : string) (failed : bool)
| OpAddSentinel (addr : string)
| OpDelSentinel (addr : string) (force : bool)
| OpResyncSentinels
| OpCreateProxy (addr : string)
| OpOnlineProxy (addr : string)
| OpReinitProxy (token : string)
| OpRemoveProxy (token : string) (force : bool).

Section runs.
Context `{Env} `{Config} `{UnicodeUpper} `{RBTree}.

Definition run_op (o : op) : T unit :=
  match o with
  | OpStart model routines => Start model routines
  | OpClose => Close
  | OpReload => Reload
  | OpSlots => Slots ;; mret tt
  | OpSetSlotActionInterval us => SetSlotActionInterval us
  | OpSetSlotActionDisabled b => SetSlotActionDisabled b
  | OpSlotCreateAction sid gid => SlotCreateAction sid gid
  | OpSlotCreateActionSome from to n => SlotCreateActionSome from to n
  | OpSlotCreateActionRange beg end_ gid must => SlotCreateActionRange beg end_ gid must
  | OpSlotRemoveAction sid => SlotRemoveAction sid
  | OpSlotsRebalance confirm => SlotsRebalance confirm ;; mret tt
  | OpSlotActionPrepare => SlotActionPrepare ;; mret tt
  | OpPlanActions n st => plan_actions n st ;; mret tt
  | OpNewSlotActionExecutor sid => newSlotActionExecutor sid ;; mret tt
  | OpRunExecutor e db => run_executor e db ;; mret tt
  | OpSlotActionComplete sid => SlotActionComplete sid
  | OpSlotsAssignGroup slots => SlotsAssignGroup slots
  | OpSlotsAssignOffline slots => SlotsAssignOffline slots
  | OpCreateGroup gid => CreateGroup gid
  | OpRemoveGroup gid => RemoveGroup gid
  | OpResyncGroup gid => ResyncGroup gid
  | OpResyncGroupAll => ResyncGroupAll
  | OpGroupAddServer gid dc addr => GroupAddServer gid dc addr
  | OpGroupDelServer gid addr => GroupDelServer gid addr
  | OpGroupPromoteServer gid addr => GroupPromoteServer gid addr
  | OpTrySwitchGroupMaster gid master rid => trySwitchGroupMaster gid master rid
  | OpSwitchMasters masters => SwitchMasters masters
  | OpEnableReplicaGroups gid addr value => EnableReplicaGroups gid addr value
  | OpEnableReplicaGroupsAll value => EnableReplicaGroupsAll value
  | OpSyncCreateAction addr => SyncCreateAction addr
  | OpSyncRemoveAction addr => SyncRemoveAction addr
  | OpProcessSyncAction => ProcessSyncAction
  | OpSyncActionComplete addr failed => SyncActionComplete addr failed
  | OpAddSentinel addr => AddSentinel addr
  | OpDelSentinel addr force => DelSentinel addr force
  | OpResyncSentinels => ResyncSentinels
  | OpCreateProxy addr => CreateProxy addr
  | OpOnlineProxy addr => OnlineProxy addr
  | OpReinitProxy token => ReinitProxy token
  | OpRemoveProxy token force => RemoveProxy token force
  end.

(** The operations that bypass the migration protocol. *)
Definition forced (o : op) : bool :=
  match o with
  | OpSlotsAssignGroup _ | OpSlotsAssignOffline _ => true
  | OpRemoveProxy _ force => force
  | _ => false
  end.

(** The requests with a null slot, which make [SlotsAssignGroup] and [SlotsAssignOffline]
    dereference a nil pointer. *)
Definition null_slot (o : op) : bool :=
  match o with OpSlotsAssignGroup slots | OpSlotsAssignOffline slots => negb (no_null slots) | _ => false end.

(** Where a run starts: a store whose documents are well formed and filed under their
    own ids, tables that fit them, a dashboard that has read nothing. *)
Record initial (S : bool) (w : world) : Prop := {
  init_cache : w_cache w = empty_cache;
  init_db : db_wf (w_db w);
  init_cluster : cluster_ok (w_db w);
  init_tables : S = true → tables_ok (w_db w) (w_tables w);
  init_log : w_log w = []
}.

(** Runs of the dashboard; with [S] no forced operation is among them. *)
Inductive reach (S : bool) : world → Prop :=
| reach_init w : initial S w → reach S w
| reach_op w o : reach S w → (S = true → forced o = false) → reach S (run_op o w).2
| reach_restart w : reach S w → reach S (New w)
| reach_proxy_exit w t : reach S w → reach S (proxy_exit t w).

Context `{!EnvLaws}.

Lemma safe_unit {A} S (m : T A) : safe (Inv S) m → safe (Inv S) (m ;; mret tt).
Proof. intros Hm. apply safe_bind; [done|auto with safe]. Qed.

Lemma run_op_safe S o : (S = true → forced o = false) → null_slot o = false → safe (Inv S) (run_op o).
Proof.
  intros Hf Hnull. destruct o; cbn [run_op forced null_slot] in *; try apply safe_unit;
    auto using Start_safe, Close_safe, Reload_safe, Slots_safe, SetSlotActionInterval_safe,
      SlotCreateAction_safe, SlotCreateActionSome_safe, SlotCreateActionRange_safe,
      SlotRemoveAction_safe, SlotsRebalance_safe, SlotActionPrepare_safe, plan_actions_safe,
      newSlotActionExecutor_safe, run_executor_safe, SlotActionComplete_safe;
    auto using CreateGroup_safe, RemoveGroup_safe, ResyncGroup_safe, ResyncGroupAll_safe,
      GroupAddServer_safe, GroupDelServer_safe, GroupPromoteServer_safe,
      trySwitchGroupMaster_safe, SwitchMasters_safe, EnableReplicaGroups_safe,
      EnableReplicaGroupsAll_safe, SyncCreateAction_safe, SyncRemoveAction_safe,
      ProcessSyncAction_safe, SyncActionComplete_safe;
    auto using AddSentinel_safe, DelSentinel_safe, ResyncSentinels_safe, CreateProxy_safe,
      OnlineProxy_safe, ReinitProxy_safe, RemoveProxy_safe.
  - apply safe_modify. intros w. by apply Inv_other.
  - destruct S; [by specialize (Hf eq_refl)|]. by apply SlotsAssignGroup_safe, negb_false_iff.
  - destruct S; [by specialize (Hf eq_refl)|]. by apply SlotsAssignOffline_safe, negb_false_iff.
Qed.
(** The invariant survives a panic, too. *)
Lemma run_op_keeps S o w : (S = true → forced o = false) → Inv S w → Inv S (run_op o w).2.
Proof.
  intros Hf Hw. destruct (null_slot o) eqn:Hn; [|by apply (run_op_safe S o Hf Hn w Hw)].
  destruct o; try discriminate Hn; (destruct S; [by specialize (Hf eq_refl)|]); [by apply SlotsAssignGroup_keeps|by apply SlotsAssignOffline_keeps].
Qed.

Lemma initial_Inv S w : initial S w → Inv S w.
Proof.
  intros [I1 I2 I3 I4 I5]. split; [|done|done|by rewrite I5; intros _ ? ? ?%elem_of_nil].
  split; [done|]. rewrite I1. split; cbn; try done; try by right; left.
  intros sid Hs. by apply elem_of_nil in Hs.
Qed.

Lemma reach_Inv S w : reach S w → Inv S w.
Proof.
  induction 1 as [w Hi|w o _ IH Hf|w _ IH|w t _ IH].
  - by apply initial_Inv.
  - by apply run_op_keeps.
  - by apply New_Inv.
  - by apply proxy_exit_Inv.
Qed.
End runs.
