(* ===== verification/TopomTheorems.v ===== *)
(** The main theorems on runs of the dashboard, with concrete runs as witnesses. *)

From S2P Require Import Prelude Models TopomContext TopomState TopomCache TopomFrame.
From S2P Require Import TopomProxy TopomSlots TopomGroup TopomInv TopomRules.
From S2P Require Import TopomSlotOps TopomGroupOps TopomRebalance TopomSafety.
(** * A concrete cluster for the witnesses *)

(** An environment in which every call succeeds. *)
Definition calm : Env := {|
  env_read _ := true;
  env_write _ := WriteOk;
  env_fill _ := FillOk;
  env_call _ := true;
  env_model _ := None;
  env_migrate _ := Some 0;
  env_keyspace _ := Some [];
  env_runid _ _ := ""%string;
  env_resolve _ _ := None;
  env_now _ := ""%string;
  env_range _ l := l;
  env_range_tokens _ l := l
|}.

Lemma calm_laws : @EnvLaws calm.
Proof. by split. Qed.

Definition demo_config : Config := {|
  cfg_MigrationMethod := "semi-async";
  cfg_MigrationParallelSlots := 2;
  cfg_BackendAuthUsername := ""
|}.
Definition demo_upper : UnicodeUpper := λ s, s.

Definition demo_proxy (t : string) : Proxy :=
  mkProxy 1 t "" "" "" "" "" "" 0 "" "" "" "".
Definition demo_server (a : string) : GroupServer :=
  mkGroupServer a "" (mkServerAction 0 ActionNothing) false.
Definition demo_db (m : SlotMapping) : db :=
  mkDb {[ 0 := m ]}
    {[ 1 := new_group 1 [demo_server "a:1"; demo_server "a:2"];
       2 := new_group 2 [demo_server "b:1"] ]}
    {[ "p"%string := demo_proxy "p"; "q"%string := demo_proxy "q" ]} None None None None.

(** Two groups, two proxies, slot 0 as [m] says and as both proxies were told [e]. *)
Definition demo_world (m : SlotMapping) (e : Slot) : world :=
  mkWorld (demo_db m) empty_cache false false false 0 0 None
    {[ "p"%string := {[ 0 := e ]}; "q"%string := {[ 0 := e ]} ]} (λ _, None) 0 [].

Definition demo_slot (locked : bool) (b f : Z) : Slot :=
  mkSlot 0 locked "" b "" f 0 [].

Lemma slot_at_new d i : db_slots d !! i = None → slot_at d i = new_mapping i 0.
Proof. unfold slot_at. by intros ->. Qed.

Lemma demo_cluster m :
  sm_Id m = 0 → slot_ok (λ g, g = 1 ∨ g = 2) m → db_wf (demo_db m) ∧ cluster_ok (demo_db m).
Proof.
  intros Hid Hok. split.
  - split; cbn; intros k x.
    + intros [<- <-]%lookup_singleton_Some. done.
    + intros [[<- <-]|[_ [<- <-]%lookup_singleton_Some]]%lookup_insert_Some; done.
    + intros [[<- <-]|[_ [<- <-]%lookup_singleton_Some]]%lookup_insert_Some; done.
  - split; cbn.
    + intros i x [_ ->]%all_slots_lookup. unfold slot_at, demo_db. cbn [db_slots].
      destruct (decide (Z.of_nat i = 0)) as [->|Hi].
      * rewrite lookup_singleton_eq. cbn. eapply slot_ok_mono; [|exact Hok].
        intros k [->| ->]; eexists; (split; [by vm_compute|done]).
      * rewrite lookup_singleton_ne by done. split; [by left|done].
    + intros k g [[<- <-]|[_ [<- <-]%lookup_singleton_Some]]%lookup_insert_Some;
        (split; [by cbn|split; [done|split; [|done]]]); refine (bool_decide_unpack _ _); by vm_compute.
    + intros k1 k2 g1 g2 a H1 H2 Ha Hb.
      apply lookup_insert_Some in H1 as [[<- <-]|[_ [<- <-]%lookup_singleton_Some]];
      apply lookup_insert_Some in H2 as [[<- <-]|[_ [<- <-]%lookup_singleton_Some]]; try done;
      exfalso; revert Ha Hb; cbn; rewrite !elem_of_cons, !elem_of_nil; intuition congruence.
Qed.

Lemma demo_initial m e :
  sm_Id m = 0 → slot_ok (λ g, g = 1 ∨ g = 2) m → admits (phase_of m) e →
  initial true (demo_world m e).
Proof.
  intros Hid Hok Ha. destruct (demo_cluster m Hid Hok) as [Hwf Hcl]. split; try done.
  intros _ t tb Htb.
  assert (tb = {[ 0 := e ]} ∧ (t = "p" ∨ t = "q")%string) as [-> Ht].
  { cbn in Htb. apply lookup_insert_Some in Htb as [[<- <-]|[_ [<- <-]%lookup_singleton_Some]]; auto. }
  split; [destruct Ht as [->| ->]; by eexists|].
  intros i x [<- <-]%lookup_singleton_Some. split; [done|]. exact Ha.
Qed.

Definition migrating_0 : SlotMapping := mkSlotMapping 0 1 (mkSlotAction 1 ActionMigrating 2).

(** * Safety of runs *)

(** The state of store and tables now, or at any earlier moment of the run. *)
Definition moment (w : world) (d : db) (tabs : gmap string table) : Prop :=
  (d = w_db w ∧ tabs = w_tables w) ∨ (d, tabs) ∈ w_log w.

(** What a proxy holds for a slot. *)
Definition entry (tabs : gmap string table) (t : string) (i : Z) : option Slot :=
  tb ← tabs !! t; (tb : table) !! i.

Section safety.
Context `{Env} `{Config} `{UnicodeUpper} `{RBTree} `{!EnvLaws}.

Lemma moment_ok w d tabs : reach true w → moment w d tabs → tables_ok d tabs.
Proof.
  intros [_ _ Ht Hl]%reach_Inv [[-> ->]|Hin]; [by apply Ht|by apply Hl].
Qed.

Lemma moment_admits w d tabs t i e :
  reach true w → moment w d tabs → entry tabs t i = Some e →
  admits (phase_of (slot_at d i)) e.
Proof.
  intros Hw Hm (tb & Htb & He)%bind_Some.
  destruct (moment_ok w d tabs Hw Hm t tb Htb) as [_ Ha]. by apply (Ha i e He).
Qed.

(** C1: two proxies that both serve a slot unlocked agree on the group they send its
    keys to, at every moment of every run without forced operations: through
    migrations, failed pushes, failed or half-failed writes, restarts of the dashboard
    and exits of proxies. *)
Theorem migration_agreement w d tabs t1 t2 i e1 e2 :
  reach true w → moment w d tabs →
  entry tabs t1 i = Some e1 → entry tabs t2 i = Some e2 →
  slot_Locked e1 = false → slot_Locked e2 = false →
  slot_BackendAddrGroupId e1 = slot_BackendAddrGroupId e2.
Proof.
  intros Hw Hm He1 He2 Hu1 Hu2.
  pose proof (moment_admits w d tabs t1 i e1 Hw Hm He1) as Ha1.
  pose proof (moment_admits w d tabs t2 i e2 Hw Hm He2) as Ha2.
  destruct (phase_of (slot_at d i)); cbn in Ha1, Ha2; [|..|done]; try (destruct_and!; congruence).
  destruct Ha1 as [[? _]|(_ & _ & ?)], Ha2 as [[? _]|(_ & _ & ?)]; congruence.
Qed.

(** C2: in every run without forced operations, from the moment the store says that a slot
    is prepared or migrating, every proxy that has an entry for it sends its keys to the
    target and knows the source to fetch the missing ones from. *)
Theorem migrating_knows_source w d tabs t i e :
  reach true w → moment w d tabs → entry tabs t i = Some e →
  sm_State (slot_at d i) = ActionPrepared ∨ sm_State (slot_at d i) = ActionMigrating →
  slot_BackendAddrGroupId e = sm_TargetId (slot_at d i) ∧
  slot_MigrateFromGroupId e = sm_GroupId (slot_at d i).
Proof.
  intros Hw Hm He Hst. pose proof (moment_admits w d tabs t i e Hw Hm He) as Ha.
  unfold phase_of in Ha. by destruct Hst as [Hst|Hst]; rewrite Hst in Ha.
Qed.


(** C4: the cluster description stays well formed: every group a slot is in or moves to
    exists and has a server, action and promotion states are ones the code knows,
    promotion indexes are in range, and no server address is in two places. *)
Theorem cluster_well_formed S w : reach S w → cluster_ok (w_db w).
Proof. by intros [_ Hc _ _]%reach_Inv. Qed.

(** C5: the slots, groups, proxies and sentinels of the context an operation starts from are
    exactly those the store holds, although they are read through a cache that operations
    mutate and invalidate: no stale entry survives, whatever writes failed or took effect
    after all.  (Not so the ACL and the rate limit, whose updates mark the cache only when
    they succeed.) *)
Theorem newContext_fresh S w :
  reach S w →
  wp newContext (λ r w', r ≠ Panic ∧ w_db w' = w_db w ∧ w_tables w' = w_tables w ∧
    ∀ ctx, r = Ok ctx → ctx_slots ctx = all_slots (w_db w) ∧ ctx_group ctx = db_group (w_db w) ∧
      ctx_proxy ctx = db_proxy (w_db w) ∧ ctx_sentinel ctx = default zero_Sentinel (db_sentinel (w_db w))) w.
Proof.
  intros [Hc _ _ _]%reach_Inv. apply newContext_wp; [done|..].
  - intros w' _ (Hdb & _ & _ & _ & _ & _ & _ & Ht & _) _ _ _. split_and!; try done.
    by intros ctx [= <-].
  - intros e w' _ (Hdb & _ & _ & _ & _ & _ & _ & Ht & _). by split_and!.
Qed.
End safety.

(** Witnesses: slot 0 in the middle of its migration from group 1 to group 2. *)
Definition w_migrating : world := demo_world migrating_0 (demo_slot false 2 1).

Lemma w_migrating_reach : @reach calm demo_config demo_upper list_tree true w_migrating.
Proof. apply reach_init, demo_initial; [done|split; [by right; left|by right]|done]. Qed.

Lemma migration_agreement_witness :
  entry (w_tables w_migrating) "p" 0 = Some (demo_slot false 2 1) ∧
  slot_BackendAddrGroupId (demo_slot false 2 1) = slot_BackendAddrGroupId (demo_slot false 2 1).
Proof.
  split; [by vm_compute|].
  apply (@migration_agreement calm demo_config demo_upper list_tree calm_laws w_migrating
    (w_db w_migrating) (w_tables w_migrating) "p" "q" 0 (demo_slot false 2 1)
    (demo_slot false 2 1) w_migrating_reach);
    [by left|by vm_compute|by vm_compute|done|done].
Defined.

Lemma migrating_knows_source_witness :
  sm_State (slot_at (w_db w_migrating) 0) = ActionMigrating ∧
  slot_BackendAddrGroupId (demo_slot false 2 1) = 2 ∧
  slot_MigrateFromGroupId (demo_slot false 2 1) = 1.
Proof.
  split; [by vm_compute|].
  apply (@migrating_knows_source calm demo_config demo_upper list_tree calm_laws w_migrating
    (w_db w_migrating) (w_tables w_migrating) "p" 0 (demo_slot false 2 1) w_migrating_reach);
    [by left|by vm_compute|right; by vm_compute].
Defined.


Lemma cluster_well_formed_witness : cluster_ok (w_db w_migrating).
Proof.
  apply (@cluster_well_formed calm demo_config demo_upper list_tree calm_laws true w_migrating
    w_migrating_reach).
Defined.

Lemma newContext_fresh_witness :
  wp (@newContext calm demo_config demo_upper) (λ r w', r ≠ Panic ∧
    w_db w' = w_db w_migrating ∧ w_tables w' = w_tables w_migrating ∧
    ∀ ctx, r = Ok ctx → ctx_slots ctx = all_slots (w_db w_migrating) ∧ ctx_group ctx = db_group (w_db w_migrating) ∧
      ctx_proxy ctx = db_proxy (w_db w_migrating) ∧ ctx_sentinel ctx = default zero_Sentinel (db_sentinel (w_db w_migrating))) w_migrating.
Proof.
  apply (@newContext_fresh calm demo_config demo_upper list_tree calm_laws true w_migrating
    w_migrating_reach).
Defined.

(** A whole migration of slot 0 in the calm environment: afterwards the slot is in group
    2, and both proxies serve it from there and have forgotten group 1. *)
Definition demo_ops : list op :=
  [OpStart (mkTopomModel "" "" "" "" 0 "" "") false; OpSlotCreateAction 0 2;
   OpSlotActionPrepare; OpNewSlotActionExecutor 0; OpRunExecutor (ExecMigrate 0 "a:1" "b:1") 0;
   OpSlotActionComplete 0].
Definition demo_run : world :=
  foldl (λ w o, (@run_op calm demo_config demo_upper list_tree o w).2)
    (demo_world (new_mapping 0 1) (demo_slot false 1 0)) demo_ops.

Example demo_migration :
  slot_at (w_db demo_run) 0 = new_mapping 0 2 ∧
  (slot_BackendAddr <$> entry (w_tables demo_run) "p" 0) = Some "b:1"%string ∧
  (slot_MigrateFrom <$> entry (w_tables demo_run) "q" 0) = Some ""%string.
Proof. by vm_compute. Qed.

(** The exception of [no_panic]: a forced assignment of a null slot. *)
Example null_slot_panics :
  let w := (@run_op calm demo_config demo_upper list_tree (OpStart (mkTopomModel "" "" "" "" 0 "" "") false) w_migrating).2 in
  (@run_op calm demo_config demo_upper list_tree (OpSlotsAssignGroup [None]) w).1 = Panic ∧
  (@run_op calm demo_config demo_upper list_tree (OpSlotsAssignOffline [None]) w).1 = Panic.
Proof. by vm_compute. Qed.
