(* ===== verification/TopomFunctional.v ===== *)
(** What the operations of the dashboard do to the store.

    Each theorem describes the store after an operation that returned without error,
    or the reason of an error; the safety theorems (TopomTheorems.v) cover every
    other path. *)

From S2P Require Import Prelude Models TopomContext TopomState TopomCache TopomFrame.
From S2P Require Import TopomProxy TopomSlots TopomGroup TopomInv TopomRules.
From S2P Require Import TopomSlotOps TopomGroupOps TopomRebalance RebalanceTheorems TopomSafety TopomTheorems.
(** * Picking an action *)

(** A scan for the action with the least index: what it keeps is accepted and no
    accepted candidate seen has a smaller index. *)
Definition candidate (accept filt : SlotMapping → bool) (m : SlotMapping) : Prop :=
  sm_State m ≠ ActionNothing ∧ filt m = true ∧ accept m = true.

Lemma minActionIndex_min accept filt i slots picked :
  let r := minActionIndex accept filt i slots picked in
  (∀ k p, picked = Some (k, p) → ∃ k' m, r = Some (k', m) ∧ sm_Index m ≤ sm_Index p) ∧
  (∀ x, x ∈ slots → candidate accept filt x →
     ∃ k m, r = Some (k, m) ∧ sm_Index m ≤ sm_Index x).
Proof.
  cbn zeta. revert i picked. induction slots as [|x slots IH]; intros i picked; cbn.
  - split; [intros k p ->; eauto with lia|]. intros x Hx. by apply elem_of_nil in Hx.
  - assert (∀ picked' : option (Z * SlotMapping),
      (∀ k p, picked = Some (k, p) → ∃ k' p', picked' = Some (k', p') ∧ sm_Index p' ≤ sm_Index p) →
      (candidate accept filt x → ∃ k' p', picked' = Some (k', p') ∧ sm_Index p' ≤ sm_Index x) →
      let r := minActionIndex accept filt (i + 1) slots picked' in
      (∀ k p, picked = Some (k, p) → ∃ k' m, r = Some (k', m) ∧ sm_Index m ≤ sm_Index p) ∧
      (∀ y, y ∈ x :: slots → candidate accept filt y →
         ∃ k m, r = Some (k, m) ∧ sm_Index m ≤ sm_Index y)) as Hstep.
    { intros picked' Hp Hx r. destruct (IH (i + 1) picked') as [IH1 IH2]. fold r in IH1, IH2. split.
      - intros k p (k' & p' & -> & Hle)%Hp. destruct (IH1 k' p' eq_refl) as (k'' & m & -> & ?).
        eexists _, _. split; [done|]. lia.
      - intros y [->|Hy]%elem_of_cons Hc; [|by apply IH2].
        destruct (Hx Hc) as (k' & p' & -> & Hle).
        destruct (IH1 k' p' eq_refl) as (k'' & m & -> & ?). eexists _, _. split; [done|]. lia. }
    case_decide as Hst; [apply Hstep; [eauto with lia|by intros (? & ?)]|].
    destruct (filt x) eqn:Hf; [|apply Hstep; [eauto with lia|intros (_ & ? & _); congruence]].
    destruct picked as [[k p]|].
    + case_bool_decide; [apply Hstep; eauto with lia|].
      destruct (accept x) eqn:Ha; apply Hstep.
      * intros ? ? [= <- <-]. eexists _, _. split; [done|]. lia.
      * eauto with lia.
      * eauto with lia.
      * intros (_ & _ & ?). congruence.
    + destruct (accept x) eqn:Ha; apply Hstep; try done; [eauto with lia|].
      intros (_ & _ & ?). congruence.
Qed.

Definition started (m : SlotMapping) : bool := bool_decide (sm_State m ≠ ActionPending).
Definition pending (m : SlotMapping) : bool := bool_decide (sm_State m = ActionPending).

(** The action that is prepared next is an accepted one with the smallest index,
    an action already started coming before every pending one; nothing is picked only
    when there is no candidate, or only pending ones and migration is disabled. *)
Theorem pick_action_least accept disabled slots :
  match pick_action accept disabled slots with
  | Some (k, m) =>
      0 ≤ k ∧ slots !! Z.to_nat k = Some m ∧
      ((candidate accept started m ∧
        ∀ x, x ∈ slots → candidate accept started x → sm_Index m ≤ sm_Index x) ∨
       (candidate accept pending m ∧ disabled = false ∧
        (∀ x, x ∈ slots → candidate accept started x → False) ∧
        ∀ x, x ∈ slots → candidate accept pending x → sm_Index m ≤ sm_Index x))
  | None =>
      ∀ x, x ∈ slots → (candidate accept started x → False) ∧
        (disabled = false → candidate accept pending x → False)
  end.
Proof.
  unfold pick_action. fold started pending.
  destruct (minActionIndex_min accept started 0 slots None) as [_ Hs].
  destruct (minActionIndex_min accept pending 0 slots None) as [_ Hp].
  destruct (minActionIndex accept started 0 slots None) as [[k m]|] eqn:Es.
  - apply minActionIndex_lookup in Es as [?|(Hk & Hl & Hc)]; [done|].
    rewrite Z.sub_0_r in Hl. split; [done|]. split; [done|]. left. split; [exact Hc|].
    intros x Hx Hcx. by destruct (Hs x Hx Hcx) as (? & ? & [= <- <-] & ?).
  - assert (∀ x, x ∈ slots → candidate accept started x → False) as Hno.
    { intros x Hx Hc. by destruct (Hs x Hx Hc) as (? & ? & ? & ?). }
    destruct disabled; [by split; eauto|].
    destruct (minActionIndex accept pending 0 slots None) as [[k m]|] eqn:Ep.
    + apply minActionIndex_lookup in Ep as [?|(Hk & Hl & Hc)]; [done|].
      rewrite Z.sub_0_r in Hl. split; [done|]. split; [done|]. right. split; [exact Hc|].
      split; [done|]. split; [done|].
      intros x Hx Hcx. by destruct (Hp x Hx Hcx) as (? & ? & [= <- <-] & ?).
    + intros x Hx. split; [by eapply Hno|]. intros _ Hc.
      by destruct (Hp x Hx Hc) as (? & ? & ? & ?).
Qed.

(** The next database to scan is the smallest in use above the current one, and
    [-1] exactly when there is none. *)
Theorem next_database_least db dbs :
  (∀ i, i ∈ dbs → 0 ≤ i) → -1 ≤ db →
  (next_database db dbs = -1 ∧ ∀ i, i ∈ dbs → i ≤ db) ∨
  (next_database db dbs ∈ dbs ∧ db < next_database db dbs ∧
   ∀ i, i ∈ dbs → db < i → next_database db dbs ≤ i).
Proof.
  intros Hpos Hdb. unfold next_database.
  induction dbs as [|x dbs IH] using rev_ind.
  { left. split; [done|]. intros i Hi. by apply elem_of_nil in Hi. }
  rewrite foldl_snoc. setoid_rewrite elem_of_app in Hpos.
  setoid_rewrite list_elem_of_singleton in Hpos.
  destruct IH as [[-> Hall]|(Hin & Hlt & Hmin)]; [by auto|..].
  - case_decide as Hc.
    + right. split_and!; [apply elem_of_app; right; by constructor|lia|].
      intros i [Hi| ->%list_elem_of_singleton]%elem_of_app ?; [|lia]. specialize (Hall i Hi). lia.
    + left. split; [done|].
      intros i [Hi| ->%list_elem_of_singleton]%elem_of_app; [auto|lia].
  - right. set (n := foldl _ _ dbs) in *. case_decide as Hc.
    + split_and!; [apply elem_of_app; right; by constructor|lia|].
      intros i [Hi| ->%list_elem_of_singleton]%elem_of_app ?; [|lia].
      destruct Hc as [[?|?] ?]; [lia|]. specialize (Hmin i Hi). lia.
    + split_and!; [apply elem_of_app; by left|lia|].
      intros i [Hi| ->%list_elem_of_singleton]%elem_of_app ?; [by apply Hmin|].
      destruct (decide (n = -1)); [lia|]. lia.
Qed.

Lemma next_database_least_witness :
  next_database 0 [3; 0; 2] = 2 ∧
  ((next_database 0 [3; 0; 2] = -1 ∧ ∀ i, i ∈ [3; 0; 2] → i ≤ 0) ∨
   (next_database 0 [3; 0; 2] ∈ [3; 0; 2] ∧ 0 < next_database 0 [3; 0; 2] ∧
    ∀ i, i ∈ [3; 0; 2] → 0 < i → next_database 0 [3; 0; 2] ≤ i)).
Proof.
  split; [by vm_compute|]. apply (next_database_least 0 [3; 0; 2]); [|lia].
  intros i. rewrite !elem_of_cons, elem_of_nil. lia.
Defined.

(** * Creating an action *)

(** Why [SlotCreateAction sid gid] may return an error. *)
Definition create_error (d : db) (sid gid : Z) (e : terror) : Prop :=
  match e with
  | ErrClosedTopom | ErrNotOnline | ErrStore _ => True
  | ErrGroupNotExist g => g = gid ∧ db_group d !! gid = None
  | ErrGroupIsEmpty g => g = gid ∧ g_Servers <$> db_group d !! gid = Some []
  | ErrSlotNotExist s => s = sid ∧ (sid < 0 ∨ MaxSlotNum ≤ sid)
  | ErrSlotActionExists s => s = sid ∧ sm_State (slot_at d sid) ≠ ActionNothing
  | ErrSlotInGroup s g => s = sid ∧ g = gid ∧ sm_GroupId (slot_at d sid) = gid
  | _ => False
  end.

(** The result of [SlotCreateAction sid gid] on the store [d]. *)
Definition create_result (d : db) (sid gid : Z) (r : outcome terror unit) (w' : world) : Prop :=
  let m := slot_at d sid in
  match r with
  | Ok _ => ∃ idx, w_db w' = db_set_slot (pending_action gid idx m) d ∧
      0 ≤ sid < MaxSlotNum ∧ alive (db_group d) gid ∧
      sm_State m = ActionNothing ∧ sm_GroupId m ≠ gid ∧
      ((∀ i, sm_Index (slot_at d i) < max_int64) →
       ∀ i, 0 ≤ i < MaxSlotNum → i ≠ sid → sm_State (slot_at d i) ≠ ActionNothing →
       sm_Index (slot_at d i) < idx)
  | Err e => create_error d sid gid e ∧
      (w_db w' = d ∨
       e = ErrStore "update slot" ∧
       ∃ idx, w_db w' = db_set_slot (pending_action gid idx m) d)
  | Panic => False
  end.

Lemma foldl_max_le {A} (P : A → Prop) `{∀ x, Decision (P x)} (f : A → Z) l mx b :
  mx ≤ b → (∀ x, x ∈ l → f x ≤ b) →
  foldl (λ mx m, if decide (P m) then MaxInt mx (f m) else mx) mx l ≤ b.
Proof.
  revert mx. induction l as [|y l IH]; intros mx Hmx Hl; cbn; [done|].
  apply IH; [|intros; apply Hl; by constructor].
  case_decide; [|done]. rewrite MaxInt_max. specialize (Hl y ltac:(by constructor)). lia.
Qed.

(** The index of a new action is above that of every action in progress, as long as
    the indexes in use stay below the largest integer. *)
Lemma next_index_fresh d hosts sid `{Config} `{UnicodeUpper} :
  0 ≤ sid < MaxSlotNum → (∀ i, sm_Index (slot_at d i) < max_int64) →
  ∀ i, 0 ≤ i < MaxSlotNum → i ≠ sid → sm_State (slot_at d i) ≠ ActionNothing →
  sm_Index (slot_at d i) < next_index (ctx_db d hosts) sid (slot_at d sid).
Proof.
  intros Hs Hb i Hi Hne Hst. unfold next_index.
  set (ctx := ctx_set_slots _ _).
  assert (maxSlotActionIndex ctx ≤ max_int64 - 1) as Hle.
  { apply foldl_max_le; [done|]. intros x [j Hj]%list_elem_of_lookup. cbn in Hj.
    apply list_lookup_insert_Some in Hj as [(_ & <- & _)|(_ & Hj)].
    - specialize (Hb sid). cbn. unfold sm_Index in *. cbn in *. lia.
    - apply all_slots_lookup in Hj as [_ ->]. specialize (Hb (Z.of_nat j)). lia. }
  pose proof (maxSlotActionIndex_nonneg ctx).
  rewrite i64_id by (unfold max_int64 in *; lia).
  assert (sm_Index (slot_at d i) ≤ maxSlotActionIndex ctx); [|lia].
  apply maxSlotActionIndex_ge; [|done]. cbn.
  apply list_elem_of_lookup_2 with (Z.to_nat i).
  rewrite list_lookup_insert_ne by lia. by apply all_slots_at.
Qed.

Section functional.
Context `{Env} `{Config} `{UnicodeUpper} `{RBTree} `{!EnvLaws}.

(** A write: the store before or after it, by the result. *)
Lemma store_write_wp what f w (Q : outcome terror unit → world → Prop) :
  (∀ w', w_db w' = f (w_db w) → w_cache w' = w_cache w → Q (Ok tt) w') →
  (∀ w', w_db w' = w_db w ∨ w_db w' = f (w_db w) → Q (Err (ErrStore what)) w') →
  wp (store_write what f) Q w.
Proof.
  intros HO HE. unfold store_write. wp_step. apply wp_next_tick.
  destruct (env_write _) as [|[]]; wp_steps; [by apply HO|apply HE; by right|apply HE; by left].
Qed.

(** The start of an operation: a context that shows the store, or an error of the
    store with nothing changed. *)
Lemma newContext_start S w {A} (k : context → T A) (Q : outcome terror A → world → Prop) :
  Inv S w →
  (∀ w' hosts, same_outside w w' → coh [] w' →
     ctx_of w' = Some (ctx_db (w_db w) hosts) → wp (k (ctx_db (w_db w) hosts)) Q w') →
  (∀ e w', context_error e → w_db w' = w_db w → Q (Err e) w') →
  wp (newContext ≫= k) Q w.
Proof.
  intros [Hc _ _ _] Hk HE. apply wp_bind.
  assert (wp newContext (λ r _, ∀ e, r = Err e → context_error e) w) as He.
  { unfold wp. destruct (newContext w) as [r w'] eqn:Hn. cbn. intros e ->.
    by eapply newContext_errp. }
  assert (wp newContext (λ r w', same_outside w w' ∧ coh [] w' ∧ r ≠ Panic ∧
    ∀ ctx, r = Ok ctx → ctx = ctx_db (w_db w) (w_hosts w') ∧ ctx_of w' = Some ctx) w) as Hn.
  { apply newContext_wp; [done|..].
    - intros w' Hcoh Ho Hf _ _. pose proof (proj1 Ho) as Hdb. split_and!; try done.
      intros ctx [= <-]. split; [done|]. rewrite <-Hdb. by apply full_cache_ctx.
    - intros e w' Hcoh Ho. by split_and!. }
  eapply wp_mono; [exact (wp_and _ _ _ _ He Hn)|].
  intros r w' (He' & Ho & Hcoh & Hp & Hctx).
  destruct r as [ctx|e|]; [|by apply HE; [auto|apply Ho]|done].
  destruct (Hctx ctx eq_refl) as [-> Hc']. by apply Hk.
Qed.

(** a successful [SlotCreateAction] stores exactly one change: the slot, which had
    no action and was in another group, now has a pending action to [gid], a group
    with a server, with an index above every action in progress (as long as indexes
    stay below the largest integer); an error leaves the store alone unless it is
    that of the write itself, and each error states its reason. *)
Theorem SlotCreateAction_correct S w sid gid :
  reach S w → wp (SlotCreateAction sid gid) (create_result (w_db w) sid gid) w.
Proof.
  intros Hw%reach_Inv. pose proof Hw as [[Hwf _] _ _ _]. unfold create_result.
  set (d := w_db w). set (m := slot_at d sid). cbn zeta.
  unfold SlotCreateAction. apply (newContext_start S w); [done| |].
  2: { intros e w' He Hdb. split; [by destruct e|by left]. }
  intros w1 hosts Ho _ Hctx. pose proof (proj1 Ho) as Hdb. fold d in Hdb, Hctx, Hwf |- *.
  apply wp_lift_bind; unfold getGroup; cbn [ctx_group ctx_db].
  2: { intros e. destruct (db_group d !! gid) eqn:Hg; [done|]. intros [= <-]. by split; [|left]. }
  2: { by destruct (db_group d !! gid). }
  intros g Hg. destruct (db_group d !! gid) as [g'|] eqn:Hgid; [|done]. injection Hg as ->.
  destruct (g_Servers g) as [|x0 xs] eqn:Hs.
  { wp_step. split; [|by left]. split; [done|]. by rewrite Hgid; cbn; rewrite Hs. }
  pose proof (getSlotMapping_no_panic (ctx_db d hosts) sid) as Hnp.
  apply wp_lift_bind; [|..|done].
  2: { intros e. unfold getSlotMapping. cbn [ctx_slots ctx_db].
       rewrite decide_False by (rewrite length_all_slots; lia). case_decide; [|by intros [= <-]; split; [split; [|lia]|left]].
       by destruct (zlookup _ _). }
  intros m' Hm. apply getSlotMapping_db in Hm as (Hr & -> & Hid); [|done]. fold m in Hid |- *.
  case_decide as Hst; [wp_step; by split; [|left]|].
  case_decide as Hgr; [wp_step; by split; [|left]|].
  assert (alive (db_group d) gid) as Hal by (exists g; by rewrite Hs).
  pose proof (db_wf_group _ Hwf _ _ Hgid) as Hgi.
  wp_step. eapply start_action_wp; [done|]. cbn zeta. rewrite Hgi.
  wp_step. apply wp_modify. apply store_write_wp.
  - intros w2 Hdb2 _. assert (w_db (put_slot (Z.to_nat sid)
      (pending_action gid (next_index (ctx_db d hosts) sid m) m) w1) = d) as E.
    { unfold put_slot. by destruct (c_slots _). }
    rewrite E in Hdb2. eexists. split; [exact Hdb2|]. split_and!; try done; [lia|lia|].
    by apply next_index_fresh.
  - intros w2 Hdb2. assert (w_db (put_slot (Z.to_nat sid)
      (pending_action gid (next_index (ctx_db d hosts) sid m) m) w1) = d) as E.
    { unfold put_slot. by destruct (c_slots _). }
    rewrite E in Hdb2. split; [done|]. destruct Hdb2 as [?|?]; [by left|right]. eauto.
Qed.

Lemma newContext_okp S w {A} (k : context → T A) (Q : A → world → Prop) :
  Inv S w →
  (∀ w' hosts, same_outside w w' → coh [] w' →
     ctx_of w' = Some (ctx_db (w_db w) hosts) → okp (k (ctx_db (w_db w) hosts)) Q w') →
  okp (newContext ≫= k) Q w.
Proof.
  intros Hw Hk.
  assert (wp (newContext ≫= k) (λ r w', ∀ a, r = Ok a → Q a w') w) as HQ.
  { apply (newContext_start S w); [done| |done]. intros w' hosts Ho Hc Hctx. unfold wp.
    destruct (k _ w') as [r w''] eqn:Hr. cbn. intros a ->. by eapply Hk. }
  intros a w' Ha. revert HQ. unfold wp. rewrite Ha. cbn. auto.
Qed.

(** * Carrying out a rebalancing plan *)

Lemma put_slot_cached i m w l : c_slots (w_cache w) = Some (Some <$> l) →
  c_slots (w_cache (put_slot i m w)) = Some (Some <$> <[i := m]> l) ∧ w_db (put_slot i m w) = w_db w.
Proof. intros Hl. unfold put_slot. rewrite Hl. cbn. by rewrite list_fmap_insert. Qed.

(** The slots not yet reached are cached as they are stored. *)
Definition cached_as_stored (l : list SlotMapping) (pending : list Z) (w : world) : Prop :=
  c_slots (w_cache w) = Some (Some <$> l) ∧
  ∀ i, i ∈ pending → 0 ≤ i ∧ l !! Z.to_nat i = Some (slot_at (w_db w) i) ∧ sm_Id (slot_at (w_db w) i) = i.

Definition pending_stored (target : Z → Z) (pending : list Z) (d d' : db) : Prop := ∀ i,
  if decide (i ∈ pending) then ∃ idx, slot_at d' i = pending_action (target i) idx (slot_at d i)
  else slot_at d' i = slot_at d i.

Lemma start_action_stored sid gid l pending w : cached_as_stored l (sid :: pending) w → NoDup (sid :: pending) →
  is_Some (ctx_of w) → let m := slot_at (w_db w) sid in
  okp (start_action sid m gid) (λ _ w', ∃ idx, w_db w' = db_set_slot (pending_action gid idx m) (w_db w) ∧
    cached_as_stored (<[Z.to_nat sid := pending_action gid idx m]> l) pending w') w.
Proof.
  intros [Hl Hc] Hnd [ctx Hctx] m. apply NoDup_cons in Hnd as [Hsid _]. destruct (Hc sid) as (Hs0 & Hsl & Hid); [by left|].
  assert (wp (start_action sid m gid) (λ r w', ∀ a : unit, r = Ok a → ∃ idx, w_db w' = db_set_slot (pending_action gid idx m) (w_db w) ∧
    cached_as_stored (<[Z.to_nat sid := pending_action gid idx m]> l) pending w') w) as Hwp.
  { eapply start_action_wp; [done|]. cbn zeta. set (m1 := pending_action _ _ _).
    destruct (put_slot_cached (Z.to_nat sid) m1 w l Hl) as [Hl1 Hdb1]. wp_step. apply wp_modify. apply store_write_wp; [|done].
    intros w2 Hdb2 Hc2 [] _. rewrite Hdb1 in Hdb2. exists (next_index ctx sid m). split; [done|]. split; [by rewrite Hc2|].
    intros i Hi. destruct (Hc i) as (Hi0 & Hil & Hii); [by right|]. assert (sid ≠ i) as Hne by (by intros ->).
    rewrite Hdb2, slot_at_set_slot, list_lookup_insert_ne by lia.
    rewrite decide_False; [done|]. unfold m1, pending_action. cbn. fold m in Hid. by rewrite Hid. }
  intros [] w' Hrun. unfold wp in Hwp. rewrite Hrun in Hwp. by apply (Hwp ()). 
Qed.

Lemma start_actions_stored target pending l w : cached_as_stored l pending w → NoDup pending →
  okp (start_actions target pending (mret tt)) (λ _ w', pending_stored target pending (w_db w) (w_db w')) w.
Proof.
  revert l w. induction pending as [|sid pending IH]; intros l w Hc Hnd.
  { apply okp_ret. intros i. by rewrite decide_False by apply not_elem_of_nil. }
  cbn [start_actions]. apply okp_bind. intros ctx w1 Hcur. unfold cur_ctx in Hcur.
  destruct (ctx_of w) as [ctx'|] eqn:Hctx; [|done]. injection Hcur as <- <-.
  apply okp_bind, okp_lift. intros m Hm. pose proof Hc as [Hl Hst]. destruct (Hst sid) as (Hs0 & Hsl & Hid); [by left|].
  assert (m = slot_at (w_db w) sid) as ->.
  { apply getSlotMapping_Ok in Hm as (_ & _ & Hm). destruct (ctx_of_Some _ _ Hctx) as (Hs & _). rewrite Hl in Hs.
    injection Hs as Hs. apply list_fmap_eq_inj in Hs as ->; [congruence|]. by intros ? ? [=]. }
  apply okp_defer, okp_bind. eapply okp_mono; [eapply start_action_stored; [done..|by rewrite Hctx]|].
  intros [] w2 (idx & Hdb & Hc2). apply NoDup_cons in Hnd as [Hout Hnd]. eapply okp_mono; [by eapply IH|].
  intros [] w3 Hp i. specialize (Hp i). cbn. rewrite Hdb, slot_at_set_slot in Hp.
  replace (sm_Id (pending_action (target sid) idx (slot_at (w_db w) sid))) with sid in Hp by (by cbn; rewrite Hid).
  destruct (decide (sid = i)) as [<-|Hne].
  - rewrite decide_False in Hp by done. rewrite decide_True by (by left). eauto.
  - destruct (decide (i ∈ pending)) as [Hin|Hin]; [by rewrite decide_True by (by right)|].
    rewrite decide_False by set_solver. done.
Qed.

(** ** Steps that do not touch the store *)

Definition quiet {A} (m : T A) : Prop := ∀ w, w_db (m w).2 = w_db w.

Lemma quiet_bind {A C} (m : T A) (k : A → T C) : quiet m → (∀ a, quiet (k a)) → quiet (m ≫= k).
Proof.
  intros Hm Hk w. unfold mbind, M_bind. specialize (Hm w).
  destruct (m w) as [[a|e|] w'] eqn:E1; cbn in *; [by rewrite Hk|done|done].
Qed.
Lemma quiet_ret {A} (a : A) : quiet (mret a).
Proof. done. Qed.
Lemma quiet_for_each {A} (l : list A) (f : A → T unit) : (∀ x, quiet (f x)) → quiet (for_each l f).
Proof.
  intros Hf. induction l as [|x l IH]; cbn; [apply quiet_ret|]. by apply quiet_bind.
Qed.
Lemma quiet_FillSlots p l : quiet (FillSlots p l).
Proof.
  apply quiet_bind; [done|]. intros t.
  destruct (env_fill t); (apply quiet_bind; [by apply quiet_for_each|done]).
Qed.
Lemma quiet_cur_ctx : quiet cur_ctx.
Proof. intros w. unfold cur_ctx. by destruct (ctx_of w). Qed.
Lemma quiet_fill_all ctx ms ps : quiet (fill_all ctx ms ps).
Proof.
  induction ps as [|p ps IH]; cbn; [apply quiet_ret|]. apply quiet_bind; [done|]. intros l.
  apply quiet_bind; [apply quiet_FillSlots|]. intros ok. by apply quiet_bind.
Qed.
Lemma quiet_resync ms : quiet (resyncSlotMappings ms).
Proof.
  unfold resyncSlotMappings. destruct ms; [apply quiet_ret|].
  apply quiet_bind; [apply quiet_cur_ctx|]. intros ctx. apply quiet_bind; [done|]. intros ps.
  apply quiet_bind; [apply quiet_fill_all|]. by intros [].
Qed.
Lemma quiet_call e : quiet (call e).
Proof. intros w. unfold call, mbind, M_bind. cbn. by destruct (env_call _). Qed.
Lemma quiet_ignore_err {A} (m : T A) : quiet m → quiet (ignore_err m).
Proof. intros Hm w. unfold ignore_err. specialize (Hm w). by destruct (m w). Qed.

Lemma okp_quiet {A} (m : T A) (Q : A → world → Prop) w :
  quiet m → (∀ a w', w_db w' = w_db w → Q a w') → okp m Q w.
Proof. intros Hm HQ a w' Ha. apply HQ. specialize (Hm w). by rewrite Ha in Hm. Qed.

Lemma okp_store_write what f w (Q : unit → world → Prop) :
  (∀ w', w_db w' = f (w_db w) → Q tt w') → okp (store_write what f) Q w.
Proof.
  intros HQ. unfold store_write. okp_step. intros t w' [= <- <-].
  destruct (env_write _) as [|[]]; [okp_step; by apply HQ|okp_step; okp_step; okp_step|okp_step].
Qed.

Lemma okp_put_slot i m w (Q : unit → world → Prop) :
  (∀ w', w_db w' = w_db w → Q tt w') → okp (put_slot_at i m) Q w.
Proof.
  intros HQ. apply okp_modify, HQ. unfold put_slot. by destruct (c_slots _).
Qed.

Lemma okp_put_group i g w (Q : unit → world → Prop) :
  (∀ w', w_db w' = w_db w → Q tt w') → okp (put_group_at i g) Q w.
Proof.
  intros HQ. apply okp_modify, HQ. unfold put_group. by destruct (c_group _).
Qed.

Lemma db_set_slot_twice m m' d : sm_Id m = sm_Id m' → db_set_slot m (db_set_slot m' d) = db_set_slot m d.
Proof. intros Hid. unfold db_set_slot. cbn. by rewrite Hid, insert_insert_eq. Qed.

(** ** Preparing *)

Lemma prepare_prepared_okp i m w :
  okp (prepare_prepared i m) (λ r w', r = (sm_Id m, true) ∧
    w_db w' = db_set_slot (sm_set_State ActionMigrating m) (w_db w)) w.
Proof.
  unfold prepare_prepared. okp_step. cbn zeta. okp_step. apply okp_put_slot. intros w1 E1.
  okp_step. apply okp_quiet; [apply quiet_resync|]. intros _ w2 E2.
  okp_step. apply okp_store_write. intros w3 E3. okp_step. split; [done|]. cbn. congruence.
Qed.

Lemma prepare_preparing_okp i m w :
  okp (prepare_preparing i m) (λ r w', r = (sm_Id m, true) ∧
    w_db w' = db_set_slot (sm_set_State ActionMigrating m) (w_db w)) w.
Proof.
  unfold prepare_preparing. okp_step. cbn zeta. okp_step. apply okp_put_slot. intros w1 E1.
  okp_step. apply okp_on_err.
  2: { intros e w'. okp_step. apply okp_put_slot. intros. okp_step.
       intros a w'' _. okp_step. }
  apply okp_quiet; [apply quiet_resync|]. intros _ w2 E2.
  okp_step. apply okp_store_write. intros w3 E3.
  eapply okp_mono; [apply prepare_prepared_okp|]. cbn. intros r w4 [-> ->]. split; [done|].
  rewrite E3, E2, E1. by apply db_set_slot_twice.
Qed.

Lemma prepare_pending_okp i m w :
  okp (prepare_pending i m) (λ r w', r = (sm_Id m, true) ∧
    w_db w' = db_set_slot (sm_set_State ActionMigrating m) (w_db w)) w.
Proof.
  unfold prepare_pending. okp_step. cbn zeta. okp_step. apply okp_put_slot. intros w1 E1.
  okp_step. apply okp_store_write. intros w3 E3.
  eapply okp_mono; [apply prepare_preparing_okp|]. cbn. intros r w4 [-> ->]. split; [done|].
  rewrite E3, E1. by apply db_set_slot_twice.
Qed.

(** What a prepared action is in the store. *)
Definition prepared_form (m : SlotMapping) : SlotMapping :=
  match sm_State m with
  | ActionFinished => m
  | _ => sm_set_State ActionMigrating m
  end.

Lemma prepare_action_okp i m w :
  sm_Id m = i → slot_at (w_db w) i = m → 
  okp (prepare_action i m) (λ r w', r = (sm_Id m, true) ∧
    (∀ j, slot_at (w_db w') j = if decide (sm_Id m = j) then prepared_form m else slot_at (w_db w) j) ∧
    db_group (w_db w') = db_group (w_db w) ∧ db_proxy (w_db w') = db_proxy (w_db w)) w.
Proof.
  intros Hid Hat. unfold prepare_action, prepared_form.
  assert (∀ r w', r = (sm_Id m, true) ∧ w_db w' = db_set_slot (sm_set_State ActionMigrating m) (w_db w) →
    r = (sm_Id m, true) ∧
    (∀ j, slot_at (w_db w') j = if decide (sm_Id m = j) then sm_set_State ActionMigrating m
                                else slot_at (w_db w) j) ∧
    db_group (w_db w') = db_group (w_db w) ∧ db_proxy (w_db w') = db_proxy (w_db w)) as Hset.
  { intros r w' [-> ->]. split_and!; try done. intros j. by rewrite slot_at_set_slot. }
  destruct (sm_State m) eqn:Hst; try apply okp_fail.
  - eapply okp_mono; [apply prepare_pending_okp|done].
  - eapply okp_mono; [apply prepare_preparing_okp|done].
  - eapply okp_mono; [apply prepare_prepared_okp|done].
  - okp_step. split_and!; try done. intros j. case_decide; [|done]. subst j.
    rewrite Hid, Hat. unfold sm_set_State. rewrite <-Hst. by destruct m as [? ? []].
  - okp_step. split_and!; try done. intros j. case_decide; [|done]. subst j. by rewrite Hid.
Qed.

(** The result of [SlotActionPrepareFilter], in terms of the store before and after. *)
Definition prepare_result {St} (accept : St → SlotMapping → bool)
    (update : SlotMapping → St → bool * St) (st : St) (w : world)
    (r : Z * bool * St) (w' : world) : Prop :=
  let '(sid, ok, st') := r in
  let picked := pick_action (accept st) (w_disabled w) (all_slots (w_db w)) in
  (∃ m, picked = Some (sm_Id m, m) ∧ update m st = (true, st') ∧ ok = true ∧ sid = sm_Id m ∧
        0 ≤ sid < MaxSlotNum ∧ slot_at (w_db w) sid = m ∧
        (∀ j, slot_at (w_db w') j =
              if decide (j = sid) then prepared_form m else slot_at (w_db w) j) ∧
        db_group (w_db w') = db_group (w_db w) ∧ db_proxy (w_db w') = db_proxy (w_db w)) ∨
  (∃ m, picked = Some (sm_Id m, m) ∧ update m st = (false, st') ∧ ok = false ∧
        w_db w' = w_db w) ∨
  (picked = None ∧ ok = false ∧ st' = st ∧ w_db w' = w_db w).

Lemma SlotActionPrepareFilter_okp S {St} (accept : St → SlotMapping → bool)
    (update : SlotMapping → St → bool * St) st w :
  Inv S w →
  okp (SlotActionPrepareFilter accept update st) (prepare_result accept update st w) w.
Proof.
  intros Hw. pose proof Hw as [[Hwf _] _ _ _].
  unfold SlotActionPrepareFilter. apply (newContext_okp S w); [done|].
  intros w1 hosts Ho _ _. pose proof Ho as (Hdb & _ & _ & Hdis & _).
  okp_step. okp_step. rewrite Hdis. cbn [ctx_slots ctx_db].
  destruct (pick_action _ _ _) as [[k m]|] eqn:Hp; [|by okp_step; right; right].
  pose proof Hp as (Hk & Hm & _ & _)%pick_action_lookup.
  pose proof (lookup_lt_Some _ _ _ Hm) as Hlt. pose proof (length_all_slots (w_db w)) as Hlen.
  apply all_slots_lookup in Hm as [_ Hm]. rewrite Z2Nat.id in Hm by lia.
  assert (sm_Id m = k) as Hid by (subst m; by apply slot_at_Id). subst k.
  destruct (update m st) as [[] st'] eqn:Hu; cbn [negb].
  2: { okp_step. right; left. by exists m. }
  okp_step. eapply okp_mono; [apply prepare_action_okp; [done|by rewrite Hdb]|].
  cbn beta. intros r w2 (-> & Hslots & Hg & Hpr). okp_step. left. exists m. rewrite Hdb in *.
  split; [done|]. split; [done|]. split; [done|]. split; [done|]. split; [lia|]. split; [done|].
  split; [|split; congruence].
  intros j. rewrite Hslots. repeat case_decide; congruence.
Qed.

(** [SlotActionPrepareFilter] that reports a slot has picked the action the selection
    rule picks in the stored mappings, has left it migrating (or finished, when it was)
    with its source and target, and has changed nothing else of slots, groups and
    proxies; when it reports none the store is as it was. *)
Theorem SlotActionPrepareFilter_correct S {St} (accept : St → SlotMapping → bool)
    (update : SlotMapping → St → bool * St) st w :
  reach S w →
  okp (SlotActionPrepareFilter accept update st) (prepare_result accept update st w) w.
Proof. intros Hw%reach_Inv. by eapply SlotActionPrepareFilter_okp. Qed.

(** ** A round of migrations *)

(** The groups a migration works on. *)
Definition groups_of (m : SlotMapping) : gset Z :=
  {[ sm_TargetId m ]} ∪ (if decide (sm_GroupId m ≠ 0) then {[ sm_GroupId m ]} else ∅).

(** The slots planned so far are migrating or finished, and no two share a group. *)
Record round_ok (d : db) (st : round) : Prop := {
  ro_state s : s ∈ rd_plans st → 0 ≤ s < MaxSlotNum ∧
    (sm_State (slot_at d s) = ActionMigrating ∨ sm_State (slot_at d s) = ActionFinished);
  ro_marks s : s ∈ rd_plans st → groups_of (slot_at d s) ⊆ rd_marks st;
  ro_disjoint s s' : s ∈ rd_plans st → s' ∈ rd_plans st → s ≠ s' →
    groups_of (slot_at d s) ## groups_of (slot_at d s')
}.

Lemma prepared_form_groups m : groups_of (prepared_form m) = groups_of m.
Proof. unfold prepared_form. by destruct (sm_State m). Qed.

Lemma prepared_form_state m :
  sm_State (prepared_form m) = ActionMigrating ∨ sm_State (prepared_form m) = ActionFinished.
Proof. unfold prepared_form. destruct (sm_State m) eqn:Hst; auto. Qed.

Lemma round_ok_update d d' st m :
  round_ok d st → accept_action st m = true → 0 ≤ sm_Id m < MaxSlotNum →
  (∀ j, slot_at d' j = if decide (j = sm_Id m) then prepared_form m else slot_at d j) →
  round_ok d' (update_action m st).2 ∧
  size (rd_plans (update_action m st).2) = S (size (rd_plans st)).
Proof.
  intros [R1 R2 R3] Ha Hr Hd. unfold accept_action in Ha.
  case_decide as Hmk; [done|]. case_decide as Hpl; [done|].
  assert (groups_of m ## rd_marks st) as Hdis.
  { unfold groups_of. case_decide; set_solver. }
  assert (rd_marks (update_action m st).2 = groups_of m ∪ rd_marks st) as Em.
  { unfold update_action, groups_of. cbn. case_decide; set_solver. }
  assert (∀ s, s ∈ rd_plans st → slot_at d' s = slot_at d s) as Hold.
  { intros s Hs. rewrite Hd, decide_False; [done|]. by intros ->. }
  assert (slot_at d' (sm_Id m) = prepared_form m) as Hnew by (by rewrite Hd, decide_True).
  split.
  - split; rewrite ?Em; cbn [update_action rd_plans snd].
    + intros s [->%elem_of_singleton|Hs]%elem_of_union.
      * rewrite Hnew. split; [done|apply prepared_form_state].
      * rewrite (Hold s Hs). by apply R1.
    + intros s [->%elem_of_singleton|Hs]%elem_of_union.
      * rewrite Hnew, prepared_form_groups. set_solver.
      * rewrite (Hold s Hs). specialize (R2 s Hs). set_solver.
    + intros s s' [->%elem_of_singleton|Hs]%elem_of_union
        [->%elem_of_singleton|Hs']%elem_of_union Hne; [done|..|by rewrite !Hold; auto];
        rewrite Hnew, prepared_form_groups, Hold by done.
      * specialize (R2 s' Hs'). set_solver.
      * specialize (R2 s Hs). set_solver.
  - cbn. rewrite size_union by set_solver. by rewrite size_singleton.
Qed.

Lemma plan_step S st w sid ok st' w' :
  Inv S w → round_ok (w_db w) st →
  SlotActionPrepareFilter accept_action update_action st w = (Ok (sid, ok, st'), w') →
  if ok then round_ok (w_db w') st' ∧ size (rd_plans st') = Datatypes.S (size (rd_plans st)) ∧
             rd_plans st ⊆ rd_plans st'
  else st' = st ∧ w_db w' = w_db w.
Proof.
  intros HI Hok Hrun. apply (SlotActionPrepareFilter_okp S) in Hrun; [|done].
  destruct Hrun as [(m & Hp & Hu & -> & -> & Hr & Hm & Hslots & _)|
                    [(m & _ & Hu & _)|(_ & -> & -> & Hdb)]]; [|done|done].
  assert (st' = (update_action m st).2) as -> by (by rewrite Hu). clear Hu.
  apply pick_action_lookup in Hp as (_ & _ & _ & Hacc).
  destruct (round_ok_update _ (w_db w') st m Hok Hacc Hr Hslots) as [Hok' Hsz'].
  split; [done|]. split; [done|]. apply union_subseteq_r.
Qed.

Lemma plan_actions_okp S n st w :
  Inv S w → round_ok (w_db w) st → Z.of_nat (size (rd_plans st)) ≤ parallel_slots →
  okp (plan_actions n st) (λ st' w', round_ok (w_db w') st' ∧
    rd_plans st ⊆ rd_plans st' ∧ Z.of_nat (size (rd_plans st')) ≤ parallel_slots) w.
Proof.
  revert st w. induction n as [|n IH]; intros st w HI Hok Hsz; cbn [plan_actions]; [by okp_step|].
  case_decide as Hpar; [|by okp_step]. apply okp_bind. intros [[sid ok] st'] w' Hrun.
  pose proof (safe_result _ _ _ _ _ (SlotActionPrepareFilter_safe S _ _ st) HI Hrun) as HI'.
  pose proof (plan_step S st w sid ok st' w' HI Hok Hrun) as Hstep. destruct ok.
  - destruct Hstep as (Hok' & Hsz' & Hsub).
    eapply okp_mono; [apply IH; [done|done|rewrite Hsz'; lia]|]. cbn beta.
    intros st'' w'' (? & Hsub' & ?). split; [done|]. split; [by etrans|done].
  - destruct Hstep as [-> Hdb]. okp_step. by rewrite Hdb.
Qed.

(** A turn of the loop per planned slot is enough: more fuel changes nothing. *)
Lemma plan_actions_fuel S n n' st w :
  Inv S w → round_ok (w_db w) st →
  parallel_slots ≤ Z.of_nat (size (rd_plans st) + n) →
  parallel_slots ≤ Z.of_nat (size (rd_plans st) + n') →
  plan_actions n st w = plan_actions n' st w.
Proof.
  revert n' st w. induction n as [|n IH]; intros n' st w HI Hok Hn Hn'.
  { destruct n'; [done|]. cbn [plan_actions]. by rewrite decide_False by lia. }
  destruct n' as [|n']; [cbn [plan_actions]; by rewrite decide_False by lia|].
  cbn [plan_actions]. case_decide; [|done]. unfold mbind, M_bind.
  destruct (SlotActionPrepareFilter accept_action update_action st w) as [[[[sid ok] st']|e|] w']
    eqn:Hrun; [|done..].
  pose proof (safe_result _ _ _ _ _ (SlotActionPrepareFilter_safe S _ _ st) HI Hrun) as HI'.
  pose proof (plan_step S st w sid ok st' w' HI Hok Hrun) as Hstep. destruct ok; [|done].
  destruct Hstep as (Hok' & Hsz' & _). apply IH; [done|done|rewrite Hsz'; lia..].
Qed.

Lemma round_ok_empty d : round_ok d (mkRound ∅ ∅).
Proof. split; cbn; set_solver. Qed.

(** The slots a round plans for parallel migration are at most as many as
    configured, each is migrating or finished in the store, and no two of them share a
    group, as source or as target; as many turns of the planning loop as slots may be
    planned are enough. *)
Theorem plan_actions_disjoint S n w :
  reach S w →
  okp (plan_actions n (mkRound ∅ ∅)) (λ st w', round_ok (w_db w') st ∧
    Z.of_nat (size (rd_plans st)) ≤ parallel_slots) w ∧
  (parallel_slots ≤ Z.of_nat n → ∀ n', parallel_slots ≤ Z.of_nat n' →
   plan_actions n (mkRound ∅ ∅) w = plan_actions n' (mkRound ∅ ∅) w).
Proof.
  intros Hw%reach_Inv. pose proof (round_ok_empty (w_db w)) as Hempty. split.
  - eapply okp_mono; [apply (plan_actions_okp S); [done|done|]|].
    + cbn [rd_plans]. rewrite size_empty. unfold parallel_slots. rewrite MaxInt_max. lia.
    + cbn beta. intros st w' (? & _ & ?). done.
  - intros Hn n' Hn'. apply (plan_actions_fuel S); cbn [rd_plans]; rewrite ?size_empty; done.
Qed.

(** ** Completing *)

Lemma complete_finished_okp m w :
  okp (complete_finished m) (λ _ w',
    w_db w' = db_set_slot (new_mapping (sm_Id m) (sm_TargetId m)) (w_db w)) w.
Proof.
  apply okp_bind, okp_quiet; [apply quiet_resync|]. intros _ w1 E1.
  okp_step. apply okp_store_write. intros w2 E2. cbn. congruence.
Qed.

Lemma SlotActionComplete_okp S sid w :
  Inv S w →
  okp (SlotActionComplete sid) (λ _ w', 0 ≤ sid < MaxSlotNum ∧
    (sm_State (slot_at (w_db w) sid) = ActionMigrating ∨
     sm_State (slot_at (w_db w) sid) = ActionFinished) ∧
    w_db w' = db_set_slot (new_mapping sid (sm_TargetId (slot_at (w_db w) sid))) (w_db w)) w.
Proof.
  intros Hw. pose proof Hw as [[Hwf _] _ _ _]. apply (newContext_okp S w); [done|].
  intros w1 hosts Ho _ _. pose proof (proj1 Ho) as Hdb. apply okp_bind, okp_lift. intros m Hm.
  destruct (getSlotMapping_db _ _ _ _ Hwf Hm) as (Hr & Heq & Hid). rewrite <-Heq.
  destruct (sm_State m) eqn:Hst; try apply okp_fail.
  - okp_step. cbn zeta. okp_step. apply okp_put_slot. intros w2 E2.
    okp_step. apply okp_store_write. intros w3 E3.
    eapply okp_mono; [apply complete_finished_okp|]. cbn beta. intros _ w4 E4.
    split; [done|]. split; [by left|]. cbn. rewrite E4, E3, E2, Hdb. cbn. rewrite Hid.
    by apply db_set_slot_twice.
  - eapply okp_mono; [apply complete_finished_okp|]. cbn beta. intros _ w4 E4.
    split; [done|]. split; [by right|]. by rewrite E4, Hdb, Hid.
Qed.

(** a successful [SlotActionComplete] ends a migration that was running or finished:
    the slot is stored in the target group with no action, nothing else of the store
    changes, and (in runs without forced operations) every proxy that has an entry for
    the slot serves it from the target and has forgotten the source. *)
Theorem SlotActionComplete_correct S sid w :
  reach S w →
  let d := w_db w in let m := slot_at d sid in
  okp (SlotActionComplete sid) (λ _ w',
    0 ≤ sid < MaxSlotNum ∧
    (sm_State m = ActionMigrating ∨ sm_State m = ActionFinished) ∧
    w_db w' = db_set_slot (new_mapping sid (sm_TargetId m)) d ∧
    (S = true → ∀ t e, entry (w_tables w') t sid = Some e →
       slot_BackendAddrGroupId e = sm_TargetId m ∧ slot_MigrateFromGroupId e = 0)) w.
Proof.
  intros Hw%reach_Inv. cbn zeta. intros [] w' Hrun.
  pose proof (safe_result _ _ _ _ _ (SlotActionComplete_safe S sid) Hw Hrun) as [_ _ Htab _].
  destruct (SlotActionComplete_okp S sid w Hw tt w' Hrun) as (Hr & Hst & Hdb).
  split; [done|]. split; [done|]. split; [done|]. intros HS t e (tb & Htb & He)%bind_Some.
  destruct (Htab HS t tb Htb) as [_ Ha]. destruct (Ha sid e He) as [_ Ha'].
  rewrite Hdb, slot_at_set_slot, decide_True in Ha' by done. exact Ha'.
Qed.

(** ** Promotion *)

(** The store with [g] in the place of [gid]; sentinel and proxies may differ. *)
Definition db_group_is (d : db) (gid : Z) (g : Group) (d' : db) : Prop :=
  db_group d' = <[gid := g]> (db_group d) ∧ db_slots d' = db_slots d.

Lemma db_group_is_trans d gid g d1 g' d' :
  db_group_is d gid g d1 → db_group_is d1 gid g' d' → db_group_is d gid g' d'.
Proof. intros [E1 E2] [E3 E4]. split; rewrite ?E3, ?E4, ?E1, ?E2; [by rewrite insert_insert_eq|done]. Qed.

Lemma okp_sentinel extra {A} (k : T A) (Q : A → db → Prop) w :
  quiet extra →
  (∀ w1, db_group (w_db w1) = db_group (w_db w) → db_slots (w_db w1) = db_slots (w_db w) →
     okp k (λ a w', Q a (w_db w')) w1) →
  okp (sentinel_out_of_sync extra k) (λ a w', Q a (w_db w')) w.
Proof.
  intros He Hk. unfold sentinel_out_of_sync. apply okp_bind, okp_quiet; [apply quiet_cur_ctx|].
  intros ctx w1 E1. destruct (se_Servers _); [apply Hk; by rewrite E1|].
  okp_step. cbn zeta. okp_step. okp_step. okp_step. apply okp_store_write. intros w2 E2.
  cbn in E2. okp_step. apply okp_quiet; [done|]. intros _ w3 E3.
  apply Hk; rewrite E3, E2; cbn; by rewrite E1.
Qed.

Lemma promote_finished_okp gid g w :
  g_Id g = gid →
  okp (promote_finished gid g) (λ _ w',
    db_group_is (w_db w) gid (new_group gid (g_Servers g)) (w_db w')) w.
Proof.
  intros Hid. apply okp_bind, okp_quiet; [apply quiet_cur_ctx|]. intros ctx w1 E1.
  apply okp_bind, okp_quiet; [apply quiet_resync|]. intros _ w2 E2.
  okp_step. apply okp_store_write. intros w3 E3. cbn. rewrite E3, E2, E1, Hid. done.
Qed.

Lemma promote_prepared_okp gid g w l :
  g_Id g = gid → promoted_servers (pr_Index (g_Promoting g)) (g_Servers g) = Some l →
  okp (promote_prepared gid g) (λ _ w',
    db_group_is (w_db w) gid (new_group gid (gs_set_Action 0 ActionNothing <$> l)) (w_db w')) w.
Proof.
  intros Hid Hl.
  apply (okp_sentinel _ _ (λ _ d', db_group_is (w_db w) gid _ d')).
  { apply quiet_bind; [apply quiet_ignore_err, quiet_call|done]. }
  intros w1 E1 E2. okp_step. rewrite Hl. cbn zeta.
  okp_step. apply okp_put_group. intros w2 E3. okp_step. apply okp_store_write. intros w3 E4.
  apply okp_bind, okp_quiet; [apply quiet_ignore_err, quiet_call|]. intros _ w4 E5.
  eapply okp_mono; [by apply promote_finished_okp|]. cbn beta. intros _ w5 Hg.
  eapply db_group_is_trans; [|exact Hg]. rewrite E5, E4. split; cbn; rewrite ?Hid, E3, ?E1, ?E2; done.
Qed.

Lemma promote_preparing_okp gid g w l :
  g_Id g = gid → promoted_servers (pr_Index (g_Promoting g)) (g_Servers g) = Some l →
  okp (promote_preparing gid g) (λ _ w',
    db_group_is (w_db w) gid (new_group gid (gs_set_Action 0 ActionNothing <$> l)) (w_db w')) w.
Proof.
  intros Hid Hl. unfold promote_preparing. okp_step.
  apply okp_bind, okp_quiet; [apply quiet_cur_ctx|]. intros ctx w1 E1. cbn zeta.
  okp_step. apply okp_put_group. intros w2 E2. okp_step. apply okp_on_err.
  2: { intros e w'. okp_step. apply okp_put_group. intros. okp_step. intros ? ? _. okp_step. }
  apply okp_quiet; [apply quiet_resync|]. intros _ w3 E3.
  okp_step. apply okp_store_write. intros w4 E4.
  eapply okp_mono; [by apply (promote_prepared_okp gid _ w4 l)|]. cbn beta. intros _ w5 Hg.
  eapply db_group_is_trans; [|exact Hg]. rewrite E4. split; cbn; rewrite ?Hid, E3, E2, E1; done.
Qed.

Lemma promote_nothing_okp gid g index w l :
  g_Id g = gid → promoted_servers index (g_Servers g) = Some l →
  okp (promote_nothing gid index g) (λ _ w',
    db_group_is (w_db w) gid (new_group gid (gs_set_Action 0 ActionNothing <$> l)) (w_db w')) w.
Proof.
  intros Hid Hl. unfold promote_nothing. okp_step. cbn zeta.
  okp_step. apply okp_put_group. intros w2 E2. okp_step. apply okp_store_write. intros w4 E4.
  eapply okp_mono; [by apply (promote_preparing_okp gid _ w4 l)|]. cbn beta. intros _ w5 Hg.
  eapply db_group_is_trans; [|exact Hg]. rewrite E4. split; cbn; rewrite ?Hid, E2; done.
Qed.

(** The store after a promotion of the server [addr] of [g]. *)
Definition promotion_done (d : db) (gid : Z) (addr : string) (g : Group) (d' : db) : Prop :=
  ∃ l, db_group_is d gid (new_group gid l) d' ∧ (gs_Addr <$> l) ≡ₚ addrs g ∧
    (pr_State (g_Promoting g) ≠ ActionFinished →
       head (gs_Addr <$> l) = Some addr ∧ last (gs_Addr <$> l) = head (addrs g)).

Lemma promotion_okp (k : T unit) w d gid g index x :
  w_db w = d → 0 < index < Z.of_nat (length (g_Servers g)) →
  g_Servers g !! Z.to_nat index = Some x →
  (∀ l, promoted_servers index (g_Servers g) = Some l →
     okp k (λ _ w', db_group_is (w_db w) gid
       (new_group gid (gs_set_Action 0 ActionNothing <$> l)) (w_db w')) w) →
  okp k (λ _ w', promotion_done d gid (gs_Addr x) g (w_db w')) w.
Proof.
  intros <- Hi Hx Hk.
  destruct (promoted_servers_spec index (g_Servers g) Hi) as (x' & y & mid & Hl & Hx' & Hy & Hp).
  eapply okp_mono; [by apply Hk|]. cbn beta. intros _ w2 Hg2. eexists. split; [exact Hg2|].
  rewrite fmap_addrs by done. split; [unfold addrs; by rewrite Hp|]. intros _.
  assert (x' = x) as -> by congruence. rewrite fmap_cons, fmap_app. split; [done|].
  cbn. rewrite last_cons, last_snoc. unfold addrs. by destruct (g_Servers g); simplify_eq/=.
Qed.

(** C6: a successful [GroupPromoteServer] happened while no migration was executing, and
    leaves the group with exactly the servers it had, no promotion under way and no
    server action; unless it only finished an earlier promotion, the promoted server
    comes first and the old master last.  No other group and no slot changes. *)
Theorem GroupPromoteServer_correct S gid addr w :
  reach S w →
  okp (GroupPromoteServer gid addr) (λ _ w', w_executor w = 0 ∧
    ∃ g, db_group (w_db w) !! gid = Some g ∧ promotion_done (w_db w) gid addr g (w_db w')) w.
Proof.
  intros Hw%reach_Inv. pose proof Hw as [[Hwf _] Hcl _ _]. apply (newContext_okp S w); [done|].
  intros w1 hosts Ho _ _. pose proof Ho as (Hdb & _ & _ & _ & _ & Hex & _).
  apply okp_bind, okp_lift. intros g Hg%getGroup_Ok. cbn in Hg.
  destruct (ok_group _ Hcl gid g Hg) as (_ & Hid & _ & Hpr).
  apply okp_bind, okp_lift. intros index Hi. pose proof (getGroupIndex_range _ _ _ Hi) as Hr.
  case_decide as Hidx; [apply okp_fail|]. case_decide as Hm; [apply okp_fail|].
  okp_step. okp_step. case_decide as Hn; [apply okp_fail|]. rewrite Hex in Hn.
  assert (∃ x, g_Servers g !! Z.to_nat index = Some x ∧ gs_Addr x = addr) as (x & Hx & <-).
  { unfold getGroupIndex in Hi. destruct (find_server _ _ _) eqn:Hf; simplify_eq.
    apply find_server_Some in Hf as (x & _ & Hx & ?). rewrite Z.sub_0_r in Hx. eauto. }
  assert (∀ k : T unit, okp k (λ _ w', promotion_done (w_db w) gid (gs_Addr x) g (w_db w')) w1 →
    okp k (λ _ w', w_executor w = 0 ∧ ∃ g, db_group (w_db w) !! gid = Some g ∧
      promotion_done (w_db w) gid (gs_Addr x) g (w_db w')) w1) as Hwrap.
  { intros k Hk. eapply okp_mono; [exact Hk|]. eauto. }
  assert (pr_State (g_Promoting g) ≠ ActionNothing → index = pr_Index (g_Promoting g)) as Hpi.
  { intros Hne. destruct (decide (index = pr_Index (g_Promoting g))); [done|]. by destruct Hidx. }
  destruct (pr_State (g_Promoting g)) eqn:Hst; try apply okp_fail; apply Hwrap.
  - apply (promotion_okp _ _ _ _ _ index); [done| |done|intros; by apply promote_nothing_okp].
    destruct (decide (index = 0)); [|lia]. by destruct Hm.
  - apply (promotion_okp _ _ _ _ _ index); [done|rewrite Hpi by done; lia|done|].
    intros l Hl. apply promote_preparing_okp; [done|]. by rewrite <-Hpi.
  - apply (promotion_okp _ _ _ _ _ index); [done|rewrite Hpi by done; lia|done|].
    intros l Hl. apply promote_prepared_okp; [done|]. by rewrite <-Hpi.
  - eapply okp_mono; [by apply promote_finished_okp|]. cbn beta. intros _ w2 Hg2.
    exists (g_Servers g). rewrite Hdb in Hg2. by rewrite Hst.
Qed.
(** C7: rebalancing plans what it should.  A plan moves only idle slots, to groups with a
    server and never to the group they are in, and gives a group to every slot that has
    none; afterwards no group has more than its share (1024 over the number of groups,
    rounded up) unless all its slots were already under migration to it, and while a
    group has less than its share rounded down the same holds of every group above it;
    with no migration under way all sizes are the share, rounded up or down.  Confirmed,
    the store has a pending action to the planned group for exactly the planned slots;
    otherwise it is unchanged.  A plan exists whenever a group has a server. *)
Theorem rebalance_balances S w confirm : reach S w →
  okp (SlotsRebalance confirm) (λ plans w',
    rebalanced (live_groups (w_db w)) (all_slots (w_db w)) plans ∧
    if confirm then pending_stored (at0 plans) (map_to_list plans).*1 (w_db w) (w_db w') else w_db w' = w_db w) w ∧
  (live_groups (w_db w) ≠ [] → ∃ plans, rebalance_plan (all_slots (w_db w)) (live_groups (w_db w)) = Ok plans).
Proof.
  intros Hw%reach_Inv. pose proof Hw as [[Hwf _] Hcl _ _]. split.
  2: { intros Hne. destruct (cluster_plan (w_db w) Hwf Hcl Hne) as (plans & Hp & _). eauto. }
  apply (newContext_okp S w); [done|]. intros w1 hosts Ho Hc Hctx. pose proof (proj1 Ho) as Hdb.
  change (valid_groups _) with (live_groups (w_db w)). cbn zeta.
  destruct (decide (live_groups (w_db w) = [])) as [Hn|Hn]; [rewrite Hn; apply okp_fail|].
  destruct (cluster_plan (w_db w) Hwf Hcl Hn) as (plans0 & Hp & Hr). destruct (live_groups (w_db w)) as [|g0 gs] eqn:HG; [done|].
  rewrite <-HG in *. change (ctx_slots (ctx_db (w_db w) hosts)) with (all_slots (w_db w)).
  rewrite Hp. apply okp_bind, okp_lift. intros plans [= <-]. destruct confirm; [|by apply okp_ret].
  apply okp_bind. eapply okp_mono.
  - apply (start_actions_stored _ _ (all_slots (w_db w))).
    + split; [by apply (ctx_of_Some _ _ Hctx)|]. intros i (g & Hg)%plans_elem.
      destruct (rl_moves _ _ _ Hr i g Hg) as (_ & m & Hm & <- & _). apply list_elem_of_lookup in Hm as [k Hk].
      pose proof Hk as [_ Hm]%all_slots_lookup. pose proof (all_slots_id (w_db w) Hwf k m Hk) as Hid. rewrite Hdb, Hid.
      rewrite Nat2Z.id, <-Hm. split_and!; [lia|done|done].
    + rewrite merge_sort_Permutation. apply NoDup_fst_map_to_list.
  - intros [] w2 Hst. apply okp_ret. split; [done|]. intros i. specialize (Hst i). rewrite Hdb in Hst.
    rewrite (decide_ext _ (i ∈ (map_to_list plans0).*1)) in Hst by by rewrite merge_sort_Permutation. done.
Qed.
End functional.

(** * Witnesses *)

Definition w_idle : world := demo_world (new_mapping 0 1) (demo_slot false 1 0).

Lemma w_idle_reach : @reach calm demo_config demo_upper list_tree true w_idle.
Proof. apply reach_init, demo_initial; [done|split; [by right; left|done]|done]. Qed.

(** The same world once the dashboard holds the lock. *)
Definition w_online : world :=
  (@run_op calm demo_config demo_upper list_tree (OpStart (mkTopomModel "" "" "" "" 0 "" "") false) w_idle).2.

Lemma w_online_reach : @reach calm demo_config demo_upper list_tree true w_online.
Proof. apply reach_op; [apply w_idle_reach|done]. Qed.

Definition w_moving : world :=
  (@run_op calm demo_config demo_upper list_tree (OpStart (mkTopomModel "" "" "" "" 0 "" "") false)
     w_migrating).2.

Lemma w_moving_reach : @reach calm demo_config demo_upper list_tree true w_moving.
Proof. apply reach_op; [apply w_migrating_reach|done]. Qed.

Lemma SlotCreateAction_correct_witness :
  (@SlotCreateAction calm demo_config demo_upper 0 2 w_online).1 = Ok tt ∧
  wp (@SlotCreateAction calm demo_config demo_upper 0 2) (create_result (w_db w_online) 0 2) w_online.
Proof.
  split; [by vm_compute|].
  apply (@SlotCreateAction_correct calm demo_config demo_upper list_tree calm_laws true w_online 0 2
    w_online_reach).
Defined.

Lemma SlotActionPrepareFilter_correct_witness :
  okp (@SlotActionPrepareFilter calm demo_config demo_upper unit (λ _ _, true)
         (λ _ st, (true, st)) ())
      (prepare_result (λ _ _, true) (λ _ st, (true, st)) () w_online) w_online.
Proof.
  apply (@SlotActionPrepareFilter_correct calm demo_config demo_upper list_tree calm_laws true unit
    (λ _ _, true) (λ _ st, (true, st)) () w_online w_online_reach).
Defined.

Lemma plan_actions_disjoint_witness :
  okp (@plan_actions calm demo_config demo_upper 2 (mkRound ∅ ∅)) (λ st w', round_ok (w_db w') st ∧
    Z.of_nat (size (rd_plans st)) ≤ @parallel_slots demo_config) w_moving.
Proof.
  apply (@plan_actions_disjoint calm demo_config demo_upper list_tree calm_laws true 2 w_moving
    w_moving_reach).
Defined.

Lemma SlotActionComplete_correct_witness :
  (@SlotActionComplete calm demo_config demo_upper 0 w_moving).1 = Ok tt ∧
  let d := w_db w_moving in let m := slot_at d 0 in
  okp (@SlotActionComplete calm demo_config demo_upper 0) (λ _ w',
    0 ≤ 0 < MaxSlotNum ∧
    (sm_State m = ActionMigrating ∨ sm_State m = ActionFinished) ∧
    w_db w' = db_set_slot (new_mapping 0 (sm_TargetId m)) d ∧
    (true = true → ∀ t e, entry (w_tables w') t 0 = Some e →
       slot_BackendAddrGroupId e = sm_TargetId m ∧ slot_MigrateFromGroupId e = 0)) w_moving.
Proof.
  split; [by vm_compute|].
  apply (@SlotActionComplete_correct calm demo_config demo_upper list_tree calm_laws true 0 w_moving
    w_moving_reach).
Defined.

Lemma GroupPromoteServer_correct_witness :
  (@GroupPromoteServer calm demo_config demo_upper 1 "a:2" w_online).1 = Ok tt ∧
  okp (@GroupPromoteServer calm demo_config demo_upper 1 "a:2") (λ _ w', w_executor w_online = 0 ∧
    ∃ g, db_group (w_db w_online) !! 1 = Some g ∧
         promotion_done (w_db w_online) 1 "a:2" g (w_db w')) w_online.
Proof.
  split; [by vm_compute|].
  apply (@GroupPromoteServer_correct calm demo_config demo_upper list_tree calm_laws true 1 "a:2" w_online
    w_online_reach).
Defined.

(** slot 0 is idle in group 1 and no other slot has a group: all are planned *)
Lemma rebalance_balances_witness :
  (match (@SlotsRebalance list_tree calm demo_config demo_upper true w_online).1 with
   | Ok plans => (length (map_to_list plans), plans !! 1, plans !! 1023)
   | _ => (0%nat, None, None)
   end = (1023%nat, Some 1, Some 2)) ∧
  okp (@SlotsRebalance list_tree calm demo_config demo_upper true) (λ plans w',
    rebalanced (live_groups (w_db w_online)) (all_slots (w_db w_online)) plans ∧
    pending_stored (at0 plans) (map_to_list plans).*1 (w_db w_online) (w_db w')) w_online.
Proof.
  split; [by vm_compute|].
  apply (@rebalance_balances calm demo_config demo_upper list_tree calm_laws true w_online true w_online_reach).
Defined.
