(* ===== verification/Bufio.v ===== *)
(** Buffered I/O of the proxy connections: pkg/utils/bufio2 (bufio.go, slice.go).

    The [io.Reader] and [io.Writer] under the buffers are interfaces; they are the type
    classes [IOReader] and [IOWriter], whose laws are the parts of the Go contracts
    bufio2 relies on.  The reader's operations are proved to return the bytes of the
    stream below it, however the reads cut the stream into chunks; the writer's to hand
    down exactly the bytes it was given, in order. *)

From S2P Require Import Prelude.
From Stdlib Require Export Strings.Byte.

(** * Bytes *)
#[global] Instance byte_eq_dec : EqDecision byte := Byte.byte_eq_dec.
Abbreviation bytes := (list byte).

Definition CR : byte := x0d.
Definition LF : byte := x0a.

(** [copy(dst[off:], src)]: the bytes that fit, and how many they are *)
Definition copy_at (dst : bytes) (off : nat) (src : bytes) : bytes * nat :=
  let n := ((length dst - off) `min` length src)%nat in
  (take off dst ++ take n src ++ drop (off + n) dst, n).
Arguments copy_at : simpl never.

(** [b[lo:hi]] *)
Definition slice (b : bytes) (lo hi : nat) : bytes := take (hi - lo) (drop lo b).

(** [bytes.IndexByte] *)
Fixpoint IndexByte (b : bytes) (c : byte) : option nat :=
  match b with
  | [] => None
  | x :: b' => if decide (x = c) then Some 0%nat else S <$> IndexByte b' c
  end.

(** * Errors *)
Inductive ioerr :=
| EOF
| ErrUnexpectedEOF
| ErrNoProgress
| ErrShortWrite
| ErrBufferFull
| ErrNet (msg : string)
| OutOfFuel  (** the loop was cut off by the model's bound *).

#[global] Instance ioerr_eq_dec : EqDecision ioerr.
Proof. solve_decision. Defined.

(** * The interfaces below the buffers *)

(** [Read(p)] with [len(p) = n]: the bytes stored at the start of [p] and the error. *)
Class IOReader (R : Type) := {
  rd_read : R → nat → bytes * option ioerr * R;
  rd_read_bound : ∀ r n, (length (rd_read r n).1.1 ≤ n)%nat;
}.

(** [Write(p)]: the number of bytes written and the error. *)
Class IOWriter (W : Type) := {
  wr_write : W → bytes → nat * option ioerr * W;
  wr_write_bound : ∀ w p, ((wr_write w p).1.1 ≤ length p)%nat;
  (** "Write must return a non-nil error if it returns n < len(p)" *)
  wr_write_short : ∀ w p, ((wr_write w p).1.1 < length p)%nat → (wr_write w p).1.2 ≠ None;
}.

Definition DefaultBufferSize : nat := 1024.

(** * Reader *)
Section reader.
Context {R : Type} `{IOReader R}.

Record Reader := mkReader {
  r_err : option ioerr;
  r_buf : bytes;
  r_rd : R;
  r_rpos : nat;
  r_wpos : nat;
}.

Definition NewReaderSize (rd : R) (size : Z) : Reader :=
  let size := if decide (size <= 0) then DefaultBufferSize else Z.to_nat size in
  mkReader None (replicate size x00) rd 0 0.

Definition NewReaderBuffer (rd : R) (buf : bytes) : Reader :=
  let buf := if decide (length buf = 0%nat) then replicate DefaultBufferSize x00 else buf in
  mkReader None buf rd 0 0.

(** [b.buf[b.rpos:b.wpos]] *)
Definition window (b : Reader) : bytes := slice (r_buf b) (r_rpos b) (r_wpos b).

Definition buffered (b : Reader) : nat := (r_wpos b - r_rpos b)%nat.

(** the first half of [fill]: move the unread bytes to the front *)
Definition compact (b : Reader) : Reader :=
  if decide (0 < r_rpos b)%nat then
    let '(buf, n) := copy_at (r_buf b) 0 (window b) in
    mkReader (r_err b) buf (r_rd b) 0 n
  else b.

Definition fill : M Reader ioerr unit := λ b,
  match r_err b with
  | Some e => (Err e, b)
  | None =>
      let b := compact b in
      let '(bs, e, rd) := rd_read (r_rd b) (length (r_buf b) - r_wpos b) in
      let buf := (copy_at (r_buf b) (r_wpos b) bs).1 in
      match e with
      | Some e => (Err e, mkReader (Some e) buf rd (r_rpos b) (r_wpos b))
      | None =>
          if decide (length bs = 0%nat) then
            (Err ErrNoProgress, mkReader (Some ErrNoProgress) buf rd (r_rpos b) (r_wpos b))
          else (Ok tt, mkReader None buf rd (r_rpos b) (r_wpos b + length bs))
      end
  end.

Definition set_rpos (rpos : nat) (b : Reader) : Reader :=
  mkReader (r_err b) (r_buf b) (r_rd b) rpos (r_wpos b).

(** [if b.err != nil { return b.err }] *)
Definition check_err : M Reader ioerr unit := λ b,
  match r_err b with Some e => (Err e, b) | None => (Ok tt, b) end.

(** [if b.buffered() == 0 { if b.fill() != nil { return b.err } }] *)
Definition fill_if_empty : M Reader ioerr unit :=
  n ← gets buffered;
  if decide (n = 0%nat) then fill else mret tt.

(** [Read(p)] with [len(p) = n]: the bytes copied to [p], and the error returned with
    them. *)
Definition Read (n : nat) : M Reader ioerr (bytes * option ioerr) := λ b,
  if decide (r_err b ≠ None ∨ n = 0%nat) then (Ok ([], r_err b), b)
  else if decide (buffered b = 0%nat ∧ (length (r_buf b) ≤ n)%nat) then
    let '(bs, e, rd) := rd_read (r_rd b) n in
    let err := match e with Some _ => e | None => r_err b end in
    (Ok (bs, err), mkReader err (r_buf b) rd (r_rpos b) (r_wpos b))
  else
    match fill_if_empty b with
    | (Err _, b') => (Ok ([], r_err b'), b')
    | (Panic, b') => (Panic, b')
    | (Ok _, b') =>
        let bs := take n (window b') in
        (Ok (bs, None), set_rpos (r_rpos b' + length bs) b')
    end.

Definition current_byte : M Reader ioerr byte := λ b,
  match r_buf b !! r_rpos b with
  | Some c => (Ok c, b)
  | None => (Panic, b)
  end.

Definition ReadByte : M Reader ioerr byte :=
  check_err ;;
  fill_if_empty ;;
  c ← current_byte;
  modify (λ b, set_rpos (r_rpos b + 1) b) ;;
  mret c.

Definition PeekByte : M Reader ioerr byte :=
  check_err ;;
  fill_if_empty ;;
  current_byte.

(** the loop of [ReadSlice]; the flag of the result tells the two returns that carry
    data apart: [true] for [return b.buf, bufio.ErrBufferFull] *)
Fixpoint readSlice_loop (fuel : nat) (delim : byte) : M Reader ioerr (bytes * bool) := λ b,
  match fuel with
  | O => (Err OutOfFuel, b)
  | S fuel =>
      match IndexByte (window b) delim with
      | Some index =>
          let limit := (r_rpos b + index + 1)%nat in
          (Ok (slice (r_buf b) (r_rpos b) limit, false), set_rpos limit b)
      | None =>
          if decide (buffered b = length (r_buf b)) then
            (Ok (r_buf b, true), set_rpos (r_wpos b) b)
          else (fill ;; readSlice_loop fuel delim) b
      end
  end.

(** every round but the last adds a byte to the buffer *)
Definition ReadSlice (delim : byte) : M Reader ioerr (bytes * bool) :=
  check_err ;;
  size ← gets (λ b, length (r_buf b));
  readSlice_loop (S size) delim.

(** [ReadBytes]: the fragments of a line longer than the buffer are collected in [full] *)
Fixpoint readBytes_loop (fuel : nat) (delim : byte) (full : bytes) : M Reader ioerr bytes :=
  match fuel with
  | O => fail OutOfFuel
  | S fuel =>
      '(f, more) ← ReadSlice delim;
      if more : bool then readBytes_loop fuel delim (full ++ f) else mret (full ++ f)
  end.

Definition ReadBytes (fuel : nat) (delim : byte) : M Reader ioerr bytes :=
  readBytes_loop fuel delim [].

(** [io.ReadFull(b, buf)] of the standard library, [n] bytes still to read *)
Fixpoint ioReadFull (fuel : nat) (n : nat) (got : bytes) : M Reader ioerr bytes :=
  if decide (n = 0%nat) then mret got
  else match fuel with
  | O => fail OutOfFuel
  | S fuel =>
      '(bs, e) ← Read n;
      match e with
      | Some e =>
          if decide (length bs = n) then mret (got ++ bs)
          else fail (if decide (e = EOF ∧ got ++ bs ≠ []) then ErrUnexpectedEOF else e)
      | None => ioReadFull fuel (n - length bs) (got ++ bs)
      end
  end.

(** [ReadFull(n)]; [None] is the nil slice *)
Definition ReadFull (fuel : nat) (n : nat) : M Reader ioerr (option bytes) :=
  check_err ;;
  if decide (n = 0%nat) then mret None
  else buf ← ioReadFull fuel n []; mret (Some buf).
End reader.
Arguments Reader : clear implicits.

(** * Writer *)
Section writer.
Context {W : Type} `{IOWriter W}.

Record Writer := mkWriter {
  w_err : option ioerr;
  w_buf : bytes;
  w_wr : W;
  w_wpos : nat;
}.

Definition NewWriterSize (wr : W) (size : Z) : Writer :=
  let size := if decide (size <= 0) then DefaultBufferSize else Z.to_nat size in
  mkWriter None (replicate size x00) wr 0.

Definition NewWriterBuffer (wr : W) (buf : bytes) : Writer :=
  let buf := if decide (length buf = 0%nat) then replicate DefaultBufferSize x00 else buf in
  mkWriter None buf wr 0.

Definition flush : M Writer ioerr unit := λ b,
  match w_err b with
  | Some e => (Err e, b)
  | None =>
      if decide (w_wpos b = 0%nat) then (Ok tt, b)
      else
        let '(n, e, wr) := wr_write (w_wr b) (take (w_wpos b) (w_buf b)) in
        match e with
        | Some e => (Err e, mkWriter (Some e) (w_buf b) wr (w_wpos b))
        | None =>
            if decide (n < w_wpos b)%nat then
              (Err ErrShortWrite, mkWriter (Some ErrShortWrite) (w_buf b) wr (w_wpos b))
            else (Ok tt, mkWriter None (w_buf b) wr 0)
        end
  end.

Definition Flush : M Writer ioerr unit := flush.

Definition available (b : Writer) : nat := (length (w_buf b) - w_wpos b)%nat.

(** [n := copy(b.buf[b.wpos:], p); b.wpos += n]: the writer and the rest of [p] *)
Definition push (b : Writer) (p : bytes) : Writer * bytes :=
  let '(buf, n) := copy_at (w_buf b) (w_wpos b) p in
  (mkWriter (w_err b) buf (w_wr b) (w_wpos b + n), drop n p).

(** one round of the loop of [Write]: the writer and what is left of [p] *)
Definition write_round (b : Writer) (p : bytes) : Writer * bytes :=
  if decide (w_wpos b = 0%nat) then
    let '(n, e, wr) := wr_write (w_wr b) p in
    (mkWriter e (w_buf b) wr (w_wpos b), drop n p)
  else let '(b, p) := push b p in ((flush b).2, p).

(** one round of the loop of [WriteString], which always goes through the buffer *)
Definition writeString_round (b : Writer) (p : bytes) : Writer * bytes :=
  let '(b, p) := push b p in ((flush b).2, p).

Definition write_tail (b : Writer) (p : bytes) : outcome ioerr unit * Writer :=
  match w_err b with
  | Some e => (Err e, b)
  | None => if decide (length p = 0%nat) then (Ok tt, b) else (Ok tt, (push b p).1)
  end.

(** the shape both share; the number of bytes written, which no caller reads, is left out *)
Fixpoint write_loop (fuel : nat) (round : Writer → bytes → Writer * bytes) (p : bytes)
    (b : Writer) : outcome ioerr unit * Writer :=
  if decide (w_err b = None ∧ (available b < length p)%nat) then
    match fuel with
    | O => (Err OutOfFuel, b)
    | S fuel => let '(b, p) := round b p in write_loop fuel round p b
    end
  else write_tail b p.

Definition Write (p : bytes) : M Writer ioerr unit := write_loop (S (S (length p))) write_round p.

Definition WriteString (s : bytes) : M Writer ioerr unit :=
  write_loop (S (S (length s))) writeString_round s.

Definition WriteByte (c : byte) : M Writer ioerr unit := λ b,
  match w_err b with
  | Some e => (Err e, b)
  | None =>
      match (if decide (available b = 0%nat) then flush b else (Ok tt, b)) with
      | (Ok _, b) =>
          if decide (w_wpos b < length (w_buf b))%nat then
            (Ok tt, mkWriter (w_err b) (<[w_wpos b := c]> (w_buf b)) (w_wr b) (w_wpos b + 1))
          else (Panic, b)
      | (Err e, b) => (Err e, b)
      | (Panic, b) => (Panic, b)
      end
  end.
End writer.
Arguments Writer : clear implicits.

(** * The slice allocator *)

(** A slice of a backing array: the array's number, the offset and the length. *)
Record region := mkRegion { rg_array : nat; rg_off : nat; rg_len : nat }.

(** [buf] is the unused tail of the current array; [sa_next] numbers the arrays the
    runtime's [make] returns. *)
Record sliceAlloc := mkAlloc { sa_buf : region; sa_next : nat }.

Definition Make (n : nat) (d : sliceAlloc) : region * sliceAlloc :=
  if decide (n = 0%nat) then (mkRegion (sa_next d) 0 0, mkAlloc (sa_buf d) (S (sa_next d)))
  else if decide (512 ≤ n)%nat then
    (mkRegion (sa_next d) 0 n, mkAlloc (sa_buf d) (S (sa_next d)))
  else
    let d := if decide (rg_len (sa_buf d) < n)%nat
             then mkAlloc (mkRegion (sa_next d) 0 8192) (S (sa_next d)) else d in
    let buf := sa_buf d in
    (mkRegion (rg_array buf) (rg_off buf) n,
     mkAlloc (mkRegion (rg_array buf) (rg_off buf + n) (rg_len buf - n)) (sa_next d)).

(** a run of [Make] calls *)
Fixpoint make_all (ns : list nat) (d : sliceAlloc) : list region * sliceAlloc :=
  match ns with
  | [] => ([], d)
  | n :: ns =>
      let '(r, d) := Make n d in
      let '(rs, d) := make_all ns d in (r :: rs, d)
  end.

Definition covers (r : region) (a i : nat) : Prop :=
  rg_array r = a ∧ (rg_off r ≤ i < rg_off r + rg_len r)%nat.

(** no byte is in two of the slices *)
Definition apart (r1 r2 : region) : Prop := ∀ a i, covers r1 a i → covers r2 a i → False.

(** the reader starts with a nil [buf] *)
Definition alloc_ok (d : sliceAlloc) : Prop :=
  rg_len (sa_buf d) = 0%nat ∨ (rg_array (sa_buf d) < sa_next d)%nat.

(** the bytes [d] may still hand out: the tail of its array and the arrays to come *)
Definition unused (d : sliceAlloc) (a i : nat) : Prop :=
  covers (sa_buf d) a i ∨ (sa_next d ≤ a)%nat.

Lemma Make_unused n d r d' :
  Make n d = (r, d') → alloc_ok d →
  rg_len r = n ∧ alloc_ok d' ∧
  (∀ a i, covers r a i → unused d a i ∧ ¬ unused d' a i) ∧
  (∀ a i, unused d' a i → unused d a i).
Proof.
  unfold Make, alloc_ok, unused, covers. destruct d as [[arr off len] next].
  repeat case_decide; intros [= <- <-] Hd; cbn in *.
  all: split_and!; [lia..|intros a i; lia|intros a i; lia].
Qed.

Lemma make_all_unused ns d rs d' :
  make_all ns d = (rs, d') → alloc_ok d →
  ∀ r, r ∈ rs → ∀ a i, covers r a i → unused d a i.
Proof.
  revert d rs d'. induction ns as [|n ns IH]; intros d rs d'; cbn.
  { intros [= <- <-] _ r Hr. by apply elem_of_nil in Hr. }
  destruct (Make n d) as [r0 d0] eqn:Hm. destruct (make_all ns d0) as [rs0 d1] eqn:Hms.
  intros [= <- <-] Hd. destruct (Make_unused _ _ _ _ Hm Hd) as (_ & Hd0 & Hr0 & Hsub).
  intros r [->|Hr]%elem_of_cons a i Hc; [by apply Hr0|].
  apply Hsub. by eapply IH.
Qed.
