(* ===== verification/BufioSpec.v ===== *)
(** Buffered I/O against byte streams: [bufio2.Reader] returns the bytes of the stream
    its [io.Reader] delivers, whatever the chunks; [bufio2.Writer] passes on the bytes
    it was given. *)

From S2P Require Import Prelude Bufio.
(** * Slices *)
Lemma copy_at_length dst off src : (off ≤ length dst)%nat → length (copy_at dst off src).1 = length dst.
Proof. intros Hoff. unfold copy_at. cbn. rewrite !length_app, !length_take, length_drop. lia. Qed.

Lemma slice_copy_at dst off src lo :
  (lo ≤ off)%nat → (off + length src ≤ length dst)%nat →
  slice (copy_at dst off src).1 lo (off + length src) = slice dst lo off ++ src.
Proof.
  intros Hlo Hsrc. unfold slice, copy_at. cbn.
  replace ((length dst - off) `min` length src)%nat with (length src) by lia.
  rewrite (take_ge src) by lia.
  rewrite drop_app_le by (rewrite length_take; lia).
  rewrite app_assoc, take_app_le
    by (rewrite length_app, length_drop, length_take; lia).
  rewrite take_ge by (rewrite length_app, length_drop, length_take; lia).
  f_equal. by rewrite skipn_firstn_comm.
Qed.

Lemma IndexByte_Some b c n :
  IndexByte b c = Some n → ∃ b2, b = take n b ++ (c :: b2) ∧ c ∉ take n b ∧ (n < length b)%nat.
Proof.
  revert n. induction b as [|x b IH]; intros n; cbn; [done|].
  case_decide as Hx; [intros [= <-]; subst; exists b; cbn; split_and!; [done|apply not_elem_of_nil|lia]|].
  destruct (IndexByte b c) as [m|] eqn:Hm; [|done]. intros [= <-]. cbn.
  destruct (IH m eq_refl) as (b2 & Hb & Hc & Hl). exists b2.
  split_and!; [by f_equal| |lia]. by apply not_elem_of_cons.
Qed.

Lemma IndexByte_None b c : IndexByte b c = None → c ∉ b.
Proof.
  induction b as [|x b IH]; cbn; [intros _; apply not_elem_of_nil|].
  case_decide; [done|]. destruct (IndexByte b c) eqn:Hm; [done|]. intros _.
  apply not_elem_of_cons. split; [done|]. by apply IH.
Qed.

(** The line up to the first [c] is unique. *)
Lemma line_unique (c : byte) l1 s1 l2 s2 :
  l1 ++ c :: s1 = l2 ++ c :: s2 → c ∉ l1 → c ∉ l2 → l1 = l2 ∧ s1 = s2.
Proof.
  revert l2. induction l1 as [|x l1 IH]; intros [|y l2]; cbn; intros Heq Hc1 Hc2; simplify_eq.
  - done.
  - by rewrite not_elem_of_cons in Hc2; destruct Hc2.
  - by rewrite not_elem_of_cons in Hc1; destruct Hc1.
  - rewrite not_elem_of_cons in Hc1, Hc2. destruct Hc1, Hc2.
    destruct (IH l2) as [-> ->]; done.
Qed.

(** * Reader *)
Section reader.
Context {R : Type} `{IOReader R}.

(** [r] is about to deliver the bytes [s], in pieces of its own choice; what it does
    after them is not restricted. *)
Inductive delivers : R → bytes → Prop :=
| delivers_nil r : delivers r []
| delivers_read r s (k : nat → nat) (next : nat → R) :
    (∀ n, (0 < n)%nat → (0 < k n ≤ n)%nat ∧ (k n ≤ length s)%nat ∧
                        rd_read r n = (take (k n) s, None, next n)) →
    (∀ n, (0 < n)%nat → delivers (next n) (drop (k n) s)) →
    delivers r s.

Definition reader_wf (b : Reader R) : Prop :=
  (r_rpos b ≤ r_wpos b ≤ length (r_buf b))%nat ∧ (0 < length (r_buf b))%nat.

(** A healthy reader with a buffer of [size] bytes whose unread bytes are [s]: those in
    the buffer and those still to be delivered. *)
Definition holds (size : nat) (b : Reader R) (s : bytes) : Prop :=
  r_err b = None ∧ reader_wf b ∧ length (r_buf b) = size ∧
  ∃ pend, s = window b ++ pend ∧ delivers (r_rd b) pend.

Lemma NewReaderSize_holds rd s size :
  0 < size → delivers rd s → holds (Z.to_nat size) (NewReaderSize rd size) s.
Proof.
  intros Hsize Hrd. unfold NewReaderSize. rewrite decide_False by lia.
  repeat split; cbn; rewrite ?length_replicate; [lia..|]. by exists s.
Qed.

Lemma window_length b : reader_wf b → length (window b) = buffered b.
Proof. intros [? ?]. unfold window, slice, buffered. rewrite length_take, length_drop. lia. Qed.

Lemma window_buffer b : reader_wf b → buffered b = length (r_buf b) → window b = r_buf b.
Proof.
  intros [? ?]. unfold buffered, window, slice. intros Hb.
  assert (r_rpos b = 0%nat) as -> by lia. rewrite drop_0, take_ge by lia. done.
Qed.

Lemma compact_wf b :
  reader_wf b →
  reader_wf (compact b) ∧ window (compact b) = window b ∧ r_err (compact b) = r_err b ∧
  length (r_buf (compact b)) = length (r_buf b) ∧ r_rd (compact b) = r_rd b ∧
  r_wpos (compact b) = buffered b ∧ r_rpos (compact b) = 0%nat.
Proof.
  intros Hwf. pose proof Hwf as [Hb Hs]. pose proof (window_length b Hwf) as Hl.
  unfold compact. case_decide; [|unfold buffered; repeat split; lia].
  unfold copy_at, reader_wf, buffered in *. cbn. rewrite ?drop_0.
  replace ((length (r_buf b) - 0) `min` length (window b))%nat with (length (window b)) by lia.
  rewrite (take_ge (window b)), take_0 by lia. cbn [app].
  assert (length (window b ++ drop (length (window b)) (r_buf b)) = length (r_buf b)) as Hlen
    by (rewrite length_app, length_drop; lia).
  rewrite Hlen. repeat split; try lia.
  by rewrite Nat.sub_0_r, take_app_length.
Qed.

(** A [fill] of a buffer with room moves bytes of the stream into the buffer. *)
Lemma fill_holds size b s :
  holds size b s → (buffered b < size)%nat → (buffered b < length s)%nat →
  ∃ b', fill b = (Ok tt, b') ∧ holds size b' s ∧ (buffered b < buffered b')%nat.
Proof.
  intros (He & Hwf & Hsize & pend & Hs & Hd) Hroom Hmore.
  destruct (compact_wf b Hwf) as (Hwf' & Hw & He' & Hlb & Hrd & Hwp & Hrp).
  unfold fill. rewrite He. set (c := compact b) in *.
  inversion Hd as [?|? ? k next Hread Hnext]; subst.
  { rewrite app_nil_r, (window_length b Hwf) in Hmore. lia. }
  remember (length (r_buf c) - r_wpos c)%nat as m eqn:Hm.
  destruct (Hread m) as ((Hk & Hk') & Hk2 & Hr); [lia|].
  rewrite Hrd, Hr. cbn.
  assert (length (take (k m) pend) = k m) as Hlen by (rewrite length_take; lia).
  rewrite decide_False by lia. eexists. split; [done|].
  assert (r_wpos c + length (take (k m) pend) ≤ length (r_buf c))%nat as Hfit by lia.
  assert (length (copy_at (r_buf c) (r_wpos c) (take (k m) pend)).1 = length (r_buf b)) as Hlc
    by (rewrite copy_at_length; lia).
  unfold holds, reader_wf, buffered in *. cbn [r_err r_buf r_rd r_rpos r_wpos]. rewrite Hlc.
  split; [|lia]. repeat split; [lia..|].
  exists (drop (k m) pend). split; [|apply Hnext; lia].
  rewrite <-Hw. unfold window. cbn [r_buf r_rpos r_wpos].
  rewrite (slice_copy_at (r_buf c)) by lia.
  by rewrite <-app_assoc, take_drop.
Qed.

(** Moving [rpos] over the first bytes of the window takes them off the stream. *)
Lemma set_rpos_holds size b s n :
  holds size b s → (n ≤ buffered b)%nat →
  window b = take n s ++ window (set_rpos (r_rpos b + n) b) ∧
  holds size (set_rpos (r_rpos b + n) b) (drop n s).
Proof.
  intros (He & Hwf & Hsize & pend & -> & Hd) Hn. pose proof (window_length b Hwf) as Hl.
  destruct Hwf as [? ?]. unfold buffered in *.
  assert (window (set_rpos (r_rpos b + n) b) = drop n (window b)) as Hw.
  { unfold window, slice. cbn. rewrite skipn_firstn_comm, drop_drop. f_equal. lia. }
  rewrite Hw, take_app_le, take_drop by lia. split; [done|].
  split; [done|]. split; [split; cbn; lia|]. split; [done|].
  exists pend. rewrite Hw, drop_app_le by lia. done.
Qed.

(** With a byte left on the stream, the buffer is not empty after [fill_if_empty]. *)
Lemma fill_if_empty_holds size b s :
  holds size b s → s ≠ [] →
  ∃ b', fill_if_empty b = (Ok tt, b') ∧ holds size b' s ∧ (0 < buffered b')%nat.
Proof.
  intros Hb Hs. unfold fill_if_empty, mbind, M_bind, gets. cbn.
  case_decide as H0; [|exists b; split_and!; [done..|lia]].
  destruct s as [|x s]; [done|].
  destruct (fill_holds size b (x :: s)) as (b' & Hf & Hh & Hl); cbn; [done| |lia|].
  { destruct Hb as (_ & [_ ?] & <- & _). lia. }
  exists b'. split_and!; [done..|lia].
Qed.

Lemma current_byte_holds size b c s :
  holds size b (c :: s) → (0 < buffered b)%nat → current_byte b = (Ok c, b).
Proof.
  intros (He & Hwf & Hsize & pend & Hs & Hd) H0.
  pose proof (window_length b Hwf) as Hl. unfold current_byte.
  assert (r_buf b !! r_rpos b = window b !! 0%nat) as ->.
  { unfold window, slice. unfold buffered in *. rewrite lookup_take_lt, lookup_drop by lia. f_equal. lia. }
  destruct (window b) as [|x w]; cbn in *; [lia|]. by injection Hs as -> ->.
Qed.

Lemma check_err_holds size b s : holds size b s → check_err b = (Ok tt, b).
Proof. intros (He & _). unfold check_err. by rewrite He. Qed.

Lemma ReadByte_holds size b c s :
  holds size b (c :: s) → ∃ b', ReadByte b = (Ok c, b') ∧ holds size b' s.
Proof.
  intros Hb. destruct (fill_if_empty_holds size b (c :: s)) as (b' & Hf & Hh & Hl); [done..|].
  destruct (set_rpos_holds _ _ _ 1 Hh) as [_ Hn]; [lia|].
  unfold ReadByte, mbind, M_bind. rewrite (check_err_holds _ _ _ Hb), Hf, (current_byte_holds _ _ _ _ Hh Hl).
  eexists. by split.
Qed.

Lemma PeekByte_holds size b c s :
  holds size b (c :: s) → ∃ b', PeekByte b = (Ok c, b') ∧ holds size b' (c :: s).
Proof.
  intros Hb. destruct (fill_if_empty_holds size b (c :: s)) as (b' & Hf & Hh & Hl); [done..|].
  unfold PeekByte, mbind, M_bind. rewrite (check_err_holds _ _ _ Hb), Hf, (current_byte_holds _ _ _ _ Hh Hl).
  eexists. by split.
Qed.

(** [ReadSlice] on a line that fits the buffer, and on one that does not. *)
Definition slice_result (size : nat) (delim : byte) (l s : bytes) (res : bytes * bool) (s' : bytes) : Prop :=
  if decide (length l < size)%nat then res = (l ++ [delim], false) ∧ s' = s
  else res = (take size (l ++ delim :: s), true) ∧ s' = drop size (l ++ delim :: s).

Lemma readSlice_loop_holds fuel size delim b l s :
  holds size b (l ++ delim :: s) → delim ∉ l → (size - buffered b < fuel)%nat →
  ∃ res b' s', readSlice_loop fuel delim b = (Ok res, b') ∧ holds size b' s' ∧
               slice_result size delim l s res s'.
Proof.
  revert b. induction fuel as [|fuel IH]; intros b Hb Hl Hfuel; [lia|]. cbn.
  pose proof Hb as (He & Hwf & Hsize & pend & Hs & Hd). pose proof (window_length b Hwf) as Hwl.
  destruct (IndexByte (window b) delim) as [index|] eqn:Hi.
  - destruct (IndexByte_Some _ _ _ Hi) as (w2 & Hw & Hnot & Hlt).
    rewrite Hw, <-app_assoc in Hs. cbn in Hs.
    destruct (line_unique _ _ _ _ _ Hs Hl Hnot) as [Hl' Hs'].
    destruct (set_rpos_holds _ _ _ (index + 1) Hb) as [_ Hn]; [lia|].
    assert (length l = index) as Hll by (rewrite Hl', length_take; lia).
    rewrite Nat.add_assoc in Hn. eexists _, _, s.
    split; [done|]. split.
    { replace s with (drop (index + 1) (l ++ delim :: s)); [done|].
      rewrite drop_app_ge by lia. by replace (index + 1 - length l)%nat with 1%nat by lia. }
    unfold slice_result. destruct Hwf as [? ?]. unfold buffered in *. rewrite decide_True by lia.
    split; [|done]. f_equal. unfold slice.
    replace (r_rpos b + index + 1 - r_rpos b)%nat with (index + 1)%nat by lia.
    assert (take (index + 1) (window b) = l ++ [delim]) as <-.
    { rewrite Hw, <-Hl', <-Hll. rewrite take_app_ge by lia. f_equal.
      by replace (length l + 1 - length l)%nat with 1%nat by lia. }
    unfold window, slice. rewrite take_take. f_equal. lia.
  - apply IndexByte_None in Hi. case_decide as Hfull.
    + pose proof (window_buffer b Hwf Hfull) as Hwb.
      assert (size ≤ length l)%nat as Hlong.
      { destruct (decide (size ≤ length l)%nat) as [|Hn]; [done|]. exfalso. apply Hi.
        assert (window b !! length l = Some delim) as Hx%list_elem_of_lookup_2; [|done].
        rewrite <-(lookup_app_l _ pend) by (rewrite Hwb; lia). rewrite <-Hs.
        rewrite lookup_app_r by lia. by rewrite Nat.sub_diag. }
      destruct (set_rpos_holds _ _ _ (buffered b) Hb) as [_ Hn]; [lia|].
      assert (r_rpos b + buffered b = r_wpos b)%nat as Hpos by (destruct Hwf; unfold buffered; lia).
      rewrite Hpos in Hn. eexists _, _, _. split; [done|]. split; [exact Hn|].
      unfold slice_result. rewrite decide_False by lia. split; [|by rewrite Hfull, Hsize].
      f_equal. rewrite Hs, Hwb, take_app_le, take_ge by lia. done.
    + assert (buffered b < size)%nat as Hroom by (destruct Hwf; unfold buffered in *; lia).
      destruct (fill_holds _ _ _ Hb Hroom) as (b' & Hf & Hh & Hlt).
      { destruct (decide (buffered b < length (l ++ delim :: s))%nat) as [|Hn]; [done|].
        exfalso. apply Hi. assert (window b = l ++ delim :: s) as ->.
        { rewrite Hs in Hn |- *. rewrite length_app in Hn.
          destruct pend; [by rewrite app_nil_r|]. cbn in Hn. lia. }
        apply elem_of_app. right. by constructor. }
      unfold mbind, M_bind. rewrite Hf. apply IH; [done..|lia].
Qed.

Lemma ReadSlice_holds size delim b l s :
  holds size b (l ++ delim :: s) → delim ∉ l →
  ∃ res b' s', ReadSlice delim b = (Ok res, b') ∧ holds size b' s' ∧
               slice_result size delim l s res s'.
Proof.
  intros Hb Hl. unfold ReadSlice, mbind, M_bind, gets. rewrite (check_err_holds _ _ _ Hb).
  apply readSlice_loop_holds; [done..|]. destruct Hb as (_ & _ & <- & _). lia.
Qed.

Lemma readBytes_loop_holds fuel size delim full b l s :
  holds size b (l ++ delim :: s) → delim ∉ l → (length l < fuel)%nat →
  ∃ b', readBytes_loop fuel delim full b = (Ok (full ++ l ++ [delim]), b') ∧ holds size b' s.
Proof.
  revert b l full. induction fuel as [|fuel IH]; intros b l full Hb Hl Hfuel; [lia|]. cbn.
  destruct (ReadSlice_holds _ _ _ _ _ Hb Hl) as ([f more] & b' & s' & Hr & Hh & Hres).
  unfold mbind, M_bind. rewrite Hr. unfold slice_result in Hres. case_decide as Hlong.
  - destruct Hres as [[= -> ->] ->]. by exists b'.
  - destruct Hres as [[= -> ->] ->].
    assert (0 < size)%nat as Hpos by (destruct Hb as (_ & [_ ?] & <- & _); lia).
    rewrite take_app_le by lia. rewrite drop_app_le in Hh by lia.
    assert (delim ∉ drop size l) as Hl'.
    { intros Hin. apply Hl. rewrite <-(take_drop size l). apply elem_of_app. by right. }
    destruct (IH b' (drop size l) (full ++ take size l) Hh Hl') as (b'' & Hr' & Hh').
    { rewrite length_drop. lia. }
    exists b''. split; [|done]. rewrite Hr'. f_equal. f_equal.
    rewrite <-app_assoc. f_equal. by rewrite app_assoc, take_drop.
Qed.

(** [ReadBytes] returns the line, however long it is. *)
Lemma ReadBytes_holds fuel size delim b l s :
  holds size b (l ++ delim :: s) → delim ∉ l → (length l < fuel)%nat →
  ∃ b', ReadBytes fuel delim b = (Ok (l ++ [delim]), b') ∧ holds size b' s.
Proof. apply readBytes_loop_holds. Qed.

(** [Read] returns at least one and at most [n] bytes of the stream. *)
Lemma Read_holds size n b s :
  holds size b s → (0 < n)%nat → s ≠ [] →
  ∃ k b', (0 < k ≤ n)%nat ∧ (k ≤ length s)%nat ∧ Read n b = (Ok (take k s, None), b') ∧
          holds size b' (drop k s).
Proof.
  intros Hb Hn Hs. pose proof Hb as (He & Hwf & Hsize & pend & Hsp & Hd).
  unfold Read. rewrite He. rewrite decide_False by (intros [?|?]; [done|lia]).
  pose proof (window_length b Hwf) as Hwl. case_decide as Hdir.
  - destruct Hdir as [H0 Hbig]. rewrite H0 in Hwl. apply nil_length_inv in Hwl.
    rewrite Hwl in Hsp. cbn in Hsp. subst s.
    inversion Hd as [?|? ? k next Hread Hnext]; subst; [done|].
    destruct (Hread n Hn) as ((? & ?) & ? & Hr). rewrite Hr. exists (k n). eexists.
    split_and!; [lia..|done|]. repeat split; cbn; [destruct Hwf; lia..|].
    exists (drop (k n) pend). split; [|by apply Hnext].
    change (drop (k n) pend = window b ++ drop (k n) pend). by rewrite Hwl.
  - destruct (fill_if_empty_holds _ _ _ Hb Hs) as (b' & Hf & Hh & Hl). rewrite Hf.
    pose proof Hh as (_ & Hwf' & _ & pend' & Hsp' & _). pose proof (window_length b' Hwf') as Hwl'.
    assert (take n (window b') = take (n `min` buffered b') s) as Htake.
    { rewrite Hsp'. rewrite take_app_le by (rewrite Hwl'; apply Nat.le_min_r). rewrite <-Hwl', <-take_take.
      f_equal. by rewrite take_ge. }
    exists (n `min` buffered b')%nat. eexists. rewrite Htake, length_take.
    assert (buffered b' ≤ length s)%nat by (rewrite Hsp', length_app; lia).
    split_and!; [lia..|done|].
    replace (n `min` buffered b' `min` length s)%nat with (n `min` buffered b')%nat by lia.
    apply set_rpos_holds; [done|lia].
Qed.

Lemma ioReadFull_holds fuel size n got b p s :
  holds size b (p ++ s) → length p = n → (n ≤ fuel)%nat →
  ∃ b', ioReadFull fuel n got b = (Ok (got ++ p), b') ∧ holds size b' s.
Proof.
  revert n got b p. induction fuel as [|fuel IH]; intros n got b p Hb Hp Hn; cbn.
  { rewrite decide_True by lia. assert (p = []) as -> by (apply nil_length_inv; lia).
    exists b. by rewrite app_nil_r. }
  case_decide as H0.
  { assert (p = []) as -> by (apply nil_length_inv; lia). exists b. by rewrite app_nil_r. }
  assert (p ++ s ≠ []) as Hne by (destruct p; cbn in *; [lia|done]).
  destruct (Read_holds _ n _ _ Hb) as (k & b' & Hk & _ & Hr & Hh); [lia|done|].
  unfold mbind, M_bind. rewrite Hr.
  rewrite take_app_le by lia. rewrite drop_app_le in Hh by lia.
  destruct (IH (n - length (take k p))%nat (got ++ take k p) b' (drop k p) Hh) as (b'' & Hr' & Hh').
  { rewrite length_drop, length_take. lia. }
  { rewrite length_take. lia. }
  exists b''. split; [|done]. rewrite Hr'. by rewrite <-app_assoc, take_drop.
Qed.

(** [ReadFull(n)] returns the next [n] bytes. *)
Lemma ReadFull_holds fuel size b p s :
  holds size b (p ++ s) → p ≠ [] → (length p ≤ fuel)%nat →
  ∃ b', ReadFull fuel (length p) b = (Ok (Some p), b') ∧ holds size b' s.
Proof.
  intros Hb Hp Hf. unfold ReadFull, mbind, M_bind. rewrite (check_err_holds _ _ _ Hb).
  rewrite decide_False by (by destruct p).
  destruct (ioReadFull_holds fuel size (length p) [] b p s Hb) as (b' & Hr & Hh); [done..|].
  exists b'. by rewrite Hr.
Qed.

(** ** Over any [io.Reader]: the positions stay in range and no index is out of range,
    whatever is delivered and whichever error comes. *)
Lemma window_wf b n : reader_wf b → (n ≤ buffered b)%nat → reader_wf (set_rpos (r_rpos b + n) b).
Proof. unfold reader_wf, buffered. cbn. lia. Qed.

Lemma fill_wf b :
  reader_wf b →
  wp fill (λ r b', reader_wf b' ∧ length (r_buf b') = length (r_buf b) ∧
    match r with
    | Ok _ => r_err b' = None ∧ (buffered b < buffered b')%nat
    | Err e => r_err b' = Some e
    | Panic => False
    end) b.
Proof.
  intros Hwf. unfold wp, fill. destruct (r_err b) as [e|] eqn:He; [done|].
  destruct (compact_wf b Hwf) as ([Hc Hc0] & Hw & He' & Hlb & Hrd & Hwp & Hrp).
  pose proof (rd_read_bound (r_rd (compact b)) (length (r_buf (compact b)) - r_wpos (compact b))) as Hbd.
  destruct (rd_read _ _) as [[bs e] rd]. cbn in Hbd.
  assert (length (copy_at (r_buf (compact b)) (r_wpos (compact b)) bs).1 = length (r_buf b)) as Hl
    by (rewrite copy_at_length; lia).
  unfold reader_wf, buffered in *. destruct e as [e|]; [|case_decide]; cbn; rewrite Hl;
    repeat split; (done || lia).
Qed.

Lemma fill_if_empty_wf b :
  reader_wf b →
  wp fill_if_empty (λ r b', reader_wf b' ∧
    match r with Ok _ => (0 < buffered b')%nat | Err e => r_err b' = Some e | Panic => False end) b.
Proof.
  intros Hwf. unfold fill_if_empty. wp_steps. case_decide; [|apply wp_ret; split; [done|lia]].
  eapply wp_mono; [by apply fill_wf|]. intros [] b'; cbn; [|tauto..]. intuition lia.
Qed.

(** [Read] copies at most [n] bytes. *)
Lemma Read_wf n b :
  reader_wf b →
  wp (Read n) (λ r b', reader_wf b' ∧
    match r with Ok (bs, _) => (length bs ≤ n)%nat | Err _ => False | Panic => False end) b.
Proof.
  intros Hwf. unfold wp, Read. case_decide; [cbn; split; [done|lia]|]. case_decide.
  { pose proof (rd_read_bound (r_rd b) n) as Hbd. destruct (rd_read _ _) as [[bs e] rd].
    cbn in *. by split. }
  pose proof (fill_if_empty_wf b Hwf) as Hf. unfold wp in Hf.
  destruct (fill_if_empty b) as [[[]|e|] b'] eqn:Hb; cbn in *; [|split; [tauto|lia]|tauto].
  destruct Hf as [Hwf' Hl]. rewrite length_take, (window_length _ Hwf'). split; [|lia].
  apply window_wf; [done|lia].
Qed.

Lemma readSlice_loop_wf fuel delim b :
  reader_wf b → (length (r_buf b) - buffered b < fuel)%nat →
  wp (readSlice_loop fuel delim) (λ r b', reader_wf b' ∧
    match r with Ok (bs, more) => bs ≠ [] | Err e => r_err b' = Some e | Panic => False end) b.
Proof.
  revert b. induction fuel as [|fuel IH]; intros b Hwf Hf; [lia|]. unfold wp. cbn.
  pose proof (window_length b Hwf) as Hl.
  destruct (IndexByte (window b) delim) as [i|] eqn:Hi.
  - destruct (IndexByte_Some _ _ _ Hi) as (_ & _ & _ & Hlt). cbn. split.
    + rewrite <-Nat.add_assoc. apply window_wf; [done|lia].
    + intros H0%(f_equal length). unfold slice in H0.
      rewrite length_take, length_drop in H0. destruct Hwf. unfold buffered in *. cbn in H0. lia.
  - case_decide as Hfull; cbn.
    + destruct Hwf. unfold reader_wf. cbn. split; [lia|]. by destruct (r_buf b); cbn in *; [lia|].
    + apply (wp_bind fill). eapply wp_mono; [by apply fill_wf|].
      intros [[]|e|] b'; cbn; [|tauto..]. intros (Hwf' & Hs & _ & Hlt).
      apply IH; [done|]. destruct Hwf. unfold buffered in *. lia.
Qed.

(** [ReadSlice] returns (its loop ends) with bytes or with the error it recorded. *)
Lemma ReadSlice_wf delim b :
  reader_wf b →
  wp (ReadSlice delim) (λ r b', reader_wf b' ∧
    match r with Ok (bs, _) => bs ≠ [] | Err e => r_err b' = Some e | Panic => False end) b.
Proof.
  intros Hwf. unfold ReadSlice. apply wp_bind. unfold wp at 1, check_err.
  destruct (r_err b) as [e|] eqn:He; cbn; [done|]. apply (readSlice_loop_wf (S (length (r_buf b)))); [done|lia].
Qed.

Lemma ReadSlice_safe delim : safe reader_wf (ReadSlice delim).
Proof.
  intros b Hb. eapply wp_mono; [by apply ReadSlice_wf|]. intros [[]|e|] b'; cbn; intuition done.
Qed.

Lemma readBytes_loop_safe fuel delim full : safe reader_wf (readBytes_loop fuel delim full).
Proof.
  revert full. induction fuel as [|fuel IH]; intros full; cbn; [apply safe_fail|].
  apply safe_bind; [apply ReadSlice_safe|]. intros [f []]; [apply IH|apply safe_ret].
Qed.

Lemma ReadBytes_safe fuel delim : safe reader_wf (ReadBytes fuel delim).
Proof. apply readBytes_loop_safe. Qed.

Lemma check_err_safe : safe reader_wf check_err.
Proof. intros b Hb. unfold wp, check_err. by destruct (r_err b). Qed.

Lemma PeekByte_safe : safe reader_wf PeekByte.
Proof.
  apply safe_bind; [apply check_err_safe|]. intros _ b Hb. apply wp_bind.
  eapply wp_mono; [by apply fill_if_empty_wf|]. intros [[]|e|] b'; cbn; [|intuition done..].
  intros [Hwf Hl]. unfold wp, current_byte.
  destruct (r_buf b' !! r_rpos b') eqn:Hc; [done|].
  apply lookup_ge_None in Hc. destruct Hwf. unfold buffered in *. lia.
Qed.

Lemma ReadByte_safe : safe reader_wf ReadByte.
Proof.
  apply safe_bind; [apply check_err_safe|]. intros _ b Hb. apply wp_bind.
  eapply wp_mono; [by apply fill_if_empty_wf|]. intros [[]|e|] b'; cbn; [|intuition done..].
  intros [Hwf Hl]. apply wp_bind. unfold wp at 1, current_byte.
  destruct (r_buf b' !! r_rpos b') eqn:Hc; cbn.
  - wp_steps. split; [done|]. apply window_wf; [done|lia].
  - apply lookup_ge_None in Hc. destruct Hwf. unfold buffered in *. lia.
Qed.

(** what [io.ReadFull] returns is [n] bytes long *)
Lemma ioReadFull_wf fuel n got b :
  reader_wf b →
  wp (ioReadFull fuel n got) (λ r b', reader_wf b' ∧
    match r with Ok bs => length bs = (length got + n)%nat | Err _ => True | Panic => False end) b.
Proof.
  revert n got b. induction fuel as [|fuel IH]; intros n got b Hb; cbn.
  { case_decide; [apply wp_ret; split; [done|lia]|by apply wp_fail]. }
  case_decide; [apply wp_ret; split; [done|lia]|]. apply wp_bind.
  eapply wp_mono; [by apply Read_wf|]. intros [[bs e]|e|] b'; cbn; [|tauto..]. intros [Hwf Hl].
  destruct e as [e|].
  - case_decide; [apply wp_ret|by apply wp_fail]. rewrite length_app. split; [done|lia].
  - eapply wp_mono; [by apply IH|]. intros [r|e|] b''; cbn; [|tauto..].
    rewrite length_app. intuition lia.
Qed.

Lemma ReadFull_wf fuel n b :
  reader_wf b → (0 < n)%nat →
  wp (ReadFull fuel n) (λ r b', reader_wf b' ∧
    match r with Ok bs => ∃ p, bs = Some p ∧ length p = n | Err _ => True | Panic => False end) b.
Proof.
  intros Hb Hn. apply wp_bind. unfold wp at 1, check_err. destruct (r_err b) as [e|]; cbn; [done|].
  rewrite decide_False by lia. apply wp_bind. eapply wp_mono; [by apply ioReadFull_wf|].
  intros [p|e|] b'; cbn; [|tauto..]. intros [? ?]. wp_steps. eauto.
Qed.
End reader.

(** * Writer *)
Section writer.
Context {W : Type} `{IOWriter W}.

Definition writer_wf (b : Writer W) : Prop :=
  (w_wpos b ≤ length (w_buf b))%nat ∧ (0 < length (w_buf b))%nat.

(** Every error the writer returns is the one it has recorded. *)
Definition recorded (r : outcome ioerr unit) (b : Writer W) : Prop :=
  match r with Ok _ => w_err b = None | Err e => w_err b = Some e | Panic => False end.

Lemma push_wf b p : writer_wf b → writer_wf (push b p).1 ∧ w_err (push b p).1 = w_err b ∧
  length (push b p).2 = (length p - available b)%nat ∧
  length (w_buf (push b p).1) = length (w_buf b).
Proof.
  intros [? ?]. unfold push, available. pose proof (copy_at_length (w_buf b) (w_wpos b) p) as Hl.
  unfold copy_at in *. cbn in *. unfold writer_wf. cbn. rewrite Hl, length_drop by done.
  split_and!; [lia..|done|lia|lia].
Qed.

Lemma flush_wf b :
  writer_wf b → wp flush (λ r b', writer_wf b' ∧ recorded r b' ∧ w_buf b' = w_buf b ∧
                                  (r = Ok tt → w_wpos b' = 0%nat)) b.
Proof.
  intros Hwf. unfold wp, flush. destruct (w_err b) as [e|] eqn:He; [done|].
  case_decide; [done|]. destruct (wr_write _ _) as [[n e] wr]. unfold writer_wf in *.
  destruct e as [e|]; [|case_decide]; cbn; intuition (done || lia).
Qed.

(** a round of either loop keeps the writer in order, and unless it records an error
    brings the end of the loop closer *)
Definition work (b : Writer W) (p : bytes) : nat :=
  (length p + if decide (available b = 0%nat) then 1 else 0)%nat.

Definition round_ok (round : Writer W → bytes → Writer W * bytes) : Prop :=
  ∀ b p, writer_wf b → w_err b = None → (available b < length p)%nat →
    writer_wf (round b p).1 ∧
    (w_err (round b p).1 = None → (work (round b p).1 (round b p).2 < work b p)%nat).

Lemma writeString_round_ok : round_ok writeString_round.
Proof.
  intros b p Hwf He Hav. unfold writeString_round.
  destruct (push_wf b p Hwf) as (Hwf' & He' & Hl & Hb). destruct (push b p) as [b1 p1]. cbn in *.
  pose proof (flush_wf b1 Hwf') as Hf. unfold wp in Hf.
  destruct (flush b1) as [[[]|e|] b2]; cbn in *; [|intuition congruence..].
  destruct Hf as (Hwf2 & _ & Hb2 & Hz). split; [done|]. intros _. unfold work.
  destruct Hwf2 as [_ ?]. unfold available in *. rewrite (Hz eq_refl). repeat case_decide; lia.
Qed.

Lemma write_round_ok : round_ok write_round.
Proof.
  intros b p Hwf He Hav. unfold write_round. case_decide as Hz.
  - pose proof (wr_write_short (w_wr b) p) as Hs. pose proof (wr_write_bound (w_wr b) p) as Hn.
    destruct (wr_write (w_wr b) p) as [[n e] wr]. cbn in *. split; [done|]. intros ->.
    destruct (decide (n < length p)%nat) as [Hlt|]; [by destruct (Hs Hlt)|].
    unfold work. rewrite drop_ge by lia. destruct Hwf. unfold available in *. cbn.
    repeat case_decide; lia.
  - by apply (writeString_round_ok b p).
Qed.

Lemma write_loop_wf round fuel p b :
  round_ok round → writer_wf b → (work b p < fuel)%nat →
  wp (write_loop fuel round p) (λ r b', writer_wf b' ∧ recorded r b') b.
Proof.
  intros Hr. revert b p. induction fuel as [|fuel IH]; intros b p Hwf Hf; [lia|].
  unfold wp. cbn. case_decide as Hc.
  - destruct Hc as [He Hav]. destruct (Hr b p Hwf He Hav) as [Hwf' Hp].
    destruct (round b p) as [b1 p1]. cbn [fst snd] in *. destruct (w_err b1) as [e|] eqn:He1.
    + destruct fuel; cbn; rewrite decide_False by (by intros [? ?]; congruence);
        unfold write_tail; rewrite He1; cbn; done.
    + apply IH; [done|]. specialize (Hp eq_refl). lia.
  - unfold write_tail. destruct (w_err b) as [e|] eqn:He; [done|].
    case_decide; cbn; [done|]. destruct (push_wf b p Hwf) as (Hwf' & He' & _).
    split; [done|]. congruence.
Qed.

Lemma work_fuel b p : (work b p < S (S (length p)))%nat.
Proof. unfold work. case_decide; lia. Qed.

(** Over any [io.Writer], failing ones included: the loops of [Write] and [WriteString]
    end, the position stays in range, and the error returned is the recorded one. *)
Lemma Write_wf p b : writer_wf b → wp (Write p) (λ r b', writer_wf b' ∧ recorded r b') b.
Proof. intros Hb. apply write_loop_wf; [apply write_round_ok|done|apply work_fuel]. Qed.

Lemma WriteString_wf p b : writer_wf b → wp (WriteString p) (λ r b', writer_wf b' ∧ recorded r b') b.
Proof. intros Hb. apply write_loop_wf; [apply writeString_round_ok|done|apply work_fuel]. Qed.

Lemma WriteByte_wf c b : writer_wf b → wp (WriteByte c) (λ r b', writer_wf b' ∧ recorded r b') b.
Proof.
  intros Hb. unfold wp, WriteByte. destruct (w_err b) as [e|] eqn:He; [done|].
  case_decide as Hav.
  - pose proof (flush_wf b Hb) as Hf. unfold wp in Hf.
    destruct (flush b) as [[[]|e|] b1]; cbn in *; [|intuition done..].
    destruct Hf as ([H1 H2] & Hr & _ & Hz). rewrite (Hz eq_refl).
    rewrite decide_True by lia. unfold writer_wf. cbn. rewrite length_insert.
    split; [lia|done].
  - destruct Hb. unfold available in *. rewrite decide_True by lia. unfold writer_wf. cbn.
    rewrite length_insert. split; [lia|done].
Qed.

(** ** Over a writer that takes what it is given *)
Context (log : W → bytes) (healthy : W → Prop).
Context (accepts : ∀ w p, healthy w →
  ∃ w', wr_write w p = (length p, None, w') ∧ healthy w' ∧ log w' = log w ++ p).

(** [s] is everything written so far: what went down and what is in the buffer. *)
Definition sinks (b : Writer W) (s : bytes) : Prop :=
  w_err b = None ∧ writer_wf b ∧ healthy (w_wr b) ∧
  log (w_wr b) ++ take (w_wpos b) (w_buf b) = s.

Lemma flush_sinks b s :
  sinks b s → ∃ b', flush b = (Ok tt, b') ∧ sinks b' s ∧ w_wpos b' = 0%nat ∧ log (w_wr b') = s.
Proof.
  intros (He & [? ?] & Hh & Hs). unfold flush. rewrite He. case_decide as Hz.
  - exists b. split_and!; [done..|]. rewrite <-Hs, Hz, take_0, app_nil_r. done.
  - destruct (accepts (w_wr b) (take (w_wpos b) (w_buf b)) Hh) as (w' & Hw & Hh' & Hlog).
    rewrite Hw, length_take, decide_False by lia. eexists. split; [done|].
    unfold sinks, writer_wf. cbn. rewrite take_0, app_nil_r, Hlog, Hs. split_and!; (done || lia).
Qed.

Lemma push_sinks b p s :
  sinks b s → sinks (push b p).1 (s ++ take (available b) p) ∧ (push b p).2 = drop (available b) p.
Proof.
  intros (He & Hwf & Hh & Hs). destruct (push_wf b p Hwf) as (Hwf' & _).
  unfold push, copy_at, available in *. cbn in *. destruct Hwf as [? ?].
  set (n := ((length (w_buf b) - w_wpos b) `min` length p)%nat) in *.
  assert (take (length (w_buf b) - w_wpos b) p = take n p) as ->.
  { unfold n. rewrite <-take_take. f_equal. by rewrite take_ge. }
  split.
  - split_and!; [done|apply Hwf'..|done|]. cbn. rewrite <-Hs, <-app_assoc. f_equal.
    rewrite app_assoc, take_app_le by (rewrite length_app, !length_take; lia).
    rewrite take_ge by (rewrite length_app, !length_take; lia). done.
  - destruct (decide (length (w_buf b) - w_wpos b ≤ length p)%nat).
    + f_equal. lia.
    + rewrite !drop_ge by lia. done.
Qed.

(** a round passes on a prefix of what is left *)
Definition round_sinks (round : Writer W → bytes → Writer W * bytes) : Prop :=
  ∀ b p s, sinks b s → ∃ n, sinks (round b p).1 (s ++ take n p) ∧ (round b p).2 = drop n p.

Lemma writeString_round_sinks : round_sinks writeString_round.
Proof.
  intros b p s Hb. exists (available b). unfold writeString_round.
  destruct (push_sinks b p s Hb) as [Hs Hp]. destruct (push b p) as [b1 p1]. cbn in *.
  destruct (flush_sinks b1 _ Hs) as (b2 & -> & Hs2 & _). by split.
Qed.

Lemma write_round_sinks : round_sinks write_round.
Proof.
  intros b p s Hb. unfold write_round. case_decide as Hz; [|by apply writeString_round_sinks].
  destruct Hb as (He & Hwf & Hh & Hs). destruct (accepts (w_wr b) p Hh) as (w' & Hw & Hh' & Hlog).
  rewrite Hw. exists (length p). cbn. rewrite take_ge by lia. split; [|done].
  rewrite Hz, take_0, app_nil_r in Hs. repeat split; cbn; [apply Hwf..|done|].
  by rewrite Hz, take_0, app_nil_r, Hlog, Hs.
Qed.

Lemma write_loop_sinks round fuel p b s :
  round_ok round → round_sinks round → sinks b s → (work b p < fuel)%nat →
  ∃ b', write_loop fuel round p b = (Ok tt, b') ∧ sinks b' (s ++ p).
Proof.
  intros Hok Hr. revert b p s. induction fuel as [|fuel IH]; intros b p s Hb Hf; [lia|]. cbn.
  pose proof Hb as (He & Hwf & _). case_decide as Hc.
  - destruct Hc as [_ Hav]. destruct (Hr b p s Hb) as (n & Hs' & Hp').
    destruct (Hok b p Hwf He Hav) as [_ Hw]. destruct (round b p) as [b1 p1]. cbn [fst snd] in *. subst p1.
    destruct (IH b1 (drop n p) _ Hs') as (b' & Hl & Hs2).
    { pose proof Hs' as (He1 & _). specialize (Hw He1). lia. }
    exists b'. split; [done|]. by rewrite <-app_assoc, take_drop in Hs2.
  - unfold write_tail. rewrite He. case_decide as H0.
    + apply nil_length_inv in H0 as ->. exists b. by rewrite app_nil_r.
    + eexists. split; [done|]. destruct (push_sinks b p s Hb) as [Hs _].
      rewrite take_ge in Hs; [done|].
      destruct (decide (available b < length p)%nat); [by destruct Hc|lia].
Qed.

Lemma Write_sinks p b s : sinks b s → ∃ b', Write p b = (Ok tt, b') ∧ sinks b' (s ++ p).
Proof.
  intros Hb. apply write_loop_sinks; [apply write_round_ok|apply write_round_sinks|done|apply work_fuel].
Qed.

Lemma WriteString_sinks p b s : sinks b s → ∃ b', WriteString p b = (Ok tt, b') ∧ sinks b' (s ++ p).
Proof.
  intros Hb.
  apply write_loop_sinks; [apply writeString_round_ok|apply writeString_round_sinks|done|apply work_fuel].
Qed.

Lemma WriteByte_sinks c b s : sinks b s → ∃ b', WriteByte c b = (Ok tt, b') ∧ sinks b' (s ++ [c]).
Proof.
  assert (∀ b s, sinks b s → (w_wpos b < length (w_buf b))%nat →
    sinks (mkWriter (w_err b) (<[w_wpos b := c]> (w_buf b)) (w_wr b) (w_wpos b + 1)) (s ++ [c])) as Hput.
  { intros b0 s0 (He & Hwf & Hh & Hs) Hlt. unfold sinks, writer_wf. cbn. rewrite length_insert.
    split_and!; [done|lia..|done|]. rewrite <-Hs, <-app_assoc. f_equal.
    rewrite insert_take_drop by done. rewrite take_app_ge by (rewrite length_take; lia).
    f_equal. rewrite length_take.
    by replace (w_wpos b0 + 1 - w_wpos b0 `min` length (w_buf b0))%nat with 1%nat by lia. }
  intros Hb. pose proof Hb as (He & [? ?] & _). unfold WriteByte. rewrite He. case_decide as Hav.
  - destruct (flush_sinks b s Hb) as (b1 & -> & Hs1 & Hz & _).
    pose proof Hs1 as (He1 & [? ?] & _). rewrite decide_True by lia. eexists. split; [done|].
    apply Hput; [done|lia].
  - unfold available in *. rewrite decide_True by lia. eexists. split; [done|].
    apply Hput; [done|lia].
Qed.
End writer.
