(* ===== verification/Resp.v ===== *)
(** The Redis protocol of the proxy: pkg/proxy/redis (resp.go, decoder.go, encoder.go).

    The decoder runs on a [bufio2.Reader], the encoder on a [bufio2.Writer] (Bufio.v).
    A nil slice is [None], so that the nil bulk reply ("$-1") and the empty one ("$0")
    stay apart, as they do in the source.  The decoder's recursion into nested arrays and
    the unbounded read loops below it take a fuel argument. *)

From S2P Require Import Prelude Bufio.
(** * Values *)
Abbreviation TypeString := x2b (only parsing).
Abbreviation TypeError := x2d (only parsing).
Abbreviation TypeInt := x3a (only parsing).
Abbreviation TypeBulkBytes := x24 (only parsing).
Abbreviation TypeArray := x2a (only parsing).

Inductive Resp := mkResp {
  Type_ : byte;
  Value : option bytes;
  Array : option (list Resp);
}.

Definition IsString (r : Resp) : bool := bool_decide (Type_ r = TypeString).
Definition IsError (r : Resp) : bool := bool_decide (Type_ r = TypeError).
Definition IsInt (r : Resp) : bool := bool_decide (Type_ r = TypeInt).
Definition IsBulkBytes (r : Resp) : bool := bool_decide (Type_ r = TypeBulkBytes).
Definition IsArray (r : Resp) : bool := bool_decide (Type_ r = TypeArray).

Definition NewString (value : option bytes) : Resp := mkResp TypeString value None.
Definition NewError (value : option bytes) : Resp := mkResp TypeError value None.
Definition NewInt (value : option bytes) : Resp := mkResp TypeInt value None.
Definition NewBulkBytes (value : option bytes) : Resp := mkResp TypeBulkBytes value None.
Definition NewArray (array : option (list Resp)) : Resp := mkResp TypeArray None array.

(** * Errors *)
Inductive resperr :=
| EIO (e : ioerr)
| ErrBadCRLFEnd
| ErrBadArrayLen
| ErrBadArrayLenTooLong
| ErrBadBulkBytesLen
| ErrBadBulkBytesLenTooLong
| ErrBadMultiBulkLen
| ErrBadMultiBulkContent
| ErrBadRespType (t : byte)
| ErrSyntaxOrRange  (** from [strconv.ParseInt] *)
| ErrFailedDecoder
| ErrFailedEncoder
| NestingFuel  (** the model's bound on nested arrays *).

(** a call into bufio2, its error passed on *)
Definition io {W A} (m : M W ioerr A) : M W resperr A := λ w,
  match m w with
  | (Ok a, w') => (Ok a, w')
  | (Err e, w') => (Err (EIO e), w')
  | (Panic, w') => (Panic, w')
  end.

(** * Numbers *)
Definition byte_val (b : byte) : Z := Z.of_N (Byte.to_N b).
Definition is_digit (b : byte) : bool := (48 <=? byte_val b) && (byte_val b <=? 57).
Definition digit_val (b : byte) : Z := byte_val b - 48.
Definition plus_sign : byte := x2b.
Definition minus_sign : byte := x2d.

(** [for ; i < len(b) && b[i] is a digit; i++ { n = int64(b[i]-'0') + n*10 }]; the result
    is [n] and the bytes the loop did not pass.  At most nine digits come here, so the
    64-bit arithmetic does not wrap. *)
Fixpoint digits_loop (n : Z) (b : bytes) : Z * bytes :=
  match b with
  | c :: b' => if is_digit c then digits_loop (digit_val c + n * 10) b' else (n, b)
  | [] => (n, [])
  end.

(** [strconv.ParseInt(s, 10, 64)] of the standard library *)
Definition sign_of (b : bytes) : bool * bytes :=
  match b with
  | c :: b' => if decide (c = minus_sign) then (true, b')
               else if decide (c = plus_sign) then (false, b') else (false, b)
  | [] => (false, [])
  end.

Definition ParseInt (b : bytes) : outcome resperr Z :=
  let '(neg, ds) := sign_of b in
  match ds with
  | [] => Err ErrSyntaxOrRange
  | _ =>
      let '(un, rest) := digits_loop 0 ds in
      match rest with
      | _ :: _ => Err ErrSyntaxOrRange
      | [] =>
          if neg then if un <=? 2 ^ 63 then Ok (- un) else Err ErrSyntaxOrRange
          else if un <? 2 ^ 63 then Ok un else Err ErrSyntaxOrRange
      end
  end.

Definition Btoi64 (b : bytes) : outcome resperr Z :=
  let slow := ParseInt b in
  if decide (b ≠ [] ∧ (length b < 10)%nat) then
    let '(neg, ds) := sign_of b in
    if decide (ds = []) then slow
    else
      let '(n, rest) := digits_loop 0 ds in
      if decide (rest = []) then Ok (if neg : bool then - n else n) else slow
  else slow.

Definition digit_byte (d : Z) : byte := default x00 (Byte.of_N (Z.to_N (48 + d))).

Fixpoint format_digits (fuel : nat) (n : Z) : bytes :=
  match fuel with
  | O => []
  | S fuel => (if n <? 10 then [] else format_digits fuel (n / 10)) ++ [digit_byte (n mod 10)]
  end.

(** [strconv.FormatInt(i, 10)]: a 64-bit number has at most 19 digits *)
Definition FormatInt (i : Z) : bytes :=
  if i <? 0 then minus_sign :: format_digits 20 (- i) else format_digits 20 i.

(** ** The table of small numbers, encoder.go *)
Definition minItoa : Z := -128.
Definition maxItoa : Z := 32768.

Definition itoaNumbers : list Z := seqZ minItoa (maxItoa - minItoa + 1).

(** [itoaOffset[i] = uint32(b.Len())], before each write *)
Fixpoint offsets (len : Z) (l : list bytes) : list Z :=
  match l with
  | [] => []
  | s :: l => len mod 2 ^ 32 :: offsets (len + Z.of_nat (length s)) l
  end.

Definition itoaOffset : list Z := offsets 0 (FormatInt <$> itoaNumbers).
Definition itoaBuffer : bytes := concat (FormatInt <$> itoaNumbers).

(** [None] where an index would be out of range *)
Definition itoa (i : Z) : option bytes :=
  if (minItoa <=? i) && (i <=? maxItoa) then
    beg ← itoaOffset !! Z.to_nat (i - minItoa);
    if decide (i = maxItoa) then Some (drop (Z.to_nat beg) itoaBuffer)
    else
      fin ← itoaOffset !! Z.to_nat (i - minItoa + 1);
      Some (slice itoaBuffer (Z.to_nat beg) (Z.to_nat fin))
  else Some (FormatInt i).

(** * Decoder *)
Definition MaxBulkBytesLen : Z := 1024 * 1024 * 512.
Definition MaxArrayLen : Z := 1024 * 1024.

(** [for i := range array { array[i] = m() }] *)
Fixpoint times {W E A} (n : nat) (m : M W E A) : M W E (list A) :=
  match n with
  | O => mret []
  | S n => x ← m; l ← times n m; mret (x :: l)
  end.

(** [if n := len(b) - 2; n < 0 || b[n] != '\r' { error }; b[:n]] *)
Definition trim_crlf (b : bytes) : outcome resperr bytes :=
  if decide (length b < 2)%nat then Err ErrBadCRLFEnd
  else match b !! (length b - 2)%nat with
       | None => Panic
       | Some c => if decide (c = CR) then Ok (take (length b - 2) b) else Err ErrBadCRLFEnd
       end.

Section decoder.
Context {R : Type} `{IOReader R}.

Definition decodeTextBytes (fuel : nat) : M (Reader R) resperr bytes :=
  b ← io (ReadBytes fuel LF);
  lift (trim_crlf b).

Definition decodeInt : M (Reader R) resperr Z :=
  '(b, full) ← io (ReadSlice LF);
  if full : bool then fail (EIO ErrBufferFull)
  else
    b ← lift (trim_crlf b);
    lift (Btoi64 b).

Definition decodeBulkBytes (fuel : nat) : M (Reader R) resperr (option bytes) :=
  n ← decodeInt;
  if n <? -1 then fail ErrBadBulkBytesLen
  else if MaxBulkBytesLen <? n then fail ErrBadBulkBytesLenTooLong
  else if n =? -1 then mret None
  else
    b ← io (ReadFull fuel (Z.to_nat n + 2));
    let b := default [] b in
    match b !! Z.to_nat n, b !! S (Z.to_nat n) with
    | Some c1, Some c2 =>
        if decide (c1 = CR ∧ c2 = LF) then mret (Some (take (Z.to_nat n) b)) else fail ErrBadCRLFEnd
    | _, _ => panic
    end.

(** [decodeArray], its elements decoded by [dec] *)
Definition decodeArray (dec : M (Reader R) resperr Resp) : M (Reader R) resperr (option (list Resp)) :=
  n ← decodeInt;
  if n <? -1 then fail ErrBadArrayLen
  else if MaxArrayLen <? n then fail ErrBadArrayLenTooLong
  else if n =? -1 then mret None
  else array ← times (Z.to_nat n) dec; mret (Some array).

Fixpoint decodeResp (fuel : nat) : M (Reader R) resperr Resp :=
  match fuel with
  | O => fail NestingFuel
  | S fuel' =>
      b ← io ReadByte;
      if decide (b = TypeString ∨ b = TypeError ∨ b = TypeInt) then
        v ← decodeTextBytes fuel; mret (mkResp b (Some v) None)
      else if decide (b = TypeBulkBytes) then
        v ← decodeBulkBytes fuel; mret (mkResp b v None)
      else if decide (b = TypeArray) then
        a ← decodeArray (decodeResp fuel'); mret (mkResp b None a)
      else fail (ErrBadRespType b)
  end.

(** [for l, r := 0, 0; r <= len(b); r++]: one round *)
Definition split_step (b : bytes) (st : nat * list Resp) (r : nat) : nat * list Resp :=
  let '(l, multi) := st in
  if decide (r = length b ∨ b !! r = Some x20) then
    (S r, if decide (l < r)%nat then multi ++ [NewBulkBytes (Some (slice b l r))] else multi)
  else (l, multi).

Definition split_line (b : bytes) : list Resp :=
  (foldl (split_step b) (0%nat, []) (seq 0 (S (length b)))).2.

(** the nil slice returned for an empty line is the empty list *)
Definition decodeSingleLineMultiBulk (fuel : nat) : M (Reader R) resperr (list Resp) :=
  b ← decodeTextBytes fuel;
  if decide (length b = 0%nat) then mret []
  else
    let multi := split_line b in
    if decide (length multi = 0%nat) then fail ErrBadMultiBulkLen else mret multi.

Definition decode_bulk (fuel : nat) : M (Reader R) resperr Resp :=
  r ← decodeResp fuel;
  if decide (Type_ r = TypeBulkBytes) then mret r else fail ErrBadMultiBulkContent.

Definition decodeMultiBulk (fuel : nat) : M (Reader R) resperr (list Resp) :=
  b ← io PeekByte;
  if decide (b ≠ TypeArray) then decodeSingleLineMultiBulk fuel
  else
    _ ← io ReadByte;
    n ← decodeInt;
    if n <=? 0 then fail ErrBadArrayLen
    else if MaxArrayLen <? n then fail ErrBadArrayLenTooLong
    else times (Z.to_nat n) (decode_bulk fuel).

Record Decoder := mkDecoder { d_br : Reader R; d_Err : option resperr }.

Definition NewDecoderSize (r : R) (size : Z) : Decoder := mkDecoder (NewReaderSize r size) None.
Definition NewDecoderBuffer (br : Reader R) : Decoder := mkDecoder br None.

(** the shape [Decode] and [DecodeMultiBulk] share: a failed decoder stays failed *)
Definition guarded_decode {A} (m : M (Reader R) resperr A) : M Decoder resperr A := λ d,
  match d_Err d with
  | Some _ => (Err ErrFailedDecoder, d)
  | None =>
      match m (d_br d) with
      | (Ok r, br) => (Ok r, mkDecoder br None)
      | (Err e, br) => (Err e, mkDecoder br (Some e))
      | (Panic, br) => (Panic, mkDecoder br None)
      end
  end.

Definition Decode (fuel : nat) : M Decoder resperr Resp := guarded_decode (decodeResp fuel).
Definition DecodeMultiBulk (fuel : nat) : M Decoder resperr (list Resp) :=
  guarded_decode (decodeMultiBulk fuel).
End decoder.
Arguments Decoder : clear implicits.

(** * Encoder *)
Section encoder.
Context {W : Type} `{IOWriter W}.

Definition CRLF : bytes := [CR; LF].

Definition encodeTextBytes (b : option bytes) : M (Writer W) resperr unit :=
  io (Write (default [] b)) ;;
  io (WriteString CRLF).

Definition encodeTextString (s : bytes) : M (Writer W) resperr unit :=
  io (WriteString s) ;;
  io (WriteString CRLF).

Definition encodeInt (v : Z) : M (Writer W) resperr unit :=
  match itoa v with Some s => encodeTextString s | None => panic end.

Definition encodeBulkBytes (b : option bytes) : M (Writer W) resperr unit :=
  match b with
  | None => encodeInt (-1)
  | Some v => encodeInt (Z.of_nat (length v)) ;; encodeTextBytes b
  end.

(** [encodeArray] is written out where [encodeResp] calls it *)
Fixpoint encodeResp (r : Resp) : M (Writer W) resperr unit :=
  io (WriteByte (Type_ r)) ;;
  if decide (Type_ r = TypeString ∨ Type_ r = TypeError ∨ Type_ r = TypeInt) then
    encodeTextBytes (Value r)
  else if decide (Type_ r = TypeBulkBytes) then encodeBulkBytes (Value r)
  else if decide (Type_ r = TypeArray) then
    match Array r with
    | None => encodeInt (-1)
    | Some array =>
        encodeInt (Z.of_nat (length array)) ;;
        (fix encode_all (l : list Resp) : M (Writer W) resperr unit :=
           match l with
           | [] => mret tt
           | x :: l' => encodeResp x ;; encode_all l'
           end) array
    end
  else fail (ErrBadRespType (Type_ r)).

Definition encodeArray (array : option (list Resp)) : M (Writer W) resperr unit :=
  match array with
  | None => encodeInt (-1)
  | Some l => encodeInt (Z.of_nat (length l)) ;; for_each l encodeResp
  end.

Definition encodeMultiBulk (multi : option (list Resp)) : M (Writer W) resperr unit :=
  io (WriteByte TypeArray) ;;
  encodeArray multi.

Record Encoder := mkEncoder { e_bw : Writer W; e_Err : option resperr }.

Definition NewEncoderSize (w : W) (size : Z) : Encoder := mkEncoder (NewWriterSize w size) None.
Definition NewEncoderBuffer (bw : Writer W) : Encoder := mkEncoder bw None.

(** the shape [Encode], [EncodeMultiBulk] and [Flush] share *)
Definition guarded_encode (m : M (Writer W) resperr unit) : M Encoder resperr unit := λ e,
  match e_Err e with
  | Some _ => (Err ErrFailedEncoder, e)
  | None =>
      match m (e_bw e) with
      | (Ok _, bw) => (Ok tt, mkEncoder bw None)
      | (Err x, bw) => (Err x, mkEncoder bw (Some x))
      | (Panic, bw) => (Panic, mkEncoder bw None)
      end
  end.

Definition Encode (r : Resp) (flush_ : bool) : M Encoder resperr unit :=
  guarded_encode (encodeResp r ;; if flush_ then io flush else mret tt).
Definition EncodeMultiBulk (multi : option (list Resp)) (flush_ : bool) : M Encoder resperr unit :=
  guarded_encode (encodeMultiBulk multi ;; if flush_ then io flush else mret tt).
Definition EncoderFlush : M Encoder resperr unit := guarded_encode (io flush).
End encoder.
Arguments Encoder : clear implicits.
