(* ===== verification/RespNumbers.v ===== *)
(** Numbers on the wire: [Btoi64]'s fast path agrees with [strconv.ParseInt], the table
    behind [itoa] with [strconv.FormatInt], and printing a number and reading it back
    gives the number. *)

From S2P Require Import Prelude Bufio Resp.
Lemma is_digit_val c : is_digit c = true → 0 <= digit_val c <= 9.
Proof. unfold is_digit, digit_val. intros [? ?]%andb_prop. lia. Qed.

Lemma digits_loop_bounds n b un rest :
  0 <= n → digits_loop n b = (un, rest) → 0 <= un < (n + 1) * 10 ^ Z.of_nat (length b).
Proof.
  revert n. induction b as [|c b IH]; intros n Hn; cbn [digits_loop].
  - intros [= <- <-]. cbn. lia.
  - assert (0 < 10 ^ Z.of_nat (length b)) by (apply Z.pow_pos_nonneg; lia).
    rewrite length_cons, Nat2Z.inj_succ, Z.pow_succ_r by lia.
    destruct (is_digit c) eqn:Hd.
    + apply is_digit_val in Hd. intros Hl%IH; [|lia]. nia.
    + intros [= <- <-]. nia.
Qed.

Lemma sign_of_length b : (length (sign_of b).2 ≤ length b)%nat.
Proof. destruct b as [|c b]; cbn; [done|]. repeat case_decide; cbn; lia. Qed.

Lemma Btoi64_parse (b : bytes) : Btoi64 b = ParseInt b.
Proof.
  unfold Btoi64. case_decide as Hs; [|done]. destruct Hs as [_ Hs].
  pose proof (sign_of_length b) as Hl. unfold ParseInt.
  destruct (sign_of b) as [neg ds]. cbn in Hl. case_decide as Hds; [done|].
  destruct (digits_loop 0 ds) as [un rest] eqn:Hd. case_decide as Hr; [|done]. subst rest.
  destruct (digits_loop_bounds 0 ds un []) as [? Hlt]; [lia|done|].
  assert (10 ^ Z.of_nat (length ds) <= 10 ^ 9) by (apply Z.pow_le_mono_r; lia).
  destruct ds; [done|]. destruct neg.
  - by rewrite (proj2 (Z.leb_le un (2 ^ 63))) by lia.
  - by rewrite (proj2 (Z.ltb_lt un (2 ^ 63))) by lia.
Qed.

(** ** Printing *)
Lemma digit_byte_val d : 0 <= d <= 9 → is_digit (digit_byte d) = true ∧ digit_val (digit_byte d) = d.
Proof.
  intros Hd. assert (d = 0 ∨ d = 1 ∨ d = 2 ∨ d = 3 ∨ d = 4 ∨ d = 5 ∨ d = 6 ∨ d = 7 ∨ d = 8 ∨ d = 9)
    as Hc by lia. by repeat destruct Hc as [->|Hc]; subst.
Qed.

Lemma digits_loop_app n b1 b2 un :
  digits_loop n b1 = (un, []) → digits_loop n (b1 ++ b2) = digits_loop un b2.
Proof.
  revert n. induction b1 as [|c b1 IH]; intros n; cbn; [by intros [= <-]|].
  destruct (is_digit c); [apply IH|done].
Qed.

Lemma format_digits_loop fuel n :
  (0 < fuel)%nat → 0 <= n < 10 ^ Z.of_nat fuel → digits_loop 0 (format_digits fuel n) = (n, []).
Proof.
  revert n. induction fuel as [|fuel IH]; intros n Hf Hn; [lia|]. cbn [format_digits].
  rewrite Nat2Z.inj_succ, Z.pow_succ_r in Hn by lia.
  assert (0 <= n mod 10 <= 9) as Hm by (pose proof (Z.mod_pos_bound n 10); lia).
  destruct (digit_byte_val _ Hm) as [Hd Hv].
  destruct (n <? 10) eqn:Hlt.
  - apply Z.ltb_lt in Hlt. cbn. rewrite Hd, Hv. f_equal. rewrite Z.mod_small; lia.
  - apply Z.ltb_ge in Hlt. destruct fuel as [|fuel]; [cbn in Hn; lia|].
    assert (0 <= n / 10 < 10 ^ Z.of_nat (S fuel)) as Hq.
    { split; [apply Z.div_pos; lia|]. apply Z.div_lt_upper_bound; lia. }
    rewrite (digits_loop_app _ _ _ (n / 10)) by (apply IH; [lia|done]).
    cbn [digits_loop]. rewrite Hd, Hv. f_equal. pose proof (Z.div_mod n 10). lia.
Qed.

Lemma digits_loop_all n b un : digits_loop n b = (un, []) → Forall (λ c, is_digit c = true) b.
Proof.
  revert n. induction b as [|c b IH]; intros n; cbn; [constructor|].
  destruct (is_digit c) eqn:Hd; [|done]. intros ?%IH. by constructor.
Qed.

Lemma format_digits_length fuel n :
  (0 < length (format_digits (S fuel) n) ≤ S fuel)%nat.
Proof.
  revert n. induction fuel as [|fuel IH]; intros n.
  - cbn [format_digits]. rewrite length_app. destruct (n <? 10); cbn [length]; lia.
  - cbn [format_digits]. rewrite length_app. destruct (n <? 10); cbn [length]; [lia|].
    specialize (IH (n / 10)). cbn [format_digits] in IH. lia.
Qed.

(** Small numbers print short. *)
Lemma format_digits_short k fuel n :
  (0 < k)%nat → 0 <= n < 10 ^ Z.of_nat k → (length (format_digits fuel n) ≤ k)%nat.
Proof.
  revert fuel n. induction k as [|k IH]; intros fuel n Hk Hn; [lia|].
  destruct fuel as [|fuel]; cbn [format_digits]; [cbn; lia|]. rewrite length_app. cbn [length].
  destruct (n <? 10) eqn:Hlt; cbn; [lia|]. apply Z.ltb_ge in Hlt.
  rewrite Nat2Z.inj_succ, Z.pow_succ_r in Hn by lia.
  destruct k as [|k]; [cbn in Hn; lia|].
  assert (length (format_digits fuel (n / 10)) ≤ S k)%nat; [|lia].
  apply IH; [lia|]. split; [apply Z.div_pos; lia|]. apply Z.div_lt_upper_bound; lia.
Qed.

Lemma digit_sign b c : Forall (λ c, is_digit c = true) b → head b = Some c →
  c ≠ minus_sign ∧ c ≠ plus_sign.
Proof. intros Hf Hh. destruct b as [|x b]; [done|]. injection Hh as ->. inversion Hf; subst.
  split; intros ->; done. Qed.

Lemma sign_of_digits b : Forall (λ c, is_digit c = true) b → sign_of b = (false, b).
Proof.
  intros Hf. destruct b as [|c b]; [done|]. cbn.
  destruct (digit_sign _ c Hf eq_refl). by rewrite !decide_False.
Qed.

Lemma format_digits_ne fuel n : format_digits (S fuel) n ≠ [].
Proof. intros H0%(f_equal length). pose proof (format_digits_length fuel n). cbn [length] in H0. lia. Qed.

Lemma parse_format (i : Z) : - 2 ^ 63 <= i < 2 ^ 63 → ParseInt (FormatInt i) = Ok i.
Proof.
  intros Hi. unfold FormatInt. destruct (i <? 0) eqn:H0.
  - apply Z.ltb_lt in H0. assert (digits_loop 0 (format_digits 20 (- i)) = (- i, [])) as Hd
      by (apply format_digits_loop; lia).
    unfold ParseInt. cbn [sign_of]. rewrite decide_True by done.
    pose proof (format_digits_ne 19 (- i)) as Hne.
    destruct (format_digits 20 (- i)) as [|x l]; [done|]. rewrite Hd.
    rewrite (proj2 (Z.leb_le (- i) (2 ^ 63))) by lia. by rewrite Z.opp_involutive.
  - apply Z.ltb_ge in H0. assert (digits_loop 0 (format_digits 20 i) = (i, [])) as Hd
      by (apply format_digits_loop; lia).
    unfold ParseInt. rewrite (sign_of_digits (format_digits 20 i)) by (by eapply digits_loop_all).
    pose proof (format_digits_ne 19 i) as Hne.
    destruct (format_digits 20 i) as [|x l]; [done|]. rewrite Hd.
    by rewrite (proj2 (Z.ltb_lt i (2 ^ 63))) by lia.
Qed.

(** ** The table *)
Lemma offsets_lookup len l k :
  offsets len l !! k =
  (if decide (k < length l)%nat
   then Some ((len + Z.of_nat (length (concat (take k l)))) mod 2 ^ 32) else None).
Proof.
  revert len k. induction l as [|s l IH]; intros len [|k]; cbn [offsets length lookup list_lookup].
  - done.
  - done.
  - rewrite decide_True by lia. cbn. by rewrite Z.add_0_r.
  - rewrite IH. cbn. rewrite length_app.
    destruct (decide (k < length l)%nat), (decide (S k < S (length l))%nat); [|lia..|done].
    do 2 f_equal. lia.
Qed.

Lemma slice_concat (l : list bytes) k s :
  l !! k = Some s →
  slice (concat l) (length (concat (take k l))) (length (concat (take (S k) l))) = s.
Proof.
  intros Hk. unfold slice.
  assert (concat l = concat (take k l) ++ s ++ concat (drop (S k) l)) as ->.
  { rewrite <-(take_drop_middle l k s Hk) at 1. by rewrite concat_app. }
  rewrite (take_S_r l k s Hk), concat_app, length_app. cbn. rewrite app_nil_r.
  rewrite drop_app_length.
  replace (length (concat (take k l)) + length s - length (concat (take k l)))%nat with (length s) by lia.
  apply take_app_length.
Qed.

Lemma concat_length_bound (l : list bytes) m :
  Forall (λ s, (length s ≤ m)%nat) l → (length (concat l) ≤ m * length l)%nat.
Proof. induction 1 as [|s l Hs _ IH]; cbn; [lia|]. rewrite length_app. lia. Qed.

Lemma itoaNumbers_short :
  Forall (λ s : bytes, (length s ≤ 6)%nat) (FormatInt <$> itoaNumbers).
Proof.
  apply Forall_fmap, Forall_forall. intros i Hi.
  unfold itoaNumbers, minItoa, maxItoa in Hi. apply elem_of_seqZ in Hi. cbn. unfold FormatInt.
  destruct (i <? 0) eqn:H0.
  - apply Z.ltb_lt in H0. cbn [length]. assert (length (format_digits 20 (- i)) ≤ 5)%nat; [|lia].
    apply format_digits_short; lia.
  - apply Z.ltb_ge in H0. assert (length (format_digits 20 i) ≤ 5)%nat; [|lia].
    apply format_digits_short; lia.
Qed.

Lemma itoa_prefix_small k : Z.of_nat (length (concat (take k (FormatInt <$> itoaNumbers)))) < 2 ^ 32.
Proof.
  assert (length (concat (take k (FormatInt <$> itoaNumbers))) ≤ 6 * length itoaNumbers)%nat as Hl.
  { etransitivity; [apply (concat_length_bound _ 6); apply Forall_take, itoaNumbers_short|].
    rewrite length_take, length_fmap. lia. }
  assert (length itoaNumbers = Z.to_nat 32897) as Hn by (unfold itoaNumbers; by rewrite length_seqZ).
  rewrite Hn in Hl. lia.
Qed.

Lemma itoaOffset_lookup k :
  (k < length itoaNumbers)%nat →
  itoaOffset !! k = Some (Z.of_nat (length (concat (take k (FormatInt <$> itoaNumbers))))).
Proof.
  intros Hk. unfold itoaOffset. rewrite offsets_lookup, length_fmap, decide_True by done.
  f_equal. rewrite Z.add_0_l, Z.mod_small; [done|]. split; [lia|apply itoa_prefix_small].
Qed.

Lemma itoaNumbers_length : Z.of_nat (length itoaNumbers) = 32897.
Proof. unfold itoaNumbers. rewrite length_seqZ. by rewrite Z2Nat.id by done. Qed.

Lemma itoaNumbers_lookup i :
  minItoa <= i <= maxItoa → (FormatInt <$> itoaNumbers) !! Z.to_nat (i - minItoa) = Some (FormatInt i).
Proof.
  intros Hi. rewrite list_lookup_fmap. unfold itoaNumbers.
  rewrite lookup_seqZ_lt by lia. cbn. do 2 f_equal. lia.
Qed.

Lemma itoa_format (i : Z) : itoa i = Some (FormatInt i).
Proof.
  unfold itoa. destruct (minItoa <=? i) eqn:H1; [|done]. destruct (i <=? maxItoa) eqn:H2; [|done].
  apply Z.leb_le in H1, H2. cbn [andb].
  pose proof (itoaNumbers_lookup i (conj H1 H2)) as Hl.
  pose proof itoaNumbers_length as Hlen. unfold maxItoa, minItoa in *.
  rewrite (itoaOffset_lookup (Z.to_nat (i - -128))) by lia. cbn [mbind option_bind].
  pose proof (slice_concat _ _ _ Hl) as Hs.
  assert (length (FormatInt <$> itoaNumbers) = length itoaNumbers) as Hlf by apply length_fmap.
  case_decide as Hmax.
  - unfold itoaBuffer. revert Hs Hlf. generalize (FormatInt <$> itoaNumbers). intros L Hs Hlf.
    rewrite Nat2Z.id. apply (f_equal Some). rewrite <-Hs. unfold slice.
    rewrite (take_ge L (S _)) by lia. symmetry. apply take_ge. rewrite length_drop. reflexivity.
  - rewrite (itoaOffset_lookup (Z.to_nat (i - -128 + 1))) by lia. cbn [mbind option_bind].
    unfold itoaBuffer. revert Hs. generalize (FormatInt <$> itoaNumbers). intros L Hs.
    rewrite !Nat2Z.id. apply (f_equal Some). rewrite <-Hs.
    by replace (Z.to_nat (i - -128 + 1)) with (S (Z.to_nat (i - -128))) by lia.
Qed.

(** * What the wire format relies on *)

(** [Btoi64], the number reader of the decoder with its hand-written loop for short
    inputs, returns what [strconv.ParseInt(s, 10, 64)] returns, value or error, on every
    byte string. *)
Theorem Btoi64_ParseInt (b : bytes) : Btoi64 b = ParseInt b.
Proof. apply Btoi64_parse. Qed.

(** Every 64-bit number printed by the encoder's [itoa] is read back by the decoder's
    [Btoi64] as the same number. *)
Theorem Btoi64_itoa (i : Z) :
  - 2 ^ 63 <= i < 2 ^ 63 → ∃ s, itoa i = Some s ∧ Btoi64 s = Ok i.
Proof. intros Hi. exists (FormatInt i). by rewrite itoa_format, Btoi64_parse, parse_format. Qed.

Lemma Btoi64_itoa_witness : - 2 ^ 63 <= -12345 < 2 ^ 63 ∧ ∃ s, itoa (-12345) = Some s ∧ Btoi64 s = Ok (-12345).
Proof. split; [lia|]. apply (Btoi64_itoa (-12345)). lia. Defined.

(** The lookup in the table of printed numbers returns, on every number, what
    [strconv.FormatInt] returns, and never indexes out of range. *)
Theorem itoa_FormatInt (i : Z) : itoa i = Some (FormatInt i).
Proof. apply itoa_format. Qed.
