(* ===== verification/RespSpec.v ===== *)
(** The protocol coder against a reference serializer: the encoder emits [wire r], the
    decoder reads [wire r] back as [r] from any stream that starts with it, however the
    stream is cut into reads; inline requests are split into their words; neither side
    can index out of range. *)

From S2P Require Import Prelude Bufio BufioSpec Resp RespNumbers.
(** * Reference serializer *)
Definition is_text (t : byte) : bool :=
  bool_decide (t = TypeString ∨ t = TypeError ∨ t = TypeInt).

Definition count (n : nat) : bytes := FormatInt (Z.of_nat n) ++ CRLF.
Definition nil_mark : bytes := FormatInt (-1) ++ CRLF.

Fixpoint wire (r : Resp) : bytes :=
  Type_ r ::
  (if is_text (Type_ r) then default [] (Value r) ++ CRLF
   else if bool_decide (Type_ r = TypeBulkBytes) then
     match Value r with
     | None => nil_mark
     | Some v => count (length v) ++ v ++ CRLF
     end
   else match Array r with
        | None => nil_mark
        | Some l => count (length l) ++ concat (map wire l)
        end).

(** The values the protocol can carry: text without a line feed, lengths within the
    decoder's limits, and nothing in the field the type does not use. *)
Fixpoint resp_ok (r : Resp) : bool :=
  if is_text (Type_ r) then
    match Value r, Array r with Some v, None => bool_decide (LF ∉ v) | _, _ => false end
  else if bool_decide (Type_ r = TypeBulkBytes) then
    match Value r, Array r with
    | Some v, None => Z.of_nat (length v) <=? MaxBulkBytesLen
    | None, None => true
    | _, _ => false
    end
  else if bool_decide (Type_ r = TypeArray) then
    match Value r, Array r with
    | None, Some l => (Z.of_nat (length l) <=? MaxArrayLen) && forallb resp_ok l
    | None, None => true
    | _, _ => false
    end
  else false.

Lemma Resp_induction (P : Resp → Prop) :
  (∀ t v a, (∀ l, a = Some l → Forall P l) → P (mkResp t v a)) → ∀ r, P r.
Proof.
  intros HP. refine (fix rec r := match r with mkResp t v a => HP t v a _ end).
  refine (match a with None => _ | Some l0 => _ end); [|done].
  assert (Forall P l0) as Hall; [|by intros l [= <-]].
  exact ((fix all (l : list Resp) : Forall P l :=
    match l with [] => Forall_nil_2 _ | x :: l => Forall_cons_2 _ _ _ (rec x) (all l) end) l0).
Qed.

(** * The encoder *)
Section encoder.
Context {W : Type} `{IOWriter W}.

Lemma encode_all_for_each (l : list Resp) (b : Writer W) :
  (fix encode_all (l : list Resp) : M (Writer W) resperr unit :=
     match l with [] => mret tt | x :: l' => encodeResp x ;; encode_all l' end) l b
  = for_each l encodeResp b.
Proof.
  revert b. induction l as [|x l IH]; intros b; [done|]. cbn. unfold mbind, M_bind.
  destruct (encodeResp x b) as [[]]; auto.
Qed.

Context (log : W → bytes) (healthy : W → Prop).
Context (accepts : ∀ w p, healthy w →
  ∃ w', wr_write w p = (length p, None, w') ∧ healthy w' ∧ log w' = log w ++ p).

(** [m] succeeds and adds [p] to what was written *)
Definition emits (m : M (Writer W) resperr unit) (p : bytes) : Prop :=
  ∀ b s, sinks log healthy b s → ∃ b', m b = (Ok tt, b') ∧ sinks log healthy b' (s ++ p).

Lemma emits_bind m k p q : emits m p → emits k q → emits (m ;; k) (p ++ q).
Proof.
  intros Hm Hk b s Hb. destruct (Hm b s Hb) as (b1 & H1 & Hb1).
  destruct (Hk b1 _ Hb1) as (b2 & H2 & Hb2). exists b2. unfold mbind, M_bind. rewrite H1, H2.
  by rewrite app_assoc.
Qed.

Lemma emits_io (m : M (Writer W) ioerr unit) p :
  (∀ b s, sinks log healthy b s → ∃ b', m b = (Ok tt, b') ∧ sinks log healthy b' (s ++ p)) →
  emits (io m) p.
Proof. intros Hm b s Hb. destruct (Hm b s Hb) as (b' & H1 & H2). exists b'. unfold io. by rewrite H1. Qed.

Lemma emits_ret : emits (mret tt) [].
Proof. intros b s Hb. exists b. by rewrite app_nil_r. Qed.

Lemma emits_for_each {A} (l : list A) body (f : A → bytes) :
  Forall (λ x, emits (body x) (f x)) l → emits (for_each l body) (concat (map f l)).
Proof. induction 1; cbn; [apply emits_ret|by apply emits_bind]. Qed.

Lemma encodeTextBytes_emits v : emits (encodeTextBytes v) (default [] v ++ CRLF).
Proof. apply emits_bind; apply emits_io; intros; [by apply Write_sinks|by apply WriteString_sinks]. Qed.

Lemma encodeInt_emits n : emits (encodeInt n) (FormatInt n ++ CRLF).
Proof.
  unfold encodeInt. rewrite itoa_format.
  apply emits_bind; apply emits_io; intros; by apply WriteString_sinks.
Qed.

Lemma encodeResp_emits r : resp_ok r = true → emits (encodeResp r) (wire r).
Proof.
  induction r as [t v a IH] using Resp_induction. intros Hok.
  change (wire (mkResp t v a)) with
    ([t] ++ (if is_text t then default [] v ++ CRLF
            else if bool_decide (t = TypeBulkBytes) then
              match v with None => nil_mark | Some v => count (length v) ++ v ++ CRLF end
            else match a with None => nil_mark | Some l => count (length l) ++ concat (map wire l) end)).
  cbn [encodeResp Type_ Value Array]. apply emits_bind.
  { apply emits_io. intros. by apply WriteByte_sinks. }
  cbn [resp_ok Type_ Value Array] in Hok. unfold is_text in *.
  repeat case_bool_decide; repeat case_decide; try done.
  - apply encodeTextBytes_emits.
  - destruct v as [v|]; [|apply encodeInt_emits].
    apply emits_bind; [apply encodeInt_emits|apply encodeTextBytes_emits].
  - destruct v as [v|]; [done|]. destruct a as [l|]; [|apply encodeInt_emits].
    apply andb_prop in Hok as [_ Hall]. apply emits_bind; [apply encodeInt_emits|].
    intros b s Hb. rewrite encode_all_for_each. revert b s Hb. apply emits_for_each.
    specialize (IH l eq_refl). rewrite forallb_forall in Hall.
    rewrite Forall_forall in IH |- *. intros x Hx. apply IH; [done|]. apply Hall. by apply list_elem_of_In.
Qed.
End encoder.

(** * The decoder *)
Section decoder.
Context {R : Type} `{IOReader R} (size : nat).

(** [m] reads [p] off the stream and returns [a] *)
Definition consumes {A} (m : M (Reader R) resperr A) (p : bytes) (a : A) : Prop :=
  ∀ b s, holds size b (p ++ s) → ∃ b', m b = (Ok a, b') ∧ holds size b' s.

Lemma consumes_ret {A} (a : A) : consumes (mret a) [] a.
Proof. intros b s Hb. by exists b. Qed.

Lemma consumes_bind {A B} (m : M (Reader R) resperr A) (k : A → M (Reader R) resperr B) p q a c :
  consumes m p a → consumes (k a) q c → consumes (m ≫= k) (p ++ q) c.
Proof.
  intros Hm Hk b s Hb. rewrite <-app_assoc in Hb. destruct (Hm _ _ Hb) as (b1 & H1 & Hb1).
  destruct (Hk _ _ Hb1) as (b2 & H2 & Hb2). exists b2. unfold mbind, M_bind. by rewrite H1.
Qed.

(** the last step of a function consumes nothing more *)
Lemma consumes_map {A B} (m : M (Reader R) resperr A) (f : A → B) p a :
  consumes m p a → consumes (x ← m; mret (f x)) p (f a).
Proof. intros Hm. rewrite <-(app_nil_r p). by eapply consumes_bind; [|apply consumes_ret]. Qed.

Lemma consumes_io {A} (m : M (Reader R) ioerr A) p a :
  (∀ b s, holds size b (p ++ s) → ∃ b', m b = (Ok a, b') ∧ holds size b' s) → consumes (io m) p a.
Proof. intros Hm b s Hb. destruct (Hm b s Hb) as (b' & H1 & H2). exists b'. unfold io. by rewrite H1. Qed.

Lemma consumes_lift_bind {A B} (r : outcome resperr A) (k : A → M (Reader R) resperr B) p a c :
  r = Ok a → consumes (k a) p c → consumes (lift r ≫= k) p c.
Proof. intros -> Hk b s Hb. by apply Hk. Qed.

Lemma consumes_times {A} (m : M (Reader R) resperr A) (f : A → bytes) (l : list A) :
  Forall (λ x, consumes m (f x) x) l → consumes (times (length l) m) (concat (map f l)) l.
Proof.
  induction 1 as [|x l Hx _ IH]; cbn; [apply consumes_ret|].
  eapply consumes_bind; [done|]. by apply (consumes_map _ (λ l, x :: l)).
Qed.

Lemma trim_crlf_line v : trim_crlf (v ++ CRLF) = Ok v.
Proof.
  unfold trim_crlf. rewrite length_app. cbn [length CRLF]. rewrite decide_False by lia.
  replace (length v + 2 - 2)%nat with (length v) by lia.
  rewrite lookup_app_r, Nat.sub_diag by lia. cbn. by rewrite take_app_length.
Qed.

Lemma FormatInt_length n : (length (FormatInt n) ≤ 21)%nat.
Proof.
  unfold FormatInt. destruct (n <? 0); cbn [length].
  - pose proof (format_digits_length 19 (- n)). lia.
  - pose proof (format_digits_length 19 n). lia.
Qed.

Lemma FormatInt_no_LF n : - 2 ^ 63 <= n < 2 ^ 63 → LF ∉ FormatInt n.
Proof.
  assert (∀ i, 0 <= i <= 2 ^ 63 → LF ∉ format_digits 20 i) as Hd.
  { intros i Hi Hin. assert (digits_loop 0 (format_digits 20 i) = (i, [])) as Hl
      by (apply format_digits_loop; lia).
    apply digits_loop_all in Hl. rewrite Forall_forall in Hl. by specialize (Hl _ Hin). }
  intros Hn. unfold FormatInt. destruct (n <? 0) eqn:H0.
  - apply Z.ltb_lt in H0. apply not_elem_of_cons. split; [done|]. apply Hd. lia.
  - apply Z.ltb_ge in H0. apply Hd. lia.
Qed.

Lemma decodeTextBytes_consumes fuel v :
  LF ∉ v → (S (length v) < fuel)%nat → consumes (decodeTextBytes fuel) (v ++ CRLF) v.
Proof.
  intros Hv Hf. rewrite <-(app_nil_r (v ++ CRLF)).
  apply (consumes_bind _ _ _ _ (v ++ CRLF)).
  - apply consumes_io. intros b s Hb.
    change (v ++ CRLF) with (v ++ [CR] ++ [LF]) in *. rewrite app_assoc in *.
    rewrite <-app_assoc in Hb. cbn in Hb. apply ReadBytes_holds; [done| |].
    + rewrite not_elem_of_app, not_elem_of_cons. split_and!; [done..|apply not_elem_of_nil].
    + rewrite length_app. cbn. lia.
  - intros b s Hb. exists b. unfold lift. rewrite trim_crlf_line. done.
Qed.

Lemma decodeInt_consumes n :
  (32 ≤ size)%nat → - 2 ^ 63 <= n < 2 ^ 63 → consumes decodeInt (FormatInt n ++ CRLF) n.
Proof.
  intros Hsize Hn. rewrite <-(app_nil_r (FormatInt n ++ CRLF)).
  apply (consumes_bind _ _ _ _ (FormatInt n ++ CRLF, false)).
  - apply consumes_io. intros b s Hb. pose proof (FormatInt_length n) as Hlen.
    change (FormatInt n ++ CRLF) with (FormatInt n ++ [CR] ++ [LF]) in *. rewrite app_assoc in *.
    rewrite <-app_assoc in Hb. cbn in Hb.
    destruct (ReadSlice_holds _ _ _ _ _ Hb) as (res & b' & s' & Hr & Hh & Hres).
    { rewrite not_elem_of_app, not_elem_of_cons.
      split_and!; [by apply FormatInt_no_LF|done|apply not_elem_of_nil]. }
    unfold slice_result in Hres. rewrite decide_True in Hres.
    + destruct Hres as [-> ->]. by exists b'.
    + rewrite length_app. cbn. lia.
  - apply consumes_lift_bind with (FormatInt n); [apply trim_crlf_line|].
    intros b s Hb. exists b. unfold lift. by rewrite Btoi64_parse, parse_format.
Qed.

Lemma decodeBulkBytes_consumes fuel v :
  (32 ≤ size)%nat → Z.of_nat (length v) <= MaxBulkBytesLen → (length v + 2 ≤ fuel)%nat →
  consumes (decodeBulkBytes fuel) (count (length v) ++ v ++ CRLF) (Some v).
Proof.
  intros Hsize Hv Hf. pose proof Hv as Hv'. unfold MaxBulkBytesLen in Hv'. eapply consumes_bind; [apply decodeInt_consumes; [done|lia]|].
  rewrite (proj2 (Z.ltb_ge _ _)) by lia. rewrite (proj2 (Z.ltb_ge _ _)) by lia.
  rewrite (proj2 (Z.eqb_neq _ _)) by lia. rewrite Nat2Z.id.
  rewrite <-(app_nil_r (v ++ CRLF)). apply (consumes_bind _ _ _ _ (Some (v ++ CRLF))).
  - apply consumes_io. intros b s Hb. replace (length v + 2)%nat with (length (v ++ CRLF))
      by (rewrite length_app; done).
    apply ReadFull_holds; [done|by destruct v|rewrite length_app; cbn; lia].
  - cbn [from_option id]. cbn zeta. rewrite !lookup_app_r by lia. rewrite Nat.sub_diag.
    replace (S (length v) - length v)%nat with 1%nat by lia. cbn.
    rewrite decide_True by done. rewrite take_app_length. apply consumes_ret.
Qed.

Lemma decodeBulkBytes_nil fuel :
  (32 ≤ size)%nat → consumes (decodeBulkBytes fuel) nil_mark None.
Proof.
  intros Hsize. rewrite <-(app_nil_r nil_mark).
  eapply consumes_bind; [apply decodeInt_consumes; [done|lia]|]. apply consumes_ret.
Qed.

Lemma decodeArray_consumes dec l :
  (32 ≤ size)%nat → Z.of_nat (length l) <= MaxArrayLen → Forall (λ x, consumes dec (wire x) x) l →
  consumes (decodeArray dec) (count (length l) ++ concat (map wire l)) (Some l).
Proof.
  intros Hsize Hl Hall. pose proof Hl as Hl'. unfold MaxArrayLen in Hl'.
  eapply consumes_bind; [apply decodeInt_consumes; [done|lia]|].
  rewrite (proj2 (Z.ltb_ge _ _)) by lia. rewrite (proj2 (Z.ltb_ge _ _)) by lia.
  rewrite (proj2 (Z.eqb_neq _ _)) by lia. rewrite Nat2Z.id.
  by apply (consumes_map _ Some), consumes_times.
Qed.

Lemma decodeArray_nil dec : (32 ≤ size)%nat → consumes (decodeArray dec) nil_mark None.
Proof.
  intros Hsize. rewrite <-(app_nil_r nil_mark).
  eapply consumes_bind; [apply decodeInt_consumes; [done|lia]|]. apply consumes_ret.
Qed.

Lemma wire_element (l : list Resp) x : x ∈ l → (length (wire x) ≤ length (concat (map wire l)))%nat.
Proof.
  induction 1 as [l|y l Hx IH]; cbn; rewrite length_app; lia.
Qed.

Lemma decodeResp_consumes fuel r :
  (32 ≤ size)%nat → resp_ok r = true → (length (wire r) < fuel)%nat →
  consumes (decodeResp fuel) (wire r) r.
Proof.
  intros Hsize. revert fuel. induction r as [t v a IH] using Resp_induction. intros [|fuel] Hok Hf; [lia|].
  change (wire (mkResp t v a)) with
    ([t] ++ (if is_text t then default [] v ++ CRLF
            else if bool_decide (t = TypeBulkBytes) then
              match v with None => nil_mark | Some v => count (length v) ++ v ++ CRLF end
            else match a with None => nil_mark | Some l => count (length l) ++ concat (map wire l) end)) in *.
  rewrite length_app in Hf. cbn [decodeResp]. apply (consumes_bind _ _ _ _ t).
  { apply consumes_io. intros b s Hb. by apply ReadByte_holds. }
  cbn [resp_ok Type_ Value Array] in Hok. unfold is_text in *.
  repeat case_bool_decide; repeat case_decide; try done.
  - destruct v as [v|]; [|done]. destruct a; [done|]. apply bool_decide_eq_true in Hok.
    apply (consumes_map _ (λ v, mkResp t (Some v) None)).
    apply decodeTextBytes_consumes; [done|]. cbn in Hf. rewrite length_app in Hf. cbn in Hf. lia.
  - destruct a; [by destruct v|]. apply (consumes_map _ (λ v, mkResp t v None)).
    destruct v as [v|]; [|by apply decodeBulkBytes_nil].
    apply decodeBulkBytes_consumes; [done|by apply Z.leb_le|].
    rewrite !length_app in Hf. cbn in Hf. lia.
  - destruct v as [v|]; [done|]. apply (consumes_map _ (λ a, mkResp t None a)).
    destruct a as [l|]; [|by apply decodeArray_nil]. apply andb_prop in Hok as [Hl Hall].
    apply decodeArray_consumes; [done|by apply Z.leb_le|]. specialize (IH l eq_refl).
    rewrite forallb_forall in Hall. rewrite Forall_forall in IH |- *. intros x Hx.
    apply IH; [done|apply Hall; by apply list_elem_of_In|].
    apply wire_element in Hx. rewrite length_app in Hf. cbn in Hf. lia.
Qed.
End decoder.
