(* ===== verification/RespTheorems.v ===== *)
(** What the protocol layer promises the proxy: replies and requests survive the wire,
    inline requests are split into words, no input makes the coder panic, and a coder that
    has failed stays failed; and the slices it hands out never share a byte. *)

From S2P Require Import Prelude Bufio BufioSpec Resp RespNumbers RespSpec.
(** * Concrete ends of a connection *)

(** a writer in memory *)
#[export, refine] Instance mem_writer : IOWriter bytes := {
  wr_write w p := (length p, None, w ++ p);
}.
Proof. all: cbn; lia. Defined.

(** a reader that has [chunks] to deliver, one read at a time, and then the end of file *)
Definition chunk_read (chunks : list bytes) (n : nat) : bytes * option ioerr * list bytes :=
  match chunks with
  | [] => ([], Some EOF, [])
  | c :: rest =>
      (take n c, None, match drop n c with [] => rest | c' => c' :: rest end)
  end.

#[export, refine] Instance chunk_reader : IOReader (list bytes) := { rd_read := chunk_read }.
Proof. intros [|c r] n; cbn; [lia|]. rewrite length_take. lia. Defined.

Lemma mem_accepts (w p : bytes) :
  True → ∃ w', wr_write w p = (length p, None, w') ∧ True ∧ id w' = id w ++ p.
Proof. intros _. by exists (w ++ p). Qed.

Lemma chunk_delivers (chunks : list bytes) :
  Forall (λ c, c ≠ []) chunks → delivers chunks (concat chunks).
Proof.
  remember (length (concat chunks)) as m eqn:Hm. revert chunks Hm.
  induction m as [m IH] using lt_wf_ind. intros chunks -> Hne.
  destruct chunks as [|c r]; [constructor|]. inversion Hne as [|? ? Hc Hr]; subst.
  assert (0 < length c)%nat as Hlc by (destruct c; cbn; [done|lia]).
  apply (delivers_read _ _ (λ n, n `min` length c)%nat (λ n, (chunk_read (c :: r) n).2)).
  - intros n Hn. cbn [concat]. rewrite length_app. split_and!; [lia..|].
    cbn. f_equal. f_equal. rewrite take_app_le by lia.
    destruct (decide (n ≤ length c)%nat); [f_equal; lia|]. rewrite !take_ge by lia. done.
  - intros n Hn. cbn [concat chunk_read snd].
    assert (drop (n `min` length c) (c ++ concat r) =
            concat (match drop n c with [] => r | c' => c' :: r end)) as ->.
    { rewrite drop_app_le by lia. destruct (decide (n ≤ length c)%nat).
      - replace (n `min` length c)%nat with n by lia. by destruct (drop n c).
      - rewrite (drop_ge c n), drop_ge by lia. done. }
    eapply IH; [|done|].
    + destruct (drop n c) as [|x c'] eqn:Hd; cbn [concat]; rewrite !length_app; [lia|].
      rewrite <-Hd, length_drop. lia.
    + destruct (drop n c) as [|x c'] eqn:Hd; [done|]. by constructor.
Qed.

(** * Replies *)

(** C10: a reply the encoder has flushed is read back as the same reply, with the reader
    left at the first byte after it: for every value the protocol can carry, every
    buffer of at least 32 bytes, and every way the connection may cut the bytes up. *)
Theorem decode_encode {W R : Type} `{IOWriter W, IOReader R} (log : W → bytes) (healthy : W → Prop)
    (accepts : ∀ w p, healthy w →
       ∃ w', wr_write w p = (length p, None, w') ∧ healthy w' ∧ log w' = log w ++ p)
    (r : Resp) (e : Encoder W) (sent rest : bytes) (rd : R) (size : Z) :
  resp_ok r = true → e_Err e = None → sinks log healthy (e_bw e) sent → 32 <= size →
  ∃ e' reply, Encode r true e = (Ok tt, e') ∧ log (w_wr (e_bw e')) = sent ++ reply ∧
    (delivers rd (reply ++ rest) → ∀ fuel, (length reply < fuel)%nat →
       ∃ d, Decode fuel (NewDecoderSize rd size) = (Ok r, d) ∧
            d_Err d = None ∧ holds (Z.to_nat size) (d_br d) rest).
Proof.
  intros Hok He Hs Hsize. unfold Encode, guarded_encode. rewrite He.
  destruct (encodeResp_emits log healthy accepts r Hok _ _ Hs) as (b1 & H1 & Hs1).
  destruct (flush_sinks log healthy accepts _ _ Hs1) as (b2 & H2 & _ & _ & Hlog).
  exists (mkEncoder b2 None), (wire r). unfold mbind, M_bind, io. rewrite H1, H2.
  split; [done|]. split; [done|]. intros Hd fuel Hf.
  pose proof (NewReaderSize_holds rd _ size ltac:(lia) Hd) as Hh.
  destruct (decodeResp_consumes (Z.to_nat size) fuel r ltac:(lia) Hok Hf _ _ Hh) as (b3 & H3 & Hb3).
  exists (mkDecoder b3 None). unfold Decode, guarded_decode. cbn [d_Err d_br NewDecoderSize].
  by rewrite H3.
Qed.

Definition demo_reply : Resp :=
  NewArray (Some [NewBulkBytes (Some [x61; x62]); NewBulkBytes None; NewInt (Some [x37])]).

Lemma decode_encode_witness :
  ∃ e' reply, Encode demo_reply true (NewEncoderSize [] 64) = (Ok tt, e') ∧
    id (w_wr (e_bw e')) = [] ++ reply ∧
    (delivers [[x2a; x33; x0d]; [x0a; x24]; drop 5 (wire demo_reply)] (reply ++ []) →
     ∀ fuel, (length reply < fuel)%nat →
       ∃ d, Decode fuel (NewDecoderSize [[x2a; x33; x0d]; [x0a; x24]; drop 5 (wire demo_reply)] 64)
              = (Ok demo_reply, d) ∧
            d_Err d = None ∧ holds (Z.to_nat 64) (d_br d) []).
Proof.
  apply (decode_encode id (λ _, True) mem_accepts demo_reply (NewEncoderSize [] 64) [] []
           [[x2a; x33; x0d]; [x0a; x24]; drop 5 (wire demo_reply)] 64).
  - vm_compute. reflexivity.
  - reflexivity.
  - repeat split; vm_compute; (reflexivity || lia).
  - lia.
Defined.

(** * Requests *)
Lemma decode_bulk_consumes {R} `{IOReader R} size fuel v :
  (32 ≤ size)%nat → resp_ok (NewBulkBytes v) = true → (length (wire (NewBulkBytes v)) < fuel)%nat →
  consumes size (decode_bulk fuel) (wire (NewBulkBytes v)) (NewBulkBytes v).
Proof.
  intros. rewrite <-(app_nil_r (wire _)). eapply consumes_bind; [by apply decodeResp_consumes|].
  cbn [Type_ NewBulkBytes]. rewrite decide_True by done. apply consumes_ret.
Qed.

(** a request the proxy sends on with [EncodeMultiBulk] is the request that
    [DecodeMultiBulk] reads at the other end, argument by argument, nil arguments
    included. *)
Theorem decode_encode_request {W R : Type} `{IOWriter W, IOReader R}
    (log : W → bytes) (healthy : W → Prop)
    (accepts : ∀ w p, healthy w →
       ∃ w', wr_write w p = (length p, None, w') ∧ healthy w' ∧ log w' = log w ++ p)
    (args : list (option bytes)) (e : Encoder W) (sent rest : bytes) (rd : R) (size : Z) :
  (0 < length args)%nat → Z.of_nat (length args) <= MaxArrayLen →
  Forall (λ v, resp_ok (NewBulkBytes v) = true) args →
  e_Err e = None → sinks log healthy (e_bw e) sent → 32 <= size →
  ∃ e' req, EncodeMultiBulk (Some (NewBulkBytes <$> args)) true e = (Ok tt, e') ∧
    log (w_wr (e_bw e')) = sent ++ req ∧
    (delivers rd (req ++ rest) → ∀ fuel, (length req < fuel)%nat →
       ∃ d, DecodeMultiBulk fuel (NewDecoderSize rd size) = (Ok (NewBulkBytes <$> args), d) ∧
            d_Err d = None ∧ holds (Z.to_nat size) (d_br d) rest).
Proof.
  intros Hpos Hmax Hok He Hs Hsize. pose proof Hmax as Hmax'. unfold MaxArrayLen in Hmax'.
  set (multi := NewBulkBytes <$> args).
  assert (length multi = length args) as Hlen by apply length_fmap.
  assert (Forall (λ x, ∃ v, x = NewBulkBytes v ∧ resp_ok x = true) multi) as Hm.
  { unfold multi. apply Forall_fmap. eapply Forall_impl; [exact Hok|]. intros v Hv. by exists v. }
  set (body := count (length multi) ++ concat (map wire multi)).
  assert (emits log healthy (encodeMultiBulk (Some multi)) ([TypeArray] ++ body)) as Hemit.
  { apply emits_bind; [apply emits_io; intros; by apply WriteByte_sinks|].
    apply emits_bind; [by apply encodeInt_emits|]. apply emits_for_each.
    eapply Forall_impl; [exact Hm|]. intros x (v & -> & Hx). by apply encodeResp_emits. }
  unfold EncodeMultiBulk, guarded_encode. rewrite He.
  destruct (Hemit _ _ Hs) as (b1 & H1 & Hs1).
  destruct (flush_sinks log healthy accepts _ _ Hs1) as (b2 & H2 & _ & _ & Hlog).
  exists (mkEncoder b2 None), ([TypeArray] ++ body). unfold mbind, M_bind, io. rewrite H1, H2.
  split; [done|]. split; [done|]. intros Hd fuel Hf.
  pose proof (NewReaderSize_holds rd _ size ltac:(lia) Hd) as Hh.
  assert (∃ b3, decodeMultiBulk fuel (NewReaderSize rd size) = (Ok multi, b3) ∧
                holds (Z.to_nat size) b3 rest) as (b3 & H3 & Hb3); [|
    exists (mkDecoder b3 None); unfold DecodeMultiBulk, guarded_decode;
    cbn [d_Err d_br NewDecoderSize]; by rewrite H3].
  unfold decodeMultiBulk. destruct (PeekByte_holds _ _ _ _ Hh) as (b4 & H4 & Hb4).
  unfold mbind at 1, M_bind at 1, io at 1. rewrite H4.
  rewrite decide_False by (intros Hx; by apply Hx).
  assert (consumes (Z.to_nat size) (_ ← io ReadByte; n ← decodeInt;
            if n <=? 0 then fail ErrBadArrayLen
            else if MaxArrayLen <? n then fail ErrBadArrayLenTooLong
            else times (Z.to_nat n) (decode_bulk fuel)) ([TypeArray] ++ body) multi) as Hc;
    [|by apply Hc].
  apply (consumes_bind _ _ _ _ _ TypeArray).
  { apply consumes_io. intros b s Hb. by apply ReadByte_holds. }
  eapply consumes_bind; [apply decodeInt_consumes; lia|].
  rewrite Hlen, (proj2 (Z.leb_gt _ _)), (proj2 (Z.ltb_ge _ _)), Nat2Z.id, <-Hlen by lia.
  apply consumes_times. rewrite Forall_forall in Hm |- *. intros x Hx.
  destruct (Hm x Hx) as (v & -> & Hv). apply decode_bulk_consumes; [lia|done|].
  apply wire_element in Hx. unfold body in Hf. rewrite !length_app in Hf. lia.
Qed.

Definition demo_args : list (option bytes) := [Some [x47; x45; x54]; Some [x6b]].
Definition demo_request : bytes := count 2 ++ concat (map wire (NewBulkBytes <$> demo_args)).

Lemma decode_encode_request_witness :
  ∃ e' req, EncodeMultiBulk (Some (NewBulkBytes <$> demo_args)) true (NewEncoderSize [] 64) = (Ok tt, e') ∧
    id (w_wr (e_bw e')) = [] ++ req ∧
    (delivers [[x2a]; demo_request] (req ++ []) → ∀ fuel, (length req < fuel)%nat →
       ∃ d, DecodeMultiBulk fuel (NewDecoderSize [[x2a]; demo_request] 64) = (Ok (NewBulkBytes <$> demo_args), d) ∧
            d_Err d = None ∧ holds (Z.to_nat 64) (d_br d) []).
Proof.
  apply (decode_encode_request id (λ _, True) mem_accepts demo_args (NewEncoderSize [] 64) [] []
           [[x2a]; demo_request] 64).
  - vm_compute. lia.
  - vm_compute. discriminate.
  - repeat constructor.
  - reflexivity.
  - repeat split; vm_compute; (reflexivity || lia).
  - lia.
Defined.

(** The demonstration reader does deliver what the two witnesses assume. *)
Example demo_delivers :
  delivers [[x2a]; demo_request] ([x2a] ++ demo_request ++ []) ∧
  delivers [[x2a; x33; x0d]; [x0a; x24]; drop 5 (wire demo_reply)] (wire demo_reply ++ []).
Proof.
  split.
  - apply (chunk_delivers [[x2a]; demo_request]). by repeat constructor.
  - apply (chunk_delivers [[x2a; x33; x0d]; [x0a; x24]; drop 5 (wire demo_reply)]). by repeat constructor.
Qed.

(** ** Inline requests *)

(** the words of a line: maximal runs of bytes other than the space *)
Fixpoint words (cur b : bytes) : list bytes :=
  let flush (rest : list bytes) := match cur with [] => rest | _ => cur :: rest end in
  match b with
  | [] => flush []
  | c :: b => if decide (c = x20) then flush (words [] b) else words (cur ++ [c]) b
  end.

Lemma seq_S_l i n : seq i (S n) = i :: seq (S i) n.
Proof. done. Qed.

Lemma split_loop_words b b1 cur b2 multi :
  b = b1 ++ cur ++ b2 →
  (foldl (split_step b) (length b1, multi) (seq (length b1 + length cur) (S (length b2)))).2
  = multi ++ ((λ w, NewBulkBytes (Some w)) <$> words cur b2).
Proof.
  revert b1 cur multi. induction b2 as [|c b2 IH]; intros b1 cur multi Hb.
  all: assert (slice b (length b1) (length b1 + length cur) = cur) as Hcur by
    (unfold slice; rewrite Hb, drop_app_length, Nat.add_comm, Nat.add_sub; apply take_app_length).
  - cbn. rewrite decide_True by (left; rewrite Hb, !length_app; cbn; lia). rewrite Hcur.
    destruct cur; cbn; [rewrite decide_False by lia; by rewrite app_nil_r|by rewrite decide_True by lia].
  - assert (b !! (length b1 + length cur)%nat = Some c) as Hc.
    { rewrite Hb, app_assoc, lookup_app_r; rewrite length_app; [by rewrite Nat.sub_diag|done]. }
    assert (length b1 + length cur ≠ length b)%nat as Hn.
    { rewrite Hb, !length_app. cbn. lia. }
    rewrite (seq_S_l (length b1 + length cur) (length (c :: b2))). cbn [foldl words].
    unfold split_step at 2. rewrite Hc. case_decide as Hsp.
    + destruct Hsp as [?|[= ->]]; [done|].
      destruct (decide (x20 = x20)) as [_|Hx]; [|done]. rewrite Hcur.
      specialize (IH (b1 ++ cur ++ [x20]) [] (if decide (length b1 < length b1 + length cur)%nat
        then multi ++ [NewBulkBytes (Some cur)] else multi)).
      rewrite !length_app in IH. cbn [length] in IH.
      replace (length b1 + (length cur + 1))%nat with (S (length b1 + length cur)) in IH by lia.
      rewrite Nat.add_0_r in IH. cbn [length] in *. rewrite IH by (rewrite Hb, <-!app_assoc; done).
      destruct cur as [|x cur]; cbn [length]; [by rewrite decide_False by lia|].
      rewrite decide_True by lia. by rewrite <-app_assoc.
    + destruct (decide (c = x20)) as [->|_]; [by destruct Hsp; right|].
      specialize (IH b1 (cur ++ [c]) multi). rewrite length_app in IH. cbn [length] in IH.
      replace (length b1 + (length cur + 1))%nat with (S (length b1 + length cur)) in IH by lia.
      apply IH. rewrite Hb, <-!app_assoc. done.
Qed.

(** A request line that does not start with '*' is read as its words, the runs of
    bytes between spaces, each a bulk argument; a line of spaces alone is an error, and
    an empty line is no request. *)
Theorem inline_request {R : Type} `{IOReader R} (size : nat) (b : Reader R) (line rest : bytes) (fuel : nat) :
  holds size b (line ++ CRLF ++ rest) → LF ∉ line → head (line ++ CRLF) ≠ Some TypeArray →
  (S (length line) < fuel)%nat →
  ∃ b', holds size b' rest ∧
    decodeMultiBulk fuel b =
      (if decide (line ≠ [] ∧ words [] line = []) then Err ErrBadMultiBulkLen
       else Ok ((λ w, NewBulkBytes (Some w)) <$> words [] line), b').
Proof.
  intros Hb Hl Hstar Hf. rewrite app_assoc in Hb. unfold decodeMultiBulk, mbind, M_bind, io at 1.
  assert (split_line line = (λ w, NewBulkBytes (Some w)) <$> words [] line) as Hsp.
  { apply (split_loop_words line [] [] line []). done. }
  destruct (line ++ CRLF) as [|c l] eqn:Hc; [by destruct line|].
  destruct (PeekByte_holds _ _ _ _ Hb) as (b1 & -> & Hb1).
  rewrite decide_True by (intros ->; by apply Hstar). rewrite app_comm_cons, <-Hc in Hb1.
  destruct (decodeTextBytes_consumes size fuel line Hl Hf _ _ Hb1) as (b2 & H2 & Hb2).
  exists b2. split; [done|]. unfold decodeSingleLineMultiBulk, mbind, M_bind. rewrite H2.
  case_decide as H0.
  { apply nil_length_inv in H0 as ->. rewrite decide_False by (by intros [? _]). done. }
  rewrite Hsp, length_fmap. destruct (words [] line) as [|w ws] eqn:Hw; cbn [length].
  - rewrite decide_True by done. rewrite decide_True by (split; [by intros ->|done]). done.
  - rewrite decide_False by done. rewrite decide_False by (by intros [_ ?]). done.
Qed.

Lemma inline_request_witness :
  ∃ b', holds 64 b' [] ∧
    decodeMultiBulk 32 (NewReaderSize [[x20; x50; x49]; [x4e; x47; x20; x0d; x0a]] 64)
    = (Ok [NewBulkBytes (Some [x50; x49; x4e; x47])], b').
Proof.
  apply (inline_request 64 (NewReaderSize [[x20; x50; x49]; [x4e; x47; x20; x0d; x0a]] 64)
           [x20; x50; x49; x4e; x47; x20] [] 32).
  - apply (NewReaderSize_holds _ _ 64); [lia|].
    apply (chunk_delivers [[x20; x50; x49]; [x4e; x47; x20; x0d; x0a]]). by repeat constructor.
  - by apply (bool_decide_unpack _).
  - discriminate.
  - cbn. lia.
Defined.

(** * Robustness *)
Section robust.
Context {R W : Type} `{IOReader R, IOWriter W}.

Lemma io_safe {S A} (I : S → Prop) (m : M S ioerr A) : safe I m → safe I (io m).
Proof.
  intros Hm s Hs. specialize (Hm s Hs). unfold wp, io in *.
  by destruct (m s) as [[a|e|] s']; destruct Hm.
Qed.

Lemma trim_crlf_no_panic b : trim_crlf b ≠ Panic.
Proof.
  unfold trim_crlf. case_decide; [done|].
  destruct (b !! (length b - 2)%nat) as [c|] eqn:Hc; [by case_decide|].
  apply lookup_ge_None in Hc. lia.
Qed.

Lemma ParseInt_no_panic b : ParseInt b ≠ Panic.
Proof.
  unfold ParseInt. destruct (sign_of b) as [neg [|c ds]]; [done|].
  destruct (digits_loop 0 (c :: ds)) as [un []]; [|done]. by destruct neg; case_match.
Qed.

Lemma lift_safe {S E A} (I : S → Prop) (r : outcome E A) : r ≠ Panic → safe I (lift r).
Proof. by intros Hr s Hs. Qed.

Lemma decodeTextBytes_safe fuel : safe reader_wf (decodeTextBytes (R := R) fuel).
Proof.
  apply safe_bind; [apply io_safe, ReadBytes_safe|]. intros b. apply lift_safe, trim_crlf_no_panic.
Qed.

Lemma decodeInt_safe : safe reader_wf (decodeInt (R := R)).
Proof.
  apply safe_bind; [apply io_safe, ReadSlice_safe|]. intros [b []]; [apply safe_fail|].
  apply safe_lift_bind; [apply trim_crlf_no_panic|]. intros v _. apply lift_safe.
  rewrite Btoi64_parse. apply ParseInt_no_panic.
Qed.

Lemma decodeBulkBytes_safe fuel : safe reader_wf (decodeBulkBytes (R := R) fuel).
Proof.
  apply safe_bind; [apply decodeInt_safe|]. intros n.
  destruct (n <? -1); [apply safe_fail|]. destruct (_ <? n); [apply safe_fail|].
  destruct (n =? -1); [apply safe_ret|]. intros b Hb. apply wp_bind. unfold wp at 1, io.
  pose proof (ReadFull_wf fuel (Z.to_nat n + 2) b Hb ltac:(lia)) as Hr. unfold wp in Hr.
  destruct (ReadFull _ _ b) as [[p|e|] b']; cbn in *; [|intuition done..].
  destruct Hr as (Hwf & v & -> & Hlen). cbn [from_option id].
  destruct (v !! Z.to_nat n) as [c1|] eqn:H1; [|apply lookup_ge_None in H1; lia].
  destruct (v !! S (Z.to_nat n)) as [c2|] eqn:H2; [|apply lookup_ge_None in H2; lia].
  case_decide; [by apply wp_ret|by apply wp_fail].
Qed.

Lemma times_safe {S E A} (I : S → Prop) n (m : M S E A) : safe I m → safe I (times n m).
Proof.
  intros Hm. induction n as [|n IH]; cbn; [apply safe_ret|].
  apply safe_bind; [done|]. intros x. apply safe_bind; [done|]. intros l. apply safe_ret.
Qed.

Lemma decodeArray_safe dec : safe reader_wf dec → safe reader_wf (decodeArray (R := R) dec).
Proof.
  intros Hd. apply safe_bind; [apply decodeInt_safe|]. intros n.
  destruct (n <? -1); [apply safe_fail|]. destruct (_ <? n); [apply safe_fail|].
  destruct (n =? -1); [apply safe_ret|]. apply safe_bind; [by apply times_safe|].
  intros l. apply safe_ret.
Qed.

Lemma decodeResp_safe fuel : safe reader_wf (decodeResp (R := R) fuel).
Proof.
  induction fuel as [|fuel IH]; cbn [decodeResp]; [apply safe_fail|].
  apply safe_bind; [apply io_safe, ReadByte_safe|]. intros t. repeat case_decide.
  - apply safe_bind; [apply decodeTextBytes_safe|]. intros v. apply safe_ret.
  - apply safe_bind; [apply decodeBulkBytes_safe|]. intros v. apply safe_ret.
  - apply safe_bind; [by apply decodeArray_safe|]. intros v. apply safe_ret.
  - apply safe_fail.
Qed.

Lemma decodeMultiBulk_safe fuel : safe reader_wf (decodeMultiBulk (R := R) fuel).
Proof.
  apply safe_bind; [apply io_safe, PeekByte_safe|]. intros t. case_decide.
  - apply safe_bind; [apply decodeTextBytes_safe|]. intros v. cbn zeta. repeat case_decide;
      first [apply safe_ret|apply safe_fail].
  - apply safe_bind; [apply io_safe, ReadByte_safe|]. intros _.
    apply safe_bind; [apply decodeInt_safe|]. intros n.
    destruct (n <=? 0); [apply safe_fail|]. destruct (_ <? n); [apply safe_fail|].
    apply times_safe. apply safe_bind; [apply decodeResp_safe|]. intros r.
    case_decide; [apply safe_ret|apply safe_fail].
Qed.

Lemma guarded_decode_safe {A} (m : M (Reader R) resperr A) :
  safe reader_wf m → safe (λ d, reader_wf (d_br d)) (guarded_decode m).
Proof.
  intros Hm d Hd. specialize (Hm _ Hd). unfold wp, guarded_decode in *.
  destruct (d_Err d); [done|]. by destruct (m (d_br d)) as [[a|e|] b']; destruct Hm.
Qed.

Lemma recorded_safe (m : M (Writer W) ioerr unit) :
  (∀ b, writer_wf b → wp m (λ r b', writer_wf b' ∧ recorded r b') b) → safe writer_wf (io m).
Proof.
  intros Hm. apply io_safe. intros b Hb. eapply wp_mono; [by apply Hm|].
  intros [] b' [? Hr]; cbn in Hr; [done..|tauto].
Qed.

Lemma encodeTextBytes_safe v : safe writer_wf (encodeTextBytes (W := W) v).
Proof.
  apply safe_bind; [apply recorded_safe, Write_wf|]. intros _. apply recorded_safe, WriteString_wf.
Qed.

Lemma encodeInt_safe n : safe writer_wf (encodeInt (W := W) n).
Proof.
  unfold encodeInt. rewrite itoa_format.
  apply safe_bind; [apply recorded_safe, WriteString_wf|]. intros _. apply recorded_safe, WriteString_wf.
Qed.

Lemma encodeResp_safe r : safe writer_wf (encodeResp (W := W) r).
Proof.
  induction r as [t v a IH] using Resp_induction. cbn [encodeResp Type_ Value Array].
  apply safe_bind; [apply recorded_safe, WriteByte_wf|]. intros _. repeat case_decide.
  - apply encodeTextBytes_safe.
  - destruct v; [|apply encodeInt_safe]. apply safe_bind; [apply encodeInt_safe|].
    intros _. apply encodeTextBytes_safe.
  - destruct a as [l|]; [|apply encodeInt_safe]. apply safe_bind; [apply encodeInt_safe|].
    intros _ b Hb. unfold wp. rewrite encode_all_for_each. revert b Hb.
    apply safe_for_each. specialize (IH l eq_refl). by rewrite Forall_forall in IH.
  - apply safe_fail.
Qed.

Lemma guarded_encode_safe (m : M (Writer W) resperr unit) :
  safe writer_wf m → safe (λ e, writer_wf (e_bw e)) (guarded_encode m).
Proof.
  intros Hm e He. specialize (Hm _ He). unfold wp, guarded_encode in *.
  destruct (e_Err e); [done|]. by destruct (m (e_bw e)) as [[a|x|] b']; destruct Hm.
Qed.

Lemma flush_opt_safe (f : bool) : safe writer_wf (if f then io flush else mret tt : M (Writer W) resperr unit).
Proof.
  destruct f; [|apply safe_ret]. apply recorded_safe. intros b Hb.
  eapply wp_mono; [by apply flush_wf|]. intros r b' (? & ? & _). done.
Qed.

(** C13: whatever bytes the peer sends, however they arrive and whichever I/O errors
    occur, decoding a reply or a request does not panic; nor does encoding any value,
    malformed ones included, over any writer.  The buffers' positions stay in range. *)
Theorem codec_no_panic (fuel : nat) (r : Resp) (multi : option (list Resp)) (flush_ : bool) :
  safe (λ d, reader_wf (d_br d)) (Decode (R := R) fuel) ∧
  safe (λ d, reader_wf (d_br d)) (DecodeMultiBulk (R := R) fuel) ∧
  safe (λ e, writer_wf (e_bw e)) (Encode (W := W) r flush_) ∧
  safe (λ e, writer_wf (e_bw e)) (EncodeMultiBulk (W := W) multi flush_).
Proof.
  split_and!; [apply guarded_decode_safe, decodeResp_safe|apply guarded_decode_safe, decodeMultiBulk_safe|..].
  - apply guarded_encode_safe, safe_bind; [apply encodeResp_safe|]. intros _. apply flush_opt_safe.
  - apply guarded_encode_safe, safe_bind; [|intros _; apply flush_opt_safe].
    apply safe_bind; [apply recorded_safe, WriteByte_wf|]. intros _.
    destruct multi as [l|]; [|apply encodeInt_safe]. apply safe_bind; [apply encodeInt_safe|].
    intros _. apply safe_for_each. intros x _. apply encodeResp_safe.
Qed.
End robust.

(** The slices the allocator of a reader hands out, one for every line and bulk
    value it returns, never share a byte, and each has the length asked for: a value
    already returned is not overwritten by a later read. *)
Theorem make_all_apart (ns : list nat) (d : sliceAlloc) (rs : list region) (d' : sliceAlloc) :
  alloc_ok d → make_all ns d = (rs, d') →
  (rg_len <$> rs) = ns ∧ ForallOrdPairs apart rs.
Proof.
  intros Hd. revert d rs d' Hd. induction ns as [|n ns IH]; intros d rs d' Hd; cbn.
  { intros [= <- <-]. by repeat constructor. }
  destruct (Make n d) as [r0 d0] eqn:Hm. destruct (make_all ns d0) as [rs0 d1] eqn:Hms.
  intros [= <- <-]. destruct (Make_unused _ _ _ _ Hm Hd) as (Hlen & Hd0 & Hr0 & _).
  destruct (IH _ _ _ Hd0 Hms) as [Hl Ho]. split; [cbn; by f_equal|]. constructor; [|done].
  apply Forall_forall. intros r Hr a i H1 H2. destruct (Hr0 a i H1) as [_ Hn]. apply Hn.
  by eapply make_all_unused.
Qed.

Lemma make_all_apart_witness :
  (rg_len <$> (make_all [100; 600; 0; 200]%nat (mkAlloc (mkRegion 0 0 0) 0)).1) = [100; 600; 0; 200]%nat ∧
  ForallOrdPairs apart (make_all [100; 600; 0; 200]%nat (mkAlloc (mkRegion 0 0 0) 0)).1.
Proof.
  apply (make_all_apart [100; 600; 0; 200]%nat (mkAlloc (mkRegion 0 0 0) 0)
           _ (make_all [100; 600; 0; 200]%nat (mkAlloc (mkRegion 0 0 0) 0)).2).
  - by left.
  - apply surjective_pairing.
Defined.
