(* ===== verification/Mapper.v ===== *)
(** The command table and the key hash of the proxy: pkg/proxy/mapper.go and the tables
    of stream_commands.go.

    Command names and keys are byte strings.  A Go map filled by a loop is an association
    list to which each store adds an entry at the front, so that a later store wins. *)

From S2P Require Import Prelude Bufio Resp.
From S2P Require Import BufioSpec RespNumbers.
(** a string literal as bytes *)
Definition bstr (s : string) : bytes := String.list_byte_of_string s.

Definition assoc {A} (k : bytes) (l : list (bytes * A)) : option A :=
  snd <$> find (λ e, bool_decide (e.1 = k)) l.

(** * Flags *)
Definition FlagWrite : Z := 1.
Definition FlagMasterOnly : Z := 2.
Definition FlagMayWrite : Z := 4.
Definition FlagNotAllow : Z := 8.

Definition IsNotAllowed (f : Z) : bool := negb (Z.land f FlagNotAllow =? 0).
Definition IsReadOnly (f : Z) : bool := Z.land f (Z.lor FlagWrite FlagMayWrite) =? 0.
Definition IsMasterOnly (f : Z) : bool :=
  negb (Z.land f (Z.lor (Z.lor FlagWrite FlagMayWrite) FlagMasterOnly) =? 0).

Record OpInfo := mkOp { Name : bytes; Flag : Z }.
#[global] Instance OpInfo_eq_dec : EqDecision OpInfo.
Proof. solve_decision. Defined.

Definition op (name : string) (flag : Z) : OpInfo := mkOp (bstr name) flag.

(** * Stream commands *)
Inductive streamRouteKind :=
| streamRouteSingleKey
| streamRouteXGroup
| streamRouteXInfo
| streamRouteXRead
| streamRouteXReadGroup.

Record streamCommandSpec := mkSpec { sc_flag : Z; sc_kind : streamRouteKind }.

Definition spec (name : string) (flag : Z) (kind : streamRouteKind) : bytes * streamCommandSpec :=
  (bstr name, mkSpec flag kind).

Definition streamCommandSpecs : list (bytes * streamCommandSpec) :=
  [
   spec "XACK" FlagWrite streamRouteSingleKey;
   spec "XACKDEL" FlagWrite streamRouteSingleKey;
   spec "XADD" FlagWrite streamRouteSingleKey;
   spec "XAUTOCLAIM" FlagWrite streamRouteSingleKey;
   spec "XCFGSET" FlagWrite streamRouteSingleKey;
   spec "XCLAIM" FlagWrite streamRouteSingleKey;
   spec "XDEL" FlagWrite streamRouteSingleKey;
   spec "XDELEX" FlagWrite streamRouteSingleKey;
   spec "XGROUP" FlagWrite streamRouteXGroup;
   spec "XIDMPRECORD" FlagWrite streamRouteSingleKey;
   spec "XINFO" 0 streamRouteXInfo;
   spec "XLEN" 0 streamRouteSingleKey;
   spec "XPENDING" 0 streamRouteSingleKey;
   spec "XRANGE" 0 streamRouteSingleKey;
   spec "XREAD" 0 streamRouteXRead;
   spec "XREADGROUP" FlagWrite streamRouteXReadGroup;
   spec "XREVRANGE" 0 streamRouteSingleKey;
   spec "XSETID" FlagWrite streamRouteSingleKey;
   spec "XTRIM" FlagWrite streamRouteSingleKey].

Definition streamXGroupSubcommands : list bytes :=
  bstr <$> ["CREATE"; "SETID"; "DESTROY"; "CREATECONSUMER"; "DELCONSUMER"]%string.

Definition streamXInfoSubcommands : list bytes :=
  bstr <$> ["STREAM"; "GROUPS"; "CONSUMERS"]%string.

Definition isStreamCommand (opstr : bytes) : bool := bool_decide (is_Some (assoc opstr streamCommandSpecs)).

(** * The command table *)
Definition opList : list OpInfo :=
  [
   op "APPEND" FlagWrite;
   op "ASKING" FlagNotAllow;
   op "AUTH" 0;
   op "BGREWRITEAOF" FlagNotAllow;
   op "BGSAVE" FlagNotAllow;
   op "BITCOUNT" 0;
   op "BITFIELD" FlagWrite;
   op "BITOP" (Z.lor FlagWrite FlagNotAllow);
   op "BITPOS" 0;
   op "BLPOP" (Z.lor FlagWrite FlagNotAllow);
   op "BRPOP" (Z.lor FlagWrite FlagNotAllow);
   op "BRPOPLPUSH" (Z.lor FlagWrite FlagNotAllow);
   op "CLIENT" 0;
   op "CLUSTER" 0;
   op "COMMAND" 0;
   op "CONFIG" FlagNotAllow;
   op "DBSIZE" FlagNotAllow;
   op "DEBUG" FlagNotAllow;
   op "DECR" FlagWrite;
   op "DECRBY" FlagWrite;
   op "DEL" FlagWrite;
   op "DISCARD" FlagNotAllow;
   op "DUMP" 0;
   op "ECHO" 0;
   op "EVAL" FlagWrite;
   op "EVALSHA" FlagWrite;
   op "EXEC" FlagNotAllow;
   op "EXISTS" 0;
   op "EXPIRE" FlagWrite;
   op "EXPIREAT" FlagWrite;
   op "FLUSHALL" (Z.lor FlagWrite FlagNotAllow);
   op "FLUSHDB" (Z.lor FlagWrite FlagNotAllow);
   op "GEOADD" FlagWrite;
   op "GEODIST" 0;
   op "GEOHASH" 0;
   op "GEOPOS" 0;
   op "GEORADIUS" FlagWrite;
   op "GEORADIUSBYMEMBER" FlagWrite;
   op "GET" 0;
   op "GETBIT" 0;
   op "GETRANGE" 0;
   op "GETSET" FlagWrite;
   op "HDEL" FlagWrite;
   op "HEXISTS" 0;
   op "HGET" 0;
   op "HGETALL" 0;
   op "HINCRBY" FlagWrite;
   op "HINCRBYFLOAT" FlagWrite;
   op "HKEYS" 0;
   op "HLEN" 0;
   op "HMGET" 0;
   op "HMSET" FlagWrite;
   op "HOST:" FlagNotAllow;
   op "HSCAN" FlagMasterOnly;
   op "HSET" FlagWrite;
   op "HSETNX" FlagWrite;
   op "HSTRLEN" 0;
   op "HVALS" 0;
   op "INCR" FlagWrite;
   op "INCRBY" FlagWrite;
   op "INCRBYFLOAT" FlagWrite;
   op "INFO" 0;
   op "KEYS" FlagNotAllow;
   op "LASTSAVE" FlagNotAllow;
   op "LATENCY" FlagNotAllow;
   op "LINDEX" 0;
   op "LINSERT" FlagWrite;
   op "LLEN" 0;
   op "LPOP" FlagWrite;
   op "LPUSH" FlagWrite;
   op "LPUSHX" FlagWrite;
   op "LRANGE" 0;
   op "LREM" FlagWrite;
   op "LSET" FlagWrite;
   op "LTRIM" FlagWrite;
   op "MGET" 0;
   op "MIGRATE" (Z.lor FlagWrite FlagNotAllow);
   op "MONITOR" FlagNotAllow;
   op "MOVE" (Z.lor FlagWrite FlagNotAllow);
   op "MSET" FlagWrite;
   op "MSETNX" (Z.lor FlagWrite FlagNotAllow);
   op "MULTI" FlagNotAllow;
   op "OBJECT" FlagNotAllow;
   op "PERSIST" FlagWrite;
   op "PEXPIRE" FlagWrite;
   op "PEXPIREAT" FlagWrite;
   op "PFADD" FlagWrite;
   op "PFCOUNT" 0;
   op "PFDEBUG" FlagWrite;
   op "PFMERGE" FlagWrite;
   op "PFSELFTEST" 0;
   op "PING" 0;
   op "POST" FlagNotAllow;
   op "PSETEX" FlagWrite;
   op "PSUBSCRIBE" FlagNotAllow;
   op "PSYNC" FlagNotAllow;
   op "PTTL" 0;
   op "PUBLISH" FlagNotAllow;
   op "PUBSUB" 0;
   op "PUNSUBSCRIBE" FlagNotAllow;
   op "QUIT" 0;
   op "RANDOMKEY" FlagNotAllow;
   op "READONLY" FlagNotAllow;
   op "READWRITE" FlagNotAllow;
   op "RENAME" (Z.lor FlagWrite FlagNotAllow);
   op "RENAMENX" (Z.lor FlagWrite FlagNotAllow);
   op "REPLCONF" FlagNotAllow;
   op "RESTORE" (Z.lor FlagWrite FlagNotAllow);
   op "RESTORE-ASKING" (Z.lor FlagWrite FlagNotAllow);
   op "ROLE" 0;
   op "RPOP" FlagWrite;
   op "RPOPLPUSH" FlagWrite;
   op "RPUSH" FlagWrite;
   op "RPUSHX" FlagWrite;
   op "SADD" FlagWrite;
   op "SAVE" FlagNotAllow;
   op "SCAN" (Z.lor FlagMasterOnly FlagNotAllow);
   op "SCARD" 0;
   op "SCRIPT" FlagNotAllow;
   op "SDIFF" 0;
   op "SDIFFSTORE" FlagWrite;
   op "SELECT" 0;
   op "SET" FlagWrite;
   op "SETBIT" FlagWrite;
   op "SETEX" FlagWrite;
   op "SETNX" FlagWrite;
   op "SETRANGE" FlagWrite;
   op "SHUTDOWN" FlagNotAllow;
   op "SINTER" 0;
   op "SINTERSTORE" FlagWrite;
   op "SISMEMBER" 0;
   op "SLAVEOF" FlagNotAllow;
   op "SLOTSCHECK" FlagNotAllow;
   op "SLOTSDEL" (Z.lor FlagWrite FlagNotAllow);
   op "SLOTSHASHKEY" 0;
   op "SLOTSINFO" FlagMasterOnly;
   op "SLOTSMAPPING" 0;
   op "SLOTSMGRTONE" (Z.lor FlagWrite FlagNotAllow);
   op "SLOTSMGRTSLOT" (Z.lor FlagWrite FlagNotAllow);
   op "SLOTSMGRTTAGONE" (Z.lor FlagWrite FlagNotAllow);
   op "SLOTSMGRTTAGSLOT" (Z.lor FlagWrite FlagNotAllow);
   op "SLOTSRESTORE" FlagWrite;
   op "SLOTSMGRTONE-ASYNC" (Z.lor FlagWrite FlagNotAllow);
   op "SLOTSMGRTSLOT-ASYNC" (Z.lor FlagWrite FlagNotAllow);
   op "SLOTSMGRTTAGONE-ASYNC" (Z.lor FlagWrite FlagNotAllow);
   op "SLOTSMGRTTAGSLOT-ASYNC" (Z.lor FlagWrite FlagNotAllow);
   op "SLOTSMGRT-ASYNC-FENCE" FlagNotAllow;
   op "SLOTSMGRT-ASYNC-CANCEL" FlagNotAllow;
   op "SLOTSMGRT-ASYNC-STATUS" FlagNotAllow;
   op "SLOTSMGRT-EXEC-WRAPPER" (Z.lor FlagWrite FlagNotAllow);
   op "SLOTSRESTORE-ASYNC" (Z.lor FlagWrite FlagNotAllow);
   op "SLOTSRESTORE-ASYNC-AUTH" (Z.lor FlagWrite FlagNotAllow);
   op "SLOTSRESTORE-ASYNC-ACK" (Z.lor FlagWrite FlagNotAllow);
   op "SLOTSSCAN" FlagMasterOnly;
   op "SLOWLOG" FlagNotAllow;
   op "SMEMBERS" 0;
   op "SMOVE" FlagWrite;
   op "SORT" FlagWrite;
   op "SPOP" FlagWrite;
   op "SRANDMEMBER" 0;
   op "SREM" FlagWrite;
   op "SSCAN" FlagMasterOnly;
   op "STRLEN" 0;
   op "SUBSCRIBE" FlagNotAllow;
   op "SUBSTR" 0;
   op "SUNION" 0;
   op "SUNIONSTORE" FlagWrite;
   op "SYNC" FlagNotAllow;
   op "TIME" FlagNotAllow;
   op "TOUCH" FlagWrite;
   op "TTL" 0;
   op "TYPE" 0;
   op "UNSUBSCRIBE" FlagNotAllow;
   op "UNWATCH" FlagNotAllow;
   op "WAIT" FlagNotAllow;
   op "WATCH" FlagNotAllow;
   op "ZADD" FlagWrite;
   op "ZCARD" 0;
   op "ZCOUNT" 0;
   op "ZINCRBY" FlagWrite;
   op "ZINTERSTORE" FlagWrite;
   op "ZLEXCOUNT" 0;
   op "ZRANGE" 0;
   op "ZRANGEBYLEX" 0;
   op "ZRANGEBYSCORE" 0;
   op "ZRANK" 0;
   op "ZREM" FlagWrite;
   op "ZREMRANGEBYLEX" FlagWrite;
   op "ZREMRANGEBYRANK" FlagWrite;
   op "ZREMRANGEBYSCORE" FlagWrite;
   op "ZREVRANGE" 0;
   op "ZREVRANGEBYLEX" 0;
   op "ZREVRANGEBYSCORE" 0;
   op "ZREVRANK" 0;
   op "ZSCAN" FlagMasterOnly;
   op "ZSCORE" 0;
   op "ZUNIONSTORE" FlagWrite].

(** [table[name] = info] *)
Definition store_op (table : list (bytes * OpInfo)) (i : OpInfo) : list (bytes * OpInfo) :=
  (Name i, i) :: table.

Definition registerStreamCommandOps (table : list (bytes * OpInfo)) : list (bytes * OpInfo) :=
  foldl (λ t s, store_op t (mkOp s.1 (sc_flag s.2))) table streamCommandSpecs.

Definition opTable : list (bytes * OpInfo) :=
  registerStreamCommandOps (foldl store_op [] opList).

(** * Parsing the command name *)

(** [charmap[c]]; [None] is the zero byte *)
Definition charmap (c : byte) : option byte :=
  let v := byte_val c in
  if (65 <=? v) && (v <=? 90) then Some c
  else if (97 <=? v) && (v <=? 122) then Byte.of_N (Z.to_N (v - 97 + 65))
  else if v =? 58 then Some c
  else None.

Inductive operr := ErrBadMultiBulk | ErrBadOpStrLen.

Definition MaxOpStrLen : nat := 64.

(** [strings.ToUpper], of the standard library, maps Unicode letters: it is a parameter *)
Section getOpInfo.
Context (ToUpper : bytes → bytes).

Definition getOpInfo (multi : list Resp) : outcome operr (bytes * Z) :=
  match multi with
  | [] => Err ErrBadMultiBulk
  | m0 :: _ =>
      let op := default [] (Value m0) in
      if decide (length op = 0%nat ∨ (MaxOpStrLen < length op)%nat) then Err ErrBadOpStrLen
      else match mapM charmap op with
           | None => Ok (ToUpper op, FlagMayWrite)
           | Some upper =>
               match assoc upper opTable with
               | Some r => Ok (Name r, Flag r)
               | None => Ok (upper, FlagMayWrite)
               end
           end
  end.
End getOpInfo.

(** * The hash of a key *)

(** [crc32.ChecksumIEEE] of the standard library: the reflected polynomial 0xedb88320 *)
Definition crc_step (c : Z) : Z :=
  if Z.testbit c 0 then Z.lxor (Z.shiftr c 1) 0xedb88320 else Z.shiftr c 1.
Definition crc_byte (c : Z) (b : byte) : Z := Nat.iter 8 crc_step (Z.lxor c (byte_val b)).
Definition ChecksumIEEE (b : bytes) : Z := Z.lxor (foldl crc_byte 0xffffffff b) 0xffffffff.

Definition TagBeg : byte := x7b.
Definition TagEnd : byte := x7d.

Definition hashTagOrKeyWithTag (key : bytes) : bytes * bool :=
  match IndexByte key TagBeg with
  | Some beg =>
      match IndexByte (drop (beg + 1) key) TagEnd with
      | Some fin => (slice key (beg + 1) (beg + 1 + fin), true)
      | None => (key, false)
      end
  | None => (key, false)
  end.

Definition hashTagOrKey (key : bytes) : bytes := (hashTagOrKeyWithTag key).1.

Definition Hash (key : bytes) : Z := ChecksumIEEE (hashTagOrKey key).

(** [None] is the nil key *)
Definition getHashKey (multi : list Resp) (opstr : bytes) : option bytes :=
  let index :=
    if bool_decide (opstr ∈ bstr <$> ["ZINTERSTORE"; "ZUNIONSTORE"; "EVAL"; "EVALSHA"]%string)
    then 3%nat else 1%nat in
  match multi !! index with
  | Some r => Value r
  | None => None
  end.

(** The command table and the key hash: what the rest of the proxy relies on. *)

(** * Hash tags *)
Lemma IndexByte_app_notin l c s : c ∉ l → IndexByte (l ++ c :: s) c = Some (length l).
Proof.
  induction l as [|x l IH]; cbn; intros Hc; [by rewrite decide_True|].
  apply not_elem_of_cons in Hc as [? ?]. rewrite decide_False by done. by rewrite IH.
Qed.

Lemma IndexByte_notin l c : c ∉ l → IndexByte l c = None.
Proof.
  induction l as [|x l IH]; cbn; intros Hc; [done|].
  apply not_elem_of_cons in Hc as [? ?]. rewrite decide_False by done. by rewrite IH.
Qed.

Lemma hashTag_found pre tag post :
  TagBeg ∉ pre → TagEnd ∉ tag →
  hashTagOrKeyWithTag (pre ++ TagBeg :: tag ++ TagEnd :: post) = (tag, true).
Proof.
  intros Hp Ht. unfold hashTagOrKeyWithTag. rewrite IndexByte_app_notin by done.
  assert (drop (length pre + 1) (pre ++ TagBeg :: tag ++ TagEnd :: post) = tag ++ TagEnd :: post) as Hd.
  { rewrite drop_app_ge by lia. by replace (length pre + 1 - length pre)%nat with 1%nat by lia. }
  rewrite Hd, IndexByte_app_notin by done. f_equal. unfold slice. rewrite Hd.
  replace (length pre + 1 + length tag - (length pre + 1))%nat with (length tag) by lia.
  apply take_app_length.
Qed.

Lemma hashTag_not_found key :
  (∀ pre tag post, TagBeg ∉ pre → key ≠ pre ++ TagBeg :: tag ++ TagEnd :: post) →
  hashTagOrKeyWithTag key = (key, false).
Proof.
  intros Hno. unfold hashTagOrKeyWithTag. destruct (IndexByte key TagBeg) as [beg|] eqn:Hb; [|done].
  destruct (IndexByte_Some _ _ _ Hb) as (s & Hk & Hpre & Hlt).
  destruct (IndexByte (drop (beg + 1) key) TagEnd) as [fin|] eqn:Hf; [|done].
  destruct (IndexByte_Some _ _ _ Hf) as (s' & Hd & _ & _). exfalso.
  apply (Hno (take beg key) (take fin (drop (beg + 1) key)) s'); [done|]. rewrite <-Hd.
  rewrite Hk at 1. do 2 f_equal. rewrite Hk, drop_app_ge by (rewrite length_take; lia).
  rewrite length_take. by replace (beg + 1 - beg `min` length key)%nat with 1%nat by lia.
Qed.

(** a key with a tag, the bytes between its first '{' and the next '}', is hashed by
    its tag alone, and so lies in the slot of the bare tag; every other key is hashed as a
    whole.  Keys sharing a tag thus always share a slot. *)
Theorem Hash_tag (key : bytes) :
  (∃ pre tag post, key = pre ++ TagBeg :: tag ++ TagEnd :: post ∧ TagBeg ∉ pre ∧ TagEnd ∉ tag ∧
                   Hash key = ChecksumIEEE tag ∧ Hash key = Hash tag) ∨
  ((∀ pre tag post, TagBeg ∉ pre → key ≠ pre ++ TagBeg :: tag ++ TagEnd :: post) ∧
   Hash key = ChecksumIEEE key).
Proof.
  destruct (IndexByte key TagBeg) as [beg|] eqn:Hb.
  - destruct (IndexByte_Some _ _ _ Hb) as (s & Hk & Hpre & Hlt).
    destruct (IndexByte s TagEnd) as [fin|] eqn:Hf.
    + destruct (IndexByte_Some _ _ _ Hf) as (s' & Hs & Htag & _). left.
      remember (take beg key) as pre eqn:Hpe. remember (take fin s) as tag eqn:Hte. clear Hpe Hte.
      exists pre, tag, s'. rewrite Hs in Hk. subst key. split_and!; [done..| |].
      * unfold Hash, hashTagOrKey. by rewrite hashTag_found.
      * unfold Hash, hashTagOrKey. rewrite hashTag_found by done.
        rewrite hashTag_not_found; [done|]. intros pre' tag' post _ Heq. apply Htag. rewrite Heq.
        rewrite elem_of_app, elem_of_cons, elem_of_app, elem_of_cons. auto.
    + right. assert (∀ pre tag post, TagBeg ∉ pre → key ≠ pre ++ TagBeg :: tag ++ TagEnd :: post) as Hno.
      { intros pre tag post Hp Heq. rewrite Hk in Heq.
        apply line_unique in Heq as [_ ->]; [|done..].
        apply IndexByte_None in Hf. apply Hf. rewrite elem_of_app, elem_of_cons. auto. }
      split; [done|]. unfold Hash, hashTagOrKey. by rewrite hashTag_not_found.
  - right. apply IndexByte_None in Hb.
    assert (∀ pre tag post, TagBeg ∉ pre → key ≠ pre ++ TagBeg :: tag ++ TagEnd :: post) as Hno.
    { intros pre tag post _ Heq. apply Hb. rewrite Heq, elem_of_app, elem_of_cons. auto. }
    split; [done|]. unfold Hash, hashTagOrKey. by rewrite hashTag_not_found.
Qed.

(** * The command table *)

(** [c] written in either case *)
Definition same_letter (c u : byte) : Prop := charmap c = Some u.

Lemma mapM_charmap op name : Forall2 same_letter op name → mapM charmap op = Some name.
Proof. intros Hf. by apply mapM_Some_2. Qed.

(** every entry of the table is found under its name, with no longer name than allowed *)
Lemma opTable_entries :
  forallb (λ e : bytes * OpInfo,
    match assoc e.1 opTable with
    | Some i => bool_decide (Name i = e.1) && (Flag i =? Flag e.2)
    | None => false
    end && bool_decide (0 < length e.1 ≤ MaxOpStrLen)%nat) opTable = true.
Proof. vm_compute. reflexivity. Qed.

Lemma opTable_entry name info :
  (name, info) ∈ opTable →
  (0 < length name ≤ MaxOpStrLen)%nat ∧
  ∃ i, assoc name opTable = Some i ∧ Name i = name ∧ Flag i = Flag info.
Proof.
  intros Hin. pose proof opTable_entries as Hall. rewrite forallb_forall in Hall.
  specialize (Hall _ (proj1 (list_elem_of_In _ _) Hin)). cbn [fst snd] in Hall.
  apply andb_prop in Hall as [Ha Hl%bool_decide_eq_true]. split; [done|].
  destruct (assoc name opTable) as [i|]; [|done]. exists i.
  apply andb_prop in Ha as [Hn%bool_decide_eq_true Hf%Z.eqb_eq]. done.
Qed.

(** A command of the table whose name is made of letters (and the colon) is
    recognised in any mix of upper and lower case, and gets the flags of its entry. *)
Theorem getOpInfo_known (ToUpper : bytes → bytes) (name op : bytes) (info : OpInfo) (args : list Resp) :
  (name, info) ∈ opTable → Forall2 same_letter op name →
  getOpInfo ToUpper (NewBulkBytes (Some op) :: args) = Ok (name, Flag info).
Proof.
  intros Hin Hop. destruct (opTable_entry name info Hin) as (Hl & i & Ha & Hn & Hf).
  pose proof (Forall2_length _ _ _ Hop) as Hlen. unfold getOpInfo. cbn [Value NewBulkBytes from_option id].
  rewrite decide_False by lia. rewrite (mapM_charmap op name Hop), Ha. by rewrite Hn, Hf.
Qed.

Lemma getOpInfo_known_witness :
  getOpInfo id [NewBulkBytes (Some (bstr "gEt")); NewBulkBytes (Some (bstr "k"))] = Ok (bstr "GET", 0).
Proof.
  apply (getOpInfo_known id (bstr "GET") (bstr "gEt") (mkOp (bstr "GET") 0)
           [NewBulkBytes (Some (bstr "k"))]).
  - apply (bool_decide_unpack _). vm_compute. exact I.
  - repeat constructor.
Defined.

(** the entries of the table whose names contain a '-', all of them refused commands,
    are never reached: whatever the case they are sent in, the command gets the flags of
    an unknown one, and with them it is let through. *)
Theorem getOpInfo_dashed (ToUpper : bytes → bytes) (name op : bytes) (info : OpInfo) (args : list Resp) :
  (name, info) ∈ opTable → x2d ∈ name → length op = length name → x2d ∈ op →
  IsNotAllowed (Flag info) = true ∧
  ∃ name' flag, getOpInfo ToUpper (NewBulkBytes (Some op) :: args) = Ok (name', flag) ∧
                IsNotAllowed flag = false.
Proof.
  intros Hin Hd Hlen Hop. destruct (opTable_entry name info Hin) as (Hl & _). split.
  - assert (forallb (λ e : bytes * OpInfo, negb (bool_decide (x2d ∈ e.1)) || IsNotAllowed (Flag e.2))
              opTable = true) as Hall by (vm_compute; reflexivity).
    rewrite forallb_forall in Hall. specialize (Hall _ (proj1 (list_elem_of_In _ _) Hin)).
    cbn [fst snd] in Hall. by rewrite bool_decide_eq_true_2 in Hall.
  - exists (ToUpper op), FlagMayWrite. split; [|done]. unfold getOpInfo.
    cbn [Value NewBulkBytes from_option id]. rewrite decide_False by lia.
    destruct (mapM charmap op) as [u|] eqn:Hu; [|done]. exfalso.
    apply mapM_Some_1 in Hu. apply list_elem_of_lookup in Hop as [i Hi].
    destruct (Forall2_lookup_l _ _ _ _ _ Hu Hi) as (y & _ & Hy). done.
Qed.

Lemma getOpInfo_dashed_witness :
  IsNotAllowed (Z.lor FlagWrite FlagNotAllow) = true ∧
  ∃ name' flag, getOpInfo id [NewBulkBytes (Some (bstr "slotsrestore-async"))] = Ok (name', flag) ∧
                IsNotAllowed flag = false.
Proof.
  apply (getOpInfo_dashed id (bstr "SLOTSRESTORE-ASYNC") (bstr "slotsrestore-async")
           (mkOp (bstr "SLOTSRESTORE-ASYNC") (Z.lor FlagWrite FlagNotAllow)) []).
  - apply (bool_decide_unpack _). vm_compute. exact I.
  - apply (bool_decide_unpack _). vm_compute. exact I.
  - reflexivity.
  - apply (bool_decide_unpack _). vm_compute. exact I.
Defined.
