(* ===== verification/Stream.v ===== *)
(** Routing of the Stream commands: pkg/proxy/stream_commands.go.

    [Err resp] is the early return of an error reply, [Panic] an index out of range. *)

From S2P Require Import Prelude Bufio Resp Mapper.
(** [hashKey []byte; keys [][]byte]; a nil key is [None] *)
Record streamRoute := mkRoute { hashKey : option bytes; route_keys : list (option bytes) }.

(** a [[]byte] read as bytes: the nil slice is empty *)
Definition val (v : option bytes) : bytes := default [] v.

Definition NewErrorf (msg : bytes) : Resp := NewError (Some msg).

(** ["... '%s' ..."] *)
Definition quoted (pre : string) (opstr : bytes) (post : string) : Resp :=
  NewErrorf (bstr pre ++ opstr ++ bstr post).

Definition wrong_args (opstr : bytes) : Resp :=
  quoted "ERR wrong number of arguments for '" opstr "' command".

(** [multi[i].Value] *)
Definition arg (multi : list Resp) (i : nat) : outcome Resp (option bytes) :=
  match multi !! i with Some r => Ok (Value r) | None => Panic end.

Definition upper_byte (c : byte) : byte :=
  if (97 <=? byte_val c) && (byte_val c <=? 122)
  then default c (Byte.of_N (Z.to_N (byte_val c - 32))) else c.

Definition streamTokenEqual (value token : bytes) : bool :=
  if decide (length value ≠ length token) then false
  else forallb (λ p, bool_decide (upper_byte p.1 = p.2)) (zip value token).

Definition streamSubcommandSupported (value : bytes) (supported : list bytes) : bool :=
  existsb (streamTokenEqual value) supported.

Definition resolveStreamSingleKeyRoute (multi : list Resp) (opstr : bytes) : outcome Resp streamRoute :=
  if decide (length multi < 2)%nat then Err (wrong_args opstr)
  else key ← arg multi 1; Ok (mkRoute key [key]).

(** the loop over the options; the result is the index of STREAMS *)
Fixpoint find_streams (rest : list Resp) (i : nat) (opstr : bytes) : outcome Resp (option nat) :=
  match rest with
  | [] => Ok None
  | r :: rest =>
      if streamTokenEqual (val (Value r)) (bstr "STREAMS") then Ok (Some i)
      else if streamTokenEqual (val (Value r)) (bstr "BLOCK") then
        Err (quoted "ERR unsupported blocking Stream command '" opstr "'")
      else find_streams rest (S i) opstr
  end.

(** [for i := 0; i < nkeys; i++], collecting the keys *)
Fixpoint collect_keys (multi : list Resp) (i n : nat) (first : bytes * bool) (keys : list (option bytes))
    : outcome Resp (list (option bytes)) :=
  match n with
  | O => Ok keys
  | S n =>
      key ← arg multi i;
      let '(hk, tag) := hashTagOrKeyWithTag (val key) in
      if decide (hk ≠ first.1 ∨ tag ≠ first.2)
      then Err (NewErrorf (bstr "CROSSSLOT Stream keys in request don't share the same hash tag"))
      else collect_keys multi (S i) n first (keys ++ [key])
  end.

Definition resolveStreamReadRoute (multi : list Resp) (opstr : bytes) (startFrom : nat)
    : outcome Resp streamRoute :=
  found ← find_streams (drop startFrom multi) startFrom opstr;
  match found with
  | None => Err (quoted "ERR missing STREAMS for '" opstr "' command")
  | Some streams =>
      let nblks := (length multi - streams - 1)%nat in
      if decide ((nblks < 2)%nat ∨ (nblks mod 2 ≠ 0)%nat) then
        Err (quoted "ERR Stream keys and IDs must be paired for '" opstr "' command")
      else
        let nkeys := (nblks / 2)%nat in
        let keyStart := (streams + 1)%nat in
        firstKey ← arg multi keyStart;
        keys ← collect_keys multi keyStart nkeys (hashTagOrKeyWithTag (val firstKey)) [];
        Ok (mkRoute firstKey keys)
  end.

Definition resolveStreamContainerRoute (multi : list Resp) (opstr : bytes) (supported : list bytes)
    : outcome Resp streamRoute :=
  if decide (length multi < 2)%nat then Err (wrong_args opstr)
  else
    sub ← arg multi 1;
    if negb (streamSubcommandSupported (val sub) supported) then
      Err (quoted "ERR unsupported Stream subcommand for '" opstr "'")
    else if decide (length multi < 3)%nat then Err (wrong_args opstr)
    else key ← arg multi 2; Ok (mkRoute key [key]).

Definition resolveStreamRoute (multi : list Resp) (opstr : bytes) : outcome Resp streamRoute :=
  match assoc opstr streamCommandSpecs with
  | None => Err (quoted "ERR unsupported Stream command '" opstr "'")
  | Some spec =>
      match sc_kind spec with
      | streamRouteXGroup => resolveStreamContainerRoute multi opstr streamXGroupSubcommands
      | streamRouteXInfo => resolveStreamContainerRoute multi opstr streamXInfoSubcommands
      | streamRouteXRead => resolveStreamReadRoute multi opstr 1
      | streamRouteXReadGroup =>
          if decide (length multi < 4)%nat then Err (wrong_args opstr)
          else
            tok ← arg multi 1;
            if negb (streamTokenEqual (val tok) (bstr "GROUP")) then Err (wrong_args opstr)
            else resolveStreamReadRoute multi opstr 4
      | streamRouteSingleKey => resolveStreamSingleKeyRoute multi opstr
      end
  end.

(** * Properties *)
Lemma outcome_bind_Ok {E A B} (m : outcome E A) (k : A → outcome E B) b :
  m ≫= k = Ok b → ∃ a, m = Ok a ∧ k a = Ok b.
Proof. destruct m; cbn; [|done..]. eauto. Qed.

Lemma arg_in multi i : (i < length multi)%nat → ∃ r, multi !! i = Some r ∧ arg multi i = Ok (Value r).
Proof.
  intros Hi. destruct (lookup_lt_is_Some_2 _ _ Hi) as [r Hr]. exists r. unfold arg. by rewrite Hr.
Qed.

Lemma find_streams_Some rest i opstr p :
  find_streams rest i opstr = Ok (Some p) →
  ∃ pre r post, rest = pre ++ r :: post ∧ p = (i + length pre)%nat ∧
    streamTokenEqual (val (Value r)) (bstr "STREAMS") = true ∧
    Forall (λ x, streamTokenEqual (val (Value x)) (bstr "BLOCK") = false) pre.
Proof.
  revert i. induction rest as [|r rest IH]; intros i; cbn [find_streams]; [done|].
  destruct (streamTokenEqual _ (bstr "STREAMS")) eqn:Hs.
  { intros [= <-]. exists [], r, rest. split_and!; [done|cbn; lia|done|constructor]. }
  destruct (streamTokenEqual _ (bstr "BLOCK")) eqn:Hb; [done|].
  intros (pre & r' & post & -> & -> & Hr & Hpre)%IH. exists (r :: pre), r', post.
  split_and!; [done|cbn; lia|done|by constructor].
Qed.

Lemma find_streams_no_panic rest i opstr : find_streams rest i opstr ≠ Panic.
Proof. revert i. induction rest as [|r rest IH]; intros i; cbn [find_streams]; [done|]. repeat case_match; auto. Qed.

Lemma collect_keys_spec multi i n first keys :
  (i + n ≤ length multi)%nat →
  collect_keys multi i n first keys ≠ Panic ∧
  ∀ ks, collect_keys multi i n first keys = Ok ks →
    ks = keys ++ (Value <$> take n (drop i multi)) ∧
    Forall (λ k, hashTagOrKeyWithTag (val k) = first) (Value <$> take n (drop i multi)).
Proof.
  revert i keys. induction n as [|n IH]; intros i keys Hn; cbn [collect_keys].
  { split; [done|]. intros ks [= <-]. rewrite take_0. cbn. by rewrite app_nil_r. }
  destruct (arg_in multi i) as (r & Hr & ->); [lia|]. cbn [mbind outcome_bind].
  rewrite (drop_S _ _ _ Hr). cbn [take fmap list_fmap].
  destruct (hashTagOrKeyWithTag (val (Value r))) as [hk tag] eqn:Hh. case_decide as Hd; [done|].
  apply Decidable.not_or in Hd as [H1 H2]. apply dec_stable in H1, H2.
  destruct (IH (S i) (keys ++ [Value r])) as [Hp Hk]; [lia|]. split; [done|].
  intros ks Hks. destruct (Hk ks Hks) as [-> Hall]. split.
  - by rewrite <-app_assoc.
  - constructor; [|done]. rewrite Hh. destruct first. cbn in *. by subst.
Qed.

(** the statement of the theorem below, shared with the lemmas *)
Lemma stream_read_route_keys (multi : list Resp) (opstr : bytes) (startFrom : nat) (route : streamRoute) :
  resolveStreamReadRoute multi opstr startFrom = Ok route →
  ∃ opts streams keys ids,
    drop startFrom multi = opts ++ streams :: keys ++ ids ∧
    streamTokenEqual (val (Value streams)) (bstr "STREAMS") = true ∧
    Forall (λ x, streamTokenEqual (val (Value x)) (bstr "BLOCK") = false) opts ∧
    length keys = length ids ∧ keys ≠ [] ∧
    route_keys route = Value <$> keys ∧ head (route_keys route) = Some (hashKey route) ∧
    Forall (λ k, Hash (val k) = Hash (val (hashKey route))) (route_keys route).
Proof.
  unfold resolveStreamReadRoute. intros (found & Hf & Hr)%outcome_bind_Ok.
  destruct found as [p|]; [|done]. apply find_streams_Some in Hf as (pre & r & post & Hd & -> & Hr1 & Hpre).
  assert (length multi = startFrom + length pre + 1 + length post)%nat as Hlen.
  { apply (f_equal length) in Hd. rewrite length_drop, length_app in Hd. cbn in Hd. lia. }
  cbn zeta in Hr. replace (length multi - (startFrom + length pre) - 1)%nat with (length post) in Hr by lia.
  case_decide as Hpar; [done|]. apply Decidable.not_or in Hpar as [H2 Hev].
  set (nk := (length post / 2)%nat) in *.
  assert (length post = nk + nk)%nat as Hnk.
  { apply dec_stable in Hev. pose proof (Nat.div_mod_eq (length post) 2) as Hdm. rewrite Hev in Hdm.
    fold nk in Hdm. lia. }
  clearbody nk.
  apply outcome_bind_Ok in Hr as (fk & Hfk & Hr). apply outcome_bind_Ok in Hr as (ks & Hks & [= <-]).
  destruct (collect_keys_spec multi (startFrom + length pre + 1) nk
              (hashTagOrKeyWithTag (val fk)) []) as [_ Hspec]; [lia|].
  destruct (Hspec ks Hks) as [-> Hall].
  assert (drop (startFrom + length pre + 1) multi = post) as Hdrop.
  { rewrite <-Nat.add_assoc, <-drop_drop, Hd, drop_app_ge by lia.
    by replace (length pre + 1 - length pre)%nat with 1%nat by lia. }
  rewrite Hdrop in Hall |- *.
  exists pre, r, (take nk post), (drop nk post). rewrite take_drop, length_take, length_drop.
  split_and!; [done..|lia| |done| |].
  - intros H0%(f_equal length). rewrite length_take in H0. cbn in H0. lia.
  - cbn. destruct post as [|x post]; [cbn in *; lia|]. destruct nk as [|nk']; [lia|]. cbn.
    f_equal. unfold arg in Hfk. rewrite <-(Nat.add_0_r (_ + 1)), <-lookup_drop, Hdrop in Hfk.
    by injection Hfk.
  - cbn. eapply Forall_impl; [exact Hall|]. intros k Hk. unfold Hash, hashTagOrKey. by rewrite Hk.
Qed.

(** what a request for a route may end in *)
Definition route_ok (r : outcome Resp streamRoute) : Prop :=
  match r with
  | Ok route => route_keys route ≠ [] ∧
                Forall (λ k, Hash (val k) = Hash (val (hashKey route))) (route_keys route)
  | Err resp => IsError resp = true
  | Panic => False
  end.

Lemma route_ok_one (multi : list Resp) i :
  (i < length multi)%nat → route_ok (key ← arg multi i; Ok (mkRoute key [key])).
Proof. intros Hi. destruct (arg_in multi i Hi) as (r & _ & ->). cbn. split; [done|by repeat constructor]. Qed.

Lemma find_streams_error rest i opstr e : find_streams rest i opstr = Err e → IsError e = true.
Proof.
  revert i. induction rest as [|r rest IH]; intros i; cbn [find_streams]; [done|].
  repeat case_match; [done|by intros [= <-]|apply IH].
Qed.

Lemma collect_keys_error multi i n first keys e :
  collect_keys multi i n first keys = Err e → IsError e = true.
Proof.
  revert i keys. induction n as [|n IH]; intros i keys; cbn [collect_keys]; [done|].
  unfold arg. destruct (multi !! i) as [r|]; cbn; [|done].
  destruct (hashTagOrKeyWithTag _) as [hk tag]. case_decide; [by intros [= <-]|apply IH].
Qed.

Lemma read_route_ok (multi : list Resp) (opstr : bytes) (startFrom : nat) :
  route_ok (resolveStreamReadRoute multi opstr startFrom).
Proof.
  destruct (resolveStreamReadRoute multi opstr startFrom) as [route|e|] eqn:Hr; cbn.
  - apply stream_read_route_keys in Hr as (opts & streams & keys & ids & _ & _ & _ & _ & Hne & Hk & _ & Hall).
    split; [|done]. rewrite Hk. by destruct keys.
  - unfold resolveStreamReadRoute in Hr. destruct (find_streams _ _ _) as [[p|]|e'|] eqn:Hf; cbn in Hr.
    + case_decide; [by injection Hr as <-|]. unfold arg in Hr.
      destruct (multi !! _) as [r|]; cbn in Hr; [|done].
      destruct (collect_keys _ _ _ _ _) eqn:Hc; cbn in Hr; [done|injection Hr as <-|done].
      by eapply collect_keys_error.
    + by injection Hr as <-.
    + injection Hr as <-. by eapply find_streams_error.
    + done.
  - unfold resolveStreamReadRoute in Hr. destruct (find_streams _ _ _) as [[p|]|e'|] eqn:Hf; cbn in Hr;
      [|done..|by eapply find_streams_no_panic].
    apply find_streams_Some in Hf as (pre & r & post & Hd & -> & _).
    apply (f_equal length) in Hd. rewrite length_drop, length_app in Hd. cbn in Hd.
    case_decide as Hpar; [done|]. apply Decidable.not_or in Hpar as [H2 _].
    pose proof (Nat.Div0.div_le_upper_bound (length multi - (startFrom + length pre) - 1) 2
      (length multi - (startFrom + length pre) - 1) ltac:(lia)) as Hdiv.
    destruct (arg_in multi (startFrom + length pre + 1)) as (x & _ & Hx); [lia|]. rewrite Hx in Hr. cbn in Hr.
    destruct (collect_keys_spec multi (startFrom + length pre + 1)
      ((length multi - (startFrom + length pre) - 1) / 2) (hashTagOrKeyWithTag (val (Value x))) [])
      as [Hp _]; [lia|]. by destruct (collect_keys _ _ _ _ _).
Qed.

Lemma container_route_ok multi opstr supported :
  route_ok (resolveStreamContainerRoute multi opstr supported).
Proof.
  unfold resolveStreamContainerRoute. case_decide; [done|].
  destruct (arg_in multi 1) as (r & _ & ->); [lia|]. cbn [mbind outcome_bind].
  case_match; [done|]. case_decide; [done|]. apply route_ok_one. lia.
Qed.

Lemma resolveStreamRoute_ok (multi : list Resp) (opstr : bytes) : route_ok (resolveStreamRoute multi opstr).
Proof.
  unfold resolveStreamRoute.
  destruct (assoc opstr streamCommandSpecs) as [spec|]; [|done].
  destruct (sc_kind spec).
  - unfold resolveStreamSingleKeyRoute. case_decide; [done|]. apply route_ok_one. lia.
  - apply container_route_ok.
  - apply container_route_ok.
  - apply read_route_ok.
  - case_decide; [done|]. destruct (arg_in multi 1) as (r & _ & ->); [lia|]. cbn [mbind outcome_bind].
    case_match; [done|]. apply read_route_ok.
Qed.

(** C12: whatever the arguments, resolving a Stream command's route ends in a route or in
    an error reply, never in an index out of range; and the keys of the route are in the
    slot the request is sent to. *)
Theorem stream_route_safe (multi : list Resp) (opstr : bytes) :
  match resolveStreamRoute multi opstr with
  | Ok route => route_keys route ≠ [] ∧
                Forall (λ k, Hash (val k) = Hash (val (hashKey route))) (route_keys route)
  | Err resp => IsError resp = true
  | Panic => False
  end.
Proof. exact (resolveStreamRoute_ok multi opstr). Qed.

(** A reading Stream command is routed only if the words after STREAMS are as many
    ids as keys; the keys of the route are those words' first half, no option before
    STREAMS is BLOCK, and all keys lie in the slot of the key the command is routed by. *)
Theorem stream_read_route (multi : list Resp) (opstr : bytes) (startFrom : nat) (route : streamRoute) :
  resolveStreamReadRoute multi opstr startFrom = Ok route →
  ∃ opts streams keys ids,
    drop startFrom multi = opts ++ streams :: keys ++ ids ∧
    streamTokenEqual (val (Value streams)) (bstr "STREAMS") = true ∧
    Forall (λ x, streamTokenEqual (val (Value x)) (bstr "BLOCK") = false) opts ∧
    length keys = length ids ∧ keys ≠ [] ∧
    route_keys route = Value <$> keys ∧ head (route_keys route) = Some (hashKey route) ∧
    Forall (λ k, Hash (val k) = Hash (val (hashKey route))) (route_keys route).
Proof. apply stream_read_route_keys. Qed.

Definition demo_xread : list Resp :=
  (λ s, NewBulkBytes (Some (bstr s))) <$>
    ["xread"; "COUNT"; "2"; "Streams"; "{u}a"; "b{u}"; "0"; "0-1"]%string.
Definition demo_route : streamRoute := mkRoute (Some (bstr "{u}a")) [Some (bstr "{u}a"); Some (bstr "b{u}")].

Lemma stream_read_route_witness :
  ∃ opts streams keys ids,
    drop 1 demo_xread = opts ++ streams :: keys ++ ids ∧
    streamTokenEqual (val (Value streams)) (bstr "STREAMS") = true ∧
    Forall (λ x, streamTokenEqual (val (Value x)) (bstr "BLOCK") = false) opts ∧
    length keys = length ids ∧ keys ≠ [] ∧
    route_keys demo_route = Value <$> keys ∧ head (route_keys demo_route) = Some (hashKey demo_route) ∧
    Forall (λ k, Hash (val k) = Hash (val (hashKey demo_route))) (route_keys demo_route).
Proof. apply (stream_read_route demo_xread (bstr "XREAD") 1 demo_route). vm_compute. reflexivity. Defined.
