(* ===== verification/Router.v ===== *)
(** The routing table of a proxy: pkg/proxy/router.go, slots.go and the reference-counted
    connection pools of backend.go.

    A [sharedBackendConn] is an object shared by every slot that uses its address: the
    objects live in a store and the slots and pools hold their numbers, so that closing
    one is seen by all.  The TCP connections of an object are opened and closed together;
    [co_open] says which.  Entering and leaving the slot's write lock is its [hold] flag. *)

From S2P Require Import Prelude Models.
(** * Shared connections *)
Record sharedBackendConn := mkConn {
  co_addr : string;
  co_primary : bool;  (** [owner]: the primary or the replica pool *)
  co_refcnt : Z;
  co_open : bool;
}.

(** [map[string]*sharedBackendConn] and the flag [closed] *)
Record sharedBackendConnPool := mkPool { pl_closed : bool; pl_pool : gmap string nat }.

(** [backend, migrate struct { id int; bc *sharedBackendConn }]; a nil pointer is [None] *)
Record RSlot := mkRSlot {
  rs_id : Z;
  rs_hold : bool;
  rs_switched : bool;
  rs_backend_id : Z;
  rs_backend_bc : option nat;
  rs_migrate_id : Z;
  rs_migrate_bc : option nat;
  rs_replicaGroups : list (list (option nat));
  rs_method : Z;
}.

(** the routing table and the two shared pools of the proxy's own connections.  [userPools]
    and [acl] are fields of Forward's [Fwd], around this record: no operation of this file
    reads or changes them. *)
Record Router := mkRouter {
  ro_primary : sharedBackendConnPool;
  ro_replica : sharedBackendConnPool;
  ro_store : list sharedBackendConn;
  ro_slots : list RSlot;
  ro_slotVersions : list Z;
  ro_primaryOnly : bool;  (** [config.BackendPrimaryOnly] *)
  ro_online : bool;
  ro_closed : bool;
}.

Inductive routererr := ErrClosedRouter | ErrInvalidSlotId | ErrInvalidMethod.

Abbreviation RM := (M Router routererr).

(** ** Field assignments *)
Definition set_pool (primary : bool) (p : sharedBackendConnPool) (r : Router) : Router :=
  if primary
  then mkRouter p (ro_replica r) (ro_store r) (ro_slots r) (ro_slotVersions r) (ro_primaryOnly r) (ro_online r) (ro_closed r)
  else mkRouter (ro_primary r) p (ro_store r) (ro_slots r) (ro_slotVersions r) (ro_primaryOnly r) (ro_online r) (ro_closed r).
Definition get_pool (primary : bool) (r : Router) : sharedBackendConnPool :=
  if primary then ro_primary r else ro_replica r.
Definition set_store (st : list sharedBackendConn) (r : Router) : Router :=
  mkRouter (ro_primary r) (ro_replica r) st (ro_slots r) (ro_slotVersions r) (ro_primaryOnly r) (ro_online r) (ro_closed r).
Definition set_slots (ss : list RSlot) (r : Router) : Router :=
  mkRouter (ro_primary r) (ro_replica r) (ro_store r) ss (ro_slotVersions r) (ro_primaryOnly r) (ro_online r) (ro_closed r).
Definition set_versions (vs : list Z) (r : Router) : Router :=
  mkRouter (ro_primary r) (ro_replica r) (ro_store r) (ro_slots r) vs (ro_primaryOnly r) (ro_online r) (ro_closed r).
Definition set_online (b : bool) (r : Router) : Router :=
  mkRouter (ro_primary r) (ro_replica r) (ro_store r) (ro_slots r) (ro_slotVersions r) (ro_primaryOnly r) b (ro_closed r).
Definition set_closed (b : bool) (r : Router) : Router :=
  mkRouter (ro_primary r) (ro_replica r) (ro_store r) (ro_slots r) (ro_slotVersions r) (ro_primaryOnly r) (ro_online r) b.

(** ** Pool operations, backend.go *)

(** [newSharedBackendConn(addr, pool)] *)
Definition newSharedBackendConn (primary : bool) (addr : string) : RM nat := λ r,
  (Ok (length (ro_store r)), set_store (ro_store r ++ [mkConn addr primary 1 true]) r).

Definition conn_with_refcnt (c : sharedBackendConn) (n : Z) : sharedBackendConn :=
  mkConn (co_addr c) (co_primary c) n (co_open c).
Definition conn_closed (c : sharedBackendConn) : sharedBackendConn :=
  mkConn (co_addr c) (co_primary c) (co_refcnt c) false.

(** [bc.Retain()] on a connection of the pool *)
Definition conn_Retain (p : nat) : RM nat := λ r,
  match ro_store r !! p with
  | None => (Panic, r)
  | Some c =>
      if decide (co_refcnt c <= 0) then (Panic, r)
      else (Ok p, set_store (<[p := conn_with_refcnt c (co_refcnt c + 1)]> (ro_store r)) r)
  end.

(** [pool.Retain(addr)] *)
Definition Retain (primary : bool) (addr : string) : RM (option nat) := λ r,
  let pool := get_pool primary r in
  if pl_closed pool then (Ok None, r)
  else match pl_pool pool !! addr with
  | Some p => (q ← conn_Retain p; mret (Some q)) r
  | None =>
      (p ← newSharedBackendConn primary addr;
       modify (λ r, let pool := get_pool primary r in
                    set_pool primary (mkPool (pl_closed pool) (<[addr := p]> (pl_pool pool))) r) ;;
       mret (Some p)) r
  end.

(** [bc.Release()] *)
Definition Release (bc : option nat) : RM unit := λ r,
  match bc with
  | None => (Ok tt, r)
  | Some p =>
      match ro_store r !! p with
      | None => (Panic, r)
      | Some c =>
          if decide (co_refcnt c <= 0) then (Panic, r)
          else
            let c := conn_with_refcnt c (co_refcnt c - 1) in
            let r := set_store (<[p := c]> (ro_store r)) r in
            if decide (co_refcnt c ≠ 0) then (Ok tt, r)
            else
              let pool := get_pool (co_primary c) r in
              (Ok tt, set_pool (co_primary c) (mkPool (pl_closed pool) (delete (co_addr c) (pl_pool pool)))
                        (set_store (<[p := conn_closed c]> (ro_store r)) r))
      end
  end.

(** [bc.Addr()] *)
Definition Addr (st : list sharedBackendConn) (bc : option nat) : string :=
  match bc with
  | None => ""
  | Some p => match st !! p with Some c => co_addr c | None => "" end
  end.

(** ** Slots, slots.go *)
Definition snapshot (st : list sharedBackendConn) (s : RSlot) : Slot :=
  mkSlot (rs_id s) (rs_hold s) (Addr st (rs_backend_bc s)) (rs_backend_id s)
    (Addr st (rs_migrate_bc s)) (rs_migrate_id s) (rs_method s)
    (map (map (Addr st)) (rs_replicaGroups s)).

Definition with_hold (s : RSlot) (b : bool) : RSlot :=
  mkRSlot (rs_id s) b (rs_switched s) (rs_backend_id s) (rs_backend_bc s) (rs_migrate_id s)
    (rs_migrate_bc s) (rs_replicaGroups s) (rs_method s).

Definition blockAndWait (s : RSlot) : RSlot := if rs_hold s then s else with_hold s true.
Definition unblock (s : RSlot) : RSlot := if rs_hold s then with_hold s false else s.

(** ** Filling a slot, router.go *)
Definition retain_addrs (addrs : list string) : RM (list (option nat)) :=
  (fix go (l : list string) : RM (list (option nat)) :=
     match l with
     | [] => mret []
     | addr :: l => bc ← Retain false addr; rest ← go l; mret (bc :: rest)
     end) addrs.

(** [for i := range m.ReplicaGroups]: an empty group is skipped *)
Fixpoint retain_groups (groups : list (list string)) : RM (list (list (option nat))) :=
  match groups with
  | [] => mret []
  | g :: groups =>
      group ← retain_addrs g;
      rest ← retain_groups groups;
      mret (match group with [] => rest | _ => group :: rest end)
  end.

(** [if addr := ...; len(addr) != 0 { bc = s.pool.primary.Retain(addr); id = gid }] *)
Definition retain_primary (addr : string) (gid : Z) : RM (option nat * Z) :=
  if decide (addr = ""%string) then mret (None, 0)
  else bc ← Retain true addr; mret (bc, gid).

Definition hotKeyCacheInvalidateSlot (id : nat) (r : Router) : Router :=
  set_versions (alter (λ v, v + 1) id (ro_slotVersions r)) r.

Definition fillSlot (m : Slot) (switched : bool) (method : option Z) : RM unit := λ r,
  let i := Z.to_nat (slot_Id m) in
  match ro_slots r !! i with
  | None => (Panic, r)
  | Some slot0 =>
      let slot0 := blockAndWait slot0 in
      (modify (λ r, hotKeyCacheInvalidateSlot i (set_slots (<[i := slot0]> (ro_slots r)) r)) ;;
       Release (rs_backend_bc slot0) ;;
       Release (rs_migrate_bc slot0) ;;
       for_each (concat (rs_replicaGroups slot0)) Release ;;
       '(bbc, bid) ← retain_primary (slot_BackendAddr m) (slot_BackendAddrGroupId m);
       '(mbc, mid) ← retain_primary (slot_MigrateFrom m) (slot_MigrateFromGroupId m);
       only ← gets ro_primaryOnly;
       groups ← (if only : bool then mret [] else retain_groups (slot_ReplicaGroups m));
       let slot := mkRSlot (rs_id slot0) (rs_hold slot0) switched bid bbc mid mbc groups
                     (default (rs_method slot0) method) in
       let slot := if slot_Locked m then slot else unblock slot in
       modify (λ r, set_slots (<[i := slot]> (ro_slots r)) r)) r
  end.

Definition FillSlot (m : Slot) : RM unit :=
  closed ← gets ro_closed;
  if closed : bool then fail ErrClosedRouter
  else if decide (slot_Id m < 0 ∨ MaxSlotNum <= slot_Id m) then fail ErrInvalidSlotId
  else if decide (slot_ForwardMethod m = ForwardSync) then fillSlot m false (Some ForwardSync)
  else if decide (slot_ForwardMethod m = ForwardSemiAsync) then fillSlot m false (Some ForwardSemiAsync)
  else fail ErrInvalidMethod.

Definition GetSlot (id : Z) (r : Router) : option Slot :=
  if decide (id < 0 ∨ MaxSlotNum <= id) then None
  else snapshot (ro_store r) <$> ro_slots r !! Z.to_nat id.

Definition GetSlots (r : Router) : list Slot := snapshot (ro_store r) <$> ro_slots r.

Definition HasSwitched (r : Router) : bool := existsb rs_switched (ro_slots r).

Definition slot_ids : list Z := seqZ 0 MaxSlotNum.

(** ** Life cycle *)
Definition NewRouter (primaryOnly : bool) : Router :=
  mkRouter (mkPool false ∅) (mkPool false ∅) []
    ((λ i, mkRSlot i false false 0 None 0 None [] ForwardSync) <$> slot_ids)
    ((λ _, 0) <$> slot_ids) primaryOnly false false.

Definition Router_Start (r : Router) : Router := if ro_closed r then r else set_online true r.

(** [&models.Slot{Id: i}] *)
Definition empty_slot (i : Z) : Slot := mkSlot i false "" 0 "" 0 0 [].

Definition Router_Close : RM unit :=
  closed ← gets ro_closed;
  if closed : bool then mret tt
  else
    modify (set_closed true) ;;
    for_each slot_ids (λ i, fillSlot (empty_slot i) false None).

(** ** Following a failover *)

(** [hasSameRunId]; [runid addr] is the run id the server at [addr] reports, empty on error *)
Definition hasSameRunId (runid : string → string) (addr1 addr2 : string) : bool :=
  if decide (addr1 = addr2) then true
  else bool_decide (runid addr1 ≠ ""%string ∧ runid addr1 = runid addr2).

(** the slot as [trySwitchMaster] would fill it, and whether it changed *)
Definition switched_slot (runid : string → string) (masters : gmap Z string) (m : Slot) : Slot * bool :=
  let a1 := default ""%string (masters !! slot_BackendAddrGroupId m) in
  let sw1 := bool_decide (a1 ≠ ""%string) && negb (hasSameRunId runid a1 (slot_BackendAddr m)) in
  let a2 := default ""%string (masters !! slot_MigrateFromGroupId m) in
  let sw2 := bool_decide (a2 ≠ ""%string) && negb (hasSameRunId runid a2 (slot_MigrateFrom m)) in
  (mkSlot (slot_Id m) (slot_Locked m)
     (if sw1 then a1 else slot_BackendAddr m) (slot_BackendAddrGroupId m)
     (if sw2 then a2 else slot_MigrateFrom m) (slot_MigrateFromGroupId m)
     (slot_ForwardMethod m) (slot_ReplicaGroups m), sw1 || sw2).

Definition trySwitchMaster (runid : string → string) (masters : gmap Z string) (id : Z) : RM unit := λ r,
  match ro_slots r !! Z.to_nat id with
  | None => (Panic, r)
  | Some s =>
      let '(m, switched) := switched_slot runid masters (snapshot (ro_store r) s) in
      if switched : bool then fillSlot m true None r else (Ok tt, r)
  end.

Definition SwitchMasters (runid : string → string) (masters : gmap Z string) : RM unit :=
  closed ← gets ro_closed;
  if closed : bool then fail ErrClosedRouter
  else for_each slot_ids (trySwitchMaster runid masters).
