(* ===== verification/RouterInv.v ===== *)
(** Reference counts of the proxy's backend connections: every connection object counts
    exactly the slots' references to it, is open as long as there is one, and is in its
    pool's map under its address as long as it is open.  [pool_ok r L] says so for the
    list [L] of all references held. *)

From S2P Require Import Prelude Models Router.
Abbreviation cnt L p := (count_occ Nat.eq_dec L p).

Lemma cnt_in (L : list nat) p : (0 < cnt L p)%nat ↔ p ∈ L.
Proof. rewrite list_elem_of_In. symmetry. apply (count_occ_In Nat.eq_dec L p). Qed.

(** the counts of the objects in a store *)
Definition counts_ok (st : list sharedBackendConn) (L : list nat) : Prop :=
  (∀ p c, st !! p = Some c → co_refcnt c = Z.of_nat (cnt L p) ∧ (co_open c = true ↔ p ∈ L)) ∧
  (∀ p, p ∈ L → is_Some (st !! p)).

(** [p] is the object for the address [addr] of the pool [b] *)
Definition object_for (st : list sharedBackendConn) (b : bool) (addr : string) (p : nat) : Prop :=
  ∃ c, st !! p = Some c ∧ co_primary c = b ∧ co_addr c = addr.

(** the maps of the two pools *)
Definition maps_ok (st : list sharedBackendConn) (pools : bool → gmap string nat) (L : list nat) : Prop :=
  ∀ b addr p, pools b !! addr = Some p ↔ object_for st b addr p ∧ p ∈ L.

Definition pools_of (r : Router) (b : bool) : gmap string nat := pl_pool (get_pool b r).

Definition pool_ok (r : Router) (L : list nat) : Prop :=
  counts_ok (ro_store r) L ∧ maps_ok (ro_store r) (pools_of r) L ∧
  ∀ b, pl_closed (get_pool b r) = false.

(** the identity of the objects of a store is fixed; later stores only add objects *)
Definition same_objects (st st' : list sharedBackendConn) : Prop :=
  ∀ p c, st !! p = Some c →
    ∃ c', st' !! p = Some c' ∧ co_addr c' = co_addr c ∧ co_primary c' = co_primary c.

#[global] Instance same_objects_preorder : PreOrder same_objects.
Proof.
  split; [intros st p c; eauto|]. intros s1 s2 s3 H1 H2 p c Hc.
  destruct (H1 p c Hc) as (c' & Hc' & ? & ?). destruct (H2 p c' Hc') as (c'' & ? & ? & ?).
  exists c''. split_and!; congruence.
Qed.

Lemma same_objects_insert st p c c' :
  st !! p = Some c → co_addr c' = co_addr c → co_primary c' = co_primary c →
  same_objects st (<[p := c']> st).
Proof.
  intros Hc Ha Hk q d Hd. destruct (decide (q = p)) as [->|Hne].
  - rewrite list_lookup_insert_eq by (by eapply lookup_lt_Some). simplify_eq. eauto.
  - rewrite list_lookup_insert_ne by done. eauto.
Qed.

Lemma object_for_insert st p c c' b a q :
  st !! p = Some c → co_addr c' = co_addr c → co_primary c' = co_primary c →
  object_for (<[p := c']> st) b a q ↔ object_for st b a q.
Proof.
  intros Hc Ha Hk. unfold object_for. destruct (decide (q = p)) as [->|Hne].
  - rewrite list_lookup_insert_eq, Hc by (by eapply lookup_lt_Some).
    split; intros (d & [= <-] & ? & ?); eexists; (split; [done|]); by rewrite ?Ha, ?Hk in *.
  - by rewrite list_lookup_insert_ne.
Qed.

Lemma counts_update st p c' L L' :
  counts_ok st L → (p < length st)%nat → (∀ q, q ≠ p → cnt L' q = cnt L q) →
  co_refcnt c' = Z.of_nat (cnt L' p) → (co_open c' = true ↔ p ∈ L') →
  counts_ok (<[p := c']> st) L'.
Proof.
  intros [H1 H2] Hp Hq Hn Ho.
  assert (∀ q, q ≠ p → (q ∈ L' ↔ q ∈ L)) as Hqi by (intros q Hne; by rewrite <-!cnt_in, Hq).
  split.
  - intros q d. destruct (decide (q = p)) as [->|Hne].
    + rewrite list_lookup_insert_eq by done. by intros [= <-].
    + rewrite list_lookup_insert_ne by done. intros Hd. rewrite Hq, Hqi by done. by apply H1.
  - intros q Hin. destruct (decide (q = p)) as [->|Hne].
    + by rewrite list_lookup_insert_eq.
    + rewrite list_lookup_insert_ne by done. by apply H2, Hqi.
Qed.

Lemma maps_update st p c c' pools L L' :
  maps_ok st pools L → st !! p = Some c → co_addr c' = co_addr c → co_primary c' = co_primary c →
  (∀ q, q ∈ L' ↔ q ∈ L) → maps_ok (<[p := c']> st) pools L'.
Proof. intros Hm Hc Ha Hk HL b a q. by rewrite (object_for_insert _ _ _ _ _ _ _ Hc Ha Hk), HL. Qed.

Lemma cnt_cons_ne (p q : nat) L : q ≠ p → cnt (p :: L) q = cnt L q.
Proof. intros Hne. by rewrite count_occ_cons_neq by done. Qed.

Lemma cnt_cons_eq (p : nat) L : cnt (p :: L) p = S (cnt L p).
Proof. by rewrite count_occ_cons_eq. Qed.

(** the last reference to an object goes: the object leaves its pool *)
Lemma maps_drop st p c c' pools pools' L :
  maps_ok st pools (p :: L) → p ∉ L → st !! p = Some c →
  co_addr c' = co_addr c → co_primary c' = co_primary c →
  (∀ b, pools' b = if decide (b = co_primary c) then delete (co_addr c) (pools b) else pools b) →
  maps_ok (<[p := c']> st) pools' L.
Proof.
  unfold maps_ok. intros Hm Hp Hc Ha Hk Hpools b a q. rewrite (object_for_insert _ _ _ _ _ _ _ Hc Ha Hk), Hpools.
  assert (pools (co_primary c) !! co_addr c = Some p) as Hpc.
  { apply Hm. split; [by exists c|]. by constructor. }
  assert (object_for st (co_primary c) (co_addr c) p) as Hobj by (by exists c).
  case_decide as Hb; [subst b; rewrite lookup_delete_Some|]; rewrite Hm, elem_of_cons.
  - split; [intros (Hne & Ho & [->|Hin])|intros [Ho Hin]; split_and!]; [|done| |done|by right].
    + destruct Ho as (d & Hd & _ & <-). by simplify_eq.
    + intros <-. assert (pools (co_primary c) !! co_addr c = Some q) as Hqc.
      { apply Hm. split; [done|]. by right. }
      congruence.
  - split; [intros (Ho & [->|Hin])|intros [Ho Hin]]; [|done|auto].
    destruct Ho as (d & Hd & <- & _). by simplify_eq.
Qed.

(** a new object enters its pool *)
Lemma object_for_snoc st c b a q :
  object_for (st ++ [c]) b a q ↔ object_for st b a q ∨ (q = length st ∧ co_primary c = b ∧ co_addr c = a).
Proof.
  unfold object_for. setoid_rewrite lookup_snoc_Some. split.
  - intros (d & [[_ Hd]|[-> ->]] & ? & ?); [left; eauto|by right].
  - intros [(d & Hd & ? & ?)|(-> & ? & ?)]; [exists d|exists c; auto].
    split; [left; split; [by eapply lookup_lt_Some|done]|done].
Qed.

Lemma maps_add st c pools pools' L :
  maps_ok st pools L → counts_ok st L → pools (co_primary c) !! co_addr c = None →
  (∀ b, pools' b = if decide (b = co_primary c) then <[co_addr c := length st]> (pools b) else pools b) →
  maps_ok (st ++ [c]) pools' (length st :: L).
Proof.
  unfold maps_ok. intros Hm [_ Hin] Hnone Hpools b a q. rewrite object_for_snoc, Hpools, elem_of_cons.
  assert (length st ∉ L) as Hfresh by (intros [x Hx]%Hin; apply lookup_lt_Some in Hx; lia).
  assert (∀ b a, ¬ object_for st b a (length st)) as Hno
    by (intros ? ? (x & Hx & _); apply lookup_lt_Some in Hx; lia).
  case_decide as Hb; [subst b; rewrite lookup_insert_Some|]; rewrite Hm.
  - split.
    + intros [[<- <-]|(Hne & Ho & Hq)]; [|by auto]. split; [by right|by left].
    + intros [[Ho|(-> & _ & <-)] Hq]; [|by left]. right. destruct Hq as [->|Hq]; [by destruct (Hno _ _ Ho)|].
      split; [|done]. intros <-. assert (pools (co_primary c) !! co_addr c = Some q) by (by apply Hm).
      congruence.
  - split; [by intros [? ?]; auto|]. intros [[Ho|(-> & Hc & _)] Hq]; [|by destruct Hb].
    destruct Hq as [->|Hq]; [by destruct (Hno _ _ Ho)|]. done.
Qed.

Lemma counts_add st c L :
  counts_ok st L → co_refcnt c = 1 → co_open c = true → counts_ok (st ++ [c]) (length st :: L).
Proof.
  intros [H1 H2] Hn Ho.
  assert (length st ∉ L) as Hfresh by (intros [x Hx]%H2; apply lookup_lt_Some in Hx; lia).
  split.
  - intros q d [[Hlt Hd]|[-> ->]]%lookup_snoc_Some.
    + rewrite cnt_cons_ne, elem_of_cons by lia. destruct (H1 q d Hd) as [-> Hod]. split; [done|].
      rewrite Hod. split; [auto|]. intros [->|?]; [lia|done].
    + rewrite cnt_cons_eq. assert (cnt L (length st) = 0)%nat as -> by (rewrite <-cnt_in in Hfresh; lia).
      split; [lia|]. split; [intros _; by constructor|done].
  - intros q [->|Hq]%elem_of_cons; [exists c; apply lookup_snoc_Some; by right|].
    destruct (H2 q Hq) as [d Hd]. exists d. apply lookup_snoc_Some. left.
    split; [by eapply lookup_lt_Some|done].
Qed.

(** what pool operations leave alone: the rest of the router, and the identity of every
    object already in the store *)
Definition keeps (r r' : Router) : Prop :=
  ro_slots r' = ro_slots r ∧ ro_slotVersions r' = ro_slotVersions r ∧
  ro_primaryOnly r' = ro_primaryOnly r ∧ ro_online r' = ro_online r ∧ ro_closed r' = ro_closed r ∧
  same_objects (ro_store r) (ro_store r').

#[global] Instance keeps_preorder : PreOrder keeps.
Proof.
  split; [by intros r|].
  intros r1 r2 r3 (H1 & H2 & H3 & H4 & H5 & H6) (K1 & K2 & K3 & K4 & K5 & K6).
  split_and!; try congruence. by etransitivity.
Qed.

Lemma pool_ok_perm r L L' : L ≡ₚ L' → pool_ok r L → pool_ok r L'.
Proof.
  intros HL ((H1 & H2) & H3 & H4).
  assert (∀ p, cnt L p = cnt L' p) as Hc by (by apply (Permutation_count_occ Nat.eq_dec)).
  assert (∀ p, p ∈ L ↔ p ∈ L') as Hi by (intros p; by rewrite HL).
  split_and!; [split| |done].
  - intros p c Hp. destruct (H1 p c Hp). by rewrite <-Hc, <-Hi.
  - intros p Hp%Hi. by apply H2.
  - intros b a p. by rewrite <-Hi.
Qed.

(** ** Release *)
Lemma Release_ok r p L :
  pool_ok r (p :: L) → ∃ r', Release (Some p) r = (Ok tt, r') ∧ pool_ok r' L ∧ keeps r r'.
Proof.
  intros (Hcnt & Hm & Hcl). pose proof Hcnt as [H1 H2]. destruct (H2 p) as [c Hc]; [by constructor|].
  destruct (H1 p c Hc) as [Hn Ho]. rewrite cnt_cons_eq in Hn.
  assert (p < length (ro_store r))%nat as Hlt by (by eapply lookup_lt_Some).
  assert (co_open c = true) as Hopen by (apply Ho; by constructor).
  unfold Release. rewrite Hc, decide_False by lia. cbn [co_refcnt conn_with_refcnt].
  case_decide as Hz; eexists; (split; [done|]).
  - assert (p ∈ L) as Hp by (apply cnt_in; lia). split; [split_and!|split_and!; try done].
    + apply (counts_update _ _ _ (p :: L)); [done..| | |]; [intros; by rewrite cnt_cons_ne|cbn; lia|cbn].
      rewrite Hopen. tauto.
    + eapply maps_update; [exact Hm|exact Hc|done..|]. intros q. rewrite elem_of_cons. naive_solver.
    + exact Hcl.
    + by eapply same_objects_insert.
  - assert (p ∉ L) as Hp by (rewrite <-cnt_in; lia).
    set (c' := conn_closed (conn_with_refcnt c (co_refcnt c - 1))). set (r' := set_pool _ _ _).
    assert (ro_store r' = <[p := c']> (ro_store r)) as Hst.
    { unfold r'. cbn. destruct (co_primary c); cbn; apply list_insert_insert_eq. }
    split; [split_and!|split_and!; try (unfold r'; cbn; by destruct (co_primary c))].
    + rewrite Hst. apply (counts_update _ _ _ (p :: L)); [done..| | |]; [intros; by rewrite cnt_cons_ne|cbn; lia|cbn].
      split; [done|by intros ?].
    + rewrite Hst. eapply maps_drop; [exact Hm|done|exact Hc|done..|].
      intros b. unfold r', pools_of. cbn. by destruct b, (co_primary c).
    + intros b. unfold r'. cbn. specialize (Hcl b). by destruct b, (co_primary c).
    + rewrite Hst. by eapply same_objects_insert.
Qed.

(** ** Retain *)
Lemma Retain_ok r b addr L :
  pool_ok r L →
  ∃ p r', Retain b addr r = (Ok (Some p), r') ∧ pool_ok r' (p :: L) ∧ keeps r r' ∧
          object_for (ro_store r') b addr p.
Proof.
  intros (Hcnt & Hm & Hcl). unfold Retain. rewrite Hcl.
  destruct (pl_pool (get_pool b r) !! addr) as [p|] eqn:Hp.
  - assert (object_for (ro_store r) b addr p ∧ p ∈ L) as [Ho Hin] by (by apply Hm).
    pose proof Ho as (c & Hc & Hk & Ha). destruct Hcnt as [H1 H2].
    destruct (H1 p c Hc) as [Hn Hopen]. pose proof (proj2 (cnt_in L p) Hin).
    unfold mbind, M_bind, conn_Retain. rewrite Hc, decide_False by lia. exists p. eexists. split; [done|].
    assert (p < length (ro_store r))%nat as Hlt by (by eapply lookup_lt_Some).
    split_and!; try done; cbn.
    + split_and!; [| |exact Hcl].
      * apply (counts_update _ _ _ L); [done..| | |]; [intros; by rewrite cnt_cons_ne|rewrite cnt_cons_eq; cbn; lia|cbn].
        rewrite Hopen, elem_of_cons. tauto.
      * eapply maps_update; [exact Hm|exact Hc|done..|]. intros q. rewrite elem_of_cons. naive_solver.
    + split_and!; [done..|]. by eapply same_objects_insert.
    + by apply (object_for_insert _ _ c).
  - exists (length (ro_store r)). eexists. split; [done|].
    set (c := mkConn addr b 1 true). set (r' := set_pool _ _ _).
    assert (ro_store r' = ro_store r ++ [c]) as Hst by (unfold r'; by destruct b).
    split; [split_and!|split; [split_and!; try (unfold r'; by destruct b)|]].
    + rewrite Hst. by apply counts_add.
    + rewrite Hst. eapply maps_add; [exact Hm|done|exact Hp|]. intros b'. unfold r', pools_of. by destruct b, b'.
    + intros b'. unfold r'. specialize (Hcl b'). by destruct b, b'.
    + rewrite Hst. intros q d Hd. exists d. split; [|done]. apply lookup_snoc_Some. left.
      split; [by eapply lookup_lt_Some|done].
    + rewrite Hst. apply object_for_snoc. by right.
Qed.

(** The operations of the routing table keep the reference counts exact, never release or
    retain a closed connection, and leave each slot as the dashboard described it. *)

(** the references a slot holds *)
Definition replica_refs (s : RSlot) : list nat := omap id (concat (rs_replicaGroups s)).
Definition refs_of (s : RSlot) : list nat :=
  option_list (rs_backend_bc s) ++ option_list (rs_migrate_bc s) ++ replica_refs s.
Definition all_refs (slots : list RSlot) : list nat := concat (map refs_of slots).

(** [bc] points to the object for [addr] in the pool [b] *)
Definition points (st : list sharedBackendConn) (b : bool) (addr : string) (bc : option nat) : Prop :=
  ∃ p, bc = Some p ∧ object_for st b addr p.

(** the primary reference for [addr]: none for the empty address *)
Definition primary_for (st : list sharedBackendConn) (addr : string) (bc : option nat) : Prop :=
  if decide (addr = ""%string) then bc = None else points st true addr bc.

(** [s] is the slot that [m] describes *)
Definition slot_for (st : list sharedBackendConn) (m : Slot) (s : RSlot) : Prop :=
  rs_id s = slot_Id m ∧ rs_hold s = slot_Locked m ∧ rs_method s = slot_ForwardMethod m ∧
  rs_backend_id s = slot_BackendAddrGroupId m ∧ rs_migrate_id s = slot_MigrateFromGroupId m ∧
  primary_for st (slot_BackendAddr m) (rs_backend_bc s) ∧
  primary_for st (slot_MigrateFrom m) (rs_migrate_bc s) ∧
  Forall2 (Forall2 (points st false)) (slot_ReplicaGroups m) (rs_replicaGroups s).

(** every slot is described by its snapshot, slot [i] at place [i], and the references
    the objects count are those of the slots *)
Definition router_inv (r : Router) : Prop :=
  length (ro_slots r) = Z.to_nat MaxSlotNum ∧
  (∀ i s, ro_slots r !! i = Some s → rs_id s = Z.of_nat i ∧ ∃ m, slot_for (ro_store r) m s) ∧
  pool_ok r (all_refs (ro_slots r)).

(** * Stores that only grow *)
Lemma object_for_mono st st' b a p : same_objects st st' → object_for st b a p → object_for st' b a p.
Proof. intros Hs (c & Hc & Hk & Ha). destruct (Hs p c Hc) as (c' & Hc' & ? & ?). exists c'. split_and!; congruence. Qed.

Lemma points_mono st st' b a bc : same_objects st st' → points st b a bc → points st' b a bc.
Proof. intros Hs (p & -> & Ho). exists p. split; [done|]. by eapply object_for_mono. Qed.

Lemma primary_for_mono st st' a bc : same_objects st st' → primary_for st a bc → primary_for st' a bc.
Proof. intros Hs. unfold primary_for. case_decide; [done|]. by apply points_mono. Qed.

Lemma slot_for_mono st st' m s : same_objects st st' → slot_for st m s → slot_for st' m s.
Proof.
  intros Hs (? & ? & ? & ? & ? & Hb & Hm & Hr).
  split_and!; try done; try (by eapply primary_for_mono).
  eapply Forall2_impl; [exact Hr|]. intros x y Hxy. eapply Forall2_impl; [exact Hxy|].
  intros a bc. by apply points_mono.
Qed.

(** what a slot is described by is its snapshot *)
Lemma points_Addr st b a bc : points st b a bc → Addr st bc = a.
Proof. intros (p & -> & c & Hc & _ & Ha). unfold Addr. by rewrite Hc. Qed.

Lemma primary_for_Addr st a bc : primary_for st a bc → Addr st bc = a.
Proof. unfold primary_for. case_decide as H0; [intros ->; by rewrite H0|apply points_Addr]. Qed.

Lemma slot_for_snapshot st m s : slot_for st m s → snapshot st s = m.
Proof.
  intros (H1 & H2 & H3 & H4 & H5 & Hb & Hm & Hr). unfold snapshot.
  rewrite H1, H2, H3, H4, H5, (primary_for_Addr _ _ _ Hb), (primary_for_Addr _ _ _ Hm).
  assert (map (map (Addr st)) (rs_replicaGroups s) = slot_ReplicaGroups m) as ->; [|by destruct m].
  clear -Hr. induction Hr as [|x y xs ys Hxy _ IH]; cbn; [done|]. f_equal; [|done].
  clear -Hxy. induction Hxy as [|a bc l l' Ha _ IH]; cbn; [done|]. f_equal; [|done].
  by eapply points_Addr.
Qed.

(** * Lists of operations *)
Lemma releases_ok (l : list (option nat)) r L :
  pool_ok r (omap id l ++ L) → ∃ r', for_each l Release r = (Ok tt, r') ∧ pool_ok r' L ∧ keeps r r'.
Proof.
  revert r. induction l as [|bc l IH]; intros r Hr; cbn; [by exists r|].
  destruct bc as [p|]; cbn in Hr.
  - destruct (Release_ok _ _ _ Hr) as (r1 & H1 & Hp1 & K1). destruct (IH r1 Hp1) as (r2 & H2 & Hp2 & K2).
    exists r2. unfold mbind, M_bind. rewrite H1. split_and!; [done..|]. by etransitivity.
  - destruct (IH r Hr) as (r2 & H2 & Hp2 & K2). by exists r2.
Qed.

Lemma Release_opt_ok bc r L :
  pool_ok r (option_list bc ++ L) → ∃ r', Release bc r = (Ok tt, r') ∧ pool_ok r' L ∧ keeps r r'.
Proof. destruct bc as [p|]; cbn; intros Hr; [by apply Release_ok|by exists r]. Qed.

Lemma keeps_store r r' : keeps r r' → same_objects (ro_store r) (ro_store r').
Proof. by intros (_ & _ & _ & _ & _ & ?). Qed.

Lemma retain_primary_ok addr gid r L :
  pool_ok r L →
  ∃ bc id r', retain_primary addr gid r = (Ok (bc, id), r') ∧ pool_ok r' (option_list bc ++ L) ∧
    keeps r r' ∧ primary_for (ro_store r') addr bc ∧ id = (if decide (addr = ""%string) then 0 else gid).
Proof.
  intros Hr. unfold retain_primary, primary_for. case_decide.
  - exists None, 0, r. by split_and!.
  - destruct (Retain_ok r true addr L Hr) as (p & r' & Hret & Hp & K & Ho).
    exists (Some p), gid, r'. unfold mbind, M_bind. rewrite Hret. split_and!; try done. by exists p.
Qed.

Lemma retain_addrs_ok addrs r L :
  pool_ok r L →
  ∃ g r', retain_addrs addrs r = (Ok g, r') ∧ pool_ok r' (omap id g ++ L) ∧ keeps r r' ∧
          Forall2 (points (ro_store r') false) addrs g.
Proof.
  revert r L. induction addrs as [|a addrs IH]; intros r L Hr; [exists [], r; split_and!; (done || constructor)|].
  destruct (Retain_ok r false a L Hr) as (p & r1 & H1 & Hp1 & K1 & Ho).
  destruct (IH r1 _ Hp1) as (g & r2 & H2 & Hp2 & K2 & Hg).
  exists (Some p :: g), r2. unfold retain_addrs in *. cbn. unfold mbind, M_bind. rewrite H1.
  unfold mbind, M_bind in H2. rewrite H2. split_and!; [done| |by etransitivity|].
  - eapply pool_ok_perm; [|exact Hp2]. cbn. by rewrite <-Permutation_middle.
  - constructor; [|done]. eapply points_mono; [by apply keeps_store|]. by exists p.
Qed.

Definition nonempty (groups : list (list string)) : list (list string) := filter (λ g, g ≠ []) groups.

Lemma retain_groups_ok groups r L :
  pool_ok r L →
  ∃ gs r', retain_groups groups r = (Ok gs, r') ∧ pool_ok r' (omap id (concat gs) ++ L) ∧ keeps r r' ∧
           Forall2 (Forall2 (points (ro_store r') false)) (nonempty groups) gs.
Proof.
  revert r L. induction groups as [|g groups IH]; intros r L Hr; [exists [], r; split_and!; (done || constructor)|].
  destruct (retain_addrs_ok g r L Hr) as (ps & r1 & H1 & Hp1 & K1 & Hg).
  destruct (IH r1 _ Hp1) as (gs & r2 & H2 & Hp2 & K2 & Hgs).
  eexists _, r2. cbn [retain_groups]. unfold mbind at 1, M_bind at 1. rewrite H1. unfold mbind, M_bind. rewrite H2.
  split; [done|]. split_and!; [|by etransitivity|].
  - eapply pool_ok_perm; [|exact Hp2]. destruct ps as [|x ps]; [done|].
    rewrite concat_cons, omap_app, !app_assoc. f_equiv. apply Permutation_app_comm.
  - assert (Forall2 (points (ro_store r2) false) g ps) as Hg2.
    { eapply Forall2_impl; [exact Hg|]. intros a bc. by apply points_mono, keeps_store. }
    destruct Hg2 as [|a p0 g' ps' Ha Hg']; [done|]. constructor; [by constructor|done].
Qed.

(** * One slot among the others *)
Definition other_refs (slots : list RSlot) (i : nat) : list nat :=
  all_refs (take i slots) ++ all_refs (drop (S i) slots).

Lemma all_refs_app l1 l2 : all_refs (l1 ++ l2) = all_refs l1 ++ all_refs l2.
Proof. unfold all_refs. by rewrite map_app, concat_app. Qed.

Lemma all_refs_at slots i s :
  slots !! i = Some s → all_refs slots ≡ₚ refs_of s ++ other_refs slots i.
Proof.
  intros Hs. rewrite <-(take_drop_middle slots i s Hs) at 1.
  rewrite all_refs_app. unfold other_refs. change (all_refs (s :: ?l)) with (refs_of s ++ all_refs l).
  rewrite !app_assoc. f_equiv. apply Permutation_app_comm.
Qed.

Lemma other_refs_insert slots i s : other_refs (<[i := s]> slots) i = other_refs slots i.
Proof.
  unfold other_refs. f_equal; [by rewrite take_insert_ge|]. by rewrite drop_insert_lt by lia.
Qed.

(** the description [fillSlot] leaves the slot with *)
Definition filled (m : Slot) (method : Z) (primaryOnly : bool) : Slot :=
  mkSlot (slot_Id m) (slot_Locked m)
    (slot_BackendAddr m) (if decide (slot_BackendAddr m = ""%string) then 0 else slot_BackendAddrGroupId m)
    (slot_MigrateFrom m) (if decide (slot_MigrateFrom m = ""%string) then 0 else slot_MigrateFromGroupId m)
    method (if primaryOnly then [] else nonempty (slot_ReplicaGroups m)).

(** the slots [fillSlot] does not name stay, the one it names is filled *)
Definition fill_result (r r' : Router) (m : Slot) (switched : bool) (method : option Z) : Prop :=
  ∃ s s', let i := Z.to_nat (slot_Id m) in
    ro_slots r !! i = Some s ∧ ro_slots r' = <[i := s']> (ro_slots r) ∧
    rs_switched s' = switched ∧
    slot_for (ro_store r') (filled m (default (rs_method s) method) (ro_primaryOnly r)) s' ∧
    ro_slotVersions r' = alter (λ v, v + 1) i (ro_slotVersions r) ∧
    same_objects (ro_store r) (ro_store r') ∧
    ro_primaryOnly r' = ro_primaryOnly r ∧ ro_online r' = ro_online r ∧ ro_closed r' = ro_closed r.

Lemma pool_ok_slots r r' L :
  ro_store r' = ro_store r → ro_primary r' = ro_primary r → ro_replica r' = ro_replica r →
  pool_ok r L → pool_ok r' L.
Proof.
  intros Hs Hp Hr (H1 & H2 & H3). unfold pool_ok. rewrite Hs. split_and!; [done| |].
  - intros b a p. specialize (H2 b a p). unfold pools_of, get_pool in *. by rewrite Hp, Hr.
  - intros b. specialize (H3 b). unfold get_pool in *. by rewrite Hp, Hr.
Qed.

Lemma bind_Ok {W E A B} (m : M W E A) (k : A → M W E B) w a w' :
  m w = (Ok a, w') → (m ≫= k) w = k a w'.
Proof. intros Hm. unfold mbind, M_bind. by rewrite Hm. Qed.

Lemma blockAndWait_fields s :
  refs_of (blockAndWait s) = refs_of s ∧ rs_id (blockAndWait s) = rs_id s ∧
  rs_hold (blockAndWait s) = true ∧ rs_method (blockAndWait s) = rs_method s.
Proof. unfold blockAndWait. by destruct (rs_hold s) eqn:Hh. Qed.

(** the references are given back one after the other *)
Lemma release_slot_ok s0 r L :
  pool_ok r (refs_of s0 ++ L) →
  ∃ r', pool_ok r' L ∧ keeps r r' ∧ ∀ (k : RM unit),
    (Release (rs_backend_bc s0) ;; Release (rs_migrate_bc s0) ;;
     for_each (concat (rs_replicaGroups s0)) Release ;; k) r = k r'.
Proof.
  unfold refs_of, replica_refs. rewrite <-!app_assoc. intros Hp.
  destruct (Release_opt_ok _ _ _ Hp) as (r1 & H1 & Hp1 & K1).
  destruct (Release_opt_ok _ _ _ Hp1) as (r2 & H2 & Hp2 & K2).
  destruct (releases_ok _ _ _ Hp2) as (r3 & H3 & Hp3 & K3).
  exists r3. split_and!; [done|etransitivity; [exact K1|by etransitivity]|]. intros k.
  by rewrite (bind_Ok _ _ _ _ _ H1), (bind_Ok _ _ _ _ _ H2), (bind_Ok _ _ _ _ _ H3).
Qed.

(** and the new ones are taken *)
Lemma retain_slot_ok m r L :
  pool_ok r L →
  ∃ bbc bid mbc mid groups r',
    (∀ k : option nat → Z → option nat → Z → list (list (option nat)) → RM unit,
    ('(bbc, bid) ← retain_primary (slot_BackendAddr m) (slot_BackendAddrGroupId m);
     '(mbc, mid) ← retain_primary (slot_MigrateFrom m) (slot_MigrateFromGroupId m);
     only ← gets ro_primaryOnly;
     groups ← (if only : bool then mret [] else retain_groups (slot_ReplicaGroups m));
     k bbc bid mbc mid groups) r = k bbc bid mbc mid groups r') ∧
    pool_ok r' (option_list bbc ++ option_list mbc ++ omap id (concat groups) ++ L) ∧ keeps r r' ∧
    primary_for (ro_store r') (slot_BackendAddr m) bbc ∧
    bid = (if decide (slot_BackendAddr m = ""%string) then 0 else slot_BackendAddrGroupId m) ∧
    primary_for (ro_store r') (slot_MigrateFrom m) mbc ∧
    mid = (if decide (slot_MigrateFrom m = ""%string) then 0 else slot_MigrateFromGroupId m) ∧
    Forall2 (Forall2 (points (ro_store r') false))
      (if ro_primaryOnly r then [] else nonempty (slot_ReplicaGroups m)) groups.
Proof.
  intros Hp.
  destruct (retain_primary_ok (slot_BackendAddr m) (slot_BackendAddrGroupId m) r L Hp)
    as (bbc & bid & r1 & H1 & Hp1 & K1 & Hb & Hbid).
  destruct (retain_primary_ok (slot_MigrateFrom m) (slot_MigrateFromGroupId m) r1 _ Hp1)
    as (mbc & mid & r2 & H2 & Hp2 & K2 & Hm & Hmid).
  assert (keeps r r2) as K02 by (by etransitivity).
  assert (∃ groups r3, (if ro_primaryOnly r then mret [] else retain_groups (slot_ReplicaGroups m)) r2
            = (Ok groups, r3) ∧
          pool_ok r3 (omap id (concat groups) ++ option_list mbc ++ option_list bbc ++ L) ∧ keeps r2 r3 ∧
          Forall2 (Forall2 (points (ro_store r3) false))
            (if ro_primaryOnly r then [] else nonempty (slot_ReplicaGroups m)) groups)
    as (groups & r3 & H3 & Hp3 & K3 & Hg).
  { destruct (ro_primaryOnly r); [exists [], r2; split_and!; (done || constructor)|].
    destruct (retain_groups_ok (slot_ReplicaGroups m) r2 _ Hp2) as (gs & r3 & ? & ? & ? & ?). eauto 10. }
  exists bbc, bid, mbc, mid, groups, r3.
  assert (gets ro_primaryOnly r2 = (@Ok routererr _ (ro_primaryOnly r), r2)) as Hget
    by (unfold gets; by rewrite (proj1 (proj2 (proj2 K02)))).
  split_and!; [intros k; by rewrite (bind_Ok _ _ _ _ _ H1), (bind_Ok _ _ _ _ _ H2),
    (bind_Ok _ _ _ _ _ Hget), (bind_Ok _ _ _ _ _ H3)|..]; try done; try (eapply primary_for_mono; [|done]; apply keeps_store).
  - eapply pool_ok_perm; [|exact Hp3]. solve_Permutation.
  - by etransitivity.
  - by etransitivity.
  - done.
Qed.

Lemma fillSlot_ok r m switched method :
  router_inv r → 0 <= slot_Id m < MaxSlotNum →
  ∃ r', fillSlot m switched method r = (Ok tt, r') ∧ router_inv r' ∧ fill_result r r' m switched method.
Proof.
  intros (Hlen & Hslots & Hpool) Hid. unfold fillSlot. set (i := Z.to_nat (slot_Id m)).
  destruct (lookup_lt_is_Some_2 (ro_slots r) i) as [s Hs]; [lia|]. rewrite Hs.
  destruct (Hslots i s Hs) as [Hi _]. destruct (blockAndWait_fields s) as (Hrefs & Hid0 & Hhold & Hmeth).
  set (s0 := blockAndWait s) in *. set (L := other_refs (ro_slots r) i).
  set (r0 := hotKeyCacheInvalidateSlot i (set_slots (<[i:=s0]> (ro_slots r)) r)).
  match goal with |- context [(modify ?f ≫= ?k) r] => rewrite (bind_Ok (modify f) k r tt r0 eq_refl) end.
  assert (pool_ok r0 (refs_of s0 ++ L)) as Hp0.
  { eapply (pool_ok_slots r); [done..|]. rewrite Hrefs.
    eapply pool_ok_perm; [by apply all_refs_at|done]. }
  destruct (release_slot_ok s0 r0 L Hp0) as (r1 & Hp1 & K1 & ->).
  destruct (retain_slot_ok m r1 L Hp1)
    as (bbc & bid & mbc & mid & gs & r2 & Hk & Hp2 & K2 & Hb & Hbid & Hm & Hmid & Hg).
  rewrite Hk; clear Hk.
  assert (keeps r0 r2) as (E1 & E2 & E3 & E4 & E5 & E6) by (by etransitivity).
  change (ro_slots r2 = <[i:=s0]> (ro_slots r)) in E1.
  set (s' := if slot_Locked m then _ else _). eexists. split; [done|].
  assert (refs_of s' = option_list bbc ++ option_list mbc ++ omap id (concat gs)) as Hrefs'
    by (unfold s', unblock; destruct (slot_Locked m); cbn; [done|by rewrite Hhold]).
  assert (slot_for (ro_store r2) (filled m (default (rs_method s) method) (ro_primaryOnly r)) s') as Hfor.
  { rewrite (proj1 (proj2 (proj2 K1))) in Hg. change (ro_primaryOnly r0) with (ro_primaryOnly r) in Hg.
    unfold s', unblock. destruct (slot_Locked m) eqn:Hl; cbn; rewrite ?Hhold; cbn; rewrite ?Hmeth.
    all: split_and!; cbn; try done; try lia. all: by rewrite Hid0, Hi; unfold i; lia. }
  split.
  - split_and!; cbn.
    + by rewrite E1, length_insert, length_insert.
    + intros j t. rewrite E1. cbn. rewrite list_insert_insert_eq. destruct (decide (j = i)) as [->|Hne].
      * rewrite list_lookup_insert_eq by lia. intros [= <-]. split; [|by eexists].
        destruct Hfor as (-> & _). cbn. unfold i. lia.
      * rewrite list_lookup_insert_ne by done. intros Ht. destruct (Hslots j t Ht) as (? & mt & Hmt).
        split; [done|]. exists mt. by eapply slot_for_mono.
    + eapply (pool_ok_slots r2); [done..|]. rewrite E1. cbn. rewrite list_insert_insert_eq.
      eapply pool_ok_perm; [|exact Hp2]. symmetry.
      etransitivity; [apply (all_refs_at _ i s'); apply list_lookup_insert_eq; lia|].
      rewrite other_refs_insert, Hrefs', <-!app_assoc. done.
  - exists s, s'. cbn. split_and!; try done.
    + by rewrite E1; cbn; rewrite list_insert_insert_eq.
    + unfold s', unblock. destruct (slot_Locked m); cbn; [done|by rewrite Hhold].
Qed.
