(* ===== verification/RouterTheorems.v ===== *)
(** What the routing table of a proxy promises: the reachable routers, the effect of
    [FillSlot], [SwitchMasters] and [Close], and the connections kept open. *)

From S2P Require Import Prelude Models Router RouterInv.
(** * All operations keep the invariant *)
Lemma slot_ids_bounds i : i ∈ slot_ids → 0 <= i < MaxSlotNum.
Proof. unfold slot_ids. intros Hi%elem_of_seqZ. lia. Qed.

Lemma NewRouter_inv only : router_inv (NewRouter only).
Proof.
  assert (length (ro_slots (NewRouter only)) = Z.to_nat MaxSlotNum) as Hlen.
  { cbn [ro_slots NewRouter]. rewrite length_fmap. unfold slot_ids. by rewrite length_seqZ. }
  assert (∀ i s, ro_slots (NewRouter only) !! i = Some s →
            s = mkRSlot (Z.of_nat i) false false 0 None 0 None [] ForwardSync) as Hs.
  { intros i s. cbn [ro_slots NewRouter]. rewrite list_lookup_fmap. unfold slot_ids.
    destruct (decide (Z.of_nat i < MaxSlotNum)) as [Hi|Hi].
    - rewrite lookup_seqZ_lt by done. cbn. by intros [= <-].
    - rewrite lookup_seqZ_ge by lia. done. }
  assert (all_refs (ro_slots (NewRouter only)) = []) as Hrefs.
  { unfold all_refs. apply concat_nil_Forall. apply Forall_forall. intros l Hl.
    apply list_elem_of_In, in_map_iff in Hl as (s & <- & Hin%list_elem_of_In).
    apply list_elem_of_lookup in Hin as [i Hi]. by rewrite (Hs i s Hi). }
  split_and!; [done| |].
  - intros i s Hi. rewrite (Hs i s Hi). split; [done|].
    exists (mkSlot (Z.of_nat i) false "" 0 "" 0 ForwardSync []). by split_and!.
  - rewrite Hrefs. split_and!; [split| |].
    + by intros ? ?.
    + by intros ? ?%elem_of_nil.
    + intros b addr p. split; [by destruct b|]. by intros [_ ?%elem_of_nil].
    + by intros [].
Qed.

Lemma GetSlot_for r i s :
  router_inv r → 0 <= i < MaxSlotNum → ro_slots r !! Z.to_nat i = Some s →
  ∃ m, GetSlot i r = Some m ∧ slot_for (ro_store r) m s ∧ slot_Id m = i.
Proof.
  intros (_ & Hslots & _) Hi Hs. destruct (Hslots _ _ Hs) as (Hid & m & Hm). exists m.
  unfold GetSlot. rewrite decide_False by lia. rewrite Hs. cbn.
  rewrite (slot_for_snapshot _ _ _ Hm). split_and!; [done..|]. destruct Hm as (Hm & _). lia.
Qed.

Lemma GetSlot_Some r i : router_inv r → 0 <= i < MaxSlotNum → ∃ m, GetSlot i r = Some m ∧ slot_Id m = i.
Proof.
  intros Hinv Hi. pose proof Hinv as (Hlen & _).
  destruct (lookup_lt_is_Some_2 (ro_slots r) (Z.to_nat i)) as [s Hs]; [lia|].
  destruct (GetSlot_for r i s Hinv Hi Hs) as (m & ? & _ & ?). eauto.
Qed.

(** the other slots' descriptions outlive a fill *)
Lemma fill_others r r' m switched method j :
  router_inv r → fill_result r r' m switched method → j ≠ slot_Id m → 0 <= slot_Id m →
  GetSlot j r' = GetSlot j r.
Proof.
  intros Hinv (s & s' & Hs & Hs' & _ & _ & _ & Hst & _) Hj Hid. unfold GetSlot. case_decide; [done|].
  rewrite Hs', list_lookup_insert_ne by lia. destruct (ro_slots r !! Z.to_nat j) as [t|] eqn:Ht; [|done].
  destruct Hinv as (_ & Hslots & _). destruct (Hslots _ _ Ht) as (_ & mt & Hmt). cbn. f_equal.
  rewrite (slot_for_snapshot _ _ _ Hmt). by apply slot_for_snapshot, (slot_for_mono (ro_store r)).
Qed.

Lemma fill_this r r' m switched method :
  router_inv r → router_inv r' → fill_result r r' m switched method → 0 <= slot_Id m < MaxSlotNum →
  ∃ old, GetSlot (slot_Id m) r = Some old ∧
    GetSlot (slot_Id m) r' =
      Some (filled m (default (slot_ForwardMethod old) method) (ro_primaryOnly r)).
Proof.
  intros Hinv Hinv' (s & s' & Hs & Hs' & _ & Hfor & _) Hid.
  destruct (GetSlot_for r _ s Hinv Hid Hs) as (old & Hold & Hofor & _). exists old. split; [done|].
  unfold GetSlot. rewrite decide_False by lia. pose proof Hinv as (Hlen & _).
  rewrite Hs', list_lookup_insert_eq by lia. cbn. f_equal.
  destruct Hofor as (_ & _ & <- & _). by apply slot_for_snapshot.
Qed.

Lemma fillSlot_step (m : Slot) switched method :
  0 <= slot_Id m < MaxSlotNum →
  ∀ r, router_inv r →
    ∃ r', fillSlot m switched method r = (Ok tt, r') ∧ router_inv r' ∧ ro_closed r' = ro_closed r ∧
      ro_primaryOnly r' = ro_primaryOnly r ∧
      GetSlot (slot_Id m) r' =
        (λ old, filled m (default (slot_ForwardMethod old) method) (ro_primaryOnly r)) <$> GetSlot (slot_Id m) r ∧
      ∀ j, j ≠ slot_Id m → GetSlot j r' = GetSlot j r.
Proof.
  intros Hid r Hinv. destruct (fillSlot_ok r m switched method Hinv Hid) as (r' & Hr & Hinv' & Hres).
  exists r'. destruct (fill_this r r' m switched method Hinv Hinv' Hres Hid) as (old & Hold & Hnew).
  rewrite Hold, Hnew. split_and!; [done..| | |done|].
  - by destruct Hres as (? & ? & _ & _ & _ & _ & _ & _ & _ & _ & ?).
  - by destruct Hres as (? & ? & _ & _ & _ & _ & _ & _ & ? & _).
  - intros j Hj. eapply fill_others; [done..|lia].
Qed.

Lemma for_each_steps (f : bool → Slot → Slot) (step : Z → RM unit) (l : list Z) :
  (∀ i r, i ∈ l → router_inv r →
     ∃ r', step i r = (Ok tt, r') ∧ router_inv r' ∧ ro_closed r' = ro_closed r ∧
       ro_primaryOnly r' = ro_primaryOnly r ∧
       GetSlot i r' = f (ro_primaryOnly r) <$> GetSlot i r ∧ ∀ j, j ≠ i → GetSlot j r' = GetSlot j r) →
  NoDup l → ∀ r, router_inv r →
  ∃ r', for_each l step r = (Ok tt, r') ∧ router_inv r' ∧ ro_closed r' = ro_closed r ∧
    ro_primaryOnly r' = ro_primaryOnly r ∧
    ∀ j, GetSlot j r' = (if decide (j ∈ l) then f (ro_primaryOnly r) <$> GetSlot j r else GetSlot j r).
Proof.
  intros Hstep Hnd. induction Hnd as [|i l Hi Hnd IH]; intros r Hinv; cbn [for_each].
  { exists r. split_and!; [done..|]. intros j. rewrite decide_False; [done|]. apply not_elem_of_nil. }
  destruct (Hstep i r) as (r1 & H1 & Hinv1 & Hc1 & Ho1 & Hi1 & Hj1); [by constructor|done|].
  destruct (IH (λ j r Hj, Hstep j r (list_elem_of_further _ _ _ Hj)) r1 Hinv1) as (r2 & H2 & Hinv2 & Hc2 & Ho2 & Hj2).
  exists r2. rewrite (bind_Ok _ _ _ _ _ H1). split_and!; [done|done|congruence|congruence|].
  intros j. rewrite Hj2, Ho1. destruct (decide (j = i)) as [->|Hne].
  - rewrite (decide_False (P := i ∈ l)) by done. rewrite decide_True by constructor. done.
  - rewrite Hj1 by done. case_decide; case_decide; try done.
    + exfalso. by set_solver.
    + exfalso. by set_solver.
Qed.

Lemma slot_ids_NoDup : NoDup slot_ids.
Proof. apply NoDup_seqZ. Qed.

(** the description of a slot after [trySwitchMaster] *)
Definition after_switch (runid : string → string) (masters : gmap Z string) (only : bool) (m : Slot) : Slot :=
  let '(m', switched) := switched_slot runid masters m in
  if switched then filled m' (slot_ForwardMethod m) only else m.

Lemma trySwitchMaster_step runid masters i r :
  0 <= i < MaxSlotNum → router_inv r →
  ∃ r', trySwitchMaster runid masters i r = (Ok tt, r') ∧ router_inv r' ∧ ro_closed r' = ro_closed r ∧
    ro_primaryOnly r' = ro_primaryOnly r ∧
    GetSlot i r' = after_switch runid masters (ro_primaryOnly r) <$> GetSlot i r ∧
    ∀ j, j ≠ i → GetSlot j r' = GetSlot j r.
Proof.
  intros Hi Hinv. pose proof Hinv as (Hlen & _).
  destruct (lookup_lt_is_Some_2 (ro_slots r) (Z.to_nat i)) as [s Hs]; [lia|].
  destruct (GetSlot_for r i s Hinv Hi Hs) as (m & Hm & Hfor & Hid).
  unfold trySwitchMaster. rewrite Hs, (slot_for_snapshot _ _ _ Hfor).
  rewrite Hm. cbn [fmap option_fmap option_map]. unfold after_switch.
  assert (slot_Id (switched_slot runid masters m).1 = i) as Hid' by done.
  destruct (switched_slot runid masters m) as [m' [|]]; [|by exists r].
  cbn in Hid'. assert (0 <= slot_Id m' < MaxSlotNum) as Hi' by lia.
  destruct (fillSlot_step m' true None Hi' r Hinv) as (r' & H1 & H2 & H3 & H4 & H5 & H6).
  rewrite Hid' in H5, H6. exists r'. split_and!; [done..| |done]. by rewrite H5, Hm.
Qed.

Lemma SwitchMasters_ok runid masters r :
  router_inv r → ro_closed r = false →
  ∃ r', SwitchMasters runid masters r = (Ok tt, r') ∧ router_inv r' ∧
    ro_closed r' = ro_closed r ∧ ro_primaryOnly r' = ro_primaryOnly r ∧
    ∀ j, GetSlot j r' = after_switch runid masters (ro_primaryOnly r) <$> GetSlot j r.
Proof.
  intros Hinv Hc.
  destruct (for_each_steps (after_switch runid masters) (trySwitchMaster runid masters) slot_ids)
    with r as (r' & H1 & H2 & H3 & H4 & H5); [|apply slot_ids_NoDup|done|].
  { intros i r0 Hi%slot_ids_bounds Hr0. by apply trySwitchMaster_step. }
  exists r'. unfold SwitchMasters, mbind, M_bind, gets. rewrite Hc. split_and!; [done|done|congruence|done|].
  intros j. rewrite H5. case_decide as Hj; [done|].
  assert (GetSlot j r = None) as ->; [|done]. unfold GetSlot. rewrite decide_True; [done|].
  unfold slot_ids in Hj. rewrite elem_of_seqZ in Hj. lia.
Qed.

Lemma Router_Close_ok r :
  router_inv r → ro_closed r = false →
  ∃ r', Router_Close r = (Ok tt, r') ∧ router_inv r' ∧
    ∀ j m, GetSlot j r' = Some m → slot_BackendAddr m = ""%string ∧ slot_MigrateFrom m = ""%string ∧
                                   slot_ReplicaGroups m = [].
Proof.
  intros Hinv Hc.
  destruct (for_each_steps (λ only m, filled (empty_slot (slot_Id m)) (slot_ForwardMethod m) only)
              (λ i, fillSlot (empty_slot i) false None) slot_ids) with (set_closed true r)
    as (r' & H1 & H2 & H3 & H4 & H5); [|apply slot_ids_NoDup|done|].
  { intros i r0 Hi%slot_ids_bounds Hr0.
    destruct (fillSlot_step (empty_slot i) false None Hi r0 Hr0) as (r1 & E1 & E2 & E3 & E4 & E5 & E6).
    destruct (GetSlot_Some r0 i Hr0 Hi) as (m & Hm & Hid).
    exists r1. split_and!; [done..| |done]. cbn [slot_Id empty_slot] in E5. rewrite E5, Hm. cbn. by rewrite Hid. }
  exists r'. unfold Router_Close, mbind, M_bind, gets. rewrite Hc. cbn [modify]. split_and!; [done|done|].
  intros j m. rewrite H5. case_decide as Hj.
  - destruct (GetSlot j (set_closed true r)) as [m0|]; [|done]. cbn. intros [= <-]. cbn.
    by destruct (ro_primaryOnly r).
  - unfold GetSlot. rewrite decide_True; [done|]. unfold slot_ids in Hj. rewrite elem_of_seqZ in Hj. lia.
Qed.

(** * Reachable routers *)
Inductive rop :=
| RStart
| RFillSlot (m : Slot)
| RSwitchMasters (runid : string → string) (masters : gmap Z string)
| RClose.

Definition run_rop (o : rop) : RM unit :=
  match o with
  | RStart => modify Router_Start
  | RFillSlot m => FillSlot m
  | RSwitchMasters runid masters => SwitchMasters runid masters
  | RClose => Router_Close
  end.

(** the routers a proxy can have: a new one, after any operations *)
Inductive reach_router : Router → Prop :=
| reach_new only : reach_router (NewRouter only)
| reach_rop r o : reach_router r → reach_router (run_rop o r).2.

Lemma FillSlot_cases m r :
  router_inv r →
  (∃ e, FillSlot m r = (Err e, r)) ∨
  (ro_closed r = false ∧ 0 <= slot_Id m < MaxSlotNum ∧
   FillSlot m r = fillSlot m false (Some (slot_ForwardMethod m)) r).
Proof.
  intros Hinv. unfold FillSlot, mbind, M_bind, gets. destruct (ro_closed r); [left; by eexists|].
  case_decide; [left; by eexists|]. case_decide as Hm; [right; rewrite Hm; split_and!; (done || lia)|].
  case_decide as Hm'; [right; rewrite Hm'; split_and!; (done || lia)|left; by eexists].
Qed.

Lemma run_rop_ok o r : router_inv r → (run_rop o r).1 ≠ Panic ∧ router_inv (run_rop o r).2.
Proof.
  intros Hinv. destruct o as [|m|runid masters|]; cbn [run_rop].
  - split; [done|]. unfold modify, Router_Start. cbn. by destruct (ro_closed r).
  - destruct (FillSlot_cases m r Hinv) as [(e & ->)|(_ & Hid & ->)]; [done|].
    destruct (fillSlot_ok r m false (Some (slot_ForwardMethod m)) Hinv Hid) as (r' & -> & ? & _). done.
  - destruct (ro_closed r) eqn:Hc.
    + unfold SwitchMasters, mbind, M_bind, gets. by rewrite Hc.
    + destruct (SwitchMasters_ok runid masters r Hinv Hc) as (r' & -> & ? & _). done.
  - destruct (ro_closed r) eqn:Hc.
    + unfold Router_Close, mbind, M_bind, gets. by rewrite Hc.
    + destruct (Router_Close_ok r Hinv Hc) as (r' & -> & ? & _). done.
Qed.

Lemma reach_router_inv r : reach_router r → router_inv r.
Proof. induction 1 as [only|r o _ IH]; [apply NewRouter_inv|]. by apply run_rop_ok. Qed.

(** * Properties *)

(** a connection to [addr] in the pool [b] is open *)
Definition connected (b : bool) (addr : string) (r : Router) : Prop :=
  ∃ p c, ro_store r !! p = Some c ∧ co_open c = true ∧ co_primary c = b ∧ co_addr c = addr.

(** a slot described by [m] needs a connection to [addr] in the pool [b] *)
Definition needs (b : bool) (addr : string) (m : Slot) : Prop :=
  if b then addr ≠ ""%string ∧ (slot_BackendAddr m = addr ∨ slot_MigrateFrom m = addr)
  else ∃ g, g ∈ slot_ReplicaGroups m ∧ addr ∈ g.

Lemma primary_for_ref st a bc p :
  primary_for st a bc → p ∈ option_list bc → a ≠ ""%string ∧ object_for st true a p.
Proof.
  unfold primary_for. case_decide; [intros -> Hp; by apply elem_of_nil in Hp|].
  intros (q & -> & Ho) Hp. cbn in Hp. apply list_elem_of_singleton in Hp as ->. done.
Qed.

Lemma replica_ref st gs groups p :
  Forall2 (Forall2 (points st false)) gs groups → p ∈ omap id (concat groups) →
  ∃ a, object_for st false a p ∧ ∃ g, g ∈ gs ∧ a ∈ g.
Proof.
  intros Hf Hp. apply list_elem_of_omap in Hp as (bc & Hbc & [= ->]).
  apply list_elem_of_In, in_concat in Hbc as (y & Hy & Hbc).
  apply list_elem_of_In in Hy, Hbc. apply list_elem_of_lookup in Hy as [i Hi].
  destruct (Forall2_lookup_r _ _ _ _ _ Hf Hi) as (g & Hg & Hgy).
  apply list_elem_of_lookup in Hbc as [j Hj].
  destruct (Forall2_lookup_r _ _ _ _ _ Hgy Hj) as (a & Ha & q & [= <-] & Ho).
  exists a. split; [done|]. exists g. split; by eapply list_elem_of_lookup_2.
Qed.

Lemma replica_needed st gs groups g a :
  Forall2 (Forall2 (points st false)) gs groups → g ∈ gs → a ∈ g →
  ∃ p, p ∈ omap id (concat groups) ∧ object_for st false a p.
Proof.
  intros Hf Hg Ha. apply list_elem_of_lookup in Hg as [i Hi].
  destruct (Forall2_lookup_l _ _ _ _ _ Hf Hi) as (y & Hy & Hgy).
  apply list_elem_of_lookup in Ha as [j Hj].
  destruct (Forall2_lookup_l _ _ _ _ _ Hgy Hj) as (bc & Hbc & p & -> & Ho).
  exists p. split; [|done]. apply list_elem_of_omap. exists (Some p). split; [|done].
  apply list_elem_of_In, in_concat. exists y.
  split; apply list_elem_of_In; by eapply list_elem_of_lookup_2.
Qed.

(** the references of a slot and the addresses its description names *)
Lemma slot_refs_needs st m s b a :
  slot_for st m s → needs b a m ↔ ∃ p, p ∈ refs_of s ∧ object_for st b a p.
Proof.
  intros (_ & _ & _ & _ & _ & Hb & Hm & Hr). unfold refs_of, replica_refs.
  assert (∀ a' b', ∀ p, object_for st b a p → object_for st b' a' p → b' = b ∧ a' = a) as Huniq.
  { intros a' b' p (c & Hc & <- & <-) (c' & Hc' & <- & <-). by simplify_eq. }
  split.
  - destruct b; cbn.
    + assert (∀ a' bc, primary_for st a' bc → a' = a → a ≠ ""%string →
                ∃ p, p ∈ option_list bc ∧ object_for st true a p) as Hget.
      { intros a' bc Hp -> Ha. unfold primary_for in Hp. rewrite decide_False in Hp by done.
        destruct Hp as (p & -> & Ho). exists p. split; [by apply list_elem_of_singleton|done]. }
      intros [Ha [Hx|Hx]].
      * destruct (Hget _ _ Hb Hx Ha) as (p & Hp & Ho). exists p. rewrite !elem_of_app. auto.
      * destruct (Hget _ _ Hm Hx Ha) as (p & Hp & Ho). exists p. rewrite !elem_of_app. auto.
    + intros (g & Hg & Ha). destruct (replica_needed _ _ _ _ _ Hr Hg Ha) as (p & Hp & Ho).
      exists p. rewrite !elem_of_app. auto.
  - intros (p & Hp & Ho). rewrite !elem_of_app in Hp. destruct Hp as [Hp|[Hp|Hp]].
    + destruct (primary_for_ref _ _ _ _ Hb Hp) as [Ha Ho']. destruct (Huniq _ _ _ Ho Ho') as [<- <-].
      cbn. auto.
    + destruct (primary_for_ref _ _ _ _ Hm Hp) as [Ha Ho']. destruct (Huniq _ _ _ Ho Ho') as [<- <-].
      cbn. auto.
    + destruct (replica_ref _ _ _ _ Hr Hp) as (a' & Ho' & g & Hg & Ha').
      destruct (Huniq _ _ _ Ho Ho') as [<- <-]. cbn. eauto.
Qed.

Lemma connected_needs r b addr :
  router_inv r → connected b addr r ↔ ∃ id m, GetSlot id r = Some m ∧ needs b addr m.
Proof.
  intros Hr. pose proof Hr as (Hlen & Hslots & (Hcnt & Hin) & Hmaps & _). split.
  - intros (p & c & Hc & Ho & Hk & Ha). destruct (Hcnt p c Hc) as [_ Hopen].
    apply Hopen, list_elem_of_In, in_concat in Ho as (l & Hl & Hp).
    apply in_map_iff in Hl as (s & <- & Hs%list_elem_of_In). apply list_elem_of_In in Hp.
    apply list_elem_of_lookup in Hs as [i Hi]. pose proof (lookup_lt_Some _ _ _ Hi) as Hlt.
    assert (0 <= Z.of_nat i < MaxSlotNum) as Hb by (unfold MaxSlotNum in *; lia).
    destruct (GetSlot_for r (Z.of_nat i) s Hr Hb) as (m & Hm & Hfor & _); [by rewrite Nat2Z.id|].
    exists (Z.of_nat i), m. split; [done|]. apply (slot_refs_needs _ _ _ _ _ Hfor).
    exists p. split; [done|]. by exists c.
  - intros (id & m & Hm & Hn). unfold GetSlot in Hm. case_decide as Hid; [done|].
    apply fmap_Some in Hm as (s & Hs & ->). destruct (Hslots _ _ Hs) as (_ & m & Hfor).
    rewrite (slot_for_snapshot _ _ _ Hfor) in Hn.
    apply (slot_refs_needs _ _ _ _ _ Hfor) in Hn as (p & Hp & c & Hc & Hk & Ha).
    exists p, c. split_and!; [done| |done..]. apply (Hcnt p c Hc).
    apply list_elem_of_In, in_concat. exists (refs_of s).
    split; [apply in_map, list_elem_of_In; by eapply list_elem_of_lookup_2|by apply list_elem_of_In].
Qed.

(** C11: in every reachable routing table the connections open in the two shared pools,
    primary and replica, are exactly those some slot needs, one for each address and pool:
    none of them is leaked, none is closed while in use, and none is duplicated.  No
    operation of the table panics.  The pools of the ACL users are not shared pools: their
    connections are opened on demand ([userBackendConn]) and closed by [SetACL] alone. *)
Theorem router_connections (r : Router) :
  reach_router r →
  (∀ o, (run_rop o r).1 ≠ Panic) ∧
  (∀ b addr, connected b addr r ↔ ∃ id m, GetSlot id r = Some m ∧ needs b addr m) ∧
  (∀ p q c d, ro_store r !! p = Some c → ro_store r !! q = Some d → co_open c = true → co_open d = true →
     co_primary c = co_primary d → co_addr c = co_addr d → p = q).
Proof.
  intros Hr%reach_router_inv. split; [intros o; by apply run_rop_ok|].
  split; [intros b addr; by apply connected_needs|].
  destruct Hr as (_ & _ & (Hcnt & _) & Hmaps & _).
  intros p q c d Hc Hd Hoc Hod Hk Ha. destruct (Hcnt p c Hc) as [_ Hp]. destruct (Hcnt q d Hd) as [_ Hq].
  assert (pools_of r (co_primary c) !! co_addr c = Some p) as E1
    by (apply Hmaps; split; [by exists c|by apply Hp]).
  assert (pools_of r (co_primary c) !! co_addr c = Some q) as E2
    by (apply Hmaps; split; [by exists d|by apply Hq]).
  congruence.
Qed.

Definition demo_rslot : Slot := mkSlot 3 false "a:1" 1 "b:1" 2 ForwardSemiAsync [["a:1"; "a:2"]; []]%string.
Definition demo_router : Router := (run_rop (RFillSlot demo_rslot) (NewRouter false)).2.

Lemma router_connections_witness :
  (∀ o, (run_rop o demo_router).1 ≠ Panic) ∧
  (∀ b addr, connected b addr demo_router ↔ ∃ id m, GetSlot id demo_router = Some m ∧ needs b addr m) ∧
  (∀ p q c d, ro_store demo_router !! p = Some c → ro_store demo_router !! q = Some d →
     co_open c = true → co_open d = true → co_primary c = co_primary d → co_addr c = co_addr d → p = q).
Proof. apply (router_connections demo_router). apply reach_rop, reach_new. Defined.

(** Filling a slot of a reachable, open routing table succeeds and makes the slot
    what the dashboard described (an empty address leaves no group number, empty replica
    groups are dropped, and a primary-only proxy keeps no replicas); every other slot
    stays as it was. *)
Theorem FillSlot_correct (r : Router) (m : Slot) :
  reach_router r → ro_closed r = false → 0 <= slot_Id m < MaxSlotNum →
  slot_ForwardMethod m = ForwardSync ∨ slot_ForwardMethod m = ForwardSemiAsync →
  ∃ r', FillSlot m r = (Ok tt, r') ∧
    GetSlot (slot_Id m) r' = Some (filled m (slot_ForwardMethod m) (ro_primaryOnly r)) ∧
    ∀ j, j ≠ slot_Id m → GetSlot j r' = GetSlot j r.
Proof.
  intros Hr%reach_router_inv Hc Hid Hmeth.
  assert (FillSlot m r = fillSlot m false (Some (slot_ForwardMethod m)) r) as ->.
  { unfold FillSlot, mbind, M_bind, gets. rewrite Hc, decide_False by lia.
    destruct Hmeth as [Hm|Hm]; rewrite Hm; [done|]. by rewrite decide_False. }
  destruct (fillSlot_step m false (Some (slot_ForwardMethod m)) Hid r Hr) as (r' & H1 & _ & _ & _ & H5 & H6).
  destruct (GetSlot_Some r _ Hr Hid) as (old & Hold & _). exists r'. rewrite Hold in H5. done.
Qed.

Lemma FillSlot_correct_witness :
  ∃ r', FillSlot demo_rslot (NewRouter false) = (Ok tt, r') ∧
    GetSlot 3 r' = Some (filled demo_rslot ForwardSemiAsync false) ∧
    ∀ j, j ≠ 3 → GetSlot j r' = GetSlot j (NewRouter false).
Proof.
  apply (FillSlot_correct (NewRouter false) demo_rslot (reach_new false)).
  - reflexivity.
  - unfold MaxSlotNum. cbn. lia.
  - by right.
Defined.

Lemma hasSameRunId_refl runid a : hasSameRunId runid a a = true.
Proof. unfold hasSameRunId. by rewrite decide_True. Qed.

(** After the sentinels announce new masters, every slot whose backend (or migration
    source) belongs to an announced group points to the announced server, or to an
    address at which that same server answers; a slot of no announced group keeps its
    addresses, and no slot's lock or forwarding method changes.  After [Close] no backend
    connection is open. *)
Theorem SwitchMasters_correct (r : Router) (runid : string → string) (masters : gmap Z string) :
  reach_router r → ro_closed r = false →
  (∃ r', SwitchMasters runid masters r = (Ok tt, r') ∧
     ∀ j m, GetSlot j r = Some m → ∃ m', GetSlot j r' = Some m' ∧
       (∀ a, masters !! slot_BackendAddrGroupId m = Some a → a ≠ ""%string →
          hasSameRunId runid a (slot_BackendAddr m') = true) ∧
       (∀ a, masters !! slot_MigrateFromGroupId m = Some a → a ≠ ""%string →
          hasSameRunId runid a (slot_MigrateFrom m') = true) ∧
       (masters !! slot_BackendAddrGroupId m = None → slot_BackendAddr m' = slot_BackendAddr m) ∧
       (masters !! slot_MigrateFromGroupId m = None → slot_MigrateFrom m' = slot_MigrateFrom m) ∧
       slot_Locked m' = slot_Locked m ∧ slot_ForwardMethod m' = slot_ForwardMethod m) ∧
  (∃ r', Router_Close r = (Ok tt, r') ∧ ∀ b addr, ¬ connected b addr r').
Proof.
  intros Hr Hc. pose proof (reach_router_inv r Hr) as Hinv. split.
  - destruct (SwitchMasters_ok runid masters r Hinv Hc) as (r' & H1 & _ & _ & _ & H5).
    exists r'. split; [done|]. intros j m Hm. rewrite H5, Hm. eexists. split; [done|].
    assert (∀ old gid a, masters !! gid = Some a → a ≠ ""%string →
      hasSameRunId runid a
        (if bool_decide (default ""%string (masters !! gid) ≠ ""%string) &&
            negb (hasSameRunId runid (default ""%string (masters !! gid)) old)
         then default ""%string (masters !! gid) else old) = true) as Hcase.
    { intros old gid a Ha Hne. rewrite Ha. cbn [from_option id].
      rewrite bool_decide_eq_true_2 by done. cbn [andb].
      destruct (hasSameRunId runid a old) eqn:Hs; cbn; [done|apply hasSameRunId_refl]. }
    assert (∀ gid, masters !! gid = None → bool_decide (default ""%string (masters !! gid) ≠ ""%string) = false) as Hnone.
    { intros gid ->. done. }
    unfold after_switch, switched_slot. cbn zeta.
    destruct (_ || _) eqn:Hsw; cbn [filled slot_BackendAddr slot_MigrateFrom slot_Locked slot_ForwardMethod].
    + split_and!; try done; try (intros a; by apply Hcase); intros Hn%Hnone; by rewrite Hn.
    + apply orb_false_elim in Hsw as [Hs1 Hs2]. split_and!; try done; intros a Ha Hne.
      * pose proof (Hcase (slot_BackendAddr m) _ a Ha Hne) as Hx. by rewrite Hs1 in Hx.
      * pose proof (Hcase (slot_MigrateFrom m) _ a Ha Hne) as Hx. by rewrite Hs2 in Hx.
  - destruct (Router_Close_ok r Hinv Hc) as (r' & H1 & H2 & H3). exists r'. split; [done|].
    intros b addr (id & m & Hm & Hn)%connected_needs; [|done].
    destruct (H3 id m Hm) as (E1 & E2 & E3). unfold needs in Hn. destruct b.
    + destruct Hn as [Hne [Hx|Hx]]; congruence.
    + destruct Hn as (g & Hg & _). rewrite E3 in Hg. by apply elem_of_nil in Hg.
Qed.

Lemma SwitchMasters_correct_witness :
  ∃ r', SwitchMasters (λ a, a) {[ 1 := "a:2"%string ]} demo_router = (Ok tt, r') ∧
    ∃ m', GetSlot 3 r' = Some m' ∧ hasSameRunId (λ a, a) "a:2" (slot_BackendAddr m') = true ∧
          slot_MigrateFrom m' = "b:1"%string.
Proof.
  destruct (SwitchMasters_correct demo_router (λ a, a) {[ 1 := "a:2"%string ]}) as [(r' & H1 & H2) _].
  - apply reach_rop, reach_new.
  - vm_compute. reflexivity.
  - exists r'. split; [exact H1|].
    destruct (H2 3 (filled demo_rslot ForwardSemiAsync false)) as (m' & Hm & Hb & _ & _ & Hf & _).
    + vm_compute. reflexivity.
    + exists m'. split; [exact Hm|]. split; [apply Hb; [reflexivity|discriminate]|]. by apply Hf.
Defined.
