(* ===== verification/Forward.v ===== *)
(** Forwarding requests to backend connections: pkg/proxy/forward.go, the connection
    choice of backend.go, the dispatch methods of router.go, acl.go, acl_backend.go and
    the request of request.go.

    [PushBack] appends to the log [fw_sent] of everything handed to a backend
    connection; the reply to the n-th entry of the log, when somebody waits for it, is
    [answer n], and [up n bc] says whether a connection is in the state connected when n
    entries have been sent.  Both are the network's and unconstrained.  What is modelled
    here runs while the slot's read lock is held; the lock itself is SlotLock's. *)

From S2P Require Import Prelude Bufio Resp Mapper Models Router Stream.
(** * Addresses: net.SplitHostPort *)
Definition index_byte (c : byte) (b : bytes) : option nat := fst <$> list_find (λ x, x = c) b.

Definition last_index_byte (c : byte) (b : bytes) : option nat :=
  (λ i, (length b - 1 - i)%nat) <$> index_byte c (rev b).

Definition has_byte (c : byte) (b : bytes) : bool := bool_decide (c ∈ b).

(** [None] is the error, with which the host and the port are empty strings *)
Definition SplitHostPort (hostport : bytes) : option (bytes * bytes) :=
  match last_index_byte x3a hostport with
  | None => None
  | Some i =>
      let port := drop (S i) hostport in
      match hostport with
      | x5b :: _ =>
          match index_byte x5d hostport with
          | None => None
          | Some e =>
              if decide (S e ≠ i) then None
              else if has_byte x5b (drop 1 hostport) || has_byte x5d (drop (S e) hostport) then None
              else Some (take (e - 1) (drop 1 hostport), port)
          end
      | _ =>
          let host := take i hostport in
          if has_byte x3a host then None
          else if has_byte x5b hostport || has_byte x5d hostport then None
          else Some (host, port)
      end
  end.

(** * Identities and ACL snapshots *)
Record SessionACLIdentity := mkIdentity {
  ai_Username : bytes;
  ai_CredentialHash : string;
  ai_Password : bytes;
  ai_Revision : Z;
  ai_Stale : bool;
  ai_ForcedDB : option Z;
}.

Record ACLSnapshot := mkSnapshot {
  as_Revision : Z;
  as_Enabled : bool;
  as_UpdatedAt : string;
  as_Users : gmap string ACLUser;
}.

(** of users with the same name the later one wins; the list holds no nil user *)
Definition NewACLSnapshot (acl : option ACL) : ACLSnapshot :=
  match acl with
  | None => mkSnapshot 0 false "" ∅
  | Some acl =>
      mkSnapshot (acl_Revision acl) (acl_Enabled acl) (acl_UpdatedAt acl)
        (foldl (λ m u, <[au_Name u := u]> m) ∅ (acl_Users acl))
  end.

Record userBackendPoolKey := mkKey { uk_username : bytes; uk_credentialHash : string; uk_revision : Z }.
#[export] Instance userBackendPoolKey_eq_dec : EqDecision userBackendPoolKey.
Proof. solve_decision. Defined.
#[export] Instance byte_countable : Countable byte :=
  inj_countable' Byte.to_N (λ n, default x00 (Byte.of_N n)) ltac:(by intros []).
#[export] Instance userBackendPoolKey_countable : Countable userBackendPoolKey.
Proof.
  apply (inj_countable' (λ k, (uk_username k, uk_credentialHash k, uk_revision k)) (λ t, mkKey t.1.1 t.1.2 t.2)).
  by intros [].
Defined.

Definition userBackendKey (identity : option SessionACLIdentity) : userBackendPoolKey :=
  match identity with
  | None => mkKey [] "" 0
  | Some i => mkKey (ai_Username i) (ai_CredentialHash i) (ai_Revision i)
  end.

(** * Requests *)
Record Request := mkRequest {
  rq_Multi : list Resp;
  rq_OpStr : bytes;
  rq_OpFlag : Z;
  rq_Database : Z;
  rq_UnixNano : Z;
  rq_ACLIdentity : option SessionACLIdentity;
  rq_ptr : Z;  (** the request's own address, which seeds the choice of a connection *)
}.

Definition GOLDEN_RATIO_PRIME_32 : Z := 0x9e370001.
Definition u32 (z : Z) : Z := z mod 2 ^ 32.

Definition Seed16 (r : Request) : Z :=
  Z.shiftr (u32 (u32 (u32 (rq_UnixNano r) + u32 (rq_ptr r)) * GOLDEN_RATIO_PRIME_32)) 16.

(** the n sub-requests, at the addresses [ptrs]; their [Multi] is set by the caller *)
Definition MakeSubRequest (r : Request) (sub : list (Z * list Resp)) : list Request :=
  (λ pm, mkRequest pm.2 (rq_OpStr r) (rq_OpFlag r) (rq_Database r) (rq_UnixNano r) (rq_ACLIdentity r) pm.1) <$> sub.

Inductive reqerr :=
| ErrSlotIsNotReady
| ErrRespIsRequired
| ErrRequestIsBroken
| ErrInvalidSlot
| ErrBadReply (cmd : string) (t : byte) (len : nat)
| ErrReply (cmd : string) (msg : bytes)
| ErrNotAllowed (opstr : bytes)
| ErrOp (e : operr)
| ErrBackend (msg : string).

(** the reply of a request that was waited for: its [Err] and [Resp] *)
Abbreviation subreply := (option reqerr * option Resp)%type.

(** [err], then a missing reply, are errors *)
Definition sub_resp (s : subreply) : outcome reqerr Resp :=
  match s with
  | (Some e, _) => Err e
  | (None, None) => Err ErrRespIsRequired
  | (None, Some resp) => Ok resp
  end.

(** * The proxy *)
Record Config := mkConfig {
  cf_BackendNumberDatabases : Z;
  cf_BackendPrimaryParallel : Z;
  cf_BackendReplicaParallel : Z;
  cf_CodisACLEnabled : bool;
  cf_SessionAuth : bytes;
}.

(** a backend connection: an object of the routing table's store or of a user's pool,
    its database and its place in the parallel connections *)
Inductive connOwner :=
| Shared (p : nat)
| UserConn (replica : bool) (key : userBackendPoolKey).

Record BackendConn := mkBackendConn {
  bc_owner : connOwner;
  bc_addr : string;
  bc_database : Z;
  bc_index : Z;
}.

Record Fwd := mkFwd {
  fw_router : Router;
  fw_acl : option ACLSnapshot;
  fw_userPrimary : gmap userBackendPoolKey (gset string);
  fw_userReplica : gmap userBackendPoolKey (gset string);
  fw_refs : list Z;  (** [slot.refs], by slot *)
  fw_sent : list (BackendConn * list Resp);
}.

Definition set_sent (l : list (BackendConn * list Resp)) (w : Fwd) : Fwd :=
  mkFwd (fw_router w) (fw_acl w) (fw_userPrimary w) (fw_userReplica w) (fw_refs w) l.
Definition set_refs (l : list Z) (w : Fwd) : Fwd :=
  mkFwd (fw_router w) (fw_acl w) (fw_userPrimary w) (fw_userReplica w) l (fw_sent w).
Definition user_pools (replica : bool) (w : Fwd) : gmap userBackendPoolKey (gset string) :=
  if replica then fw_userReplica w else fw_userPrimary w.
Definition set_user_pools (replica : bool) (p : gmap userBackendPoolKey (gset string)) (w : Fwd) : Fwd :=
  if replica
  then mkFwd (fw_router w) (fw_acl w) (fw_userPrimary w) p (fw_refs w) (fw_sent w)
  else mkFwd (fw_router w) (fw_acl w) p (fw_userReplica w) (fw_refs w) (fw_sent w).

Abbreviation FM := (M Fwd reqerr).

(** What the network answers *)
Class Net := {
  up : nat → BackendConn → bool;
  answer : nat → subreply;
  broken : nat → bool;  (** whether the client is gone before the n-th retry *)
}.

Section forward.
Context (cfg : Config) `{Net}.

(** [newSharedBackendConnPool]: [parallel: math2.MaxInt(1, parallel)] *)
Definition pool_parallel (replica : bool) : Z :=
  MaxInt 1 (if replica then cf_BackendReplicaParallel cfg else cf_BackendPrimaryParallel cfg).

(** ** sharedBackendConn.BackendConn *)

(** [for range parallel { i = (i + 1) % uint(len(parallel)); ... }] *)
Fixpoint scan_parallel (n : nat) (parallel i : Z) (conn : Z → BackendConn) (ok : BackendConn → bool)
    : option BackendConn :=
  match n with
  | O => None
  | S n =>
      let i := (i + 1) mod parallel in
      if ok (conn i) then Some (conn i) else scan_parallel n parallel i conn ok
  end.

Definition pick_conn (owner : connOwner) (addr : string) (parallel database seed : Z) (must : bool)
    : FM (option BackendConn) :=
  sent ← gets fw_sent;
  let conn i := mkBackendConn owner addr database i in
  let ok := up (length sent) in
  if decide (database < 0 ∨ cf_BackendNumberDatabases cfg <= database) then panic
  else if decide (parallel = 1) then
    mret (if must || ok (conn 0) then Some (conn 0) else None)
  else match scan_parallel (Z.to_nat parallel) parallel seed conn ok with
  | Some bc => mret (Some bc)
  | None => mret (if must then Some (conn 0) else None)
  end.

(** [bc.BackendConn(database, seed, must)] on a connection of the table, nil included *)
Definition backendConn (bc : option nat) (database seed : Z) (must : bool) : FM (option BackendConn) :=
  match bc with
  | None => mret None
  | Some p =>
      st ← gets (λ w, ro_store (fw_router w));
      match st !! p with
      | None => panic
      | Some c => pick_conn (Shared p) (co_addr c) (pool_parallel (negb (co_primary c))) database seed must
      end
  end.

(** ** The pools of ACL users *)
Definition aclIdentityCurrent (identity : option SessionACLIdentity) (w : Fwd) : bool :=
  match identity, fw_acl w with
  | Some i, Some snapshot =>
      cf_CodisACLEnabled cfg && as_Enabled snapshot && (as_Revision snapshot =? ai_Revision i)
  | _, _ => false
  end.

(** whether the user may have a pool; it is made when missing *)
Definition userBackendPool (replica : bool) (identity : SessionACLIdentity) : FM (option (gset string)) := λ w,
  let key := userBackendKey (Some identity) in
  if aclIdentityCurrent (Some identity) w then
    match user_pools replica w !! key with
    | Some pool => (Ok (Some pool), w)
    | None => (Ok (Some ∅), set_user_pools replica (<[key := ∅]> (user_pools replica w)) w)
    end
  else (Ok None, w).

(** [pool.GetOrCreate(addr)] *)
Definition GetOrCreate (replica : bool) (key : userBackendPoolKey) (addr : string) : FM unit :=
  modify (λ w, set_user_pools replica (alter (λ pool, {[addr]} ∪ pool) key (user_pools replica w)) w).

Definition userBackendConn (addr : string) (database seed : Z) (replica : bool)
    (identity : option SessionACLIdentity) (must : bool) : FM (option BackendConn) :=
  match identity with
  | None => mret None
  | Some i =>
      pool ← userBackendPool replica i;
      match pool with
      | None => mret None
      | Some _ =>
          let key := userBackendKey (Some i) in
          GetOrCreate replica key addr ;;
          pick_conn (UserConn replica key) addr (pool_parallel replica) database seed must
      end
  end.

(** [closeUserBackendPools] *)
Definition closeUserBackendPools (w : Fwd) : Fwd := set_user_pools false ∅ (set_user_pools true ∅ w).

(** [Router.SetACL], the sessions apart; the flag says whether they are told, and what *)
Definition SetACL (acl : option ACL) (w : Fwd) : option ACLSnapshot * Fwd :=
  let next := NewACLSnapshot acl in
  let w' := mkFwd (fw_router w) (Some next) (fw_userPrimary w) (fw_userReplica w) (fw_refs w) (fw_sent w) in
  let changed := match fw_acl w with
                 | None => true
                 | Some old => bool_decide (as_Revision old ≠ as_Revision next ∨ as_Enabled old ≠ as_Enabled next)
                 end in
  if changed then (Some next, closeUserBackendPools w') else (None, w').

Definition aclAuthEnabled (w : Fwd) : bool :=
  cf_CodisACLEnabled cfg && match fw_acl w with Some s => as_Enabled s | None => false end.

(** ** Sending *)

(** whether the input of a connection is open: a shared one until it is released for the last
    time, one of a user until the pool of the user is closed *)
Definition conn_open (bc : BackendConn) (w : Fwd) : bool :=
  match bc_owner bc with
  | Shared p => match ro_store (fw_router w) !! p with Some c => co_open c | None => false end
  | UserConn replica key => match user_pools replica w !! key with Some pool => bool_decide (bc_addr bc ∈ pool) | None => false end
  end.

(** [bc.input <- r]; a send on a closed channel panics *)
Definition PushBack (bc : BackendConn) (multi : list Resp) : FM unit := λ w,
  if conn_open bc w then (Ok tt, set_sent (fw_sent w ++ [(bc, multi)]) w) else (Panic, w).

(** [bc.PushBack(m); m.Batch.Wait()]; a nil connection panics *)
Definition ask (bc : option BackendConn) (multi : list Resp) : FM subreply :=
  match bc with
  | None => panic
  | Some bc =>
      n ← gets (λ w, length (fw_sent w));
      PushBack bc multi ;;
      mret (answer n)
  end.

Definition bulk (b : bytes) : Resp := NewBulkBytes (Some b).

(** *** forwardHelper.slotsmgrt *)
Definition host_port (st : list sharedBackendConn) (bc : option nat) : bytes * bytes :=
  default ([], []) (SplitHostPort (bstr (Addr st bc))).

Definition slotsmgrt (s : RSlot) (hkey : bytes) (database seed : Z) : FM unit :=
  st ← gets (λ w, ro_store (fw_router w));
  let '(host, port) := host_port st (rs_backend_bc s) in
  let multi := [bulk (bstr "SLOTSMGRTTAGONE"); bulk host; bulk port; bulk (bstr "3000"); bulk hkey] in
  bc ← backendConn (rs_migrate_bc s) database seed true;
  m ← ask bc multi;
  resp ← lift (sub_resp m);
  if IsError resp then fail (ErrReply "slotsmgrt" (val (Value resp)))
  else if IsInt resp then mret tt
  else fail (ErrBadReply "slotsmgrt" (Type_ resp) 0).

(** *** forwardHelper.aclDryRunOnBackend: [Some resp] is the server's refusal *)
Definition aclDryRunOnBackend (bc : option nat) (database seed : Z) (username : bytes) (multi : list Resp)
    : FM (option Resp) :=
  match bc with
  | None => fail ErrSlotIsNotReady
  | Some _ =>
      c ← backendConn bc database seed true;
      m ← ask c ([bulk (bstr "ACL"); bulk (bstr "DRYRUN"); bulk username] ++ multi);
      resp ← lift (sub_resp m);
      if IsError resp then mret (Some resp)
      else if IsString resp then mret None
      else fail (ErrBadReply "acl dryrun" (Type_ resp) 0)
  end.

(** *** forwardHelper.slotsmgrtExecWrapper *)

(** the reply of the migrating server: the keys were moved, are being moved, or the server
    ran the command itself *)
Inductive wrapped := Moved | Moving | Answered (resp : Resp).

Definition wrapper_reply (resp : Resp) : outcome reqerr wrapped :=
  if IsError resp then Err (ErrReply "slotsmgrt-exec-wrapper" (val (Value resp)))
  else if IsArray resp then
    match default [] (Array resp) with
    | [a0; a1] =>
        if IsInt a0 then
          match val (Value a0) with
          | [c] =>
              let d := (byte_val c - 48) mod 256 in
              if decide (d = 0) then Ok Moved
              else if decide (d = 1) then Ok Moving
              else if decide (d = 2) then Ok (Answered a1)
              else Err (ErrReply "slotsmgrt-exec-wrapper" (val (Value a0)))
          | v => Err (ErrBadReply "slotsmgrt-exec-wrapper" (Type_ a0) (length v))
          end
        else Err (ErrBadReply "slotsmgrt-exec-wrapper" (Type_ a0) (length (val (Value a0))))
    | l => Err (ErrBadReply "slotsmgrt-exec-wrapper" TypeArray (length l))
    end
  else Err (ErrBadReply "slotsmgrt-exec-wrapper" (Type_ resp) 0).

Definition slotsmgrtExecWrapper (s : RSlot) (hkey : bytes) (database seed : Z) (multi : list Resp)
    (identity : option SessionACLIdentity) : FM wrapped :=
  refused ← (match identity with
             | Some i => aclDryRunOnBackend (rs_migrate_bc s) database seed (ai_Username i) multi
             | None => mret None
             end);
  match refused with
  | Some resp => mret (Answered resp)
  | None =>
      bc ← backendConn (rs_migrate_bc s) database seed true;
      m ← ask bc ([bulk (bstr "SLOTSMGRT-EXEC-WRAPPER"); bulk hkey] ++ multi);
      resp ← lift (sub_resp m);
      lift (wrapper_reply resp)
  end.

(** *** forwardHelper.forward2 *)

(** [for range group { i = (i + 1) % uint(len(group)); ... }] *)
Fixpoint try_group (n : nat) (i : Z) (group : list (option nat)) (r : Request) : FM (option BackendConn) :=
  match n with
  | O => mret None
  | S n =>
      let i := (i + 1) mod Z.of_nat (length group) in
      match group !! Z.to_nat i with
      | None => panic
      | Some member =>
          st ← gets (λ w, ro_store (fw_router w));
          bc ← (match rq_ACLIdentity r with
                | Some _ => userBackendConn (Addr st member) (rq_Database r) (Seed16 r) true (rq_ACLIdentity r) false
                | None => backendConn member (rq_Database r) (Seed16 r) false
                end);
          match bc with
          | Some bc => mret (Some bc)
          | None => try_group n i group r
          end
      end
  end.

Fixpoint try_groups (groups : list (list (option nat))) (r : Request) : FM (option BackendConn) :=
  match groups with
  | [] => mret None
  | group :: groups =>
      bc ← try_group (length group) (Seed16 r) group r;
      match bc with
      | Some bc => mret (Some bc)
      | None => try_groups groups r
      end
  end.

Definition forward2 (s : RSlot) (r : Request) : FM (option BackendConn) :=
  bc ← (match rs_migrate_bc s with
        | None => if IsMasterOnly (rq_OpFlag r) then mret None else try_groups (rs_replicaGroups s) r
        | Some _ => mret None
        end);
  match bc with
  | Some bc => mret (Some bc)
  | None =>
      st ← gets (λ w, ro_store (fw_router w));
      match rq_ACLIdentity r with
      | Some _ =>
          userBackendConn (Addr st (rs_backend_bc s)) (rq_Database r) (Seed16 r) false (rq_ACLIdentity r) true
      | None => backendConn (rs_backend_bc s) (rq_Database r) (Seed16 r) true
      end
  end.

(** [r.Group = &s.refs; r.Group.Add(1)] *)
Definition group_add (s : RSlot) : FM unit :=
  modify (λ w, set_refs (alter (λ n, n + 1) (Z.to_nat (rs_id s)) (fw_refs w)) w).

(** the end of both [process] methods: choose a connection and enter the slot's group *)
Definition enter_group (s : RSlot) (r : Request) : FM BackendConn :=
  bc ← forward2 s r;
  match bc with
  | None => fail ErrSlotIsNotReady
  | Some bc => group_add s ;; mret bc
  end.

(** [len(hkey) != 0] with a migration going on *)
Definition must_move (s : RSlot) (hkey : bytes) : bool :=
  match rs_migrate_bc s, hkey with Some _, _ :: _ => true | _, _ => false end.

Definition process_sync (s : RSlot) (r : Request) (hkey : bytes) : FM BackendConn :=
  match rs_backend_bc s with
  | None => fail ErrSlotIsNotReady
  | Some _ =>
      (if must_move s hkey then slotsmgrt s hkey (rq_Database r) (Seed16 r) else mret tt) ;;
      enter_group s r
  end.

(** what became of a request: handed to a connection, or answered by the proxy *)
Inductive forwarded := Pushed (bc : BackendConn) | Replied (resp : Resp).

Definition forward_sync (s : RSlot) (r : Request) (hkey : bytes) : FM forwarded :=
  bc ← process_sync s r hkey;
  PushBack bc (rq_Multi r) ;;
  mret (Pushed bc).

(** [None] asks for another round *)
Definition process_semi (s : RSlot) (r : Request) (hkey : bytes) : FM (option (BackendConn + Resp)) :=
  match rs_backend_bc s with
  | None => fail ErrSlotIsNotReady
  | Some _ =>
      m ← (if must_move s hkey
           then slotsmgrtExecWrapper s hkey (rq_Database r) (Seed16 r) (rq_Multi r) (rq_ACLIdentity r)
           else mret Moved);
      match m with
      | Answered resp => mret (Some (inr resp))
      | Moving => mret None
      | Moved => bc ← enter_group s r; mret (Some (inl bc))
      end
  end.

(** [for { ... loop += 1 }]; the slot is read again in every round.  Running out of
    [fuel] is [Ok None]. *)
Fixpoint forward_semi (fuel : nat) (loop : nat) (id : nat) (r : Request) (hkey : bytes)
    : FM (option forwarded) :=
  match fuel with
  | O => mret None
  | S fuel =>
      slot ← gets (λ w, ro_slots (fw_router w) !! id);
      match slot with
      | None => panic
      | Some s =>
          m ← process_semi s r hkey;
          match m with
          | Some (inl bc) => PushBack bc (rq_Multi r) ;; mret (Some (Pushed bc))
          | Some (inr resp) => mret (Some (Replied resp))
          | None =>
              if broken loop then fail ErrRequestIsBroken
              else forward_semi fuel (S loop) id r hkey
          end
      end
  end.

(** [slot.forward(r, hkey)] *)
Definition forward (fuel : nat) (id : nat) (r : Request) (hkey : bytes) : FM (option forwarded) :=
  slot ← gets (λ w, ro_slots (fw_router w) !! id);
  match slot with
  | None => panic
  | Some s =>
      if decide (rs_method s = ForwardSemiAsync) then forward_semi fuel 0 id r hkey
      else f ← forward_sync s r hkey; mret (Some f)
  end.

(** ** Router.dispatch, dispatchByHashKey, dispatchSlot, dispatchAddr *)
Definition dispatchByHashKey (fuel : nat) (r : Request) (hkey : bytes) : FM (option forwarded) :=
  forward fuel (Z.to_nat (Hash hkey mod MaxSlotNum)) r hkey.

Definition dispatch (fuel : nat) (r : Request) : FM (option forwarded) :=
  dispatchByHashKey fuel r (val (getHashKey (rq_Multi r) (rq_OpStr r))).

Definition dispatchSlot (fuel : nat) (r : Request) (id : Z) : FM (option forwarded) :=
  if decide (id < 0 ∨ MaxSlotNum <= id) then fail ErrInvalidSlot
  else forward fuel (Z.to_nat id) r [].

(** [s.pool.primary.Get(addr)] *)
Definition pool_Get (primary : bool) (addr : string) (r : Router) : option nat :=
  let p := get_pool primary r in if pl_closed p then None else pl_pool p !! addr.

(** one of the two halves of dispatchAddr *)
Definition dispatch_pool (primary : bool) (r : Request) (addr : string) : FM (option BackendConn) :=
  p ← gets (λ w, pool_Get primary addr (fw_router w));
  match p with
  | None => mret None
  | Some p =>
      match rq_ACLIdentity r with
      | Some _ => userBackendConn addr (rq_Database r) (Seed16 r) (negb primary) (rq_ACLIdentity r) true
      | None => backendConn (Some p) (rq_Database r) (Seed16 r) false
      end
  end.

Definition dispatchAddr (r : Request) (addr : string) : FM bool :=
  bc ← dispatch_pool true r addr;
  bc ← (match bc with Some bc => mret (Some bc) | None => dispatch_pool false r addr end);
  match bc with
  | Some bc => PushBack bc (rq_Multi r) ;; mret true
  | None => mret false
  end.

(** ** Dry runs of commands the proxy answers itself *)
Definition aclDryRunSlot (r : Request) (i : SessionACLIdentity) (s : RSlot) : FM (option Resp) :=
  aclDryRunOnBackend (rs_backend_bc s) (rq_Database r) (Seed16 r) (ai_Username i) (rq_Multi r).

Definition aclDryRunAny (r : Request) (i : SessionACLIdentity) : FM (option Resp) :=
  slots ← gets (λ w, ro_slots (fw_router w));
  match list_find (λ s, is_Some (rs_backend_bc s)) slots with
  | Some (_, s) => aclDryRunSlot r i s
  | None => fail ErrSlotIsNotReady
  end.

Definition aclDryRunLocal (r : Request) : FM (option Resp) :=
  match rq_ACLIdentity r with
  | None => mret None
  | Some i => aclDryRunAny r i
  end.

Definition aclDryRunKey (r : Request) (key : bytes) : FM (option Resp) :=
  match rq_ACLIdentity r with
  | None => mret None
  | Some i =>
      slot ← gets (λ w, ro_slots (fw_router w) !! Z.to_nat (Hash key mod MaxSlotNum));
      match slot with
      | None => fail ErrInvalidSlot
      | Some s => aclDryRunSlot r i s
      end
  end.

End forward.
