(* ===== verification/ForwardTheorems.v ===== *)
(** What forwarding guarantees: where requests go, that keys are moved first, on whose
    connections, and that the retry loop ends. *)

From S2P Require Import Prelude Bufio Resp Mapper Models Router RouterInv RouterTheorems Stream Forward.
Section forward.
Context (cfg : Config) `{Net}.

(** worlds that differ in the users' pools only *)
Definition frame (w w' : Fwd) : Prop :=
  fw_router w' = fw_router w ∧ fw_acl w' = fw_acl w ∧ fw_refs w' = fw_refs w ∧ fw_sent w' = fw_sent w.

#[local] Instance frame_refl : Reflexive frame.
Proof. by intros w. Qed.
#[local] Instance frame_trans : Transitive frame.
Proof. intros w1 w2 w3 (?&?&?&?) (?&?&?&?). repeat split; congruence. Qed.

(** * Choosing a connection *)
Lemma pool_parallel_pos replica : 1 <= pool_parallel cfg replica.
Proof. unfold pool_parallel, MaxInt. case_decide; lia. Qed.

Lemma scan_parallel_spec n : ∀ parallel i conn ok, 1 <= parallel →
  match scan_parallel n parallel i conn ok with
  | Some bc => ok bc = true ∧ ∃ j, bc = conn j ∧ 0 <= j < parallel
  | None => True
  end.
Proof.
  induction n as [|n IH]; intros parallel i conn ok Hp; cbn; [done|].
  destruct (ok (conn _)) eqn:Hok; [|by apply IH]. split; [done|]. eexists. split; [done|].
  apply Z.mod_pos_bound. lia.
Qed.

(** the connection is the owner's, to its address, in the database, and up unless any will do *)
Definition picked (owner : connOwner) (addr : string) (parallel database : Z) (must : bool) (n : nat)
    (bc : BackendConn) : Prop :=
  bc_owner bc = owner ∧ bc_addr bc = addr ∧ bc_database bc = database ∧
  0 <= bc_index bc < parallel ∧ (must = false → up n bc = true).

Lemma pick_conn_wp owner addr parallel database seed must w : 1 <= parallel →
  wp (pick_conn cfg owner addr parallel database seed must) (λ r w', w' = w ∧
    match r with
    | Ok (Some bc) => picked owner addr parallel database must (length (fw_sent w)) bc
    | Ok None => must = false
    | Err _ => False
    | Panic => ¬ 0 <= database < cf_BackendNumberDatabases cfg
    end) w.
Proof.
  intros Hp. unfold pick_conn. wp_steps. case_decide; [apply wp_panic; split; [done|lia]|].
  case_decide as Hone.
  - wp_steps. split; [done|]. destruct must, (up _ _) eqn:Hup; cbn; try done; repeat split; cbn; try done; lia.
  - pose proof (scan_parallel_spec (Z.to_nat parallel) parallel seed
      (λ i, mkBackendConn owner addr database i) (up (length (fw_sent w))) Hp) as Hs.
    destruct (scan_parallel _ _ _ _ _) as [bc|].
    + destruct Hs as [Hok (j & -> & Hj)]. wp_steps. split; [done|]. repeat split; cbn; try done; lia.
    + wp_steps. split; [done|]. destruct must; [|done]. repeat split; cbn; try done; lia.
Qed.

(** databases the proxy was configured with, and pointers to objects that exist *)
Definition db_ok (r : Request) : Prop := 0 <= rq_Database r < cf_BackendNumberDatabases cfg.
Definition in_store (w : Fwd) (p : option nat) : Prop :=
  match p with Some q => ∃ c, ro_store (fw_router w) !! q = Some c ∧ co_open c = true | None => True end.

(** sending on an open connection *)
Lemma PushBack_wp bc multi (Q : outcome reqerr () → Fwd → Prop) w :
  (conn_open bc w = true → Q (Ok tt) (set_sent (fw_sent w ++ [(bc, multi)]) w)) → (conn_open bc w = false → Q Panic w) → wp (PushBack bc multi) Q w.
Proof. intros H1 H2. unfold wp, PushBack. destruct (conn_open bc w); auto. Qed.
Lemma table_open w q bc : bc_owner bc = Shared q → in_store w (Some q) → conn_open bc w = true.
Proof. intros Ho (c & Hc & Hop). unfold conn_open. by rewrite Ho, Hc. Qed.

(** a connection of the routing table *)
Definition table_conn (w : Fwd) (p : option nat) (database : Z) (must : bool) (bc : BackendConn) : Prop :=
  ∃ q, p = Some q ∧ bc_owner bc = Shared q ∧ bc_addr bc = Addr (ro_store (fw_router w)) p ∧
    bc_database bc = database ∧ (must = false → up (length (fw_sent w)) bc = true).

Lemma backendConn_wp p database seed must w :
  wp (backendConn cfg p database seed must) (λ r w', w' = w ∧
    match r with
    | Ok (Some bc) => table_conn w p database must bc
    | Ok None => p = None ∨ must = false
    | Err _ => False
    | Panic => ¬ (0 <= database < cf_BackendNumberDatabases cfg ∧ in_store w p)
    end) w.
Proof.
  unfold backendConn. destruct p as [q|]; [|wp_steps; auto].
  wp_steps. destruct (ro_store _ !! q) as [c|] eqn:Hq.
  2: { apply wp_panic. split; [done|]. intros [_ (c & Hc & _)]. congruence. }
  eapply wp_mono; [apply pick_conn_wp, pool_parallel_pos|]. intros r w' [-> Hr]. split; [done|].
  destruct r as [[bc|]|e|]; [|by right|done|tauto]. destruct Hr as (? & ? & ? & _ & ?).
  exists q. cbn. by rewrite Hq.
Qed.

(** a connection of the user's own *)
Definition user_conn (w : Fwd) (i : SessionACLIdentity) (replica : bool) (addr : string) (database : Z)
    (must : bool) (bc : BackendConn) : Prop :=
  bc_owner bc = UserConn replica (userBackendKey (Some i)) ∧ bc_addr bc = addr ∧ bc_database bc = database ∧
  (must = false → up (length (fw_sent w)) bc = true) ∧ aclIdentityCurrent cfg (Some i) w = true.

Lemma set_user_pools_frame replica p w : frame w (set_user_pools replica p w).
Proof. by destruct replica. Qed.

Lemma userBackendPool_wp replica i w :
  wp (userBackendPool cfg replica i) (λ r w', frame w w' ∧
    match r with
    | Ok (Some _) => aclIdentityCurrent cfg (Some i) w = true ∧ is_Some (user_pools replica w' !! userBackendKey (Some i))
    | Ok None => aclIdentityCurrent cfg (Some i) w = false
    | _ => False
    end) w.
Proof.
  unfold wp, userBackendPool. destruct (aclIdentityCurrent cfg (Some i) w) eqn:Hc; [|done].
  destruct (user_pools replica w !! _) eqn:Hp; [split; [done|]; split; [done|]; cbn [snd]; rewrite Hp; by eexists|]. split; [apply set_user_pools_frame|]. split; [done|].
  destruct replica; cbn; rewrite lookup_insert_eq; by eexists.
Qed.

Lemma userBackendConn_wp addr database seed replica i must w :
  wp (userBackendConn cfg addr database seed replica (Some i) must) (λ r w', frame w w' ∧
    match r with
    | Ok (Some bc) => user_conn w i replica addr database must bc ∧ conn_open bc w' = true
    | Ok None => True
    | Err _ => False
    | Panic => ¬ 0 <= database < cf_BackendNumberDatabases cfg
    end) w.
Proof.
  unfold userBackendConn. apply wp_bind. eapply wp_mono; [apply userBackendPool_wp|].
  intros r w1 [Hf Hr]. destruct r as [[pool|]|e|]; [|wp_steps; by split|done..].
  unfold GetOrCreate. wp_steps. eapply wp_mono; [apply pick_conn_wp, pool_parallel_pos|].
  intros r w2 [-> Hr2]. split; [etrans; [done|apply set_user_pools_frame]|].
  destruct r as [[bc|]|e|]; [|done..]. destruct Hr2 as (Hown & Haddr & ? & _ & Hup), Hr as [Hc [pool' Hpool]].
  repeat split; try done.
  - intros ->. destruct Hf as (_ & _ & _ & <-). by destruct replica; apply Hup.
  - unfold conn_open. rewrite Hown. destruct replica; cbn in *; rewrite lookup_alter_eq, Hpool; cbn; apply bool_decide_eq_true; rewrite Haddr; set_solver.
Qed.

(** * forward2 *)

(** the connections a request with an identity may use *)
Definition own_conn (r : Request) (bc : BackendConn) : Prop :=
  match rq_ACLIdentity r with
  | Some i => ∃ replica, bc_owner bc = UserConn replica (userBackendKey (Some i))
  | None => ∃ p, bc_owner bc = Shared p
  end.

Definition replica_target (s : RSlot) (r : Request) (w : Fwd) (bc : BackendConn) : Prop :=
  rs_migrate_bc s = None ∧ IsMasterOnly (rq_OpFlag r) = false ∧ up (length (fw_sent w)) bc = true ∧
  ∃ g m, g ∈ rs_replicaGroups s ∧ m ∈ g ∧ bc_addr bc = Addr (ro_store (fw_router w)) m.

(** where a request may go: to the slot's server, or to a replica that is up when no
    migration is going on and the command may be run there *)
Definition target_ok (s : RSlot) (r : Request) (w : Fwd) (bc : BackendConn) : Prop :=
  bc_database bc = rq_Database r ∧ own_conn r bc ∧
  (bc_addr bc = Addr (ro_store (fw_router w)) (rs_backend_bc s) ∨ replica_target s r w bc).

Definition member_conn (w : Fwd) (g : list (option nat)) (r : Request) (bc : BackendConn) : Prop :=
  bc_database bc = rq_Database r ∧ own_conn r bc ∧ up (length (fw_sent w)) bc = true ∧
  ∃ m, m ∈ g ∧ bc_addr bc = Addr (ro_store (fw_router w)) m.

(** what [process] and its helpers may do: nothing but an answer with the property *)
Definition chosen (w : Fwd) (r : Request) (valid : Prop) (P : BackendConn → Prop)
    (o : outcome reqerr (option BackendConn)) (w' : Fwd) : Prop :=
  frame w w' ∧
  match o with
  | Ok (Some bc) => P bc ∧ (valid → conn_open bc w' = true)
  | Ok None => True
  | Err _ => False
  | Panic => ¬ (db_ok r ∧ valid)
  end.

Lemma member_conn_frame w w' g r bc : frame w w' → member_conn w' g r bc → member_conn w g r bc.
Proof. intros (Hr & _ & _ & Hs). unfold member_conn. by rewrite Hr, Hs. Qed.

Lemma in_store_frame w w' p : frame w w' → in_store w p → in_store w' p.
Proof. intros (Hr & _). unfold in_store. by rewrite Hr. Qed.

Lemma chosen_frame w w1 w' r (valid valid' : Prop) (P P' : BackendConn → Prop) o :
  frame w w1 → (valid → valid') → (∀ bc, P' bc → P bc) →
  chosen w1 r valid' P' o w' → chosen w r valid P o w'.
Proof.
  intros Hf Hv HP [Hf' Ho]. split; [by etrans|]. destruct o as [[bc|]|e|]; [destruct Ho; split; auto|done..|tauto].
Qed.

Lemma try_group_wp n : ∀ i g r w, (n <= length g)%nat →
  wp (try_group cfg n i g r) (chosen w r (Forall (in_store w) g) (member_conn w g r)) w.
Proof.
  induction n as [|n IH]; intros i g r w Hn; cbn [try_group]; [wp_steps; by split|].
  pose proof (Z.mod_pos_bound (i + 1) (Z.of_nat (length g)) ltac:(lia)) as Hi.
  destruct (g !! _) as [m|] eqn:Hm; [|apply lookup_ge_None_1 in Hm; lia].
  apply list_elem_of_lookup_2 in Hm. wp_steps.
  eapply wp_mono with (Q := chosen w r (Forall (in_store w) g) (member_conn w g r)).
  { unfold chosen, member_conn, own_conn. destruct (rq_ACLIdentity r) as [id|] eqn:Hid.
    - eapply wp_mono; [apply userBackendConn_wp|]. intros o w1 [Hf Ho]. split; [done|].
      destruct o as [[bc|]|e|]; [|done|done|unfold db_ok; tauto]. destruct Ho as ((? & ? & ? & Hup & _) & ?).
      repeat split; eauto.
    - eapply wp_mono; [apply backendConn_wp|]. intros o w1 [-> Ho]. split; [done|].
      destruct o as [[bc|]|e|]; [|done|done|].
      + destruct Ho as (q & -> & ? & ? & ? & Hup). repeat split; eauto. intros Hall. eapply table_open; [done|]. by eapply Forall_forall in Hall.
      + intros [Hdb Hall]. apply Ho. split; [done|]. by eapply Forall_forall in Hall. }
  intros o w1 [Hf Ho]. destruct o as [[bc|]|e|]; [wp_steps; by split| |done|by split].
  eapply wp_mono; [apply IH; lia|]. intros o w2. apply chosen_frame; [done| |].
  - intros Hall. eapply Forall_impl; [done|]. intros p. by apply in_store_frame.
  - intros bc. by apply member_conn_frame.
Qed.

Lemma try_groups_wp gs : ∀ r w,
  wp (try_groups cfg gs r)
     (chosen w r (Forall (Forall (in_store w)) gs) (λ bc, ∃ g, g ∈ gs ∧ member_conn w g r bc)) w.
Proof.
  induction gs as [|g gs IH]; intros r w; cbn [try_groups]; [wp_steps; by split|].
  apply wp_bind. eapply wp_mono; [by apply try_group_wp|]. intros o w1 [Hf Ho].
  destruct o as [[bc|]|e|]; [wp_steps; split; [done|]; destruct Ho as [Ho Hop]; split; [exists g; split; [by left|done]|intros [? _]%Forall_cons; auto]| |done|].
  2: { split; [done|]. intros [? Hall%Forall_cons]. tauto. }
  eapply wp_mono; [apply IH|]. intros o w2. apply chosen_frame; [done| |].
  - intros [_ Hall]%Forall_cons. eapply Forall_impl; [done|]. intros x Hx. eapply Forall_impl; [done|].
    intros p. by apply in_store_frame.
  - intros bc (g' & ? & ?). exists g'. split; [by right|]. by eapply member_conn_frame.
Qed.

Lemma target_ok_frame s r w w' bc : frame w w' → target_ok s r w' bc → target_ok s r w bc.
Proof. intros (Hr & _ & _ & Hs). unfold target_ok, replica_target. by rewrite Hr, Hs. Qed.

(** the slot points to objects that exist *)
Definition slot_valid (w : Fwd) (s : RSlot) : Prop :=
  in_store w (rs_backend_bc s) ∧ in_store w (rs_migrate_bc s) ∧ Forall (Forall (in_store w)) (rs_replicaGroups s).

Lemma slot_valid_router w w' s : fw_router w' = fw_router w → slot_valid w s → slot_valid w' s.
Proof. unfold slot_valid, in_store. by intros ->. Qed.

Lemma forward2_wp s r w : wp (forward2 cfg s r) (chosen w r (slot_valid w s) (target_ok s r w)) w.
Proof.
  unfold forward2. apply wp_bind. eapply wp_mono with (Q := chosen w r (slot_valid w s) (target_ok s r w)).
  { destruct (rs_migrate_bc s) eqn:Hmg; [wp_steps; by split|].
    destruct (IsMasterOnly _) eqn:Hmo; [wp_steps; by split|].
    eapply wp_mono; [apply try_groups_wp|]. intros o w1. apply chosen_frame; [done|by intros (_ & _ & ?)|].
    intros bc (g & Hg & ? & ? & ? & m & ? & ?). split; [done|]. split; [done|]. right. repeat split; eauto. }
  intros o w1 [Hf Ho]. destruct o as [[bc|]|e|]; [wp_steps; by split| |done|by split].
  wp_steps. eapply wp_mono with (Q := chosen w1 r (slot_valid w1 s) (target_ok s r w1)).
  { unfold chosen, target_ok, own_conn. destruct (rq_ACLIdentity r) as [id|] eqn:Hid.
    - eapply wp_mono; [apply userBackendConn_wp|]. intros o w2 [Hf2 Ho2]. split; [done|].
      destruct o as [[bc|]|e|]; [|done|done|unfold db_ok; tauto]. destruct Ho2 as ((? & ? & ? & _) & ?). eauto 10.
    - eapply wp_mono; [apply backendConn_wp|]. intros o w2 [-> Ho2]. split; [done|].
      destruct o as [[bc|]|e|]; [|done|done|unfold db_ok, slot_valid; tauto].
      destruct Ho2 as (q & Hq & Hown & ? & ? & _). split; [by eauto 10|]. intros [Hv _]. rewrite Hq in Hv. by eapply table_open. }
  intros o w2. apply chosen_frame; [done| |].
  - apply slot_valid_router. by destruct Hf.
  - intros bc. by apply target_ok_frame.
Qed.

(** * Asking the source of a migration *)
Definition source_entry (s : RSlot) (r : Request) (w : Fwd) (e : BackendConn * list Resp) : Prop :=
  (∃ q, bc_owner e.1 = Shared q) ∧ bc_database e.1 = rq_Database r ∧
  bc_addr e.1 = Addr (ro_store (fw_router w)) (rs_migrate_bc s).

(** [w'] is [w] after the messages [pre] to the source, users' pools apart *)
Definition asked (s : RSlot) (r : Request) (w : Fwd) (pre : list (BackendConn * list Resp)) (w' : Fwd) : Prop :=
  fw_router w' = fw_router w ∧ fw_acl w' = fw_acl w ∧ fw_refs w' = fw_refs w ∧
  fw_sent w' = fw_sent w ++ pre ∧ Forall (source_entry s r w) pre.

Lemma asked_nil s r w w' : frame w w' → asked s r w [] w'.
Proof. intros (? & ? & ? & ?). repeat split; try done. by rewrite app_nil_r. Qed.

Lemma asked_app s r w w1 w2 l1 l2 : asked s r w l1 w1 → asked s r w1 l2 w2 → asked s r w (l1 ++ l2) w2.
Proof.
  intros (Hr1 & ? & ? & Hs1 & Hf1) (Hr2 & ? & ? & Hs2 & Hf2).
  repeat split; try congruence; [by rewrite Hs2, Hs1, app_assoc|].
  apply Forall_app. split; [done|]. eapply Forall_impl; [done|]. unfold source_entry. by rewrite Hr1.
Qed.

Lemma asked_frame s r w w1 w2 l : asked s r w l w1 → frame w1 w2 → asked s r w l w2.
Proof. intros Ha Hf. rewrite <- (app_nil_r l). eapply asked_app; [done|by apply asked_nil]. Qed.

(** the reply to a message sent to the source *)
Lemma ask_source_wp {A} s r multi (k : Resp → FM A) (Q : outcome reqerr A → Fwd → Prop) w :
  (Q Panic w ∨ db_ok r ∧ in_store w (rs_migrate_bc s) ∧ is_Some (rs_migrate_bc s)) →
  (∀ bc w', asked s r w [(bc, multi)] w' →
     match sub_resp (answer (length (fw_sent w))) with
     | Ok resp => answer (length (fw_sent w)) = (None, Some resp) → wp (k resp) Q w'
     | Err e => Q (Err e) w'
     | Panic => False
     end) →
  wp (bc ← backendConn cfg (rs_migrate_bc s) (rq_Database r) (Seed16 r) true;
      m ← ask bc multi; resp ← lift (sub_resp m); k resp) Q w.
Proof.
  intros Hpanic HQ. apply wp_bind. eapply wp_mono; [apply backendConn_wp|]. intros o w1 [-> Ho].
  destruct o as [[bc|]|e|]; [|destruct Ho as [Hn|]; [|done]|done|].
  2: { rewrite Hn in *. cbn. destruct Hpanic as [?|(_ & _ & [? [=]])]. by apply wp_bind, wp_panic. }
  2: { destruct Hpanic as [?|(? & ? & _)]; [done|]. destruct Ho. by split. }
  unfold ask. do 2 apply wp_bind. apply wp_gets. apply wp_bind. destruct Ho as (q & Hsq & Hq & Haddr & Hdb & _). apply PushBack_wp.
  2: { intros Hcl. destruct Hpanic as [?|(_ & Hst & _)]; [done|]. rewrite Hsq in Hst. rewrite (table_open w q bc) in Hcl by done. done. }
  intros _. wp_steps.
  specialize (HQ bc (set_sent (fw_sent w ++ [(bc, multi)]) w)).
  destruct (answer (length (fw_sent w))) as [[e|] [resp|]]; cbn in HQ |- *; apply HQ; try done;
    repeat split; try done; repeat constructor; cbn; eauto.
Qed.

(** * The messages that move the keys *)
Definition semi (s : RSlot) : bool := bool_decide (rs_method s = ForwardSemiAsync).

Definition move_msg (s : RSlot) (r : Request) (hkey : bytes) (w : Fwd) : list Resp :=
  if semi s then [bulk (bstr "SLOTSMGRT-EXEC-WRAPPER"); bulk hkey] ++ rq_Multi r
  else let hp := host_port (ro_store (fw_router w)) (rs_backend_bc s) in
       [bulk (bstr "SLOTSMGRTTAGONE"); bulk hp.1; bulk hp.2; bulk (bstr "3000"); bulk hkey].

(** the source said that the keys with the hash tag are on the slot's server now *)
Definition says_moved (s : RSlot) (resp : Resp) : Prop :=
  if semi s then wrapper_reply resp = Ok Moved else IsInt resp = true.

(** the last message asked the source to move the keys, and its answer was that it did *)
Definition moved (s : RSlot) (r : Request) (hkey : bytes) (w : Fwd) (pre : list (BackendConn * list Resp)) : Prop :=
  if must_move s hkey then
    ∃ pre' bc resp, pre = pre' ++ [(bc, move_msg s r hkey w)] ∧
      answer (length (fw_sent w) + length pre') = (None, Some resp) ∧ says_moved s resp
  else pre = [].

Lemma source_or_invalid s r hkey w : must_move s hkey = true →
  ¬ (db_ok r ∧ slot_valid w s) ∨ db_ok r ∧ in_store w (rs_migrate_bc s) ∧ is_Some (rs_migrate_bc s).
Proof.
  intros Hm. destruct (decide (db_ok r)) as [Hdb|]; [|left; tauto]. unfold slot_valid, in_store, must_move in *.
  destruct (rs_migrate_bc s) as [q|]; [|done].
  destruct (ro_store (fw_router w) !! q) as [c|] eqn:Hq; [|left; by intros (_ & _ & (? & [=] & _) & _)].
  destruct (co_open c) eqn:Hop; [right; eauto 10|]. left. intros (_ & _ & (? & [= <-] & ?) & _). congruence.
Qed.

Lemma slotsmgrt_wp s r hkey w : semi s = false → must_move s hkey = true →
  wp (slotsmgrt cfg s hkey (rq_Database r) (Seed16 r)) (λ o w',
    match o with
    | Ok _ => ∃ pre, asked s r w pre w' ∧ moved s r hkey w pre
    | Err _ => ∃ pre, asked s r w pre w'
    | Panic => ¬ (db_ok r ∧ slot_valid w s)
    end) w.
Proof.
  intros Hs Hm. unfold slotsmgrt. wp_steps. destruct (host_port _ _) as [host port] eqn:Hhp.
  apply (ask_source_wp s r); [by apply (source_or_invalid s r hkey)|].
  intros bc w' Ha. destruct (answer (length (fw_sent w))) as [[e|] [resp|]] eqn:Hans; cbn; eauto.
  intros _. destruct (IsError resp); [apply wp_fail; eauto|]. destruct (IsInt resp) eqn:Hi; [|apply wp_fail; eauto].
  wp_steps. eexists. split; [done|]. unfold moved. rewrite Hm. exists [], bc, resp.
  unfold move_msg, says_moved. rewrite Hs, Hhp. cbn. by rewrite Nat.add_0_r.
Qed.

Lemma dry_run_wp s r hkey i w : must_move s hkey = true →
  wp (aclDryRunOnBackend cfg (rs_migrate_bc s) (rq_Database r) (Seed16 r) (ai_Username i) (rq_Multi r)) (λ o w',
    match o with Panic => ¬ (db_ok r ∧ slot_valid w s) | _ => ∃ pre, asked s r w pre w' end) w.
Proof.
  intros Hm. unfold aclDryRunOnBackend. destruct (rs_migrate_bc s) as [q|] eqn:Hq.
  2: { unfold must_move in Hm. by rewrite Hq in Hm. }
  rewrite <- Hq. apply (ask_source_wp s r); [by apply (source_or_invalid s r hkey)|].
  intros bc w' Ha. destruct (answer (length (fw_sent w))) as [[e|] [resp|]] eqn:Hans; cbn; eauto.
  intros _. destruct (IsError resp); [wp_steps; eauto|].
  destruct (IsString resp) eqn:Hi; [wp_steps; eauto|apply wp_fail; eauto].
Qed.

Lemma exec_wrapper_wp s r hkey w : semi s = true → must_move s hkey = true →
  wp (slotsmgrtExecWrapper cfg s hkey (rq_Database r) (Seed16 r) (rq_Multi r) (rq_ACLIdentity r)) (λ o w',
    match o with
    | Ok Moved => ∃ pre, asked s r w pre w' ∧ moved s r hkey w pre
    | Panic => ¬ (db_ok r ∧ slot_valid w s)
    | _ => ∃ pre, asked s r w pre w'
    end) w.
Proof.
  intros Hs Hm. unfold slotsmgrtExecWrapper. apply wp_bind.
  eapply wp_mono with (Q := λ o w',
    match o with Panic => ¬ (db_ok r ∧ slot_valid w s) | _ => ∃ pre, asked s r w pre w' end).
  { destruct (rq_ACLIdentity r) as [i|]; [by apply (dry_run_wp s r hkey)|]. wp_steps. exists []. by apply asked_nil. }
  intros o w1 Ho. destruct o as [[refused|]|e|]; [wp_steps; done| |done|done]. destruct Ho as (pre & Ha).
  assert (Hr : fw_router w1 = fw_router w) by apply Ha.
  apply (ask_source_wp s r).
  { destruct (source_or_invalid s r hkey w1 Hm) as [Hv|?]; [left|by right].
    intros [? Hv']. apply Hv. split; [done|]. by eapply slot_valid_router. }
  intros bc w' Ha'. pose proof (asked_app s r _ _ _ _ _ Ha Ha') as Happ.
  destruct (answer (length (fw_sent w1))) as [[e|] [resp|]] eqn:Hans; cbn; eauto.
  intros _. wp_steps. destruct (wrapper_reply resp) as [[]|e|] eqn:Hw; eauto.
  - eexists. split; [done|]. unfold moved. rewrite Hm. exists pre, bc, resp.
    unfold move_msg, says_moved. rewrite Hs. split; [done|]. split; [|done].
    destruct Ha as (_ & _ & _ & Hsent & _). by rewrite Hsent, length_app in Hans.
  - exfalso. revert Hw. unfold wrapper_reply. repeat case_match; by try done.
Qed.

(** * Forward *)
Definition at_sent (w : Fwd) (pre : list (BackendConn * list Resp)) : Fwd := set_sent (fw_sent w ++ pre) w.

(** what happened when a request was handed to [bc] *)
Definition pushed_to (s : RSlot) (r : Request) (hkey : bytes) (w : Fwd) (bc : BackendConn) (w' : Fwd) : Prop :=
  ∃ pre, fw_sent w' = fw_sent w ++ pre ++ [(bc, rq_Multi r)] ∧
    Forall (source_entry s r w) pre ∧ moved s r hkey w pre ∧ target_ok s r (at_sent w pre) bc ∧
    fw_refs w' = alter (λ n, n + 1) (Z.to_nat (rs_id s)) (fw_refs w) ∧
    fw_router w' = fw_router w ∧ fw_acl w' = fw_acl w.

(** the outcomes of a forwarding method *)
Definition forward_post (s : RSlot) (r : Request) (hkey : bytes) (w : Fwd)
    (o : outcome reqerr (option forwarded)) (w' : Fwd) : Prop :=
  match o with
  | Ok (Some (Pushed bc)) => pushed_to s r hkey w bc w'
  | Panic => ¬ (db_ok r ∧ slot_valid w s)
  | _ => ∃ pre, asked s r w pre w'
  end.

(** [w'] after the source was asked, with the request in the slot's group *)
Definition entered (s : RSlot) (r : Request) (hkey : bytes) (w : Fwd) (bc : BackendConn) (w' : Fwd) : Prop :=
  ∃ pre w1, asked s r w pre w1 ∧ moved s r hkey w pre ∧ target_ok s r w1 bc ∧ (slot_valid w s → conn_open bc w1 = true) ∧
    w' = set_refs (alter (λ n, n + 1) (Z.to_nat (rs_id s)) (fw_refs w1)) w1.

Lemma enter_group_wp s r hkey w pre w1 : asked s r w pre w1 → moved s r hkey w pre →
  wp (enter_group cfg s r) (λ o w',
    match o with
    | Ok bc => entered s r hkey w bc w'
    | Err _ => asked s r w pre w'
    | Panic => ¬ (db_ok r ∧ slot_valid w s)
    end) w1.
Proof.
  intros Ha Hm. unfold enter_group. apply wp_bind. eapply wp_mono; [apply forward2_wp|].
  intros o w2 [Hf Ho]. destruct o as [[bc|]|e|]; [| |done|].
  - unfold group_add. wp_steps. exists pre, w2. split; [by eapply asked_frame|]. split; [done|]. destruct Ho as [Ho Hop]. split; [|split; [|done]].
    + destruct Hf as (Hr & _ & _ & Hs). revert Ho. unfold target_ok, replica_target. by rewrite Hr, Hs.
    + intros Hv. apply Hop. eapply slot_valid_router; [|done]. apply Ha.
  - apply wp_fail. by eapply asked_frame.
  - intros [? Hv]. apply Ho. split; [done|]. eapply slot_valid_router; [|done]. apply Ha.
Qed.

Lemma push_entered {A} s r hkey w bc w' (a : A) (Q : outcome reqerr A → Fwd → Prop) : entered s r hkey w bc w' →
  (Q (Ok a) (set_sent (fw_sent w' ++ [(bc, rq_Multi r)]) w')) → (¬ (db_ok r ∧ slot_valid w s) → Q Panic w') →
  wp (PushBack bc (rq_Multi r) ;; mret a) Q w'.
Proof.
  intros (pre & w1 & _ & _ & _ & Hop & ->) H1 H2. apply wp_bind, PushBack_wp; intros Hc; [by apply wp_ret|].
  apply H2. intros [_ Hv]. specialize (Hop Hv). unfold conn_open in Hc, Hop. cbn in Hc. destruct (bc_owner bc) as [p|[]]; cbn in *; congruence.
Qed.

Lemma entered_pushed s r hkey w bc w' :
  entered s r hkey w bc w' → pushed_to s r hkey w bc (set_sent (fw_sent w' ++ [(bc, rq_Multi r)]) w').
Proof.
  intros (pre & w1 & (Hr & Hacl & Hrefs & Hs & Hpre) & Hm & Ht & _ & ->). exists pre. cbn.
  rewrite Hs, <- app_assoc, Hrefs. repeat split; try done; try apply Ht.
  revert Ht. unfold target_ok, replica_target, at_sent. cbn. rewrite Hr, Hs. tauto.
Qed.

Lemma forward_sync_wp s r hkey w : semi s = false →
  wp (f ← forward_sync cfg s r hkey; mret (Some f)) (forward_post s r hkey w) w.
Proof.
  intros Hs. unfold forward_sync, process_sync. do 2 apply wp_bind. destruct (rs_backend_bc s) eqn:Hb.
  2: { apply wp_fail. exists []. by apply asked_nil. }
  apply wp_bind. eapply wp_mono with (Q := λ o w',
    match o with
    | Ok _ => ∃ pre, asked s r w pre w' ∧ moved s r hkey w pre
    | Err _ => ∃ pre, asked s r w pre w'
    | Panic => ¬ (db_ok r ∧ slot_valid w s)
    end).
  { destruct (must_move s hkey) eqn:Hm; [by apply slotsmgrt_wp|]. wp_steps. exists [].
    split; [by apply asked_nil|]. unfold moved. by rewrite Hm. }
  intros o w1 Ho. destruct o as [[]|e|]; [|done|done]. destruct Ho as (pre & Ha & Hm).
  eapply wp_mono; [by apply (enter_group_wp s r hkey w pre)|]. intros o w2 Ho.
  destruct o as [bc|e|]; [|by eexists|done]. apply (push_entered s r hkey w); [done| |done]. wp_steps. by apply entered_pushed.
Qed.

Lemma process_semi_wp s r hkey w : semi s = true →
  wp (process_semi cfg s r hkey) (λ o w',
    match o with
    | Ok (Some (inl bc)) => entered s r hkey w bc w'
    | Panic => ¬ (db_ok r ∧ slot_valid w s)
    | _ => ∃ pre, asked s r w pre w'
    end ∧ (o = Ok None → must_move s hkey = true)) w.
Proof.
  intros Hs. unfold process_semi. destruct (rs_backend_bc s) eqn:Hb.
  2: { apply wp_fail. split; [|done]. exists []. by apply asked_nil. }
  apply wp_bind. destruct (must_move s hkey) eqn:Hmm.
  - eapply wp_mono; [by apply (exec_wrapper_wp s r hkey)|]. intros o w1 Ho.
    destruct o as [[]|e|]; [|by wp_steps|by wp_steps|done..]. destruct Ho as (pre & Ha & Hm).
    apply wp_bind. eapply wp_mono; [by apply (enter_group_wp s r hkey w pre)|]. intros o w2 Ho.
    destruct o as [bc|e|]; [by wp_steps|split; [by eexists|done]|done].
  - wp_steps. eapply wp_mono; [apply (enter_group_wp s r hkey w [] w)|].
    + by apply asked_nil.
    + unfold moved. by rewrite Hmm.
    + intros o w2 Ho. destruct o as [bc|e|]; [by wp_steps|split; [by eexists|done]|done].
Qed.

(** one more round before *)
Lemma pushed_to_after s r hkey w pre w1 bc w' : must_move s hkey = true →
  asked s r w pre w1 → pushed_to s r hkey w1 bc w' → pushed_to s r hkey w bc w'.
Proof.
  intros Hmm (Hr & Hacl & Hrefs & Hs & Hpre) (pre2 & Hs2 & Hpre2 & Hm & Ht & Hrefs2 & Hr2 & Hacl2).
  exists (pre ++ pre2). rewrite Hs2, Hs, !app_assoc. repeat split; try congruence; try apply Ht.
  - apply Forall_app. split; [done|]. eapply Forall_impl; [done|]. unfold source_entry. by rewrite Hr.
  - unfold moved in *. rewrite Hmm in *. destruct Hm as (pre' & c & resp & -> & Hans & Hsay).
    exists (pre ++ pre'), c, resp. rewrite app_assoc. unfold move_msg in *. rewrite Hr. split; [done|]. split; [|done].
    rewrite <- Hans, Hs, !length_app. f_equal. lia.
  - revert Ht. unfold target_ok, replica_target, at_sent. cbn. rewrite Hr, Hs, !app_assoc. tauto.
Qed.

Lemma forward_semi_wp fuel : ∀ loop id s r hkey w,
  ro_slots (fw_router w) !! id = Some s → semi s = true →
  wp (forward_semi cfg fuel loop id r hkey) (forward_post s r hkey w) w.
Proof.
  induction fuel as [|fuel IH]; intros loop id s r hkey w Hid Hs; cbn [forward_semi].
  { wp_steps. exists []. by apply asked_nil. }
  wp_steps. rewrite Hid. apply wp_bind. eapply wp_mono; [by apply process_semi_wp|]. intros o w1 [Ho Hretry].
  destruct o as [[[bc|resp]|]|e|]; [..|done|done].
  - apply (push_entered s r hkey w); [done| |done]. by apply entered_pushed.
  - wp_steps. done.
  - destruct Ho as (pre & Ha). destruct (broken loop); [apply wp_fail; by eexists|].
    assert (fw_router w1 = fw_router w) as Hr by apply Ha.
    eapply wp_mono; [apply (IH _ _ s); [by rewrite Hr|done]|]. intros o w2 Hpost.
    destruct o as [[[bc|resp]|]|e|]; cbn in Hpost |- *.
    + by eapply pushed_to_after; [apply Hretry| |].
    + destruct Hpost as (pre2 & Ha2). eexists. by eapply asked_app.
    + destruct Hpost as (pre2 & Ha2). eexists. by eapply asked_app.
    + destruct Hpost as (pre2 & Ha2). eexists. by eapply asked_app.
    + intros [? ?]. apply Hpost. split; [done|]. by eapply slot_valid_router.
Qed.

Lemma forward_wp fuel id s r hkey w :
  ro_slots (fw_router w) !! id = Some s →
  wp (forward cfg fuel id r hkey) (forward_post s r hkey w) w.
Proof.
  intros Hid. unfold forward. wp_steps. rewrite Hid. case_decide as Hm.
  - apply forward_semi_wp; [done|]. by apply bool_decide_eq_true.
  - apply forward_sync_wp. by apply bool_decide_eq_false.
Qed.

(** the loop ends when the client is gone *)
Lemma forward_semi_ends k : ∀ fuel loop id r hkey w, (k < fuel)%nat → broken (loop + k) = true →
  (forward_semi cfg fuel loop id r hkey w).1 ≠ Ok None.
Proof.
  induction k as [|k IH]; intros fuel loop id r hkey w Hk Hb; (destruct fuel as [|fuel]; [lia|]);
    cbn [forward_semi]; unfold mbind, M_bind, gets;
    (destruct (ro_slots (fw_router w) !! id) as [s|]; [|done]);
    destruct (process_semi cfg s r hkey w) as [[[[bc|resp]|]|e|] w1]; try done; try (unfold PushBack; by destruct (conn_open bc w1)).
  - rewrite Nat.add_0_r in Hb. by rewrite Hb.
  - destruct (broken loop); [done|]. apply IH; [lia|]. by rewrite Nat.add_succ_comm.
Qed.

(** the slots of a reachable routing table point to objects that exist *)
Lemma reach_slot_valid w id s :
  reach_router (fw_router w) → ro_slots (fw_router w) !! id = Some s → slot_valid w s.
Proof.
  intros (_ & _ & [[Hcnt Hin] _])%reach_router_inv Hid.
  assert (∀ q, q ∈ refs_of s → ∃ c, ro_store (fw_router w) !! q = Some c ∧ co_open c = true) as Hs.
  { intros q Hq. assert (q ∈ all_refs (ro_slots (fw_router w))) as Hall; [|destruct (Hin q Hall) as [c Hc]; exists c; split; [done|by apply (Hcnt q c Hc)]]. unfold all_refs. apply list_elem_of_In, in_concat. exists (refs_of s).
    split; [apply in_map, list_elem_of_In; by eapply list_elem_of_lookup_2|by apply list_elem_of_In]. }
  unfold refs_of in Hs. unfold slot_valid, in_store. split; [|split].
  - destruct (rs_backend_bc s) as [q|]; [|done]. apply Hs. by left.
  - destruct (rs_migrate_bc s) as [q|]; [|done]. apply Hs. apply elem_of_app. right. by left.
  - apply Forall_forall. intros g Hg. apply Forall_forall. intros [q|] Hq; [|done].
    apply Hs. rewrite !elem_of_app. right. right. unfold replica_refs.
    apply list_elem_of_omap. exists (Some q). split; [|done].
    apply list_elem_of_In, in_concat. exists g. by rewrite <- !list_elem_of_In.
Qed.

(** * Other requests between the choice and the push *)
Definition keeps_open {A} (m : FM A) : Prop := ∀ bc w, conn_open bc w = true → conn_open bc (m w).2 = true.

Lemma keeps_bind {A B} (m : FM A) (k : A → FM B) : keeps_open m → (∀ a, keeps_open (k a)) → keeps_open (m ≫= k).
Proof.
  intros Hm Hk bc w Hw. specialize (Hm bc w Hw). unfold mbind, M_bind. destruct (m w) as [[a|e|] w1]; [|done..]. by apply Hk.
Qed.
Lemma keeps_pure {A} (m : FM A) : (∀ w, (m w).2 = w) → keeps_open m.
Proof. intros Hm bc w. by rewrite Hm. Qed.
Lemma keeps_push bc multi : keeps_open (PushBack bc multi).
Proof. intros bc' w Hw. unfold PushBack. destruct (conn_open bc w); [|done]. unfold conn_open in *. by destruct (bc_owner bc') as [p|[]]. Qed.
Lemma keeps_user_pool replica i : keeps_open (userBackendPool cfg replica i).
Proof.
  intros bc w Hw. unfold userBackendPool. destruct (aclIdentityCurrent _ _ _); [|done].
  destruct (user_pools replica w !! _) as [pool|] eqn:Hp; [done|]. unfold conn_open in *. destruct (bc_owner bc) as [p|rep key]; [by destruct replica|].
  destruct (decide (rep = replica ∧ key = userBackendKey (Some i))) as [[-> ->]|Hne]; [by rewrite Hp in Hw|].
  destruct replica, rep; cbn [snd set_user_pools user_pools fw_userPrimary fw_userReplica] in *; try done; rewrite lookup_insert_ne; (done || by intros <-; apply Hne).
Qed.
Lemma keeps_get_or_create replica key addr : keeps_open (GetOrCreate replica key addr).
Proof.
  intros bc w Hw. unfold GetOrCreate, modify, conn_open in *. destruct (bc_owner bc) as [p|rep key']; [by destruct replica|].
  destruct replica, rep; cbn [snd set_user_pools user_pools fw_userPrimary fw_userReplica] in *; try done;
    (destruct (decide (key = key')) as [->|]; [rewrite lookup_alter_eq|by rewrite lookup_alter_ne]);
    destruct (_ !! key') as [pool|]; try done; cbn; apply bool_decide_eq_true in Hw; apply bool_decide_eq_true; set_solver.
Qed.
Lemma keeps_group s : keeps_open (group_add s).
Proof. intros bc w. unfold group_add, modify, conn_open. by destruct (bc_owner bc) as [p|[]]. Qed.
Lemma keeps_pick owner addr parallel database seed must : keeps_open (pick_conn cfg owner addr parallel database seed must).
Proof. apply keeps_pure. intros w. unfold pick_conn, mbind, M_bind, gets. repeat case_match; simplify_eq; try done; cbn; by repeat case_match. Qed.

Ltac keep :=
  repeat first
    [ solve [auto 2] | apply keeps_push | apply keeps_user_pool | apply keeps_get_or_create | apply keeps_group | apply keeps_pick | apply keeps_bind; [|intros ?]
    | (apply keeps_pure; by intros ?) | case_match ].

Lemma keeps_forward fuel id r hkey : keeps_open (forward cfg fuel id r hkey).
Proof.
  assert (∀ n i g, keeps_open (try_group cfg n i g r)) as Hg.
  { induction n as [|n IH]; intros i g; cbn [try_group]; [by apply keeps_pure|]. unfold userBackendConn, backendConn. keep. }
  assert (∀ gs, keeps_open (try_groups cfg gs r)) as Hgs.
  { induction gs as [|g gs IH]; cbn [try_groups]; [by apply keeps_pure|]. apply keeps_bind; [apply Hg|]. intros [bc|]; [by apply keeps_pure|done]. }
  assert (∀ s, keeps_open (enter_group cfg s r)) as He.
  { intros s. unfold enter_group, forward2, userBackendConn, backendConn. keep. }
  assert (∀ s, keeps_open (process_semi cfg s r hkey)) as Hp.
  { intros s. unfold process_semi, slotsmgrtExecWrapper, aclDryRunOnBackend, backendConn, ask. keep. }
  unfold forward. apply keeps_bind; [by apply keeps_pure|]. intros [s|]; [|by apply keeps_pure]. case_decide.
  - generalize 0%nat. induction fuel as [|fuel IH]; intros loop; cbn [forward_semi]; [by apply keeps_pure|]. keep.
  - unfold forward_sync, process_sync, slotsmgrt, backendConn, ask. keep.
Qed.

(** a connection that was chosen stays open while other requests are forwarded *)
Lemma push_later bc others : ∀ w, conn_open bc w = true →
  conn_open bc (foldl (λ w '(fuel, id, r, hkey), (forward cfg fuel id r hkey w).2) w others) = true.
Proof. induction others as [|[[[fuel id] r] hkey] others IH]; intros w Hw; cbn; [done|]. by apply IH, keeps_forward. Qed.

(** C15: forwarding a request to a slot of a reachable routing table, with no update of the
    ACL between the choice of the connection and the push, never panics: no message goes to
    a connection that is closed.  And
    if the request is handed to a connection: it is in the request's database, belongs to
    the request's own ACL user (or to the proxy when there is none), and leads to the
    slot's server, or to one of its replicas when that is up, the command may run on a
    replica and no migration is going on.  When the slot is migrating and the request has
    a key, the last message before it asked the source to move the key, and the source
    said that it did.  In all other cases nothing was sent but messages to the source. *)
Theorem forward_correct (fuel id : nat) (s : RSlot) (r : Request) (hkey : bytes) (w w' : Fwd)
    (o : outcome reqerr (option forwarded)) :
  reach_router (fw_router w) → ro_slots (fw_router w) !! id = Some s →
  0 <= rq_Database r < cf_BackendNumberDatabases cfg →
  forward cfg fuel id r hkey w = (o, w') →
  match o with
  | Ok (Some (Pushed bc)) => pushed_to s r hkey w bc w'
  | Panic => False
  | _ => ∃ pre, asked s r w pre w'
  end.
Proof.
  intros Hr Hid Hdb Ho. pose proof (forward_wp fuel id s r hkey w Hid) as Hwp.
  unfold wp in Hwp. rewrite Ho in Hwp. destruct o as [[[bc|resp]|]|e|]; try done.
  apply Hwp. split; [done|]. by eapply reach_slot_valid.
Qed.

(** the retry loop of semi-asynchronous forwarding ends: if the client's connection
    is broken before the k-th retry, the request is settled (handed on, answered, or
    failed) in at most k+1 rounds, whatever the source of the migration answers. *)
Theorem forward_ends (k fuel id : nat) (r : Request) (hkey : bytes) (w : Fwd) :
  (k < fuel)%nat → broken k = true → (forward cfg fuel id r hkey w).1 ≠ Ok None.
Proof.
  intros Hk Hb. unfold forward, mbind, M_bind, gets. destruct (ro_slots (fw_router w) !! id) as [s|]; [|done].
  case_decide.
  - by apply (forward_semi_ends k fuel 0).
  - by destruct (forward_sync cfg s r hkey w) as [[f|e|] w1].
Qed.

End forward.

(** * A concrete run: slot 3 migrates from b:1 to a:1; the source is still moving the key
    at the first try and has moved it at the second *)
#[local] Instance demo_net : Net := {|
  up := λ _ _, true;
  answer := λ n, (None, Some (NewArray (Some [NewInt (Some (if decide (n = 0%nat) then bstr "1" else bstr "0"));
                                              bulk (bstr "")])));
  broken := λ n, bool_decide (n = 5%nat);
|}.
Definition demo_cfg : Config := mkConfig 16 1 1 false [].
Definition demo_fwd : Fwd := mkFwd demo_router None ∅ ∅ ((λ _, 0) <$> slot_ids) [].
Definition demo_get : Request := mkRequest [bulk (bstr "GET"); bulk (bstr "k")] (bstr "GET") 0 2 12345 None 4096.

Definition pushed_conn (o : outcome reqerr (option forwarded)) : option BackendConn :=
  match o with Ok (Some (Pushed bc)) => Some bc | _ => None end.

Lemma forward_correct_witness : ∃ s bc,
  ro_slots demo_router !! 3%nat = Some s ∧
  pushed_conn (forward demo_cfg 8 3 demo_get (bstr "k") demo_fwd).1 = Some bc ∧
  length (fw_sent (forward demo_cfg 8 3 demo_get (bstr "k") demo_fwd).2) = 3%nat ∧
  pushed_to s demo_get (bstr "k") demo_fwd bc (forward demo_cfg 8 3 demo_get (bstr "k") demo_fwd).2.
Proof.
  destruct (ro_slots demo_router !! 3%nat) as [s|] eqn:Hs; [|vm_compute in Hs; discriminate].
  destruct (forward demo_cfg 8 3 demo_get (bstr "k") demo_fwd) as [o w'] eqn:Ho.
  pose proof (forward_correct demo_cfg 8 3 s demo_get (bstr "k") demo_fwd w' o
    ltac:(apply reach_rop, reach_new) Hs ltac:(cbn; lia) Ho) as Hpost.
  assert (Hpc : match pushed_conn (forward demo_cfg 8 3 demo_get (bstr "k") demo_fwd).1 with
                | Some _ => true | None => false end = true) by (vm_compute; reflexivity).
  assert (Hlen : length (fw_sent (forward demo_cfg 8 3 demo_get (bstr "k") demo_fwd).2) = 3%nat)
    by (vm_compute; reflexivity).
  rewrite Ho in Hpc, Hlen. cbn [fst snd] in *.
  destruct o as [[[bc|resp]|]|e|]; try discriminate Hpc.
  exists s, bc. auto.
Defined.

Lemma forward_ends_witness : (forward demo_cfg 8 3 demo_get (bstr "k") demo_fwd).1 ≠ Ok None.
Proof. apply (forward_ends demo_cfg 5); [lia|reflexivity]. Defined.

(** The push comes after the lock of the slot is released.  For the connection of a user
    nothing keeps the pool open until then: an update of the ACL in between closes it, and
    the push panics; without the update it does not. *)
Definition acl_cfg : Config := mkConfig 16 1 1 true [].
Definition acl_fwd : Fwd := (SetACL (Some (mkACL 1 true [] "")) demo_fwd).2.
Definition acl_get : Request :=
  mkRequest [bulk (bstr "GET"); bulk (bstr "k")] (bstr "GET") 0 2 12345 (Some (mkIdentity (bstr "ali") "" [] 1 false None)) 4096.
Definition push_after (gap : Fwd → Fwd) : option bool :=
  match ro_slots (fw_router acl_fwd) !! 3%nat with
  | Some s =>
      let '(o, w) := process_sync acl_cfg (mkRSlot 3 false false 1 (rs_backend_bc s) 0 None [] ForwardSync) acl_get [] acl_fwd in
      match o with
      | Ok bc => Some match (PushBack bc (rq_Multi acl_get) (gap w)).1 with Panic => true | _ => false end
      | _ => None
      end
  | None => None
  end.
Example push_after_SetACL : push_after id = Some false ∧ push_after (λ w, (SetACL (Some (mkACL 2 true [] "")) w).2) = Some true.
Proof. by vm_compute. Qed.
