(* ===== verification/Session.v ===== *)
(** Requests of a client session: pkg/proxy/session.go.

    A handler either answers the request itself, passes it on to the router, or splits it
    into sub-requests whose replies [Coalesce] puts together; the three are the
    constructors of [plan].  The reply of a sub-request is the pair of its [Err] and
    [Resp] fields when the batch is done; [sub_resp] is the check every [Coalesce] starts
    a round with. *)

From S2P Require Import Prelude Bufio Resp Mapper Models Router Stream Forward.
Inductive plan :=
| Answer (resp : Resp)
| Dispatch (multi : list Resp)
| DispatchSlot (multi : list Resp) (id : Z)
| DispatchAddr (multi : list Resp) (addr : bytes)
| Split (sub : list (list Resp)) (coalesce : list subreply → outcome reqerr (option Resp)).

Definition RespOK : Resp := NewString (Some (bstr "OK")).

Definition wrong_number (cmd : string) : plan :=
  Answer (NewErrorf (bstr "ERR wrong number of arguments for '" ++ bstr cmd ++ bstr "' command")).

(** * Splitting by key *)

(** [sub[i].Multi = {r.Multi[0], r.Multi[i+1]}] *)
Definition sub_by_key (m0 : Resp) (args : list Resp) : list (list Resp) := (λ a, [m0; a]) <$> args.

(** [sub[i].Multi = {r.Multi[0], r.Multi[i*2+1], r.Multi[i*2+2]}] *)
Fixpoint sub_by_pair (m0 : Resp) (args : list Resp) : list (list Resp) :=
  match args with
  | k :: v :: args => [m0; k; v] :: sub_by_pair m0 args
  | _ => []
  end.

Definition value_len (r : Resp) : nat := length (val (Value r)).
Definition array_len (r : Resp) : nat := length (default [] (Array r)).

(** ** MGET *)
Fixpoint mget_array (sub : list subreply) : outcome reqerr (list Resp) :=
  match sub with
  | [] => Ok []
  | s :: sub =>
      resp ← sub_resp s;
      match Array resp with
      | Some [x] =>
          if IsArray resp then array ← mget_array sub; Ok (x :: array)
          else Err (ErrBadReply "mget" (Type_ resp) (array_len resp))
      | _ => Err (ErrBadReply "mget" (Type_ resp) (array_len resp))
      end
  end.

Definition coalesce_mget (sub : list subreply) : outcome reqerr (option Resp) :=
  array ← mget_array sub; Ok (Some (NewArray (Some array))).

Definition handleRequestMGet (multi : list Resp) : plan :=
  match multi with
  | [] | [_] => wrong_number "MGET"
  | [_; _] => Dispatch multi
  | m0 :: args => Split (sub_by_key m0 args) coalesce_mget
  end.

(** ** MSET: the reply is that of the last sub-request *)
Fixpoint coalesce_mset_from (resp : option Resp) (sub : list subreply) : outcome reqerr (option Resp) :=
  match sub with
  | [] => Ok resp
  | s :: sub =>
      r ← sub_resp s;
      if IsString r then coalesce_mset_from (Some r) sub
      else Err (ErrBadReply "mset" (Type_ r) (value_len r))
  end.

Definition coalesce_mset (sub : list subreply) : outcome reqerr (option Resp) := coalesce_mset_from None sub.

Definition handleRequestMSet (multi : list Resp) : plan :=
  let nblks := (length multi - 1)%nat in
  if decide (nblks = 0%nat ∨ (nblks mod 2 ≠ 0)%nat) then wrong_number "MSET"
  else if decide (nblks = 2%nat) then Dispatch multi
  else match multi with
       | m0 :: args => Split (sub_by_pair m0 args) coalesce_mset
       | [] => wrong_number "MSET"
       end.

(** ** DEL and EXISTS: the reply is a count *)

(** [for i := range sub]: [add c] is what a reply with the one digit [c] adds to [n] *)
Fixpoint count_replies (cmd : string) (add : byte → Z) (n : Z) (sub : list subreply) : outcome reqerr Z :=
  match sub with
  | [] => Ok n
  | s :: sub =>
      r ← sub_resp s;
      match Value r with
      | Some [c] =>
          if IsInt r then count_replies cmd add (n + add c) sub
          else Err (ErrBadReply cmd (Type_ r) (value_len r))
      | _ => Err (ErrBadReply cmd (Type_ r) (value_len r))
      end
  end.

Definition coalesce_count (cmd : string) (add : byte → Z) (sub : list subreply) : outcome reqerr (option Resp) :=
  n ← count_replies cmd add 0 sub; Ok (Some (NewInt (Some (FormatInt n)))).

(** [n += int(resp.Value[0] - '0')], a subtraction of bytes *)
Definition add_digit (c : byte) : Z := (byte_val c - 48) mod 256.
(** [if resp.Value[0] != '0' { n++ }] *)
Definition add_nonzero (c : byte) : Z := if decide (c = x30) then 0 else 1.

Definition handleRequestDel (multi : list Resp) : plan :=
  match multi with
  | [] | [_] => wrong_number "DEL"
  | [_; _] => Dispatch multi
  | m0 :: args => Split (sub_by_key m0 args) (coalesce_count "del" add_digit)
  end.

Definition handleRequestExists (multi : list Resp) : plan :=
  match multi with
  | [] | [_] => wrong_number "EXISTS"
  | [_; _] => Dispatch multi
  | m0 :: args => Split (sub_by_key m0 args) (coalesce_count "exists" add_nonzero)
  end.

(** * Requests to a server or a slot *)

(** [nanos] is [time.Now().Nanosecond()] *)
Definition handleRequestPing (nanos : Z) (multi : list Resp) : plan :=
  match multi with
  | m0 :: a :: rest => DispatchAddr (m0 :: rest) (val (Value a))
  | _ => DispatchSlot multi ((nanos mod 2 ^ 32) mod MaxSlotNum)
  end.

Definition handleRequestInfo (nanos : Z) (multi : list Resp) : plan :=
  match multi with
  | m0 :: a :: rest => DispatchAddr (m0 :: rest) (val (Value a))
  | _ => DispatchSlot multi ((nanos mod 2 ^ 32) mod MaxSlotNum)
  end.

Definition handleRequestSlotsInfo (multi : list Resp) : plan :=
  match multi with
  | [m0; a] => DispatchAddr [m0] (val (Value a))
  | _ => wrong_number "SLOTSINFO"
  end.

(** ["ERR parse slotnum '%s' failed, ..."] *)
Definition bad_slotnum (v : bytes) (why : string) : Resp :=
  NewErrorf (bstr "ERR parse slotnum '" ++ v ++ bstr "' failed, " ++ bstr why).

(** the slot number in the second argument, or the error reply; [parse_error] is the text of
    the parser's error *)
Definition parse_slotnum (parse_error : string) (v : bytes) : Resp + Z :=
  match Btoi64 v with
  | Ok slot =>
      if decide (slot < 0 ∨ MaxSlotNum <= slot) then inl (bad_slotnum v "out of range") else inr slot
  | _ => inl (bad_slotnum v parse_error)
  end.

Definition handleRequestSlotsScan (parse_error : string) (multi : list Resp) : plan :=
  match multi with
  | _ :: a :: _ :: _ =>
      match parse_slotnum parse_error (val (Value a)) with
      | inl e => Answer e
      | inr slot => DispatchSlot multi slot
      end
  | _ => wrong_number "SLOTSSCAN"
  end.

(** a slice grown by [append] is nil when nothing was appended *)
Definition appended {A} (l : list A) : option (list A) := match l with [] => None | _ => Some l end.

Definition marshalToResp (m : option Slot) : Resp :=
  match m with
  | None => NewArray None
  | Some m =>
      let group (g : list string) := NewArray (appended ((λ a, NewString (Some (bstr a))) <$> g)) in
      NewArray (Some [
        NewString (Some (FormatInt (slot_Id m)));
        NewString (Some (bstr (slot_BackendAddr m)));
        NewString (Some (bstr (slot_MigrateFrom m)));
        NewArray (appended (group <$> slot_ReplicaGroups m))])
  end.

Definition handleRequestSlotsMapping (parse_error : string) (d : Router) (multi : list Resp) : plan :=
  match multi with
  | _ :: _ :: _ :: _ => wrong_number "SLOTSMAPPING"
  | [_; a] =>
      match parse_slotnum parse_error (val (Value a)) with
      | inl e => Answer e
      | inr slot => Answer (marshalToResp (GetSlot slot d))
      end
  | _ => Answer (NewArray (Some ((λ m, marshalToResp (Some m)) <$> GetSlots d)))
  end.

(** * The session's own state *)

(** [config.BackendNumberDatabases] databases; the session is in one of them *)
Definition handleSelect (databases : Z) (multi : list Resp) (database : Z) : Resp * Z :=
  match multi with
  | [_; a] =>
      match ParseInt (val (Value a)) with
      | Ok db =>
          if decide (db < 0 ∨ databases <= db)
          then (NewErrorf (bstr "ERR invalid DB index, only accept DB [0," ++ FormatInt databases ++ bstr ")"), database)
          else (RespOK, db)
      | _ => (NewErrorf (bstr "ERR invalid DB index"), database)
      end
  | _ => (NewErrorf (bstr "ERR wrong number of arguments for 'SELECT' command"), database)
  end.

(** [handleResponse], the batch done: [resp] and [err] are the request's own fields *)
Definition handleResponse (p : plan) (sub : list subreply) (err : option reqerr) (resp : option Resp)
    : outcome reqerr Resp :=
  match p with
  | Split _ coalesce =>
      r ← coalesce sub;
      match err, r with
      | Some e, _ => Err e
      | None, None => Err ErrRespIsRequired
      | None, Some r => Ok r
      end
  | Answer r => Ok r
  | _ => match err, resp with
         | Some e, _ => Err e
         | None, None => Err ErrRespIsRequired
         | None, Some r => Ok r
         end
  end.

(** Sharding is transparent: the multi-key commands, split over the slots' servers and
    put together again, reply and store what one Redis server holding all keys would.

    The servers are specified by the documented meaning of MGET, MSET, DEL and EXISTS on
    a key-value map; each slot has a map of its own, and a sub-request runs on the map of
    the slot its key hashes to. *)

(** * One Redis server *)
Definition kv := bytes → option bytes.

Definition upd (s : kv) (k : bytes) (v : option bytes) : kv := λ k', if decide (k' = k) then v else s k'.

Inductive mcmd := CMGet | CMSet | CDel | CExists.

Definition key_of (a : Resp) : bytes := val (Value a).

Fixpoint set_pairs (args : list Resp) (s : kv) : kv :=
  match args with
  | k :: v :: args => set_pairs args (upd s (key_of k) (Some (key_of v)))
  | _ => s
  end.

Definition present (s : kv) (k : bytes) : Z := match s k with Some _ => 1 | None => 0 end.

(** deleting a key counts when the key is there *)
Fixpoint del_keys (args : list Resp) (s : kv) : Z * kv :=
  match args with
  | [] => (0, s)
  | k :: args =>
      let '(n, s') := del_keys args (upd s (key_of k) None) in
      (present s (key_of k) + n, s')
  end.

Fixpoint count_keys (args : list Resp) (s : kv) : Z :=
  match args with
  | [] => 0
  | k :: args => present s (key_of k) + count_keys args s
  end.

Definition int_reply (n : Z) : Resp := NewInt (Some (FormatInt n)).

Definition exec (c : mcmd) (args : list Resp) (s : kv) : Resp * kv :=
  match c with
  | CMGet => (NewArray (Some ((λ a, NewBulkBytes (s (key_of a))) <$> args)), s)
  | CMSet => (RespOK, set_pairs args s)
  | CDel => let '(n, s') := del_keys args s in (int_reply n, s')
  | CExists => (int_reply (count_keys args s), s)
  end.

(** * The cluster *)
Definition cluster := Z → kv.

Definition cmd_name (c : mcmd) : bytes :=
  bstr match c with CMGet => "MGET" | CMSet => "MSET" | CDel => "DEL" | CExists => "EXISTS" end.

(** the handler of the command *)
Definition handler (c : mcmd) : list Resp → plan :=
  match c with
  | CMGet => handleRequestMGet
  | CMSet => handleRequestMSet
  | CDel => handleRequestDel
  | CExists => handleRequestExists
  end.

Definition slot_of (k : bytes) : Z := Hash k mod MaxSlotNum.

(** [dispatch]: the request runs on the server of the slot its key hashes to *)
Definition dispatch_at (c : mcmd) (multi : list Resp) (cl : cluster) : Resp * cluster :=
  let slot := slot_of (val (getHashKey multi (cmd_name c))) in
  let '(r, s) := exec c (tail multi) (cl slot) in
  (r, λ i, if decide (i = slot) then s else cl i).

Fixpoint run_subs (c : mcmd) (sub : list (list Resp)) (cl : cluster) : list subreply * cluster :=
  match sub with
  | [] => ([], cl)
  | multi :: sub =>
      let '(r, cl) := dispatch_at c multi cl in
      let '(rs, cl) := run_subs c sub cl in
      ((None, Some r) :: rs, cl)
  end.

(** the sub-requests are sent on connections of their own choice ([Seed16]) and run in any
    [order]; each reply goes to its sub-request *)
Fixpoint run_order (c : mcmd) (sub : list (list Resp)) (order : list nat) (rs : list subreply) (cl : cluster) : list subreply * cluster :=
  match order with
  | [] => (rs, cl)
  | i :: order =>
      let '(r, cl) := dispatch_at c (sub !!! i) cl in
      run_order c sub order (<[i := (None, Some r)]> rs) cl
  end.

Definition run_plan (c : mcmd) (p : plan) (order : list nat) (cl : cluster) : outcome reqerr Resp * cluster :=
  match p with
  | Dispatch multi => let '(r, cl) := dispatch_at c multi cl in (handleResponse p [] None (Some r), cl)
  | Split sub _ => let '(rs, cl) := run_order c sub order (replicate (length sub) (None, None)) cl in (handleResponse p rs None None, cl)
  | _ => (handleResponse p [] None None, cl)
  end.
(** an order in which all of them run *)
Definition runs_all (p : plan) (order : list nat) : Prop :=
  match p with Split sub _ => order ≡ₚ seq 0 (length sub) | _ => True end.

(** all the cluster's keys as one map *)
Definition whole (cl : cluster) : kv := λ k, cl (slot_of k) k.

(** the keys of MSET *)
Fixpoint pairs_of (args : list Resp) : list (Resp * Resp) :=
  match args with k :: v :: args => (k, v) :: pairs_of args | _ => [] end.
Definition set_keys (args : list Resp) : list bytes := (λ p, key_of p.1) <$> pairs_of args.

(** the arguments the command takes; MSET with every key once *)
Definition args_ok (c : mcmd) (args : list Resp) : Prop :=
  args ≠ [] ∧ match c with CMSet => (length args mod 2 = 0)%nat ∧ NoDup (set_keys args) | _ => True end.

Definition same (s1 s2 : kv) : Prop := ∀ k, s1 k = s2 k.

(** * Maps that agree *)
Lemma store_upd_same s1 s2 k v : same s1 s2 → same (upd s1 k v) (upd s2 k v).
Proof. intros Hs k'. unfold upd. by rewrite Hs. Qed.

Lemma set_pairs_same args : ∀ s1 s2, same s1 s2 → same (set_pairs args s1) (set_pairs args s2).
Proof.
  induction args as [args IH] using (induction_ltof1 _ (@length _)). unfold ltof in IH.
  intros s1 s2 Hs. destruct args as [|k [|v args]]; [done..|]. cbn. apply IH; [cbn; lia|]. by apply store_upd_same.
Qed.

Lemma del_keys_same args : ∀ s1 s2, same s1 s2 →
  (del_keys args s1).1 = (del_keys args s2).1 ∧ same (del_keys args s1).2 (del_keys args s2).2.
Proof.
  induction args as [|k args IH]; intros s1 s2 Hs; cbn; [done|].
  destruct (IH (upd s1 (key_of k) None) (upd s2 (key_of k) None)) as [Hn Hs']; [by apply store_upd_same|].
  unfold present. rewrite (Hs (key_of k)). destruct (del_keys args (upd s1 _ _)), (del_keys args (upd s2 _ _)). cbn in *.
  by rewrite Hn.
Qed.

Lemma count_keys_same args s1 s2 : same s1 s2 → count_keys args s1 = count_keys args s2.
Proof. intros Hs. induction args as [|k args IH]; cbn; [done|]. unfold present. by rewrite Hs, IH. Qed.

(** a sub-request changes the whole map as its server's *)
Lemma whole_at cl k v :
  same (whole (λ i, if decide (i = slot_of k) then upd (cl (slot_of k)) k v else cl i)) (upd (whole cl) k v).
Proof.
  intros k'. unfold whole, upd. repeat case_decide; try done; subst; [|done].
  by rewrite H.
Qed.

Lemma whole_id cl slot : same (whole (λ i, if decide (i = slot) then cl slot else cl i)) (whole cl).
Proof. intros k. unfold whole. case_decide as Hs; [by rewrite Hs|done]. Qed.

Lemma getHashKey_second c m0 a rest : val (getHashKey (m0 :: a :: rest) (cmd_name c)) = key_of a.
Proof. unfold getHashKey. rewrite bool_decide_eq_false_2; [done|]. destruct c; by apply (bool_decide_unpack _). Qed.

Lemma present_digit s k :
  ∃ c, FormatInt (present s k) = [c] ∧ add_digit c = present s k ∧ add_nonzero c = present s k.
Proof. unfold present. destruct (s k); [exists x31|exists x30]; done. Qed.

(** * The split commands *)
Lemma dispatch_key c m0 a cl :
  dispatch_at c [m0; a] cl =
  (let '(r, s) := exec c [a] (cl (slot_of (key_of a))) in
   (r, λ i, if decide (i = slot_of (key_of a)) then s else cl i)).
Proof. unfold dispatch_at. by rewrite getHashKey_second. Qed.

Definition mget_reply (s : kv) (a : Resp) : subreply := (None, Some (NewArray (Some [NewBulkBytes (s (key_of a))]))).
Lemma mget_subs m0 args : ∀ cl,
  (run_subs CMGet (sub_by_key m0 args) cl).1 = mget_reply (whole cl) <$> args ∧
  same (whole (run_subs CMGet (sub_by_key m0 args) cl).2) (whole cl).
Proof.
  induction args as [|a args IH]; intros cl; [done|]. unfold sub_by_key. rewrite !fmap_cons. cbn [run_subs].
  rewrite dispatch_key. cbn [exec]. set (cl1 := λ i : Z, _). destruct (IH cl1) as [Hr Hs].
  assert (same (whole cl1) (whole cl)) as Hw by apply whole_id.
  fold (sub_by_key m0 args). destruct (run_subs CMGet (sub_by_key m0 args) cl1) as [rs cl2]. cbn [fst snd] in *.
  rewrite Hr. split; [|intros k; by rewrite Hs, Hw]. f_equal.
  apply list_fmap_ext. intros i x _. unfold mget_reply. by rewrite Hw.
Qed.
Lemma mget_array_replies s args : mget_array (mget_reply s <$> args) = Ok ((λ a, NewBulkBytes (s (key_of a))) <$> args).
Proof. induction args as [|a args IH]; [done|]. cbn in *. by rewrite IH. Qed.

Lemma exists_subs m0 args : ∀ cl n,
  count_replies "exists" add_nonzero n (run_subs CExists (sub_by_key m0 args) cl).1
    = Ok (n + count_keys args (whole cl)) ∧
  same (whole (run_subs CExists (sub_by_key m0 args) cl).2) (whole cl).
Proof.
  induction args as [|a args IH]; intros cl n; [cbn; by rewrite Z.add_0_r|].
  unfold sub_by_key. rewrite fmap_cons. cbn [run_subs].
  rewrite dispatch_key. cbn [exec count_keys]. set (cl1 := λ i : Z, _).
  assert (same (whole cl1) (whole cl)) as Hw by apply whole_id.
  fold (sub_by_key m0 args).
  destruct (present_digit (cl (slot_of (key_of a))) (key_of a)) as (c & Hc & _ & Ha).
  destruct (IH cl1 (n + add_nonzero c)) as [Hr Hs].
  destruct (run_subs CExists (sub_by_key m0 args) cl1) as [rs cl2]. cbn [fst snd] in *.
  rewrite Z.add_0_r. cbn [count_replies sub_resp mbind outcome_bind Value int_reply NewInt].
  rewrite Hc. split; [|intros k; by rewrite Hs, Hw].
  change (IsInt (int_reply _)) with true. cbn iota. rewrite Hr, (count_keys_same args _ _ Hw), Ha.
  f_equal. change (present (cl (slot_of (key_of a))) (key_of a)) with (present (whole cl) (key_of a)). lia.
Qed.

Lemma del_subs m0 args : ∀ cl n,
  count_replies "del" add_digit n (run_subs CDel (sub_by_key m0 args) cl).1
    = Ok (n + (del_keys args (whole cl)).1) ∧
  same (whole (run_subs CDel (sub_by_key m0 args) cl).2) (del_keys args (whole cl)).2.
Proof.
  induction args as [|a args IH]; intros cl n; [cbn; by rewrite Z.add_0_r|].
  unfold sub_by_key. rewrite fmap_cons. cbn [run_subs].
  rewrite dispatch_key. cbn [exec del_keys]. set (cl1 := λ i : Z, _).
  assert (same (whole cl1) (upd (whole cl) (key_of a) None)) as Hw by apply whole_at.
  fold (sub_by_key m0 args).
  destruct (present_digit (cl (slot_of (key_of a))) (key_of a)) as (c & Hc & Ha & _).
  destruct (IH cl1 (n + add_digit c)) as [Hr Hs]. destruct (del_keys_same args _ _ Hw) as [Hd Hd'].
  destruct (run_subs CDel (sub_by_key m0 args) cl1) as [rs cl2].
  destruct (del_keys args (upd (whole cl) (key_of a) None)) as [m s']. cbn [fst snd] in *.
  rewrite Z.add_0_r. cbn [count_replies sub_resp mbind outcome_bind Value int_reply NewInt].
  rewrite Hc. split; [|intros k; by rewrite Hs, Hd'].
  change (IsInt (int_reply _)) with true. cbn iota. rewrite Hr, Hd, Ha.
  f_equal. change (present (cl (slot_of (key_of a))) (key_of a)) with (present (whole cl) (key_of a)). lia.
Qed.

Lemma mset_subs m0 args : ∀ cl r,
  coalesce_mset_from r (run_subs CMSet (sub_by_pair m0 args) cl).1
    = Ok (match sub_by_pair m0 args with [] => r | _ => Some RespOK end) ∧
  same (whole (run_subs CMSet (sub_by_pair m0 args) cl).2) (set_pairs args (whole cl)).
Proof.
  induction args as [args IH] using (induction_ltof1 _ (@length _)). unfold ltof in IH.
  intros cl r. destruct args as [|k [|v args]]; [done..|]. cbn [sub_by_pair run_subs set_pairs].
  unfold dispatch_at. rewrite getHashKey_second. cbn [exec tail set_pairs]. set (cl1 := λ i : Z, _).
  assert (same (whole cl1) (upd (whole cl) (key_of k) (Some (key_of v)))) as Hw by apply whole_at.
  destruct (IH args ltac:(cbn; lia) cl1 (Some RespOK)) as [Hr Hs].
  destruct (run_subs CMSet (sub_by_pair m0 args) cl1) as [rs cl2]. cbn [fst snd] in *.
  cbn [coalesce_mset_from sub_resp mbind outcome_bind]. split.
  - change (IsString RespOK) with true. cbn iota. rewrite Hr. by destruct (sub_by_pair m0 args).
  - intros k'. rewrite Hs. by apply set_pairs_same.
Qed.

(** one sub-request, or the request itself, with one key *)
Lemma dispatch_one c m0 args cl :
  (match c with CMSet => ∃ k v, args = [k; v] | _ => ∃ a, args = [a] end) →
  (dispatch_at c (m0 :: args) cl).1 = (exec c args (whole cl)).1 ∧
  same (whole (dispatch_at c (m0 :: args) cl).2) (exec c args (whole cl)).2.
Proof.
  intros Hargs. destruct c.
  - destruct Hargs as [a ->]. rewrite dispatch_key. cbn. split; [done|apply whole_id].
  - destruct Hargs as (k & v & ->). unfold dispatch_at. rewrite getHashKey_second. cbn. split; [done|apply whole_at].
  - destruct Hargs as [a ->]. rewrite dispatch_key. cbn. split; [done|apply whole_at].
  - destruct Hargs as [a ->]. rewrite dispatch_key. cbn. split; [done|apply whole_id].
Qed.

(** ** Any order *)
#[local] Instance resp_inhabited : Inhabited Resp := populate (NewArray None).
#[local] Abbreviation in_order c sub order cl := (run_order c sub order (replicate (length sub) (None, None)) cl).
Lemma run_order_subs c sub order : ∀ rs cl, NoDup order → (∀ i, i ∈ order → (i < length rs)%nat) →
  let '(rs', cl') := run_order c sub order rs cl in
  length rs' = length rs ∧ (∀ i, i ∉ order → rs' !! i = rs !! i) ∧
  cl' = (run_subs c ((λ i, sub !!! i) <$> order) cl).2 ∧
  ∀ j i, order !! j = Some i → rs' !! i = (run_subs c ((λ i, sub !!! i) <$> order) cl).1 !! j.
Proof.
  induction order as [|i order IH]; intros rs cl Hnd Hin; [done|]. apply NoDup_cons in Hnd as [Hi Hnd]. cbn [run_order fmap list_fmap run_subs].
  destruct (dispatch_at c (sub !!! i) cl) as [r cl1]. specialize (IH (<[i := (None, Some r)]> rs) cl1 Hnd).
  destruct (run_order c sub order _ cl1) as [rs' cl']. rewrite length_insert in IH. destruct IH as (Hl & Ho & Hcl & Hr); [intros j Hj; apply Hin; by right|].
  change (fmap (λ i, sub !!! i) order) with ((λ i, sub !!! i) <$> order) in *. destruct (run_subs c ((λ i, sub !!! i) <$> order) cl1) as [rs2 cl2]. cbn [fst snd] in *.
  split_and!; [done| |done|].
  - intros j [Hne Hj]%not_elem_of_cons. rewrite Ho by done. by apply list_lookup_insert_ne.
  - intros [|j] k Hk; cbn in *; [|by apply Hr]. injection Hk as <-. rewrite Ho by done. apply list_lookup_insert_eq, Hin. by left.
Qed.

Lemma run_subs_length c sub : ∀ cl, length (run_subs c sub cl).1 = length sub.
Proof.
  induction sub as [|multi sub IH]; intros cl; cbn [run_subs]; [done|]. destruct (dispatch_at c multi cl) as [r cl1]. specialize (IH cl1).
  destruct (run_subs c sub cl1). cbn in *. lia.
Qed.

Lemma select_perm {A} `{Inhabited A} (l : list A) order : order ≡ₚ seq 0 (length l) → (λ i, l !!! i) <$> order ≡ₚ l.
Proof.
  intros ->. rewrite <-(list_fmap_id l) at 2. apply reflexive_eq. apply list_eq. intros i. rewrite list_lookup_fmap, list_fmap_id.
  destruct (decide (i < length l)%nat) as [Hi|Hi].
  - rewrite lookup_seq_lt by done. cbn. symmetry. by apply list_lookup_lookup_total_lt.
  - rewrite lookup_seq_ge by lia. cbn. symmetry. apply lookup_ge_None_2. lia.
Qed.

(** what all the sub-requests in some order do: what they do one after the other, permuted *)
Lemma run_order_spec c sub order cl : order ≡ₚ seq 0 (length sub) →
  let '(rs, cl') := run_order c sub order (replicate (length sub) (None, None)) cl in
  length rs = length sub ∧ rs ≡ₚ (run_subs c ((λ i, sub !!! i) <$> order) cl).1 ∧ cl' = (run_subs c ((λ i, sub !!! i) <$> order) cl).2 ∧
  ∀ j i, order !! j = Some i → rs !! i = (run_subs c ((λ i, sub !!! i) <$> order) cl).1 !! j.
Proof.
  intros Hp. pose proof (run_order_subs c sub order (replicate (length sub) (None, None)) cl) as Hr.
  destruct (run_order c sub order _ cl) as [rs cl']. rewrite length_replicate in Hr. destruct Hr as (Hl & _ & Hcl & Hrs).
  { rewrite Hp. apply NoDup_seq. }
  { intros i. rewrite Hp, elem_of_seq. lia. }
  split_and!; [done| |done|done]. rewrite <-(select_perm rs order) by by rewrite Hl. apply reflexive_eq, list_eq. intros j.
  rewrite list_lookup_fmap. destruct (order !! j) as [i|] eqn:Hj; cbn.
  - rewrite <-(Hrs j i Hj). symmetry. apply list_lookup_lookup_total_lt. rewrite Hl.
    apply list_elem_of_lookup_2 in Hj. rewrite Hp, elem_of_seq in Hj. lia.
  - symmetry. apply lookup_ge_None_2. apply lookup_ge_None_1 in Hj. by rewrite run_subs_length, length_fmap.
Qed.

Lemma select_key m0 args order : order ≡ₚ seq 0 (length args) →
  (λ i, sub_by_key m0 args !!! i) <$> order = sub_by_key m0 ((λ i, args !!! i) <$> order).
Proof.
  intros Hp. unfold sub_by_key. rewrite <-list_fmap_compose. apply list_fmap_ext. intros j i Hj. cbn.
  apply list_elem_of_lookup_2 in Hj. rewrite Hp, elem_of_seq in Hj.
  apply list_lookup_total_correct. rewrite list_lookup_fmap. by rewrite (list_lookup_lookup_total_lt args i) by lia.
Qed.

Definition sub_of_pair (m0 : Resp) (p : Resp * Resp) : list Resp := [m0; p.1; p.2].
Fixpoint args_of (l : list (Resp * Resp)) : list Resp := match l with [] => [] | p :: l => p.1 :: p.2 :: args_of l end.
Lemma sub_by_pairs m0 args : sub_by_pair m0 args = sub_of_pair m0 <$> pairs_of args.
Proof.
  induction args as [args IH] using (induction_ltof1 _ (@length _)). unfold ltof in IH. destruct args as [|k [|v args]]; [done..|]. cbn.
  f_equal. apply IH. cbn. lia.
Qed.
Lemma pairs_args l : pairs_of (args_of l) = l.
Proof. induction l as [|[k v] l IH]; [done|]. cbn. by rewrite IH. Qed.
Lemma set_pairs_foldl args : ∀ s, set_pairs args s = foldl (λ s p, upd s (key_of p.1) (Some (key_of p.2))) s (pairs_of args).
Proof.
  induction args as [args IH] using (induction_ltof1 _ (@length _)). unfold ltof in IH. destruct args as [|k [|v args]]; [done..|]. intros s. cbn.
  apply IH. cbn. lia.
Qed.

Lemma count_replies_perm cmd add rs rs' : rs ≡ₚ rs' → ∀ n m, count_replies cmd add n rs = Ok m → count_replies cmd add n rs' = Ok m.
Proof.
  induction 1 as [|x rs rs' _ IH|x y rs|rs1 rs2 rs3 _ IH1 _ IH2]; intros n m Hc; [done|..|by auto].
  - cbn [count_replies] in *. destruct (sub_resp x) as [rx|e|]; [|done..]. cbn [mbind outcome_bind] in *.
    destruct (Value rx) as [[|c []]|]; try done. destruct (IsInt rx); [|done]. by apply IH.
  - cbn [count_replies] in *. destruct (sub_resp y) as [ry|e|]; [|done..]. cbn [mbind outcome_bind] in *.
    destruct (Value ry) as [[|cy []]|]; try done. destruct (IsInt ry); [|done].
    destruct (sub_resp x) as [rx|e|]; [|done..]. cbn [mbind outcome_bind] in *.
    destruct (Value rx) as [[|cx []]|]; try done. destruct (IsInt rx); [|done].
    by replace (n + add cx + add cy) with (n + add cy + add cx) by lia.
Qed.

Lemma del_keys_perm args args' : args ≡ₚ args' → ∀ s,
  (del_keys args s).1 = (del_keys args' s).1 ∧ same (del_keys args s).2 (del_keys args' s).2.
Proof.
  induction 1 as [|x args args' _ IH|x y args|a1 a2 a3 _ IH1 _ IH2]; intros s; [done|..].
  - cbn [del_keys]. destruct (IH (upd s (key_of x) None)) as [H1 H2]. destruct (del_keys args _), (del_keys args' _). cbn in *. by rewrite H1.
  - cbn [del_keys].
    destruct (del_keys_same args (upd (upd s (key_of y) None) (key_of x) None) (upd (upd s (key_of x) None) (key_of y) None)) as [H1 H2].
    { intros k. unfold upd. by repeat case_decide. }
    destruct (del_keys args _) as [n1 s1], (del_keys args (upd (upd s (key_of x) None) _ _)) as [n2 s2]. cbn in *. split; [|done].
    unfold present, upd in *. repeat case_decide; subst; try done; try lia; repeat case_match; simplify_eq; lia || congruence.
  - destruct (IH1 s) as [A1 A2], (IH2 s) as [B1 B2]. split; [congruence|]. intros k. by rewrite A2.
Qed.
Lemma count_keys_perm args args' s : args ≡ₚ args' → count_keys args s = count_keys args' s.
Proof. induction 1; cbn; lia. Qed.

Lemma set_perm l l' : l ≡ₚ l' → NoDup ((λ p : Resp * Resp, key_of p.1) <$> l) → ∀ s s', same s s' →
  same (foldl (λ s p, upd s (key_of p.1) (Some (key_of p.2))) s l) (foldl (λ s p, upd s (key_of p.1) (Some (key_of p.2))) s' l').
Proof.
  induction 1 as [|x l l' _ IH|x y l|l1 l2 l3 H1 IH1 _ IH2]; intros Hnd s s' Hs; cbn [foldl]; [done|..].
  - cbn in Hnd. apply NoDup_cons in Hnd as [_ Hnd]. apply IH; [done|]. by apply store_upd_same.
  - cbn in Hnd. apply NoDup_cons in Hnd as [Hy _]. assert (key_of x.1 ≠ key_of y.1) as Hne by (intros He; apply Hy; rewrite <-He; by left).
    assert (∀ l (s s' : kv), same s s' → same (foldl (λ s p, upd s (key_of p.1) (Some (key_of p.2))) s l) (foldl (λ s p, upd s (key_of p.1) (Some (key_of p.2))) s' l)) as Hf.
    { induction l0 as [|p l0 IH]; intros s1 s2 Hs'; [done|]. cbn. apply IH. by apply store_upd_same. }
    apply Hf. intros k. unfold upd. repeat case_decide; subst; try done; congruence.
  - assert (NoDup ((λ p : Resp * Resp, key_of p.1) <$> l2)) as Hnd2 by by rewrite <-H1. intros k. rewrite (IH1 Hnd s s) by done. by apply IH2.
Qed.

(** the commands in any order *)
Lemma mget_order m0 args order cl : order ≡ₚ seq 0 (length (sub_by_key m0 args)) →
  let '(rs, cl') := in_order CMGet (sub_by_key m0 args) order cl in rs = mget_reply (whole cl) <$> args ∧ same (whole cl') (whole cl).
Proof.
  intros Hp. pose proof (run_order_spec CMGet (sub_by_key m0 args) order cl Hp) as Ho. destruct (run_order _ _ _ _ cl) as [rs cl'].
  assert (length (sub_by_key m0 args) = length args) as Hlen by apply length_fmap. rewrite Hlen in *. rewrite select_key in Ho by done.
  destruct (mget_subs m0 ((λ i, args !!! i) <$> order) cl) as [Hr Hs]. rewrite Hr in Ho. destruct Ho as (Hl & _ & -> & Hrs). split; [|done].
  apply list_eq. intros i. rewrite list_lookup_fmap. destruct (decide (i < length args)%nat) as [Hi|Hi].
  - assert (i ∈ order) as [j Hj]%list_elem_of_lookup by (rewrite Hp, elem_of_seq; lia).
    rewrite (Hrs j i Hj), !list_lookup_fmap, Hj. cbn. by rewrite (list_lookup_lookup_total_lt args i).
  - rewrite !lookup_ge_None_2 by lia. done.
Qed.
Lemma del_order m0 args order cl : order ≡ₚ seq 0 (length (sub_by_key m0 args)) →
  let '(rs, cl') := in_order CDel (sub_by_key m0 args) order cl in
  count_replies "del" add_digit 0 rs = Ok (del_keys args (whole cl)).1 ∧ same (whole cl') (del_keys args (whole cl)).2.
Proof.
  intros Hp. pose proof (run_order_spec CDel (sub_by_key m0 args) order cl Hp) as Ho. destruct (run_order _ _ _ _ cl) as [rs cl'].
  assert (length (sub_by_key m0 args) = length args) as Hlen by apply length_fmap. rewrite Hlen in *. rewrite select_key in Ho by done.
  destruct (del_subs m0 ((λ i, args !!! i) <$> order) cl 0) as [Hr Hs], Ho as (_ & Hperm & -> & _).
  destruct (del_keys_perm _ _ (select_perm args order Hp) (whole cl)) as [H1 H2]. split.
  - eapply count_replies_perm; [symmetry; exact Hperm|]. by rewrite Hr, <-H1.
  - intros k. by rewrite Hs, H2.
Qed.
Lemma exists_order m0 args order cl : order ≡ₚ seq 0 (length (sub_by_key m0 args)) →
  let '(rs, cl') := in_order CExists (sub_by_key m0 args) order cl in
  count_replies "exists" add_nonzero 0 rs = Ok (count_keys args (whole cl)) ∧ same (whole cl') (whole cl).
Proof.
  intros Hp. pose proof (run_order_spec CExists (sub_by_key m0 args) order cl Hp) as Ho. destruct (run_order _ _ _ _ cl) as [rs cl'].
  assert (length (sub_by_key m0 args) = length args) as Hlen by apply length_fmap. rewrite Hlen in *. rewrite select_key in Ho by done.
  destruct (exists_subs m0 ((λ i, args !!! i) <$> order) cl 0) as [Hr Hs], Ho as (_ & Hperm & -> & _). split; [|done].
  eapply count_replies_perm; [symmetry; exact Hperm|]. by rewrite Hr, (count_keys_perm _ _ _ (select_perm args order Hp)).
Qed.

Lemma mset_coalesce rs : ∀ r0, Forall (λ x : subreply, x = (None, Some RespOK)) rs →
  coalesce_mset_from r0 rs = Ok (match rs with [] => r0 | _ => Some RespOK end).
Proof.
  induction rs as [|x rs IH]; intros r0 Hrs; [done|]. apply Forall_cons in Hrs as [-> Hrs]. cbn [coalesce_mset_from sub_resp mbind outcome_bind].
  change (IsString RespOK) with true. cbn iota. rewrite IH by done. by destruct rs.
Qed.
Lemma mset_replies m0 l : ∀ cl, Forall (λ x : subreply, x = (None, Some RespOK)) (run_subs CMSet (sub_of_pair m0 <$> l) cl).1.
Proof.
  induction l as [|p l IH]; intros cl; [constructor|]. rewrite fmap_cons. cbn [run_subs]. destruct (dispatch_at CMSet (sub_of_pair m0 p) cl) as [r cl1] eqn:Hd.
  specialize (IH cl1). destruct (run_subs _ _ cl1) as [rs cl2]. constructor; [|done]. unfold dispatch_at, exec in Hd. by injection Hd as <- _.
Qed.
Lemma mset_order m0 args order cl : order ≡ₚ seq 0 (length (sub_by_pair m0 args)) → NoDup (set_keys args) →
  let '(rs, cl') := in_order CMSet (sub_by_pair m0 args) order cl in
  coalesce_mset_from None rs = Ok (match sub_by_pair m0 args with [] => None | _ => Some RespOK end) ∧ same (whole cl') (set_pairs args (whole cl)).
Proof.
  intros Hp Hnd. pose proof (run_order_spec CMSet (sub_by_pair m0 args) order cl Hp) as Ho. destruct (run_order _ _ _ _ cl) as [rs cl'].
  rewrite sub_by_pairs in *. rewrite length_fmap in *. set (l := pairs_of args) in *.
  assert ((λ i, (sub_of_pair m0 <$> l) !!! i) <$> order = sub_of_pair m0 <$> ((λ i, l !!! i) <$> order)) as Hsel.
  { rewrite <-list_fmap_compose. apply list_fmap_ext. intros j i Hj. cbn. apply list_elem_of_lookup_2 in Hj. rewrite Hp, elem_of_seq in Hj.
    apply list_lookup_total_correct. rewrite list_lookup_fmap. by rewrite (list_lookup_lookup_total_lt l i) by lia. }
  rewrite Hsel in Ho. destruct Ho as (Hl & Hperm & -> & _). split.
  - rewrite mset_coalesce; [|rewrite Hperm; apply mset_replies]. destruct rs, l; done.
  - set (l' := (λ i, l !!! i) <$> order) in *. assert (l' ≡ₚ l) as Hll by by apply select_perm.
    destruct (mset_subs m0 (args_of l') cl None) as [_ Hs]. rewrite sub_by_pairs, pairs_args in Hs. intros k. rewrite Hs, !set_pairs_foldl, pairs_args.
    apply set_perm; [done| |done]. by rewrite Hll.
Qed.

(** C14: sharding is transparent for MGET, MSET, DEL and EXISTS: however the keys are
    spread over the slots and in whatever order the servers run the sub-requests, no other
    request changing the keys in between, the reply put together from the
    sub-requests is the reply of a single Redis server that holds all keys, and the
    cluster's keys afterwards are that server's.  The keys may be repeated, except for MSET. *)
Theorem sharding_transparent (c : mcmd) (m0 : Resp) (args : list Resp) (order : list nat) (cl : cluster) :
  args_ok c args → runs_all (handler c (m0 :: args)) order →
  (run_plan c (handler c (m0 :: args)) order cl).1 = Ok (exec c args (whole cl)).1 ∧
  same (whole (run_plan c (handler c (m0 :: args)) order cl).2) (exec c args (whole cl)).2.
Proof.
  intros [Hne Hargs].
  assert (∀ multi, (run_plan c (Dispatch multi) order cl) = (Ok (dispatch_at c multi cl).1, (dispatch_at c multi cl).2)) as Hd.
  { intros multi. cbn [run_plan]. by destruct (dispatch_at c multi cl). }
  assert (match c with CMSet => True | _ => handler c (m0 :: args) =
            match args with
            | [_] => Dispatch (m0 :: args)
            | _ => Split (sub_by_key m0 args)
                     match c with CMGet => coalesce_mget | CDel => coalesce_count "del" add_digit
                                | _ => coalesce_count "exists" add_nonzero end
            end end) as Hh by (destruct c; [|done|..]; destruct args as [|a [|b args]]; done).
  destruct (decide (length args = match c with CMSet => 2%nat | _ => 1%nat end)) as [Hone|Hmany].
  - intros _. assert (handler c (m0 :: args) = Dispatch (m0 :: args)) as ->.
    { destruct c; [| |..]; destruct args as [|a [|b [|d args]]]; done. }
    rewrite Hd. cbn [fst snd]. destruct (dispatch_one c m0 args cl) as [H1 H2]; [|by rewrite H1].
    destruct c; destruct args as [|a [|b [|d args]]]; try done; eauto.
  - destruct c.
    + rewrite Hh. destruct args as [|a [|b args]]; [done..|]. cbn [run_plan runs_all]. intros Hp.
      pose proof (mget_order m0 (a :: b :: args) order cl Hp) as Ho. destruct (run_order _ _ _ _ cl) as [rs cl']. destruct Ho as [-> Hs].
      cbn [fst snd handleResponse]. unfold coalesce_mget. by rewrite mget_array_replies.
    + cbn [handler]. unfold handleRequestMSet. cbn [length]. rewrite Nat.sub_succ, Nat.sub_0_r. destruct Hargs as [Hmod Hnd].
      rewrite decide_False by (destruct args; [done|cbn [length] in *; lia]).
      rewrite decide_False by done. cbn [run_plan runs_all]. intros Hp.
      pose proof (mset_order m0 args order cl Hp Hnd) as Ho. destruct (run_order _ _ _ _ cl) as [rs cl']. destruct Ho as [Hr Hs].
      assert (sub_by_pair m0 args ≠ []) as Hsub by (destruct args as [|a [|b args]]; done).
      cbn [fst snd handleResponse]. unfold coalesce_mset. rewrite Hr. by destruct (sub_by_pair m0 args).
    + rewrite Hh. destruct args as [|a [|b args]]; [done..|]. cbn [run_plan runs_all]. intros Hp.
      pose proof (del_order m0 (a :: b :: args) order cl Hp) as Ho. destruct (run_order _ _ _ _ cl) as [rs cl']. destruct Ho as [Hr Hs].
      cbn [fst snd handleResponse]. unfold coalesce_count. rewrite Hr. cbn [exec]. destruct (del_keys _ _) as [n s']. done.
    + rewrite Hh. destruct args as [|a [|b args]]; [done..|]. cbn [run_plan runs_all]. intros Hp.
      pose proof (exists_order m0 (a :: b :: args) order cl Hp) as Ho. destruct (run_order _ _ _ _ cl) as [rs cl']. destruct Ho as [Hr Hs].
      cbn [fst snd handleResponse]. unfold coalesce_count. by rewrite Hr.
Qed.

Definition demo_cluster : cluster := λ slot k,
  if decide (slot = slot_of (bstr "a") ∧ k = bstr "a") then Some (bstr "1") else None.
Definition demo_keys : list Resp := (λ s, NewBulkBytes (Some (bstr s))) <$> ["a"; "b"; "a"]%string.

Lemma sharding_transparent_witness :
  (run_plan CDel (handler CDel (NewBulkBytes (Some (bstr "DEL")) :: demo_keys)) [2; 0; 1]%nat demo_cluster).1
    = Ok (exec CDel demo_keys (whole demo_cluster)).1 ∧
  same (whole (run_plan CDel (handler CDel (NewBulkBytes (Some (bstr "DEL")) :: demo_keys)) [2; 0; 1]%nat demo_cluster).2)
       (exec CDel demo_keys (whole demo_cluster)).2.
Proof.
  apply (sharding_transparent CDel (NewBulkBytes (Some (bstr "DEL"))) demo_keys [2; 0; 1]%nat demo_cluster).
  - split; [discriminate|exact I].
  - exact (Permutation_app_comm [2%nat] [0; 1]%nat).
Defined.

(** MSET of a key with two values leaves the first one when the second sub-request, on
    another connection to the server, runs before the first. *)
Definition mset_twice : list Resp := (λ s, NewBulkBytes (Some (bstr s))) <$> ["k"; "1"; "k"; "2"]%string.
Example mset_repeated :
  let set order := whole (run_plan CMSet (handler CMSet (NewBulkBytes (Some (bstr "MSET")) :: mset_twice)) order demo_cluster).2 (bstr "k") in
  set [0; 1]%nat = Some (bstr "2") ∧ set [1; 0]%nat = Some (bstr "1") ∧ (exec CMSet mset_twice (whole demo_cluster)).2 (bstr "k") = Some (bstr "2").
Proof. by vm_compute. Qed.

(** a split request succeeds only if every sub-request got a reply of the expected
    kind: a sub-request that failed, was not answered or was answered with something else
    makes the whole request an error, never a partial result. *)
Theorem coalesce_all_or_error (c : mcmd) (m0 : Resp) (args : list Resp) (sub : list (list Resp))
    (coalesce : list subreply → outcome reqerr (option Resp)) (replies : list subreply) (r : option Resp) :
  handler c (m0 :: args) = Split sub coalesce → coalesce replies = Ok r →
  Forall (λ s : subreply, ∃ x, s = (None, Some x) ∧
    match c with
    | CMGet => IsArray x = true ∧ array_len x = 1%nat
    | CMSet => IsString x = true
    | CDel | CExists => IsInt x = true ∧ value_len x = 1%nat
    end) replies.
Proof.
  assert (∀ s x, sub_resp s = Ok x → s = (None, Some x)) as Hsub.
  { intros [[e|] [y|]] x; cbn; by intros [= <-]. }
  assert (∀ cmd add n, ∀ m, count_replies cmd add n replies = Ok m →
    Forall (λ s : subreply, ∃ x, s = (None, Some x) ∧ IsInt x = true ∧ value_len x = 1%nat) replies) as Hcount.
  { intros cmd add. induction replies as [|s replies IH]; intros n m; cbn [count_replies]; [constructor|].
    intros (x & Hx%Hsub & Hr)%outcome_bind_Ok. destruct (Value x) as [[|v []]|] eqn:Hv; try done.
    destruct (IsInt x) eqn:Hi; [|done]. constructor; [|by eapply IH].
    exists x. unfold value_len, val. by rewrite Hv. }
  intros Hh Hc. destruct c; cbn [handler] in Hh.
  - destruct args as [|a [|b args]]; [done..|]. injection Hh as <- <-.
    apply outcome_bind_Ok in Hc as (arr & Harr & _). clear r Hcount. revert arr Harr.
    induction replies as [|s replies IH]; intros arr; cbn [mget_array]; [constructor|].
    intros (x & Hx%Hsub & Hr)%outcome_bind_Ok. destruct (Array x) as [[|v []]|] eqn:Hv; try done.
    destruct (IsArray x) eqn:Hi; [|done]. apply outcome_bind_Ok in Hr as (arr' & Harr' & _).
    constructor; [|by eapply IH]. exists x. unfold array_len. by rewrite Hv.
  - unfold handleRequestMSet in Hh. repeat case_decide; try done. injection Hh as <- <-.
    unfold coalesce_mset in Hc. revert Hc. generalize (@None Resp). clear Hcount.
    induction replies as [|s replies IH]; intros r0; cbn [coalesce_mset_from]; [constructor|].
    intros (x & Hx%Hsub & Hr)%outcome_bind_Ok. destruct (IsString x) eqn:Hi; [|done].
    constructor; [|by eapply IH]. by exists x.
  - destruct args as [|a [|b args]]; [done..|]. injection Hh as <- <-.
    apply outcome_bind_Ok in Hc as (n & Hn & _). by eapply Hcount.
  - destruct args as [|a [|b args]]; [done..|]. injection Hh as <- <-.
    apply outcome_bind_Ok in Hc as (n & Hn & _). by eapply Hcount.
Qed.

Lemma coalesce_all_or_error_witness :
  Forall (λ s : subreply, ∃ x, s = (None, Some x) ∧ IsInt x = true ∧ value_len x = 1%nat)
    [(None, Some (int_reply 1)); (None, Some (int_reply 0)); (None, Some (int_reply 0))].
Proof.
  apply (coalesce_all_or_error CDel (NewBulkBytes (Some (bstr "DEL"))) demo_keys
           (sub_by_key (NewBulkBytes (Some (bstr "DEL"))) demo_keys) (coalesce_count "del" add_digit)
           [(None, Some (int_reply 1)); (None, Some (int_reply 0)); (None, Some (int_reply 0))]
           (Some (int_reply 1))).
  - reflexivity.
  - vm_compute. reflexivity.
Defined.
