(* ===== verification/AuthBruteforce.v ===== *)
(** The guard against guessing passwords: pkg/proxy/auth_bruteforce.go.

    Times are nanoseconds and the zero time is 0.  A client is tracked by its IP address,
    in the canonical form [net.ParseIP] and [String] give it; the two are a parameter.
    Go visits the entries of a map in any order, each once: [iter] is that order. *)

From S2P Require Import Prelude Bufio Resp Mapper Models Router Stream Forward.
Record authFailureRecord := mkFailure {
  fr_failures : Z;
  fr_lastFailureAt : Z;
  fr_lockedUntil : Z;
}.

Record AuthBruteforceGuard := mkGuard {
  gu_enabled : bool;
  gu_maxFailures : Z;
  gu_lockDuration : Z;
  gu_maxTrackedIPs : Z;
  gu_records : gmap bytes authFailureRecord;
  gu_Failures : Z;
  gu_Locks : Z;
  gu_Unlocks : Z;
}.

Record AuthBruteforceStats := mkGuardStats {
  gs_Enabled : bool;
  gs_TrackedIPs : Z;
  gs_LockedIPs : Z;
  gs_Failures : Z;
  gs_Locks : Z;
  gs_Unlocks : Z;
}.

Definition authBruteforceMaxTrackedIPs : Z := 4096.

Class Addresses := {
  (** [net.ParseIP(host).String()], [None] when the host is no address *)
  canonical_ip : bytes → option bytes;
  canonical_ip_nonempty : ∀ h ip, canonical_ip h = Some ip → ip ≠ [];
}.

Class MapRange := {
  iter : gmap bytes authFailureRecord → list (bytes * authFailureRecord);
  iter_perm : ∀ m, iter m ≡ₚ map_to_list m;
}.

Section guard.
Context `{Addresses} `{MapRange}.
Implicit Type g : AuthBruteforceGuard.

Definition newAuthBruteforceGuard (enabled : bool) (maxFailures lockDuration : Z) : AuthBruteforceGuard :=
  mkGuard enabled maxFailures lockDuration authBruteforceMaxTrackedIPs ∅ 0 0 0.

Definition with_records (m : gmap bytes authFailureRecord) g : AuthBruteforceGuard :=
  mkGuard (gu_enabled g) (gu_maxFailures g) (gu_lockDuration g) (gu_maxTrackedIPs g) m
    (gu_Failures g) (gu_Locks g) (gu_Unlocks g).
Definition add_stats (failures locks unlocks : Z) g : AuthBruteforceGuard :=
  mkGuard (gu_enabled g) (gu_maxFailures g) (gu_lockDuration g) (gu_maxTrackedIPs g) (gu_records g)
    (gu_Failures g + failures) (gu_Locks g + locks) (gu_Unlocks g + unlocks).

(** [strings.Trim(s, "[]")] *)
Definition is_bracket (c : byte) : bool := bool_decide (c = x5b ∨ c = x5d).
Fixpoint trim_left (b : bytes) : bytes :=
  match b with
  | c :: b' => if is_bracket c then trim_left b' else b
  | [] => []
  end.
Definition trim_brackets (b : bytes) : bytes := rev (trim_left (rev (trim_left b))).

Definition authBruteforceClientIP (remoteAddr : bytes) : bytes :=
  match remoteAddr with
  | [] => []
  | _ =>
      let host := match SplitHostPort remoteAddr with
                  | Some (host, _) => host
                  | None => trim_brackets remoteAddr
                  end in
      default [] (canonical_ip host)
  end.

(** [g.active()] of a guard that may be nil *)
Definition active (g : option AuthBruteforceGuard) : bool :=
  match g with
  | None => false
  | Some g => gu_enabled g && (0 <? gu_maxFailures g) && (0 <? gu_lockDuration g)
  end.

Definition isLocked (r : authFailureRecord) (now : Z) : bool :=
  negb (fr_lockedUntil r =? 0) && (now <? fr_lockedUntil r).

Definition expireRecordLocked (ip : bytes) (r : authFailureRecord) (now : Z) g : bool * AuthBruteforceGuard :=
  if decide (fr_lockedUntil r ≠ 0) then
    if decide (now < fr_lockedUntil r) then (false, g)
    else (true, add_stats 0 0 1 (with_records (delete ip (gu_records g)) g))
  else if decide (fr_lastFailureAt r ≠ 0 ∧ now - fr_lastFailureAt r >= gu_lockDuration g)
  then (true, with_records (delete ip (gu_records g)) g)
  else (false, g).

Definition cleanupExpiredLocked (now : Z) g : AuthBruteforceGuard :=
  foldl (λ g e, (expireRecordLocked e.1 e.2 now g).2) g (iter (gu_records g)).

(** one round of the search for an entry to evict; the empty address is "none yet" *)
Definition evict_step (now : Z) (best : bytes * Z) (e : bytes * authFailureRecord) : bytes * Z :=
  if isLocked e.2 now then best
  else if decide (best.1 = [] ∨ fr_lastFailureAt e.2 < best.2) then (e.1, fr_lastFailureAt e.2)
  else best.

Definition ensureCapacityLocked (now : Z) g : bool * AuthBruteforceGuard :=
  let g := cleanupExpiredLocked now g in
  if decide (Z.of_nat (size (gu_records g)) < gu_maxTrackedIPs g) then (true, g)
  else
    let evictIP := (foldl (evict_step now) ([], 0) (iter (gu_records g))).1 in
    if decide (evictIP = []) then (false, g)
    else (true, with_records (delete evictIP (gu_records g)) g).

Definition BeforeAuth (remoteAddr : bytes) (authorized : bool) (now : Z) g : bool * AuthBruteforceGuard :=
  if negb (active (Some g)) || authorized then (false, g)
  else
    let ip := authBruteforceClientIP remoteAddr in
    if decide (ip = []) then (false, g)
    else match gu_records g !! ip with
    | None => (false, g)
    | Some r =>
        if isLocked r now then (true, g)
        else (false, (expireRecordLocked ip r now g).2)
    end.

(** the record of the failure that is being counted: the one on file, or a new one when
    there is none or it has expired and there is room *)
Definition open_record (ip : bytes) (now : Z) g : option authFailureRecord * AuthBruteforceGuard :=
  let fresh g :=
    let '(room, g) := ensureCapacityLocked now g in
    (if room then Some (mkFailure 0 0 0) else None, g) in
  match gu_records g !! ip with
  | None => fresh g
  | Some r =>
      let '(expired, g) := expireRecordLocked ip r now g in
      if expired : bool then fresh g else (Some r, g)
  end.

Definition count_failure (ip : bytes) (now : Z) (r : authFailureRecord) g : bool * AuthBruteforceGuard :=
  let failures :=
    if decide (fr_lastFailureAt r ≠ 0 ∧ now - fr_lastFailureAt r >= gu_lockDuration g) then 0 else fr_failures r in
  let failures := failures + 1 in
  if decide (failures >= gu_maxFailures g)
  then (true, add_stats 1 1 0
                (with_records (<[ip := mkFailure failures now (now + gu_lockDuration g)]> (gu_records g)) g))
  else (false, add_stats 1 0 0
                (with_records (<[ip := mkFailure failures now (fr_lockedUntil r)]> (gu_records g)) g)).

Definition RecordAuthFailure (remoteAddr : bytes) (authorized : bool) (now : Z) g : bool * AuthBruteforceGuard :=
  if negb (active (Some g)) || authorized then (false, g)
  else
    let ip := authBruteforceClientIP remoteAddr in
    if decide (ip = []) then (false, g)
    else if match gu_records g !! ip with Some r => isLocked r now | None => false end then (true, g)
    else match open_record ip now g with
    | (None, g) => (false, g)
    | (Some r, g) => count_failure ip now r g
    end.

Definition RecordAuthSuccess (remoteAddr : bytes) g : AuthBruteforceGuard :=
  if negb (active (Some g)) then g
  else
    let ip := authBruteforceClientIP remoteAddr in
    if decide (ip = []) then g else with_records (delete ip (gu_records g)) g.

Definition count_locked (now : Z) (l : list (bytes * authFailureRecord)) : Z :=
  foldl (λ n e, if isLocked e.2 now then n + 1 else n) 0 l.

Definition Stats (now : Z) g : AuthBruteforceStats * AuthBruteforceGuard :=
  let g := cleanupExpiredLocked now g in
  (mkGuardStats (gu_enabled g) (Z.of_nat (size (gu_records g))) (count_locked now (iter (gu_records g)))
     (gu_Failures g) (gu_Locks g) (gu_Unlocks g), g).

(** * Records that are kept *)

(** what every operation keeps of a record on file *)
Definition record_ok g (ip : bytes) (r : authFailureRecord) : Prop :=
  ip ≠ [] ∧ fr_lastFailureAt r ≠ 0 ∧
  if decide (fr_lockedUntil r = 0) then 1 <= fr_failures r < gu_maxFailures g
  else fr_failures r = gu_maxFailures g ∧ fr_lockedUntil r = fr_lastFailureAt r + gu_lockDuration g.

Definition guard_ok g : Prop :=
  map_Forall (record_ok g) (gu_records g) ∧ Z.of_nat (size (gu_records g)) <= gu_maxTrackedIPs g.

Definition same_config g g' : Prop :=
  gu_enabled g' = gu_enabled g ∧ gu_maxFailures g' = gu_maxFailures g ∧
  gu_lockDuration g' = gu_lockDuration g ∧ gu_maxTrackedIPs g' = gu_maxTrackedIPs g.

#[export] Instance same_config_preorder : PreOrder same_config.
Proof.
  split; [by intros g|]. intros g1 g2 g3 (?&?&?&?) (?&?&?&?). repeat split; congruence.
Qed.

(** [g'] has lost some records of [g], none of them locked *)
Definition shrunk (now : Z) g g' : Prop :=
  same_config g g' ∧ gu_records g' ⊆ gu_records g ∧
  ∀ ip r, gu_records g !! ip = Some r → isLocked r now = true → gu_records g' !! ip = Some r.

#[export] Instance shrunk_preorder now : PreOrder (shrunk now).
Proof.
  split; [by intros g|]. intros g1 g2 g3 (Hc1 & Hs1 & Hl1) (Hc2 & Hs2 & Hl2).
  split; [by etrans|]. split; [by etrans|]. eauto.
Qed.

Lemma shrunk_ok now g g' : shrunk now g g' → guard_ok g → guard_ok g'.
Proof.
  intros ((_ & Hmf & Hld & Hmx) & Hsub & _) [Hok Hsize]. split.
  - intros ip r Hr. pose proof (Hok ip r (lookup_weaken _ _ _ _ Hr Hsub)) as Hro.
    unfold record_ok in *. by rewrite Hmf, Hld.
  - rewrite Hmx. apply map_subseteq_size in Hsub. lia.
Qed.

Lemma shrunk_delete now g ip d : (∀ r, gu_records g !! ip = Some r → isLocked r now = false) →
  shrunk now g (add_stats 0 0 d (with_records (delete ip (gu_records g)) g)).
Proof.
  intros Hip. split; [done|]. split; cbn; [apply delete_subseteq|]. intros ip' r Hr Hl.
  rewrite lookup_delete_ne; [done|]. intros ->. by rewrite (Hip r Hr) in Hl.
Qed.

Lemma add_stats_0 g : add_stats 0 0 0 g = g.
Proof. destruct g. unfold add_stats. cbn. f_equal; lia. Qed.

(** * Operations *)
Lemma expire_shrunk ip r now g : gu_records g !! ip = Some r ∨ gu_records g !! ip = None →
  (fr_lockedUntil r = 0 → isLocked r now = false) →
  shrunk now g (expireRecordLocked ip r now g).2.
Proof.
  intros Hr Hz. unfold expireRecordLocked. repeat case_decide; cbn [snd]; try done.
  - apply shrunk_delete. intros r' Hr'. destruct Hr as [Hr|Hr]; [|congruence]. simplify_eq.
    unfold isLocked. apply andb_false_iff. right. lia.
  - rewrite <- (add_stats_0 (with_records _ g)). apply shrunk_delete. intros r' Hr'.
    destruct Hr as [Hr|Hr]; [|congruence]. simplify_eq. apply Hz. lia.
Qed.

Lemma unlocked_zero r now : fr_lockedUntil r = 0 → isLocked r now = false.
Proof. intros Hz. unfold isLocked. by rewrite Hz. Qed.

Lemma cleanup_fold now l : ∀ g, NoDup l.*1 →
  (∀ e, e ∈ l → gu_records g !! e.1 = Some e.2) →
  shrunk now g (foldl (λ g e, (expireRecordLocked e.1 e.2 now g).2) g l).
Proof.
  induction l as [|[ip r] l IH]; intros g Hnd Hin; cbn [foldl]; [done|].
  cbn in Hnd. apply NoDup_cons in Hnd as [Hnin Hnd].
  etrans; [apply (expire_shrunk ip r); [left; apply (Hin (ip, r)); by left|apply unlocked_zero]|].
  apply IH; [done|]. intros [ip' r'] He. cbn [fst snd].
  assert (ip' ≠ ip) as Hne by (intros ->; apply Hnin; apply (list_elem_of_fmap_2 fst) in He; done).
  pose proof (Hin (ip', r') ltac:(by right)) as Hl. cbn in Hl.
  unfold expireRecordLocked. repeat case_decide; cbn; by rewrite ?lookup_delete_ne.
Qed.

Lemma iter_spec m : NoDup (iter m).*1 ∧ ∀ e, e ∈ iter m ↔ m !! e.1 = Some e.2.
Proof.
  split; [rewrite iter_perm; apply NoDup_fst_map_to_list|]. intros [ip r].
  rewrite iter_perm. apply elem_of_map_to_list.
Qed.

Lemma cleanup_shrunk now g : shrunk now g (cleanupExpiredLocked now g).
Proof.
  destruct (iter_spec (gu_records g)) as [Hnd Hin]. apply cleanup_fold; [done|]. intros e. apply Hin.
Qed.

(** the entry chosen for eviction is on file and not locked *)
Lemma evict_fold now l : ∀ best,
  let ip := (foldl (evict_step now) best l).1 in
  ip = best.1 ∨ ∃ r, (ip, r) ∈ l ∧ isLocked r now = false.
Proof.
  induction l as [|[ip r] l IH]; intros best; cbn [foldl]; [by left|].
  destruct (IH (evict_step now best (ip, r))) as [Heq|(r' & Hin & Hl)]; [|right; exists r'; split; [by right|done]].
  cbn zeta in *. rewrite Heq. unfold evict_step. cbn [fst snd]. destruct (isLocked r now) eqn:Hl; [by left|].
  case_decide; [|by left]. right. exists r. split; [by left|done].
Qed.

Lemma ensureCapacity_spec now g room g' : guard_ok g → ensureCapacityLocked now g = (room, g') →
  shrunk now g g' ∧ (room = true → 0 < gu_maxTrackedIPs g → Z.of_nat (size (gu_records g')) < gu_maxTrackedIPs g).
Proof.
  intros Hok. unfold ensureCapacityLocked. pose proof (cleanup_shrunk now g) as Hsh.
  set (g1 := cleanupExpiredLocked now g) in *. assert (Hmx : gu_maxTrackedIPs g1 = gu_maxTrackedIPs g) by apply Hsh.
  case_decide as Hroom; [intros [= <- <-]; split; [done|lia]|].
  destruct (iter_spec (gu_records g1)) as [_ Hiter].
  pose proof (evict_fold now (iter (gu_records g1)) ([], 0)) as He. cbn zeta in He.
  set (ip := (foldl _ _ _).1) in *. case_decide as Hnil; [intros [= <- <-]; by split|].
  intros [= <- <-]. destruct He as [He|(r & Hin%Hiter & Hl)]; [done|]. cbn in Hin. split.
  - etrans; [done|]. rewrite <- (add_stats_0 (with_records _ _)). apply shrunk_delete. intros r' Hr'. congruence.
  - intros _ Hpos. cbn. rewrite map_size_delete, Hin. cbn.
    pose proof (shrunk_ok _ _ _ Hsh Hok) as [_ Hsize]. rewrite Hmx in *.
    assert (0 < size (gu_records g1))%nat; [|lia].
    destruct (size (gu_records g1)) eqn:Hz; [|lia]. apply map_size_empty_inv in Hz. by rewrite Hz in Hin.
Qed.

(** the address has no record that has not expired *)
Definition no_live_record (ip : bytes) (now : Z) g : Prop :=
  ∀ r, gu_records g !! ip = Some r → (expireRecordLocked ip r now g).1 = true.

(** the guard after room was made for a new record, and the record opened *)
Lemma open_record_spec ip now g o g' : guard_ok g →
  match gu_records g !! ip with Some r => isLocked r now = false | None => True end →
  open_record ip now g = (o, g') →
  shrunk now g g' ∧
  match o with
  | None => gu_records g' !! ip = None ∧ no_live_record ip now g
  | Some r => gu_records g' !! ip = Some r ∧ gu_records g !! ip = Some r ∧ (expireRecordLocked ip r now g).1 = false ∨
              r = mkFailure 0 0 0 ∧ gu_records g' !! ip = None ∧ no_live_record ip now g ∧
              (0 < gu_maxTrackedIPs g → Z.of_nat (size (gu_records g')) < gu_maxTrackedIPs g)
  end.
Proof.
  intros Hok Hnl. unfold open_record.
  assert (∀ g1 o g', shrunk now g g1 → gu_records g1 !! ip = None →
    (let '(room, g) := ensureCapacityLocked now g1 in (if room then Some (mkFailure 0 0 0) else None, g)) = (o, g') →
    shrunk now g g' ∧ gu_records g' !! ip = None ∧
    (is_Some o → o = Some (mkFailure 0 0 0) ∧
      (0 < gu_maxTrackedIPs g → Z.of_nat (size (gu_records g')) < gu_maxTrackedIPs g))) as Hfresh.
  { intros g1 o1 g1' Hsh Hnone. destruct (ensureCapacityLocked now g1) as [room g2] eqn:He.
    apply ensureCapacity_spec in He as [Hsh2 Hroom]; [|by eapply shrunk_ok].
    assert (gu_maxTrackedIPs g1 = gu_maxTrackedIPs g) as Hmx by apply Hsh. rewrite Hmx in Hroom.
    intros [= <- <-]. split; [by etrans|]. split.
    - destruct (gu_records g2 !! ip) eqn:H2; [|done]. destruct Hsh2 as (_ & Hsub & _).
      by rewrite (lookup_weaken _ _ _ _ H2 Hsub) in Hnone.
    - destruct room; [|by intros []]. auto. }
  destruct (gu_records g !! ip) as [r|] eqn:Hr.
  - destruct (expireRecordLocked ip r now g) as [ex g1] eqn:He.
    assert (shrunk now g g1) as Hsh.
    { pose proof (expire_shrunk ip r now g ltac:(by left) (unlocked_zero r now)) as Hsh. by rewrite He in Hsh. }
    destruct ex.
    + assert (gu_records g1 !! ip = None) as Hnone.
      { revert He. unfold expireRecordLocked. repeat case_decide; intros [= <-]; cbn; by rewrite lookup_delete_eq. }
      assert (no_live_record ip now g) as Hno by (intros r' Hr'; simplify_eq; by rewrite He).
      intros Ho. destruct (Hfresh g1 o g' Hsh Hnone Ho) as (? & ? & Hs). split; [done|].
      destruct o as [r'|]; [|done]. destruct (Hs ltac:(by eexists)) as [[= ->] ?]. by right.
    + intros [= <- <-]. split; [done|]. left. split; [|by rewrite He].
      revert He. unfold expireRecordLocked. repeat case_decide; by intros [= <-].
  - assert (no_live_record ip now g) as Hno by (intros r' Hr'; congruence).
    intros Ho. destruct (Hfresh g o g' ltac:(done) Hr Ho) as (? & ? & Hs). split; [done|].
    destruct o as [r'|]; [|done]. destruct (Hs ltac:(by eexists)) as [[= ->] ?]. by right.
Qed.

(** the record after one more failure *)
Definition counted g (now f : Z) : authFailureRecord :=
  mkFailure (f + 1) now (if decide (f + 1 >= gu_maxFailures g) then now + gu_lockDuration g else 0).

Lemma count_failure_spec ip now r f g :
  fr_lockedUntil r = 0 → fr_failures r = f → ¬ (fr_lastFailureAt r ≠ 0 ∧ now - fr_lastFailureAt r >= gu_lockDuration g) →
  (count_failure ip now r g).1 = bool_decide (f + 1 >= gu_maxFailures g) ∧
  gu_records (count_failure ip now r g).2 = <[ip := counted g now f]> (gu_records g) ∧
  same_config g (count_failure ip now r g).2.
Proof.
  intros Hz <- Hold. unfold count_failure, counted. rewrite (decide_False (P := _ ∧ _)) by done.
  case_decide; cbn; [by rewrite bool_decide_true|]. by rewrite bool_decide_false, Hz by done.
Qed.

Lemma not_expired ip r now g : (expireRecordLocked ip r now g).1 = false → isLocked r now = false →
  fr_lockedUntil r = 0 ∧ ¬ (fr_lastFailureAt r ≠ 0 ∧ now - fr_lastFailureAt r >= gu_lockDuration g).
Proof.
  unfold expireRecordLocked, isLocked. repeat case_decide; cbn; try done; intros _ Hl.
  - apply andb_false_iff in Hl as [Hl|Hl]; [|lia]. apply negb_false_iff, Z.eqb_eq in Hl. lia.
Qed.

(** a failure of a client that is not locked: counted, or not counted for lack of room *)
Lemma RecordAuthFailure_spec addr now g : guard_ok g → active (Some g) = true →
  let ip := authBruteforceClientIP addr in
  ip ≠ [] → match gu_records g !! ip with Some r => isLocked r now = false | None => True end →
  ∃ g1, shrunk now g g1 ∧
    let '(b, g') := RecordAuthFailure addr false now g in
    (b = false ∧ g' = g1 ∧ no_live_record ip now g ∧ gu_maxTrackedIPs g <= Z.of_nat (size (gu_records g))) ∨
    ∃ f, b = bool_decide (f + 1 >= gu_maxFailures g) ∧ same_config g g' ∧
      gu_records g' = <[ip := counted g now f]> (gu_records g1) ∧
      (f = 0 ∧ no_live_record ip now g ∧ (0 < gu_maxTrackedIPs g → Z.of_nat (size (gu_records g1)) < gu_maxTrackedIPs g) ∨
       ∃ r, gu_records g !! ip = Some r ∧ gu_records g1 !! ip = Some r ∧ f = fr_failures r ∧ fr_lockedUntil r = 0).
Proof.
  intros Hok Hact ip Hip Hnl. unfold RecordAuthFailure. rewrite Hact. cbn [negb orb]. fold ip.
  rewrite decide_False by done.
  assert (match gu_records g !! ip with Some r => isLocked r now | None => false end = false) as ->
    by (by destruct (gu_records g !! ip)).
  destruct (open_record ip now g) as [o g1] eqn:Ho. exists g1.
  pose proof (open_record_spec ip now g o g1 Hok Hnl Ho) as [Hsh Hspec]. split; [done|].
  assert (gu_maxFailures g1 = gu_maxFailures g ∧ gu_lockDuration g1 = gu_lockDuration g) as [Hmf Hld]
    by (split; apply Hsh).
  destruct o as [r|].
  - destruct (count_failure ip now r g1) as [b g'] eqn:Hc. right.
    assert (fr_lockedUntil r = 0 ∧ ¬ (fr_lastFailureAt r ≠ 0 ∧ now - fr_lastFailureAt r >= gu_lockDuration g1)) as [Hz Hold].
    { destruct Hspec as [(_ & Hr & He)|(-> & _)]; [|split; cbn; [done|lia]].
      rewrite Hr in Hnl. destruct (not_expired ip r now g He Hnl). by rewrite Hld. }
    pose proof (count_failure_spec ip now r (fr_failures r) g1 Hz eq_refl Hold) as (Hb & Hrec & Hsc).
    rewrite Hc in Hb, Hrec, Hsc. cbn in Hb, Hrec, Hsc. exists (fr_failures r).
    split; [by rewrite <- Hmf|]. split; [etrans; [apply Hsh|done]|].
    split; [rewrite Hrec; unfold counted; by rewrite Hmf, Hld|].
    destruct Hspec as [(? & ? & _)|(-> & _ & ? & ?)]; [right; by exists r|left; by cbn].
  - left. split; [done|]. split; [done|]. split; [apply Hspec|].
    destruct (decide (Z.of_nat (size (gu_records g)) < gu_maxTrackedIPs g)) as [Hlt|]; [|lia]. exfalso.
    assert (∀ g2, shrunk now g g2 → (ensureCapacityLocked now g2).1 = true) as Hroom.
    { intros g2 Hs2. unfold ensureCapacityLocked. pose proof (cleanup_shrunk now g2) as Hs3.
      assert (shrunk now g (cleanupExpiredLocked now g2)) as ((_ & _ & _ & Hm) & Hsub & _) by (by etrans).
      apply map_subseteq_size in Hsub. rewrite decide_True; [done|]. rewrite Hm. lia. }
    revert Ho. unfold open_record. destruct (gu_records g !! ip) as [r|] eqn:Hr.
    + pose proof (expire_shrunk ip r now g ltac:(by left) (unlocked_zero r now)) as Hs2.
      destruct (expireRecordLocked ip r now g) as [[] g2]; [|done]. specialize (Hroom g2 Hs2).
      destruct (ensureCapacityLocked now g2) as [room ?]. cbn in Hroom. by subst room.
    + specialize (Hroom g ltac:(done)). destruct (ensureCapacityLocked now g) as [room ?]. cbn in Hroom. by subst room.
Qed.

Lemma counted_ok g ip now f : ip ≠ [] → 0 < now → 0 < gu_lockDuration g → 0 <= f < gu_maxFailures g →
  record_ok g ip (counted g now f).
Proof.
  intros Hip Hnow Hld Hf. unfold record_ok, counted. cbn. split; [done|]. split; [lia|].
  destruct (decide (f + 1 >= gu_maxFailures g)).
  - rewrite decide_False by lia. lia.
  - rewrite decide_True by done. lia.
Qed.

Lemma guard_ok_insert g g' ip r : same_config g g' → guard_ok g →
  record_ok g ip r → (is_Some (gu_records g !! ip) ∨ Z.of_nat (size (gu_records g)) < gu_maxTrackedIPs g) →
  gu_records g' = <[ip := r]> (gu_records g) → guard_ok g'.
Proof.
  intros (_ & Hmf & Hld & Hmx) [Hall Hsize] Hr Hroom Hrec. unfold guard_ok. rewrite Hrec, Hmx. split.
  - assert (∀ ip r, record_ok g ip r → record_ok g' ip r) as Hsame
      by (unfold record_ok; by rewrite Hmf, Hld).
    apply map_Forall_insert_2; [by apply Hsame|]. intros ip' r' Hr'. apply Hsame. by apply Hall.
  - rewrite map_size_insert. destruct Hroom as [[r0 Hr0]|Hlt]; [rewrite Hr0; cbn; lia|].
    destruct (gu_records g !! ip); cbn; lia.
Qed.

Lemma RecordAuthFailure_ok addr now g : guard_ok g → 0 < now → 0 < gu_maxTrackedIPs g →
  let g' := (RecordAuthFailure addr false now g).2 in
  guard_ok g' ∧ same_config g g' ∧
  ∀ ip r, gu_records g !! ip = Some r → isLocked r now = true → gu_records g' !! ip = Some r.
Proof.
  intros Hok Hnow Hmx. cbn zeta.
  destruct (active (Some g)) eqn:Hact; [|unfold RecordAuthFailure; by rewrite Hact].
  destruct (decide (authBruteforceClientIP addr = [])) as [He|Hip].
  { unfold RecordAuthFailure. rewrite Hact. cbn. by rewrite decide_True. }
  destruct (match gu_records g !! authBruteforceClientIP addr with Some r => isLocked r now | None => false end) eqn:Hl.
  { unfold RecordAuthFailure. rewrite Hact. cbn. rewrite decide_False by done. by rewrite Hl. }
  pose proof (RecordAuthFailure_spec addr now g Hok Hact Hip
    ltac:(destruct (gu_records g !! authBruteforceClientIP addr); [done|done])) as (g1 & Hsh & Hcase).
  destruct (RecordAuthFailure addr false now g) as [b g']. cbn [snd].
  pose proof (shrunk_ok _ _ _ Hsh Hok) as Hok1. destruct Hsh as (Hsc & Hsub & Hkeep).
  destruct Hcase as [(_ & -> & _)|(f & _ & Hsc' & Hrec & Hf)]; [done|].
  assert (Hcfg : 0 < gu_maxFailures g ∧ 0 < gu_lockDuration g).
  { cbn in Hact. apply andb_prop in Hact as [[_ ?]%andb_prop ?]. lia. }
  assert (Hrange : 0 <= f < gu_maxFailures g).
  { destruct Hf as [(-> & _)|(r & Hr & _ & -> & Hz)]; [lia|]. destruct Hok as [Hall _].
    destruct (Hall _ r Hr) as (_ & _ & Hro). rewrite decide_True in Hro by done. lia. }
  assert (same_config g1 g') as Hsc1.
  { destruct Hsc as (?&?&?&?), Hsc' as (?&?&?&?). repeat split; congruence. }
  split; [|split; [done|]].
  - eapply guard_ok_insert; [done|done| | |exact Hrec].
    + pose proof (counted_ok g (authBruteforceClientIP addr) now f Hip Hnow ltac:(lia) Hrange) as Hc.
      unfold record_ok in *. destruct Hsc as (_ & -> & -> & _). done.
    + destruct Hsc as (_ & _ & _ & ->). destruct Hf as [(_ & _ & Hsz)|(r & _ & Hr & _)]; [right; lia|left; by eexists].
  - intros ip r Hr Hlk. rewrite Hrec, lookup_insert_ne; [by apply Hkeep|].
    intros <-. by rewrite Hr, Hlk in Hl.
Qed.

(** ** Runs *)
Inductive gop :=
| GBefore (addr : bytes) (authorized : bool) (now : Z)
| GFailure (addr : bytes) (authorized : bool) (now : Z)
| GSuccess (addr : bytes)
| GStats (now : Z).

Definition gop_time (o : gop) : option Z :=
  match o with GBefore _ _ t | GFailure _ _ t | GStats t => Some t | GSuccess _ => None end.

Definition run_gop g (o : gop) : AuthBruteforceGuard :=
  match o with
  | GBefore addr auth now => (BeforeAuth addr auth now g).2
  | GFailure addr auth now => (RecordAuthFailure addr auth now g).2
  | GSuccess addr => RecordAuthSuccess addr g
  | GStats now => (Stats now g).2
  end.

(** operations at times after the zero time *)
Definition timed (o : gop) : Prop := match gop_time o with Some t => 0 < t | None => True end.

(** operations before a time that do not clear the records of a client *)
Definition harmless (ip : bytes) (until : Z) (o : gop) : Prop :=
  match o with
  | GSuccess addr => authBruteforceClientIP addr ≠ ip
  | _ => match gop_time o with Some t => t < until | None => True end
  end.

Lemma BeforeAuth_shrunk addr auth now g : shrunk now g (BeforeAuth addr auth now g).2.
Proof.
  unfold BeforeAuth. destruct (_ || _); [done|]. case_decide; [done|].
  destruct (gu_records g !! _) as [r|] eqn:Hr; [|done]. destruct (isLocked r now); [done|].
  apply expire_shrunk; [by left|apply unlocked_zero].
Qed.

Lemma RecordAuthFailure_authorized addr now g : RecordAuthFailure addr true now g = (false, g).
Proof. unfold RecordAuthFailure. by rewrite orb_true_r. Qed.

Lemma delete_ok g ip : guard_ok g → guard_ok (with_records (delete ip (gu_records g)) g).
Proof.
  intros [Hall Hsize]. split; cbn.
  - by apply map_Forall_delete.
  - pose proof (map_subseteq_size _ _ (delete_subseteq (gu_records g) ip)). lia.
Qed.

Lemma run_gop_ok o g : guard_ok g → timed o → 0 < gu_maxTrackedIPs g →
  guard_ok (run_gop g o) ∧ same_config g (run_gop g o).
Proof.
  intros Hok Ht Hmx. destruct o as [addr auth now|addr auth now|addr|now]; cbn [run_gop].
  - pose proof (BeforeAuth_shrunk addr auth now g) as Hsh. split; [by eapply shrunk_ok|apply Hsh].
  - destruct auth; [by rewrite RecordAuthFailure_authorized|].
    destruct (RecordAuthFailure_ok addr now g Hok Ht Hmx) as (? & ? & _). done.
  - unfold RecordAuthSuccess. destruct (negb _); [done|]. case_decide; [done|]. split; [by apply delete_ok|done].
  - pose proof (cleanup_shrunk now g) as Hsh. split; [by eapply shrunk_ok|apply Hsh].
Qed.

Lemma run_gops_ok l g : guard_ok g → Forall timed l → 0 < gu_maxTrackedIPs g →
  guard_ok (foldl run_gop g l) ∧ same_config g (foldl run_gop g l).
Proof.
  revert g. induction l as [|o l IH]; intros g Hok Hl Hmx; [done|]. apply Forall_cons in Hl as [Ho Hl].
  destruct (run_gop_ok o g Hok Ho Hmx) as [Hok' Hsc]. cbn [foldl].
  destruct (IH (run_gop g o) Hok' Hl) as [? ?]; [destruct Hsc as (_&_&_&->); done|]. split; [done|by etrans].
Qed.

Lemma new_ok enabled mf ld : guard_ok (newAuthBruteforceGuard enabled mf ld).
Proof. split; [apply map_Forall_empty|]. cbn. rewrite map_size_empty. unfold authBruteforceMaxTrackedIPs. lia. Qed.

Lemma locked_before r t until : fr_lockedUntil r = until → until ≠ 0 → t < until → isLocked r t = true.
Proof. intros <- Hz Ht. unfold isLocked. apply andb_true_iff. split; [apply negb_true_iff|]; lia. Qed.

Lemma run_gop_keeps o g ip r : guard_ok g → timed o → 0 < gu_maxTrackedIPs g →
  gu_records g !! ip = Some r → fr_lockedUntil r ≠ 0 → harmless ip (fr_lockedUntil r) o →
  gu_records (run_gop g o) !! ip = Some r.
Proof.
  intros Hok Ht Hmx Hr Hz Hh. destruct o as [addr auth now|addr auth now|addr|now]; cbn [run_gop].
  - apply BeforeAuth_shrunk; [done|]. by eapply locked_before.
  - destruct auth; [by rewrite RecordAuthFailure_authorized|].
    destruct (RecordAuthFailure_ok addr now g Hok Ht Hmx) as (_ & _ & Hk). apply Hk; [done|]. by eapply locked_before.
  - unfold RecordAuthSuccess. destruct (negb _); [done|]. case_decide; [done|]. cbn.
    by rewrite lookup_delete_ne.
  - apply cleanup_shrunk; [done|]. by eapply locked_before.
Qed.

(** C21: whatever clients do, the guard tracks at most 4096 addresses and counts at most
    the allowed failures for each, and an address that is locked stays locked: until the
    lock runs out, no operation of any client lets one of its attempts through, unless a
    client at that address proves to know the password. *)
Theorem auth_lock_holds (enabled : bool) (maxFailures lockDuration : Z) (l l' : list gop)
    (addr : bytes) (r : authFailureRecord) (now : Z) :
  Forall timed l → Forall timed l' →
  let g := foldl run_gop (newAuthBruteforceGuard enabled maxFailures lockDuration) l in
  let ip := authBruteforceClientIP addr in
  active (Some g) = true → gu_records g !! ip = Some r → fr_lockedUntil r ≠ 0 →
  Forall (harmless ip (fr_lockedUntil r)) l' → now < fr_lockedUntil r →
  Z.of_nat (size (gu_records g)) <= authBruteforceMaxTrackedIPs ∧
  fr_failures r <= maxFailures ∧ fr_lockedUntil r = fr_lastFailureAt r + lockDuration ∧
  (BeforeAuth addr false now (foldl run_gop g l')).1 = true.
Proof.
  intros Hl Hl' g ip Hact Hr Hz Hh Hnow.
  destruct (run_gops_ok l (newAuthBruteforceGuard enabled maxFailures lockDuration) (new_ok _ _ _) Hl ltac:(done))
    as [Hok (_ & Hmf & Hld & Hmx)]. fold g in Hok, Hmf, Hld, Hmx. cbn in Hmf, Hld, Hmx.
  destruct (proj1 Hok _ _ Hr) as (Hip & _ & Hro). rewrite decide_False in Hro by done. rewrite Hmf, Hld in Hro.
  split; [rewrite <- Hmx; apply Hok|]. split; [lia|]. split; [lia|].
  assert (0 < gu_maxTrackedIPs g) as Hpos by (rewrite Hmx; done).
  clearbody g. clear Hl Hmf Hld Hmx Hro. revert g Hok Hact Hr Hpos.
  induction l' as [|o l' IH]; intros g Hok Hact Hr Hpos; cbn [foldl].
  - unfold BeforeAuth. rewrite Hact. cbn [negb orb]. fold ip. rewrite decide_False by done. rewrite Hr.
    by rewrite (locked_before r now _ eq_refl).
  - apply Forall_cons in Hl' as [Ho Hl'], Hh as [Hho Hh].
    destruct (run_gop_ok o g Hok Ho Hpos) as [Hok' (He & Hm & Hd & Hx)]. apply IH; try done.
    + revert Hact. cbn. by rewrite He, Hm, Hd.
    + by eapply run_gop_keeps.
    + by rewrite Hx.
Qed.

(** ** Guessing is throttled *)

(** one attempt with a wrong password by a client that is not logged in: [handleLegacyAuth]
    and [handleACLAuth] ask [BeforeAuth] first; the result says whether the password was
    looked at *)
Definition attempt (addr : bytes) (now : Z) g : bool * AuthBruteforceGuard :=
  let '(refused, g) := BeforeAuth addr false now g in
  if refused : bool then (false, g) else (true, (RecordAuthFailure addr false now g).2).

Fixpoint attempts (addr : bytes) (ts : list Z) g : Z * AuthBruteforceGuard :=
  match ts with
  | [] => (0, g)
  | t :: ts =>
      let '(checked, g) := attempt addr t g in
      let '(n, g) := attempts addr ts g in
      ((if checked : bool then n + 1 else n), g)
  end.

(** guesses left to an address in the window that starts at [t0] *)
Definition budget (ip : bytes) (t0 : Z) g : Z :=
  match gu_records g !! ip with
  | Some r => if decide (t0 <= fr_lastFailureAt r)
              then (if decide (fr_lockedUntil r = 0) then gu_maxFailures g - fr_failures r else 0)
              else gu_maxFailures g
  | None => gu_maxFailures g
  end.

(** there is room for the address *)
Definition has_room (ip : bytes) g : Prop :=
  is_Some (gu_records g !! ip) ∨ Z.of_nat (size (gu_records g)) < gu_maxTrackedIPs g.

Lemma budget_counted g g' ip t0 now f m : t0 <= now → 0 < now → 0 < gu_lockDuration g →
  same_config g g' → gu_records g' = <[ip := counted g now f]> m → 0 <= f →
  budget ip t0 g' <= Z.max 0 (gu_maxFailures g - f - 1).
Proof.
  intros Ht Hnow Hld (_ & Hmf & _) Hrec Hf. unfold budget. rewrite Hrec, lookup_insert_eq, Hmf.
  unfold counted. cbn [fr_lastFailureAt fr_lockedUntil fr_failures]. rewrite decide_True by done.
  destruct (decide (f + 1 >= gu_maxFailures g)); [rewrite decide_False by lia; lia|]. rewrite decide_True by done. lia.
Qed.

(** a failure on an address whose record has not expired uses up a guess *)
Lemma failure_budget addr t0 now g :
  let ip := authBruteforceClientIP addr in
  guard_ok g → active (Some g) = true → ip ≠ [] → has_room ip g → 0 < t0 → t0 <= now →
  match gu_records g !! ip with Some r => isLocked r now = false ∧ (expireRecordLocked ip r now g).1 = false | None => True end →
  let g' := (RecordAuthFailure addr false now g).2 in
  has_room ip g' ∧ budget ip t0 g' <= budget ip t0 g - 1.
Proof.
  intros ip Hok Hact Hip Hroom Ht0 Hnow Hlive. cbn zeta.
  assert (Hcfg : 0 < gu_maxFailures g ∧ 0 < gu_lockDuration g).
  { cbn in Hact. apply andb_prop in Hact as [[_ ?]%andb_prop ?]. lia. }
  assert (match gu_records g !! ip with Some r => isLocked r now = false | None => True end) as Hnl
    by (destruct (gu_records g !! ip); [apply Hlive|done]).
  pose proof (RecordAuthFailure_spec addr now g Hok Hact Hip Hnl) as (g1 & Hsh & Hcase).
  destruct (RecordAuthFailure addr false now g) as [b g']. cbn [snd]. fold ip in Hcase.
  assert (no_live_record ip now g → gu_records g !! ip = None) as Hno.
  { intros Hnl'. destruct (gu_records g !! ip) as [r|] eqn:Hr; [|done]. specialize (Hnl' r Hr). destruct Hlive. congruence. }
  destruct Hcase as [(_ & _ & Hnone%Hno & Hfull)|(f & _ & Hsc & Hrec & Hf)].
  { destruct Hroom as [[r Hr]|?]; [congruence|lia]. }
  assert (0 <= f < gu_maxFailures g) as Hf0.
  { destruct Hf as [(-> & _)|(r & Hr & _ & -> & Hz)]; [lia|]. destruct (proj1 Hok _ r Hr) as (_ & _ & Hro).
    rewrite decide_True in Hro by done. lia. }
  split; [left; rewrite Hrec, lookup_insert_eq; by eexists|].
  pose proof (budget_counted g g' ip t0 now f _ ltac:(lia) ltac:(lia) ltac:(lia) Hsc Hrec ltac:(lia)) as Hb.
  assert (gu_maxFailures g - f <= budget ip t0 g); [|lia]. unfold budget.
  destruct Hf as [(-> & Hnone%Hno & _)|(r & Hr & Hr1 & -> & Hz)]; [rewrite Hnone; lia|].
  rewrite Hr, (decide_True (P := fr_lockedUntil r = 0)) by done. case_decide; lia.
Qed.

(** [BeforeAuth] expires a record that is due, so that what is left is locked or alive *)
Lemma BeforeAuth_spec addr now g :
  let ip := authBruteforceClientIP addr in
  active (Some g) = true → ip ≠ [] →
  let '(refused, g') := BeforeAuth addr false now g in
  if refused : bool then g' = g ∧ ∃ r, gu_records g !! ip = Some r ∧ isLocked r now = true
  else (gu_records g' !! ip = None ∧ no_live_record ip now g ∧
          (is_Some (gu_records g !! ip) → (size (gu_records g') < size (gu_records g))%nat) ∧
          (gu_records g !! ip = None → g' = g)) ∨
       (g' = g ∧ ∃ r, gu_records g !! ip = Some r ∧ isLocked r now = false ∧ (expireRecordLocked ip r now g).1 = false).
Proof.
  intros ip Hact Hip. unfold BeforeAuth. rewrite Hact. cbn [negb orb]. fold ip. rewrite decide_False by done.
  destruct (gu_records g !! ip) as [r|] eqn:Hr.
  2: { left. split; [done|]. split; [intros r' Hr'; congruence|]. by split; [intros []|]. }
  destruct (isLocked r now) eqn:Hl; [by eauto|].
  destruct (expireRecordLocked ip r now g) as [ex g'] eqn:He. cbn [snd]. destruct ex.
  - left. assert (gu_records g' = delete ip (gu_records g)) as Hdel.
    { revert He. unfold expireRecordLocked. repeat case_decide; by intros [= <-]. }
    rewrite Hdel, lookup_delete_eq. split; [done|]. split; [intros r' Hr'; simplify_eq; by rewrite He|].
    split; [|done]. intros _. rewrite map_size_delete, Hr. cbn.
    assert (size (gu_records g) ≠ 0)%nat; [|lia]. intros Hz%map_size_empty_inv. by rewrite Hz in Hr.
  - right. split; [|exists r; by rewrite He]. revert He. unfold expireRecordLocked. by repeat case_decide; intros [= <-].
Qed.

(** a record that expires in the window was not used in it *)
Lemma expired_old ip t0 now r g : record_ok g ip r → now < t0 + gu_lockDuration g →
  (expireRecordLocked ip r now g).1 = true → fr_lastFailureAt r < t0.
Proof.
  intros (_ & _ & Hro) Hnow. unfold expireRecordLocked. repeat case_decide; cbn; try done; lia.
Qed.

Lemma attempt_budget addr t0 now g :
  let ip := authBruteforceClientIP addr in
  guard_ok g → active (Some g) = true → ip ≠ [] → has_room ip g → 0 < t0 → t0 <= now < t0 + gu_lockDuration g →
  let '(checked, g') := attempt addr now g in
  has_room ip g' ∧ budget ip t0 g' <= budget ip t0 g - (if checked : bool then 1 else 0).
Proof.
  intros ip Hok Hact Hip Hroom Ht0 Hnow. unfold attempt.
  pose proof (BeforeAuth_spec addr now g Hact Hip) as HB. fold ip in HB.
  pose proof (BeforeAuth_shrunk addr false now g) as Hsh.
  destruct (BeforeAuth addr false now g) as [refused g1]. cbn [snd] in Hsh.
  destruct refused; [destruct HB as [-> _]; split; [done|lia]|].
  assert (active (Some g1) = true) as Hact1.
  { destruct Hsh as ((He & Hm & Hd & _) & _). revert Hact. cbn. by rewrite He, Hm, Hd. }
  assert (gu_maxFailures g1 = gu_maxFailures g ∧ gu_maxTrackedIPs g1 = gu_maxTrackedIPs g) as [Hmf Hmx] by (split; apply Hsh).
  pose proof (shrunk_ok _ _ _ Hsh Hok) as Hok1.
  destruct HB as [(Hnone & Hno & Hsz & Hsame)|(-> & r & Hr & Hlive)].
  - assert (has_room ip g1) as Hroom1.
    { right. rewrite Hmx. destruct Hroom as [Hs|?].
      - specialize (Hsz Hs). destruct Hok as [_ Hle]. lia.
      - destruct Hsh as (_ & Hsub & _). apply map_subseteq_size in Hsub. lia. }
    assert (budget ip t0 g1 = budget ip t0 g) as Hbud.
    { unfold budget. rewrite Hnone, Hmf. destruct (gu_records g !! ip) as [r|] eqn:Hr; [|done].
      rewrite decide_False; [done|]. pose proof (expired_old ip t0 now r g (proj1 Hok _ _ Hr) ltac:(lia) (Hno r Hr)). lia. }
    pose proof (failure_budget addr t0 now g1 Hok1 Hact1 Hip Hroom1 Ht0 ltac:(lia)) as Hfb. fold ip in Hfb.
    rewrite Hnone in Hfb. specialize (Hfb I). cbn [fst snd] in *. destruct Hfb. split; [done|lia].
  - pose proof (failure_budget addr t0 now g Hok Hact Hip Hroom Ht0 ltac:(lia)) as Hfb. fold ip in Hfb.
    rewrite Hr in Hfb. specialize (Hfb Hlive). cbn [fst snd] in *. destruct Hfb. split; [done|lia].
Qed.

Lemma attempt_ok addr now g : guard_ok g → 0 < now → 0 < gu_maxTrackedIPs g →
  guard_ok (attempt addr now g).2 ∧ same_config g (attempt addr now g).2.
Proof.
  intros Hok Hnow Hmx. unfold attempt. pose proof (BeforeAuth_shrunk addr false now g) as Hsh.
  destruct (BeforeAuth addr false now g) as [refused g1]. cbn [snd] in Hsh.
  pose proof (shrunk_ok _ _ _ Hsh Hok) as Hok1.
  destruct refused; cbn [snd]; [split; [done|apply Hsh]|].
  destruct (RecordAuthFailure_ok addr now g1 Hok1 Hnow) as (? & ? & _); [destruct Hsh as ((_&_&_&->)&_); done|].
  split; [done|]. etrans; [apply Hsh|done].
Qed.

Lemma attempts_budget addr t0 ts : ∀ g,
  let ip := authBruteforceClientIP addr in
  guard_ok g → active (Some g) = true → ip ≠ [] → has_room ip g → 0 < t0 → 0 < gu_maxTrackedIPs g →
  Forall (λ t, t0 <= t < t0 + gu_lockDuration g) ts →
  (attempts addr ts g).1 <= budget ip t0 g.
Proof.
  induction ts as [|t ts IH]; intros g ip Hok Hact Hip Hroom Ht0 Hmx Hts; cbn [attempts].
  - cbn [fst]. unfold budget. assert (0 < gu_maxFailures g).
    { cbn in Hact. apply andb_prop in Hact as [[_ ?]%andb_prop ?]. lia. }
    destruct (gu_records g !! ip) as [r|] eqn:Hr; [|lia]. destruct (proj1 Hok _ _ Hr) as (_ & _ & Hro).
    repeat case_decide; lia.
  - apply Forall_cons in Hts as [Ht Hts].
    pose proof (attempt_budget addr t0 t g Hok Hact Hip Hroom Ht0 Ht) as Hb.
    pose proof (attempt_ok addr t g Hok ltac:(lia) Hmx) as [Hok1 (He & Hm & Hd & Hx)].
    destruct (attempt addr t g) as [checked g1]. cbn [snd] in *. destruct Hb as [Hroom1 Hb].
    specialize (IH g1 Hok1). destruct (attempts addr ts g1) as [n g2]. cbn [fst] in *.
    fold ip in Hb. assert (n <= budget ip t0 g1); [|destruct checked; lia].
    apply IH; try done; [|by rewrite Hx|by rewrite Hd]. revert Hact. cbn. by rewrite He, Hm, Hd.
Qed.

(** guessing is throttled: in any period shorter than the lock time, however many
    attempts an address makes, at most the allowed number of wrong passwords is looked
    at, as long as the table has room for the address when the period starts. *)
Theorem auth_throttled (enabled : bool) (maxFailures lockDuration : Z) (l : list gop)
    (addr : bytes) (t0 : Z) (ts : list Z) :
  Forall timed l →
  let g := foldl run_gop (newAuthBruteforceGuard enabled maxFailures lockDuration) l in
  active (Some g) = true → authBruteforceClientIP addr ≠ [] →
  Z.of_nat (size (gu_records g)) < authBruteforceMaxTrackedIPs →
  0 < t0 → Forall (λ t, t0 <= t < t0 + lockDuration) ts →
  (attempts addr ts g).1 <= maxFailures.
Proof.
  intros Hl g Hact Hip Hsize Ht0 Hts.
  destruct (run_gops_ok l (newAuthBruteforceGuard enabled maxFailures lockDuration) (new_ok _ _ _) Hl ltac:(done))
    as [Hok (_ & Hmf & Hld & Hmx)]. fold g in Hok, Hmf, Hld, Hmx. cbn in Hmf, Hld, Hmx.
  etrans; [eapply (attempts_budget addr t0); try done|].
  - right. by rewrite Hmx.
  - by rewrite Hmx.
  - by rewrite Hld.
  - assert (0 < gu_maxFailures g) by (cbn in Hact; apply andb_prop in Hact as [[_ ?]%andb_prop ?]; lia).
    unfold budget. destruct (gu_records g !! _) as [r|] eqn:Hr; [|lia].
    destruct (proj1 Hok _ _ Hr) as (_ & _ & Hro). repeat case_decide; lia.
Qed.

End guard.

(** * Concrete runs: three failures lock an address for 1000 ns *)
#[local] Instance demo_addresses : Addresses.
Proof.
  exists (λ h, match h with [] => None | _ => Some h end). by intros [|c h] ip [= <-].
Defined.
#[local] Instance demo_range : MapRange := {| iter := map_to_list; iter_perm := λ m, reflexivity _ |}.

Definition demo_addr : bytes := bstr "10.0.0.7:5123".
Definition demo_ops : list gop :=
  [GFailure demo_addr false 100; GFailure demo_addr false 200; GBefore demo_addr false 250; GFailure demo_addr false 300].

Lemma auth_lock_holds_witness :
  (BeforeAuth demo_addr false 1200 (foldl run_gop (foldl run_gop (newAuthBruteforceGuard true 3 1000) demo_ops)
     [GFailure (bstr "10.0.0.8:1") false 1100; GStats 1150])).1 = true.
Proof.
  apply (auth_lock_holds true 3 1000 demo_ops [GFailure (bstr "10.0.0.8:1") false 1100; GStats 1150]
           demo_addr (mkFailure 3 300 1300) 1200).
  - repeat (apply Forall_cons; split; [apply Z.ltb_lt; reflexivity|]). apply Forall_nil. exact I.
  - repeat (apply Forall_cons; split; [apply Z.ltb_lt; reflexivity|]). apply Forall_nil. exact I.
  - vm_compute. reflexivity.
  - vm_compute. reflexivity.
  - discriminate.
  - repeat (apply Forall_cons; split; [apply Z.ltb_lt; reflexivity|]). apply Forall_nil. exact I.
  - apply Z.ltb_lt. reflexivity.
Defined.

Lemma auth_throttled_witness :
  (attempts demo_addr [100; 200; 300; 400; 500; 600] (newAuthBruteforceGuard true 3 1000)).1 = 3 ∧
  (attempts demo_addr [100; 200; 300; 400; 500; 600] (newAuthBruteforceGuard true 3 1000)).1 <= 3.
Proof.
  split; [vm_compute; reflexivity|].
  apply (auth_throttled true 3 1000 [] demo_addr 50 [100; 200; 300; 400; 500; 600]).
  - apply Forall_nil. exact I.
  - vm_compute. reflexivity.
  - vm_compute. discriminate.
  - vm_compute. reflexivity.
  - lia.
  - repeat (apply Forall_cons; split; [lia|]). apply Forall_nil. exact I.
Defined.
