(* ===== verification/HotKeyCache.v ===== *)
(** The hot key cache of a proxy: pkg/proxy/hot_key_cache.go.

    The cache is a map of entries and the list of their keys from the most to the least
    recently used.  Every operation that takes the cache's mutex is one definition; the
    two counters that are read without it, [version] and the slots' versions, are read
    and checked by [hotKeyCacheToken] and [hotKeyCacheStore] as in the code. *)

From S2P Require Import Prelude Bufio Resp Mapper Models Router Stream Forward.
(** * The cache *)
Record hotKeyCacheKey := mkCKey { ck_database : Z; ck_key : bytes }.
#[export] Instance hotKeyCacheKey_eq_dec : EqDecision hotKeyCacheKey.
Proof. solve_decision. Defined.
#[export] Instance hotKeyCacheKey_countable : Countable hotKeyCacheKey.
Proof.
  apply (inj_countable' (λ k, (ck_database k, ck_key k)) (λ t, mkCKey t.1 t.2)). by intros [].
Defined.

Record hotKeyCacheEntry := mkEntry { he_value : bytes; he_slot : Z; he_expireAt : Z }.

Record HotKeyCache := mkCache {
  hc_enabled : bool;
  hc_ttl : Z;
  hc_maxEntries : Z;
  hc_maxValueSize : Z;
  hc_keys : list bytes;
  hc_entries : gmap hotKeyCacheKey hotKeyCacheEntry;
  hc_lru : list hotKeyCacheKey;
  hc_hits : Z;
  hc_misses : Z;
  hc_stores : Z;
  hc_invalidations : Z;
  hc_evictions : Z;
  hc_remoteInvalidations : Z;
  hc_version : Z;
}.

Definition newHotKeyCache (enabled : bool) (ttl maxEntries maxValueSize : Z) (keys : list bytes) : HotKeyCache :=
  mkCache enabled ttl maxEntries maxValueSize keys ∅ [] 0 0 0 0 0 0 0.

(** ** Field assignments *)
Definition hc_set (entries : gmap hotKeyCacheKey hotKeyCacheEntry) (lru : list hotKeyCacheKey) (c : HotKeyCache) :=
  mkCache (hc_enabled c) (hc_ttl c) (hc_maxEntries c) (hc_maxValueSize c) (hc_keys c) entries lru
    (hc_hits c) (hc_misses c) (hc_stores c) (hc_invalidations c) (hc_evictions c) (hc_remoteInvalidations c) (hc_version c).
Definition hc_count (hits misses stores invalidations evictions remote : Z) (c : HotKeyCache) :=
  mkCache (hc_enabled c) (hc_ttl c) (hc_maxEntries c) (hc_maxValueSize c) (hc_keys c) (hc_entries c) (hc_lru c)
    (hc_hits c + hits) (hc_misses c + misses) (hc_stores c + stores) (hc_invalidations c + invalidations)
    (hc_evictions c + evictions) (hc_remoteInvalidations c + remote) (hc_version c).
Definition hc_incr_version (c : HotKeyCache) :=
  mkCache (hc_enabled c) (hc_ttl c) (hc_maxEntries c) (hc_maxValueSize c) (hc_keys c) (hc_entries c) (hc_lru c)
    (hc_hits c) (hc_misses c) (hc_stores c) (hc_invalidations c) (hc_evictions c) (hc_remoteInvalidations c)
    (hc_version c + 1).

Definition Enabled (c : HotKeyCache) : bool :=
  hc_enabled c && (0 <? hc_ttl c) && (0 <? hc_maxEntries c) && negb (bool_decide (hc_keys c = [])).

Definition isConfigured (key : bytes) (c : HotKeyCache) : bool := Enabled c && bool_decide (key ∈ hc_keys c).

(** [list.Remove] and [list.MoveToFront] *)
Definition lru_remove (k : hotKeyCacheKey) (l : list hotKeyCacheKey) : list hotKeyCacheKey := filter (λ x, x ≠ k) l.
Definition lru_front (k : hotKeyCacheKey) (l : list hotKeyCacheKey) : list hotKeyCacheKey := k :: lru_remove k l.

Definition removeElement (k : hotKeyCacheKey) (eviction : bool) (c : HotKeyCache) : HotKeyCache :=
  hc_count 0 0 0 0 (if eviction then 1 else 0) 0 (hc_set (delete k (hc_entries c)) (lru_remove k (hc_lru c)) c).

(** [append([]byte(nil), b...)]: nothing appended to nil is nil *)
Definition cloned (b : bytes) : option bytes := match b with [] => None | _ => Some b end.

(** the value and [true], or [None] *)
Definition get (k : hotKeyCacheKey) (now : Z) (c : HotKeyCache) : option (option bytes) * HotKeyCache :=
  match hc_entries c !! k with
  | None => (None, hc_count 0 1 0 0 0 0 c)
  | Some e =>
      if decide (now >= he_expireAt e) then (None, hc_count 0 1 0 0 0 0 (removeElement k false c))
      else (Some (cloned (he_value e)), hc_count 1 0 0 0 0 0 (hc_set (hc_entries c) (lru_front k (hc_lru c)) c))
  end.

(** [for len(c.entries) > c.maxEntries { ... }] with at most [n] turns *)
Fixpoint evict_loop (n : nat) (c : HotKeyCache) : HotKeyCache :=
  match n with
  | O => c
  | S n =>
      if decide (Z.of_nat (size (hc_entries c)) > hc_maxEntries c) then
        match last (hc_lru c) with
        | None => c
        | Some back => evict_loop n (removeElement back true c)
        end
      else c
  end.

(** [value == nil] is [None] *)
Definition store (k : hotKeyCacheKey) (slot : Z) (value : option bytes) (now : Z) (c : HotKeyCache) : HotKeyCache :=
  match value with
  | None => c
  | Some v =>
      if negb (Enabled c) || bool_decide (Z.of_nat (length v) > hc_maxValueSize c) then c
      else
        let e := mkEntry v slot (now + hc_ttl c) in
        match hc_entries c !! k with
        | Some _ => hc_count 0 0 1 0 0 0 (hc_set (<[k := e]> (hc_entries c)) (lru_front k (hc_lru c)) c)
        | None =>
            let c := hc_count 0 0 1 0 0 0 (hc_set (<[k := e]> (hc_entries c)) (k :: hc_lru c) c) in
            evict_loop (size (hc_entries c)) c
        end
  end.

(** remove an entry that may not be there; whether it was *)
Definition drop_entry (k : hotKeyCacheKey) (c : HotKeyCache) : Z * HotKeyCache :=
  match hc_entries c !! k with
  | Some _ => (1, removeElement k false c)
  | None => (0, c)
  end.

Definition invalidateKey (database : Z) (key : bytes) (c : HotKeyCache) : HotKeyCache :=
  if negb (Enabled c) then c
  else
    let '(n, c) := drop_entry (mkCKey database key) (hc_incr_version c) in
    hc_count 0 0 0 n 0 0 c.

Fixpoint drop_entries (ks : list hotKeyCacheKey) (c : HotKeyCache) : Z * HotKeyCache :=
  match ks with
  | [] => (0, c)
  | k :: ks =>
      let '(n, c) := drop_entry k c in
      let '(m, c) := drop_entries ks c in
      (n + m, c)
  end.

Definition invalidateRemote (database : Z) (keys : list bytes) (c : HotKeyCache) : Z * HotKeyCache :=
  if negb (Enabled c) then (0, c)
  else if negb (existsb (λ key, isConfigured key c) keys) then (0, c)
  else
    let ks := mkCKey database <$> filter (λ key, key ∈ hc_keys c) keys in
    let '(n, c) := drop_entries ks (hc_incr_version c) in
    (n, hc_count 0 0 0 n 0 n c).

(** the entries a range over the map removes, in some order *)
Definition invalidate_where (P : hotKeyCacheKey → hotKeyCacheEntry → bool) (c : HotKeyCache) : HotKeyCache :=
  if negb (Enabled c) then c
  else
    let ks := (filter (λ e, P e.1 e.2 = true) (map_to_list (hc_entries c))).*1 in
    let '(n, c) := drop_entries ks (hc_incr_version c) in
    hc_count 0 0 0 n 0 0 c.

Definition invalidateDatabase (database : Z) : HotKeyCache → HotKeyCache :=
  invalidate_where (λ k _, bool_decide (ck_database k = database)).

Definition invalidateSlot (slot : Z) : HotKeyCache → HotKeyCache :=
  invalidate_where (λ _ e, bool_decide (he_slot e = slot)).

(** * The router's use of the cache *)
Record hotKeyCacheToken := mkToken {
  tk_database : Z;
  tk_key : bytes;
  tk_slot : Z;
  tk_slotVersion : Z;
  tk_cacheVersion : Z;
}.

Definition hotKeyCacheSlotStable (slot : Z) (r : Router) : bool :=
  if decide (slot < 0 ∨ MaxSlotNum <= slot) then false
  else match ro_slots r !! Z.to_nat slot with
  | None => false
  | Some s =>
      negb (rs_hold s) && bool_decide (is_Some (rs_backend_bc s)) && bool_decide (rs_migrate_bc s = None)
  end.

(** a token that is not ok is [None] *)
Definition takeToken (database : Z) (key : bytes) (r : Router) (c : HotKeyCache) : option hotKeyCacheToken :=
  if negb (isConfigured key c) then None
  else
    let slot := Hash key mod MaxSlotNum in
    let slotVersion := default 0 (ro_slotVersions r !! Z.to_nat slot) in
    if negb (hotKeyCacheSlotStable slot r) then None
    else Some (mkToken database key slot slotVersion (hc_version c)).

Definition hotKeyCacheLookup (database : Z) (key : bytes) (now : Z) (r : Router) (c : HotKeyCache)
    : option Resp * HotKeyCache :=
  match takeToken database key r c with
  | None => (None, c)
  | Some token =>
      match get (mkCKey database (tk_key token)) now c with
      | (Some value, c) => (Some (NewBulkBytes value), c)
      | (None, c) => (None, c)
      end
  end.

(** the check before a reply is stored *)
Definition token_valid (token : hotKeyCacheToken) (r : Router) (c : HotKeyCache) : bool :=
  bool_decide (default 0 (ro_slotVersions r !! Z.to_nat (tk_slot token)) = tk_slotVersion token) &&
  bool_decide (hc_version c = tk_cacheVersion token) && hotKeyCacheSlotStable (tk_slot token) r.

Definition hotKeyCacheStore (token : option hotKeyCacheToken) (resp : option Resp) (now : Z) (r : Router)
    (c : HotKeyCache) : HotKeyCache :=
  match token, resp with
  | Some t, Some resp =>
      if negb (IsBulkBytes resp) then c
      else match Value resp with
      | None => c
      | Some v =>
          if token_valid t r c
          then store (mkCKey (tk_database t) (tk_key t)) (tk_slot t) (Some v) now c
          else c
      end
  | _, _ => c
  end.

(** ** Invalidation after a write *)
Inductive hotKeyCacheInvalidationPlan :=
| NoPlan
| ClearDB (database : Z)
| ClearKeys (database : Z) (keys : list bytes).

Definition plan_active (p : hotKeyCacheInvalidationPlan) : bool :=
  match p with NoPlan => false | ClearDB _ => true | ClearKeys _ keys => negb (bool_decide (keys = [])) end.

(** the keys other proxies are told about, each once *)
Fixpoint broadcast_keys (seen keys : list bytes) (c : HotKeyCache) : list bytes :=
  match keys with
  | [] => []
  | key :: keys =>
      if bool_decide (key ∈ seen) then broadcast_keys seen keys c
      else if isConfigured key c then key :: broadcast_keys (key :: seen) keys c
      else broadcast_keys seen keys c
  end.

(** [plan.apply(resp)]: the cache afterwards and the keys to broadcast *)
Definition apply_plan (p : hotKeyCacheInvalidationPlan) (resp : option Resp) (c : HotKeyCache)
    : HotKeyCache * list bytes :=
  if negb (plan_active p) then (c, [])
  else match p with
  | NoPlan => (c, [])
  | ClearDB database => (invalidateDatabase database c, [])
  | ClearKeys database keys =>
      let bkeys := match resp with
                   | Some r => if IsError r then [] else broadcast_keys [] keys c
                   | None => []
                   end in
      (foldl (λ c key, invalidateKey database key c) c keys, bkeys)
  end.

(** [for i := 1; i+1 < len(r.Multi); i += 2] *)
Fixpoint every_other (args : list Resp) : list bytes :=
  match args with
  | k :: v :: args => val (Value k) :: every_other args
  | _ => []
  end.

(** a command that may write, and is not known to *)
Definition may_write_only (flag : Z) : bool :=
  negb (Z.land flag FlagMayWrite =? 0) && (Z.land flag FlagWrite =? 0).

Definition op_is (opstr : bytes) (name : string) : bool := bool_decide (opstr = bstr name).

Definition hotKeyCacheInvalidationPlanForRequest (r : Request) (c : HotKeyCache) : hotKeyCacheInvalidationPlan :=
  let args := tail (rq_Multi r) in
  let db := rq_Database r in
  if negb (Enabled c) || IsReadOnly (rq_OpFlag r) then NoPlan
  else if op_is (rq_OpStr r) "GET" || op_is (rq_OpStr r) "MGET" then NoPlan
  else if op_is (rq_OpStr r) "EVAL" || op_is (rq_OpStr r) "EVALSHA" then ClearDB db
  else if op_is (rq_OpStr r) "MSET" then ClearKeys db (every_other args)
  else if op_is (rq_OpStr r) "DEL" then ClearKeys db ((λ a, val (Value a)) <$> args)
  else if may_write_only (rq_OpFlag r) then ClearDB db
  else match args with
  | a :: _ => ClearKeys db [val (Value a)]
  | [] => ClearKeys db []
  end.

Definition hotKeyCacheInvalidationPlanForKeys (r : Request) (keys : list bytes) (c : HotKeyCache)
    : hotKeyCacheInvalidationPlan :=
  if negb (Enabled c) || IsReadOnly (rq_OpFlag r) then NoPlan
  else if may_write_only (rq_OpFlag r) then ClearDB (rq_Database r)
  else ClearKeys (rq_Database r) keys.

(** The hot key cache as a bounded approximation of a map: it never holds more entries
    than configured, and whatever it returns is what an unbounded map would hold. *)

Implicit Types (c : HotKeyCache) (k : hotKeyCacheKey).

(** * The bookkeeping invariant *)
Definition lru_ok c : Prop :=
  NoDup (hc_lru c) ∧ ∀ k, k ∈ hc_lru c ↔ is_Some (hc_entries c !! k).

Definition values_ok c : Prop :=
  map_Forall (λ _ e, Z.of_nat (length (he_value e)) <= hc_maxValueSize c) (hc_entries c).

Definition cache_ok c : Prop :=
  lru_ok c ∧ values_ok c ∧ Z.of_nat (size (hc_entries c)) <= Z.max 0 (hc_maxEntries c).

(** the fields set at the start *)
Definition same_setup c c' : Prop :=
  hc_enabled c' = hc_enabled c ∧ hc_ttl c' = hc_ttl c ∧ hc_maxEntries c' = hc_maxEntries c ∧
  hc_maxValueSize c' = hc_maxValueSize c ∧ hc_keys c' = hc_keys c.

#[export] Instance same_setup_preorder : PreOrder same_setup.
Proof.
  split; [by intros c|]. intros c1 c2 c3 (H1&H2&H3&H4&H5) (?&?&?&?&?). unfold same_setup.
  by rewrite <- H1, <- H2, <- H3, <- H4, <- H5.
Qed.

Lemma same_setup_Enabled c c' : same_setup c c' → Enabled c' = Enabled c.
Proof. intros (H1 & H2 & H3 & _ & H5). unfold Enabled. by rewrite H1, H2, H3, H5. Qed.

(** [c'] has lost entries of [c] *)
Definition smaller c c' : Prop := same_setup c c' ∧ hc_entries c' ⊆ hc_entries c ∧ (lru_ok c → lru_ok c').

#[export] Instance smaller_preorder : PreOrder smaller.
Proof.
  split; [by intros c|]. intros c1 c2 c3 (?&?&?) (?&?&?). split; [by etrans|]. split; [by etrans|auto].
Qed.

Lemma smaller_ok c c' : smaller c c' → cache_ok c → cache_ok c'.
Proof.
  intros ((_ & _ & Hmax & Hmv & _) & Hsub & Hlru) (Hl & Hv & Hs). split; [auto|]. split.
  - intros k e He. rewrite Hmv. eapply Hv, lookup_weaken; eauto.
  - rewrite Hmax. apply map_subseteq_size in Hsub. lia.
Qed.

Lemma lru_remove_elem k k' l : k' ∈ lru_remove k l ↔ k' ≠ k ∧ k' ∈ l.
Proof. unfold lru_remove. rewrite list_elem_of_filter. tauto. Qed.

Lemma lru_front_ok k c e : lru_ok c → lru_ok (hc_set (<[k := e]> (hc_entries c)) (lru_front k (hc_lru c)) c).
Proof.
  intros [Hnd Hin]. split; cbn.
  - apply NoDup_cons. split; [rewrite lru_remove_elem; tauto|by apply NoDup_filter].
  - intros k'. unfold lru_front. rewrite elem_of_cons, lru_remove_elem, Hin, lookup_insert_is_Some.
    destruct (decide (k' = k)); naive_solver.
Qed.

Lemma count_smaller c h m s i e r : smaller c (hc_count h m s i e r c).
Proof. done. Qed.

Lemma version_smaller c : smaller c (hc_incr_version c).
Proof. done. Qed.

Lemma remove_smaller k b c : smaller c (removeElement k b c).
Proof.
  split; [done|]. split; cbn; [apply delete_subseteq|]. intros [Hnd Hin]. split; cbn.
  - by apply NoDup_filter.
  - intros k'. rewrite lru_remove_elem, Hin, lookup_delete_is_Some. naive_solver.
Qed.

Lemma drop_entry_smaller k c : smaller c (drop_entry k c).2.
Proof. unfold drop_entry. destruct (hc_entries c !! k); [apply remove_smaller|done]. Qed.

Lemma drop_entries_smaller ks : ∀ c, smaller c (drop_entries ks c).2.
Proof.
  induction ks as [|k ks IH]; intros c; cbn [drop_entries]; [done|].
  pose proof (drop_entry_smaller k c) as H1. destruct (drop_entry k c) as [n c1]. cbn in H1.
  specialize (IH c1). destruct (drop_entries ks c1) as [m c2]. cbn in *. by etrans.
Qed.

(** what is dropped is gone *)
Lemma drop_entry_gone k c : hc_entries (drop_entry k c).2 !! k = None.
Proof. unfold drop_entry. destruct (hc_entries c !! k) eqn:E; cbn; [by rewrite lookup_delete_eq|done]. Qed.

Lemma drop_entries_gone ks k : k ∈ ks → ∀ c, hc_entries (drop_entries ks c).2 !! k = None.
Proof.
  induction ks as [|k0 ks IH]; [by intros ?%not_elem_of_nil|]. intros Hk c. cbn [drop_entries].
  pose proof (drop_entry_gone k0 c) as H0. destruct (drop_entry k0 c) as [n c1] eqn:E1. cbn in H0.
  destruct (drop_entries ks c1) as [m c2] eqn:E2. cbn.
  apply elem_of_cons in Hk as [->|Hk].
  - pose proof (drop_entries_smaller ks c1) as (_ & Hsub & _). rewrite E2 in Hsub. cbn in Hsub.
    destruct (hc_entries c2 !! k0) eqn:E; [|done]. by rewrite (lookup_weaken _ _ _ _ E Hsub) in H0.
  - specialize (IH Hk c1). by rewrite E2 in IH.
Qed.

Lemma evict_loop_smaller n : ∀ c, smaller c (evict_loop n c).
Proof.
  induction n as [|n IH]; intros c; cbn [evict_loop]; [done|]. case_decide; [|done].
  destruct (last (hc_lru c)); [|done]. etrans; [apply remove_smaller|apply IH].
Qed.

(** the loop gets below the limit *)
Lemma evict_loop_size n : ∀ c, lru_ok c → 0 <= hc_maxEntries c → (size (hc_entries c) <= n)%nat →
  Z.of_nat (size (hc_entries (evict_loop n c))) <= hc_maxEntries c.
Proof.
  induction n as [|n IH]; intros c Hl Hmax Hn; cbn [evict_loop]; [lia|]. case_decide as Hbig; [|lia].
  destruct (last (hc_lru c)) as [back|] eqn:Hlast.
  - pose proof (remove_smaller back true c) as (Hset & _ & Hl').
    assert (hc_maxEntries (removeElement back true c) = hc_maxEntries c) as <- by apply Hset.
    apply last_Some in Hlast as [l' Hlast].
    assert (is_Some (hc_entries c !! back)) as [e He] by (apply Hl; rewrite Hlast; set_solver).
    apply IH; [auto|done|]. cbn. rewrite map_size_delete, He. cbn. lia.
  - apply last_None in Hlast. destruct Hl as [_ Hin]. rewrite Hlast in Hin.
    assert (hc_entries c = ∅) as Hemp; [|rewrite Hemp, map_size_empty in *; lia].
    apply map_empty. intros k. destruct (hc_entries c !! k) eqn:E; [|done].
    exfalso. apply (not_elem_of_nil k), Hin. by eexists.
Qed.

(** * Operations *)
Inductive cop :=
| CGet (k : hotKeyCacheKey) (now : Z)
| CStore (k : hotKeyCacheKey) (slot : Z) (value : option bytes) (now : Z)
| CInvalidateKey (database : Z) (key : bytes)
| CInvalidateRemote (database : Z) (keys : list bytes)
| CInvalidateDatabase (database : Z)
| CInvalidateSlot (slot : Z).

Definition run_cop c (o : cop) : HotKeyCache :=
  match o with
  | CGet k now => (get k now c).2
  | CStore k slot value now => store k slot value now c
  | CInvalidateKey db key => invalidateKey db key c
  | CInvalidateRemote db keys => (invalidateRemote db keys c).2
  | CInvalidateDatabase db => invalidateDatabase db c
  | CInvalidateSlot slot => invalidateSlot slot c
  end.

(** ** The map the cache approximates *)
Abbreviation amap := (gmap hotKeyCacheKey hotKeyCacheEntry).

(** whether [store] takes a value *)
Definition accepted c (value : option bytes) : bool :=
  Enabled c && match value with Some v => bool_decide (Z.of_nat (length v) <= hc_maxValueSize c) | None => false end.

Definition run_amap (setup : HotKeyCache) (m : amap) (o : cop) : amap :=
  match o with
  | CGet _ _ => m
  | CStore k slot value now =>
      if accepted setup value then <[k := mkEntry (default [] value) slot (now + hc_ttl setup)]> m else m
  | CInvalidateKey db key => delete (mkCKey db key) m
  | CInvalidateRemote db keys =>
      filter (λ e, ¬ (ck_database e.1 = db ∧ ck_key e.1 ∈ keys ∧ ck_key e.1 ∈ hc_keys setup)) m
  | CInvalidateDatabase db => filter (λ e, ck_database e.1 ≠ db) m
  | CInvalidateSlot slot => filter (λ e, he_slot e.2 ≠ slot) m
  end.

Lemma get_smaller k now c : smaller c (get k now c).2 ∧ (cache_ok c → cache_ok (get k now c).2).
Proof.
  assert (smaller c (get k now c).2) as Hs; [|split; [done|by apply smaller_ok]].
  unfold get. destruct (hc_entries c !! k) as [e|] eqn:He; [|done].
  case_decide; cbn [snd]; [etrans; [apply remove_smaller|apply count_smaller]|]. split; [done|]. split; [done|].
  intros Hl%(lru_front_ok k c e). by rewrite insert_id in Hl.
Qed.

Lemma store_spec k slot value now c : cache_ok c →
  cache_ok (store k slot value now c) ∧ same_setup c (store k slot value now c) ∧
  hc_entries (store k slot value now c) ⊆
    (if accepted c value then <[k := mkEntry (default [] value) slot (now + hc_ttl c)]> (hc_entries c)
     else hc_entries c).
Proof.
  intros (Hl & Hv & Hs). unfold store, accepted. destruct value as [v|]; [|by rewrite andb_false_r].
  destruct (Enabled c) eqn:Hen; cbn [negb orb andb]; [|done].
  destruct (decide (Z.of_nat (length v) <= hc_maxValueSize c)) as [Hle|Hgt].
  2: { rewrite (bool_decide_true (_ > _)), bool_decide_false by lia. done. }
  rewrite (bool_decide_true (_ <= _)), bool_decide_false by lia. cbn [default].
  set (e := mkEntry v slot (now + hc_ttl c)).
  assert (map_Forall (λ _ e, Z.of_nat (length (he_value e)) <= hc_maxValueSize c) (<[k := e]> (hc_entries c))) as Hv'
    by (by apply map_Forall_insert_2).
  destruct (hc_entries c !! k) as [e0|] eqn:Hk.
  - split; [|done]. split; [by apply lru_front_ok|]. split; [done|]. cbn. rewrite map_size_insert, Hk. done.
  - set (c1 := hc_count _ _ _ _ _ _ _). pose proof (evict_loop_smaller (size (hc_entries c1)) c1) as Hsm.
    assert (lru_ok c1) as Hl1.
    { destruct Hl as [Hnd Hin]. split; cbn.
      - apply NoDup_cons. split; [|done]. rewrite Hin, Hk. by intros [].
      - intros k'. rewrite elem_of_cons, Hin, lookup_insert_is_Some. destruct (decide (k' = k)); naive_solver. }
    assert (0 < hc_maxEntries c) as Hmax.
    { unfold Enabled in Hen. apply andb_prop in Hen as [[_ ?]%andb_prop _]. lia. }
    destruct Hsm as (Hset & Hsub & Hlru). split; [|split; [done|exact Hsub]]. split; [auto|]. split.
    + intros k' e' He'. destruct Hset as (_ & _ & _ & -> & _). cbn. eapply Hv', lookup_weaken; eauto.
    + destruct Hset as (_ & _ & -> & _). cbn [hc_maxEntries].
      pose proof (evict_loop_size (size (hc_entries c1)) c1 Hl1 ltac:(cbn; lia) ltac:(done)) as Hsz. cbn in Hsz |- *. lia.
Qed.


Lemma drop_entries_filter ks c (P : hotKeyCacheKey * hotKeyCacheEntry → Prop) `{!∀ x, Decision (P x)} :
  (∀ k e, hc_entries c !! k = Some e → ¬ P (k, e) → k ∈ ks) →
  hc_entries (drop_entries ks c).2 ⊆ filter P (hc_entries c).
Proof.
  intros Hks. apply map_subseteq_spec. intros k e He. apply map_lookup_filter_Some.
  pose proof (drop_entries_smaller ks c) as (_ & Hsub & _).
  assert (hc_entries c !! k = Some e) as Hk by (by eapply lookup_weaken). split; [done|].
  destruct (decide (P (k, e))) as [|HP]; [done|]. specialize (Hks k e Hk HP).
  by rewrite (drop_entries_gone ks k Hks c) in He.
Qed.

Lemma invalidate_where_spec (P : hotKeyCacheKey → hotKeyCacheEntry → bool) c : Enabled c = true →
  smaller c (invalidate_where P c) ∧
  hc_entries (invalidate_where P c) ⊆ filter (λ e, P e.1 e.2 = false) (hc_entries c).
Proof.
  intros Hen. unfold invalidate_where. rewrite Hen. cbn [negb].
  set (ks := (filter _ _).*1). pose proof (drop_entries_smaller ks (hc_incr_version c)) as Hsm.
  pose proof (drop_entries_filter ks (hc_incr_version c) (λ e, P e.1 e.2 = false)) as Hf.
  destruct (drop_entries ks (hc_incr_version c)) as [n c']. cbn [snd] in *. split.
  - etrans; [apply version_smaller|]. etrans; [done|apply count_smaller].
  - apply Hf. intros k e He HP. apply list_elem_of_fmap. exists (k, e). split; [done|].
    apply list_elem_of_filter. split; [by apply not_false_is_true|]. by apply elem_of_map_to_list.
Qed.

Lemma disabled_where P c : Enabled c = false → invalidate_where P c = c.
Proof. intros Hen. unfold invalidate_where. by rewrite Hen. Qed.

(** ** One step: the cache stays in order, and stays below the map *)
Lemma run_cop_ok o c m : cache_ok c → (Enabled c = true ∨ hc_entries c = ∅) → hc_entries c ⊆ m →
  cache_ok (run_cop c o) ∧ same_setup c (run_cop c o) ∧
  (Enabled c = true ∨ hc_entries (run_cop c o) = ∅) ∧ hc_entries (run_cop c o) ⊆ run_amap c m o.
Proof.
  intros Hok Hen Hsub.
  assert (∀ c', smaller c c' → hc_entries c' ⊆ run_amap c m o →
    cache_ok c' ∧ same_setup c c' ∧ (Enabled c = true ∨ hc_entries c' = ∅) ∧ hc_entries c' ⊆ run_amap c m o) as Hgen.
  { intros c' Hsm Hs. split; [by eapply smaller_ok|]. split; [apply Hsm|]. split; [|done].
    destruct Hen as [?|Hemp]; [by left|right]. destruct Hsm as (_ & Hs' & _). rewrite Hemp in Hs'.
    apply map_empty. intros k. destruct (hc_entries c' !! k) eqn:E; [|done].
    by apply (lookup_weaken _ _ _ _ E) in Hs'. }
  destruct (Enabled c) eqn:Hb.
  2: { destruct Hen as [?|Hemp]; [done|].
       assert (run_cop c o = c ∨ ∃ k now, o = CGet k now) as [Heq|(k & now & ->)].
       { destruct o; cbn; unfold store, invalidateKey, invalidateRemote, invalidateDatabase, invalidateSlot;
           rewrite ?disabled_where, ?Hb by done; cbn; eauto; destruct value; eauto. }
       - rewrite Heq. split; [done|]. split; [done|]. split; [by right|]. rewrite Hemp. apply map_empty_subseteq.
       - apply Hgen; [apply get_smaller|]. cbn [run_cop run_amap]. etrans; [apply get_smaller|done]. }
  clear Hen. destruct o as [k now|k slot value now|db key|db keys|db|slot]; cbn [run_cop run_amap] in *.
  - apply Hgen; [apply get_smaller|]. etrans; [apply get_smaller|done].
  - destruct (store_spec k slot value now c Hok) as (H1 & H2 & H3). split; [done|]. split; [done|]. split; [by left|].
    etrans; [done|]. destruct (accepted c value); [by apply insert_mono|done].
  - unfold invalidateKey. rewrite Hb. cbn [negb].
    pose proof (drop_entry_smaller (mkCKey db key) (hc_incr_version c)) as Hsm.
    pose proof (drop_entry_gone (mkCKey db key) (hc_incr_version c)) as Hgone.
    destruct (drop_entry _ _) as [n c']. cbn [snd] in *. apply Hgen; [etrans; [apply version_smaller|]; etrans; [done|apply count_smaller]|].
    cbn. apply map_subseteq_spec. intros k e He. rewrite lookup_delete_Some. split; [intros <-; congruence|].
    destruct Hsm as (_ & Hs & _). eapply lookup_weaken; [|done]. by eapply lookup_weaken.
  - unfold invalidateRemote. rewrite Hb. cbn [negb]. destruct (existsb _ _) eqn:Hex; cbn [negb snd].
    + set (ks := mkCKey db <$> _). pose proof (drop_entries_smaller ks (hc_incr_version c)) as Hsm.
      pose proof (drop_entries_filter ks (hc_incr_version c)
        (λ e, ¬ (ck_database e.1 = db ∧ ck_key e.1 ∈ keys ∧ ck_key e.1 ∈ hc_keys c))) as Hf.
      destruct (drop_entries ks _) as [n c']. cbn [snd] in *.
      apply Hgen; [etrans; [apply version_smaller|]; etrans; [done|apply count_smaller]|]. cbn.
      etrans; [apply Hf|by apply map_filter_subseteq_mono].
      intros [db' key'] e He HP. cbn in HP. apply dec_stable in HP as (-> & Hin & Hk).
      apply list_elem_of_fmap. exists key'. split; [done|]. by apply list_elem_of_filter.
    + apply Hgen; [done|]. etrans; [|by apply map_filter_subseteq_mono]. apply map_subseteq_spec. intros k e He.
      apply map_lookup_filter_Some. split; [done|]. cbn. intros (<- & Hin & Hk).
      apply not_true_iff_false in Hex. apply Hex, existsb_exists. exists (ck_key k).
      split; [by apply list_elem_of_In|]. unfold isConfigured. rewrite Hb. cbn. by apply bool_decide_eq_true.
  - destruct (invalidate_where_spec (λ k _, bool_decide (ck_database k = db)) c Hb) as [Hsm Hs].
    apply Hgen; [done|]. etrans; [exact Hs|]. etrans; [by apply map_filter_subseteq_mono|].
    apply map_filter_subseteq_ext. intros k e _. cbn. by intros ?%bool_decide_eq_false.
  - destruct (invalidate_where_spec (λ _ e, bool_decide (he_slot e = slot)) c Hb) as [Hsm Hs].
    apply Hgen; [done|]. etrans; [exact Hs|]. etrans; [by apply map_filter_subseteq_mono|].
    apply map_filter_subseteq_ext. intros k e _. cbn. by intros ?%bool_decide_eq_false.
Qed.

Lemma run_cops_ok setup l : ∀ c m, cache_ok c → (Enabled c = true ∨ hc_entries c = ∅) → same_setup setup c →
  hc_entries c ⊆ m →
  cache_ok (foldl run_cop c l) ∧ same_setup setup (foldl run_cop c l) ∧
  hc_entries (foldl run_cop c l) ⊆ foldl (run_amap setup) m l.
Proof.
  induction l as [|o l IH]; intros c m Hok Hen Hset Hsub; cbn [foldl]; [done|].
  destruct (run_cop_ok o c m Hok Hen Hsub) as (Hok' & Hset' & Hen' & Hsub').
  assert (run_amap setup m o = run_amap c m o) as ->.
  { pose proof (same_setup_Enabled _ _ Hset) as HE. destruct Hset as (_ & Ht & _ & Hv & Hk).
    destruct o; cbn; unfold accepted; by rewrite ?HE, ?Ht, ?Hv, ?Hk. }
  apply IH; [done| |by etrans|done]. by rewrite (same_setup_Enabled _ _ Hset').
Qed.

Lemma new_cache_ok enabled ttl maxEntries maxValueSize keys :
  cache_ok (newHotKeyCache enabled ttl maxEntries maxValueSize keys).
Proof.
  split; [|split].
  - split; [constructor|]. intros k. cbn. rewrite lookup_empty. split; [by intros ?%not_elem_of_nil|by intros []].
  - apply map_Forall_empty.
  - cbn. rewrite map_size_empty. lia.
Qed.

(** the most recent entry survives the eviction *)
Lemma evict_loop_front n : ∀ c k l e, lru_ok c → hc_lru c = k :: l → 0 < hc_maxEntries c →
  hc_entries c !! k = Some e → hc_entries (evict_loop n c) !! k = Some e.
Proof.
  induction n as [|n IH]; intros c k l e Hl Hlru Hmax He; cbn [evict_loop]; [done|]. case_decide as Hbig; [|done].
  rewrite Hlru. destruct l as [|k' l].
  - exfalso. assert (hc_entries c = {[k := e]}) as Hone.
    { apply map_eq. intros x. destruct (decide (x = k)) as [->|Hne]; [by rewrite lookup_singleton_eq|].
      rewrite lookup_singleton_ne by done. destruct (hc_entries c !! x) eqn:E; [|done].
      exfalso. apply Hne. destruct Hl as [_ Hin]. rewrite Hlru in Hin. apply list_elem_of_singleton, Hin. by eexists. }
    rewrite Hone, map_size_singleton in Hbig. lia.
  - change (last (k :: k' :: l)) with (last (k' :: l)). destruct (last (k' :: l)) as [back|] eqn:Hlast; [|done].
    destruct Hl as [Hnd Hin]. pose proof (proj1 (NoDup_cons _ _) ltac:(by rewrite <- Hlru)) as [Hnin _].
    apply last_Some in Hlast as [l' Hl'].
    assert (back ≠ k) as Hne by (intros ->; apply Hnin; rewrite Hl'; set_solver).
    eapply (IH _ k (lru_remove back (k' :: l))); [by apply remove_smaller| |done|].
    + cbn [removeElement hc_count hc_set hc_lru]. rewrite Hlru. unfold lru_remove. by rewrite filter_cons_True.
    + cbn. by rewrite lookup_delete_ne.
Qed.

Lemma store_get k slot v now now' c : cache_ok c → accepted c (Some v) = true → now' < now + hc_ttl c →
  (get k now' (store k slot (Some v) now c)).1 = Some (cloned v).
Proof.
  intros (Hl & _ & _) Hacc Hnow. unfold accepted in Hacc. apply andb_prop in Hacc as [Hen Hlen%bool_decide_eq_true].
  assert (hc_entries (store k slot (Some v) now c) !! k = Some (mkEntry v slot (now + hc_ttl c))) as He.
  { unfold store. rewrite Hen, bool_decide_false by lia. cbn [negb orb].
    destruct (hc_entries c !! k) eqn:Hk; [cbn; by rewrite lookup_insert_eq|].
    eapply (evict_loop_front _ _ k (hc_lru c)); [|done| |cbn; by rewrite lookup_insert_eq].
    - destruct Hl as [Hnd Hin]. split; cbn.
      + apply NoDup_cons. split; [|done]. rewrite Hin, Hk. by intros [].
      + intros k'. rewrite elem_of_cons, Hin, lookup_insert_is_Some. destruct (decide (k' = k)); naive_solver.
    - cbn. unfold Enabled in Hen. apply andb_prop in Hen as [[_ ?]%andb_prop _]. lia. }
  unfold get. rewrite He. cbn. case_decide; [lia|done].
Qed.

(** The cache never holds more entries than configured, nor values above the
    configured size, and its recency list names every entry exactly once, after any
    sequence of lookups, stores and invalidations. *)
Theorem cache_bounded (enabled : bool) (ttl maxEntries maxValueSize : Z) (keys : list bytes) (l : list cop) :
  let c := foldl run_cop (newHotKeyCache enabled ttl maxEntries maxValueSize keys) l in
  Z.of_nat (size (hc_entries c)) <= Z.max 0 maxEntries ∧
  NoDup (hc_lru c) ∧ (∀ k, k ∈ hc_lru c ↔ is_Some (hc_entries c !! k)) ∧
  ∀ k e, hc_entries c !! k = Some e → Z.of_nat (length (he_value e)) <= maxValueSize.
Proof.
  intros c. destruct (run_cops_ok (newHotKeyCache enabled ttl maxEntries maxValueSize keys) l _ ∅
    (new_cache_ok enabled ttl maxEntries maxValueSize keys) ltac:(by right) ltac:(done) ltac:(done))
    as ((Hl & Hv & Hs) & (_ & _ & Hmax & Hmv & _) & _).
  fold c in Hl, Hv, Hs, Hmax, Hmv. cbn in Hmax, Hmv. rewrite Hmax in Hs. split; [done|].
  split; [apply Hl|]. split; [apply Hl|]. intros k e He. specialize (Hv k e He). cbn in Hv. lia.
Qed.

(** C22: the cache implements a map with time limits: a hit returns a copy of the value of the
    last store of that key, with no invalidation of the key, its database or its slot since,
    and before the entry's time is over; and a value just stored is found until then.  The
    copy of an empty value is nil. *)
Theorem cache_refines (enabled : bool) (ttl maxEntries maxValueSize : Z) (keys : list bytes) (l : list cop)
    (k : hotKeyCacheKey) (now : Z) :
  let c0 := newHotKeyCache enabled ttl maxEntries maxValueSize keys in
  let c := foldl run_cop c0 l in
  (∀ u, (get k now c).1 = Some u →
     ∃ v slot t, foldl (run_amap c0) ∅ l !! k = Some (mkEntry v slot t) ∧ now < t ∧ u = if decide (v = []) then None else Some v) ∧
  (∀ slot v t, accepted c0 (Some v) = true → now < t + ttl → (get k now (store k slot (Some v) t c)).1 = Some (if decide (v = []) then None else Some v)).
Proof.
  intros c0 c. destruct (run_cops_ok c0 l c0 ∅ (new_cache_ok enabled ttl maxEntries maxValueSize keys)
    ltac:(by right) ltac:(done) ltac:(done)) as (Hok & Hset & Hsub). fold c in Hok, Hset, Hsub. split.
  - intros u. unfold get. destruct (hc_entries c !! k) as [[v slot t]|] eqn:He; [|done]. cbn [he_expireAt he_value].
    case_decide; cbn; [done|]. intros [= <-]. exists v, slot, t. split; [by eapply lookup_weaken|]. split; [lia|]. by destruct v.
  - intros slot v t Hacc Hnow. rewrite store_get; [by destruct v|done| |].
    + unfold accepted in *. rewrite (same_setup_Enabled _ _ Hset). by destruct Hset as (_ & _ & _ & -> & _).
    + by destruct Hset as (_ & -> & _).
Qed.
