(* ===== verification/HotKeyProtocol.v ===== *)
(** Reads and writes of a cached key through one proxy, as they interleave.

    A read that misses takes a token, is run by the backend and, when its reply is
    handled, stored if the token is still valid; a write is run by the backend and, when
    its reply is handled and before it goes to the client, the key is invalidated.
    Requests of many sessions are in flight at the same time.  The steps are those of
    hot_key_cache.go on a key [k] of the database [db], the routing table fixed; [pstep]
    has the check of a token and the store as one step, [racy_step] as the two they are. *)

From S2P Require Import Prelude Bufio Resp Mapper Models Router RouterInv RouterTheorems Stream.
From S2P Require Import Forward HotKeyCache.
Section protocol.
Context (r : Router) (db : Z) (k : bytes).

Abbreviation ck := (mkCKey db k).

(** a read in flight: its token and, once the backend has run it, the value *)
Record rd := mkRd { rd_token : option hotKeyCacheToken; rd_value : option (option bytes) }.

Record pst := mkPst {
  ps_cache : HotKeyCache;
  ps_backend : option bytes;  (** the value the backend holds for the key *)
  ps_reads : list rd;
  ps_writes : list bool;      (** writes not yet acknowledged: whether the backend has run them *)
}.

(** a plan that invalidates the key *)
Definition covers (p : hotKeyCacheInvalidationPlan) : Prop :=
  match p with
  | NoPlan => False
  | ClearDB d => d = db
  | ClearKeys d keys => d = db ∧ k ∈ keys
  end.

(** an operation of the cache on behalf of other keys *)
Definition foreign (o : cop) : Prop :=
  match o with CStore k' _ _ _ => k' ≠ ck | _ => True end.

Inductive pstep : pst → pst → Prop :=
| step_read s :
    pstep s (mkPst (ps_cache s) (ps_backend s)
               (ps_reads s ++ [mkRd (takeToken db k r (ps_cache s)) None]) (ps_writes s))
| step_read_run s l1 t l2 : ps_reads s = l1 ++ mkRd t None :: l2 →
    pstep s (mkPst (ps_cache s) (ps_backend s) (l1 ++ mkRd t (Some (ps_backend s)) :: l2) (ps_writes s))
| step_read_done s l1 t v l2 now : ps_reads s = l1 ++ mkRd t (Some v) :: l2 →
    pstep s (mkPst (hotKeyCacheStore t (Some (NewBulkBytes v)) now r (ps_cache s)) (ps_backend s)
               (l1 ++ l2) (ps_writes s))
| step_write s : pstep s (mkPst (ps_cache s) (ps_backend s) (ps_reads s) (ps_writes s ++ [false]))
| step_write_run s v l1 l2 : ps_writes s = l1 ++ false :: l2 →
    pstep s (mkPst (ps_cache s) v (ps_reads s) (l1 ++ true :: l2))
| step_write_done s l1 l2 p resp : ps_writes s = l1 ++ true :: l2 → covers p →
    pstep s (mkPst (apply_plan p resp (ps_cache s)).1 (ps_backend s) (ps_reads s) (l1 ++ l2))
| step_other s o : foreign o →
    pstep s (mkPst (run_cop (ps_cache s) o) (ps_backend s) (ps_reads s) (ps_writes s)).

Definition start (c : HotKeyCache) (v : option bytes) : pst := mkPst c v [] [].

(** * Versions only grow *)
Lemma drop_entry_version x c : hc_version (drop_entry x c).2 = hc_version c.
Proof. unfold drop_entry. by destruct (hc_entries c !! x). Qed.

Lemma drop_entries_version ks : ∀ c, hc_version (drop_entries ks c).2 = hc_version c.
Proof.
  induction ks as [|x ks IH]; intros c; cbn [drop_entries]; [done|].
  pose proof (drop_entry_version x c) as H1. destruct (drop_entry x c) as [n c1]. cbn in H1.
  specialize (IH c1). destruct (drop_entries ks c1) as [m c2]. cbn in *. congruence.
Qed.

Lemma evict_loop_version n : ∀ c, hc_version (evict_loop n c) = hc_version c.
Proof.
  induction n as [|n IH]; intros c; cbn [evict_loop]; [done|]. case_decide; [|done].
  destruct (last (hc_lru c)); [|done]. by rewrite IH.
Qed.

Lemma store_version x slot v now c : hc_version (store x slot v now c) = hc_version c.
Proof.
  unfold store. destruct v as [v|]; [|done]. destruct (_ || _); [done|].
  destruct (hc_entries c !! x); [done|]. by rewrite evict_loop_version.
Qed.

Lemma invalidate_where_version P c : Enabled c = true → hc_version (invalidate_where P c) = hc_version c + 1.
Proof.
  intros Hen. unfold invalidate_where. rewrite Hen. cbn [negb]. set (ks := (filter _ _).*1).
  pose proof (drop_entries_version ks (hc_incr_version c)) as Hv. by destruct (drop_entries ks _) as [n c'].
Qed.

Lemma invalidateKey_version d x c : Enabled c = true → hc_version (invalidateKey d x c) = hc_version c + 1.
Proof.
  intros Hen. unfold invalidateKey. rewrite Hen. cbn [negb].
  pose proof (drop_entry_version (mkCKey d x) (hc_incr_version c)) as Hv. by destruct (drop_entry _ _) as [n c'].
Qed.

Lemma run_cop_version o c : hc_version c <= hc_version (run_cop c o).
Proof.
  destruct o as [x now|x slot v now|d key|d keys|d|slot]; cbn [run_cop].
  - unfold get. destruct (hc_entries c !! x); [case_decide|]; cbn; lia.
  - rewrite store_version. lia.
  - destruct (Enabled c) eqn:Hen; [rewrite invalidateKey_version by done; lia|].
    unfold invalidateKey. rewrite Hen. done.
  - unfold invalidateRemote. destruct (negb _); [cbn; lia|]. destruct (negb _); [cbn; lia|].
    set (ks := mkCKey d <$> _). pose proof (drop_entries_version ks (hc_incr_version c)) as Hv.
    destruct (drop_entries ks _) as [n c']. cbn in *. lia.
  - destruct (Enabled c) eqn:Hen; [unfold invalidateDatabase; rewrite invalidate_where_version by done; lia|].
    unfold invalidateDatabase. rewrite disabled_where by done. done.
  - destruct (Enabled c) eqn:Hen; [unfold invalidateSlot; rewrite invalidate_where_version by done; lia|].
    unfold invalidateSlot. rewrite disabled_where by done. done.
Qed.

(** a foreign operation leaves the key's entry or removes it *)
Lemma run_cop_entry o c e : cache_ok c → (Enabled c = true ∨ hc_entries c = ∅) → foreign o →
  hc_entries (run_cop c o) !! ck = Some e → hc_entries c !! ck = Some e.
Proof.
  intros Hok Hen Hf He. destruct (run_cop_ok o c (hc_entries c) Hok Hen ltac:(done)) as (_ & _ & _ & Hsub).
  apply (lookup_weaken _ _ _ _ He) in Hsub. destruct o; cbn [run_amap] in Hsub; try done.
  - destruct (accepted c value); [|done]. by rewrite lookup_insert_ne in Hsub.
  - by apply lookup_delete_Some in Hsub as [_ ?].
  - by apply map_lookup_filter_Some in Hsub as [? _].
  - by apply map_lookup_filter_Some in Hsub as [? _].
  - by apply map_lookup_filter_Some in Hsub as [? _].
Qed.

(** ** Applying a plan that covers the key *)
Lemma apply_keys_ok d keys : ∀ c, cache_ok c → Enabled c = true →
  let c' := foldl (λ c x, invalidateKey d x c) c keys in
  cache_ok c' ∧ Enabled c' = true ∧ hc_version c <= hc_version c' ∧ hc_entries c' ⊆ hc_entries c ∧
  (keys ≠ [] → hc_version c < hc_version c') ∧ (∀ x, x ∈ keys → hc_entries c' !! mkCKey d x = None).
Proof.
  induction keys as [|x keys IH]; intros c Hok Hen; cbn [foldl].
  { split; [done|]. split; [done|]. split; [lia|]. split; [done|]. split; [done|]. by intros x ?%not_elem_of_nil. }
  destruct (run_cop_ok (CInvalidateKey d x) c (hc_entries c) Hok ltac:(by left) ltac:(done)) as (Hok1 & Hset1 & _ & Hsub1).
  cbn [run_cop run_amap] in *. assert (Enabled (invalidateKey d x c) = true) as Hen1 by (by rewrite (same_setup_Enabled _ _ Hset1)).
  destruct (IH _ Hok1 Hen1) as (Hok2 & Hen2 & Hv2 & Hsub2 & _ & Hgone). rewrite invalidateKey_version in Hv2 by done.
  assert (hc_entries (invalidateKey d x c) ⊆ hc_entries c) as Hsub1' by (etrans; [done|apply delete_subseteq]).
  split; [done|]. split; [done|]. split; [lia|]. split; [by etrans|]. split; [lia|].
  intros y [->|Hy]%elem_of_cons; [|auto].
  destruct (hc_entries (foldl _ _ keys) !! mkCKey d x) eqn:E; [|done]. exfalso.
  pose proof (lookup_weaken _ _ _ _ (lookup_weaken _ _ _ _ E Hsub2) Hsub1) as [? _]%lookup_delete_Some. done.
Qed.

Lemma apply_plan_ok p resp c : cache_ok c → Enabled c = true → covers p →
  let c' := (apply_plan p resp c).1 in
  cache_ok c' ∧ Enabled c' = true ∧ hc_version c < hc_version c' ∧ hc_entries c' !! ck = None.
Proof.
  intros Hok Hen Hp. unfold apply_plan. destruct p as [|d|d keys]; [done| |].
  - cbn in Hp. subst d. cbn [plan_active negb].
    destruct (run_cop_ok (CInvalidateDatabase db) c (hc_entries c) Hok ltac:(by left) ltac:(done)) as (Hok1 & Hset1 & _ & Hsub1).
    cbn [run_cop run_amap fst] in *. split; [done|]. split; [by rewrite (same_setup_Enabled _ _ Hset1)|].
    split; [unfold invalidateDatabase; rewrite invalidate_where_version by done; lia|].
    destruct (hc_entries (invalidateDatabase db c) !! ck) eqn:E; [|done].
    pose proof (lookup_weaken _ _ _ _ E Hsub1) as [_ Hne]%map_lookup_filter_Some. by destruct Hne.
  - destruct Hp as [-> Hk]. destruct (apply_keys_ok db keys c Hok Hen) as (H1 & H2 & _ & _ & H3 & H4).
    assert (keys ≠ []) as Hne by (intros ->; by apply not_elem_of_nil in Hk).
    cbn [plan_active]. rewrite bool_decide_false by done. cbn [negb fst]. auto.
Qed.

(** * The invariant *)
Definition executed (s : pst) : Prop := true ∈ ps_writes s.

(** the value is the backend's, or a write that changed it is still to be acknowledged *)
Definition current (s : pst) (v : option bytes) : Prop := v = ps_backend s ∨ executed s.

Definition read_ok (s : pst) (x : rd) : Prop :=
  match rd_token x with
  | None => True
  | Some t =>
      tk_database t = db ∧ tk_key t = k ∧ tk_cacheVersion t <= hc_version (ps_cache s) ∧
      match rd_value x with
      | Some v => tk_cacheVersion t = hc_version (ps_cache s) → current s v
      | None => True
      end
  end.

Definition pinv (s : pst) : Prop :=
  cache_ok (ps_cache s) ∧ Enabled (ps_cache s) = true ∧ Forall (read_ok s) (ps_reads s) ∧
  ∀ e, hc_entries (ps_cache s) !! ck = Some e → current s (Some (he_value e)).

Lemma takeToken_ok c t : takeToken db k r c = Some t →
  tk_database t = db ∧ tk_key t = k ∧ tk_cacheVersion t = hc_version c.
Proof. unfold takeToken. destruct (negb _); [done|]. destruct (negb _); [done|]. by intros [= <-]. Qed.

(** reads stay as they are when the version grows, or the backend's value is kept *)
Lemma reads_mono s s' : Forall (read_ok s) (ps_reads s) → hc_version (ps_cache s) <= hc_version (ps_cache s') →
  (hc_version (ps_cache s') = hc_version (ps_cache s) → ∀ v, current s v → current s' v) →
  Forall (read_ok s') (ps_reads s).
Proof.
  intros Hr Hv Hc. eapply Forall_impl; [done|]. intros [[t|] v]; [|done]. cbn.
  intros (? & ? & ? & Hval). split; [done|]. split; [done|]. split; [lia|]. destruct v as [v|]; [|done].
  intros Ht. apply Hc; [|apply Hval]; lia.
Qed.

Lemma hotKeyCacheStore_ok t v now s : pinv s → read_ok s (mkRd t (Some v)) →
  let c' := hotKeyCacheStore t (Some (NewBulkBytes v)) now r (ps_cache s) in
  cache_ok c' ∧ Enabled c' = true ∧ hc_version c' = hc_version (ps_cache s) ∧
  ∀ e, hc_entries c' !! ck = Some e → current s (Some (he_value e)).
Proof.
  intros (Hok & Hen & Hr & He) Ht. cbn zeta. unfold hotKeyCacheStore. destruct t as [t|]; [|done].
  change (IsBulkBytes (NewBulkBytes v)) with true. cbn [negb]. cbn [NewBulkBytes Value].
  destruct v as [v|]; [|done]. destruct (token_valid t r (ps_cache s)) eqn:Hval; [|done].
  unfold token_valid in Hval. apply andb_prop in Hval as [[_ Hver%bool_decide_eq_true]%andb_prop _].
  cbn in Ht. destruct Ht as (Hdb & Hk & _ & Hcur). rewrite Hdb, Hk.
  destruct (store_spec ck (tk_slot t) (Some v) now (ps_cache s) Hok) as (Hok' & Hset & Hsub).
  split; [done|]. split; [by rewrite (same_setup_Enabled _ _ Hset)|]. split; [apply store_version|].
  intros e Hl. apply (lookup_weaken _ _ _ _ Hl) in Hsub. destruct (accepted _ _).
  - rewrite lookup_insert_eq in Hsub. injection Hsub as <-. cbn. by apply Hcur.
  - by apply He.
Qed.

Lemma pstep_inv s s' : pstep s s' → pinv s → pinv s'.
Proof.
  intros Hst Hinv. pose proof Hinv as (Hok & Hen & Hr & He). destruct Hst as
    [s|s l1 t l2 Hl|s l1 t v l2 now Hl|s|s v l1 l2 Hl|s l1 l2 p resp Hl Hp|s o Hf].
  - split; [done|]. split; [done|]. split; [|done]. cbn. apply Forall_app. split; [done|].
    apply Forall_singleton. unfold read_ok. cbn. destruct (takeToken db k r (ps_cache s)) as [t|] eqn:Ht; [|done].
    apply takeToken_ok in Ht as (? & ? & ?). repeat split; try done. lia.
  - split; [done|]. split; [done|]. split; [|done]. cbn. rewrite Hl in Hr.
    apply Forall_app in Hr as [Hr1 [Hx Hr2]%Forall_cons]. apply Forall_app. split; [done|].
    apply Forall_cons. split; [|done]. unfold read_ok in *. cbn in *. destruct t as [t|]; [|done].
    destruct Hx as (? & ? & ? & _). repeat split; try done. intros _. by left.
  - pose proof Hr as Hr'. rewrite Hl in Hr. apply Forall_app in Hr as [Hr1 [Hx Hr2]%Forall_cons].
    destruct (hotKeyCacheStore_ok t v now s Hinv Hx) as (H1 & H2 & H3 & H4).
    split; [done|]. split; [done|]. split; [|done].
    assert (Forall (read_ok s) (l1 ++ l2)) as Hall by (by apply Forall_app).
    eapply (reads_mono (mkPst (ps_cache s) (ps_backend s) (l1 ++ l2) (ps_writes s))); [done|cbn; lia|by cbn].
  - split; [done|]. split; [done|]. assert (∀ x, current s x → current (mkPst (ps_cache s) (ps_backend s)
      (ps_reads s) (ps_writes s ++ [false])) x) as Hcur.
    { intros x [?|?]; [by left|right]. unfold executed in *. cbn. apply elem_of_app. by left. }
    split; [|intros e Hx; by apply Hcur, He]. apply (reads_mono s); [done|cbn; lia|]. intros _. exact Hcur.
  - split; [done|]. split; [done|]. assert (executed (mkPst (ps_cache s) v (ps_reads s) (l1 ++ true :: l2))) as Hex.
    { unfold executed. cbn. set_solver. }
    split; [|intros e Hx; by right]. apply (reads_mono s); [done|cbn; lia|]. by right.
  - destruct (apply_plan_ok p resp (ps_cache s) Hok Hen Hp) as (H1 & H2 & H3 & H4).
    split; [done|]. split; [done|]. split; [|intros e Hx; cbn in Hx; congruence].
    apply (reads_mono s); [done|cbn; lia|]. cbn. lia.
  - destruct (run_cop_ok o (ps_cache s) (hc_entries (ps_cache s)) Hok ltac:(by left) ltac:(done)) as (Hok1 & Hset1 & _ & _).
    split; [done|]. split; [cbn; by rewrite (same_setup_Enabled _ _ Hset1)|]. split.
    + apply (reads_mono s); [done|cbn; apply run_cop_version|]. done.
    + intros e Hx. cbn in Hx. apply run_cop_entry in Hx; [by apply He|done|by left|done].
Qed.

(** ** Check and store as two steps *)

(** [hotKeyCacheStore] checks the token and stores the reply in two steps that other
    goroutines may come between; [rp_checked] are the replies whose token was found valid. *)
Record rpst := mkRp { rp_state : pst; rp_checked : list (hotKeyCacheToken * bytes) }.

Inductive racy_step : rpst → rpst → Prop :=
| racy_other s s' l : pstep s s' → racy_step (mkRp s l) (mkRp s' l)
| racy_check s l l1 t v l2 : ps_reads s = l1 ++ mkRd (Some t) (Some (Some v)) :: l2 → token_valid t r (ps_cache s) = true →
    racy_step (mkRp s l) (mkRp (mkPst (ps_cache s) (ps_backend s) (l1 ++ l2) (ps_writes s)) ((t, v) :: l))
| racy_put s l1 t v l2 now :
    racy_step (mkRp s (l1 ++ (t, v) :: l2))
      (mkRp (mkPst (store (mkCKey (tk_database t) (tk_key t)) (tk_slot t) (Some v) now (ps_cache s))
               (ps_backend s) (ps_reads s) (ps_writes s)) (l1 ++ l2)).

(** no write of the key is acknowledged between the check and the store of a reply *)
Definition calm_step (s s' : rpst) : Prop :=
  racy_step s s' ∧ (rp_checked s = [] ∨ (length (ps_writes (rp_state s)) <= length (ps_writes (rp_state s')))%nat).

Definition rinv (s : rpst) : Prop :=
  pinv (rp_state s) ∧ Forall (λ x, tk_database x.1 = db ∧ tk_key x.1 = k ∧ current (rp_state s) (Some x.2)) (rp_checked s).

(** a step that acknowledges no write keeps what is current *)
Lemma current_kept s s' v : pstep s s' → (length (ps_writes s) <= length (ps_writes s'))%nat → current s v → current s' v.
Proof.
  intros Hst Hlen Hc. destruct Hst as [s|s l1 t l2 Hl|s l1 t v' l2 now Hl|s|s v' l1 l2 Hl|s l1 l2 p resp Hl Hp|s o Hf]; try done.
  - destruct Hc as [?|Hc]; [by left|right]. unfold executed in *. cbn. apply elem_of_app. by left.
  - right. unfold executed. cbn. set_solver.
  - exfalso. cbn in Hlen. rewrite Hl, !length_app in Hlen. cbn in Hlen. lia.
Qed.

Lemma calm_step_inv s s' : calm_step s s' → rinv s → rinv s'.
Proof.
  intros [Hst Hcalm] [Hinv Hl]. destruct Hst as [s s' l Hst|s l l1 t v l2 Hr Hval|s l1 t v l2 now]; cbn [rp_state rp_checked ps_writes] in *.
  - split; [by eapply pstep_inv|]. destruct Hcalm as [->|Hlen]; [constructor|]. eapply Forall_impl; [exact Hl|].
    intros x (? & ? & ?). split; [done|]. split; [done|]. by eapply current_kept.
  - destruct Hinv as (Hok & Hen & Hrd & He). rewrite Hr in Hrd. apply Forall_app in Hrd as [Hr1 [(Hdb & Hk & _ & Hcur) Hr2]%Forall_cons].
    split; [split; [done|]; split; [done|]; split; [by apply Forall_app|done]|]. constructor; [|done]. split; [done|]. split; [done|].
    unfold token_valid in Hval. apply andb_prop in Hval as [[_ Hver%bool_decide_eq_true]%andb_prop _]. by apply Hcur.
  - apply Forall_app in Hl as [Hl1 [(Hdb & Hk & Hcur) Hl2]%Forall_cons]. cbn in Hdb, Hk, Hcur. destruct Hinv as (Hok & Hen & Hrd & He).
    rewrite Hdb, Hk. destruct (store_spec ck (tk_slot t) (Some v) now (ps_cache s) Hok) as (Hok' & Hset & Hsub).
    split; [|by apply Forall_app]. split; [done|]. split; [cbn [rp_state ps_cache]; by rewrite (same_setup_Enabled _ _ Hset)|]. split.
    + apply (reads_mono s); [done|cbn [rp_state ps_cache]; rewrite store_version; lia|done].
    + cbn [rp_state ps_cache]. intros e Hx. apply (lookup_weaken _ _ _ _ Hx) in Hsub. destruct (accepted _ _); [|by apply He].
      rewrite lookup_insert_eq in Hsub. injection Hsub as <-. done.
Qed.


End protocol.

(** * A concrete run *)
Definition hot : bytes := bstr "hot".
Definition hot_slot : Slot := mkSlot (Hash hot mod MaxSlotNum) false "a:1" 1 "" 0 ForwardSync [].
Definition hot_router : Router := (run_rop (RFillSlot hot_slot) (NewRouter false)).2.
Definition hot_cache : HotKeyCache := newHotKeyCache true 1000 2 64 [hot].

(** the cache after a read at time 10 that missed *)
Definition hot_filled (v : bytes) : HotKeyCache :=
  hotKeyCacheStore (takeToken 0 hot hot_router hot_cache) (Some (NewBulkBytes (Some v))) 10 hot_router hot_cache.

Lemma hot_read_run v : rtc (pstep hot_router 0 hot) (start hot_cache (Some v)) (mkPst (hot_filled v) (Some v) [] []).
Proof.
  eapply rtc_l; [apply step_read|].
  eapply rtc_l; [eapply (step_read_run _ _ _ _ [] _ []); reflexivity|].
  eapply rtc_l; [eapply (step_read_done _ _ _ _ [] _ _ [] 10); reflexivity|]. apply rtc_refl.
Defined.

(** the same read with its check and its store, and a write in between that the backend runs *)
Definition hot_token : hotKeyCacheToken := mkToken 0 hot (Hash hot mod MaxSlotNum) 1 0.
Lemma hot_calm_run : ∃ s, rtc (calm_step hot_router 0 hot) (mkRp (start hot_cache (Some (bstr "v"))) []) s ∧ rp_checked s = [] ∧
  ps_writes (rp_state s) = [false] ∧ ps_backend (rp_state s) = Some (bstr "v") ∧
  (hotKeyCacheLookup 0 hot 20 hot_router (ps_cache (rp_state s))).1 = Some (NewBulkBytes (Some (bstr "v"))).
Proof.
  assert (takeToken 0 hot hot_router hot_cache = Some hot_token) as Ht by (vm_compute; reflexivity).
  eexists. split; [|split; [|split; [|split]]].
  - eapply rtc_l; [split; [apply racy_other, step_read|by left]|].
    eapply rtc_l; [split; [eapply racy_other, (step_read_run _ _ _ _ [] _ []); reflexivity|by left]|].
    cbn [start ps_cache ps_backend ps_reads ps_writes app]. rewrite Ht.
    eapply rtc_l; [split; [apply (racy_check _ _ _ _ _ [] hot_token (bstr "v") []); [reflexivity|vm_compute; reflexivity]|by left]|].
    eapply rtc_l; [split; [apply racy_other, step_write|right; cbn; lia]|].
    eapply rtc_l; [split; [apply (racy_put _ _ _ _ [] hot_token (bstr "v") [] 10)|by right]|]. apply rtc_refl.
  - reflexivity.
  - reflexivity.
  - reflexivity.
  - vm_compute. reflexivity.
Defined.


(** ** What the theorem does not promise *)

(** A session's own write in flight does not hide the old value: a GET pipelined behind a
    SET of the same key is answered from the cache with the value before the SET, although
    the backend has run the SET already. *)
Theorem pipelined_read_stale : ∃ s,
  rtc (pstep hot_router 0 hot) (start hot_cache (Some (bstr "old"))) s ∧ ps_writes s = [true] ∧
  ps_backend s = Some (bstr "new") ∧
  (hotKeyCacheLookup 0 hot 20 hot_router (ps_cache s)).1 = Some (NewBulkBytes (Some (bstr "old"))).
Proof.
  exists (mkPst (hot_filled (bstr "old")) (Some (bstr "new")) [] [true]). split; [|split; [done|]; split; [done|]].
  - etrans; [apply hot_read_run|]. eapply rtc_l; [apply step_write|].
    eapply rtc_l; [eapply (step_write_run _ _ _ _ (Some (bstr "new")) [] []); reflexivity|]. apply rtc_refl.
  - vm_compute. reflexivity.
Qed.

(** A write acknowledged between the check and the store leaves the overwritten value in
    the cache, with no write in flight any more. *)
Theorem store_race_stale : ∃ s,
  rtc (racy_step hot_router 0 hot) (mkRp (start hot_cache (Some (bstr "old"))) []) s ∧ rp_checked s = [] ∧
  ps_writes (rp_state s) = [] ∧ ps_backend (rp_state s) = Some (bstr "new") ∧
  (hotKeyCacheLookup 0 hot 20 hot_router (ps_cache (rp_state s))).1 = Some (NewBulkBytes (Some (bstr "old"))).
Proof.
  set (t := mkToken 0 hot (Hash hot mod MaxSlotNum) 1 0).
  assert (takeToken 0 hot hot_router hot_cache = Some t) as Ht by (vm_compute; reflexivity).
  eexists. split; [|split; [|split; [|split]]].
  - eapply rtc_l; [apply racy_other, step_read|].
    eapply rtc_l; [eapply racy_other, (step_read_run _ _ _ _ [] _ []); reflexivity|].
    cbn [start ps_cache ps_backend ps_reads ps_writes app]. rewrite Ht.
    eapply rtc_l; [apply (racy_check _ _ _ _ _ [] t (bstr "old") []); [reflexivity|vm_compute; reflexivity]|].
    eapply rtc_l; [apply racy_other, step_write|].
    eapply rtc_l; [eapply racy_other, (step_write_run _ _ _ _ (Some (bstr "new")) [] []); reflexivity|].
    eapply rtc_l; [eapply racy_other, (step_write_done _ _ _ _ [] [] (ClearKeys 0 [hot]) (Some (NewString (Some (bstr "OK")))));
      [reflexivity|split; [done|by left]]|].
    eapply rtc_l; [apply (racy_put _ _ _ _ [] t (bstr "old") [] 10)|]. apply rtc_refl.
  - reflexivity.
  - reflexivity.
  - reflexivity.
  - vm_compute. reflexivity.
Qed.

(** A hit on an empty value is answered with nil, as if there were no such key. *)
Example empty_hit_is_nil :
  (hotKeyCacheLookup 0 hot 20 hot_router (hot_filled [])).1 = Some (NewBulkBytes None) ∧
  (hotKeyCacheLookup 0 hot 20 hot_router (hot_filled (bstr "v"))).1 = Some (NewBulkBytes (Some (bstr "v"))).
Proof. by vm_compute. Qed.
