(* ===== verification/Limiter.v ===== *)
(** The rate limiter of a proxy: pkg/proxy/qps_limiter.go.

    [tokens] is a float64: the arithmetic is that of IEEE 754 with 53 bits of precision,
    as the standard library specifies it.  Times are nanoseconds, the zero time is 0. *)

From S2P Require Import Prelude Models.
From Stdlib Require Import SpecFloat.

(** * float64 *)
Definition prec : Z := 53.
Definition emax : Z := 1024.

(** [float64(n)] *)
Definition float64 (n : Z) : spec_float := binary_normalize prec emax n 0 false.
Definition fadd (x y : spec_float) : spec_float := SFadd prec emax x y.
Definition fsub (x y : spec_float) : spec_float := SFsub prec emax x y.
Definition fmul (x y : spec_float) : spec_float := SFmul prec emax x y.
Definition fdiv (x y : spec_float) : spec_float := SFdiv prec emax x y.

(** [time.Duration.Seconds()]: whole seconds and the rest are converted apart *)
Definition Second : Z := 1000000000.
Definition Seconds (d : Z) : spec_float :=
  fadd (float64 (Z.quot d Second)) (fdiv (float64 (Z.rem d Second)) (float64 Second)).

(** * The limiter *)
Record QPSLimiter := mkLimiter {
  ql_revision : Z;
  ql_limit : Z;
  ql_accepted : Z;
  ql_rejected : Z;
  ql_tokens : spec_float;
  ql_lastRefill : Z;
}.

Inductive limiterr := ErrInvalidLimit.

Definition zero_limiter : QPSLimiter := mkLimiter 0 0 0 0 (float64 0) 0.

Definition with_tokens (t : spec_float) (last : Z) (l : QPSLimiter) : QPSLimiter :=
  mkLimiter (ql_revision l) (ql_limit l) (ql_accepted l) (ql_rejected l) t last.

Definition refillLocked (now limit : Z) (l : QPSLimiter) : QPSLimiter :=
  if decide (ql_lastRefill l = 0) then with_tokens (float64 limit) now l
  else if decide (now < ql_lastRefill l) then l
  else
    let elapsed := Seconds (now - ql_lastRefill l) in
    if negb (SFltb (float64 0) elapsed) then l
    else
      let tokens := fadd (ql_tokens l) (fmul elapsed (float64 limit)) in
      let capacity := float64 limit in
      with_tokens (if SFltb capacity tokens then capacity else tokens) now l.

(** [l.tokens--; l.accepted.Incr()] *)
Definition take_token (l : QPSLimiter) : QPSLimiter :=
  mkLimiter (ql_revision l) (ql_limit l) (ql_accepted l + 1) (ql_rejected l) (fsub (ql_tokens l) (float64 1)) (ql_lastRefill l).
Definition reject (l : QPSLimiter) : QPSLimiter :=
  mkLimiter (ql_revision l) (ql_limit l) (ql_accepted l) (ql_rejected l + 1) (ql_tokens l) (ql_lastRefill l).

(** [now] is not the zero time *)
Definition Allow (now : Z) (l : QPSLimiter) : bool * QPSLimiter :=
  let limit := ql_limit l in
  if decide (limit <= 0) then (true, l)
  else
    let l := refillLocked now limit l in
    if SFleb (float64 1) (ql_tokens l) then (true, take_token l) else (false, reject l).

Definition SetLimit (revision limit now : Z) : M QPSLimiter limiterr unit := λ l,
  if decide (limit < 0) then (Err ErrInvalidLimit, l)
  else
    let tokens :=
      if decide (limit <= 0) then float64 0
      else if decide (ql_limit l <= 0) then float64 limit
      else if SFltb (float64 limit) (ql_tokens l) then float64 limit
      else ql_tokens l in
    (Ok tt, mkLimiter revision limit (ql_accepted l) (ql_rejected l) tokens now).

(** a negative limit panics *)
Definition newQPSLimiter (limit now : Z) : outcome limiterr QPSLimiter :=
  match SetLimit 0 limit now zero_limiter with
  | (Ok _, l) => Ok l
  | _ => Panic
  end.

Definition ResetStats (l : QPSLimiter) : QPSLimiter :=
  mkLimiter (ql_revision l) (ql_limit l) 0 0 (ql_tokens l) (ql_lastRefill l).

(** * No more requests than the counters say, and no limit below zero *)

Lemma Allow_counts now l : ql_limit l > 0 →
  ql_accepted (Allow now l).2 + ql_rejected (Allow now l).2 = ql_accepted l + ql_rejected l + 1 ∧
  ((Allow now l).1 = true ↔ ql_accepted (Allow now l).2 = ql_accepted l + 1).
Proof.
  intros Hl. unfold Allow. rewrite decide_False by lia.
  assert (ql_accepted (refillLocked now (ql_limit l) l) = ql_accepted l ∧
          ql_rejected (refillLocked now (ql_limit l) l) = ql_rejected l) as [Ha Hr].
  { unfold refillLocked. repeat case_decide; try done. by destruct (negb _). }
  destruct (SFleb _ _); cbn; rewrite Ha, Hr; split; try split; try done; lia.
Qed.

Fixpoint allow_all (ts : list Z) (l : QPSLimiter) : list bool * QPSLimiter :=
  match ts with
  | [] => ([], l)
  | t :: ts =>
      let '(b, l) := Allow t l in
      let '(bs, l) := allow_all ts l in
      (b :: bs, l)
  end.

(** five requests at the same moment with a limit of three, two more half a second later *)
Example limiter_demo :
  match newQPSLimiter 3 100 with
  | Ok l => (allow_all [200; 200; 200; 200; 200; 500000200; 500000200] l).1
              = [true; true; true; false; false; true; false]
  | _ => False
  end.
Proof. vm_compute. reflexivity. Qed.
