(* ===== verification/SessionState.v ===== *)
(** Sessions and their registry: the state of session.go, and client_list.go.

    A value compared without regard to case is compared as Go compares it: besides the two
    cases of an ASCII letter, a few other letters fold to one. *)

From S2P Require Import Prelude Bufio Resp Mapper Models Router Stream Forward.
(** * Comparing without case *)

(** [value] is the word up to the case of its letters; [extra] is the other letter, in
    UTF-8, that the comparison identifies with a letter of the word *)
Fixpoint folds (extra : byte → option bytes) (value lower : bytes) : bool :=
  match lower with
  | [] => bool_decide (value = [])
  | c :: lower =>
      match value with
      | [] => false
      | x :: value' =>
          if bool_decide (x = c) || bool_decide (x = upper_byte c) then folds extra value' lower
          else match extra c with
          | Some e =>
              if bool_decide (take (length e) value = e) then folds extra (drop (length e) value) lower else false
          | None => false
          end
      end
  end.

(** [strings.EqualFold]: the long s and the Kelvin sign *)
Definition EqualFold (value : bytes) (lower : string) : bool :=
  folds (λ c, if bool_decide (c = x73) then Some [xc5; xbf]
              else if bool_decide (c = x6b) then Some [xe2; x84; xaa] else None) value (bstr lower).

(** [strings.ToUpper(value) == upper]: the long s and the dotless i *)
Definition UpperIs (value : bytes) (lower : string) : bool :=
  folds (λ c, if bool_decide (c = x73) then Some [xc5; xbf]
              else if bool_decide (c = x69) then Some [xc4; xb1] else None) value (bstr lower).

(** [strings.ToLower(value) == lower]: the Kelvin sign and the dotted I *)
Definition LowerIs (value : bytes) (lower : string) : bool :=
  folds (λ c, if bool_decide (c = x6b) then Some [xe2; x84; xaa]
              else if bool_decide (c = x69) then Some [xc4; xb0] else None) value (bstr lower).

Definition string_of_bytes (b : bytes) : string := String.string_of_list_byte b.

Definition errorf (s : string) : Resp := NewErrorf (bstr s).

(** * Sessions *)
Record Session := mkSession {
  se_Id : Z;
  se_remote : bytes;
  se_local : bytes;
  se_CreateUnix : Z;
  se_LastOpUnix : Z;
  se_Ops : Z;
  se_lastOpStr : bytes;
  se_database : Z;
  se_quit : bool;
  se_authorized : bool;
  se_aclIdentity : option SessionACLIdentity;
}.

Definition set_op (lastOpUnix ops : Z) (lastOpStr : bytes) (s : Session) : Session :=
  mkSession (se_Id s) (se_remote s) (se_local s) (se_CreateUnix s) lastOpUnix ops lastOpStr (se_database s)
    (se_quit s) (se_authorized s) (se_aclIdentity s).
Definition set_database (db : Z) (s : Session) : Session :=
  mkSession (se_Id s) (se_remote s) (se_local s) (se_CreateUnix s) (se_LastOpUnix s) (se_Ops s) (se_lastOpStr s) db
    (se_quit s) (se_authorized s) (se_aclIdentity s).
Definition set_quit (b : bool) (s : Session) : Session :=
  mkSession (se_Id s) (se_remote s) (se_local s) (se_CreateUnix s) (se_LastOpUnix s) (se_Ops s) (se_lastOpStr s)
    (se_database s) b (se_authorized s) (se_aclIdentity s).
Definition setAuthorized (b : bool) (s : Session) : Session :=
  mkSession (se_Id s) (se_remote s) (se_local s) (se_CreateUnix s) (se_LastOpUnix s) (se_Ops s) (se_lastOpStr s)
    (se_database s) (se_quit s) b (se_aclIdentity s).
Definition set_identity (i : option SessionACLIdentity) (s : Session) : Session :=
  mkSession (se_Id s) (se_remote s) (se_local s) (se_CreateUnix s) (se_LastOpUnix s) (se_Ops s) (se_lastOpStr s)
    (se_database s) (se_quit s) (se_authorized s) i.

(** [setACLIdentity] replaces, [clearACLIdentity] wipes the password and forgets *)
Definition setACLIdentity (i : SessionACLIdentity) (s : Session) : Session := set_identity (Some i) s.
Definition clearACLIdentity (s : Session) : Session := set_identity None s.
Definition clearACLAuthorization (s : Session) : Session := setAuthorized false (clearACLIdentity s).

Definition markACLStale (revision : Z) (s : Session) : Session :=
  match se_aclIdentity s with
  | Some i =>
      if decide (ai_Revision i ≠ revision)
      then set_identity (Some (mkIdentity (ai_Username i) (ai_CredentialHash i) (ai_Password i) (ai_Revision i)
                                 true (ai_ForcedDB i))) s
      else s
  | None => s
  end.

Definition recordOperationStart (unix : Z) (s : Session) : Session :=
  set_op unix (se_Ops s + 1) (se_lastOpStr s) s.
Definition setLastOpStr (opstr : bytes) (s : Session) : Session := set_op (se_LastOpUnix s) (se_Ops s) opstr s.

(** * The registry, client_list.go *)
Definition register (maxClients : Z) (s : Session) (m : gmap Z Session) : bool * gmap Z Session :=
  if decide (Z.of_nat (size m) >= maxClients) then (false, m) else (true, <[se_Id s := s]> m).
Definition unregister (s : Session) (m : gmap Z Session) : gmap Z Session := delete (se_Id s) m.

Record clientListEntry := mkClient {
  cl_ID : Z;
  cl_Addr : bytes;
  cl_LAddr : bytes;
  cl_Age : Z;
  cl_Idle : Z;
  cl_DB : Z;
  cl_Cmd : bytes;
  cl_User : bytes;
}.

(** the entry of a session; [auth] is [config.SessionAuth] *)
Definition client_entry (auth : bytes) (nowUnix : Z) (s : Session) : clientListEntry :=
  let age := Z.max 0 (nowUnix - se_CreateUnix s) in
  let idle := if decide (se_LastOpUnix s ≠ 0) then Z.max 0 (nowUnix - se_LastOpUnix s) else age in
  let cmd := match se_lastOpStr s with [] => bstr "NULL" | c => c end in
  let user := match se_aclIdentity s with
              | Some i => ai_Username i
              | None => if se_authorized s || bool_decide (auth = []) then bstr "default" else []
              end in
  mkClient (se_Id s) (se_remote s) (se_local s) age idle (se_database s) cmd user.

Definition client_le (a b : clientListEntry) : Prop := cl_ID a <= cl_ID b.
#[export] Instance client_le_dec : RelDecision client_le := λ a b, decide (cl_ID a <= cl_ID b).

(** all sessions, sorted by their numbers *)
Definition snapshot_all (auth : bytes) (nowUnix : Z) (m : gmap Z Session) : list clientListEntry :=
  merge_sort client_le (client_entry auth nowUnix <$> (map_to_list m).*2).

(** the sessions with the given numbers, in that order *)
Definition snapshotByIDs (auth : bytes) (nowUnix : Z) (ids : list Z) (m : gmap Z Session) : list clientListEntry :=
  client_entry auth nowUnix <$> omap (λ id, m !! id) ids.

Fixpoint parse_ids (args : list Resp) : option (list Z) :=
  match args with
  | [] => Some []
  | a :: args =>
      match Btoi64 (val (Value a)) with
      | Ok id => (λ l, id :: l) <$> parse_ids args
      | _ => None
      end
  end.

Definition parseClientListEntries (auth : bytes) (nowUnix : Z) (m : gmap Z Session) (multi : list Resp)
    : Resp + list clientListEntry :=
  match multi with
  | [_; _] => inr (snapshot_all auth nowUnix m)
  | _ :: _ :: k :: args =>
      let key := val (Value k) in
      match args with
      | [a] =>
          if EqualFold key "type" then
            let typ := val (Value a) in
            if LowerIs typ "normal" then inr (snapshot_all auth nowUnix m)
            else if LowerIs typ "master" || LowerIs typ "replica" || LowerIs typ "pubsub" then inr []
            else inl (NewErrorf (bstr "ERR Unknown client type '" ++ typ ++ bstr "'"))
          else if EqualFold key "id" then
            match parse_ids args with
            | Some ids => inr (snapshotByIDs auth nowUnix ids m)
            | None => inl (errorf "ERR Invalid client ID")
            end
          else inl (errorf "ERR syntax error")
      | _ :: _ =>
          if EqualFold key "id" then
            match parse_ids args with
            | Some ids => inr (snapshotByIDs auth nowUnix ids m)
            | None => inl (errorf "ERR Invalid client ID")
            end
          else inl (errorf "ERR syntax error")
      | [] => inl (errorf "ERR syntax error")
      end
  | _ => inl (errorf "ERR syntax error")
  end.

Definition format_client (e : clientListEntry) : bytes :=
  bstr "id=" ++ FormatInt (cl_ID e) ++ bstr " addr=" ++ cl_Addr e ++ bstr " laddr=" ++ cl_LAddr e ++
  bstr " name= age=" ++ FormatInt (cl_Age e) ++ bstr " idle=" ++ FormatInt (cl_Idle e) ++
  bstr " flags=N db=" ++ FormatInt (cl_DB e) ++
  bstr " sub=0 psub=0 ssub=0 multi=-1 qbuf=0 qbuf-free=0 obl=0 oll=0 omem=0 events=r cmd=" ++ cl_Cmd e ++
  bstr " user=" ++ cl_User e ++ bstr " redir=-1 resp=2" ++ [x0a].

Definition formatClientList (l : list clientListEntry) : bytes := concat (format_client <$> l).

Definition handleRequestClient (auth : bytes) (m : gmap Z Session) (nowUnix : Z) (multi : list Resp) : Resp :=
  match multi with
  | _ :: a :: _ =>
      if UpperIs (val (Value a)) "list" then
        match parseClientListEntries auth nowUnix m multi with
        | inl e => e
        | inr l => NewBulkBytes (match formatClientList l with [] => None | b => Some b end)
        end
      else NewErrorf (bstr "ERR unsupported CLIENT subcommand '" ++ val (Value a) ++ bstr "'")
  | _ => errorf "ERR wrong number of arguments for 'CLIENT' command"
  end.
