(* ===== verification/ClusterNodes.v ===== *)
(** The reply to CLUSTER NODES: pkg/proxy/cluster_nodes.go.

    A proxy describes itself and the other proxies of the product as the masters of a
    Redis cluster, each with an equal share of the 16384 slots.  The proxies come from the
    coordinator: a document per proxy, decoded from JSON, or [None] when it does not
    decode.  The node id is the SHA-1 of product, token and address, a parameter. *)

From S2P Require Import Prelude Bufio Resp Mapper Models Router Stream Forward SessionState.
(** * Order of byte strings *)
Fixpoint bytes_ltb (a b : bytes) : bool :=
  match a, b with
  | _, [] => false
  | [], _ :: _ => true
  | x :: a, y :: b => (byte_val x <? byte_val y) || ((byte_val x =? byte_val y) && bytes_ltb a b)
  end.

Record clusterNode := mkNode {
  cn_ID : bytes;
  cn_Token : bytes;
  cn_Addr : bytes;
  cn_IsSelf : bool;
  cn_SlotStart : Z;
  cn_SlotEnd : Z;
}.

Record jodisProxyNode := mkJodis { jn_Addr : bytes; jn_Token : bytes; jn_State : bytes }.

Inductive clusterNodesCompat := CompatDisabled | CompatSelf | CompatAll.

(** [self] is the proxy's own model: its token and its address *)
Record clusterNodesProvider := mkProvider {
  np_compat : clusterNodesCompat;
  np_self : option (bytes * bytes);
  np_nodes : list clusterNode;
}.

Definition redisClusterSlotCount : Z := 16384.

Definition node (token addr : bytes) (self : bool) : clusterNode := mkNode [] token addr self 0 0.
Definition with_id (id : bytes) (n : clusterNode) : clusterNode :=
  mkNode id (cn_Token n) (cn_Addr n) (cn_IsSelf n) (cn_SlotStart n) (cn_SlotEnd n).
Definition as_self (self : bytes * bytes) (n : clusterNode) : clusterNode :=
  mkNode (cn_ID n) self.1 self.2 true (cn_SlotStart n) (cn_SlotEnd n).
Definition with_self (n : clusterNode) : clusterNode :=
  mkNode (cn_ID n) (cn_Token n) (cn_Addr n) true (cn_SlotStart n) (cn_SlotEnd n).
Definition with_slots (start end_ : Z) (n : clusterNode) : clusterNode :=
  mkNode (cn_ID n) (cn_Token n) (cn_Addr n) (cn_IsSelf n) start end_.

Definition sameClusterNode (n : clusterNode) (self : option (bytes * bytes)) : bool :=
  match self with
  | None => false
  | Some (token, addr) =>
      bool_decide (cn_Token n ≠ [] ∧ token ≠ [] ∧ cn_Token n = token) ||
      bool_decide (cn_Addr n ≠ [] ∧ cn_Addr n = addr)
  end.

(** [filepath.Base] *)
Fixpoint strip_slashes (b : bytes) : bytes :=
  match b with x2f :: b' => strip_slashes b' | _ => b end.
Definition Base (path : bytes) : bytes :=
  match path with
  | [] => [x2e]
  | _ =>
      match strip_slashes (rev path) with
      | [] => [x2f]
      | p => match index_byte x2f p with Some i => rev (take i p) | None => rev p end
      end
  end.

(** [strings.TrimPrefix(filepath.Base(path), "proxy-")] *)
Definition tokenFromJodisPath (path : bytes) : bytes :=
  let token := Base path in
  if bool_decide (take 6 token = bstr "proxy-") then drop 6 token else token.

(** * Sorting *)
Definition node_less_dedup (a b : clusterNode) : bool :=
  if bool_decide (cn_IsSelf a ≠ cn_IsSelf b) then cn_IsSelf a
  else if bool_decide (cn_Token a ≠ cn_Token b) then bytes_ltb (cn_Token a) (cn_Token b)
  else bytes_ltb (cn_Addr a) (cn_Addr b).

Definition node_less_id (a b : clusterNode) : bool :=
  if bool_decide (cn_ID a ≠ cn_ID b) then bytes_ltb (cn_ID a) (cn_ID b)
  else if bool_decide (cn_Token a ≠ cn_Token b) then bytes_ltb (cn_Token a) (cn_Token b)
  else bytes_ltb (cn_Addr a) (cn_Addr b).

(** [sort.Slice(nodes, less)] *)
Definition not_after (less : clusterNode → clusterNode → bool) (a b : clusterNode) : Prop := less b a = false.
#[export] Instance not_after_dec less : RelDecision (not_after less) := λ a b, decide (less b a = false).
Definition sort_slice (less : clusterNode → clusterNode → bool) (l : list clusterNode) : list clusterNode :=
  merge_sort (not_after less) l.

Definition sortClusterNodesForDedup : list clusterNode → list clusterNode := sort_slice node_less_dedup.

(** the first node for each key, in order *)
Fixpoint dedup_by (key : clusterNode → bytes) (seen : list bytes) (l : list clusterNode) : list clusterNode :=
  match l with
  | [] => []
  | n :: l =>
      if bool_decide (key n ∈ seen) then dedup_by key seen l
      else n :: dedup_by key (key n :: seen) l
  end.

Section provider.
Context (fakeClusterNodeID : bytes → bytes → bytes).
Implicit Type self : option (bytes * bytes).

Definition normalize_node self (n : clusterNode) : clusterNode :=
  match self with
  | Some p => if sameClusterNode n self then as_self p n else n
  | None => n
  end.

Definition normalizeClusterNodes self (nodes : list clusterNode) : list clusterNode :=
  let normalized := normalize_node self <$> filter (λ n, cn_Addr n ≠ []) nodes in
  let sorted := sortClusterNodesForDedup normalized in
  let by_token := dedup_by cn_Token [] (filter (λ n, cn_Token n ≠ []) sorted) in
  let addr_only := filter (λ n, cn_Token n = []) sorted in
  dedup_by cn_Addr [] (sortClusterNodesForDedup (by_token ++ addr_only)).

(** the first node that is the proxy itself is made so; a missing one is added *)
Fixpoint mark_self (p : bytes * bytes) (nodes : list clusterNode) : option (list clusterNode) :=
  match nodes with
  | [] => None
  | n :: nodes =>
      if sameClusterNode n (Some p) then Some (as_self p n :: nodes)
      else (λ l, n :: l) <$> mark_self p nodes
  end.

Definition ensureSelfNode self (nodes : list clusterNode) : list clusterNode :=
  match self with
  | None => nodes
  | Some p =>
      if bool_decide (p.2 = []) then nodes
      else match mark_self p nodes with
      | Some l => l
      | None => nodes ++ [node p.1 p.2 true]
      end
  end.

Definition fillClusterNodeIDs self (nodes : list clusterNode) : list clusterNode :=
  (λ n, let n := with_id (fakeClusterNodeID (cn_Token n) (cn_Addr n)) n in
        if sameClusterNode n self then with_self n else n) <$> nodes.

(** [for i := range nodes] of assignClusterSlots, from the i-th node on *)
Fixpoint assign_from (base remainder i start : Z) (nodes : list clusterNode) : list clusterNode :=
  match nodes with
  | [] => []
  | n :: nodes =>
      let width := if decide (i < remainder) then base + 1 else base in
      with_slots start (start + width - 1) n :: assign_from base remainder (i + 1) (start + width) nodes
  end.

Definition assignClusterSlots (nodes : list clusterNode) : list clusterNode :=
  match nodes with
  | [] => []
  | _ =>
      let len := Z.of_nat (length nodes) in
      assign_from (redisClusterSlotCount / len) (redisClusterSlotCount mod len) 0 0 (sort_slice node_less_id nodes)
  end.

Definition selfFallbackNodes self : list clusterNode :=
  match self with
  | None => []
  | Some p => if bool_decide (p.2 = []) then [] else assignClusterSlots (fillClusterNodeIDs self [node p.1 p.2 true])
  end.

(** a document of the coordinator, with its path *)
Definition jodis_node (d : bytes * option jodisProxyNode) : option clusterNode :=
  match d with
  | (_, None) => None
  | (path, Some j) =>
      if bool_decide (jn_Addr j = []) then None
      else if bool_decide (jn_State j ≠ []) && negb (LowerIs (jn_State j) "online") then None
      else Some (node (match jn_Token j with [] => tokenFromJodisPath path | t => t end) (jn_Addr j) false)
  end.

(** the documents as listed and read, [None] when the coordinator failed *)
Definition loadJodisNodes self (docs : option (list (bytes * option jodisProxyNode))) : option (list clusterNode) :=
  match docs with
  | None => None
  | Some docs =>
      Some (assignClusterSlots (fillClusterNodeIDs self (ensureSelfNode self (normalizeClusterNodes self (omap jodis_node docs)))))
  end.

Definition setNodes (nodes : list clusterNode) (p : clusterNodesProvider) : clusterNodesProvider :=
  mkProvider (np_compat p) (np_self p) (match nodes with [] => selfFallbackNodes (np_self p) | _ => nodes end).

Definition newClusterNodesProvider (compat : clusterNodesCompat) self : clusterNodesProvider :=
  setNodes (selfFallbackNodes self) (mkProvider compat self []).

(** [refresh]: after an error the nodes stay; [client] says whether there is a coordinator *)
Definition refresh (client : bool) (docs : option (list (bytes * option jodisProxyNode))) (p : clusterNodesProvider)
    : clusterNodesProvider :=
  match np_compat p, client with
  | CompatAll, true =>
      match loadJodisNodes (np_self p) docs with
      | None => p
      | Some nodes => setNodes nodes p
      end
  | _, _ => p
  end.

Definition snapshot_nodes (p : clusterNodesProvider) : list clusterNode :=
  match np_nodes p with [] => selfFallbackNodes (np_self p) | l => l end.

(** ** The text *)
Definition clusterBusPort (addr : bytes) : Z :=
  match SplitHostPort addr with
  | None => 0
  | Some (_, port) => match ParseInt port with Ok n => i64 (n + 10000) | _ => 0 end
  end.

Definition formatClusterSlotRange (start end_ : Z) : bytes :=
  if decide (start = end_) then FormatInt start else FormatInt start ++ bstr "-" ++ FormatInt end_.

Definition format_node (n : clusterNode) : bytes :=
  cn_ID n ++ bstr " " ++ cn_Addr n ++ bstr "@" ++ FormatInt (clusterBusPort (cn_Addr n)) ++ bstr " " ++
  (if cn_IsSelf n then bstr "myself,master" else bstr "master") ++ bstr " - 0 0 0 connected " ++
  formatClusterSlotRange (cn_SlotStart n) (cn_SlotEnd n) ++ [x0a].

Definition formatClusterNodes (l : list clusterNode) : bytes := concat (format_node <$> l).

Definition clusterNodesDisabled (p : clusterNodesProvider) : bool :=
  match np_compat p with CompatDisabled => true | _ => false end.

(** [None] is the error that the command is not allowed *)
Definition handleRequestCluster (p : clusterNodesProvider) (multi : list Resp) : option Resp :=
  if clusterNodesDisabled p then None
  else Some (match multi with
  | _ :: a :: rest =>
      if UpperIs (val (Value a)) "nodes" then
        match rest with
        | [] => NewBulkBytes (Some (formatClusterNodes (snapshot_nodes p)))
        | _ => errorf "ERR wrong number of arguments for 'CLUSTER NODES' command"
        end
      else NewErrorf (bstr "ERR unsupported CLUSTER subcommand '" ++ val (Value a) ++ bstr "'")
  | _ => errorf "ERR wrong number of arguments for 'CLUSTER' command"
  end).

End provider.

(** * The shares of the slots *)

(** where the share of the i-th of the nodes starts *)
Definition share_start (len i : Z) : Z := i * (redisClusterSlotCount / len) + Z.min i (redisClusterSlotCount mod len).

Lemma assign_from_lookup base rem nodes : ∀ i start k n,
  assign_from base rem i start nodes !! k = Some n → 0 <= i → 0 <= rem →
  start = i * base + Z.min i rem →
  cn_SlotStart n = (i + Z.of_nat k) * base + Z.min (i + Z.of_nat k) rem ∧
  cn_SlotEnd n + 1 = (i + Z.of_nat k + 1) * base + Z.min (i + Z.of_nat k + 1) rem.
Proof.
  induction nodes as [|m nodes IH]; intros i start k n Hk Hi Hrem ->; [done|]. cbn [assign_from] in Hk.
  destruct k as [|k].
  - injection Hk as <-. cbn. rewrite Z.add_0_r. split; [done|]. case_decide; lia.
  - cbn in Hk. apply IH in Hk; [|lia|lia|case_decide; lia].
    replace (i + Z.of_nat (S k)) with (i + 1 + Z.of_nat k) by lia. done.
Qed.

Lemma assign_from_length base rem nodes : ∀ i start, length (assign_from base rem i start nodes) = length nodes.
Proof. induction nodes as [|m nodes IH]; intros i start; cbn; [done|]. by rewrite IH. Qed.

Lemma assign_from_addrs base rem nodes : ∀ i start, cn_Addr <$> assign_from base rem i start nodes = cn_Addr <$> nodes.
Proof. induction nodes as [|m nodes IH]; intros i start; cbn; [done|]. by rewrite IH. Qed.

Lemma sort_slice_perm less l : sort_slice less l ≡ₚ l.
Proof. apply merge_sort_Permutation. Qed.

Lemma assignClusterSlots_length nodes : length (assignClusterSlots nodes) = length nodes.
Proof.
  unfold assignClusterSlots. destruct nodes as [|n nodes]; [done|]. set (l := n :: nodes).
  by rewrite assign_from_length, sort_slice_perm.
Qed.

Lemma assignClusterSlots_addrs nodes : cn_Addr <$> assignClusterSlots nodes ≡ₚ cn_Addr <$> nodes.
Proof.
  unfold assignClusterSlots. destruct nodes as [|n nodes]; [done|]. set (l := n :: nodes).
  by rewrite assign_from_addrs, sort_slice_perm.
Qed.

Lemma share_of nodes k n : assignClusterSlots nodes !! k = Some n →
  let len := Z.of_nat (length nodes) in
  cn_SlotStart n = share_start len (Z.of_nat k) ∧ cn_SlotEnd n + 1 = share_start len (Z.of_nat k + 1).
Proof.
  intros Hk len. assert (0 < len) as Hlen.
  { apply lookup_lt_Some in Hk. rewrite assignClusterSlots_length in Hk. unfold len. lia. }
  unfold assignClusterSlots in Hk. destruct nodes as [|m nodes]; [done|].
  apply assign_from_lookup in Hk; [|done|apply Z.mod_pos_bound; lia|].
  - unfold share_start. by rewrite Z.add_0_l in Hk.
  - pose proof (Z.mod_pos_bound redisClusterSlotCount len Hlen). fold len. lia.
Qed.

Lemma share_start_0 len : 0 < len → share_start len 0 = 0.
Proof. intros Hl. pose proof (Z.mod_pos_bound redisClusterSlotCount len Hl). unfold share_start. lia. Qed.

Lemma share_start_last len : 0 < len → share_start len len = redisClusterSlotCount.
Proof.
  intros Hl. pose proof (Z.mod_pos_bound redisClusterSlotCount len Hl). unfold share_start.
  pose proof (Z.div_mod redisClusterSlotCount len ltac:(lia)). lia.
Qed.

Lemma share_start_mono len i j : 0 < len → 0 <= i <= j → share_start len i <= share_start len j.
Proof.
  intros Hl Hij. pose proof (Z.mod_pos_bound redisClusterSlotCount len Hl). unfold share_start.
  pose proof (Z.div_pos redisClusterSlotCount len ltac:(done) Hl). nia.
Qed.

(** a slot below the n-th start is in one of the first n shares *)
Lemma slot_in_share len n slot : 0 < len → 0 <= slot < share_start len (Z.of_nat n) →
  ∃ k, (k < n)%nat ∧ share_start len (Z.of_nat k) <= slot < share_start len (Z.of_nat k + 1).
Proof.
  intros Hl. induction n as [|n IH]; intros Hs; [rewrite share_start_0 in Hs; lia|].
  destruct (decide (slot < share_start len (Z.of_nat n))) as [Hlt|Hge].
  - destruct (IH ltac:(lia)) as (k & ? & ?). exists k. split; [lia|done].
  - exists n. split; [lia|]. replace (Z.of_nat n + 1) with (Z.of_nat (S n)) by lia. lia.
Qed.

(** every slot is in the share of exactly one node *)
Lemma shares_partition nodes slot : nodes ≠ [] → 0 <= slot < redisClusterSlotCount →
  ∃ k n, assignClusterSlots nodes !! k = Some n ∧ cn_SlotStart n <= slot <= cn_SlotEnd n ∧
    ∀ k' n', assignClusterSlots nodes !! k' = Some n' → cn_SlotStart n' <= slot <= cn_SlotEnd n' → k' = k.
Proof.
  intros Hne Hs. set (len := Z.of_nat (length nodes)).
  assert (0 < len) as Hl by (unfold len; destruct nodes; [done|cbn; lia]).
  rewrite <- (share_start_last len Hl) in Hs. destruct (slot_in_share len (length nodes) slot Hl Hs) as (k & Hk & Hin).
  destruct (assignClusterSlots nodes !! k) as [n|] eqn:Hn.
  2: { apply lookup_ge_None in Hn. rewrite assignClusterSlots_length in Hn. lia. }
  exists k, n. pose proof (share_of nodes k n Hn) as [Hst Hend]. fold len in Hst, Hend. split; [done|]. split; [lia|].
  intros k' n' Hn' Hin'. pose proof (share_of nodes k' n' Hn') as [Hst' Hend']. fold len in Hst', Hend'.
  destruct (Nat.lt_trichotomy k' k) as [Hlt|[?|Hgt]]; [|done|]; exfalso.
  - pose proof (share_start_mono len (Z.of_nat k' + 1) (Z.of_nat k) Hl ltac:(lia)). lia.
  - pose proof (share_start_mono len (Z.of_nat k + 1) (Z.of_nat k') Hl ltac:(lia)). lia.
Qed.

(** * Which nodes are shown *)
Lemma dedup_by_spec key l : ∀ seen,
  NoDup (key <$> dedup_by key seen l) ∧ (∀ n, n ∈ dedup_by key seen l → n ∈ l ∧ key n ∉ seen).
Proof.
  induction l as [|m l IH]; intros seen; cbn [dedup_by].
  { split; [constructor|]. by intros n ?%not_elem_of_nil. }
  case_bool_decide as Hin.
  - destruct (IH seen) as [Hnd Hsub]. split; [done|]. intros n Hn. destruct (Hsub n Hn). split; [by right|done].
  - destruct (IH (key m :: seen)) as [Hnd Hsub]. cbn. split.
    + apply NoDup_cons. split; [|done]. intros (n & Heq & Hn)%list_elem_of_fmap. apply Hsub in Hn as [_ Hn].
      apply Hn. rewrite <- Heq. by left.
    + intros n [->|Hn]%elem_of_cons; [split; [by left|done]|]. apply Hsub in Hn as [? Hns].
      split; [by right|]. intros ?. apply Hns. by right.
Qed.

Section view.
Context (fakeClusterNodeID : bytes → bytes → bytes) (p : bytes * bytes).
Hypothesis addr_set : p.2 ≠ [].

(** nodes as they are after [normalizeClusterNodes] *)
Definition tidy (n : clusterNode) : Prop :=
  (sameClusterNode n (Some p) = true → cn_Addr n = p.2) ∧ (cn_IsSelf n = true → cn_Addr n = p.2).

Lemma same_as_addr n : cn_Addr n = p.2 → sameClusterNode n (Some p) = true.
Proof.
  intros Ha. unfold sameClusterNode. destruct p as [t a] eqn:Hp. cbn in *. apply orb_true_iff. right.
  apply bool_decide_eq_true. split; [by rewrite Ha|done].
Qed.

Lemma normalize_tidy n : cn_IsSelf n = false → tidy (normalize_node (Some p) n).
Proof.
  intros Hs. unfold tidy, normalize_node. destruct (sameClusterNode n (Some p)) eqn:Hsame; [by cbn|].
  rewrite Hsame, Hs. done.
Qed.

Lemma normalize_spec nodes : Forall (λ n, cn_IsSelf n = false) nodes →
  NoDup (cn_Addr <$> normalizeClusterNodes (Some p) nodes) ∧ Forall tidy (normalizeClusterNodes (Some p) nodes).
Proof.
  intros Hall. unfold normalizeClusterNodes. set (l0 := normalize_node (Some p) <$> _).
  set (l1 := sortClusterNodesForDedup l0). set (l2 := sortClusterNodesForDedup _).
  destruct (dedup_by_spec cn_Addr l2 []) as [Hnd Hsub]. split; [done|]. apply Forall_forall. intros n Hn.
  apply Hsub in Hn as [Hn _].
  assert (n ∈ l0) as Hn0.
  { assert (∀ m, m ∈ l1 → m ∈ l0) as H10 by (intros m; unfold l1, sortClusterNodesForDedup; by rewrite sort_slice_perm).
    unfold l2, sortClusterNodesForDedup in Hn. rewrite sort_slice_perm in Hn. apply H10.
    apply elem_of_app in Hn as [Hn|Hn].
    - apply dedup_by_spec in Hn as [Hn _]. by apply list_elem_of_filter in Hn as [_ ?].
    - by apply list_elem_of_filter in Hn as [_ ?]. }
  unfold l0 in Hn0. apply list_elem_of_fmap in Hn0 as (m & -> & Hm%list_elem_of_filter).
  apply normalize_tidy. destruct Hm as [_ Hm]. by eapply Forall_forall in Hall.
Qed.

Lemma mark_self_spec nodes : Forall tidy nodes →
  match mark_self p nodes with
  | Some l => cn_Addr <$> l = cn_Addr <$> nodes ∧ p.2 ∈ cn_Addr <$> l ∧ Forall tidy l
  | None => p.2 ∉ cn_Addr <$> nodes
  end.
Proof.
  induction nodes as [|n nodes IH]; intros Hall; cbn [mark_self]; [apply not_elem_of_nil|].
  apply Forall_cons in Hall as [Hn Hall]. destruct (sameClusterNode n (Some p)) eqn:Hsame.
  - destruct Hn as [Ha _]. specialize (Ha Hsame). cbn. split; [by rewrite Ha|]. split; [by left|].
    apply Forall_cons. split; [|done]. by split.
  - specialize (IH Hall). destruct (mark_self p nodes) as [l|]; cbn.
    + destruct IH as (-> & ? & ?). split; [done|]. split; [by right|]. by apply Forall_cons.
    + apply not_elem_of_cons. split; [|done]. intros Heq. by rewrite same_as_addr in Hsame.
Qed.

Lemma ensureSelf_spec nodes : Forall tidy nodes → NoDup (cn_Addr <$> nodes) →
  let l := ensureSelfNode (Some p) nodes in
  NoDup (cn_Addr <$> l) ∧ p.2 ∈ cn_Addr <$> l ∧ Forall tidy l.
Proof.
  intros Hall Hnd. unfold ensureSelfNode. rewrite bool_decide_false by done.
  pose proof (mark_self_spec nodes Hall) as Hm. destruct (mark_self p nodes) as [l|].
  - destruct Hm as (Heq & ? & ?). by rewrite Heq at 1.
  - rewrite fmap_app. cbn. split; [|split].
    + apply NoDup_app. split; [done|]. split; [|apply NoDup_singleton]. intros a Ha ->%list_elem_of_singleton. done.
    + apply elem_of_app. right. by left.
    + apply Forall_app. split; [done|]. apply Forall_singleton. by split.
Qed.

Lemma fill_spec nodes : Forall tidy nodes →
  let l := fillClusterNodeIDs fakeClusterNodeID (Some p) nodes in
  cn_Addr <$> l = cn_Addr <$> nodes ∧ Forall (λ n, cn_IsSelf n = true ↔ cn_Addr n = p.2) l.
Proof.
  intros Hall l. unfold l, fillClusterNodeIDs. split.
  - rewrite <- list_fmap_compose. apply list_fmap_ext. intros i n _. unfold compose.
    by destruct (sameClusterNode (with_id _ n) (Some p)).
  - apply Forall_fmap. eapply Forall_impl; [done|]. intros n [H1 H2]. unfold compose. cbn beta zeta.
    assert (sameClusterNode (with_id (fakeClusterNodeID (cn_Token n) (cn_Addr n)) n) (Some p)
            = sameClusterNode n (Some p)) as -> by done.
    destruct (sameClusterNode n (Some p)) eqn:Hs; cbn; [split; [intros _; by apply H1|done]|].
    split; [done|]. intros Ha. by rewrite same_as_addr in Hs.
Qed.

Lemma assign_from_self base rem l : ∀ i start,
  Forall (λ n, cn_IsSelf n = true ↔ cn_Addr n = p.2) l →
  Forall (λ n, cn_IsSelf n = true ↔ cn_Addr n = p.2) (assign_from base rem i start l).
Proof.
  induction l as [|x l IH]; intros i start Hall; cbn [assign_from]; [done|].
  apply Forall_cons in Hall as [Hx Hall]. apply Forall_cons. split; [done|]. by apply IH.
Qed.

Lemma assign_self l : Forall (λ n, cn_IsSelf n = true ↔ cn_Addr n = p.2) l →
  Forall (λ n, cn_IsSelf n = true ↔ cn_Addr n = p.2) (assignClusterSlots l).
Proof.
  intros Hall. unfold assignClusterSlots. destruct l as [|n l]; [done|].
  apply assign_from_self. by rewrite sort_slice_perm.
Qed.

End view.

Lemma jodis_node_other d n : jodis_node d = Some n → cn_IsSelf n = false.
Proof.
  unfold jodis_node. destruct d as [path [j|]]; [|done]. case_bool_decide; [done|].
  destruct (_ && _); [done|]. intros [= <-]. done.
Qed.

(** What CLUSTER NODES shows: whatever documents the coordinator holds, repeated,
    broken or stale ones included, every node has an address of its own, the proxy itself
    is one of them and the only one marked as such, and each of the 16384 slots is in the
    range of exactly one node. *)
Theorem cluster_nodes_view (fakeClusterNodeID : bytes → bytes → bytes) (p : bytes * bytes)
    (docs : list (bytes * option jodisProxyNode)) :
  p.2 ≠ [] →
  ∃ l, loadJodisNodes fakeClusterNodeID (Some p) (Some docs) = Some l ∧
    NoDup (cn_Addr <$> l) ∧ p.2 ∈ cn_Addr <$> l ∧
    (∀ n, n ∈ l → cn_IsSelf n = true ↔ cn_Addr n = p.2) ∧
    ∀ slot, 0 <= slot < redisClusterSlotCount →
      ∃ k n, l !! k = Some n ∧ cn_SlotStart n <= slot <= cn_SlotEnd n ∧
        ∀ k' n', l !! k' = Some n' → cn_SlotStart n' <= slot <= cn_SlotEnd n' → k' = k.
Proof.
  intros Hp. eexists. split; [done|].
  assert (Forall (λ n, cn_IsSelf n = false) (omap jodis_node docs)) as Hdocs.
  { apply Forall_forall. intros n (d & _ & Hj)%list_elem_of_omap. by eapply jodis_node_other. }
  destruct (normalize_spec p (omap jodis_node docs) Hdocs) as [Hnd Ht].
  destruct (ensureSelf_spec p Hp _ Ht Hnd) as (Hnd2 & Hin2 & Ht2).
  destruct (fill_spec fakeClusterNodeID p Hp _ Ht2) as [Haddr Hself].
  set (l := fillClusterNodeIDs fakeClusterNodeID (Some p) _) in *. rewrite <- Haddr in Hnd2, Hin2.
  split; [by rewrite assignClusterSlots_addrs|]. split; [by rewrite assignClusterSlots_addrs|].
  split; [by apply Forall_forall, assign_self|]. intros slot Hs. apply shares_partition; [|done].
  intros Hnil. rewrite Hnil in Hin2. by apply not_elem_of_nil in Hin2.
Qed.

Definition demo_docs : list (bytes * option jodisProxyNode) :=
  [(bstr "/jodis/p/proxy-t2", Some (mkJodis (bstr "h2:19000") (bstr "") (bstr "online")));
   (bstr "/jodis/p/proxy-t3", Some (mkJodis (bstr "h2:19000") (bstr "t3") (bstr "ONLINE")));
   (bstr "/jodis/p/x", None)].

Lemma cluster_nodes_view_witness : ∃ l,
  loadJodisNodes (λ t a, t ++ a) (Some (bstr "t1", bstr "h1:19000")) (Some demo_docs) = Some l ∧ length l = 2%nat ∧
  NoDup (cn_Addr <$> l).
Proof.
  destruct (cluster_nodes_view (λ t a, t ++ a) (bstr "t1", bstr "h1:19000") demo_docs ltac:(discriminate))
    as (l & Hl & Hnd & _).
  assert (Hlen : length (default [] (loadJodisNodes (λ t a, t ++ a) (Some (bstr "t1", bstr "h1:19000"))
                                       (Some demo_docs))) = 2%nat) by (vm_compute; reflexivity).
  rewrite Hl in Hlen. exists l. split; [exact Hl|]. split; [exact Hlen|exact Hnd].
Defined.
