(* ===== verification/SessionHandler.v ===== *)
(** The requests of a session from arrival to reply: session.go ([handleRequest],
    [handleResponse]), session_auth.go, and the request handlers of hot_key_cache.go and
    stream_commands.go.

    The world of a handler is the session it runs for and the proxy: routing and
    connections ([Fwd]), the hot key cache, the guard against password guessing, the rate
    limiter and the other registered sessions.  A request that was handled has a reply,
    or waits for replies of backends; [coalescer] is the closure in its [Coalesce] field.
    [now] is what [time.Now] returns during one request. *)

From S2P Require Import Prelude Bufio Resp Mapper Models Router Stream Forward HotKeyCache AuthBruteforce.
From S2P Require Import Limiter Session SessionState ClusterNodes.
(** * The proxy *)
Record PW := mkPW {
  pw_fwd : Fwd;
  pw_cache : HotKeyCache;
  pw_guard : option AuthBruteforceGuard;
  pw_limiter : QPSLimiter;
  pw_sessions : gmap Z Session;
}.

Record HW := mkHW { hw_session : Session; hw_proxy : PW }.

Abbreviation HM := (M HW reqerr).

Definition on_session (f : Session → Session) : HM unit := modify (λ w, mkHW (f (hw_session w)) (hw_proxy w)).
Definition get_session {A} (f : Session → A) : HM A := gets (λ w, f (hw_session w)).
Definition get_fwd {A} (f : Fwd → A) : HM A := gets (λ w, f (pw_fwd (hw_proxy w))).
Definition get_cache {A} (f : HotKeyCache → A) : HM A := gets (λ w, f (pw_cache (hw_proxy w))).

Definition set_fwd (f : Fwd) (w : HW) : HW :=
  let p := hw_proxy w in mkHW (hw_session w) (mkPW f (pw_cache p) (pw_guard p) (pw_limiter p) (pw_sessions p)).
Definition set_cache (c : HotKeyCache) (w : HW) : HW :=
  let p := hw_proxy w in mkHW (hw_session w) (mkPW (pw_fwd p) c (pw_guard p) (pw_limiter p) (pw_sessions p)).
Definition set_guard (g : option AuthBruteforceGuard) (w : HW) : HW :=
  let p := hw_proxy w in mkHW (hw_session w) (mkPW (pw_fwd p) (pw_cache p) g (pw_limiter p) (pw_sessions p)).
Definition set_limiter (l : QPSLimiter) (w : HW) : HW :=
  let p := hw_proxy w in mkHW (hw_session w) (mkPW (pw_fwd p) (pw_cache p) (pw_guard p) l (pw_sessions p)).

(** run a computation of the routing and forwarding layer *)
Definition on_fwd {A} (m : FM A) : HM A := λ w,
  let '(o, f) := m (pw_fwd (hw_proxy w)) in (o, set_fwd f w).

(** the guard may be a nil pointer, on which nothing happens *)
Definition on_guard {A} (a0 : A) (f : AuthBruteforceGuard → A * AuthBruteforceGuard) : HM A := λ w,
  match pw_guard (hw_proxy w) with
  | None => (Ok a0, w)
  | Some g => let '(a, g) := f g in (Ok a, set_guard (Some g) w)
  end.

(** * What a handled request waits for *)
Inductive coalescer :=
| CoSub (known : list (option Resp)) (f : list subreply → outcome reqerr (option Resp))
| CoGet (token : hotKeyCacheToken)
| CoMGet (values : list (option Resp)) (tokens : list (option hotKeyCacheToken)) (known : list (option Resp))
| CoPlan (p : hotKeyCacheInvalidationPlan) (inner : option coalescer).

(** [r.Resp] and [r.Coalesce]; [Spinning] when the forwarding loop is still at work *)
Inductive handled := Handled (resp : option Resp) (co : option coalescer) | Spinning.

Definition answer_ (resp : Resp) : HM handled := mret (Handled (Some resp) None).

Section handler.
Context (cfg : Config) `{Net} `{Addresses} `{MapRange}.
(** SHA-256 in hexadecimal *)
Context (ACLPasswordHash : bytes → string).
(** the address of the n-th sub-request, which only seeds the choice of a connection *)
Context (sub_ptr : nat → Z).
(** the rounds granted to a forwarding loop *)
Context (fuel : nat).
(** what CLUSTER NODES shows *)
Context (fakeClusterNodeID : bytes → bytes → bytes) (nodes : clusterNodesProvider).
(** [strings.ToUpper] *)
Context (ToUpper : bytes → bytes).
(** the text of a number parser's error *)
Context (parse_error : string).

(** * Authentication, session_auth.go *)
Definition authBruteforceLockedMessage : Resp := errorf "ERR too many invalid AUTH attempts, try again later".

Definition handleLegacyAuth (now : Z) (r : Request) : HM handled :=
  match rq_Multi r with
  | [_; a] =>
      match cf_SessionAuth cfg with
      | [] => answer_ (errorf "ERR Client sent AUTH, but no password is set")
      | _ =>
          wasAuthorized ← get_session se_authorized;
          remoteAddr ← get_session se_remote;
          locked ← on_guard false (BeforeAuth remoteAddr wasAuthorized now);
          if locked : bool then answer_ authBruteforceLockedMessage
          else if decide (cf_SessionAuth cfg ≠ val (Value a)) then
            on_session (setAuthorized false) ;;
            (if wasAuthorized : bool then mret false
             else on_guard false (RecordAuthFailure remoteAddr wasAuthorized now)) ;;
            answer_ (errorf "ERR invalid password")
          else
            on_session (setAuthorized true) ;;
            on_guard tt (λ g, (tt, RecordAuthSuccess remoteAddr g)) ;;
            answer_ RespOK
      end
  | _ => answer_ (errorf "ERR wrong number of arguments for 'AUTH' command")
  end.

Definition aclPasswordAllowed (user : ACLUser) (hash : string) : bool :=
  existsb (λ rule, EqualFold (bstr rule) "nopass") (au_Rules user) ||
  existsb (λ allowed, bool_decide (allowed = hash)) (au_PasswordHashes user).

Definition defaultACLUser : bytes := bstr "default".

(** the user name and the password of an AUTH with one or two arguments *)
Definition auth_args (multi : list Resp) : option (bytes * bytes) :=
  match multi with
  | [_; p] => Some (defaultACLUser, val (Value p))
  | [_; u; p] => Some (val (Value u), val (Value p))
  | _ => None
  end.

(** the enabled user the password belongs to *)
Definition acl_user (snapshot : ACLSnapshot) (username : bytes) (hash : string) : option ACLUser :=
  match as_Users snapshot !! string_of_bytes username with
  | Some user => if au_Enabled user && aclPasswordAllowed user hash then Some user else None
  | None => None
  end.

(** [ERR acl user %s bound db %d exceeds backend db count %d] *)
Definition db_bound_error (username : bytes) (db : Z) : Resp :=
  NewErrorf (bstr "ERR acl user " ++ username ++ bstr " bound db " ++ FormatInt db ++
             bstr " exceeds backend db count " ++ FormatInt (cf_BackendNumberDatabases cfg)).

Definition handleACLAuth (now : Z) (r : Request) : HM handled :=
  match auth_args (rq_Multi r) with
  | None => answer_ (errorf "ERR wrong number of arguments for 'AUTH' command")
  | Some (username, password) =>
      snapshot ← get_fwd fw_acl;
      match snapshot with
      | Some snapshot =>
          if negb (as_Enabled snapshot) then answer_ (errorf "ERR Client sent AUTH, but no password is set")
          else
            wasAuthorized ← get_session se_authorized;
            remoteAddr ← get_session se_remote;
            locked ← on_guard false (BeforeAuth remoteAddr false now);
            if locked : bool then answer_ authBruteforceLockedMessage
            else
              let hash := ACLPasswordHash password in
              match acl_user snapshot username hash with
              | None =>
                  on_guard false (RecordAuthFailure remoteAddr false now) ;;
                  (if wasAuthorized : bool then mret tt else on_session clearACLAuthorization) ;;
                  answer_ (errorf "WRONGPASS invalid username-password pair or user is disabled")
              | Some user =>
                  if match au_DB user with
                     | Some db => bool_decide (db < 0 ∨ cf_BackendNumberDatabases cfg <= db)
                     | None => false
                     end
                  then answer_ (db_bound_error username (default 0 (au_DB user)))
                  else
                    on_session (setACLIdentity (mkIdentity username hash password (as_Revision snapshot) false (au_DB user))) ;;
                    on_session (match au_DB user with Some db => set_database db | None => id end) ;;
                    on_session (setAuthorized true) ;;
                    on_guard tt (λ g, (tt, RecordAuthSuccess remoteAddr g)) ;;
                    answer_ RespOK
              end
      | None => answer_ (errorf "ERR Client sent AUTH, but no password is set")
      end
  end.

Definition handleAuth (now : Z) (r : Request) : HM handled :=
  acl ← get_fwd (aclAuthEnabled cfg);
  if acl : bool then handleACLAuth now r else handleLegacyAuth now r.

(** [isACLAuthorized]: an identity that is out of date is dropped *)
Definition isACLAuthorized : HM bool :=
  identity ← get_session se_aclIdentity;
  snapshot ← get_fwd fw_acl;
  match identity with
  | None => mret false
  | Some i =>
      if match snapshot with
         | Some s => as_Enabled s && negb (ai_Stale i) && (ai_Revision i =? as_Revision s)
         | None => false
         end
      then mret true
      else on_session clearACLAuthorization ;; mret false
  end.

Definition handleRequestACL (r : Request) : HM handled :=
  acl ← get_fwd (aclAuthEnabled cfg);
  let unsupported := answer_ (NewErrorf (bstr "ERR unsupported ACL subcommand '" ++
                       match rq_Multi r with _ :: a :: _ => val (Value a) | _ => [] end ++ bstr "'")) in
  match rq_Multi r with
  | [_; a] =>
      if acl && EqualFold (val (Value a)) "whoami" then
        identity ← get_session se_aclIdentity;
        match identity with
        | Some i => if ai_Stale i then answer_ (errorf "NOAUTH Authentication required") else answer_ (bulk (ai_Username i))
        | None => answer_ (errorf "NOAUTH Authentication required")
        end
      else unsupported
  | _ => unsupported
  end.

(** * Carrying out a plan *)
Definition with_multi (r : Request) (multi : list Resp) : Request :=
  mkRequest multi (rq_OpStr r) (rq_OpFlag r) (rq_Database r) (rq_UnixNano r) (rq_ACLIdentity r) (rq_ptr r).

(** a request that was forwarded: the reply is there, or awaited *)
Definition forwarded_resp (f : option forwarded) : option (option Resp) :=
  match f with
  | Some (Pushed _) => Some None
  | Some (Replied resp) => Some (Some resp)
  | None => None
  end.

Definition settle (m : FM (option forwarded)) (co : option coalescer) : HM handled :=
  f ← on_fwd m;
  mret (match forwarded_resp f with Some resp => Handled resp co | None => Spinning end).

(** dispatch the sub-requests in order; [None] when a forwarding loop is still at work *)
Fixpoint dispatch_all (rs : list Request) : HM (option (list (option Resp))) :=
  match rs with
  | [] => mret (Some [])
  | r :: rs =>
      f ← on_fwd (dispatch cfg fuel r);
      match forwarded_resp f with
      | None => mret None
      | Some resp =>
          rest ← dispatch_all rs;
          mret (match rest with Some l => Some (resp :: l) | None => None end)
      end
  end.

Definition sub_requests (r : Request) (sub : list (list Resp)) : list Request :=
  MakeSubRequest r (imap (λ i multi, (sub_ptr i, multi)) sub).

Definition perform (r : Request) (p : plan) : HM handled :=
  match p with
  | Answer resp => answer_ resp
  | Dispatch multi => settle (dispatch cfg fuel (with_multi r multi)) None
  | DispatchSlot multi id => settle (dispatchSlot cfg fuel (with_multi r multi) id) None
  | DispatchAddr multi addr =>
      ok ← on_fwd (dispatchAddr cfg (with_multi r multi) (string_of_bytes addr));
      if ok : bool then mret (Handled None None)
      else answer_ (NewErrorf (bstr "ERR backend server '" ++ addr ++ bstr "' not found"))
  | Split sub f =>
      known ← dispatch_all (sub_requests r sub);
      mret (match known with Some known => Handled None (Some (CoSub known f)) | None => Spinning end)
  end.

(** * Through the hot key cache *)
Definition key_at (r : Request) (i : nat) : bytes :=
  match rq_Multi r !! i with Some a => val (Value a) | None => [] end.

Definition cache_lookup (now : Z) (r : Request) (key : bytes) : HM (option Resp) := λ w,
  let '(o, c) := hotKeyCacheLookup (rq_Database r) key now (fw_router (pw_fwd (hw_proxy w))) (pw_cache (hw_proxy w)) in
  (Ok o, set_cache c w).

Definition cache_token (r : Request) (key : bytes) : HM (option hotKeyCacheToken) :=
  gets (λ w, takeToken (rq_Database r) key (fw_router (pw_fwd (hw_proxy w))) (pw_cache (hw_proxy w))).

Definition handleRequestGet (now : Z) (r : Request) : HM handled :=
  enabled ← get_cache Enabled;
  if negb enabled || negb (bool_decide (length (rq_Multi r) = 2%nat)) then settle (dispatch cfg fuel r) None
  else
    let key := key_at r 1 in
    hit ← cache_lookup now r key;
    match hit with
    | Some resp =>
        refused ← on_fwd (aclDryRunKey cfg r key);
        answer_ (default resp refused)
    | None =>
        token ← cache_token r key;
        settle (dispatch cfg fuel r) (CoGet <$> token)
    end.

(** the first loop of [handleRequestMGetWithHotKeyCache]: hits, and tokens of the misses *)
Fixpoint mget_lookup (now : Z) (r : Request) (keys : list Resp)
    : HM (list (option Resp) * list (Resp * option hotKeyCacheToken)) :=
  match keys with
  | [] => mret ([], [])
  | a :: keys =>
      hit ← cache_lookup now r (val (Value a));
      match hit with
      | Some resp =>
          '(values, misses) ← mget_lookup now r keys;
          mret (Some resp :: values, misses)
      | None =>
          token ← cache_token r (val (Value a));
          '(values, misses) ← mget_lookup now r keys;
          mret (None :: values, (a, token) :: misses)
      end
  end.

Definition handleRequestMGetWithHotKeyCache (now : Z) (r : Request) : HM handled :=
  match rq_Multi r with
  | [] | [_] => perform r (wrong_number "MGET")
  | m0 :: keys =>
      enabled ← get_cache Enabled;
      if negb enabled then perform r (handleRequestMGet (rq_Multi r))
      else
        '(values, misses) ← mget_lookup now r keys;
        refused ← (if bool_decide (Exists is_Some values) then on_fwd (aclDryRunKey cfg r (key_at r 1)) else mret None);
        match refused with
        | Some resp => answer_ resp
        | None =>
            known ← dispatch_all (sub_requests r ((λ m, [m0; m.1]) <$> misses));
            mret (match known with
                  | Some known => Handled None (Some (CoMGet values misses.*2 known))
                  | None => Spinning
                  end)
        end
  end.

(** [handleRequestWithHotKeyCacheInvalidationPlan] *)
Definition with_plan (p : hotKeyCacheInvalidationPlan) (dispatch : HM handled) : HM handled :=
  h ← dispatch;
  mret (match h with
        | Spinning => Spinning
        | Handled resp co =>
            if negb (plan_active p) then h
            else match resp, co with
            | Some _, None => h
            | _, _ => Handled resp (Some (CoPlan p co))
            end
        end).

Definition with_invalidation (r : Request) (dispatch : HM handled) : HM handled :=
  c ← get_cache id;
  with_plan (hotKeyCacheInvalidationPlanForRequest r c) dispatch.

Definition handleRequestStream (r : Request) : HM handled :=
  match resolveStreamRoute (rq_Multi r) (rq_OpStr r) with
  | Err resp => answer_ resp
  | Panic => panic
  | Ok route =>
      c ← get_cache id;
      with_plan (hotKeyCacheInvalidationPlanForKeys r (val <$> route_keys route) c)
        (settle (dispatchByHashKey cfg fuel r (val (hashKey route))) None)
  end.

(** * handleRequest *)
Definition qpsLimitExceededMessage : Resp := errorf "ERR proxy qps limit exceeded".
Definition noauth : Resp := errorf "NOAUTH Authentication required".

Definition handleQuit : HM handled := on_session (set_quit true) ;; answer_ RespOK.

Definition handleSelectRequest (r : Request) : HM handled := λ w,
  let '(resp, db) := handleSelect (cf_BackendNumberDatabases cfg) (rq_Multi r) (se_database (hw_session w)) in
  (Ok (Handled (Some resp) None), mkHW (set_database db (hw_session w)) (hw_proxy w)).

(** a command the proxy answers itself, if the ACL user may run it *)
Definition local_cmd (r : Request) (m : HM handled) : HM handled :=
  refused ← on_fwd (aclDryRunLocal cfg r);
  match refused with Some resp => answer_ resp | None => m end.

(** authentication is checked: the request with its identity, or the refusal *)
Definition authorize (r : Request) : HM (option Request) :=
  acl ← get_fwd (aclAuthEnabled cfg);
  if acl : bool then
    ok ← isACLAuthorized;
    if ok : bool then
      identity ← get_session se_aclIdentity;
      mret (Some (mkRequest (rq_Multi r) (rq_OpStr r) (rq_OpFlag r) (rq_Database r) (rq_UnixNano r) identity (rq_ptr r)))
    else mret None
  else
    authorized ← get_session se_authorized;
    if authorized : bool then mret (Some r)
    else match cf_SessionAuth cfg with
    | _ :: _ => mret None
    | [] => on_session (setAuthorized true) ;; mret (Some r)
    end.

Definition allow (now : Z) : HM bool := λ w,
  let '(b, l) := Allow now (pw_limiter (hw_proxy w)) in (Ok b, set_limiter l w).

(** the switch on the command, after authentication and rate limit *)
Definition handle_command (now : Z) (r : Request) : HM handled :=
  let cmd name := op_is (rq_OpStr r) name in
  let multi := rq_Multi r in
  if cmd "ACL" then handleRequestACL r
  else if cmd "SELECT" then
    match rq_ACLIdentity r with
    | Some (mkIdentity _ _ _ _ _ (Some _)) => answer_ RespOK
    | _ => local_cmd r (handleSelectRequest r)
    end
  else if cmd "PING" then perform r (handleRequestPing now multi)
  else if cmd "INFO" then perform r (handleRequestInfo now multi)
  else if cmd "CLIENT" then
    local_cmd r (w ← gets id;
                 let sessions := <[se_Id (hw_session w) := hw_session w]> (pw_sessions (hw_proxy w)) in
                 answer_ (handleRequestClient (cf_SessionAuth cfg) sessions (now / Second) multi))
  else if cmd "CLUSTER" then
    local_cmd r (match handleRequestCluster fakeClusterNodeID nodes multi with Some resp => answer_ resp | None => fail (ErrNotAllowed (rq_OpStr r)) end)
  else if cmd "GET" then handleRequestGet now r
  else if cmd "MGET" then handleRequestMGetWithHotKeyCache now r
  else if cmd "MSET" then with_invalidation r (perform r (handleRequestMSet multi))
  else if cmd "DEL" then with_invalidation r (perform r (handleRequestDel multi))
  else if cmd "EXISTS" then perform r (handleRequestExists multi)
  else if cmd "SLOTSINFO" then perform r (handleRequestSlotsInfo multi)
  else if cmd "SLOTSSCAN" then perform r (handleRequestSlotsScan parse_error multi)
  else if cmd "SLOTSMAPPING" then
    local_cmd r (d ← get_fwd fw_router; perform r (handleRequestSlotsMapping parse_error d multi))
  else if isStreamCommand (rq_OpStr r) then handleRequestStream r
  else with_invalidation r (settle (dispatch cfg fuel r) None).

(** the request as [loopReader] makes it, without an identity yet *)
Definition handleRequest (now : Z) (multi : list Resp) (database unixNano ptr : Z) : HM handled :=
  match getOpInfo ToUpper multi with
  | Err e => fail (ErrOp e)
  | Panic => panic
  | Ok (opstr, flag) =>
      let r := mkRequest multi opstr flag database unixNano None ptr in
      on_session (setLastOpStr opstr) ;;
      if op_is opstr "CLUSTER" && clusterNodesDisabled nodes then fail (ErrNotAllowed opstr)
      else if IsNotAllowed flag then fail (ErrNotAllowed opstr)
      else if op_is opstr "QUIT" then handleQuit
      else if op_is opstr "AUTH" then handleAuth now r
      else
        r' ← authorize r;
        match r' with
        | None => answer_ noauth
        | Some r =>
            ok ← allow now;
            if ok : bool then handle_command now r else answer_ qpsLimitExceededMessage
        end
  end.

(** [loopReader], one turn: the bookkeeping before [handleRequest] *)
Definition read_request (now : Z) (multi : list Resp) (ptr : Z) : HM handled :=
  on_session (recordOperationStart (now / Second)) ;;
  database ← get_session se_database;
  handleRequest now multi database now ptr.

(** * handleResponse *)

(** the replies of the sub-requests: those known at once, and those of the backends *)
Fixpoint merge_replies (known : list (option Resp)) (replies : list subreply) : list subreply :=
  match known with
  | [] => []
  | Some resp :: known => (None, Some resp) :: merge_replies known replies
  | None :: known =>
      match replies with
      | x :: replies => x :: merge_replies known replies
      | [] => (None, None) :: merge_replies known []
      end
  end.

Definition cache_store (now : Z) (token : option hotKeyCacheToken) (resp : option Resp) : HM unit :=
  modify (λ w, set_cache (hotKeyCacheStore token resp now (fw_router (pw_fwd (hw_proxy w))) (pw_cache (hw_proxy w))) w).

(** the loop of the MGET closure: [values] has a hole for each miss *)
Fixpoint fill_misses (now : Z) (values : list (option Resp)) (tokens : list (option hotKeyCacheToken))
    (subs : list subreply) : HM (list Resp) :=
  match values with
  | [] => mret []
  | Some v :: values => rest ← fill_misses now values tokens subs; mret (v :: rest)
  | None :: values =>
      match tokens, subs with
      | token :: tokens, s :: subs =>
          resp ← lift (sub_resp s);
          match Array resp with
          | Some [x] =>
              if IsArray resp then
                cache_store now token (Some x) ;;
                rest ← fill_misses now values tokens subs;
                mret (x :: rest)
              else fail (ErrBadReply "mget" (Type_ resp) 1)
          | a => fail (ErrBadReply "mget" (Type_ resp) (length (default [] a)))
          end
      | _, _ => panic
      end
  end.

(** [r.Coalesce()]: the new [r.Resp]; [own] is the request's own reply, [subs] those of
    its sub-requests that were waited for *)
Fixpoint coalesce (now : Z) (co : coalescer) (own : subreply) (subs : list subreply) : HM (option Resp) :=
  match co with
  | CoSub known f => lift (f (merge_replies known subs))
  | CoGet token =>
      (match own.1 with Some _ => mret tt | None => cache_store now (Some token) own.2 end) ;;
      mret own.2
  | CoMGet values tokens known =>
      l ← fill_misses now values tokens (merge_replies known subs);
      mret (Some (NewArray (Some l)))
  | CoPlan p inner => λ w,
      let '(o, w) := (match inner with
                      | Some co => coalesce now co own subs
                      | None => mret own.2
                      end) w in
      let resp := match o with Ok resp => resp | _ => own.2 end in
      (o, set_cache (apply_plan p resp (pw_cache (hw_proxy w))).1 w)
  end.

Definition handle_response (now : Z) (resp : option Resp) (co : option coalescer) (own : subreply)
    (subs : list subreply) : HM Resp :=
  let own := match resp with Some x => (own.1, Some x) | None => own end in
  resp ← (match co with Some co => coalesce now co own subs | None => mret own.2 end);
  lift (sub_resp (own.1, resp)).

(** [Router.SetACL] with its effect on the sessions *)
Definition proxy_SetACL (acl : option ACL) (p : PW) : PW :=
  let '(changed, f) := SetACL acl (pw_fwd p) in
  let sessions :=
    match changed with
    | None => pw_sessions p
    | Some next => (if as_Enabled next then markACLStale (as_Revision next) else clearACLAuthorization) <$> pw_sessions p
    end in
  mkPW f (pw_cache p) (pw_guard p) (pw_limiter p) sessions.

End handler.
