(* ===== verification/SessionSafety.v ===== *)
(** Sessions are confined: no request makes the proxy panic, everything a request sends
    goes to the session's database, and nothing is sent for a client that has not
    authenticated. *)

From S2P Require Import Prelude Bufio Resp Mapper Models Router RouterInv RouterTheorems Stream.
From S2P Require Import Forward ForwardTheorems HotKeyCache AuthBruteforce Limiter Session SessionState.
From S2P Require Import ClusterNodes SessionHandler.
From Stdlib Require SpecFloat.

Lemma wp_bind_inv {W E A B} (m : M W E A) (k : A → M W E B) Q w :
  wp (m ≫= k) Q w →
  wp m (λ r w', match r with Ok a => wp (k a) Q w' | Err e => Q (Err e) w' | Panic => Q Panic w' end) w.
Proof. unfold wp, mbind, M_bind. by destruct (m w) as [[a|e|] w']. Qed.

Create HintDb hsafe.

(** symbolic execution of a handler *)
Ltac h_steps := unfold get_session, get_fwd, get_cache, on_session, answer_; wp_steps; cbn [hw_session hw_proxy].

Section safety.
Context (cfg : Config) `{Net}.

(** * The forwarding layer on behalf of a request *)

(** the log has grown by messages to connections of the database [d] *)
Definition logged (f0 : Fwd) (d : Z) (f : Fwd) : Prop :=
  fw_router f = fw_router f0 ∧ fw_acl f = fw_acl f0 ∧
  ∃ l, fw_sent f = fw_sent f0 ++ l ∧ Forall (λ e : BackendConn * list Resp, bc_database e.1 = d) l.

Lemma logged_refl f d : logged f d f.
Proof. split; [done|]. split; [done|]. exists []. by rewrite app_nil_r. Qed.

Lemma logged_trans f0 f1 f2 d : logged f0 d f1 → logged f1 d f2 → logged f0 d f2.
Proof.
  intros (Hr & Ha & l & Hs & Hl) (Hr' & Ha' & l' & Hs' & Hl'). split; [congruence|]. split; [congruence|].
  exists (l ++ l'). rewrite Hs', Hs, app_assoc. split; [done|]. by apply Forall_app.
Qed.

Lemma logged_frame f f' d : frame f f' → logged f d f'.
Proof. intros (? & ? & _ & Hs). split; [done|]. split; [done|]. exists []. by rewrite Hs, app_nil_r. Qed.

Lemma logged_push f bc multi : logged f (bc_database bc) (set_sent (fw_sent f ++ [(bc, multi)]) f).
Proof. split; [done|]. split; [done|]. exists [(bc, multi)]. split; [done|]. by apply Forall_singleton. Qed.

Definition in_range (d : Z) : Prop := 0 <= d < cf_BackendNumberDatabases cfg.

(** does not panic and sends to the database only, in a reachable routing table *)
Definition sends {A} (d : Z) (m : FM A) : Prop :=
  ∀ f, reach_router (fw_router f) → in_range d → wp m (λ o f', o ≠ Panic ∧ logged f d f') f.

Lemma sends_ret {A} d (a : A) : sends d (mret a).
Proof. intros f _ _. split; [done|apply logged_refl]. Qed.

Lemma sends_fail {A} d e : sends d (fail e : FM A).
Proof. intros f _ _. split; [done|apply logged_refl]. Qed.

Lemma sends_gets {A} d (g : Fwd → A) : sends d (gets g).
Proof. intros f _ _. split; [done|apply logged_refl]. Qed.

Lemma sends_lift {A} d (o : outcome reqerr A) : o ≠ Panic → sends d (lift o).
Proof. intros Ho f _ _. split; [done|apply logged_refl]. Qed.

Lemma sends_bind {A B} d (m : FM A) (k : A → FM B) : sends d m → (∀ a, sends d (k a)) → sends d (m ≫= k).
Proof.
  intros Hm Hk f Hr Hd. apply wp_bind. eapply wp_mono; [by apply Hm|]. intros o f1 [Ho Hl].
  destruct o as [a|e|]; [|by split|done]. assert (reach_router (fw_router f1)) as Hr1 by (by destruct Hl as [-> _]).
  eapply wp_mono; [by apply Hk|]. intros o f2 [? ?]. split; [done|]. by eapply logged_trans.
Qed.

(** the table's pointers are valid while a computation runs *)
Lemma sends_slot {A} d id (k : RSlot → FM A) :
  (id < Z.to_nat MaxSlotNum)%nat →
  (∀ f s, reach_router (fw_router f) → in_range d → ro_slots (fw_router f) !! id = Some s →
     wp (k s) (λ o f', o ≠ Panic ∧ logged f d f') f) →
  sends d (slot ← gets (λ w, ro_slots (fw_router w) !! id); match slot with None => panic | Some s => k s end).
Proof.
  intros Hid Hk f Hr Hd. wp_steps. destruct (reach_router_inv _ Hr) as [Hlen _].
  destruct (ro_slots (fw_router f) !! id) as [s|] eqn:Hs; [by apply Hk|].
  apply lookup_ge_None in Hs. lia.
Qed.

Lemma sends_forward fuel id r hkey : (id < Z.to_nat MaxSlotNum)%nat → sends (rq_Database r) (forward cfg fuel id r hkey).
Proof.
  intros Hid f Hr Hd. destruct (reach_router_inv _ Hr) as [Hlen _].
  destruct (lookup_lt_is_Some_2 (ro_slots (fw_router f)) id ltac:(lia)) as [s Hs].
  eapply wp_mono; [by apply forward_wp|]. intros o f' Hpost.
  assert (o ≠ Panic) as Hnp.
  { intros ->. apply Hpost. split; [done|]. by eapply reach_slot_valid. }
  split; [done|]. assert ((∃ pre, asked s r f pre f') → logged f (rq_Database r) f') as Hasked.
  { intros (pre & ? & ? & _ & Hsent & Hpre). split; [done|]. split; [done|]. exists pre. split; [done|].
    eapply Forall_impl; [done|]. by intros e (_ & ? & _). }
  destruct o as [[[bc|resp]|]|e|]; [|by apply Hasked..|done].
  destruct Hpost as (pre & Hsent & Hpre & _ & (Hdb & _) & _ & Hrt & Hacl). split; [done|]. split; [done|].
  exists (pre ++ [(bc, rq_Multi r)]). split; [done|]. apply Forall_app. split.
  - eapply Forall_impl; [done|]. by intros e (_ & ? & _).
  - by apply Forall_singleton.
Qed.

Lemma hash_slot key : (Z.to_nat (Hash key mod MaxSlotNum) < Z.to_nat MaxSlotNum)%nat.
Proof. pose proof (Z.mod_pos_bound (Hash key) MaxSlotNum ltac:(done)). lia. Qed.

Lemma sends_dispatchByHashKey fuel r hkey : sends (rq_Database r) (dispatchByHashKey cfg fuel r hkey).
Proof. apply sends_forward, hash_slot. Qed.

Lemma sends_dispatch fuel r : sends (rq_Database r) (dispatch cfg fuel r).
Proof. apply sends_dispatchByHashKey. Qed.

Lemma sends_dispatchSlot fuel r id : sends (rq_Database r) (dispatchSlot cfg fuel r id).
Proof.
  unfold dispatchSlot. case_decide as Hd; [apply sends_fail|]. apply sends_forward. lia.
Qed.

(** asking the server of the table's connection [p] *)
Lemma ask_wp {A} p r multi (k : subreply → FM A) f :
  reach_router (fw_router f) → in_range (rq_Database r) → in_store f p → is_Some p →
  (∀ m, sends (rq_Database r) (k m)) →
  wp (bc ← backendConn cfg p (rq_Database r) (Seed16 r) true; m ← ask bc multi; k m)
     (λ o f', o ≠ Panic ∧ logged f (rq_Database r) f') f.
Proof.
  intros Hr Hd Hp Hs Hk. apply wp_bind. eapply wp_mono; [apply backendConn_wp|]. intros o f1 [-> Ho].
  destruct o as [[bc|]|e|]; [|destruct Ho as [->|?]; [by destruct Hs|done]|done|by destruct Ho].
  destruct Ho as (q & -> & Hown & _ & Hdb & _). unfold ask. do 2 apply wp_bind. apply wp_gets. apply wp_bind, PushBack_wp.
  2: { intros Hcl. by rewrite (table_open f q bc) in Hcl. }
  intros _. wp_steps.
  set (f1 := set_sent _ f). assert (logged f (rq_Database r) f1) as Hl by (rewrite <- Hdb; apply logged_push).
  eapply wp_mono; [by apply Hk|]. intros o f2 [? ?]. split; [done|]. by eapply logged_trans.
Qed.

Lemma sub_resp_no_panic m : sub_resp m ≠ Panic.
Proof. by destruct m as [[e|] [resp|]]. Qed.

Lemma sends_dry_run r i s f : reach_router (fw_router f) → in_range (rq_Database r) → in_store f (rs_backend_bc s) →
  wp (aclDryRunSlot cfg r i s) (λ o f', o ≠ Panic ∧ logged f (rq_Database r) f') f.
Proof.
  intros Hr Hd Hs. unfold aclDryRunSlot, aclDryRunOnBackend.
  destruct (rs_backend_bc s) as [q|] eqn:Hq; [|apply wp_fail; split; [done|apply logged_refl]].
  apply (ask_wp (Some q) r); [done..| |]; [by eexists|].
  intros m. apply sends_bind; [apply sends_lift, sub_resp_no_panic|]. intros resp.
  destruct (IsError resp); [apply sends_ret|]. destruct (IsString resp); [apply sends_ret|apply sends_fail].
Qed.

Lemma sends_aclDryRunKey r key : sends (rq_Database r) (aclDryRunKey cfg r key).
Proof.
  unfold aclDryRunKey. destruct (rq_ACLIdentity r) as [i|]; [|apply sends_ret]. intros f Hr Hd. wp_steps.
  destruct (ro_slots _ !! _) as [s|] eqn:Hs; [|apply wp_fail; split; [done|apply logged_refl]].
  apply sends_dry_run; [done..|]. by eapply reach_slot_valid.
Qed.

Lemma sends_aclDryRunLocal r : sends (rq_Database r) (aclDryRunLocal cfg r).
Proof.
  unfold aclDryRunLocal. destruct (rq_ACLIdentity r) as [i|]; [|apply sends_ret]. intros f Hr Hd.
  unfold aclDryRunAny. wp_steps. destruct (list_find _ _) as [[id s]|] eqn:Hf.
  - apply list_find_Some in Hf as (Hs & _). apply sends_dry_run; [done..|]. by eapply reach_slot_valid.
  - apply wp_fail. split; [done|apply logged_refl].
Qed.

(** a connection that was chosen: of the request's database, and open *)
Definition usable (r : Request) (f : Fwd) (bc : option BackendConn) : Prop :=
  match bc with Some bc => bc_database bc = rq_Database r ∧ conn_open bc f = true | None => True end.
Definition sends_with {A} (r : Request) (k : option BackendConn → FM A) : Prop := ∀ bc f, reach_router (fw_router f) → in_range (rq_Database r) → usable r f bc →
  wp (k bc) (λ o f', o ≠ Panic ∧ logged f (rq_Database r) f') f.

Lemma sends_user_conn {A} addr r replica i must (k : option BackendConn → FM A) : sends_with r k →
  sends (rq_Database r) (bc ← userBackendConn cfg addr (rq_Database r) (Seed16 r) replica (Some i) must; k bc).
Proof.
  intros Hk f Hr Hd. apply wp_bind. eapply wp_mono; [apply userBackendConn_wp|]. intros o f1 [Hf Ho].
  assert (reach_router (fw_router f1)) as Hr1 by (by destruct Hf as [-> _]).
  destruct o as [bc|e|]; [|done|by destruct Ho].
  eapply wp_mono; [apply Hk; [done|done|by destruct bc; [destruct Ho as [(_ & _ & ? & _) ?]|]]|].
  intros o f2 [? ?]. split; [done|]. eapply logged_trans; [by apply logged_frame|done].
Qed.

Lemma pool_Get_in_store primary addr f p : reach_router (fw_router f) →
  pool_Get primary addr (fw_router f) = Some p → in_store f (Some p).
Proof.
  intros (_ & _ & [Hcnt _] & Hmaps & _)%reach_router_inv. unfold pool_Get. destruct (pl_closed _); [done|].
  intros Hp. apply Hmaps in Hp as [(c & Hc & _) Hin]. exists c. split; [done|]. by apply (Hcnt p c Hc).
Qed.

Lemma sends_dispatchAddr r addr : sends (rq_Database r) (dispatchAddr cfg r addr).
Proof.
  assert (∀ primary (k : option BackendConn → FM bool), sends_with r k →
    sends (rq_Database r) (bc ← dispatch_pool cfg primary r addr; k bc)) as Hpool.
  { intros primary k Hk f Hr Hd. unfold dispatch_pool. apply wp_bind. wp_steps.
    destruct (pool_Get primary addr (fw_router f)) as [p|] eqn:Hp; [|wp_steps; by apply Hk].
    destruct (rq_ACLIdentity r) as [i|] eqn:Hi.
    - pose proof (sends_user_conn addr r (negb primary) i true k Hk f Hr Hd) as Hw. exact (wp_bind_inv _ _ _ _ Hw).
    - pose proof (pool_Get_in_store primary addr f p Hr Hp) as Hst.
      eapply wp_mono; [apply backendConn_wp|]. intros o f1 [-> Ho]. destruct o as [bc|e|]; [|done|by destruct Ho].
      apply Hk; [done..|]. destruct bc as [bc|]; [|done]. destruct Ho as (q & [= <-] & Hown & _ & ? & _). split; [done|]. by eapply table_open. }
  assert (sends_with r (λ bc, match bc with Some bc => PushBack bc (rq_Multi r) ;; mret true | None => mret false end)) as Hpush.
  { intros [bc|] f _ _ Hbc; [|wp_steps; split; [done|apply logged_refl]]. destruct Hbc as [Hdb Hop]. apply wp_bind, PushBack_wp; [|congruence].
    intros _. wp_steps. split; [done|]. rewrite <- Hdb. apply logged_push. }
  unfold dispatchAddr. apply Hpool. intros [bc|] f Hr Hd Hbc.
  - apply wp_bind, wp_ret. by apply (Hpush (Some bc)).
  - by apply Hpool.
Qed.

(** * The handlers *)

(** the session's database exists, is the bound one of a bound user, and there is no user
    when ACLs are not in use *)
Definition session_ok (acl : bool) (s : Session) : Prop :=
  in_range (se_database s) ∧
  (∀ i db, se_aclIdentity s = Some i → ai_ForcedDB i = Some db → se_database s = db) ∧
  (acl = false → se_aclIdentity s = None).

(** the world of a handler for a request in the database [d], started with [f0]; [K] is
    what else is known of the session *)
Definition hinv (f0 : Fwd) (d : Z) (K : Session → Prop) (w : HW) : Prop :=
  logged f0 d (pw_fwd (hw_proxy w)) ∧ session_ok (aclAuthEnabled cfg f0) (hw_session w) ∧ K (hw_session w).

Section handlers.
Context (f0 : Fwd) (d : Z) (K : Session → Prop).
Hypothesis table_ok : reach_router (fw_router f0).
Hypothesis database_ok : in_range d.

Abbreviation hsafe m := (safe (hinv f0 d K) m).

Lemma safe_on_fwd {A} (m : FM A) : sends d m → hsafe (on_fwd m).
Proof.
  intros Hm w (Hl & Hs). unfold wp, on_fwd.
  pose proof (Hm (pw_fwd (hw_proxy w)) ltac:(by destruct Hl as [-> _]) database_ok) as Hw. unfold wp in Hw.
  destruct (m (pw_fwd (hw_proxy w))) as [o f]. cbn [fst snd] in *. destruct Hw as [Ho Hl']. split; [done|].
  split; [|done]. by eapply logged_trans.
Qed.

Lemma safe_on_guard {A} (a0 : A) g : hsafe (on_guard a0 g).
Proof.
  intros w [Hl Hs]. unfold wp, on_guard. destruct (pw_guard (hw_proxy w)) as [x|]; [|by split].
  by destruct (g x) as [a x'].
Qed.

Lemma safe_on_session g :
  (∀ s, session_ok (aclAuthEnabled cfg f0) s → K s → session_ok (aclAuthEnabled cfg f0) (g s) ∧ K (g s)) →
  hsafe (on_session g).
Proof. intros Hg. apply safe_modify. intros w (Hl & Hs & HK). split; [done|by apply Hg]. Qed.

Lemma safe_get_session {A} (g : Session → A) : hsafe (get_session g).
Proof. apply safe_gets. Qed.
Lemma safe_get_fwd {A} (g : Fwd → A) : hsafe (get_fwd g).
Proof. apply safe_gets. Qed.
Lemma safe_get_cache {A} (g : HotKeyCache → A) : hsafe (get_cache g).
Proof. apply safe_gets. Qed.
Lemma safe_answer resp : hsafe (answer_ resp).
Proof. apply safe_ret. Qed.

(** operations that touch the cache or the limiter only *)
Lemma safe_proxy {A} (m : HM A) : (∀ w, (m w).1 ≠ Panic ∧ hw_session (m w).2 = hw_session w ∧
  pw_fwd (hw_proxy (m w).2) = pw_fwd (hw_proxy w)) → hsafe m.
Proof.
  intros Hm w [Hl Hs]. unfold wp. destruct (Hm w) as (Hp & Hs' & Hf'). destruct (m w) as [o w']. cbn in *.
  split; [done|]. unfold hinv. by rewrite Hs', Hf'.
Qed.

Lemma safe_cache_lookup now r key : hsafe (cache_lookup now r key).
Proof. apply safe_proxy. intros w. unfold cache_lookup. by destruct (hotKeyCacheLookup _ _ _ _ _). Qed.

Lemma safe_cache_token r key : hsafe (cache_token r key).
Proof. apply safe_gets. Qed.

Lemma safe_allow now : hsafe (allow now).
Proof. apply safe_proxy. intros w. unfold allow. by destruct (Allow _ _). Qed.

#[local] Hint Resolve safe_on_fwd safe_on_guard safe_get_session safe_get_fwd safe_get_cache safe_answer safe_cache_lookup
  safe_cache_token safe_allow safe_ret safe_fail safe_gets : hsafe.

Lemma safe_settle m co : sends d m → hsafe (settle m co).
Proof. intros Hm. apply safe_bind; [by apply safe_on_fwd|]. eauto with hsafe. Qed.

Context (sub_ptr : nat → Z) (fuel : nat).

(** ** Carrying out plans *)
Lemma safe_dispatch_all rs : Forall (λ r, rq_Database r = d) rs → hsafe (dispatch_all cfg fuel rs).
Proof.
  induction rs as [|r rs IH]; intros Hrs; cbn [dispatch_all]; [eauto with hsafe|].
  apply Forall_cons in Hrs as [Hr Hrs].
  apply safe_bind; [apply safe_on_fwd; rewrite <- Hr; apply sends_dispatch|]. intros f.
  destruct (forwarded_resp f); [|eauto with hsafe]. apply safe_bind; [auto|eauto with hsafe].
Qed.

Lemma sub_requests_db r sub : Forall (λ x, rq_Database x = rq_Database r) (sub_requests sub_ptr r sub).
Proof. unfold sub_requests, MakeSubRequest. apply Forall_fmap, Forall_true. by intros [ptr multi]. Qed.

Lemma safe_perform r p : rq_Database r = d → hsafe (perform cfg sub_ptr fuel r p).
Proof.
  intros Hr. destruct p as [resp|multi|multi id|multi addr|sub f]; cbn [perform]; [eauto with hsafe|..].
  - apply safe_settle. rewrite <- Hr. apply (sends_dispatch fuel (with_multi r multi)).
  - apply safe_settle. rewrite <- Hr. apply (sends_dispatchSlot fuel (with_multi r multi)).
  - apply safe_bind; [|intros [|]; eauto with hsafe]. apply safe_on_fwd. rewrite <- Hr.
    apply (sends_dispatchAddr (with_multi r multi)).
  - apply safe_bind; [|eauto with hsafe]. apply safe_dispatch_all. rewrite <- Hr. apply sub_requests_db.
Qed.

Lemma safe_with_plan p m : hsafe m → hsafe (with_plan p m).
Proof. intros Hm. apply safe_bind; [done|eauto with hsafe]. Qed.

Lemma safe_with_invalidation r m : hsafe m → hsafe (with_invalidation r m).
Proof. intros Hm. apply safe_bind; [eauto with hsafe|]. intros c. by apply safe_with_plan. Qed.

Lemma safe_handleRequestGet now r : rq_Database r = d → hsafe (handleRequestGet cfg fuel now r).
Proof.
  intros Hr. unfold handleRequestGet. apply safe_bind; [eauto with hsafe|]. intros en.
  assert (∀ co, hsafe (settle (dispatch cfg fuel r) co)) as Hd.
  { intros co. apply safe_settle. rewrite <- Hr. apply sends_dispatch. }
  destruct (_ || _); [apply Hd|]. apply safe_bind; [eauto with hsafe|]. intros [resp|].
  - apply safe_bind; [|eauto with hsafe]. apply safe_on_fwd. rewrite <- Hr. apply sends_aclDryRunKey.
  - apply safe_bind; [eauto with hsafe|]. intros token. apply Hd.
Qed.

Lemma safe_mget_lookup now r keys : hsafe (mget_lookup now r keys).
Proof.
  induction keys as [|a keys IH]; cbn [mget_lookup]; [eauto with hsafe|].
  apply safe_bind; [eauto with hsafe|]. intros [resp|].
  - apply safe_bind; [done|]. intros [values misses]. eauto with hsafe.
  - apply safe_bind; [eauto with hsafe|]. intros token. apply safe_bind; [done|]. intros [values misses]. eauto with hsafe.
Qed.

Lemma safe_mget now r : rq_Database r = d → hsafe (handleRequestMGetWithHotKeyCache cfg sub_ptr fuel now r).
Proof.
  intros Hr. unfold handleRequestMGetWithHotKeyCache. destruct (rq_Multi r) as [|m0 [|a keys]]; [by apply safe_perform..|].
  apply safe_bind; [eauto with hsafe|]. intros en. destruct (negb en); [by apply safe_perform|].
  apply safe_bind; [apply safe_mget_lookup|]. intros [values misses].
  apply safe_bind.
  { case_bool_decide; [|eauto with hsafe]. apply safe_on_fwd. rewrite <- Hr. apply sends_aclDryRunKey. }
  intros [resp|]; [eauto with hsafe|]. apply safe_bind; [|eauto with hsafe].
  apply safe_dispatch_all. rewrite <- Hr. apply sub_requests_db.
Qed.

Lemma safe_stream r : rq_Database r = d → hsafe (handleRequestStream cfg fuel r).
Proof.
  intros Hr. unfold handleRequestStream. destruct (resolveStreamRoute _ _) as [route|e|] eqn:Hroute; [|eauto with hsafe|].
  - apply safe_bind; [eauto with hsafe|]. intros c. apply safe_with_plan, safe_settle. rewrite <- Hr. apply sends_dispatchByHashKey.
  - pose proof (resolveStreamRoute_ok (rq_Multi r) (rq_OpStr r)) as Hok. by rewrite Hroute in Hok.
Qed.

Lemma safe_local r m : rq_Database r = d → hsafe m → hsafe (local_cmd cfg r m).
Proof.
  intros Hr Hm. apply safe_bind; [apply safe_on_fwd; rewrite <- Hr; apply sends_aclDryRunLocal|].
  intros [resp|]; [eauto with hsafe|done].
Qed.

End handlers.

(** ** Authentication *)

(** keeping the session's identity and database keeps it in order *)
Lemma session_ok_same acl s s' :
  se_database s' = se_database s → (se_aclIdentity s' = se_aclIdentity s ∨ se_aclIdentity s' = None) →
  session_ok acl s → session_ok acl s'.
Proof.
  intros Hd Hi (Hr & Hf & Ha). split; [by rewrite Hd|]. split.
  - intros i db Hs. rewrite Hd. destruct Hi as [Hi|Hi]; [|congruence]. apply Hf. congruence.
  - intros Hacl. specialize (Ha Hacl). destruct Hi; congruence.
Qed.

Lemma clear_ok acl s : session_ok acl s → session_ok acl (clearACLAuthorization s).
Proof. apply session_ok_same; [done|by right]. Qed.

Lemma authorized_ok acl b s : session_ok acl s → session_ok acl (setAuthorized b s).
Proof. apply session_ok_same; [done|by left]. Qed.

End safety.

#[export] Hint Resolve safe_on_guard safe_get_session safe_get_fwd safe_get_cache safe_answer safe_cache_lookup
  safe_cache_token safe_allow safe_ret safe_fail safe_gets : hsafe.

Section auth.
Context (cfg : Config) `{Net} `{Addresses} `{MapRange} (ACLPasswordHash : bytes → string).
Context (f0 : Fwd) (d : Z).

Abbreviation any := (λ _ : Session, True).
Abbreviation asafe m := (safe (hinv cfg f0 d any) m).

Lemma any_on_session g :
  (∀ s, session_ok cfg (aclAuthEnabled cfg f0) s → session_ok cfg (aclAuthEnabled cfg f0) (g s)) → asafe (on_session g).
Proof. intros Hg. apply safe_on_session. intros s Hs _. split; [by apply Hg|done]. Qed.

Lemma safe_legacy_auth now r : asafe (handleLegacyAuth cfg now r).
Proof.
  unfold handleLegacyAuth. destruct (rq_Multi r) as [|m0 [|a [|]]]; eauto with hsafe.
  destruct (cf_SessionAuth cfg) eqn:Hauth; [eauto with hsafe|].
  apply safe_bind; [eauto with hsafe|]. intros was. apply safe_bind; [eauto with hsafe|]. intros remote.
  apply safe_bind; [eauto with hsafe|]. intros [|]; [eauto with hsafe|]. case_decide.
  - apply safe_bind; [apply any_on_session; intros s; apply authorized_ok|]. intros _.
    apply safe_bind; [destruct was; eauto with hsafe|eauto with hsafe].
  - apply safe_bind; [apply any_on_session; intros s; apply authorized_ok|]. intros _.
    apply safe_bind; [eauto with hsafe|eauto with hsafe].
Qed.

Lemma safe_acl_auth now r : aclAuthEnabled cfg f0 = true → asafe (handleACLAuth cfg ACLPasswordHash now r).
Proof.
  intros Hacl. unfold handleACLAuth. destruct (auth_args _) as [[username password]|]; [|eauto with hsafe].
  apply safe_bind; [eauto with hsafe|]. intros [snapshot|]; [|eauto with hsafe].
  destruct (negb _); [eauto with hsafe|].
  apply safe_bind; [eauto with hsafe|]. intros was. apply safe_bind; [eauto with hsafe|]. intros remote.
  apply safe_bind; [eauto with hsafe|]. intros [|]; [eauto with hsafe|].
  destruct (acl_user snapshot username _) as [user|].
  2: { apply safe_bind; [eauto with hsafe|]. intros _.
       apply safe_bind; [|eauto with hsafe]. destruct was; [eauto with hsafe|].
       apply any_on_session. intros s. apply clear_ok. }
  destruct (match au_DB user with Some _ => _ | None => _ end) eqn:Hdb; [eauto with hsafe|].
  (* the identity and its database are set one after the other *)
  intros w (Hl & Hs & _). do 3 apply wp_bind, wp_modify.
  refine (safe_bind _ (on_guard tt _) _ _ _ _ _); [eauto with hsafe..|]. split; [done|]. split; [|done].
  destruct (au_DB user) as [db|]; cbn.
  - apply bool_decide_eq_false in Hdb. split; [cbn; unfold in_range; lia|]. split; [|cbn; congruence].
    cbn. by intros i x [= <-] [= ->].
  - split; [apply Hs|]. split; [|cbn; congruence]. cbn. by intros i x [= <-].
Qed.

Lemma safe_handleAuth now r : asafe (handleAuth cfg ACLPasswordHash now r).
Proof.
  intros w Hw. unfold handleAuth. apply wp_bind, wp_gets.
  assert (aclAuthEnabled cfg (pw_fwd (hw_proxy w)) = aclAuthEnabled cfg f0) as ->.
  { destruct Hw as ((_ & Ha & _) & _). unfold aclAuthEnabled. by rewrite Ha. }
  destruct (aclAuthEnabled cfg f0) eqn:Hacl; [by apply safe_acl_auth|by apply safe_legacy_auth].
Qed.

Lemma safe_isACLAuthorized : asafe isACLAuthorized.
Proof.
  unfold isACLAuthorized. apply safe_bind; [eauto with hsafe|]. intros identity.
  apply safe_bind; [eauto with hsafe|]. intros snapshot. destruct identity as [i|]; [|eauto with hsafe].
  destruct (match snapshot with Some _ => _ | None => _ end); [eauto with hsafe|].
  apply safe_bind; [apply any_on_session; intros s; apply clear_ok|eauto with hsafe].
Qed.

(** who may use the proxy: with ACLs a session whose identity is of the current revision,
    otherwise one that has given the password, if there is one *)
Definition allowed (f : Fwd) (s : Session) : Prop :=
  if aclAuthEnabled cfg f then
    ∃ i snap, se_aclIdentity s = Some i ∧ ai_Stale i = false ∧ fw_acl f = Some snap ∧ as_Enabled snap = true ∧
      ai_Revision i = as_Revision snap
  else cf_SessionAuth cfg = [] ∨ se_authorized s = true.

(** [authorize] lets a request through exactly for those, with the session's identity *)
Lemma authorize_wp r w : rq_ACLIdentity r = None → hinv cfg f0 d any w →
  wp (authorize cfg r) (λ o w', hinv cfg f0 d any w' ∧ hw_proxy w' = hw_proxy w ∧
    match o with
    | Ok (Some r') =>
        allowed f0 (hw_session w) ∧ rq_Database r' = rq_Database r ∧ rq_ACLIdentity r' = se_aclIdentity (hw_session w')
    | Ok None => ¬ allowed f0 (hw_session w) ∧ ¬ allowed f0 (hw_session w')
    | _ => False
    end) w.
Proof.
  intros Hr Hinv. pose proof Hinv as (Hlog & Hs & _). pose proof Hlog as (_ & Ha & _). unfold authorize. apply wp_bind, wp_gets.
  assert (aclAuthEnabled cfg (pw_fwd (hw_proxy w)) = aclAuthEnabled cfg f0) as ->
    by (unfold aclAuthEnabled; by rewrite Ha).
  unfold allowed. destruct (aclAuthEnabled cfg f0) eqn:Hacl.
  - apply wp_bind. unfold isACLAuthorized. h_steps. destruct (se_aclIdentity (hw_session w)) as [i|] eqn:Hi.
    + rewrite Ha. destruct (match fw_acl f0 with Some _ => _ | None => _ end) eqn:Hok.
      * h_steps. split; [done|]. split; [done|]. split; [|done].
        destruct (fw_acl f0) as [snap|]; [|done]. apply andb_prop in Hok as [[H1' H2']%andb_prop H3'%Z.eqb_eq].
        apply negb_true_iff in H2'. eauto 10.
      * h_steps. split; [split; [done|]; split; [|done]; rewrite Hacl; by apply clear_ok|]. split; [done|].
        split; [|by intros (? & ? & ? & _)].
        intros (i' & snap & [= <-] & Hst & Hsn & Hen & Hrev). rewrite Hsn, Hen, Hst, Hrev, Z.eqb_refl in Hok. done.
    + h_steps. split; [done|]. split; [done|]. split; intros (i & ? & Hi' & _); congruence.
  - h_steps. destruct Hs as (Hrange & Hforced & Hnone). specialize (Hnone eq_refl).
    destruct (se_authorized (hw_session w)) eqn:Hau.
    + h_steps. split; [done|]. split; [done|]. split; [by right|]. by rewrite Hr, Hnone.
    + destruct (cf_SessionAuth cfg) as [|c l] eqn:Hsa.
      * h_steps. split; [|split; [done|]; split; [by left|]; by cbn; rewrite Hr, Hnone].
        split; [done|]. split; [|done]. rewrite Hacl. apply authorized_ok. by split.
      * h_steps. split; [done|]. split; [done|]. split; intros [?|?]; congruence.
Qed.

End auth.

(** ** The commands *)
Lemma handleSelect_range n multi db : 0 <= db < n → 0 <= (handleSelect n multi db).2 < n.
Proof.
  intros Hdb. unfold handleSelect. destruct multi as [|m0 [|a [|]]]; try done.
  destruct (ParseInt _) as [x|e|]; try done. case_decide; cbn; lia.
Qed.

Section request.
Context (cfg : Config) `{Net} `{Addresses} `{MapRange} (ACLPasswordHash : bytes → string).
Context (sub_ptr : nat → Z) (fuel : nat) (fakeClusterNodeID : bytes → bytes → bytes) (nodes : clusterNodesProvider).
Context (ToUpper : bytes → bytes) (parse_error : string).

Abbreviation handle_command := (handle_command cfg sub_ptr fuel fakeClusterNodeID nodes parse_error).
Abbreviation handleRequest := (handleRequest cfg ACLPasswordHash sub_ptr fuel fakeClusterNodeID nodes ToUpper parse_error).
Abbreviation read_request := (read_request cfg ACLPasswordHash sub_ptr fuel fakeClusterNodeID nodes ToUpper parse_error).
Abbreviation any := (λ _ : Session, True).

(** the session runs the request with its own identity *)
Definition own_identity (r : Request) (s : Session) : Prop := se_aclIdentity s = rq_ACLIdentity r.

Section command.
Context (f0 : Fwd) (r : Request).
Hypothesis table_ok : reach_router (fw_router f0).
Hypothesis database_ok : in_range cfg (rq_Database r).

Abbreviation csafe m := (safe (hinv cfg f0 (rq_Database r) (own_identity r)) m).

Lemma safe_select : match rq_ACLIdentity r with Some i => ai_ForcedDB i = None | None => True end →
  csafe (handleSelectRequest cfg r).
Proof.
  intros Hf w (Hl & (Hrange & Hforced & Hnone) & HK). unfold wp, handleSelectRequest.
  pose proof (handleSelect_range (cf_BackendNumberDatabases cfg) (rq_Multi r) (se_database (hw_session w)) Hrange) as Hdb.
  destruct (handleSelect _ _ _) as [resp db]. cbn [fst snd] in *. split; [done|]. split; [done|]. split; [|done].
  split; [done|]. split; [|done]. cbn. intros i x Hi Hx. unfold own_identity in HK. rewrite HK in Hi. rewrite Hi in Hf. congruence.
Qed.

Lemma safe_acl_cmd : csafe (handleRequestACL cfg r).
Proof.
  unfold handleRequestACL. apply safe_bind; [eauto with hsafe|]. intros acl.
  destruct (rq_Multi r) as [|m0 [|a [|]]]; eauto with hsafe. destruct (_ && _); [|eauto with hsafe].
  apply safe_bind; [eauto with hsafe|]. intros [i|]; [|eauto with hsafe]. destruct (ai_Stale i); eauto with hsafe.
Qed.

Lemma safe_handle_command now : csafe (handle_command now r).
Proof.
  unfold SessionHandler.handle_command.
  assert (∀ p, csafe (perform cfg sub_ptr fuel r p)) as Hperform by (intros p; by apply safe_perform).
  assert (∀ m, csafe m → csafe (local_cmd cfg r m)) as Hlocal by (intros m; by apply safe_local).
  destruct (op_is _ "ACL"); [apply safe_acl_cmd|].
  destruct (op_is _ "SELECT").
  { destruct (rq_ACLIdentity r) as [[u h p rev st [db|]]|] eqn:Hi; [eauto with hsafe|..];
      apply Hlocal, safe_select; by rewrite Hi. }
  destruct (op_is _ "PING"); [done|]. destruct (op_is _ "INFO"); [done|].
  destruct (op_is _ "CLIENT"); [apply Hlocal, safe_bind; eauto with hsafe|].
  destruct (op_is _ "CLUSTER"); [apply Hlocal; destruct (handleRequestCluster _ _ _); eauto with hsafe|].
  destruct (op_is _ "GET"); [by apply safe_handleRequestGet|].
  destruct (op_is _ "MGET"); [by apply safe_mget|].
  destruct (op_is _ "MSET"); [by apply safe_with_invalidation|].
  destruct (op_is _ "DEL"); [by apply safe_with_invalidation|].
  destruct (op_is _ "EXISTS"); [done|]. destruct (op_is _ "SLOTSINFO"); [done|]. destruct (op_is _ "SLOTSSCAN"); [done|].
  destruct (op_is _ "SLOTSMAPPING"); [apply Hlocal, safe_bind; [eauto with hsafe|done]|].
  destruct (isStreamCommand _); [by apply safe_stream|].
  apply safe_with_invalidation, safe_settle; [done..|apply sends_dispatch].
Qed.

End command.

Lemma hinv_any f0 d K w : hinv cfg f0 d K w → hinv cfg f0 d any w.
Proof. by intros (? & ? & _). Qed.

Lemma getOpInfo_no_panic multi : getOpInfo ToUpper multi ≠ Panic.
Proof.
  unfold getOpInfo. destruct multi as [|m0 l]; [done|]. case_decide; [done|]. destruct (mapM _ _); [|done].
  by destruct (assoc _ _).
Qed.

Lemma setLastOpStr_hinv f0 d opstr w : hinv cfg f0 d any w →
  hinv cfg f0 d any (mkHW (setLastOpStr opstr (hw_session w)) (hw_proxy w)).
Proof. intros (Hl & Hs & _). split; [done|]. split; [|done]. revert Hs. apply session_ok_same; [done|by left]. Qed.

Lemma handleRequest_wp f0 now multi d nano ptr w : reach_router (fw_router f0) → in_range cfg d →
  hinv cfg f0 d any w →
  wp (handleRequest now multi d nano ptr) (λ o w', o ≠ Panic ∧ hinv cfg f0 d any w') w.
Proof.
  intros Hrt Hd Hw. unfold SessionHandler.handleRequest. pose proof (getOpInfo_no_panic multi) as Hop.
  destruct (getOpInfo ToUpper multi) as [[opstr flag]|e|]; [|by apply wp_fail|done].
  apply wp_bind, wp_modify. apply (setLastOpStr_hinv f0 d opstr) in Hw. revert Hw.
  generalize (mkHW (setLastOpStr opstr (hw_session w)) (hw_proxy w)) as w1. intros w1 Hw.
  destruct (_ && _); [by apply wp_fail|]. destruct (IsNotAllowed flag); [by apply wp_fail|].
  destruct (op_is opstr "QUIT").
  { unfold handleQuit. h_steps. split; [done|]. destruct Hw as (Hl & Hs & _). split; [done|]. split; [|done].
    revert Hs. apply session_ok_same; [done|by left]. }
  destruct (op_is opstr "AUTH"); [by apply safe_handleAuth|].
  apply wp_bind. eapply wp_mono; [by apply (authorize_wp cfg f0 d)|]. intros o w2 (Hw2 & Hp & Ho).
  destruct o as [[r'|]|e|]; [|h_steps; done|done..]. destruct Ho as (_ & Hdb & Hid). cbn in Hdb.
  assert (hinv cfg f0 d (own_identity r') w2) as Hw2' by (destruct Hw2 as (? & ? & _); done).
  rewrite <- Hdb in Hw2' |- *.
  apply wp_bind. eapply wp_mono; [by apply safe_allow|]. intros o w3 [Ho3 Hw3].
  destruct o as [[|]|e|]; [|h_steps; split; [done|by eapply hinv_any]|split; [done|by eapply hinv_any]|done].
  rewrite <- Hdb in Hd. eapply wp_mono; [by apply safe_handle_command|]. intros o w4 [? ?]. split; [done|]. by eapply hinv_any.
Qed.

(** C39: a session is confined to its database.  No request, whatever its arguments, handled
    without an update of the ACL in the middle, makes the proxy panic; everything sent on its behalf goes to connections of the
    session's database, which is the bound one when the session's user is bound to a
    database; and the session stays so for the next request, SELECT and AUTH included. *)
Theorem session_confined (now ptr : Z) (multi : list Resp) (w w' : HW) (o : outcome reqerr handled) :
  reach_router (fw_router (pw_fwd (hw_proxy w))) →
  session_ok cfg (aclAuthEnabled cfg (pw_fwd (hw_proxy w))) (hw_session w) →
  read_request now multi ptr w = (o, w') →
  o ≠ Panic ∧ session_ok cfg (aclAuthEnabled cfg (pw_fwd (hw_proxy w'))) (hw_session w') ∧
  fw_router (pw_fwd (hw_proxy w')) = fw_router (pw_fwd (hw_proxy w)) ∧
  ∃ l, fw_sent (pw_fwd (hw_proxy w')) = fw_sent (pw_fwd (hw_proxy w)) ++ l ∧
    Forall (λ e : BackendConn * list Resp, bc_database e.1 = se_database (hw_session w)) l ∧
    ∀ i db, se_aclIdentity (hw_session w) = Some i → ai_ForcedDB i = Some db →
      Forall (λ e : BackendConn * list Resp, bc_database e.1 = db) l.
Proof.
  intros Hrt Hs Ho. set (f0 := pw_fwd (hw_proxy w)) in *. set (d := se_database (hw_session w)).
  assert (in_range cfg d) as Hd by apply Hs.
  assert (wp (read_request now multi ptr) (λ o w', o ≠ Panic ∧ hinv cfg f0 d any w') w) as Hwp.
  { unfold SessionHandler.read_request, on_session, get_session. apply wp_bind, wp_modify. apply wp_bind, wp_gets. cbn [hw_session].
    apply (handleRequest_wp f0); [done|done|]. split; [apply logged_refl|]. split; [|done].
    revert Hs. apply session_ok_same; [done|by left]. }
  unfold wp in Hwp. rewrite Ho in Hwp. cbn [fst snd] in Hwp. destruct Hwp as (Hp & (Hr & Ha & l & Hl & Hall) & Hs' & _).
  split; [done|]. split; [unfold aclAuthEnabled in *; by rewrite Ha|]. split; [done|]. exists l.
  split; [done|]. split; [done|]. intros i db Hi Hf. destruct Hs as (_ & Hforced & _).
  rewrite <- (Hforced i db Hi Hf). done.
Qed.

End request.


(** * A concrete session: a GET of a key that is being migrated *)
#[local] Existing Instance demo_net.
#[local] Existing Instance demo_addresses.
#[local] Existing Instance demo_range.

Definition demo_session : Session :=
  mkSession 7 demo_addr (bstr "10.0.0.1:19000") 100 0 0 [] 0 false true None.
Definition demo_nodes : clusterNodesProvider := mkProvider CompatSelf None [].
Definition demo_proxy : PW :=
  mkPW demo_fwd (newHotKeyCache false 0 0 0 []) (Some (newAuthBruteforceGuard true 3 1000)) (mkLimiter 0 0 0 0 (SpecFloat.S754_zero false) 0) ∅.
Definition demo_world : HW := mkHW demo_session demo_proxy.
Definition demo_multi : list Resp := [bulk (bstr "GET"); bulk (bstr "k1361")].
Definition demo_read (cfg : Config) (w : HW) : outcome reqerr handled * HW :=
  read_request cfg string_of_bytes Z.of_nat 8 (λ t a, t ++ a) demo_nodes (map upper_byte) "syntax error"
    1000 demo_multi 4096 w.

Lemma session_confined_witness :
  length (fw_sent (pw_fwd (hw_proxy (demo_read demo_cfg demo_world).2))) = 3%nat ∧
  (demo_read demo_cfg demo_world).1 ≠ Panic ∧
  Forall (λ e : BackendConn * list Resp, bc_database e.1 = 0)
    (fw_sent (pw_fwd (hw_proxy (demo_read demo_cfg demo_world).2))).
Proof.
  split; [vm_compute; reflexivity|].
  destruct (demo_read demo_cfg demo_world) as [o w'] eqn:Ho.
  destruct (session_confined demo_cfg string_of_bytes Z.of_nat 8 (λ t a, t ++ a) demo_nodes (map upper_byte) "syntax error"
    1000 4096 demo_multi demo_world w' o ltac:(apply reach_rop, reach_new)
    ltac:(split; [split; [apply Z.leb_le|apply Z.ltb_lt]; reflexivity|]; split; [discriminate|reflexivity]) Ho)
    as (Hp & _ & _ & l & Hl & Hall & _).
  split; [exact Hp|]. cbn [snd]. rewrite Hl. exact Hall.
Defined.

(** Nobody gets in without a password: what a request of a client that is not authorized
    can do, and what makes a client authorized. *)

Section access.
Context (cfg : Config) `{Net} `{Addresses} `{MapRange} (ACLPasswordHash : bytes → string).

(** a password is one of a user: its hash is among the user's, or the user has the rule nopass *)
Definition password_of (user : ACLUser) (p : bytes) : Prop :=
  ACLPasswordHash p ∈ au_PasswordHashes user ∨ ∃ rule, rule ∈ au_Rules user ∧ EqualFold (bstr rule) "nopass" = true.
(** the AUTH [multi] makes the session [s] one of the enabled user that it names (the default
    one, if it names none), with a password of that user and the database it is bound to *)
Definition authenticates (snap : ACLSnapshot) (multi : list Resp) (s : Session) : Prop :=
  ∃ name p user i, ((∃ m0 a, multi = [m0; a] ∧ name = bstr "default" ∧ p = val (Value a)) ∨
                    (∃ m0 u a, multi = [m0; u; a] ∧ name = val (Value u) ∧ p = val (Value a))) ∧
    as_Users snap !! string_of_bytes name = Some user ∧ au_Enabled user = true ∧ password_of user p ∧
    se_aclIdentity s = Some i ∧ ai_Username i = name ∧ ai_ForcedDB i = au_DB user ∧
    ∀ db, au_DB user = Some db → 0 ≤ db < cf_BackendNumberDatabases cfg ∧ se_database s = db.
(** the request carries a password that belongs to it: the session password, or with ACLs
    one of an enabled user *)
Definition proves (f : Fwd) (multi : list Resp) (s : Session) : Prop :=
  if aclAuthEnabled cfg f then ∃ snap, fw_acl f = Some snap ∧ authenticates snap multi s
  else ∃ m0 a, multi = [m0; a] ∧ cf_SessionAuth cfg = val (Value a).

Lemma acl_user_spec snap name p user : acl_user snap name (ACLPasswordHash p) = Some user →
  as_Users snap !! string_of_bytes name = Some user ∧ au_Enabled user = true ∧ password_of user p.
Proof.
  unfold acl_user. destruct (as_Users snap !! string_of_bytes name) as [v|]; [|done]. destruct (_ && _) eqn:Hok; [|done]. intros [= <-].
  apply andb_true_iff in Hok as [He Hp]. split; [done|]. split; [done|]. unfold aclPasswordAllowed in Hp.
  apply orb_true_iff in Hp as [(rule & Hr%list_elem_of_In & Hf)%existsb_exists|(h & Hh%list_elem_of_In & ->%bool_decide_eq_true)%existsb_exists].
  - right. by exists rule.
  - by left.
Qed.
Lemma auth_args_spec multi name p : auth_args multi = Some (name, p) →
  (∃ m0 a, multi = [m0; a] ∧ name = bstr "default" ∧ p = val (Value a)) ∨ (∃ m0 u a, multi = [m0; u; a] ∧ name = val (Value u) ∧ p = val (Value a)).
Proof. destruct multi as [|m0 [|a [|b [|]]]]; try done; intros [= <- <-]; [left|right]; eauto 10. Qed.

(** the guard does not hold the client's address back *)
Definition not_locked (now : Z) (p : PW) (s : Session) : Prop :=
  ∀ g, pw_guard p = Some g → (BeforeAuth (se_remote s) false now g).1 = false.

(** routing, cache and log are those of [w] *)
Definition same_proxy (w w' : HW) : Prop :=
  pw_fwd (hw_proxy w') = pw_fwd (hw_proxy w) ∧ pw_cache (hw_proxy w') = pw_cache (hw_proxy w).

(** an AUTH may change the session, and authorizes it only with a password *)
Definition answered (o : outcome reqerr handled) : Prop :=
  match o with Ok (Handled (Some _) None) => True | _ => False end.

Definition auth_post (now : Z) (r : Request) (w : HW) (o : outcome reqerr handled) (w' : HW) : Prop :=
  same_proxy w w' ∧ answered o ∧
  (¬ allowed cfg (pw_fwd (hw_proxy w)) (hw_session w) → allowed cfg (pw_fwd (hw_proxy w')) (hw_session w') →
   proves (pw_fwd (hw_proxy w)) (rq_Multi r) (hw_session w') ∧ not_locked now (hw_proxy w) (hw_session w)).

Lemma auth_unchanged now r w o w' : same_proxy w w' → answered o →
  (allowed cfg (pw_fwd (hw_proxy w)) (hw_session w') → allowed cfg (pw_fwd (hw_proxy w)) (hw_session w)) →
  auth_post now r w o w'.
Proof. intros Hs Ho Ha. split; [done|]. split; [done|]. intros Hno Hyes. destruct Hno. apply Ha. by destruct Hs as [<- _]. Qed.

(** [on_guard] leaves routing, cache and session alone *)
Lemma on_guard_wp {A} (a0 : A) g (Q : outcome reqerr A → HW → Prop) w :
  (∀ a gu', (match pw_guard (hw_proxy w) with None => a = a0 ∧ gu' = None | Some x => ∃ x', g x = (a, x') ∧ gu' = Some x' end) →
     Q (Ok a) (mkHW (hw_session w) (mkPW (pw_fwd (hw_proxy w)) (pw_cache (hw_proxy w)) gu' (pw_limiter (hw_proxy w)) (pw_sessions (hw_proxy w))))) →
  wp (on_guard a0 g) Q w.
Proof.
  intros HQ. unfold wp, on_guard. destruct w as [s [f c gu l ss]]. cbn in *. destruct gu as [x|].
  - destruct (g x) as [a x'] eqn:Hg. cbn. apply HQ. eauto.
  - cbn. by apply HQ.
Qed.

Lemma before_not_locked now remote was w gu' :
  (match pw_guard (hw_proxy w) with
   | None => false = false ∧ gu' = None
   | Some x => ∃ x', BeforeAuth remote was now x = (false, x') ∧ gu' = Some x'
   end) →
  ∀ g, pw_guard (hw_proxy w) = Some g → (BeforeAuth remote was now g).1 = false.
Proof. intros Hg g Hgu. rewrite Hgu in Hg. by destruct Hg as (x' & -> & _). Qed.

Lemma legacy_auth_wp now r w : aclAuthEnabled cfg (pw_fwd (hw_proxy w)) = false →
  wp (handleLegacyAuth cfg now r) (auth_post now r w) w.
Proof.
  intros Hacl. unfold handleLegacyAuth.
  assert (∀ o w', same_proxy w w' → hw_session w' = hw_session w → answered o → auth_post now r w o w') as Hsame.
  { intros o w' Hs Hss Ho. apply auth_unchanged; [done..|]. by rewrite Hss. }
  destruct (rq_Multi r) as [|m0 [|a [|]]] eqn:Hm; try (h_steps; by apply Hsame).
  destruct (cf_SessionAuth cfg) as [|c0 l0] eqn:Hauth; [h_steps; by apply Hsame|]. rewrite <- Hauth.
  h_steps. apply on_guard_wp. intros [|] gu' Hgu; h_steps; [by apply Hsame|].
  case_decide as Hpw; h_steps.
  - assert (∀ o gu2, answered o → auth_post now r w o (mkHW (setAuthorized false (hw_session w)) (mkPW (pw_fwd (hw_proxy w))
      (pw_cache (hw_proxy w)) gu2 (pw_limiter (hw_proxy w)) (pw_sessions (hw_proxy w))))) as Hfail.
    { intros o gu2 Ho. apply auth_unchanged; [done..|]. unfold allowed. rewrite Hacl. cbn. rewrite Hauth. by intros [?|?]. }
    destruct (se_authorized (hw_session w)); [h_steps; by apply Hfail|].
    apply on_guard_wp. intros b gu2 _. h_steps. by apply Hfail.
  - apply on_guard_wp. intros [] gu2 _. h_steps. split; [done|]. split; [done|]. intros Hno _. split.
    + unfold proves. rewrite Hacl, Hm. eauto.
    + destruct (se_authorized (hw_session w)) eqn:Hau.
      * destruct Hno. unfold allowed. rewrite Hacl. by right.
      * intros g Hg. by apply (before_not_locked now (se_remote (hw_session w)) false w gu' Hgu).
Qed.

Lemma acl_auth_wp now r w : aclAuthEnabled cfg (pw_fwd (hw_proxy w)) = true →
  wp (handleACLAuth cfg ACLPasswordHash now r) (auth_post now r w) w.
Proof.
  intros Hacl. unfold handleACLAuth.
  assert (∀ o w', same_proxy w w' → hw_session w' = hw_session w → answered o → auth_post now r w o w') as Hsame.
  { intros o w' Hs Hss Ho. apply auth_unchanged; [done..|]. by rewrite Hss. }
  destruct (auth_args (rq_Multi r)) as [[u p]|] eqn:Hargs; [|h_steps; by apply Hsame].
  h_steps. destruct (fw_acl (pw_fwd (hw_proxy w))) as [snap|] eqn:Hsnap; [|h_steps; by apply Hsame].
  destruct (negb (as_Enabled snap)); [h_steps; by apply Hsame|].
  h_steps. apply on_guard_wp. intros [|] gu' Hgu; h_steps; [by apply Hsame|].
  destruct (acl_user snap u (ACLPasswordHash p)) as [user|] eqn:Huser.
  - destruct (match au_DB user with Some _ => _ | None => _ end) eqn:Hdb; h_steps; [by apply Hsame|].
    apply on_guard_wp. intros [] gu2 _. h_steps. split; [done|]. split; [done|]. intros _ _. split.
    + unfold proves. rewrite Hacl. exists snap. split; [done|]. apply acl_user_spec in Huser as (Hu & He & Hp). apply auth_args_spec in Hargs.
      exists u, p, user, (mkIdentity u (ACLPasswordHash p) p (as_Revision snap) false (au_DB user)). split_and!; try done.
      * by destruct (au_DB user).
      * intros db Hd. rewrite Hd in *. apply bool_decide_eq_false in Hdb. split; [lia|done].
    + intros g Hg. by apply (before_not_locked now (se_remote (hw_session w)) false w gu' Hgu).
  - h_steps. apply on_guard_wp. intros b gu2 _. h_steps. destruct (se_authorized (hw_session w)); h_steps; [by apply Hsame|].
    apply auth_unchanged; [done..|]. unfold allowed. rewrite Hacl. by intros (i & ? & ? & _).
Qed.

Lemma handleAuth_wp now r w : wp (handleAuth cfg ACLPasswordHash now r) (auth_post now r w) w.
Proof.
  unfold handleAuth. h_steps. destruct (aclAuthEnabled _ _) eqn:Hacl; [by apply acl_auth_wp|by apply legacy_auth_wp].
Qed.

Lemma allowed_opstr f opstr s : allowed cfg f (setLastOpStr opstr s) ↔ allowed cfg f s.
Proof. done. Qed.

Context (sub_ptr : nat → Z) (fuel : nat) (fakeClusterNodeID : bytes → bytes → bytes) (nodes : clusterNodesProvider).
Context (ToUpper : bytes → bytes) (parse_error : string).

(** C40: a client that is not authorized gets nothing: whatever it sends, no message goes
    to any server, the cache is not consulted, and the request fails or is answered by
    the proxy itself; and it becomes authorized only by an AUTH with the session password,
    or with ACLs one that names an enabled user and has a password of that user (any will
    do for a user with the rule nopass) and then as that user in the database that the user
    is bound to, if any, while its address is not locked. *)
Theorem no_access_without_auth (now database nano ptr : Z) (multi : list Resp) (w w' : HW) (o : outcome reqerr handled) :
  reach_router (fw_router (pw_fwd (hw_proxy w))) →
  session_ok cfg (aclAuthEnabled cfg (pw_fwd (hw_proxy w))) (hw_session w) →
  ¬ allowed cfg (pw_fwd (hw_proxy w)) (hw_session w) →
  handleRequest cfg ACLPasswordHash sub_ptr fuel fakeClusterNodeID nodes ToUpper parse_error now multi database nano ptr w = (o, w') →
  pw_fwd (hw_proxy w') = pw_fwd (hw_proxy w) ∧ pw_cache (hw_proxy w') = pw_cache (hw_proxy w) ∧
  match o with Ok (Handled (Some _) None) | Err _ => True | _ => False end ∧
  (allowed cfg (pw_fwd (hw_proxy w')) (hw_session w') →
   proves (pw_fwd (hw_proxy w)) multi (hw_session w') ∧ not_locked now (hw_proxy w) (hw_session w)).
Proof.
  intros Hrt Hs Hno Ho. set (f0 := pw_fwd (hw_proxy w)) in *.
  assert (wp (handleRequest cfg ACLPasswordHash sub_ptr fuel fakeClusterNodeID nodes ToUpper parse_error now multi database nano ptr)
    (λ o w', same_proxy w w' ∧ (match o with Ok (Handled (Some _) None) | Err _ => True | _ => False end) ∧
       (allowed cfg f0 (hw_session w') → proves f0 multi (hw_session w') ∧ not_locked now (hw_proxy w) (hw_session w))) w) as Hwp.
  { unfold handleRequest. pose proof (getOpInfo_no_panic ToUpper multi) as Hop.
    destruct (getOpInfo ToUpper multi) as [[opstr flag]|e|]; [|by apply wp_fail|done].
    apply wp_bind, wp_modify. set (w1 := mkHW (setLastOpStr opstr (hw_session w)) (hw_proxy w)).
    assert (¬ allowed cfg f0 (hw_session w1)) as Hno1 by done.
    destruct (_ && _); [by apply wp_fail|]. destruct (IsNotAllowed flag); [by apply wp_fail|].
    destruct (op_is opstr "QUIT"); [unfold handleQuit; h_steps; done|].
    destruct (op_is opstr "AUTH").
    { eapply wp_mono; [apply handleAuth_wp|]. intros o' w2 (Hsp & Ha & Himp). split; [done|].
      split; [by destruct o' as [[[resp|] [co|]|]|e|]|]. intros Hal. apply Himp; [done|]. by destruct Hsp as [-> _]. }
    assert (hinv cfg f0 (se_database (hw_session w)) (λ _, True) w1) as Hinv.
    { split; [apply logged_refl|]. split; [|done]. revert Hs. apply session_ok_same; [done|by left]. }
    apply wp_bind. eapply wp_mono; [by apply (authorize_wp cfg f0 (se_database (hw_session w)))|].
    intros o' w2 (_ & Hp & Hcase). destruct o' as [[r'|]|e|]; [by destruct Hcase| |done..].
    h_steps. split; [unfold same_proxy; by rewrite Hp|]. split; [done|]. destruct Hcase as [_ Hno2]. done. }
  unfold wp in Hwp. rewrite Ho in Hwp. cbn [fst snd] in Hwp. destruct Hwp as ([Hf Hc] & Hout & Himp).
  split; [done|]. split; [done|]. split; [done|]. by rewrite Hf.
Qed.

End access.


(** * A concrete session: a client that has not authenticated *)
#[local] Existing Instance demo_net.
#[local] Existing Instance demo_addresses.
#[local] Existing Instance demo_range.

Definition locked_cfg : Config := mkConfig 16 1 1 false (bstr "secret").
Definition stranger : HW := mkHW (setAuthorized false demo_session) demo_proxy.
Definition demo_handle (multi : list Resp) (w : HW) : outcome reqerr handled * HW :=
  handleRequest locked_cfg string_of_bytes Z.of_nat 8 (λ t a, t ++ a) demo_nodes (map upper_byte) "syntax error"
    1000 multi 0 1000 4096 w.

Lemma no_access_without_auth_witness :
  pw_fwd (hw_proxy (demo_handle demo_multi stranger).2) = demo_fwd ∧
  se_authorized (hw_session (demo_handle [bulk (bstr "AUTH"); bulk (bstr "secret")] stranger).2) = true ∧
  not_locked 1000 demo_proxy (hw_session stranger).
Proof.
  assert (Hs : session_ok locked_cfg (aclAuthEnabled locked_cfg demo_fwd) (hw_session stranger))
    by (split; [split; [apply Z.leb_le|apply Z.ltb_lt]; reflexivity|]; split; [discriminate|reflexivity]).
  assert (Hno : ¬ allowed locked_cfg demo_fwd (hw_session stranger)) by (intros [Hx|Hx]; discriminate).
  assert (Hr : reach_router (fw_router demo_fwd)) by (apply reach_rop, reach_new).
  split; [|split; [vm_compute; reflexivity|]].
  - destruct (demo_handle demo_multi stranger) as [o w'] eqn:Ho.
    apply (no_access_without_auth locked_cfg string_of_bytes Z.of_nat 8 (λ t a, t ++ a) demo_nodes (map upper_byte)
             "syntax error" 1000 0 1000 4096 demo_multi stranger w' o Hr Hs Hno Ho).
  - assert (Ha : se_authorized (hw_session (demo_handle [bulk (bstr "AUTH"); bulk (bstr "secret")] stranger).2) = true)
      by (vm_compute; reflexivity).
    destruct (demo_handle [bulk (bstr "AUTH"); bulk (bstr "secret")] stranger) as [o w'] eqn:Ho.
    apply (no_access_without_auth locked_cfg string_of_bytes Z.of_nat 8 (λ t a, t ++ a) demo_nodes (map upper_byte)
             "syntax error" 1000 0 1000 4096 _ stranger w' o Hr Hs Hno Ho).
    right. exact Ha.
Defined.
