(* ===== verification/BackendConn.v ===== *)
(** A backend connection: the goroutines of backend.go around one connection to a server.

    A connection has a channel of requests, one writer goroutine ([run], [loopWriter],
    [delayBeforeRetry]) and, for every time it has been established, a reader goroutine
    ([loopReader]).  [writer] and [reader] are the next atomic step of a goroutine: up to
    the next operation on a channel, an atomic variable or the socket.  What the network
    and the clock do at that step is the argument of type [env]; what the server answers
    is the class [Server]. *)

From S2P Require Import Prelude Bufio Resp Mapper Models Router Stream Forward.
(** * Delays *)
Record DelayExp2 := mkDelay { de_Min : Z; de_Max : Z; de_Value : Z }.

Definition delay_Reset (d : DelayExp2) : DelayExp2 := mkDelay (de_Min d) (de_Max d) 0.

(** [None] is the panic of [MinMaxInt] *)
Definition NextValue (d : DelayExp2) : option DelayExp2 :=
  v ← MinMaxInt (de_Value d * 2) (de_Min d) (de_Max d); mret (mkDelay (de_Min d) (de_Max d) v).

(** * Identities *)
Record RedisAuthIdentity := mkLogin { id_Username : bytes; id_Password : bytes }.

Definition Validate (a : RedisAuthIdentity) : bool :=
  negb (negb (bool_decide (id_Username a = [])) && bool_decide (id_Password a = [])).
Definition HasAuth (a : RedisAuthIdentity) : bool := negb (bool_decide (id_Password a = [])).
Definition AuthArgs (a : RedisAuthIdentity) : list bytes :=
  if decide (id_Username a ≠ []) then [id_Username a; id_Password a]
  else if decide (id_Password a ≠ []) then [id_Password a] else [].

(** * The server

    The reply to the last of the messages received on the [n]-th connection: a server may
    answer as it likes, but it answers each message once and in order. *)
Class Server := { serve : nat → list (list Resp) → Resp }.

(** * State *)
Inductive rpc :=
| RRange            (** [for r := range tasks] *)
| RDecode (r : Request)
| RClose            (** the deferred function: [c.Close()] *)
| RDrain            (** its loop over the tasks left *)
| RDone.

(** one established connection: what was encoded on it, how many of these messages have
    left the buffer, how many replies were read, and its reader *)
Record link := mkLink {
  lk_sent : list (list Resp);
  lk_flushed : nat;
  lk_nbuffered : nat;
  lk_read : nat;
  lk_tasks : list Request;
  lk_tasksClosed : bool;
  lk_reader : rpc;
  lk_dead : bool;
  lk_failed : bool;   (** writing to it has failed *)
  lk_replied : list (Request * Resp);  (** the replies handed out, for the theorems *)
}.

Inductive wpc :=
| WTop                              (** [run]: the head of the loop *)
| WRange (c : nat)                  (** [for r := range bc.input] *)
| WEncode (c : nat) (r : Request)
| WFlush (c : nat) (r : Request)
| WHand (c : nat) (r : Request)     (** [tasks <- r] *)
| WState (c : nat) (err : bool)     (** deferred: [bc.state.Set(0)] *)
| WTasks (c : nat) (err : bool)     (** deferred: [close(tasks)] *)
| WDrain (err : bool) (i : option nat)
| WFail                             (** [delayBeforeRetry] *)
| WRetry                            (** its loop *)
| WExit.

Definition stateConnected : Z := 1.
Definition stateDataStale : Z := 2.

Record Conn := mkConn {
  cn_input : list Request;
  cn_inputClosed : bool;
  cn_closed : bool;
  cn_state : Z;
  cn_fails : Z;
  cn_delay : DelayExp2;
  cn_writer : wpc;
  cn_links : list link;
  cn_pushed : list Request;                 (** every request pushed, for the theorems *)
  cn_answers : list (Request * subreply);   (** the calls of [setResponse] *)
}.

Definition IsConnected (s : Conn) : bool := bool_decide (cn_state s = stateConnected).

(** ** Updates *)
Definition set_input (l : list Request) (s : Conn) : Conn :=
  mkConn l (cn_inputClosed s) (cn_closed s) (cn_state s) (cn_fails s) (cn_delay s) (cn_writer s) (cn_links s)
    (cn_pushed s) (cn_answers s).
Definition set_state (z : Z) (s : Conn) : Conn :=
  mkConn (cn_input s) (cn_inputClosed s) (cn_closed s) z (cn_fails s) (cn_delay s) (cn_writer s) (cn_links s)
    (cn_pushed s) (cn_answers s).
Definition set_retry (fails : Z) (d : DelayExp2) (s : Conn) : Conn :=
  mkConn (cn_input s) (cn_inputClosed s) (cn_closed s) (cn_state s) fails d (cn_writer s) (cn_links s)
    (cn_pushed s) (cn_answers s).
Definition goto (pc : wpc) (s : Conn) : Conn :=
  mkConn (cn_input s) (cn_inputClosed s) (cn_closed s) (cn_state s) (cn_fails s) (cn_delay s) pc (cn_links s)
    (cn_pushed s) (cn_answers s).
Definition set_links (l : list link) (s : Conn) : Conn :=
  mkConn (cn_input s) (cn_inputClosed s) (cn_closed s) (cn_state s) (cn_fails s) (cn_delay s) (cn_writer s) l
    (cn_pushed s) (cn_answers s).
Definition on_link (c : nat) (f : link → link) (s : Conn) : Conn := set_links (alter f c (cn_links s)) s.

Definition setResponse (r : Request) (reply : subreply) (s : Conn) : Conn :=
  mkConn (cn_input s) (cn_inputClosed s) (cn_closed s) (cn_state s) (cn_fails s) (cn_delay s) (cn_writer s) (cn_links s)
    (cn_pushed s) (cn_answers s ++ [(r, reply)]).

Definition lk_encode (multi : list Resp) (wire : nat) (l : link) : link :=
  mkLink (lk_sent l ++ [multi]) wire (S (lk_nbuffered l)) (lk_read l) (lk_tasks l) (lk_tasksClosed l)
    (lk_reader l) (lk_dead l) (lk_failed l) (lk_replied l).
Definition lk_fail (wire : nat) (l : link) : link :=
  mkLink (lk_sent l) wire (lk_nbuffered l) (lk_read l) (lk_tasks l) (lk_tasksClosed l) (lk_reader l) (lk_dead l)
    true (lk_replied l).
Definition lk_flush (l : link) : link :=
  mkLink (lk_sent l) (length (lk_sent l)) 0 (lk_read l) (lk_tasks l) (lk_tasksClosed l) (lk_reader l) (lk_dead l)
    (lk_failed l) (lk_replied l).
Definition lk_set_tasks (tasks : list Request) (l : link) : link :=
  mkLink (lk_sent l) (lk_flushed l) (lk_nbuffered l) (lk_read l) tasks (lk_tasksClosed l) (lk_reader l) (lk_dead l)
    (lk_failed l) (lk_replied l).
Definition lk_close (l : link) : link :=
  mkLink (lk_sent l) (lk_flushed l) (lk_nbuffered l) (lk_read l) (lk_tasks l) true (lk_reader l) (lk_dead l)
    (lk_failed l) (lk_replied l).
Definition lk_goto (pc : rpc) (dead : bool) (l : link) : link :=
  mkLink (lk_sent l) (lk_flushed l) (lk_nbuffered l) (lk_read l) (lk_tasks l) (lk_tasksClosed l) pc dead
    (lk_failed l) (lk_replied l).
Definition lk_reply (r : Request) (resp : Resp) (l : link) : link :=
  mkLink (lk_sent l) (lk_flushed l) (lk_nbuffered l) (S (lk_read l)) (lk_tasks l) (lk_tasksClosed l) RRange (lk_dead l)
    (lk_failed l) (lk_replied l ++ [(r, resp)]).

(** * The environment's choices at a step *)
Record env := mkEnv {
  ev_ok : bool;       (** the network call succeeds *)
  ev_broken : bool;   (** the client of the request is gone *)
  ev_late : bool;     (** more than [MaxInterval] since the last write *)
  ev_timeout : bool;  (** the retry delay is over *)
  ev_wire : nat;      (** how many messages the buffer has let through so far *)
}.

Definition connFailure : subreply := (Some (ErrBackend "backend conn failure"), None).
Definition connReset : subreply := (Some (ErrBackend "backend conn reset"), None).
Definition isBroken : subreply := (Some ErrRequestIsBroken, None).

Section conn.
Context `{Server} (auth : RedisAuthIdentity) (database : Z) (maxPipeline : nat).

(** [verifyAuthIdentity] and [selectDatabase]: each message is answered with a string *)
Definition handshake : list (list Resp) :=
  (if HasAuth auth then [bulk (bstr "AUTH") :: (bulk <$> AuthArgs auth)] else []) ++
  (if decide (database = 0) then [] else [[bulk (bstr "SELECT"); bulk (FormatInt database)]]).

Definition welcomed (c : nat) : bool :=
  forallb (λ k, IsString (serve c (take (S k) handshake))) (seq 0 (length handshake)).

(** [newBackendReader] *)
Definition new_link : link :=
  mkLink handshake (length handshake) 0 (length handshake) [] false RRange false false [].

(** a receiver is ready, or there is room in the buffer of the channel *)
Definition tasks_room (l : link) : bool :=
  bool_decide (length (lk_tasks l) < maxPipeline)%nat ||
  (bool_decide (maxPipeline = 0%nat) && bool_decide (lk_tasks l = []) &&
   match lk_reader l with RRange | RDrain => true | _ => false end).

(** bytes only move forward, and not further than they were encoded *)
Definition wire_ok (e : env) (l : link) (encoded : nat) : bool :=
  bool_decide (lk_flushed l <= ev_wire e <= encoded)%nat.

(** [None]: the goroutine is blocked; [Panic]: it dies and the process with it *)
Definition writer (e : env) (s : Conn) : option (outcome unit Conn) :=
  match cn_writer s with
  | WTop =>
      if cn_closed s then Some (Ok (goto WExit s))
      else
        let c := length (cn_links s) in
        if Validate auth && ev_ok e && welcomed c then
          Some (Ok (goto (WRange c) (set_retry 0 (delay_Reset (cn_delay s))
                 (set_state stateConnected (set_links (cn_links s ++ [new_link]) s)))))
        else Some (Ok (goto (WDrain true None) s))
  | WRange c =>
      match cn_input s with
      | [] => if cn_inputClosed s then Some (Ok (goto (WState c false) s)) else None
      | r :: input =>
          let s := set_input input s in
          if IsReadOnly (rq_OpFlag r) && ev_broken e then Some (Ok (setResponse r isBroken s))
          else Some (Ok (goto (WEncode c r) s))
      end
  | WEncode c r =>
      l ← cn_links s !! c;
      if ev_ok e then
        if wire_ok e l (S (length (lk_sent l)))
        then Some (Ok (goto (WFlush c r) (on_link c (lk_encode (rq_Multi r) (ev_wire e)) s)))
        else None
      else if wire_ok e l (length (lk_sent l))
      then Some (Ok (goto (WState c true) (setResponse r connFailure (on_link c (lk_fail (ev_wire e)) s))))
      else None
  | WFlush c r =>
      l ← cn_links s !! c;
      let force := bool_decide (cn_input s = []) in
      let need := bool_decide (maxPipeline / 2 < lk_nbuffered l)%nat || ev_late e in
      if force || need then
        if ev_ok e && negb (lk_dead l) then Some (Ok (goto (WHand c r) (on_link c lk_flush s)))
        else if wire_ok e l (length (lk_sent l))
        then Some (Ok (goto (WState c true) (setResponse r connFailure (on_link c (lk_fail (ev_wire e)) s))))
        else None
      else Some (Ok (goto (WHand c r) s))
  | WHand c r =>
      l ← cn_links s !! c;
      if tasks_room l then Some (Ok (goto (WRange c) (on_link c (lk_set_tasks (lk_tasks l ++ [r])) s))) else None
  | WState c err => Some (Ok (goto (WTasks c err) (set_state 0 s)))
  | WTasks c err => Some (Ok (goto (WDrain err None) (on_link c lk_close s)))
  | WDrain err None => Some (Ok (goto (WDrain err (Some (length (cn_input s)))) s))
  | WDrain err (Some O) => Some (Ok (goto (if err then WFail else WTop) s))
  | WDrain err (Some (S i)) =>
      match cn_input s with
      | [] => if cn_inputClosed s then Some Panic else None
      | r :: input => Some (Ok (goto (WDrain err (Some i)) (setResponse r connReset (set_input input s))))
      end
  | WFail =>
      if decide (cn_fails s + 1 <= 10) then Some (Ok (goto WTop (set_retry (cn_fails s + 1) (cn_delay s) s)))
      else match NextValue (cn_delay s) with
      | None => Some Panic
      | Some d => Some (Ok (goto WRetry (set_retry (cn_fails s + 1) d s)))
      end
  | WRetry =>
      if cn_closed s then Some (Ok (goto WTop s))
      else if ev_timeout e then Some (Ok (goto WTop s))
      else match cn_input s with
      | [] => if cn_inputClosed s then Some (Ok (goto WTop s)) else None
      | r :: input => Some (Ok (setResponse r connReset (set_input input s)))
      end
  | WExit => None
  end.

(** [bytes.HasPrefix] *)
Definition has_prefix (p v : bytes) : bool := bool_decide (take (length p) v = p).

(** replies that make the connection stale: [CompareAndSwap(stateConnected, stateDataStale)] *)
Definition note_stale (resp : Resp) (s : Conn) : Conn :=
  if IsError resp && (has_prefix (bstr "MASTERDOWN") (val (Value resp)) || has_prefix (bstr "LOADING") (val (Value resp)))
  then if decide (cn_state s = stateConnected) then set_state stateDataStale s else s
  else s.

Definition reader (c : nat) (e : env) (s : Conn) : option Conn :=
  l ← cn_links s !! c;
  match lk_reader l with
  | RRange =>
      match lk_tasks l with
      | [] => if lk_tasksClosed l then Some (on_link c (lk_goto RClose (lk_dead l)) s) else None
      | r :: tasks => Some (on_link c (λ l, lk_goto (RDecode r) (lk_dead l) (lk_set_tasks tasks l)) s)
      end
  | RDecode r =>
      if ev_ok e then
        if decide (lk_read l < lk_flushed l)%nat then
          let resp := serve c (take (S (lk_read l)) (lk_sent l)) in
          Some (setResponse r (None, Some resp) (on_link c (lk_reply r resp) (note_stale resp s)))
        else None
      else Some (setResponse r connFailure (on_link c (lk_goto RClose (lk_dead l)) s))
  | RClose => Some (on_link c (lk_goto RDrain true) s)
  | RDrain =>
      match lk_tasks l with
      | [] => if lk_tasksClosed l then Some (on_link c (lk_goto RDone (lk_dead l)) s) else None
      | r :: tasks => Some (setResponse r connReset (on_link c (lk_set_tasks tasks) s))
      end
  | RDone => None
  end.

(** * The callers *)

(** [make(chan *Request, 1024)] *)
Definition inputCap : nat := 1024.

Definition conn_PushBack (r : Request) (s : Conn) : option (outcome unit Conn) :=
  if cn_inputClosed s then Some Panic
  else if decide (length (cn_input s) < inputCap)%nat then
    Some (Ok (mkConn (cn_input s ++ [r]) (cn_inputClosed s) (cn_closed s) (cn_state s) (cn_fails s) (cn_delay s)
                (cn_writer s) (cn_links s) (cn_pushed s ++ [r]) (cn_answers s)))
  else None.

(** [KeepAlive]; the request is at the address [ptr] *)
Definition keepAliveRequest (ptr : Z) (s : Conn) : Request :=
  mkRequest [bulk (bstr (if decide (cn_state s = stateDataStale) then "INFO" else "PING"))] [] 0 0 0 None ptr.

Definition conn_KeepAlive (ptr : Z) (s : Conn) : option (outcome unit Conn) :=
  if decide (cn_input s ≠ []) then Some (Ok s) else conn_PushBack (keepAliveRequest ptr s) s.

(** [Close], whose first half is done once; and the callback that ends [stateDataStale] *)
Definition close_input (s : Conn) : Conn :=
  mkConn (cn_input s) true (cn_closed s) (cn_state s) (cn_fails s) (cn_delay s) (cn_writer s) (cn_links s)
    (cn_pushed s) (cn_answers s).
Definition set_conn_closed (s : Conn) : Conn :=
  mkConn (cn_input s) (cn_inputClosed s) true (cn_state s) (cn_fails s) (cn_delay s) (cn_writer s) (cn_links s)
    (cn_pushed s) (cn_answers s).
Definition recovered (s : Conn) : Conn :=
  if decide (cn_state s = stateDataStale) then set_state stateConnected s else s.

(** [NewBackendConnWithAuth] *)
Definition newBackendConn : Conn :=
  mkConn [] false false 0 0 (mkDelay 50 5000 0) WTop [] [] [].

Inductive action :=
| DoWriter (e : env)
| DoReader (c : nat) (e : env)
| DoPush (r : Request)
| DoKeepAlive (ptr : Z)
| DoCloseInput
| DoClosed
| DoRecover.

Definition step (a : action) (s : Conn) : option (outcome unit Conn) :=
  match a with
  | DoWriter e => writer e s
  | DoReader c e => Ok <$> reader c e s
  | DoPush r => conn_PushBack r s
  | DoKeepAlive ptr => conn_KeepAlive ptr s
  | DoCloseInput => Some (Ok (close_input s))
  | DoClosed => if cn_inputClosed s then Some (Ok (set_conn_closed s)) else None
  | DoRecover => Some (Ok (recovered s))
  end.

(** a run: the states reached by the actions of a scheduler *)
Definition stepped (s s' : Conn) : Prop := ∃ a, step a s = Some (Ok s').
Definition reach_conn (s : Conn) : Prop := rtc stepped newBackendConn s.

(** executing a schedule *)
Fixpoint run_actions (l : list action) (s : Conn) : option (outcome unit Conn) :=
  match l with
  | [] => Some (Ok s)
  | a :: l => match step a s with Some (Ok s) => run_actions l s | o => o end
  end.

End conn.
