(* ===== verification/BackendTheorems.v ===== *)
(** Every request pushed to a backend connection is answered once, with the server's reply
    to its own message, and none is left waiting for ever. *)

From S2P Require Import Prelude Bufio Resp Mapper Models Router Stream Forward BackendConn.
(** the cases of a step: [H] says that a goroutine's step leads to a state *)
Ltac conn_case H :=
  match type of H with
  | context [match ?x with _ => _ end] =>
      lazymatch x with context [match _ with _ => _ end] => fail | _ => let E := fresh "E" in destruct x eqn:E end
  end.
Ltac conn_cases H := repeat (conn_case H; try discriminate H); try discriminate H; try (injection H as H; subst).

Lemma alter_split {A} (l : list A) c x : l !! c = Some x →
  ∃ pre post, l = pre ++ x :: post ∧ length pre = c ∧ ∀ f, alter f c l = pre ++ f x :: post.
Proof.
  revert c. induction l as [|y l IH]; intros [|c] Hx; [done..| |].
  - injection Hx as ->. by exists [], l.
  - destruct (IH c Hx) as (pre & post & -> & <- & Ha). exists (y :: pre), post. split; [done|]. split; [done|].
    intros f. cbn. by rewrite <- Ha.
Qed.

Section theorems.
Context `{Server} (auth : RedisAuthIdentity) (database : Z) (maxPipeline : nat).
Abbreviation writer := (writer auth database maxPipeline).
Abbreviation step := (step auth database maxPipeline).
Abbreviation reach_conn := (reach_conn auth database maxPipeline).
Abbreviation handshake := (handshake auth database).

(** * Where requests are *)
Definition writer_hand (pc : wpc) : list Request :=
  match pc with WEncode _ r | WFlush _ r | WHand _ r => [r] | _ => [] end.
Definition reader_hand (l : link) : list Request := match lk_reader l with RDecode r => [r] | _ => [] end.
Definition link_waiting (l : link) : list Request := reader_hand l ++ lk_tasks l.
Definition waiting (s : Conn) : list Request :=
  cn_input s ++ writer_hand (cn_writer s) ++ concat (link_waiting <$> cn_links s).

(** the replies among the answers *)
Definition successes (s : Conn) : list (Request * Resp) :=
  omap (λ a : Request * subreply, match a.2 with (None, Some resp) => Some (a.1, resp) | _ => None end) (cn_answers s).

(** no request is lost or duplicated, and replies are accounted for *)
Definition conserved (s : Conn) : Prop :=
  cn_pushed s ≡ₚ waiting s ++ (cn_answers s).*1 ∧ successes s ≡ₚ concat (lk_replied <$> cn_links s).

Lemma conserved_links s c l f : cn_links s !! c = Some l →
  ∃ rest rest', concat (link_waiting <$> cn_links s) ≡ₚ link_waiting l ++ rest ∧
    concat (link_waiting <$> alter f c (cn_links s)) ≡ₚ link_waiting (f l) ++ rest ∧
    concat (lk_replied <$> cn_links s) ≡ₚ lk_replied l ++ rest' ∧
    concat (lk_replied <$> alter f c (cn_links s)) ≡ₚ lk_replied (f l) ++ rest'.
Proof.
  intros (pre & post & Hl & _ & Ha)%alter_split. rewrite Ha, Hl.
  exists (concat (link_waiting <$> pre) ++ concat (link_waiting <$> post)),
    (concat (lk_replied <$> pre) ++ concat (lk_replied <$> post)).
  rewrite !fmap_app, !concat_app, !fmap_cons. cbn [concat]. repeat split; solve_Permutation.
Qed.

Lemma successes_app s r reply : successes (setResponse r reply s) =
  successes s ++ match reply with (None, Some resp) => [(r, resp)] | _ => [] end.
Proof. unfold successes. cbn. rewrite omap_app. by destruct reply as [[e|] [resp|]]. Qed.

(** an answer to a request that was waiting *)
Lemma answer_conserved s s0 r reply :
  cn_pushed s0 = cn_pushed s → cn_answers s0 = cn_answers s → waiting s ≡ₚ r :: waiting s0 →
  concat (lk_replied <$> cn_links s0) ≡ₚ
    concat (lk_replied <$> cn_links s) ++ match reply with (None, Some resp) => [(r, resp)] | _ => [] end →
  conserved s → conserved (setResponse r reply s0).
Proof.
  intros Hp Ha Hw Hr [Hc Hs]. split.
  - cbn. rewrite Hp, Ha, Hc, fmap_app. change (waiting (setResponse r reply s0)) with (waiting s0). rewrite Hw. cbn.
    solve_Permutation.
  - rewrite successes_app. unfold successes in *. rewrite Ha, Hs. cbn. by rewrite Hr.
Qed.

(** a step that only moves requests *)
Lemma move_conserved s s' :
  cn_pushed s' = cn_pushed s → cn_answers s' = cn_answers s → waiting s' ≡ₚ waiting s →
  concat (lk_replied <$> cn_links s') ≡ₚ concat (lk_replied <$> cn_links s) → conserved s → conserved s'.
Proof. intros Hp Ha Hw Hr [Hc Hs]. unfold conserved, successes in *. by rewrite Hp, Ha, Hw, Hr. Qed.

(** the same for a step that changes one link *)
Lemma link_move s c l f : cn_links s !! c = Some l → link_waiting (f l) ≡ₚ link_waiting l → lk_replied (f l) = lk_replied l →
  conserved s → conserved (on_link c f s).
Proof.
  intros Hl Hw Hr. destruct (conserved_links s c l f Hl) as (rest & rest' & H1 & H2 & H3 & H4).
  apply move_conserved; [done..| |]; cbn.
  - unfold waiting. cbn. by rewrite H1, H2, Hw.
  - by rewrite H3, H4, Hr.
Qed.

Lemma link_answer s c l f r reply : cn_links s !! c = Some l → link_waiting l ≡ₚ r :: link_waiting (f l) →
  lk_replied (f l) = lk_replied l ++ match reply with (None, Some resp) => [(r, resp)] | _ => [] end →
  conserved s → conserved (setResponse r reply (on_link c f s)).
Proof.
  intros Hl Hw Hr. destruct (conserved_links s c l f Hl) as (rest & rest' & H1 & H2 & H3 & H4).
  apply answer_conserved; [done..| |]; cbn.
  - unfold waiting. cbn. rewrite H1, H2, Hw. solve_Permutation.
  - rewrite H3, H4, Hr. solve_Permutation.
Qed.

Lemma note_stale_same resp s : ∃ z, note_stale resp s = set_state z s.
Proof. unfold note_stale. destruct s. destruct (_ && _); [case_decide|]; cbn; by eexists. Qed.

Lemma reader_conserved c e s s' : reader c e s = Some s' → conserved s → conserved s'.
Proof.
  unfold reader. intros Hr Hc. destruct (cn_links s !! c) as [l|] eqn:Hl; [|done]. cbn in Hr.
  destruct (lk_reader l) as [|r| | |] eqn:Hpc; conn_cases Hr;
    try (eapply link_move; [done| |done|done]; unfold link_waiting, reader_hand; cbn; by rewrite ?Hpc, ?E);
    try (eapply link_answer; [done| |by rewrite app_nil_r|done]; unfold link_waiting, reader_hand; cbn; by rewrite Hpc, ?E).
  destruct (note_stale_same (serve c (take (S (lk_read l)) (lk_sent l))) s) as [z ->].
  eapply link_answer; [done| |done|by apply (move_conserved s)]. unfold link_waiting, reader_hand. cbn. by rewrite Hpc.
Qed.

(** * The writer's place *)
Definition current (pc : wpc) : option nat :=
  match pc with
  | WRange c | WEncode c _ | WFlush c _ | WHand c _ | WState c _ | WTasks c _ => Some c
  | _ => None
  end.

(** the writer's link is the last one, and the only one whose tasks are open; what is left
    to drain is there; and the writer stops only when the connection is closed *)
Record placed (s : Conn) : Prop := {
  pl_current : ∀ c, current (cn_writer s) = Some c → S c = length (cn_links s);
  pl_open : ∀ c l, cn_links s !! c = Some l → lk_tasksClosed l = bool_decide (current (cn_writer s) ≠ Some c);
  pl_drain : ∀ err i, cn_writer s = WDrain err (Some i) → (i <= length (cn_input s))%nat;
  pl_exit : cn_writer s = WExit → cn_closed s = true;
  pl_closed : cn_closed s = true → cn_inputClosed s = true;
  pl_delay : de_Min (cn_delay s) = 50 ∧ de_Max (cn_delay s) = 5000;
}.

Lemma placed_link s c : placed s → current (cn_writer s) = Some c → is_Some (cn_links s !! c).
Proof. intros Hp Hc. apply lookup_lt_is_Some. pose proof (pl_current s Hp c Hc). lia. Qed.

(** the cases of a step of the writer, with the link it works on *)
Ltac writer_cases Hw Hp Hpc :=
  unfold BackendConn.writer in Hw;
  match type of Hw with context [cn_writer ?s] => destruct (cn_writer s) eqn:Hpc end;
  try match type of Hpc with
  | cn_writer ?s = ?pc => lazymatch eval cbn in (current pc) with
    | Some ?c => let l := fresh "l" in let Hl := fresh "Hl" in
        destruct (placed_link s c Hp (f_equal current Hpc)) as [l Hl]; rewrite ?Hl in Hw; cbn [mbind option_bind] in Hw
    end
  end;
  conn_cases Hw.

Ltac rew_input := try match goal with E : cn_input _ = _ |- _ => rewrite E end.

Lemma goto_answer pc r reply s : goto pc (setResponse r reply s) = setResponse r reply (goto pc s).
Proof. done. Qed.

(** a step of the writer on its link, which hands nothing out *)
Lemma writer_move s c l f pc pre : cn_links s !! c = Some l → lk_replied (f l) = lk_replied l →
  pre ++ writer_hand pc ++ link_waiting (f l) ≡ₚ writer_hand (cn_writer s) ++ link_waiting l →
  (pre = [] → conserved s → conserved (goto pc (on_link c f s))) ∧
  (∀ r reply, pre = [r] → reply.1 ≠ None → conserved s → conserved (goto pc (setResponse r reply (on_link c f s)))).
Proof.
  intros Hl Hr Hw. destruct (conserved_links s c l f Hl) as (rest & rest' & H1 & H2 & H3 & H4). split.
  - intros ->. apply move_conserved; [done..| |]; cbn; [|by rewrite H3, H4, Hr].
    unfold waiting. cbn. rewrite H1, H2, !(assoc_L _ (writer_hand _)), <- Hw. cbn. solve_Permutation.
  - intros r [[e|] x] -> He; [|done]. rewrite goto_answer. apply answer_conserved; [done..| |]; cbn.
    + unfold waiting. cbn. rewrite H1, H2, !(assoc_L _ (writer_hand _)), <- Hw. solve_Permutation.
    + by rewrite H3, H4, Hr, app_nil_r.
Qed.

Lemma writer_conserved e s s' : placed s → writer e s = Some (Ok s') → conserved s → conserved s'.
Proof.
  intros Hp Hw Hc. writer_cases Hw Hp Hpc;
    try (apply (move_conserved s); unfold waiting; cbn; rewrite ?Hpc; done);
    try (match goal with Hl : cn_links s !! ?c = Some ?l |- conserved (goto ?pc (setResponse ?r ?x (on_link ?c ?f s))) =>
           destruct (writer_move s c l f pc [r] Hl) as [_ Hm]; [done|by rewrite Hpc|by apply Hm] end);
    try (match goal with Hl : cn_links s !! ?c = Some ?l |- conserved (goto ?pc (on_link ?c ?f s)) =>
           destruct (writer_move s c l f pc [] Hl) as [Hm _]; [done|by rewrite Hpc|by apply Hm] end).
  - apply (move_conserved s); try done; unfold waiting; cbn; rewrite ?Hpc, !fmap_app, !concat_app; cbn; by rewrite ?app_nil_r.
  - apply (answer_conserved s); try done; unfold waiting; cbn; rewrite ?Hpc, ?app_nil_r; by rew_input.
  - apply (move_conserved s); try done. unfold waiting. cbn. rewrite Hpc. rew_input. cbn. solve_Permutation.
  - destruct (writer_move s c l (lk_set_tasks (lk_tasks l ++ [r])) (WRange c) [] Hl) as [Hm _]; [done| |by apply Hm].
    rewrite Hpc. unfold link_waiting. cbn. change (reader_hand (lk_set_tasks _ l)) with (reader_hand l). solve_Permutation.
  - rewrite goto_answer. apply (answer_conserved s); try done; unfold waiting; cbn; rewrite ?Hpc, ?app_nil_r; by rew_input.
  - apply (answer_conserved s); try done; unfold waiting; cbn; rewrite ?Hpc, ?app_nil_r; by rew_input.
Qed.

Lemma push_conserved r s s' : conn_PushBack r s = Some (Ok s') → conserved s → conserved s'.
Proof.
  unfold conn_PushBack. intros Hs [Hc Hr]. conn_cases Hs. split; [|done]. cbn. rewrite Hc. unfold waiting. cbn.
  solve_Permutation.
Qed.

(** * The place is kept *)

(** a link changed in place keeps its channel open or closed *)
Lemma open_alter (P : nat → bool) (links : list link) c f :
  (∀ c l, links !! c = Some l → lk_tasksClosed l = P c) → (∀ l, links !! c = Some l → lk_tasksClosed (f l) = P c) →
  ∀ c' l, alter f c links !! c' = Some l → lk_tasksClosed l = P c'.
Proof.
  intros Hall Hf c' l. rewrite list_lookup_alter. case_decide as Hc; [|apply Hall].
  subst. destruct (links !! c') as [l0|] eqn:Hl; [|done]. cbn. intros [= <-]. by apply Hf.
Qed.

Lemma writer_placed e s s' : placed s → writer e s = Some (Ok s') → placed s'.
Proof.
  intros Hp Hw. writer_cases Hw Hp Hpc; destruct Hp as [Hcur Hopen Hdrain Hexit Hcl Hdl]; rewrite Hpc in Hcur, Hopen, Hdrain, Hexit.
  all: constructor; cbn; rewrite ?length_alter, ?Hpc; try done; try (intros; simplify_eq; by auto).
  all: try (apply open_alter; [exact Hopen|]; intros ? ?; cbn; by eapply Hopen).
  - intros c [= <-]. rewrite length_app. cbn. lia.
  - intros c l [Hl|[Hge Hl]]%lookup_app_Some.
    + rewrite (Hopen c l Hl). apply lookup_lt_Some in Hl. rewrite !bool_decide_true; [done|intros [=]; lia|done].
    + apply list_lookup_singleton_Some in Hl as [Hc <-]. cbn. rewrite bool_decide_false; [done|]. intros Hne. destruct Hne. f_equal. lia.
  - intros c' l0. rewrite list_lookup_alter. case_decide as Hc; [|].
    + subst. rewrite Hl. intros [= <-]. done.
    + intros Hl0. rewrite (Hopen c' l0 Hl0). rewrite !bool_decide_true; [done..|]. by intros [= ->].
  - intros err0 i [= <- <-]. specialize (Hdrain err (S n0) eq_refl). match goal with E : cn_input _ = _ |- _ => rewrite E in Hdrain end. cbn in Hdrain. lia.
  - match goal with E : NextValue _ = Some d |- _ => unfold NextValue in E; destruct (MinMaxInt _ _ _); [|done]; by injection E as <- end.
Qed.

(** the writer never panics: what it drains is there, and the delay has sane bounds *)
Lemma writer_no_panic e s : placed s → writer e s ≠ Some Panic.
Proof.
  intros Hp Hw. writer_cases Hw Hp Hpc.
  - pose proof (pl_drain s Hp _ _ Hpc) as Hd. match goal with E : cn_input _ = [] |- _ => rewrite E in Hd end. cbn in Hd. lia.
  - destruct (pl_delay s Hp) as [Hmin Hmax]. match goal with E : NextValue _ = None |- _ => unfold NextValue, MinMaxInt in E;
      rewrite Hmin, Hmax in E; done end.
Qed.

Lemma reader_fields c e s s' : reader c e s = Some s' →
  cn_input s' = cn_input s ∧ cn_inputClosed s' = cn_inputClosed s ∧ cn_closed s' = cn_closed s ∧ cn_delay s' = cn_delay s ∧
  cn_writer s' = cn_writer s ∧ ∃ f, cn_links s' = alter f c (cn_links s) ∧ ∀ l, lk_tasksClosed (f l) = lk_tasksClosed l.
Proof.
  unfold reader. intros Hr. destruct (cn_links s !! c) as [l|]; [|done]. cbn in Hr.
  conn_cases Hr; cbn; [split_and!; eauto..| |split_and!; eauto|split_and!; eauto|split_and!; eauto|split_and!; eauto].
  destruct (note_stale_same (serve c (take (S (lk_read l)) (lk_sent l))) s) as [z ->]. cbn. split_and!; eauto.
Qed.

Lemma reader_placed c e s s' : reader c e s = Some s' → placed s → placed s'.
Proof.
  intros (Hi & Hic & Hcl & Hd & Hw & f & Hf & Ht)%reader_fields [Pcur Popen Pdrain Pexit Pcl Pdl].
  constructor; rewrite ?Hi, ?Hic, ?Hcl, ?Hd, ?Hw, ?Hf, ?length_alter; try done.
  apply open_alter; [exact Popen|]. intros l Hl. rewrite Ht. by apply Popen.
Qed.

Lemma push_placed r s s' : conn_PushBack r s = Some (Ok s') → placed s → placed s'.
Proof.
  unfold conn_PushBack. intros Hs [Pcur Popen Pdrain Pexit Pcl Pdl]. conn_cases Hs. constructor; cbn; try done.
  intros err i Hi. rewrite length_app. specialize (Pdrain err i Hi). lia.
Qed.

Lemma step_placed a s s' : step a s = Some (Ok s') → placed s → placed s'.
Proof.
  destruct a as [e|c e|r|ptr| | |]; cbn [BackendConn.step].
  - intros Hw Hp. by eapply writer_placed.
  - destruct (reader c e s) as [s1|] eqn:Hr; [|done]. intros [= <-]. by eapply reader_placed.
  - apply push_placed.
  - unfold conn_KeepAlive. case_decide; [by intros [= <-]|apply push_placed].
  - intros [= <-] [Pcur Popen Pdrain Pexit Pcl Pdl]. by constructor.
  - destruct (cn_inputClosed s) eqn:Hc; [|done]. intros [= <-] [Pcur Popen Pdrain Pexit Pcl Pdl]. by constructor.
  - intros [= <-] [Pcur Popen Pdrain Pexit Pcl Pdl]. unfold recovered. case_decide; by constructor.
Qed.

Lemma step_conserved a s s' : step a s = Some (Ok s') → placed s → conserved s → conserved s'.
Proof.
  destruct a as [e|c e|r|ptr| | |]; cbn [BackendConn.step].
  - intros Hw Hp. by eapply writer_conserved.
  - destruct (reader c e s) as [s1|] eqn:Hr; [|done]. intros [= <-] _. by eapply reader_conserved.
  - intros Hs _. by eapply push_conserved.
  - unfold conn_KeepAlive. case_decide; [by intros [= <-]|]. intros Hs _. by eapply push_conserved.
  - by intros [= <-].
  - destruct (cn_inputClosed s) eqn:Hc; [|done]. by intros [= <-].
  - intros [= <-] _. unfold recovered. by case_decide.
Qed.

(** * Replies are those of the server to the request's own message *)

(** the messages the writer has encoded but not handed over, while it works on link [c] *)
Definition phase (pc : wpc) (c : nat) : option (list Request) :=
  match pc with
  | WRange c' | WEncode c' _ => if decide (c' = c) then Some [] else None
  | WFlush c' r | WHand c' r => if decide (c' = c) then Some [r] else None
  | _ => None
  end.

Definition in_order (pc : rpc) : Prop := match pc with RRange | RDecode _ => True | _ => False end.

(** what was sent on a link: the greeting, then the messages of the requests answered,
    those that wait for their reply, and those about to be handed over *)
Definition ordered (ph : option (list Request)) (l : link) : Prop :=
  ∃ extra, lk_sent l = handshake ++ (rq_Multi <$> (lk_replied l).*1 ++ link_waiting l ++ default [] ph) ++ extra ∧
    (ph ≠ None → extra = []).

Definition own_replies (c : nat) (l : link) : Prop :=
  ∀ k r resp, lk_replied l !! k = Some (r, resp) →
    lk_sent l !! (length handshake + k)%nat = Some (rq_Multi r) ∧
    resp = serve c (take (S (length handshake + k)) (lk_sent l)).

Record link_ok (c : nat) (ph : option (list Request)) (l : link) : Prop := {
  lo_read : lk_read l = (length handshake + length (lk_replied l))%nat;
  lo_bounds : (lk_read l <= lk_flushed l <= length (lk_sent l))%nat;
  lo_buffered : (length (lk_sent l) <= lk_flushed l + lk_nbuffered l)%nat;
  lo_replied : own_replies c l;
  lo_order : in_order (lk_reader l) → ordered ph l;
  lo_done : lk_reader l = RDone → lk_tasks l = [] ∧ lk_tasksClosed l = true;
}.

Lemma own_replies_sent c l l' m : own_replies c l → lk_replied l' = lk_replied l → lk_sent l' = lk_sent l ++ m → own_replies c l'.
Proof.
  intros Ho Hr Hs k r resp. rewrite Hr, Hs. intros Hk. destruct (Ho k r resp Hk) as [H1 H2]. split.
  - by apply lookup_app_l_Some.
  - apply lookup_lt_Some in H1. rewrite take_app_le by lia. done.
Qed.

Lemma new_link_ok c : link_ok c (Some []) (new_link auth database).
Proof.
  constructor; cbn; try done; try lia. intros _. exists []. split; [|done].
  change (handshake = handshake ++ []). by rewrite app_nil_r.
Qed.

Lemma link_ok_leave c ph l : link_ok c ph l → link_ok c None l.
Proof.
  intros [Lr Lb Lf Lo Lord Ld]. constructor; try done. intros Hin. destruct (Lord Hin) as (extra & Hs & _).
  exists ((rq_Multi <$> default [] ph) ++ extra). split; [|done]. rewrite Hs. cbn. rewrite app_nil_r, !fmap_app. by rewrite <- !app_assoc.
Qed.

Lemma link_ok_encode c r wire l : link_ok c (Some []) l → (lk_flushed l <= wire <= S (length (lk_sent l)))%nat →
  link_ok c (Some [r]) (lk_encode (rq_Multi r) wire l).
Proof.
  intros [Lr Lb Lf Lo Lord Ld] Hw. constructor; cbn; rewrite ?length_app; cbn; try done; try lia.
  - by eapply own_replies_sent.
  - intros Hin. destruct (Lord Hin) as (extra & Hs & He). rewrite (He ltac:(done)) in Hs. exists []. split; [|done].
    cbn. rewrite Hs. change (link_waiting (lk_encode (rq_Multi r) wire l)) with (link_waiting l). cbn.
    rewrite !app_nil_r, !fmap_app. cbn. by rewrite <- !app_assoc.
Qed.

Lemma link_ok_fail c ph wire l : link_ok c ph l → (lk_flushed l <= wire <= length (lk_sent l))%nat →
  link_ok c None (lk_fail wire l).
Proof. intros [Lr Lb Lf Lo Lord Ld]%link_ok_leave Hw. constructor; cbn; try done; lia. Qed.

Lemma link_ok_flush c ph l : link_ok c ph l → link_ok c ph (lk_flush l).
Proof. intros [Lr Lb Lf Lo Lord Ld]. constructor; cbn; try done; lia. Qed.

Lemma link_ok_hand c r l : link_ok c (Some [r]) l → lk_tasksClosed l = false →
  link_ok c (Some []) (lk_set_tasks (lk_tasks l ++ [r]) l).
Proof.
  intros [Lr Lb Lf Lo Lord Ld] Hopen. constructor; cbn; try done.
  - intros Hin. destruct (Lord Hin) as (extra & Hs & He). exists extra. split; [|intros _; by apply He]. cbn. rewrite Hs. cbn. f_equal. f_equal.
    f_equal. f_equal. unfold link_waiting. cbn. change (reader_hand (lk_set_tasks _ l)) with (reader_hand l).
    by rewrite app_nil_r, app_assoc.
  - intros Hd. destruct (Ld Hd). congruence.
Qed.

Lemma link_ok_reply c ph l r : link_ok c ph l → lk_reader l = RDecode r → (lk_read l < lk_flushed l)%nat →
  link_ok c ph (lk_reply r (serve c (take (S (lk_read l)) (lk_sent l))) l).
Proof.
  intros [Lr Lb Lf Lo Lord Ld] Hpc Hlt. destruct (Lord ltac:(by rewrite Hpc)) as (extra & Hs & He).
  unfold link_waiting, reader_hand in Hs. rewrite Hpc in Hs.
  assert (lk_sent l !! (length handshake + length (lk_replied l))%nat = Some (rq_Multi r)) as Hm.
  { rewrite Hs, lookup_app_r by lia. replace (_ - _)%nat with (length (lk_replied l)) by lia.
    rewrite !fmap_app, <- !app_assoc, lookup_app_r by (by rewrite !length_fmap). rewrite !length_fmap, Nat.sub_diag. done. }
  constructor; cbn; rewrite ?length_app; cbn; try done; try lia.
  - intros k r' resp. cbn. intros [Hk|[Hge Hk]]%lookup_app_Some; [by apply Lo|].
    apply list_lookup_singleton_Some in Hk as [Hk [= <- <-]]. replace k with (length (lk_replied l)) by lia. split; [done|]. by rewrite <- Lr.
  - intros _. exists extra. split; [|done]. change (lk_sent (lk_reply _ _ l)) with (lk_sent l). rewrite Hs. f_equal. f_equal. f_equal.
    unfold link_waiting. cbn. rewrite fmap_app, <- app_assoc. done.
Qed.

Definition linked (s : Conn) : Prop := ∀ c l, cn_links s !! c = Some l → link_ok c (phase (cn_writer s) c) l.

(** one link changes, the writer's place with it *)
Lemma linked_alter s s' c f :
  linked s → cn_links s' = alter f c (cn_links s) →
  (∀ c', c' ≠ c → phase (cn_writer s') c' = phase (cn_writer s) c' ∨ phase (cn_writer s') c' = None) →
  (∀ l, cn_links s !! c = Some l → link_ok c (phase (cn_writer s) c) l → link_ok c (phase (cn_writer s') c) (f l)) →
  linked s'.
Proof.
  intros Hs Hl Hph Hf c' l'. rewrite Hl, list_lookup_alter. case_decide as Hc.
  - subst. destruct (cn_links s !! c') as [l|] eqn:Hl0; [|done]. intros [= <-]. by apply Hf, Hs.
  - intros Hl'. destruct (Hph c' ltac:(done)) as [->| ->]; [by apply Hs|]. by eapply link_ok_leave, Hs.
Qed.

(** only the writer's place changes, and it leaves links or stays *)
Lemma linked_goto s s' : linked s → cn_links s' = cn_links s →
  (∀ c, phase (cn_writer s') c = phase (cn_writer s) c ∨ phase (cn_writer s') c = None) → linked s'.
Proof.
  intros Hs Hl Hph c l. rewrite Hl. intros Hc. destruct (Hph c) as [->| ->]; [by apply Hs|by eapply link_ok_leave, Hs].
Qed.

Lemma reader_linked c e s s' : reader c e s = Some s' → linked s → linked s'.
Proof.
  intros Hr Hs. destruct (reader_fields c e s s' Hr) as (_ & _ & _ & _ & Hw & _). unfold reader in Hr.
  destruct (cn_links s !! c) as [l|] eqn:Hl; [|done]. cbn in Hr.
  assert (∀ f, cn_links s' = alter f c (cn_links s) → (link_ok c (phase (cn_writer s) c) l → link_ok c (phase (cn_writer s) c) (f l)) →
    linked s') as Hset.
  { intros f Hf Hok. apply (linked_alter s s' c f Hs Hf); rewrite Hw; [by left|]. intros l0. rewrite Hl. by intros [= <-]. }
  destruct (lk_reader l) as [|r| | |] eqn:Hpc; conn_cases Hr; cbn in Hset, Hw.
  all: try (apply (Hset _ eq_refl); intros [Lr Lb Lf Lo Lord Ld]; constructor; cbn; try done; try (by rewrite Hpc); fail).
  - apply (Hset _ eq_refl). intros [Lr Lb Lf Lo Lord Ld]. constructor; cbn; try done. intros _.
    destruct (Lord ltac:(by rewrite Hpc)) as (extra & Hx & He). exists extra. split; [|done]. cbn. rewrite Hx.
    unfold link_waiting, reader_hand. cbn. by rewrite Hpc, E.
  - apply (Hset (lk_reply r (serve c (take (S (lk_read l)) (lk_sent l))))).
    + destruct (note_stale_same (serve c (take (S (lk_read l)) (lk_sent l))) s) as [z ->]. done.
    + intros Hok. by apply link_ok_reply.
Qed.

Lemma phase_at pc c : current pc = None → phase pc c = None.
Proof. by destruct pc. Qed.

Ltac phases :=
  let c := fresh "c" in intros c; intros; cbn; repeat case_decide; subst; by auto.

Ltac wire_fact :=
  match goal with E : wire_ok _ _ _ = true |- _ => apply bool_decide_eq_true in E; exact E end.

Lemma writer_linked e s s' : placed s → writer e s = Some (Ok s') → linked s → linked s'.
Proof.
  intros Hp Hw Hs. writer_cases Hw Hp Hpc.
  all: try (apply (linked_goto s); [done|done|]; cbn; rewrite ?Hpc; phases).
  - intros c l [Hl|[Hge Hl]]%lookup_app_Some.
    + cbn. rewrite decide_False by (apply lookup_lt_Some in Hl; lia). by eapply link_ok_leave, Hs.
    + apply list_lookup_singleton_Some in Hl as [Hc <-]. cbn. rewrite decide_True by lia. apply new_link_ok.
  - eapply (linked_alter s _ c (lk_encode (rq_Multi r) (ev_wire e)) Hs); [done|cbn; rewrite Hpc; phases|]; cbn; rewrite Hpc.
    intros l0. rewrite Hl. intros [= <-]. cbn. rewrite !decide_True by done. intros Hok. apply link_ok_encode; [done|]. wire_fact.
  - eapply (linked_alter s _ c (lk_fail (ev_wire e)) Hs); [done|cbn; rewrite Hpc; phases|]; cbn; rewrite Hpc.
    intros l0. rewrite Hl. intros [= <-] Hok. eapply link_ok_fail; [done|]. wire_fact.
  - eapply (linked_alter s _ c lk_flush Hs); [done|cbn; rewrite Hpc; phases|]; cbn; rewrite Hpc. intros l0 _. apply link_ok_flush.
  - eapply (linked_alter s _ c (lk_fail (ev_wire e)) Hs); [done|cbn; rewrite Hpc; phases|]; cbn; rewrite Hpc.
    intros l0. rewrite Hl. intros [= <-] Hok. eapply link_ok_fail; [done|]. wire_fact.
  - eapply (linked_alter s _ c (lk_set_tasks (lk_tasks l ++ [r])) Hs); [done|cbn; rewrite Hpc; phases|]; cbn; rewrite Hpc.
    intros l0. rewrite Hl. intros [= <-]. cbn. rewrite !decide_True by done. intros Hok. apply link_ok_hand; [done|].
    rewrite (pl_open s Hp c l Hl), Hpc. apply bool_decide_false. cbn. by intros Hn.
  - eapply (linked_alter s _ c lk_close Hs); [done|cbn; rewrite Hpc; phases|]; cbn; rewrite Hpc.
    intros l0 _ [Lr Lb Lf Lo Lord Ld]. constructor; try done. intros Hd. split; [by apply Ld|done].
Qed.

Lemma step_linked a s s' : step a s = Some (Ok s') → placed s → linked s → linked s'.
Proof.
  assert (∀ r s s', conn_PushBack r s = Some (Ok s') → linked s → linked s') as Hpush.
  { unfold conn_PushBack. intros r s1 s2 Hs. by conn_cases Hs. }
  destruct a as [e|c e|r|ptr| | |]; cbn [BackendConn.step].
  - intros Hw Hp. by eapply writer_linked.
  - destruct (reader c e s) as [s1|] eqn:Hr; [|done]. intros [= <-] _. by eapply reader_linked.
  - intros Hs _. by eapply Hpush.
  - unfold conn_KeepAlive. case_decide; [by intros [= <-]|]. intros Hs _. by eapply Hpush.
  - by intros [= <-].
  - destruct (cn_inputClosed s) eqn:Hc; [|done]. by intros [= <-].
  - intros [= <-] _. unfold recovered. by case_decide.
Qed.

(** * No request is left behind *)

(** a request of a client that is gone was dropped on its way *)
Definition skipped (s : Conn) : Prop := ∃ r, (r, isBroken) ∈ cn_answers s.

(** the writer has still to come to a flush of link [c] *)
Definition flush_due (s : Conn) (c : nat) : Prop :=
  match cn_writer s with
  | WEncode c' _ | WFlush c' _ => c' = c
  | WRange c' | WHand c' _ => c' = c ∧ cn_input s ≠ []
  | _ => False
  end.

Record progress (s : Conn) : Prop := {
  pg_flush : ∀ c l, cn_links s !! c = Some l → (lk_flushed l < length (lk_sent l))%nat →
    lk_failed l = true ∨ skipped s ∨ flush_due s c;
  pg_hand : ∀ c r l, cn_writer s = WHand c r → cn_links s !! c = Some l → (lk_nbuffered l <= maxPipeline / 2)%nat;
}.

Lemma skipped_answer s r reply : skipped s → skipped (setResponse r reply s).
Proof. intros [r' Hr]. exists r'. cbn. apply elem_of_app. by left. Qed.

(** one link changes *)
Lemma progress_alter s s' c f :
  progress s → cn_links s' = alter f c (cn_links s) → (skipped s → skipped s') →
  (∀ c', c' ≠ c → flush_due s c' → flush_due s' c' ∨ skipped s') →
  (∀ l, cn_links s !! c = Some l → (lk_flushed (f l) < length (lk_sent (f l)))%nat →
     lk_failed (f l) = true ∨ skipped s' ∨ flush_due s' c) →
  (∀ c' r, cn_writer s' = WHand c' r → c' = c ∧ ∀ l, cn_links s !! c = Some l → (lk_nbuffered (f l) <= maxPipeline / 2)%nat) →
  progress s'.
Proof.
  intros [Pf Ph] Hl Hsk Hfd Hc Hh. constructor.
  - intros c' l'. rewrite Hl, list_lookup_alter. case_decide as Hcc.
    + subst. destruct (cn_links s !! c') as [l|] eqn:Hl0; [|done]. intros [= <-]. by apply Hc.
    + intros Hl' Hlt. destruct (Pf c' l' Hl' Hlt) as [?|[?|Hd]]; [by left|right; left; by apply Hsk|].
      destruct (Hfd c' ltac:(done) Hd); by auto.
  - intros c' r l' Hw. rewrite Hl, list_lookup_alter. destruct (Hh c' r Hw) as [-> Hn]. rewrite decide_True by done.
    destruct (cn_links s !! c) as [l|] eqn:Hl0; [|done]. intros [= <-]. by apply Hn.
Qed.

(** no link changes *)
Lemma progress_goto s s' :
  progress s → cn_links s' = cn_links s → (skipped s → skipped s') → (∀ c, flush_due s c → flush_due s' c ∨ skipped s') →
  (∀ c r l, cn_writer s' = WHand c r → cn_links s !! c = Some l → (lk_nbuffered l <= maxPipeline / 2)%nat) →
  progress s'.
Proof.
  intros [Pf Ph] Hl Hsk Hfd Hh. constructor; rewrite Hl; [|done].
  intros c l Hc Hlt. destruct (Pf c l Hc Hlt) as [?|[?|Hd]]; [by left|right; left; by apply Hsk|].
  destruct (Hfd c Hd); by auto.
Qed.

Lemma reader_progress c e s s' : reader c e s = Some s' → progress s → progress s'.
Proof.
  intros Hr Hs. destruct (reader_fields c e s s' Hr) as (Hi & _ & _ & _ & Hw & _).
  assert (∀ c, flush_due s c → flush_due s' c) as Hfd by (unfold flush_due; rewrite Hw, Hi; done).
  unfold reader in Hr. destruct (cn_links s !! c) as [l|] eqn:Hl; [|done]. cbn in Hr.
  assert (∀ f, cn_links s' = alter f c (cn_links s) → (skipped s → skipped s') →
    (∀ l, lk_flushed (f l) = lk_flushed l ∧ lk_sent (f l) = lk_sent l ∧ lk_failed (f l) = lk_failed l ∧ lk_nbuffered (f l) = lk_nbuffered l) →
    progress s') as Hset.
  { intros f Hf Hsk Heq. destruct Hs as [Pf Ph]. constructor.
    - intros c' l'. rewrite Hf, list_lookup_alter. destruct (decide (c = c')) as [Hc|Hc]; [subst c'|].
      + intros (l0 & Hl0 & ->)%fmap_Some. destruct (Heq l0) as (-> & -> & -> & _). intros Hlt.
        destruct (Pf c l0 Hl0 Hlt) as [?|[?|?]]; by auto.
      + intros Hl' Hlt. destruct (Pf c' l' Hl' Hlt) as [?|[?|?]]; by auto.
    - intros c' r l'. rewrite Hf, list_lookup_alter, Hw. destruct (decide (c = c')) as [Hc|Hc]; [subst c'|by apply Ph].
      intros Hwr (l0 & Hl0 & ->)%fmap_Some. destruct (Heq l0) as (_ & _ & _ & ->). by eapply Ph. }
  destruct (lk_reader l) as [|r| | |] eqn:Hpc; conn_cases Hr.
  all: try (apply (Hset _ eq_refl); [done|done]).
  all: try (apply (Hset _ eq_refl); [intros Hsk; apply skipped_answer; exact Hsk|done]).
  destruct (note_stale_same (serve c (take (S (lk_read l)) (lk_sent l))) s) as [z Hz].
  apply (Hset (lk_reply r (serve c (take (S (lk_read l)) (lk_sent l))))); [by rewrite Hz| |done].
  rewrite Hz. intros Hsk. apply skipped_answer. exact Hsk.
Qed.

Lemma writer_progress e s s' : placed s → writer e s = Some (Ok s') → progress s → progress s'.
Proof.
  intros Hp Hw Hs. writer_cases Hw Hp Hpc.
  all: try (apply (progress_goto s); [done|done|done| |done]; unfold flush_due; cbn; rewrite Hpc; by auto).
  all: try (apply (progress_goto s); [done|done|intros Hsk; apply skipped_answer; exact Hsk| |cbn; by rewrite ?Hpc];
            unfold flush_due; cbn; rewrite Hpc; by auto).
  - destruct Hs as [Pf Ph]. constructor; [|done]. intros c l [Hl|[Hge Hl]]%lookup_app_Some Hlt.
    + destruct (Pf c l Hl Hlt) as [?|[?|Hd]]; [by left|by right; left|]. unfold flush_due in Hd. by rewrite Hpc in Hd.
    + apply list_lookup_singleton_Some in Hl as [Hc <-]. cbn in Hlt. lia.
  - apply (progress_goto s); [done|done|done| |done]. unfold flush_due. rewrite Hpc. rew_input. by intros c' [_ ?].
  - apply (progress_goto s); [done|done|intros Hsk; apply skipped_answer; exact Hsk| |cbn; by rewrite Hpc].
    intros c' _. right. exists r. cbn. apply elem_of_app. right. by apply list_elem_of_singleton.
  - apply (progress_goto s); [done|done|done| |done]. unfold flush_due. cbn. rewrite Hpc. intros c' [-> _]. by left.
  - eapply (progress_alter s _ c (lk_encode (rq_Multi r) (ev_wire e)) Hs); [done|done| | |done].
    + unfold flush_due. rewrite Hpc. intros c' Hne. by intros ->.
    + intros l0 _ _. by right; right.
  - eapply (progress_alter s _ c (lk_fail (ev_wire e)) Hs); [done|intros Hsk; apply skipped_answer; exact Hsk| | |done].
    + unfold flush_due. rewrite Hpc. intros c' Hne. by intros ->.
    + by left.
  - eapply (progress_alter s _ c lk_flush Hs); [done|done| | |].
    + unfold flush_due. rewrite Hpc. intros c' Hne. by intros ->.
    + cbn. lia.
    + cbn. intros c' r' [= <- <-]. split; [done|]. intros l0 _. lia.
  - eapply (progress_alter s _ c (lk_fail (ev_wire e)) Hs); [done|intros Hsk; apply skipped_answer; exact Hsk| | |done].
    + unfold flush_due. rewrite Hpc. intros c' Hne. by intros ->.
    + by left.
  - match goal with E : _ || _ = false |- _ => apply orb_false_elim in E as [Hforce [Hneed _]%orb_false_elim] end.
    apply bool_decide_eq_false in Hforce, Hneed.
    apply (progress_goto s); [done|done|done| |].
    + unfold flush_due. cbn. rewrite Hpc. intros c' ->. by left.
    + cbn [goto cn_writer]. intros c' r' l0 [= <- <-]. rewrite Hl. intros [= <-]. lia.
  - eapply (progress_alter s _ c (lk_set_tasks (lk_tasks l ++ [r])) Hs); [done|done| | |done].
    + unfold flush_due. rewrite Hpc. intros c' Hne. by intros [-> _].
    + intros l0 Hl0. cbn. intros Hlt. destruct (pg_flush s Hs c l0 Hl0 Hlt) as [?|[?|Hd]]; [by left|by right; left|].
      right. right. unfold flush_due in *. by rewrite Hpc in Hd.
  - eapply (progress_alter s _ c lk_close Hs); [done|done| | |done].
    + unfold flush_due. by rewrite Hpc.
    + intros l0 Hl0. cbn. intros Hlt. destruct (pg_flush s Hs c l0 Hl0 Hlt) as [?|[?|Hd]]; [by left|by right; left|].
      unfold flush_due in Hd. by rewrite Hpc in Hd.
Qed.

Lemma step_progress a s s' : step a s = Some (Ok s') → placed s → progress s → progress s'.
Proof.
  assert (∀ r s s', conn_PushBack r s = Some (Ok s') → progress s → progress s') as Hpush.
  { unfold conn_PushBack. intros r s1 s2 Hs Hp. conn_cases Hs. apply (progress_goto s1); [done|done|done| |apply (pg_hand _ Hp)].
    unfold flush_due. cbn. destruct (cn_writer s1); try (by auto); intros c' [-> _]; left; split; [done|by destruct (cn_input s1)|done|by destruct (cn_input s1)]. }
  destruct a as [e|c e|r|ptr| | |]; cbn [BackendConn.step].
  - intros Hw Hp. by eapply writer_progress.
  - destruct (reader c e s) as [s1|] eqn:Hr; [|done]. intros [= <-] _. by eapply reader_progress.
  - intros Hs _. by eapply Hpush.
  - unfold conn_KeepAlive. case_decide; [by intros [= <-]|]. intros Hs _. by eapply Hpush.
  - intros [= <-] _ [Pf Ph]. by constructor.
  - destruct (cn_inputClosed s) eqn:Hc; [|done]. intros [= <-] _ [Pf Ph]. by constructor.
  - intros [= <-] _ [Pf Ph]. unfold recovered. case_decide; by constructor.
Qed.

(** * The theorems *)
Definition conn_inv (s : Conn) : Prop := placed s ∧ conserved s ∧ linked s ∧ progress s.

Lemma reach_conn_inv s : reach_conn s → conn_inv s.
Proof.
  assert (conn_inv newBackendConn) as Hnew.
  { split; [by constructor|]. split; [done|]. split; [done|]. by constructor. }
  intros Hr. unfold BackendConn.reach_conn in Hr. remember newBackendConn as s0. clear Heqs0.
  induction Hr as [|s0 s1 s2 [a Ha] _ IH]; [done|]. apply IH. destruct Hnew as (Hp & Hc & Hl & Hg).
  split; [by eapply step_placed|]. split; [by eapply step_conserved|]. split; [by eapply step_linked|by eapply step_progress].
Qed.

(** C16: no request is lost and none is answered twice: at every moment of every run of a
    connection's goroutines, whatever the network does, the requests pushed are those
    that wait in it and those answered, each once; and its goroutines never panic. *)
Theorem backend_exactly_once (s : Conn) : reach_conn s →
  cn_pushed s ≡ₚ waiting s ++ (cn_answers s).*1 ∧ ∀ e, writer e s ≠ Some Panic.
Proof. intros (Hp & [Hc _] & _)%reach_conn_inv. split; [done|]. intros e. by apply writer_no_panic. Qed.

(** C17: a reply is never given to the wrong request: the replies handed out are those
    read from the links, and the k-th reply read from a link after the greeting went to
    the request whose message was the k-th sent on it, and is the server's reply to
    that message. *)
Theorem backend_own_reply (s : Conn) : reach_conn s →
  successes s ≡ₚ concat (lk_replied <$> cn_links s) ∧
  ∀ c l k r resp, cn_links s !! c = Some l → lk_replied l !! k = Some (r, resp) →
    lk_sent l !! (length handshake + k)%nat = Some (rq_Multi r) ∧
    resp = serve c (take (S (length handshake + k)) (lk_sent l)).
Proof.
  intros (_ & [_ Hc] & Hl & _)%reach_conn_inv. split; [done|]. intros c l k r resp Hlk. by apply (lo_replied _ _ _ (Hl c l Hlk)).
Qed.

(** the goroutines can do nothing more while the network works; a link that has failed for
    the writer fails for the reader too *)
Definition quiet (s : Conn) : Prop :=
  (∀ e, ev_ok e = true → writer e s = None) ∧
  (∀ c l e, cn_links s !! c = Some l → ev_ok e = true ∨ lk_failed l = true → reader c e s = None).

Definition healthy (wire : nat) : env := mkEnv true false false true wire.

Lemma quiet_reader s c l : quiet s → cn_links s !! c = Some l → link_ok c (phase (cn_writer s) c) l →
  match lk_reader l with
  | RRange | RDrain => lk_tasks l = [] ∧ lk_tasksClosed l = false
  | RDecode _ => lk_failed l = false ∧ (lk_flushed l <= lk_read l < length (lk_sent l))%nat
  | RClose => False
  | RDone => lk_tasks l = [] ∧ lk_tasksClosed l = true
  end.
Proof.
  intros [_ Hq] Hl Hok. pose proof (Hq c l (healthy 0) Hl (or_introl eq_refl)) as Hr.
  pose proof (Hq c l (mkEnv false false false false 0) Hl) as Hf.
  unfold reader in Hr, Hf. rewrite Hl in Hr, Hf. cbn in Hr, Hf. destruct (lk_reader l) as [|r| | |] eqn:Hpc.
  - by destruct (lk_tasks l), (lk_tasksClosed l).
  - destruct (decide (lk_read l < lk_flushed l)%nat); [done|]. split.
    + destruct (lk_failed l); [|done]. by discriminate Hf; right.
    + split; [lia|]. destruct (lo_order _ _ _ Hok ltac:(by rewrite Hpc)) as (extra & Hs & _). rewrite Hs, (lo_read _ _ _ Hok).
      unfold link_waiting, reader_hand. rewrite Hpc, !length_app, length_fmap, !length_app, length_fmap. cbn. lia.
  - done.
  - by destruct (lk_tasks l), (lk_tasksClosed l).
  - by apply (lo_done _ _ _ Hok).
Qed.

(** handing over never blocks for ever: at most half as many messages as the channel holds
    are kept in the buffer, so the reader has something to read *)
Lemma quiet_hand s c r : conn_inv s → quiet s → cn_writer s ≠ WHand c r.
Proof.
  intros (Hp & _ & Hlk & Hg) Hq Hpc. destruct (placed_link s c Hp ltac:(by rewrite Hpc)) as [l Hl].
  pose proof (proj1 Hq (healthy 0) eq_refl) as Hw. unfold BackendConn.writer in Hw. rewrite Hpc, Hl in Hw. cbn in Hw.
  destruct (tasks_room maxPipeline l) eqn:Hroom; [done|]. apply orb_false_elim in Hroom as [Hfull Hrecv].
  apply bool_decide_eq_false in Hfull. pose proof (pl_open s Hp c l Hl) as Hopen. rewrite Hpc in Hopen. cbn in Hopen.
  rewrite bool_decide_false in Hopen by (intros Hn; by apply Hn).
  pose proof (Hlk c l Hl) as Hok. pose proof (quiet_reader s c l Hq Hl Hok) as Hrd.
  assert (lk_tasks l = [] → match lk_reader l with RRange | RDrain => False | _ => True end) as Hempty.
  { intros Ht. rewrite Ht in Hfull, Hrecv. cbn in Hfull. rewrite !bool_decide_true in Hrecv by (done || lia).
    by destruct (lk_reader l). }
  destruct (lk_reader l) as [|r'| | |] eqn:Hrpc; [by apply Hempty, Hrd| |done|by apply Hempty, Hrd|destruct Hrd; congruence].
  destruct (lo_order _ _ _ Hok ltac:(by rewrite Hrpc)) as (extra & Hs & _). apply (f_equal length) in Hs.
  unfold link_waiting, reader_hand, phase in Hs. rewrite Hrpc, Hpc, decide_True in Hs by done.
  rewrite !length_app, !length_fmap, !length_app, length_fmap in Hs. cbn in Hs.
  pose proof (lo_buffered _ _ _ Hok). pose proof (lo_read _ _ _ Hok). pose proof (pg_hand s Hg c r l Hpc Hl) as Hhalf.
  pose proof (Nat.Div0.div_le_upper_bound maxPipeline 2 maxPipeline). lia.
Qed.

(** the writer has come to rest: it waits for a request, or has stopped *)
Lemma quiet_writer s : conn_inv s → quiet s →
  (∃ c, cn_writer s = WRange c ∧ cn_input s = []) ∨ cn_writer s = WExit.
Proof.
  intros Hinv Hq. pose proof Hinv as (Hp & _ & Hlk & _). pose proof (λ w, proj1 Hq (healthy w) eq_refl) as Hw.
  destruct (cn_writer s) as [|c|c r|c r|c r|c err|c err|err [[|i]|]| | |] eqn:Hpc; [..|by right];
    try (destruct (placed_link s c Hp ltac:(by rewrite Hpc)) as [l Hl]);
    unfold BackendConn.writer in Hw; rewrite Hpc in Hw; rewrite ?Hl in Hw; cbn [mbind option_bind healthy ev_ok ev_timeout ev_wire] in Hw.
  all: try (specialize (Hw 0%nat); done).
  - specialize (Hw 0%nat). destruct (cn_closed s); [done|]. by destruct (_ && _).
  - left. exists c. split; [done|]. specialize (Hw 0%nat). destruct (cn_input s); [done|]. by destruct (_ && _).
  - specialize (Hw (lk_flushed l)). unfold wire_ok in Hw. cbn in Hw.
    rewrite bool_decide_true in Hw; [done|]. pose proof (lo_bounds _ _ _ (Hlk c l Hl)). lia.
  - specialize (Hw (lk_flushed l)).
    assert (wire_ok (healthy (lk_flushed l)) l (length (lk_sent l)) = true) as Hok.
    { apply bool_decide_true. cbn. pose proof (lo_bounds _ _ _ (Hlk c l Hl)). lia. }
    rewrite Hok in Hw. destruct (_ || _); [|done]. by destruct (lk_dead l).
  - by destruct (quiet_hand s c r Hinv Hq).
  - specialize (Hw 0%nat). pose proof (pl_drain s Hp _ _ Hpc) as Hd. destruct (cn_input s); [cbn in Hd; lia|done].
  - specialize (Hw 0%nat). case_decide; [done|]. by destruct (NextValue _).
  - specialize (Hw 0%nat). by destruct (cn_closed s).
Qed.

(** C18: no request waits for ever: when the goroutines of a connection can do nothing more
    although the network works, every request pushed has been answered, provided that no
    request was dropped because its client was gone, and that nothing was waiting when
    the connection was closed. *)
Theorem backend_all_answered (s : Conn) : reach_conn s → quiet s → ¬ skipped s →
  (cn_closed s = true → cn_input s = []) → waiting s = [] ∧ cn_pushed s ≡ₚ (cn_answers s).*1.
Proof.
  intros Hinv%reach_conn_inv Hq Hsk Hcl. pose proof Hinv as (Hp & [Hc _] & Hlk & Hg).
  assert (cn_input s = [] ∧ writer_hand (cn_writer s) = []) as [Hin Hhand].
  { destruct (quiet_writer s Hinv Hq) as [(c & -> & Hi)|Hx]; [done|]. rewrite Hx. split; [|done]. apply Hcl, (pl_exit s Hp Hx). }
  assert (waiting s = []) as Hw.
  { unfold waiting. rewrite Hin, Hhand. cbn. apply concat_nil_Forall, Forall_fmap, Forall_lookup. intros c l Hl. cbn.
    pose proof (quiet_reader s c l Hq Hl (Hlk c l Hl)) as Hr. unfold link_waiting, reader_hand.
    destruct (lk_reader l) as [|r| | |] eqn:Hpc; [by destruct Hr as [-> _]| |done|by destruct Hr as [-> _]..].
    destruct Hr as [Hf Hlt]. destruct (pg_flush s Hg c l Hl ltac:(lia)) as [?|[?|Hd]]; [congruence|done|].
    destruct (quiet_writer s Hinv Hq) as [(c' & Hx & Hi)|Hx]; unfold flush_due in Hd; rewrite Hx in Hd; [|done].
    by destruct Hd. }
  split; [done|]. by rewrite Hw in Hc.
Qed.

End theorems.

(** * Concrete runs *)
#[local] Instance echo_server : Server := { serve := λ _ ms, NewString (Some (FormatInt (Z.of_nat (length ms)))) }.

Definition demo_login : RedisAuthIdentity := mkLogin [] (bstr "secret").
Definition ask_for (ptr : Z) : Request := mkRequest [bulk (bstr "GET"); bulk (FormatInt ptr)] (bstr "GET") 0 3 0 None ptr.

(** environments: all is well; the client is gone; a failing network *)
Definition well (wire : nat) : env := mkEnv true false false true wire.
Definition gone : env := mkEnv true true false true 0.

(** two requests, the second taken before the first is answered *)
Definition demo_schedule : list action :=
  [DoPush (ask_for 1); DoPush (ask_for 2); DoWriter (well 0); DoWriter (well 0); DoWriter (well 2); DoWriter (well 0);
   DoWriter (well 0); DoWriter (well 0); DoWriter (well 2); DoWriter (well 0); DoReader 0 (well 0); DoReader 0 (well 0);
   DoWriter (well 0); DoReader 0 (well 0); DoReader 0 (well 0)].

Definition run_demo (l : list action) : Conn :=
  match run_actions demo_login 3 16 l newBackendConn with Some (Ok s) => s | _ => newBackendConn end.

Lemma run_actions_reach l s s' : rtc (stepped demo_login 3 16) newBackendConn s →
  run_actions demo_login 3 16 l s = Some (Ok s') → rtc (stepped demo_login 3 16) newBackendConn s'.
Proof.
  revert s. induction l as [|a l IH]; intros s Hs; cbn; [by intros [= <-]|].
  destruct (step demo_login 3 16 a s) as [[s1| |]|] eqn:Ha; [|done..]. apply IH. eapply rtc_r; [done|]. by exists a.
Qed.

Lemma run_demo_reach l : reach_conn demo_login 3 16 (run_demo l).
Proof.
  unfold run_demo. destruct (run_actions _ _ _ _ _) as [[s| |]|] eqn:Hl; [|apply rtc_refl..].
  by eapply run_actions_reach; [apply rtc_refl|].
Qed.

Lemma backend_exactly_once_witness :
  length (cn_answers (run_demo demo_schedule)) = 2%nat ∧
  cn_pushed (run_demo demo_schedule) ≡ₚ waiting (run_demo demo_schedule) ++ (cn_answers (run_demo demo_schedule)).*1.
Proof.
  split; [vm_compute; reflexivity|]. apply (backend_exactly_once demo_login 3 16 (run_demo demo_schedule)), run_demo_reach.
Defined.

Lemma backend_own_reply_witness :
  successes (run_demo demo_schedule) =
    [(ask_for 1, NewString (Some (bstr "3"))); (ask_for 2, NewString (Some (bstr "4")))] ∧
  successes (run_demo demo_schedule) ≡ₚ concat (lk_replied <$> cn_links (run_demo demo_schedule)).
Proof.
  split; [vm_compute; reflexivity|]. apply (backend_own_reply demo_login 3 16 (run_demo demo_schedule)), run_demo_reach.
Defined.

(** the only link of a run is at rest *)
Lemma quiet_run s l : cn_links s = [l] → (∀ e, ev_ok e = true → writer demo_login 3 16 e s = None) →
  (∀ e, ev_ok e = true ∨ lk_failed l = true → reader 0 e s = None) → quiet demo_login 3 16 s.
Proof.
  intros Hl Hw Hr. split; [done|]. intros [|c] l' e; rewrite Hl; [|done]. intros [= <-]. apply Hr.
Qed.

Lemma backend_all_answered_witness :
  waiting (run_demo demo_schedule) = [] ∧
  cn_pushed (run_demo demo_schedule) ≡ₚ (cn_answers (run_demo demo_schedule)).*1.
Proof.
  apply (backend_all_answered demo_login 3 16 (run_demo demo_schedule)).
  - apply run_demo_reach.
  - eapply quiet_run; [vm_compute; reflexivity|..].
    + intros e _. vm_compute. reflexivity.
    + intros e _. vm_compute. reflexivity.
  - intros [r Hr]. vm_compute in Hr. repeat (inversion Hr as [|? ? ? Hr']; clear Hr; rename Hr' into Hr).
  - discriminate.
Defined.

(** ** The two provisos are needed

    A request of a client that is gone is dropped without a flush, although the flush of
    the message before it was left to it: that message stays in the buffer until another
    request comes by. *)
Definition skip_schedule : list action :=
  [DoPush (ask_for 1); DoPush (ask_for 2); DoWriter (well 0); DoWriter (well 0); DoWriter (well 2); DoWriter (mkEnv true false false false 0);
   DoWriter (well 0); DoWriter gone; DoReader 0 (well 0)].

Theorem dropped_request_delays : ∃ s, reach_conn demo_login 3 16 s ∧ quiet demo_login 3 16 s ∧
  cn_closed s = false ∧ waiting s = [ask_for 1].
Proof.
  exists (run_demo skip_schedule). split; [apply run_demo_reach|]. split; [|split; vm_compute; reflexivity].
  eapply quiet_run; [vm_compute; reflexivity|..].
  - intros e _. vm_compute. reflexivity.
  - intros [ok b la ti w] [Hok|Hf]; [cbn in Hok; subst ok; vm_compute; reflexivity|discriminate Hf].
Qed.

(** A request pushed between two rounds of [run] is forgotten when the connection is closed
    before the next one. *)
Definition close_schedule : list action :=
  let fails := mkEnv false false false false 0 in
  [DoWriter fails; DoWriter fails; DoWriter fails; DoWriter fails; DoPush (ask_for 1); DoCloseInput; DoClosed; DoWriter fails].

Theorem closed_request_forgotten : ∃ s, reach_conn demo_login 3 16 s ∧ waiting s = [ask_for 1] ∧
  ∀ e c, writer demo_login 3 16 e s = None ∧ reader c e s = None.
Proof.
  exists (run_demo close_schedule). split; [apply run_demo_reach|]. split; [vm_compute; reflexivity|].
  intros e c. split; vm_compute; reflexivity.
Qed.
