(* ===== verification/Pipeline.v ===== *)
(** The loops of a session: request.go's [RequestChan] and session.go's [loopReader] and
    [loopWriter].

    The reader takes requests off the socket, handles each and queues it; the writer takes
    them off the queue, waits for their replies and writes these.  The two run
    concurrently and share the session and the proxy; [pstep] interleaves their turns, and
    lets the rest of the proxy change in between. *)

From S2P Require Import Prelude Bufio Resp Mapper Models Router RouterInv RouterTheorems Stream.
From S2P Require Import Forward ForwardTheorems HotKeyCache AuthBruteforce Limiter Session SessionState.
From S2P Require Import ClusterNodes SessionHandler SessionSafety.
(** * RequestChan *)
Record RequestChan (A : Type) := mkChan { ch_data : list A; ch_waits : Z; ch_closed : bool }.
Arguments mkChan {A}. Arguments ch_data {A}. Arguments ch_waits {A}. Arguments ch_closed {A}.

Definition NewRequestChan {A} : RequestChan A := mkChan [] 0 false.
Definition chan_Close {A} (c : RequestChan A) : RequestChan A := mkChan (ch_data c) (ch_waits c) true.
Definition Buffered {A} (c : RequestChan A) : Z := Z.of_nat (length (ch_data c)).

Definition lockedPushBack {A} (r : A) (c : RequestChan A) : outcome unit (RequestChan A) :=
  if ch_closed c then Panic else Ok (mkChan (ch_data c ++ [r]) (ch_waits c) (ch_closed c)).

(** [lockedPopFront]: a request, the end of a closed queue, or a wait *)
Inductive popped (A : Type) := Popped (r : A) (c : RequestChan A) | Ended | Waits (c : RequestChan A).
Arguments Popped {A}. Arguments Ended {A}. Arguments Waits {A}.

Definition lockedPopFront {A} (c : RequestChan A) : popped A :=
  match ch_data c with
  | [] => if ch_closed c then Ended else Waits (mkChan [] (ch_waits c + 1) (ch_closed c))
  | r :: data => Popped r (mkChan data (ch_waits c) (ch_closed c))
  end.

(** * What handled requests wait for *)

(** the keys of an MGET that were not in the cache *)
Fixpoint holes (values : list (option Resp)) : nat :=
  match values with [] => 0 | Some _ :: values => holes values | None :: values => S (holes values) end.

(** a closure is given as many replies as it waits for *)
Fixpoint co_ok (co : coalescer) : Prop :=
  match co with
  | CoSub _ f => ∀ subs, f subs ≠ Panic
  | CoGet _ => True
  | CoMGet values tokens known => length tokens = holes values ∧ length known = holes values
  | CoPlan _ inner => match inner with Some co => co_ok co | None => True end
  end.

Definition handled_ok (h : handled) : Prop :=
  match h with Handled _ (Some co) => co_ok co | _ => True end.

(** whatever the world, a value returned has the property *)
Definition yields {A} (m : HM A) (P : A → Prop) : Prop := ∀ w, okp m (λ a _, P a) w.

Lemma yields_bind {A B} (m : HM A) (k : A → HM B) Q P : yields m Q → (∀ a, Q a → yields (k a) P) → yields (m ≫= k) P.
Proof. intros Hm Hk w. apply okp_bind. eapply okp_mono; [apply Hm|]. intros a w' Ha. by apply Hk. Qed.

Lemma yields_any {A B} (m : HM A) (k : A → HM B) P : (∀ a, yields (k a) P) → yields (m ≫= k) P.
Proof. intros Hk. apply (yields_bind _ _ (λ _, True)); [by intros w a w'|auto]. Qed.

Lemma yields_ret {A} (a : A) (P : A → Prop) : P a → yields (mret a) P.
Proof. intros Ha w. by apply okp_ret. Qed.

Lemma yields_fail {A} e (P : A → Prop) : yields (fail e) P.
Proof. intros w. apply okp_fail. Qed.

Lemma yields_answer resp : yields (answer_ resp) handled_ok.
Proof. by apply yields_ret. Qed.

Lemma yields_answered (m : HM handled) : (∀ w, match (m w).1 with Ok (Handled _ (Some _)) => False | _ => True end) → yields m handled_ok.
Proof. intros Hm w a w' Ha. specialize (Hm w). rewrite Ha in Hm. by destruct a as [resp [co|]|]. Qed.

Section shapes.
Context (cfg : Config) `{Net} `{Addresses} `{MapRange} (ACLPasswordHash : bytes → string).
Context (sub_ptr : nat → Z) (fuel : nat) (fakeClusterNodeID : bytes → bytes → bytes) (nodes : clusterNodesProvider).
Context (ToUpper : bytes → bytes) (parse_error : string).

Lemma yields_settle m co : handled_ok (Handled None co) → yields (settle m co) handled_ok.
Proof. intros Hco. apply yields_any. intros f. apply yields_ret. by destruct (forwarded_resp f). Qed.

Lemma dispatch_all_length rs : yields (dispatch_all cfg fuel rs) (λ l, match l with Some l => length l = length rs | None => True end).
Proof.
  induction rs as [|r rs IH]; cbn [dispatch_all]; [by apply yields_ret|]. apply yields_any. intros f.
  destruct (forwarded_resp f); [|by apply yields_ret]. eapply yields_bind; [apply IH|]. intros [l|] Hl; apply yields_ret; cbn; congruence.
Qed.

(** the plans of the handlers put replies together without panics *)
Definition plan_ok (p : plan) : Prop := match p with Split _ f => ∀ subs, f subs ≠ Panic | _ => True end.

Lemma yields_perform r p : plan_ok p → yields (perform cfg sub_ptr fuel r p) handled_ok.
Proof.
  intros Hp. destruct p as [resp|multi|multi id|multi addr|sub f]; cbn [perform].
  - apply yields_answer.
  - by apply yields_settle.
  - by apply yields_settle.
  - apply yields_any. intros [|]; [by apply yields_ret|apply yields_answer].
  - apply yields_any. intros [known|]; by apply yields_ret.
Qed.

Lemma coalesce_mget_ok subs : coalesce_mget subs ≠ Panic.
Proof.
  unfold coalesce_mget. assert (mget_array subs ≠ Panic) as Hm; [|by destruct (mget_array subs)].
  induction subs as [|s subs IH]; [done|]. cbn. destruct (sub_resp s) as [resp|e|] eqn:Hs; cbn; [|done|by destruct s as [[]  []]].
  destruct (Array resp) as [[|x [|]]|]; try done. destruct (IsArray resp); [|done]. by destruct (mget_array subs).
Qed.

Lemma coalesce_mset_ok subs : coalesce_mset subs ≠ Panic.
Proof.
  unfold coalesce_mset. generalize (None : option Resp). induction subs as [|s subs IH]; intros acc; [done|]. cbn.
  destruct (sub_resp s) as [resp|e|] eqn:Hs; cbn; [|done|by destruct s as [[]  []]]. by destruct (IsString resp).
Qed.

Lemma coalesce_count_ok cmd add subs : coalesce_count cmd add subs ≠ Panic.
Proof.
  unfold coalesce_count. assert (∀ n, count_replies cmd add n subs ≠ Panic) as Hm; [|specialize (Hm 0); by destruct (count_replies cmd add 0 subs)].
  induction subs as [|s subs IH]; intros n; [done|]. cbn. destruct (sub_resp s) as [resp|e|] eqn:Hs; cbn; [|done|by destruct s as [[]  []]].
  destruct (Value resp) as [[|x [|]]|]; try done. by destruct (IsInt resp).
Qed.

Lemma plan_mget multi : plan_ok (handleRequestMGet multi).
Proof. destruct multi as [|m0 [|a [|b multi]]]; cbn; try done. apply coalesce_mget_ok. Qed.
Lemma plan_mset multi : plan_ok (handleRequestMSet multi).
Proof.
  unfold handleRequestMSet. case_decide; [done|]. case_decide; [done|]. destruct multi; [done|]. exact coalesce_mset_ok.
Qed.
Lemma plan_del multi : plan_ok (handleRequestDel multi).
Proof. destruct multi as [|m0 [|a [|b multi]]]; cbn; try done. apply coalesce_count_ok. Qed.
Lemma plan_exists multi : plan_ok (handleRequestExists multi).
Proof. destruct multi as [|m0 [|a [|b multi]]]; cbn; try done. apply coalesce_count_ok. Qed.
Lemma plan_ping n multi : plan_ok (handleRequestPing n multi).
Proof. by destruct multi as [|m0 [|a multi]]. Qed.
Lemma plan_info n multi : plan_ok (handleRequestInfo n multi).
Proof. by destruct multi as [|m0 [|a multi]]. Qed.
Lemma plan_slotsinfo multi : plan_ok (handleRequestSlotsInfo multi).
Proof. by destruct multi as [|m0 [|a [|]]]. Qed.
Lemma plan_slotsscan multi : plan_ok (handleRequestSlotsScan parse_error multi).
Proof. unfold handleRequestSlotsScan. repeat case_match; done. Qed.
Lemma plan_slotsmapping d multi : plan_ok (handleRequestSlotsMapping parse_error d multi).
Proof. unfold handleRequestSlotsMapping. repeat case_match; done. Qed.

Lemma mget_lookup_shape now r keys :
  yields (mget_lookup now r keys) (λ vm, length vm.2 = holes vm.1).
Proof.
  induction keys as [|a keys IH]; cbn [mget_lookup]; [by apply yields_ret|]. apply yields_any. intros [resp|].
  - eapply yields_bind; [apply IH|]. intros [values misses] Hm. by apply yields_ret.
  - apply yields_any. intros token. eapply yields_bind; [apply IH|]. intros [values misses] Hm. apply yields_ret. cbn in *. by rewrite Hm.
Qed.

Lemma yields_mget now r : yields (handleRequestMGetWithHotKeyCache cfg sub_ptr fuel now r) handled_ok.
Proof.
  unfold handleRequestMGetWithHotKeyCache. destruct (rq_Multi r) as [|m0 [|a keys]]; [by apply yields_perform..|].
  apply yields_any. intros enabled. destruct (negb enabled); [apply yields_perform, plan_mget|].
  eapply yields_bind; [apply mget_lookup_shape|]. intros [values misses] Hm. apply yields_any. intros [resp|]; [apply yields_answer|].
  eapply yields_bind; [apply dispatch_all_length|]. intros [known|] Hk; [|by apply yields_ret]. apply yields_ret. cbn.
  unfold sub_requests, MakeSubRequest in Hk. rewrite !length_fmap, length_imap, length_fmap in Hk. rewrite length_fmap. cbn in Hm. lia.
Qed.

Lemma yields_get now r : yields (handleRequestGet cfg fuel now r) handled_ok.
Proof.
  unfold handleRequestGet. apply yields_any. intros enabled. destruct (_ || _); [by apply yields_settle|].
  apply yields_any. intros [resp|].
  - apply yields_any. intros refused. apply yields_answer.
  - apply yields_any. intros [token|]; by apply yields_settle.
Qed.

Lemma yields_with_plan p m : yields m handled_ok → yields (with_plan p m) handled_ok.
Proof.
  intros Hm. eapply yields_bind; [apply Hm|]. intros [resp co|] Hco; apply yields_ret; [|done].
  destruct (negb (plan_active p)); [done|]. by destruct resp, co.
Qed.

Lemma yields_with_invalidation r m : yields m handled_ok → yields (with_invalidation r m) handled_ok.
Proof. intros Hm. apply yields_any. intros c. by apply yields_with_plan. Qed.

Lemma yields_local r m : yields m handled_ok → yields (local_cmd cfg r m) handled_ok.
Proof. intros Hm. apply yields_any. intros [resp|]; [apply yields_answer|done]. Qed.

Lemma yields_command now r :
  yields (handle_command cfg sub_ptr fuel fakeClusterNodeID nodes parse_error now r) handled_ok.
Proof.
  unfold handle_command.
  destruct (op_is _ "ACL").
  { unfold handleRequestACL. apply yields_any. intros acl. destruct (rq_Multi r) as [|m0 [|a [|]]]; try apply yields_answer.
    destruct (_ && _); [|apply yields_answer]. apply yields_any. intros [i|]; [|apply yields_answer].
    destruct (ai_Stale i); apply yields_answer. }
  destruct (op_is _ "SELECT").
  { assert (yields (handleSelectRequest cfg r) handled_ok) as Hs.
    { apply yields_answered. intros w. unfold handleSelectRequest. by destruct (handleSelect _ _ _). }
    destruct (rq_ACLIdentity r) as [[u h p rev st [db|]]|]; [apply yields_answer|by apply yields_local..]. }
  destruct (op_is _ "PING"); [apply yields_perform, plan_ping|]. destruct (op_is _ "INFO"); [apply yields_perform, plan_info|].
  destruct (op_is _ "CLIENT"); [apply yields_local, yields_any; intros w; apply yields_answer|].
  destruct (op_is _ "CLUSTER"); [apply yields_local; destruct (handleRequestCluster _ _ _); [apply yields_answer|apply yields_fail]|].
  destruct (op_is _ "GET"); [apply yields_get|].
  destruct (op_is _ "MGET"); [apply yields_mget|].
  destruct (op_is _ "MSET"); [apply yields_with_invalidation, yields_perform, plan_mset|].
  destruct (op_is _ "DEL"); [apply yields_with_invalidation, yields_perform, plan_del|].
  destruct (op_is _ "EXISTS"); [apply yields_perform, plan_exists|].
  destruct (op_is _ "SLOTSINFO"); [apply yields_perform, plan_slotsinfo|].
  destruct (op_is _ "SLOTSSCAN"); [apply yields_perform, plan_slotsscan|].
  destruct (op_is _ "SLOTSMAPPING"); [apply yields_local, yields_any; intros d; apply yields_perform, plan_slotsmapping|].
  destruct (isStreamCommand _).
  { unfold handleRequestStream. destruct (resolveStreamRoute _ _) as [route|resp|]; [|apply yields_answer|intros ? ? ? [=]].
    apply yields_any. intros c. by apply yields_with_plan, yields_settle. }
  by apply yields_with_invalidation, yields_settle.
Qed.

Lemma yields_auth now r : yields (handleAuth cfg ACLPasswordHash now r) handled_ok.
Proof.
  apply yields_any. intros [|].
  - unfold handleACLAuth. destruct (auth_args _) as [[u p]|]; [|apply yields_answer]. apply yields_any. intros [snap|]; [|apply yields_answer].
    destruct (negb _); [apply yields_answer|]. do 2 (apply yields_any; intros ?). apply yields_any. intros [|]; [apply yields_answer|].
    destruct (acl_user _ _ _); [|do 2 (apply yields_any; intros ?); apply yields_answer].
    destruct (match au_DB _ with Some _ => _ | None => _ end); [apply yields_answer|].
    do 4 (apply yields_any; intros ?). apply yields_answer.
  - unfold handleLegacyAuth. destruct (rq_Multi r) as [|m0 [|a [|]]]; try apply yields_answer.
    destruct (cf_SessionAuth cfg); [apply yields_answer|]. do 2 (apply yields_any; intros ?). apply yields_any. intros [|]; [apply yields_answer|].
    case_decide; do 2 (apply yields_any; intros ?); apply yields_answer.
Qed.

(** whatever is asked, the closure of the handled request fits what it waits for *)
Lemma yields_read now multi ptr :
  yields (read_request cfg ACLPasswordHash sub_ptr fuel fakeClusterNodeID nodes ToUpper parse_error now multi ptr) handled_ok.
Proof.
  unfold read_request. apply yields_any. intros ?. apply yields_any. intros database. unfold handleRequest.
  destruct (getOpInfo ToUpper multi) as [[opstr flag]|e|]; [|apply yields_fail|intros ? ? ? [=]].
  apply yields_any. intros ?. destruct (_ && _); [apply yields_fail|]. destruct (IsNotAllowed flag); [apply yields_fail|].
  destruct (op_is opstr "QUIT"); [apply yields_any; intros ?; apply yields_answer|].
  destruct (op_is opstr "AUTH"); [apply yields_auth|].
  apply yields_any. intros [r|]; [|apply yields_answer]. apply yields_any. intros [|]; [apply yields_command|apply yields_answer].
Qed.

(** * Replies are put together without panics *)
Lemma merge_replies_length known replies : length (merge_replies known replies) = length known.
Proof. revert replies. induction known as [|[resp|] known IH]; intros [|x replies]; cbn; auto. Qed.

(** the session and everything but the cache stay *)
Definition cache_only (w w' : HW) : Prop :=
  hw_session w' = hw_session w ∧ pw_fwd (hw_proxy w') = pw_fwd (hw_proxy w).

#[export] Instance cache_only_preorder : PreOrder cache_only.
Proof. split; [by intros w|]. intros w1 w2 w3 [? ?] [? ?]. split; congruence. Qed.

Definition calmly {A} (m : HM A) : Prop := ∀ w, wp m (λ o w', o ≠ Panic ∧ cache_only w w') w.

Lemma calmly_bind {A B} (m : HM A) (k : A → HM B) : calmly m → (∀ a, calmly (k a)) → calmly (m ≫= k).
Proof.
  intros Hm Hk w. apply wp_bind. eapply wp_mono; [apply Hm|]. intros [a|e|] w1 [Ho H1']; [|done..].
  eapply wp_mono; [apply Hk|]. intros o w2 [? ?]. split; [done|]. by etrans.
Qed.

Lemma calmly_ret {A} (a : A) : calmly (mret a).
Proof. by intros w. Qed.
Lemma calmly_fail {A} e : calmly (fail e : HM A).
Proof. by intros w. Qed.
Lemma calmly_lift {A} (o : outcome reqerr A) : o ≠ Panic → calmly (lift o).
Proof. by intros Ho w. Qed.
Lemma calmly_store now token resp : calmly (cache_store now token resp).
Proof. by intros w. Qed.

Lemma calmly_fill now values tokens subs : length tokens = holes values → length subs = holes values →
  calmly (fill_misses now values tokens subs).
Proof.
  revert tokens subs. induction values as [|[v|] values IH]; intros tokens subs Ht Hs; cbn in *; [apply calmly_ret| |].
  - apply calmly_bind; [by apply IH|]. intros rest. apply calmly_ret.
  - destruct tokens as [|token tokens], subs as [|s subs]; try done. cbn in *.
    apply calmly_bind; [apply calmly_lift, sub_resp_no_panic|]. intros resp.
    destruct (Array resp) as [[|x [|]]|]; try apply calmly_fail. destruct (IsArray resp); [|apply calmly_fail].
    apply calmly_bind; [apply calmly_store|]. intros _. apply calmly_bind; [apply IH; lia|]. intros rest. apply calmly_ret.
Qed.

Lemma calmly_plan now p inner own subs :
  match inner with Some co => calmly (coalesce now co own subs) | None => True end →
  calmly (coalesce now (CoPlan p inner) own subs).
Proof.
  intros Hi w. unfold wp. cbn.
  assert (calmly (match inner with Some co => coalesce now co own subs | None => mret own.2 end)) as Hin
    by (destruct inner; [done|apply calmly_ret]).
  specialize (Hin w). unfold wp in Hin. destruct (_ w) as [o w1]. cbn in *. split; apply Hin.
Qed.

Lemma calmly_coalesce now co own subs : co_ok co → calmly (coalesce now co own subs).
Proof.
  revert co. fix IH 1. intros [known f|token|values tokens known|p [co|]] Hco; cbn in Hco.
  - apply calmly_lift, Hco.
  - cbn. apply calmly_bind; [|intros _; apply calmly_ret]. destruct (own.1); [apply calmly_ret|apply calmly_store].
  - cbn. apply calmly_bind; [|intros l; apply calmly_ret]. apply calmly_fill; [apply Hco|]. rewrite merge_replies_length. apply Hco.
  - apply calmly_plan. exact (IH co Hco).
  - by apply calmly_plan.
Qed.

Lemma calmly_response now resp co own subs : handled_ok (Handled resp co) → calmly (handle_response now resp co own subs).
Proof.
  intros Hco. unfold handle_response. apply calmly_bind.
  - destruct co; [by apply calmly_coalesce|apply calmly_ret].
  - intros x. apply calmly_lift, sub_resp_no_panic.
Qed.

End shapes.

(** * The loops *)

(** a queued request: what it asked, and its [Resp] and [Coalesce] fields *)
Record task := mkTask { tk_multi : list Resp; tk_resp : option Resp; tk_co : option coalescer }.

(** a loop runs, has returned, has cleaned up; the writer remembers whether it failed *)
Inductive rloop := RLoop | RLeft | RGone.
Inductive wloop := WLoop | WLeft (err : bool) | WDraining (err : bool) | WGone (err : bool).

Record Pipe := mkPipe {
  pp_world : HW;
  pp_chan : RequestChan task;
  pp_reader : rloop;
  pp_writer : wloop;
  pp_in : list (list Resp);         (** the requests handled, for the theorems *)
  pp_done : list (task * Resp);     (** the replies written *)
}.

Definition pp_set_world (w : HW) (s : Pipe) : Pipe :=
  mkPipe w (pp_chan s) (pp_reader s) (pp_writer s) (pp_in s) (pp_done s).
Definition pp_set_chan (c : RequestChan task) (s : Pipe) : Pipe :=
  mkPipe (pp_world s) c (pp_reader s) (pp_writer s) (pp_in s) (pp_done s).
Definition pp_set_reader (r : rloop) (s : Pipe) : Pipe :=
  mkPipe (pp_world s) (pp_chan s) r (pp_writer s) (pp_in s) (pp_done s).
Definition pp_set_writer (w : wloop) (s : Pipe) : Pipe :=
  mkPipe (pp_world s) (pp_chan s) (pp_reader s) w (pp_in s) (pp_done s).
Definition pp_wrote (t : task) (resp : Resp) (s : Pipe) : Pipe :=
  mkPipe (pp_world s) (pp_chan s) (pp_reader s) (pp_writer s) (pp_in s) (pp_done s ++ [(t, resp)]).

Section loops.
Context (cfg : Config) `{Net} `{Addresses} `{MapRange} (ACLPasswordHash : bytes → string).
Context (sub_ptr : nat → Z) (fuel : nat) (fakeClusterNodeID : bytes → bytes → bytes) (nodes : clusterNodesProvider).
Context (ToUpper : bytes → bytes) (parse_error : string).
(** [SessionBreakOnFailure] and [SessionMaxPipeline], and the texts of the two error replies *)
Context (breakOnFailure : bool) (maxPipelineLen : Z) (request_error response_error : reqerr → Resp).

Abbreviation read_request := (read_request cfg ACLPasswordHash sub_ptr fuel fakeClusterNodeID nodes ToUpper parse_error).

(** [tasks.PushBack(r)] *)
Definition queue_task (t : task) (s : Pipe) : outcome unit Pipe :=
  match lockedPushBack t (pp_chan s) with
  | Ok c => Ok (mkPipe (pp_world s) c (pp_reader s) (pp_writer s) (pp_in s ++ [tk_multi t]) (pp_done s))
  | Err e => Err e
  | Panic => Panic
  end.

(** a turn of [loopReader], given what [DecodeMultiBulk] returns; then [tasks.Close()] *)
Definition pipe_read (now ptr : Z) (decoded : option (list Resp)) (s : Pipe) : option (outcome unit Pipe) :=
  match pp_reader s with
  | RLoop =>
      if se_quit (hw_session (pp_world s)) then Some (Ok (pp_set_reader RLeft s))
      else match decoded with
      | None => Some (Ok (pp_set_reader RLeft s))
      | Some [] => Some (Ok s)
      | Some multi =>
          if maxPipelineLen <? Buffered (pp_chan s) then Some (Ok (pp_set_reader RLeft s))
          else match read_request now multi ptr (pp_world s) with
          | (Panic, _) => Some Panic
          | (Ok Spinning, _) => None
          | (Ok (Handled resp co), w) => Some (queue_task (mkTask multi resp co) (pp_set_world w s))
          | (Err e, w) =>
              Some (queue_task (mkTask multi (Some (request_error e)) None)
                      (pp_set_reader (if breakOnFailure then RLeft else RLoop) (pp_set_world w s)))
          end
      end
  | RLeft => Some (Ok (pp_set_reader RGone (pp_set_chan (chan_Close (pp_chan s)) s)))
  | RGone => None
  end.

(** a turn of [loopWriter], given the replies the request waited for and whether the
    socket takes the reply; then its deferred function *)
Definition pipe_write (now : Z) (own : subreply) (subs : list subreply) (ok : bool) (s : Pipe)
    : option (outcome unit Pipe) :=
  match pp_writer s with
  | WLoop =>
      match lockedPopFront (pp_chan s) with
      | Waits _ => None
      | Ended => Some (Ok (pp_set_writer (WLeft false) s))
      | Popped t c =>
          let own := match tk_resp t with Some _ => (None, None) | None => own end in
          let s := pp_set_chan c s in
          let encode (resp : Resp) s := if ok then pp_wrote t resp s else pp_set_writer (WLeft true) s in
          match handle_response now (tk_resp t) (tk_co t) own subs (pp_world s) with
          | (Panic, _) => Some Panic
          | (Ok resp, w) => Some (Ok (encode resp (pp_set_world w s)))
          | (Err e, w) =>
              let s := encode (response_error e) (pp_set_world w s) in
              Some (Ok (if breakOnFailure then pp_set_writer (WLeft true) s else s))
          end
      end
  | WLeft err =>
      let w := pp_world s in
      Some (Ok (pp_set_writer (WDraining err) (pp_set_world (mkHW (clearACLIdentity (hw_session w)) (hw_proxy w)) s)))
  | WDraining err =>
      match lockedPopFront (pp_chan s) with
      | Waits _ => None
      | Ended => Some (Ok (pp_set_writer (WGone err) s))
      | Popped t c => Some (Ok (pp_set_chan c s))
      end
  | WGone _ => None
  end.

(** the proxy and the session are in order *)
Definition world_ok (w : HW) : Prop :=
  reach_router (fw_router (pw_fwd (hw_proxy w))) ∧
  session_ok cfg (aclAuthEnabled cfg (pw_fwd (hw_proxy w))) (hw_session w).

Inductive pipe_step (s : Pipe) : Pipe → Prop :=
| pipe_reads now ptr decoded s' : pipe_read now ptr decoded s = Some (Ok s') → pipe_step s s'
| pipe_writes now own subs ok s' : pipe_write now own subs ok s = Some (Ok s') → pipe_step s s'
| pipe_changes w : world_ok w → pipe_step s (pp_set_world w s).

(** [Session.Start] *)
Definition new_pipe (w : HW) : Pipe := mkPipe w NewRequestChan RLoop WLoop [] [].
Definition reach_pipe (s : Pipe) : Prop := ∃ w, world_ok w ∧ rtc pipe_step (new_pipe w) s.

(** * The queue is a queue *)
Definition task_ok (t : task) : Prop := handled_ok (Handled (tk_resp t) (tk_co t)).

Record pipe_inv (s : Pipe) : Prop := {
  pi_world : world_ok (pp_world s);
  pi_tasks : Forall task_ok (ch_data (pp_chan s));
  pi_open : ch_closed (pp_chan s) = true → pp_reader s = RGone;
  pi_order : pp_writer s = WLoop → tk_multi <$> (pp_done s).*1 ++ ch_data (pp_chan s) = pp_in s;
  pi_prefix : (tk_multi <$> (pp_done s).*1) `prefix_of` pp_in s;
  pi_ended : ∀ err, pp_writer s = WLeft err ∨ pp_writer s = WDraining err ∨ pp_writer s = WGone err → err = false →
    tk_multi <$> (pp_done s).*1 = pp_in s ∧ ch_closed (pp_chan s) = true;
  pi_known : ∀ t resp x, (t, resp) ∈ pp_done s → tk_resp t = Some x → tk_co t = None → resp = x;
}.

Lemma read_world now multi ptr w : world_ok w →
  wp (read_request now multi ptr) (λ o w', o ≠ Panic ∧ world_ok w') w.
Proof.
  intros [Hrt Hs]. set (f0 := pw_fwd (hw_proxy w)) in *. unfold SessionHandler.read_request, on_session, get_session.
  apply wp_bind, wp_modify. apply wp_bind, wp_gets. cbn [hw_session].
  eapply wp_mono; [apply (handleRequest_wp cfg ACLPasswordHash sub_ptr fuel fakeClusterNodeID nodes ToUpper parse_error f0); [done|apply Hs|]|].
  - split; [apply logged_refl|]. split; [|done]. revert Hs. apply session_ok_same; [done|by left].
  - intros o w' [Ho ((Hr & Ha & _) & Hs' & _)]. split; [done|]. split; [by rewrite Hr|].
    unfold aclAuthEnabled in *. by rewrite Ha.
Qed.

Lemma cache_only_world w w' : cache_only w w' → world_ok w → world_ok w'.
Proof. intros [Hs Hf] Hw. unfold world_ok in *. by rewrite Hs, Hf. Qed.

(** a request queued, after the reader's turn *)
Lemma queue_inv t s w rd s' : pipe_inv s → world_ok w → task_ok t → pp_reader s = RLoop →
  queue_task t (pp_set_reader rd (pp_set_world w s)) = Ok s' → pipe_inv s'.
Proof.
  intros [Iw It Io Ior Ip Ie Ik] Hw Ht Hrd. unfold queue_task, lockedPushBack. cbn.
  destruct (ch_closed (pp_chan s)) eqn:Hc; [done|]. intros [= <-]. constructor; cbn; try done.
  - apply Forall_app. split; [done|]. by apply Forall_singleton.
  - intros Hwr. rewrite app_assoc, fmap_app, Ior by done. done.
  - by apply prefix_app_r.
  - intros err Hwr He. destruct (Ie err Hwr He) as [_ Hx]. congruence.
Qed.

Lemma pipe_read_inv now ptr decoded s : pipe_inv s →
  match pipe_read now ptr decoded s with Some (Ok s') => pipe_inv s' | Some Panic => False | _ => True end.
Proof.
  intros Hinv. pose proof Hinv as [Iw It Io Ior Ip Ie Ik]. unfold pipe_read. destruct (pp_reader s) eqn:Hrd; [|constructor; cbn; try done; intros err Hw He; by destruct (Ie err Hw He)|done].
  assert (pipe_inv (pp_set_reader RLeft s)) as Hleft.
  { constructor; cbn; try done. intros Hc. by specialize (Io Hc). }
  destruct (se_quit _); [done|]. destruct decoded as [[|m0 multi]|]; [done| |done].
  destruct (maxPipelineLen <? _); [done|].
  pose proof (read_world now (m0 :: multi) ptr (pp_world s) Iw) as Hwp. unfold wp in Hwp.
  pose proof (yields_read cfg ACLPasswordHash sub_ptr fuel fakeClusterNodeID nodes ToUpper parse_error now (m0 :: multi) ptr (pp_world s)) as Hy.
  destruct (read_request now (m0 :: multi) ptr (pp_world s)) as [[[resp co|]|e|] w] eqn:Hr; cbn in Hwp; destruct Hwp as [Hp Hw]; [| |..|done].
  - specialize (Hy _ _ Hr). cbn in Hy.
    assert (pp_set_world w s = pp_set_reader RLoop (pp_set_world w s)) as Heq by (unfold pp_set_world, pp_set_reader; cbn; by rewrite Hrd).
    rewrite Heq. destruct (queue_task _ _) as [s'| |] eqn:Hq; [exact (queue_inv (mkTask (m0 :: multi) resp co) s w RLoop s' Hinv Hw Hy Hrd Hq)|done|].
    unfold queue_task, lockedPushBack in Hq. cbn in Hq. destruct (ch_closed (pp_chan s)) eqn:Hc; [by specialize (Io eq_refl)|done].
  - done.
  - destruct (queue_task _ _) as [s'| |] eqn:Hq; [exact (queue_inv (mkTask (m0 :: multi) (Some (request_error e)) None) s w _ s' Hinv Hw I Hrd Hq)|done|].
    unfold queue_task, lockedPushBack in Hq. cbn in Hq. destruct (ch_closed (pp_chan s)) eqn:Hc; [by specialize (Io eq_refl)|done].
Qed.

(** a request taken off the queue: its reply is written, or the writer gives up *)
Lemma popped_inv s t data w resp (ok : bool) : pipe_inv s → pp_writer s = WLoop → ch_data (pp_chan s) = t :: data → world_ok w →
  (∀ x, tk_resp t = Some x → tk_co t = None → resp = x) →
  let s1 := pp_set_world w (pp_set_chan (mkChan data (ch_waits (pp_chan s)) (ch_closed (pp_chan s))) s) in
  pipe_inv (pp_wrote t resp s1) ∧ pipe_inv (pp_set_writer (WLeft true) (if ok then pp_wrote t resp s1 else s1)).
Proof.
  intros [Iw It Io Ior Ip Ie Ik] Hwr Hd Hw Hx s1. rewrite Hd in It, Ior. apply Forall_cons in It as [Ht It].
  specialize (Ior Hwr).
  assert (tk_multi <$> (pp_done s ++ [(t, resp)]).*1 ++ data = pp_in s) as Hor.
  { rewrite <- Ior. f_equal. rewrite fmap_app, <- app_assoc. done. }
  assert ((tk_multi <$> (pp_done s ++ [(t, resp)]).*1) `prefix_of` pp_in s) as Hpre.
  { exists (tk_multi <$> data). by rewrite <- Hor, <- fmap_app. }
  assert (∀ t' resp' x, (t', resp') ∈ pp_done s ++ [(t, resp)] → tk_resp t' = Some x → tk_co t' = None → resp' = x) as Hk.
  { intros t' resp' x [Hin|Hin]%elem_of_app; [by apply Ik|]. apply list_elem_of_singleton in Hin as [= -> ->]. apply Hx. }
  split.
  - constructor; cbn; try done. intros err. rewrite Hwr. by intros [?|[?|?]].
  - destruct ok; constructor; cbn; try done; by intros err [[= <-]|[?|?]].
Qed.

Lemma pipe_write_inv now own subs ok s : pipe_inv s →
  match pipe_write now own subs ok s with Some (Ok s') => pipe_inv s' | Some Panic => False | _ => True end.
Proof.
  intros Hinv. pose proof Hinv as [Iw It Io Ior Ip Ie Ik]. unfold pipe_write.
  destruct (pp_writer s) as [|err|err|err] eqn:Hwr; [| | |done].
  - unfold lockedPopFront. destruct (ch_data (pp_chan s)) as [|t data] eqn:Hd.
    + destruct (ch_closed (pp_chan s)) eqn:Hc; [|done]. constructor; cbn; try done; [by rewrite Hd|by intros _; apply Io|].
      intros err _ _. rewrite <- Ior, app_nil_r by done. done.
    + pose proof (λ w resp b, popped_inv s t data w resp b Hinv Hwr Hd) as Hpop. set (c := mkChan data _ _) in *.
      apply Forall_cons in It as [Ht _].
      set (own' := match tk_resp t with Some _ => _ | None => own end).
      pose proof (calmly_response now (tk_resp t) (tk_co t) own' subs Ht (pp_world s)) as Hcalm. unfold wp in Hcalm.
      assert (∀ x, tk_resp t = Some x → tk_co t = None →
        handle_response now (tk_resp t) (tk_co t) own' subs (pp_world s) = (Ok x, pp_world s)) as Hknown.
      { intros x Hx Hco. unfold own'. by rewrite Hx, Hco. }
      change (pp_world (pp_set_chan c s)) with (pp_world s).
      destruct (handle_response now (tk_resp t) (tk_co t) own' subs (pp_world s)) as [[resp|e|] w]; cbn [fst snd] in Hcalm;
        destruct Hcalm as [Hp Hw%cache_only_world]; try done.
      * destruct (Hpop w resp ok) as [H1' H2']; [done|intros x Hx Hco; by injection (Hknown x Hx Hco)|]. by destruct ok.
      * destruct (Hpop w (response_error e) ok) as [H1' H2']; [done|intros x Hx Hco; discriminate (Hknown x Hx Hco)|].
        by destruct breakOnFailure, ok.
  - constructor; cbn; try done; [|intros err' [?|[[= <-]|?]] He; [done| |done]; by apply (Ie err); [left|]].
    destruct Iw as [Hrt Hs]. split; [done|]. revert Hs. apply session_ok_same; [done|by right].
  - unfold lockedPopFront. destruct (ch_data (pp_chan s)) as [|t data] eqn:Hd.
    + destruct (ch_closed (pp_chan s)) eqn:Hc; [|done]. constructor; cbn; rewrite ?Hd; try done; [by intros _; apply Io|].
      intros err' [?|[?|[= <-]]] He; [done..|]. split; [|done]. apply (Ie err); [by right; left|done].
    + apply Forall_cons in It as [Ht It]. constructor; cbn; rewrite ?Hwr; try done.
Qed.

Lemma pipe_step_inv s s' : pipe_step s s' → pipe_inv s → pipe_inv s'.
Proof.
  intros Hst Hinv. destruct Hst as [now ptr decoded s' Hr|now own subs ok s' Hr|w' Hw'].
  - pose proof (pipe_read_inv now ptr decoded s Hinv) as Hi. by rewrite Hr in Hi.
  - pose proof (pipe_write_inv now own subs ok s Hinv) as Hi. by rewrite Hr in Hi.
  - destruct Hinv as [Iw It Io Ior Ip Ie Ik]. by constructor.
Qed.

Lemma reach_pipe_inv s : reach_pipe s → pipe_inv s.
Proof.
  intros (w & Hw & Hs). assert (pipe_inv (new_pipe w)) as Hnew.
  { constructor; cbn; try done; [by intros err [?|[?|?]]|]. intros t resp x Hin. by apply not_elem_of_nil in Hin. }
  revert Hnew. induction Hs as [s|s1 s2 s3 Hst _ IH]; [done|]. intros Hi. by eapply IH, pipe_step_inv.
Qed.

(** C19: pipelined requests are answered in order: in every interleaving of a session's two
    loops, where reading and handling a request is one step and the routing table, the cache
    or the ACL may change between two steps, the k-th
    reply written answers the k-th request read, a reply that was known when the request
    was handled is written as it is, and when the writer ends without an error every
    request handled was answered; neither loop ever panics in such a step (an update of the ACL
    in the middle of one is another matter, see [push_after_SetACL]). *)
Theorem pipeline_in_order (s : Pipe) : reach_pipe s →
  (∀ k t resp, pp_done s !! k = Some (t, resp) →
     pp_in s !! k = Some (tk_multi t) ∧ (∀ x, tk_resp t = Some x → tk_co t = None → resp = x)) ∧
  (pp_writer s = WGone false → length (pp_done s) = length (pp_in s)) ∧
  (∀ now ptr decoded, pipe_read now ptr decoded s ≠ Some Panic) ∧
  (∀ now own subs ok, pipe_write now own subs ok s ≠ Some Panic).
Proof.
  intros Hinv%reach_pipe_inv. pose proof Hinv as [Iw It Io Ior Ip Ie Ik]. split; [|split; [|split]].
  - intros k t resp Hk. split.
    + eapply prefix_lookup_Some; [|done]. by rewrite !list_lookup_fmap, Hk.
    + intros x. apply (Ik t resp x). by eapply list_elem_of_lookup_2.
  - intros Hg. destruct (Ie false) as [<- _]; [by right; right|done|]. by rewrite !length_fmap.
  - intros now ptr decoded Hr. pose proof (pipe_read_inv now ptr decoded s Hinv) as Hi. by rewrite Hr in Hi.
  - intros now own subs ok Hr. pose proof (pipe_write_inv now own subs ok s Hinv) as Hi. by rewrite Hr in Hi.
Qed.

End loops.

(** * A concrete session: two requests are read before the first is answered, then QUIT *)
#[local] Existing Instance demo_net.
#[local] Existing Instance demo_addresses.
#[local] Existing Instance demo_range.

Inductive turn := TRead (decoded : option (list Resp)) | TWrite (own : subreply).

Definition run_turn (t : turn) : Pipe → option (outcome unit Pipe) :=
  match t with
  | TRead decoded =>
      pipe_read demo_cfg string_of_bytes Z.of_nat 8 (λ t a, t ++ a) demo_nodes (map upper_byte) "syntax error"
        false 16 (λ _, errorf "ERR handle request") 1000 4096 decoded
  | TWrite own => pipe_write false (λ _, errorf "ERR handle response") 2000 own [] true
  end.

Fixpoint run_turns (l : list turn) (s : Pipe) : Pipe :=
  match l with
  | [] => s
  | t :: l => match run_turn t s with Some (Ok s') => run_turns l s' | _ => s end
  end.

Definition demo_turns : list turn :=
  let reply := (None, Some (bulk (bstr "v"))) in
  [TRead (Some demo_multi); TRead (Some [bulk (bstr "SELECT"); bulk (bstr "1")]); TWrite reply;
   TRead (Some [bulk (bstr "QUIT")]); TRead None; TRead None; TWrite reply; TWrite reply; TWrite reply; TWrite reply; TWrite reply].

Definition demo_end : Pipe := run_turns demo_turns (new_pipe demo_world).

Abbreviation demo_reach := (reach_pipe demo_cfg string_of_bytes Z.of_nat 8 (λ t a, t ++ a) demo_nodes (map upper_byte)
  "syntax error" false 16 (λ _, errorf "ERR handle request") (λ _, errorf "ERR handle response")).

Lemma run_turns_reach l s : demo_reach s → demo_reach (run_turns l s).
Proof.
  revert s. induction l as [|t l IH]; intros s Hs; cbn; [done|]. destruct (run_turn t s) as [[s'| |]|] eqn:Ht; [|done..].
  apply IH. destruct Hs as (w & Hw & Hs). exists w. split; [done|]. eapply rtc_r; [done|].
  destruct t; [by eapply pipe_reads|by eapply pipe_writes].
Qed.

Lemma pipeline_in_order_witness :
  (pp_done demo_end).*2 = [bulk (bstr "v"); RespOK; RespOK] ∧ pp_writer demo_end = WGone false ∧
  length (pp_done demo_end) = length (pp_in demo_end).
Proof.
  split; [vm_compute; reflexivity|]. assert (Hw : pp_writer demo_end = WGone false) by (vm_compute; reflexivity). split; [exact Hw|].
  apply (pipeline_in_order demo_cfg string_of_bytes Z.of_nat 8 (λ t a, t ++ a) demo_nodes (map upper_byte)
    "syntax error" false 16 (λ _, errorf "ERR handle request") (λ _, errorf "ERR handle response") demo_end); [|exact Hw].
  apply run_turns_reach. exists demo_world. split; [|apply rtc_refl]. split; [apply reach_rop, reach_new|].
  split; [split; [apply Z.leb_le|apply Z.ltb_lt]; reflexivity|]. split; [discriminate|reflexivity].
Defined.
