(* ===== verification/SlotLock.v ===== *)
(** The lock of a slot: slots.go ([blockAndWait], [unblock]) against forward.go.

    Requests enter a slot under the read half of its lock, count themselves in its wait
    group [refs] when they are handed to a connection, leave the lock, and are counted out
    when they are answered ([setResponse]); one that its connection drops is never counted
    out.  The method is read before the lock.  Filling the slot takes the write half, waits
    for [refs], changes the slot and opens it again, unless the slot is to stay locked.
    [lstep] interleaves any number of requests with the fills, which the router's own
    mutex runs one at a time. *)

From S2P Require Import Prelude.
(** [T] is what a fill changes under the lock: the servers and the source of a migration;
    [F] is the method *)
Section lock.
Context {T F : Type}.

(** a request with the method it read: before the lock, inside, counted in [refs] with the
    slot it was forwarded by, out of the lock, handed to the connection, dropped by it
    without an answer, over *)
Inductive rphase :=
| QWant (m : F)
| QIn (m : F)
| QAdded (t : T) (m : F)
| QOut (t : T) (m : F)
| QPushed (t : T) (m : F)
| QLost (t : T) (m : F)
| QOver.

(** a fill: none, about to lock, in [Lock()], in [refs.Wait()], changing the servers, the
    method unless it is nil, ending *)
Inductive fphase :=
| FIdle
| FBegin (t : T) (m : option F) (locked : bool)
| FLock (t : T) (m : option F) (locked : bool)
| FWait (t : T) (m : option F) (locked : bool)
| FSet (t : T) (m : option F) (locked : bool)
| FMethod (m : option F) (locked : bool)
| FEnd (locked : bool).

Record SlotLock := mkLock {
  sl_target : T;
  sl_method : F;
  sl_hold : bool;      (** [lock.hold] *)
  sl_writing : bool;   (** the write half is held *)
  sl_refs : Z;
  sl_fill : fphase;
  sl_requests : list rphase;
}.

(** under the read half; in [refs]; forwarded by *)
Definition inside (q : rphase) : bool := match q with QIn _ | QAdded _ _ => true | _ => false end.
Definition counted_in (q : rphase) : bool := match q with QAdded _ _ | QOut _ _ | QPushed _ _ | QLost _ _ => true | _ => false end.
Definition lost (q : rphase) : bool := match q with QLost _ _ => true | _ => false end.
Definition forwarded_by (q : rphase) : option T :=
  match q with QAdded t _ | QOut t _ | QPushed t _ | QLost t _ => Some t | _ => None end.

Definition set_request (i : nat) (q : rphase) (refs : Z) (s : SlotLock) : SlotLock :=
  mkLock (sl_target s) (sl_method s) (sl_hold s) (sl_writing s) refs (sl_fill s) (<[i := q]> (sl_requests s)).
Definition set_fill (f : fphase) (s : SlotLock) : SlotLock :=
  mkLock (sl_target s) (sl_method s) (sl_hold s) (sl_writing s) (sl_refs s) f (sl_requests s).

(** [RLock] waits for a writer, and for one that waits *)
Definition may_enter (s : SlotLock) : bool :=
  negb (sl_writing s) && match sl_fill s with FLock _ _ _ => false | _ => true end.

(** what becomes of a request inside: forwarded, or over, or to be tried again with the
    method it has; and of one that was pushed: answered, or dropped *)
Inductive verdict := Forwarded | Settled | Again | Dropped.

(** the next step of the [i]-th request; [None] when it must wait *)
Definition request_step (i : nat) (v : verdict) (s : SlotLock) : option SlotLock :=
  q ← sl_requests s !! i;
  match q with
  | QWant m => if may_enter s then Some (set_request i (QIn m) (sl_refs s) s) else None
  | QIn m =>
      Some (match v with
            | Forwarded | Dropped => set_request i (QAdded (sl_target s) m) (sl_refs s + 1) s
            | Settled => set_request i QOver (sl_refs s) s
            | Again => set_request i (QWant m) (sl_refs s) s
            end)
  | QAdded t m => Some (set_request i (QOut t m) (sl_refs s) s)
  | QOut t m => Some (set_request i (QPushed t m) (sl_refs s) s)
  | QPushed t m => Some (if v is Dropped then set_request i (QLost t m) (sl_refs s) s else set_request i QOver (sl_refs s - 1) s)
  | QLost _ _ | QOver => None
  end.

(** the next step of the fill: [blockAndWait], the changes, [unblock] *)
Definition fill_step (s : SlotLock) : option SlotLock :=
  match sl_fill s with
  | FIdle => None
  | FBegin t m locked =>
      if sl_hold s then Some (set_fill (FWait t m locked) s)
      else Some (mkLock (sl_target s) (sl_method s) true (sl_writing s) (sl_refs s) (FLock t m locked) (sl_requests s))
  | FLock t m locked =>
      if sl_writing s || existsb inside (sl_requests s) then None
      else Some (mkLock (sl_target s) (sl_method s) (sl_hold s) true (sl_refs s) (FWait t m locked) (sl_requests s))
  | FWait t m locked => if decide (sl_refs s = 0) then Some (set_fill (FSet t m locked) s) else None
  | FSet t m locked => Some (mkLock t (sl_method s) (sl_hold s) (sl_writing s) (sl_refs s) (FMethod m locked) (sl_requests s))
  | FMethod m locked => Some (mkLock (sl_target s) (default (sl_method s) m) (sl_hold s) (sl_writing s) (sl_refs s) (FEnd locked) (sl_requests s))
  | FEnd locked =>
      if locked || negb (sl_hold s) then Some (set_fill FIdle s)
      else Some (mkLock (sl_target s) (sl_method s) false false (sl_refs s) FIdle (sl_requests s))
  end.

Inductive lstep (s : SlotLock) : SlotLock → Prop :=
| l_arrive : lstep s (mkLock (sl_target s) (sl_method s) (sl_hold s) (sl_writing s) (sl_refs s) (sl_fill s) (sl_requests s ++ [QWant (sl_method s)]))
| l_request i v s' : request_step i v s = Some s' → lstep s s'
| l_begin t m locked : sl_fill s = FIdle → lstep s (set_fill (FBegin t m locked) s)
| l_fill s' : fill_step s = Some s' → lstep s s'.

Definition new_lock (t : T) (m : F) : SlotLock := mkLock t m false false 0 FIdle [].
Definition reach_lock (s : SlotLock) : Prop := ∃ t m, rtc lstep (new_lock t m) s.

(** * The invariant *)
Definition refs_of (l : list rphase) : Z := Z.of_nat (length (filter (λ q, counted_in q = true) l)).

(** the fill has the slot to itself *)
Definition alone (f : fphase) : Prop := match f with FSet _ _ _ | FMethod _ _ | FEnd _ => True | _ => False end.

Record lock_inv (s : SlotLock) : Prop := {
  li_refs : sl_refs s = refs_of (sl_requests s);
  li_target : Forall (λ q, ∀ t, forwarded_by q = Some t → t = sl_target s) (sl_requests s);
  li_inside : sl_writing s = true → Forall (λ q, inside q = false) (sl_requests s);
  li_alone : alone (sl_fill s) → sl_writing s = true ∧ Forall (λ q, counted_in q = false) (sl_requests s);
  li_hold : sl_hold s = match sl_fill s with FLock _ _ _ => true | _ => sl_writing s end;
  li_lock : ∀ t m locked, sl_fill s = FLock t m locked → sl_writing s = false;
  li_wait : ∀ t m locked, sl_fill s = FWait t m locked → sl_writing s = true;
}.

Lemma refs_of_app l l' : refs_of (l ++ l') = refs_of l + refs_of l'.
Proof. unfold refs_of. rewrite filter_app, length_app. lia. Qed.

Lemma refs_of_insert l i q q' : l !! i = Some q →
  refs_of (<[i := q']> l) = refs_of l - (if counted_in q then 1 else 0) + (if counted_in q' then 1 else 0).
Proof.
  revert i. induction l as [|x l IH]; intros [|i] Hi; [done..| |].
  - injection Hi as ->. change (<[0%nat:=q']> (q :: l)) with (q' :: l). unfold refs_of. rewrite !filter_cons.
    destruct (counted_in q), (counted_in q'); repeat case_decide; try done; cbn; lia.
  - specialize (IH i Hi). change (<[S i:=q']> (x :: l)) with (x :: <[i:=q']> l). unfold refs_of in *. rewrite !filter_cons.
    destruct (counted_in x); repeat case_decide; try done; rewrite ?length_cons; lia.
Qed.

Lemma refs_zero l : refs_of l = 0 → Forall (λ q, counted_in q = false) l.
Proof.
  induction l as [|q l IH]; intros Hl; [done|]. unfold refs_of in *. rewrite filter_cons in Hl. case_decide as Hq.
  - cbn in Hl. lia.
  - constructor; [by destruct (counted_in q)|by apply IH].
Qed.

(** a request moves: it enters only when it may, and is counted as it goes *)
Lemma request_inv i v s s' : request_step i v s = Some s' → lock_inv s → lock_inv s'.
Proof.
  unfold request_step. intros Hs [Ir It Ii Ia Ih Il Iw]. destruct (sl_requests s !! i) as [q|] eqn:Hq; [|done]. cbn in Hs.
  assert (∀ q' refs, refs = sl_refs s - (if counted_in q then 1 else 0) + (if counted_in q' then 1 else 0) →
    (∀ t, forwarded_by q' = Some t → t = sl_target s) → (sl_writing s = true → inside q' = false) →
    (alone (sl_fill s) → counted_in q' = false) → lock_inv (set_request i q' refs s)) as Hset.
  { intros q' refs Hr Ht Hin Hal. constructor; cbn; try done.
    - by rewrite (refs_of_insert _ i q), Hr, Ir.
    - by apply Forall_insert.
    - intros Hw. apply Forall_insert; [by apply Ii|by apply Hin].
    - intros Hx. destruct (Ia Hx) as [Hw Hc]. split; [done|]. apply Forall_insert; [done|by apply Hal]. }
  assert (∀ t, forwarded_by q = Some t → t = sl_target s) as Hqt by (intros t; by apply (proj1 (Forall_lookup _ _) It i q Hq)).
  assert (sl_writing s = true → inside q = false) as Hqin by (intros Hw; by apply (proj1 (Forall_lookup _ _) (Ii Hw) i q Hq)).
  assert (alone (sl_fill s) → counted_in q = false) as Hqal
    by (intros Hx; by apply (proj1 (Forall_lookup _ _) (proj2 (Ia Hx)) i q Hq)).
  destruct q as [m|m|t m|t m|t m|t m|]; [destruct (may_enter s) eqn:Hm; [|done]|destruct v|..|destruct v|done|done]; try discriminate Hs; injection Hs as <-;
    apply Hset; cbn in *; try done; try lia; try (intros Hx; by specialize (Hqin Hx)); try (intros Hx; by specialize (Hqal Hx)).
  { intros Hw. unfold may_enter in Hm. by rewrite Hw in Hm. }
  all: first [by intros t [= <-] | intros Hx; destruct (Ia Hx) as [Hw _]; by specialize (Hqin Hw)].
Qed.

Lemma fill_inv s s' : fill_step s = Some s' → lock_inv s → lock_inv s'.
Proof.
  unfold fill_step. intros Hs [Ir It Ii Ia Ih Il Iw]. destruct (sl_fill s) as [|t m locked|t m locked|t m locked|t m locked|m locked|locked] eqn:Hf; [done|..].
  - destruct (sl_hold s) eqn:Hh; injection Hs as <-; constructor; cbn; try done; by rewrite Hh.
  - destruct (sl_writing s) eqn:Hw; [done|]. cbn in Hs. destruct (existsb inside (sl_requests s)) eqn:Hx; [done|]. injection Hs as <-.
    constructor; cbn; try done. intros _. apply Forall_forall. intros q Hq. apply not_true_is_false. intros Hin.
    assert (existsb inside (sl_requests s) = true) as Hy; [|congruence]. apply existsb_exists. exists q. split; [by apply list_elem_of_In|done].
  - case_decide as Hz; [|done]. injection Hs as <-. constructor; cbn; try done. intros _. split; [by eapply Iw|].
    apply refs_zero. congruence.
  - injection Hs as <-. destruct (Ia I) as [Hw Hc]. constructor; cbn; try done.
    eapply Forall_impl; [exact Hc|]. intros q Hq t'. by destruct q.
  - injection Hs as <-. by constructor.
  - destruct (Ia I) as [Hw Hc]. destruct (_ || _); injection Hs as <-; constructor; cbn; try done.
Qed.

Lemma reach_lock_inv s : reach_lock s → lock_inv s.
Proof.
  intros (t & m & Hs). assert (lock_inv (new_lock t m)) as Hnew by (by constructor).
  revert Hnew. induction Hs as [|s1 s2 s3 Hst _ IH]; [done|]. intros Hi. apply IH. clear IH.
  destruct Hst as [|i v s' Hr|t' m' locked Hf|s' Hf]; [|by eapply request_inv| |by eapply fill_inv].
  - destruct Hi as [Ir It Ii Ia Ih Il Iw]. constructor; cbn; try done.
    + rewrite refs_of_app. replace (refs_of [QWant (sl_method s1)]) with 0 by done. lia.
    + apply Forall_app. split; [done|]. by apply Forall_singleton.
    + intros Hw. apply Forall_app. split; [by apply Ii|]. by apply Forall_singleton.
    + intros Hx. destruct (Ia Hx) as [Hw Hc]. split; [done|]. apply Forall_app. split; [done|]. by apply Forall_singleton.
  - destruct Hi as [Ir It Ii Ia Ih Il Iw]. rewrite Hf in *. by constructor.
Qed.

Lemma refs_some l : refs_of l ≠ 0 → ∃ i q, l !! i = Some q ∧ counted_in q = true.
Proof.
  induction l as [|q l IH]; [done|]. destruct (counted_in q) eqn:Hq; [intros _; by exists 0%nat, q|]. intros Hl.
  destruct IH as (i & q' & Hi & Hc); [|by exists (S i), q']. unfold refs_of in *. rewrite filter_cons in Hl.
  rewrite Hq in Hl. by case_decide.
Qed.

(** a fill that waits, waits for a request that can go on, or for one that was dropped *)
Lemma fill_blocked s : lock_inv s → fill_step s = None → sl_fill s ≠ FIdle →
  ∃ i q, sl_requests s !! i = Some q ∧ (inside q = true ∨ counted_in q = true) ∧ (lost q = true ∨ ∀ v, is_Some (request_step i v s)).
Proof.
  intros [Ir It Ii Ia Ih Il Iw] Hs Hne.
  assert (∀ i q, sl_requests s !! i = Some q → inside q = true ∨ counted_in q = true → lost q = true ∨ ∀ v, is_Some (request_step i v s)) as Hgo.
  { intros i q Hq Hc. destruct (lost q) eqn:Hl; [by left|right]. intros v. unfold request_step. rewrite Hq. cbn. destruct q; first [by destruct Hc|by eexists|done]. }
  unfold fill_step in Hs. destruct (sl_fill s) as [|t m locked|t m locked|t m locked|t m locked|m locked|locked] eqn:Hf; try done.
  - by destruct (sl_hold s).
  - rewrite (Il t m locked eq_refl) in Hs. cbn in Hs. destruct (existsb inside (sl_requests s)) eqn:Hx; [|done].
    apply existsb_exists in Hx as (q & Hq & Hin). apply list_elem_of_In, list_elem_of_lookup in Hq as [i Hi]. exists i, q.
    split; [done|]. split; [by left|]. apply (Hgo i q Hi). by left.
  - case_decide as Hz; [done|]. rewrite Ir in Hz. apply refs_some in Hz as (i & q & Hi & Hc). exists i, q.
    split; [done|]. split; [by right|]. apply (Hgo i q Hi). by right.
  - by destruct (_ || _).
Qed.

(** a request that was dropped stays in [refs]: no fill ends any more *)
Lemma lost_stays s s' i q : sl_requests s !! i = Some q → lost q = true → lstep s s' → sl_requests s' !! i = Some q.
Proof.
  intros Hi Hl Hst. destruct Hst as [|j v s' Hr|t' m' locked Hf|s' Hf]; cbn; [by apply lookup_app_l_Some| |done|].
  - unfold request_step in Hr. destruct (decide (i = j)) as [<-|Hne].
    + rewrite Hi in Hr. cbn in Hr. by destruct q.
    + destruct (sl_requests s !! j) as [q'|]; [|done]. cbn in Hr.
      assert (∃ q2 n, s' = set_request j q2 n s) as (q2 & n & ->); [|cbn; by rewrite list_lookup_insert_ne].
      destruct q'; [destruct (may_enter s); [|done]|destruct v|..|destruct v|done|done]; injection Hr as <-; by do 2 eexists.
  - unfold fill_step in Hf. repeat case_match; simplify_eq; done.
Qed.
Lemma lost_for_ever s s' i q : reach_lock s → sl_requests s !! i = Some q → lost q = true → rtc lstep s s' → ¬ alone (sl_fill s').
Proof.
  intros (t & m & Hr) Hi Hl Hs Ha. assert (reach_lock s') as Hr' by (exists t, m; by etrans).
  assert (sl_requests s' !! i = Some q) as Hi' by (clear -Hi Hl Hs; induction Hs; [done|]; eauto using lost_stays).
  destruct (li_alone s' (reach_lock_inv s' Hr') Ha) as [_ Hc]. rewrite Forall_lookup in Hc. specialize (Hc i q Hi'). by destruct q.
Qed.

(** C20: filling a slot never overtakes a request: in every interleaving of requests and
    fills, each request that has been handed on and not yet answered was forwarded to the
    servers that the slot has now, the counter of references is the number of such requests,
    and while a fill changes the slot there is none, nor one inside.  A fill that cannot
    go on waits for a request that can, or for one that its connection has dropped without
    an answer; and after such a one no fill of the slot ever gets to change it.  (The
    method is not protected in this way: a request has the one it read before the lock.) *)
Theorem fill_waits_for_requests (s : SlotLock) : reach_lock s →
  Forall (λ q, ∀ t, forwarded_by q = Some t → t = sl_target s) (sl_requests s) ∧
  sl_refs s = refs_of (sl_requests s) ∧
  (alone (sl_fill s) → Forall (λ q, inside q = false ∧ forwarded_by q = None) (sl_requests s)) ∧
  (fill_step s = None → sl_fill s ≠ FIdle → ∃ i q, sl_requests s !! i = Some q ∧
     (inside q = true ∨ counted_in q = true) ∧ (lost q = true ∨ ∀ v, is_Some (request_step i v s))) ∧
  (∀ i q s', sl_requests s !! i = Some q → lost q = true → rtc lstep s s' → ¬ alone (sl_fill s')).
Proof.
  intros Hreach. pose proof (reach_lock_inv s Hreach) as Hinv. pose proof Hinv as [Ir It Ii Ia Ih Il Iw]. split; [done|]. split; [done|].
  split; [|split; [by apply fill_blocked|intros i q s'; by apply lost_for_ever]]. intros Hx. destruct (Ia Hx) as [Hw Hc].
  specialize (Ii Hw). apply Forall_forall. intros q Hq. rewrite Forall_forall in Ii, Hc. split; [by apply Ii|].
  specialize (Hc q Hq). by destruct q.
Qed.

End lock.

(** * A concrete run: a fill comes while a request is on its way, and another one waits with
    the method that the slot had before *)
Definition lock_go (s : SlotLock (T := nat) (F := bool)) (f : SlotLock → option SlotLock) : SlotLock := default s (f s).
Definition lock_arrive (s : SlotLock (T := nat) (F := bool)) : option SlotLock :=
  Some (mkLock (sl_target s) (sl_method s) (sl_hold s) (sl_writing s) (sl_refs s) (sl_fill s) (sl_requests s ++ [QWant (sl_method s)])).
Definition lock_begin (s : SlotLock (T := nat) (F := bool)) : option SlotLock := Some (set_fill (FBegin 2%nat (Some true) false) s).
Definition lock_run : SlotLock :=
  foldl lock_go (new_lock 1%nat false) [lock_arrive; request_step 0 Forwarded; request_step 0 Forwarded; lock_begin; fill_step; lock_arrive;
    request_step 0 Forwarded; fill_step; request_step 1 Forwarded].

Lemma fill_waits_for_requests_witness :
  sl_refs lock_run = 1 ∧ fill_step lock_run = None ∧
  Forall (λ q, ∀ t, forwarded_by q = Some t → t = 1%nat) (sl_requests lock_run).
Proof.
  split; [vm_compute; reflexivity|]. split; [vm_compute; reflexivity|].
  assert (Hr : reach_lock lock_run).
  { exists 1%nat, false. change lock_run with (mkLock 1%nat false true true 1 (FWait 2%nat (Some true) false) [QOut 1%nat false; QWant false]).
    eapply rtc_l; [apply l_arrive|]. eapply rtc_l; [by eapply (l_request _ 0 Forwarded)|].
    eapply rtc_l; [by eapply (l_request _ 0 Forwarded)|]. eapply rtc_l; [by apply (l_begin _ 2%nat (Some true) false)|].
    eapply rtc_l; [by apply l_fill|]. eapply rtc_l; [apply l_arrive|]. eapply rtc_l; [by eapply (l_request _ 0 Forwarded)|].
    eapply rtc_l; [by apply l_fill|]. apply rtc_refl. }
  exact (proj1 (fill_waits_for_requests lock_run Hr)).
Defined.

(** the fill goes on when the request is answered, and the one that waited is forwarded to the
    new server with the old method *)
Example old_method :
  let s := foldl lock_go lock_run [request_step 0 Forwarded; request_step 0 Forwarded; fill_step; fill_step; fill_step; fill_step;
    request_step 1 Forwarded; request_step 1 Forwarded] in
  (sl_target s, sl_method s, sl_requests s) = (2%nat, true, [QOver; QAdded 2%nat false]).
Proof. by vm_compute. Qed.
