(* ===== verification/TopomACL.v ===== *)
(** ACL administration of the dashboard (pkg/topom/topom_acl.go).

    An update is validated and normalized, sent to every Redis server, stored, and sent to
    every proxy, in this order.  The state of the dashboard is the [world] of TopomState
    and the outcome of the last update at the proxies ([aclSync]); the commands the Redis
    servers accepted and the proxies that took an ACL are kept for the theorems.  The
    SHA-256 of a password is a parameter. *)

From S2P Require Import Prelude Bufio Resp Mapper Models TopomContext TopomState TopomProxy TopomGroup.
From S2P Require Import Router Stream Forward SessionState ClusterNodes.
(** * Strings *)

(** the UTF-8 encodings of Unicode's white space *)
Definition spaces : list bytes :=
  [[x09]; [x0a]; [x0b]; [x0c]; [x0d]; [x20]; [xc2; x85]; [xc2; xa0]; [xe1; x9a; x80];
   [xe2; x80; x80]; [xe2; x80; x81]; [xe2; x80; x82]; [xe2; x80; x83]; [xe2; x80; x84]; [xe2; x80; x85];
   [xe2; x80; x86]; [xe2; x80; x87]; [xe2; x80; x88]; [xe2; x80; x89]; [xe2; x80; x8a];
   [xe2; x80; xa8]; [xe2; x80; xa9]; [xe2; x80; xaf]; [xe2; x81; x9f]; [xe3; x80; x80]].

Definition has_prefix_of (b p : bytes) : bool := bool_decide (take (length p) b = p).

(** drops the white space in front; [words] are its encodings, read in the same direction *)
Fixpoint trim_front (fuel : nat) (words : list bytes) (b : bytes) : bytes :=
  match fuel with
  | O => b
  | S fuel => match List.find (has_prefix_of b) words with
              | Some p => trim_front fuel words (drop (length p) b)
              | None => b
              end
  end.

(** [strings.TrimSpace] *)
Definition TrimSpace (s : string) : string :=
  let b := bstr s in
  let b := trim_front (length b) spaces b in
  string_of_bytes (rev (trim_front (length b) (@rev byte <$> spaces) (rev b))).

Definition in_range (lo hi : string) (c : byte) : bool :=
  match bstr lo, bstr hi with
  | [l], [h] => (byte_val l <=? byte_val c) && (byte_val c <=? byte_val h)
  | _, _ => false
  end.
Definition is_word (c : byte) : bool :=
  in_range "A" "Z" c || in_range "a" "z" c || in_range "0" "9" c || bool_decide (c = x5f).

(** [^[A-Za-z0-9_][A-Za-z0-9_.@-]*$] *)
Definition aclUserNameRe (s : string) : bool :=
  match bstr s with
  | [] => false
  | c :: b => is_word c && forallb (λ c, is_word c || bool_decide (c = x2e ∨ c = x40 ∨ c = x2d)) b
  end.

(** [^[0-9a-fA-F]{64}$] *)
Definition is_hex (c : byte) : bool := in_range "0" "9" c || in_range "a" "f" c || in_range "A" "F" c.
Definition aclPasswordHashRe (s : string) : bool :=
  bool_decide (length (bstr s) = 64%nat) && forallb is_hex (bstr s).

(** [strings.ToLower] of a string of hexadecimal digits *)
Definition lower_byte (c : byte) : byte :=
  if in_range "A" "Z" c then default c (Byte.of_N (Byte.to_N c + 32)) else c.
Definition ToLowerHex (s : string) : string := string_of_bytes (lower_byte <$> bstr s).

Definition TrimPrefixHash (s : string) : string := match bstr s with x23 :: b => string_of_bytes b | _ => s end.

Definition HasPrefix (s : string) (c : byte) : bool := match bstr s with x :: _ => bool_decide (x = c) | [] => false end.

Definition name_le (a b : string) : Prop := bytes_ltb (bstr b) (bstr a) = false.
#[export] Instance name_le_dec : RelDecision name_le := λ a b, decide (bytes_ltb (bstr b) (bstr a) = false).

(** * Requests and errors *)
Record ACLUserUpdate := mkUserUpdate {
  uu_Name : string;
  uu_Enabled : bool;
  uu_DB : option Z;
  uu_NewPassword : string;
  uu_PasswordHashes : list string;
  uu_Rules : list string;
}.

Record ACLUpdateRequest := mkUpdate { ar_Enabled : bool; ar_Users : list (option ACLUserUpdate) }.

Inductive aclerr :=
| ErrTopom (e : terror)
| ErrMissingACLRequest
| ErrNilACLUser
| ErrInvalidACLName (name : string)
| ErrReservedACLName (name : string)
| ErrPlainPassword
| ErrManagedToken (token : string)
| ErrACLRules (name : string) (e : aclerr)
| ErrInvalidPasswordHash (name : string)
| ErrEmptyACLRules (name : string)
| ErrMissingPasswordHash (name : string)
| ErrInvalidACLDB (name : string) (db : Z)
| ErrDuplicateACLUser (name : string)
| ErrRedisACL (addr : string)
| ErrProxyACL (tokens : list string).

Record ACLUserView := mkUserView {
  uv_Name : string;
  uv_Enabled : bool;
  uv_DB : option Z;
  uv_PasswordCount : Z;
  uv_Rules : list string;
}.
Record ACLView := mkView {
  av_Revision : Z;
  av_Enabled : bool;
  av_SyncStatus : string;
  av_Users : list ACLUserView;
}.

(** * Building an ACL *)
Fixpoint normalizeACLRules (input : list string) : outcome aclerr (list string * list string) :=
  match input with
  | [] => Ok ([], [])
  | raw :: input =>
      let token := TrimSpace raw in
      if bool_decide (token = "") then normalizeACLRules input
      else if HasPrefix token x3e then Err ErrPlainPassword
      else if HasPrefix token x23 then
        '(rules, hashes) ← normalizeACLRules input; Ok (rules, string_of_bytes (drop 1 (bstr token)) :: hashes)
      else if LowerIs (bstr token) "on" || LowerIs (bstr token) "off" then normalizeACLRules input
      else if LowerIs (bstr token) "reset" || LowerIs (bstr token) "resetpass" then Err (ErrManagedToken token)
      else '(rules, hashes) ← normalizeACLRules input; Ok (token :: rules, hashes)
  end.

Definition hasACLRule (rules : list string) (rule : string) : bool := existsb (λ r, EqualFold (bstr r) rule) rules.

(** the loop that checks the hashes and writes them back in lower case *)
Fixpoint normalize_hashes (name : string) (hashes : list string) : outcome aclerr (list string) :=
  match hashes with
  | [] => Ok []
  | hash :: hashes =>
      let hash := TrimPrefixHash (TrimSpace hash) in
      if aclPasswordHashRe hash then hs ← normalize_hashes name hashes; Ok (ToLowerHex hash :: hs)
      else Err (ErrInvalidPasswordHash name)
  end.

Section build.
Context `{TopomState.Config} (ACLPasswordHash : bytes → string).

(** which hashes a user gets: of the new password, those given, or those it has *)
Definition chosen_hashes (current : gmap string ACLUser) (name : string) (input : ACLUserUpdate) (ruleHashes : list string)
    : list string :=
  let hashes := uu_PasswordHashes input ++ ruleHashes in
  if bool_decide (uu_NewPassword input ≠ "") then [ACLPasswordHash (bstr (uu_NewPassword input))]
  else match hashes with
  | [] => match current !! name with Some old => au_PasswordHashes old | None => [] end
  | _ => hashes
  end.

Definition buildACLUser (current : gmap string ACLUser) (input : option ACLUserUpdate) : outcome aclerr ACLUser :=
  match input with
  | None => Err ErrNilACLUser
  | Some input =>
      let name := TrimSpace (uu_Name input) in
      if bool_decide (name = "") || negb (aclUserNameRe name) then Err (ErrInvalidACLName (uu_Name input))
      else if bool_decide (cfg_BackendAuthUsername ≠ "" ∧ name = cfg_BackendAuthUsername) then Err (ErrReservedACLName name)
      else match normalizeACLRules (uu_Rules input) with
      | Panic => Panic
      | Err e => Err (ErrACLRules name e)
      | Ok (rules, ruleHashes) =>
          hashes ← normalize_hashes name (chosen_hashes current name input ruleHashes);
          if bool_decide (rules = []) then Err (ErrEmptyACLRules name)
          else if bool_decide (hashes = []) && negb (hasACLRule rules "nopass") then Err (ErrMissingPasswordHash name)
          else match uu_DB input with
          | Some db => if db <? 0 then Err (ErrInvalidACLDB name db)
                       else Ok (mkACLUser name (uu_Enabled input) (Some db) hashes rules)
          | None => Ok (mkACLUser name (uu_Enabled input) None hashes rules)
          end
      end
  end.

(** the loop over the users of the request; [seen] are the names so far *)
Fixpoint build_users (current : gmap string ACLUser) (seen : gset string) (inputs : list (option ACLUserUpdate))
    : outcome aclerr (list ACLUser) :=
  match inputs with
  | [] => Ok []
  | input :: inputs =>
      user ← buildACLUser current input;
      if decide (au_Name user ∈ seen) then Err (ErrDuplicateACLUser (au_Name user))
      else users ← build_users current ({[au_Name user]} ∪ seen) inputs; Ok (user :: users)
  end.

(** of users with the same name the later one wins *)
Definition users_by_name (users : list ACLUser) : gmap string ACLUser := foldl (λ m u, <[au_Name u := u]> m) ∅ users.

Definition user_le (a b : ACLUser) : Prop := name_le (au_Name a) (au_Name b).
#[export] Instance user_le_dec : RelDecision user_le := λ a b, decide (name_le (au_Name a) (au_Name b)).

Definition next_revision (current : ACL) : Z :=
  if decide (acl_Revision current >= 1) then i64 (acl_Revision current + 1) else 1.

Definition buildACL (now : string) (current : ACL) (req : option ACLUpdateRequest) : outcome aclerr ACL :=
  match req with
  | None => Err ErrMissingACLRequest
  | Some req =>
      users ← build_users (users_by_name (acl_Users current)) ∅ (ar_Users req);
      Ok (mkACL (next_revision current) (ar_Enabled req) (merge_sort user_le users) now)
  end.
End build.

(** * What is sent to a Redis server *)
Definition redisACLSetUser (user : ACLUser) : list string :=
  ["ACL"; "SETUSER"; au_Name user; "reset"; if au_Enabled user then "on" else "off"]%string ++
  ((λ h, "#" +:+ h) <$> au_PasswordHashes user) ++ au_Rules user.

Definition removedACLUsers (current : option ACL) (next : ACL) : list string :=
  match current with
  | None => []
  | Some current =>
      merge_sort name_le (filter (λ n, n ∉ (list_to_set (au_Name <$> acl_Users next) : gset string)) (au_Name <$> acl_Users current))
  end.

Definition aclTargetServerAddrs (gs : list Group) : list string :=
  merge_sort name_le (elements (list_to_set (filter (λ a, a ≠ "") (concat ((λ g, gs_Addr <$> g_Servers g) <$> gs))) : gset string)).

Section admin.
Context `{Env} `{TopomState.Config} `{UnicodeUpper} (ACLPasswordHash : bytes → string) (BackendAuthPassword : string).

Definition ensureBackendServiceUser : list (list string) :=
  if bool_decide (cfg_BackendAuthUsername = "" ∨ BackendAuthPassword = "") then []
  else [["ACL"; "SETUSER"; cfg_BackendAuthUsername; "reset"; "on"; "#" +:+ ACLPasswordHash (bstr BackendAuthPassword); "+@all"; "~*"]%string].

Definition remove_command (name : string) : list (list string) :=
  if bool_decide (cfg_BackendAuthUsername ≠ "" ∧ name = cfg_BackendAuthUsername) then []
  else if bool_decide (name = "default") then [redisACLSetUser (mkACLUser name false None [] ["nopass"%string])]
  else [["ACL"; "DELUSER"; name]%string].

(** the commands of [syncACLToRedisServer] *)
Definition server_commands (acl : ACL) (current : option ACL) : list (list string) :=
  ensureBackendServiceUser ++ (redisACLSetUser <$> acl_Users acl) ++ concat (remove_command <$> removedACLUsers current acl).

(** ** State *)
Record aclState := mkAclState {
  sy_revision : Z;
  sy_failed : list string;
  sy_done : list (string * list string);   (** commands that servers accepted *)
  sy_told : list (string * ACL);           (** ACLs that proxies accepted *)
}.

Definition AW : Type := world * aclState.
Abbreviation AM := (M AW aclerr).

(** an operation of the dashboard *)
Definition topom {A} (m : T A) : AM A := λ w,
  let '(r, w') := m w.1 in
  (match r with Ok a => Ok a | Err e => Err (ErrTopom e) | Panic => Panic end, (w', w.2)).
Definition on_state (f : aclState → aclState) : AM unit := modify (λ w, (w.1, f w.2)).

Definition log_command (addr : string) (cmd : list string) (s : aclState) : aclState :=
  mkAclState (sy_revision s) (sy_failed s) (sy_done s ++ [(addr, cmd)]) (sy_told s).
Definition log_told (token : string) (acl : ACL) (s : aclState) : aclState :=
  mkAclState (sy_revision s) (sy_failed s) (sy_done s) (sy_told s ++ [(token, acl)]).

(** [c.Do]: the command is accepted, or the update ends *)
Fixpoint do_commands (addr : string) (cmds : list (list string)) : AM unit :=
  match cmds with
  | [] => mret tt
  | cmd :: cmds =>
      topom (call (ErrSyncACL addr)) ;;
      on_state (log_command addr cmd) ;;
      do_commands addr cmds
  end.

Definition syncACLToRedisServer (addr : string) (acl : ACL) (current : option ACL) : AM unit :=
  topom (call (ErrSyncACL addr)) ;;   (** [NewClientWithAuthIdentity] *)
  do_commands addr (server_commands acl current).

Fixpoint sync_servers (acl : ACL) (current : option ACL) (addrs : list string) : AM unit :=
  match addrs with
  | [] => mret tt
  | addr :: addrs =>
      on_err (syncACLToRedisServer addr acl current) (λ _, fail (ErrRedisACL addr)) ;;
      sync_servers acl current addrs
  end.

Definition syncACLToRedis (ctx : context) (acl : ACL) : AM unit :=
  if shouldSyncACLRuntime acl
  then sync_servers acl (Some (ctx_acl ctx)) (aclTargetServerAddrs (map_to_list (ctx_group ctx)).*2)
  else mret tt.

(** [SetACL] of the proxies in the order of their tokens; returns those that failed *)
Fixpoint tell_proxies (acl : ACL) (tokens : list string) : AM (list string) :=
  match tokens with
  | [] => mret []
  | token :: tokens =>
      t ← topom next_tick;
      if env_call t then on_state (log_told token acl) ;; tell_proxies acl tokens
      else failed ← tell_proxies acl tokens; mret (token :: failed)
  end.

Definition syncACLToProxies (ctx : context) (acl : ACL) : AM (list string) :=
  tell_proxies acl (merge_sort name_le (map_to_list (ctx_proxy ctx)).*1).

Definition setACLSyncResult (revision : Z) (failed : list string) (s : aclState) : aclState :=
  mkAclState revision failed (sy_done s) (sy_told s).

(** ** Views *)
Definition aclSyncStatus (s : aclState) (acl : ACL) : string :=
  if bool_decide (sy_revision s = acl_Revision acl ∧ sy_failed s ≠ [])
  then "proxy_sync_failed:" +:+ String.concat "," (sy_failed s) else "ready".

Definition newACLView (acl : ACL) (status : string) : ACLView :=
  mkView (acl_Revision acl) (acl_Enabled acl)
    (if bool_decide (acl_Revision acl = 0 ∧ acl_Enabled acl = false ∧ acl_Users acl = []) then "not_configured" else status)
    ((λ u, mkUserView (au_Name u) (au_Enabled u) (au_DB u) (Z.of_nat (length (au_PasswordHashes u))) (au_Rules u)) <$> acl_Users acl).

(** ** Operations *)
Definition GetACL : AM ACLView :=
  ctx ← topom newContext;
  s ← gets snd;
  mret (newACLView (ctx_acl ctx) (aclSyncStatus s (ctx_acl ctx))).

(** telling the proxies, and the answer *)
Definition finish_sync (ctx : context) (acl : ACL) : AM ACLView :=
  failed ← syncACLToProxies ctx acl;
  on_state (setACLSyncResult (acl_Revision acl) failed) ;;
  match failed with
  | [] => s ← gets snd; mret (newACLView acl (aclSyncStatus s acl))
  | _ => fail (ErrProxyACL failed)
  end.

Definition UpdateACL (req : option ACLUpdateRequest) : AM ACLView :=
  ctx ← topom newContext;
  now ← topom (t ← next_tick; mret (env_now t));
  acl ← lift (buildACL ACLPasswordHash now (ctx_acl ctx) req);
  syncACLToRedis ctx acl ;;
  topom (storeUpdateACL acl) ;;
  topom (modify dirtyACLCache) ;;
  finish_sync ctx acl.

Definition SyncACL : AM ACLView :=
  ctx ← topom newContext;
  syncACLToRedis ctx (ctx_acl ctx) ;;
  finish_sync ctx (ctx_acl ctx).
End admin.
