(* ===== verification/ACLTheorems.v ===== *)
(** What an accepted ACL update guarantees.

    The first part is about the ACL that is built: every user in it is well formed, and who
    may log in at a proxy that got it.  The second is about the order in which servers,
    store and proxies learn of it. *)

From S2P Require Import Prelude Bufio Resp Mapper Models TopomContext TopomState TopomCache TopomFrame.
From S2P Require Import TopomProxy TopomGroup TopomInv TopomRules TopomRebalance TopomSafety TopomTheorems TopomFunctional.
From S2P Require Import Router RouterTheorems Stream Forward ForwardTheorems Session AuthBruteforce SessionState ClusterNodes SessionHandler SessionSafety TopomACL.
(** * Strings of hexadecimal digits *)
Definition is_lower_hex (c : byte) : bool := in_range "0" "9" c || in_range "a" "f" c.
(** the form of [hex.EncodeToString] of 32 bytes *)
Definition hash_form (s : string) : Prop := length (bstr s) = 64%nat ∧ Forall (λ c, is_lower_hex c = true) (bstr s).

Lemma bstr_of_bytes b : bstr (string_of_bytes b) = b.
Proof. apply String.list_byte_of_string_of_list_byte. Qed.
Lemma of_bytes_bstr s : string_of_bytes (bstr s) = s.
Proof. apply String.string_of_list_byte_of_string. Qed.

Lemma lower_byte_hex c : is_hex c = true → is_lower_hex (lower_byte c) = true.
Proof. by destruct c; vm_compute. Qed.
Lemma lower_byte_id c : is_lower_hex c = true → lower_byte c = c.
Proof. by destruct c; vm_compute. Qed.
Lemma lower_hex_hex c : is_lower_hex c = true → is_hex c = true.
Proof. by destruct c; vm_compute. Qed.

(** a digit is not the first byte of a white space, in either direction *)
Lemma spaces_no_digit : Forall (λ p, match p with c :: _ => is_lower_hex c = false | [] => False end) (spaces ++ (@rev byte <$> spaces)).
Proof. repeat (constructor; [done|]). constructor. Qed.

Lemma trim_front_digits fuel words b : Forall (λ p, match p with c :: _ => is_lower_hex c = false | [] => False end) words →
  Forall (λ c, is_lower_hex c = true) b → trim_front fuel words b = b.
Proof.
  intros Hw Hb. destruct fuel; [done|]. cbn. destruct (List.find (has_prefix_of b) words) as [p|] eqn:Hf; [|done]. exfalso.
  apply List.find_some in Hf as [Hin%list_elem_of_In Hp]. rewrite Forall_forall in Hw. specialize (Hw p Hin).
  destruct p as [|c p]; [done|]. unfold has_prefix_of in Hp. apply bool_decide_eq_true in Hp.
  destruct b as [|x b]; [done|]. injection Hp as -> _. inversion Hb. congruence.
Qed.

Lemma TrimSpace_hash s : hash_form s → TrimSpace s = s.
Proof.
  intros [_ Hs]. unfold TrimSpace. pose proof spaces_no_digit as [H1 H2]%Forall_app.
  rewrite (trim_front_digits _ spaces) by done. rewrite trim_front_digits by (done || by apply List.Forall_rev).
  by rewrite List.rev_involutive, of_bytes_bstr.
Qed.

Definition norm_hash (h : string) : string := ToLowerHex (TrimPrefixHash (TrimSpace h)).

(** the hash of a password passes through unchanged *)
Lemma norm_hash_form s : hash_form s → norm_hash s = s ∧ aclPasswordHashRe (TrimPrefixHash (TrimSpace s)) = true.
Proof.
  intros Hs. unfold norm_hash. rewrite (TrimSpace_hash s Hs). destruct Hs as [Hlen Hhex].
  assert (TrimPrefixHash s = s) as ->.
  { unfold TrimPrefixHash. destruct (bstr s) as [|c b] eqn:Hb; [done|]. inversion Hhex as [|? ? Hc]; subst. by destruct c. }
  split.
  - unfold ToLowerHex. rewrite <-(of_bytes_bstr s) at 2. f_equal. clear Hlen. induction Hhex as [|c b Hc _ IH]; [done|].
    cbn. rewrite lower_byte_id by done. f_equal. exact IH.
  - unfold aclPasswordHashRe. rewrite bool_decide_eq_true_2 by done. cbn. apply List.forallb_forall. intros c Hc%list_elem_of_In.
    rewrite Forall_forall in Hhex. by apply lower_hex_hex, Hhex.
Qed.

Lemma lower_hash_form h : aclPasswordHashRe h = true → hash_form (ToLowerHex h).
Proof.
  unfold aclPasswordHashRe. intros [Hl%bool_decide_eq_true Hf]%andb_true_iff. unfold hash_form, ToLowerHex.
  rewrite bstr_of_bytes, length_fmap. split; [done|]. apply Forall_fmap, Forall_forall. intros c Hc. cbn. apply lower_byte_hex.
  rewrite List.forallb_forall in Hf. by apply Hf, list_elem_of_In.
Qed.

Lemma normalize_hashes_ok name hashes l : normalize_hashes name hashes = Ok l → l = norm_hash <$> hashes ∧ Forall hash_form l.
Proof.
  revert l. induction hashes as [|h hashes IH]; intros l; cbn; [by intros [= <-]|].
  destruct (aclPasswordHashRe _) eqn:Hre; [|done]. destruct (normalize_hashes name hashes) as [hs|e|]; cbn; [|done..].
  intros [= <-]. destruct (IH hs eq_refl) as [-> Hall]. split; [done|]. constructor; [|done]. by apply lower_hash_form.
Qed.

(** * A user *)
Definition rule_ok (rule : string) : Prop :=
  rule ≠ "" ∧ HasPrefix rule x3e = false ∧ HasPrefix rule x23 = false ∧
  LowerIs (bstr rule) "on" = false ∧ LowerIs (bstr rule) "off" = false ∧
  LowerIs (bstr rule) "reset" = false ∧ LowerIs (bstr rule) "resetpass" = false.

Lemma normalizeACLRules_ok input rules hashes : normalizeACLRules input = Ok (rules, hashes) → Forall rule_ok rules.
Proof.
  revert rules hashes. induction input as [|raw input IH]; intros rules hashes; cbn [normalizeACLRules]; [by intros [= <- <-]|]. cbv zeta.
  destruct (bool_decide (TrimSpace raw = "")) eqn:He; [apply IH|]. destruct (HasPrefix (TrimSpace raw) x3e) eqn:Hp; [done|].
  destruct (HasPrefix (TrimSpace raw) x23) eqn:Hq.
  { destruct (normalizeACLRules input) as [[rs hs]|e|]; cbn [mbind outcome_bind]; [|done..]. intros [= <- <-]. by eapply IH. }
  destruct (_ || _) eqn:Ho; [apply IH|]. apply orb_false_iff in Ho as [Ho1 Ho2].
  destruct (LowerIs (bstr (TrimSpace raw)) "reset" || _) eqn:Hr; [done|]. apply orb_false_iff in Hr as [Hr1 Hr2].
  destruct (normalizeACLRules input) as [[rs hs]|e|]; cbn [mbind outcome_bind]; [|done..]. intros [= <- <-].
  constructor; [|by eapply IH]. apply bool_decide_eq_false in He.
  exact (conj He (conj Hp (conj Hq (conj Ho1 (conj Ho2 (conj Hr1 Hr2)))))).
Qed.

Section build.
Context `{TopomState.Config} (ACLPasswordHash : bytes → string).

Record user_valid (u : ACLUser) : Prop := {
  va_name : aclUserNameRe (au_Name u) = true ∧ (cfg_BackendAuthUsername = "" ∨ au_Name u ≠ cfg_BackendAuthUsername);
  va_hashes : Forall hash_form (au_PasswordHashes u);
  va_rules : au_Rules u ≠ [] ∧ Forall rule_ok (au_Rules u);
  va_password : au_PasswordHashes u ≠ [] ∨ hasACLRule (au_Rules u) "nopass" = true;
  va_db db : au_DB u = Some db → 0 ≤ db;
}.

(** what a request says about a user: the hashes it gets, from the current ACL if need be *)
Definition user_for (current : gmap string ACLUser) (input : ACLUserUpdate) (u : ACLUser) : Prop :=
  au_Name u = TrimSpace (uu_Name input) ∧ au_Enabled u = uu_Enabled input ∧ au_DB u = uu_DB input ∧
  ∃ ruleHashes, normalizeACLRules (uu_Rules input) = Ok (au_Rules u, ruleHashes) ∧
    au_PasswordHashes u = norm_hash <$> chosen_hashes ACLPasswordHash current (au_Name u) input ruleHashes.

Lemma buildACLUser_ok current input u : buildACLUser ACLPasswordHash current input = Ok u →
  ∃ i, input = Some i ∧ user_for current i u ∧ user_valid u.
Proof.
  destruct input as [i|]; [|done]. cbn [buildACLUser]. cbv zeta. set (name := TrimSpace (uu_Name i)).
  destruct (_ || _) eqn:Hn; [done|]. apply orb_false_iff in Hn as [_ Hn%negb_false_iff].
  case_bool_decide as Hres; [done|]. destruct (normalizeACLRules (uu_Rules i)) as [[rules rh]|e|] eqn:Hr; [|done..].
  destruct (normalize_hashes name _) as [hs|e|] eqn:Hh; cbn [mbind outcome_bind]; [|done..]. apply normalize_hashes_ok in Hh as [-> Hform].
  case_bool_decide as Hne; [done|]. destruct (bool_decide _ && _) eqn:Hpw; [done|]. intros Hu.
  assert (u = mkACLUser name (uu_Enabled i) (uu_DB i) (norm_hash <$> chosen_hashes ACLPasswordHash current name i rh) rules ∧
    ∀ db, uu_DB i = Some db → 0 ≤ db) as [-> Hdb].
  { destruct (uu_DB i) as [db|]; [|by injection Hu as <-]. destruct (db <? 0) eqn:Hlt; [done|]. injection Hu as <-.
    split; [done|]. intros ? [= <-]. lia. }
  exists i. split; [done|]. split.
  - split_and!; try done. exists rh. done.
  - split; cbn [au_Name au_PasswordHashes au_Rules au_DB]; try done.
    + split; [done|]. destruct (decide (cfg_BackendAuthUsername = "")); [by left|right]. naive_solver.
    + split; [done|]. by eapply normalizeACLRules_ok.
    + apply andb_false_iff in Hpw as [Hpw%bool_decide_eq_false|Hpw%negb_false_iff]; [by left|by right].
Qed.

(** * The ACL *)
Record acl_valid (acl : ACL) : Prop := {
  vl_users u : u ∈ acl_Users acl → user_valid u;
  vl_names : NoDup (au_Name <$> acl_Users acl);
}.

Lemma build_users_ok current seen inputs users : build_users ACLPasswordHash current seen inputs = Ok users →
  Forall2 (λ i u, ∃ x, i = Some x ∧ user_for current x u ∧ user_valid u) inputs users ∧
  NoDup (au_Name <$> users) ∧ ∀ u, u ∈ users → au_Name u ∉ seen.
Proof.
  revert seen users. induction inputs as [|i inputs IH]; intros seen users; cbn [build_users].
  { intros [= <-]. split; [constructor|]. split; [constructor|]. by intros u ?%not_elem_of_nil. }
  destruct (buildACLUser ACLPasswordHash current i) as [u|e|] eqn:Hu; cbn [mbind outcome_bind]; [|done..].
  case_decide as Hs; [done|]. destruct (build_users _ _ _ inputs) as [us|e|] eqn:Hus; cbn [mbind outcome_bind]; [|done..].
  intros [= <-]. apply IH in Hus as (Hall & Hnd & Hout). split_and!.
  - constructor; [by apply buildACLUser_ok|done].
  - cbn. constructor; [|done]. intros (v & Hv & Hin)%list_elem_of_fmap. specialize (Hout v Hin). set_solver.
  - intros v [->|Hin]%elem_of_cons; [done|]. specialize (Hout v Hin). set_solver.
Qed.

Lemma normalizeACLRules_no_panic input : normalizeACLRules input ≠ Panic.
Proof.
  induction input as [|raw input IH]; [done|]. cbn [normalizeACLRules]. cbv zeta.
  repeat case_match; try done; by destruct (normalizeACLRules input) as [[]| |].
Qed.

Lemma normalize_hashes_no_panic name hashes : normalize_hashes name hashes ≠ Panic.
Proof.
  induction hashes as [|h hashes IH]; [done|]. cbn [normalize_hashes]. cbv zeta. destruct (aclPasswordHashRe _); [|done].
  by destruct (normalize_hashes name hashes).
Qed.

Lemma buildACL_no_panic now current req : buildACL ACLPasswordHash now current req ≠ Panic.
Proof.
  destruct req as [req|]; [|done]. cbn [buildACL]. generalize (∅ : gset string). intros seen.
  assert (build_users ACLPasswordHash (users_by_name (acl_Users current)) seen (ar_Users req) ≠ Panic) as Hn.
  { revert seen. induction (ar_Users req) as [|i inputs IH]; intros seen; [done|]. cbn [build_users].
    assert (buildACLUser ACLPasswordHash (users_by_name (acl_Users current)) i ≠ Panic) as Hu.
    { destruct i as [i|]; [|done]. cbn [buildACLUser]. cbv zeta. destruct (_ || _); [done|]. case_bool_decide; [done|].
      pose proof (normalizeACLRules_no_panic (uu_Rules i)). destruct (normalizeACLRules (uu_Rules i)) as [[rules rh]|e|]; [|done..].
      pose proof (normalize_hashes_no_panic (TrimSpace (uu_Name i)) (chosen_hashes ACLPasswordHash (users_by_name (acl_Users current)) (TrimSpace (uu_Name i)) i rh)).
      destruct (normalize_hashes _ _); cbn [mbind outcome_bind]; [|done..]. repeat case_match; done. }
    destruct (buildACLUser _ _ i) as [u|e|]; cbn [mbind outcome_bind]; [|done..]. case_decide; [done|].
    specialize (IH ({[au_Name u]} ∪ seen)). by destruct (build_users _ _ _ inputs). }
  by destruct (build_users _ _ _ _).
Qed.

(** who the users of an accepted request are *)
Lemma buildACL_ok now current req acl : buildACL ACLPasswordHash now current (Some req) = Ok acl →
  acl_valid acl ∧ acl_Revision acl = next_revision current ∧ acl_Enabled acl = ar_Enabled req ∧
  ∀ u, u ∈ acl_Users acl ↔ ∃ x, Some x ∈ ar_Users req ∧ user_for (users_by_name (acl_Users current)) x u.
Proof.
  cbn [buildACL]. destruct (build_users _ _ _ _) as [users|e|] eqn:Hb; cbn [mbind outcome_bind]; [|done..]. intros [= <-].
  apply build_users_ok in Hb as (Hall & Hnd & _). cbn [acl_Users acl_Revision acl_Enabled]. split_and!; [|done..|].
  - split; cbn [acl_Users].
    + intros u Hu. rewrite merge_sort_Permutation in Hu. apply list_elem_of_lookup in Hu as [k Hk].
      by destruct (Forall2_lookup_r _ _ _ _ _ Hall Hk) as (i & _ & x & _ & _ & Hv).
    + by rewrite merge_sort_Permutation.
  - intros u. rewrite merge_sort_Permutation. split.
    + intros [k Hk]%list_elem_of_lookup. destruct (Forall2_lookup_r _ _ _ _ _ Hall Hk) as (i & Hi & x & -> & Hf & _).
      exists x. split; [by eapply list_elem_of_lookup_2|done].
    + intros (x & [k Hk]%list_elem_of_lookup & Hf). destruct (Forall2_lookup_l _ _ _ _ _ Hall Hk) as (v & Hv & y & [= <-] & Hf' & _).
      replace u with v; [by eapply list_elem_of_lookup_2|]. destruct Hf as (Hn & He & Hd & rh & Hr & Hh), Hf' as (Hn' & He' & Hd' & rh' & Hr' & Hh').
      rewrite Hr in Hr'. injection Hr' as Hrules <-. destruct u, v. cbn in *. congruence.
Qed.

Lemma buildACL_users now current req acl : buildACL ACLPasswordHash now current (Some req) = Ok acl → ∀ x, Some x ∈ ar_Users req →
  ∃ u, u ∈ acl_Users acl ∧ user_for (users_by_name (acl_Users current)) x u.
Proof.
  cbn [buildACL]. destruct (build_users _ _ _ _) as [users|e|] eqn:Hb; cbn [mbind outcome_bind]; [|done..]. intros [= <-] x Hx.
  apply build_users_ok in Hb as (Hall & _). apply list_elem_of_lookup in Hx as [k Hk].
  destruct (Forall2_lookup_l _ _ _ _ _ Hall Hk) as (u & Hu & y & [= <-] & Hf & _). exists u. split; [|done].
  cbn [acl_Users]. rewrite merge_sort_Permutation. by eapply list_elem_of_lookup_2.
Qed.

(** ** The proxy's snapshot of it *)
Lemma users_lookup users (m : gmap string ACLUser) name u : NoDup (au_Name <$> users) →
  foldl (λ m u, <[au_Name u := u]> m) m users !! name = Some u ↔
  (u ∈ users ∧ au_Name u = name) ∨ (name ∉ (au_Name <$> users) ∧ m !! name = Some u).
Proof.
  revert m. induction users as [|x users IH]; intros m Hnd; cbn [foldl].
  { cbn. split; [intros Hm; right; split; [apply not_elem_of_nil|done]|]. intros [[Hu _]|[_ ?]]; [by apply not_elem_of_nil in Hu|done]. }
  cbn in Hnd. apply NoDup_cons in Hnd as [Hx Hnd]. rewrite IH by done. cbn. rewrite not_elem_of_cons, elem_of_cons, lookup_insert_Some. split.
  - intros [[Hu Hn]|[Hout [[<- <-]|[Hne Hm]]]]; [by left; split; [right|]|left; by split; [left|]|]. right. split; [|done]. split; [congruence|done].
  - intros [[[->|Hu] Hn]|[[Hne Hout] Hm]].
    + right. subst name. split; [done|]. by left.
    + left. done.
    + right. split; [done|]. right. split; [congruence|done].
Qed.

Lemma acl_user_snapshot acl username hash u : acl_valid acl →
  acl_user (NewACLSnapshot (Some acl)) username hash = Some u ↔
  u ∈ acl_Users acl ∧ au_Name u = string_of_bytes username ∧ au_Enabled u = true ∧
  (hasACLRule (au_Rules u) "nopass" = true ∨ hash ∈ au_PasswordHashes u).
Proof.
  intros [_ Hnd]. unfold acl_user. cbn [NewACLSnapshot as_Users].
  pose proof (users_lookup (acl_Users acl) ∅ (string_of_bytes username)) as Hl.
  assert (∀ v, aclPasswordAllowed v hash = true ↔ hasACLRule (au_Rules v) "nopass" = true ∨ hash ∈ au_PasswordHashes v) as Hpw.
  { intros v. unfold aclPasswordAllowed, hasACLRule. rewrite orb_true_iff. apply or_iff_compat_l. rewrite existsb_exists. split.
    - intros (h & Hin & ->%bool_decide_eq_true). by apply list_elem_of_In.
    - intros Hin. exists hash. rewrite <-list_elem_of_In, bool_decide_eq_true. done. }
  destruct (foldl _ ∅ (acl_Users acl) !! string_of_bytes username) as [v|] eqn:Hv.
  - pose proof (proj1 (Hl v Hnd) eq_refl) as [[Hin Hn]|[_ Hm]]; [|by rewrite lookup_empty in Hm].
    destruct (au_Enabled v && aclPasswordAllowed v hash) eqn:Hok.
    + apply andb_true_iff in Hok as [He Hp%Hpw]. split; [by intros [= <-]|]. intros (Hu & Hnu & _).
      assert (Some v = Some u) as [= ->]; [|done]. apply (Hl u Hnd). by left.
    + split; [done|]. intros (Hu & Hnu & He & Hp). exfalso. assert (Some v = Some u) as [= ->] by (apply (Hl u Hnd); by left).
      rewrite He in Hok. apply Hpw in Hp. rewrite Hp in Hok. done.
  - split; [done|]. intros (Hu & Hnu & _). assert (None = Some u) as [=]. apply (Hl u Hnd). by left.
Qed.

(** ** Who may log in *)
Hypothesis sha256_form : ∀ p, hash_form (ACLPasswordHash p).

(** the value of a hexadecimal digit *)
Definition hex_value (c : byte) : option Z :=
  let v := byte_val c in
  if (48 <=? v) && (v <=? 57) then Some (v - 48)
  else if (97 <=? v) && (v <=? 102) then Some (v - 87)
  else if (65 <=? v) && (v <=? 70) then Some (v - 55)
  else None.

(** a text of a request spells a hash: its digits, in either case, between white space and
    after a # if there is one *)
Definition spells (text h : string) : Prop :=
  ∃ d, (bstr (TrimSpace text) = d ∨ bstr (TrimSpace text) = x23 :: d) ∧
       Forall2 (λ a b, is_Some (hex_value a) ∧ hex_value a = hex_value b) d (bstr h).
(** the hashes that a request gives for a user: in its list, or as rules with a # *)
Definition gives (x : ACLUserUpdate) (text : string) : Prop :=
  text ∈ uu_PasswordHashes x ∨ ∃ rule, rule ∈ uu_Rules x ∧ bstr (TrimSpace rule) = x23 :: bstr text.
(** the user of a name that an ACL had; the last one, if there are several *)
Definition had_user (acl : ACL) (name : string) (u : ACLUser) : Prop :=
  ∃ before after, acl_Users acl = before ++ u :: after ∧ au_Name u = name ∧ name ∉ (au_Name <$> after).
(** the hash lets a client in as a user of the request *)
Definition lets_in (current : ACL) (x : ACLUserUpdate) (h : string) : Prop :=
  (∃ rule, rule ∈ uu_Rules x ∧ EqualFold (bstr (TrimSpace rule)) "nopass" = true) ∨
  if decide (uu_NewPassword x ≠ "") then h = ACLPasswordHash (bstr (uu_NewPassword x))
  else (∃ text, gives x text ∧ spells text h) ∨
       (∀ text, ¬ gives x text) ∧ ∃ old text, had_user current (TrimSpace (uu_Name x)) old ∧ text ∈ au_PasswordHashes old ∧ spells text h.

Lemma users_by_name_last users name u : users_by_name users !! name = Some u ↔
  ∃ before after, users = before ++ u :: after ∧ au_Name u = name ∧ name ∉ (au_Name <$> after).
Proof.
  unfold users_by_name. induction users as [|x users IH] using rev_ind; cbn.
  { rewrite lookup_empty. split; [done|]. by intros ([] & ? & ? & _). }
  rewrite foldl_app. cbn. rewrite lookup_insert_Some. split.
  - intros [[<- <-]|[Hne (before & after & -> & Hn & Hout)%IH]]; [exists users, []; split_and!; [done..|apply not_elem_of_nil]|].
    exists before, (after ++ [x]). rewrite <-app_assoc. split_and!; [done..|]. rewrite fmap_app, not_elem_of_app. split; [done|]. by intros ->%list_elem_of_singleton.
  - intros (before & after & He & Hn & Hout). destruct after as [|y after _] using rev_ind.
    + apply app_inj_tail in He as [_ ->]. by left.
    + rewrite app_comm_cons, app_assoc in He. apply app_inj_tail in He as [-> ->]. rewrite fmap_app, not_elem_of_app in Hout. destruct Hout as [Hout Hy].
      right. split; [intros <-; apply Hy; by left|]. apply IH. by exists before, after.
Qed.

Definition lower_digit (v : Z) : byte := default x00 (Byte.of_N (Z.to_N (if v <? 10 then v + 48 else v + 87))).
Lemma hex_value_lower c : is_lower_hex c = true → ∃ v, hex_value c = Some v ∧ c = lower_digit v.
Proof. destruct c; intros Hc; try discriminate Hc; eexists; (split; [reflexivity|reflexivity]). Qed.
Lemma hex_value_byte c v : hex_value c = Some v → lower_byte c = lower_digit v.
Proof. destruct c; intros Hc; try discriminate Hc; injection Hc as <-; reflexivity. Qed.
Lemma lower_hex_value c : is_lower_hex (lower_byte c) = true → is_Some (hex_value c) ∧ hex_value c = hex_value (lower_byte c).
Proof. destruct c; intros Hc; try discriminate Hc; (split; [by eexists|reflexivity]). Qed.

Lemma norm_hash_spells text h : hash_form h → norm_hash text = h ↔ spells text h.
Proof.
  intros [_ Hh]. unfold norm_hash, spells, ToLowerHex. split.
  - intros <-. exists (bstr (TrimPrefixHash (TrimSpace text))). rewrite !bstr_of_bytes in *. split.
    + unfold TrimPrefixHash. destruct (bstr (TrimSpace text)) as [|c b] eqn:Hb; [by rewrite Hb; left|].
      destruct c; try (rewrite Hb; by left). right. by rewrite bstr_of_bytes.
    + apply Forall2_fmap_r, Forall_Forall2_diag. apply Forall_fmap in Hh. eapply Forall_impl; [exact Hh|]. intros c. apply lower_hex_value.
  - intros (d & Hd & Hdh). assert (bstr (TrimPrefixHash (TrimSpace text)) = d) as ->.
    { unfold TrimPrefixHash. destruct Hd as [Hd|Hd]; rewrite Hd; [|by rewrite bstr_of_bytes]. destruct d as [|c d]; [done|].
      apply Forall2_cons_inv_l in Hdh as (? & ? & [[v Hv] _] & _). destruct c; first [exact Hd | discriminate Hv]. }
    rewrite <-(of_bytes_bstr h). f_equal. clear Hd. induction Hdh as [|a b d h' [[v Hv] Hab] _ IH]; [done|]. inversion Hh as [|? ? Hb Hh']; subst. cbn.
    destruct (hex_value_lower b Hb) as (v' & Hv' & ->). rewrite (hex_value_byte a v) by done. rewrite (IH Hh'). congruence.
Qed.

Lemma nopass_head b : EqualFold b "nopass" = true → ∃ c b', b = c :: b' ∧ c ∈ [x6e; x4e].
Proof. destruct b as [|c b]; [done|]. intros Hf. exists c, b. split; [done|]. destruct c; (discriminate Hf || by repeat constructor). Qed.
Lemma nopass_not c l b word : bstr word = c :: l → c ∈ [x6f; x72] → EqualFold b "nopass" = true → LowerIs b word = false.
Proof.
  intros Hw Hc (c' & b' & -> & Hc')%nopass_head. unfold LowerIs. rewrite Hw. rewrite !elem_of_cons, elem_of_nil in Hc, Hc'.
  destruct Hc as [->|[->|[]]], Hc' as [->|[->|[]]]; reflexivity.
Qed.

Lemma normalizeACLRules_spec input rules rh : normalizeACLRules input = Ok (rules, rh) →
  (∀ text, text ∈ rh ↔ ∃ rule, rule ∈ input ∧ bstr (TrimSpace rule) = x23 :: bstr text) ∧
  (hasACLRule rules "nopass" = true ↔ ∃ rule, rule ∈ input ∧ EqualFold (bstr (TrimSpace rule)) "nopass" = true).
Proof.
  revert rules rh. induction input as [|raw input IH]; intros rules rh; cbn [normalizeACLRules].
  { intros [= <- <-]. split; [intros text|]; (split; [|by intros (? & ?%not_elem_of_nil & _)]); [by intros ?%not_elem_of_nil|done]. }
  cbv zeta. set (tok := TrimSpace raw). pose proof (nopass_head (bstr tok)) as Hhead.
  assert (∀ P : string → Prop, (∃ rule, rule ∈ raw :: input ∧ P rule) ↔ P raw ∨ ∃ rule, rule ∈ input ∧ P rule) as Hcons.
  { intros P. split; [intros (r & [->|Hr]%elem_of_cons & ?); eauto|]. intros [?|(r & ? & ?)]; eexists; (split; [|done]); [by left|by right]. }
  assert (∀ rules' rh' : list string, HasPrefix tok x23 = false → EqualFold (bstr tok) "nopass" = false →
    (∀ text, text ∈ rh' ↔ ∃ rule, rule ∈ input ∧ bstr (TrimSpace rule) = x23 :: bstr text) ∧
    (hasACLRule rules' "nopass" = true ↔ ∃ rule, rule ∈ input ∧ EqualFold (bstr (TrimSpace rule)) "nopass" = true) →
    (∀ text, text ∈ rh' ↔ ∃ rule, rule ∈ raw :: input ∧ bstr (TrimSpace rule) = x23 :: bstr text) ∧
    (hasACLRule rules' "nopass" = true ↔ ∃ rule, rule ∈ raw :: input ∧ EqualFold (bstr (TrimSpace rule)) "nopass" = true)) as Hskip.
  { intros rules' rh' Hp Hn [H1 H2]. split; [intros text|]; rewrite Hcons; [rewrite H1|rewrite H2]; fold tok; (split; [by right|]); intros [Hx|?]; try done.
    - exfalso. unfold HasPrefix in Hp. rewrite Hx in Hp. by rewrite bool_decide_eq_true_2 in Hp.
    - congruence. }
  case_bool_decide as He; [|destruct (HasPrefix tok x3e) eqn:Hpl; [done|destruct (HasPrefix tok x23) eqn:Hq;
    [|destruct (_ || _) eqn:Ho; [|destruct (LowerIs (bstr tok) "reset" || _) eqn:Hr; [done|]]]]].
  - intros Hok. apply IH in Hok. apply Hskip; [by rewrite He..|done].
  - destruct (normalizeACLRules input) as [[rs hs]|e|]; cbn [mbind outcome_bind]; [|done..]. intros [= <- <-]. destruct (IH rs hs eq_refl) as [H1 H2].
    unfold HasPrefix in Hq. destruct (bstr tok) as [|c b] eqn:Hb; [done|]. apply bool_decide_eq_true in Hq as ->. split.
    + intros text. rewrite elem_of_cons, H1, Hcons. fold tok. rewrite Hb. apply or_iff_compat_r. cbn [drop]. split.
      * intros ->. by rewrite bstr_of_bytes.
      * intros [= ->]. symmetry. apply of_bytes_bstr.
    + rewrite H2, Hcons. fold tok. rewrite Hb. split; [by right|]. intros [Hx|?]; [|done]. destruct (Hhead Hx) as (? & ? & [= <- _] & Hin).
      rewrite !elem_of_cons, elem_of_nil in Hin. naive_solver.
  - intros Hok. apply IH in Hok. apply Hskip; [done| |done]. destruct (EqualFold (bstr tok) "nopass") eqn:Hn; [|done].
    rewrite (nopass_not x6f [x6e] (bstr tok) "on"), (nopass_not x6f [x66; x66] (bstr tok) "off") in Ho by (done || left). done.
  - destruct (normalizeACLRules input) as [[rs hs]|e|]; cbn [mbind outcome_bind]; [|done..]. intros [= <- <-]. destruct (IH rs hs eq_refl) as [H1 H2]. split.
    + intros text. rewrite H1, Hcons. fold tok. split; [by right|]. intros [Hx|?]; [|done]. unfold HasPrefix in Hq. rewrite Hx in Hq. by rewrite bool_decide_eq_true_2 in Hq.
    + rewrite Hcons. fold tok. unfold hasACLRule in *. cbn [existsb]. rewrite orb_true_iff. by rewrite H2.
Qed.

(** what the hashes of a user that was built let in *)
Lemma user_for_lets_in current x u h : hash_form h → user_for (users_by_name (acl_Users current)) x u →
  (hasACLRule (au_Rules u) "nopass" = true ∨ h ∈ au_PasswordHashes u) ↔ lets_in current x h.
Proof.
  intros Hh (Hn & _ & _ & rh & [Hrh Hno]%normalizeACLRules_spec & Hhs). unfold lets_in. rewrite Hno. apply or_iff_compat_l.
  assert (∀ l : list string, h ∈ norm_hash <$> l ↔ ∃ text, text ∈ l ∧ spells text h) as Hl.
  { intros l. rewrite list_elem_of_fmap. split; intros (t & H1 & H2); exists t; [split; [done|]; by apply norm_hash_spells|split; [|done]; symmetry; by apply norm_hash_spells]. }
  assert (∀ text, text ∈ uu_PasswordHashes x ++ rh ↔ gives x text) as Hg by (intros text; unfold gives; by rewrite elem_of_app, Hrh).
  rewrite Hhs, Hn. unfold chosen_hashes. case_decide as Hnew.
  - rewrite bool_decide_eq_true_2 by done. cbn [fmap list_fmap]. rewrite list_elem_of_singleton. by rewrite (proj1 (norm_hash_form _ (sha256_form _))).
  - rewrite bool_decide_eq_false_2 by (intros Hx; by apply Hx). destruct (uu_PasswordHashes x ++ rh) as [|t l] eqn:He.
    + assert (∀ text, ¬ gives x text) as Hnone by (intros text Ht%Hg; by apply not_elem_of_nil in Ht).
      transitivity (∃ old text, had_user current (TrimSpace (uu_Name x)) old ∧ text ∈ au_PasswordHashes old ∧ spells text h).
      * unfold had_user. setoid_rewrite <-users_by_name_last. destruct (users_by_name _ !! _) as [old|].
        -- rewrite Hl. split; [intros (t & ? & ?); by exists old, t|]. intros (? & t & [= <-] & ? & ?). by exists t.
        -- split; [by intros ?%not_elem_of_nil|]. by intros (? & ? & ? & _).
      * split; [by right|]. intros [(? & []%Hnone & _)|[_ ?]]. done.
    + rewrite Hl. split; [intros (y & Hy%Hg & ?); left; by exists y|].
      intros [(y & Hy%Hg & ?)|[Hnone _]]; [by exists y|]. destruct (Hnone t). apply Hg. by left.
Qed.

(** ** At a proxy *)
Context `{Net} `{Addresses} `{MapRange}.

(** an AUTH that is answered with OK *)
Definition logged_in (o : outcome reqerr handled) : Prop := o = Ok (Handled (Some RespOK) None).
Definition db_in_range (cfg : Forward.Config) (db : option Z) : Prop := match db with Some n => 0 ≤ n < cf_BackendNumberDatabases cfg | None => True end.

Lemma handleACLAuth_logs_in cfg t r username password snap w : auth_args (rq_Multi r) = Some (username, password) →
  fw_acl (pw_fwd (hw_proxy w)) = Some snap → as_Enabled snap = true →
  logged_in (handleACLAuth cfg ACLPasswordHash t r w).1 ↔
  not_locked t (hw_proxy w) (hw_session w) ∧ ∃ u, acl_user snap username (ACLPasswordHash password) = Some u ∧ db_in_range cfg (au_DB u).
Proof.
  intros Hargs Hacl Hen.
  assert (wp (handleACLAuth cfg ACLPasswordHash t r) (λ o _, logged_in o ↔
    not_locked t (hw_proxy w) (hw_session w) ∧ ∃ u, acl_user snap username (ACLPasswordHash password) = Some u ∧ db_in_range cfg (au_DB u)) w) as Hw; [|exact Hw].
  unfold handleACLAuth. rewrite Hargs. h_steps. rewrite Hacl, Hen. cbn [negb]. h_steps. apply on_guard_wp. intros [|] gu' Hgu; h_steps.
  { split; [done|]. intros [Hnl _]. exfalso. destruct (pw_guard (hw_proxy w)) as [g|] eqn:Hg; [|by destruct Hgu].
    destruct Hgu as (g' & Hb & _). specialize (Hnl g Hg). by rewrite Hb in Hnl. }
  assert (not_locked t (hw_proxy w) (hw_session w)) as Hnl by (intros g Hg; by apply (before_not_locked t _ false w gu' Hgu)).
  destruct (acl_user snap username (ACLPasswordHash password)) as [u|].
  - destruct (match au_DB u with Some _ => _ | None => _ end) eqn:Hdb; h_steps.
    + split; [done|]. intros [_ (u' & [= <-] & Hr)]. exfalso. unfold db_in_range in Hr. destruct (au_DB u) as [db|]; [|done]. apply bool_decide_eq_true in Hdb. lia.
    + apply on_guard_wp. intros [] gu2 _. h_steps. split; [|done]. intros _. split; [done|]. exists u. split; [done|]. unfold db_in_range.
      destruct (au_DB u) as [db|]; [|done]. apply bool_decide_eq_false in Hdb. lia.
  - h_steps. apply on_guard_wp. intros b gu2 _. destruct (se_authorized (hw_session w)); h_steps; (split; [done|by intros [_ (? & ? & _)]]).
Qed.

End build.

(** * Updates: servers, then the store, then the proxies *)
Section update.
Context `{Env} `{TopomState.Config} `{UnicodeUpper} `{RBTree} `{!EnvLaws}.
Context (ACLPasswordHash : bytes → string) (BackendAuthPassword : string).

Abbreviation commands := (server_commands ACLPasswordHash BackendAuthPassword).

Definition current_acl (d : db) : ACL := default zero_ACL (db_acl d).
Definition servers_of (d : db) : list string := aclTargetServerAddrs (map_to_list (db_group d)).*2.
Definition tokens_of (d : db) : list string := merge_sort name_le (map_to_list (db_proxy d)).*1.

(** every command every server has to accept *)
Definition all_commands (d : db) (acl : ACL) : list (string * list string) :=
  if shouldSyncACLRuntime acl
  then concat ((λ addr, (addr,.) <$> commands acl (Some (current_acl d))) <$> servers_of d) else [].

Lemma wp_topom {A} (m : T A) (Q : outcome aclerr A → AW → Prop) w :
  wp m (λ r w', Q (match r with Ok a => Ok a | Err e => Err (ErrTopom e) | Panic => Panic end) (w', w.2)) w.1 → wp (topom m) Q w.
Proof. unfold wp, topom. by destruct (m w.1) as [[a|e|] w']. Qed.

(** nothing of the dashboard's has changed *)
Definition same_store (w w' : world) : Prop := w_db w' = w_db w ∧ w_cache w' = w_cache w.
Definition same_proxies (s s' : aclState) : Prop :=
  sy_told s' = sy_told s ∧ sy_revision s' = sy_revision s ∧ sy_failed s' = sy_failed s.

Lemma same_store_trans w1 w2 w3 : same_store w1 w2 → same_store w2 w3 → same_store w1 w3.
Proof. unfold same_store. naive_solver congruence. Qed.
Lemma same_proxies_trans s1 s2 s3 : same_proxies s1 s2 → same_proxies s2 s3 → same_proxies s1 s3.
Proof. unfold same_proxies. naive_solver congruence. Qed.

Lemma call_wp e w : wp (call e) (λ r w', same_store w w' ∧ (r = Ok tt ∨ r = Err e)) w.
Proof. unfold call. apply wp_bind, wp_next_tick. destruct (env_call _); [apply wp_ret|apply wp_fail]; (split; [done|auto]). Qed.

Lemma do_commands_wp addr cmds w : wp (do_commands addr cmds) (λ r w', same_store w.1 w'.1 ∧ same_proxies w.2 w'.2 ∧
  match r with Ok _ => sy_done w'.2 = sy_done w.2 ++ ((addr,.) <$> cmds) | Err _ => True | Panic => False end) w.
Proof.
  revert w. induction cmds as [|cmd cmds IH]; intros w; cbn [do_commands].
  { apply wp_ret. split; [done|]. split; [done|]. by rewrite app_nil_r. }
  apply wp_bind, wp_topom. eapply wp_mono; [apply call_wp|]. intros r w1 (Hs & [->| ->]); [|done].
  apply wp_bind, wp_modify. eapply wp_mono; [apply IH|]. cbn [fst snd]. intros r w2 (Hs2 & Hp2 & Hr).
  split; [by eapply same_store_trans|]. split; [by eapply same_proxies_trans|]. destruct r; [|done..].
  rewrite Hr. cbn. by rewrite <-app_assoc.
Qed.

Lemma sync_servers_wp acl current addrs w : wp (sync_servers ACLPasswordHash BackendAuthPassword acl current addrs) (λ r w',
  same_store w.1 w'.1 ∧ same_proxies w.2 w'.2 ∧
  match r with
  | Ok _ => sy_done w'.2 = sy_done w.2 ++ concat ((λ addr, (addr,.) <$> commands acl current) <$> addrs)
  | Err e => ∃ addr, addr ∈ addrs ∧ e = ErrRedisACL addr
  | Panic => False
  end) w.
Proof.
  revert w. induction addrs as [|addr addrs IH]; intros w; cbn [sync_servers].
  { apply wp_ret. split; [done|]. split; [done|]. by rewrite app_nil_r. }
  apply wp_bind, wp_on_err, wp_bind, wp_topom. eapply wp_mono; [apply call_wp|]. intros r w1 (Hs & [->| ->]).
  2: { apply wp_fail. split; [done|]. split; [done|]. exists addr. split; [by left|done]. }
  eapply wp_mono; [apply do_commands_wp|]. cbn [fst snd]. intros r w2 (Hs2 & Hp2 & Hr).
  pose proof (same_store_trans _ _ _ Hs Hs2) as Hs12. destruct r as [[]|e|]; [|apply wp_fail|done].
  - eapply wp_mono; [apply IH|]. intros r w3 (Hs3 & Hp3 & Hr3). split; [by eapply same_store_trans|].
    split; [by eapply same_proxies_trans|]. destruct r as [[]|e|]; [|naive_solver (by right)|done].
    rewrite Hr3, Hr. cbn. by rewrite <-app_assoc.
  - split; [done|]. split; [done|]. exists addr. split; [by left|done].
Qed.

Lemma tell_proxies_wp acl tokens w : wp (tell_proxies acl tokens) (λ r w',
  same_store w.1 w'.1 ∧ sy_done w'.2 = sy_done w.2 ∧
  match r with
  | Ok failed => ∃ told, sy_told w'.2 = sy_told w.2 ++ ((., acl) <$> told) ∧ tokens ≡ₚ told ++ failed
  | _ => False
  end) w.
Proof.
  revert w. induction tokens as [|token tokens IH]; intros w; cbn [tell_proxies].
  { apply wp_ret. split; [done|]. split; [done|]. exists []. by rewrite app_nil_r. }
  apply wp_bind, wp_topom, wp_next_tick. cbn [fst snd]. destruct (env_call _).
  - apply wp_bind, wp_modify. eapply wp_mono; [apply IH|]. cbn [fst snd]. intros r w2 (Hs & Hd & Hr). split; [done|]. split; [done|].
    destruct r as [failed| |]; [|done..]. destruct Hr as (told & Ht & Hp). exists (token :: told). cbn in Ht. rewrite Ht, <-app_assoc, Hp. done.
  - apply wp_bind. eapply wp_mono; [apply IH|]. cbn [fst snd]. intros r w2 (Hs & Hd & Hr). destruct r as [failed| |]; [|done..].
    apply wp_ret. split; [done|]. split; [done|]. destruct Hr as (told & Ht & Hp). exists told. split; [done|]. rewrite Hp. solve_Permutation.
Qed.

(** ** The store *)
Lemma coh_store_acl D a w : HookACL ∈ D → coh D w → coh D (set_db (db_set_acl a (w_db w)) w).
Proof.
  intros Hh [[W1 W2 W3] [C1 C2 C3 C4 C5 C6 C7]]. split; split; try done. left. by eapply dirty_app.
Qed.

(** what the end of an update or of a sync leaves: the proxies were told or are reported *)
Definition proxies_synced (d : db) (acl : ACL) (s s' : aclState) (r : outcome aclerr ACLView) : Prop :=
  ∃ told failed, sy_told s' = sy_told s ++ ((., acl) <$> told) ∧ tokens_of d ≡ₚ told ++ failed ∧
    sy_revision s' = acl_Revision acl ∧ sy_failed s' = failed ∧ sy_done s' = sy_done s ∧
    r = if decide (failed = []) then Ok (newACLView acl "ready") else Err (ErrProxyACL failed).

Lemma finish_sync_wp d ctx acl w : ctx_proxy ctx = db_proxy d →
  wp (finish_sync ctx acl) (λ r w', same_store w.1 w'.1 ∧ proxies_synced d acl w.2 w'.2 r) w.
Proof.
  intros Hd. unfold finish_sync, syncACLToProxies. rewrite Hd. apply wp_bind. eapply wp_mono; [apply tell_proxies_wp|].
  intros r w1 (Hs & Hdo & Hr). destruct r as [failed| |]; [|done..]. destruct Hr as (told & Ht & Hp).
  apply wp_bind, wp_modify. destruct failed as [|t failed].
  - apply wp_bind, wp_gets, wp_ret. split; [done|]. exists told, []. cbn. split_and!; try done.
    unfold aclSyncStatus. cbn. by rewrite bool_decide_eq_false_2 by naive_solver.
  - apply wp_fail. split; [done|]. exists told, (t :: failed). by cbn; split_and!.
Qed.

(** ** The operations *)
Definition update_result (req : option ACLUpdateRequest) (w : AW) (r : outcome aclerr ACLView) (w' : AW) : Prop :=
  let d := w_db w.1 in
  let built acl := ∃ now, buildACL ACLPasswordHash now (current_acl d) req = Ok acl in
  (** refused, or stopped by a server or by the store *)
  (w_db w'.1 = d ∧ coh [] w'.1 ∧ same_proxies w.2 w'.2 ∧ ∃ e, r = Err e ∧
     ((∃ e', e = ErrTopom e') ∨ (∃ addr, addr ∈ servers_of d ∧ e = ErrRedisACL addr) ∨
      (w'.2 = w.2 ∧ ∃ now, buildACL ACLPasswordHash now (current_acl d) req = Err e))) ∨
  (** the write took effect although it failed *)
  (r = Err (ErrTopom (ErrStore "update acl")) ∧ same_proxies w.2 w'.2 ∧ ∃ acl, built acl ∧ w_db w'.1 = db_set_acl acl d) ∨
  (** stored, after every server had taken it, and given to the proxies *)
  (∃ acl s, built acl ∧ w_db w'.1 = db_set_acl acl d ∧ coh [] w'.1 ∧ same_proxies w.2 s ∧
     sy_done s = sy_done w.2 ++ all_commands d acl ∧ proxies_synced d acl s w'.2 r).

Lemma UpdateACL_wp req w : coh [] w.1 → wp (UpdateACL ACLPasswordHash BackendAuthPassword req) (update_result req w) w.
Proof.
  intros Hc. unfold UpdateACL. apply wp_bind, wp_topom, newContext_wp; [done|..].
  2: { intros e w1 Hc1 Hs1. left. split; [apply Hs1|]. split; [done|]. split; [done|]. exists (ErrTopom e). split; [done|]. left. by exists e. }
  intros w1 Hc1 (Hdb1 & _) _ _ _. set (ctx := ctx_db (w_db w.1) _).
  apply wp_bind, wp_topom, wp_bind, wp_next_tick, wp_ret. cbn [fst snd]. set (w2 := set_tick _ w1). set (now := env_now _).
  assert (coh [] w2) as Hc2 by by apply (coh_other _ w1). change (ctx_acl ctx) with (current_acl (w_db w.1)).
  apply wp_lift_bind; [|intros e He|by intros ?%buildACL_no_panic].
  2: { left. split; [done|]. split; [done|]. split; [done|]. exists e. split; [done|]. right. right. split; [done|]. by exists now. }
  intros acl Hacl. apply wp_bind. assert (wp (syncACLToRedis ACLPasswordHash BackendAuthPassword ctx acl) (λ r w',
    same_store w2 w'.1 ∧ same_proxies w.2 w'.2 ∧ match r with
    | Ok _ => sy_done w'.2 = sy_done w.2 ++ all_commands (w_db w.1) acl
    | Err e => ∃ addr, addr ∈ servers_of (w_db w.1) ∧ e = ErrRedisACL addr
    | Panic => False end) (w2, w.2)) as Hredis.
  { unfold syncACLToRedis, all_commands. destruct (shouldSyncACLRuntime acl); [exact (sync_servers_wp acl _ _ (w2, w.2))|].
    apply wp_ret. split; [done|]. split; [done|]. by rewrite app_nil_r. }
  eapply wp_mono; [exact Hredis|]. clear Hredis. intros r [w3 s3] ((Hdb3 & Hca3) & Hp3 & Hr). cbn [fst snd] in *.
  assert (w_db w3 = w_db w.1) as Hdb by (rewrite Hdb3; exact Hdb1). assert (coh [] w3) as Hc3 by by apply (coh_other _ w2).
  destruct r as [[]|e|]; [| |done].
  2: { destruct Hr as (addr & Hin & ->). left. split_and!; [done..|]. exists (ErrRedisACL addr). split; [done|]. right. left. eauto. }
  apply wp_bind, wp_topom. unfold storeUpdateACL, store_write. apply wp_bind, wp_next_tick. cbn [fst snd].
  set (w4 := set_tick _ w3). assert (coh [] w4) as Hc4 by by apply (coh_other _ w3).
  destruct (env_write _) as [|[]].
  - apply wp_modify, wp_bind, wp_topom, wp_modify. cbn [fst snd]. set (w5 := dirtyACLCache _).
    assert (coh [] w5) as Hc5. { apply coh_push, coh_store_acl; [by left|]. by apply coh_weaken. }
    eapply wp_mono; [by apply (finish_sync_wp (w_db w.1))|]. cbn [fst snd]. intros r [w6 s6] [[Hd6 Hca6] Hpr].
    right. right. exists acl, s3. cbn [fst snd] in *. split; [by exists now|]. rewrite Hd6. split; [unfold w5; cbn; by rewrite Hdb|].
    split; [by apply (coh_other _ w5)|]. done.
  - apply wp_bind, wp_modify, wp_fail. right. left. split; [done|]. split; [done|]. exists acl. split; [by exists now|]. cbn. by rewrite Hdb.
  - apply wp_fail. left. split; [done|]. split; [done|]. split; [done|]. eexists. split; [done|]. left. eauto.
Qed.

(** C9: the order of an update.  An update that is refused, or that a Redis server or the
    store does not take, leaves the store and the proxies as they were; an update is
    stored only after every server of every group has accepted every command of it, and
    then every proxy has been given it or is reported as failed, in the answer and in
    the status; the store changes in nothing but the ACL, the next operation sees the new
    one, and no update panics.  The exception is a write that takes effect although the
    store reports that it failed. *)
Theorem UpdateACL_correct S req w : reach S w.1 →
  wp (UpdateACL ACLPasswordHash BackendAuthPassword req) (update_result req w) w.
Proof. intros [Hc _ _ _]%reach_Inv. by apply UpdateACL_wp. Qed.
End update.

(** * Concrete updates *)

(** two passwords and their digests, as far as the examples need them *)
Definition digits (c : string) : string := String.concat "" (repeat c 64).
Definition demo_hash (p : bytes) : string := if bool_decide (p = bstr "open sesame") then digits "a" else digits "0".

Lemma demo_hash_form p : hash_form (demo_hash p).
Proof. unfold demo_hash, hash_form. case_bool_decide; (split; [done|]); repeat (constructor; [done|]); constructor. Qed.

Definition demo_request : ACLUpdateRequest :=
  mkUpdate true [Some (mkUserUpdate " ali " true (Some 3) "open sesame" [] ["+@read"; "~*"; "on"]%string);
                 Some (mkUserUpdate "bob" false None "" [("#" +:+ digits "A")%string] ["+get"]%string)].
Definition demo_acl : ACL :=
  mkACL 1 true [mkACLUser "ali" true (Some 3) [digits "a"] ["+@read"; "~*"]%string;
                mkACLUser "bob" false None [digits "a"] ["+get"]%string] "".

Definition acl_proxy : HW :=
  mkHW (setAuthorized false demo_session)
    (mkPW (mkFwd demo_router (Some (NewACLSnapshot (Some demo_acl))) ∅ ∅ ((λ _, 0) <$> slot_ids) []) (pw_cache demo_proxy) (pw_guard demo_proxy)
       (pw_limiter demo_proxy) (pw_sessions demo_proxy)).
Definition acl_auth (username password : string) : Request :=
  mkRequest [bulk (bstr "AUTH"); bulk (bstr username); bulk (bstr password)] (bstr "AUTH") 0 0 0 None 0.
Abbreviation auth_at databases := (@handleACLAuth (mkConfig databases 1 1 false []) demo_addresses demo_range demo_hash 1000).


Definition no_sync : aclState := mkAclState 0 [] [] [].

Lemma UpdateACL_correct_witness :
  (let '(r, w') := @UpdateACL calm demo_config demo_upper demo_hash "" (Some demo_request) (w_online, no_sync) in
   (match r with Ok _ => true | _ => false end, db_acl (w_db w'.1), length (sy_done w'.2), (sy_told w'.2).*1)) =
  (true, Some demo_acl, 6%nat, ["p"; "q"]%string) ∧
  wp (@UpdateACL calm demo_config demo_upper demo_hash "" (Some demo_request))
    (@update_result demo_config demo_hash "" (Some demo_request) (w_online, no_sync)) (w_online, no_sync).
Proof.
  split; [by vm_compute|].
  apply (@UpdateACL_correct calm demo_config demo_upper list_tree calm_laws demo_hash "" true (Some demo_request) (w_online, no_sync) w_online_reach).
Defined.

(** An environment in which, once the dashboard has started, writes take effect and fail. *)
Definition late : Env := {|
  env_read _ := true;
  env_write t := if decide (t = 0%nat) then WriteOk else WriteErr true;
  env_fill _ := FillOk;
  env_call _ := true;
  env_model _ := None;
  env_migrate _ := Some 0;
  env_keyspace _ := Some [];
  env_runid _ _ := ""%string;
  env_resolve _ _ := None;
  env_now _ := ""%string;
  env_range _ l := l;
  env_range_tokens _ l := l
|}.

Definition w_late : world :=
  (@run_op late demo_config demo_upper list_tree (OpStart (mkTopomModel "" "" "" "" 0 "" "") false) w_idle).2.

Lemma w_late_reach : @reach late demo_config demo_upper list_tree true w_late.
Proof.
  apply reach_op; [|done]. apply reach_init, demo_initial; [done|split; [by right; left|done]|done].
Qed.

(** The exception is real, and the cache is not told: the dashboard goes
    on with the ACL from before the write, and its next update has the same revision. *)
Theorem acl_write_forgotten : ∃ w w' ctx, @reach late demo_config demo_upper list_tree true w ∧
  @UpdateACL late demo_config demo_upper demo_hash "" (Some demo_request) (w, no_sync) = (Err (ErrTopom (ErrStore "update acl")), w') ∧
  db_acl (w_db w'.1) = Some demo_acl ∧
  (@newContext late demo_config demo_upper w'.1).1 = Ok ctx ∧ ctx_acl ctx = zero_ACL ∧
  next_revision (ctx_acl ctx) = acl_Revision demo_acl.
Proof.
  set (run := @UpdateACL late demo_config demo_upper demo_hash "" (Some demo_request) (w_late, no_sync)).
  assert (match (@newContext late demo_config demo_upper run.2.1).1 with Ok ctx => ctx_acl ctx | _ => demo_acl end = zero_ACL) as Hz by by vm_compute.
  exists w_late, run.2. destruct ((@newContext late demo_config demo_upper run.2.1).1) as [ctx|e|] eqn:Hc; [|done..].
  exists ctx. rewrite Hz. split; [|split; [|split; [|split; [done|split; [done|]]]]].
  - apply w_late_reach.
  - assert (run.1 = Err (ErrTopom (ErrStore "update acl"))) as <- by by vm_compute. apply surjective_pairing.
  - by vm_compute.
  - by vm_compute.
Qed.
