(* ===== verification/Broadcast.v ===== *)
(** Invalidations sent to the other proxies: pkg/proxy/hot_key_cache_broadcast.go,
    pkg/topom/topom_hot_key_cache.go, and the router's side of both.

    A proxy queues the keys its clients have written ([hotKeyCacheBroadcastKeys],
    [Enqueue]); its reporter collects them ([mergePending]) and when its timer fires
    ([flushPending]) sends them to the dashboard, which has every other registered proxy
    drop them.  A step of [bstep] is one of these; what the network does to each call is
    chosen by the environment: a proxy may be out of reach, or its answer may be lost. *)

From S2P Require Import Prelude Bufio Resp Mapper Models TopomContext TopomState TopomCache.
From S2P Require Import Router Stream Forward HotKeyCache.
Definition HotKeyCacheBroadcastMaxKeys : nat := 1024.
Definition defaultHotKeyCacheBroadcastQueueSize : Z := 1024.
Definition millisecond : Z := 1000000.

Record hotKeyCacheBroadcastEvent := mkBEvent { be_database : Z; be_keys : list bytes }.

(** [rp_queue] is [None] for a nil channel; the counters are those of [HotKeyCache] *)
Record reporter := mkReporter {
  rp_enabled : bool;
  rp_timeout : Z;
  rp_queue : option (list hotKeyCacheBroadcastEvent);
  rp_queueSize : Z;
  rp_stopped : bool;
  rp_topomAdminAddr : string;
  rp_sourceProxyToken : string;
  rp_xauth : string;
  rp_attempts : Z;
  rp_failures : Z;
  rp_dropped : Z;
  rp_coalesced : Z;
}.

Definition newHotKeyCacheBroadcastReporter (enabled : bool) (timeout queueSize : Z) : reporter :=
  let queueSize := if decide (queueSize = 0) then defaultHotKeyCacheBroadcastQueueSize else queueSize in
  mkReporter enabled timeout (if enabled && (0 <? timeout) && (0 <? queueSize) then Some [] else None) queueSize
    false "" "" "" 0 0 0 0.

Definition rp_set_queue (q : list hotKeyCacheBroadcastEvent) (r : reporter) : reporter :=
  mkReporter (rp_enabled r) (rp_timeout r) (Some q) (rp_queueSize r) (rp_stopped r) (rp_topomAdminAddr r)
    (rp_sourceProxyToken r) (rp_xauth r) (rp_attempts r) (rp_failures r) (rp_dropped r) (rp_coalesced r).
Definition rp_count (attempts failures dropped coalesced : Z) (r : reporter) : reporter :=
  mkReporter (rp_enabled r) (rp_timeout r) (rp_queue r) (rp_queueSize r) (rp_stopped r) (rp_topomAdminAddr r)
    (rp_sourceProxyToken r) (rp_xauth r) (rp_attempts r + attempts) (rp_failures r + failures)
    (rp_dropped r + dropped) (rp_coalesced r + coalesced).
(** [Close] *)
Definition reporter_Close (r : reporter) : reporter :=
  match rp_queue r with
  | None => r
  | Some _ => mkReporter (rp_enabled r) (rp_timeout r) (rp_queue r) (rp_queueSize r) true (rp_topomAdminAddr r)
      (rp_sourceProxyToken r) (rp_xauth r) (rp_attempts r) (rp_failures r) (rp_dropped r) (rp_coalesced r)
  end.
Definition SetSource (token xauth : string) (r : reporter) : reporter :=
  mkReporter (rp_enabled r) (rp_timeout r) (rp_queue r) (rp_queueSize r) (rp_stopped r) (rp_topomAdminAddr r)
    token xauth (rp_attempts r) (rp_failures r) (rp_dropped r) (rp_coalesced r).
Definition SetTopomAdminAddr (addr : string) (r : reporter) : reporter :=
  mkReporter (rp_enabled r) (rp_timeout r) (rp_queue r) (rp_queueSize r) (rp_stopped r) addr
    (rp_sourceProxyToken r) (rp_xauth r) (rp_attempts r) (rp_failures r) (rp_dropped r) (rp_coalesced r).

Definition addressed (r : reporter) : bool :=
  negb (bool_decide (rp_topomAdminAddr r = "" ∨ rp_sourceProxyToken r = "" ∨ rp_xauth r = "")).
Definition reporter_Enabled (r : reporter) : bool :=
  rp_enabled r && (0 <? rp_timeout r) && match rp_queue r with Some _ => true | None => false end && addressed r.

(** a full queue drops the event *)
Definition Enqueue (database : Z) (keys : list bytes) (r : reporter) : bool * reporter :=
  if bool_decide (keys = []) || negb (reporter_Enabled r) then (false, r)
  else match rp_queue r with
  | None => (false, r)
  | Some q =>
      if decide (Z.of_nat (length q) < rp_queueSize r) then (true, rp_set_queue (q ++ [mkBEvent database keys]) r)
      else (false, rp_count 0 0 1 0 r)
  end.

(** [keys[:n]] of at most 1024 keys each *)
Fixpoint chunks (fuel : nat) (keys : list bytes) : list (list bytes) :=
  match fuel, keys with
  | S fuel, _ :: _ => take HotKeyCacheBroadcastMaxKeys keys :: chunks fuel (drop HotKeyCacheBroadcastMaxKeys keys)
  | _, _ => []
  end.
Definition chunked (keys : list bytes) : list (list bytes) := chunks (length keys) keys.

(** [Router.hotKeyCacheBroadcastKeys]; the keys that were accepted *)
Definition hotKeyCacheBroadcastKeys (database : Z) (keys : list bytes) (r : reporter) : list bytes * reporter :=
  if negb (reporter_Enabled r) then ([], r)
  else foldl (λ '(acc, r) ks, let '(ok, r) := Enqueue database ks r in ((if ok : bool then acc ++ ks else acc), r))
         ([], r) (chunked keys).

(** ** The pending keys *)
Abbreviation pending_keys := (gmap Z (gset bytes)).

Definition merge_key (st : gset bytes * Z) (key : bytes) : gset bytes * Z :=
  if decide (key ∈ st.1) then (st.1, st.2 + 1) else ({[key]} ∪ st.1, st.2).

Definition mergePending (pending : pending_keys) (event : hotKeyCacheBroadcastEvent) (r : reporter) : pending_keys * reporter :=
  let '(keys, coalesced) := foldl merge_key (default ∅ (pending !! be_database event), 0) (be_keys event) in
  (<[be_database event := keys]> pending, rp_count 0 0 0 coalesced r).

(** ** The dashboard *)

(** what becomes of a call to a proxy: done and answered, lost, or done and not answered *)
Inductive delivery := Delivered | Lost | Unanswered.

(** an attempt: whether the request reaches the dashboard, what becomes of its calls, and
    whether its answer comes back in time *)
Record attempt := mkAttempt { at_reaches : bool; at_call : string → delivery; at_answer : bool }.

Record HotKeyCacheBroadcastResult := mkBResult { br_TotalProxies : Z; br_FailedProxies : Z; br_Invalidated : Z }.

Definition hotKeyCacheBroadcastDefaultTimeout : Z := 100 * millisecond.
Definition normalizeHotKeyCacheBroadcastTimeout (timeoutMillis : Z) : Z :=
  if decide (timeoutMillis ≤ 0) then hotKeyCacheBroadcastDefaultTimeout
  else if decide (timeoutMillis < 10) then 10 * millisecond
  else if decide (timeoutMillis > 1000) then 1000 * millisecond
  else timeoutMillis * millisecond.

(** the caches of the running proxies, by their tokens *)
Abbreviation caches := (gmap string HotKeyCache).

(** the call of one target: [InvalidateHotKeyCache] there *)
Definition call_target (calls : string → delivery) (database : Z) (keys : list bytes)
    (st : HotKeyCacheBroadcastResult * caches) (token : string) : HotKeyCacheBroadcastResult * caches :=
  let '(res, cs) := st in
  let failed := mkBResult (br_TotalProxies res) (br_FailedProxies res + 1) (br_Invalidated res) in
  match cs !! token, calls token with
  | None, _ | _, Lost => (failed, cs)
  | Some c, Unanswered => (failed, <[token := (invalidateRemote database keys c).2]> cs)
  | Some c, Delivered =>
      let '(n, c) := invalidateRemote database keys c in
      (mkBResult (br_TotalProxies res) (br_FailedProxies res) (br_Invalidated res + n), <[token := c]> cs)
  end.

Section broadcast.
(** the orders in which maps are ranged over *)
Context (range_tokens : gmap string Proxy → list string) (range_pending : pending_keys → list (Z * gset bytes))
  (range_keys : gset bytes → list bytes).
Context `{Env} `{TopomState.Config} `{UnicodeUpper}.

(** the state of one reporting proxy, of the dashboard, and of the caches *)
Record BW := mkBW {
  bw_topom : world;
  bw_caches : caches;
  bw_rep : reporter;
  bw_pending : pending_keys;
  bw_timer : bool;
  bw_running : bool;   (** the reporter's [loop] *)
  bw_accepted : list (Z * bytes);   (** the keys [Enqueue] accepted, for the theorems *)
  bw_flushed : list (Z * bytes);    (** the keys a flush has reported, or tried to *)
  bw_skipped : list (Z * bytes);    (** those dropped by a flush because the reporter was not enabled *)
}.

(** [hotKeyCacheFanoutTargets]: the registered proxies but the source *)
Definition hotKeyCacheFanoutTargets (source : string) : T (list string) :=
  ctx ← newContext;
  match ctx_proxy ctx !! source with
  | None => fail (ErrProxyNotExist source)
  | Some _ => mret (filter (λ token, token ≠ source) (range_tokens (ctx_proxy ctx)))
  end.

(** [HotKeyCacheInvalidate]: [None] when it returns an error *)
Definition HotKeyCacheInvalidate (a : attempt) (source : string) (database : Z) (keys : list bytes) (w : world) (cs : caches)
    : option HotKeyCacheBroadcastResult * world * caches :=
  if bool_decide (source = "") then (None, w, cs)
  else if bool_decide (keys = []) then (Some (mkBResult 0 0 0), w, cs)
  else if bool_decide (HotKeyCacheBroadcastMaxKeys < length keys)%nat then (None, w, cs)
  else match hotKeyCacheFanoutTargets source w with
  | (Ok targets, w) =>
      let '(res, cs) := foldl (call_target (at_call a) database keys) (mkBResult (Z.of_nat (length targets)) 0 0, cs) targets in
      (Some res, w, cs)
  | (_, w) => (None, w, cs)
  end.

(** [report]: whether it returned without an error *)
Definition report (a : attempt) (database : Z) (keys : list bytes) (r : reporter) (w : world) (cs : caches) : bool * world * caches :=
  if bool_decide (keys = []) then (true, w, cs)
  else if negb (rp_enabled r && (0 <? rp_timeout r) && addressed r) then (true, w, cs)
  else if negb (at_reaches a) then (false, w, cs)
  else
    let '(res, w, cs) := HotKeyCacheInvalidate a (rp_sourceProxyToken r) database keys w cs in
    match res with
    | Some res => (at_answer a && bool_decide (br_FailedProxies res = 0), w, cs)
    | None => (false, w, cs)
    end.

(** the loop over the chunks of one database; [as_] are the attempts to come *)
Fixpoint report_chunks (as_ : nat → attempt) (database : Z) (kss : list (list bytes)) (s : BW) : (nat → attempt) * BW :=
  match kss with
  | [] => (as_, s)
  | keys :: kss =>
      let '(ok, w, cs) := report (as_ 0%nat) database keys (bw_rep s) (bw_topom s) (bw_caches s) in
      let rep := rp_count 1 (if ok : bool then 0 else 1) 0 0 (bw_rep s) in
      report_chunks (λ i, as_ (S i)) database kss
        (mkBW w cs rep (bw_pending s) (bw_timer s) (bw_running s) (bw_accepted s) (bw_flushed s ++ ((database,.) <$> keys)) (bw_skipped s))
  end.

Fixpoint flush_databases (as_ : nat → attempt) (dbs : list (Z * gset bytes)) (s : BW) : BW :=
  match dbs with
  | [] => s
  | (database, m) :: dbs =>
      let keys := range_keys m in
      if bool_decide (keys = []) || negb (reporter_Enabled (bw_rep s))
      then flush_databases as_ dbs (mkBW (bw_topom s) (bw_caches s) (bw_rep s) (bw_pending s) (bw_timer s) (bw_running s) (bw_accepted s)
             (bw_flushed s) (bw_skipped s ++ ((database,.) <$> keys)))
      else let '(as_, s) := report_chunks as_ database (chunked keys) s in flush_databases as_ dbs s
  end.

(** [flushPending], and the reset of the map and the timer *)
Definition flushPending (as_ : nat → attempt) (s : BW) : BW :=
  let s := flush_databases as_ (range_pending (bw_pending s)) s in
  mkBW (bw_topom s) (bw_caches s) (bw_rep s) ∅ false (bw_running s) (bw_accepted s) (bw_flushed s) (bw_skipped s).

Definition bw_set_rep (r : reporter) (s : BW) : BW :=
  mkBW (bw_topom s) (bw_caches s) r (bw_pending s) (bw_timer s) (bw_running s) (bw_accepted s) (bw_flushed s) (bw_skipped s).

(** one event: a write's keys are announced, the reporter's loop receives an event or its
    timer fires, its addresses change, it is closed and its loop returns; between these the caches
    may change at will, and the dashboard as long as its own cache is coherent *)
Inductive bstep (s : BW) : BW → Prop :=
| b_announce database keys acc r : hotKeyCacheBroadcastKeys database keys (bw_rep s) = (acc, r) →
    bstep s (mkBW (bw_topom s) (bw_caches s) r (bw_pending s) (bw_timer s) (bw_running s) (bw_accepted s ++ ((database,.) <$> acc)) (bw_flushed s) (bw_skipped s))
| b_receive e q pending r : bw_running s = true → rp_queue (bw_rep s) = Some (e :: q) →
    mergePending (bw_pending s) e (rp_set_queue q (bw_rep s)) = (pending, r) →
    bstep s (mkBW (bw_topom s) (bw_caches s) r pending true (bw_running s) (bw_accepted s) (bw_flushed s) (bw_skipped s))
| b_timer as_ : bw_running s = true → bw_timer s = true → bstep s (flushPending as_ s)
| b_source token xauth : bstep s (bw_set_rep (SetSource token xauth (bw_rep s)) s)
| b_topom addr : bstep s (bw_set_rep (SetTopomAdminAddr addr (bw_rep s)) s)
| b_close : bstep s (bw_set_rep (reporter_Close (bw_rep s)) s)
| b_exit : bw_running s = true → rp_stopped (bw_rep s) = true →
    bstep s (mkBW (bw_topom s) (bw_caches s) (bw_rep s) (bw_pending s) false false (bw_accepted s) (bw_flushed s) (bw_skipped s))
| b_other w cs : coh [] w → bstep s (mkBW w cs (bw_rep s) (bw_pending s) (bw_timer s) (bw_running s) (bw_accepted s) (bw_flushed s) (bw_skipped s)).

Definition new_bw (w : world) (cs : caches) (r : reporter) : BW := mkBW w cs r ∅ false (match rp_queue r with Some _ => true | None => false end) [] [] [].
End broadcast.
