(* ===== verification/BroadcastTheorems.v ===== *)
(** What the broadcast of invalidations guarantees.

    [binv] is the invariant of the reporting proxy: keys that were accepted are in the
    queue, pending with the timer set, or flushed.  [gone] says that a key is in the cache
    of no other registered proxy. *)

From S2P Require Import Prelude Bufio Resp Mapper Models TopomContext TopomState TopomCache TopomFrame.
From S2P Require Import TopomProxy TopomGroup TopomInv TopomRules TopomRebalance TopomSafety TopomTheorems TopomFunctional.
From S2P Require Import Router Stream Forward HotKeyCache Broadcast.
(** * Chunks *)
Lemma chunks_concat fuel keys : (length keys <= fuel)%nat → concat (chunks fuel keys) = keys.
Proof.
  revert keys. induction fuel as [|fuel IH]; intros keys Hl; [by destruct keys; [|cbn in Hl; lia]|].
  destruct keys as [|k keys]; [done|]. cbn [chunks]. cbn [concat]. rewrite IH; [apply take_drop|].
  rewrite length_drop. unfold HotKeyCacheBroadcastMaxKeys. cbn [length] in *. lia.
Qed.

Lemma chunked_concat keys : concat (chunked keys) = keys.
Proof. by apply chunks_concat. Qed.

Lemma chunks_small fuel keys : Forall (λ ks, ks ≠ [] ∧ (length ks <= HotKeyCacheBroadcastMaxKeys)%nat) (chunks fuel keys).
Proof.
  revert keys. induction fuel as [|fuel IH]; intros keys; [constructor|]. destruct keys as [|k keys]; [constructor|].
  cbn [chunks]. constructor; [|apply IH]. split; [done|]. rewrite length_take. lia.
Qed.

(** * Caches *)
Lemma remote_smaller database keys c : smaller c (invalidateRemote database keys c).2.
Proof.
  unfold invalidateRemote. destruct (negb (Enabled c)); [done|]. destruct (negb _); [done|].
  pose proof (drop_entries_smaller (mkCKey database <$> filter (λ key, key ∈ hc_keys c) keys) (hc_incr_version c)) as Hs.
  destruct (drop_entries _ _) as [n c1]. cbn in *. etrans; [apply version_smaller|]. etrans; [exact Hs|apply count_smaller].
Qed.

Lemma remote_gone database keys key c : Enabled c = true → key ∈ hc_keys c → key ∈ keys →
  hc_entries (invalidateRemote database keys c).2 !! mkCKey database key = None.
Proof.
  intros He Hc Hk. unfold invalidateRemote. rewrite He. cbn [negb].
  assert (existsb (λ key, isConfigured key c) keys = true) as ->.
  { apply existsb_exists. exists key. split; [by apply list_elem_of_In|]. unfold isConfigured. by rewrite He, bool_decide_eq_true_2. }
  cbn [negb]. pose proof (drop_entries_gone (mkCKey database <$> filter (λ key, key ∈ hc_keys c) keys) (mkCKey database key)) as Hg.
  destruct (drop_entries _ _) as [n c1] eqn:Hd. cbn. specialize (Hg ltac:(apply list_elem_of_fmap; exists key; split; [done|]; by apply list_elem_of_filter) (hc_incr_version c)).
  by rewrite Hd in Hg.
Qed.

(** a key of the cache's configuration is not in it *)
Definition absent (database : Z) (key : bytes) (c : HotKeyCache) : Prop :=
  Enabled c = true → key ∈ hc_keys c → hc_entries c !! mkCKey database key = None.

Lemma smaller_absent database key c c' : smaller c c' → absent database key c → absent database key c'.
Proof.
  intros (Hset & Hsub & _) Ha He Hk. rewrite (same_setup_Enabled c c' Hset) in He. destruct Hset as (_ & _ & _ & _ & Hkeys).
  rewrite Hkeys in Hk. specialize (Ha He Hk). by eapply lookup_weaken_None.
Qed.

Lemma remote_absent database keys key c : key ∈ keys → absent database key (invalidateRemote database keys c).2.
Proof.
  intros Hk He Hc. pose proof (remote_smaller database keys c) as (Hset & _). rewrite (same_setup_Enabled _ _ Hset) in He.
  destruct Hset as (_ & _ & _ & _ & Hkeys). rewrite Hkeys in Hc. by apply remote_gone.
Qed.

(** ** A round of calls *)
Definition shrunk (cs cs' : caches) : Prop := ∀ token c', cs' !! token = Some c' → ∃ c, cs !! token = Some c ∧ smaller c c'.

#[export] Instance shrunk_preorder : PreOrder shrunk.
Proof.
  split.
  - intros cs token c Hc. by exists c.
  - intros cs1 cs2 cs3 H1 H2 token c3 H3. destruct (H2 token c3 H3) as (c2 & Hc2 & Hs2). destruct (H1 token c2 Hc2) as (c1 & Hc1 & Hs1).
    exists c1. split; [done|]. by etrans.
Qed.

Lemma call_target_step calls database keys st token : let st' := call_target calls database keys st token in
  shrunk st.2 st'.2 ∧ br_FailedProxies st.1 ≤ br_FailedProxies st'.1 ∧
  (br_FailedProxies st'.1 = br_FailedProxies st.1 → ∃ c', st'.2 !! token = Some c' ∧ ∀ key, key ∈ keys → absent database key c').
Proof.
  destruct st as [res cs]. cbn. assert (∀ c, cs !! token = Some c → shrunk cs (<[token := (invalidateRemote database keys c).2]> cs)) as Hshrink.
  { intros c Hc t c'. rewrite lookup_insert_Some. intros [[<- <-]|[_ Ht]]; [|by exists c'].
    exists c. split; [done|]. apply remote_smaller. }
  destruct (cs !! token) as [c|] eqn:Hc; [|cbn; split; [done|lia]].
  destruct (calls token); cbn.
  - destruct (invalidateRemote database keys c) as [n c'] eqn:Hi. pose proof (Hshrink c eq_refl) as Hs.
    pose proof (λ key, remote_absent database keys key c) as Ha. rewrite Hi in Hs, Ha. cbn in *. split; [done|]. split; [lia|].
    intros _. exists c'. split; [apply lookup_insert_eq|done].
  - split; [done|lia].
  - split; [by apply Hshrink|lia].
Qed.

(** in the caches of these proxies the key is not *)
Definition gone (tokens : list string) (database : Z) (key : bytes) (cs : caches) : Prop :=
  ∀ token c, token ∈ tokens → cs !! token = Some c → absent database key c.

Lemma shrunk_gone tokens database key cs cs' : shrunk cs cs' → gone tokens database key cs → gone tokens database key cs'.
Proof.
  intros Hs Hg token c' Ht Hc'. destruct (Hs token c' Hc') as (c & Hc & Hsm). eapply smaller_absent; [done|]. by apply (Hg token c).
Qed.

Lemma call_targets calls database keys tokens st : let st' := foldl (call_target calls database keys) st tokens in
  shrunk st.2 st'.2 ∧ br_FailedProxies st.1 ≤ br_FailedProxies st'.1 ∧
  (br_FailedProxies st'.1 = br_FailedProxies st.1 → ∀ key, key ∈ keys → gone tokens database key st'.2).
Proof.
  revert st. induction tokens as [|t tokens IH]; intros st; cbn [foldl]; [by split; [|split; [|intros _ key _ t c ?%not_elem_of_nil]]|].
  destruct (call_target_step calls database keys st t) as (Hs1 & Hf1 & Hg1). set (st1 := call_target _ _ _ st t) in *.
  destruct (IH st1) as (Hs2 & Hf2 & Hg2). split; [by etrans|]. split; [lia|]. intros Hf key Hk token c Ht Hc.
  apply elem_of_cons in Ht as [->|Ht]; [|apply (Hg2 ltac:(lia) key Hk token c Ht Hc)].
  destruct (Hg1 ltac:(lia)) as (c1 & Hc1 & Ha). destruct (Hs2 t c Hc) as (c1' & Hc1' & Hsm).
  assert (c1' = c1) as -> by congruence. eapply smaller_absent; [done|]. by apply Ha.
Qed.

(** * Reports *)
Definition core (r : reporter) :=
  (rp_enabled r, rp_timeout r, rp_queue r, rp_queueSize r, rp_topomAdminAddr r, rp_sourceProxyToken r, rp_xauth r, rp_stopped r).

Lemma core_Enabled r r' : core r' = core r → reporter_Enabled r' = reporter_Enabled r.
Proof. unfold core, reporter_Enabled, addressed. intros Hc. by simplify_eq; repeat match goal with Hx : _ r' = _ r |- _ => rewrite Hx; clear Hx end. Qed.

Section broadcast.
Context (range_tokens : gmap string Proxy → list string) (range_pending : pending_keys → list (Z * gset bytes))
  (range_keys : gset bytes → list bytes).
Context `{Env} `{TopomState.Config} `{UnicodeUpper} `{!EnvLaws}.
Hypothesis range_tokens_perm : ∀ m, range_tokens m ≡ₚ (map_to_list m).*1.
Hypothesis range_pending_perm : ∀ m, range_pending m ≡ₚ map_to_list m.
Hypothesis range_keys_perm : ∀ m, range_keys m ≡ₚ elements m.

Definition others (d : db) (source : string) : list string := filter (λ token, token ≠ source) (range_tokens (db_proxy d)).

(** what stays as it is when caches only lose entries *)
Definition tidied (s s' : BW) : Prop :=
  shrunk (bw_caches s) (bw_caches s') ∧ w_db (bw_topom s') = w_db (bw_topom s) ∧ coh [] (bw_topom s') ∧
  core (bw_rep s') = core (bw_rep s) ∧ rp_failures (bw_rep s) ≤ rp_failures (bw_rep s') ∧
  bw_pending s' = bw_pending s ∧ bw_timer s' = bw_timer s ∧ bw_running s' = bw_running s ∧ bw_accepted s' = bw_accepted s.

Lemma tidied_refl s : coh [] (bw_topom s) → tidied s s.
Proof. intros Hc. by split_and!. Qed.

Lemma tidied_trans s1 s2 s3 : tidied s1 s2 → tidied s2 s3 → tidied s1 s3.
Proof.
  intros (A1 & A2 & A3 & A4 & A5 & A6 & A7 & A8 & A9) (B1 & B2 & B3 & B4 & B5 & B6 & B7 & B8 & B9). split; [by etrans|].
  split; [congruence|]. split; [done|]. split; [congruence|]. split; [lia|]. split_and!; congruence.
Qed.

Lemma targets_wp source w : coh [] w → wp (hotKeyCacheFanoutTargets range_tokens source) (λ r w', w_db w' = w_db w ∧ coh [] w' ∧
  ∀ l, r = Ok l → l = others (w_db w) source) w.
Proof.
  intros Hc. apply wp_bind, newContext_wp; [done|..].
  - intros w1 Hc1 (Hdb & _) _ _ _. cbn [ctx_proxy ctx_db]. destruct (db_proxy (w_db w) !! source); [apply wp_ret|apply wp_fail];
      (split; [done|]; split; [done|]); [|done]. by intros l [= <-].
  - intros e w1 Hc1 (Hdb & _). by split_and!.
Qed.

Lemma report_spec a database keys r w cs : coh [] w → let '(ok, w', cs') := report range_tokens a database keys r w cs in
  shrunk cs cs' ∧ w_db w' = w_db w ∧ coh [] w' ∧
  (ok = true → keys ≠ [] → reporter_Enabled r = true →
   ∀ key, key ∈ keys → gone (others (w_db w) (rp_sourceProxyToken r)) database key cs').
Proof.
  intros Hc. unfold report. case_bool_decide as Hk; [by split_and!|].
  destruct (rp_enabled r && (0 <? rp_timeout r) && addressed r) eqn:Hen; cbn [negb].
  2: { split_and!; try done. intros _ _ He. unfold reporter_Enabled in He. destruct (rp_enabled r), (0 <? rp_timeout r), (rp_queue r), (addressed r); done. }
  destruct (at_reaches a); cbn [negb]; [|by split_and!]. unfold HotKeyCacheInvalidate.
  case_bool_decide; [by split_and!|]. rewrite bool_decide_eq_false_2 by done. case_bool_decide; [by split_and!|].
  pose proof (targets_wp (rp_sourceProxyToken r) w Hc) as Ht. unfold wp in Ht.
  destruct (hotKeyCacheFanoutTargets _ _ w) as [[l|e|] w1]; destruct Ht as (Hdb & Hc1 & Hl); [|by split_and!..].
  rewrite (Hl l eq_refl). set (tokens := others (w_db w) (rp_sourceProxyToken r)).
  destruct (call_targets (at_call a) database keys tokens (mkBResult (Z.of_nat (length tokens)) 0 0, cs)) as (Hs & _ & Hg).
  destruct (foldl _ _ tokens) as [res cs1]. cbn in *. split_and!; try done. intros Hok _ _. apply andb_true_iff in Hok as [_ Hf%bool_decide_eq_true]. by apply Hg.
Qed.

Lemma report_chunks_spec as_ database kss s : coh [] (bw_topom s) → Forall (λ ks, ks ≠ []) kss →
  let s' := (report_chunks range_tokens as_ database kss s).2 in
  tidied s s' ∧ (bw_flushed s' = bw_flushed s ++ ((database,.) <$> concat kss) ∧ bw_skipped s' = bw_skipped s) ∧
  (rp_failures (bw_rep s') = rp_failures (bw_rep s) → reporter_Enabled (bw_rep s) = true →
   ∀ key, key ∈ concat kss → gone (others (w_db (bw_topom s)) (rp_sourceProxyToken (bw_rep s))) database key (bw_caches s')).
Proof.
  revert as_ s. induction kss as [|keys kss IH]; intros as_ s Hc Hne; cbn [report_chunks].
  { split; [by apply tidied_refl|]. split; [by rewrite app_nil_r|]. by intros _ _ key ?%not_elem_of_nil. }
  apply Forall_cons in Hne as [Hkeys Hne].
  pose proof (report_spec (as_ 0%nat) database keys (bw_rep s) (bw_topom s) (bw_caches s) Hc) as Hr.
  destruct (report _ _ _ _ _ _ _) as [[ok w1] cs1]. destruct Hr as (Hs1 & Hdb1 & Hc1 & Hg1).
  set (s1 := mkBW _ _ _ _ _ _ _ _ _). destruct (IH (λ i, as_ (S i)) s1 Hc1 Hne) as (Ht & [Hf Hsk] & Hg).
  assert (tidied s s1) as Ht1. { split_and!; try done. cbn. destruct ok; lia. }
  set (s2 := (report_chunks _ _ _ _ s1).2) in *. split; [by eapply tidied_trans|].
  split; [split; [rewrite Hf; cbn; by rewrite fmap_app, <-app_assoc|by rewrite Hsk]|]. intros Hfail Hen key Hk.
  pose proof Ht as (Hs2 & _ & _ & _ & Hle & _). assert (ok = true) as ->.
  { destruct ok; [done|]. exfalso. cbn in Hle. lia. }
  cbn [concat] in Hk. apply elem_of_app in Hk as [Hk|Hk].
  - eapply shrunk_gone; [exact Hs2|]. by apply Hg1.
  - replace (w_db (bw_topom s)) with (w_db (bw_topom s1)) by done. apply Hg; [|done|done]. rewrite Hfail. cbn. lia.
Qed.

Lemma flush_databases_spec as_ dbs s : coh [] (bw_topom s) → let s' := flush_databases range_tokens range_keys as_ dbs s in
  let on := reporter_Enabled (bw_rep s) in
  tidied s s' ∧ (∀ database m key, (database, m) ∈ dbs → key ∈ m → (database, key) ∈ if on : bool then bw_flushed s' else bw_skipped s') ∧
  (∀ x, x ∈ bw_flushed s → x ∈ bw_flushed s') ∧ (∀ x, x ∈ bw_skipped s → x ∈ bw_skipped s') ∧
  (if on : bool then bw_skipped s' = bw_skipped s else bw_caches s' = bw_caches s ∧ bw_rep s' = bw_rep s) ∧
  (rp_failures (bw_rep s') = rp_failures (bw_rep s) → on = true →
   ∀ database m key, (database, m) ∈ dbs → key ∈ m →
     gone (others (w_db (bw_topom s)) (rp_sourceProxyToken (bw_rep s))) database key (bw_caches s')).
Proof.
  revert as_ s. induction dbs as [|[database m] dbs IH]; intros as_ s Hc; cbn [flush_databases].
  { split; [by apply tidied_refl|]. split; [by intros ? ? ? ?%not_elem_of_nil|]. split; [done|]. split; [done|]. split; [by destruct (reporter_Enabled _)|].
    by intros _ _ ? ? ? ?%not_elem_of_nil. }
  assert (∀ key, key ∈ range_keys m ↔ key ∈ m) as Hin by (intros key; by rewrite range_keys_perm, elem_of_elements).
  destruct (bool_decide (range_keys m = []) || negb (reporter_Enabled (bw_rep s))) eqn:Hskip.
  - set (s1 := mkBW _ _ _ _ _ _ _ _ _). destruct (IH as_ s1 Hc) as (Ht & Hf & Hm & Hk & Ho & Hg). split; [exact Ht|]. cbn [bw_rep s1] in Hf, Ho, Hg.
    assert (reporter_Enabled (bw_rep s) = true → range_keys m = []) as Hempty
      by (intros Hen; rewrite Hen in Hskip; by apply orb_true_iff in Hskip as [Hskip%bool_decide_eq_true|]).
    assert (reporter_Enabled (bw_rep s) = true → ∀ key, key ∉ m) as Hnone.
    { intros Hen key Hkey%Hin. rewrite (Hempty Hen) in Hkey. by apply not_elem_of_nil in Hkey. }
    split_and!.
    + intros db m' key [[= -> ->]|Hd]%elem_of_cons Hkey; [|by eapply Hf]. destruct (reporter_Enabled (bw_rep s)); [by destruct (Hnone eq_refl key)|].
      apply Hk. cbn. apply elem_of_app. right. apply list_elem_of_fmap. exists key. by rewrite Hin.
    + exact Hm.
    + intros x Hx. apply Hk. cbn. apply elem_of_app. by left.
    + destruct (reporter_Enabled (bw_rep s)); [|done]. rewrite Ho. cbn. by rewrite Hempty, app_nil_r.
    + intros Hfail Hen db m' key [[= -> ->]|Hd]%elem_of_cons Hkey; [by destruct (Hnone Hen key)|by eapply Hg].
  - apply orb_false_iff in Hskip as [_ Hen%negb_false_iff].
    assert (Forall (λ ks, ks ≠ []) (chunked (range_keys m))) as Hne by (eapply Forall_impl; [apply chunks_small|]; by intros ks []).
    pose proof (report_chunks_spec as_ database (chunked (range_keys m)) s Hc Hne) as Hr. cbn zeta in Hr.
    destruct (report_chunks _ _ _ _ s) as [as1 s1]. cbn [snd] in Hr. rewrite chunked_concat in Hr. destruct Hr as (Ht1 & [Hf1 Hsk1] & Hg1).
    pose proof Ht1 as (_ & Hdb1 & Hc1 & Hco1 & Hle1 & _). destruct (IH as1 s1 Hc1) as (Ht & Hf & Hm & Hk & Ho & Hg). rewrite (core_Enabled _ _ Hco1) in Hf, Ho, Hg.
    pose proof Ht as (Hs2 & _ & _ & _ & Hle2 & _). split; [by eapply tidied_trans|]. rewrite Hen in *. split_and!.
    + intros db m' key [[= -> ->]|Hd]%elem_of_cons Hkey; [|by eapply Hf]. apply Hm. rewrite Hf1. apply elem_of_app. right. apply list_elem_of_fmap. exists key. by rewrite Hin.
    + intros x Hx. apply Hm. rewrite Hf1. apply elem_of_app. by left.
    + intros x Hx. apply Hk. by rewrite Hsk1.
    + congruence.
    + intros Hfail _ db m' key [[= -> ->]|Hd]%elem_of_cons Hkey.
      * eapply shrunk_gone; [exact Hs2|]. apply Hg1; [lia|done|by apply Hin].
      * rewrite <-Hdb1. replace (rp_sourceProxyToken (bw_rep s)) with (rp_sourceProxyToken (bw_rep s1)) by (unfold core in Hco1; congruence).
        eapply Hg; [lia|done|done|done].
Qed.

(** ** Where an accepted key is *)
Definition queued (r : reporter) (x : Z * bytes) : Prop :=
  ∃ q e, rp_queue r = Some q ∧ e ∈ q ∧ be_database e = x.1 ∧ x.2 ∈ be_keys e.
Definition awaiting (p : pending_keys) (x : Z * bytes) : Prop := ∃ m, p !! x.1 = Some m ∧ x.2 ∈ m.

Definition queue_ok (r : reporter) : Prop :=
  ∀ q, rp_queue r = Some q → Z.of_nat (length q) ≤ rp_queueSize r ∧
    Forall (λ e, be_keys e ≠ [] ∧ (length (be_keys e) <= HotKeyCacheBroadcastMaxKeys)%nat) q.

Record binv (s : BW) : Prop := mkBInv {
  bi_coh : coh [] (bw_topom s);
  bi_queue : queue_ok (bw_rep s);
  bi_accounted : ∀ x, x ∈ bw_accepted s → queued (bw_rep s) x ∨ awaiting (bw_pending s) x ∨ x ∈ bw_flushed s ∨ x ∈ bw_skipped s;
  bi_timer : bw_running s = true → bw_pending s ≠ ∅ → bw_timer s = true;
  bi_running : rp_queue (bw_rep s) ≠ None → rp_stopped (bw_rep s) = false → bw_running s = true;
  bi_open : bw_running s = true → rp_queue (bw_rep s) ≠ None;
}.

Lemma queued_queue r r' x : rp_queue r' = rp_queue r → queued r x → queued r' x.
Proof. intros Hq (q & e & Hx). exists q, e. by rewrite Hq. Qed.

Lemma queue_ok_core r r' : core r' = core r → queue_ok r → queue_ok r'.
Proof.
  intros Hc Hq q. assert (rp_queue r' = rp_queue r ∧ rp_queueSize r' = rp_queueSize r) as [-> ->]
    by (unfold core in Hc; split; congruence). apply Hq.
Qed.

(** what announcing does to the reporter *)
Definition announced (r r' : reporter) : Prop :=
  rp_queueSize r' = rp_queueSize r ∧ rp_stopped r' = rp_stopped r ∧ (∀ x, queued r x → queued r' x) ∧
  (queue_ok r → queue_ok r') ∧ (rp_queue r' = None ↔ rp_queue r = None).

Lemma announced_trans r1 r2 r3 : announced r1 r2 → announced r2 r3 → announced r1 r3.
Proof. intros (A1 & A2 & A3 & A4 & A5) (B1 & B2 & B3 & B4 & B5). split; [congruence|]. split; [congruence|]. split; [auto|]. split; [auto|]. by rewrite B5. Qed.

Lemma Enqueue_spec database keys r : (length keys <= HotKeyCacheBroadcastMaxKeys)%nat → let '(ok, r') := Enqueue database keys r in
  announced r r' ∧ (ok = true → ∀ key, key ∈ keys → queued r' (database, key)).
Proof.
  intros Hl. unfold Enqueue. assert (announced r r) as Hr by (unfold announced; auto).
  destruct (decide (keys = [])) as [->|Hne]; [by rewrite bool_decide_eq_true_2|]. rewrite bool_decide_eq_false_2 by done.
  destruct (reporter_Enabled r); [|done]. cbn [orb negb]. destruct (rp_queue r) as [q|] eqn:Hq; [|done].
  destruct (decide _) as [Hlt|]; (split; [|try done]).
  - split; [done|]. split; [done|]. split; [|split; [|by rewrite Hq]].
    + intros x (q' & e & Hq' & He & Hx). assert (q' = q) as -> by congruence. exists (q ++ [mkBEvent database keys]), e. split; [done|]. split; [|done]. apply elem_of_app. by left.
    + intros Hok q' Hq'. cbn in Hq'. injection Hq' as <-. destruct (Hok q Hq) as [H1' H2']. cbn [rp_set_queue rp_queueSize].
      rewrite length_app. cbn [length]. split; [lia|]. apply Forall_app. split; [done|]. by apply Forall_singleton.
  - intros _ key Hk. exists (q ++ [mkBEvent database keys]), (mkBEvent database keys). split; [done|]. split; [|done]. apply elem_of_app. right. by apply list_elem_of_singleton.
  - split; [done|]. split; [done|]. split; [intros x; by apply queued_queue|]. split; [|by cbn]. by apply queue_ok_core.
Qed.

Lemma hotKeyCacheBroadcastKeys_spec database keys r : let '(acc, r') := hotKeyCacheBroadcastKeys database keys r in
  announced r r' ∧ ∀ key, key ∈ acc → queued r' (database, key).
Proof.
  unfold hotKeyCacheBroadcastKeys. assert (announced r r) as Hr by (unfold announced; auto).
  destruct (negb _); [split; [done|]; by intros key ?%not_elem_of_nil|].
  assert (∀ kss acc r1, Forall (λ ks, (length ks <= HotKeyCacheBroadcastMaxKeys)%nat) kss → announced r r1 → (∀ key, key ∈ acc → queued r1 (database, key)) →
    let '(acc', r') := foldl (λ '(acc, r) ks, let '(ok, r) := Enqueue database ks r in ((if ok : bool then acc ++ ks else acc), r)) (acc, r1) kss in
    announced r r' ∧ ∀ key, key ∈ acc' → queued r' (database, key)) as Hgen.
  { induction kss as [|ks kss IH]; intros acc r1 Hkss Hr1 Hacc; [done|]. apply Forall_cons in Hkss as [Hks Hkss]. cbn [foldl].
    pose proof (Enqueue_spec database ks r1 Hks) as He. destruct (Enqueue database ks r1) as [ok r2]. destruct He as [Ha Hk].
    apply IH; [done|by eapply announced_trans|]. pose proof Ha as (_ & _ & Hm & _).
    destruct ok; [|auto]. intros key [?|?]%elem_of_app; auto. }
  apply Hgen; [|done|by intros key ?%not_elem_of_nil]. eapply Forall_impl; [apply chunks_small|]. by intros ks [].
Qed.

Lemma merge_keys_spec keys st : (foldl merge_key st keys).1 = st.1 ∪ list_to_set keys.
Proof.
  revert st. induction keys as [|k keys IH]; intros st; cbn [foldl list_to_set]; [set_solver|].
  rewrite IH. unfold merge_key. destruct (decide _); cbn; set_solver.
Qed.

Lemma mergePending_spec p e r : let '(p', r') := mergePending p e r in
  core r' = core r ∧ rp_stopped r' = rp_stopped r ∧ p' ≠ ∅ ∧ (∀ x, awaiting p x → awaiting p' x) ∧
  ∀ key, key ∈ be_keys e → awaiting p' (be_database e, key).
Proof.
  unfold mergePending. pose proof (merge_keys_spec (be_keys e) (default ∅ (p !! be_database e), 0)) as Hm.
  destruct (foldl _ _ _) as [keys n]. cbn in Hm. subst keys. split; [done|]. split; [done|]. split; [apply insert_non_empty|]. split.
  - intros x (m & Hm & Hx). unfold awaiting. destruct (decide (x.1 = be_database e)) as [Heq|Hne].
    + rewrite Heq, lookup_insert_eq. eexists. split; [done|]. rewrite <-Heq, Hm. cbn. set_solver.
    + exists m. by rewrite lookup_insert_ne.
  - intros key Hk. eexists. cbn. rewrite lookup_insert_eq. split; [done|]. set_solver.
Qed.
(** ** The invariant *)
Lemma flushPending_spec as_ s : coh [] (bw_topom s) → let s' := flushPending range_tokens range_pending range_keys as_ s in
  shrunk (bw_caches s) (bw_caches s') ∧ coh [] (bw_topom s') ∧ w_db (bw_topom s') = w_db (bw_topom s) ∧ core (bw_rep s') = core (bw_rep s) ∧
  rp_stopped (bw_rep s') = rp_stopped (bw_rep s) ∧ bw_pending s' = ∅ ∧ bw_timer s' = false ∧ bw_running s' = bw_running s ∧
  bw_accepted s' = bw_accepted s ∧
  (∀ x, awaiting (bw_pending s) x → x ∈ if reporter_Enabled (bw_rep s) then bw_flushed s' else bw_skipped s') ∧
  (∀ x, x ∈ bw_flushed s → x ∈ bw_flushed s') ∧ (∀ x, x ∈ bw_skipped s → x ∈ bw_skipped s') ∧
  (if reporter_Enabled (bw_rep s) then bw_skipped s' = bw_skipped s else bw_caches s' = bw_caches s ∧ bw_rep s' = bw_rep s) ∧
  (rp_failures (bw_rep s') = rp_failures (bw_rep s) → reporter_Enabled (bw_rep s) = true → ∀ x, awaiting (bw_pending s) x →
   gone (others (w_db (bw_topom s)) (rp_sourceProxyToken (bw_rep s))) x.1 x.2 (bw_caches s')).
Proof.
  intros Hc. unfold flushPending. destruct (flush_databases_spec as_ (range_pending (bw_pending s)) s Hc) as ((A1 & A2 & A3 & A4 & A5 & A6 & A7 & A8 & A9) & Hf & Hm & Hk & Ho & Hg).
  set (s1 := flush_databases _ _ _ _ s) in *. cbn zeta.
  assert (∀ db m, bw_pending s !! db = Some m → (db, m) ∈ range_pending (bw_pending s)) as Hin.
  { intros db m Hd. rewrite range_pending_perm. by apply elem_of_map_to_list. }
  split_and!; try done; [cbn; unfold core in A4; congruence|..].
  - intros [db key] (m & Hp & Hkey). eapply Hf; [by apply Hin|done].
  - intros Hfail Hen [db key] (m & Hp & Hkey). eapply Hg; [done..|by apply Hin|done].
Qed.

Lemma binv_step s s' : binv s → bstep range_tokens range_pending range_keys s s' → binv s'.
Proof.
  intros [Hc Hq Ha Ht Hr Hop] Hs. destruct Hs as [db keys acc r Hk|e q p r Hrun Hqe Hmg|as_ Hrun Htm|token xauth|addr| |Hrun Hst|w cs Hw].
  - pose proof (hotKeyCacheBroadcastKeys_spec db keys (bw_rep s)) as Hsp. rewrite Hk in Hsp. destruct Hsp as ((_ & Hst & Hm & Hok & Hnn) & Hacc).
    split; cbn; [done|auto| |done|rewrite Hnn, Hst; auto|by rewrite Hnn]. intros x [Hx|Hx]%elem_of_app.
    + destruct (Ha x Hx) as [?|?]; auto.
    + apply list_elem_of_fmap in Hx as (key & -> & Hx). left. by apply Hacc.
  - pose proof (mergePending_spec (bw_pending s) e (rp_set_queue q (bw_rep s))) as Hsp. rewrite Hmg in Hsp. destruct Hsp as (Hco & Hst & Hne & Hm & Hnew).
    assert (rp_queue r = Some q) as Hrq by (unfold core in Hco; cbn in Hco; congruence).
    split; cbn; [done| | |done|intros _; rewrite Hst; cbn; intros; by apply Hr; [rewrite Hqe|]|by rewrite Hrq].
    + eapply queue_ok_core; [exact Hco|]. intros q' Hq'. cbn in Hq'. injection Hq' as <-. destruct (Hq _ Hqe) as [Hl Hf].
      cbn [length] in Hl. apply Forall_cons in Hf as [_ Hf]. split; [cbn; lia|done].
    + intros [db key] Hx. destruct (Ha _ Hx) as [(q' & e' & Hq' & He' & Hdb & Hkey)|[Hp|Hf]]; [|auto..]. assert (q' = e :: q) as -> by congruence.
      apply elem_of_cons in He' as [->|He']; [|left; by exists q, e']. right; left. cbn in Hdb, Hkey. subst db. by apply Hnew.
  - destruct (flushPending_spec as_ s Hc) as (_ & B1 & _ & B2 & B3 & B4 & B5 & B6 & B7 & B8 & B9 & B10 & _). set (s' := flushPending _ _ _ _ s) in *.
    assert (rp_queue (bw_rep s') = rp_queue (bw_rep s)) as Hqq by (unfold core in B2; congruence). split; [done|by eapply queue_ok_core| | | |].
    + rewrite B7. intros x Hx. destruct (Ha x Hx) as [?|Hcase]; [left; by eapply queued_queue|]. right; right. destruct Hcase as [Hx1|[?|?]]; [|auto..]. specialize (B8 x Hx1). destruct (reporter_Enabled _); auto.
    + by rewrite B4.
    + rewrite Hqq, B3, B6. auto.
    + by rewrite Hqq, B6.
  - by split.
  - by split.
  - unfold reporter_Close. destruct (rp_queue (bw_rep s)) as [q|] eqn:Hqs; [|split; cbn; rewrite ?Hqs; done].
    split; cbn; try done.
    + intros q' Hq'. cbn in Hq'. injection Hq' as <-. by apply Hq.
    + intros x Hx. destruct (Ha x Hx) as [?|?]; [left; by eapply queued_queue|by right].
  - split; cbn; try done. rewrite Hst. done.
  - by split.
Qed.

Lemma binv_new w cs enabled timeout size : coh [] w → binv (new_bw w cs (newHotKeyCacheBroadcastReporter enabled timeout size)).
Proof.
  intros Hc. unfold new_bw, newHotKeyCacheBroadcastReporter. set (n := if decide (size = 0) then _ else _).
  split; cbn; [done| |by intros x ?%not_elem_of_nil|done|..].
  - intros q. cbn. destruct (enabled && (0 <? timeout) && (0 <? n)) eqn:Hb; [|done]. intros [= <-].
    split; [|constructor]. cbn. apply andb_true_iff in Hb as [_ Hb]. lia.
  - by destruct (enabled && (0 <? timeout) && (0 <? n)).
  - by destruct (enabled && (0 <? timeout) && (0 <? n)).
Qed.

Lemma binv_reach w cs enabled timeout size s : coh [] w →
  rtc (bstep range_tokens range_pending range_keys) (new_bw w cs (newHotKeyCacheBroadcastReporter enabled timeout size)) s → binv s.
Proof.
  intros Hc Hs. pose proof (binv_new w cs enabled timeout size Hc) as Hi. induction Hs as [|s1 s2 s3 Hst _ IH]; [done|]. apply IH. by eapply binv_step.
Qed.
(** the loop empties its queue *)
Lemma drain q s : binv s → bw_running s = true → rp_queue (bw_rep s) = Some q →
  ∃ s', rtc (bstep range_tokens range_pending range_keys) s s' ∧ binv s' ∧ rp_queue (bw_rep s') = Some [] ∧
    bw_running s' = true ∧ bw_accepted s' = bw_accepted s ∧ bw_flushed s' = bw_flushed s ∧ bw_skipped s' = bw_skipped s ∧
    reporter_Enabled (bw_rep s') = reporter_Enabled (bw_rep s).
Proof.
  revert s. induction q as [|e q IH]; intros s Hi Hrun Hq; [by exists s|].
  destruct (mergePending (bw_pending s) e (rp_set_queue q (bw_rep s))) as [p r] eqn:Hm.
  pose proof (b_receive range_tokens range_pending range_keys s e q p r Hrun Hq Hm) as Hst.
  pose proof (mergePending_spec (bw_pending s) e (rp_set_queue q (bw_rep s))) as Hsp. rewrite Hm in Hsp. destruct Hsp as (Hco & _).
  destruct (IH _ (binv_step _ _ Hi Hst) Hrun) as (s' & Hs & Hi' & Hq' & Hrun' & Hacc & Hf & Hsk & Hen); [by injection Hco|].
  exists s'. split; [by eapply rtc_l|]. split_and!; try done. rewrite Hen. cbn [bw_rep]. rewrite (core_Enabled _ _ Hco). unfold reporter_Enabled. by rewrite Hq.
Qed.

Lemma drain_all s : binv s → bw_running s = true → reporter_Enabled (bw_rep s) = true →
  ∃ s', rtc (bstep range_tokens range_pending range_keys) s s' ∧ bw_accepted s' = bw_accepted s ∧ bw_skipped s' = bw_skipped s ∧
    ∀ x, x ∈ bw_accepted s → x ∈ bw_flushed s' ∨ x ∈ bw_skipped s.
Proof.
  intros Hi Hrun Hen. destruct (rp_queue (bw_rep s)) as [q|] eqn:Hq; [|by destruct (bi_open s Hi Hrun)].
  destruct (drain q s Hi Hrun Hq) as (s1 & Hs1 & Hi1 & Hq1 & Hrun1 & Hacc1 & Hf1 & Hsk1 & Hen1).
  assert (∀ x, x ∈ bw_accepted s → awaiting (bw_pending s1) x ∨ x ∈ bw_flushed s1 ∨ x ∈ bw_skipped s1) as Ha.
  { intros x Hx. rewrite <-Hacc1 in Hx. destruct (bi_accounted s1 Hi1 x Hx) as [(q' & e & Hq' & He & _)|?]; [|done].
    assert (q' = []) as -> by congruence. by apply not_elem_of_nil in He. }
  destruct (decide (bw_pending s1 = ∅)) as [Hp|Hp].
  - exists s1. split_and!; try done. intros x Hx. rewrite <-Hsk1. destruct (Ha x Hx) as [(m & Hm & _)|?]; [|done]. by rewrite Hp, lookup_empty in Hm.
  - set (as_ := λ _ : nat, mkAttempt true (λ _, Delivered) true).
    destruct (flushPending_spec as_ s1 (bi_coh s1 Hi1)) as (_ & _ & _ & _ & _ & _ & _ & _ & Hacc & Hf & Hmf & Hms & Ho & _). rewrite Hen1, Hen in Hf, Ho.
    eexists. split; [eapply rtc_r; [exact Hs1|]; apply (b_timer _ _ _ _ as_ Hrun1 (bi_timer s1 Hi1 Hrun1 Hp))|].
    split; [by rewrite Hacc|]. split; [by rewrite Ho|]. intros x Hx. rewrite <-Hsk1. destruct (Ha x Hx) as [?|[?|?]]; auto.
Qed.

(** C24: the broadcast of invalidations loses no key that was accepted without a trace: at
    every moment such a key is in the queue (which is never longer than its capacity), pending,
    reported by a flush, or dropped by a flush that found the reporter without an address,
    token or key.  While the loop runs and the reporter is enabled it can always go on to
    report all of them that were not dropped before.  A flush of an enabled reporter reports
    every pending key, and if it counts no failure none of them is left in the cache of any other
    registered proxy, whatever the network did to the calls; one of a reporter that is not
    enabled drops them, and touches no cache and no counter. *)
Theorem broadcast_delivers w cs enabled timeout size s : coh [] w →
  rtc (bstep range_tokens range_pending range_keys) (new_bw w cs (newHotKeyCacheBroadcastReporter enabled timeout size)) s →
  queue_ok (bw_rep s) ∧
  (∀ x, x ∈ bw_accepted s → queued (bw_rep s) x ∨ awaiting (bw_pending s) x ∨ x ∈ bw_flushed s ∨ x ∈ bw_skipped s) ∧
  (bw_running s = true → reporter_Enabled (bw_rep s) = true → ∃ s', rtc (bstep range_tokens range_pending range_keys) s s' ∧
     bw_accepted s' = bw_accepted s ∧ bw_skipped s' = bw_skipped s ∧ ∀ x, x ∈ bw_accepted s → x ∈ bw_flushed s' ∨ x ∈ bw_skipped s) ∧
  ∀ as_ database key, awaiting (bw_pending s) (database, key) →
    let s' := flushPending range_tokens range_pending range_keys as_ s in
    if reporter_Enabled (bw_rep s) then
      (database, key) ∈ bw_flushed s' ∧ bw_skipped s' = bw_skipped s ∧
      (rp_failures (bw_rep s') = rp_failures (bw_rep s) →
       ∀ token p c, db_proxy (w_db (bw_topom s)) !! token = Some p → token ≠ rp_sourceProxyToken (bw_rep s) →
         bw_caches s' !! token = Some c → absent database key c)
    else (database, key) ∈ bw_skipped s' ∧ bw_caches s' = bw_caches s ∧ bw_rep s' = bw_rep s.
Proof.
  intros Hc Hs. pose proof (binv_reach w cs enabled timeout size s Hc Hs) as Hi.
  split; [apply Hi|]. split; [apply Hi|]. split; [intros; by apply drain_all|]. intros as_ database key Hw.
  destruct (flushPending_spec as_ s (bi_coh s Hi)) as (_ & _ & _ & _ & _ & _ & _ & _ & _ & Hf & _ & _ & Ho & Hg). cbn zeta. specialize (Hf _ Hw).
  destruct (reporter_Enabled (bw_rep s)); [|by split]. split; [done|]. split; [done|].
  intros Hfail token p c Ht Hne Hcs. apply (Hg Hfail eq_refl (database, key) Hw token c); [|done]. apply list_elem_of_filter.
  split; [done|]. rewrite range_tokens_perm. apply list_elem_of_fmap. exists (token, p). split; [done|]. by apply elem_of_map_to_list.
Qed.
End broadcast.

(** * A concrete broadcast *)
Definition demo_cache (entries : gmap hotKeyCacheKey hotKeyCacheEntry) : HotKeyCache :=
  mkCache true 1 10 10 [bstr "hot"] entries (map_to_list entries).*1 0 0 0 0 0 0 0.
Definition demo_caches : caches :=
  {[ "p"%string := demo_cache ∅; "q"%string := demo_cache {[ mkCKey 0 (bstr "hot") := mkEntry (bstr "v") 3 100 ]} ]}.
Definition demo_calls : nat → attempt := λ _, mkAttempt true (λ _, Delivered) true.

Definition demo_reporter (q : list hotKeyCacheBroadcastEvent) : reporter :=
  mkReporter true 5 (Some q) 4 false "topom" "p" "xauth" 0 0 0 0.
(** proxy p has collected the key [hot] *)
Definition demo_pending : BW :=
  mkBW w_online demo_caches (demo_reporter []) {[ 0 := {[ bstr "hot" ]} ]} true true [(0, bstr "hot")] [] [].

Abbreviation demo_range_tokens := (λ m : gmap string Proxy, (map_to_list m).*1).
Abbreviation demo_range_pending := (λ m : pending_keys, map_to_list m).
Abbreviation demo_range_keys := (λ m : gset bytes, elements m).

Lemma demo_pending_reach w cs :
  rtc (@bstep demo_range_tokens demo_range_pending demo_range_keys calm demo_config demo_upper)
    (new_bw w cs (newHotKeyCacheBroadcastReporter true 5 4))
    (mkBW w cs (demo_reporter []) {[ 0 := {[ bstr "hot" ]} ]} true true [(0, bstr "hot")] [] []).
Proof.
  set (r := demo_reporter [mkBEvent 0 [bstr "hot"]]). set (s2 := mkBW w cs (demo_reporter []) ∅ false true [] [] []).
  assert (hotKeyCacheBroadcastKeys 0 [bstr "hot"] (bw_rep s2) = ([bstr "hot"], r)) as Ha by by vm_compute.
  assert (mergePending ∅ (mkBEvent 0 [bstr "hot"]) (rp_set_queue [] r) = ({[ 0 := {[ bstr "hot" ]} ]}, demo_reporter [])) as Hm.
  { unfold mergePending. cbn [be_keys be_database foldl]. rewrite lookup_empty. cbn [default from_option id]. unfold merge_key. cbn [fst snd].
    rewrite decide_False by apply not_elem_of_empty. by rewrite right_id_L by apply _. }
  eapply rtc_l; [apply (b_source _ _ _ _ "p" "xauth")|]. eapply rtc_l; [apply (b_topom _ _ _ _ "topom")|].
  eapply (rtc_l _ s2); [exact (b_announce _ _ _ s2 _ _ _ _ Ha)|].
  apply rtc_once. exact (b_receive _ _ _ (mkBW w cs r ∅ false true [(0, bstr "hot")] [] []) _ _ _ _ eq_refl eq_refl Hm).
Qed.

Lemma w_online_coh : coh [] w_online.
Proof. by destruct (@reach_Inv calm demo_config demo_upper list_tree calm_laws _ _ w_online_reach). Qed.

Lemma broadcast_delivers_witness :
  (bw_caches demo_pending !! "q"%string ≫= λ c, hc_entries c !! mkCKey 0 (bstr "hot")) = Some (mkEntry (bstr "v") 3 100) ∧
  (let s' := @flushPending demo_range_tokens demo_range_pending demo_range_keys calm demo_config demo_upper demo_calls demo_pending in
   (0, bstr "hot") ∈ bw_flushed s' ∧ ∀ c, bw_caches s' !! "q"%string = Some c → absent 0 (bstr "hot") c).
Proof.
  split; [by vm_compute|].
  destruct (@broadcast_delivers demo_range_tokens demo_range_pending demo_range_keys calm demo_config demo_upper calm_laws
    ltac:(done) ltac:(done) ltac:(done) w_online demo_caches true 5 4 demo_pending
    w_online_coh (demo_pending_reach w_online demo_caches)) as (_ & _ & _ & Hd).
  destruct (Hd demo_calls 0 (bstr "hot")) as (Hf & _ & Hg); [by exists {[ bstr "hot" ]}|]. split; [exact Hf|]. intros c Hc.
  apply (Hg ltac:(by vm_compute) "q"%string (demo_proxy "q") c); [by vm_compute|done|exact Hc].
Defined.
