(* ===== verification/PitrFiles.v ===== *)
(** What point-in-time recovery reads: the manifest of an append-only file, the timestamps
    in its last segment, replies of a Redis server, paths (pkg/topom/topom_pitr_run.go,
    topom_pitr.go).

    A file that is read in pieces is the list of the pieces.  [scan_pieces] shows that the
    scan for timestamps does not depend on how the file is cut, [scan_range] that it
    finds the least and the greatest one, [manifest_print] that the manifests Redis writes
    are read back. *)

From S2P Require Import Prelude Bufio BufioSpec Resp RespNumbers Mapper Models TopomContext TopomState TopomProxy TopomGroup.
From S2P Require Import Router Stream Forward SessionState ClusterNodes TopomACL.
(** * Strings *)
Definition newline : byte := x0a.
Definition slash : byte := x2f.
Definition colon : byte := x3a.

(** [strings.TrimSpace] *)
Definition trim_space (b : bytes) : bytes :=
  let b := trim_front (length b) spaces b in rev (trim_front (length b) (@rev byte <$> spaces) (rev b)).

(** [strings.Split] by one byte: the parts before a separator, and the last part *)
Fixpoint line_split (c : byte) (b : bytes) : list bytes * bytes :=
  match b with
  | [] => ([], [])
  | x :: b' =>
      let '(ls, l) := line_split c b' in
      if decide (x = c) then ([] :: ls, l)
      else match ls with [] => ([], x :: l) | l0 :: ls => ((x :: l0) :: ls, l) end
  end.
Definition split_on (c : byte) (b : bytes) : list bytes :=
  let '(ls, l) := line_split c b in ls ++ [l].

(** [strings.Contains] *)
Definition Contains (b sub : bytes) : bool := existsb (λ i, has_prefix_of (drop i b) sub) (seq 0 (S (length b))).

(** [strings.Fields] *)
Definition a_word (w : bytes) : list bytes := match w with [] => [] | _ => [w] end.
Fixpoint fields_from (fuel : nat) (word b : bytes) : list bytes :=
  match fuel, b with
  | S fuel, c :: b' =>
      match List.find (has_prefix_of b) spaces with
      | Some p => a_word word ++ fields_from fuel [] (drop (length p) b)
      | None => fields_from fuel (word ++ [c]) b'
      end
  | _, _ => a_word word
  end.
Definition Fields (b : bytes) : list bytes := fields_from (length b) [] b.

(** ** Paths: package filepath on Unix; [Base] is that of ClusterNodes *)
Definition clean_push (rooted : bool) (stack : list bytes) (comp : bytes) : list bytes :=
  if decide (comp = [] ∨ comp = bstr ".") then stack
  else if decide (comp = bstr "..") then
    match stack with
    | top :: rest => if decide (top = bstr "..") then comp :: stack else rest
    | [] => if rooted : bool then [] else [comp]
    end
  else comp :: stack.

Fixpoint join_with (c : byte) (l : list bytes) : bytes :=
  match l with
  | [] => []
  | [x] => x
  | x :: l => x ++ c :: join_with c l
  end.

Definition Clean (path : bytes) : bytes :=
  match path with
  | [] => bstr "."
  | c :: _ =>
      let rooted := bool_decide (c = slash) in
      let out := join_with slash (rev (foldl (clean_push rooted) [] (split_on slash path))) in
      if rooted then slash :: out else match out with [] => bstr "." | _ => out end
  end.
Definition Join (a b : bytes) : bytes :=
  match a, b with
  | [], [] => []
  | [], _ => Clean b
  | _, _ => Clean (a ++ slash :: b)
  end.
Definition Dir (path : bytes) : bytes :=
  Clean (match last_index_byte slash path with Some i => take (S i) path | None => [] end).

(** * Replies *)

(** [strings.SplitN(line, ":", 2)] *)
Definition info_line (info : gmap bytes bytes) (line : bytes) : gmap bytes bytes :=
  match IndexByte line colon with
  | None => info
  | Some i => match trim_space (take i line) with
              | [] => info
              | key => <[key := trim_space (drop (S i) line)]> info
              end
  end.
Definition parsePitrInfoText (text : bytes) : gmap bytes bytes := foldl info_line ∅ (split_on newline text).

Definition splitPitrHostPort (addr : bytes) : bytes * bytes :=
  match last_index_byte colon addr with
  | Some i => (take i addr, drop (S i) addr)
  | None => (addr, [])
  end.

(** the reply of CONFIG GET: a value that is not a string counts as empty *)
Fixpoint config_map (values : list (option bytes)) (out : gmap bytes bytes) : gmap bytes bytes :=
  match values with
  | key :: val :: values => config_map values (<[default [] key := default [] val]> out)
  | _ => out
  end.

(** * The manifest *)
Definition manifest_line (st : bytes * list bytes) (line : bytes) : bytes * list bytes :=
  let line := trim_space line in
  if decide (line = []) then st
  else if has_prefix_of line (bstr "#") then st
  else match Fields line with
  | file :: name :: _ :: _ :: _ :: typ :: _ =>
      if decide (file ≠ bstr "file") then st
      else if decide (typ = bstr "b") then (name, st.2)
      else if decide (typ = bstr "h" ∨ typ = bstr "i") then (st.1, st.2 ++ [name])
      else st
  | _ => st
  end.

(** [readPitrAofManifest], of the contents of the file *)
Definition readPitrAofManifest (data : bytes) : list bytes :=
  let '(base, incrs) := foldl manifest_line ([], []) (split_on newline data) in
  a_word base ++ incrs.

(** * Timestamps *)
Definition parseTsAnnotation (line : bytes) : option Z :=
  let s := trim_space line in
  if negb (has_prefix_of s (bstr "#TS:")) then None
  else match ParseInt (trim_space (drop 4 s)) with Ok ts => Some ts | _ => None end.

Record ts_range := mkRange { tr_found : bool; tr_min : Z; tr_max : Z }.

Definition note_line (r : ts_range) (line : bytes) : ts_range :=
  match parseTsAnnotation line with
  | None => r
  | Some ts => mkRange true (if decide (tr_min r = 0 ∨ ts < tr_min r) then ts else tr_min r)
                 (if decide (ts > tr_max r) then ts else tr_max r)
  end.

(** the inner loop, and the partial line it keeps *)
Fixpoint scan_lines (fuel : nat) (data : bytes) (r : ts_range) : ts_range * bytes :=
  match fuel with
  | O => (r, data)
  | S fuel =>
      match IndexByte data newline with
      | None => (r, data)
      | Some idx => scan_lines fuel (drop (S idx) data) (note_line r (take idx data))
      end
  end.

(** the loop over the pieces [f.Read] returns *)
Fixpoint scan_reads (pieces : list bytes) (carry : bytes) (r : ts_range) : ts_range * bytes :=
  match pieces with
  | [] => (r, carry)
  | piece :: pieces =>
      if decide (piece = []) then scan_reads pieces carry r
      else let data := carry ++ piece in
           let '(r, carry) := scan_lines (S (length data)) data r in scan_reads pieces carry r
  end.

Definition scanPitrAofTimestamps (pieces : list bytes) : Z * Z :=
  let '(r, carry) := scan_reads pieces [] (mkRange false 0 0) in
  let r := if decide (carry = []) then r else note_line r carry in
  if tr_found r then (tr_min r, tr_max r) else (0, 0).

(** * The comparison of a directory before and after *)
Record pitrFileStat := mkFileStat { fs_Size : Z; fs_Mtime : Z }.
#[export] Instance pitrFileStat_eq_dec : EqDecision pitrFileStat.
Proof. solve_decision. Defined.

(** [statPitrAofDir]: the entries of the directory, with no information for a subdirectory
    or an entry that is gone *)
Definition statPitrAofDir (entries : list (bytes * option pitrFileStat)) : gmap bytes pitrFileStat :=
  foldl (λ out e, match e.2 with Some st => <[e.1 := st]> out | None => out end) ∅ entries.

(** an entry after the truncation is as expected *)
Definition post_ok (pre : gmap bytes pitrFileStat) (lastFile : bytes) (e : bytes * pitrFileStat) : bool :=
  match pre !! e.1 with
  | None => false
  | Some st => bool_decide (e.1 = lastFile) || (bool_decide (fs_Size st = fs_Size e.2) && bool_decide (fs_Mtime st = fs_Mtime e.2))
  end.
Definition drifted (pre post : gmap bytes pitrFileStat) (lastFile : bytes) : bool :=
  negb (forallb (post_ok pre lastFile) (map_to_list post)) ||
  negb (forallb (λ e, match post !! e.1 with Some _ => true | None => false end) (map_to_list pre)).

(** [truncateOutput] *)
Definition truncateOutput (out : bytes) : bytes :=
  let s := trim_space out in
  if decide (512 < length s)%nat then take 512 s ++ bstr "...(truncated)" else s.

(** * Lines *)
Lemma line_split_app c b1 b2 ls1 l1 ls2 l2 :
  line_split c b1 = (ls1, l1) → line_split c (l1 ++ b2) = (ls2, l2) → line_split c (b1 ++ b2) = (ls1 ++ ls2, l2).
Proof.
  revert ls1 l1 ls2 l2. induction b1 as [|x b1 IH]; intros ls1 l1 ls2 l2; cbn [line_split app]; [by intros [= <- <-]|].
  destruct (line_split c b1) as [ls l] eqn:Hb1. destruct (decide (x = c)) as [->|Hne].
  - intros [= <- <-] H2. by rewrite (IH ls l _ _ eq_refl H2).
  - destruct ls as [|l0 ls]; intros [= <- <-] H2.
    + cbn [app line_split] in H2. destruct (line_split c (l ++ b2)) as [ls' l'] eqn:Hb2.
      rewrite (IH [] l _ _ eq_refl Hb2). rewrite decide_False in H2 by done. exact H2.
    + by rewrite (IH (l0 :: ls) l _ _ eq_refl H2).
Qed.

Lemma line_split_line c l b : c ∉ l → line_split c (l ++ c :: b) = (l :: (line_split c b).1, (line_split c b).2).
Proof.
  induction l as [|x l IH]; cbn [app line_split]; intros Hc.
  - destruct (line_split c b). by rewrite decide_True.
  - apply not_elem_of_cons in Hc as [Hx Hc]. rewrite IH by done. by rewrite decide_False.
Qed.

Lemma line_split_none c b : c ∉ b → line_split c b = ([], b).
Proof.
  induction b as [|x b IH]; cbn [line_split]; intros Hc; [done|].
  apply not_elem_of_cons in Hc as [Hx Hc]. rewrite IH by done. by rewrite decide_False.
Qed.

Lemma line_split_last c b : c ∉ (line_split c b).2.
Proof.
  induction b as [|x b IH]; cbn [line_split]; [apply not_elem_of_nil|]. destruct (line_split c b) as [ls l]. cbn in IH.
  destruct (decide (x = c)); [done|]. destruct ls; [|done]. cbn. by apply not_elem_of_cons.
Qed.

Lemma split_on_line c l b : c ∉ l → split_on c (l ++ c :: b) = l :: split_on c b.
Proof. intros Hc. unfold split_on. rewrite line_split_line by done. by destruct (line_split c b). Qed.

(** * The scan *)
Lemma IndexByte_lt b c i : IndexByte b c = Some i → ∃ s, b = take i b ++ c :: s ∧ c ∉ take i b ∧ drop (S i) b = s.
Proof.
  intros Hi. destruct (IndexByte_Some _ _ _ Hi) as (s & Hb & Hn & Hlt). exists s. split; [done|]. split; [done|].
  rewrite Hb at 1. rewrite drop_app_ge by (rewrite length_take; lia). rewrite length_take.
  by replace (S i - i `min` length b)%nat with 1%nat by lia.
Qed.

Lemma scan_lines_spec fuel data r : (length data < fuel)%nat →
  scan_lines fuel data r = (foldl note_line r (line_split newline data).1, (line_split newline data).2).
Proof.
  revert data r. induction fuel as [|fuel IH]; intros data r Hf; [lia|]. cbn [scan_lines].
  destruct (IndexByte data newline) as [i|] eqn:Hi.
  - destruct (IndexByte_lt _ _ _ Hi) as (s & Hd & Hn & ->). assert (length s < length data)%nat.
    { rewrite Hd, length_app. cbn. lia. }
    rewrite IH by lia. assert (line_split newline data = (take i data :: (line_split newline s).1, (line_split newline s).2)) as ->.
    { rewrite Hd at 1. by apply line_split_line. } done.
  - rewrite line_split_none; [done|]. intros Hin. apply list_elem_of_split in Hin as (l1 & l2 & ->).
    clear -Hi. induction l1 as [|x l1 IH]; cbn in Hi; [by rewrite decide_True in Hi|]. destruct (decide _); [done|].
    destruct (IndexByte (l1 ++ newline :: l2) newline); [done|]. by apply IH.
Qed.

Lemma scan_reads_spec pieces carry r : newline ∉ carry →
  scan_reads pieces carry r =
    (foldl note_line r (line_split newline (carry ++ concat pieces)).1, (line_split newline (carry ++ concat pieces)).2).
Proof.
  revert carry r. induction pieces as [|p pieces IH]; intros carry r Hc; cbn [scan_reads concat].
  { rewrite app_nil_r, line_split_none; done. }
  destruct (decide (p = [])) as [->|Hp]; [by apply IH|]. rewrite scan_lines_spec by lia.
  pose proof (line_split_last newline (carry ++ p)) as Hl. destruct (line_split newline (carry ++ p)) as [ls l] eqn:Hls. cbn [fst snd] in *.
  rewrite IH by done. destruct (line_split newline (l ++ concat pieces)) as [ls2 l2] eqn:Hls2.
  rewrite app_assoc, (line_split_app _ _ _ _ _ _ _ Hls Hls2). cbn [fst snd]. by rewrite foldl_app.
Qed.

(** the timestamps of a file, line by line *)
Definition timestamps (b : bytes) : list Z := omap parseTsAnnotation (split_on newline b).

Definition note_ts (r : ts_range) (ts : Z) : ts_range :=
  mkRange true (if decide (tr_min r = 0 ∨ ts < tr_min r) then ts else tr_min r) (if decide (ts > tr_max r) then ts else tr_max r).

Lemma note_lines ls r : foldl note_line r ls = foldl note_ts r (omap parseTsAnnotation ls).
Proof.
  revert r. induction ls as [|l ls IH]; intros r; [done|]. cbn [foldl omap list_omap]. rewrite IH. unfold note_line.
  by destruct (parseTsAnnotation l).
Qed.

Lemma note_empty r : note_line r [] = r.
Proof. done. Qed.

Lemma scan_pieces pieces : scanPitrAofTimestamps pieces =
  let r := foldl note_ts (mkRange false 0 0) (timestamps (concat pieces)) in
  if tr_found r then (tr_min r, tr_max r) else (0, 0).
Proof.
  unfold scanPitrAofTimestamps, timestamps, split_on. rewrite scan_reads_spec by apply not_elem_of_nil. cbn [app].
  destruct (line_split newline (concat pieces)) as [ls l]. cbn [fst snd]. rewrite <-note_lines, foldl_app. cbn [foldl].
  destruct (decide (l = [])) as [->|]; by rewrite ?note_empty.
Qed.

Lemma foldl_note_ts l r : Forall (λ t, 0 < t) l → tr_found r = true → 0 < tr_min r → tr_min r ≤ tr_max r →
  let r' := foldl note_ts r l in
  tr_found r' = true ∧ 0 < tr_min r' ∧ (tr_min r' = tr_min r ∨ tr_min r' ∈ l) ∧ (tr_max r' = tr_max r ∨ tr_max r' ∈ l) ∧
  tr_min r' ≤ tr_min r ∧ tr_max r ≤ tr_max r' ∧ ∀ t, t ∈ l → tr_min r' ≤ t ≤ tr_max r'.
Proof.
  revert r. induction l as [|t l IH]; intros r Hl Hf Hm Hle; cbn [foldl].
  { split_and!; auto; [lia..|]. by intros t ?%not_elem_of_nil. }
  apply Forall_cons in Hl as [Ht Hl]. destruct (IH (note_ts r t) Hl) as (A1 & A2 & A3 & A4 & A5 & A6 & A7); [done|..].
  { unfold note_ts. cbn. destruct (decide _); lia. }
  { unfold note_ts. cbn. repeat destruct (decide _); lia. }
  set (x := foldl note_ts (note_ts r t) l) in *. clearbody x. unfold note_ts in A3, A4, A5, A6. cbn in A3, A4, A5, A6. split_and!; [done|done|..].
  - rewrite elem_of_cons. destruct (decide (tr_min r = 0 ∨ t < tr_min r)); tauto.
  - rewrite elem_of_cons. destruct (decide (t > tr_max r)); tauto.
  - destruct (decide (tr_min r = 0 ∨ t < tr_min r)); lia.
  - destruct (decide (t > tr_max r)); lia.
  - intros u [->|Hu]%elem_of_cons; [|by apply A7]. destruct (decide (tr_min r = 0 ∨ t < tr_min r)), (decide (t > tr_max r)); lia.
Qed.

(** The scan for timestamps finds the least and the greatest of those in the lines of
    a segment, however the reading of the file is cut into pieces, also within a line or
    a number; a segment without timestamps gives (0, 0). *)
Theorem scan_range pieces lo hi : Forall (λ t, 0 < t) (timestamps (concat pieces)) → scanPitrAofTimestamps pieces = (lo, hi) →
  (timestamps (concat pieces) = [] ∧ lo = 0 ∧ hi = 0) ∨
  (lo ∈ timestamps (concat pieces) ∧ hi ∈ timestamps (concat pieces) ∧ ∀ t, t ∈ timestamps (concat pieces) → lo ≤ t ≤ hi).
Proof.
  intros Hpos. rewrite scan_pieces. cbn zeta. destruct (timestamps (concat pieces)) as [|t l]; [intros [= <- <-]; by left|].
  apply Forall_cons in Hpos as [Ht Hl]. cbn [foldl]. change (note_ts (mkRange false 0 0) t) with (mkRange true (if decide (0 = 0 ∨ t < 0) then t else 0) (if decide (t > 0) then t else 0)).
  rewrite decide_True by lia. rewrite decide_True by lia.
  destruct (foldl_note_ts l (mkRange true t t) Hl eq_refl Ht) as (-> & A2 & A3 & A4 & A5 & A6 & A7); [cbn; lia|]. intros [= <- <-]. right.
  cbn in *. rewrite !elem_of_cons. split_and!; [tauto|tauto|]. intros u [->|Hu]%elem_of_cons; [lia|by apply A7].
Qed.

Lemma scan_range_witness :
  scanPitrAofTimestamps [bstr "#TS:1"; bstr "00" ++ [x0a] ++ bstr "junk" ++ [x0a] ++ bstr "#T"; bstr "S: 20" ++ [x0a] ++ bstr "#TS:37"] = (20, 100) ∧
  20 ∈ timestamps (concat [bstr "#TS:1"; bstr "00" ++ [x0a] ++ bstr "junk" ++ [x0a] ++ bstr "#T"; bstr "S: 20" ++ [x0a] ++ bstr "#TS:37"]).
Proof.
  split; [by vm_compute|].
  destruct (scan_range [bstr "#TS:1"; bstr "00" ++ [x0a] ++ bstr "junk" ++ [x0a] ++ bstr "#T"; bstr "S: 20" ++ [x0a] ++ bstr "#TS:37"] 20 100) as [(Hn & _ & _)|(Hlo & _)].
  - vm_compute. repeat constructor.
  - by vm_compute.
  - by vm_compute in Hn.
  - exact Hlo.
Defined.


(** * Manifests *)

(** a character that is printed and no space *)
Definition graph (c : byte) : bool := (33 <=? byte_val c) && (byte_val c <=? 126).
Definition is_word_of (w : bytes) : Prop := w ≠ [] ∧ Forall (λ c, graph c = true) w.

Lemma graph_no_space (words : list bytes) c b : forallb (λ p, match p with [] => false | x :: _ => negb (graph x) end) words = true →
  graph c = true → List.find (has_prefix_of (c :: b)) words = None.
Proof.
  intros Hw Hc. destruct (List.find _ words) as [p|] eqn:Hp; [|done]. apply List.find_some in Hp as [Hin Hp].
  rewrite forallb_forall in Hw. specialize (Hw p Hin). unfold has_prefix_of in Hp. apply bool_decide_eq_true in Hp.
  destruct p as [|x p]; [done|]. cbn in Hp. injection Hp as -> _. by rewrite Hc in Hw.
Qed.

Lemma trim_front_graph words fuel c b : forallb (λ p, match p with [] => false | x :: _ => negb (graph x) end) words = true →
  graph c = true → trim_front fuel words (c :: b) = c :: b.
Proof. intros Hw Hc. destruct fuel; [done|]. cbn [trim_front]. by rewrite graph_no_space. Qed.

Lemma trim_space_graph c b d : graph c = true → graph d = true → trim_space (c :: b ++ [d]) = c :: b ++ [d].
Proof.
  intros Hc Hd. unfold trim_space. rewrite trim_front_graph by done.
  assert (rev (c :: b ++ [d]) = d :: rev (c :: b)) as -> by (rewrite app_comm_cons, rev_unit; done).
  rewrite trim_front_graph by done. cbn [rev]. by rewrite rev_app_distr, rev_involutive.
Qed.

Lemma fields_graph w word b : Forall (λ c, graph c = true) w →
  fields_from (length (w ++ b)) word (w ++ b) = fields_from (length b) (word ++ w) b.
Proof.
  revert word. induction w as [|c w IH]; intros word Hw; [by rewrite app_nil_r|]. apply Forall_cons in Hw as [Hc Hw].
  cbn [app length fields_from]. rewrite graph_no_space by done. rewrite IH by done. by rewrite <-app_assoc.
Qed.

Lemma Fields_cons w b : is_word_of w → Fields (w ++ x20 :: b) = w :: Fields b.
Proof. intros [Hne Hw]. unfold Fields. rewrite fields_graph by done. cbn [length fields_from]. by destruct w. Qed.

Lemma Fields_last w : is_word_of w → Fields w = [w].
Proof.
  intros [Hne Hw]. unfold Fields. pose proof (fields_graph w [] [] Hw) as Hf. rewrite app_nil_r in Hf. rewrite Hf. cbn. by destruct w.
Qed.

(** an entry of a manifest as Redis prints it *)
Record manifest_entry := mkManifestEntry { me_name : bytes; me_seq : bytes; me_type : bytes }.
Definition print_entry (e : manifest_entry) : bytes :=
  bstr "file" ++ x20 :: me_name e ++ x20 :: bstr "seq" ++ x20 :: me_seq e ++ x20 :: bstr "type" ++ x20 :: me_type e.
Definition entry_ok (e : manifest_entry) : Prop :=
  is_word_of (me_name e) ∧ is_word_of (me_seq e) ∧ (me_type e = bstr "b" ∨ me_type e = bstr "h" ∨ me_type e = bstr "i").
Definition print_manifest (es : list manifest_entry) : bytes := concat ((λ e, print_entry e ++ [newline]) <$> es).

Lemma word_of s : forallb graph (bstr s) = true → bstr s ≠ [] → is_word_of (bstr s).
Proof. intros Hs Hne. split; [done|]. rewrite forallb_forall in Hs. apply Forall_forall. intros c Hc. apply Hs. by apply list_elem_of_In. Qed.

Lemma graph_no_newline w : Forall (λ c, graph c = true) w → newline ∉ w.
Proof. intros Hw Hin. rewrite Forall_forall in Hw. by specialize (Hw _ Hin). Qed.

Lemma type_word e : entry_ok e → is_word_of (me_type e).
Proof. intros (_ & _ & [-> | [-> | ->]]); by apply word_of. Qed.

Lemma print_entry_trim e : entry_ok e → trim_space (print_entry e) = print_entry e ∧ newline ∉ print_entry e.
Proof.
  intros He. pose proof He as ([_ Hn] & [_ Hs] & _). destruct (type_word e He) as [Hne Ht]. split.
  - destruct (exists_last Hne) as (l & d & Hl). unfold print_entry. rewrite Hl.
    change (bstr "file" ++ ?x) with (x66 :: (bstr "ile" ++ x)).
    match goal with |- trim_space (_ :: ?b) = _ => assert (∃ b', b = b' ++ [d]) as [b' ->] end.
    { eexists (bstr "ile" ++ x20 :: me_name e ++ x20 :: bstr "seq" ++ x20 :: me_seq e ++ x20 :: bstr "type" ++ x20 :: l).
      repeat (rewrite <-?app_assoc, <-?app_comm_cons). done. }
    apply trim_space_graph; [done|]. rewrite Hl in Ht. by apply Forall_app in Ht as [_ [Hd _]%Forall_cons].
  - unfold print_entry. intros Hin. repeat (rewrite elem_of_app in Hin || rewrite elem_of_cons in Hin).
    destruct_or! Hin; try done; (eapply graph_no_newline; [|exact Hin]); first [done | by apply word_of].
Qed.

Lemma print_entry_fields e : entry_ok e → Fields (print_entry e) = [bstr "file"; me_name e; bstr "seq"; me_seq e; bstr "type"; me_type e].
Proof.
  intros He. pose proof (type_word e He) as Ht. destruct He as (Hn & Hs & _). unfold print_entry.
  by rewrite !Fields_cons, Fields_last by first [done | by apply word_of].
Qed.

(** the names of a manifest in the order the recovery uses them *)
Definition segment_names (es : list manifest_entry) : list bytes :=
  (match last (filter (λ e, me_type e = bstr "b") es) with Some e => [me_name e] | None => [] end) ++
  (me_name <$> filter (λ e, me_type e ≠ bstr "b") es).

Lemma manifest_line_entry st e : entry_ok e →
  manifest_line st (print_entry e) = if decide (me_type e = bstr "b") then (me_name e, st.2) else (st.1, st.2 ++ [me_name e]).
Proof.
  intros He. unfold manifest_line. destruct (print_entry_trim e He) as [-> _]. rewrite print_entry_fields by done.
  rewrite decide_False by (unfold print_entry; by destruct (bstr "file")).
  replace (has_prefix_of (print_entry e) (bstr "#")) with false by done. rewrite decide_False by (intros Hn; by apply Hn).
  destruct He as (_ & _ & [-> | [-> | ->]]); done.
Qed.

Lemma manifest_lines es st : Forall entry_ok es →
  foldl manifest_line st (split_on newline (print_manifest es)) =
  (match last (filter (λ e, me_type e = bstr "b") es) with Some e => me_name e | None => st.1 end,
   st.2 ++ (me_name <$> filter (λ e, me_type e ≠ bstr "b") es)).
Proof.
  revert st. induction es as [|e es IH]; intros [base incrs] Hes; [cbn; by rewrite app_nil_r|].
  apply Forall_cons in Hes as [He Hes]. unfold print_manifest. cbn [fmap list_fmap concat]. rewrite <-app_assoc. cbn [app].
  rewrite split_on_line by apply print_entry_trim, He. cbn [foldl]. rewrite manifest_line_entry by done.
  fold (print_manifest es). rewrite !filter_cons. destruct (decide (me_type e = bstr "b")) as [Hb|Hb].
  - rewrite (decide_False (P := me_type e ≠ bstr "b")) by tauto. rewrite IH by done. cbn [fst snd].
    rewrite last_cons. by destruct (last (filter _ es)).
  - rewrite (decide_True (P := me_type e ≠ bstr "b")) by done. rewrite IH by done. cbn [fst snd fmap list_fmap]. by rewrite <-app_assoc.
Qed.

(** a manifest that Redis printed is read back: the base first, then the other files *)
Lemma manifest_print es : Forall entry_ok es → readPitrAofManifest (print_manifest es) = segment_names es.
Proof.
  intros Hes. unfold readPitrAofManifest, segment_names. rewrite manifest_lines by done. cbn [fst snd app]. f_equal.
  destruct (last _) as [e|] eqn:Hl; [|done]. apply last_Some_elem_of, list_elem_of_filter in Hl as [_ Hl].
  rewrite Forall_forall in Hes. destruct (Hes _ Hl) as ([Hn _] & _). by destruct (me_name e).
Qed.

(** * Drift *)
Lemma drifted_false pre post lastFile : drifted pre post lastFile = false ↔
  dom pre = dom post ∧ ∀ name a b, name ≠ lastFile → pre !! name = Some a → post !! name = Some b → a = b.
Proof.
  unfold drifted. rewrite orb_false_iff, !negb_false_iff, !forallb_forall. split.
  - intros [Hpost Hpre]. assert (∀ name b, post !! name = Some b → post_ok pre lastFile (name, b) = true) as H1.
    { intros name b Hb. apply Hpost. by apply list_elem_of_In, elem_of_map_to_list. }
    assert (∀ name a, pre !! name = Some a → is_Some (post !! name)) as H2.
    { intros name a Ha. specialize (Hpre (name, a)). cbn in Hpre. destruct (post !! name); [done|].
      discriminate Hpre. by apply list_elem_of_In, elem_of_map_to_list. }
    split.
    + apply set_eq. intros name. rewrite !elem_of_dom. split; [intros [a Ha]; by eapply H2|]. intros [b Hb].
      specialize (H1 _ _ Hb). unfold post_ok in H1. cbn in H1. by destruct (pre !! name).
    + intros name a b Hne Ha Hb. specialize (H1 _ _ Hb). unfold post_ok in H1. cbn in H1. rewrite Ha in H1.
      rewrite bool_decide_eq_false_2 in H1 by done. apply andb_true_iff in H1 as [E1%bool_decide_eq_true E2%bool_decide_eq_true].
      destruct a, b. cbn in *. congruence.
  - intros [Hdom Heq]. split; intros [name x] Hx%list_elem_of_In%elem_of_map_to_list.
    + unfold post_ok. cbn. assert (is_Some (pre !! name)) as [a Ha] by (apply elem_of_dom; rewrite Hdom; by apply elem_of_dom).
      rewrite Ha. destruct (decide (name = lastFile)); [by rewrite bool_decide_eq_true_2|]. rewrite bool_decide_eq_false_2 by done.
      rewrite (Heq name a x) by done. by rewrite !bool_decide_eq_true_2.
    + cbn. assert (is_Some (post !! name)) as [b ->] by (apply elem_of_dom; rewrite <-Hdom; by apply elem_of_dom). done.
Qed.

(** the value of a command that has a line of this form is read as a timestamp *)
Lemma payload_read_as_timestamp :
  timestamps (bstr "*3" ++ [x0d; x0a] ++ bstr "$3" ++ [x0d; x0a] ++ bstr "SET" ++ [x0d; x0a] ++ bstr "$1" ++ [x0d; x0a] ++ bstr "k" ++ [x0d; x0a] ++
              bstr "$9" ++ [x0d; x0a] ++ bstr "a" ++ [x0a] ++ bstr "#TS:999" ++ [x0d; x0a]) = [999].
Proof. by vm_compute. Qed.
