(* ===== verification/PitrRun.v ===== *)
(** The job of a point-in-time recovery (pkg/topom/topom_pitr.go, topom_pitr_run.go): its
    record, its nine steps, and the goroutine that runs them.

    What a step asks of the world outside, files, processes, Redis servers, the clock and
    the context of the job, is answered by the class [Outside], call by call; what it does
    to the world is recorded in [ps_trace].  A loop that waits is bounded by its timeout;
    running out of the bound counts as a panic. *)

From S2P Require Import Prelude Bufio Resp Mapper Models TopomContext TopomState TopomProxy TopomGroup.
From S2P Require Import Router Stream Forward SessionState ClusterNodes TopomACL PitrFiles.
(** * The record of a job *)
Inductive PitrState :=
| PitrStatePending | PitrStateValidating | PitrStateCheckingPrereq | PitrStateCheckingFeasibility | PitrStateShuttingDown
| PitrStateSnapshotting | PitrStateTruncating | PitrStateRestarting | PitrStateWaitingLoad | PitrStateResyncingReplicas
| PitrStateSucceeded | PitrStateFailed | PitrStateCancelled.
#[export] Instance PitrState_eq_dec : EqDecision PitrState.
Proof. solve_decision. Defined.

Definition pitrStateIsTerminal (state : PitrState) : bool :=
  match state with PitrStateSucceeded | PitrStateFailed | PitrStateCancelled => true | _ => false end.

Inductive pitrStepStatus :=
| pitrStepStatusPending | pitrStepStatusRunning | pitrStepStatusDone | pitrStepStatusFailed | pitrStepStatusSkipped.
#[export] Instance pitrStepStatus_eq_dec : EqDecision pitrStepStatus.
Proof. solve_decision. Defined.

(** the errors of the steps *)
Inductive perror :=
| PCanceled                                            (** [ctx.Err()] *)
| PDeps                                                (** a call to a Redis server or to the dashboard failed *)
| PNotMaster (addr : string) (gid : Z)
| PConfigOff (parameter : string) (value : option bytes)
| PUnresolved
| PFile (path : bytes)                                 (** a file operation failed *)
| PNoSegments (manifest : bytes)
| PNoAnnotations (file : bytes)
| PNotInSegment (ts lo hi : Z)
| PDisk (need have : Z)
| PCheckCancelled (snapshot : bytes)
| PCheckFailed (output snapshot : bytes)
| PPostStat (snapshot : bytes)
| PDrift (snapshot : bytes)
| PTimeout
| PNotResponsive (snapshot : bytes)
| PStillLoading (snapshot : bytes)
| PResyncWarning (failed : list string).

Record PitrStep := mkStep {
  st_Name : string; st_Status : pitrStepStatus; st_StartedAt : option Z; st_FinishedAt : option Z; st_Error : option perror }.

Record PitrJob := mkJob {
  pj_ID : string;
  pj_ProductName : string;
  pj_GroupID : Z;
  pj_ServerAddr : string;
  pj_TruncateTs : Z;
  pj_AofDir : bytes;
  pj_AofManifest : bytes;
  pj_LastSegmentFile : bytes;
  pj_LastSegmentTsRange : Z * Z;
  pj_SnapshotDir : bytes;
  pj_PreStatSnapshot : gmap bytes pitrFileStat;
  pj_RestartKicked : bool;
  pj_State : PitrState;
  pj_Steps : list PitrStep;
  pj_CreatedAt : Z;
  pj_UpdatedAt : Z;
  pj_Error : option perror;
}.

(** ** Field assignments *)
Definition pj_set_group (g : Z) (j : PitrJob) : PitrJob :=
  mkJob (pj_ID j) (pj_ProductName j) g (pj_ServerAddr j) (pj_TruncateTs j) (pj_AofDir j) (pj_AofManifest j) (pj_LastSegmentFile j)
    (pj_LastSegmentTsRange j) (pj_SnapshotDir j) (pj_PreStatSnapshot j) (pj_RestartKicked j) (pj_State j) (pj_Steps j)
    (pj_CreatedAt j) (pj_UpdatedAt j) (pj_Error j).
Definition pj_set_aof (dir manifest : bytes) (j : PitrJob) : PitrJob :=
  mkJob (pj_ID j) (pj_ProductName j) (pj_GroupID j) (pj_ServerAddr j) (pj_TruncateTs j) dir manifest (pj_LastSegmentFile j)
    (pj_LastSegmentTsRange j) (pj_SnapshotDir j) (pj_PreStatSnapshot j) (pj_RestartKicked j) (pj_State j) (pj_Steps j)
    (pj_CreatedAt j) (pj_UpdatedAt j) (pj_Error j).
Definition pj_set_segment (file : bytes) (range : Z * Z) (j : PitrJob) : PitrJob :=
  mkJob (pj_ID j) (pj_ProductName j) (pj_GroupID j) (pj_ServerAddr j) (pj_TruncateTs j) (pj_AofDir j) (pj_AofManifest j) file
    range (pj_SnapshotDir j) (pj_PreStatSnapshot j) (pj_RestartKicked j) (pj_State j) (pj_Steps j)
    (pj_CreatedAt j) (pj_UpdatedAt j) (pj_Error j).
Definition pj_set_snapshot (dir : bytes) (pre : gmap bytes pitrFileStat) (j : PitrJob) : PitrJob :=
  mkJob (pj_ID j) (pj_ProductName j) (pj_GroupID j) (pj_ServerAddr j) (pj_TruncateTs j) (pj_AofDir j) (pj_AofManifest j) (pj_LastSegmentFile j)
    (pj_LastSegmentTsRange j) dir pre (pj_RestartKicked j) (pj_State j) (pj_Steps j)
    (pj_CreatedAt j) (pj_UpdatedAt j) (pj_Error j).
Definition pj_set_kicked (j : PitrJob) : PitrJob :=
  mkJob (pj_ID j) (pj_ProductName j) (pj_GroupID j) (pj_ServerAddr j) (pj_TruncateTs j) (pj_AofDir j) (pj_AofManifest j) (pj_LastSegmentFile j)
    (pj_LastSegmentTsRange j) (pj_SnapshotDir j) (pj_PreStatSnapshot j) true (pj_State j) (pj_Steps j)
    (pj_CreatedAt j) (pj_UpdatedAt j) (pj_Error j).
(** the progress of the job; [None] leaves the error as it is *)
Definition pj_progress (state : PitrState) (steps : list PitrStep) (now : Z) (err : option perror) (j : PitrJob) : PitrJob :=
  mkJob (pj_ID j) (pj_ProductName j) (pj_GroupID j) (pj_ServerAddr j) (pj_TruncateTs j) (pj_AofDir j) (pj_AofManifest j) (pj_LastSegmentFile j)
    (pj_LastSegmentTsRange j) (pj_SnapshotDir j) (pj_PreStatSnapshot j) (pj_RestartKicked j) state steps
    (pj_CreatedAt j) now (match err with Some _ => err | None => pj_Error j end).

(** [PitrJob.Snapshot]: what callers see *)
Definition Snapshot (j : PitrJob) : PitrJob :=
  mkJob (pj_ID j) (pj_ProductName j) (pj_GroupID j) (pj_ServerAddr j) (pj_TruncateTs j) (pj_AofDir j) (pj_AofManifest j) (pj_LastSegmentFile j)
    (pj_LastSegmentTsRange j) (pj_SnapshotDir j) ∅ (pj_RestartKicked j) (pj_State j) (pj_Steps j)
    (pj_CreatedAt j) (pj_UpdatedAt j) (pj_Error j).

(** * The world outside *)

(** how a copy of a file ends *)
Inductive copy_result := CopyOk | CopyNoSource | CopyNoTarget | CopyPartial | CopyNotClosed.

(** the answers to the calls of a job, by their number *)
Class Outside := {
  o_cancelled : nat → bool;                                      (** [ctx.Err() != nil] *)
  o_elapsed : nat → N;                                           (** the time a call takes *)
  o_config : nat → option (gmap bytes bytes);
  o_group : nat → option (Z * bool);
  o_servers : nat → option (list string);
  o_shutdown : nat → bool;
  o_info : nat → option (gmap bytes bytes);
  o_resync : nat → bool;
  o_read : nat → option bytes;                                   (** [os.ReadFile] *)
  o_pieces : nat → option (list bytes);                          (** [os.Open] and the reads that follow *)
  o_size : nat → option Z;
  o_free : nat → option Z;
  o_mkdir : nat → bool;
  o_readdir : nat → option (list (bytes * option pitrFileStat));
  o_copy : nat → copy_result;
  o_exec : nat → bool * bytes;                                   (** success and output of a command *)
}.

(** what a job has done and learnt *)
Inductive pevent :=
| EGroup (addr : string) (answer : option (Z * bool))
| EConfig (addr : string) (pattern : string) (answer : option (gmap bytes bytes))
| EManifest (path : bytes) (answer : option bytes)
| EScan (path : bytes) (answer : option (list bytes))
| EShutdown (addr : string) (ok : bool)
| EMkdir (dir : bytes)
| ERemove (dir : bytes)
| EStat (dir : bytes) (answer : option (gmap bytes pitrFileStat))
| ECopy (src dst : bytes) (res : copy_result)
| ETruncate (ts : Z) (manifest : bytes) (ok : bool)
| EKick (ok : bool)
| EInfo (addr : string) (answer : option (gmap bytes bytes))
| EResync (master replica : string) (ok : bool).

Record pst := mkPst { ps_job : PitrJob; ps_tick : nat; ps_now : Z; ps_trace : list pevent }.
Abbreviation P := (M pst perror).

Definition second : Z := 1000000000.

Section steps.
Context `{Outside} (restartCmd : string) (jobTimeout : Z).

(** the next call *)
Definition ask {A} (f : nat → A) : P A := λ s,
  (Ok (f (ps_tick s)), mkPst (ps_job s) (S (ps_tick s)) (ps_now s + Z.of_N (o_elapsed (ps_tick s))) (ps_trace s)).
Definition emit (e : pevent) : P unit := modify (λ s, mkPst (ps_job s) (ps_tick s) (ps_now s) (ps_trace s ++ [e])).
Definition job : P PitrJob := gets ps_job.
Definition set_job (f : PitrJob → PitrJob) : P unit := modify (λ s, mkPst (f (ps_job s)) (ps_tick s) (ps_now s) (ps_trace s)).
(** [time.After(time.Second)] *)
Definition sleep : P unit := modify (λ s, mkPst (ps_job s) (ps_tick s) (ps_now s + second) (ps_trace s)).

(** a call whose answer is recorded *)
Definition ask_event {A} (f : nat → A) (e : A → pevent) : P A := a ← ask f; emit (e a) ;; mret a.

(** ** Validation *)
Definition stepValidate : P unit :=
  j ← job;
  r ← ask_event o_group (EGroup (pj_ServerAddr j));
  match r with
  | None => fail PDeps
  | Some (gid, isMaster) =>
      set_job (pj_set_group gid) ;;
      if isMaster : bool then mret tt else fail (PNotMaster (pj_ServerAddr j) gid)
  end.

Definition config_get (pattern : string) : P (gmap bytes bytes) :=
  j ← job;
  r ← ask_event o_config (EConfig (pj_ServerAddr j) pattern);
  match r with None => fail PDeps | Some m => mret m end.

(** a parameter that must be on *)
Definition require_yes (parameter : string) : P unit :=
  config ← config_get parameter;
  match config !! bstr parameter with
  | Some v => if LowerIs v "yes" then mret tt else fail (PConfigOff parameter (Some v))
  | None => fail (PConfigOff parameter None)
  end.

Definition stepPrereq : P unit :=
  require_yes "appendonly" ;;
  require_yes "aof-timestamp-enabled" ;;
  dirCfg ← config_get "dir";
  appendfilename ← config_get "appendfilename";
  appenddirname ← config_get "appenddirname";
  let dir := default [] (dirCfg !! bstr "dir") in
  let file := default [] (appendfilename !! bstr "appendfilename") in
  let sub := default [] (appenddirname !! bstr "appenddirname") in
  if decide (dir = [] ∨ file = [] ∨ sub = []) then fail PUnresolved
  else set_job (pj_set_aof (Join dir sub) (Join (Join dir sub) (file ++ bstr ".manifest"))).

Definition stepFeasibility : P unit :=
  j ← job;
  data ← ask_event o_read (EManifest (pj_AofManifest j));
  match data with
  | None => fail (PFile (pj_AofManifest j))
  | Some data =>
      match last (readPitrAofManifest data) with
      | None => fail (PNoSegments (pj_AofManifest j))
      | Some lastFile =>
          let lastPath := Join (pj_AofDir j) lastFile in
          pieces ← ask_event o_pieces (EScan lastPath);
          match pieces with
          | None => fail (PFile lastPath)
          | Some pieces =>
              let '(minTs, maxTs) := scanPitrAofTimestamps pieces in
              if decide (minTs = 0 ∧ maxTs = 0) then fail (PNoAnnotations lastFile)
              else if decide (pj_TruncateTs j < minTs ∨ pj_TruncateTs j > maxTs)
              then fail (PNotInSegment (pj_TruncateTs j) minTs maxTs)
              else
                size ← ask o_size;
                match size with
                | None => fail (PFile lastPath)
                | Some lastSize =>
                    free ← ask o_free;
                    match free with
                    | Some free => if decide (free < lastSize) then fail (PDisk lastSize free)
                                   else set_job (pj_set_segment lastFile (minTs, maxTs))
                    | None => set_job (pj_set_segment lastFile (minTs, maxTs))
                    end
                end
          end
      end
  end.

(** ** Side effects *)
Definition stepShutdown : P unit :=
  j ← job;
  ok ← ask_event o_shutdown (EShutdown (pj_ServerAddr j));
  if ok : bool then mret tt else fail PDeps.

(** [copyFile] *)
Definition copyFile (src dst : bytes) : P unit :=
  r ← ask_event o_copy (ECopy src dst);
  match r with CopyOk => mret tt | CopyPartial => emit (ERemove dst) ;; fail (PFile src) | _ => fail (PFile src) end.

Definition stat_dir (dir : bytes) : P (option (gmap bytes pitrFileStat)) :=
  ask_event (λ n, statPitrAofDir <$> o_readdir n) (EStat dir).

Definition stepSnapshot : P unit :=
  j ← job;
  let snapshotDir := Join (Dir (pj_AofDir j)) (bstr ".pitr-snapshot-" ++ bstr (pj_ID j)) in
  ok ← ask o_mkdir;
  if negb ok then fail (PFile snapshotDir) else
  emit (EMkdir snapshotDir) ;;
  preStat ← stat_dir (pj_AofDir j);
  match preStat with
  | None => emit (ERemove snapshotDir) ;; fail (PFile (pj_AofDir j))
  | Some preStat =>
      on_err (copyFile (pj_AofManifest j) (Join snapshotDir (Base (pj_AofManifest j))) ;;
              copyFile (Join (pj_AofDir j) (pj_LastSegmentFile j)) (Join snapshotDir (pj_LastSegmentFile j)))
        (λ e, emit (ERemove snapshotDir) ;; fail e) ;;
      set_job (pj_set_snapshot snapshotDir preStat)
  end.

Definition stepTruncate : P unit :=
  j ← job;
  out ← ask_event o_exec (λ r, ETruncate (pj_TruncateTs j) (pj_AofManifest j) r.1);
  if negb out.1 then
    c ← ask o_cancelled;
    if c : bool then fail (PCheckCancelled (pj_SnapshotDir j))
    else fail (PCheckFailed (truncateOutput out.2) (pj_SnapshotDir j))
  else
    postStat ← stat_dir (pj_AofDir j);
    match postStat with
    | None => fail (PPostStat (pj_SnapshotDir j))
    | Some postStat =>
        if drifted (pj_PreStatSnapshot j) postStat (pj_LastSegmentFile j) then fail (PDrift (pj_SnapshotDir j)) else mret tt
    end.

Definition ping_info : P (option (gmap bytes bytes)) :=
  j ← job; ask_event o_info (EInfo (pj_ServerAddr j)).

(** the loops of [pollUntilResponsive] and [stepWaitLoad]: [ready] is the reply they wait
    for, [late] their error after the deadline *)
Fixpoint poll (fuel : nat) (ready : gmap bytes bytes → bool) (late : PitrJob → perror) (deadline : Z) : P unit :=
  match fuel with
  | O => panic
  | S fuel =>
      c ← ask o_cancelled;
      if c : bool then fail PCanceled else
      info ← ping_info;
      if (match info with Some m => ready m | None => false end) then mret tt else
      now ← gets ps_now;
      if decide (now > deadline) then j ← job; fail (late j) else
      c ← ask o_cancelled;
      if c : bool then fail PCanceled else
      sleep ;; poll fuel ready late deadline
  end.

(** as many turns as seconds until the deadline, and two more *)
Definition poll_fuel : nat := Z.to_nat (jobTimeout / second) + 2.

Definition pollUntilResponsive : P unit :=
  start ← gets ps_now; poll poll_fuel (λ _, true) (λ _, PTimeout) (start + jobTimeout).

Definition stepRestart : P unit :=
  (if decide (restartCmd = "") then mret tt
   else out ← ask_event o_exec (λ r, EKick r.1); if out.1 : bool then set_job pj_set_kicked else mret tt) ;;
  j ← job;
  on_err pollUntilResponsive (λ _, fail (PNotResponsive (pj_SnapshotDir j))).

Definition loaded (info : gmap bytes bytes) : bool := negb (LowerIs (default [] (info !! bstr "loading")) "1").

Definition stepWaitLoad : P unit :=
  start ← gets ps_now; poll poll_fuel loaded (λ j, PStillLoading (pj_SnapshotDir j)) (start + jobTimeout).

Fixpoint resync_all (master : string) (servers : list string) : P (list string) :=
  match servers with
  | [] => mret []
  | addr :: servers =>
      if decide (addr = master) then resync_all master servers
      else ok ← ask_event o_resync (EResync master addr);
           failed ← resync_all master servers;
           mret (if ok : bool then failed else addr :: failed)
  end.

(** the warning is kept in the first step named resync *)
Fixpoint warn_step (name : string) (e : perror) (steps : list PitrStep) : list PitrStep :=
  match steps with
  | [] => []
  | s :: steps => if decide (st_Name s = name) then mkStep (st_Name s) (st_Status s) (st_StartedAt s) (st_FinishedAt s) (Some e) :: steps
                  else s :: warn_step name e steps
  end.

Definition stepResync : P unit :=
  j ← job;
  servers ← ask o_servers;
  match servers with
  | None => fail PDeps
  | Some servers =>
      failed ← resync_all (pj_ServerAddr j) servers;
      if decide (failed = []) then mret tt
      else set_job (λ j, pj_progress (pj_State j) (warn_step "resync" (PResyncWarning failed) (pj_Steps j)) (pj_UpdatedAt j) None j)
  end.

(** ** The steps of a job *)
Definition stepToState (name : string) : PitrState :=
  if decide (name = "validate") then PitrStateValidating
  else if decide (name = "prereq") then PitrStateCheckingPrereq
  else if decide (name = "feasibility") then PitrStateCheckingFeasibility
  else if decide (name = "shutdown") then PitrStateShuttingDown
  else if decide (name = "snapshot") then PitrStateSnapshotting
  else if decide (name = "truncate") then PitrStateTruncating
  else if decide (name = "restart") then PitrStateRestarting
  else if decide (name = "wait-load") then PitrStateWaitingLoad
  else if decide (name = "resync") then PitrStateResyncingReplicas
  else PitrStateValidating.

(** the two critical sections of [PitrJob.step], before and after the callback *)
Definition step_begin (name : string) : P nat := λ s,
  let j := ps_job s in
  (Ok (length (pj_Steps j)),
   mkPst (pj_progress (stepToState name) (pj_Steps j ++ [mkStep name pitrStepStatusRunning (Some (ps_now s)) None None]) (ps_now s) None j)
     (ps_tick s) (ps_now s) (ps_trace s)).

Definition step_result (now : Z) (err : option perror) (x : PitrStep) : PitrStep :=
  match err with
  | Some e => mkStep (st_Name x) pitrStepStatusFailed (st_StartedAt x) (Some now) (Some e)
  | None => mkStep (st_Name x) pitrStepStatusDone (st_StartedAt x) (Some now) (st_Error x)
  end.

(** [j.Steps[idx]] panics out of range *)
Definition step_end (idx : nat) (err : option perror) : P unit := λ s,
  let j := ps_job s in
  match pj_Steps j !! idx with
  | None => (Panic, s)
  | Some x =>
      (Ok tt, mkPst (pj_progress (match err with Some _ => PitrStateFailed | None => pj_State j end)
                       (<[idx := step_result (ps_now s) err x]> (pj_Steps j)) (ps_now s) err j)
                (ps_tick s) (ps_now s) (ps_trace s))
  end.

(** the callback and the section after it *)
Definition step_body (idx : nat) (fn : P unit) : P unit := λ s,
  match fn s with
  | (Ok _, s) => step_end idx None s
  | (Err e, s) => (step_end idx (Some e) ;; fail e) s
  | (Panic, s) => (Panic, s)
  end.

Definition job_step (name : string) (fn : P unit) : P unit := idx ← step_begin name; step_body idx fn.

Definition steps : list (string * P unit) :=
  [("validate", stepValidate); ("prereq", stepPrereq); ("feasibility", stepFeasibility); ("shutdown", stepShutdown);
   ("snapshot", stepSnapshot); ("truncate", stepTruncate); ("restart", stepRestart); ("wait-load", stepWaitLoad);
   ("resync", stepResync)]%string.

Definition runSteps : P unit :=
  for_each steps (λ s, c ← ask o_cancelled; if c : bool then fail PCanceled else job_step s.1 s.2).

Definition setState (state : PitrState) : P unit := λ s,
  (Ok tt, mkPst (pj_progress state (pj_Steps (ps_job s)) (ps_now s) None (ps_job s)) (ps_tick s) (ps_now s) (ps_trace s)).

(** the end of [run]: an error is only logged *)
Definition conclude (err : option perror) : P unit :=
  match err with
  | Some _ => mret tt
  | None => c ← ask o_cancelled; setState (if c : bool then PitrStateCancelled else PitrStateSucceeded)
  end.

Definition run : P unit := λ s,
  match runSteps s with
  | (Ok _, s) => conclude None s
  | (Err e, s) => conclude (Some e) s
  | (Panic, s) => (Panic, s)
  end.

(** ** The goroutine of a job, in the pieces between which others may act *)
Inductive ppc :=
| PCheck (i : nat)                    (** before the test of the context that precedes step [i] *)
| PInside (i : nat)                   (** in step [i] *)
| PConclude (err : option perror)     (** [runSteps] has returned *)
| PReturned.

Definition advance (pc : ppc) (s : pst) : outcome perror ppc * pst :=
  match pc with
  | PCheck i =>
      match steps !! i with
      | None => (Ok (PConclude None), s)
      | Some (name, _) => (c ← ask o_cancelled; if c : bool then mret (PConclude (Some PCanceled)) else step_begin name ;; mret (PInside i)) s
      end
  | PInside i =>
      match steps !! i with
      | None => (Panic, s)
      | Some (_, fn) =>
          match step_body (length (pj_Steps (ps_job s)) - 1) fn s with
          | (Ok _, s) => (Ok (PCheck (S i)), s)
          | (Err e, s) => (Ok (PConclude (Some e)), s)
          | (Panic, s) => (Panic, s)
          end
      end
  | PConclude err => (conclude err ;; mret PReturned) s
  | PReturned => (Ok PReturned, s)
  end.
End steps.

(** The registry of recovery jobs (pkg/topom/topom_pitr.go), its API
    (topom_pitr_api.go), and how a job talks to the cluster ([topomPitrDeps]).

    [mstep] interleaves the calls of the API with the goroutines of the jobs; every call
    holds the registry's lock for as long as the step takes.  The identifiers of new jobs
    are fresh, as UUIDs are. *)

(** * The registry *)

(** a job, the place its goroutine is at, and whether its context is cancelled *)
Record pitrEntry := mkPEntry { pe_pc : ppc; pe_st : pst; pe_cancelled : bool }.
Definition pe_job (e : pitrEntry) : PitrJob := ps_job (pe_st e).

Record PitrManager := mkPM {
  pm_jobs : gmap string pitrEntry;
  pm_enabled : bool;
  pm_redisCheckBin : string;
  pm_maxConcurrent : Z;
  pm_jobTimeout : Z;
  pm_restartCmd : string;
  pm_serverLocks : gmap string string;   (** the owners of the locks *)
  pm_removed : list bytes;               (** the directories [Remove] has deleted *)
}.

Definition pm_set (jobs : gmap string pitrEntry) (locks : gmap string string) (m : PitrManager) : PitrManager :=
  mkPM jobs (pm_enabled m) (pm_redisCheckBin m) (pm_maxConcurrent m) (pm_jobTimeout m) (pm_restartCmd m) locks (pm_removed m).
Definition pm_remove_dir (dir : bytes) (m : PitrManager) : PitrManager :=
  mkPM (pm_jobs m) (pm_enabled m) (pm_redisCheckBin m) (pm_maxConcurrent m) (pm_jobTimeout m) (pm_restartCmd m) (pm_serverLocks m) (pm_removed m ++ [dir]).

(** [filepath.Abs] is [abs]; [None] is its error *)
Definition NewPitrManager (abs : string → option string) (enabled : bool) (bin : string) (maxConcurrent jobTimeout : Z) (restartCmd : string) : PitrManager :=
  let bin := if decide (bin = "") then "bin/redis-check-aof"%string else bin in
  mkPM ∅ enabled (default bin (abs bin)) (if decide (maxConcurrent ≤ 0) then 1 else maxConcurrent)
    (if decide (jobTimeout ≤ 0) then 30 * 60 * second else jobTimeout) restartCmd ∅ [].

Inductive merror :=
| MDisabled | MNoBinary | MNotExecutable (bin : string) | MTooMany | MLocked (addr id : string) | MNoId
| MNotFound (id : string) | MNotTerminal (id : string) (state : PitrState)
| MXAuth | MNotInitialized | MBadRequest | MMissingAddr | MBadTs.

Definition running (e : pitrEntry) : bool := negb (pitrStateIsTerminal (pj_State (pe_job e))).
Definition running_jobs (jobs : gmap string pitrEntry) : Z := Z.of_nat (size (filter (λ x : string * pitrEntry, running x.2 = true) jobs)).

Definition checkConcurrentLimitLocked (m : PitrManager) : outcome merror unit :=
  if decide (pm_maxConcurrent m ≤ running_jobs (pm_jobs m)) then Err MTooMany else Ok tt.

Definition new_job (id productName serverAddr : string) (truncateTs now : Z) : PitrJob :=
  mkJob id productName 0 serverAddr truncateTs [] [] [] (0, 0) [] ∅ false PitrStatePending [] now now None.

(** [Create]; [executable] is [pitrBinExecutable], [newID] the result of [newPitrJobID] *)
Definition Create (executable : string → bool) (newID : option string) (now : Z) (productName serverAddr : string) (truncateTs : Z)
    (m : PitrManager) : outcome merror PitrJob * PitrManager :=
  if negb (pm_enabled m) then (Err MDisabled, m)
  else if decide (pm_redisCheckBin m = "") then (Err MNoBinary, m)
  else if negb (executable (pm_redisCheckBin m)) then (Err (MNotExecutable (pm_redisCheckBin m)), m)
  else match checkConcurrentLimitLocked m with
  | Ok _ =>
      let locked := match pm_serverLocks m !! serverAddr with Some owner => if decide (owner = "") then None else Some owner | None => None end in
      match locked with
      | Some owner => (Err (MLocked serverAddr owner), m)
      | None =>
          match newID with
          | None => (Err MNoId, m)
          | Some id =>
              let j := new_job id productName serverAddr truncateTs now in
              (Ok (Snapshot j),
               pm_set (<[id := mkPEntry (PCheck 0) (mkPst j 0 now []) false]> (pm_jobs m)) (<[serverAddr := id]> (pm_serverLocks m)) m)
          end
      end
  | Err e => (Err e, m)
  | Panic => (Panic, m)
  end.

Definition pitr_Get (id : string) (m : PitrManager) : outcome merror PitrJob :=
  match pm_jobs m !! id with None => Err (MNotFound id) | Some e => Ok (Snapshot (pe_job e)) end.

(** [List]; [range_jobs] is the order in which the map is ranged over *)
Definition pitr_List (range_jobs : gmap string pitrEntry → list (string * pitrEntry)) (m : PitrManager) : list PitrJob :=
  (λ x, Snapshot (pe_job x.2)) <$> range_jobs (pm_jobs m).

Definition pe_cancel (e : pitrEntry) : pitrEntry := mkPEntry (pe_pc e) (pe_st e) true.

Definition pitr_Cancel (id : string) (m : PitrManager) : outcome merror unit * PitrManager :=
  match pm_jobs m !! id with
  | None => (Err (MNotFound id), m)
  | Some e => if pitrStateIsTerminal (pj_State (pe_job e)) then (Ok tt, m)
              else (Ok tt, pm_set (<[id := pe_cancel e]> (pm_jobs m)) (pm_serverLocks m) m)
  end.

Definition pitr_Remove (id : string) (m : PitrManager) : outcome merror unit * PitrManager :=
  match pm_jobs m !! id with
  | None => (Err (MNotFound id), m)
  | Some e =>
      let j := pe_job e in
      if negb (pitrStateIsTerminal (pj_State j)) then (Err (MNotTerminal id (pj_State j)), m)
      else
        let locks := if decide (pj_ServerAddr j ≠ "" ∧ pm_serverLocks m !! pj_ServerAddr j = Some id)
                     then delete (pj_ServerAddr j) (pm_serverLocks m) else pm_serverLocks m in
        let m := pm_set (delete id (pm_jobs m)) locks m in
        (Ok tt, if decide (pj_SnapshotDir j = []) then m else pm_remove_dir (pj_SnapshotDir j) m)
  end.

Definition pitr_Close (m : PitrManager) : PitrManager := pm_set (pe_cancel <$> pm_jobs m) (pm_serverLocks m) m.

(** * The API *)

(** [pitrManagerEnabled]; [None] is a dashboard without a registry *)
Definition pitrManagerEnabled (m : option PitrManager) : outcome merror PitrManager :=
  match m with
  | None => Err MNotInitialized
  | Some m => if negb (pm_enabled m) then Err MDisabled else Ok m
  end.

Section api.
Context (executable : string → bool) (productName : string).

(** a handler: the answer, and the registry after it; [xauth] is [verifyXAuth] *)
Definition handler {A} (xauth : bool) (body : PitrManager → outcome merror A * PitrManager) (m : option PitrManager)
    : outcome merror A * option PitrManager :=
  if negb xauth then (Err MXAuth, m)
  else match pitrManagerEnabled m with
  | Ok m => let '(r, m) := body m in (r, Some m)
  | Err e => (Err e, m)
  | Panic => (Panic, m)
  end.

(** [None] is a body that is not the JSON of a request *)
Definition create_body (request : option (string * Z)) (newID : option string) (now : Z) (m : PitrManager) : outcome merror string * PitrManager :=
  match request with
  | None => (Err MBadRequest, m)
  | Some (serverAddr, truncateTs) =>
      if decide (serverAddr = "") then (Err MMissingAddr, m)
      else if decide (truncateTs ≤ 0) then (Err MBadTs, m)
      else match Create executable newID now productName serverAddr truncateTs m with
      | (Ok j, m) => (Ok (pj_ID j), m)
      | (Err e, m) => (Err e, m)
      | (Panic, m) => (Panic, m)
      end
  end.
Definition PitrCreate (xauth : bool) (request : option (string * Z)) (newID : option string) (now : Z) := handler xauth (create_body request newID now).
Definition PitrGet (xauth : bool) (id : string) := handler xauth (λ m, (pitr_Get id m, m)).
Definition PitrList (range_jobs : gmap string pitrEntry → list (string * pitrEntry)) (xauth : bool) := handler xauth (λ m, (Ok (pitr_List range_jobs m), m)).
Definition PitrCancel (xauth : bool) (id : string) := handler xauth (pitr_Cancel id).
Definition PitrRemove (xauth : bool) (id : string) := handler xauth (pitr_Remove id).

(** * The interleaving of the API and the goroutines of the jobs *)

(** what a job may see of its context: inside a step any cancellation so far, or none *)
Definition sees_context (e : pitrEntry) (o : Outside) : Prop :=
  match pe_pc e with
  | PInside _ => ∀ n, @o_cancelled o n = true → pe_cancelled e = true
  | _ => ∀ n, @o_cancelled o n = pe_cancelled e
  end.

Inductive mstep (m : PitrManager) : PitrManager → Prop :=
| ms_create xauth request newID now r m' : (∀ id, newID = Some id → id ≠ "" ∧ pm_jobs m !! id = None) →
    PitrCreate xauth request newID now (Some m) = (r, Some m') → mstep m m'
| ms_cancel xauth id r m' : PitrCancel xauth id (Some m) = (r, Some m') → mstep m m'
| ms_remove xauth id r m' : PitrRemove xauth id (Some m) = (r, Some m') → mstep m m'
| ms_close : mstep m (pitr_Close m)
| ms_advance id e o pc s : pm_jobs m !! id = Some e → sees_context e o →
    @advance o (pm_restartCmd m) (pm_jobTimeout m) (pe_pc e) (pe_st e) = (Ok pc, s) →
    mstep m (pm_set (<[id := mkPEntry pc s (pe_cancelled e)]> (pm_jobs m)) (pm_serverLocks m) m).
End api.

(** * The cluster *)
Section deps.
Context `{Env} `{TopomState.Config} `{UnicodeUpper}.

Definition GroupOfServer (serverAddr : string) : T (Z * bool) :=
  ctx ← newContext;
  gs ← range_groups ctx;
  '(g, index) ← lift (getGroupByServer gs serverAddr);
  mret (g_Id g, bool_decide (index = 0)).

Definition GroupServers (gid : Z) : T (list string) :=
  ctx ← newContext;
  g ← lift (getGroup ctx gid);
  mret (gs_Addr <$> g_Servers g).
End deps.

(** ** Shutting a server down *)

(** how a server answers a connection and a PING: not at all, with an error, or with PONG *)
Inductive probe := NoAnswer | ErrorReply | Pong.

(** [NewClientWithAuthIdentity] pings too, and an error reply is an error *)
Definition serverStillUp (connect ping : probe) : bool :=
  match connect with Pong => match ping with Pong => true | _ => false end | _ => false end.

(** [Shutdown]: whether it returns without an error *)
Definition topom_Shutdown (sent : bool) (connect ping : probe) : bool := negb (serverStillUp connect ping).

(** [ResyncReplica]: the arguments of SLAVEOF *)
Definition resync_command (masterAddr : bytes) : list bytes :=
  let '(host, port) := splitPitrHostPort masterAddr in [bstr "SLAVEOF"; host; port].
