(* ===== verification/PitrTheorems.v ===== *)
(** What a point-in-time recovery guarantees.

    A step of a job changes the world only in its own way ([needs] gives for every event
    the number of steps that must have succeeded before it), keeps what earlier steps
    have found out, never blocks for ever, and when it succeeds leaves the evidence [ev]
    that later steps rely on.  The rest is induction on the interleavings. *)

From S2P Require Import Prelude Bufio Resp Mapper Models TopomContext TopomState TopomCache TopomFrame.
From S2P Require Import TopomProxy TopomGroup TopomInv TopomRules TopomRebalance TopomSafety TopomTheorems TopomFunctional.
From S2P Require Import Router Stream Forward SessionState ClusterNodes TopomACL PitrFiles PitrRun.
(** * Events and evidence *)

(** how many steps must have succeeded before an event *)
Definition needs (e : pevent) : nat :=
  match e with
  | EGroup _ _ => 0 | EConfig _ _ _ => 1 | EManifest _ _ | EScan _ _ => 2 | EShutdown _ _ => 3
  | EMkdir _ | ERemove _ | EStat _ _ | ECopy _ _ _ => 4 | ETruncate _ _ _ => 5 | EKick _ | EInfo _ _ => 6 | EResync _ _ _ => 8
  end%nat.

Definition says_yes (addr parameter : string) (tr : list pevent) : Prop :=
  ∃ m v, EConfig addr parameter (Some m) ∈ tr ∧ m !! bstr parameter = Some v ∧ LowerIs v "yes" = true.

(** what the success of step [i] has established *)
Definition ev (i : nat) (j : PitrJob) (tr : list pevent) : Prop :=
  match i with
  | 0%nat => EGroup (pj_ServerAddr j) (Some (pj_GroupID j, true)) ∈ tr
  | 1%nat => says_yes (pj_ServerAddr j) "appendonly" tr ∧ says_yes (pj_ServerAddr j) "aof-timestamp-enabled" tr
  | 2%nat => ∃ data pieces, EManifest (pj_AofManifest j) (Some data) ∈ tr ∧
           last (readPitrAofManifest data) = Some (pj_LastSegmentFile j) ∧
           EScan (Join (pj_AofDir j) (pj_LastSegmentFile j)) (Some pieces) ∈ tr ∧
           scanPitrAofTimestamps pieces = pj_LastSegmentTsRange j ∧
           (pj_LastSegmentTsRange j).1 ≤ pj_TruncateTs j ≤ (pj_LastSegmentTsRange j).2
  | 3%nat => EShutdown (pj_ServerAddr j) true ∈ tr
  | 4%nat => EStat (pj_AofDir j) (Some (pj_PreStatSnapshot j)) ∈ tr ∧
         ECopy (pj_AofManifest j) (Join (pj_SnapshotDir j) (Base (pj_AofManifest j))) CopyOk ∈ tr ∧
         ECopy (Join (pj_AofDir j) (pj_LastSegmentFile j)) (Join (pj_SnapshotDir j) (pj_LastSegmentFile j)) CopyOk ∈ tr
  | 5%nat => ETruncate (pj_TruncateTs j) (pj_AofManifest j) true ∈ tr ∧
         ∃ post, EStat (pj_AofDir j) (Some post) ∈ tr ∧ drifted (pj_PreStatSnapshot j) post (pj_LastSegmentFile j) = false
  | 6%nat => ∃ m, EInfo (pj_ServerAddr j) (Some m) ∈ tr
  | 7%nat => ∃ m, EInfo (pj_ServerAddr j) (Some m) ∈ tr ∧ loaded m = true
  | _ => True
  end.

(** the fields found out by the first [k] steps *)
Record agree (k : nat) (j j' : PitrJob) : Prop := mkAgree {
  ag_id : pj_ID j' = pj_ID j;
  ag_addr : pj_ServerAddr j' = pj_ServerAddr j;
  ag_ts : pj_TruncateTs j' = pj_TruncateTs j;
  ag_group : (0 < k)%nat → pj_GroupID j' = pj_GroupID j;
  ag_aof : (1 < k)%nat → pj_AofDir j' = pj_AofDir j ∧ pj_AofManifest j' = pj_AofManifest j;
  ag_segment : (2 < k)%nat → pj_LastSegmentFile j' = pj_LastSegmentFile j ∧ pj_LastSegmentTsRange j' = pj_LastSegmentTsRange j;
  ag_snapshot : (4 < k)%nat → pj_SnapshotDir j' = pj_SnapshotDir j ∧ pj_PreStatSnapshot j' = pj_PreStatSnapshot j;
}.

Lemma agree_refl k j : agree k j j.
Proof. by split. Qed.
Lemma agree_trans k j1 j2 j3 : agree k j1 j2 → agree k j2 j3 → agree k j1 j3.
Proof.
  intros [A1 A2 A3 A4 A5 A6 A7] [B1 B2 B3 B4 B5 B6 B7]. split; [congruence..|intros Hk|intros Hk|intros Hk|intros Hk].
  - rewrite (B4 Hk). auto.
  - destruct (A5 Hk), (B5 Hk). split; congruence.
  - destruct (A6 Hk), (B6 Hk). split; congruence.
  - destruct (A7 Hk), (B7 Hk). split; congruence.
Qed.

Definition extends (k : nat) (tr tr' : list pevent) : Prop := ∃ evs, tr' = tr ++ evs ∧ Forall (λ e, (needs e <= k)%nat) evs.

Lemma extends_refl k tr : extends k tr tr.
Proof. exists []. by rewrite app_nil_r. Qed.
Lemma extends_trans k tr1 tr2 tr3 : extends k tr1 tr2 → extends k tr2 tr3 → extends k tr1 tr3.
Proof. intros (l1 & -> & H1) (l2 & -> & H2). exists (l1 ++ l2). rewrite app_assoc. split; [done|]. by apply Forall_app. Qed.
Lemma extends_subset k tr tr' : extends k tr tr' → tr ⊆ tr'.
Proof. intros (l & -> & _) e He. apply elem_of_app. by left. Qed.

Lemma ev_keeps i k j j' tr tr' : (i < k)%nat → agree k j j' → tr ⊆ tr' → ev i j tr → ev i j' tr'.
Proof.
  intros Hi [A1 A2 A3 A4 A5 A6 A7] Hsub.
  destruct i as [|[|[|[|[|[|[|[|]]]]]]]]; cbn; rewrite ?A2, ?A3; try (destruct A5 as [E1 E2]; [lia|]; rewrite ?E1, ?E2);
    try (destruct A6 as [E3 E4]; [lia|]; rewrite ?E3, ?E4); try (destruct A7 as [E5 E6]; [lia|]; rewrite ?E5, ?E6); rewrite ?A4 by lia.
  - intros He. by apply Hsub.
  - intros [(m1 & v1 & ? & ?) (m2 & v2 & ? & ?)]. split; [exists m1, v1|exists m2, v2]; auto.
  - intros (data & pieces & ? & ? & ? & ?). exists data, pieces. auto.
  - intros He. by apply Hsub.
  - intros (? & ? & ?). auto.
  - intros (? & post & ? & ?). split; [auto|]. exists post. auto.
  - intros (m & ?). exists m. auto.
  - intros (m & ? & ?). exists m. auto.
  - done.
Qed.

(** ** One step at a time *)
Definition outline (j : PitrJob) : PitrState * list (string * pitrStepStatus) * option perror :=
  (pj_State j, (λ x, (st_Name x, st_Status x)) <$> pj_Steps j, pj_Error j).

Record moved (k : nat) (s s' : pst) : Prop := mkMoved {
  mv_agree : agree k (ps_job s) (ps_job s');
  mv_outline : outline (ps_job s') = outline (ps_job s);
  mv_trace : extends k (ps_trace s) (ps_trace s');
  mv_now : ps_now s ≤ ps_now s';
}.
Lemma moved_refl k s : moved k s s.
Proof. split; [apply agree_refl|done|apply extends_refl|done]. Qed.
Lemma moved_trans k s1 s2 s3 : moved k s1 s2 → moved k s2 s3 → moved k s1 s3.
Proof.
  intros [A1 A2 A3 A4] [B1 B2 B3 B4]. split; [by eapply agree_trans|congruence|by eapply extends_trans|lia].
Qed.

Section steps.
Context `{Outside} (restartCmd : string) (jobTimeout : Z) (k : nat) (s0 : pst).

(** [m], started in a state that step [k] can have come to from [s0], does not panic and
    ends in such a state, with the given result *)
Definition tri {A} (m : P A) (Q : outcome perror A → pst → Prop) (s : pst) : Prop :=
  moved k s0 s → wp m (λ r s', r ≠ Panic ∧ moved k s0 s' ∧ Q r s') s.

Lemma tri_mono {A} (m : P A) (Q Q' : outcome perror A → pst → Prop) s :
  tri m Q s → (∀ r s', moved k s0 s' → Q r s' → Q' r s') → tri m Q' s.
Proof. intros Hm HQ Hs. eapply wp_mono; [by apply Hm|]. intros r s' (? & ? & ?). auto. Qed.
Lemma tri_ret {A} (a : A) (Q : outcome perror A → pst → Prop) s : Q (Ok a) s → tri (mret a) Q s.
Proof. intros HQ Hs. by apply wp_ret. Qed.
Lemma tri_fail {A} e (Q : outcome perror A → pst → Prop) s : Q (Err e) s → tri (fail e) Q s.
Proof. intros HQ Hs. by apply wp_fail. Qed.
Lemma tri_bind {A B} (m : P A) (f : A → P B) Q s :
  tri m (λ r s', match r with Ok a => tri (f a) Q s' | Err e => Q (Err e) s' | Panic => True end) s → tri (m ≫= f) Q s.
Proof.
  intros Hm Hs. apply wp_bind. eapply wp_mono; [by apply Hm|]. intros [a|e|] s' (? & ? & HQ); [by apply HQ|done|done].
Qed.
Lemma tri_gets {A} (f : pst → A) Q s : Q (Ok (f s)) s → tri (gets f) Q s.
Proof. intros HQ Hs. by apply wp_gets. Qed.
Lemma tri_ask {A} (f : nat → A) Q s :
  (∀ a s', ps_job s' = ps_job s → ps_trace s' = ps_trace s → ps_now s ≤ ps_now s' → Q (Ok a) s') → tri (ask f) Q s.
Proof.
  intros HQ Hs. unfold wp, ask. cbn. split; [done|]. split; [|apply HQ; cbn; [done|done|lia]].
  eapply moved_trans; [done|]. split; [apply agree_refl|done|apply extends_refl|cbn; lia].
Qed.
Lemma tri_emit e Q s : (needs e <= k)%nat →
  (∀ s', ps_job s' = ps_job s → ps_trace s' = ps_trace s ++ [e] → Q (Ok tt) s') → tri (emit e) Q s.
Proof.
  intros Hn HQ Hs. apply wp_modify. split; [done|]. split; [|by apply HQ]. eapply moved_trans; [done|].
  split; [apply agree_refl|done| |done]. exists [e]. split; [done|]. by apply Forall_singleton.
Qed.
Lemma tri_event {A} (f : nat → A) e Q s : (∀ a, (needs (e a) <= k)%nat) →
  (∀ a s', ps_job s' = ps_job s → ps_trace s' = ps_trace s ++ [e a] → ps_now s ≤ ps_now s' → Q (Ok a) s') → tri (ask_event f e) Q s.
Proof.
  intros Hn HQ. unfold ask_event. apply tri_bind, tri_ask. intros a s' Hj Ht Hnow.
  intros Hs. unfold wp, emit, modify, mbind, M_bind, mret, M_ret. cbn. split; [done|]. split; [|apply HQ; cbn; [done|by rewrite Ht|done]].
  eapply moved_trans; [done|]. split; [apply agree_refl|done| |done]. exists [e a]. split; [done|]. by apply Forall_singleton.
Qed.
Lemma tri_set_job f Q s : agree k (ps_job s) (f (ps_job s)) → outline (f (ps_job s)) = outline (ps_job s) →
  (∀ s', ps_job s' = f (ps_job s) → ps_trace s' = ps_trace s → Q (Ok tt) s') → tri (set_job f) Q s.
Proof.
  intros Ha Ho HQ Hs. apply wp_modify. split; [done|]. split; [|by apply HQ]. eapply moved_trans; [done|]. split; [done|done|apply extends_refl|done].
Qed.
Lemma tri_on_err {A} (m : P A) h Q s :
  tri m (λ r s', match r with Err e => tri (h e) Q s' | _ => Q r s' end) s → tri (on_err m h) Q s.
Proof.
  intros Hm Hs. apply wp_on_err. eapply wp_mono; [by apply Hm|]. intros [a|e|] s' (? & ? & HQ); [done|by apply HQ|done].
Qed.
End steps.

(** ** The nine steps *)
Ltac tri_go :=
  repeat first
    [ apply tri_event; [intros; cbn; lia|]; let a := fresh "a" in let s := fresh "s" in let Hj := fresh "Hj" in let Ht := fresh "Ht" in intros a s Hj Ht _
    | apply tri_bind | apply tri_fail; done | apply tri_ret | apply tri_gets
    | apply tri_ask; let a := fresh "a" in let s := fresh "s" in let Hj := fresh "Hj" in let Ht := fresh "Ht" in intros a s Hj Ht _
    | apply tri_emit; [cbn; lia|]; let s := fresh "s" in let Hj := fresh "Hj" in let Ht := fresh "Ht" in intros s Hj Ht ].
Ltac agree_go := split; cbn; intros; first [done | lia].
(** membership in a trace that grew event by event *)
Ltac in_trace := repeat match goal with Ht : ps_trace _ = _ |- _ => rewrite Ht; clear Ht end; set_solver.

Section nine.
Context `{Outside} (restartCmd : string) (jobTimeout : Z) (s0 : pst).
Abbreviation shows i := (λ (r : outcome perror unit) (s : pst), r = Ok tt → ev i (ps_job s) (ps_trace s)).

Lemma stepValidate_tri s : tri 0 s0 stepValidate (shows 0%nat) s.
Proof.
  unfold stepValidate, job. tri_go. destruct a as [[gid []]|]; tri_go.
  - apply tri_set_job; [agree_go|done|]. intros s9 Hj9 Ht9. apply tri_ret. intros _. cbn. rewrite Hj9. cbn. rewrite Hj. in_trace.
  - apply tri_set_job; [agree_go|done|]. intros s9 Hj9 Ht9. by apply tri_fail.
Qed.

Lemma config_get_tri (pattern : string) (Q : outcome perror (gmap bytes bytes) → pst → Prop) s :
  (∀ e s', ps_job s' = ps_job s → Q (Err e) s') →
  (∀ (m : gmap bytes bytes) s', ps_job s' = ps_job s → ps_trace s' = ps_trace s ++ [EConfig (pj_ServerAddr (ps_job s)) pattern (Some m)] → Q (Ok m) s') →
  tri 1 s0 (config_get pattern) Q s.
Proof.
  intros Herr Hok. unfold config_get, job. tri_go. destruct a as [m|]; [apply tri_ret; by apply Hok|apply tri_fail; by apply Herr].
Qed.

Lemma require_yes_tri (parameter : string) (Q : outcome perror unit → pst → Prop) s :
  (∀ e s', ps_job s' = ps_job s → Q (Err e) s') →
  (∀ s', ps_job s' = ps_job s → ps_trace s ⊆ ps_trace s' → says_yes (pj_ServerAddr (ps_job s)) parameter (ps_trace s') → Q (Ok tt) s') →
  tri 1 s0 (require_yes parameter) Q s.
Proof.
  intros Herr Hok. unfold require_yes. apply tri_bind, config_get_tri; [done|]. intros m s1 Hj Ht.
  destruct (m !! bstr parameter) as [v|] eqn:Hv; [destruct (LowerIs v "yes") eqn:Hl|]; [apply tri_ret|apply tri_fail; by apply Herr..].
  apply Hok; [done|rewrite Ht; set_solver|]. exists m, v. rewrite Ht. split; [set_solver|done].
Qed.

Lemma stepPrereq_tri s : tri 1 s0 stepPrereq (shows 1%nat) s.
Proof.
  unfold stepPrereq. apply tri_bind, require_yes_tri; [done|]. intros s1 Hj1 Hs1 [m1 [v1 Hy1]].
  apply tri_bind, require_yes_tri; [done|]. intros s2 Hj2 Hs2 [m2 [v2 Hy2]].
  apply tri_bind, config_get_tri; [done|]. intros dir s3 Hj3 Ht3. apply tri_bind, config_get_tri; [done|]. intros file s4 Hj4 Ht4.
  apply tri_bind, config_get_tri; [done|]. intros sub s5 Hj5 Ht5. destruct (decide _); [by apply tri_fail|].
  apply tri_set_job; [agree_go|done|]. intros s6 Hj6 Ht6 _. assert (pj_ServerAddr (ps_job s6) = pj_ServerAddr (ps_job s)) as Ha.
  { rewrite Hj6. cbn. by rewrite Hj5, Hj4, Hj3, Hj2, Hj1. }
  cbn. rewrite Ha. rewrite Hj1 in Hy2. rewrite Ht6, Ht5, Ht4, Ht3. split; [exists m1, v1|exists m2, v2]; split_and!; try apply Hy1; try apply Hy2; set_solver.
Qed.

Lemma stepFeasibility_tri s : tri 2 s0 stepFeasibility (shows 2%nat) s.
Proof.
  unfold stepFeasibility, job. tri_go. destruct a as [data|]; tri_go. destruct (last (readPitrAofManifest data)) as [lastFile|] eqn:Hl; tri_go.
  destruct a as [pieces|]; tri_go. destruct (scanPitrAofTimestamps pieces) as [lo hi] eqn:Hsc.
  destruct (decide (lo = 0 ∧ hi = 0)); tri_go. destruct (decide _) as [|Hr]; tri_go. destruct a as [size|]; tri_go.
  assert (∀ s5, ps_job s5 = ps_job s4 → ps_trace s5 = ps_trace s4 → tri 2 s0 (set_job (pj_set_segment lastFile (lo, hi))) (shows 2%nat) s5) as Hdone.
  { intros s5 Hj5 Ht5. apply tri_set_job; [agree_go|done|]. intros s6 Hj6 Ht6 _. cbn. rewrite Hj6. cbn. rewrite Hj5, Hj2, Hj1, Hj0, Hj.
    exists data, pieces. rewrite Ht6, Ht5. split_and!; [in_trace|done|in_trace|done|lia|lia]. }
  destruct a as [free|]; [destruct (decide _); tri_go|]; by apply Hdone.
Qed.

Lemma stepShutdown_tri s : tri 3 s0 stepShutdown (shows 3%nat) s.
Proof. unfold stepShutdown, job. tri_go. destruct a; tri_go. intros _. cbn. rewrite Hj. in_trace. Qed.

Lemma copyFile_tri src dst (Q : outcome perror unit → pst → Prop) s :
  (∀ e s', ps_job s' = ps_job s → Q (Err e) s') →
  (∀ s', ps_job s' = ps_job s → ps_trace s' = ps_trace s ++ [ECopy src dst CopyOk] → Q (Ok tt) s') →
  tri 4 s0 (copyFile src dst) Q s.
Proof.
  intros Herr Hok. unfold copyFile. tri_go. destruct a; [apply tri_ret; by apply Hok|apply tri_fail; by apply Herr..| |apply tri_fail; by apply Herr].
  tri_go. apply tri_fail. apply Herr. congruence.
Qed.

Lemma stepSnapshot_tri s : tri 4 s0 stepSnapshot (shows 4%nat) s.
Proof.
  unfold stepSnapshot, job, stat_dir. set (j := ps_job s). tri_go. subst j. set (dir := Join (Dir _) _). destruct a; cbn [negb]; tri_go.
  destruct a as [pre|]; tri_go.
  apply tri_on_err. apply tri_bind, copyFile_tri; [intros; tri_go|]. intros s4 Hj4 Ht4. apply copyFile_tri; [intros; tri_go|]. intros s5 Hj5 Ht5.
  apply tri_set_job; [agree_go|done|]. intros s6 Hj6 Ht6 _. cbn. rewrite Hj6. cbn.
  assert (ps_job s5 = ps_job s) as -> by congruence. rewrite Ht6, Ht5, Ht4, Ht1. split_and!; set_solver.
Qed.

Lemma stepTruncate_tri s : tri 5 s0 stepTruncate (shows 5%nat) s.
Proof.
  unfold stepTruncate, job, stat_dir. tri_go. destruct a as [[] out]; cbn [negb fst snd]; tri_go.
  - destruct a as [post|]; tri_go. destruct (drifted _ _ _) eqn:Hd; tri_go. intros _. cbn.
    assert (ps_job s2 = ps_job s) as -> by congruence. split; [in_trace|]. exists post. split; [in_trace|done].
  - destruct a; tri_go.
Qed.

(** waiting ends before its bound *)
Lemma poll_tri k ready late deadline fuel s : (6 <= k)%nat → deadline < ps_now s + second * (Z.of_nat fuel - 1) → (0 < fuel)%nat →
  tri k s0 (poll fuel ready late deadline)
    (λ r s', (r = Ok tt → ∃ m, EInfo (pj_ServerAddr (ps_job s)) (Some m) ∈ ps_trace s' ∧ ready m = true) ∧
       pj_ServerAddr (ps_job s') = pj_ServerAddr (ps_job s)) s.
Proof.
  intros Hk. revert s. induction fuel as [|fuel IH]; intros s Hd Hf; [lia|]. cbn [poll].
  apply tri_bind, tri_ask. intros c s1 Hj1 Ht1 Hn1. destruct c; [apply tri_fail; by rewrite Hj1|].
  apply tri_bind. unfold ping_info, job. apply tri_bind, tri_gets. apply tri_event; [intros; cbn; lia|]. intros info s2 Hj2 Ht2 Hn2.
  destruct (match info with Some m => ready m | None => false end) eqn:Hr.
  { apply tri_ret. split; [|by rewrite Hj2, Hj1]. intros _. destruct info as [m|]; [|done]. exists m. rewrite Ht2, Hj1. split; [set_solver|done]. }
  apply tri_bind, tri_gets. destruct (decide _) as [|Hle].
  { apply tri_bind, tri_gets, tri_fail. by rewrite Hj2, Hj1. }
  apply tri_bind, tri_ask. intros c s3 Hj3 Ht3 Hn3. destruct c; [apply tri_fail; by rewrite Hj3, Hj2, Hj1|].
  apply tri_bind. intros Hs. unfold sleep. apply wp_modify. split; [done|]. set (s4 := mkPst _ _ _ _). assert (moved k s0 s4) as Hs4.
  { eapply moved_trans; [done|]. split; [apply agree_refl|done|apply extends_refl|cbn; unfold second; lia]. }
  split; [done|]. assert (ps_now s4 = ps_now s3 + second) as Hn4 by done.
  assert (0 < fuel)%nat by (destruct fuel; [unfold second in *; cbn in Hd; lia|lia]).
  assert (ps_job s4 = ps_job s) as Hj4 by (cbn; congruence). rewrite <-Hj4. apply IH; [unfold second in *; lia|done].
Qed.

Lemma poll_fuel_enough start : start + jobTimeout < start + second * (Z.of_nat (poll_fuel jobTimeout) - 1) ∧ (0 < poll_fuel jobTimeout)%nat.
Proof.
  unfold poll_fuel, second. split; [|lia]. pose proof (Z.mul_div_le jobTimeout 1000000000 eq_refl).
  pose proof (Z.mul_succ_div_gt jobTimeout 1000000000 eq_refl). lia.
Qed.

Lemma stepRestart_tri s : tri 6 s0 (stepRestart restartCmd jobTimeout) (shows 6%nat) s.
Proof.
  assert (∀ s1, pj_ServerAddr (ps_job s1) = pj_ServerAddr (ps_job s) → tri 6 s0 (
    j ← job; on_err (pollUntilResponsive jobTimeout) (λ _, fail (PNotResponsive (pj_SnapshotDir j)))) (shows 6%nat) s1) as Hpoll.
  { intros s1 Hj1. unfold job. apply tri_bind, tri_gets, tri_on_err. unfold pollUntilResponsive. apply tri_bind, tri_gets.
    destruct (poll_fuel_enough (ps_now s1)). eapply tri_mono; [by apply poll_tri|]. intros [[]|e|] s2 _ [Hok Ha]; [|by apply tri_fail|done].
    intros _. cbn. rewrite Ha. destruct (Hok eq_refl) as (m & Hm & _). by exists m. }
  unfold stepRestart. apply tri_bind. destruct (decide _); [apply tri_ret; by apply Hpoll|]. tri_go. destruct a as [[] out]; cbn [fst].
  - apply tri_set_job; [agree_go|done|]. intros s2 Hj2 _. apply Hpoll. rewrite Hj2. cbn. by rewrite Hj.
  - apply tri_ret. apply Hpoll. by rewrite Hj.
Qed.

Lemma stepWaitLoad_tri s : tri 7 s0 (stepWaitLoad jobTimeout) (shows 7%nat) s.
Proof.
  unfold stepWaitLoad. apply tri_bind, tri_gets. destruct (poll_fuel_enough (ps_now s)). eapply tri_mono; [by apply poll_tri; [lia|..]|].
  intros r s2 _ [Hok Ha] Hr. cbn. rewrite Ha. destruct (Hok Hr) as (m & Hm & Hl). by exists m.
Qed.

Lemma resync_all_tri master servers (Q : outcome perror (list string) → pst → Prop) s :
  (∀ l s', ps_job s' = ps_job s → Q (Ok l) s') → tri 8 s0 (resync_all master servers) Q s.
Proof.
  revert Q s. induction servers as [|addr servers IH]; intros Q s HQ; cbn [resync_all]; [apply tri_ret; by apply HQ|].
  destruct (decide (addr = master)); [by apply IH|]. apply tri_bind, tri_event; [intros; cbn; lia|]. intros ok s1 Hj1 Ht1 _.
  apply tri_bind, IH. intros l s2 Hj2. apply tri_ret. apply HQ. congruence.
Qed.

Lemma warn_step_outline name e l : (λ x, (st_Name x, st_Status x)) <$> warn_step name e l = (λ x, (st_Name x, st_Status x)) <$> l.
Proof. induction l as [|x l IH]; [done|]. cbn [warn_step]. destruct (decide _); [done|]. cbn. by f_equal. Qed.

Lemma stepResync_tri s : tri 8 s0 stepResync (shows 8%nat) s.
Proof.
  unfold stepResync, job. apply tri_bind, tri_gets. apply tri_bind, tri_ask. intros servers s1 Hj1 _ _. destruct servers as [servers|]; [|by apply tri_fail].
  apply tri_bind, resync_all_tri. intros l s2 Hj2. destruct (decide _); [by apply tri_ret|].
  apply tri_set_job; [agree_go| |done]. unfold outline. cbn. by rewrite warn_step_outline.
Qed.
End nine.

(** * A job *)
Definition names : list string :=
  ["validate"; "prereq"; "feasibility"; "shutdown"; "snapshot"; "truncate"; "restart"; "wait-load"; "resync"]%string.
Definition done_steps (i : nat) : list (string * pitrStepStatus) := (., pitrStepStatusDone) <$> take i names.
(** the state a job shows after its first [i] steps *)
Definition state_after (i : nat) : PitrState :=
  match i with O => PitrStatePending | S i => stepToState (default ""%string (names !! i)) end.

Definition failed_outline (e : perror) (o : PitrState * list (string * pitrStepStatus) * option perror) : Prop :=
  ∃ i name, names !! i = Some name ∧ o = (PitrStateFailed, done_steps i ++ [(name, pitrStepStatusFailed)], Some e).
Definition interrupted_outline (o : PitrState * list (string * pitrStepStatus) * option perror) : Prop :=
  ∃ i, (i < 9)%nat ∧ o = (state_after i, done_steps i, None).

Definition shape (pc : ppc) (o : PitrState * list (string * pitrStepStatus) * option perror) : Prop :=
  match pc with
  | PCheck i => (i <= 9)%nat ∧ o = (state_after i, done_steps i, None)
  | PInside i => ∃ name, names !! i = Some name ∧ o = (stepToState name, done_steps i ++ [(name, pitrStepStatusRunning)], None)
  | PConclude None => o = (state_after 9, done_steps 9, None)
  | PConclude (Some e) => failed_outline e o ∨ (e = PCanceled ∧ interrupted_outline o)
  | PReturned => (∃ e, failed_outline e o) ∨ interrupted_outline o ∨ o = (PitrStateSucceeded, done_steps 9, None) ∨
                 o = (PitrStateCancelled, done_steps 9, None)
  end.
Definition level (pc : ppc) : nat := match pc with PCheck i | PInside i => i | _ => 9%nat end.

(** every event comes after the success of the steps it needs *)
Definition guarded (j : PitrJob) (tr : list pevent) : Prop :=
  ∀ pre e post, tr = pre ++ e :: post → ∀ i, (i < needs e)%nat → ev i j pre.

Definition done_count (j : PitrJob) : nat := length (filter (λ x, x.2 = pitrStepStatusDone) (outline j).1.2).

Record jinv (pc : ppc) (s : pst) : Prop := mkJinv {
  ji_shape : shape pc (outline (ps_job s));
  ji_guarded : guarded (ps_job s) (ps_trace s);
  ji_proved : ∀ i, (i < done_count (ps_job s))%nat → ev i (ps_job s) (ps_trace s);
  ji_level : Forall (λ e, (needs e <= level pc)%nat) (ps_trace s);
}.

Lemma done_steps_count i : (i <= 9)%nat → length (filter (λ x, x.2 = pitrStepStatusDone) (done_steps i)) = i.
Proof. intros Hi. do 10 (destruct i as [|i]; [done|]). lia. Qed.

Lemma done_steps_S i name : names !! i = Some name → done_steps (S i) = done_steps i ++ [(name, pitrStepStatusDone)].
Proof. intros Hn. unfold done_steps. rewrite (take_S_r _ _ _ Hn), fmap_app. done. Qed.

Lemma names_lt i name : names !! i = Some name → (i < 9)%nat.
Proof. intros Hn. apply lookup_lt_Some in Hn. exact Hn. Qed.

Lemma guarded_keeps k j j' tr evs : guarded j tr → Forall (λ e, (needs e <= k)%nat) tr → agree k j j' →
  (∀ i, (i < k)%nat → ev i j tr) → Forall (λ e, (needs e <= k)%nat) evs → guarded j' (tr ++ evs).
Proof.
  intros Hg Hl Ha Hp He pre e post Heq i Hi. apply app_eq_inv in Heq as [(l & Htr & Hpost)|(l & Hpre & Hevs)].
  - destruct l as [|x l].
    + rewrite app_nil_r in Htr. subst pre. destruct evs as [|x evs]; [done|]. injection Hpost as -> ->. apply Forall_cons in He as [He _].
      eapply ev_keeps; [|exact Ha|done|apply Hp]; lia.
    + injection Hpost as -> ->. subst tr. apply Forall_app in Hl as [_ [Hle _]%Forall_cons].
      eapply ev_keeps; [|exact Ha|done|by eapply Hg]; lia.
  - subst pre evs. apply Forall_app in He as [_ [He _]%Forall_cons]. eapply ev_keeps; [|exact Ha| |apply Hp]; [lia| |lia].
    intros x Hx. apply elem_of_app. by left.
Qed.

Lemma agree_progress k state steps now err j : agree k j (pj_progress state steps now err j).
Proof. by split. Qed.

Lemma guarded_progress j j' tr : (∀ k, agree k j j') → guarded j tr → guarded j' tr.
Proof. intros Ha Hg pre e post Heq i Hi. eapply (ev_keeps i (S i)); [lia|apply Ha|done|by eapply Hg]. Qed.

Section advance.
Context `{Outside} (restartCmd : string) (jobTimeout : Z).

Lemma steps_names : (steps restartCmd jobTimeout).*1 = names.
Proof. done. Qed.

Lemma steps_tri i name fn s0 s : steps restartCmd jobTimeout !! i = Some (name, fn) →
  names !! i = Some name ∧ tri i s0 fn (λ r s', r = Ok tt → ev i (ps_job s') (ps_trace s')) s.
Proof.
  intros Hi. split; [by rewrite <-steps_names, list_lookup_fmap, Hi|].
  destruct i as [|[|[|[|[|[|[|[|[|i]]]]]]]]]; [injection Hi as _ <-..|done].
  - apply stepValidate_tri.
  - apply stepPrereq_tri.
  - apply stepFeasibility_tri.
  - apply stepShutdown_tri.
  - apply stepSnapshot_tri.
  - apply stepTruncate_tri.
  - apply stepRestart_tri.
  - apply stepWaitLoad_tri.
  - apply stepResync_tri.
Qed.

Lemma advance_check i s : jinv (PCheck i) s → wp (advance restartCmd jobTimeout (PCheck i))
  (λ r s', ∃ pc, r = Ok pc ∧ jinv pc s' ∧ ∀ k, agree k (ps_job s) (ps_job s')) s.
Proof.
  intros [[Hi Ho] Hg Hp Hl]. unfold advance. destruct (steps restartCmd jobTimeout !! i) as [[name fn]|] eqn:Hs.
  - destruct (steps_tri i name fn s s Hs) as [Hn _]. pose proof (names_lt _ _ Hn). unfold wp, ask, mbind, M_bind.
    destruct (o_cancelled (ps_tick s)); cbn.
    + exists (PConclude (Some PCanceled)). split; [done|]. split; [|intros k; apply agree_refl]. split; cbn; [|done|done|].
      * right. split; [done|]. by exists i.
      * eapply Forall_impl; [exact Hl|]. cbn. lia.
    + exists (PInside i). split; [done|]. split; [|intros k; apply agree_progress]. unfold outline in Ho. injection Ho as Hst Hsteps Herr. split; cbn.
      * exists name. split; [done|]. unfold outline. cbn. by rewrite fmap_app, Hsteps, Herr.
      * eapply guarded_progress; [|exact Hg]. intros k. apply agree_progress.
      * intros i' Hi'. eapply (ev_keeps i' (S i')); [lia|apply agree_progress|done|]. apply Hp.
        eapply Nat.lt_le_trans; [exact Hi'|]. unfold done_count, outline. cbn [fst snd pj_Steps pj_progress ps_job].
        rewrite fmap_app, filter_app, length_app. cbn [fmap list_fmap st_Name st_Status]. rewrite filter_cons_False by done. cbn. lia.
      * done.
  - assert (i = 9%nat) as ->. { apply lookup_ge_None_1 in Hs. cbn in Hs. lia. }
    exists (PConclude None). split; [done|]. split; [|intros k; apply agree_refl]. split; [done..|].
    eapply Forall_impl; [exact Hl|]. cbn. lia.
Qed.

Lemma step_end_spec i name e s : names !! i = Some name →
  outline (ps_job s) = (stepToState name, done_steps i ++ [(name, pitrStepStatusRunning)], None) →
  ∃ s', step_end i e s = (Ok tt, s') ∧ (∀ k, agree k (ps_job s) (ps_job s')) ∧ ps_trace s' = ps_trace s ∧
    outline (ps_job s') = match e with
                          | Some e => (PitrStateFailed, done_steps i ++ [(name, pitrStepStatusFailed)], Some e)
                          | None => (state_after (S i), done_steps (S i), None)
                          end.
Proof.
  intros Hn Ho. unfold outline in Ho. injection Ho as Hst Hsteps Herr. unfold step_end. pose proof (names_lt _ _ Hn) as Hlt.
  assert (length (done_steps i) = i) as Hlen.
  { unfold done_steps. rewrite length_fmap, length_take. change (length names) with 9%nat. lia. }
  assert (is_Some (pj_Steps (ps_job s) !! i)) as [x Hx].
  { apply lookup_lt_is_Some. erewrite <-length_fmap, Hsteps, length_app, Hlen. cbn. lia. }
  assert (st_Name x = name) as Hname.
  { pose proof (f_equal (λ l, l !! i) Hsteps) as Hl. cbn in Hl. rewrite list_lookup_fmap, Hx in Hl. cbn in Hl.
    rewrite lookup_app_r, Hlen, Nat.sub_diag in Hl by lia. by injection Hl. }
  rewrite Hx. eexists. split; [done|]. split; [intros k; apply agree_progress|]. split; [done|].
  rewrite (done_steps_S _ _ Hn). unfold outline. cbn [ps_job pj_progress pj_State pj_Steps pj_Error].
  rewrite list_fmap_insert, Hsteps, insert_app_r_alt, Hlen, Nat.sub_diag by lia.
  destruct e as [e|]; cbn; rewrite Hname; [done|]. by rewrite Hn, Hst, Herr.
Qed.

Lemma advance_inside i s : jinv (PInside i) s → wp (advance restartCmd jobTimeout (PInside i))
  (λ r s', ∃ pc, r = Ok pc ∧ jinv pc s' ∧ agree 0 (ps_job s) (ps_job s')) s.
Proof.
  intros [(name & Hn & Ho) Hg Hp Hl]. unfold wp, advance. assert (is_Some (steps restartCmd jobTimeout !! i)) as [[name' fn] Hs].
  { apply lookup_lt_is_Some. by apply names_lt in Hn. }
  rewrite Hs. destruct (steps_tri i name' fn s s Hs) as [Hn' Ht]. assert (name' = name) as -> by congruence.
  assert (length (pj_Steps (ps_job s)) - 1 = i)%nat as ->.
  { unfold outline in Ho. injection Ho as _ Hsteps _. erewrite <-length_fmap, Hsteps, length_app. unfold done_steps.
    rewrite length_fmap, length_take. change (length names) with 9%nat. cbn. apply names_lt in Hn. lia. }
  assert (done_count (ps_job s) = i) as Hdc.
  { unfold done_count. rewrite Ho. cbn. rewrite filter_app, length_app, done_steps_count, filter_cons_False by first [done | apply names_lt in Hn; lia]. cbn. lia. }
  rewrite Hdc in Hp. specialize (Ht (moved_refl _ _)). unfold wp in Ht. unfold step_body. destruct (fn s) as [r s1]. cbn [fst snd] in Ht.
  destruct Ht as (Hnp & [Ha Hos (evs & Htr & Hevs) Hnow] & Hev).
  assert (guarded (ps_job s1) (ps_trace s1)) as Hg1. { rewrite Htr. by eapply guarded_keeps. }
  assert (Forall (λ e, (needs e <= i)%nat) (ps_trace s1)) as Hl1. { rewrite Htr. by apply Forall_app. }
  assert (∀ i', (i' < i)%nat → ev i' (ps_job s1) (ps_trace s1)) as Hp1.
  { intros i' Hi'. apply (ev_keeps i' i (ps_job s) _ (ps_trace s)); [exact Hi'|exact Ha|rewrite Htr; set_solver|by apply Hp]. }
  assert (agree 0 (ps_job s) (ps_job s1)) as Ha0 by (destruct Ha; split; [done..|intros; lia|intros; lia|intros; lia|intros; lia]).
  rewrite <-Hos in Ho. apply names_lt in Hn as Hlt. destruct r as [[]|e|]; [| |done].
  - destruct (step_end_spec i name None s1 Hn Ho) as (s2 & -> & Ha2 & Ht2 & Ho2). cbn. exists (PCheck (S i)). split; [done|].
    split; [|by eapply agree_trans]. split.
    + rewrite Ho2. split; [lia|done].
    + rewrite Ht2. by eapply guarded_progress.
    + intros i' Hi'. unfold done_count in Hi'. rewrite Ho2 in Hi'. cbn [fst snd] in Hi'. rewrite done_steps_count in Hi' by lia. rewrite Ht2.
      eapply (ev_keeps i' (S i')); [lia|apply Ha2|done|]. destruct (decide (i' = i)) as [->|]; [by apply Hev|apply Hp1; lia].
    + rewrite Ht2. eapply Forall_impl; [exact Hl1|]. cbn. lia.
  - unfold mbind, M_bind. destruct (step_end_spec i name (Some e) s1 Hn Ho) as (s2 & -> & Ha2 & Ht2 & Ho2). cbn. exists (PConclude (Some e)). split; [done|].
    split; [|by eapply agree_trans]. split.
    + left. exists i, name. by rewrite Ho2.
    + rewrite Ht2. by eapply guarded_progress.
    + intros i' Hi'. unfold done_count in Hi'. rewrite Ho2 in Hi'. cbn [fst snd] in Hi'. rewrite filter_app, length_app, done_steps_count, filter_cons_False in Hi' by first [done | lia].
      cbn in Hi'. rewrite Ht2. eapply (ev_keeps i' (S i')); [lia|apply Ha2|done|apply Hp1; lia].
    + rewrite Ht2. eapply Forall_impl; [exact Hl1|]. cbn. lia.
Qed.

Lemma advance_conclude err s : jinv (PConclude err) s → wp (advance restartCmd jobTimeout (PConclude err))
  (λ r s', r = Ok PReturned ∧ jinv PReturned s' ∧ (∀ k, agree k (ps_job s) (ps_job s')) ∧ (err ≠ None → ps_job s' = ps_job s)) s.
Proof.
  intros [Ho Hg Hp Hl]. unfold wp, advance, conclude. destruct err as [e|].
  - split; [done|]. split; [|split; [intros k; apply agree_refl|done]]. split; [|done..]. cbn. destruct Ho as [Ho|[_ Ho]]; [left; by exists e|by right; left].
  - unfold ask, setState, mbind, M_bind. cbn. split; [done|]. split; [|split; [intros k; apply agree_progress|done]]. unfold outline in Ho. injection Ho as Hst Hsteps Herr.
    split; cbn.
    + unfold outline. cbn. rewrite Hsteps, Herr. destruct (o_cancelled (ps_tick s)); auto.
    + eapply guarded_progress; [intros k; apply agree_progress|done].
    + intros i Hi. eapply (ev_keeps i (S i)); [lia|apply agree_progress|done|]. by apply Hp.
    + done.
Qed.

Lemma agree_0 j j' : (∀ k, agree k j j') → agree 0 j j'.
Proof. auto. Qed.

Lemma advance_spec pc s : jinv pc s → wp (advance restartCmd jobTimeout pc)
  (λ r s', ∃ pc', r = Ok pc' ∧ jinv pc' s' ∧ agree 0 (ps_job s) (ps_job s')) s.
Proof.
  intros Hj. destruct pc as [i|i|err|].
  - eapply wp_mono; [by apply advance_check|]. intros r s' (pc & ? & ? & ?). by exists pc.
  - by apply advance_inside.
  - eapply wp_mono; [by apply advance_conclude|]. intros r s' (? & ? & ? & _). by exists PReturned.
  - exists PReturned. split; [done|]. split; [done|apply agree_refl].
Qed.

(** a job whose state is terminal does not change any more *)
Lemma state_after_running i : pitrStateIsTerminal (state_after i) = false.
Proof.
  destruct i as [|i]; [done|]. cbn. destruct (names !! i) as [name|]; [|done]. unfold stepToState.
  cbn [default from_option id]. repeat destruct (decide _); done.
Qed.

Lemma terminal_still pc s pc' s' : jinv pc s → pitrStateIsTerminal (pj_State (ps_job s)) = true →
  advance restartCmd jobTimeout pc s = (Ok pc', s') → ps_job s' = ps_job s.
Proof.
  intros Hj Ht Ha. pose proof (ji_shape _ _ Hj) as Ho. destruct pc as [i|i|[e|]|]; cbn in Ho.
  - destruct Ho as [_ Ho]. injection Ho as Hst _ _. by rewrite Hst, state_after_running in Ht.
  - destruct Ho as (name & Hn & Ho). injection Ho as Hst _ _. pose proof (state_after_running (S i)) as Hr. cbn in Hr. rewrite Hn in Hr. cbn in Hr. by rewrite Hst, Hr in Ht.
  - cbn in Ha. by injection Ha as <- <-.
  - injection Ho as Hst _ _. by rewrite Hst in Ht.
  - cbn in Ha. by injection Ha as <- <-.
Qed.

(** ** Every job ends *)
Definition rank (pc : ppc) : nat :=
  match pc with PCheck i => 2 * (9 - i) + 2 | PInside i => 2 * (9 - i) + 1 | PConclude _ => 1 | PReturned => 0 end%nat.

Lemma advance_rank pc s pc' s' : jinv pc s → advance restartCmd jobTimeout pc s = (Ok pc', s') → (rank pc' <= rank pc - 1)%nat.
Proof.
  intros Hj Ha. pose proof (ji_shape _ _ Hj) as Ho. destruct pc as [i|i|err|].
  - destruct Ho as [Hi _]. unfold advance in Ha. destruct (steps restartCmd jobTimeout !! i) as [[name fn]|] eqn:Hs.
    + apply lookup_lt_Some in Hs. cbn in Hs. unfold mbind, M_bind, ask in Ha. cbn in Ha. destruct (o_cancelled (ps_tick s)); injection Ha as <- _; cbn; lia.
    + injection Ha as <- _. cbn. lia.
  - destruct Ho as (name & Hn & _). apply names_lt in Hn. unfold advance in Ha. destruct (steps restartCmd jobTimeout !! i) as [[? fn]|]; [|done].
    destruct (step_body _ _ s) as [[?|?|] ?]; [injection Ha as <- _; cbn; lia..|done].
  - unfold advance, conclude in Ha. destruct err; cbn in Ha; injection Ha as <- _; cbn; lia.
  - injection Ha as <- _. cbn. lia.
Qed.
End advance.

(** the goroutine with the answers it gets between one piece and the next *)
Fixpoint goroutine (restartCmd : string) (jobTimeout : Z) (os : list Outside) (pc : ppc) (s : pst) : outcome perror ppc * pst :=
  match os with
  | [] => (Ok pc, s)
  | o :: os => match @advance o restartCmd jobTimeout pc s with
               | (Ok pc, s) => goroutine restartCmd jobTimeout os pc s
               | r => r
               end
  end.

Lemma goroutine_ends restartCmd jobTimeout os pc s : jinv pc s → (rank pc <= length os)%nat →
  ∃ s', goroutine restartCmd jobTimeout os pc s = (Ok PReturned, s') ∧ jinv PReturned s'.
Proof.
  revert pc s. induction os as [|o os IH]; intros pc s Hj Hr; cbn [goroutine].
  { destruct pc; cbn in Hr; try lia. by exists s. }
  pose proof (@advance_spec o restartCmd jobTimeout pc s Hj) as Ha. unfold wp in Ha. destruct (advance restartCmd jobTimeout pc s) as [r s1] eqn:Hadv.
  destruct Ha as (pc1 & Hr1 & Hj1 & _). cbn in Hr1. subst r. apply IH; [done|].
  pose proof (@advance_rank o restartCmd jobTimeout pc s pc1 s1 Hj Hadv). cbn in Hr. lia.
Qed.

(** * The registry *)
Record minv (m : PitrManager) : Prop := mkMinv {
  mi_job : ∀ id e, pm_jobs m !! id = Some e → id ≠ ""%string ∧ pj_ID (pe_job e) = id ∧ pj_ServerAddr (pe_job e) ≠ ""%string ∧
             pm_serverLocks m !! pj_ServerAddr (pe_job e) = Some id ∧ jinv (pe_pc e) (pe_st e);
  mi_lock : ∀ addr id, pm_serverLocks m !! addr = Some id → ∃ e, pm_jobs m !! id = Some e ∧ pj_ServerAddr (pe_job e) = addr;
  mi_running : running_jobs (pm_jobs m) ≤ pm_maxConcurrent m;
}.

Lemma running_jobs_le jobs jobs' :
  (∀ id e', jobs' !! id = Some e' → running e' = true → ∃ e, jobs !! id = Some e ∧ running e = true) → running_jobs jobs' ≤ running_jobs jobs.
Proof.
  intros Hle. unfold running_jobs. rewrite <-!size_dom. apply inj_le, subseteq_size. intros id.
  rewrite !elem_of_dom. intros [e' [He' Hr]%map_lookup_filter_Some]. destruct (Hle id e' He' Hr) as (e & He & Hre).
  exists e. by apply map_lookup_filter_Some.
Qed.

Lemma running_jobs_insert jobs id e : running_jobs (<[id := e]> jobs) ≤ running_jobs jobs + 1.
Proof.
  unfold running_jobs. rewrite <-!size_dom. assert (dom (filter (λ x : string * pitrEntry, running x.2 = true) (<[id:=e]> jobs)) ⊆
    {[id]} ∪ dom (filter (λ x : string * pitrEntry, running x.2 = true) jobs)) as Hsub.
  { intros id'. rewrite elem_of_union, elem_of_singleton, !elem_of_dom. intros [e' [He' Hr]%map_lookup_filter_Some].
    destruct (decide (id' = id)); [by left|right]. rewrite lookup_insert_ne in He' by done. exists e'. by apply map_lookup_filter_Some. }
  apply subseteq_size in Hsub. rewrite size_union_alt, size_singleton in Hsub. etrans; [apply inj_le, Hsub|].
  rewrite Nat2Z.inj_add. assert (size (dom (filter (λ x : string * pitrEntry, running x.2 = true) jobs) ∖ {[id]}) <= size (dom (filter (λ x : string * pitrEntry, running x.2 = true) jobs)))%nat
    by (apply subseteq_size; set_solver). lia.
Qed.

Lemma minv_update m id e e' : minv m → pm_jobs m !! id = Some e → pj_ID (pe_job e') = pj_ID (pe_job e) →
  pj_ServerAddr (pe_job e') = pj_ServerAddr (pe_job e) → jinv (pe_pc e') (pe_st e') → (running e' = true → running e = true) →
  minv (pm_set (<[id := e']> (pm_jobs m)) (pm_serverLocks m) m).
Proof.
  intros [Hjob Hlock Hrun] He Hid Haddr Hj Hre. split; cbn.
  - intros id1 e1. rewrite lookup_insert_Some. intros [[<- <-]|[_ H1]]; [|by apply Hjob].
    rewrite Hid, Haddr. destruct (Hjob id e He) as (? & ? & ? & ? & _). by split_and!.
  - intros addr id1 H1. destruct (Hlock addr id1 H1) as (e1 & He1 & Ha1). destruct (decide (id1 = id)) as [->|].
    + exists e'. rewrite lookup_insert_eq. split; [done|]. congruence.
    + exists e1. by rewrite lookup_insert_ne.
  - etrans; [|exact Hrun]. apply running_jobs_le. intros id1 e1. rewrite lookup_insert_Some.
    intros [[<- <-]|[_ H1]] Hr; [exists e; auto|by exists e1].
Qed.

Lemma new_jinv id product addr ts now : jinv (PCheck 0) (mkPst (new_job id product addr ts now) 0 now []).
Proof.
  split; cbn; [split; [lia|done]| |intros i Hi; cbn in Hi; lia|done]. intros pre e post Heq. by destruct pre.
Qed.

Section registry.
Context (executable : string → bool) (productName : string).

Lemma Create_minv newID now addr ts m : minv m → (∀ id, newID = Some id → id ≠ ""%string ∧ pm_jobs m !! id = None) → addr ≠ ""%string →
  minv (Create executable newID now productName addr ts m).2.
Proof.
  intros Hm Hnew Haddr. unfold Create. destruct (negb (pm_enabled m)); [done|]. destruct (decide _); [done|]. destruct (negb _); [done|].
  unfold checkConcurrentLimitLocked. destruct (decide (pm_maxConcurrent m ≤ running_jobs (pm_jobs m))) as [|Hlt]; [done|].
  destruct Hm as [Hjob Hlock Hrun]. destruct (pm_serverLocks m !! addr) as [owner|] eqn:Hl.
  { destruct (Hlock _ _ Hl) as (e & He & _). destruct (Hjob _ _ He) as (Hid & _). destruct (decide (owner = ""%string)); [done|by split]. }
  destruct newID as [id|]; [|by split]. destruct (Hnew id eq_refl) as [Hid Hfresh]. split; cbn.
  - intros id1 e1. rewrite lookup_insert_Some. intros [[<- <-]|[Hne H1]].
    + cbn. rewrite lookup_insert_eq. split_and!; [done..|apply new_jinv].
    + destruct (Hjob id1 e1 H1) as (? & ? & ? & Hl1 & ?). split_and!; [done..| |done]. rewrite lookup_insert_ne; [done|]. intros ->. by rewrite Hl1 in Hl.
  - intros addr1 id1. rewrite lookup_insert_Some. intros [[<- <-]|[Hne H1]].
    + eexists. rewrite lookup_insert_eq. by split.
    + destruct (Hlock addr1 id1 H1) as (e1 & He1 & Ha1). exists e1. rewrite lookup_insert_ne; [done|]. intros ->. by rewrite He1 in Hfresh.
  - pose proof (running_jobs_insert (pm_jobs m) id (mkPEntry (PCheck 0) (mkPst (new_job id productName addr ts now) 0 now []) false)). lia.
Qed.

Lemma Remove_minv id m : minv m → minv (pitr_Remove id m).2.
Proof.
  intros Hm. unfold pitr_Remove. destruct (pm_jobs m !! id) as [e|] eqn:He; [|done]. destruct (negb _); [done|].
  destruct Hm as [Hjob Hlock Hrun]. destruct (Hjob id e He) as (Hid & Hjid & Haddr & Hl & Hj). rewrite (decide_True (P := pj_ServerAddr (pe_job e) ≠ ""%string ∧ pm_serverLocks m !! pj_ServerAddr (pe_job e) = Some id)) by done.
  assert (minv (pm_set (delete id (pm_jobs m)) (delete (pj_ServerAddr (pe_job e)) (pm_serverLocks m)) m)) as Hnew.
  { split; cbn.
    - intros id1 e1 [Hne H1]%lookup_delete_Some. destruct (Hjob id1 e1 H1) as (? & ? & ? & Hl1 & ?). split_and!; [done..| |done].
      rewrite lookup_delete_ne; [done|]. intros Heq. rewrite <-Heq in Hl1. congruence.
    - intros addr1 id1 [Hne H1]%lookup_delete_Some. destruct (Hlock addr1 id1 H1) as (e1 & He1 & Ha1). exists e1.
      rewrite lookup_delete_ne; [done|]. intros <-. congruence.
    - etrans; [|exact Hrun]. apply running_jobs_le. intros id1 e1 [_ H1]%lookup_delete_Some Hr. by exists e1. }
  cbn. destruct (decide _); [done|]. by destruct Hnew as [H1 H2 H3].
Qed.

Lemma minv_step m m' : minv m → mstep executable productName m m' → minv m'.
Proof.
  intros Hm Hs. destruct Hs as [xauth request newID now r m' Hnew Hc|xauth id r m' Hc|xauth id r m' Hc| |id e o pc s He Hsee Ha].
  - unfold PitrCreate, handler in Hc. destruct xauth; [|by injection Hc as <- <-]. cbn in Hc. destruct (pm_enabled m); [|by injection Hc as <- <-]. cbn in Hc.
    unfold create_body in Hc. destruct request as [[addr ts]|]; [|by injection Hc as <- <-]. destruct (decide (addr = "")) as [|Haddr]; [by injection Hc as <- <-|].
    destruct (decide (ts ≤ 0)); [by injection Hc as <- <-|]. pose proof (Create_minv newID now addr ts m Hm Hnew Haddr) as Hc'.
    destruct (Create executable newID now productName addr ts m) as [[] m1]; cbn in Hc'; by injection Hc as <- <-.
  - unfold PitrCancel, handler in Hc. destruct xauth; [|by injection Hc as <- <-]. cbn in Hc. destruct (pm_enabled m); [|by injection Hc as <- <-]. cbn in Hc.
    unfold pitr_Cancel in Hc. destruct (pm_jobs m !! id) as [e|] eqn:He; [|by injection Hc as <- <-]. destruct (pitrStateIsTerminal _); injection Hc as <- <-; [done|].
    eapply minv_update; [done|exact He|done|done| |done]. destruct (mi_job m Hm id e He) as (_ & _ & _ & _ & Hj). exact Hj.
  - unfold PitrRemove, handler in Hc. destruct xauth; [|by injection Hc as <- <-]. cbn in Hc. destruct (pm_enabled m); [|by injection Hc as <- <-]. cbn in Hc.
    pose proof (Remove_minv id m Hm) as Hr. destruct (pitr_Remove id m) as [r1 m1]. by injection Hc as <- <-.
  - destruct Hm as [Hjob Hlock Hrun]. split; cbn.
    + intros id e. rewrite lookup_fmap_Some. intros (e1 & <- & H1). exact (Hjob id e1 H1).
    + intros addr id H1. destruct (Hlock addr id H1) as (e1 & He1 & Ha1). exists (pe_cancel e1). by rewrite lookup_fmap, He1.
    + etrans; [|exact Hrun]. apply running_jobs_le. intros id e. rewrite lookup_fmap_Some. intros (e1 & <- & H1) Hr. by exists e1.
  - destruct (mi_job m Hm id e He) as (_ & _ & _ & _ & Hj). pose proof (@advance_spec o (pm_restartCmd m) (pm_jobTimeout m) _ _ Hj) as Hsp. unfold wp in Hsp.
    rewrite Ha in Hsp. destruct Hsp as (pc' & Heq & Hj' & Hag). cbn in Heq, Hj', Hag. injection Heq as <-. destruct Hag.
    eapply minv_update; [done|exact He|done|done|done|]. unfold running, pe_job. cbn. intros Hr. destruct (pitrStateIsTerminal (pj_State (ps_job (pe_st e)))) eqn:Ht; [|done].
    by rewrite (@terminal_still o _ _ _ _ _ _ Hj Ht Ha), Ht in Hr.
Qed.

Lemma minv_new abs enabled bin maxc timeout cmd : minv (NewPitrManager abs enabled bin maxc timeout cmd).
Proof. split; cbn; [done|done|]. unfold running_jobs. rewrite map_filter_empty, map_size_empty. destruct (decide _); lia. Qed.

Lemma minv_reach abs enabled bin maxc timeout cmd m :
  rtc (mstep executable productName) (NewPitrManager abs enabled bin maxc timeout cmd) m → minv m.
Proof.
  intros Hs. pose proof (minv_new abs enabled bin maxc timeout cmd) as Hm. induction Hs as [|m1 m2 m3 Hst _ IH]; [done|]. apply IH. by eapply minv_step.
Qed.

(** ** A job that was interrupted between two steps *)
Definition returned (id : string) (st : pst) (m : PitrManager) : Prop :=
  ∃ c, pm_jobs m !! id = Some (mkPEntry PReturned st c).

Lemma returned_step id st m m' : pitrStateIsTerminal (pj_State (ps_job st)) = false → returned id st m →
  mstep executable productName m m' → returned id st m'.
Proof.
  intros Hrun [c Hc] Hs. destruct Hs as [xauth request newID now r m' Hnew Hh|xauth id1 r m' Hh|xauth id1 r m' Hh| |id1 e o pc s He Hsee Ha].
  - unfold PitrCreate, handler in Hh. destruct xauth; [|injection Hh as <- <-; by exists c]. cbn in Hh. destruct (pm_enabled m) eqn:Hen; [|injection Hh as <- <-; by exists c]. cbn in Hh.
    unfold create_body in Hh. destruct request as [[addr ts]|]; [|injection Hh as <- <-; by exists c]. destruct (decide (addr = "")); [injection Hh as <- <-; by exists c|].
    destruct (decide (ts ≤ 0)); [injection Hh as <- <-; by exists c|].
    assert (returned id st (Create executable newID now productName addr ts m).2) as Hr.
    { unfold Create. rewrite Hen. cbn [negb]. destruct (decide _); [by exists c|]. destruct (negb _); [by exists c|]. unfold checkConcurrentLimitLocked.
      destruct (decide _); [by exists c|]. destruct (match _ with Some owner => _ | None => None end); [by exists c|]. destruct newID as [id1|]; [|by exists c].
      destruct (Hnew id1 eq_refl) as [_ Hf]. exists c. cbn. rewrite lookup_insert_ne; [done|]. intros ->. by rewrite Hc in Hf. }
    destruct (Create executable newID now productName addr ts m) as [[] m1]; cbn in Hr; by injection Hh as <- <-.
  - unfold PitrCancel, handler in Hh. destruct xauth; [|injection Hh as <- <-; by exists c]. cbn in Hh. destruct (pm_enabled m); [|injection Hh as <- <-; by exists c]. cbn in Hh.
    unfold pitr_Cancel in Hh. destruct (pm_jobs m !! id1) as [e|] eqn:He; [|injection Hh as <- <-; by exists c].
    destruct (pitrStateIsTerminal (pj_State (pe_job e))); injection Hh as <- <-; [by exists c|]. destruct (decide (id1 = id)) as [->|].
    + exists true. cbn. rewrite lookup_insert_eq. rewrite Hc in He. by injection He as <-.
    + exists c. cbn. by rewrite lookup_insert_ne.
  - unfold PitrRemove, handler in Hh. destruct xauth; [|injection Hh as <- <-; by exists c]. cbn in Hh. destruct (pm_enabled m); [|injection Hh as <- <-; by exists c]. cbn in Hh.
    unfold pitr_Remove in Hh. destruct (pm_jobs m !! id1) as [e|] eqn:He; [|injection Hh as <- <-; by exists c].
    destruct (pitrStateIsTerminal (pj_State (pe_job e))) eqn:Ht; cbn in Hh; [|injection Hh as <- <-; by exists c].
    assert (id1 ≠ id) as Hne. { intros ->. rewrite Hc in He. injection He as <-. unfold pe_job in Ht. cbn in Ht. by rewrite Hrun in Ht. }
    injection Hh as _ <-. exists c. destruct (decide (pj_SnapshotDir (pe_job e) = [])); cbn; by rewrite lookup_delete_ne.
  - exists true. cbn. by rewrite lookup_fmap, Hc.
  - destruct (decide (id1 = id)) as [->|].
    + rewrite Hc in He. injection He as <-. injection Ha as <- <-. exists c. cbn. by rewrite lookup_insert_eq.
    + exists c. cbn. by rewrite lookup_insert_ne.
Qed.

Lemma Create_locked m id e addr newID now ts : minv m → pm_jobs m !! id = Some e → pj_ServerAddr (pe_job e) = addr →
  ∃ err, Create executable newID now productName addr ts m = (Err err, m).
Proof.
  intros Hm He <-. destruct (mi_job m Hm id e He) as (Hid & _ & _ & Hl & _). unfold Create. destruct (negb _); [by eexists|].
  destruct (decide _); [by eexists|]. destruct (negb _); [by eexists|]. unfold checkConcurrentLimitLocked. destruct (decide _); [by eexists|].
  rewrite Hl. rewrite decide_False by done. by eexists.
Qed.

(** C25: every step of a recovery comes after the success of the steps before it, in every
    interleaving of the API and the jobs.  In particular the server is shut down only
    after it was found to be the master of its group, with its append-only file and its
    timestamps on, and the time to go back to was found within the last segment; the file
    is truncated only after the shutdown was confirmed and the manifest and that segment
    were copied; and replicas are attached only after the master has loaded a file in
    which nothing but the last segment has changed.  A job that shows success has done
    all nine steps, a job that shows a failure has stopped at the step that failed. *)
Theorem pitr_guarded abs enabled bin maxc timeout cmd m id e :
  rtc (mstep executable productName) (NewPitrManager abs enabled bin maxc timeout cmd) m → pm_jobs m !! id = Some e →
  let j := pe_job e in let tr := ps_trace (pe_st e) in
  (∀ pre x post, tr = pre ++ x :: post → ∀ i, (i < needs x)%nat → ev i j pre) ∧
  (pj_State j = PitrStateSucceeded → outline j = (PitrStateSucceeded, done_steps 9, None) ∧ ∀ i, ev i j tr) ∧
  (pj_State j = PitrStateFailed → ∃ err, failed_outline err (outline j)).
Proof.
  intros Hs He. destruct (mi_job m (minv_reach _ _ _ _ _ _ m Hs) id e He) as (_ & _ & _ & _ & [Ho Hg Hp Hl]). cbn zeta.
  split; [exact Hg|]. unfold shape in Ho. change (ps_job (pe_st e)) with (pe_job e) in *.
  assert (∀ st steps err, outline (pe_job e) = (st, steps, err) → pj_State (pe_job e) = st) as Hst by (by intros st steps err [= <- _ _]).
  assert (∀ i, pj_State (pe_job e) = state_after i → pitrStateIsTerminal (pj_State (pe_job e)) = false) as Hrun by (intros i ->; apply state_after_running).
  assert ((pj_State (pe_job e) = PitrStateSucceeded → outline (pe_job e) = (PitrStateSucceeded, done_steps 9, None)) ∧
          (pj_State (pe_job e) = PitrStateFailed → ∃ err, failed_outline err (outline (pe_job e)))) as [Hsucc Hfail].
  { destruct (pe_pc e) as [i|i|[err|]|].
    - destruct Ho as [_ Ho]. apply Hst in Ho. apply Hrun in Ho. split; intros Hx; by rewrite Hx in Ho.
    - destruct Ho as (name & Hn & Ho). apply Hst in Ho. assert (pj_State (pe_job e) = state_after (S i)) as Hx%Hrun by (cbn; by rewrite Hn).
      split; intros Hy; by rewrite Hy in Hx.
    - destruct Ho as [Ho|[_ (i & _ & Ho)]].
      + split; [|by exists err]. destruct Ho as (i & name & _ & Ho). apply Hst in Ho. intros Hx. by rewrite Hx in Ho.
      + apply Hst, Hrun in Ho. split; intros Hx; by rewrite Hx in Ho.
    - apply Hst in Ho. split; intros Hx; by rewrite Hx in Ho.
    - destruct Ho as [[err Ho]|[(i & _ & Ho)|[Ho|Ho]]].
      + split; [|by exists err]. destruct Ho as (i & name & _ & Ho). apply Hst in Ho. intros Hx. by rewrite Hx in Ho.
      + apply Hst, Hrun in Ho. split; intros Hx; by rewrite Hx in Ho.
      + split; [done|]. apply Hst in Ho. intros Hx. by rewrite Hx in Ho.
      + apply Hst in Ho. split; intros Hx; by rewrite Hx in Ho. }
  split; [|exact Hfail]. intros Hx. specialize (Hsucc Hx). split; [done|]. intros i.
  destruct (decide (i < 9)%nat) as [Hi|Hi]; [|by do 8 (destruct i as [|i]; [lia|])]. apply Hp. unfold done_count. by rewrite Hsucc.
Qed.

(** at most as many recoveries run as the configuration allows, and at most one job,
    finished or not, is registered for a server: while there is one no other can be
    created for that server, and removing a finished job makes room for the next. *)
Theorem pitr_exclusive abs enabled bin maxc timeout cmd m :
  rtc (mstep executable productName) (NewPitrManager abs enabled bin maxc timeout cmd) m →
  running_jobs (pm_jobs m) ≤ pm_maxConcurrent m ∧
  (∀ id1 e1 id2 e2, pm_jobs m !! id1 = Some e1 → pm_jobs m !! id2 = Some e2 →
     pj_ServerAddr (pe_job e1) = pj_ServerAddr (pe_job e2) → id1 = id2) ∧
  (∀ id e newID now ts, pm_jobs m !! id = Some e →
     ∃ err, Create executable newID now productName (pj_ServerAddr (pe_job e)) ts m = (Err err, m)) ∧
  (∀ id e, pm_jobs m !! id = Some e → running e = false →
     ∃ m', pitr_Remove id m = (Ok tt, m') ∧ pm_jobs m' !! id = None ∧ pm_serverLocks m' !! pj_ServerAddr (pe_job e) = None).
Proof.
  intros Hs. pose proof (minv_reach _ _ _ _ _ _ m Hs) as Hm. split; [apply Hm|]. split; [|split].
  - intros id1 e1 id2 e2 H1 H2 Ha. destruct (mi_job m Hm _ _ H1) as (_ & _ & _ & L1 & _). destruct (mi_job m Hm _ _ H2) as (_ & _ & _ & L2 & _).
    rewrite Ha in L1. congruence.
  - intros id e newID now ts He. by eapply Create_locked.
  - intros id e He Hr. destruct (mi_job m Hm _ _ He) as (_ & _ & Hne & Hl & _). unfold pitr_Remove. rewrite He. unfold running in Hr. rewrite Hr.
    eexists. split; [done|]. rewrite (decide_True (P := pj_ServerAddr (pe_job e) ≠ ""%string ∧ pm_serverLocks m !! pj_ServerAddr (pe_job e) = Some id)) by done.
    destruct (decide (pj_SnapshotDir (pe_job e) = [])); cbn; by rewrite !lookup_delete_eq.
Qed.

(** A job whose context is cancelled between two steps is never finished: [runSteps]
    returns an error without a step having failed, [run] only logs it, and the job keeps
    for ever the state it had.  It cannot be removed, its server stays locked, and when
    one job is all that is allowed no recovery can be started any more. *)
Theorem interrupted_job_stuck abs enabled bin maxc timeout cmd m id e m' :
  rtc (mstep executable productName) (NewPitrManager abs enabled bin maxc timeout cmd) m →
  pm_jobs m !! id = Some e → pe_pc e = PReturned → running e = true → rtc (mstep executable productName) m m' →
  (∃ c, pm_jobs m' !! id = Some (mkPEntry PReturned (pe_st e) c)) ∧
  pitr_Remove id m' = (Err (MNotTerminal id (pj_State (pe_job e))), m') ∧
  ∀ newID now addr ts, addr = pj_ServerAddr (pe_job e) ∨ pm_maxConcurrent m' = 1 →
    ∃ err, Create executable newID now productName addr ts m' = (Err err, m').
Proof.
  intros Hs He Hpc Hrun Hs'. assert (rtc (mstep executable productName) (NewPitrManager abs enabled bin maxc timeout cmd) m') as Hs2 by by etrans.
  pose proof (minv_reach _ _ _ _ _ _ m' Hs2) as Hm'. assert (pitrStateIsTerminal (pj_State (ps_job (pe_st e))) = false) as Ht.
  { unfold running, pe_job in Hrun. by destruct (pitrStateIsTerminal _). }
  assert (returned id (pe_st e) m') as [c Hc].
  { clear Hm' Hs2 Hs. assert (returned id (pe_st e) m) as Hr by (exists (pe_cancelled e); rewrite He; destruct e; cbn in *; by subst).
    clear He. induction Hs' as [|m1 m2 m3 Hst _ IH]; [done|]. apply IH. by eapply returned_step. }
  split; [by exists c|]. split; [unfold pitr_Remove; rewrite Hc; unfold pe_job in *; cbn; by rewrite Ht|].
  intros newID now addr ts [->|Hmax]; [by eapply Create_locked|]. unfold Create. destruct (negb _); [by eexists|].
  destruct (decide _); [by eexists|]. destruct (negb _); [by eexists|]. unfold checkConcurrentLimitLocked. rewrite decide_True; [by eexists|].
  rewrite Hmax. unfold running_jobs. assert (filter (λ x : string * pitrEntry, running x.2 = true) (pm_jobs m') !! id = Some (mkPEntry PReturned (pe_st e) c)) as Hf.
  { apply map_lookup_filter_Some. split; [done|]. unfold running, pe_job. cbn. by rewrite Ht. }
  assert (size (filter (λ x : string * pitrEntry, running x.2 = true) (pm_jobs m')) ≠ 0%nat); [|lia].
  intros Hz%map_size_empty_inv. by rewrite Hz, lookup_empty in Hf.
Qed.

(** C26: the goroutine of a job returns: it needs no more than twenty pieces, each of which
    ends whatever the world outside answers, the two that wait for a server within the
    timeout of the job. *)
Theorem pitr_ends abs enabled bin maxc timeout cmd m id e os :
  rtc (mstep executable productName) (NewPitrManager abs enabled bin maxc timeout cmd) m → pm_jobs m !! id = Some e → (20 <= length os)%nat →
  ∃ s, goroutine (pm_restartCmd m) (pm_jobTimeout m) os (pe_pc e) (pe_st e) = (Ok PReturned, s).
Proof.
  intros Hs He Hos. destruct (mi_job m (minv_reach _ _ _ _ _ _ m Hs) id e He) as (_ & _ & _ & _ & Hj).
  destruct (goroutine_ends (pm_restartCmd m) (pm_jobTimeout m) os (pe_pc e) (pe_st e) Hj) as (s & Hg & _); [|by exists s].
  etrans; [|exact Hos]. destruct (pe_pc e) as [i|i|err|]; cbn; lia.
Qed.

(** a run of the goroutine of one job, without a cancellation, as steps of the registry *)
Lemma goroutine_rtc m id pc s os pc' s' : pm_jobs m !! id = Some (mkPEntry pc s false) → Forall (λ o, ∀ n, @o_cancelled o n = false) os →
  goroutine (pm_restartCmd m) (pm_jobTimeout m) os pc s = (Ok pc', s') →
  rtc (mstep executable productName) m (pm_set (<[id := mkPEntry pc' s' false]> (pm_jobs m)) (pm_serverLocks m) m).
Proof.
  revert m pc s. induction os as [|o os IH]; intros m pc s He Hos; cbn [goroutine].
  { intros [= -> ->]. rewrite insert_id by done. by destruct m. }
  apply Forall_cons in Hos as [Ho Hos]. destruct (@advance o (pm_restartCmd m) (pm_jobTimeout m) pc s) as [[pc1|err|] s1] eqn:Ha; [|done..]. intros Hg.
  eapply rtc_l; [eapply (ms_advance _ _ _ id _ o); [exact He| |exact Ha]|].
  { unfold sees_context. cbn. destruct pc; auto. intros n. by rewrite Ho. }
  cbn. specialize (IH (pm_set (<[id := mkPEntry pc1 s1 false]> (pm_jobs m)) (pm_serverLocks m) m) pc1 s1).
  cbn in IH. rewrite lookup_insert_eq, insert_insert_eq in IH. by apply IH.
Qed.
End registry.

Lemma goroutine_fst cmd t os pc s x : (goroutine cmd t os pc s).1 = Ok x → goroutine cmd t os pc s = (Ok x, (goroutine cmd t os pc s).2).
Proof. by destruct (goroutine cmd t os pc s) as [r s']; intros [= ->]. Qed.

(** * The cluster *)
Section deps.
Context `{Env} `{TopomState.Config} `{UnicodeUpper} `{!EnvLaws}.

(** a server that is found to be the master of a group is the first server of that group
    in the store *)
Lemma GroupOfServer_master addr w : coh [] w → wp (GroupOfServer addr) (λ r w', w_db w' = w_db w ∧ coh [] w' ∧
  ∀ gid, r = Ok (gid, true) → ∃ g x, db_group (w_db w) !! gid = Some g ∧ g_Servers g !! 0%nat = Some x ∧ gs_Addr x = addr) w.
Proof.
  intros Hc. apply wp_bind, newContext_wp; [done|..].
  - intros w1 Hc1 (Hdb & _) _ _ _. unfold range_groups. apply wp_bind, wp_bind, wp_next_tick. cbn. unfold wp. cbn.
    set (gs := omap _ (env_range _ _)). unfold mbind, M_bind, lift. destruct (getGroupByServer gs addr) as [[g i]|e|] eqn:Hg; cbn; (split; [done|]; split; [done|]); [|done..].
    intros gid [= <- Hi%bool_decide_eq_true]. subst i. destruct (getGroupByServer_Ok gs addr g 0 Hg) as [Hin (x & _ & Hx & Ha)]. exists g, x.
    split; [|done]. subst gs. apply list_elem_of_omap in Hin as (gid & _ & Hin).
    destruct Hc as [Hwf _]. by rewrite (db_wf_group _ Hwf gid g Hin).
  - intros e w1 Hc1 (Hdb & _). split; [done|]. split; [done|]. done.
Qed.
End deps.

(** * A concrete recovery *)
Definition demo_config_reply : gmap bytes bytes :=
  list_to_map [(bstr "appendonly", bstr "yes"); (bstr "aof-timestamp-enabled", bstr "yes"); (bstr "dir", bstr "/data");
               (bstr "appendfilename", bstr "a.aof"); (bstr "appenddirname", bstr "aof")].
Definition demo_manifest : bytes :=
  print_manifest [mkManifestEntry (bstr "a.aof.1.base.rdb") (bstr "1") (bstr "b"); mkManifestEntry (bstr "a.aof.1.incr.aof") (bstr "1") (bstr "i")].
Definition demo_outside : Outside := {|
  o_cancelled _ := false; o_elapsed _ := 5%N; o_config _ := Some demo_config_reply; o_group _ := Some (1, true);
  o_servers _ := Some ["a:1"; "a:2"]%string; o_shutdown _ := true; o_info _ := Some {[ bstr "loading" := bstr "0" ]}; o_resync _ := true;
  o_read _ := Some demo_manifest; o_pieces _ := Some [bstr "#TS:1"; bstr "00" ++ [x0d; x0a] ++ bstr "#TS:200" ++ [x0d; x0a]];
  o_size _ := Some 12; o_free _ := None; o_mkdir _ := true; o_readdir _ := Some [(bstr "a.aof.1.incr.aof", Some (mkFileStat 12 3)); (bstr "sub", None)];
  o_copy _ := CopyOk; o_exec _ := (true, []);
|}.
Definition demo_manager : PitrManager := NewPitrManager Some true "" 0 0 "".
Definition demo_created : PitrManager := (Create (λ _, true) (Some "j1"%string) 7 "demo" "a:1" 150 demo_manager).2.
Abbreviation demo_goroutine := (goroutine (pm_restartCmd demo_created) (pm_jobTimeout demo_created) (replicate 20 demo_outside) (PCheck 0)
  (mkPst (new_job "j1" "demo" "a:1" 150 7) 0 7 [])).
Definition demo_recovered : PitrManager :=
  pm_set (<[ "j1"%string := mkPEntry PReturned demo_goroutine.2 false ]> (pm_jobs demo_created)) (pm_serverLocks demo_created) demo_created.

Lemma demo_created_reach : mstep (λ _, true) "demo" demo_manager demo_created.
Proof.
  apply (ms_create _ _ _ true (Some ("a:1"%string, 150)) (Some "j1"%string) 7 (Ok "j1"%string)); [|done]. intros id [= <-]. done.
Qed.

Lemma demo_recovered_reach : rtc (mstep (λ _, true) "demo") demo_manager demo_recovered.
Proof.
  eapply rtc_l; [apply demo_created_reach|]. refine (goroutine_rtc _ _ demo_created "j1" _ _ _ _ _ _ _ (goroutine_fst _ _ _ _ _ _ _));
    [done|by apply Forall_replicate|by vm_compute].
Qed.

Definition demo_entry : pitrEntry := mkPEntry PReturned demo_goroutine.2 false.

Lemma pitr_guarded_witness :
  pj_State (pe_job demo_entry) = PitrStateSucceeded ∧
  ETruncate 150 (bstr "/data/aof/a.aof.manifest") true ∈ ps_trace (pe_st demo_entry) ∧
  (∀ i, ev i (pe_job demo_entry) (ps_trace (pe_st demo_entry))).
Proof.
  destruct (pitr_guarded (λ _, true) "demo" Some true "" 0 0 "" demo_recovered "j1" demo_entry demo_recovered_reach) as (_ & Hok & _).
  { apply lookup_insert_eq. }
  assert (pj_State (pe_job demo_entry) = PitrStateSucceeded) as Hst by by vm_compute. destruct (Hok Hst) as [_ Hev]. split; [exact Hst|]. split; [|exact Hev].
  apply (Hev 5%nat).
Defined.

Lemma pitr_exclusive_witness :
  running_jobs (pm_jobs demo_recovered) ≤ 1 ∧
  ∃ m', pitr_Remove "j1" demo_recovered = (Ok tt, m') ∧ pm_serverLocks m' !! "a:1"%string = None.
Proof.
  destruct (pitr_exclusive (λ _, true) "demo" Some true "" 0 0 "" demo_recovered demo_recovered_reach) as (Hmax & _ & _ & Hrm).
  split; [exact Hmax|]. destruct (Hrm "j1"%string demo_entry) as (m' & Hm' & _ & Hl); [apply lookup_insert_eq|by vm_compute|].
  exists m'. split; [exact Hm'|]. assert (pj_ServerAddr (pe_job demo_entry) = "a:1"%string) as Ha by by vm_compute. by rewrite Ha in Hl.
Defined.

(** the same job, cancelled before its first step *)
Definition demo_interrupted : pitrEntry := mkPEntry PReturned (mkPst (new_job "j1" "demo" "a:1" 150 7) 1 12 []) true.
Definition demo_cancelled : PitrManager := (pitr_Cancel "j1" demo_created).2.
Definition demo_set (e : pitrEntry) (m : PitrManager) : PitrManager := pm_set (<[ "j1"%string := e ]> (pm_jobs m)) (pm_serverLocks m) m.
Definition demo_concluding : PitrManager :=
  demo_set (mkPEntry (PConclude (Some PCanceled)) (pe_st demo_interrupted) true) demo_cancelled.
Definition demo_stuck : PitrManager := demo_set demo_interrupted demo_concluding.
Definition demo_cancelling : Outside := {|
  o_cancelled _ := true; o_elapsed _ := 5%N; o_config _ := None; o_group _ := None; o_servers _ := None; o_shutdown _ := true; o_info _ := None;
  o_resync _ := true; o_read _ := None; o_pieces _ := None; o_size _ := None; o_free _ := None; o_mkdir _ := true; o_readdir _ := None;
  o_copy _ := CopyOk; o_exec _ := (true, []);
|}.

Lemma demo_stuck_reach : rtc (mstep (λ _, true) "demo") demo_manager demo_stuck.
Proof.
  assert (pm_jobs demo_cancelled !! "j1"%string = Some (mkPEntry (PCheck 0) (mkPst (new_job "j1" "demo" "a:1" 150 7) 0 7 []) true)) as H1 by done.
  assert (pm_jobs demo_concluding !! "j1"%string = Some (mkPEntry (PConclude (Some PCanceled)) (pe_st demo_interrupted) true)) as H2 by done.
  eapply rtc_l; [apply demo_created_reach|]. eapply (rtc_l _ _ demo_cancelled); [by apply (ms_cancel _ _ demo_created true "j1" (Ok tt))|].
  eapply (rtc_l _ _ demo_concluding); [by apply (ms_advance _ _ demo_cancelled "j1" _ demo_cancelling _ _ H1)|].
  apply rtc_once. by apply (ms_advance _ _ demo_concluding "j1" _ demo_cancelling _ _ H2).
Qed.

Lemma interrupted_job_stuck_witness :
  pj_State (pe_job demo_interrupted) = PitrStatePending ∧ pitr_Remove "j1" demo_stuck = (Err (MNotTerminal "j1" PitrStatePending), demo_stuck) ∧
  ∀ newID now addr ts, ∃ err, Create (λ _, true) newID now "demo" addr ts demo_stuck = (Err err, demo_stuck).
Proof.
  split; [done|]. destruct (interrupted_job_stuck (λ _, true) "demo" Some true "" 0 0 "" demo_stuck "j1" demo_interrupted demo_stuck demo_stuck_reach
    ltac:(done) ltac:(done) ltac:(done) (rtc_refl _ _)) as (_ & Hr & Hc). split; [exact Hr|]. intros newID now addr ts. apply Hc. by right.
Defined.

Lemma pitr_ends_witness :
  ∃ s, goroutine (pm_restartCmd demo_created) (pm_jobTimeout demo_created) (replicate 20 demo_cancelling) (PCheck 0)
         (mkPst (new_job "j1" "demo" "a:1" 150 7) 0 7 []) = (Ok PReturned, s).
Proof.
  apply (pitr_ends (λ _, true) "demo" Some true "" 0 0 "" demo_created "j1" (mkPEntry (PCheck 0) (mkPst (new_job "j1" "demo" "a:1" 150 7) 0 7 []) false));
    [apply rtc_once, demo_created_reach|done|by rewrite length_replicate].
Defined.
