(* ===== verification/RdbAnalysis.v ===== *)
(** The analysis of RDB files (pkg/topom/topom_rdb_analysis.go): options, the statistics
    gathered object by object, the summaries and the flame graph.

    The parser of RDB files is third-party code; an object is what its accessors return.
    A regular expression is the predicate it stands for.  Sizes are 64-bit integers. *)

From S2P Require Import Prelude Bufio Resp Mapper Models TopomContext TopomState TopomProxy TopomGroup.
From S2P Require Import Router Stream Forward SessionState ClusterNodes TopomACL PitrFiles.
From Stdlib Require Import Sorting.Sorted.

Definition rdbAnalysisDefaultTopN : Z := 20.
Definition rdbAnalysisDefaultMaxDepth : Z := 3.
Definition rdbAnalysisMaxDepth : Z := 16.
Definition rdbAnalysisSnapshotInterval : Z := 128.

Record RDBAnalysisOptions := mkOptions {
  ro_TopN : Z; ro_PrefixSeparators : list bytes; ro_MaxDepth : Z; ro_Regex : bytes; ro_IncludeExpired : bool }.

(** the text of a size, [SizeReadable], is a function of the size and not kept *)
Record RDBAnalysisSummary := mkSummary { rs_Name : bytes; rs_DB : Z; rs_Size : Z; rs_KeyCount : Z }.
Record RDBAnalysisKeyEntry := mkKeyEntry {
  ke_DB : Z; ke_Key : bytes; ke_Type : bytes; ke_Size : Z; ke_ElementCount : Z; ke_Encoding : bytes; ke_Frequency : Z }.

(** what the parser says of an object; [rb_freq] is [None] for an object without
    information on its use *)
Record RedisObject := mkObject {
  rb_key : bytes; rb_db : Z; rb_type : bytes; rb_size : Z; rb_expiration : option Z; rb_elems : Z; rb_encoding : bytes; rb_freq : option Z }.

(** * Strings *)

(** [strings.Split] by a separator that is not empty *)
Fixpoint split_str (fuel : nat) (sep cur b : bytes) : list bytes :=
  match fuel, b with
  | S fuel, c :: b' =>
      if has_prefix_of b sep then cur :: split_str fuel sep [] (drop (length sep) b)
      else split_str fuel sep (cur ++ [c]) b'
  | _, _ => [cur]
  end.
Definition SplitStr (b sep : bytes) : list bytes := split_str (length b) sep [] b.
(** [strings.Join] *)
Fixpoint JoinStr (l : list bytes) (sep : bytes) : bytes :=
  match l with
  | [] => []
  | [x] => x
  | x :: l => x ++ sep ++ JoinStr l sep
  end.
Definition ReplaceAll (b old new : bytes) : bytes := JoinStr (SplitStr b old) new.

(** ** Stable sorting: [sort.SliceStable] *)
Section sorting.
Context {A : Type} (less : A → A → bool).
(** before the first element that is greater *)
Fixpoint sort_insert (x : A) (l : list A) : list A :=
  match l with
  | [] => [x]
  | y :: l' => if less x y then x :: l else y :: sort_insert x l'
  end.
Definition SliceStable (l : list A) : list A := foldl (λ acc x, sort_insert x acc) [] l.
End sorting.

(** * Options *)
Definition maxRDBAnalysisDepth (maxDepth : Z) : Z :=
  if decide (maxDepth ≤ 0) then rdbAnalysisDefaultMaxDepth else Z.min maxDepth rdbAnalysisMaxDepth.

Definition trimmed (l : list bytes) : list bytes := filter (λ x, x ≠ []) (trim_space <$> l).
Definition normalizeRDBAnalysisSeparators (separators : list bytes) : list bytes :=
  match trimmed separators with [] => [bstr ":"] | out => out end.
Definition primaryRDBAnalysisSeparator (separators : list bytes) : bytes :=
  match separators with [] | [] :: _ => bstr ":" | s :: _ => s end.
Definition splitRDBAnalysisSeparators (s : bytes) : list bytes :=
  if decide (trim_space s = []) then [] else trimmed (SplitStr s (bstr ",")).

Definition normalizeOptions (maxTopN : Z) (o : RDBAnalysisOptions) : RDBAnalysisOptions :=
  let topN := if decide (ro_TopN o ≤ 0) then rdbAnalysisDefaultTopN else ro_TopN o in
  mkOptions (if decide (topN > maxTopN) then maxTopN else topN) (normalizeRDBAnalysisSeparators (ro_PrefixSeparators o))
    (if decide (ro_MaxDepth o < 0) then 0 else maxRDBAnalysisDepth (ro_MaxDepth o)) (ro_Regex o) (ro_IncludeExpired o).

Definition parseRDBAnalysisBool (s : bytes) : bool :=
  let s := trim_space s in LowerIs s "1" || LowerIs s "true" || LowerIs s "yes" || LowerIs s "y" || LowerIs s "on".
(** [strconv.Atoi]: 0 for a text that is no number *)
Definition parseRDBAnalysisInt (s : bytes) : Z :=
  let text := trim_space s in
  if decide (text = []) then 0 else match ParseInt text with Ok n => n | _ => 0 end.

(** * Keys and their prefixes *)
Definition splitAnalysisKey (key : bytes) (separators : list bytes) : list bytes :=
  let sep := primaryRDBAnalysisSeparator separators in
  let normalized := foldl (λ k s, if decide (s = []) then k else ReplaceAll k s sep) key (drop 1 separators) in
  SplitStr normalized sep.

Definition db_name (db : Z) : bytes := bstr "db" ++ FormatInt db.

Definition analysisPrefixes (db : Z) (key : bytes) (separators : list bytes) (maxDepth : Z) : list bytes :=
  let parts := splitAnalysisKey key separators in
  if decide (length parts <= 1)%nat then []
  else
    let limit := Nat.min (length parts - 1) (Z.to_nat (maxRDBAnalysisDepth maxDepth)) in
    let sep := primaryRDBAnalysisSeparator separators in
    (λ depth, db_name db ++ bstr ":" ++ JoinStr (take depth parts) sep ++ sep ++ bstr "*") <$> seq 1 limit.

(** * The flame graph *)
Inductive flame := Flame (name : bytes) (value : Z) (children : list (bytes * flame)).
Definition fl_name (n : flame) : bytes := let '(Flame name _ _) := n in name.
Definition fl_value (n : flame) : Z := let '(Flame _ value _) := n in value.
Definition fl_children (n : flame) : list (bytes * flame) := let '(Flame _ _ children) := n in children.

Definition newRDBAnalysisFlameBuilder (name : bytes) : flame := Flame name 0 [].

(** [node.children[part]], made when it is not there *)
Definition alter_child (f : flame → flame) (part : bytes) (children : list (bytes * flame)) : list (bytes * flame) :=
  if decide (part ∈ children.*1) then (λ c, if decide (c.1 = part) then (c.1, f c.2) else c) <$> children
  else children ++ [(part, f (newRDBAnalysisFlameBuilder part))].

(** the walk down the parts; every node on the way gains [size] *)
Fixpoint flame_walk (size : Z) (parts : list bytes) (n : flame) : flame :=
  let '(Flame name value children) := n in
  Flame name (i64 (value + size)) (match parts with [] => children | part :: parts => alter_child (flame_walk size parts) part children end).

Definition flame_path (db : Z) (key : bytes) (separators : list bytes) (maxDepth : Z) : list bytes :=
  take (Z.to_nat (maxRDBAnalysisDepth maxDepth + 1)) (db_name db :: splitAnalysisKey key separators).
Definition flame_add (db : Z) (key : bytes) (size : Z) (separators : list bytes) (maxDepth : Z) (n : flame) : flame :=
  flame_walk size (flame_path db key separators maxDepth) n.

(** [export]: the children by their names *)
Fixpoint export (n : flame) : flame :=
  let '(Flame name value children) := n in
  Flame name value (SliceStable (λ a b, bytes_ltb a.1 b.1) (map (λ c, (c.1, export c.2)) children)).

(** * The statistics *)
Record rdbAnalysisSnapshot := mkSnap {
  sn_options : RDBAnalysisOptions;
  sn_regex : option (bytes → bool);
  sn_bytesRead : Z;
  sn_objectsRead : Z;
  sn_totalSize : Z;
  sn_dbSet : gset Z;
  sn_typeStats : gmap bytes RDBAnalysisSummary;
  sn_dbStats : gmap Z RDBAnalysisSummary;
  sn_prefixStats : gmap bytes RDBAnalysisSummary;
  sn_topBigKeys : list RDBAnalysisKeyEntry;
  sn_topHotKeys : list RDBAnalysisKeyEntry;
  sn_flameRoot : flame;
}.

(** [compile] is [regexp.Compile]; [None] is its error *)
Definition newRDBAnalysisSnapshot (compile : bytes → option (bytes → bool)) (o : RDBAnalysisOptions) : option rdbAnalysisSnapshot :=
  let snap regex := mkSnap o regex 0 0 0 ∅ ∅ ∅ ∅ [] [] (newRDBAnalysisFlameBuilder (bstr "root")) in
  if decide (ro_Regex o = []) then Some (snap None)
  else match compile (ro_Regex o) with Some r => Some (snap (Some r)) | None => None end.

Definition accept (s : rdbAnalysisSnapshot) (o : RedisObject) (now : Z) : bool :=
  match sn_regex s with Some r => r (rb_key o) | None => true end &&
  (ro_IncludeExpired (sn_options s) || match rb_expiration o with Some e => bool_decide (now < e) | None => true end).

Definition newRDBAnalysisKeyEntry (o : RedisObject) (frequency : Z) : RDBAnalysisKeyEntry :=
  mkKeyEntry (rb_db o) (rb_key o) (rb_type o) (i64 (rb_size o)) (rb_elems o) (rb_encoding o) frequency.

(** a summary, made when it is not there, gains an object *)
Definition count_object {K} `{Countable K} (name : bytes) (db : Z) (size : Z) (k : K) (m : gmap K RDBAnalysisSummary) : gmap K RDBAnalysisSummary :=
  let st := default (mkSummary name db 0 0) (m !! k) in
  <[k := mkSummary (rs_Name st) (rs_DB st) (i64 (rs_Size st + size)) (i64 (rs_KeyCount st + 1))]> m.

Definition bigger (a b : RDBAnalysisKeyEntry) : bool :=
  if decide (ke_Size a = ke_Size b) then bytes_ltb (ke_Key a) (ke_Key b) else bool_decide (ke_Size a > ke_Size b).
Definition hotter (a b : RDBAnalysisKeyEntry) : bool :=
  if decide (ke_Frequency a = ke_Frequency b) then bytes_ltb (ke_Key a) (ke_Key b) else bool_decide (ke_Frequency a > ke_Frequency b).
(** [addTopKeyBySize] and [addTopKeyByFrequency] *)
Definition add_top (less : RDBAnalysisKeyEntry → RDBAnalysisKeyEntry → bool) (l : list RDBAnalysisKeyEntry) (e : RDBAnalysisKeyEntry) (limit : Z) : list RDBAnalysisKeyEntry :=
  let l := SliceStable less (l ++ [e]) in
  if decide (Z.of_nat (length l) > limit) then take (Z.to_nat limit) l else l.
Definition addTopKeyBySize := add_top bigger.
Definition addTopKeyByFrequency := add_top hotter.

Definition snap_add (o : RedisObject) (bytesRead : Z) (s : rdbAnalysisSnapshot) : rdbAnalysisSnapshot :=
  let size := i64 (rb_size o) in
  let db := rb_db o in
  let typ := rb_type o in
  let opts := sn_options s in
  mkSnap opts (sn_regex s) bytesRead (i64 (sn_objectsRead s + 1)) (i64 (sn_totalSize s + size)) ({[db]} ∪ sn_dbSet s)
    (count_object typ 0 size typ (sn_typeStats s))
    (count_object (db_name db) db size db (sn_dbStats s))
    (foldl (λ m prefix, count_object prefix db size prefix m) (sn_prefixStats s) (analysisPrefixes db (rb_key o) (ro_PrefixSeparators opts) (ro_MaxDepth opts)))
    (addTopKeyBySize (sn_topBigKeys s) (newRDBAnalysisKeyEntry o 0) (ro_TopN opts))
    (match rb_freq o with
     | Some freq => if decide (0 ≤ freq) then addTopKeyByFrequency (sn_topHotKeys s) (newRDBAnalysisKeyEntry o freq) (ro_TopN opts) else sn_topHotKeys s
     | None => sn_topHotKeys s
     end)
    (flame_add db (rb_key o) size (ro_PrefixSeparators opts) (ro_MaxDepth opts) (sn_flameRoot s)).

(** ** The summaries *)
Definition summary_less (a b : RDBAnalysisSummary) : bool :=
  if decide (rs_Size a = rs_Size b) then bytes_ltb (rs_Name a) (rs_Name b) else bool_decide (rs_Size a > rs_Size b).
Definition by_db (a b : RDBAnalysisSummary) : bool := bool_decide (rs_DB a < rs_DB b).

Section summaries.
(** the orders in which maps are ranged over *)
Context (range_types : gmap bytes RDBAnalysisSummary → list RDBAnalysisSummary) (range_dbs : gmap Z RDBAnalysisSummary → list RDBAnalysisSummary).
Definition typeSummary (s : rdbAnalysisSnapshot) : list RDBAnalysisSummary := SliceStable summary_less (range_types (sn_typeStats s)).
Definition dbSummary (s : rdbAnalysisSnapshot) : list RDBAnalysisSummary := SliceStable by_db (range_dbs (sn_dbStats s)).
Definition prefixSummary (s : rdbAnalysisSnapshot) : list RDBAnalysisSummary :=
  let l := SliceStable summary_less (range_types (sn_prefixStats s)) in
  if decide (Z.of_nat (length l) > ro_TopN (sn_options s)) then take (Z.to_nat (ro_TopN (sn_options s))) l else l.
End summaries.

(** * Parsing a file *)

(** the callback of the parser on one object; [read] is the number of bytes read so far *)
Definition on_object (now : Z) (s : rdbAnalysisSnapshot) (x : RedisObject * Z) : rdbAnalysisSnapshot :=
  let '(o, read) := x in
  if accept s o now then snap_add o read s
  else mkSnap (sn_options s) (sn_regex s) read (sn_objectsRead s) (sn_totalSize s) (sn_dbSet s) (sn_typeStats s) (sn_dbStats s)
         (sn_prefixStats s) (sn_topBigKeys s) (sn_topHotKeys s) (sn_flameRoot s).

(** What the analysis of an RDB file reports.

    Each statistic kept object by object is that of all objects seen so far: the lists of
    the biggest and hottest keys are the beginnings of all keys in order, although only
    their beginnings are kept; the summaries are sums; a node of the flame graph has the
    size of the keys below it.  The summaries do not depend on the order in which Go
    ranges over a map. *)

(** * Orders *)
Class StrictWeak {A} (less : A → A → bool) := {
  sw_asym a b : less a b = true → less b a = false;
  sw_negtrans a b c : less b a = false → less c b = false → less c a = false;
}.

Lemma bytes_ltb_irrefl a : bytes_ltb a a = false.
Proof. induction a as [|x a IH]; [done|]. cbn. rewrite IH, Z.ltb_irrefl, andb_false_r. done. Qed.

Lemma byte_val_inj a b : byte_val a = byte_val b → a = b.
Proof.
  unfold byte_val. intros Hv%N2Z.inj. apply (f_equal Byte.of_N) in Hv. rewrite !Byte.of_to_N in Hv. by injection Hv.
Qed.

Lemma bytes_ltb_total a b : bytes_ltb a b = false → bytes_ltb b a = false → a = b.
Proof.
  revert b. induction a as [|x a IH]; intros [|y b]; try done. cbn. rewrite !orb_false_iff, !andb_false_iff.
  intros [H1 H2] [H3 H4]. apply Z.ltb_ge in H1, H3. assert (byte_val x = byte_val y) as Heq by lia. rewrite Heq, Z.eqb_refl in H2. rewrite Heq, Z.eqb_refl in H4.
  apply byte_val_inj in Heq as ->. f_equal. apply IH; [by destruct H2|by destruct H4].
Qed.

#[export] Instance bytes_ltb_sw : StrictWeak bytes_ltb.
Proof.
  split.
  - induction a as [|x a IH]; intros [|y b]; try done. cbn. rewrite orb_true_iff, andb_true_iff, orb_false_iff, andb_false_iff.
    rewrite !Z.ltb_lt, !Z.ltb_ge, !Z.eqb_eq, !Z.eqb_neq. intros [Hlt|[Heq Hab]]; [lia|]. split; [lia|]. right. by apply IH.
  - induction a as [|x a IH]; intros [|y b] [|z c]; try done. cbn. rewrite !orb_false_iff, !andb_false_iff, !Z.ltb_ge, !Z.eqb_neq.
    intros [H1 H2] [H3 H4]. split; [lia|]. destruct (decide (byte_val z = byte_val x)) as [Heq|]; [|by left]. right.
    apply (IH b); [destruct H2; [lia|done]|destruct H4; [lia|done]].
Qed.

(** by a number, greater first, then by a name *)
Lemma lex_sw {A} (f : A → Z) (g : A → bytes) : StrictWeak (λ a b, if decide (f a = f b) then bytes_ltb (g a) (g b) else bool_decide (f a > f b)).
Proof.
  split.
  - intros a b. destruct (decide (f a = f b)) as [He|Hn].
    + rewrite decide_True by done. apply sw_asym.
    + rewrite decide_False by congruence. rewrite bool_decide_eq_true, bool_decide_eq_false. lia.
  - intros a b c. destruct (decide (f b = f a)) as [E1|N1], (decide (f c = f b)) as [E2|N2].
    + rewrite decide_True by congruence. apply sw_negtrans.
    + intros _. rewrite decide_False by congruence. rewrite !bool_decide_eq_false. lia.
    + rewrite decide_False by congruence. rewrite !bool_decide_eq_false. lia.
    + rewrite !bool_decide_eq_false. intros H1 H2. rewrite decide_False by lia. apply bool_decide_eq_false. lia.
Qed.
#[export] Instance bigger_sw : StrictWeak bigger := lex_sw ke_Size ke_Key.
#[export] Instance hotter_sw : StrictWeak hotter := lex_sw ke_Frequency ke_Key.
#[export] Instance summary_less_sw : StrictWeak summary_less := lex_sw rs_Size rs_Name.
#[export] Instance by_db_sw : StrictWeak by_db.
Proof. split; unfold by_db; intros *; rewrite ?bool_decide_eq_true, ?bool_decide_eq_false; lia. Qed.

(** * Stable sorting *)
Section sorted.
Context {A : Type} (less : A → A → bool) `{!StrictWeak less}.
Abbreviation le := (λ a b, less b a = false).

Lemma sort_insert_perm x l : sort_insert less x l ≡ₚ x :: l.
Proof. induction l as [|y l IH]; cbn; [done|]. destruct (less x y); [done|]. rewrite IH. by apply Permutation_swap. Qed.

Lemma sort_insert_sorted x l : StronglySorted le l → StronglySorted le (sort_insert less x l).
Proof.
  induction l as [|y l IH]; cbn; [by repeat constructor|]. intros [Hs Hf]%StronglySorted_inv. destruct (less x y) eqn:Hl.
  - constructor; [by constructor|]. constructor; [by apply sw_asym|]. eapply Forall_impl; [exact Hf|]. intros z Hz. eapply sw_negtrans; [|exact Hz]. by apply sw_asym.
  - constructor; [by apply IH|]. apply Forall_forall. intros z Hz. rewrite sort_insert_perm in Hz. apply elem_of_cons in Hz as [->|Hz]; [done|].
    rewrite Forall_forall in Hf. by apply Hf.
Qed.

Lemma SliceStable_snoc l x : SliceStable less (l ++ [x]) = sort_insert less x (SliceStable less l).
Proof. unfold SliceStable. by rewrite foldl_app. Qed.

Lemma SliceStable_sorted l : StronglySorted le (SliceStable less l) ∧ SliceStable less l ≡ₚ l.
Proof.
  induction l as [|x l [IH1 IH2]] using rev_ind; [split; [constructor|done]|]. rewrite SliceStable_snoc. split; [by apply sort_insert_sorted|].
  rewrite sort_insert_perm, IH2. by rewrite Permutation_cons_append.
Qed.

Lemma sort_insert_end x l : Forall (λ y, le y x) l → sort_insert less x l = l ++ [x].
Proof. induction l as [|y l IH]; cbn; [done|]. intros [Hy Hl]%Forall_cons. rewrite Hy. f_equal. by apply IH. Qed.

Lemma SliceStable_id l : StronglySorted le l → SliceStable less l = l.
Proof.
  induction l as [|x l IH] using rev_ind; [done|]. intros Hs. rewrite SliceStable_snoc.
  assert (StronglySorted le l ∧ Forall (λ y, le y x) l) as [Hl Hx].
  { clear IH. induction l as [|y l IH]; [split; constructor|]. apply StronglySorted_inv in Hs as [Hs Hf]. destruct (IH Hs) as [H1 H2].
    apply Forall_app in Hf as [Hf1 [Hf2 _]%Forall_cons]. split; constructor; done. }
  rewrite IH by done. by apply sort_insert_end.
Qed.

Lemma take_sort_insert n x l : take n (sort_insert less x (take n l)) = take n (sort_insert less x l).
Proof.
  revert n. induction l as [|y l IH]; intros [|n]; try done. cbn [take sort_insert]. destruct (less x y); cbn [take].
  - f_equal. destruct n; [done|]. cbn [take]. f_equal. by rewrite take_take, Nat.min_l by lia.
  - f_equal. apply IH.
Qed.

Lemma sorted_take n l : StronglySorted le l → StronglySorted le (take n l).
Proof.
  revert n. induction l as [|x l IH]; intros [|n] Hs; try constructor; apply StronglySorted_inv in Hs as [Hs Hf]; [by apply IH|].
  apply Forall_take. done.
Qed.

(** one element of each class: the order alone decides *)
Lemma sorted_unique l1 l2 : StronglySorted le l1 → StronglySorted le l2 → l1 ≡ₚ l2 →
  (∀ a b, a ∈ l1 → b ∈ l1 → less a b = false → less b a = false → a = b) → l1 = l2.
Proof.
  revert l2. induction l1 as [|x l1 IH]; intros l2 H1 H2 Hp Hu; [by apply Permutation_nil_l in Hp|].
  destruct l2 as [|y l2]; [by apply Permutation_nil_r in Hp|]. apply StronglySorted_inv in H1 as [H1 F1], H2 as [H2 F2].
  assert (x = y) as ->.
  { assert (y ∈ x :: l1) as Hy by (rewrite Hp; by constructor). assert (x ∈ y :: l2) as Hx by (rewrite <-Hp; by constructor).
    pose proof Hy as Hy'. apply elem_of_cons in Hy' as [->|Hy1]; [done|]. apply elem_of_cons in Hx as [->|Hx2]; [done|].
    rewrite Forall_forall in F1, F2. apply Hu; [by constructor|done|by apply F2|by apply F1]. }
  f_equal. apply IH; [done|done|by apply Permutation_cons_inv in Hp|]. intros a b Ha Hb. apply Hu; by constructor.
Qed.
End sorted.

(** * Sums *)
Lemma i64_shift a k : i64 (a + k * 2 ^ 64) = i64 a.
Proof. unfold i64. f_equal. replace (a + k * 2 ^ 64 + 2 ^ 63) with (a + 2 ^ 63 + k * 2 ^ 64) by lia. apply Z_mod_plus_full. Qed.
Lemma i64_add a b : i64 (i64 a + i64 b) = i64 (a + b).
Proof.
  assert (∀ x, ∃ k, i64 x = x + k * 2 ^ 64) as Hk.
  { intros x. exists (- ((x + 2 ^ 63) `div` 2 ^ 64)). unfold i64. rewrite Z.mod_eq by lia. lia. }
  destruct (Hk a) as [k ->], (Hk b) as [k' ->]. rewrite <-(i64_shift (a + b) (k + k')). f_equal. lia.
Qed.
Lemma i64_i64 a : i64 (i64 a) = i64 a.
Proof. pose proof (i64_add a 0) as Ha. by rewrite !Z.add_0_r in Ha. Qed.
Lemma i64_small b : - 2 ^ 63 ≤ b ≤ max_int64 → i64 b = b.
Proof. apply i64_id. Qed.

Fixpoint sizes (os : list RedisObject) : Z := match os with [] => 0 | o :: os => rb_size o + sizes os end.
Lemma sizes_snoc os o : sizes (os ++ [o]) = sizes os + rb_size o.
Proof. induction os as [|x os IH]; cbn; [lia|]. rewrite IH. lia. Qed.

(** ** Summaries *)
Definition summarize (name : bytes) (db : RedisObject → Z) (l : list RedisObject) : option RDBAnalysisSummary :=
  match l with
  | [] => None
  | o :: _ => Some (mkSummary name (db o) (i64 (sizes l)) (i64 (Z.of_nat (length l))))
  end.

Lemma count_object_spec {K} `{Countable K} (name : K → bytes) (db : RedisObject → Z) (o : RedisObject) (k : K) (m : gmap K RDBAnalysisSummary) (L : K → list RedisObject) :
  (∀ k, m !! k = summarize (name k) db (L k)) →
  ∀ k', count_object (name k) (db o) (i64 (rb_size o)) k m !! k' = summarize (name k') db (if decide (k' = k) then L k' ++ [o] else L k').
Proof.
  intros HL k'. unfold count_object. destruct (decide (k' = k)) as [->|Hne]; [|by rewrite lookup_insert_ne].
  rewrite lookup_insert_eq, HL. destruct (L k) as [|x l] eqn:Hl.
  - cbn [summarize default from_option id rs_Name rs_DB rs_Size rs_KeyCount app sizes length]. rewrite Z.add_0_l, i64_i64, Z.add_0_r. done.
  - cbn [summarize default from_option id rs_Name rs_DB rs_Size rs_KeyCount app]. do 2 f_equal.
    + rewrite i64_add. f_equal. cbn [sizes]. rewrite sizes_snoc. lia.
    + rewrite <-(i64_small 1) at 1 by (unfold max_int64; lia). rewrite i64_add. f_equal. cbn [length]. rewrite length_app. cbn. lia.
Qed.

Lemma count_prefixes_spec (o : RedisObject) (ps : list bytes) (m : gmap bytes RDBAnalysisSummary) (L : bytes → list RedisObject) :
  (∀ p, m !! p = summarize p rb_db (L p)) →
  ∀ p, foldl (λ m prefix, count_object prefix (rb_db o) (i64 (rb_size o)) prefix m) m ps !! p =
       summarize p rb_db (L p ++ ((λ _, o) <$> filter (λ q, q = p) ps)).
Proof.
  revert m L. induction ps as [|q ps IH]; intros m L HL p; cbn [foldl]; [by rewrite app_nil_r|].
  rewrite (IH _ (λ p, if decide (p = q) then L p ++ [o] else L p)) by (intros p'; by apply (count_object_spec (λ x, x))).
  rewrite filter_cons. destruct (decide (p = q)) as [->|Hne].
  - rewrite decide_True by done. cbn. by rewrite <-app_assoc.
  - by rewrite decide_False by done.
Qed.

(** ** Beginnings of the list of all keys *)
Lemma add_top_spec less `{!StrictWeak less} N l e : 0 ≤ N →
  add_top less (take (Z.to_nat N) (SliceStable less l)) e N = take (Z.to_nat N) (SliceStable less (l ++ [e])).
Proof.
  intros HN. unfold add_top. rewrite !SliceStable_snoc. destruct (SliceStable_sorted less l) as [Hs _].
  rewrite SliceStable_id by by apply sorted_take.
  rewrite <-(take_sort_insert less _ e (SliceStable less l)). destruct (decide _) as [|Hle]; [done|]. symmetry. apply take_ge. lia.
Qed.

(** ** Nodes of the flame graph *)
Fixpoint child_of (p : bytes) (children : list (bytes * flame)) : option flame :=
  match children with [] => None | (q, n) :: children => if decide (q = p) then Some n else child_of p children end.
Fixpoint flame_at (q : list bytes) (n : flame) : option Z :=
  match q with [] => Some (fl_value n) | p :: q => child_of p (fl_children n) ≫= flame_at q end.

Lemma child_of_alter f part p children : child_of p (alter_child f part children) =
  if decide (p = part) then Some (f (default (newRDBAnalysisFlameBuilder part) (child_of part children))) else child_of p children.
Proof.
  unfold alter_child. destruct (decide (part ∈ children.*1)) as [Hin|Hout].
  - assert (is_Some (child_of part children)) as [n Hn].
    { clear f. induction children as [|[q n] children IH]; [by apply not_elem_of_nil in Hin|]. cbn in *. destruct (decide (q = part)); [done|].
      apply IH. by apply elem_of_cons in Hin as [|]. }
    rewrite Hn. cbn [default from_option id]. clear Hin. induction children as [|[q m] children IH]; [done|]. cbn in *.
    destruct (decide (q = part)) as [->|Hne]; cbn.
    + injection Hn as ->. destruct (decide (part = p)) as [->|]; [by rewrite decide_True|]. rewrite (decide_False (P := p = part)) by congruence.
      clear -n0. induction children as [|[q m] children IH]; [done|]. cbn. destruct (decide (q = part)) as [->|]; cbn; [by rewrite !decide_False|]. destruct (decide (q = p)); [done|]. apply IH.
    + destruct (decide (q = p)) as [->|]; [by rewrite decide_False|]. by apply IH.
  - assert (child_of part children = None) as Hn.
    { induction children as [|[q n] children IH]; [done|]. cbn in *. apply not_elem_of_cons in Hout as [Hq Hout]. rewrite decide_False by congruence. by apply IH. }
    rewrite Hn. cbn [default from_option id]. clear Hout. induction children as [|[q n] children IH]; cbn.
    + destruct (decide (part = p)) as [->|]; [by rewrite decide_True|]. by rewrite decide_False by congruence.
    + cbn in Hn. destruct (decide (q = part)) as [->|Hne]; [done|]. destruct (decide (q = p)) as [->|]; [by rewrite decide_False|]. by apply IH.
Qed.

Lemma flame_walk_spec size parts n q : flame_at q (flame_walk size parts n) =
  if decide (q `prefix_of` parts) then Some (i64 (default 0 (flame_at q n) + size)) else flame_at q n.
Proof.
  revert n q. induction parts as [|part parts IH]; intros [name value children] q.
  - destruct q as [|p q]; [by rewrite decide_True by apply prefix_nil|]. rewrite decide_False; [done|]. by intros ?%prefix_nil_not.
  - destruct q as [|p q]; [by rewrite decide_True by apply prefix_nil|]. cbn [flame_walk flame_at fl_children]. rewrite child_of_alter.
    destruct (decide (p = part)) as [->|Hne]; cbn [mbind option_bind].
    + rewrite IH. destruct (decide (q `prefix_of` parts)) as [Hq|Hq].
      * rewrite decide_True by by apply prefix_cons. do 3 f_equal. destruct (child_of part children) as [c|]; [done|]. cbn. by destruct q.
      * rewrite decide_False by (intros ?%prefix_cons_inv_2; done). destruct (child_of part children) as [c|]; [done|]. cbn. by destruct q; [destruct Hq; apply prefix_nil|].
    + rewrite decide_False; [done|]. intros ?%prefix_cons_inv_1. done.
Qed.

(** * The statistics of the objects seen *)
Section stats.
Context (opts : RDBAnalysisOptions) (regex : option (bytes → bool)).
Hypothesis topN : 0 ≤ ro_TopN opts.

Definition prefixes_of (o : RedisObject) : list bytes := analysisPrefixes (rb_db o) (rb_key o) (ro_PrefixSeparators opts) (ro_MaxDepth opts).
Definition path_of (o : RedisObject) : list bytes := flame_path (rb_db o) (rb_key o) (ro_PrefixSeparators opts) (ro_MaxDepth opts).
(** the objects below a prefix, as often as they have it *)
Definition below (p : bytes) (os : list RedisObject) : list RedisObject := os ≫= λ o, (λ _, o) <$> filter (λ q, q = p) (prefixes_of o).
Definition hot_entry (o : RedisObject) : option RDBAnalysisKeyEntry :=
  freq ← rb_freq o; if decide (0 ≤ freq) then Some (newRDBAnalysisKeyEntry o freq) else None.
(** the size of the keys below a path; the root is always there *)
Definition node_sum (q : list bytes) (l : list RedisObject) : option Z :=
  match q, l with _ :: _, [] => None | _, _ => Some (i64 (sizes l)) end.
Definition node_value (q : list bytes) (os : list RedisObject) : option Z := node_sum q (filter (λ o, q `prefix_of` path_of o) os).

Record stats (os : list RedisObject) (s : rdbAnalysisSnapshot) : Prop := mkStats {
  ss_options : sn_options s = opts;
  ss_regex : sn_regex s = regex;
  ss_objects : sn_objectsRead s = i64 (Z.of_nat (length os));
  ss_total : sn_totalSize s = i64 (sizes os);
  ss_dbs : sn_dbSet s = list_to_set (rb_db <$> os);
  ss_types : ∀ t, sn_typeStats s !! t = summarize t (λ _, 0) (filter (λ o, rb_type o = t) os);
  ss_dbStats : ∀ d, sn_dbStats s !! d = summarize (db_name d) rb_db (filter (λ o, rb_db o = d) os);
  ss_prefixes : ∀ p, sn_prefixStats s !! p = summarize p rb_db (below p os);
  ss_big : sn_topBigKeys s = take (Z.to_nat (ro_TopN opts)) (SliceStable bigger ((λ o, newRDBAnalysisKeyEntry o 0) <$> os));
  ss_hot : sn_topHotKeys s = take (Z.to_nat (ro_TopN opts)) (SliceStable hotter (omap hot_entry os));
  ss_flame : ∀ q, flame_at q (sn_flameRoot s) = node_value q os;
}.

Lemma filter_snoc {A} (P : A → Prop) `{!∀ x, Decision (P x)} l x : filter P (l ++ [x]) = if decide (P x) then filter P l ++ [x] else filter P l.
Proof. rewrite filter_app, filter_cons. destruct (decide (P x)); [done|]. apply app_nil_r. Qed.

Lemma summarize_snoc name db l o : summarize name db (l ++ [o]) ≠ None.
Proof. by destruct l. Qed.

Lemma stats_new s compile : newRDBAnalysisSnapshot compile opts = Some s → sn_regex s = regex → stats [] s.
Proof.
  unfold newRDBAnalysisSnapshot. intros Hs Hr. assert (s = mkSnap opts (sn_regex s) 0 0 0 ∅ ∅ ∅ ∅ [] [] (newRDBAnalysisFlameBuilder (bstr "root"))) as ->.
  { destruct (decide _); [by injection Hs as <-|]. destruct (compile _); [by injection Hs as <-|done]. }
  split; cbn; try done; [by destruct (Z.to_nat _)..|]. by intros [|p q].
Qed.

Lemma stats_add os s o read : stats os s → stats (os ++ [o]) (snap_add o read s).
Proof.
  intros [E1 E2 E3 E4 E5 E6 E7 E8 E9 E10 E11]. unfold snap_add. rewrite E1. split; cbn [sn_options sn_regex sn_objectsRead sn_totalSize sn_dbSet sn_typeStats sn_dbStats sn_prefixStats sn_topBigKeys sn_topHotKeys sn_flameRoot]; [done|done|..].
  - rewrite E3. rewrite <-(i64_small 1) at 1 by (unfold max_int64; lia). rewrite i64_add, length_app. f_equal. cbn. lia.
  - by rewrite E4, i64_add, sizes_snoc.
  - rewrite E5, fmap_app, list_to_set_app_L. cbn. set_solver.
  - intros t. rewrite (count_object_spec (λ t, t) (λ _, 0) o (rb_type o) _ _ E6 t), filter_snoc. destruct (decide (t = rb_type o)) as [->|]; [by rewrite decide_True|]. by rewrite decide_False.
  - intros d. rewrite (count_object_spec db_name rb_db o (rb_db o) _ _ E7 d), filter_snoc. destruct (decide (d = rb_db o)) as [->|]; [by rewrite decide_True|]. by rewrite decide_False.
  - intros p. rewrite (count_prefixes_spec o _ _ _ E8 p). unfold below. rewrite bind_app. cbn. by rewrite app_nil_r.
  - rewrite E9, fmap_app. apply (add_top_spec bigger), topN.
  - rewrite E10, omap_app. replace (omap hot_entry [o]) with (option_list (hot_entry o)) by (cbn; by destruct (hot_entry o)).
    assert (hot_entry o = (freq ← rb_freq o; if decide (0 ≤ freq) then Some (newRDBAnalysisKeyEntry o freq) else None)) as -> by done.
    destruct (rb_freq o) as [freq|]; cbn [mbind option_bind option_list]; [|by rewrite app_nil_r].
    destruct (decide (0 ≤ freq)); cbn [option_list]; [|by rewrite app_nil_r]. apply (add_top_spec hotter), topN.
  - intros q. unfold flame_add. fold (path_of o). rewrite flame_walk_spec, E11. unfold node_value. rewrite filter_snoc.
    destruct (decide (q `prefix_of` path_of o)) as [Hq|]; [|done].
    set (l := filter (λ o0, q `prefix_of` path_of o0) os). assert (default 0 (node_sum q l) = i64 (sizes l)) as -> by by destruct q, l.
    rewrite i64_add, <-sizes_snoc. by destruct q, l.
Qed.

(** the objects that count *)
Definition counted (now : Z) (o : RedisObject) : bool :=
  match regex with Some r => r (rb_key o) | None => true end && (ro_IncludeExpired opts || match rb_expiration o with Some e => bool_decide (now < e) | None => true end).

Lemma stats_fold now xs os s : stats os s → stats (os ++ filter (λ o, counted now o = true) xs.*1) (foldl (on_object now) s xs).
Proof.
  revert os s. induction xs as [|[o read] xs IH]; intros os s Hs; [by rewrite app_nil_r|]. cbn [foldl on_object fmap list_fmap fst].
  assert (accept s o now = counted now o) as ->. { unfold accept, counted. destruct Hs as [-> -> _ _ _ _ _ _ _ _ _]. done. }
  rewrite filter_cons. destruct (counted now o).
  - rewrite decide_True by done. replace (os ++ o :: filter _ xs.*1) with ((os ++ [o]) ++ filter (λ o, counted now o = true) xs.*1) by by rewrite <-app_assoc.
    apply IH. by apply stats_add.
  - rewrite decide_False by done. apply IH. by destruct Hs.
Qed.
End stats.

(** Whatever objects a file holds, in whatever order, the report is that of the
    objects that match the expression and are not expired: counts and sizes for each
    type, database and prefix are their sums, the top keys are the first of all keys
    ordered by size or by use although only as many are ever kept, and each node of the
    flame graph has the size of the keys below its path. *)
Theorem analysis_correct compile opts now xs s : 0 ≤ ro_TopN opts → newRDBAnalysisSnapshot compile opts = Some s →
  stats opts (sn_regex s) (filter (λ o, counted opts (sn_regex s) now o = true) xs.*1) (foldl (on_object now) s xs).
Proof. intros HN Hs. by apply (stats_fold opts (sn_regex s) HN now xs []), (stats_new opts (sn_regex s) s compile). Qed.
