(* ===== verification/RdbPaths.v ===== *)
(** Where the dashboard reads RDB files from: [resolveWorkspacePath]
    (pkg/topom/topom_rdb_analysis.go) on the paths of Unix, and that what it accepts lies
    below the workspace.

    The working directory and the symbolic links are those of the file system: [getwd] and
    [evalSymlinks] are what [os.Getwd] and [filepath.EvalSymlinks] answer, [None] an error. *)

From S2P Require Import Prelude Bufio Resp Mapper Models TopomContext TopomState TopomProxy TopomGroup.
From S2P Require Import Router Stream Forward SessionState ClusterNodes TopomACL PitrFiles.
Definition dot : bytes := bstr ".".
Definition dotdot : bytes := bstr "..".

(** * Package filepath *)
Definition IsAbs (path : bytes) : bool := match path with c :: _ => bool_decide (c = slash) | [] => false end.

(** the elements that [filepath.Rel] compares *)
Definition rel_parts (path : bytes) : list bytes :=
  if decide (path = []) then [] else if decide (path = [slash]) then [[]] else split_on slash path.
Fixpoint strip_common (base targ : list bytes) : list bytes * list bytes :=
  match base, targ with
  | b :: base', t :: targ' => if decide (b = t) then strip_common base' targ' else (base, targ)
  | _, _ => (base, targ)
  end.

(** [filepath.Rel]; [None] is an error *)
Definition Rel (basepath targpath : bytes) : option bytes :=
  let base := Clean basepath in
  let targ := Clean targpath in
  if decide (targ = base) then Some dot
  else
    let base := if decide (base = dot) then [] else base in
    if bool_decide (IsAbs base ≠ IsAbs targ) then None
    else match strip_common (rel_parts base) (rel_parts targ) with
    | ([], targ) => Some (join_with slash targ)
    | (b :: base, targ) =>
        if decide (b = dotdot ∧ targ ≠ []) then None
        else Some (join_with slash (replicate (S (length base)) dotdot ++ targ))
    end.

(** * The workspace *)
Inductive path_error := PathMissing | PathAbs | PathRel | PathOutside.

Section resolve.
Context (getwd : option bytes) (evalSymlinks : bytes → option bytes).

(** [filepath.Abs] *)
Definition Abs (path : bytes) : option bytes :=
  if IsAbs path then Some (Clean path) else match getwd with Some wd => Some (Join wd path) | None => None end.

(** a path without its symbolic links, where they can be resolved *)
Definition without_links (path : bytes) : bytes := match evalSymlinks path with Some resolved => resolved | None => path end.

Definition resolveWorkspacePath (m_workspace path : bytes) : outcome path_error (bytes * bytes) :=
  if decide (trim_space path = []) then Err PathMissing
  else match Abs m_workspace with
  | None => Err PathAbs
  | Some workspace =>
      let workspace := without_links workspace in
      let clean := Clean path in
      let clean := if negb (IsAbs clean) then Join workspace clean else clean in
      match Abs clean with
      | None => Err PathAbs
      | Some abs =>
          let abs := without_links abs in
          match Rel workspace abs with
          | None => Err PathRel
          | Some rel =>
              if decide (rel = dot ∨ rel = dotdot) then Err PathOutside
              else if has_prefix_of rel (dotdot ++ [slash]) || IsAbs rel then Err PathOutside
              else Ok (abs, rel)
          end
      end
  end.
End resolve.

(** * Paths as lists of names *)

(** a name in a path that is clean *)
Definition proper (c : bytes) : Prop := c ≠ [] ∧ c ≠ dot ∧ c ≠ dotdot ∧ slash ∉ c.
#[export] Instance proper_dec c : Decision (proper c).
Proof. unfold proper. apply _. Defined.
(** the absolute path with the given names *)
Definition abs_path (cs : list bytes) : bytes := slash :: join_with slash cs.

Lemma split_on_no_sep c b : Forall (λ x, c ∉ x) (split_on c b).
Proof.
  unfold split_on. induction b as [|x b IH]; cbn [line_split]; [repeat constructor; set_solver|].
  destruct (line_split c b) as [ls l]. destruct (decide (x = c)) as [->|]; [constructor; [set_solver|done]|].
  destruct ls as [|l0 ls]; inversion IH; subst; constructor; try done; set_solver.
Qed.

Lemma split_on_slash b : split_on slash (slash :: b) = [] :: split_on slash b.
Proof. apply (split_on_line slash [] b). set_solver. Qed.

Lemma split_on_join cs : cs ≠ [] → Forall (λ x, slash ∉ x) cs → split_on slash (join_with slash cs) = cs.
Proof.
  intros Hne Hcs. induction Hcs as [|x cs Hx Hcs IH]; [done|]. destruct cs as [|y cs].
  - unfold split_on. cbn. by rewrite line_split_none.
  - change (join_with slash (x :: y :: cs)) with (x ++ slash :: join_with slash (y :: cs)). rewrite split_on_line by done. f_equal. by apply IH.
Qed.

Lemma proper_no_sep cs : Forall proper cs → Forall (λ x, slash ∉ x) cs.
Proof. intros H. eapply Forall_impl; [exact H|]. by intros x (_ & _ & _ & ?). Qed.

Lemma clean_push_proper stack c : Forall proper stack → slash ∉ c → Forall proper (clean_push true stack c).
Proof.
  intros Hs Hc. unfold clean_push. destruct (decide _); [done|]. destruct (decide _) as [->|].
  - destruct Hs as [|top rest [_ [_ [Ht _]]] Hr]; [done|]. by rewrite decide_False.
  - constructor; [|done]. unfold proper, dot, dotdot. tauto.
Qed.

Lemma clean_pushes cs : ∀ stack, Forall proper stack → Forall (λ x, slash ∉ x) cs → Forall proper (foldl (clean_push true) stack cs).
Proof.
  induction cs as [|c cs IH]; intros stack Hs Hcs; [done|]. inversion Hcs; subst. apply IH; [|done]. by apply clean_push_proper.
Qed.

Lemma clean_keeps cs : ∀ stack, Forall proper cs → foldl (clean_push true) stack cs = rev cs ++ stack.
Proof.
  induction cs as [|c cs IH]; intros stack Hcs; [done|]. inversion Hcs as [|? ? (H1 & H2 & H3 & _)]; subst. cbn [foldl rev].
  rewrite IH by done. rewrite <-app_assoc. f_equal. unfold clean_push. rewrite decide_False by (unfold dot in *; tauto). by rewrite decide_False.
Qed.

(** what [Clean] makes of an absolute path *)
Lemma Clean_abs path : IsAbs path = true → ∃ cs, Forall proper cs ∧ Clean path = abs_path cs.
Proof.
  destruct path as [|c path]; [done|]. cbn [IsAbs]. intros ->%bool_decide_eq_true. unfold Clean. rewrite bool_decide_true by done.
  exists (rev (foldl (clean_push true) [] (split_on slash (slash :: path)))). split; [|done].
  apply Forall_rev, clean_pushes; [done|apply split_on_no_sep].
Qed.

Lemma Clean_abs_path cs : Forall proper cs → Clean (abs_path cs) = abs_path cs.
Proof.
  intros Hcs. unfold Clean, abs_path at 1. rewrite bool_decide_true by done. unfold abs_path. f_equal. f_equal.
  rewrite split_on_slash. cbn [foldl]. change (clean_push true [] []) with (@nil bytes).
  destruct cs as [|c cs]; [done|]. rewrite split_on_join by (done || by apply proper_no_sep). rewrite clean_keeps by done.
  by rewrite app_nil_r, rev_involutive.
Qed.

Lemma rel_parts_abs cs : Forall proper cs → rel_parts (abs_path cs) = [] :: cs.
Proof.
  intros Hcs. unfold rel_parts. rewrite decide_False by done. destruct cs as [|c cs]; [done|].
  rewrite decide_False; [unfold abs_path; rewrite split_on_slash; f_equal; apply split_on_join; [done|by apply proper_no_sep]|].
  unfold abs_path. intros [= He]. inversion Hcs as [|? ? (H1 & _)]; subst. destruct c; [done|]. destruct cs; done.
Qed.

Lemma strip_common_spec base targ : ∃ common, base = common ++ (strip_common base targ).1 ∧ targ = common ++ (strip_common base targ).2 ∧
  ((strip_common base targ).1 = [] ↔ base `prefix_of` targ).
Proof.
  revert targ. induction base as [|b base IH]; intros [|t targ]; cbn.
  - exists []. split_and!; [done..|]. by split; [intros; apply prefix_nil|].
  - exists []. split_and!; [done..|]. by split; [intros; apply prefix_nil|].
  - exists []. split_and!; [done..|]. split; [done|]. by intros ?%prefix_nil_not.
  - destruct (decide (b = t)) as [->|Hne].
    + destruct (IH targ) as (common & H1 & H2 & H3). exists (t :: common). cbn. split_and!; [by f_equal..|]. rewrite H3. split; [apply prefix_cons|apply prefix_cons_inv_2].
    + exists []. split_and!; [done..|]. split; [done|]. by intros ?%prefix_cons_inv_1.
Qed.

Lemma abs_path_inj B T : Forall proper B → Forall proper T → abs_path B = abs_path T → B = T.
Proof. intros HB HT He. apply (f_equal rel_parts) in He. rewrite !rel_parts_abs in He by done. by injection He. Qed.

Lemma Rel_abs B T : Forall proper B → Forall proper T → T ≠ B → Rel (abs_path B) (abs_path T) =
  Some (join_with slash (let '(B', T') := strip_common B T in replicate (length B') dotdot ++ T')).
Proof.
  intros HB HT Hne. unfold Rel. rewrite !Clean_abs_path by done. rewrite decide_False by (by intros ?%abs_path_inj).
  rewrite decide_False by done. rewrite bool_decide_false by (intros H; by apply H). rewrite !rel_parts_abs by done. cbn [strip_common].
  rewrite decide_True by done. destruct (strip_common_spec B T) as (common & H1 & _ & _). destruct (strip_common B T) as [[|b B'] T']; [done|].
  rewrite decide_False; [done|]. intros [-> _]. cbn in H1. rewrite H1 in HB. apply Forall_app in HB as [_ HB]. inversion HB as [|? ? (_ & _ & ? & _)]. done.
Qed.

(** the text of a relative path is outside exactly when its first name goes up *)
Definition goes_out (rel : bytes) : bool := bool_decide (rel = dot ∨ rel = dotdot) || (has_prefix_of rel (dotdot ++ [slash]) || IsAbs rel).

Lemma has_prefix_spec b p : has_prefix_of b p = true ↔ ∃ r, b = p ++ r.
Proof. unfold has_prefix_of. rewrite bool_decide_eq_true. split; [intros H; exists (drop (length p) b); by rewrite <-(take_drop (length p) b), H at 1|]. intros [r ->]. by rewrite take_app_length. Qed.

Lemma goes_out_up n T : goes_out (join_with slash (replicate (S n) dotdot ++ T)) = true.
Proof.
  unfold goes_out. cbn [replicate app]. destruct (replicate n dotdot ++ T) as [|x l]; [done|]. apply orb_true_iff. right. apply orb_true_iff. left.
  apply has_prefix_spec. exists (join_with slash (x :: l)). done.
Qed.

Lemma goes_out_below c T : proper c → goes_out (join_with slash (c :: T)) = false.
Proof.
  intros (H1 & H2 & H3 & H4). unfold goes_out. apply orb_false_iff. split; [|apply orb_false_iff; split].
  - apply bool_decide_eq_false. destruct T as [|x T]; [cbn; tauto|]. change (join_with slash (c :: x :: T)) with (c ++ slash :: join_with slash (x :: T)).
    intros [He|He]; assert (slash ∈ c ++ slash :: join_with slash (x :: T)) as Hin by set_solver; rewrite He in Hin; cbn in Hin; set_solver.
  - destruct (has_prefix_of _ _) eqn:E; [|done]. apply has_prefix_spec in E as [r E]. assert (split_on slash (join_with slash (c :: T)) = split_on slash (dotdot ++ slash :: r)) as He by by rewrite E.
    rewrite (split_on_line slash dotdot) in He by (cbn; set_solver). exfalso. destruct T as [|x T].
    + change (join_with slash [c]) with c in He. assert (split_on slash c = [c]) as Hc by (unfold split_on; by rewrite line_split_none). congruence.
    + change (join_with slash (c :: x :: T)) with (c ++ slash :: join_with slash (x :: T)) in He. rewrite split_on_line in He by done. congruence.
  - destruct c as [|b c]; [done|]. assert (IsAbs (join_with slash ((b :: c) :: T)) = bool_decide (b = slash)) as -> by by destruct T. apply bool_decide_eq_false. set_solver.
Qed.

(** * What is accepted *)
Lemma accepted_below wcs tcs : Forall proper wcs → Forall proper tcs →
  match Rel (abs_path wcs) (abs_path tcs) with
  | None => Err PathRel
  | Some rel =>
      if decide (rel = dot ∨ rel = dotdot) then Err PathOutside
      else if has_prefix_of rel (dotdot ++ [slash]) || IsAbs rel then Err PathOutside
      else Ok (abs_path tcs, rel)
  end = if decide (wcs `prefix_of` tcs ∧ tcs ≠ wcs) then Ok (abs_path tcs, join_with slash (drop (length wcs) tcs)) else Err PathOutside.
Proof.
  intros Hw Ht. destruct (decide (tcs = wcs)) as [->|Hne].
  { rewrite decide_False by tauto. unfold Rel. by rewrite decide_True. }
  rewrite Rel_abs by done. destruct (strip_common_spec wcs tcs) as (common & H1 & H2 & H3).
  assert (∀ rel x, (if decide (rel = dot ∨ rel = dotdot) then Err PathOutside
    else if has_prefix_of rel (dotdot ++ [slash]) || IsAbs rel then Err PathOutside else Ok x) = if goes_out rel then Err PathOutside else Ok (x : bytes * bytes)) as Hif.
  { intros rel x. unfold goes_out. destruct (decide (rel = dot ∨ rel = dotdot)); [by rewrite bool_decide_true|by rewrite bool_decide_false]. }
  rewrite Hif. clear Hif. destruct (strip_common wcs tcs) as [[|b B] T]; cbn [fst snd] in *.
  - rewrite decide_True by (split; [by apply H3|done]). rewrite app_nil_r in H1. subst common. rewrite H2 in Ht, Hne |- *.
    destruct T as [|c T]; [by rewrite app_nil_r in Hne|]. apply Forall_app in Ht as [_ Ht]. inversion Ht; subst. cbn [length replicate app].
    rewrite goes_out_below, drop_app_length by done. done.
  - rewrite decide_False by (intros [?%H3 _]; done). cbn [length]. by rewrite goes_out_up.
Qed.

Section confined.
Context (getwd : option bytes) (evalSymlinks : bytes → option bytes).
(** as documented: the working directory is an absolute path; [EvalSymlinks] cleans its
    result, which is absolute for an absolute path *)
Hypothesis wd_abs : ∃ wd, getwd = Some wd ∧ IsAbs wd = true.
Hypothesis links_abs : ∀ p q, evalSymlinks p = Some q → IsAbs p = true → IsAbs q = true ∧ Clean q = q.

Lemma Join_abs wd p : IsAbs wd = true → ∃ cs, Forall proper cs ∧ Join wd p = abs_path cs.
Proof. intros Hwd. destruct wd as [|c wd]; [done|]. assert (Join (c :: wd) p = Clean ((c :: wd) ++ slash :: p)) as -> by by destruct p. by apply Clean_abs. Qed.

Lemma Abs_abs p : ∃ cs, Forall proper cs ∧ Abs getwd p = Some (abs_path cs).
Proof.
  unfold Abs. destruct (IsAbs p) eqn:E; [destruct (Clean_abs p E) as (cs & ? & ->); eauto|]. destruct wd_abs as (wd & -> & Hwd).
  destruct (Join_abs wd p Hwd) as (cs & ? & ->). eauto.
Qed.

Lemma without_links_abs cs : Forall proper cs → ∃ cs', Forall proper cs' ∧ without_links evalSymlinks (abs_path cs) = abs_path cs'.
Proof.
  intros Hcs. unfold without_links. destruct (evalSymlinks _) as [q|] eqn:E; [|eauto]. apply links_abs in E as [Hq <-]; [|done]. by apply Clean_abs.
Qed.

(** C28: a path is accepted exactly when, its symbolic links and dots resolved, it names
    something strictly below the workspace resolved the same way; then the absolute path
    that is opened is the workspace followed by the relative one, and no name in either is
    empty, "." or "..".  Every other path that is not blank is an error. *)
Theorem resolve_confined ws path : trim_space path ≠ [] → ∃ wcs tcs, Forall proper wcs ∧ Forall proper tcs ∧
  without_links evalSymlinks <$> Abs getwd ws = Some (abs_path wcs) ∧
  without_links evalSymlinks <$> Abs getwd (if IsAbs (Clean path) then Clean path else Join (abs_path wcs) (Clean path)) = Some (abs_path tcs) ∧
  resolveWorkspacePath getwd evalSymlinks ws path =
    if decide (wcs `prefix_of` tcs ∧ tcs ≠ wcs) then Ok (abs_path tcs, join_with slash (drop (length wcs) tcs)) else Err PathOutside.
Proof.
  intros Hp. destruct (Abs_abs ws) as (c1 & Hc1 & E1). destruct (without_links_abs c1 Hc1) as (wcs & Hw & E2).
  set (clean := if IsAbs (Clean path) then Clean path else Join (abs_path wcs) (Clean path)).
  destruct (Abs_abs clean) as (c2 & Hc2 & E3). destruct (without_links_abs c2 Hc2) as (tcs & Ht & E4).
  exists wcs, tcs. fold clean. split_and!; [done|done|by rewrite E1; cbn; rewrite E2|by rewrite E3; cbn; rewrite E4|].
  unfold resolveWorkspacePath. rewrite decide_False by done. rewrite E1, E2.
  assert ((if negb (IsAbs (Clean path)) then Join (abs_path wcs) (Clean path) else Clean path) = clean) as -> by (unfold clean; by destruct (IsAbs _)).
  rewrite E3, E4. by apply accepted_below.
Qed.
End confined.

(** a workspace reached through a link, and a path into it *)
Definition demo_links (p : bytes) : option bytes := if decide (p = bstr "/data") then Some (bstr "/mnt/d") else if decide (p = bstr "/mnt/d/a/x.rdb") then Some (bstr "/mnt/d/b/x.rdb") else None.

Lemma resolve_confined_witness :
  resolveWorkspacePath (Some (bstr "/home")) demo_links (bstr "/data/") (bstr "./a/../a//x.rdb") = Ok (bstr "/mnt/d/b/x.rdb", bstr "b/x.rdb") ∧
  resolveWorkspacePath (Some (bstr "/home")) demo_links (bstr "/data/") (bstr "../d2/x.rdb") = Err PathOutside ∧
  resolveWorkspacePath (Some (bstr "/home")) demo_links (bstr "/data/") (bstr "..x") = Ok (bstr "/mnt/d/..x", bstr "..x") ∧
  ∃ wcs tcs, Forall proper wcs ∧ Forall proper tcs ∧
    resolveWorkspacePath (Some (bstr "/home")) demo_links (bstr "/data/") (bstr "/mnt") =
      if decide (wcs `prefix_of` tcs ∧ tcs ≠ wcs) then Ok (abs_path tcs, join_with slash (drop (length wcs) tcs)) else Err PathOutside.
Proof.
  split_and!; [vm_compute; reflexivity..|].
  destruct (resolve_confined (Some (bstr "/home")) demo_links ltac:(exists (bstr "/home"); split; vm_compute; reflexivity)
    ltac:(unfold demo_links; intros p q; destruct (decide _); [|destruct (decide _)]; intros [= <-] _; split; vm_compute; reflexivity)
    (bstr "/data/") (bstr "/mnt") ltac:(vm_compute; discriminate)) as (wcs & tcs & H1 & H2 & _ & _ & H3).
  exists wcs, tcs. split_and!; [exact H1|exact H2|exact H3].
Defined.
