(* ===== verification/RdbManager.v ===== *)
(** The jobs that analyse RDB files: [RDBAnalysisManager] and its jobs
    (pkg/topom/topom_rdb_analysis.go), the download of a file from a server
    (topom_rdb_analysis_remote_fetch.go) and the handlers of the API
    (topom_rdb_analysis_api.go).

    [rm_exec] executes one event: a request runs from one of its locked sections, or one of
    its calls to the outside, to the next; the goroutine of a job runs from one object of
    its file to the next.  An event carries what the outside answers: the name of a
    temporary file, the length of a body, what a file holds.  Runs are lists of events, in
    any order. *)

From S2P Require Import Prelude Bufio Resp Mapper Models TopomContext TopomState TopomProxy TopomGroup.
From S2P Require Import Router Stream Forward SessionState ClusterNodes TopomACL PitrFiles RdbAnalysis RdbPaths.
(** what a loop over a map gathers of its values *)
Definition collect {K A B} `{Countable K} (f : A → list B) (m : gmap K A) : list B := map_to_list m ≫= λ x, f x.2.

(** * Jobs *)
Inductive rstatus := RQueued | RRunning | RDone | RError | RCanceled.
#[export] Instance rstatus_eq : EqDecision rstatus.
Proof. solve_decision. Defined.
Definition in_progress (st : rstatus) : bool := bool_decide (st = RQueued ∨ st = RRunning).

(** how an analysis fails *)
Inductive rfail := FOpen | FRegex | FParse.

Record RDBReport := mkReport {
  rr_BytesRead : Z; rr_ObjectsRead : Z; rr_DBCount : Z; rr_TotalSize : Z;
  rr_TypeSummary : list RDBAnalysisSummary; rr_DBSummary : list RDBAnalysisSummary;
  rr_TopBigKeys : list RDBAnalysisKeyEntry; rr_TopHotKeys : list RDBAnalysisKeyEntry;
  rr_PrefixSummary : list RDBAnalysisSummary; rr_FlameGraph : option flame }.
Definition empty_report : RDBReport := mkReport 0 0 0 0 [] [] [] [] [] None.

Record RDBAnalysisJob := mkRJob {
  rj_ID : string; rj_CreatedAt : Z; rj_UpdatedAt : Z; rj_Status : rstatus; rj_Source : bytes; rj_Options : RDBAnalysisOptions;
  rj_FileSize : Z; rj_report : RDBReport; rj_Error : option rfail; rj_path : bytes; rj_cleanup : bool }.

(** a copy that shares nothing with the job *)
Definition rj_Snapshot (j : RDBAnalysisJob) : RDBAnalysisJob :=
  mkRJob (rj_ID j) (rj_CreatedAt j) (rj_UpdatedAt j) (rj_Status j) (rj_Source j) (rj_Options j) (rj_FileSize j) (rj_report j) (rj_Error j) [] false.

Definition setStatus (st : rstatus) (err : option rfail) (now : Z) (j : RDBAnalysisJob) : RDBAnalysisJob :=
  mkRJob (rj_ID j) (rj_CreatedAt j) now st (rj_Source j) (rj_Options j) (rj_FileSize j) (rj_report j)
    (match err with Some _ => err | None => rj_Error j end) (rj_path j) (rj_cleanup j).

Definition set_bytesRead (n : Z) (s : rdbAnalysisSnapshot) : rdbAnalysisSnapshot :=
  mkSnap (sn_options s) (sn_regex s) n (sn_objectsRead s) (sn_totalSize s) (sn_dbSet s) (sn_typeStats s) (sn_dbStats s)
    (sn_prefixStats s) (sn_topBigKeys s) (sn_topHotKeys s) (sn_flameRoot s).

(** ** The manager's configuration *)
Record RDBAnalysisManager := mkRM {
  rm_workspace : bytes; rm_maxUpload : Z; rm_maxConcurrent : Z; rm_maxRetained : Z; rm_maxTopN : Z;
  rm_remoteFetchAuth : bytes; rm_remoteFetchTimeout : Z; rm_remoteFetchMaxConcurrent : Z }.

Definition or_default (n d : Z) : Z := if decide (n ≤ 0) then d else n.
Definition NewRDBAnalysisManager (getwd : option bytes) (tempDir workspace : bytes) (maxUpload maxConcurrent maxRetained maxTopN : Z)
    (auth : bytes) (timeout fetches : Z) : RDBAnalysisManager :=
  let workspace := trim_space workspace in
  let workspace := if decide (workspace = []) then Join tempDir (bstr "codis-rdb-analysis") else workspace in
  mkRM (default workspace (Abs getwd workspace)) (or_default maxUpload (1024 * 1024 * 1024)) (or_default maxConcurrent 1)
    (or_default maxRetained 16) (or_default maxTopN 100) auth (or_default timeout (30 * 60 * 1000000000)) (or_default fetches 1).

(** * The state *)

(** where the goroutine of a job is: [runJob] and, inside it, [parseJob] *)
Inductive rpc :=
| RStart
| ROpen
| RParse (now : Z) (snap : rdbAnalysisSnapshot) (todo : list (RedisObject * Z)) (bad : bool)
| RFinish (err : option rfail)
| REnd.

(** what was in a file when it was opened, and when that was *)
Record opened := mkOpened { op_now : Z; op_objects : list (RedisObject * Z); op_bad : bool }.

(** a job that was started, with its goroutine; [re_listed] while it is in [m.jobs] *)
Record rentry := mkREntry {
  re_job : RDBAnalysisJob; re_pc : rpc; re_cancelled : bool; re_listed : bool; re_opened : option opened }.

Inductive rerror :=
| RSystem | RPath (e : path_error) | RIsDir | RTooBig | RTooMany | RNoId | RNotFound
| RNoAuth | RTooManyFetches | RHTTP | RBadStatus (code : Z).

(** a request between two of its sections *)
Inductive rthread :=
| TCopy (name path : bytes) (options : RDBAnalysisOptions)          (** StartUpload: io.Copy *)
| TAcquire (addr : bytes) (options : RDBAnalysisOptions)            (** fetchRemoteRDB *)
| THTTP (addr : bytes) (options : RDBAnalysisOptions)
| TFetchCopy (addr filename path : bytes) (options : RDBAnalysisOptions)
| TRelease (result : outcome rerror (bytes * bytes * Z)) (options : RDBAnalysisOptions)
| TCheck (source path : bytes) (size : Z) (cleanup : bool) (options : RDBAnalysisOptions)    (** startJob *)
| TInsert (source path : bytes) (size : Z) (cleanup : bool) (options : RDBAnalysisOptions)
| TUnlink (path : bytes).                                           (** Remove: os.Remove *)

Record rsys := mkRS {
  rs_jobs : gmap string rentry;
  rs_threads : gmap nat rthread;
  rs_fetching : Z;                                   (** remoteFetchActive *)
  rs_files : gset bytes;                             (** the temporary files *)
  rs_answers : list (nat * outcome rerror string);   (** how the requests were answered *)
}.
Definition rs_init : rsys := mkRS ∅ ∅ 0 ∅ [].

Definition set_jobs (jobs : gmap string rentry) (s : rsys) : rsys := mkRS jobs (rs_threads s) (rs_fetching s) (rs_files s) (rs_answers s).
Definition set_job_of (id : string) (e : rentry) (s : rsys) : rsys := set_jobs (<[id := e]> (rs_jobs s)) s.
Definition goto (t : nat) (th : rthread) (s : rsys) : rsys := mkRS (rs_jobs s) (<[t := th]> (rs_threads s)) (rs_fetching s) (rs_files s) (rs_answers s).
Definition finish (t : nat) (r : outcome rerror string) (s : rsys) : rsys :=
  mkRS (rs_jobs s) (delete t (rs_threads s)) (rs_fetching s) (rs_files s) (rs_answers s ++ [(t, r)]).
Definition set_fetching (n : Z) (s : rsys) : rsys := mkRS (rs_jobs s) (rs_threads s) n (rs_files s) (rs_answers s).
Definition create_file (path : bytes) (s : rsys) : rsys := mkRS (rs_jobs s) (rs_threads s) (rs_fetching s) ({[path]} ∪ rs_files s) (rs_answers s).
Definition remove_file (path : bytes) (s : rsys) : rsys := mkRS (rs_jobs s) (rs_threads s) (rs_fetching s) (rs_files s ∖ {[path]}) (rs_answers s).
Definition remove_if (cleanup : bool) (path : bytes) (s : rsys) : rsys := if cleanup : bool then remove_file path s else s.

Definition re_with_job (j : RDBAnalysisJob) (pc : rpc) (e : rentry) : rentry := mkREntry j pc (re_cancelled e) (re_listed e) (re_opened e).
Definition re_cancel (e : rentry) : rentry := mkREntry (re_job e) (re_pc e) true (re_listed e) (re_opened e).
Definition re_unlist (e : rentry) : rentry := mkREntry (re_job e) (re_pc e) (re_cancelled e) false (re_opened e).

(** * The operations of the manager *)
Definition active_job (e : rentry) : bool := re_listed e && in_progress (rj_Status (re_job e)).
Definition checkConcurrentLimit (c : RDBAnalysisManager) (s : rsys) : outcome rerror unit :=
  let n := Z.of_nat (length (collect (λ e, if active_job e then [e] else []) (rs_jobs s))) in
  if decide (rm_maxConcurrent c ≤ n) then Err RTooMany else Ok tt.

(** the number of jobs in [m.jobs] *)
Definition listed_jobs (jobs : gmap string rentry) : Z := Z.of_nat (length (collect (λ e, if re_listed e then [e] else []) jobs)).

(** takes a job out of [m.jobs], and its file away *)
Definition drop_job (e : rentry) (s : rsys) : rsys :=
  let j := re_job e in
  let s := set_job_of (rj_ID j) (re_unlist e) s in
  remove_if (rj_cleanup j && bool_decide (rj_path j ≠ [])) (rj_path j) s.
Fixpoint prune_loop (maxRetained : Z) (jobs : list rentry) (s : rsys) : rsys :=
  match jobs with
  | e :: jobs => if decide (listed_jobs (rs_jobs s) > maxRetained) then prune_loop maxRetained jobs (drop_job e s) else s
  | [] => s
  end.

Definition created_before (a b : rentry) : bool := bool_decide (rj_CreatedAt (re_job a) < rj_CreatedAt (re_job b)).
Definition finished_job (e : rentry) : bool := re_listed e && negb (in_progress (rj_Status (re_job e))).

Section manager.
(** the orders in which maps are ranged over; [regexp.Compile]; the parameter "filename"
    of a header, as [mime.ParseMediaType] reads it *)
Context (range_types : gmap bytes RDBAnalysisSummary → list RDBAnalysisSummary) (range_dbs : gmap Z RDBAnalysisSummary → list RDBAnalysisSummary).
Context (range_jobs : gmap string rentry → list rentry).
Context (compile : bytes → option (bytes → bool)) (media_filename : bytes → option bytes).
Context (getwd : option bytes) (evalSymlinks : bytes → option bytes).
Context (c : RDBAnalysisManager).

Definition pruneLocked (s : rsys) : rsys :=
  if decide (listed_jobs (rs_jobs s) ≤ rm_maxRetained c) then s
  else prune_loop (rm_maxRetained c) (SliceStable created_before (filter (λ e, finished_job e = true) (range_jobs (rs_jobs s)))) s.

(** what a job shows of the statistics *)
Definition report_of (snap : rdbAnalysisSnapshot) : RDBReport :=
  mkReport (sn_bytesRead snap) (sn_objectsRead snap) (Z.of_nat (size (sn_dbSet snap))) (sn_totalSize snap)
    (typeSummary range_types snap) (dbSummary range_dbs snap) (sn_topBigKeys snap) (sn_topHotKeys snap)
    (prefixSummary range_types snap) (Some (export (sn_flameRoot snap))).
Definition updateSnapshot (snap : rdbAnalysisSnapshot) (now : Z) (j : RDBAnalysisJob) : RDBAnalysisJob :=
  mkRJob (rj_ID j) (rj_CreatedAt j) now (rj_Status j) (rj_Source j) (rj_Options j) (rj_FileSize j) (report_of snap)
    (rj_Error j) (rj_path j) (rj_cleanup j).

(** ** The goroutine of a job *)

(** what the outside answers a goroutine *)
Inductive rinput :=
| IStart (now : Z)
| IOpen (file : option (list (RedisObject * Z) * bool)) (now : Z)    (** [None]: it does not open *)
| IObject (now : Z)
| IParsed (count : Z) (now : Z)
| IEnd (now : Z).

Definition run_step (i : rinput) (e : rentry) : option rentry :=
  let j := re_job e in
  match re_pc e, i with
  | RStart, IStart now => Some (re_with_job (setStatus RRunning None now j) ROpen e)
  | ROpen, IOpen None _ => Some (re_with_job j (RFinish (Some FOpen)) e)
  | ROpen, IOpen (Some (objects, bad)) now =>
      match newRDBAnalysisSnapshot compile (rj_Options j) with
      | None => Some (re_with_job j (RFinish (Some FRegex)) e)
      | Some snap => Some (mkREntry j (RParse now snap objects bad) (re_cancelled e) (re_listed e) (Some (mkOpened now objects bad)))
      end
  | RParse start snap (x :: todo) bad, IObject now =>
      if re_cancelled e then Some (re_with_job j (RParse start snap [] false) e)
      else
        let snap' := on_object start snap x in
        let j := if accept snap x.1 start && bool_decide (sn_objectsRead snap' `rem` rdbAnalysisSnapshotInterval = 0) then updateSnapshot snap' now j else j in
        Some (re_with_job j (RParse start snap' todo bad) e)
  | RParse _ snap [] bad, IParsed count now =>
      let j := updateSnapshot (set_bytesRead count snap) now j in
      Some (re_with_job j (RFinish (if re_cancelled e then None else if bad : bool then Some FParse else None)) e)
  | RFinish err, IEnd now =>
      let j := if re_cancelled e then setStatus RCanceled None now j
               else match err with Some _ => setStatus RError err now j | None => setStatus RDone None now j end in
      Some (re_with_job j REnd e)
  | _, _ => None
  end.

(** ** Requests *)
Definition rdbAnalysisRemoteFetchDefaultFilename : bytes := bstr "dump.rdb".
Definition rdbAnalysisRemoteFetchFilename (disposition : bytes) : bytes :=
  if decide (disposition = []) then rdbAnalysisRemoteFetchDefaultFilename
  else match media_filename disposition with
  | None => rdbAnalysisRemoteFetchDefaultFilename
  | Some filename =>
      let name := trim_space (Base filename) in
      if decide (name = [] ∨ name = dot ∨ name = [slash]) then rdbAnalysisRemoteFetchDefaultFilename else name
  end.

Definition upload_name (filename : bytes) : bytes :=
  let name := Base filename in if decide (name = dot ∨ name = [slash]) then bstr "upload.rdb" else name.

(** how many bytes [io.Copy] takes of a body of [n] bytes through the limited reader *)
Definition copied (n : Z) : Z := let limit := i64 (rm_maxUpload c + 1) in if decide (limit ≤ 0) then 0 else Z.min n limit.

(** a copy that has ended: [None] is an error; the file goes when it is not used *)
Definition end_copy (path : bytes) (body : option Z) (s : rsys) : outcome rerror Z * rsys :=
  match body with
  | None => (Err RSystem, remove_file path s)
  | Some n => if decide (copied n > rm_maxUpload c) then (Err RTooBig, remove_file path s) else (Ok (copied n), s)
  end.

Definition acquireRemoteFetch (s : rsys) : outcome rerror unit * rsys :=
  if decide (rm_remoteFetchMaxConcurrent c ≤ rs_fetching s) then (Err RTooManyFetches, s) else (Ok tt, set_fetching (rs_fetching s + 1) s).
Definition releaseRemoteFetch (s : rsys) : rsys := if decide (rs_fetching s > 0) then set_fetching (rs_fetching s - 1) s else s.

(** an answer to the request for a file: status, length and disposition *)
Record response := mkResponse { rp_status : Z; rp_length : Z; rp_disposition : bytes }.

(** the new job of [startJob] *)
Definition new_rdb_job (id : string) (now : Z) (source path : bytes) (size : Z) (cleanup : bool) (options : RDBAnalysisOptions) : RDBAnalysisJob :=
  mkRJob id now now RQueued source options size empty_report None path cleanup.

Definition thread_step_copy (t : nat) (name path : bytes) (options : RDBAnalysisOptions) (body : option Z) (s : rsys) : rsys :=
  match end_copy path body s with
  | (Ok n, s) => goto t (TCheck (bstr "upload:" ++ name) path n true options) s
  | (Err e, s) => finish t (Err e) s
  | (Panic, s) => finish t Panic s
  end.

(** an error, and the slot is given back *)
Definition fetch_fails (t : nat) (e : rerror) (options : RDBAnalysisOptions) (s : rsys) : rsys := goto t (TRelease (Err e) options) s.

Definition thread_step_http (t : nat) (addr : bytes) (options : RDBAnalysisOptions) (rsp : option response) (tmp : option bytes) (s : rsys) : rsys :=
  match rsp with
  | None => fetch_fails t RHTTP options s
  | Some rsp =>
      if decide (rp_status rsp ≠ 200) then fetch_fails t (RBadStatus (rp_status rsp)) options s
      else if decide (rp_length rsp > rm_maxUpload c) then fetch_fails t RTooBig options s
      else match tmp with
      | None => fetch_fails t RSystem options s
      | Some path => goto t (TFetchCopy addr (rdbAnalysisRemoteFetchFilename (rp_disposition rsp)) path options) (create_file path s)
      end
  end.

Definition thread_step_fetched (t : nat) (addr filename path : bytes) (options : RDBAnalysisOptions) (body : option Z) (s : rsys) : rsys :=
  match end_copy path body s with
  | (Ok n, s) => goto t (TRelease (Ok (bstr "remote-http:" ++ addr ++ bstr "/" ++ filename, path, n)) options) s
  | (Err e, s) => fetch_fails t e options s
  | (Panic, s) => finish t Panic s
  end.

Definition thread_step_release (t : nat) (result : outcome rerror (bytes * bytes * Z)) (options : RDBAnalysisOptions) (s : rsys) : rsys :=
  let s := releaseRemoteFetch s in
  match result with
  | Ok (source, path, n) => goto t (TCheck source path n true options) s
  | Err e => finish t (Err e) s
  | Panic => finish t Panic s
  end.

(** [startJob]: the check, and then, in a section of its own, the insertion *)
Definition thread_step_check (t : nat) (source path : bytes) (size : Z) (cleanup : bool) (options : RDBAnalysisOptions) (s : rsys) : rsys :=
  match checkConcurrentLimit c s with
  | Ok _ => goto t (TInsert source path size cleanup (normalizeOptions (rm_maxTopN c) options)) s
  | Err e => finish t (Err e) (remove_if cleanup path s)
  | Panic => finish t Panic s
  end.
Definition thread_step_insert (t : nat) (source path : bytes) (size : Z) (cleanup : bool) (options : RDBAnalysisOptions) (newID : option string) (now : Z) (s : rsys) : rsys :=
  match newID with
  | None => finish t (Err RNoId) (remove_if cleanup path s)
  | Some id =>
      let e := mkREntry (new_rdb_job id now source path size cleanup options) RStart false true None in
      finish t (Ok id) (pruneLocked (set_job_of id e s))
  end.

Definition StartWorkspace (t : nat) (path : bytes) (options : RDBAnalysisOptions) (stat : option (bool * Z)) (s : rsys) : rsys :=
  match resolveWorkspacePath getwd evalSymlinks (rm_workspace c) path with
  | Ok (abs, rel) =>
      match stat with
      | None => finish t (Err RSystem) s
      | Some (true, _) => finish t (Err RIsDir) s
      | Some (false, size) => goto t (TCheck (bstr "workspace:" ++ rel) abs size false options) s
      end
  | Err e => finish t (Err (RPath e)) s
  | Panic => finish t Panic s
  end.

(** [tmp] is the file [os.CreateTemp] creates *)
Definition StartUpload (t : nat) (filename : bytes) (tmp : option bytes) (options : RDBAnalysisOptions) (s : rsys) : rsys :=
  match tmp with
  | None => finish t (Err RSystem) s
  | Some path => goto t (TCopy (upload_name filename) path options) (create_file path s)
  end.

Definition startRemoteFetch (t : nat) (addr : bytes) (options : RDBAnalysisOptions) (s : rsys) : rsys :=
  if decide (rm_remoteFetchAuth c = []) then finish t (Err RNoAuth) s else goto t (TAcquire addr options) s.

Definition listed_job (id : string) (s : rsys) : option rentry := e ← rs_jobs s !! id; if re_listed e then Some e else None.

Definition rdb_Get (id : string) (s : rsys) : outcome rerror RDBAnalysisJob :=
  match listed_job id s with None => Err RNotFound | Some e => Ok (rj_Snapshot (re_job e)) end.

Definition rdb_Cancel (id : string) (s : rsys) : outcome rerror unit * rsys :=
  match listed_job id s with
  | None => (Err RNotFound, s)
  | Some e => if in_progress (rj_Status (re_job e)) then (Ok tt, set_job_of id (re_cancel e) s) else (Ok tt, s)
  end.

(** [Remove]; its last section deletes the file *)
Definition rdb_Remove (t : nat) (id : string) (s : rsys) : outcome rerror unit * rsys :=
  match listed_job id s with
  | None => (Err RNotFound, s)
  | Some e =>
      let j := re_job e in
      let s := set_job_of id (re_unlist (re_cancel e)) s in
      (Ok tt, if rj_cleanup j && bool_decide (rj_path j ≠ []) then goto t (TUnlink (rj_path j)) s else s)
  end.

Definition rdb_Close (s : rsys) : rsys := set_jobs ((λ e, if re_listed e then re_cancel e else e) <$> rs_jobs s) s.

(** ** Events *)
Inductive revent :=
| EvWorkspace (t : nat) (path : bytes) (options : RDBAnalysisOptions) (stat : option (bool * Z))
| EvUpload (t : nat) (filename : bytes) (tmp : option bytes) (options : RDBAnalysisOptions)
| EvFetch (t : nat) (addr : bytes) (options : RDBAnalysisOptions)
| EvCopied (t : nat) (body : option Z)
| EvAcquire (t : nat)
| EvHTTP (t : nat) (rsp : option response) (tmp : option bytes)
| EvRelease (t : nat)
| EvCheck (t : nat)
| EvInsert (t : nat) (newID : option string) (now : Z)
| EvCancel (id : string)
| EvRemove (t : nat) (id : string)
| EvUnlink (t : nat)
| EvClose
| EvRun (id : string) (i : rinput).

(** a new temporary file has a name that no other has *)
Definition new_file (tmp : option bytes) (s : rsys) : bool := match tmp with None => true | Some path => bool_decide (path ≠ [] ∧ path ∉ rs_files s) end.
Definition new_id (newID : option string) (s : rsys) : bool := match newID with None => true | Some id => bool_decide (rs_jobs s !! id = None) end.

Definition rm_exec (ev : revent) (s : rsys) : option rsys :=
  let free t := bool_decide (rs_threads s !! t = None) in
  match ev with
  | EvWorkspace t path options stat => if free t then Some (StartWorkspace t path options stat s) else None
  | EvUpload t filename tmp options => if free t && new_file tmp s then Some (StartUpload t filename tmp options s) else None
  | EvFetch t addr options => if free t then Some (startRemoteFetch t addr options s) else None
  | EvCopied t body =>
      match rs_threads s !! t with
      | Some (TCopy name path options) => Some (thread_step_copy t name path options body s)
      | Some (TFetchCopy addr filename path options) => Some (thread_step_fetched t addr filename path options body s)
      | _ => None
      end
  | EvAcquire t =>
      match rs_threads s !! t with
      | Some (TAcquire addr options) =>
          match acquireRemoteFetch s with
          | (Ok _, s) => Some (goto t (THTTP addr options) s)
          | (Err e, s) => Some (finish t (Err e) s)
          | (Panic, s) => Some (finish t Panic s)
          end
      | _ => None
      end
  | EvHTTP t rsp tmp =>
      match rs_threads s !! t with
      | Some (THTTP addr options) => if new_file tmp s then Some (thread_step_http t addr options rsp tmp s) else None
      | _ => None
      end
  | EvRelease t => match rs_threads s !! t with Some (TRelease result options) => Some (thread_step_release t result options s) | _ => None end
  | EvCheck t =>
      match rs_threads s !! t with
      | Some (TCheck source path size cleanup options) => Some (thread_step_check t source path size cleanup options s)
      | _ => None
      end
  | EvInsert t newID now =>
      match rs_threads s !! t with
      | Some (TInsert source path size cleanup options) =>
          if new_id newID s then Some (thread_step_insert t source path size cleanup options newID now s) else None
      | _ => None
      end
  | EvCancel id => Some (rdb_Cancel id s).2
  | EvRemove t id => if free t then Some (rdb_Remove t id s).2 else None
  | EvUnlink t => match rs_threads s !! t with Some (TUnlink path) => Some (finish t (Ok ""%string) (remove_file path s)) | _ => None end
  | EvClose => Some (rdb_Close s)
  | EvRun id i => e ← rs_jobs s !! id; e' ← run_step i e; Some (set_job_of id e' s)
  end.

Definition rm_run (evs : list revent) : option rsys := foldl (λ s ev, s ← s; rm_exec ev s) (Some rs_init) evs.
End manager.
