(* ===== verification/RdbJobs.v ===== *)
(** What the jobs that analyse RDB files guarantee, whatever the order of requests, of the
    goroutines and of what the outside answers.

    A job that is done reports the analysis of the whole file; requests and jobs own the
    temporary files, each exactly one owner, so that none is left behind; the slots for
    downloads are accounted for.  The limit on jobs in progress holds up to the number of
    requests that are between the check and the insertion at once, and [limit_exceeded] is
    a run in which two requests pass the check together. *)

From S2P Require Import Prelude Bufio Resp Mapper Models TopomContext TopomState TopomProxy TopomGroup.
From S2P Require Import Router Stream Forward SessionState ClusterNodes TopomACL PitrFiles RdbAnalysis RdbPaths RdbManager.
From Stdlib Require Import Sorting.Sorted.

(** * Loops over maps *)
Section collect.
Context {K A B : Type} `{Countable K} (f : A → list B).

Lemma collect_new (m : gmap K A) k x : m !! k = None → collect f (<[k:=x]> m) ≡ₚ f x ++ collect f m.
Proof. intros Hk. unfold collect. by rewrite map_to_list_insert. Qed.

Lemma collect_at (m : gmap K A) k x : m !! k = Some x → collect f m ≡ₚ f x ++ collect f (delete k m).
Proof. intros Hk. rewrite <-(insert_delete_id m k x) at 1 by done. apply collect_new, lookup_delete_eq. Qed.

Lemma collect_set (m : gmap K A) k x : collect f (<[k:=x]> m) ≡ₚ f x ++ collect f (delete k m).
Proof. rewrite <-insert_delete_eq. apply collect_new, lookup_delete_eq. Qed.

Lemma collect_same (m : gmap K A) k x y : m !! k = Some x → f y = f x → collect f (<[k:=y]> m) ≡ₚ collect f m.
Proof. intros Hk Hf. by rewrite collect_set, (collect_at m k x), Hf. Qed.

Lemma collect_fmap (g : A → A) (m : gmap K A) : (∀ x, f (g x) = f x) → collect f (g <$> m) ≡ₚ collect f m.
Proof.
  intros Hg. unfold collect. rewrite map_to_list_fmap, list_fmap_bind. apply reflexive_eq, list_bind_ext; [|done]. intros [k x]. apply Hg.
Qed.

Lemma elem_of_collect (m : gmap K A) y : y ∈ collect f m ↔ ∃ k x, m !! k = Some x ∧ y ∈ f x.
Proof.
  unfold collect. rewrite list_elem_of_bind. split.
  - intros ([k x] & Hy & Hx%elem_of_map_to_list). eauto.
  - intros (k & x & Hx & Hy). exists (k, x). split; [done|]. by apply elem_of_map_to_list.
Qed.
End collect.

(** * Who owns the temporary files *)
Definition owned_path (cleanup : bool) (path : bytes) : list bytes := if cleanup : bool then [path] else [].
Definition entry_files (e : rentry) : list bytes := owned_path (re_listed e && rj_cleanup (re_job e)) (rj_path (re_job e)).
Definition thread_files (th : rthread) : list bytes :=
  match th with
  | TCopy _ path _ | TFetchCopy _ _ path _ | TUnlink path => [path]
  | TRelease (Ok (_, path, _)) _ => [path]
  | TCheck _ path _ cleanup _ | TInsert _ path _ cleanup _ => owned_path cleanup path
  | _ => []
  end.
(** requests that hold a slot for a download, or are between the check and the insertion *)
Definition thread_slot (th : rthread) : list unit := match th with THTTP _ _ | TFetchCopy _ _ _ _ | TRelease _ _ => [tt] | _ => [] end.
Definition thread_insert (th : rthread) : list unit := match th with TInsert _ _ _ _ _ => [tt] | _ => [] end.
Definition entry_active (e : rentry) : list rentry := if active_job e then [e] else [].
Definition entry_listed (e : rentry) : list rentry := if re_listed e then [e] else [].

Definition owned (s : rsys) : list bytes := collect entry_files (rs_jobs s) ++ collect thread_files (rs_threads s).
Definition inserting (s : rsys) : Z := Z.of_nat (length (collect thread_insert (rs_threads s))).
Definition active_jobs (s : rsys) : Z := Z.of_nat (length (collect entry_active (rs_jobs s))).

Definition of_thread {B} (f : rthread → list B) (th : option rthread) : list B := match th with Some th => f th | None => [] end.

Lemma elements_remove (F : gset bytes) path rest : elements F ≡ₚ path :: rest → elements (F ∖ {[path]}) ≡ₚ rest.
Proof.
  intros Hp. assert (path ∈ F) as Hin by (apply elem_of_elements; rewrite Hp; by constructor).
  apply (Permutation_cons_inv (a := path)). rewrite <-Hp. rewrite <-(elements_union_singleton (F ∖ {[path]}) path) by set_solver.
  by replace ({[path]} ∪ F ∖ {[path]}) with F by (apply set_eq; intros x; destruct (decide (x = path)); set_solver).
Qed.

(** * The steps of a request *)
Definition thread_ok (th : rthread) : Prop :=
  match th with
  | TCopy _ path _ | TFetchCopy _ _ path _ | TUnlink path => path ≠ []
  | TRelease (Ok (_, path, _)) _ => path ≠ []
  | TCheck _ path _ cleanup _ => cleanup = true → path ≠ []
  | TInsert _ path _ cleanup options => (cleanup = true → path ≠ []) ∧ 0 ≤ ro_TopN options
  | _ => True
  end.

Definition set_thread (t : nat) (th : option rthread) (m : gmap nat rthread) : gmap nat rthread := match th with Some th => <[t := th]> m | None => delete t m end.

(** a request goes from [old] to [new]; its files and its slot change with it *)
Record tmove (c : RDBAnalysisManager) (s s' : rsys) (t : nat) (old new : option rthread) : Prop := mkTmove {
  tm_jobs : rs_jobs s' = rs_jobs s;
  tm_old : rs_threads s !! t = old;
  tm_new : rs_threads s' = set_thread t new (rs_threads s);
  tm_files : ∀ rest, elements (rs_files s) ≡ₚ of_thread thread_files old ++ rest → elements (rs_files s') ≡ₚ of_thread thread_files new ++ rest;
  tm_slot : ∀ r, 0 ≤ r → rs_fetching s = Z.of_nat (length (of_thread thread_slot old)) + r → rs_fetching s' = Z.of_nat (length (of_thread thread_slot new)) + r;
  tm_cap : rs_fetching s ≤ rm_remoteFetchMaxConcurrent c → rs_fetching s' ≤ rm_remoteFetchMaxConcurrent c;
  tm_insert : of_thread thread_insert new = [] ∨ active_jobs s < rm_maxConcurrent c;
  tm_ok : (∀ th, old = Some th → thread_ok th) → ∀ th, new = Some th → thread_ok th;
}.

Section moves.
Context (c : RDBAnalysisManager).
Hypothesis maxTopN : 0 ≤ rm_maxTopN c.

Lemma elements_create (F : gset bytes) path rest : path ∉ F → elements F ≡ₚ rest → elements ({[path]} ∪ F) ≡ₚ path :: rest.
Proof. intros Hf Hp. by rewrite elements_union_singleton, Hp. Qed.

Lemma remove_if_files cleanup path s rest : elements (rs_files s) ≡ₚ owned_path cleanup path ++ rest → elements (rs_files (remove_if cleanup path s)) ≡ₚ rest.
Proof. destruct cleanup; cbn; [apply elements_remove|done]. Qed.

Lemma remove_if_rest cleanup path s : rs_jobs (remove_if cleanup path s) = rs_jobs s ∧ rs_threads (remove_if cleanup path s) = rs_threads s ∧
  rs_fetching (remove_if cleanup path s) = rs_fetching s.
Proof. by destruct cleanup. Qed.

Lemma normalize_topN o : 0 ≤ ro_TopN (normalizeOptions (rm_maxTopN c) o).
Proof. unfold normalizeOptions. cbn [ro_TopN]. unfold rdbAnalysisDefaultTopN. destruct (decide (ro_TopN o ≤ 0)), (decide _); lia. Qed.

(** closes the fields of a move that concern neither files nor slots *)
Local Ltac move_rest := first [done | intros; cbn in *; lia | by left | (intros Hok th [= <-]; cbn; try done) | idtac].

Lemma move_copy t name path options body s : rs_threads s !! t = Some (TCopy name path options) →
  ∃ new, tmove c s (thread_step_copy c t name path options body s) t (Some (TCopy name path options)) new.
Proof.
  intros Ht. unfold thread_step_copy, end_copy. destruct body as [n|]; [destruct (decide _)|].
  - exists None. split; move_rest. intros rest Hp. by apply elements_remove.
  - eexists (Some _). split; move_rest. intros _. by apply (Hok _ eq_refl).
  - exists None. split; move_rest. intros rest Hp. by apply elements_remove.
Qed.

Lemma move_fetched t addr filename path options body s : rs_threads s !! t = Some (TFetchCopy addr filename path options) →
  ∃ new, tmove c s (thread_step_fetched c t addr filename path options body s) t (Some (TFetchCopy addr filename path options)) new.
Proof.
  intros Ht. unfold thread_step_fetched, end_copy. destruct body as [n|]; [destruct (decide _)|].
  - eexists (Some _). split; move_rest. intros rest Hp. by apply elements_remove.
  - eexists (Some _). split; move_rest. by apply (Hok _ eq_refl).
  - eexists (Some _). split; move_rest. intros rest Hp. by apply elements_remove.
Qed.

Lemma move_http media t addr options rsp tmp s : rs_threads s !! t = Some (THTTP addr options) → new_file tmp s = true →
  ∃ new, tmove c s (thread_step_http media c t addr options rsp tmp s) t (Some (THTTP addr options)) new.
Proof.
  intros Ht Hn. unfold thread_step_http, fetch_fails. destruct rsp as [rsp|]; [destruct (decide _); [|destruct (decide _); [|destruct tmp as [path|]]]|].
  - eexists (Some _). split; move_rest.
  - eexists (Some _). split; move_rest.
  - apply bool_decide_eq_true in Hn as [Hne Hnew]. eexists (Some _). split; move_rest. intros rest Hp. by apply elements_create.
  - eexists (Some _). split; move_rest.
  - eexists (Some _). split; move_rest.
Qed.

Lemma move_acquire t addr options s : rs_threads s !! t = Some (TAcquire addr options) →
  ∃ new, tmove c s (match acquireRemoteFetch c s with
    | (Ok _, s) => goto t (THTTP addr options) s | (Err e, s) => finish t (Err e) s | (Panic, s) => finish t Panic s end) t (Some (TAcquire addr options)) new.
Proof.
  intros Ht. unfold acquireRemoteFetch. destruct (decide _).
  - exists None. split; move_rest.
  - eexists (Some _). split; move_rest.
Qed.

Lemma move_release t result options s : rs_threads s !! t = Some (TRelease result options) →
  ∃ new, tmove c s (thread_step_release t result options s) t (Some (TRelease result options)) new.
Proof.
  intros Ht. unfold thread_step_release, releaseRemoteFetch.
  destruct (decide (rs_fetching s > 0)).
  - destruct result as [[[source path] len]|e|]; [eexists (Some _)|exists None..]; split; move_rest. intros _. by apply (Hok _ eq_refl).
  - destruct result as [[[source path] len]|e|]; [eexists (Some _)|exists None..]; split; move_rest. intros _. by apply (Hok _ eq_refl).
Qed.

Lemma move_check t source path size cleanup options s : rs_threads s !! t = Some (TCheck source path size cleanup options) →
  ∃ new, tmove c s (thread_step_check c t source path size cleanup options s) t (Some (TCheck source path size cleanup options)) new.
Proof.
  intros Ht. unfold thread_step_check, checkConcurrentLimit. destruct (decide _) as [|Hlt].
  - destruct (remove_if_rest cleanup path s) as (E1 & E2 & E3). exists None. split; cbn [rs_jobs rs_threads rs_fetching rs_files finish]; rewrite ?E1, ?E2, ?E3; move_rest.
    intros rest. apply remove_if_files.
  - eexists (Some _). split; move_rest; [right; by apply Z.nle_gt|]. split; [by apply (Hok _ eq_refl)|apply normalize_topN].
Qed.

Lemma move_unlink t path s : rs_threads s !! t = Some (TUnlink path) → tmove c s (finish t (Ok ""%string) (remove_file path s)) t (Some (TUnlink path)) None.
Proof. intros Ht. split; move_rest. intros rest. apply elements_remove. Qed.

Lemma move_upload t filename tmp options s : rs_threads s !! t = None → new_file tmp s = true →
  ∃ new, tmove c s (StartUpload t filename tmp options s) t None new.
Proof.
  intros Ht Hn. unfold StartUpload. destruct tmp as [path|]; [|exists None; split; move_rest].
  apply bool_decide_eq_true in Hn as [Hne Hnew]. eexists (Some _). split; move_rest. intros rest Hp. by apply elements_create.
Qed.

Lemma move_fetch t addr options s : rs_threads s !! t = None → ∃ new, tmove c s (startRemoteFetch c t addr options s) t None new.
Proof. intros Ht. unfold startRemoteFetch. destruct (decide _); [exists None|eexists (Some _)]; split; move_rest. Qed.

Lemma move_workspace getwd evalSymlinks t path options stat s : rs_threads s !! t = None → ∃ new, tmove c s (StartWorkspace getwd evalSymlinks c t path options stat s) t None new.
Proof.
  intros Ht. unfold StartWorkspace. destruct (resolveWorkspacePath _ _ _ _) as [[abs rel]|e|]; [|exists None; split; move_rest..].
  destruct stat as [[[] size]|]; [exists None|eexists (Some _)|exists None]; split; move_rest.
Qed.
End moves.

(** * The steps of a job *)
Section jobs.
Context (range_types : gmap bytes RDBAnalysisSummary → list RDBAnalysisSummary) (range_dbs : gmap Z RDBAnalysisSummary → list RDBAnalysisSummary).
Context (compile : bytes → option (bytes → bool)).
Abbreviation report := (report_of range_types range_dbs).
Abbreviation step := (run_step range_types range_dbs compile).

(** the report is that of the objects read *)
Definition analysed (e : rentry) (o : opened) (read : list (RedisObject * Z)) : Prop :=
  ∃ s0 count, newRDBAnalysisSnapshot compile (rj_Options (re_job e)) = Some s0 ∧
    rj_report (re_job e) = report (set_bytesRead count (foldl (on_object (op_now o)) s0 read)).
Definition complete (bad : bool) (e : rentry) : Prop := ∃ o, re_opened e = Some o ∧ op_bad o = bad ∧ analysed e o (op_objects o).
Definition unread (e : rentry) : Prop := re_opened e = None ∧ rj_report (re_job e) = empty_report.
(** nothing was read, or a beginning of the file *)
Definition covers (e : rentry) : Prop := unread e ∨ ∃ o read, re_opened e = Some o ∧ read `prefix_of` op_objects o ∧ analysed e o read.
Definition failed_by (e : rentry) (err : rfail) : Prop :=
  match err with
  | FOpen => unread e
  | FRegex => unread e ∧ newRDBAnalysisSnapshot compile (rj_Options (re_job e)) = None
  | FParse => complete true e
  end.

Definition goroutine_ok (e : rentry) : Prop :=
  match re_pc e with
  | RStart => rj_Status (re_job e) = RQueued ∧ unread e
  | ROpen => rj_Status (re_job e) = RRunning ∧ unread e
  | RParse now snap todo bad => rj_Status (re_job e) = RRunning ∧ ∃ o s0 read, re_opened e = Some o ∧ op_now o = now ∧
      newRDBAnalysisSnapshot compile (rj_Options (re_job e)) = Some s0 ∧ snap = foldl (on_object now) s0 read ∧
      (op_objects o = read ++ todo ∧ bad = op_bad o ∨ re_cancelled e = true ∧ todo = [] ∧ read `prefix_of` op_objects o)
  | RFinish err => rj_Status (re_job e) = RRunning ∧ covers e ∧
      (re_cancelled e = true ∨ match err with None => complete false e | Some err => failed_by e err end)
  | REnd =>
      match rj_Status (re_job e) with
      | RDone => complete false e
      | RError => ∃ err, rj_Error (re_job e) = Some err ∧ failed_by e err
      | RCanceled => re_cancelled e = true ∧ covers e
      | _ => False
      end
  end.
Definition entry_ok (e : rentry) : Prop := (rj_cleanup (re_job e) = true → rj_path (re_job e) ≠ []) ∧ 0 ≤ ro_TopN (rj_Options (re_job e)) ∧ goroutine_ok e.

(** what the steps of a job keep *)
Definition same_job (e e' : rentry) : Prop :=
  rj_ID (re_job e') = rj_ID (re_job e) ∧ rj_path (re_job e') = rj_path (re_job e) ∧ rj_cleanup (re_job e') = rj_cleanup (re_job e) ∧
  rj_Options (re_job e') = rj_Options (re_job e) ∧ re_listed e' = re_listed e ∧
  (in_progress (rj_Status (re_job e')) = true → in_progress (rj_Status (re_job e)) = true).

Lemma complete_covers bad e : complete bad e → covers e.
Proof. intros (o & H1 & H2 & H3). right. exists o, (op_objects o). done. Qed.

Local Ltac same := unfold same_job; cbn; split_and!; try done; try (intros _; match goal with E : rj_Status _ = _ |- _ => by rewrite E end).

Lemma step_ok i e e' : step i e = Some e' → entry_ok e → entry_ok e' ∧ same_job e e'.
Proof.
  intros Hs (H1 & H2 & H3). unfold goroutine_ok in H3. unfold run_step in Hs. destruct (re_pc e) as [| |start snap [|x todo] bad|err|]; [destruct i; try done..|done].
  - injection Hs as <-. destruct H3 as [E H3]. split; [done|same].
  - destruct H3 as [E H3]. destruct file as [[objects bad]|].
    + destruct (newRDBAnalysisSnapshot _ _) as [s0|] eqn:Es; injection Hs as <-.
      * split; [|same]. split_and!; [done|done|]. split; [done|]. exists (mkOpened now objects bad), s0, []. split_and!; try done. by left.
      * split; [|same]. split_and!; [done|done|]. split_and!; [done|by left|by right].
    + injection Hs as <-. split; [|same]. split_and!; [done|done|]. split_and!; [done|by left|by right].
  - destruct H3 as [E (o & s0 & read & O1 & O2 & O3 & O4 & O5)]. injection Hs as <-.
    split; [|same]. split_and!; [done|done|]. split; [done|]. subst snap start.
    set (e' := re_with_job _ _ _). assert (∀ l, l = read → analysed e' o l) as Ha by (intros l ->; exists s0, count; done).
    destruct O5 as [[O5 O6]|[Hc [_ Hpre]]].
    + rewrite app_nil_r in O5. assert (complete (op_bad o) e') as Hco by (exists o; split_and!; [done|done|by apply Ha]).
      split; [by eapply complete_covers|]. destruct (re_cancelled e) eqn:Ec; [by left|]. right. rewrite O6. by destruct (op_bad o).
    + split; [right; exists o, read; split_and!; [done|done|by apply Ha]|]. by left.
  - destruct H3 as [E (o & s0 & read & O1 & O2 & O3 & O4 & O5)]. destruct (re_cancelled e) eqn:Ec.
    + injection Hs as <-. split; [|same]. split_and!; [done|done|]. split; [done|]. exists o, s0, read. split_and!; try done. right. split_and!; [done|done|].
      destruct O5 as [[-> _]|[_ [? _]]]; [by apply prefix_app_r|done].
    + injection Hs as <-. destruct O5 as [[O5 O6]|[? _]]; [|done].
      split; [|destruct (_ && _); same]. split_and!; [by destruct (_ && _)|by destruct (_ && _)|]. split; [by destruct (_ && _)|]. exists o, s0, (read ++ [x]).
      split_and!; [done|done|by destruct (_ && _)|by rewrite foldl_app, O4|]. left. by rewrite <-app_assoc.
  - destruct H3 as (E & Hcov & H3). injection Hs as <-. destruct (re_cancelled e) eqn:Ec.
    + split; [|same]. split_and!; [done|done|]. unfold goroutine_ok. cbn. done.
    + destruct H3 as [?|H3]; [done|]. destruct err as [err|]; (split; [|same]); split_and!; try done. unfold goroutine_ok. cbn. exists err. by destruct err.
Qed.
End jobs.

(** * The invariant *)
Section system.
Context (range_types : gmap bytes RDBAnalysisSummary → list RDBAnalysisSummary) (range_dbs : gmap Z RDBAnalysisSummary → list RDBAnalysisSummary).
Context (range_jobs : gmap string rentry → list rentry) (compile : bytes → option (bytes → bool)) (media_filename : bytes → option bytes).
Context (getwd : option bytes) (evalSymlinks : bytes → option bytes) (c : RDBAnalysisManager).
Hypothesis range_jobs_perm : ∀ m, range_jobs m ≡ₚ (map_to_list m).*2.
Hypothesis maxTopN : 0 ≤ rm_maxTopN c.
Hypothesis maxFetch : 0 ≤ rm_remoteFetchMaxConcurrent c.
Abbreviation ok := (entry_ok range_types range_dbs compile).
Abbreviation exec := (rm_exec range_types range_dbs range_jobs compile media_filename getwd evalSymlinks c).

Record rinv (s : rsys) : Prop := mkRinv {
  v_entries : ∀ id e, rs_jobs s !! id = Some e → rj_ID (re_job e) = id ∧ ok e;
  v_threads : ∀ t th, rs_threads s !! t = Some th → thread_ok th;
  v_files : elements (rs_files s) ≡ₚ owned s;
  v_slots : rs_fetching s = Z.of_nat (length (collect thread_slot (rs_threads s)));
  v_cap : rs_fetching s ≤ rm_remoteFetchMaxConcurrent c;
}.

(** [k] requests at most between the check and the insertion *)
Record rlim (k : Z) (s : rsys) : Prop := mkRlim {
  l_active : active_jobs s + inserting s ≤ rm_maxConcurrent c - 1 + k;
  l_listed : listed_jobs (rs_jobs s) ≤ rm_maxRetained c `max` (rm_maxConcurrent c - 1 + k);
}.

(** ** Requests *)
Lemma collect_thread {B} (f : rthread → list B) (m : gmap nat rthread) t : collect f m ≡ₚ of_thread f (m !! t) ++ collect f (delete t m).
Proof. destruct (m !! t) as [th|] eqn:E; cbn [of_thread]; [by apply collect_at|]. cbn. by rewrite delete_id. Qed.
Lemma collect_set_thread {B} (f : rthread → list B) (m : gmap nat rthread) t new : collect f (set_thread t new m) ≡ₚ of_thread f new ++ collect f (delete t m).
Proof. destruct new; cbn [of_thread set_thread]; [apply collect_set|done]. Qed.

Lemma tmove_inv s s' t old new : tmove c s s' t old new → rinv s → rinv s'.
Proof.
  intros [M1 M2 M3 M4 M5 M6 M7 M8] [V1 V2 V3 V4 V5]. split.
  - rewrite M1. exact V1.
  - intros t' th. rewrite M3. destruct (decide (t' = t)) as [->|Hne].
    + intros Hth. apply M8; [intros th0 ->; by apply (V2 t)|]. destruct new; cbn in Hth; [by rewrite lookup_insert_eq in Hth|by rewrite lookup_delete_eq in Hth].
    + intros Hth. apply (V2 t'). destruct new; cbn in Hth; [by rewrite lookup_insert_ne in Hth|by rewrite lookup_delete_ne in Hth].
  - unfold owned. rewrite M1, M3, collect_set_thread, (Permutation_app_comm (collect entry_files _)), <-app_assoc. apply M4.
    rewrite V3. unfold owned. rewrite (collect_thread thread_files _ t), M2. by rewrite (Permutation_app_comm (collect entry_files _)), <-app_assoc.
  - rewrite M3, collect_set_thread, length_app, Nat2Z.inj_add. apply M5; [lia|]. rewrite V4, (collect_thread thread_slot _ t), M2, length_app. lia.
  - by apply M6.
Qed.

Lemma tmove_lim k s s' t old new : tmove c s s' t old new → rlim k s → inserting s' ≤ k → rlim k s'.
Proof.
  intros [M1 M2 M3 M4 M5 M6 M7 M8] [L1 L2] Hk. assert (active_jobs s' = active_jobs s) as Ha by (unfold active_jobs; by rewrite M1).
  split; [|by rewrite M1]. rewrite Ha. destruct M7 as [M7|M7]; [|lia]. enough (inserting s' ≤ inserting s) by lia.
  unfold inserting. rewrite M3, collect_set_thread, M7, (collect_thread thread_insert (rs_threads s) t), !length_app. cbn [length]. lia.
Qed.

(** ** Jobs *)
Lemma set_job_inv id e e' s : rs_jobs s !! id = Some e → rinv s → ok e' → rj_ID (re_job e') = id → entry_files e' = entry_files e → rinv (set_job_of id e' s).
Proof.
  intros He [V1 V2 V3 V4 V5] Hok Hid Hf. split; [|done|by unfold owned; cbn; rewrite (collect_same _ _ _ e)|done..].
  cbn. intros id' e0. destruct (decide (id' = id)) as [->|]; [rewrite lookup_insert_eq; by intros [= <-]|rewrite lookup_insert_ne by done]. apply V1.
Qed.

Lemma tally_le {B} (f : rentry → list B) id e e' (m : gmap string rentry) : m !! id = Some e → (length (f e') ≤ length (f e))%nat →
  (length (collect f (<[id := e']> m)) ≤ length (collect f m))%nat.
Proof. intros He Hle. rewrite collect_set, (collect_at f m id e), !length_app by done. lia. Qed.

Lemma same_active e e' : same_job e e' → (length (entry_active e') ≤ length (entry_active e))%nat ∧ (length (entry_listed e') ≤ length (entry_listed e))%nat.
Proof.
  intros (_ & _ & _ & _ & El & Hp). unfold entry_active, entry_listed, active_job. rewrite El. split; [|by destruct (re_listed e)].
  destruct (re_listed e); cbn; [|done]. destruct (in_progress (rj_Status (re_job e'))); [by rewrite Hp|]. destruct (in_progress _); cbn; lia.
Qed.

Lemma set_job_lim k id e e' s : rs_jobs s !! id = Some e → (length (entry_active e') ≤ length (entry_active e))%nat → (length (entry_listed e') ≤ length (entry_listed e))%nat →
  rlim k s → rlim k (set_job_of id e' s).
Proof.
  intros He H1 H2 [L1 L2]. apply (tally_le _ id _ _ (rs_jobs s)) in H1, H2; [|done..]. split; unfold active_jobs, inserting, listed_jobs in *; cbn [rs_jobs rs_threads set_job_of set_jobs].
  - lia.
  - fold entry_listed in L2 |- *. lia.
Qed.

Lemma cancel_ok e : ok e → ok (re_cancel e).
Proof.
  intros (H1 & H2 & H3). split_and!; [done|done|]. unfold goroutine_ok in *. cbn. destruct (re_pc e) as [| |start snap todo bad|err|]; [done|done|..].
  - destruct H3 as (E & o & s0 & read & H3). split; [done|]. exists o, s0, read. destruct H3 as (? & ? & ? & ? & [?|(? & ? & ?)]); split_and!; try done; [by left|by right].
  - destruct H3 as (E & Hc & H3). split_and!; [done|done|]. by left.
  - destruct (rj_Status _); try done. by destruct H3.
Qed.
Lemma unlist_ok e : ok e → ok (re_unlist e).
Proof. done. Qed.

(** ** Pruning *)
Lemma drop_state e s : ok e → drop_job e s = remove_if (rj_cleanup (re_job e)) (rj_path (re_job e)) (set_job_of (rj_ID (re_job e)) (re_unlist e) s).
Proof. intros (H1 & _). unfold drop_job. destruct (rj_cleanup _); [|done]. cbn [andb]. by rewrite bool_decide_true by by apply H1. Qed.

Lemma drop_inv e s : rs_jobs s !! rj_ID (re_job e) = Some e → re_listed e = true → rinv s → rinv (drop_job e s).
Proof.
  intros He Hl [V1 V2 V3 V4 V5]. destruct (V1 _ _ He) as [Hid Hok]. rewrite drop_state by done. set (s1 := set_job_of _ _ s).
  destruct (remove_if_rest (rj_cleanup (re_job e)) (rj_path (re_job e)) s1) as (E1 & E2 & E3). split; rewrite ?E1, ?E2, ?E3; cbn; try done.
  - intros id' e0. destruct (decide (id' = rj_ID (re_job e))) as [->|]; [rewrite lookup_insert_eq; by intros [= <-]|rewrite lookup_insert_ne by done]. apply V1.
  - apply remove_if_files. cbn. rewrite V3. unfold owned. rewrite E1, E2. cbn. rewrite collect_set, (collect_at _ (rs_jobs s) _ _ He), <-app_assoc.
    unfold entry_files at 1. by rewrite Hl.
Qed.

Lemma drop_tallies e s : rs_jobs s !! rj_ID (re_job e) = Some e → finished_job e = true → ok e →
  active_jobs (drop_job e s) = active_jobs s ∧ rs_threads (drop_job e s) = rs_threads s ∧
  listed_jobs (rs_jobs (drop_job e s)) = listed_jobs (rs_jobs s) - 1 ∧ rs_jobs (drop_job e s) = <[rj_ID (re_job e) := re_unlist e]> (rs_jobs s).
Proof.
  intros He [Hl Hf]%andb_true_iff Hok. rewrite drop_state by done. set (s1 := set_job_of _ _ s).
  destruct (remove_if_rest (rj_cleanup (re_job e)) (rj_path (re_job e)) s1) as (E1 & E2 & E3). unfold active_jobs, listed_jobs. rewrite E1, E2. cbn.
  split_and!; [|done| |done].
  - rewrite collect_set, (collect_at entry_active (rs_jobs s) _ _ He), !length_app. unfold entry_active at 1 3, active_job. cbn. apply negb_true_iff in Hf. by rewrite Hf, andb_false_r.
  - fold entry_listed. rewrite collect_set, (collect_at entry_listed (rs_jobs s) _ _ He), !length_app. unfold entry_listed at 1 3. rewrite Hl. cbn. lia.
Qed.

Lemma prune_loop_spec max l : ∀ s, rinv s → NoDup ((λ e, rj_ID (re_job e)) <$> l) →
  (∀ e, e ∈ l → rs_jobs s !! rj_ID (re_job e) = Some e ∧ finished_job e = true) →
  let s' := prune_loop max l s in
  rinv s' ∧ active_jobs s' = active_jobs s ∧ rs_threads s' = rs_threads s ∧
  (listed_jobs (rs_jobs s') ≤ max ∨ listed_jobs (rs_jobs s') = listed_jobs (rs_jobs s) - Z.of_nat (length l)).
Proof.
  induction l as [|e l IH]; intros s Hv Hnd Hl; cbn [prune_loop].
  { split_and!; [done..|]. right. cbn. lia. }
  destruct (decide _) as [Hgt|Hle]; [|split_and!; [done..|left; lia]]. cbn in Hnd. apply NoDup_cons in Hnd as [Hni Hnd].
  destruct (Hl e) as [He Hf]; [by constructor|]. destruct (v_entries _ Hv _ _ He) as [_ Hok].
  destruct (drop_tallies e s He Hf Hok) as (T1 & T2 & T3 & T4).
  destruct (IH (drop_job e s)) as (I1 & I2 & I3 & I4); [apply drop_inv; [done| |done]; by apply andb_true_iff in Hf as [? _]|done| |].
  { intros e0 He0. rewrite T4, lookup_insert_ne; [apply Hl; by constructor|]. intros Heq. apply Hni. rewrite Heq. apply list_elem_of_fmap. by exists e0. }
  split_and!; [done|congruence|congruence|]. destruct I4 as [I4|I4]; [by left|]. right. rewrite I4, T3. cbn [length]. lia.
Qed.

Lemma range_facts s : rinv s → let l := SliceStable created_before (filter (λ e, finished_job e = true) (range_jobs (rs_jobs s))) in
  NoDup ((λ e, rj_ID (re_job e)) <$> l) ∧ (∀ e, e ∈ l → rs_jobs s !! rj_ID (re_job e) = Some e ∧ finished_job e = true) ∧
  listed_jobs (rs_jobs s) = active_jobs s + Z.of_nat (length l).
Proof.
  intros Hv. cbn zeta. set (l := SliceStable _ _). assert (l ≡ₚ filter (λ e, finished_job e = true) (map_to_list (rs_jobs s)).*2) as Hl.
  { unfold l. rewrite <-range_jobs_perm. clear. induction (filter _ _) as [|x m IH] using rev_ind; [done|]. rewrite SliceStable_snoc, sort_insert_perm, IH. apply Permutation_cons_append. }
  assert (∀ e, e ∈ (map_to_list (rs_jobs s)).*2 → rs_jobs s !! rj_ID (re_job e) = Some e) as Hin.
  { intros e ([id e0] & -> & He%elem_of_map_to_list)%list_elem_of_fmap. cbn. destruct (v_entries _ Hv _ _ He) as [-> _]. done. }
  split_and!.
  - rewrite Hl. assert ((λ e, rj_ID (re_job e)) <$> (map_to_list (rs_jobs s)).*2 = (map_to_list (rs_jobs s)).*1) as Hids.
    { rewrite <-list_fmap_compose. apply list_fmap_ext. intros i [id e] He. apply list_elem_of_lookup_2, elem_of_map_to_list in He. cbn. by destruct (v_entries _ Hv _ _ He). }
    eapply sublist_NoDup; [apply (NoDup_fst_map_to_list (rs_jobs s))|]. rewrite <-Hids. apply fmap_sublist, sublist_filter.
  - intros e He. rewrite Hl in He. apply list_elem_of_filter in He as [Hf He]. by split; [apply Hin|].
  - rewrite Hl. unfold listed_jobs, active_jobs, collect, entry_active. clear. induction (map_to_list (rs_jobs s)) as [|[id e] m IH]; [done|].
    cbn [mbind list_bind fmap list_fmap snd]. rewrite filter_cons, !length_app. unfold active_job at 1.
    destruct (decide (finished_job e = true)) as [Hf|Hf]; unfold finished_job in Hf; destruct (re_listed e), (in_progress (rj_Status (re_job e))); cbn in Hf |- *; try done; lia.
Qed.

Lemma prune_inv k s : rinv s → rinv (pruneLocked range_jobs c s) ∧
  (active_jobs s + inserting s ≤ rm_maxConcurrent c - 1 + k → rlim k (pruneLocked range_jobs c s)).
Proof.
  intros Hv. destruct (range_facts s Hv) as (F1 & F2 & F3). unfold pruneLocked. destruct (decide _) as [Hle|Hgt].
  - split; [done|]. intros Ha. split; [done|]. lia.
  - destruct (prune_loop_spec (rm_maxRetained c) _ s Hv F1 F2) as (P1 & P2 & P3 & P4). split; [done|]. intros Ha. assert (0 ≤ inserting s) by (unfold inserting; lia).
    split; [unfold inserting; rewrite P2, P3; exact Ha|]. lia.
Qed.

Lemma finish_drop t r e s : finish t r (drop_job e s) = drop_job e (finish t r s).
Proof. unfold drop_job, remove_if. by destruct (_ && _). Qed.
Lemma finish_loop t r max l : ∀ s, finish t r (prune_loop max l s) = prune_loop max l (finish t r s).
Proof.
  induction l as [|e l IH]; intros s; [done|]. cbn [prune_loop]. change (rs_jobs (finish t r s)) with (rs_jobs s).
  destruct (decide _); [|done]. by rewrite IH, finish_drop.
Qed.
Lemma finish_prune t r s : finish t r (pruneLocked range_jobs c s) = pruneLocked range_jobs c (finish t r s).
Proof. unfold pruneLocked. change (rs_jobs (finish t r s)) with (rs_jobs s). destruct (decide _); [done|]. apply finish_loop. Qed.

Lemma insert_entry_inv k t source path size cleanup options id now s : rs_threads s !! t = Some (TInsert source path size cleanup options) → rs_jobs s !! id = None →
  rinv s → let s' := finish t (Ok id) (set_job_of id (mkREntry (new_rdb_job id now source path size cleanup options) RStart false true None) s) in
  rinv s' ∧ (rlim k s → active_jobs s' + inserting s' ≤ rm_maxConcurrent c - 1 + k).
Proof.
  intros Ht Hid [V1 V2 V3 V4 V5]. destruct (V2 _ _ Ht) as [Hp HN]. set (e := mkREntry _ _ _ _ _). cbn zeta. split.
  - split; cbn; [| | | |done].
    + intros id' e0. destruct (decide (id' = id)) as [->|]; [rewrite lookup_insert_eq; by intros [= <-]|rewrite lookup_insert_ne by done]. apply V1.
    + intros t' th Hth. apply lookup_delete_Some in Hth as [_ Hth]. by apply (V2 t').
    + rewrite V3. unfold owned. cbn. rewrite collect_new, (collect_at thread_files _ _ _ Ht) by done. cbn [thread_files].
      rewrite <-app_assoc. rewrite (Permutation_app_comm (collect entry_files _)), <-app_assoc. apply Permutation_app; [done|]. apply Permutation_app_comm.
    + rewrite V4, (collect_at thread_slot _ _ _ Ht). done.
  - intros [L1 L2]. unfold active_jobs, inserting in *. cbn. rewrite collect_new by done. revert L1. rewrite (collect_at thread_insert _ _ _ Ht), !length_app. cbn [length thread_insert]. replace (entry_active e) with [e] by done. cbn [length]. lia.
Qed.

Lemma move_no_id t source path size cleanup options s : rs_threads s !! t = Some (TInsert source path size cleanup options) →
  tmove c s (finish t (Err RNoId) (remove_if cleanup path s)) t (Some (TInsert source path size cleanup options)) None.
Proof.
  intros Ht. destruct (remove_if_rest cleanup path s) as (E1 & E2 & E3). split; cbn [rs_jobs rs_threads rs_fetching rs_files finish]; rewrite ?E1, ?E2, ?E3; try done.
  - intros rest. apply remove_if_files.
  - by left.
Qed.

(** ** Removal *)
Lemma listed_job_Some id s e : listed_job id s = Some e → rs_jobs s !! id = Some e ∧ re_listed e = true.
Proof. unfold listed_job. destruct (rs_jobs s !! id) as [e0|]; [|done]. cbn. destruct (re_listed e0) eqn:El; [|done]. by intros [= <-]. Qed.

Lemma remove_inv k t id s : rs_threads s !! t = None → rinv s → rinv (rdb_Remove t id s).2 ∧ (rlim k s → rlim k (rdb_Remove t id s).2).
Proof.
  intros Ht Hv. unfold rdb_Remove. destruct (listed_job id s) as [e|] eqn:El; [|done]. apply listed_job_Some in El as [He Hl]. pose proof Hv as [V1 V2 V3 V4 V5]. destruct (V1 _ _ He) as [Hid Hok].
  assert (∀ s', rs_jobs s' = rs_jobs (set_job_of id (re_unlist (re_cancel e)) s) → inserting s' = inserting s → rlim k s → rlim k s') as Hlim.
  { intros s' Ej Ei Hk. apply (set_job_lim k id e (re_unlist (re_cancel e))) in Hk as [L1 L2]; [|done|cbn; lia..]. split; [|by rewrite Ej].
    unfold active_jobs in *. rewrite Ej, Ei. exact L1. }
  assert (∀ id' e0, <[id := re_unlist (re_cancel e)]> (rs_jobs s) !! id' = Some e0 → rj_ID (re_job e0) = id' ∧ ok e0) as Hent.
  { intros id' e0. destruct (decide (id' = id)) as [->|]; [rewrite lookup_insert_eq; intros [= <-]; split; [done|by apply unlist_ok, cancel_ok]|rewrite lookup_insert_ne by done; apply V1]. }
  destruct Hok as (Hpath & _). destruct (rj_cleanup (re_job e)) eqn:Ec; cbn [andb snd].
  - rewrite bool_decide_true by by apply Hpath. split; [|apply Hlim; [done|]; unfold inserting; cbn; by rewrite collect_new].
    split; cbn; [exact Hent| | | |done].
    + intros t' th. destruct (decide (t' = t)) as [->|]; [rewrite lookup_insert_eq; intros [= <-]; by apply Hpath|rewrite lookup_insert_ne by done; apply V2].
    + rewrite V3. unfold owned. cbn. rewrite (collect_at entry_files _ _ _ He), collect_set, (collect_new thread_files _ t) by done. unfold entry_files at 1 3. rewrite Hl, Ec. cbn.
      by rewrite Permutation_middle.
    + by rewrite V4, collect_new.
  - split; [|by apply Hlim]. split; cbn; [exact Hent|done| |done|done]. rewrite V3. unfold owned. cbn.
    rewrite (collect_at entry_files _ _ _ He), collect_set. unfold entry_files at 1 3. by rewrite Hl, Ec.
Qed.

Lemma close_inv k s : rinv s → rinv (rdb_Close s) ∧ (rlim k s → rlim k (rdb_Close s)).
Proof.
  intros [V1 V2 V3 V4 V5]. assert (∀ B (f : rentry → list B), (∀ e, f (if re_listed e then re_cancel e else e) = f e) →
    collect f ((λ e, if re_listed e then re_cancel e else e) <$> rs_jobs s) ≡ₚ collect f (rs_jobs s)) as Hc by (intros B f Hf; by apply collect_fmap).
  split; [split; cbn|].
  - intros id e. rewrite lookup_fmap. destruct (rs_jobs s !! id) as [e0|] eqn:E0; [|done]. intros [= <-]. destruct (V1 _ _ E0). destruct (re_listed e0); [|done]. split; [done|by apply cancel_ok].
  - exact V2.
  - rewrite V3. unfold owned. cbn. rewrite (Hc _ entry_files); [done|]. intros e. unfold entry_files. by destruct (re_listed e) eqn:El; cbn; rewrite ?El.
  - done.
  - done.
  - intros [L1 L2]. assert (∀ P : rentry → bool, (∀ e, P (if re_listed e then re_cancel e else e) = P e) →
      length (collect (λ e, if P e then [e] else []) ((λ e, if re_listed e then re_cancel e else e) <$> rs_jobs s)) = length (collect (λ e, if P e then [e] else []) (rs_jobs s))) as Hlen.
    { intros P HP. unfold collect. rewrite map_to_list_fmap. induction (map_to_list (rs_jobs s)) as [|[id e] m IH]; [done|]. cbn. cbn in IH. rewrite !length_app, IH, HP. by destruct (P e). }
    split; unfold active_jobs, listed_jobs, inserting in *; cbn.
    + unfold entry_active. rewrite (Hlen active_job); [exact L1|]. intros e. unfold active_job. by destruct (re_listed e) eqn:El; cbn; rewrite ?El.
    + rewrite (Hlen re_listed); [exact L2|]. intros e. by destruct (re_listed e) eqn:El; cbn; rewrite ?El.
Qed.

(** ** All events *)
Definition keeps (s s' : rsys) : Prop := rinv s → rinv s' ∧ ∀ k, rlim k s → inserting s' ≤ k → rlim k s'.

Lemma keeps_move s s' t old new : tmove c s s' t old new → keeps s s'.
Proof. intros Hm Hv. split; [by eapply tmove_inv|]. intros k Hl Hk. by eapply tmove_lim. Qed.
Lemma keeps_move_ex s s' t old : (∃ new, tmove c s s' t old new) → keeps s s'.
Proof. intros [new Hm]. by eapply keeps_move. Qed.

Lemma keeps_job id e e' s : rs_jobs s !! id = Some e → (ok e → ok e' ∧ same_job e e') → keeps s (set_job_of id e' s).
Proof.
  intros He Hs Hv. destruct (v_entries _ Hv _ _ He) as [Hid Hok]. destruct (Hs Hok) as [Hok' Hsame]. destruct (same_active _ _ Hsame) as [S1 S2].
  pose proof Hsame as (I1 & I2 & I3 & I4 & I5 & I6). split; [|intros k Hl _; by eapply set_job_lim].
  apply (set_job_inv id e); [done..|congruence|]. unfold entry_files. by rewrite I2, I3, I5.
Qed.

Lemma keeps_insert t source path size cleanup options newID now s : rs_threads s !! t = Some (TInsert source path size cleanup options) → new_id newID s = true →
  keeps s (thread_step_insert range_jobs c t source path size cleanup options newID now s).
Proof.
  intros Ht Hid. unfold thread_step_insert. destruct newID as [id|]; [|by eapply keeps_move, move_no_id]. apply bool_decide_eq_true in Hid.
  rewrite finish_prune. intros Hv. split.
  - destruct (insert_entry_inv 0 t source path size cleanup options id now s Ht Hid Hv) as [H1 _]. by apply (prune_inv 0).
  - intros k Hl _. destruct (insert_entry_inv k t source path size cleanup options id now s Ht Hid Hv) as [H1 H2]. apply prune_inv; [done|by apply H2].
Qed.

Lemma exec_keeps ev s s' : exec ev s = Some s' → keeps s s'.
Proof.
  destruct ev as [t path options stat|t filename tmp options|t addr options|t body|t|t rsp tmp|t|t|t newID now|id|t id|t| |id i]; cbn [rm_exec].
  - destruct (bool_decide_reflect (rs_threads s !! t = None)) as [Ht|]; [|done]. intros [= <-]. by eapply keeps_move_ex, move_workspace.
  - destruct (bool_decide_reflect (rs_threads s !! t = None)) as [Ht|]; [|done]. destruct (new_file tmp s) eqn:Hn; [|done]. intros [= <-]. by eapply keeps_move_ex, move_upload.
  - destruct (bool_decide_reflect (rs_threads s !! t = None)) as [Ht|]; [|done]. intros [= <-]. by eapply keeps_move_ex, move_fetch.
  - destruct (rs_threads s !! t) as [[]|] eqn:Ht; try done; intros [= <-]; [by eapply keeps_move_ex, move_copy|by eapply keeps_move_ex, move_fetched].
  - destruct (rs_threads s !! t) as [[]|] eqn:Ht; try done. intros Hs. eapply keeps_move_ex. destruct (move_acquire c t addr options s Ht) as [new Hm]. exists new. revert Hm Hs.
    destruct (acquireRemoteFetch c s) as [[| |] s1]; intros Hm [= <-]; exact Hm.
  - destruct (rs_threads s !! t) as [[]|] eqn:Ht; try done. destruct (new_file tmp s) eqn:Hn; [|done]. intros [= <-]. by eapply keeps_move_ex, move_http.
  - destruct (rs_threads s !! t) as [[]|] eqn:Ht; try done. intros [= <-]. by eapply keeps_move_ex, move_release.
  - destruct (rs_threads s !! t) as [[]|] eqn:Ht; try done. intros [= <-]. by eapply keeps_move_ex, move_check.
  - destruct (rs_threads s !! t) as [[]|] eqn:Ht; try done. destruct (new_id newID s) eqn:Hn; [|done]. intros [= <-]. by apply keeps_insert.
  - intros [= <-]. unfold rdb_Cancel. destruct (listed_job id s) as [e|] eqn:El; [|done]. apply listed_job_Some in El as [He _].
    destruct (in_progress _); [|done]. apply (keeps_job id e); [done|]. intros Hok. split; [by apply cancel_ok|done].
  - destruct (bool_decide_reflect (rs_threads s !! t = None)) as [Ht|]; [|done]. intros [= <-] Hv. split; [by apply (remove_inv 0)|]. intros k Hl _. by apply remove_inv.
  - destruct (rs_threads s !! t) as [[]|] eqn:Ht; try done. intros [= <-]. by eapply keeps_move, move_unlink.
  - intros [= <-] Hv. split; [by apply (close_inv 0)|]. intros k Hl _. by apply close_inv.
  - destruct (rs_jobs s !! id) as [e|] eqn:He; [|done]. cbn [mbind option_bind]. destruct (run_step _ _ _ i e) as [e'|] eqn:Hr; [|done]. intros [= <-].
    apply (keeps_job id e); [done|]. by eapply step_ok.
Qed.

Abbreviation run := (rm_run range_types range_dbs range_jobs compile media_filename getwd evalSymlinks c).

Lemma init_inv : rinv rs_init.
Proof. split; cbn; try done. Qed.

Lemma run_snoc evs ev s : run (evs ++ [ev]) = Some s → ∃ s0, run evs = Some s0 ∧ exec ev s0 = Some s.
Proof. unfold rm_run. rewrite foldl_app. cbn. destruct (foldl _ _ evs) as [s0|]; [|done]. cbn. eauto. Qed.

Lemma run_inv evs s : run evs = Some s → rinv s.
Proof.
  revert s. induction evs as [|ev evs IH] using rev_ind; intros s; [intros [= <-]; apply init_inv|].
  intros (s0 & H1 & H2)%run_snoc. by apply (exec_keeps _ _ _ H2), IH.
Qed.

Lemma run_lim k evs s : 1 ≤ k → 1 ≤ rm_maxConcurrent c → run evs = Some s → (∀ n s', run (take n evs) = Some s' → inserting s' ≤ k) → rlim k s.
Proof.
  intros Hk1 Hm. revert s. induction evs as [|ev evs IH] using rev_ind; intros s.
  - intros [= <-] _. split; [change (active_jobs rs_init + inserting rs_init) with 0|change (listed_jobs (rs_jobs rs_init)) with 0]; lia.
  - intros Hs Hk. pose proof Hs as (s0 & H1 & H2)%run_snoc. apply (exec_keeps _ _ _ H2); [by eapply run_inv| |].
    + apply IH; [done|]. intros n s' Hn. destruct (decide (n ≤ length evs)%nat) as [Hle|Hgt].
      * apply (Hk n). by rewrite take_app_le.
      * apply (Hk (length evs)). rewrite take_app_length. rewrite take_ge in Hn by lia. done.
    + apply (Hk (S (length evs))). rewrite take_ge; [done|]. rewrite length_app. cbn. lia.
Qed.
End system.

(** * Reports *)

(** a list has one entry for each key that [f] summarizes *)
Definition tabulates {K} (f : K → option RDBAnalysisSummary) (l : list RDBAnalysisSummary) : Prop :=
  ∃ ks : list K, NoDup ks ∧ (∀ k, k ∈ ks ↔ is_Some (f k)) ∧ l ≡ₚ omap f ks.
Definition sorted_by {A} (less : A → A → bool) (l : list A) : Prop := StronglySorted (λ a b, less b a = false) l.

Lemma omap_keys {K} `{Countable K} (m : gmap K RDBAnalysisSummary) (l : list (K * RDBAnalysisSummary)) : (∀ x, x ∈ l → m !! x.1 = Some x.2) →
  omap (λ k, m !! k) l.*1 = l.*2.
Proof.
  induction l as [|[k x] l IH]; intros Hl; [done|]. cbn. pose proof (Hl (k, x)) as Hk. cbn in Hk. rewrite Hk by constructor.
  f_equal. apply IH. intros y Hy. apply Hl. by constructor.
Qed.

Lemma tabulates_range {K} `{Countable K} (m : gmap K RDBAnalysisSummary) f l : (∀ k, m !! k = f k) → l ≡ₚ (map_to_list m).*2 → tabulates f l.
Proof.
  intros Hf Hl. exists (map_to_list m).*1. split_and!.
  - apply NoDup_fst_map_to_list.
  - intros k. rewrite <-Hf, list_elem_of_fmap. split.
    + intros ([k' x] & -> & Hx%elem_of_map_to_list). by exists x.
    + intros [x Hx]. exists (k, x). split; [done|by apply elem_of_map_to_list].
  - rewrite Hl, <-(omap_keys m); [|intros [k x]; by rewrite elem_of_map_to_list].
    apply reflexive_eq, list_omap_ext. apply Forall2_same_length_lookup. split; [done|]. intros i x y Hx Hy. rewrite Hf. congruence.
Qed.

(** the report on the objects [os] *)
Record reports (opts : RDBAnalysisOptions) (os : list RedisObject) (r : RDBReport) : Prop := mkReports {
  rp_objects : rr_ObjectsRead r = i64 (Z.of_nat (length os));
  rp_total : rr_TotalSize r = i64 (sizes os);
  rp_dbs : rr_DBCount r = Z.of_nat (size (list_to_set (rb_db <$> os) : gset Z));
  rp_types : tabulates (λ t, summarize t (λ _, 0) (filter (λ o, rb_type o = t) os)) (rr_TypeSummary r) ∧ sorted_by summary_less (rr_TypeSummary r);
  rp_dbStats : tabulates (λ d, summarize (db_name d) rb_db (filter (λ o, rb_db o = d) os)) (rr_DBSummary r) ∧ sorted_by by_db (rr_DBSummary r);
  rp_prefixes : ∃ all, tabulates (λ p, summarize p rb_db (below opts p os)) all ∧ sorted_by summary_less all ∧ rr_PrefixSummary r = take (Z.to_nat (ro_TopN opts)) all;
  rp_big : rr_TopBigKeys r = take (Z.to_nat (ro_TopN opts)) (SliceStable bigger ((λ o, newRDBAnalysisKeyEntry o 0) <$> os));
  rp_hot : rr_TopHotKeys r = take (Z.to_nat (ro_TopN opts)) (SliceStable hotter (omap hot_entry os));
  rp_flame : ∃ root, rr_FlameGraph r = Some (export root) ∧ ∀ q, flame_at q root = node_value opts q os;
}.

Section reports.
Context (range_types : gmap bytes RDBAnalysisSummary → list RDBAnalysisSummary) (range_dbs : gmap Z RDBAnalysisSummary → list RDBAnalysisSummary).
Hypothesis range_types_perm : ∀ m, range_types m ≡ₚ (map_to_list m).*2.
Hypothesis range_dbs_perm : ∀ m, range_dbs m ≡ₚ (map_to_list m).*2.

Lemma report_stats opts regex os snap : 0 ≤ ro_TopN opts → stats opts regex os snap → reports opts os (report_of range_types range_dbs snap).
Proof.
  intros HN [E1 E2 E3 E4 E5 E6 E7 E8 E9 E10 E11]. split; cbn; try done.
  - by rewrite E5.
  - split; [eapply tabulates_range; [exact E6|]; unfold typeSummary; rewrite (proj2 (SliceStable_sorted summary_less _)); apply range_types_perm|].
    apply (SliceStable_sorted summary_less).
  - split; [eapply tabulates_range; [exact E7|]; unfold dbSummary; rewrite (proj2 (SliceStable_sorted by_db _)); apply range_dbs_perm|].
    apply (SliceStable_sorted by_db).
  - exists (SliceStable summary_less (range_types (sn_prefixStats snap))). split_and!.
    + eapply tabulates_range; [exact E8|]. rewrite (proj2 (SliceStable_sorted summary_less _)). apply range_types_perm.
    + apply (SliceStable_sorted summary_less).
    + unfold prefixSummary. rewrite E1. destruct (decide _); [done|]. symmetry. apply take_ge. lia.
  - exists (sn_flameRoot snap). done.
Qed.
End reports.

(** * What the manager promises *)
Section promises.
Context (range_types : gmap bytes RDBAnalysisSummary → list RDBAnalysisSummary) (range_dbs : gmap Z RDBAnalysisSummary → list RDBAnalysisSummary).
Context (range_jobs : gmap string rentry → list rentry) (compile : bytes → option (bytes → bool)) (media_filename : bytes → option bytes).
Context (getwd : option bytes) (evalSymlinks : bytes → option bytes).
(** a loop over a map visits each entry once *)
Hypothesis range_types_perm : ∀ m, range_types m ≡ₚ (map_to_list m).*2.
Hypothesis range_dbs_perm : ∀ m, range_dbs m ≡ₚ (map_to_list m).*2.
Hypothesis range_jobs_perm : ∀ m, range_jobs m ≡ₚ (map_to_list m).*2.
(** any configuration *)
Context (tempDir workspace : bytes) (maxUpload maxConcurrent maxRetained maxTopN : Z) (auth : bytes) (timeout fetches : Z).
Abbreviation c := (NewRDBAnalysisManager getwd tempDir workspace maxUpload maxConcurrent maxRetained maxTopN auth timeout fetches).
Abbreviation run := (rm_run range_types range_dbs range_jobs compile media_filename getwd evalSymlinks c).

Lemma or_default_pos n d : 0 < d → 0 < or_default n d.
Proof. unfold or_default. destruct (decide _); lia. Qed.

Lemma config_pos : 0 ≤ rm_maxTopN c ∧ 0 ≤ rm_remoteFetchMaxConcurrent c ∧ 1 ≤ rm_maxConcurrent c.
Proof. cbn. pose proof (or_default_pos maxTopN 100). pose proof (or_default_pos fetches 1). pose proof (or_default_pos maxConcurrent 1). lia. Qed.

Lemma analysed_reports e o read : analysed range_types range_dbs compile e o read → 0 ≤ ro_TopN (rj_Options (re_job e)) →
  ∃ s0, newRDBAnalysisSnapshot compile (rj_Options (re_job e)) = Some s0 ∧
    reports (rj_Options (re_job e)) (filter (λ x, counted (rj_Options (re_job e)) (sn_regex s0) (op_now o) x = true) read.*1) (rj_report (re_job e)).
Proof.
  intros (s0 & count & Hs & Hr) HN. exists s0. split; [done|]. rewrite Hr. apply (report_stats _ _ range_types_perm range_dbs_perm _ (sn_regex s0)); [done|].
  pose proof (analysis_correct compile (rj_Options (re_job e)) (op_now o) read s0 HN Hs) as Ha. by destruct Ha.
Qed.

(** C27: what a client is shown of a job is true, after any run of requests, downloads and
    goroutines: a job shown as done has read its whole file and reports the keys in it that
    match its expression and are not expired; a canceled one reports a beginning of the
    file, or nothing; a failed one names its error. *)
Theorem rdb_report_true evs s id j : run evs = Some s → rdb_Get id s = Ok j →
  match rj_Status j with
  | RDone => ∃ e o s0, rs_jobs s !! id = Some e ∧ re_opened e = Some o ∧ op_bad o = false ∧ newRDBAnalysisSnapshot compile (rj_Options j) = Some s0 ∧
      reports (rj_Options j) (filter (λ x, counted (rj_Options j) (sn_regex s0) (op_now o) x = true) (op_objects o).*1) (rj_report j)
  | RCanceled => rj_report j = empty_report ∨ ∃ e o s0 read, rs_jobs s !! id = Some e ∧ re_opened e = Some o ∧ read `prefix_of` op_objects o ∧
      newRDBAnalysisSnapshot compile (rj_Options j) = Some s0 ∧
      reports (rj_Options j) (filter (λ x, counted (rj_Options j) (sn_regex s0) (op_now o) x = true) read.*1) (rj_report j)
  | RError => is_Some (rj_Error j)
  | RQueued => rj_report j = empty_report
  | RRunning => True
  end.
Proof.
  destruct config_pos as (HN & HF & _). intros Hrun Hget. unfold rdb_Get in Hget. destruct (listed_job id s) as [e|] eqn:El; [|done]. injection Hget as <-.
  apply listed_job_Some in El as [He _]. pose proof (run_inv _ _ _ _ _ _ _ _ range_jobs_perm HN HF _ _ Hrun) as Hv. destruct (v_entries _ _ _ _ _ Hv _ _ He) as [_ (_ & HTop & Hok)].
  cbn [rj_Status rj_Snapshot rj_Options rj_report rj_Error]. unfold goroutine_ok in Hok. destruct (rj_Status (re_job e)) eqn:Est.
  - destruct (re_pc e); [|by destruct Hok..|done]. by destruct Hok as (_ & _ & ?).
  - done.
  - destruct (re_pc e); [by destruct Hok..|]. destruct Hok as (o & O1 & O2 & O3). apply analysed_reports in O3 as (s0 & S1 & S2); [|done]. exists e, o, s0. done.
  - destruct (re_pc e); [by destruct Hok..|]. destruct Hok as (err & -> & _). done.
  - destruct (re_pc e); [by destruct Hok..|]. destruct Hok as (_ & [[_ ?]|(o & read & O1 & O2 & O3)]); [by left|]. right.
    apply analysed_reports in O3 as (s0 & S1 & S2); [|done]. exists e, o, s0, read. done.
Qed.

(** after any run, each temporary file has exactly one owner, a request in progress or a
    job in the list, so that none is left behind; downloads never exceed their limit; and
    where at most [k] requests are ever between the check of the number of jobs and the
    insertion, at most [k - 1] jobs more than allowed are in progress, and no more jobs are
    kept than the limit, or than there are in progress. *)
Theorem rdb_accounted k evs s : 1 ≤ k → run evs = Some s → (∀ n s', run (take n evs) = Some s' → inserting s' ≤ k) →
  NoDup (owned s) ∧ (∀ p, p ∈ rs_files s ↔ p ∈ owned s) ∧
  rs_fetching s = Z.of_nat (length (collect thread_slot (rs_threads s))) ∧ rs_fetching s ≤ rm_remoteFetchMaxConcurrent c ∧
  active_jobs s ≤ rm_maxConcurrent c + (k - 1) ∧ listed_jobs (rs_jobs s) ≤ rm_maxRetained c `max` (rm_maxConcurrent c + (k - 1)).
Proof.
  destruct config_pos as (HN & HF & HC). intros Hk Hrun Hins. destruct (run_inv _ _ _ _ _ _ _ _ range_jobs_perm HN HF _ _ Hrun) as [_ _ V3 V4 V5].
  destruct (run_lim _ _ _ _ _ _ _ _ range_jobs_perm HN HF k _ _ Hk HC Hrun Hins) as [L1 L2]. assert (0 ≤ inserting s) by (unfold inserting; lia).
  split_and!; [rewrite <-V3; apply NoDup_elements|intros p; by rewrite <-V3, elem_of_elements|done|done|lia|lia].
Qed.
End promises.

(** * Runs *)
Section demo.
Abbreviation demo_range := (λ m, (map_to_list m).*2).
Definition demo_manager : RDBAnalysisManager := NewRDBAnalysisManager (Some (bstr "/home")) (bstr "/tmp") (bstr "/data") 0 0 0 0 (bstr "secret") 0 0.
Definition demo_run (evs : list revent) : option rsys :=
  rm_run demo_range demo_range demo_range (λ _, None) (λ _, None) (Some (bstr "/home")) (λ _, None) demo_manager evs.

Definition demo_options : RDBAnalysisOptions := mkOptions 1 [] 0 [] false.
Definition demo_objects : list (RedisObject * Z) :=
  [(mkObject (bstr "a:1") 0 (bstr "string") 10 None 1 [] (Some 3), 20); (mkObject (bstr "b") 0 (bstr "string") 30 None 1 [] None, 60);
   (mkObject (bstr "old") 1 (bstr "list") 99 (Some 5) 1 [] None, 160); (mkObject (bstr "a:2") 2 (bstr "list") 20 (Some 500) 4 [] (Some 7), 190)].

(** an upload, its analysis, and a client that looks at it *)
Definition demo_start (t : nat) (tmp : bytes) : list revent := [EvUpload t (bstr "dir/dump.rdb") (Some tmp) demo_options; EvCopied t (Some 200)].
Definition demo_job : list revent :=
  demo_start 1 (bstr "/t/1") ++ [EvCheck 1; EvInsert 1 (Some "j1"%string) 100; EvRun "j1" (IStart 101); EvRun "j1" (IOpen (Some (demo_objects, false)) 102);
    EvRun "j1" (IObject 103); EvRun "j1" (IObject 104); EvRun "j1" (IObject 105); EvRun "j1" (IObject 106); EvRun "j1" (IParsed 200 107); EvRun "j1" (IEnd 108)].

Definition demo_view (s : rsys) : option (rstatus * (Z * Z * Z) * list bytes * list bytes) :=
  match rdb_Get "j1" s with
  | Ok j => let r := rj_report j in Some (rj_Status j, (rr_ObjectsRead r, rr_TotalSize r, rr_DBCount r), ke_Key <$> rr_TopBigKeys r, rs_Name <$> rr_PrefixSummary r)
  | _ => None
  end.

Lemma demo_shown : (s ← demo_run demo_job; demo_view s) = Some (RDone, (3, 60, 2), [bstr "b"], [bstr "db2:a:*"]).
Proof. vm_compute. reflexivity. Qed.

Lemma rdb_report_true_witness : ∃ s j e o s0, demo_run demo_job = Some s ∧ rdb_Get "j1" s = Ok j ∧ rj_Status j = RDone ∧
  rs_jobs s !! "j1"%string = Some e ∧ re_opened e = Some o ∧ op_bad o = false ∧
  reports (rj_Options j) (filter (λ x, counted (rj_Options j) (sn_regex s0) (op_now o) x = true) (op_objects o).*1) (rj_report j).
Proof.
  pose proof demo_shown as Hd. destruct (demo_run demo_job) as [s|] eqn:Es; [|discriminate Hd]. cbn [mbind option_bind] in Hd. unfold demo_view in Hd.
  destruct (rdb_Get "j1" s) as [j| |] eqn:Ej; [|discriminate Hd..]. injection Hd as Hst _ _ _ _ _.
  pose proof (rdb_report_true demo_range demo_range demo_range (λ _, None) (λ _, None) (Some (bstr "/home")) (λ _, None)
    (λ m, reflexivity _) (λ m, reflexivity _) (λ m, reflexivity _) (bstr "/tmp") (bstr "/data") 0 0 0 0 (bstr "secret") 0 0 demo_job s "j1" j Es Ej) as Ht.
  rewrite Hst in Ht. destruct Ht as (e & o & s0 & H1 & H2 & H3 & _ & H4). exists s, j, e, o, s0. split_and!; [reflexivity|exact Ej|exact Hst|exact H1|exact H2|exact H3|exact H4].
Defined.

(** two requests check the number of jobs before either inserts its own: two jobs run where
    one is allowed *)
Lemma limit_exceeded : rm_maxConcurrent demo_manager = 1 ∧
  active_jobs <$> demo_run (demo_start 1 (bstr "/t/1") ++ demo_start 2 (bstr "/t/2") ++
    [EvCheck 1; EvCheck 2; EvInsert 1 (Some "j1"%string) 100; EvInsert 2 (Some "j2"%string) 101]) = Some 2.
Proof. split; vm_compute; reflexivity. Qed.

(** a second upload is refused and its file deleted; the first is removed, its file too *)
Definition demo_two : list revent :=
  demo_start 1 (bstr "/t/1") ++ [EvCheck 1; EvInsert 1 (Some "j1"%string) 100] ++ demo_start 2 (bstr "/t/2") ++ [EvCheck 2; EvRemove 3 "j1"].

Lemma rdb_accounted_witness : ∃ s, demo_run demo_two = Some s ∧ (bool_decide (owned s = [bstr "/t/1"]), rs_answers s) = (true, [(1%nat, Ok "j1"%string); (2%nat, Err RTooMany)]) ∧
  (∀ p, p ∈ rs_files s ↔ p ∈ owned s) ∧ active_jobs s ≤ 1.
Proof.
  assert (match demo_run demo_two with Some s => Some (bool_decide (owned s = [bstr "/t/1"]), rs_answers s) | None => None end =
    Some (true, [(1%nat, Ok "j1"%string); (2%nat, Err RTooMany)])) as Hd by (vm_compute; reflexivity).
  destruct (demo_run demo_two) as [s|] eqn:Es; [|discriminate Hd]. injection Hd as Hd1 Hd2. exists s.
  assert (forallb (λ n, match demo_run (take n demo_two) with Some s => inserting s <=? 1 | None => false end) (seq 0 9) = true) as Hins by (vm_compute; reflexivity).
  destruct (rdb_accounted demo_range demo_range demo_range (λ _, None) (λ _, None) (Some (bstr "/home")) (λ _, None)
    (λ m, reflexivity _) (bstr "/tmp") (bstr "/data") 0 0 0 0 (bstr "secret") 0 0 1 demo_two s ltac:(lia) Es) as (_ & H1 & _ & _ & H2 & _).
  - intros n s' Hn. assert (∃ m, (m < 9)%nat ∧ take n demo_two = take m demo_two) as (m & Hm & Htake).
    { exists (Nat.min n 8). split; [lia|]. destruct (decide (n ≤ 8)%nat); [by rewrite Nat.min_l by lia|]. rewrite Nat.min_r by lia. by rewrite !take_ge by (cbn; lia). }
    rewrite Htake in Hn. rewrite forallb_forall in Hins. specialize (Hins m). rewrite in_seq in Hins. assert (demo_run (take m demo_two) = Some s') as Hm' by exact Hn.
    rewrite Hm' in Hins. apply Z.leb_le, Hins. lia.
  - split_and!; [reflexivity|by rewrite Hd1, Hd2|exact H1|]. exact H2.
Defined.
End demo.
