(* ===== verification/RdbApi.v ===== *)
(** The handlers of the analysis of RDB files (pkg/topom/topom_rdb_analysis_api.go) and the
    check of the server a file is fetched from (topom_rdb_analysis_remote_fetch.go).

    A handler that passes its guards starts a request of RdbManager; the dashboard
    downloads only from servers of the groups of its own product. *)

From S2P Require Import Prelude Bufio Resp Mapper Models TopomContext TopomState TopomCache TopomFrame.
From S2P Require Import TopomProxy TopomGroup TopomInv TopomRules TopomRebalance TopomSafety TopomTheorems TopomFunctional.
From S2P Require Import Router Stream Forward SessionState ClusterNodes TopomACL PitrFiles PitrRun PitrTheorems BroadcastTheorems RdbAnalysis RdbPaths RdbManager.
(** * The server *)

(** [strings.ContainsAny] *)
Definition ContainsAny (b chars : bytes) : bool := existsb (λ x, bool_decide (x ∈ chars)) b.
Definition trim_string (s : string) : string := string_of_bytes (trim_space (bstr s)).

Inductive fetch_error := FetchMissing | FetchInvalid (addr : string) | FetchNotInProduct (addr : string).

Section verify.
Context `{Env} `{TopomState.Config} `{UnicodeUpper}.

Definition verifyRDBAnalysisRemoteFetchServer (addr : string) : T (outcome fetch_error string) :=
  let addr := trim_string addr in
  if decide (addr = "") then mret (Err FetchMissing)
  else if Contains (bstr addr) (bstr "://") || ContainsAny (bstr addr) (bstr "/?#") then mret (Err (FetchInvalid addr))
  else
    ctx ← newContext;
    gs ← range_groups ctx;
    mret (match getGroupByServer gs addr with Ok _ => Ok addr | _ => Err (FetchNotInProduct addr) end).

Lemma Contains_any b chars : ContainsAny b chars = false → ∀ x, x ∈ b → x ∉ chars.
Proof.
  unfold ContainsAny. intros Hc x Hx Hin. assert (existsb (λ x, bool_decide (x ∈ chars)) b = true) as Ht; [|congruence].
  apply existsb_exists. exists x. split; [by apply list_elem_of_In|by apply bool_decide_eq_true].
Qed.

Context `{!EnvLaws}.

(** The dashboard fetches a file only from a server that is in a group of its own
    product at that moment; the address holds no path, query or fragment that would make
    the request another one; and the check changes nothing in the store. *)
Theorem remote_fetch_confined addr w : coh [] w → wp (verifyRDBAnalysisRemoteFetchServer addr) (λ r w', w_db w' = w_db w ∧ coh [] w' ∧
  ∀ target, r = Ok (Ok target) → target = trim_string addr ∧ (∀ x, x ∈ bstr target → x ∉ bstr "/?#") ∧
    ∃ gid g x, db_group (w_db w) !! gid = Some g ∧ x ∈ g_Servers g ∧ gs_Addr x = target) w.
Proof.
  intros Hc. unfold verifyRDBAnalysisRemoteFetchServer. destruct (decide _); [done|].
  destruct (Contains _ _ || ContainsAny _ _) eqn:Hany; [done|]. apply orb_false_iff in Hany as [_ Hany].
  apply wp_bind, newContext_wp; [done|..].
  - intros w1 Hc1 (Hdb & _) _ _ _. unfold range_groups. apply wp_bind, wp_bind, wp_next_tick. cbn. unfold wp. cbn.
    set (gs := omap _ (env_range _ _)). split; [done|]. split; [done|]. intros target. destruct (getGroupByServer gs (trim_string addr)) as [[g i]|e|] eqn:Hg; [|done..].
    intros [= <-]. split; [done|]. split; [by apply Contains_any|]. destruct (getGroupByServer_Ok gs _ g i Hg) as [Hin (x & Hi & Hx & Ha)].
    subst gs. apply list_elem_of_omap in Hin as (gid & _ & Hin). exists gid, g, x. split_and!; [exact Hin|by eapply list_elem_of_lookup_2|done].
  - intros e w1 Hc1 (Hdb & _). split; [done|]. split; [done|]. done.
Qed.
End verify.

(** * Handlers *)
Inductive api_error := AXAuth | ANotInitialized | ADisabled | ANoAuth | ABadRequest | AServer (e : fetch_error).

(** [parseRDBAnalysisOptionsFromRequest]; [form] is [req.FormValue], [unmarshal] reads the
    JSON of options *)
Definition parseRDBAnalysisOptionsFromRequest (unmarshal : bytes → option RDBAnalysisOptions) (form : string → bytes) : outcome api_error RDBAnalysisOptions :=
  let text := form "options"%string in
  if decide (text ≠ []) then match unmarshal text with Some o => Ok o | None => Err ABadRequest end
  else Ok (mkOptions (parseRDBAnalysisInt (form "top_n"%string)) (splitRDBAnalysisSeparators (form "prefix_separators"%string))
             (parseRDBAnalysisInt (form "max_depth"%string)) (form "regex"%string) (parseRDBAnalysisBool (form "include_expired"%string))).

(** the guards of every handler: [verifyXAuth], and that there is a manager *)
Definition guarded_by {A} (xauth initialized : bool) (r : outcome api_error A) : outcome api_error A :=
  if negb xauth then Err AXAuth else if negb initialized then Err ANotInitialized else r.

(** the multipart form of an upload: [None] when it does not parse, or the body exceeds the
    limit of [http.MaxBytesReader], one byte more than that of the file *)
Definition RDBAnalysisUpload (xauth initialized : bool) (c : RDBAnalysisManager) (unmarshal : bytes → option RDBAnalysisOptions) (body_length : Z)
    (parsed : option ((string → bytes) * option bytes)) (t : nat) (tmp : option bytes) : outcome api_error revent :=
  guarded_by xauth initialized
    (if decide (body_length > 0 `max` i64 (rm_maxUpload c + 1)) then Err ABadRequest
     else match parsed with
     | None | Some (_, None) => Err ABadRequest
     | Some (form, Some filename) =>
         match parseRDBAnalysisOptionsFromRequest unmarshal form with
         | Ok options => Ok (EvUpload t filename tmp options)
         | Err e => Err e
         | Panic => Panic
         end
     end).

Definition RDBAnalysisStart (xauth initialized : bool) (request : option (bytes * RDBAnalysisOptions)) (t : nat) (stat : option (bool * Z)) : outcome api_error revent :=
  guarded_by xauth initialized (match request with Some (path, options) => Ok (EvWorkspace t path options stat) | None => Err ABadRequest end).

(** [verified] is the answer of [verifyRDBAnalysisRemoteFetchServer] *)
Definition RDBAnalysisRemoteFetch (xauth initialized enabled : bool) (c : RDBAnalysisManager) (request : option (string * RDBAnalysisOptions))
    (verified : string → outcome fetch_error string) (t : nat) : outcome api_error revent :=
  guarded_by xauth initialized
    (if negb enabled then Err ADisabled
     else if decide (rm_remoteFetchAuth c = []) then Err ANoAuth
     else match request with
     | None => Err ABadRequest
     | Some (addr, options) =>
         match verified addr with
         | Ok addr => Ok (EvFetch t (bstr addr) options)
         | Err e => Err (AServer e)
         | Panic => Panic
         end
     end).

Definition RDBAnalysisCancel (xauth initialized : bool) (id : string) : outcome api_error revent := guarded_by xauth initialized (Ok (EvCancel id)).
Definition RDBAnalysisRemove (xauth initialized : bool) (id : string) (t : nat) : outcome api_error revent := guarded_by xauth initialized (Ok (EvRemove t id)).

Lemma remote_fetch_confined_witness :
  (@verifyRDBAnalysisRemoteFetchServer calm demo_config demo_upper " a:2 " w_online).1 = Ok (Ok "a:2"%string) ∧
  (@verifyRDBAnalysisRemoteFetchServer calm demo_config demo_upper "evil:80/a:2" w_online).1 = Ok (Err (FetchInvalid "evil:80/a:2")) ∧
  wp (@verifyRDBAnalysisRemoteFetchServer calm demo_config demo_upper " a:2 ") (λ r w', w_db w' = w_db w_online ∧ coh [] w' ∧
    ∀ target, r = Ok (Ok target) → target = trim_string " a:2 " ∧ (∀ x, x ∈ bstr target → x ∉ bstr "/?#") ∧
    ∃ gid g x, db_group (w_db w_online) !! gid = Some g ∧ x ∈ g_Servers g ∧ gs_Addr x = target) w_online.
Proof.
  split; [by vm_compute|split; [by vm_compute|]].
  exact (@remote_fetch_confined calm demo_config demo_upper calm_laws " a:2 " w_online w_online_coh).
Defined.
