(* ===== verification/RedisClient.v ===== *)
(** The client of the Redis servers and sentinels (pkg/utils/redis/client.go, reply.go):
    replies, a client with its pipeline, and what it keeps.

    go-redis is third-party code.  A command that was executed has a result ([cresult]);
    the class [RedisEnd] gives the results of the commands sent together, and the time.
    A method called on a client without a connection dereferences nil, which is a panic. *)

From S2P Require Import Prelude Bufio Resp Mapper Models TopomContext TopomState TopomProxy TopomGroup.
From S2P Require Import Router Stream Forward SessionState ClusterNodes TopomACL PitrFiles BackendConn.
(** * Replies *)

(** what go-redis makes of a reply: a string, an integer, nil, a list, or an error in it *)
Inductive rvalue :=
| VNil
| VStr (s : bytes)
| VInt (n : Z)
| VErr (msg : bytes)
| VList (l : list rvalue).

Inductive cerror :=
| ECmd (msg : bytes)          (** an error reply *)
| EIO                         (** the connection failed *)
| EInvalid                    (** "invalid response" *)
| EPending | ENoPending       (** misuse of a pipeline *)
| EIdentity | EClosedPool | EAddr.

Definition replyString (r : rvalue) : outcome cerror bytes :=
  match r with VErr m => Err (ECmd m) | VStr s => Ok s | _ => Err EInvalid end.

Definition replyInt (r : rvalue) : outcome cerror Z :=
  match r with
  | VErr m => Err (ECmd m)
  | VInt n => Ok n
  | VStr s => match ParseInt s with Ok n => Ok n | _ => Err EInvalid end
  | _ => Err EInvalid
  end.

Definition replyValues (r : rvalue) : outcome cerror (list rvalue) :=
  match r with VErr m => Err (ECmd m) | VList l => Ok l | _ => Err EInvalid end.

(** [f] of each value, the first error ending the loop *)
Fixpoint each_value {A B} (f : A → outcome cerror B) (l : list A) : outcome cerror (list B) :=
  match l with
  | [] => Ok []
  | x :: l => y ← f x; ys ← each_value f l; Ok (y :: ys)
  end.
Definition replyStrings (r : rvalue) : outcome cerror (list bytes) := l ← replyValues r; each_value replyString l.
Definition replyInts (r : rvalue) : outcome cerror (list Z) := l ← replyValues r; each_value replyInt l.

Fixpoint string_pairs (l : list rvalue) (m : gmap bytes bytes) : outcome cerror (gmap bytes bytes) :=
  match l with
  | k :: v :: l => key ← replyString k; value ← replyString v; string_pairs l (<[key := value]> m)
  | _ => Ok m
  end.
Definition replyStringMap (r : rvalue) : outcome cerror (gmap bytes bytes) :=
  l ← replyValues r; if decide (length l `mod` 2 ≠ 0)%nat then Err EInvalid else string_pairs l ∅.

(** * The client *)
Definition command : Type := list bytes.
(** the result of a command: a value, nil, an error reply, or an error of the connection *)
Inductive cresult := CVal (v : rvalue) | CNil | CErr (msg : bytes) | CIO.

Record pipeline := mkPipe { pl_cmds : list command; pl_results : list cresult; pl_recv : nat; pl_flushed : bool }.

(** [cl_open]: there is a connection; the counters are those of [Pipeline] *)
Record Client := mkClient {
  cl_open : bool; cl_broken : bool; cl_pipe : option pipeline; cl_Addr : string; cl_AuthIdentity : RedisAuthIdentity;
  cl_Database : Z; cl_LastUse : Z; cl_Timeout : Z; cl_Send : nat; cl_Recv : nat }.

Definition cl_set_pipe (p : option pipeline) (c : Client) : Client :=
  mkClient (cl_open c) (cl_broken c) p (cl_Addr c) (cl_AuthIdentity c) (cl_Database c) (cl_LastUse c) (cl_Timeout c) (cl_Send c) (cl_Recv c).
Definition cl_touch (now : Z) (c : Client) : Client :=
  mkClient (cl_open c) (cl_broken c) (cl_pipe c) (cl_Addr c) (cl_AuthIdentity c) (cl_Database c) now (cl_Timeout c) (cl_Send c) (cl_Recv c).
Definition cl_count (send recv : nat) (c : Client) : Client :=
  mkClient (cl_open c) (cl_broken c) (cl_pipe c) (cl_Addr c) (cl_AuthIdentity c) (cl_Database c) (cl_LastUse c) (cl_Timeout c) (cl_Send c + send) (cl_Recv c + recv).
Definition cl_set_database (db : Z) (c : Client) : Client :=
  mkClient (cl_open c) (cl_broken c) (cl_pipe c) (cl_Addr c) (cl_AuthIdentity c) db (cl_LastUse c) (cl_Timeout c) (cl_Send c) (cl_Recv c).

Definition client_Close (c : Client) : Client :=
  mkClient false true (cl_pipe c) (cl_Addr c) (cl_AuthIdentity c) (cl_Database c) (cl_LastUse c) (cl_Timeout c) (cl_Send c) (cl_Recv c).

Definition isRecyclable (now : Z) (c : Client) : bool :=
  if cl_broken c || negb (cl_open c) then false
  else if decide (cl_Send c ≠ cl_Recv c) then false
  else if decide (cl_Timeout c ≠ 0 ∧ cl_Timeout c ≤ now - cl_LastUse c) then false
  else true.

(** ** The other end *)
Class RedisEnd := {
  rd_answer : nat → list command → list cresult;   (** the results of commands sent together *)
  rd_time : nat → Z;                               (** [time.Now()] *)
}.

(** a client at work: how often the other end was asked, and what was executed *)
Record cworld := mkCW { cw_client : Client; cw_tick : nat; cw_log : list (command * cresult) }.
Abbreviation CM := (M cworld cerror).

Section client.
Context `{RedisEnd}.

Definition set_client (f : Client → Client) : CM unit := modify (λ w, mkCW (f (cw_client w)) (cw_tick w) (cw_log w)).
Definition get_client : CM Client := gets cw_client.
Definition now : CM Z := λ w, (Ok (rd_time (cw_tick w)), mkCW (cw_client w) (S (cw_tick w)) (cw_log w)).

(** sends commands and reads a result for each; nothing comes through a closed connection *)
Definition results_of (w : cworld) (cmds : list command) : list cresult :=
  let n := length cmds in
  if cl_open (cw_client w) then take n (rd_answer (cw_tick w) cmds ++ replicate n CIO) else replicate n CIO.
Definition ask (cmds : list command) : CM (list cresult) := λ w,
  let rs := results_of w cmds in
  (Ok rs, mkCW (cw_client w) (S (cw_tick w)) (cw_log w ++ zip cmds rs)).

Definition touch : CM unit := t ← now; set_client (cl_touch t).

(** [handleCommandError] for an error of the connection; an error reply leaves it open *)
Definition io_error {A} : CM A := touch ;; set_client client_Close ;; fail EIO.
Definition command_error {A} (msg : bytes) : CM A := touch ;; fail (ECmd msg).

Definition Send (cmd : command) : CM unit :=
  c ← get_client;
  let append p := mkPipe (pl_cmds p ++ [cmd]) (pl_results p) (pl_recv p) (pl_flushed p) in
  match cl_pipe c with
  | Some p =>
      if pl_flushed p && bool_decide (pl_recv p ≠ length (pl_cmds p)) then fail EPending
      else set_client (λ c, cl_count 1 0 (cl_set_pipe (Some (append p)) c))
  | None =>
      if negb (cl_open c) then panic
      else set_client (λ c, cl_count 1 0 (cl_set_pipe (Some (append (mkPipe [] [] 0 false))) c))
  end.

(** the first error of [pipe.Exec] *)
Fixpoint first_error (rs : list cresult) : option cresult :=
  match rs with [] => None | CVal _ :: rs => first_error rs | r :: _ => Some r end.

Definition client_Flush : CM unit :=
  c ← get_client;
  match cl_pipe c with
  | None => mret tt
  | Some p =>
      if pl_flushed p then mret tt
      else
        rs ← ask (drop (length (pl_results p)) (pl_cmds p));
        let p' flushed := mkPipe (pl_cmds p) (pl_results p ++ rs) (pl_recv p) flushed in
        match first_error rs with
        | Some CIO => set_client (cl_set_pipe (Some (p' false))) ;; io_error
        | _ => set_client (cl_set_pipe (Some (p' true)))
        end
  end.

(** the next of the results *)
Definition take_reply : CM rvalue :=
  c ← get_client;
  match cl_pipe c with
  | None => fail ENoPending
  | Some p =>
      let recv := S (pl_recv p) in
      let next := if decide (recv = length (pl_cmds p)) then None else Some (mkPipe (pl_cmds p) (pl_results p) recv (pl_flushed p)) in
      set_client (λ c, cl_count 0 1 (cl_set_pipe next c)) ;; touch ;;
      match nth (pl_recv p) (pl_results p) CIO with
      | CVal v => mret v
      | CNil => mret VNil
      | CErr m => command_error m
      | CIO => io_error
      end
  end.

Definition Receive : CM rvalue :=
  c ← get_client;
  match cl_pipe c with
  | None => fail ENoPending
  | Some p =>
      if decide (pl_recv p = length (pl_cmds p)) then fail ENoPending
      else (if pl_flushed p then mret tt else client_Flush) ;; take_reply
  end.

(** [for c.pipe != nil { reply = c.Receive() }]; each round takes one of the commands *)
Fixpoint drain (fuel : nat) (reply : rvalue) : CM rvalue :=
  match fuel with
  | O => mret reply
  | S fuel =>
      c ← get_client;
      match cl_pipe c with
      | None => mret reply
      | Some _ => r ← Receive; drain fuel r
      end
  end.

Definition Do (cmd : command) : CM rvalue :=
  c ← get_client;
  match cl_pipe c with
  | Some p =>
      if pl_flushed p && bool_decide (pl_recv p ≠ length (pl_cmds p)) then fail EPending
      else
        Send cmd ;; client_Flush ;;
        drain (S (S (length (pl_cmds p)))) VNil
  | None =>
      if negb (cl_open c) then panic
      else
        rs ← ask [cmd];
        match rs with
        | CVal v :: _ => touch ;; mret v
        | CNil :: _ => touch ;; mret VNil
        | CErr m :: _ => command_error m
        | _ => io_error
        end
  end.

(** ** Commands *)
Definition word (s : string) : bytes := bstr s.

Definition Select (database : Z) : CM unit :=
  c ← get_client;
  if decide (cl_Database c = database) then mret tt
  else
    on_err (Do [word "SELECT"; FormatInt database] ;; mret tt) (λ e, set_client client_Close ;; fail e) ;;
    set_client (cl_set_database database).

Definition client_Shutdown : CM unit := on_err (Do [word "SHUTDOWN"] ;; mret tt) (λ e, set_client client_Close ;; fail e).

Definition client_Info : CM (gmap bytes bytes) :=
  r ← Do [word "INFO"];
  text ← lift (replyString r);
  mret (parsePitrInfoText text).

Definition keyspace_line (st : outcome cerror (gmap Z bytes)) (line : bytes) : outcome cerror (gmap Z bytes) :=
  info ← st;
  match IndexByte line colon with
  | None => Ok info
  | Some i =>
      let key := trim_space (take i line) in
      if decide (key = []) then Ok info
      else if has_prefix_of key (bstr "db") then
        match ParseInt (drop 2 key) with Ok n => Ok (<[n := trim_space (drop (S i) line)]> info) | _ => Err EInvalid end
      else Ok info
  end.
Definition InfoKeySpace : CM (gmap Z bytes) :=
  r ← Do [word "INFO"; word "keyspace"];
  text ← lift (replyString r);
  lift (foldl keyspace_line (Ok ∅) (split_on newline text)).

(** [net.JoinHostPort] *)
Definition JoinHostPort (host port : bytes) : bytes :=
  if existsb (λ c, bool_decide (c = colon)) host then bstr "[" ++ host ++ bstr "]:" ++ port else host ++ colon :: port.

Definition InfoFull : CM (gmap bytes bytes) :=
  info ← client_Info;
  let host := default [] (info !! bstr "master_host") in
  let port := default [] (info !! bstr "master_port") in
  let info := if decide (host ≠ [] ∨ port ≠ []) then <[bstr "master_addr" := JoinHostPort host port]> info else info in
  r ← Do [word "CONFIG"; word "GET"; word "maxmemory"];
  match replyValues r with
  | Ok [_; v] => match replyInt v with Ok n => mret (<[bstr "maxmemory" := FormatInt n]> info) | _ => fail EInvalid end
  | _ => fail EInvalid
  end.

Definition isUnsupportedMasterUserConfigError (msg : bytes) : bool :=
  let msg := lower_byte <$> msg in Contains msg (bstr "unsupported") || Contains msg (bstr "unknown").

(** the answer to a command whose error may be an old server's that has no such setting *)
Definition clearMasterUserIfSupported : CM unit :=
  on_err (Do [word "CONFIG"; word "SET"; word "masteruser"; []] ;; mret tt)
    (λ e, match e with ECmd msg => if isUnsupportedMasterUserConfigError msg then mret tt else fail e | _ => fail e end).

(** the commands of the transaction, each queued whatever its [Send] returns *)
Definition queue (cmds : list command) : CM unit := foldr (λ cmd k, ignore_err (Send cmd) ;; k) (mret tt) cmds.

Definition master_commands (identity : RedisAuthIdentity) (host port : bytes) : list command :=
  [[word "MULTI"]] ++
  (if decide (id_Username identity = []) then [] else [[word "CONFIG"; word "SET"; word "masteruser"; id_Username identity]]) ++
  [[word "CONFIG"; word "SET"; word "masterauth"; id_Password identity]; [word "SLAVEOF"; host; port];
   [word "CONFIG"; word "REWRITE"]; [word "CLIENT"; word "KILL"; word "TYPE"; word "normal"]].

Fixpoint first_failure (l : list rvalue) : option bytes :=
  match l with [] => None | VErr m :: _ => Some m | _ :: l => first_failure l end.

Definition SetMaster (master : bytes) : CM unit :=
  match SplitHostPort master with
  | None => fail EAddr
  | Some (host, port) =>
      c ← get_client;
      (if decide (id_Username (cl_AuthIdentity c) = []) then clearMasterUserIfSupported else mret tt) ;;
      queue (master_commands (cl_AuthIdentity c) host port) ;;
      r ← Do [word "EXEC"];
      values ← lift (replyValues r);
      match first_failure values with Some m => fail (ECmd m) | None => mret tt end
  end.

(** [p[1]] of a reply of two integers *)
Definition second_int (r : rvalue) : outcome cerror Z := match replyInts r with Ok [_; n] => Ok n | _ => Err EInvalid end.
(** [int(d / time.Millisecond)] *)
Definition millis (d : Z) : Z := d `quot` 1000000.

Definition client_MigrateSlot (slot : Z) (target : bytes) : CM Z :=
  match SplitHostPort target with
  | None => fail EAddr
  | Some (host, port) =>
      c ← get_client;
      r ← Do [word "SLOTSMGRTTAGSLOT"; host; port; FormatInt (millis (cl_Timeout c)); FormatInt slot];
      lift (second_int r)
  end.

Record MigrateSlotAsyncOption := mkAsync { ao_MaxBulks : Z; ao_MaxBytes : Z; ao_NumKeys : Z; ao_Timeout : Z }.
Definition client_MigrateSlotAsync (slot : Z) (target : bytes) (option : MigrateSlotAsyncOption) : CM Z :=
  match SplitHostPort target with
  | None => fail EAddr
  | Some (host, port) =>
      r ← Do [word "SLOTSMGRTTAGSLOT-ASYNC"; host; port; FormatInt (millis (ao_Timeout option)); FormatInt (ao_MaxBulks option);
              FormatInt (ao_MaxBytes option); FormatInt slot; FormatInt (ao_NumKeys option)];
      lift (second_int r)
  end.

Definition slot_info (st : outcome cerror (gmap Z Z)) (info : rvalue) : outcome cerror (gmap Z Z) :=
  slots ← st; match replyInts info with Ok [slot; n] => Ok (<[slot := n]> slots) | _ => Err EInvalid end.
Definition SlotsInfo : CM (gmap Z Z) :=
  r ← Do [word "SLOTSINFO"];
  infos ← lift (replyValues r);
  lift (foldl slot_info (Ok ∅) infos).

Definition Role : CM bytes :=
  r ← Do [word "ROLE"];
  values ← lift (replyValues r);
  match values with
  | [] => fail EInvalid
  | v :: _ => match replyString v with Ok role => mret (upper_byte <$> role) | _ => fail EInvalid end
  end.
End client.

(** [NewClientWithAuthIdentity]: a client that has answered PING.  [None] is an identity
    that is not valid; dialing and logging in are part of the first command. *)
Definition fresh_client (addr : string) (auth : RedisAuthIdentity) (timeout t : Z) : Client := mkClient true false None addr auth 0 t timeout 0 0.
Definition NewClientWithAuthIdentity `{RedisEnd} (addr : string) (auth : RedisAuthIdentity) (timeout : Z) (tick : nat) : outcome cerror unit * cworld :=
  let w := mkCW (fresh_client addr auth timeout (rd_time tick)) tick [] in
  if negb (Validate auth) then (Err EIdentity, w)
  else on_err (Do [word "PING"] ;; mret tt) (λ e, set_client client_Close ;; fail e) w.

(** What the client of the Redis servers keeps: its counters agree with its pipeline, a
    reply is that of its own command, and a client that may be used again has no reply
    outstanding. *)

(** * The invariant of a client *)
Definition pipe_pending (p : pipeline) : nat := length (pl_cmds p) - pl_recv p.
Definition pending (c : Client) : nat := match cl_pipe c with Some p => pipe_pending p | None => 0 end.
Definition pipe_ok (open : bool) (p : pipeline) : Prop :=
  (pl_recv p < length (pl_cmds p))%nat ∧ (length (pl_results p) ≤ length (pl_cmds p))%nat ∧
  (if pl_flushed p then length (pl_results p) = length (pl_cmds p) else pl_recv p = 0%nat ∧ (pl_results p = [] ∨ open = false)).
Definition client_ok (c : Client) : Prop :=
  cl_Send c = (cl_Recv c + pending c)%nat ∧ match cl_pipe c with Some p => pipe_ok (cl_open c) p | None => True end.

(** a client that may be used again is connected and has read every reply *)
Lemma recyclable_idle t c : client_ok c → isRecyclable t c = true →
  cl_open c = true ∧ cl_broken c = false ∧ cl_pipe c = None ∧ (cl_Timeout c ≠ 0 → t - cl_LastUse c < cl_Timeout c).
Proof.
  intros [Hs Hp]. unfold isRecyclable. destruct (cl_broken c); [done|]. destruct (cl_open c); [|done]. cbn. destruct (decide _) as [|He]; [done|].
  destruct (decide _) as [|Ht]; [done|]. intros _. split_and!; [done|done| |lia]. unfold pending in Hs. destruct (cl_pipe c) as [p|]; [|done].
  exfalso. destruct Hp as [Hlt _]. unfold pipe_pending in Hs. lia.
Qed.

Section client.
Context `{RedisEnd}.

(** ** Every operation keeps it *)
Definition kept {A} (m : CM A) : Prop := ∀ w, client_ok (cw_client w) → client_ok (cw_client (m w).2).

Lemma kept_ret {A} (a : A) : kept (mret a).
Proof. by intros w. Qed.
Lemma kept_fail {A} e : kept (fail (A := A) e).
Proof. by intros w. Qed.
Lemma kept_panic {A} : kept (panic (A := A)).
Proof. by intros w. Qed.
Lemma kept_lift {A} (r : outcome cerror A) : kept (lift r).
Proof. by intros w. Qed.
Lemma kept_get : kept get_client.
Proof. by intros w. Qed.
Lemma kept_ask cmds : kept (ask cmds).
Proof. by intros w. Qed.
Lemma kept_bind {A B} (m : CM A) (k : A → CM B) : kept m → (∀ a, kept (k a)) → kept (m ≫= k).
Proof. intros Hm Hk w Hw. unfold mbind, M_bind. specialize (Hm w Hw). destruct (m w) as [[a|e|] w1]; [by apply Hk|done|done]. Qed.
Lemma kept_seq {A B} (m : CM A) (k : CM B) : kept m → kept k → kept (m ;; k).
Proof. intros Hm Hk. by apply kept_bind. Qed.
Lemma kept_on_err {A} (m : CM A) h : kept m → (∀ e, kept (h e)) → kept (on_err m h).
Proof. intros Hm Hh w Hw. unfold on_err. specialize (Hm w Hw). destruct (m w) as [[a|e|] w1]; [done|by apply Hh|done]. Qed.
Lemma kept_ignore {A} (m : CM A) : kept m → kept (ignore_err m).
Proof. intros Hm w Hw. unfold ignore_err. specialize (Hm w Hw). by destruct (m w). Qed.

Lemma close_ok c : client_ok c → client_ok (client_Close c).
Proof.
  intros [Hs Hp]. split; [done|]. cbn. destruct (cl_pipe c) as [p|]; [|done]. destruct Hp as (H1 & H2 & H3). split_and!; [done|done|].
  destruct (pl_flushed p); [done|]. split; [by destruct H3|by right].
Qed.
Lemma kept_close : kept (set_client client_Close).
Proof. intros w. apply close_ok. Qed.
Lemma kept_touch : kept touch.
Proof. by intros w. Qed.
Lemma kept_io {A} : kept (io_error (A := A)).
Proof. apply kept_seq; [apply kept_touch|]. apply kept_seq; [apply kept_close|apply kept_fail]. Qed.
Lemma kept_command_error {A} m : kept (command_error (A := A) m).
Proof. apply kept_seq; [apply kept_touch|apply kept_fail]. Qed.

Lemma kept_Send cmd : kept (Send cmd).
Proof.
  intros w Hok. pose proof Hok as [Hs Hp]. unfold Send, get_client, gets, mbind, M_bind. unfold pending in Hs. destruct (cl_pipe (cw_client w)) as [p|] eqn:Ep.
  - destruct Hp as (H1 & H2 & H3). rewrite bool_decide_true by lia. destruct (pl_flushed p) eqn:Ef; cbn; [exact Hok|].
    split; [cbn; unfold pipe_pending in *; cbn; rewrite length_app; cbn; lia|]. split_and!; cbn; rewrite ?length_app; cbn; try lia. rewrite ?Ef in H3. exact H3.
  - destruct (cl_open (cw_client w)) eqn:Eo; cbn; [|exact Hok]. split; [cbn; lia|]. split_and!; cbn; try lia. split; [done|by left].
Qed.

Lemma results_length w cmds : length (results_of w cmds) = length cmds.
Proof. unfold results_of. destruct (cl_open _); [|apply length_replicate]. rewrite length_take, length_app, length_replicate. lia. Qed.

Lemma kept_Flush : kept client_Flush.
Proof.
  intros w Hok. pose proof Hok as [Hs Hp]. unfold client_Flush, get_client, gets, mbind, M_bind. unfold pending in Hs. destruct (cl_pipe (cw_client w)) as [p|] eqn:Ep; [|exact Hok].
  destruct (pl_flushed p) eqn:Ef; [exact Hok|]. destruct Hp as (H1 & H2 & H3). rewrite Ef in H3. cbn. set (rs := results_of w _).
  assert (length rs = (length (pl_cmds p) - length (pl_results p))%nat) as Hl by (unfold rs; by rewrite results_length, length_drop).
  assert (first_error rs = Some CIO ∨ first_error rs ≠ Some CIO) as [->|Hne] by (destruct (first_error rs) as [[]|]; by (left + right)).
  - cbn. split; [done|]. split_and!; cbn; [lia|rewrite length_app; lia|]. split; [by destruct H3|by right].
  - assert (∀ B (x y : B), match first_error rs with Some CIO => x | _ => y end = y) as -> by (intros; by destruct (first_error rs) as [[]|]).
    cbn. split; [done|]. split_and!; cbn; [lia|rewrite length_app; lia|]. rewrite length_app. lia.
Qed.

Lemma Flush_flushed w w' p : client_Flush w = (Ok tt, w') → cl_pipe (cw_client w') = Some p → pl_flushed p = true.
Proof.
  unfold client_Flush, get_client, gets, mbind, M_bind. destruct (cl_pipe (cw_client w)) as [p0|] eqn:Ep; [|intros [= <-] Hp; congruence].
  destruct (pl_flushed p0) eqn:Ef; [intros [= <-] Hp; congruence|]. cbn. destruct (first_error _) as [[]|]; cbn; intros [= <-]; cbn; by intros [= <-].
Qed.

Lemma take_reply_ok w : client_ok (cw_client w) → (∀ p, cl_pipe (cw_client w) = Some p → pl_flushed p = true) → client_ok (cw_client (take_reply w).2).
Proof.
  intros Hok Hf. pose proof Hok as [Hs Hp]. unfold take_reply, get_client, gets. unfold mbind at 1. unfold M_bind at 1. unfold pending in Hs.
  destruct (cl_pipe (cw_client w)) as [p|] eqn:Ep; [|exact Hok]. specialize (Hf p eq_refl). set (next := if decide _ then _ else _).
  destruct Hp as (H1 & H2 & H3). rewrite Hf in H3.
  assert (client_ok (cl_count 0 1 (cl_set_pipe next (cw_client w)))) as Hn.
  { unfold client_ok, pending, next. cbn. unfold pipe_pending in *. destruct (decide _); cbn; [split; [lia|done]|]. split; [lia|]. unfold pipe_ok. cbn. rewrite Hf. lia. }
  assert (kept (touch ;; match nth (pl_recv p) (pl_results p) CIO with CVal v => mret v | CNil => mret VNil | CErr m => command_error m | CIO => io_error end)) as Hk.
  { apply kept_seq; [apply kept_touch|]. destruct (nth _ _ _); [apply kept_ret|apply kept_ret|apply kept_command_error|apply kept_io]. }
  exact (Hk (mkCW (cl_count 0 1 (cl_set_pipe next (cw_client w))) (cw_tick w) (cw_log w)) Hn).
Qed.

Lemma kept_Receive : kept Receive.
Proof.
  intros w Hok. unfold Receive, get_client, gets. unfold mbind at 1. unfold M_bind at 1. destruct (cl_pipe (cw_client w)) as [p|] eqn:Ep; [|exact Hok].
  destruct (decide _); [exact Hok|]. unfold mbind, M_bind. destruct (pl_flushed p) eqn:Ef.
  - apply (take_reply_ok w); [exact Hok|]. intros p0 Hp0. congruence.
  - pose proof (kept_Flush w Hok) as Hw. destruct (client_Flush w) as [[[]|e|] w1] eqn:Efl; [|exact Hw..].
    apply take_reply_ok; [exact Hw|]. intros p0 Hp0. by eapply Flush_flushed.
Qed.

Lemma kept_drain fuel : ∀ r, kept (drain fuel r).
Proof.
  induction fuel as [|fuel IH]; intros r; cbn [drain]; [apply kept_ret|]. apply kept_bind; [apply kept_get|]. intros c.
  destruct (cl_pipe c); [|apply kept_ret]. apply kept_bind; [apply kept_Receive|exact IH].
Qed.

Lemma kept_Do cmd : kept (Do cmd).
Proof.
  unfold Do. apply kept_bind; [apply kept_get|]. intros c. destruct (cl_pipe c) as [p|].
  - destruct (_ && _); [apply kept_fail|]. apply kept_seq; [apply kept_Send|]. apply kept_seq; [apply kept_Flush|apply kept_drain].
  - destruct (cl_open c); cbn [negb]; [|apply kept_panic]. apply kept_bind; [apply kept_ask|]. intros [|[] ?]; first [apply kept_io | apply kept_command_error | apply kept_seq; [apply kept_touch|apply kept_ret]].
Qed.
End client.

Create HintDb kept.
#[export] Hint Resolve kept_ret kept_fail kept_panic kept_lift kept_get kept_ask kept_close kept_touch kept_io kept_command_error : kept.
#[export] Hint Resolve kept_Send kept_Flush kept_Receive kept_Do : kept.

(** composes the operations of a client *)
Ltac keep := repeat match goal with
  | |- kept (mbind _ _) => apply kept_bind; [|intros ?]
  | |- kept (on_err _ _) => apply kept_on_err; [|intros ?]
  | |- kept (ignore_err _) => apply kept_ignore
  | |- kept (if ?b then _ else _) => destruct b
  | |- kept (match ?x with _ => _ end) => destruct x
  | |- kept _ => solve [auto with kept]
  end.

Section commands.
Context `{RedisEnd}.

Lemma kept_queue cmds : kept (queue cmds).
Proof. induction cmds as [|cmd cmds IH]; cbn; [apply kept_ret|]. unfold queue in IH. keep. Qed.
Lemma kept_set_database db : kept (set_client (cl_set_database db)).
Proof. by intros w. Qed.
Hint Resolve kept_queue kept_set_database : kept.

Lemma commands_kept : (∀ db, kept (Select db)) ∧ kept client_Shutdown ∧ kept client_Info ∧ kept InfoKeySpace ∧ kept InfoFull ∧ (∀ m, kept (SetMaster m)) ∧
  (∀ s t, kept (client_MigrateSlot s t)) ∧ (∀ s t o, kept (client_MigrateSlotAsync s t o)) ∧ kept SlotsInfo ∧ kept Role.
Proof.
  split_and!; intros; unfold Select, client_Shutdown, InfoKeySpace, InfoFull, client_Info, SetMaster, clearMasterUserIfSupported, client_MigrateSlot, client_MigrateSlotAsync, SlotsInfo, Role; keep.
Qed.
End commands.

(** * A reply is that of its own command *)
Definition value_of (r : cresult) : option rvalue := match r with CVal v => Some v | CNil => Some VNil | _ => None end.
Definition waiting (c : Client) : list command := match cl_pipe c with Some p => pl_cmds p | None => [] end.

Section replies.
Context `{RedisEnd}.

Lemma take_reply_value w p v w' : cl_pipe (cw_client w) = Some p → take_reply w = (Ok v, w') →
  value_of (nth (pl_recv p) (pl_results p) CIO) = Some v ∧ cw_log w' = cw_log w ∧ cl_open (cw_client w') = cl_open (cw_client w) ∧
  cl_pipe (cw_client w') = (if decide (S (pl_recv p) = length (pl_cmds p)) then None else Some (mkPipe (pl_cmds p) (pl_results p) (S (pl_recv p)) (pl_flushed p))).
Proof.
  intros Hp. unfold take_reply, get_client, gets, mbind, M_bind. rewrite Hp. cbn. destruct (nth _ _ _); cbn; try done; by intros [= <- <-].
Qed.

Lemma Receive_flushed w p : cl_pipe (cw_client w) = Some p → pl_flushed p = true → (pl_recv p < length (pl_cmds p))%nat → Receive w = take_reply w.
Proof. intros Hp Hf Hl. unfold Receive, get_client, gets, mbind, M_bind. rewrite Hp, decide_False, Hf by lia. done. Qed.

Lemma drain_value fuel : ∀ w p r v w', cl_pipe (cw_client w) = Some p → pl_flushed p = true → (pl_recv p < length (pl_cmds p))%nat →
  (length (pl_cmds p) - pl_recv p < fuel)%nat → drain fuel r w = (Ok v, w') →
  value_of (nth (length (pl_cmds p) - 1) (pl_results p) CIO) = Some v ∧ cw_log w' = cw_log w ∧ cl_open (cw_client w') = cl_open (cw_client w) ∧
  cl_pipe (cw_client w') = None ∧ ∀ i, (pl_recv p ≤ i < length (pl_cmds p))%nat → is_Some (value_of (nth i (pl_results p) CIO)).
Proof.
  induction fuel as [|fuel IH]; intros w p r v w' Hp Hf Hl Hfuel; [lia|]. cbn [drain]. unfold get_client, gets. unfold mbind at 1. unfold M_bind at 1. rewrite Hp.
  unfold mbind, M_bind. rewrite (Receive_flushed w p) by done. destruct (take_reply w) as [[v1|e|] w1] eqn:Et; [|done..].
  destruct (take_reply_value w p v1 w1 Hp Et) as (T1 & T2 & T3 & T4). destruct (decide (S (pl_recv p) = length (pl_cmds p))) as [Hlast|Hmore].
  - destruct fuel as [|fuel]; [lia|]. cbn [drain]. unfold get_client, gets, mbind, M_bind. rewrite T4. intros [= <- <-]. split_and!; [by rewrite <-Hlast; cbn; rewrite Nat.sub_0_r|done..|].
    intros i Hi. assert (i = pl_recv p) as -> by lia. by rewrite T1.
  - intros Hd. destruct (IH w1 _ v1 v w' T4 Hf ltac:(cbn; lia) ltac:(cbn; lia) Hd) as (D1 & D2 & D3 & D4 & D5). cbn in D1, D5. split_and!; [done|congruence|congruence|done|].
    intros i Hi. destruct (decide (i = pl_recv p)) as [->|]; [by rewrite T1|]. apply D5. lia.
Qed.

Lemma Send_piped w p cmd : cl_pipe (cw_client w) = Some p → pl_flushed p = false →
  Send cmd w = (Ok tt, mkCW (cl_count 1 0 (cl_set_pipe (Some (mkPipe (pl_cmds p ++ [cmd]) (pl_results p) (pl_recv p) false)) (cw_client w))) (cw_tick w) (cw_log w)).
Proof. intros Hp Hf. unfold Send, get_client, gets, mbind, M_bind. by rewrite Hp, Hf. Qed.

Lemma Send_idle w cmd : cl_pipe (cw_client w) = None → cl_open (cw_client w) = true →
  Send cmd w = (Ok tt, mkCW (cl_count 1 0 (cl_set_pipe (Some (mkPipe [cmd] [] 0 false)) (cw_client w))) (cw_tick w) (cw_log w)).
Proof. intros Hp Ho. unfold Send, get_client, gets, mbind, M_bind. by rewrite Hp, Ho. Qed.

(** what a successful flush of commands that were not sent yet leaves *)
Lemma Flush_piped w p w' : cl_pipe (cw_client w) = Some p → pl_flushed p = false → pl_results p = [] → client_Flush w = (Ok tt, w') →
  ∃ rs, length rs = length (pl_cmds p) ∧ cw_log w' = cw_log w ++ zip (pl_cmds p) rs ∧ cl_open (cw_client w') = cl_open (cw_client w) ∧
    cl_pipe (cw_client w') = Some (mkPipe (pl_cmds p) rs (pl_recv p) true).
Proof.
  intros Hp Hf Hr. unfold client_Flush, get_client, gets, mbind, M_bind. rewrite Hp, Hf, Hr. cbn [length]. unfold ask. rewrite drop_0. set (rs := results_of w (pl_cmds p)).
  intros Hw. exists rs. split; [apply results_length|]. destruct (first_error rs) as [[]|]; unfold set_client, io_error, touch, modify in Hw; cbn in Hw; first [discriminate Hw | by injection Hw as <-].
Qed.

(** nothing is executed on a closed connection *)
Lemma Flush_closed w p : cl_pipe (cw_client w) = Some p → pl_flushed p = false → cl_open (cw_client w) = false → (length (pl_results p) < length (pl_cmds p))%nat →
  ∀ w', client_Flush w ≠ (Ok tt, w').
Proof.
  intros Hp Hf Ho Hl w'. unfold client_Flush, get_client, gets, mbind, M_bind. rewrite Hp, Hf. unfold ask, results_of. rewrite Ho.
  rewrite length_drop. destruct (length (pl_cmds p) - length (pl_results p))%nat eqn:E; [lia|]. cbn. done.
Qed.

Lemma zip_snoc {A B} (l : list A) x (k : list B) : length k = length (l ++ [x]) → ∃ k' y, k = k' ++ [y] ∧ length k' = length l ∧ zip (l ++ [x]) k = zip l k' ++ [(x, y)].
Proof.
  intros Hk. destruct k as [|y k _] using rev_ind; [rewrite length_app in Hk; cbn in Hk; lia|]. rewrite !length_app in Hk. cbn in Hk.
  exists k, y. split_and!; [done|lia|]. rewrite zip_with_app by lia. done.
Qed.

(** what a command returns is the value of its own result, the last of those of the
    commands that were queued before it *)
Lemma Do_value cmd w v w' : client_ok (cw_client w) → Do cmd w = (Ok v, w') →
  ∃ rs r, length rs = length (waiting (cw_client w)) ∧ cw_log w' = cw_log w ++ zip (waiting (cw_client w)) rs ++ [(cmd, r)] ∧ value_of r = Some v ∧
    cl_pipe (cw_client w') = None ∧ cl_open (cw_client w') = true ∧ Forall (λ r, is_Some (value_of r)) rs.
Proof.
  intros [Hs Hp] Hdo. unfold Do, get_client, gets in Hdo. unfold mbind at 1 in Hdo. unfold M_bind at 1 in Hdo. unfold waiting. destruct (cl_pipe (cw_client w)) as [p|] eqn:Ep.
  - destruct Hp as (H1 & H2 & H3). rewrite bool_decide_true in Hdo by lia. destruct (pl_flushed p) eqn:Ef; [done|]. destruct H3 as [H3 H4]. cbn [andb] in Hdo.
    unfold mbind, M_bind in Hdo. rewrite (Send_piped w p cmd Ep Ef) in Hdo. set (w1 := mkCW _ _ _) in Hdo. set (p1 := mkPipe (pl_cmds p ++ [cmd]) (pl_results p) (pl_recv p) false).
    assert (cl_pipe (cw_client w1) = Some p1) as Hp1 by done. destruct (client_Flush w1) as [[[]|e|] w2] eqn:Efl; [|done..].
    assert (pl_results p = []) as Hr.
    { destruct H4 as [H4|H4]; [done|]. exfalso. apply (Flush_closed w1 p1 Hp1 eq_refl H4 ltac:(cbn; rewrite length_app; cbn; lia) _ Efl). }
    destruct (Flush_piped w1 p1 w2 Hp1 eq_refl Hr Efl) as (rs & L & F1 & F2 & F3). cbn in L, F1, F3.
    apply (drain_value _ _ _ _ _ _ F3) in Hdo as (D1 & D2 & D3 & D4 & D5); [|done|cbn; rewrite length_app; lia|cbn; rewrite length_app; cbn; lia]. cbn in D1, D5.
    destruct (zip_snoc (pl_cmds p) cmd rs L) as (rs' & r & -> & L' & Ez). exists rs', r. rewrite length_app in D1, D5. cbn in D1, D5. rewrite Nat.add_sub in D1.
    assert (nth (length (pl_cmds p)) (rs' ++ [r]) CIO = r) as Hn by (rewrite app_nth2 by lia; by rewrite <-L', Nat.sub_diag). rewrite Hn in D1.
    assert (cl_open (cw_client w2) = true) as Ho.
    { rewrite F2. destruct (cl_open (cw_client w1)) eqn:Eo; [done|]. exfalso. apply (Flush_closed w1 p1 Hp1 eq_refl Eo ltac:(cbn; rewrite length_app; cbn; lia) _ Efl). }
    split_and!; [done|rewrite D2, F1, Ez; done|done|done|congruence|]. apply Forall_lookup. intros i x Hx. pose proof (lookup_lt_Some _ _ _ Hx).
    specialize (D5 i ltac:(lia)). rewrite app_nth1 in D5 by lia. rewrite (nth_lookup_Some _ _ _ _ Hx) in D5. done.
  - destruct (cl_open (cw_client w)) eqn:Eo; [|done]. cbn [negb] in Hdo. unfold mbind, M_bind, ask in Hdo. pose proof (results_length w [cmd]) as Hl.
    destruct (results_of w [cmd]) as [|r [|? ?]]; [done| |done]. exists [], r. destruct r; cbn in Hdo; try done; by injection Hdo as <- <-.
Qed.
End replies.

(** * Making a server the replica of another *)
Section master.
Context `{RedisEnd}.

Lemma queue_piped cmds : ∀ w p, cl_pipe (cw_client w) = Some p → pl_flushed p = false →
  ∃ w', queue cmds w = (Ok tt, w') ∧ cw_log w' = cw_log w ∧ cl_open (cw_client w') = cl_open (cw_client w) ∧
    cl_pipe (cw_client w') = Some (mkPipe (pl_cmds p ++ cmds) (pl_results p) (pl_recv p) false).
Proof.
  induction cmds as [|cmd cmds IH]; intros w p Hp Hf.
  { exists w. rewrite app_nil_r. split_and!; try done. rewrite Hp. by destruct p; cbn in *; subst. }
  change (queue (cmd :: cmds)) with (ignore_err (Send cmd) ;; queue cmds). unfold mbind, M_bind, ignore_err. rewrite (Send_piped w p cmd Hp Hf).
  set (w1 := mkCW _ _ _). destruct (IH w1 _ eq_refl eq_refl) as (w' & Q1 & Q2 & Q3 & Q4). exists w'. split_and!; [done..|]. rewrite Q4. cbn. by rewrite <-app_assoc.
Qed.

Lemma queue_idle cmds w : cmds ≠ [] → cl_pipe (cw_client w) = None → cl_open (cw_client w) = true →
  ∃ w', queue cmds w = (Ok tt, w') ∧ cw_log w' = cw_log w ∧ cl_open (cw_client w') = true ∧ waiting (cw_client w') = cmds.
Proof.
  destruct cmds as [|cmd cmds]; [done|]. intros _ Hp Ho. change (queue (cmd :: cmds)) with (ignore_err (Send cmd) ;; queue cmds). unfold mbind, M_bind, ignore_err. rewrite (Send_idle w cmd Hp Ho).
  set (w1 := mkCW _ _ _). destruct (queue_piped cmds w1 _ eq_refl eq_refl) as (w' & Q1 & Q2 & Q3 & Q4). exists w'. split_and!; [done|done|by rewrite Q3|]. unfold waiting. by rewrite Q4.
Qed.

Lemma first_failure_none l : first_failure l = None ↔ ∀ m, VErr m ∉ l.
Proof.
  induction l as [|x l IH]; cbn; [split; [set_solver|done]|]. destruct x; try (rewrite IH; split; intros Hm m; specialize (Hm m); set_solver).
  split; [done|]. intros Hm. destruct (Hm msg). by constructor.
Qed.

(** a command without reply outstanding that succeeds, or fails with an error reply, leaves
    the client the same *)
Lemma Do_idle cmd w : cl_pipe (cw_client w) = None → cl_open (cw_client w) = true →
  ∃ r, cw_log (Do cmd w).2 = cw_log w ++ [(cmd, r)] ∧ cl_pipe (cw_client (Do cmd w).2) = None ∧
    cl_AuthIdentity (cw_client (Do cmd w).2) = cl_AuthIdentity (cw_client w) ∧ (Do cmd w).1 ≠ Panic ∧
    match r with CIO => (Do cmd w).1 = Err EIO | CErr m => (Do cmd w).1 = Err (ECmd m) ∧ cl_open (cw_client (Do cmd w).2) = true
    | _ => cl_open (cw_client (Do cmd w).2) = true end.
Proof.
  intros Hp Ho. unfold Do, get_client, gets, mbind, M_bind. rewrite Hp, Ho. cbn [negb]. unfold ask. pose proof (results_length w [cmd]) as Hl.
  destruct (results_of w [cmd]) as [|r [|? ?]]; [done| |done]. exists r. by destruct r.
Qed.

(** When [SetMaster] succeeds the server has executed one transaction that sets the
    credentials and the master, none of whose commands failed; before it, for a login
    without a user name, at most the setting of the user was cleared. *)
Theorem SetMaster_transaction master w w' : client_ok (cw_client w) → cl_pipe (cw_client w) = None → cl_open (cw_client w) = true →
  SetMaster master w = (Ok tt, w') →
  let identity := cl_AuthIdentity (cw_client w) in
  ∃ host port cleared rs values, SplitHostPort master = Some (host, port) ∧
    cw_log w' = cw_log w ++ cleared ++ zip (master_commands identity host port) rs ++ [([word "EXEC"], CVal (VList values))] ∧
    length rs = length (master_commands identity host port) ∧ Forall (λ r, is_Some (value_of r)) rs ∧ (∀ m, VErr m ∉ values) ∧
    (id_Username identity ≠ [] → cleared = []) ∧
    (∀ x, x ∈ cleared → x.1 = [word "CONFIG"; word "SET"; word "masteruser"; []] ∧ ∀ m, x.2 = CErr m → isUnsupportedMasterUserConfigError m = true).
Proof.
  intros Hok Hp Ho Hs identity. unfold SetMaster in Hs. destruct (SplitHostPort master) as [[host port]|]; [|done]. exists host, port.
  unfold get_client, gets in Hs. unfold mbind at 1 in Hs. unfold M_bind at 1 in Hs. fold identity in Hs.
  set (m1 := if decide (id_Username identity = []) then clearMasterUserIfSupported else mret tt) in Hs.
  assert (∃ cleared w1, m1 w = (Ok tt, w1) ∧ client_ok (cw_client w1) ∧ cl_pipe (cw_client w1) = None ∧ cl_open (cw_client w1) = true ∧ cw_log w1 = cw_log w ++ cleared ∧
    (id_Username identity ≠ [] → cleared = []) ∧
    (∀ x, x ∈ cleared → x.1 = [word "CONFIG"; word "SET"; word "masteruser"; []] ∧ ∀ m, x.2 = CErr m → isUnsupportedMasterUserConfigError m = true)) as (cleared & w1 & M1 & K1 & P1 & O1 & L1 & C1 & C2).
  { unfold m1. destruct (decide _) as [Hu|Hu]; [|exists [], w; rewrite app_nil_r; split_and!; try done; set_solver].
    unfold m1 in Hs. try rewrite decide_True in Hs by done. unfold clearMasterUserIfSupported, on_err, mbind, M_bind in Hs |- *.
    set (cmd := [word "CONFIG"; word "SET"; word "masteruser"; []]) in *. destruct (Do_idle cmd w Hp Ho) as (r & D1 & D2 & D3 & D4 & D5). pose proof (kept_Do cmd w Hok) as Hk.
    destruct (Do cmd w) as [[v|e|] w1] eqn:Ed; cbn [fst snd] in *; [| |done].
    - exists [(cmd, r)], w1. split_and!; try done; [destruct r; naive_solver|]. intros x ->%list_elem_of_singleton. split; [done|]. cbn. intros m ->. by destruct D5.
    - destruct e; [|destruct r; naive_solver..]. destruct (isUnsupportedMasterUserConfigError msg) eqn:Eu; [|done]. exists [(cmd, r)], w1.
      split_and!; try done; [destruct r; naive_solver|]. intros x ->%list_elem_of_singleton. split; [done|]. cbn. intros m ->. destruct D5 as [[= ->] _]. done. }
  unfold mbind, M_bind in Hs. rewrite M1 in Hs. clear M1 m1. destruct (queue_idle (master_commands identity host port) w1 ltac:(done) P1 O1) as (w2 & Q1 & Q2 & Q3 & Q4).
  rewrite Q1 in Hs. pose proof (kept_queue (master_commands identity host port) w1 K1) as K2. rewrite Q1 in K2. cbn [snd] in K2.
  destruct (Do [word "EXEC"] w2) as [[v|e|] w3] eqn:Ed; [|done..]. destruct (Do_value _ _ _ _ K2 Ed) as (rs & r & E1 & E2 & E3 & E4 & E5 & E6). rewrite Q4 in E1, E2.
  unfold lift in Hs. destruct v as [| | | |values]; try done. cbn [replyValues] in Hs. destruct (first_failure values) eqn:Eff; [done|]. injection Hs as <-.
  exists cleared, rs, values. split_and!; [done| |done|done|by apply first_failure_none|done|done].
  rewrite E2, Q2, L1, <-app_assoc. repeat f_equal. destruct r; try done. by injection E3 as ->.
Qed.
End master.

(** ** A failover *)
Definition master_end : RedisEnd := {|
  rd_answer _ cmds := (λ cmd, if decide (cmd = [word "EXEC"]) then CVal (VList [VStr (bstr "OK"); VStr (bstr "OK"); VStr (bstr "OK"); VInt 1])
                              else if decide (cmd = [word "CONFIG"; word "SET"; word "masteruser"; []]) then CErr (bstr "ERR Unknown option")
                              else CVal (VStr (bstr "QUEUED"))) <$> cmds;
  rd_time n := Z.of_nat n |}.
Definition master_world : cworld := mkCW (fresh_client "a:1" (mkLogin [] (bstr "secret")) 100 0) 0 [].

Lemma SetMaster_transaction_witness : ∃ w', @SetMaster master_end (bstr "h:6379") master_world = (Ok tt, w') ∧
  ∃ host port cleared rs values, SplitHostPort (bstr "h:6379") = Some (host, port) ∧
    cw_log w' = cw_log master_world ++ cleared ++ zip (master_commands (mkLogin [] (bstr "secret")) host port) rs ++ [([word "EXEC"], CVal (VList values))] ∧ (∀ m, VErr m ∉ values).
Proof.
  assert ((@SetMaster master_end (bstr "h:6379") master_world).1 = Ok tt) as Hr by (vm_compute; reflexivity).
  destruct (@SetMaster master_end (bstr "h:6379") master_world) as [r w'] eqn:Hs. cbn in Hr. subst r. exists w'. split; [reflexivity|].
  destruct (@SetMaster_transaction master_end (bstr "h:6379") master_world w' ltac:(split; [reflexivity|exact I]) eq_refl eq_refl Hs)
    as (host & port & cleared & rs & values & H1 & H2 & _ & _ & H3 & _). exists host, port, cleared, rs, values. split; [exact H1|]. split; [exact H2|exact H3].
Defined.
