(* ===== verification/RedisPool.v ===== *)
(** The pool of clients (pkg/utils/redis/client.go): clients that are put back are handed
    out again.  [pool_exec] executes one call, of the pool or of the holder of a client; an
    event carries the times at which the code reads the clock.

    A client handed out is connected, has no reply outstanding, belongs to the address
    asked for and to nobody else; every connection that is open is in the pool or held by
    a caller. *)

From S2P Require Import Prelude Bufio Resp Mapper Models TopomContext TopomState TopomProxy TopomGroup.
From S2P Require Import Router Stream Forward SessionState ClusterNodes TopomACL PitrFiles BackendConn RedisClient.
(** * The pool *)
Record Pool := mkPool { po_auth : RedisAuthIdentity; po_timeout : Z; po_pool : gmap string (list nat); po_closed : bool }.
Definition NewPoolWithAuthIdentity (auth : RedisAuthIdentity) (timeout : Z) : Pool := mkPool auth timeout ∅ false.

(** the clients of a pool as objects, and those that callers hold *)
Record pworld := mkPW { pw_pool : Pool; pw_clients : gmap nat Client; pw_held : gset nat; pw_tick : nat }.

Definition set_pool (m : gmap string (list nat)) (p : Pool) : Pool := mkPool (po_auth p) (po_timeout p) m (po_closed p).
Definition close_all (ids : list nat) (m : gmap nat Client) : gmap nat Client := foldr (λ id m, alter client_Close id m) m ids.

(** whether a client can be used again; [clock] gives the time at which it is looked at *)
Definition recyclable_at (clock : nat → Z) (m : gmap nat Client) (id : nat) : bool :=
  match m !! id with Some c => isRecyclable (clock id) c | None => false end.

(** the loop of [getClientFromCache] *)
Fixpoint pick (clock : nat → Z) (ids : list nat) (m : gmap nat Client) : option nat * list nat * gmap nat Client :=
  match ids with
  | [] => (None, [], m)
  | id :: ids => if recyclable_at clock m id then (Some id, ids, m) else pick clock ids (alter client_Close id m)
  end.

Definition getClientFromCache (addr : string) (clock : nat → Z) (w : pworld) : outcome cerror (option nat) * pworld :=
  if po_closed (pw_pool w) then (Err EClosedPool, w)
  else match po_pool (pw_pool w) !! addr with
  | None => (Ok None, w)
  | Some ids =>
      let '(r, rest, m) := pick clock ids (pw_clients w) in
      let held := match r with Some id => {[id]} ∪ pw_held w | None => pw_held w end in
      (Ok r, mkPW (set_pool (<[addr := rest]> (po_pool (pw_pool w))) (pw_pool w)) m held (pw_tick w))
  end.

Definition PutClient (id : nat) (clock : nat → Z) (w : pworld) : pworld :=
  let held := pw_held w ∖ {[id]} in
  match pw_clients w !! id with
  | None => w
  | Some c =>
      if negb (recyclable_at clock (pw_clients w) id) || po_closed (pw_pool w) then mkPW (pw_pool w) (alter client_Close id (pw_clients w)) held (pw_tick w)
      else
        let cache := default [] (po_pool (pw_pool w) !! cl_Addr c) in
        mkPW (set_pool (<[cl_Addr c := id :: cache]> (po_pool (pw_pool w))) (pw_pool w)) (pw_clients w) held (pw_tick w)
  end.

(** all clients in the pool *)
Definition pooled (p : Pool) : list nat := map_to_list (po_pool p) ≫= snd.

Definition Cleanup (clock : nat → Z) (w : pworld) : outcome cerror unit * pworld :=
  if po_closed (pw_pool w) then (Err EClosedPool, w)
  else
    let keep := filter (λ id, recyclable_at clock (pw_clients w) id = true) in
    let pool := omap (λ ids, match keep ids with [] => None | ids => Some ids end) (po_pool (pw_pool w)) in
    let gone := filter (λ id, recyclable_at clock (pw_clients w) id = false) (pooled (pw_pool w)) in
    (Ok tt, mkPW (set_pool pool (pw_pool w)) (close_all gone (pw_clients w)) (pw_held w) (pw_tick w)).

Definition pool_Close (w : pworld) : pworld :=
  if po_closed (pw_pool w) then w
  else mkPW (mkPool (po_auth (pw_pool w)) (po_timeout (pw_pool w)) ∅ true) (close_all (pooled (pw_pool w)) (pw_clients w)) (pw_held w) (pw_tick w).

(** what a holder does with a client *)
Inductive cop := OpDo (cmd : command) | OpSend (cmd : command) | OpFlush | OpReceive | OpSelect (db : Z) | OpClose.

Section pool.
Context `{RedisEnd}.

(** [GetClient]; [id] is the new object when a client is dialed *)
Definition GetClient (addr : string) (clock : nat → Z) (id : nat) (w : pworld) : outcome cerror nat * pworld :=
  match getClientFromCache addr clock w with
  | (Ok (Some id), w) => (Ok id, w)
  | (Ok None, w) =>
      match NewClientWithAuthIdentity addr (po_auth (pw_pool w)) (po_timeout (pw_pool w)) (pw_tick w) with
      | (Ok _, cw) => (Ok id, mkPW (pw_pool w) (<[id := cw_client cw]> (pw_clients w)) ({[id]} ∪ pw_held w) (cw_tick cw))
      | (Err e, cw) => (Err e, mkPW (pw_pool w) (pw_clients w) (pw_held w) (cw_tick cw))
      | (Panic, cw) => (Panic, mkPW (pw_pool w) (pw_clients w) (pw_held w) (cw_tick cw))
      end
  | (Err e, w) => (Err e, w)
  | (Panic, w) => (Panic, w)
  end.

Definition run_cop (o : cop) : CM unit :=
  match o with
  | OpDo cmd => Do cmd ;; mret tt
  | OpSend cmd => Send cmd
  | OpFlush => client_Flush
  | OpReceive => Receive ;; mret tt
  | OpSelect db => Select db
  | OpClose => set_client client_Close
  end.
Definition use_client (id : nat) (o : cop) (w : pworld) : pworld :=
  match pw_clients w !! id with
  | None => w
  | Some c =>
      let cw := (run_cop o (mkCW c (pw_tick w) [])).2 in
      mkPW (pw_pool w) (<[id := cw_client cw]> (pw_clients w)) (pw_held w) (cw_tick cw)
  end.

Inductive pevent :=
| PGet (addr : string) (clock : nat → Z) (id : nat)
| PPut (id : nat) (clock : nat → Z)
| PUse (id : nat) (o : cop)
| PCleanup (clock : nat → Z)
| PClose.

(** a caller uses and puts back only what it holds; a new object is a new one *)
Definition pool_exec (ev : pevent) (w : pworld) : option pworld :=
  match ev with
  | PGet addr clock id => if bool_decide (pw_clients w !! id = None) then Some (GetClient addr clock id w).2 else None
  | PPut id clock => if bool_decide (id ∈ pw_held w) then Some (PutClient id clock w) else None
  | PUse id o => if bool_decide (id ∈ pw_held w) then Some (use_client id o w) else None
  | PCleanup clock => Some (Cleanup clock w).2
  | PClose => Some (pool_Close w)
  end.
Definition pool_run (auth : RedisAuthIdentity) (timeout : Z) (evs : list pevent) : option pworld :=
  foldl (λ w ev, w ← w; pool_exec ev w) (Some (mkPW (NewPoolWithAuthIdentity auth timeout) ∅ ∅ 0)) evs.
End pool.

(** * What the pool keeps *)
Definition idle (c : Client) : Prop := cl_open c = true ∧ cl_broken c = false ∧ cl_pipe c = None.
(** the client is in the pool *)
Definition in_pool (p : Pool) (addr : string) (id : nat) : Prop := ∃ ids, po_pool p !! addr = Some ids ∧ id ∈ ids.

Record pinv (w : pworld) : Prop := mkPinv {
  i_pool : ∀ addr id, in_pool (pw_pool w) addr id → id ∉ pw_held w ∧ ∃ c, pw_clients w !! id = Some c ∧ cl_Addr c = addr ∧ idle c;
  i_nodup : ∀ addr ids, po_pool (pw_pool w) !! addr = Some ids → NoDup ids;
  i_client : ∀ id c, pw_clients w !! id = Some c → client_ok c ∧ cl_AuthIdentity c = po_auth (pw_pool w) ∧
    (id ∈ pw_held w ∨ cl_open c = false ∨ in_pool (pw_pool w) (cl_Addr c) id);
  i_held : ∀ id, id ∈ pw_held w → is_Some (pw_clients w !! id);
  i_closed : po_closed (pw_pool w) = true → po_pool (pw_pool w) = ∅;
}.

Lemma lookup_close_all ids m id : close_all ids m !! id = if decide (id ∈ ids) then client_Close <$> m !! id else m !! id.
Proof.
  induction ids as [|x ids IH]; [by rewrite decide_False by set_solver|]. change (close_all (x :: ids) m) with (alter client_Close x (close_all ids m)). destruct (decide (x = id)) as [->|Hne].
  - rewrite lookup_alter_eq, IH, (decide_True (P := id ∈ id :: ids)) by constructor. destruct (decide _); [|done]. by destruct (m !! id).
  - rewrite lookup_alter_ne, IH by done. destruct (decide (id ∈ ids)); [rewrite decide_True by set_solver|rewrite decide_False by set_solver]; done.
Qed.

(** clients leave the pool: closed, or taken by a caller *)
Lemma shrink_inv w P m held tick : pinv w →
  (∀ addr ids, P !! addr = Some ids → ∃ ids0, po_pool (pw_pool w) !! addr = Some ids0 ∧ ids `sublist_of` ids0 ∧ ∀ id, id ∈ ids → id ∉ held ∧ m !! id = pw_clients w !! id) →
  (∀ id, m !! id = pw_clients w !! id ∨ m !! id = client_Close <$> pw_clients w !! id) →
  (∀ addr id, in_pool (pw_pool w) addr id → (∃ ids, P !! addr = Some ids ∧ id ∈ ids) ∨ m !! id = client_Close <$> pw_clients w !! id ∨ id ∈ held) →
  pw_held w ⊆ held → (∀ id, id ∈ held → is_Some (pw_clients w !! id)) → (po_closed (pw_pool w) = true → P = ∅) →
  pinv (mkPW (set_pool P (pw_pool w)) m held tick).
Proof.
  intros [I1 I2 I3 I4 I5] Ha Hb Hd He Hh Hc. split; cbn.
  - intros addr id (ids & Hids & Hid). cbn in Hids. destruct (Ha _ _ Hids) as (ids0 & H0 & Hsub & Hin). destruct (Hin id Hid) as [Hn Hm].
    split; [done|]. rewrite Hm. apply I1. exists ids0. split; [done|]. by eapply elem_of_sublist.
  - intros addr ids Hids. destruct (Ha _ _ Hids) as (ids0 & H0 & Hsub & _). eapply sublist_NoDup; [|exact Hsub]. by eapply I2.
  - intros id c Hm. assert (∃ c0, pw_clients w !! id = Some c0 ∧ (c = c0 ∨ c = client_Close c0)) as (c0 & Hc0 & Hcc).
    { destruct (Hb id) as [Hi|Hi]; rewrite Hi in Hm; [eauto|]. destruct (pw_clients w !! id) as [c0|]; [|done]. injection Hm as <-. eauto. }
    destruct (I3 id c0 Hc0) as (J1 & J2 & J3). destruct Hcc as [->| ->]; [|split_and!; [by apply close_ok|done|by right; left]]. split_and!; [done|done|].
    destruct J3 as [J3|[J3|J3]]; [left; set_solver|by right; left|]. destruct (Hd _ _ J3) as [Hp|[Hp|Hp]]; [right; right; exact Hp| |by left].
    rewrite Hp, Hc0 in Hm. injection Hm as <-. by right; left.
  - intros id Hid. destruct (Hh id Hid) as [c0 Hc0]. destruct (Hb id) as [->| ->]; rewrite Hc0; by eexists.
  - done.
Qed.

Lemma pick_spec clock ids : ∀ m r rest m', pick clock ids m = (r, rest, m') →
  ∃ bad, ids = bad ++ (match r with Some id => id :: rest | None => rest end) ∧ (r = None → rest = []) ∧
    (∀ id, m' !! id = if decide (id ∈ bad) then client_Close <$> m !! id else m !! id) ∧ (∀ id, r = Some id → recyclable_at clock m' id = true).
Proof.
  induction ids as [|x ids IH]; intros m r rest m'; cbn [pick].
  { intros [= <- <- <-]. by exists []. }
  destruct (recyclable_at clock m x) eqn:Er.
  { intros [= <- <- <-]. exists []. split_and!; try done; by intros id [= <-]. }
  intros (bad & -> & H1 & H2 & H3)%IH. exists (x :: bad). split_and!; [done|done| |done]. intros id. rewrite H2. destruct (decide (id = x)) as [->|Hne].
  - rewrite lookup_alter_eq, (decide_True (P := x ∈ x :: bad)) by constructor. destruct (decide _); [|done]. by destruct (m !! x).
  - rewrite lookup_alter_ne by done. destruct (decide (id ∈ bad)); [rewrite decide_True by set_solver|rewrite decide_False by set_solver]; done.
Qed.

Section keeps.
Context `{RedisEnd}.

(** from the cache: nobody else holds the client *)
Lemma cache_inv addr clock w : pinv w → let '(r, w') := getClientFromCache addr clock w in
  pinv w' ∧ pw_pool w' = set_pool (po_pool (pw_pool w')) (pw_pool w) ∧ pw_tick w' = pw_tick w ∧ dom (pw_clients w') = dom (pw_clients w) ∧
  ∀ id, r = Ok (Some id) → id ∉ pw_held w ∧ id ∈ pw_held w' ∧ ∃ c, pw_clients w' !! id = Some c ∧ cl_Addr c = addr ∧ idle c ∧ isRecyclable (clock id) c = true.
Proof.
  intros Hv. pose proof Hv as [I1 I2 I3 I4 I5]. unfold getClientFromCache. destruct (po_closed (pw_pool w)) eqn:Ec; [by destruct w as [[] ? ? ?]|].
  destruct (po_pool (pw_pool w) !! addr) as [ids|] eqn:Ei; [|by destruct w as [[] ? ? ?]]. destruct (pick clock ids (pw_clients w)) as [[r rest] m] eqn:Epk.
  apply pick_spec in Epk as (bad & Hids & Hr & Hm & Hrec). pose proof (I2 _ _ Ei) as Hnd. rewrite Hids in Hnd.
  assert (∀ id, id ∈ ids → in_pool (pw_pool w) addr id) as Hin by (intros id Hid; by exists ids).
  split; [|split_and!; try done].
  - apply shrink_inv; [done|..].
    + intros addr' ids'. destruct (decide (addr' = addr)) as [->|Hne].
      * rewrite lookup_insert_eq. intros [= <-]. exists ids. split_and!; [done|rewrite Hids; apply sublist_inserts_l; destruct r; [by apply sublist_cons|done]|].
        intros id Hid. assert (id ∈ ids) as Hid0 by (rewrite Hids; destruct r; set_solver). destruct (I1 addr id (Hin id Hid0)) as [Hnh _].
        rewrite Hm, decide_False; [split; [|done]|]. { destruct r as [id0|]; [|done]. apply NoDup_app in Hnd as (_ & _ & [Hnd _]%NoDup_cons). set_solver. }
        apply NoDup_app in Hnd as (_ & Hdis & _). intros Hbad. apply (Hdis id Hbad). destruct r; set_solver.
      * rewrite lookup_insert_ne by done. intros Hids'. exists ids'. split_and!; [done|done|]. intros id Hid. destruct (I1 addr' id) as (Hnh & c & Hc & Ha & _); [by exists ids'|].
        assert (id ∉ ids) as Hni. { intros Hid0. destruct (I1 addr id (Hin id Hid0)) as (_ & c' & Hc' & Ha' & _). congruence. }
        rewrite Hm, decide_False by (rewrite Hids in Hni; set_solver). split; [|done]. destruct r as [id0|]; [|done]. rewrite Hids in Hni. set_solver.
    + intros id. rewrite Hm. destruct (decide _); [by right|by left].
    + intros addr' id (ids' & Hids' & Hid). destruct (decide (addr' = addr)) as [->|Hne]; [|left; exists ids'; by rewrite lookup_insert_ne].
      assert (ids' = ids) as -> by congruence. rewrite Hids in Hid. apply elem_of_app in Hid as [Hid|Hid]; [right; left; by rewrite Hm, decide_True|].
      rewrite lookup_insert_eq. destruct r as [id0|]; [|left; by eexists]. apply elem_of_cons in Hid as [->|Hid]; [right; right; set_solver|left; by eexists].
    + destruct r; set_solver.
    + intros id Hid. destruct r as [id0|]; [|by apply I4]. apply elem_of_union in Hid as [->%elem_of_singleton|Hid]; [|by apply I4].
      destruct (I1 addr id0) as (_ & c & Hc & _); [apply Hin; rewrite Hids; set_solver|]. by eexists.
    + rewrite Ec. done.
  - cbn. apply set_eq. intros id. rewrite !elem_of_dom, Hm. destruct (decide _); [|done]. by rewrite fmap_is_Some.
  - intros id [= ->]. assert (id ∈ ids) as Hid by (rewrite Hids; set_solver). destruct (I1 addr id (Hin id Hid)) as (Hnh & c & Hc & Ha & Hidle).
    assert (m !! id = Some c) as Hmc.
    { rewrite Hm, decide_False; [done|]. apply NoDup_app in Hnd as (_ & Hdis & _). intros Hbad. apply (Hdis id Hbad). set_solver. }
    split; [done|]. split; [cbn; set_solver|]. exists c. split_and!; [done|done|done|]. specialize (Hrec id eq_refl). unfold recyclable_at in Hrec. by rewrite Hmc in Hrec.
Qed.

(** ** A client keeps its address and its login *)
Definition whose (c : Client) : string * RedisAuthIdentity := (cl_Addr c, cl_AuthIdentity c).
Definition inert {A} (m : CM A) : Prop := ∀ w, whose (cw_client (m w).2) = whose (cw_client w).

Lemma inert_bind {A B} (m : CM A) (k : A → CM B) : inert m → (∀ a, inert (k a)) → inert (m ≫= k).
Proof. intros Hm Hk w. unfold mbind, M_bind. specialize (Hm w). destruct (m w) as [[a|e|] w1]; [by rewrite Hk|done|done]. Qed.
Lemma inert_on_err {A} (m : CM A) h : inert m → (∀ e, inert (h e)) → inert (on_err m h).
Proof. intros Hm Hh w. unfold on_err. specialize (Hm w). destruct (m w) as [[a|e|] w1]; [done|by rewrite Hh|done]. Qed.

Lemma inert_Flush : inert client_Flush.
Proof.
  intros w. unfold client_Flush, get_client, gets, mbind, M_bind. destruct (cl_pipe _) as [p|]; [|done]. destruct (pl_flushed p); [done|]. cbn. by destruct (first_error _) as [[]|].
Qed.
Lemma inert_Send cmd : inert (Send cmd).
Proof. intros w. unfold Send, get_client, gets, mbind, M_bind. destruct (cl_pipe _) as [p|]; [by destruct (_ && _)|]. by destruct (cl_open _). Qed.
Lemma inert_take_reply : inert take_reply.
Proof. intros w. unfold take_reply, get_client, gets, mbind, M_bind. destruct (cl_pipe _) as [p|]; [|done]. cbn. by destruct (nth _ _ _). Qed.
Lemma inert_Receive : inert Receive.
Proof.
  unfold Receive. apply inert_bind; [done|]. intros c. destruct (cl_pipe c) as [p|]; [|done]. destruct (decide _); [done|].
  apply inert_bind; [destruct (pl_flushed p); [done|apply inert_Flush]|]. intros _. apply inert_take_reply.
Qed.
Lemma inert_drain fuel : ∀ r, inert (drain fuel r).
Proof.
  induction fuel as [|fuel IH]; intros r; [done|]. cbn [drain]. apply inert_bind; [done|]. intros c. destruct (cl_pipe c); [|done]. apply inert_bind; [apply inert_Receive|exact IH].
Qed.
Lemma inert_Do cmd : inert (Do cmd).
Proof.
  unfold Do. apply inert_bind; [done|]. intros c. destruct (cl_pipe c) as [p|].
  - destruct (_ && _); [done|]. apply inert_bind; [apply inert_Send|intros _]. apply inert_bind; [apply inert_Flush|intros _]. apply inert_drain.
  - destruct (cl_open c); [|done]. cbn [negb]. apply inert_bind; [done|]. by intros [|[] ?].
Qed.
Lemma cop_keeps o : kept (run_cop o) ∧ inert (run_cop o).
Proof.
  destruct o; cbn [run_cop]; (split; [keep|]).
  - apply inert_bind; [apply inert_Do|done].
  - apply inert_Send.
  - apply inert_Flush.
  - apply inert_bind; [apply inert_Receive|done].
  - apply commands_kept.
  - unfold Select. apply inert_bind; [done|]. intros c. destruct (decide _); [done|]. apply inert_bind; [|done]. apply inert_on_err; [|done]. apply inert_bind; [apply inert_Do|done].
  - done.
Qed.

(** ** The calls *)
Lemma Do_idle_again cmd w v : idle (cw_client w) → (Do cmd w).1 = Ok v → idle (cw_client (Do cmd w).2).
Proof.
  intros (Ho & Hb & Hp). unfold Do, get_client, gets, mbind, M_bind. rewrite Hp, Ho. cbn [negb]. unfold ask.
  destruct (results_of w [cmd]) as [|[] ?]; cbn; intros Hr; try discriminate Hr; done.
Qed.

Lemma new_client addr auth timeout tick cw : NewClientWithAuthIdentity addr auth timeout tick = (Ok tt, cw) →
  client_ok (cw_client cw) ∧ whose (cw_client cw) = (addr, auth) ∧ idle (cw_client cw).
Proof.
  unfold NewClientWithAuthIdentity. destruct (Validate auth); [|done]. cbn [negb]. set (w0 := mkCW _ _ _). unfold on_err, mbind, M_bind.
  pose proof (kept_Do [word "PING"] w0 ltac:(done)) as Hk. pose proof (inert_Do [word "PING"] w0) as Hi.
  assert (∀ v, (Do [word "PING"] w0).1 = Ok v → idle (cw_client (Do [word "PING"] w0).2)) as Hidle.
  { intros v. by apply Do_idle_again. }
  destruct (Do [word "PING"] w0) as [[v|e|] w1]; [|done..]. intros [= <-]. split_and!; [done|done|by eapply Hidle].
Qed.

Lemma get_inv addr clock id w : pw_clients w !! id = None → pinv w → let '(r, w') := GetClient addr clock id w in
  pinv w' ∧ ∀ id', r = Ok id' → id' ∉ pw_held w ∧ id' ∈ pw_held w' ∧ ∃ c, pw_clients w' !! id' = Some c ∧ whose c = (addr, po_auth (pw_pool w)) ∧ idle c.
Proof.
  intros Hnew Hv. unfold GetClient. pose proof (cache_inv addr clock w Hv) as Hc. destruct (getClientFromCache addr clock w) as [[[id0|]|e|] w1]; [| |by destruct Hc..].
  - destruct Hc as (C1 & C2 & C3 & C4 & C5). split; [done|]. intros id' [= <-]. destruct (C5 id0 eq_refl) as (D1 & D2 & c & D3 & D4 & D5 & _). split_and!; [done|done|].
    exists c. split_and!; [done| |done]. destruct (i_client _ C1 id0 c D3) as (_ & Ha & _). unfold whose. rewrite Ha, C2, D4. done.
  - destruct Hc as (C1 & C2 & C3 & C4 & _). pose proof C1 as [I1 I2 I3 I4 I5].
    assert (pw_clients w1 !! id = None) as Hnew1 by (apply not_elem_of_dom; rewrite C4; by apply not_elem_of_dom).
    assert (po_auth (pw_pool w1) = po_auth (pw_pool w)) as Hauth by by rewrite C2.
    destruct (NewClientWithAuthIdentity addr (po_auth (pw_pool w1)) (po_timeout (pw_pool w1)) (pw_tick w1)) as [[[]|e|] cw] eqn:En; [|by split; [split|]..].
    apply new_client in En as (N1 & N2 & N3). injection N2 as N2 N4. split.
    + split; cbn; [| exact I2| | |exact I5].
      * intros addr' id' Hin. destruct (I1 addr' id' Hin) as (J1 & c & J2 & J3 & J4). assert (id' ≠ id) by congruence. split; [set_solver|]. exists c. by rewrite lookup_insert_ne.
      * intros id' c. destruct (decide (id' = id)) as [->|Hne]; [|rewrite lookup_insert_ne by done].
        -- rewrite lookup_insert_eq. intros [= <-]. split_and!; [done|done|left; set_solver].
        -- intros Hid'. destruct (I3 id' c Hid') as (J1 & J2 & J3). split_and!; [done|done|]. destruct J3 as [J3|J3]; [left; set_solver|by right].
      * intros id' Hid'. destruct (decide (id' = id)) as [->|Hne]; [rewrite lookup_insert_eq; by eexists|rewrite lookup_insert_ne by done]. apply I4. set_solver.
    + intros id' [= <-]. split; [|split; [cbn; set_solver|]]. { intros Hid. destruct (i_held _ Hv id Hid) as [? ?]. congruence. }
      exists (cw_client cw). cbn. rewrite lookup_insert_eq. split_and!; [done|unfold whose; by rewrite N2, N4, Hauth|done].
Qed.

Lemma put_inv id clock w : id ∈ pw_held w → pinv w → pinv (PutClient id clock w).
Proof.
  intros Hid Hv. pose proof Hv as [I1 I2 I3 I4 I5]. unfold PutClient. destruct (pw_clients w !! id) as [c|] eqn:Ec; [|done]. destruct (I3 id c Ec) as (K1 & K2 & _).
  assert (∀ addr id', in_pool (pw_pool w) addr id' → id' ≠ id) as Hne by (intros addr id' Hin ->; by destruct (I1 addr id Hin)).
  destruct (negb _ || po_closed (pw_pool w)) eqn:Eb.
  - split; cbn; [| exact I2 | | |exact I5].
    + intros addr id' Hin. destruct (I1 addr id' Hin) as (J1 & c' & J2 & J3 & J4). split; [set_solver|]. exists c'. rewrite lookup_alter_ne by (symmetry; by eapply Hne). done.
    + intros id' c'. destruct (decide (id' = id)) as [->|Hni]; [|rewrite lookup_alter_ne by done].
      * rewrite lookup_alter_eq, Ec. intros [= <-]. split_and!; [by apply close_ok|done|by right; left].
      * intros Hc'. destruct (I3 id' c' Hc') as (J1 & J2 & J3). split_and!; [done|done|]. destruct J3 as [J3|J3]; [left; set_solver|by right].
    + intros id' Hid'. destruct (decide (id' = id)) as [->|Hni]; [set_solver|]. rewrite lookup_alter_ne by done. apply I4. set_solver.
  - apply orb_false_iff in Eb as [Er Ecl]. apply negb_false_iff in Er. unfold recyclable_at in Er. rewrite Ec in Er. apply recyclable_idle in Er as (R1 & R2 & R3 & _); [|done].
    set (cache := default [] (po_pool (pw_pool w) !! cl_Addr c)).
    assert (∀ addr id', (∃ ids, <[cl_Addr c := id :: cache]> (po_pool (pw_pool w)) !! addr = Some ids ∧ id' ∈ ids) ↔ in_pool (pw_pool w) addr id' ∨ addr = cl_Addr c ∧ id' = id) as Hpool.
    { intros addr id'. destruct (decide (addr = cl_Addr c)) as [->|Hna]; [rewrite lookup_insert_eq|rewrite lookup_insert_ne by done].
      - unfold in_pool, cache. destruct (po_pool (pw_pool w) !! cl_Addr c) as [ids|]; cbn; split; [| | |].
        + intros (ids' & [= <-] & [->|Hin]%elem_of_cons); [by right|left; by exists ids].
        + intros [(ids' & [= <-] & Hin)|[_ ->]]; eexists; (split; [done|]); [by right|by left].
        + intros (ids' & [= <-] & [->|Hin]%elem_of_cons); [by right|set_solver].
        + intros [(ids' & ? & Hin)|[_ ->]]; [done|]. eexists. split; [done|by left].
      - unfold in_pool. split; [by left|]. intros [Hp|[? _]]; [exact Hp|done]. }
    split; cbn.
    + intros addr id' Hin. apply Hpool in Hin as [Hin|[-> ->]]; [|split; [set_solver|by exists c]]. destruct (I1 addr id' Hin) as (J1 & J2). split; [set_solver|done].
    + intros addr ids. destruct (decide (addr = cl_Addr c)) as [->|Hna]; [rewrite lookup_insert_eq|rewrite lookup_insert_ne by done; apply I2]. intros [= <-]. apply NoDup_cons. unfold cache.
      destruct (po_pool (pw_pool w) !! cl_Addr c) as [ids|] eqn:Ei; cbn; [|split; [set_solver|constructor]]. split; [|by eapply I2]. intros Hin. apply (Hne (cl_Addr c) id); [by exists ids|done].
    + intros id' c' Hc'. destruct (I3 id' c' Hc') as (J1 & J2 & J3). split_and!; [done|done|]. destruct (decide (id' = id)) as [->|Hni].
      * right. right. apply Hpool. right. split; [congruence|done].
      * destruct J3 as [J3|[J3|J3]]; [left; set_solver|by right; left|right; right]. apply Hpool. by left.
    + intros id' Hid'. apply I4. set_solver.
    + rewrite Ecl. done.
Qed.

Lemma use_inv id o w : id ∈ pw_held w → pinv w → pinv (use_client id o w).
Proof.
  intros Hid [I1 I2 I3 I4 I5]. unfold use_client. destruct (pw_clients w !! id) as [c|] eqn:Ec; [|done]. destruct (I3 id c Ec) as (K1 & K2 & _).
  destruct (cop_keeps o) as [Hk Hi]. specialize (Hk (mkCW c (pw_tick w) []) K1). specialize (Hi (mkCW c (pw_tick w) [])). set (cw := (run_cop o (mkCW c (pw_tick w) [])).2) in *.
  injection Hi as Ha Hau. cbn in Ha, Hau. split; cbn; [|exact I2| | |exact I5].
  - intros addr id' Hin. destruct (I1 addr id' Hin) as (J1 & c' & J2 & J3). split; [done|]. exists c'. rewrite lookup_insert_ne; [done|]. by intros <-.
  - intros id' c'. destruct (decide (id' = id)) as [->|Hni]; [rewrite lookup_insert_eq; intros [= <-]|rewrite lookup_insert_ne by done; apply I3]. split_and!; [done|congruence|by left].
  - intros id' Hid'. destruct (decide (id' = id)) as [->|Hni]; [rewrite lookup_insert_eq; by eexists|rewrite lookup_insert_ne by done; by apply I4].
Qed.

Lemma in_pooled p id : id ∈ pooled p ↔ ∃ addr, in_pool p addr id.
Proof.
  unfold pooled, in_pool. rewrite list_elem_of_bind. split.
  - intros ([addr ids] & Hid & Hin%elem_of_map_to_list). by exists addr, ids.
  - intros (addr & ids & Hin & Hid). exists (addr, ids). split; [done|]. by apply elem_of_map_to_list.
Qed.

Lemma cleanup_inv clock w : pinv w → pinv (Cleanup clock w).2.
Proof.
  intros Hv. pose proof Hv as [I1 I2 I3 I4 I5]. unfold Cleanup. destruct (po_closed (pw_pool w)) eqn:Ec; [done|]. cbn [snd].
  set (ok id := recyclable_at clock (pw_clients w) id). set (gone := filter _ (pooled _)).
  assert (∀ addr ids, po_pool (pw_pool w) !! addr = Some ids → filter (λ id, ok id = true) ids ≠ [] →
    omap (λ ids, match filter (λ id, ok id = true) ids with [] => None | ids => Some ids end) (po_pool (pw_pool w)) !! addr = Some (filter (λ id, ok id = true) ids)) as Hkeep.
  { intros addr ids Hi Hne. rewrite lookup_omap, Hi. cbn. by destruct (filter _ ids). }
  apply shrink_inv; [done|..].
  - intros addr ids'. rewrite lookup_omap. destruct (po_pool (pw_pool w) !! addr) as [ids|] eqn:Ei; [|done]. cbn. intros Hs.
    assert (ids' = filter (λ id, ok id = true) ids) as -> by (unfold ok; destruct (filter _ ids); [done|by injection Hs as <-]). exists ids. split_and!; [done|apply sublist_filter|].
    intros id [Hok Hid]%list_elem_of_filter. destruct (I1 addr id) as [Hnh _]; [by exists ids|]. split; [done|]. rewrite lookup_close_all, decide_False; [done|].
    intros [Hb _]%list_elem_of_filter. rewrite Hb in Hok. done.
  - intros id. rewrite lookup_close_all. destruct (decide _); [by right|by left].
  - intros addr id Hin. destruct (ok id) eqn:Eok.
    + left. destruct Hin as (ids & Hi & Hid). assert (id ∈ filter (λ id, ok id = true) ids) as Hf by by apply list_elem_of_filter. exists (filter (λ id, ok id = true) ids). split; [|done].
      apply Hkeep; [done|]. intros He. rewrite He in Hf. set_solver.
    + right. left. rewrite lookup_close_all, decide_True; [done|]. apply list_elem_of_filter. split; [done|]. apply in_pooled. by exists addr.
  - done.
  - done.
  - by rewrite Ec.
Qed.

Lemma pool_close_inv w : pinv w → pinv (pool_Close w).
Proof.
  intros Hv. pose proof Hv as [I1 I2 I3 I4 I5]. unfold pool_Close. destruct (po_closed (pw_pool w)) eqn:Ec; [done|].
  destruct (shrink_inv w ∅ (close_all (pooled (pw_pool w)) (pw_clients w)) (pw_held w) (pw_tick w) Hv) as [J1 J2 J3 J4 J5]; [done| | |done|exact I4|done|].
  - intros id. rewrite lookup_close_all. destruct (decide _); [by right|by left].
  - intros addr id Hin. right. left. rewrite lookup_close_all, decide_True; [done|]. apply in_pooled. by exists addr.
  - split; [exact J1|exact J2|exact J3|exact J4|done].
Qed.

Lemma exec_inv ev w w' : pool_exec ev w = Some w' → pinv w → pinv w'.
Proof.
  intros He Hv. destruct ev as [addr clock id|id clock|id o|clock|]; cbn [pool_exec] in He.
  - destruct (bool_decide_reflect (pw_clients w !! id = None)) as [Hn|]; [|done]. injection He as <-. pose proof (get_inv addr clock id w Hn Hv) as Hg. destruct (GetClient addr clock id w). apply Hg.
  - destruct (bool_decide_reflect (id ∈ pw_held w)); [|done]. injection He as <-. by apply put_inv.
  - destruct (bool_decide_reflect (id ∈ pw_held w)); [|done]. injection He as <-. by apply use_inv.
  - injection He as <-. by apply cleanup_inv.
  - injection He as <-. by apply pool_close_inv.
Qed.

Lemma run_pinv auth timeout evs w : pool_run auth timeout evs = Some w → pinv w.
Proof.
  unfold pool_run. revert w. induction evs as [|ev evs IH] using rev_ind; intros w.
  - intros [= <-]. split; cbn; try done. intros addr id (ids & ? & _). done.
  - rewrite foldl_app. cbn. destruct (foldl _ _ evs) as [w0|]; [|done]. cbn. intros He. eapply exec_inv; [exact He|by apply IH].
Qed.
End keeps.

(** C29: in every run of a pool and its callers, a client handed out is connected to the
    address asked for with the pool's login, has no reply outstanding and is held by nobody
    else; every connection that is open is held by a caller or in the pool; and once the
    pool is closed it keeps none. *)
Theorem pool_exclusive `{RedisEnd} auth timeout evs w : pool_run auth timeout evs = Some w →
  (∀ addr clock id id' w', pw_clients w !! id = None → GetClient addr clock id w = (Ok id', w') → id' ∉ pw_held w ∧
     ∃ c, pw_clients w' !! id' = Some c ∧ cl_Addr c = addr ∧ cl_AuthIdentity c = po_auth (pw_pool w) ∧ cl_open c = true ∧ cl_pipe c = None) ∧
  (∀ id c, pw_clients w !! id = Some c → cl_open c = true → id ∈ pw_held w ∨ in_pool (pw_pool w) (cl_Addr c) id) ∧
  (po_closed (pw_pool w) = true → po_pool (pw_pool w) = ∅).
Proof.
  intros Hrun. pose proof (run_pinv auth timeout evs w Hrun) as Hv. split_and!.
  - intros addr clock id id' w' Hn Hg. pose proof (get_inv addr clock id w Hn Hv) as Hi. rewrite Hg in Hi. destruct Hi as [_ Hi].
    destruct (Hi id' eq_refl) as (H1 & _ & c & H2 & H3 & H4 & _ & H5). injection H3 as H3 H6. split; [done|]. exists c. done.
  - intros id c Hc Ho. destruct (i_client _ Hv id c Hc) as (_ & _ & [?|[?|?]]); [by left|congruence|by right].
  - apply Hv.
Qed.

(** * A run *)
Definition demo_end : RedisEnd := {| rd_answer _ cmds := (λ _, CVal (VStr (bstr "OK"))) <$> cmds; rd_time n := Z.of_nat n |}.
Definition demo_identity : RedisAuthIdentity := mkLogin [] (bstr "secret").
(** a client is used and put back, another left with a reply to read *)
Definition demo_pool_events : list pevent :=
  [PGet "a:1" (λ _, 1) 0; PGet "a:1" (λ _, 2) 1; PUse 0 (OpDo [bstr "PING"]); PUse 1 (OpSend [bstr "PING"]); PPut 0 (λ _, 9); PPut 1 (λ _, 10); PCleanup (λ _, 11)].

Lemma pool_exclusive_witness : ∃ w w', @pool_run demo_end demo_identity 100 demo_pool_events = Some w ∧ @GetClient demo_end "a:1" (λ _, 20) 2 w = (Ok 0%nat, w') ∧
  cl_open <$> pw_clients w !! 1%nat = Some false ∧ 0%nat ∉ pw_held w ∧ ∃ c, pw_clients w' !! 0%nat = Some c ∧ cl_Addr c = "a:1"%string ∧ cl_open c = true ∧ cl_pipe c = None.
Proof.
  assert (match @pool_run demo_end demo_identity 100 demo_pool_events with
    | Some w => (cl_open <$> pw_clients w !! 1%nat, pw_clients w !! 2%nat, (@GetClient demo_end "a:1" (λ _, 20) 2 w).1) | None => (None, None, Panic) end = (Some false, None, Ok 0%nat)) as Hd
    by (vm_compute; reflexivity).
  destruct (@pool_run demo_end demo_identity 100 demo_pool_events) as [w|] eqn:Hrun; [|discriminate Hd]. injection Hd as H1 H2 H3.
  destruct (@GetClient demo_end "a:1" (λ _, 20) 2 w) as [r w'] eqn:Hg. cbn in H3. subst r. exists w, w'.
  destruct (pool_exclusive demo_identity 100 demo_pool_events w Hrun) as (Hp & _ & _). destruct (Hp "a:1"%string (λ _, 20) 2%nat 0%nat w' H2 Hg) as (P1 & c & P2 & P3 & _ & P4 & P5).
  split; [reflexivity|]. split; [exact Hg|]. split; [exact H1|]. split; [exact P1|]. exists c. split; [exact P2|]. split; [exact P3|]. split; [exact P4|exact P5].
Defined.

(** * The cache of what servers say of themselves: [InfoCache] *)
Record InfoCache := mkInfoCache { ic_data : option (gmap string (gmap bytes bytes)) }.
Definition info_load (addr : string) (c : InfoCache) : option (gmap bytes bytes) := match ic_data c with Some data => data !! addr | None => None end.
(** a server that did not answer is kept as one that says nothing *)
Definition info_store (addr : string) (info : option (gmap bytes bytes)) (c : InfoCache) : gmap bytes bytes * InfoCache :=
  let data := default ∅ (ic_data c) in
  let entry := match info with Some info => info | None => default ∅ (data !! addr) end in
  (entry, mkInfoCache (Some (<[addr := entry]> data))).
(** [Get]; [asked] is what [getSlow] returns, [None] an error *)
Definition info_Get (addr : string) (asked : option (gmap bytes bytes)) (c : InfoCache) : gmap bytes bytes * InfoCache :=
  match info_load addr c with
  | Some info => (info, c)
  | None => info_store addr asked c
  end.
Definition GetRunId (addr : string) (asked : option (gmap bytes bytes)) (c : InfoCache) : bytes * InfoCache :=
  let '(info, c) := info_Get addr asked c in (default [] (info !! bstr "run_id"), c).

(** a server is asked once: what it said, or its silence, is given again *)
Lemma info_asked_once addr asked asked' c : let '(info, c') := info_Get addr asked c in
  info_Get addr asked' c' = (info, c') ∧ ∀ addr', addr' ≠ addr → info_load addr' c' = info_load addr' c.
Proof.
  unfold info_Get. destruct (info_load addr c) as [info|] eqn:E; [by rewrite E|]. unfold info_store. cbn. unfold info_load at 1. cbn. rewrite lookup_insert_eq. split; [done|].
  intros addr' Hne. unfold info_load. cbn. rewrite lookup_insert_ne by done. by destruct (ic_data c).
Qed.
