(* ===== verification/Sentinel.v ===== *)
(** The sentinels (pkg/utils/redis/sentinel.go): the commands sent to one sentinel, the
    votes of all of them, and the watcher of the dashboard (pkg/topom/topom_sentinel.go)
    that asks for the masters after a failover. *)

From S2P Require Import Prelude Bufio Resp RespNumbers Mapper Models TopomContext TopomState TopomProxy TopomGroup.
From S2P Require Import Router Stream Forward SessionState ClusterNodes TopomACL PitrFiles BackendConn RedisClient.
Record Sentinel := mkSentinel { se_Product : bytes; se_Auth : bytes }.

Definition NodeName (s : Sentinel) (gid : Z) : bytes := se_Product s ++ bstr "-" ++ FormatInt gid.

(** the group of a name, [None] when it is another product's *)
Definition isSameProduct (s : Sentinel) (name : bytes) : option Z :=
  if negb (has_prefix_of name (se_Product s)) then None
  else match drop (length (se_Product s)) name with
  | c :: ((_ :: _) as digits) =>
      if negb (bool_decide (c = x2d)) then None
      else match ParseInt digits with Ok n => Some n | _ => None end
  | _ => None
  end.

(** * Commands to one sentinel *)
Section commands.
Context `{RedisEnd} (s : Sentinel).

(** [defer func() { if !client.isRecyclable() { client.Close() } }()] *)
Definition recycle {A} (m : CM A) : CM A := λ w,
  let '(r, w) := m w in
  let c := cw_client w in
  (r, mkCW (if isRecyclable (rd_time (cw_tick w)) c then c else client_Close c) (S (cw_tick w)) (cw_log w)).

Definition send_all (cmds : list command) : CM unit := foldr (λ cmd k, Send cmd ;; k) (mret tt) cmds.
Fixpoint receive_all (n : nat) : CM (list rvalue) :=
  match n with
  | O => mret []
  | S n => v ← Receive; vs ← receive_all n; mret (v :: vs)
  end.
(** commands sent together, and then their replies *)
Definition pipelined (cmds : list command) : CM (list rvalue) :=
  send_all cmds ;;
  (if decide (cmds = []) then mret tt else client_Flush) ;;
  receive_all (length cmds).

Definition exists_command (name : bytes) : command := [word "SENTINEL"; word "get-master-addr-by-name"; name].
Definition is_nil (v : rvalue) : bool := match v with VNil => true | _ => false end.
Definition existsCommand (names : list bytes) : CM (gmap bytes bool) := recycle (
  vs ← pipelined (exists_command <$> names);
  mret (foldl (λ m x, <[x.1 := negb (is_nil x.2)]> m) ∅ (zip names vs))).

(** the names that a sentinel knows *)
Definition known (exists_ : gmap bytes bool) (names : list bytes) : list bytes := filter (λ name, exists_ !! name = Some true) names.

Definition remove_command (name : bytes) : command := [word "SENTINEL"; word "remove"; name].
Definition removeCommand (names : list bytes) : CM unit := recycle (
  exists_ ← existsCommand names;
  pipelined (remove_command <$> known exists_ names) ;;
  mret tt).

Definition slaves_command (name : bytes) : command := [word "SENTINEL"; word "slaves"; name].
Definition slavesCommand (names : list bytes) : CM (gmap bytes (list (gmap bytes bytes))) := recycle (
  exists_ ← existsCommand names;
  vs ← pipelined (slaves_command <$> known exists_ names);
  lists ← lift (each_value (λ v, l ← replyValues v; each_value replyStringMap l) vs);
  mret (list_to_map (zip (known exists_ names) lists))).

Definition master_of (m : gmap Z (gmap bytes bytes)) (p : gmap bytes bytes) : gmap Z (gmap bytes bytes) :=
  match isSameProduct s (default [] (p !! bstr "name")) with Some gid => <[gid := p]> m | None => m end.
Definition mastersCommand : CM (gmap Z (gmap bytes bytes)) := recycle (
  r ← Do [word "SENTINEL"; word "masters"];
  values ← lift (replyValues r);
  maps ← lift (each_value replyStringMap values);
  mret (foldl master_of ∅ maps)).

(** ** Monitoring *)
Record MonitorConfig := mkMonitor {
  mc_Quorum : Z; mc_ParallelSyncs : Z; mc_DownAfter : Z; mc_FailoverTimeout : Z; mc_NotificationScript : bytes; mc_ClientReconfigScript : bytes }.

Definition monitor_command (config : MonitorConfig) (gid : Z) (addr : bytes * Z) : command :=
  [word "SENTINEL"; word "monitor"; NodeName s gid; addr.1; FormatInt addr.2; FormatInt (mc_Quorum config)].
(** an option that is set only when it is given *)
Definition number_option (name : string) (n : Z) : command := if decide (n = 0) then [] else [word name; FormatInt n].
Definition text_option (name : string) (b : bytes) : command := if decide (b = []) then [] else [word name; b].
(** [int(d / time.Millisecond)], given when the duration is not 0 *)
Definition duration_option (name : string) (d : Z) : command := if decide (d = 0) then [] else [word name; FormatInt (millis d)].
Definition set_command (config : MonitorConfig) (gid : Z) : command :=
  [word "SENTINEL"; word "set"; NodeName s gid] ++ number_option "parallel-syncs" (mc_ParallelSyncs config) ++
  duration_option "down-after-milliseconds" (mc_DownAfter config) ++ duration_option "failover-timeout" (mc_FailoverTimeout config) ++
  text_option "auth-pass" (se_Auth s) ++ text_option "notification-script" (mc_NotificationScript config) ++
  text_option "client-reconfig-script" (mc_ClientReconfigScript config).

(** [r1], [r2] and [r3] are the orders in which the map of groups is ranged over *)
Definition monitorGroupsCommand (config : MonitorConfig) (r1 r2 r3 : list (Z * (bytes * Z))) : CM unit := recycle (
  removeCommand ((λ x, NodeName s x.1) <$> r1) ;;
  pipelined ((λ x, monitor_command config x.1 x.2) <$> r2) ;;
  pipelined ((λ x, set_command config x.1) <$> r3) ;;
  mret tt).

(** [removeGroupsAllDispatch]; [range] is the order of the masters *)
Definition removeAllCommand (range : gmap Z (gmap bytes bytes) → list Z) : CM unit :=
  masters ← mastersCommand;
  removeCommand (NodeName s <$> range masters).

Record SentinelGroup := mkSGroup { sg_Master : gmap bytes bytes; sg_Slaves : list (gmap bytes bytes) }.
Definition MastersAndSlavesClient (range : gmap Z (gmap bytes bytes) → list (Z * gmap bytes bytes)) : CM (gmap bytes SentinelGroup) := recycle (
  masters ← mastersCommand;
  let names := (λ x, NodeName s x.1) <$> range masters in
  slaves ← slavesCommand names;
  mret (list_to_map ((λ x, (NodeName s x.1, mkSGroup x.2 (default [] (slaves !! NodeName s x.1)))) <$> range masters))).

Definition FlushConfig : CM unit := Do [word "SENTINEL"; word "flushconfig"] ;; mret tt.

(** ** What a sentinel says of the masters: [mastersDispatch] *)
Record SentinelMaster := mkSMaster { sm_Addr : bytes; sm_Info : gmap bytes bytes; sm_Epoch : Z }.
Definition parse_master (info : gmap bytes bytes) : option SentinelMaster :=
  let field name := default [] (info !! bstr name) in
  match ParseInt (field "config-epoch"%string) with
  | Ok epoch =>
      let ip := field "ip"%string in
      let port := field "port"%string in
      if decide (ip = [] ∨ port = []) then None else Some (mkSMaster (JoinHostPort ip port) info epoch)
  | _ => None
  end.
Definition mastersDispatch : CM (gmap Z SentinelMaster) := masters ← mastersCommand; mret (omap parse_master masters).
End commands.

(** ** Announcements: the messages of [subscribeCommand] *)

(** whether a payload announces a switch of a group of this product *)
Definition announced (s : Sentinel) (payload : bytes) : outcome cerror bool :=
  match IndexByte payload x20 with
  | None => Err EInvalid
  | Some i => Ok (bool_decide (is_Some (isSameProduct s (take i payload))))
  end.
(** [None] among the messages is an error of the connection; [None] as a result: it waits *)
Fixpoint subscribeCommand (s : Sentinel) (messages : list (option bytes)) : option (outcome cerror unit) :=
  match messages with
  | [] => None
  | None :: _ => Some (Err EIO)
  | Some payload :: messages =>
      match announced s payload with
      | Ok true => Some (Ok tt)
      | Ok false => subscribeCommand s messages
      | Err e => Some (Err e)
      | Panic => Some Panic
      end
  end.

(** * All sentinels *)
Definition majority (n : nat) : nat := 1 + n `div` 2.

(** what the select statement of [Masters] gets: the end of the context, by its deadline or
    canceled, or the result of a sentinel, [None] when it failed *)
Inductive mevent := MDone (deadline : bool) | MResult (r : option (gmap Z SentinelMaster)).
Inductive verror := VCanceled | VLostMajority (voted : nat).

(** for each group the master with the greater epoch; the first one stays *)
Definition newer (a b : SentinelMaster) : SentinelMaster := if decide (sm_Epoch a < sm_Epoch b) then b else a.
Definition merge_votes (current m : gmap Z SentinelMaster) : gmap Z SentinelMaster := union_with (λ a b, Some (newer a b)) current m.

Definition elected (n voted : nat) (current : gmap Z SentinelMaster) : outcome verror (gmap Z bytes) :=
  if decide (voted < majority n)%nat then Err (VLostMajority voted) else Ok (sm_Addr <$> current).

(** the loop of [Masters]; [ended] is [cntx.Err()] when all have answered.  [None]: it waits. *)
Fixpoint masters_loop (n : nat) (ended : option bool) (alive : nat) (evs : list mevent) (voted : nat) (current : gmap Z SentinelMaster)
    : option (outcome verror (gmap Z bytes)) :=
  match alive with
  | O => Some (match ended with Some false => Err VCanceled | _ => elected n voted current end)
  | S alive =>
      match evs with
      | [] => None
      | MDone deadline :: _ => Some (if deadline then elected n voted current else Err VCanceled)
      | MResult None :: evs => masters_loop n ended alive evs voted current
      | MResult (Some m) :: evs => masters_loop n ended alive evs (S voted) (merge_votes current m)
      end
  end.
Definition Masters (n : nat) (ended : option bool) (evs : list mevent) : option (outcome verror (gmap Z bytes)) := masters_loop n ended n evs 0 ∅.

(** [Subscribe]: whether a switch of masters was announced *)
Inductive sevent := SDone | SResult (notified : bool).
Fixpoint subscribe_loop (n alive : nat) (evs : list sevent) : option bool :=
  if decide (alive < majority n)%nat then Some false
  else match evs, alive with
  | [], _ => None
  | SDone :: _, _ => Some false
  | SResult true :: _, _ => Some true
  | SResult false :: evs, S alive => subscribe_loop n alive evs
  | SResult false :: _, O => Some false
  end.
Definition Subscribe (n : nat) (evs : list sevent) : option bool := subscribe_loop n n evs.
(** the callback, called by the sentinel that is the majority's last to be subscribed *)
Definition on_subscribed (n : nat) (st : nat * nat) : nat * nat := let subscribed := S st.1 in (subscribed, if decide (subscribed = majority n) then S st.2 else st.2).

(** the results of [MonitorGroups], [RemoveGroups] and [RemoveGroupsAll]: [None] is the end
    of the context, a result is whether the sentinel succeeded *)
Fixpoint wait_all (waiting_for : nat) (evs : list (option bool)) (last : bool) : option bool :=
  match waiting_for with
  | O => Some last
  | S waiting_for =>
      match evs with
      | [] => None
      | None :: _ => Some false
      | Some ok :: evs => wait_all waiting_for evs (last && ok)
      end
  end.

(** * The watcher of the dashboard

    [rewatchSentinels] starts two goroutines: one subscribes and, through a channel with
    room for one token, triggers the other, which asks for the masters until it has
    succeeded twice, ten times at most. *)
Inductive poller := PIdle | PAsk (i success : nat) | PGone.
Record watcher := mkWatch {
  wa_trigger : bool;      (** a token in the channel *)
  wa_poller : poller;
  wa_cancelled : bool;
  wa_switched : list (gmap Z bytes);   (** the calls of [SwitchMasters] *)
  wa_owed : bool;         (** an announcement since the last request for the masters began *)
}.
Definition new_watcher : watcher := mkWatch false PIdle false [] false.

(** [callback]: a token, unless there is one *)
Definition announce (w : watcher) : watcher := mkWatch true (wa_poller w) (wa_cancelled w) (wa_switched w) true.
Definition cancel_watcher (w : watcher) : watcher := mkWatch (wa_trigger w) (wa_poller w) true (wa_switched w) (wa_owed w).
(** a round of the polling goroutine; [masters] is what [p.Masters] returns, [None] an
    error; [closed] says that the channel is closed *)
Definition poll_round (masters : option (gmap Z bytes)) (closed : bool) (w : watcher) : watcher :=
  match wa_poller w with
  | PIdle =>
      if wa_trigger w then mkWatch false (PAsk 0 0) (wa_cancelled w) (wa_switched w) (wa_owed w)
      else mkWatch false (if closed then PGone else PIdle) (wa_cancelled w) (wa_switched w) (wa_owed w)
  | PAsk i success =>
      if decide (i ≠ 10 ∧ wa_cancelled w = false ∧ success ≠ 2)%nat then
        match masters with
        | None => mkWatch (wa_trigger w) (PAsk (S i) success) (wa_cancelled w) (wa_switched w) false
        | Some m => mkWatch (wa_trigger w) (PAsk (S i) (S success)) (wa_cancelled w) (wa_switched w ++ [m]) false
        end
      else mkWatch (wa_trigger w) PIdle (wa_cancelled w) (wa_switched w) (wa_owed w)
  | PGone => w
  end.

Inductive wevent := WAnnounce | WCancel | WPoll (masters : option (gmap Z bytes)).
Definition watch_step (w : watcher) (ev : wevent) : watcher :=
  match ev with
  | WAnnounce => announce w
  | WCancel => cancel_watcher w
  | WPoll masters => poll_round masters (wa_cancelled w) w
  end.

(** * Names *)
Lemma has_prefix_app p b : has_prefix_of (p ++ b) p = true.
Proof. unfold has_prefix_of. apply bool_decide_eq_true. by rewrite take_app_length. Qed.

Lemma FormatInt_cons n : ∃ c b, FormatInt n = c :: b.
Proof.
  destruct (FormatInt n) as [|c b] eqn:E; [|eauto]. exfalso. revert E. unfold FormatInt. destruct (n <? 0); [done|]. apply format_digits_ne.
Qed.

(** the group of the name of a group *)
Lemma isSameProduct_NodeName s gid : - 2 ^ 63 <= gid < 2 ^ 63 → isSameProduct s (NodeName s gid) = Some gid.
Proof.
  intros Hg. unfold isSameProduct, NodeName. rewrite has_prefix_app. cbn [negb]. rewrite drop_app_length. destruct (FormatInt_cons gid) as (c & b & E).
  rewrite E. assert (bstr "-" ++ c :: b = x2d :: c :: b) as -> by done. rewrite bool_decide_true by done. cbn [negb]. by rewrite <-E, parse_format.
Qed.

(** * The vote *)

(** the sentinels that voted in a run of the loop *)
Fixpoint votes_of (alive : nat) (evs : list mevent) : list (gmap Z SentinelMaster) :=
  match alive, evs with
  | S alive, MResult None :: evs => votes_of alive evs
  | S alive, MResult (Some m) :: evs => m :: votes_of alive evs
  | _, _ => []
  end.

(** [x] is the newest master of a group that the votes name *)
Definition newest (votes : list (gmap Z SentinelMaster)) (gid : Z) (x : SentinelMaster) : Prop :=
  (∃ m, m ∈ votes ∧ m !! gid = Some x) ∧ ∀ m y, m ∈ votes → m !! gid = Some y → sm_Epoch y ≤ sm_Epoch x.
Definition counts (votes : list (gmap Z SentinelMaster)) (current : gmap Z SentinelMaster) : Prop :=
  ∀ gid, match current !! gid with Some x => newest votes gid x | None => ∀ m, m ∈ votes → m !! gid = None end.

Lemma counts_merge votes current m : counts votes current → counts (votes ++ [m]) (merge_votes current m).
Proof.
  intros Hc gid. specialize (Hc gid). unfold merge_votes. rewrite lookup_union_with. destruct (current !! gid) as [x|], (m !! gid) as [y|] eqn:Ey; cbn.
  - destruct Hc as ((m0 & Hm0 & Hx) & Hmax). unfold newer. destruct (decide (sm_Epoch x < sm_Epoch y)).
    + split; [exists m; set_solver|]. intros m1 z Hm1 Hz. apply elem_of_app in Hm1 as [Hm1| ->%list_elem_of_singleton]; [specialize (Hmax _ _ Hm1 Hz); lia|]. assert (z = y) as -> by congruence. lia.
    + split; [exists m0; set_solver|]. intros m1 z Hm1 Hz. apply elem_of_app in Hm1 as [Hm1| ->%list_elem_of_singleton]; [by eapply Hmax|]. assert (z = y) as -> by congruence. lia.
  - destruct Hc as ((m0 & Hm0 & Hx) & Hmax). split; [exists m0; set_solver|]. intros m1 z Hm1 Hz. apply elem_of_app in Hm1 as [Hm1| ->%list_elem_of_singleton]; [by eapply Hmax|congruence].
  - split; [exists m; set_solver|]. intros m1 z Hm1 Hz. apply elem_of_app in Hm1 as [Hm1| ->%list_elem_of_singleton]; [rewrite (Hc m1 Hm1) in Hz; done|]. assert (z = y) as -> by congruence. lia.
  - intros m1 Hm1. apply elem_of_app in Hm1 as [Hm1| ->%list_elem_of_singleton]; [by apply Hc|done].
Qed.

Lemma masters_loop_spec n ended alive : ∀ evs votes current masters, counts votes current →
  masters_loop n ended alive evs (length votes) current = Some (Ok masters) →
  (majority n ≤ length (votes ++ votes_of alive evs))%nat ∧ ∃ final, counts (votes ++ votes_of alive evs) final ∧ masters = sm_Addr <$> final.
Proof.
  assert (∀ votes current masters, counts votes current → elected n (length votes) current = Ok masters →
    (majority n ≤ length (votes ++ []))%nat ∧ ∃ final, counts (votes ++ []) final ∧ masters = sm_Addr <$> final) as Hel.
  { intros votes current masters Hc. unfold elected. rewrite app_nil_r. destruct (decide _); [done|]. intros [= <-]. split; [lia|]. by exists current. }
  induction alive as [|alive IH]; intros evs votes current masters Hc; cbn [masters_loop votes_of].
  - destruct ended as [[]|]; [|done|]; intros [= He]; by eapply Hel.
  - destruct evs as [|[deadline|[m|]] evs]; [done| | |].
    + destruct deadline; [|done]. intros [= He]. by eapply Hel.
    + intros Hl. specialize (IH evs (votes ++ [m]) (merge_votes current m) masters (counts_merge _ _ _ Hc)). rewrite length_app, Nat.add_1_r in IH.
      destruct (IH Hl) as [H1 (final & H2 & H3)]. rewrite <-app_assoc in H1, H2. split; [exact H1|]. by exists final.
    + by apply IH.
Qed.

(** enough events, or the end of the context, give an answer *)
Lemma masters_loop_ends n ended alive : ∀ evs voted current, (alive ≤ length evs)%nat → masters_loop n ended alive evs voted current ≠ None.
Proof.
  induction alive as [|alive IH]; intros evs voted current Hl; [done|]. destruct evs as [|[deadline|[m|]] evs]; cbn in Hl |- *; [lia|done|apply IH; lia|apply IH; lia].
Qed.

(** [Masters] answers once every sentinel has answered or failed, or the context has
    ended; when it succeeds more than half of the sentinels have voted, and for each group
    it gives the address with the greatest epoch among those that voted, and none for the
    groups nobody knows. *)
Theorem masters_elected n ended evs : (n ≤ length evs)%nat → ∃ r, Masters n ended evs = Some r ∧
  ∀ masters, r = Ok masters → let votes := votes_of n evs in
    (n < 2 * length votes)%nat ∧ (length votes ≤ n)%nat ∧
    ∀ gid, match masters !! gid with
      | Some addr => ∃ x, newest votes gid x ∧ sm_Addr x = addr
      | None => ∀ m, m ∈ votes → m !! gid = None
      end.
Proof.
  intros Hl. unfold Masters. destruct (masters_loop n ended n evs 0 ∅) as [r|] eqn:E; [|by apply masters_loop_ends in E]. exists r. split; [done|].
  intros masters ->. apply (masters_loop_spec n ended n evs [] ∅) in E as [H1 (final & H2 & ->)]; [|intros gid; rewrite lookup_empty; set_solver].
  cbn [app] in H1, H2. cbn zeta. split_and!.
  - unfold majority in H1. pose proof (Nat.div_mod n 2 ltac:(lia)). pose proof (Nat.mod_upper_bound n 2). lia.
  - clear. revert evs. induction n as [|n IH]; intros [|[d|[m|]] evs]; cbn; try lia; specialize (IH evs); lia.
  - intros gid. rewrite lookup_fmap. specialize (H2 gid). destruct (final !! gid) as [x|]; cbn; [by exists x|done].
Qed.

Definition demo_master (addr : string) (epoch : Z) : SentinelMaster := mkSMaster (bstr addr) ∅ epoch.
(** two of three sentinels answer; the second has the newer epoch of group 1 *)
Lemma masters_elected_witness : let evs := [MResult (Some {[1 := demo_master "a:1" 3; 2 := demo_master "b:1" 1]}); MResult None; MResult (Some {[1 := demo_master "a:2" 4]})] in
  match Masters 3 None evs with Some (Ok m) => (m !! 1, m !! 2, m !! 3) | _ => (None, None, None) end = (Some (bstr "a:2"), Some (bstr "b:1"), None) ∧
  ∃ r, Masters 3 None evs = Some r.
Proof.
  intros evs. split; [vm_compute; reflexivity|]. destruct (masters_elected 3 None evs ltac:(cbn; lia)) as (r & Hr & _). exists r. exact Hr.
Defined.

(** ** Subscriptions *)

(** a switch is reported exactly when it is announced while more than half of the sentinels
    are still subscribed *)
Lemma subscribe_notified n alive : ∀ evs, subscribe_loop n alive evs = Some true ↔
  ∃ k rest, evs = replicate k (SResult false) ++ SResult true :: rest ∧ (k + majority n ≤ alive)%nat.
Proof.
  induction alive as [|alive IH]; intros evs.
  - assert (subscribe_loop n 0 evs = Some false) as -> by (destruct evs; cbn; by rewrite decide_True by (unfold majority; lia)). split; [done|]. intros (k & rest & _ & Hk). unfold majority in Hk. lia.
  - assert (subscribe_loop n (S alive) evs = if decide (S alive < majority n)%nat then Some false else match evs with
      | [] => None | SDone :: _ => Some false | SResult true :: _ => Some true | SResult false :: evs => subscribe_loop n alive evs end) as -> by by destruct evs as [|[|[]] evs].
    destruct (decide _) as [Hlt|Hge]; [split; [done|]; intros (k & rest & _ & Hk); lia|]. destruct evs as [|[|[]] evs].
    + split; [done|]. intros ([|k] & rest & ? & _); done.
    + split; [done|]. intros ([|k] & rest & ? & _); done.
    + split; [|done]. intros _. exists 0%nat, evs. split; [done|lia].
    + rewrite IH. split.
      * intros (k & rest & -> & Hk). exists (S k), rest. split; [done|lia].
      * intros ([|k] & rest & He & Hk); [done|]. injection He as ->. exists k, rest. split; [done|lia].
Qed.

(** the callback runs once, when the majority is subscribed *)
Lemma subscribed_once n k : Nat.iter k (on_subscribed n) (0, 0)%nat = (k, if decide (majority n ≤ k)%nat then 1 else 0)%nat.
Proof.
  induction k as [|k IH]; [by rewrite decide_False by (unfold majority; lia)|]. change (Nat.iter (S k) (on_subscribed n) (0, 0)%nat) with (on_subscribed n (Nat.iter k (on_subscribed n) (0, 0)%nat)).
  rewrite IH. unfold on_subscribed. cbn [fst snd]. f_equal. destruct (decide (S k = majority n)) as [He|Hn].
  - rewrite decide_False by lia. by rewrite decide_True by lia.
  - destruct (decide (majority n ≤ k)%nat); [by rewrite decide_True by lia|by rewrite decide_False by lia].
Qed.

(** success is the success of all *)
Lemma wait_all_ok n : ∀ evs last, wait_all n evs last = Some true ↔ last = true ∧ (n ≤ length evs)%nat ∧ take n evs = replicate n (Some true).
Proof.
  induction n as [|n IH]; intros evs last; cbn [wait_all]; [split; [intros [= ->]; by rewrite take_0; split_and!; [|lia|]|by intros (-> & _)]|].
  destruct evs as [|[ok|] evs]; [split; [done|]; intros (_ & ? & _); cbn in *; lia| |split; [done|]; intros (_ & _ & ?); done].
  rewrite IH. cbn. rewrite andb_true_iff. split; [intros ([-> ->] & ? & ->); split_and!; [done|lia|done]|]. intros (-> & ? & [= -> ->]). split_and!; [done|done|lia|done].
Qed.

(** * No announcement is lost *)
Definition watch_run (evs : list wevent) : watcher := foldl watch_step new_watcher evs.

Record watch_ok (w : watcher) : Prop := mkWatchOk {
  wo_owed : wa_owed w = true → wa_cancelled w = true ∨ wa_trigger w = true ∨ wa_poller w = PAsk 0 0;
  wo_tries : ∀ i success, wa_poller w = PAsk i success → (i ≤ 10 ∧ success ≤ 2)%nat;
  wo_gone : wa_poller w = PGone → wa_cancelled w = true;
}.

Lemma watch_step_ok w ev : watch_ok w → watch_ok (watch_step w ev).
Proof.
  intros [H1 H2 H3]. destruct ev as [| |masters]; cbn [watch_step].
  - split; cbn; [by right; left|done|done].
  - split; cbn; [by left|done|done].
  - unfold poll_round. destruct (wa_poller w) as [|i success|] eqn:Ep.
    + destruct (wa_trigger w) eqn:Et.
      * split; cbn; [by right; right|intros i success [= <- <-]; lia|done].
      * split; cbn; [|by destruct (wa_cancelled w)|by destruct (wa_cancelled w)]. intros Ho. destruct (H1 Ho) as [?|[?|?]]; [by left|done|done].
    + destruct (H2 i success eq_refl). destruct (decide _) as [(Hi & _ & Hs)|Hn]; [destruct masters|].
      * split; cbn; [done|intros i' s' [= <- <-]; lia|done].
      * split; cbn; [done|intros i' s' [= <- <-]; lia|done].
      * split; cbn; [|done|done]. intros Ho. destruct (H1 Ho) as [?|[?|[= -> ->]]]; [by left|by right; left|]. left. destruct (wa_cancelled w); [done|]. exfalso. apply Hn. done.
    + split; rewrite Ep; [exact H1|exact H2|exact H3].
Qed.

Lemma watch_run_ok evs : watch_ok (watch_run evs).
Proof.
  unfold watch_run. induction evs as [|ev evs IH] using rev_ind; [by split|]. rewrite foldl_app. by apply watch_step_ok.
Qed.

(** no failover that the sentinels announce is missed: whatever announcements, answers
    and rounds there were before, the masters are asked for again within three rounds of
    the polling goroutine after an announcement, unless the watcher is canceled; and a
    token never causes more than ten requests. *)
Theorem announcement_followed evs m1 m2 m3 : let w := watch_run evs in
  wa_owed w = true → wa_cancelled w = false →
  (∃ k, (k ≤ 3)%nat ∧ wa_owed (foldl watch_step w (take k [WPoll m1; WPoll m2; WPoll m3])) = false) ∧
  ∀ i success, wa_poller w = PAsk i success → (i ≤ 10)%nat.
Proof.
  intros w Ho Hc. destruct (watch_run_ok evs) as [H1 H2 H3]. fold w in H1, H2, H3. split; [|intros i success Hp; by destruct (H2 _ _ Hp)].
  assert (∀ w m, wa_poller w = PAsk 0 0 → wa_cancelled w = false → wa_owed (watch_step w (WPoll m)) = false) as Hask.
  { intros w0 m Hp Hc0. cbn. unfold poll_round. rewrite Hp, Hc0. by destruct m. }
  destruct (wa_poller w) as [|i success|] eqn:Ep; [| |by rewrite H3 in Hc].
  - exists 2%nat. split; [lia|]. cbn [take foldl]. assert (wa_trigger w = true) as Ht by (destruct (H1 Ho) as [?|[?|?]]; [congruence|done|done]).
    apply Hask; cbn; unfold poll_round; rewrite Ep, Ht; done.
  - destruct (decide (i ≠ 10 ∧ wa_cancelled w = false ∧ success ≠ 2)%nat) as [Hgo|Hstop].
    + exists 1%nat. split; [lia|]. cbn. unfold poll_round. rewrite Ep, decide_True by done. by destruct m1.
    + exists 3%nat. split; [lia|]. cbn [take foldl]. assert (wa_trigger w = true) as Ht by (destruct (H1 Ho) as [?|[?|[= -> ->]]]; [congruence|done|by exfalso; apply Hstop]).
      assert (watch_step w (WPoll m1) = mkWatch true PIdle false (wa_switched w) true) as E1 by (cbn; unfold poll_round; by rewrite Ep, decide_False, Ht, Ho, Hc). rewrite E1. apply Hask; done.
Qed.

(** a failover is announced while the masters are being asked for the second time *)
Lemma announcement_followed_witness :
  let evs := [WAnnounce; WPoll None; WPoll None; WPoll (Some ∅); WPoll (Some ∅); WAnnounce] in
  wa_poller (watch_run evs) = PAsk 3 2 ∧ wa_owed (watch_run evs) = true ∧
  ∃ k, (k ≤ 3)%nat ∧ wa_owed (foldl watch_step (watch_run evs) (take k [WPoll None; WPoll None; WPoll None])) = false.
Proof.
  intros evs. split; [vm_compute; reflexivity|]. split; [vm_compute; reflexivity|].
  destruct (announcement_followed evs None None None ltac:(vm_compute; reflexivity) ltac:(vm_compute; reflexivity)) as [(k & H1 & H2) _]. exists k. split; [exact H1|exact H2].
Defined.

(** * What a sentinel is told *)
Section told.
Context `{RedisEnd}.

Lemma send_all_piped cmds : ∀ w p, cl_pipe (cw_client w) = Some p → pl_flushed p = false →
  ∃ w', send_all cmds w = (Ok tt, w') ∧ cw_log w' = cw_log w ∧ cl_open (cw_client w') = cl_open (cw_client w) ∧
    cl_pipe (cw_client w') = Some (mkPipe (pl_cmds p ++ cmds) (pl_results p) (pl_recv p) false).
Proof.
  induction cmds as [|cmd cmds IH]; intros w p Hp Hf.
  { exists w. rewrite app_nil_r. split_and!; try done. rewrite Hp. by destruct p; cbn in *; subst. }
  change (send_all (cmd :: cmds)) with (Send cmd ;; send_all cmds). unfold mbind, M_bind. rewrite (Send_piped w p cmd Hp Hf).
  set (w1 := mkCW _ _ _). destruct (IH w1 _ eq_refl eq_refl) as (w' & Q1 & Q2 & Q3 & Q4). exists w'. split_and!; [done..|]. rewrite Q4. cbn. by rewrite <-app_assoc.
Qed.

Lemma receive_one w p v w1 : cl_pipe (cw_client w) = Some p → pl_flushed p = true → length (pl_results p) = length (pl_cmds p) →
  (pl_recv p < length (pl_cmds p))%nat → Receive w = (Ok v, w1) →
  ∃ r, drop (pl_recv p) (pl_results p) = r :: drop (S (pl_recv p)) (pl_results p) ∧ value_of r = Some v ∧ cw_log w1 = cw_log w ∧ cl_open (cw_client w1) = cl_open (cw_client w) ∧
    cl_pipe (cw_client w1) = (if decide (S (pl_recv p) = length (pl_cmds p)) then None else Some (mkPipe (pl_cmds p) (pl_results p) (S (pl_recv p)) (pl_flushed p))).
Proof.
  intros Hp Hf Hr Hl. rewrite (Receive_flushed w p Hp Hf Hl). intros (T1 & T2 & T3 & T4)%(take_reply_value w p v w1 Hp).
  destruct (lookup_lt_is_Some_2 (pl_results p) (pl_recv p) ltac:(lia)) as [r Hr0]. rewrite (nth_lookup_Some _ _ _ _ Hr0) in T1. exists r. split_and!; try done. by apply drop_S.
Qed.

Lemma receive_all_values n : ∀ w p vs w', cl_pipe (cw_client w) = Some p → pl_flushed p = true → length (pl_results p) = length (pl_cmds p) →
  length (pl_cmds p) = (pl_recv p + S n)%nat → receive_all (S n) w = (Ok vs, w') →
  cw_log w' = cw_log w ∧ cl_open (cw_client w') = cl_open (cw_client w) ∧ cl_pipe (cw_client w') = None ∧
  Forall2 (λ r v, value_of r = Some v) (drop (pl_recv p) (pl_results p)) vs.
Proof.
  induction n as [|n IH]; intros w p vs w' Hp Hf Hr Hl Hrun.
  - cbn [receive_all] in Hrun. unfold mbind, M_bind in Hrun. destruct (Receive w) as [[v|e|] w1] eqn:Et; [|done..]. injection Hrun as <- <-.
    destruct (receive_one w p v w1 Hp Hf Hr ltac:(lia) Et) as (r & -> & T1 & T2 & T3 & T4). rewrite decide_True in T4 by lia. split_and!; [done|done|done|]. constructor; [done|]. rewrite drop_ge by lia. constructor.
  - change (receive_all (S (S n))) with (v ← Receive; vs ← receive_all (S n); mret (v :: vs)) in Hrun. unfold mbind, M_bind in Hrun.
    destruct (Receive w) as [[v|e|] w1] eqn:Et; [|done..]. destruct (receive_all (S n) w1) as [[vs1|e|] w2] eqn:Er; [|done..]. injection Hrun as <- <-.
    destruct (receive_one w p v w1 Hp Hf Hr ltac:(lia) Et) as (r & -> & T1 & T2 & T3 & T4). rewrite decide_False in T4 by lia.
    destruct (IH w1 _ vs1 w2 T4 Hf Hr ltac:(cbn; lia) Er) as (R1 & R2 & R3 & R4). split_and!; [congruence|congruence|done|]. by constructor.
Qed.

Lemma kept_send_all cmds : kept (send_all cmds).
Proof. induction cmds as [|cmd cmds IH]; cbn; [apply kept_ret|]. unfold send_all in IH. keep. Qed.
Lemma kept_receive_all n : kept (receive_all n).
Proof. induction n as [|n IH]; cbn [receive_all]; keep. Qed.
Lemma kept_pipelined cmds : kept (pipelined cmds).
Proof. unfold pipelined. apply kept_bind; [apply kept_send_all|intros _]. apply kept_bind; [keep|intros _]. apply kept_receive_all. Qed.

(** commands that are answered one by one *)
Definition executed (cmds : list command) (rs : list cresult) : list (command * cresult) := zip cmds rs.

Lemma pipelined_ok cmds w vs w' : cl_pipe (cw_client w) = None → pipelined cmds w = (Ok vs, w') →
  ∃ rs, cw_log w' = cw_log w ++ executed cmds rs ∧ length rs = length cmds ∧ Forall2 (λ r v, value_of r = Some v) rs vs ∧ cl_pipe (cw_client w') = None.
Proof.
  intros Hp. destruct cmds as [|cmd cmds]; [intros [= <- <-]; exists []; by rewrite app_nil_r|].
  unfold pipelined. change (send_all (cmd :: cmds)) with (Send cmd ;; send_all cmds). unfold mbind, M_bind.
  destruct (cl_open (cw_client w)) eqn:Eo; [|unfold Send, get_client, gets, mbind, M_bind; by rewrite Hp, Eo].
  rewrite (Send_idle w cmd Hp Eo). set (w1 := mkCW _ _ _). destruct (send_all_piped cmds w1 _ eq_refl eq_refl) as (w2 & S1 & S2 & S3 & S4). rewrite S1. cbn [pl_cmds pl_results pl_recv app] in S4.
  rewrite decide_False by done. destruct (client_Flush w2) as [[[]|e|] w3] eqn:Ef; [|done..]. destruct (Flush_piped w2 _ w3 S4 eq_refl eq_refl Ef) as (rs & L & F1 & F2 & F3). cbn in L, F1, F3.
  cbn [length]. intros Hr. destruct (receive_all_values (length cmds) w3 _ vs w' F3 eq_refl ltac:(cbn; lia) ltac:(cbn; lia) Hr) as (R1 & R2 & R3 & R4). cbn [pl_recv pl_results] in R4. rewrite drop_0 in R4.
  exists rs. split_and!; [by rewrite R1, F1, S2|done|done|done].
Qed.

Lemma recycle_ok {A} (m : CM A) w a w' : recycle m w = (Ok a, w') → ∃ w1, m w = (Ok a, w1) ∧ cw_log w' = cw_log w1 ∧ cl_pipe (cw_client w') = cl_pipe (cw_client w1).
Proof. unfold recycle. destruct (m w) as [r w1]. intros [= -> <-]. exists w1. split_and!; [done|done|]. cbn. by destruct (isRecyclable _ _). Qed.

(** When [monitorGroupsCommand] succeeds, the sentinel has been asked which of the
    groups it knows, has removed exactly those, and has then executed the commands that
    monitor and configure every group, none with an error. *)
Theorem monitor_told s config r1 r2 r3 w w' : cl_pipe (cw_client w) = None → monitorGroupsCommand s config r1 r2 r3 w = (Ok tt, w') →
  let names := (λ x, NodeName s x.1) <$> r1 in
  ∃ asked values removed monitored configured,
    cw_log w' = cw_log w ++ executed (exists_command <$> names) asked ++
      executed (remove_command <$> known (foldl (λ m x, <[x.1 := negb (is_nil x.2)]> m) ∅ (zip names values)) names) removed ++
      executed ((λ x, monitor_command s config x.1 x.2) <$> r2) monitored ++ executed ((λ x, set_command s config x.1) <$> r3) configured ∧
    Forall2 (λ r v, value_of r = Some v) asked values ∧ length asked = length names ∧ length monitored = length r2 ∧ length configured = length r3 ∧
    Forall (λ r, is_Some (value_of r)) (removed ++ monitored ++ configured).
Proof.
  assert (∀ (rs : list cresult) (vs : list rvalue), Forall2 (λ r v, value_of r = Some v) rs vs → Forall (λ r, is_Some (value_of r)) rs) as Hv.
  { intros rs vs. induction 1 as [|r v rs vs Hr _ IH]; constructor; [by rewrite Hr|done]. }
  intros Hp (w9 & Hm & L9 & _)%recycle_ok names. unfold mbind, M_bind in Hm. fold names in Hm.
  destruct (removeCommand names w) as [[[]|e|] w3] eqn:Er; [|done..]. apply recycle_ok in Er as (w2 & Er & L3 & P3). unfold mbind, M_bind in Er.
  destruct (existsCommand names w) as [[ex|e|] w1] eqn:Ee; [|done..]. apply recycle_ok in Ee as (w0 & Ee & L1 & P1). unfold mbind, M_bind in Ee.
  destruct (pipelined (exists_command <$> names) w) as [[values|e|] wa] eqn:Ea; [|done..]. injection Ee as <- <-.
  destruct (pipelined_ok _ _ _ _ Hp Ea) as (asked & A1 & A2 & A3 & A4). rewrite A4 in P1.
  set (ex := foldl _ ∅ _) in *. destruct (pipelined (remove_command <$> known ex names) w1) as [[rv|e|] wb] eqn:Eb; [|done..]. injection Er as <-.
  destruct (pipelined_ok _ _ _ _ P1 Eb) as (removed & B1 & B2 & B3 & B4). rewrite B4 in P3.
  destruct (pipelined ((λ x, monitor_command s config x.1 x.2) <$> r2) w3) as [[mv|e|] w4] eqn:Ec; [|done..]. destruct (pipelined_ok _ _ _ _ P3 Ec) as (monitored & C1 & C2 & C3 & C4).
  destruct (pipelined ((λ x, set_command s config x.1) <$> r3) w4) as [[sv|e|] w5] eqn:Ed; [|done..]. destruct (pipelined_ok _ _ _ _ C4 Ed) as (configured & D1 & D2 & D3 & D4).
  injection Hm as <-. exists asked, values, removed, monitored, configured. rewrite length_fmap in A2.
  assert (length monitored = length r2) by (rewrite C2; apply length_fmap). assert (length configured = length r3) by (rewrite D2; apply length_fmap).
  split_and!; [|done|done|done|done|apply Forall_app; split; [by eapply Hv|]; apply Forall_app; split; by eapply Hv].
  rewrite L9, D1, C1, L3, B1, L1, A1. by rewrite <-!app_assoc.
Qed.
End told.

(** ** A client that was closed

    [dispatch] closes the client when the context ends, while the commands may still be
    running in their goroutine; and the commands close it themselves when they end so late
    that it may not be used again.  The next command then calls a method of nil. *)
Definition late_end : RedisEnd := {| rd_answer _ cmds := (λ _, CVal (VStr (bstr "OK"))) <$> cmds; rd_time n := if decide (n < 2)%nat then 0 else 1000 |}.
Lemma late_monitor_panics : (@monitorGroupsCommand late_end (mkSentinel (bstr "p") []) (mkMonitor 2 1 0 0 [] []) [] [(1, (bstr "10.0.0.1", 6379))] []
  (mkCW (fresh_client "s:26379" (mkLogin [] []) 100 0) 5 [])).1 = Panic.
Proof. vm_compute. reflexivity. Qed.

Definition demo_sentinel_end : RedisEnd := {|
  rd_answer _ cmds := (λ cmd, if decide (cmd = exists_command (bstr "p-2")) then CNil else CVal (VStr (bstr "OK"))) <$> cmds; rd_time n := Z.of_nat n |}.
Definition demo_groups : list (Z * (bytes * Z)) := [(1, (bstr "10.0.0.1", 6379)); (2, (bstr "10.0.0.2", 6379))].

(** the sentinel knows group 1 and not group 2 *)
Lemma monitor_told_witness : let w := mkCW (fresh_client "s:26379" (mkLogin [] []) 100 0) 0 [] in
  let s := mkSentinel (bstr "p") [] in let config := mkMonitor 2 1 0 0 [] [] in
  ∃ w', @monitorGroupsCommand demo_sentinel_end s config demo_groups demo_groups demo_groups w = (Ok tt, w') ∧
  (cw_log w').*1 = [exists_command (bstr "p-1"); exists_command (bstr "p-2"); remove_command (bstr "p-1")] ++
    ((λ x, monitor_command s config x.1 x.2) <$> demo_groups) ++ ((λ x, set_command s config x.1) <$> demo_groups) ∧
  ∃ monitored, length monitored = 2%nat ∧ Forall (λ r, is_Some (value_of r)) monitored.
Proof.
  intros w s config.
  assert (((@monitorGroupsCommand demo_sentinel_end s config demo_groups demo_groups demo_groups w).1, (cw_log (@monitorGroupsCommand demo_sentinel_end s config demo_groups demo_groups demo_groups w).2).*1) =
    (Ok tt, [exists_command (bstr "p-1"); exists_command (bstr "p-2"); remove_command (bstr "p-1")] ++ ((λ x, monitor_command s config x.1 x.2) <$> demo_groups) ++ ((λ x, set_command s config x.1) <$> demo_groups))) as Hd
    by (vm_compute; reflexivity).
  destruct (@monitorGroupsCommand demo_sentinel_end s config demo_groups demo_groups demo_groups w) as [r w'] eqn:Em. cbn [fst snd] in Hd. pose proof (f_equal fst Hd) as Hr. pose proof (f_equal snd Hd) as Hl. cbn [fst snd] in Hr, Hl. subst r.
  exists w'. split; [reflexivity|]. split; [exact Hl|].
  destruct (@monitor_told demo_sentinel_end s config demo_groups demo_groups demo_groups w w' eq_refl Em) as (asked & values & removed & monitored & configured & _ & _ & _ & Hm & _ & Hf).
  exists monitored. split; [exact Hm|]. apply Forall_app in Hf as [_ Hf]. apply Forall_app in Hf as [Hf _]. exact Hf.
Defined.
