(* ===== verification/TopomStats.v ===== *)
(** What the dashboard knows of the health of servers and proxies: pkg/topom/topom_stats.go,
    the future of pkg/utils/sync2, the statistics of a limiter, and [Topom.Stats].

    A refresh asks every server, or every proxy, in a goroutine of its own.  It starts in
    one step, which fixes whom it asks, and ends in another, when all answers are there;
    operations of the dashboard and other refreshes happen in between.  [sexec] executes
    one such step.  What is asked for and the clock are the events' arguments. *)

From S2P Require Import Prelude Bufio Resp Mapper Models TopomContext TopomState TopomCache TopomFrame TopomProxy.
From S2P Require Import TopomSlots TopomGroup TopomInv TopomRules TopomRebalance TopomSafety Limiter.
From S2P Require Import Router Stream Forward SessionState ClusterNodes TopomACL PitrFiles BackendConn RedisClient Sentinel.
(** * Statistics *)

(** [QPSLimitStats] (proxy/qps_limiter.go) *)
Record QPSLimitStats := mkQStats { qs_Revision : Z; qs_Limit : Z; qs_Enabled : bool; qs_Accepted : Z; qs_Rejected : Z }.
Definition limiter_Stats (l : QPSLimiter) : QPSLimitStats :=
  mkQStats (ql_revision l) (ql_limit l) (bool_decide (0 < ql_limit l)) (ql_accepted l) (ql_rejected l).
Definition limiter_Visible (s : QPSLimitStats) : bool :=
  qs_Enabled s || bool_decide (qs_Revision s ≠ 0) || bool_decide (qs_Rejected s ≠ 0).

(** [proxy.Stats]: the fields that are read here *)
Record PStats := mkPStats { ps_Online : bool; ps_Closed : bool; ps_QPSLimit : option QPSLimitStats }.
(** the part of [Proxy.Stats] that concerns the limiter *)
Definition visible_limit (l : QPSLimiter) : option QPSLimitStats :=
  let s := limiter_Stats l in if limiter_Visible s then Some s else None.

Record RedisStats := mkRedisStats {
  rs_Stats : option (gmap bytes bytes);   (** nil or a map *)
  rs_Error : option bytes;
  rs_Sentinel : option (gmap bytes SentinelGroup);
  rs_UnixTime : Z;
  rs_Timeout : bool;
}.
Record ProxyStats := mkProxyStats {
  px_Stats : option PStats;
  px_Error : option bytes;
  px_UnixTime : Z;
  px_Timeout : bool;
}.

(** how a question ends: an answer, an error, or none of them in time *)
Inductive reply_of (A : Type) := RValue (a : A) | RError (msg : bytes) | RTimeout.
Arguments RValue {A} a.
Arguments RError {A} msg.
Arguments RTimeout {A}.

(** of a server [INFO], of a sentinel its masters too *)
Definition newRedisStats (r : reply_of (gmap bytes bytes * option (gmap bytes SentinelGroup))) (now : Z) : RedisStats :=
  match r with
  | RValue (m, p) => mkRedisStats (Some m) None p now false
  | RError msg => mkRedisStats None (Some msg) None now false
  | RTimeout => mkRedisStats None None None now true
  end.
Definition newProxyStats (r : reply_of PStats) (now : Z) : ProxyStats :=
  match r with
  | RValue x => mkProxyStats (Some x) None now false
  | RError msg => mkProxyStats None (Some msg) now false
  | RTimeout => mkProxyStats None None now true
  end.

(** [sync2.Future]: [Wait] returns when there were as many calls of [Done] as of [Add] *)
Record Future (V : Type) := mkFuture { fu_wait : nat; fu_vmap : gmap string V }.
Arguments mkFuture {V} _ _.
Arguments fu_wait {V} _.
Arguments fu_vmap {V} _.
Definition new_future {V} : Future V := mkFuture 0 ∅.
Definition future_Add {V} (f : Future V) : Future V := mkFuture (S (fu_wait f)) (fu_vmap f).
(** one [Done] too many is a panic of the wait group *)
Definition future_Done {V} (key : string) (val : V) (f : Future V) : option (Future V) :=
  match fu_wait f with O => None | S n => Some (mkFuture n (<[key := val]> (fu_vmap f))) end.
Definition future_Wait {V} (f : Future V) : option (gmap string V) :=
  match fu_wait f with O => Some (fu_vmap f) | S _ => None end.

(** * The dashboard with its statistics *)

(** a refresh: those that were asked and have not answered, and the answers so far *)
Record refresh (A V : Type) := mkRefresh { re_asked : list A; re_future : Future V }.
Arguments mkRefresh {A V} _ _.
Arguments re_asked {A V} _.
Arguments re_future {A V} _.

Record sworld := mkSW {
  sw_world : world;
  sw_servers : gmap string RedisStats;
  sw_proxies : gmap string ProxyStats;
  sw_redis : list (refresh string RedisStats);
  sw_proxy : list (refresh Proxy ProxyStats);
  sw_online : list string;               (** goroutines about to call [OnlineProxy] *)
}.

Definition sw_set_world (w' : world) (w : sworld) : sworld :=
  mkSW w' (sw_servers w) (sw_proxies w) (sw_redis w) (sw_proxy w) (sw_online w).
Definition sw_set_servers (m : gmap string RedisStats) (w : sworld) : sworld :=
  mkSW (sw_world w) m (sw_proxies w) (sw_redis w) (sw_proxy w) (sw_online w).
Definition sw_set_proxies (m : gmap string ProxyStats) (w : sworld) : sworld :=
  mkSW (sw_world w) (sw_servers w) m (sw_redis w) (sw_proxy w) (sw_online w).
Definition sw_set_redis (l : list (refresh string RedisStats)) (w : sworld) : sworld :=
  mkSW (sw_world w) (sw_servers w) (sw_proxies w) l (sw_proxy w) (sw_online w).
Definition sw_set_proxy (l : list (refresh Proxy ProxyStats)) (w : sworld) : sworld :=
  mkSW (sw_world w) (sw_servers w) (sw_proxies w) (sw_redis w) l (sw_online w).
Definition sw_set_online (l : list string) (w : sworld) : sworld :=
  mkSW (sw_world w) (sw_servers w) (sw_proxies w) (sw_redis w) (sw_proxy w) l.

(** [New] of a dashboard: no statistics yet, and the goroutines of the last one are gone *)
Definition New_stats (w : sworld) : sworld := mkSW (New (sw_world w)) ∅ ∅ [] [] [].

Abbreviation SM := (M sworld terror).

Section stats.
Context `{Env} `{TopomState.Config} `{UnicodeUpper} `{RBTree}.

Definition dashboard {A} (m : T A) : SM A := λ w, let '(r, w') := m (sw_world w) in (r, sw_set_world w' w).

(** one [Add] for everyone that is asked *)
Definition start_refresh {A V} (asked : list A) : refresh A V :=
  mkRefresh asked (foldl (λ f _, future_Add f) new_future asked).

Definition stats_addrs (ctx : context) : list string :=
  concat ((λ g, gs_Addr <$> g_Servers g) <$> (map_to_list (ctx_group ctx)).*2) ++ se_Servers (ctx_sentinel ctx).

Definition RefreshRedisStats : SM unit :=
  ctx ← dashboard newContext;
  modify (λ w, sw_set_redis (sw_redis w ++ [start_refresh (stats_addrs ctx)]) w).

Definition RefreshProxyStats : SM unit :=
  ctx ← dashboard newContext;
  modify (λ w, sw_set_proxy (sw_proxy w ++ [start_refresh (map_to_list (ctx_proxy ctx)).*2]) w).

(** the [j]th of those asked answers: its goroutine calls [Done] *)
Definition answer {A V} (key : A → string) (j : nat) (val : V) (r : refresh A V) : option (A * refresh A V) :=
  a ← re_asked r !! j;
  f ← future_Done (key a) val (re_future r);
  Some (a, mkRefresh (delete j (re_asked r)) f).

(** a proxy that answers, and is neither closed nor online, is made online *)
Definition auto_online (admin : string) (s : ProxyStats) : list string :=
  match px_Stats s with
  | None => []
  | Some x => if ps_Closed x || ps_Online x then [] else [admin]
  end.

(** [Topom.Stats] *)
Record TStats := mkTStats {
  ts_Closed : bool;
  ts_Slots : list SlotMapping;
  ts_Groups : list Group;
  ts_GroupStats : gmap string RedisStats;
  ts_Proxies : list Proxy;
  ts_ProxyStats : gmap string ProxyStats;
  ts_Interval : Z;
  ts_Disabled : bool;
  ts_Executor : Z;
  ts_Sentinel : Models.Sentinel;
  ts_SentinelStats : gmap string RedisStats;
  ts_Masters : gmap Z string;
}.

Definition servers_of_groups (groups : gmap Z Group) : list string :=
  concat ((λ g, gs_Addr <$> g_Servers g) <$> (map_to_list groups).*2).
Definition known_stats (addrs : list string) (m : gmap string RedisStats) : gmap string RedisStats :=
  filter (λ kv, kv.1 ∈ addrs) m.

Definition Stats : SM TStats :=
  ctx ← dashboard newContext;
  w ← gets id;
  mret (mkTStats (w_closed (sw_world w)) (ctx_slots ctx) (SortGroup (ctx_group ctx))
    (known_stats (servers_of_groups (ctx_group ctx)) (sw_servers w))
    (SortProxy (ctx_proxy ctx)) (sw_proxies w)
    (w_interval (sw_world w)) (w_disabled (sw_world w)) (w_executor (sw_world w))
    (ctx_sentinel ctx) (known_stats (se_Servers (ctx_sentinel ctx)) (sw_servers w))
    (default ∅ (w_masters (sw_world w)))).

(** ** Steps *)
Inductive sevent :=
| EvOp (o : op)
| EvNew
| EvAskServers
| EvServer (i j : nat) (r : reply_of (gmap bytes bytes * option (gmap bytes SentinelGroup))) (now : Z)
| EvServersDone (i : nat)
| EvAskProxies
| EvProxy (i j : nat) (r : reply_of PStats) (now : Z)
| EvProxiesDone (i : nat)
| EvOnline (i : nat).

Definition sexec (ev : sevent) (w : sworld) : option sworld :=
  match ev with
  | EvOp o => Some (sw_set_world (run_op o (sw_world w)).2 w)
  | EvNew => Some (New_stats w)
  | EvAskServers => Some (RefreshRedisStats w).2
  | EvServer i j r now =>
      x ← sw_redis w !! i;
      '(_, x) ← answer id j (newRedisStats r now) x;
      Some (sw_set_redis (<[i := x]> (sw_redis w)) w)
  | EvServersDone i =>
      x ← sw_redis w !! i;
      m ← future_Wait (re_future x);
      Some (sw_set_servers m (sw_set_redis (delete i (sw_redis w)) w))
  | EvAskProxies => Some (RefreshProxyStats w).2
  | EvProxy i j r now =>
      x ← sw_proxy w !! i;
      '(p, x) ← answer p_Token j (newProxyStats r now) x;
      Some (sw_set_online (sw_online w ++ auto_online (p_AdminAddr p) (newProxyStats r now))
              (sw_set_proxy (<[i := x]> (sw_proxy w)) w))
  | EvProxiesDone i =>
      x ← sw_proxy w !! i;
      m ← future_Wait (re_future x);
      Some (sw_set_proxies m (sw_set_proxy (delete i (sw_proxy w)) w))
  | EvOnline i =>
      addr ← sw_online w !! i;
      Some (sw_set_world (run_op (OpOnlineProxy addr) (sw_world w)).2 (sw_set_online (delete i (sw_online w)) w))
  end.

Fixpoint srun (evs : list sevent) (w : sworld) : option sworld :=
  match evs with [] => Some w | ev :: evs => w' ← sexec ev w; srun evs w' end.
End stats.

(** * A refresh answers for everyone it asked *)

Definition keys_of {A} (key : A → string) (l : list A) : gset string := list_to_set (key <$> l).

(** the answers still missing and those that are there *)
Definition refresh_ok {A V} (key : A → string) (all : gset string) (r : refresh A V) : Prop :=
  fu_wait (re_future r) = length (re_asked r) ∧ all = keys_of key (re_asked r) ∪ dom (fu_vmap (re_future r)).

Lemma start_refresh_ok {A V} (key : A → string) asked : refresh_ok key (keys_of key asked) (start_refresh (V := V) asked).
Proof.
  unfold refresh_ok, start_refresh. cbn [re_future re_asked].
  assert (∀ f : Future V, fu_wait (foldl (λ f _, future_Add f) f asked) = (fu_wait f + length asked)%nat ∧
    fu_vmap (foldl (λ f _, future_Add f) f asked) = fu_vmap f) as Hf.
  { induction asked as [|a asked IH]; intros f; cbn; [split; [lia|done]|]. destruct (IH (future_Add f)) as [-> ->]. cbn. split; [lia|done]. }
  destruct (Hf new_future) as [-> ->]. cbn. split; [done|]. rewrite dom_empty_L. set_solver.
Qed.

Lemma answer_ok {A V} (key : A → string) all j (val : V) r : refresh_ok key all r → (j < length (re_asked r))%nat →
  ∃ a r', answer key j val r = Some (a, r') ∧ re_asked r !! j = Some a ∧ refresh_ok key all r' ∧ fu_vmap (re_future r') !! key a = Some val.
Proof.
  intros [Hw Hall] Hj. destruct (lookup_lt_is_Some_2 _ _ Hj) as [a Ha]. unfold answer. rewrite Ha. cbn.
  unfold future_Done. destruct (fu_wait (re_future r)) as [|n] eqn:Hn; [lia|]. cbn. exists a. eexists. split; [done|]. split; [done|].
  split; [split|]; cbn [re_future re_asked fu_wait fu_vmap].
  - rewrite length_delete by done. lia.
  - rewrite Hall, dom_insert_L. unfold keys_of.
    rewrite (delete_Permutation (re_asked r) j a Ha) at 1. cbn. set_solver.
  - by rewrite lookup_insert_eq.
Qed.

(** a refresh can always be answered, and when it is stored it has an answer of everyone *)
Lemma refresh_complete {A V} (key : A → string) all (r : refresh A V) : refresh_ok key all r →
  match future_Wait (re_future r) with
  | Some m => re_asked r = [] ∧ dom m = all
  | None => re_asked r ≠ []
  end.
Proof.
  intros [Hw Hall]. unfold future_Wait. destruct (fu_wait (re_future r)) as [|n]; destruct (re_asked r); try done.
  split; [done|]. rewrite Hall. unfold keys_of. set_solver.
Qed.
