(* ===== verification/Ha.v ===== *)
(** codis-ha (cmd/ha/main.go): the program that polls the statistics of the dashboard, removes
    dead proxies and replicas, and promotes replicas of dead masters.

    [Maintains] makes calls to the dashboard and to servers; what they answer, and what they
    do to the world, is the argument [call].  It returns the calls that it made. *)

From S2P Require Import Prelude Bufio Resp Mapper Models TopomContext TopomState TopomCache TopomFrame TopomProxy.
From S2P Require Import TopomSlots TopomGroup TopomInv TopomRules TopomRebalance TopomSafety Limiter.
From S2P Require Import Router Stream Forward SessionState ClusterNodes TopomACL PitrFiles BackendConn RedisClient Sentinel TopomStats.
(** * Health *)
Inductive pcode := CodeAlive | CodeError | CodeMissing | CodeTimeout.
Inductive scode := CodeSError | CodeSMissing | CodeSTimeout | CodeSyncReady | CodeSyncError | CodeSyncBroken.
#[export] Instance pcode_eq_dec : EqDecision pcode.
Proof. solve_decision. Defined.
#[export] Instance scode_eq_dec : EqDecision scode.
Proof. solve_decision. Defined.

Definition proxy_code (stats : option ProxyStats) : pcode :=
  match stats with
  | None => CodeMissing
  | Some s => if decide (px_Error s ≠ None) then CodeError
              else if px_Timeout s || bool_decide (px_Stats s = None) then CodeTimeout else CodeAlive
  end.

(** [m[k]] of a map of strings *)
Definition field (m : gmap bytes bytes) (k : string) : bytes := default [] (m !! bstr k).

(** [i] is the index of the server in its group, [master] the address of the first *)
Definition server_code (i : nat) (master : string) (stats : option RedisStats) : scode :=
  match stats with
  | None => CodeSMissing
  | Some s =>
      if decide (rs_Error s ≠ None) then CodeSError
      else match rs_Timeout s, rs_Stats s with
      | true, _ | _, None => CodeSTimeout
      | false, Some m =>
          let addr := field m "master_addr" in
          if decide (i = O) then if decide (addr = []) then CodeSyncReady else CodeSyncError
          else if decide (addr ≠ bstr master) then CodeSyncError
          else let link := field m "master_link_status" in
            if decide (link = bstr "up") then CodeSyncReady
            else if decide (link = bstr "down") then CodeSyncBroken else CodeSyncError
      end
  end.

Record HealthyChecker := mkHC {
  hc_Stats : TStats;
  hc_pstatus : gmap string pcode;
  hc_sstatus : gmap string scode;
}.

(** the address of the first server; it is read when there is a server *)
Definition first_addr (g : Group) : string := match g_Servers g with x :: _ => gs_Addr x | [] => "" end.

Definition group_codes (stats : TStats) (g : Group) : list (string * scode) :=
  imap (λ i x, (gs_Addr x, server_code i (first_addr g) (ts_GroupStats stats !! gs_Addr x))) (g_Servers g).

Definition newHealthyChecker (stats : TStats) : HealthyChecker :=
  mkHC stats
    (foldl (λ m p, <[p_Token p := proxy_code (ts_ProxyStats stats !! p_Token p)]> m) ∅ (ts_Proxies stats))
    (foldl (λ m kv, <[kv.1 := kv.2]> m) ∅ (concat (group_codes stats <$> ts_Groups stats))).

(** [hc.pstatus[token]] and [hc.sstatus[addr]]; the zero of the map is none of the codes *)
Definition pstatus (hc : HealthyChecker) (token : string) : option pcode := hc_pstatus hc !! token.
Definition sstatus (hc : HealthyChecker) (addr : string) : option scode := hc_sstatus hc !! addr.

(** * Maintenance *)
Inductive ha_call :=
| RemoveProxyForced (token : string)
| DelServer (gid : Z) (addr : string)
| ConnectServer (addr : string)
| ShutdownServer (addr : string)
| PromoteServer (gid : Z) (addr : string).

Definition bad_proxy (c : option pcode) : bool :=
  match c with Some (CodeError | CodeTimeout | CodeMissing) => true | _ => false end.
Definition bad_server (c : option scode) : bool :=
  match c with Some (CodeSError | CodeSMissing | CodeSTimeout | CodeSyncError) => true | _ => false end.
Definition dead_server (c : option scode) : bool :=
  match c with Some (CodeSMissing | CodeSError | CodeSTimeout) => true | _ => false end.

(** [strconv.Atoi(stats.Stats["master_link_down_since_seconds"])]; [None] skips the server *)
Definition down_since (hc : HealthyChecker) (addr : string) : option Z :=
  stats ← ts_GroupStats (hc_Stats hc) !! addr;
  m ← rs_Stats stats;
  match ParseInt (field m "master_link_down_since_seconds") with Ok n => Some n | _ => None end.

(** the state of the loop that picks a replica: [picked], [mindown], [picked2], [mindown2] *)
Record pick_state := mkPick { pk_picked : nat; pk_mindown : Z; pk_picked2 : nat; pk_mindown2 : Z }.

Definition pick_one (hc : HealthyChecker) (st : pick_state) (i : nat) (x : GroupServer) : pick_state :=
  match sstatus hc (gs_Addr x) with
  | Some CodeSyncBroken =>
      match down_since hc (gs_Addr x) with
      | None => st
      | Some n =>
          let st := if decide (0 <= n /\ n < pk_mindown st) then mkPick i n (pk_picked2 st) (pk_mindown2 st) else st in
          if decide (pk_picked st = O /\ 0 <= n /\ n < pk_mindown2 st) then mkPick (pk_picked st) (pk_mindown st) i n else st
      end
  | Some CodeSyncError =>
      if decide (pk_picked st = O /\ pk_picked2 st = O) then mkPick (pk_picked st) (pk_mindown st) i (pk_mindown2 st) else st
  | _ => st
  end.

Fixpoint pick_loop (hc : HealthyChecker) (st : pick_state) (i : nat) (xs : list GroupServer) : pick_state :=
  match xs with [] => st | x :: xs => pick_loop hc (pick_one hc st i x) (S i) xs end.

(** the index of the replica to promote, 0 for none *)
Definition pick_slave (hc : HealthyChecker) (maxdown : Z) (g : Group) : nat :=
  let st := pick_loop hc (mkPick 0 (i64 (maxdown + 1)) 0 65535) 1 (drop 1 (g_Servers g)) in
  if decide (pk_picked st = O) then pk_picked2 st else pk_picked st.

(** what the second loop asks for: a replica to remove, or nothing; [SFail] ends the
    search at a bad master that has replicas *)
Inductive search := SNone | SFail | SDel (gid : Z) (addr : string).

Fixpoint bad_replica (hc : HealthyChecker) (gid : Z) (xs : list GroupServer) : search :=
  match xs with
  | [] => SNone
  | x :: xs => if bad_server (sstatus hc (gs_Addr x)) then SDel gid (gs_Addr x) else bad_replica hc gid xs
  end.
Fixpoint search_groups (hc : HealthyChecker) (gs : list Group) : search :=
  match gs with
  | [] => SNone
  | g :: gs =>
      match g_Servers g with
      | [] | [_] => search_groups hc gs
      | x :: xs =>
          if bad_server (sstatus hc (gs_Addr x)) then SFail
          else match bad_replica hc (g_Id g) xs with SNone => search_groups hc gs | s => s end
      end
  end.

(** the third loop: the promotion of one group *)
Definition promotion (hc : HealthyChecker) (maxdown : Z) (g : Group) : list ha_call :=
  match g_Servers g with
  | [] => []
  | x :: _ =>
      if dead_server (sstatus hc (gs_Addr x)) then
        let i := pick_slave hc maxdown g in
        if decide (i = O) then []
        else if decide (pr_State (g_Promoting g) ≠ ActionNothing) then []
        else match g_Servers g !! i with Some y => [PromoteServer (g_Id g) (gs_Addr y)] | None => [] end
      else []
  end.

Section maintains.
Context {W : Type} (call : ha_call → W → bool * W).

(** one call after the other, whatever they answer *)
Fixpoint call_all (cs : list ha_call) (w : W) : list ha_call * W :=
  match cs with
  | [] => ([], w)
  | c :: cs => let w1 := (call c w).2 in let '(l, w2) := call_all cs w1 in (c :: l, w2)
  end.
(** one call after the other, up to the first that fails *)
Fixpoint call_until (cs : list ha_call) (w : W) : list ha_call * W :=
  match cs with
  | [] => ([], w)
  | c :: cs =>
      let '(ok, w1) := call c w in
      if ok then let '(l, w2) := call_until cs w1 in (c :: l, w2) else ([c], w1)
  end.

Definition Maintains (hc : HealthyChecker) (maxdown : Z) (w : W) : list ha_call * W :=
  match List.find (λ p, bad_proxy (pstatus hc (p_Token p))) (ts_Proxies (hc_Stats hc)) with
  | Some p => call_until [RemoveProxyForced (p_Token p)] w
  | None =>
      match search_groups hc (ts_Groups (hc_Stats hc)) with
      | SDel gid addr => call_until [DelServer gid addr; ConnectServer addr; ShutdownServer addr] w
      | _ => call_all (concat (promotion hc maxdown <$> ts_Groups (hc_Stats hc))) w
      end
  end.
End maintains.
