(* ===== verification/HaTheorems.v ===== *)
(** What a round of codis-ha does: which replica it picks, which calls it makes and when, and
    what becomes of a server that it shuts down. *)

From S2P Require Import Prelude Bufio Resp Mapper Models TopomContext TopomState TopomCache TopomFrame TopomProxy.
From S2P Require Import TopomSlots TopomGroup TopomInv TopomRules TopomSlotOps TopomGroupOps TopomRebalance TopomSafety TopomTheorems TopomFunctional Limiter.
From S2P Require Import Router Stream Forward SessionState ClusterNodes TopomACL PitrFiles BackendConn RedisClient Sentinel TopomStats Ha.
(** * The replica that is picked *)
Section pick.
Context (hc : HealthyChecker).

(** replica [i] of a group lost its master [n] seconds ago; [xs] are the replicas *)
Definition left_master (xs : list GroupServer) (i : nat) (n : Z) : Prop :=
  ∃ x, (1 <= i)%nat /\ xs !! (i - 1)%nat = Some x /\ sstatus hc (gs_Addr x) = Some CodeSyncBroken /\
    down_since hc (gs_Addr x) = Some n /\ 0 <= n.
(** replica [i] does not follow the master of its group *)
Definition stray (xs : list GroupServer) (i : nat) : Prop :=
  ∃ x, (1 <= i)%nat /\ xs !! (i - 1)%nat = Some x /\ sstatus hc (gs_Addr x) = Some CodeSyncError.

(** the one that was connected last, the first of several *)
Definition best (xs : list GroupServer) (bound : Z) (i : nat) (n : Z) : Prop :=
  left_master xs i n /\ n < bound /\ ∀ j m, left_master xs j m → m < bound → n < m \/ n = m /\ (i <= j)%nat.
Definition first_stray (xs : list GroupServer) (i : nat) : Prop := stray xs i /\ ∀ j, stray xs j → (i <= j)%nat.
Definition none_below (xs : list GroupServer) (bound : Z) : Prop := ∀ j m, left_master xs j m → bound <= m.

Record pick_ok (bound : Z) (xs : list GroupServer) (st : pick_state) : Prop := {
  pk_first : if decide (pk_picked st = O) then pk_mindown st = bound /\ none_below xs bound
             else best xs bound (pk_picked st) (pk_mindown st);
  pk_second : pk_picked st = O →
    (pk_mindown2 st = 65535 /\ none_below xs 65535 /\
       if decide (pk_picked2 st = O) then ∀ j, ~ stray xs j else first_stray xs (pk_picked2 st)) \/
    (pk_picked2 st ≠ O /\ best xs 65535 (pk_picked2 st) (pk_mindown2 st));
}.

Lemma at_snoc (xs : list GroupServer) x i y : (1 <= i)%nat → (xs ++ [x]) !! (i - 1)%nat = Some y ↔
  xs !! (i - 1)%nat = Some y \/ (i = S (length xs) /\ y = x).
Proof.
  intros Hi. rewrite lookup_app_Some, list_lookup_singleton_Some. split.
  - intros [?|(? & ? & ->)]; [by left|right]. split; [lia|done].
  - intros [?|[-> ->]]; [by left|right]. split; [lia|]. split; [lia|done].
Qed.

Lemma left_master_snoc xs x i n : left_master (xs ++ [x]) i n ↔ left_master xs i n \/
  (i = S (length xs) /\ sstatus hc (gs_Addr x) = Some CodeSyncBroken /\ down_since hc (gs_Addr x) = Some n /\ 0 <= n).
Proof.
  split.
  - intros (y & Hi & Hy & H). apply at_snoc in Hy as [Hy|[-> ->]]; [left; by exists y|by right|done].
  - intros [(y & Hi & Hy & H)|(-> & H)]; [exists y|exists x]; (split; [lia|]); (split; [|done]); apply at_snoc; auto; lia.
Qed.
Lemma stray_snoc xs x i : stray (xs ++ [x]) i ↔ stray xs i \/ (i = S (length xs) /\ sstatus hc (gs_Addr x) = Some CodeSyncError).
Proof.
  split.
  - intros (y & Hi & Hy & H). apply at_snoc in Hy as [Hy|[-> ->]]; [left; by exists y|by right|done].
  - intros [(y & Hi & Hy & H)|(-> & H)]; [exists y|exists x]; (split; [lia|]); (split; [|done]); apply at_snoc; auto; lia.
Qed.
Lemma left_master_bound xs i n : left_master xs i n → (1 <= i <= length xs)%nat /\ 0 <= n.
Proof. intros (x & Hi & Hx%lookup_lt_Some & _ & _ & Hn). split; [lia|done]. Qed.
Lemma stray_bound xs i : stray xs i → (1 <= i <= length xs)%nat.
Proof. intros (x & Hi & Hx%lookup_lt_Some & _). lia. Qed.

(** ** One more replica *)
Section step.
Context (xs : list GroupServer) (x : GroupServer) (n : Z).
Hypothesis Hcand : ∀ i m, left_master (xs ++ [x]) i m ↔ left_master xs i m \/ (i = S (length xs) /\ m = n).
Hypothesis Hn : 0 <= n.

Lemma best_new bound : n < bound → (∀ j m, left_master xs j m → m < bound → n < m) → best (xs ++ [x]) bound (S (length xs)) n.
Proof.
  intros Hb Hless. split; [apply Hcand; by right|]. split; [done|]. intros j m [Hc|[-> ->]]%Hcand Hm; [left; eauto|right; split; [done|lia]].
Qed.
Lemma best_keep bound i m : best xs bound i m → m <= n → best (xs ++ [x]) bound i m.
Proof.
  intros (Hc & Hb & Hbest) Hle. split; [apply Hcand; by left|]. split; [done|].
  intros j k [Hj|[-> ->]]%Hcand Hk; [by apply Hbest|]. pose proof (left_master_bound _ _ _ Hc). destruct (decide (m = n)); [right|left]; lia.
Qed.
Lemma none_keep bound : none_below xs bound → bound <= n → none_below (xs ++ [x]) bound.
Proof. intros Hnone Hle j m [Hj|[-> ->]]%Hcand; [by eapply Hnone|done]. Qed.
End step.

Lemma pick_ok_same bound xs x st : (∀ i m, left_master (xs ++ [x]) i m ↔ left_master xs i m) →
  (∀ i, stray (xs ++ [x]) i ↔ stray xs i) → pick_ok bound xs st → pick_ok bound (xs ++ [x]) st.
Proof.
  intros Hc Hs [H1 H2].
  assert (∀ b, none_below xs b → none_below (xs ++ [x]) b) as Hnone by (intros b Hb j m ?%Hc; by eapply Hb).
  assert (∀ b i m, best xs b i m → best (xs ++ [x]) b i m) as Hbest.
  { intros b i m (Ha & Hb & Hd). split; [by apply Hc|]. split; [done|]. intros j k ?%Hc. by apply Hd. }
  split.
  - destruct (decide _); [|by apply Hbest]. destruct H1. split; [done|]. by apply Hnone.
  - intros H0. destruct (H2 H0) as [(Hm & Hb & Hd)|(Hp & Hb)]; [left|right; split; [done|by apply Hbest]].
    split; [done|]. split; [by apply Hnone|]. destruct (decide (pk_picked2 st = O)); [intros j ?%Hs; by eapply Hd|].
    destruct Hd as [Hd1 Hd2]. split; [by apply Hs|]. intros j ?%Hs. by apply Hd2.
Qed.

Lemma pick_candidate bound xs x n st : pick_ok bound xs st → sstatus hc (gs_Addr x) = Some CodeSyncBroken →
  down_since hc (gs_Addr x) = Some n → 0 <= n → pick_ok bound (xs ++ [x]) (pick_one hc st (S (length xs)) x).
Proof.
  intros [H1 H2] Hst Hd Hn. unfold pick_one. rewrite Hst, Hd. cbv zeta.
  assert (∀ i m, left_master (xs ++ [x]) i m ↔ left_master xs i m \/ (i = S (length xs) /\ m = n)) as Hc.
  { intros i m. rewrite left_master_snoc, Hst, Hd. split; (intros [?|Hr]; [by left|right]).
    - destruct Hr as (-> & _ & [= ->] & _). done.
    - by destruct Hr as (-> & ->). }
  assert (∀ i, stray (xs ++ [x]) i ↔ stray xs i) as Hs.
  { intros i. rewrite stray_snoc, Hst. split; [intros [?|[_ ?]]; done|by left]. }
  destruct (decide (0 <= n /\ n < pk_mindown st)) as [[_ Hlt]|Hge].
  - cbn [pk_picked]. rewrite decide_False by (intros [? _]; lia). split; cbn [pk_picked pk_mindown]; [|lia].
    rewrite decide_False by lia. apply (best_new xs x n Hc).
    + destruct (decide _); [lia|]. destruct H1 as (_ & ? & _). lia.
    + intros j m Hj Hm. destruct (decide _); [destruct H1 as [_ H1]; specialize (H1 j m Hj); lia|].
      destruct H1 as (_ & _ & H1). specialize (H1 j m Hj Hm). lia.
  - assert (pk_mindown st <= n) as Hle by lia. clear Hge.
    assert (if decide (pk_picked st = O) then pk_mindown st = bound /\ none_below (xs ++ [x]) bound
            else best (xs ++ [x]) bound (pk_picked st) (pk_mindown st)) as H1'.
    { destruct (decide _); [destruct H1 as [<- H1]; split; [done|]; by apply (none_keep xs x n Hc)|by apply (best_keep xs x n Hc)]. }
    destruct (decide (pk_picked st = O /\ _)) as [(H0 & _ & Hlt2)|Hno]; split; cbn [pk_picked pk_mindown pk_picked2 pk_mindown2]; try done.
    + intros _. right. split; [done|]. apply (best_new xs x n Hc).
      * destruct (H2 H0) as [(? & _)|(_ & _ & ? & _)]; lia.
      * intros j m Hj Hm. destruct (H2 H0) as [(_ & Hb & _)|(_ & _ & _ & Hb)]; [specialize (Hb j m Hj); lia|].
        specialize (Hb j m Hj Hm). lia.
    + intros H0. assert (pk_mindown2 st <= n) as Hle2 by lia.
      destruct (H2 H0) as [(Hm & Hb & Hf)|(Hp & Hb)]; [left|right; split; [done|by apply (best_keep xs x n Hc)]].
      split; [done|]. split; [apply (none_keep xs x n Hc); [done|lia]|].
      destruct (decide (pk_picked2 st = O)); [intros j ?%Hs; by eapply Hf|].
      destruct Hf as [Hf1 Hf2]. split; [by apply Hs|]. intros j ?%Hs. by apply Hf2.
Qed.

Lemma pick_stray bound xs x st : pick_ok bound xs st → sstatus hc (gs_Addr x) = Some CodeSyncError →
  pick_ok bound (xs ++ [x]) (pick_one hc st (S (length xs)) x).
Proof.
  intros [H1 H2] Hst. unfold pick_one. rewrite Hst.
  assert (∀ i m, left_master (xs ++ [x]) i m ↔ left_master xs i m) as Hc.
  { intros i m. rewrite left_master_snoc, Hst. split; [intros [?|(_ & ? & _)]; done|by left]. }
  assert (∀ b, none_below xs b → none_below (xs ++ [x]) b) as Hnone by (intros b Hb j m ?%Hc; by eapply Hb).
  assert (∀ b i m, best xs b i m → best (xs ++ [x]) b i m) as Hbest.
  { intros b i m (Ha & Hb & Hd). split; [by apply Hc|]. split; [done|]. intros j k ?%Hc. by apply Hd. }
  assert (if decide (pk_picked st = O) then pk_mindown st = bound /\ none_below (xs ++ [x]) bound
          else best (xs ++ [x]) bound (pk_picked st) (pk_mindown st)) as H1'.
  { destruct (decide _); [destruct H1; split; [done|]; by apply Hnone|by apply Hbest]. }
  destruct (decide (pk_picked st = O /\ _)) as [[H0 H02]|Hno]; split; cbn [pk_picked pk_mindown pk_picked2 pk_mindown2]; try done.
  - intros _. destruct (H2 H0) as [(Hm & Hb & Hf)|(Hp & _)]; [|done]. left. split; [done|]. split; [by apply Hnone|].
    rewrite decide_True in Hf by done. rewrite decide_False by lia. split; [apply stray_snoc; by right|].
    intros j [Hj|[-> _]]%stray_snoc; [by apply Hf in Hj|lia].
  - intros H0. destruct (H2 H0) as [(Hm & Hb & Hf)|(Hp & Hb)]; [left|right; split; [done|by apply Hbest]].
    split; [done|]. split; [by apply Hnone|]. assert (pk_picked2 st ≠ O) as Hp by tauto. rewrite decide_False in Hf |- * by done.
    destruct Hf as [Hf1 Hf2]. split; [apply stray_snoc; by left|]. intros j [Hj|[-> _]]%stray_snoc; [by apply Hf2|].
    pose proof (stray_bound _ _ Hf1). lia.
Qed.

Lemma pick_one_ok bound xs x st : pick_ok bound xs st → pick_ok bound (xs ++ [x]) (pick_one hc st (S (length xs)) x).
Proof.
  intros Hok. destruct (sstatus hc (gs_Addr x)) as [c|] eqn:Hst.
  2: { unfold pick_one. rewrite Hst. apply pick_ok_same; [| |done]; intros; rewrite ?left_master_snoc, ?stray_snoc, Hst; intuition congruence. }
  destruct c; try (unfold pick_one; rewrite Hst; apply pick_ok_same; [| |done]; intros; rewrite ?left_master_snoc, ?stray_snoc, Hst; intuition congruence).
  - by apply pick_stray.
  - destruct (down_since hc (gs_Addr x)) as [n|] eqn:Hd; [destruct (decide (0 <= n)); [by eapply pick_candidate|]|].
    + unfold pick_one. rewrite Hst, Hd. cbv zeta. rewrite (decide_False (P := _ /\ n < _)) by lia. rewrite decide_False by lia.
      apply pick_ok_same; [| |done]; intros; rewrite ?left_master_snoc, ?stray_snoc, Hst, ?Hd; intuition (congruence || (simplify_eq; lia)).
    + unfold pick_one. rewrite Hst, Hd. apply pick_ok_same; [| |done]; intros; rewrite ?left_master_snoc, ?stray_snoc, Hst, ?Hd; intuition congruence.
Qed.

Lemma pick_loop_ok bound xs : ∀ done st, pick_ok bound done st → pick_ok bound (done ++ xs) (pick_loop hc st (S (length done)) xs).
Proof.
  induction xs as [|x xs IH]; intros l st Hok; cbn [pick_loop]; [by rewrite app_nil_r|].
  specialize (IH (l ++ [x]) _ (pick_one_ok bound l x st Hok)). rewrite <-app_assoc, length_app in IH. cbn in IH.
  by replace (length l + 1)%nat with (S (length l)) in IH by lia.
Qed.

(** what [pick_slave] picks *)
Definition picks (xs : list GroupServer) (maxdown : Z) (i : nat) : Prop :=
  (∃ n, best xs (maxdown + 1) i n) \/
  (none_below xs (maxdown + 1) /\ ∃ n, best xs 65535 i n) \/
  (none_below xs (maxdown + 1) /\ none_below xs 65535 /\ if decide (i = O) then ∀ j, ~ stray xs j else first_stray xs i).

Lemma pick_slave_spec maxdown g : 0 <= maxdown < 2 ^ 62 → picks (drop 1 (g_Servers g)) maxdown (pick_slave hc maxdown g).
Proof.
  intros Hmax. unfold pick_slave. cbv zeta. rewrite i64_id by (unfold max_int64; lia).
  set (xs := drop 1 (g_Servers g)). set (st0 := mkPick 0 (maxdown + 1) 0 65535).
  assert (pick_ok (maxdown + 1) [] st0) as H0.
  { assert (∀ i n, ~ left_master [] i n) as Hc by (intros i n []%left_master_bound; cbn in *; lia).
    split; cbn; [split; [done|]; by intros j m ?%Hc|]. intros _. left. split; [done|]. split; [by intros j m ?%Hc|].
    intros j ?%stray_bound. cbn in *. lia. }
  destruct (pick_loop_ok (maxdown + 1) xs [] st0 H0) as [H1 H2]. cbn [app length] in H1, H2.
  set (st := pick_loop hc st0 1 xs) in *. unfold picks. destruct (decide (pk_picked st = O)) as [Hz|Hz]; [|left; eauto].
  right. destruct H1 as [_ H1]. destruct (H2 Hz) as [(_ & Hb & Hf)|(_ & Hb)]; [right|left]; eauto.
Qed.
End pick.

(** * The calls of a round *)
Lemma find_spec {A} (p : A → bool) l : match List.find p l with
  | Some x => x ∈ l /\ p x = true
  | None => ∀ x, x ∈ l → p x = false
  end.
Proof.
  destruct (List.find p l) as [x|] eqn:Hf; [apply List.find_some in Hf as [?%list_elem_of_In ?]; done|].
  intros x Hx%list_elem_of_In. by eapply List.find_none.
Qed.

(** a bad replica of a group whose master is not bad *)
Definition removable (hc : HealthyChecker) (gid : Z) (addr : string) : Prop :=
  ∃ g i x, g ∈ ts_Groups (hc_Stats hc) /\ g_Id g = gid /\ (0 < i)%nat /\ g_Servers g !! i = Some x /\ gs_Addr x = addr /\
    bad_server (sstatus hc addr) = true /\ bad_server (sstatus hc (first_addr g)) = false.

Lemma bad_replica_spec hc gid xs : match bad_replica hc gid xs with
  | SDel g a => g = gid /\ bad_server (sstatus hc a) = true /\ ∃ i x, xs !! i = Some x /\ gs_Addr x = a
  | SNone => ∀ x, x ∈ xs → bad_server (sstatus hc (gs_Addr x)) = false
  | SFail => False
  end.
Proof.
  induction xs as [|x xs IH]; cbn; [by intros x ?%not_elem_of_nil|].
  destruct (bad_server _) eqn:Hb.
  - split; [done|]. split; [done|]. by exists O, x.
  - destruct (bad_replica hc gid xs); [|done|].
    + intros y [->|Hy]%elem_of_cons; [done|by apply IH].
    + destruct IH as (-> & Hbad & i & y & Hy & <-). split; [done|]. split; [done|]. by exists (S i), y.
Qed.

Lemma search_spec hc gs : (∀ g, g ∈ gs → g ∈ ts_Groups (hc_Stats hc)) →
  match search_groups hc gs with SDel gid a => removable hc gid a | _ => True end.
Proof.
  induction gs as [|g gs IH]; intros Hsub; cbn; [done|].
  assert (match search_groups hc gs with SDel gid a => removable hc gid a | _ => True end) as Hrest.
  { apply IH. intros g' ?. apply Hsub. by right. }
  destruct (g_Servers g) as [|x [|y xs]] eqn:Hs; [done|done|].
  destruct (bad_server (sstatus hc (gs_Addr x))) eqn:Hx; [done|].
  pose proof (bad_replica_spec hc (g_Id g) (y :: xs)) as Hr. destruct (bad_replica hc (g_Id g) (y :: xs)) as [| |gid a]; [done|done|].
  destruct Hr as (-> & Hbad & i & z & Hz & <-). exists g, (S i), z. split; [apply Hsub; by left|]. split; [done|]. split; [lia|].
  rewrite Hs. split; [done|]. split; [done|]. split; [done|]. unfold first_addr. by rewrite Hs.
Qed.

(** a replica that takes the place of a dead master *)
Definition promotable (hc : HealthyChecker) (maxdown gid : Z) (addr : string) : Prop :=
  ∃ g i x, g ∈ ts_Groups (hc_Stats hc) /\ g_Id g = gid /\ dead_server (sstatus hc (first_addr g)) = true /\
    pr_State (g_Promoting g) = ActionNothing /\ (0 < i)%nat /\ g_Servers g !! i = Some x /\ gs_Addr x = addr /\
    picks hc (drop 1 (g_Servers g)) maxdown i.

Lemma picks_replica hc maxdown g i : picks hc (drop 1 (g_Servers g)) maxdown i → i ≠ O →
  ∃ x, g_Servers g !! i = Some x.
Proof.
  assert (∀ j y, (1 <= j)%nat → drop 1 (g_Servers g) !! (j - 1)%nat = Some y → g_Servers g !! j = Some y) as Hd.
  { intros j y Hj. rewrite lookup_drop. by replace (1 + (j - 1))%nat with j by lia. }
  intros [(n & (x & ? & Hx & _) & _)|[(_ & n & (x & ? & Hx & _) & _)|(_ & _ & Hi)]] Hne; [eauto..|].
  rewrite decide_False in Hi by done. destruct Hi as [(x & ? & Hx & _) _]. eauto.
Qed.

Lemma promotion_spec hc maxdown g c : 0 <= maxdown < 2 ^ 62 → g ∈ ts_Groups (hc_Stats hc) → c ∈ promotion hc maxdown g →
  ∃ addr, c = PromoteServer (g_Id g) addr /\ promotable hc maxdown (g_Id g) addr.
Proof.
  intros Hmax Hg. unfold promotion. destruct (g_Servers g) as [|x0 xs] eqn:Hs; [by intros ?%not_elem_of_nil|].
  destruct (dead_server _) eqn:Hdead; [|by intros ?%not_elem_of_nil]. cbv zeta. rewrite <-Hs.
  case_decide as Hi; [by intros ?%not_elem_of_nil|]. case_decide as Hp; [by intros ?%not_elem_of_nil|].
  pose proof (pick_slave_spec hc maxdown g Hmax) as Hpick.
  destruct (g_Servers g !! pick_slave hc maxdown g) as [y|] eqn:Hy; [|by intros ?%not_elem_of_nil].
  intros ->%list_elem_of_singleton. exists (gs_Addr y). split; [done|]. exists g, (pick_slave hc maxdown g), y.
  split_and!; try done; [by unfold first_addr; rewrite Hs|lia].
Qed.

Lemma promotions_spec hc maxdown c : 0 <= maxdown < 2 ^ 62 → c ∈ concat (promotion hc maxdown <$> ts_Groups (hc_Stats hc)) →
  ∃ g addr, c = PromoteServer (g_Id g) addr /\ promotable hc maxdown (g_Id g) addr.
Proof.
  intros Hmax (l & (g & -> & Hg)%list_elem_of_In%list_elem_of_fmap & Hc%list_elem_of_In)%list_elem_of_In%List.in_concat.
  apply promotion_spec in Hc; eauto.
Qed.

Section round.
Context {W : Type} (call : ha_call → W → bool * W).

Lemma call_all_calls cs : ∀ w, (call_all call cs w).1 = cs.
Proof.
  induction cs as [|c cs IH]; intros w; cbn; [done|]. specialize (IH (call c w).2).
  destruct (call_all call cs (call c w).2). cbn in *. by rewrite IH.
Qed.

Lemma call_until_calls cs : ∀ w, ∃ k, (call_until call cs w).1 = take k cs /\ (k = length cs \/ (0 < k)%nat).
Proof.
  induction cs as [|c cs IH]; intros w; cbn; [exists O; auto|]. destruct (call c w) as [[] w1].
  - destruct (IH w1) as (k & Hk & _). destruct (call_until call cs w1). cbn in *. exists (S k). rewrite Hk. split; [done|right; lia].
  - exists 1%nat. split; [by destruct cs|right; lia].
Qed.

(** C30: what a round of codis-ha does, whatever the statistics say and whatever its calls
    answer.  A proxy is removed only when its statistics are bad, and then nothing else
    happens; a server is removed only as a bad replica of a group whose master is not bad,
    never as the first of its group; a server is shut down only after it was removed from
    its group; a replica is promoted only when the master of its group is dead and no
    promotion of the group is under way, and it is the replica that lost its master
    most recently, within the time allowed if there is one, or failing all of them the
    first replica that follows another server.  This is less than two comments of
    [Maintains] say, of which the code does not do the rest: a master that is not dead but
    follows another server is not replaced ([stray_master_kept]), and a bad master that is
    alone in its group is not removed. *)
Theorem ha_round hc maxdown w : 0 <= maxdown < 2 ^ 62 → let calls := (Maintains call hc maxdown w).1 in
  (∀ token, RemoveProxyForced token ∈ calls → calls = [RemoveProxyForced token] /\
     ∃ p, p ∈ ts_Proxies (hc_Stats hc) /\ p_Token p = token /\ bad_proxy (pstatus hc token) = true) /\
  (∀ gid addr, DelServer gid addr ∈ calls → removable hc gid addr) /\
  (∀ addr, ShutdownServer addr ∈ calls → ∃ gid, calls = [DelServer gid addr; ConnectServer addr; ShutdownServer addr]) /\
  (∀ gid addr, PromoteServer gid addr ∈ calls → promotable hc maxdown gid addr /\
     ∀ p, p ∈ ts_Proxies (hc_Stats hc) → bad_proxy (pstatus hc (p_Token p)) = false).
Proof.
  intros Hmax. cbv zeta. unfold Maintains. pose proof (find_spec (λ p, bad_proxy (pstatus hc (p_Token p))) (ts_Proxies (hc_Stats hc))) as Hf.
  destruct (List.find _ _) as [p|].
  { assert ((call_until call [RemoveProxyForced (p_Token p)] w).1 = [RemoveProxyForced (p_Token p)]) as ->.
    { cbn. by destruct (call _ w) as [[] ?]. }
    split_and!; intros *; rewrite list_elem_of_singleton; try done. intros [= ->]. split; [done|]. destruct Hf. by exists p. }
  pose proof (search_spec hc (ts_Groups (hc_Stats hc)) (λ _ H, H)) as Hs. destruct (search_groups _ _) as [| |gid a].
  1,2: rewrite call_all_calls; split_and!; intros * Hin; apply (promotions_spec hc maxdown _ Hmax) in Hin as (g & b & [= -> ->] & Hb);
    (split; [done|exact Hf]).
  destruct (call_until_calls [DelServer gid a; ConnectServer a; ShutdownServer a] w) as (k & -> & Hk). split_and!.
  - intros token. destruct k as [|[|[|[|k]]]]; cbn; rewrite ?elem_of_cons, ?elem_of_nil; intuition congruence.
  - intros gid' addr. destruct k as [|[|[|[|k]]]]; cbn; rewrite ?elem_of_cons, ?elem_of_nil; intuition (simplify_eq; done).
  - intros addr. destruct k as [|[|[|[|k]]]]; cbn; rewrite ?elem_of_cons, ?elem_of_nil; intuition (simplify_eq; eauto).
  - intros gid' addr. destruct k as [|[|[|[|k]]]]; cbn; rewrite ?elem_of_cons, ?elem_of_nil; intuition congruence.
Qed.

(** C31: for a dead master codis-ha asks the dashboard for a promotion in the same round.
    When no proxy is bad and no replica of the groups before it is, then for a group whose
    first server is dead, that is not being promoted and has a replica that lost its
    master less than 65535 seconds ago, or one that follows another server, a round
    calls the promotion of the replica that the selection rule names.  Whether the
    dashboard carries it out is the dashboard's. *)
Theorem ha_failover hc maxdown w before g after : 0 <= maxdown < 2 ^ 62 →
  (∀ p, p ∈ ts_Proxies (hc_Stats hc) → bad_proxy (pstatus hc (p_Token p)) = false) →
  ts_Groups (hc_Stats hc) = before ++ g :: after →
  (∀ g', g' ∈ before → ∀ x, x ∈ drop 1 (g_Servers g') → bad_server (sstatus hc (gs_Addr x)) = false) →
  g_Servers g ≠ [] → dead_server (sstatus hc (first_addr g)) = true → pr_State (g_Promoting g) = ActionNothing →
  ((∃ i n, left_master hc (drop 1 (g_Servers g)) i n /\ n < 65535) \/ (∃ i, stray hc (drop 1 (g_Servers g)) i)) →
  ∃ i x, g_Servers g !! i = Some x /\ picks hc (drop 1 (g_Servers g)) maxdown i /\
    PromoteServer (g_Id g) (gs_Addr x) ∈ (Maintains call hc maxdown w).1.
Proof.
  intros Hmax Hproxies Hgs Hbefore Hne Hdead Hprom Hrep.
  pose proof (pick_slave_spec hc maxdown g Hmax) as Hpick. set (i := pick_slave hc maxdown g) in *.
  assert (i ≠ O) as Hi.
  { intros Hi. rewrite Hi in Hpick. destruct Hpick as [(n & Hc & _)|[(_ & n & Hc & _)|(_ & Hb & Hs)]].
    1,2: destruct Hc as (? & ? & _); lia. rewrite decide_True in Hs by done.
    destruct Hrep as [(j & n & Hc & Hn)|(j & Hj)]; [specialize (Hb j n Hc); lia|by apply (Hs j)]. }
  destruct (picks_replica hc maxdown g i Hpick Hi) as [x Hx]. exists i, x. split; [done|]. split; [done|].
  unfold Maintains. pose proof (find_spec (λ p, bad_proxy (pstatus hc (p_Token p))) (ts_Proxies (hc_Stats hc))) as Hf.
  destruct (List.find _ _) as [p|]; [destruct Hf as [Hp Hbad]; rewrite Hproxies in Hbad by done; done|]. clear Hf.
  assert (∀ gid a, search_groups hc (ts_Groups (hc_Stats hc)) ≠ SDel gid a) as Hsearch.
  { rewrite Hgs. clear Hgs. intros gid a. induction before as [|b before IH]; cbn [app search_groups].
    - unfold first_addr in Hdead. destruct (g_Servers g) as [|x0 [|y ys]] eqn:Hs; [done| |].
      + destruct i as [|[|]]; [done|done|done].
      + by destruct (sstatus hc (gs_Addr x0)) as [[]|].
    - assert (search_groups hc (before ++ g :: after) ≠ SDel gid a) as Hrest. { apply IH. intros g' ?. apply Hbefore. by right. }
      destruct (g_Servers b) as [|x0 [|y ys]] eqn:Hs; [done|done|]. destruct (bad_server _); [done|].
      pose proof (bad_replica_spec hc (g_Id b) (y :: ys)) as Hr. destruct (bad_replica _ _ _) as [| |g0 a0]; [done|done|].
      destruct Hr as (_ & Hbad & k & z & Hz & <-). rewrite (Hbefore b) in Hbad; [done|by left|]. rewrite Hs.
      by eapply list_elem_of_lookup_2. }
  destruct (search_groups _ _) as [| |gid a] eqn:Hsr; [| |by destruct (Hsearch gid a)].
  all: rewrite call_all_calls, list_elem_of_In; apply List.in_concat; exists (promotion hc maxdown g);
    rewrite <-!list_elem_of_In, list_elem_of_fmap; (split; [exists g; rewrite Hgs; set_solver|]);
    unfold promotion; destruct (g_Servers g) as [|x0 xs] eqn:Hs; [done|]; unfold first_addr in Hdead; rewrite Hs in Hdead;
    rewrite Hdead; cbv zeta; fold i; rewrite (decide_False (P := i = O)) by done; rewrite decide_False by naive_solver;
    rewrite Hx; by apply list_elem_of_singleton.
Qed.

(** A failed removal of a replica ends the round: no dead master is replaced. *)
Lemma ha_refused hc maxdown w gid addr w1 :
  (∀ p, p ∈ ts_Proxies (hc_Stats hc) → bad_proxy (pstatus hc (p_Token p)) = false) →
  search_groups hc (ts_Groups (hc_Stats hc)) = SDel gid addr → call (DelServer gid addr) w = (false, w1) →
  Maintains call hc maxdown w = ([DelServer gid addr], w1).
Proof.
  intros Hproxies Hs Hcall. unfold Maintains.
  pose proof (find_spec (λ p, bad_proxy (pstatus hc (p_Token p))) (ts_Proxies (hc_Stats hc))) as Hf.
  destruct (List.find _ _) as [p|]; [destruct Hf as [Hp Hbad]; rewrite Hproxies in Hbad by done; done|].
  rewrite Hs. cbn. by rewrite Hcall.
Qed.
End round.

(** * Against the dashboard *)
Section dashboard.
Context `{Env} `{TopomState.Config} `{UnicodeUpper} `{RBTree} `{!EnvLaws}.
(** how the n-th request ends: a request that fails may have been carried out *)
Context (net : nat → write_outcome).

(** the dashboard, the number of requests so far, and the servers that were shut down with
    the store of that moment *)
Record haworld := mkHaW { hw_world : world; hw_sent : nat; hw_down : list (string * db) }.

Definition remote (o : op) (w : haworld) : bool * haworld :=
  match net (hw_sent w) with
  | WriteErr false => (false, mkHaW (hw_world w) (S (hw_sent w)) (hw_down w))
  | r => let '(res, w') := run_op o (hw_world w) in
      (match res, r with Ok _, WriteOk => true | _, _ => false end, mkHaW w' (S (hw_sent w)) (hw_down w))
  end.

Definition dash_call (c : ha_call) (w : haworld) : bool * haworld :=
  match c with
  | RemoveProxyForced token => remote (OpRemoveProxy token true) w
  | DelServer gid addr => remote (OpGroupDelServer gid addr) w
  | PromoteServer gid addr => remote (OpGroupPromoteServer gid addr) w
  | ConnectServer addr =>
      (match net (hw_sent w) with WriteOk => true | _ => false end, mkHaW (hw_world w) (S (hw_sent w)) (hw_down w))
  | ShutdownServer addr =>
      match net (hw_sent w) with
      | WriteErr false => (false, mkHaW (hw_world w) (S (hw_sent w)) (hw_down w))
      | r => (match r with WriteOk => true | _ => false end,
              mkHaW (hw_world w) (S (hw_sent w)) (hw_down w ++ [(addr, w_db (hw_world w))]))
      end
  end.

Definition in_no_group (addr : string) (d : db) : Prop := ∀ k g, db_group d !! k = Some g → addr ∉ addrs g.

Lemma GroupDelServer_okp S gid addr w : reach S w → okp (GroupDelServer gid addr) (λ _ w', in_no_group addr (w_db w')) w.
Proof.
  intros Hw%reach_Inv. pose proof Hw as [_ Hcl _ _]. apply (newContext_okp S w); [done|].
  intros w1 hosts Ho _ _. pose proof (proj1 Ho) as Hdb. apply okp_bind, okp_lift. intros g Hg%getGroup_Ok. cbn in Hg.
  destruct (ok_group _ Hcl gid g Hg) as (_ & Hid & Hnd & _).
  apply okp_bind, okp_lift. intros index Hi. unfold getGroupIndex in Hi. destruct (find_server _ _ _) eqn:Hf; simplify_eq.
  apply find_server_Some in Hf as (x & _ & Hx & <-). rewrite Z.sub_0_r in Hx.
  case_decide; [apply okp_fail|]. case_decide; [apply okp_fail|].
  apply (okp_sentinel _ _ (λ _ d', in_no_group (gs_Addr x) d')); [intros w2; done|].
  intros w2 E1 _. okp_step. cbv zeta. okp_step. apply okp_put_group. intros w3 E2. apply okp_store_write. intros w4 E3. intros k g'.
  cbn [w_db set_cache dirtyGroupCache push_hook]. rewrite E3. cbn [db_group db_set_group]. rewrite E2.
  assert (g_Id (without_server index g) = g_Id g) as ->.
  { unfold without_server. destruct (drop_server _ _); cbn; by repeat case_decide. }
  rewrite E1, Hdb. assert (gs_Addr x ∈ addrs g) as Hin by (unfold addrs; apply list_elem_of_fmap_2; by eapply list_elem_of_lookup_2).
  intros [[<- <-]|[Hne Hk]]%lookup_insert_Some Ha.
  - unfold addrs in Hnd, Ha. cbn in Ha. unfold drop_server in Ha. rewrite list_fmap_delete in Ha.
    assert ((gs_Addr <$> g_Servers g) !! Z.to_nat index = Some (gs_Addr x)) as Hl by by rewrite list_lookup_fmap, Hx.
    pose proof (delete_Permutation _ _ _ Hl) as Hp. rewrite Hp in Hnd. by apply NoDup_cons in Hnd as [? _].
  - apply Hne. by eapply (ok_uniq _ Hcl).
Qed.

Lemma remote_reach o w : reach false (hw_world w) → let '(ok, w') := remote o w in
  reach false (hw_world w') /\ hw_down w' = hw_down w /\
  (ok = true → ∃ u, run_op o (hw_world w) = (Ok u, hw_world w')).
Proof.
  intros Hw. unfold remote. destruct (net _) as [|[]].
  - pose proof (reach_op false _ o Hw ltac:(done)) as Hr. destruct (run_op o (hw_world w)) as [r w'] eqn:Hrun. cbn in *.
    split; [done|]. split; [done|]. destruct r; [eauto|done..].
  - pose proof (reach_op false _ o Hw ltac:(done)) as Hr. destruct (run_op o (hw_world w)) as [r w']. cbn in *.
    split; [done|]. split; [done|]. by destruct r.
  - split; [done|]. split; [done|done].
Qed.

Definition down_ok (w : haworld) : Prop := reach false (hw_world w) /\ ∀ a d, (a, d) ∈ hw_down w → in_no_group a d.

Lemma remote_down o w : down_ok w → down_ok (remote o w).2.
Proof. intros [Hr Hd]. pose proof (remote_reach o w Hr) as Hx. destruct (remote o w) as [ok w']. destruct Hx as (Ha & Hb & _). split; [done|]. cbn. by rewrite Hb. Qed.

Lemma promotions_down hc maxdown gs : ∀ w, down_ok w → down_ok (call_all dash_call (concat (promotion hc maxdown <$> gs)) w).2.
Proof.
  assert (∀ cs, Forall (λ c, ∃ gid a, c = PromoteServer gid a) cs → ∀ w, down_ok w → down_ok (call_all dash_call cs w).2) as Hall.
  { induction cs as [|c cs IH]; intros Hcs w Hw; cbn; [done|]. apply Forall_cons in Hcs as [(gid & a & ->) Hcs].
    specialize (IH Hcs (dash_call (PromoteServer gid a) w).2 (remote_down _ _ Hw)).
    by destruct (call_all dash_call cs (dash_call (PromoteServer gid a) w).2). }
  apply Hall, Forall_concat, Forall_fmap, Forall_forall. intros g _. unfold compose, promotion.
  destruct (g_Servers g) eqn:Hs; [constructor|]. destruct (dead_server _); [|constructor]. cbv zeta. rewrite <-Hs. case_decide; [constructor|].
  case_decide; [constructor|]. destruct (_ !! _); [|constructor]. repeat constructor. eauto.
Qed.

(** A round of codis-ha leaves the dashboard in a reachable state, whatever the
    statistics say and however its requests end, and a server that it shuts down belongs
    to no group of the store at that moment. *)
Theorem ha_shutdown_safe hc maxdown w : down_ok w → down_ok (Maintains dash_call hc maxdown w).2.
Proof.
  intros Hw. unfold Maintains. destruct (List.find _ _) as [p|].
  { cbn. pose proof (remote_down (OpRemoveProxy (p_Token p) true) w Hw) as Hr. by destruct (remote _ w) as [[] ?]. }
  destruct (search_groups _ _) as [| |gid a]; [by apply promotions_down..|].
  cbn [call_until]. destruct Hw as [Hw Hd]. pose proof (remote_reach (OpGroupDelServer gid a) w Hw) as Hrem.
  destruct (dash_call (DelServer gid a) w) as [ok1 w1] eqn:Hc1. cbn [dash_call] in Hc1. rewrite Hc1 in Hrem.
  destruct Hrem as (Hr1 & Hd1 & Hok). assert (down_ok w1) as Hw1 by (split; [done|]; by rewrite Hd1).
  destruct ok1; [|done]. destruct (Hok eq_refl) as [u Hrun]. cbn [run_op] in Hrun.
  assert (in_no_group a (w_db (hw_world w1))) as Hno by exact (GroupDelServer_okp false gid a (hw_world w) Hw u _ Hrun).
  cbn [dash_call]. destruct (net (hw_sent w1)) as [|b]; [|exact Hw1]. cbn [hw_sent hw_world hw_down].
  destruct (net (S (hw_sent w1))) as [|[]]; cbn; try exact Hw1.
  all: split; [done|]; cbn; intros a' d'; rewrite Hd1; intros [?|[= -> ->]%list_elem_of_singleton]%elem_of_app; [eauto|done].
Qed.

(** A group whose promotion does not end has its replicas removed by nobody, and a round of
    codis-ha that tries ends there. *)
Lemma promoting_refuses S gid addr g w : reach S w → db_group (w_db w) !! gid = Some g → pr_State (g_Promoting g) ≠ ActionNothing →
  wp (GroupDelServer gid addr) (λ r w', w_db w' = w_db w /\ ∃ e, r = Err e) w.
Proof.
  intros Hw%reach_Inv Hg Hp. apply (newContext_start S w); [done|..]; [|intros e w' _ Hdb; split; [done|by exists e]].
  intros w1 hosts Ho _ _. pose proof (proj1 Ho) as Hdb.
  apply wp_lift_bind; unfold getGroup; cbn [ctx_group ctx_db]; rewrite Hg; [|done..]. intros g' [= <-].
  apply wp_lift_bind; [|intros e _; split; [done|by exists e]|by intros ?%getGroupIndex_no_panic].
  intros index _. rewrite decide_True by done. apply wp_fail. split; [done|eauto].
Qed.

(** A stuck promotion stops every failover: while it lasts, with a bad replica in its group
    and the groups before it in order, each round makes one call, which is refused and
    changes nothing, whatever masters of other groups are dead. *)
Lemma ha_blocked hc maxdown w gid addr g : reach false (hw_world w) →
  (∀ p, p ∈ ts_Proxies (hc_Stats hc) → bad_proxy (pstatus hc (p_Token p)) = false) →
  search_groups hc (ts_Groups (hc_Stats hc)) = SDel gid addr →
  db_group (w_db (hw_world w)) !! gid = Some g → pr_State (g_Promoting g) ≠ ActionNothing →
  let '(calls, w') := Maintains dash_call hc maxdown w in
  calls = [DelServer gid addr] /\ w_db (hw_world w') = w_db (hw_world w).
Proof.
  intros Hw Hproxies Hs Hg Hp. pose proof (promoting_refuses false gid addr g _ Hw Hg Hp) as Hwp. unfold wp in Hwp.
  assert (∃ w1, dash_call (DelServer gid addr) w = (false, w1) /\ w_db (hw_world w1) = w_db (hw_world w)) as (w1 & Hc & Hdb).
  { cbn [dash_call]. unfold remote. destruct (net _) as [|[]]; cbn [run_op]; [| |by eexists].
    all: destruct (GroupDelServer gid addr (hw_world w)) as [r w']; destruct Hwp as (Hdb & e & He); cbn in He; subst r; by eexists. }
  by rewrite (ha_refused dash_call hc maxdown w gid addr w1).
Qed.
End dashboard.

(** * The statuses *)
Lemma foldl_insert_in {V} (l : list (string * V)) (m : gmap string V) k v : NoDup l.*1 → (k, v) ∈ l → foldl (λ m kv, <[kv.1 := kv.2]> m) m l !! k = Some v.
Proof.
  assert (∀ (l : list (string * V)) (m : gmap string V), k ∉ l.*1 → foldl (λ m kv, <[kv.1 := kv.2]> m) m l !! k = m !! k) as Hout.
  { clear. induction l as [|[k' v'] l IH]; intros m Hk; cbn; [done|]. cbn in Hk. rewrite IH by set_solver. apply lookup_insert_ne. set_solver. }
  revert m. induction l as [|[k' v'] l IH]; intros m Hnd Hin; [by apply not_elem_of_nil in Hin|].
  cbn in Hnd |- *. apply NoDup_cons in Hnd as [Hk' Hnd]. apply elem_of_cons in Hin as [[= <- <-]|Hin]; [|by apply IH].
  rewrite Hout by done. by rewrite lookup_insert_eq.
Qed.

(** the addresses of all servers; they are distinct in a well-formed cluster *)
Definition all_addrs (gs : list Group) : list string := concat (addrs <$> gs).

Lemma group_codes_keys stats g : (group_codes stats g).*1 = addrs g.
Proof. unfold group_codes, addrs. rewrite fmap_imap. unfold compose. cbn. apply imap_const. Qed.

Lemma sstatus_of stats g i x : NoDup (all_addrs (ts_Groups stats)) → g ∈ ts_Groups stats → g_Servers g !! i = Some x →
  sstatus (newHealthyChecker stats) (gs_Addr x) = Some (server_code i (first_addr g) (ts_GroupStats stats !! gs_Addr x)).
Proof.
  intros Hnd Hg Hx. unfold sstatus, newHealthyChecker. cbn [hc_sstatus]. apply foldl_insert_in.
  - assert ((concat (group_codes stats <$> ts_Groups stats)).*1 = all_addrs (ts_Groups stats)) as ->; [|done].
    unfold all_addrs. generalize (ts_Groups stats). intros gs. induction gs as [|g' gs IH]; cbn; [done|].
    by rewrite fmap_app, group_codes_keys, IH.
  - apply list_elem_of_In, List.in_concat. exists (group_codes stats g). rewrite <-!list_elem_of_In. split; [by apply list_elem_of_fmap_2|].
    unfold group_codes. apply list_elem_of_lookup. exists i. by rewrite list_lookup_imap, Hx.
Qed.

Lemma pstatus_of stats p : p ∈ ts_Proxies stats →
  pstatus (newHealthyChecker stats) (p_Token p) = Some (proxy_code (ts_ProxyStats stats !! p_Token p)).
Proof.
  unfold pstatus, newHealthyChecker. cbn [hc_pstatus]. generalize (ts_Proxies stats), (∅ : gmap string pcode).
  assert (∀ (l : list Proxy) (m : gmap string pcode), m !! p_Token p = Some (proxy_code (ts_ProxyStats stats !! p_Token p)) →
    foldl (λ m p, <[p_Token p := proxy_code (ts_ProxyStats stats !! p_Token p)]> m) m l !! p_Token p =
    Some (proxy_code (ts_ProxyStats stats !! p_Token p))) as Hkeep.
  { induction l as [|q l IH]; intros m Hm; cbn; [done|]. apply IH. rewrite lookup_insert. case_decide as Heq; [by rewrite Heq|done]. }
  induction l as [|q l IH]; intros m Hin; [by apply not_elem_of_nil in Hin|]. cbn.
  apply elem_of_cons in Hin as [<-|Hin]; [|by apply IH]. apply Hkeep. by rewrite lookup_insert_eq.
Qed.

(** A proxy that is registered, but that no refresh has asked yet, is removed: the round does
    nothing but removing it, or another proxy that looks bad. *)
Lemma ha_unseen {W} (call : ha_call → W → bool * W) stats maxdown w p :
  p ∈ ts_Proxies stats → ts_ProxyStats stats !! p_Token p = None →
  (∀ q, q ∈ ts_Proxies stats → p_Token q ≠ p_Token p → proxy_code (ts_ProxyStats stats !! p_Token q) = CodeAlive) →
  (Maintains call (newHealthyChecker stats) maxdown w).1 = [RemoveProxyForced (p_Token p)].
Proof.
  intros Hp Hnone Hothers. unfold Maintains. cbn [hc_Stats newHealthyChecker].
  pose proof (find_spec (λ q, bad_proxy (pstatus (newHealthyChecker stats) (p_Token q))) (ts_Proxies stats)) as Hf.
  destruct (List.find _ _) as [q|].
  - destruct Hf as [Hq Hbad]. rewrite pstatus_of in Hbad by done. destruct (decide (p_Token q = p_Token p)) as [->|Hne].
    + cbn. by destruct (call _ w) as [[] ?].
    + rewrite Hothers in Hbad by done. done.
  - specialize (Hf p Hp). cbn beta in Hf. rewrite pstatus_of, Hnone in Hf by done. done.
Qed.

(** * Concrete rounds *)

(** the environment of TopomTheorems, with a proxy that is found when one is added *)
Definition calm_new : Env := {|
  env_read _ := true; env_write _ := WriteOk; env_fill _ := FillOk; env_call _ := true;
  env_model _ := Some (demo_proxy "n"); env_migrate _ := Some 0; env_keyspace _ := Some [];
  env_runid _ _ := ""%string; env_resolve _ _ := None; env_now _ := ""%string;
  env_range _ l := l; env_range_tokens _ l := l
|}.

(** both proxies have just answered that they are fine; then a third is added *)
Definition fine_proxy : PStats := mkPStats true false None.
Definition demo_stats_events : list sevent :=
  [EvAskProxies; EvProxy 0 0 (RValue fine_proxy) 1; EvProxy 0 0 (RValue fine_proxy) 2; EvProxiesDone 0; EvOp (OpCreateProxy "n:1")].
Definition demo_sworld : sworld := mkSW w_online ∅ ∅ [] [] [].

(** codis-ha removes the third before a refresh has asked it *)
Lemma new_proxy_removed :
  match @srun calm_new demo_config demo_upper list_tree demo_stats_events demo_sworld with
  | Some w =>
      match @Stats calm_new demo_config demo_upper w with
      | (Ok stats, w') =>
          let '(calls, w2) := Maintains (@dash_call calm_new demo_config demo_upper list_tree (λ _, WriteOk))
            (newHealthyChecker stats) 50 (mkHaW (sw_world w') 0 []) in
          calls = [RemoveProxyForced "n"] /\ (map_to_list (db_proxy (w_db (sw_world w)))).*1 ≡ₚ ["p"; "q"; "n"]%string /\
          (map_to_list (db_proxy (w_db (hw_world w2)))).*1 ≡ₚ ["p"; "q"]%string
      | _ => False
      end
  | None => False
  end.
Proof. vm_compute. split; [done|]. split; solve_Permutation. Qed.

(** ** A dead master *)
Definition redis_info (l : list (string * string)) : RedisStats :=
  mkRedisStats (Some (list_to_map ((λ kv, (bstr kv.1, bstr kv.2)) <$> l))) None None 0 false.
Definition replica_info (master link since : string) : RedisStats :=
  redis_info [("master_addr", master); ("master_link_status", link); ("master_link_down_since_seconds", since)].

Definition demo_tstats (servers : list (string * RedisStats)) : TStats :=
  mkTStats false [] [new_group 1 [demo_server "a:1"; demo_server "a:2"; demo_server "a:3"]; new_group 2 [demo_server "b:1"; demo_server "b:2"]]
    (list_to_map servers) [] ∅ 0 false 0 (Models.mkSentinel [] false) ∅ ∅.

(** group 1 has lost its master, its replicas lost it 30 and 10 seconds ago *)
Definition dead_master : TStats := demo_tstats
  [("a:1", newRedisStats RTimeout 0); ("a:2", replica_info "a:1" "down" "30"); ("a:3", replica_info "a:1" "down" "10");
   ("b:1", redis_info []); ("b:2", replica_info "b:1" "up" "")]%string.
(** a replica of group 1 does not answer *)
Definition dead_replica : TStats := demo_tstats
  [("a:1", redis_info []); ("a:2", newRedisStats RTimeout 0); ("a:3", replica_info "a:1" "up" "");
   ("b:1", redis_info []); ("b:2", replica_info "b:1" "up" "")]%string.

Definition says_yes (c : ha_call) (w : unit) : bool * unit := (true, tt).

Lemma ha_round_witness :
  (Maintains says_yes (newHealthyChecker dead_master) 50 tt).1 = [PromoteServer 1 "a:3"] /\
  promotable (newHealthyChecker dead_master) 50 1 "a:3".
Proof.
  split; [by vm_compute|].
  destruct (ha_round says_yes (newHealthyChecker dead_master) 50 tt) as (_ & _ & _ & Hp); [lia|].
  apply Hp. vm_compute. by left.
Defined.

Lemma ha_failover_witness :
  ∃ i x, g_Servers (new_group 1 [demo_server "a:1"; demo_server "a:2"; demo_server "a:3"]) !! i = Some x /\
    picks (newHealthyChecker dead_master) [demo_server "a:2"; demo_server "a:3"] 50 i /\
    PromoteServer 1 (gs_Addr x) ∈ (Maintains says_yes (newHealthyChecker dead_master) 50 tt).1.
Proof.
  apply (ha_failover says_yes (newHealthyChecker dead_master) 50 tt []
    (new_group 1 [demo_server "a:1"; demo_server "a:2"; demo_server "a:3"]) [new_group 2 [demo_server "b:1"; demo_server "b:2"]]).
  - lia.
  - intros p Hp. by apply not_elem_of_nil in Hp.
  - done.
  - intros g Hg. by apply not_elem_of_nil in Hg.
  - done.
  - by vm_compute.
  - done.
  - left. exists 1%nat, 30. split; [|lia]. exists (demo_server "a:2"). split; [lia|]. split; [done|]. split; [by vm_compute|].
    split; [by vm_compute|lia].
Defined.

Lemma reach_unforced `{Env, TopomState.Config, UnicodeUpper, RBTree} w : reach true w → reach false w.
Proof.
  induction 1 as [w [? ? ? ? ?]|w o _ IH _|w _ IH|w t _ IH]; [by apply reach_init|by apply reach_op|by apply reach_restart|by apply reach_proxy_exit].
Qed.

Lemma ha_shutdown_safe_witness :
  let w := mkHaW w_online 0 [] in
  let w' := (Maintains (@dash_call calm demo_config demo_upper list_tree (λ _, WriteOk)) (newHealthyChecker dead_replica) 50 w).2 in
  (hw_down w').*1 = ["a:2"%string] /\ @down_ok calm demo_config demo_upper list_tree w'.
Proof.
  cbv zeta. split; [by vm_compute|].
  apply (@ha_shutdown_safe calm demo_config demo_upper list_tree calm_laws (λ _, WriteOk) (newHealthyChecker dead_replica) 50 (mkHaW w_online 0 [])).
  split; [exact (reach_unforced _ w_online_reach)|]. intros a d Hin. by apply not_elem_of_nil in Hin.
Defined.

(** a master that follows another server is not replaced, and its state keeps the dead
    replicas of the other groups in the cluster *)
Definition stray_master : TStats := demo_tstats
  [("a:1", replica_info "x:1" "up" ""); ("a:2", replica_info "a:1" "up" ""); ("a:3", replica_info "a:1" "up" "");
   ("b:1", redis_info []); ("b:2", newRedisStats RTimeout 0)]%string.
Lemma stray_master_kept : ∀ (W : Type) (call : ha_call → W → bool * W) w,
  (Maintains call (newHealthyChecker stray_master) 50 w).1 = [].
Proof. intros W call w. by vm_compute. Qed.
