(* ===== verification/TopomQPS.v ===== *)
(** The dashboard's API for the rate limit of the proxies (pkg/topom/topom_qps_limit.go),
    down to the limiters in the proxies (Limiter).

    The state is the [world] of TopomState and the limiter of every proxy, by its token.  A
    request to a proxy may fail although the proxy carried it out.  An update takes the
    clock of the proxies from the class [ProxyClock]. *)

From S2P Require Import Prelude Bufio Resp Mapper Models TopomContext TopomState TopomCache TopomFrame TopomProxy.
From S2P Require Import TopomGroup TopomInv TopomRules TopomRebalance TopomSafety TopomTheorems TopomFunctional Limiter.
From S2P Require Import Router Stream Forward SessionState ClusterNodes TopomACL ACLTheorems PitrFiles BackendConn RedisClient Sentinel TopomStats.
Record ProxyQPSLimitView := mkQView { qv_Revision : Z; qv_Limit : Z; qv_Enabled : bool; qv_SyncStatus : string }.

Inductive qpserr :=
| QTopom (e : terror)
| QMissingRequest
| QNegativeLimit
| QSyncFailed (tokens : list string).

(** [req.Limit]; [None] is a missing request *)
Definition buildProxyQPSLimit (now : string) (current : ProxyQPSLimit) (req : option Z) : outcome qpserr ProxyQPSLimit :=
  match req with
  | None => Err QMissingRequest
  | Some limit =>
      if decide (limit < 0) then Err QNegativeLimit
      else
        let revision := if decide (ql_Revision current >= 1) then i64 (ql_Revision current + 1) else 1 in
        Ok (mkProxyQPSLimit revision limit now)
  end.

Definition newProxyQPSLimitView (config : ProxyQPSLimit) (status : string) : ProxyQPSLimitView :=
  mkQView (ql_Revision config) (ql_Limit config) (bool_decide (ql_Limit config > 0))
    (if bool_decide (ql_Revision config = 0 /\ ql_Limit config = 0) then "not_configured" else status).

Definition proxyQPSLimitApplied (stats : option ProxyStats) (config : ProxyQPSLimit) : bool :=
  match stats with
  | None => false
  | Some s =>
      if px_Timeout s || bool_decide (px_Error s ≠ None) then false
      else match px_Stats s with
      | None => false
      | Some x =>
          match ps_QPSLimit x with
          | None => false
          | Some q => bool_decide (qs_Revision q = ql_Revision config /\ qs_Limit q = ql_Limit config)
          end
      end
  end.

(** ** State *)
Definition QW : Type := world * gmap string QPSLimiter.
Abbreviation QM := (M QW qpserr).

Class ProxyClock := proxy_now : nat → Z.

Section qps.
Context `{Env} `{TopomState.Config} `{UnicodeUpper} `{ProxyClock}.

Definition qtopom {A} (m : T A) : QM A := λ w,
  let '(r, w') := m w.1 in
  (match r with Ok a => Ok a | Err e => Err (QTopom e) | Panic => Panic end, (w', w.2)).

(** [Proxy.SetQPSLimit] on the limiter of a proxy; a proxy that is not running has none *)
Definition set_limit (token : string) (revision limit now : Z) (m : gmap string QPSLimiter) : outcome qpserr () * gmap string QPSLimiter :=
  match m !! token with
  | None => (Err (QSyncFailed [token]), m)
  | Some l => match SetLimit revision limit now l with
              | (Ok _, l') => (Ok tt, <[token := l']> m)
              | (_, l') => (Err (QSyncFailed [token]), <[token := l']> m)
              end
  end.

(** [ApiClient.SetQPSLimit]: true when the call succeeded *)
Definition SetQPSLimit (token : string) (config : ProxyQPSLimit) : QM bool := λ w,
  let t := w_tick w.1 in
  let w1 := (set_tick (S t) w.1, w.2) in
  match env_write t with
  | WriteErr false => (Ok false, w1)
  | r =>
      let '(res, m) := set_limit token (ql_Revision config) (ql_Limit config) (proxy_now t) w.2 in
      (Ok (match res, r with Ok _, WriteOk => true | _, _ => false end), (w1.1, m))
  end.

Fixpoint limit_proxies (config : ProxyQPSLimit) (tokens : list string) : QM (list string) :=
  match tokens with
  | [] => mret []
  | token :: tokens =>
      ok ← SetQPSLimit token config;
      failed ← limit_proxies config tokens;
      mret (if ok : bool then failed else token :: failed)
  end.

Definition syncProxyQPSLimitToProxies (ctx : context) (config : ProxyQPSLimit) : QM unit :=
  if shouldSyncProxyQPSLimit config then
    failed ← limit_proxies config (merge_sort name_le (map_to_list (ctx_proxy ctx)).*1);
    match failed with [] => mret tt | _ => fail (QSyncFailed failed) end
  else mret tt.

Definition UpdateProxyQPSLimit (req : option Z) : QM ProxyQPSLimitView :=
  ctx ← qtopom newContext;
  now ← qtopom (t ← next_tick; mret (env_now t));
  config ← lift (buildProxyQPSLimit now (ctx_proxyQPSLimit ctx) req);
  qtopom (storeUpdateProxyQPSLimit config) ;;
  qtopom (modify dirtyProxyQPSLimitCache) ;;
  syncProxyQPSLimitToProxies ctx config ;;
  mret (newProxyQPSLimitView config "ready").

Definition snapshotProxyQPSLimit : QM (ProxyQPSLimit * list string) :=
  ctx ← qtopom newContext;
  mret (ctx_proxyQPSLimit ctx, (map_to_list (ctx_proxy ctx)).*1).

(** what a proxy answers to [StatsSimple] when it can be reached *)
Definition probe (m : gmap string QPSLimiter) (alive : string → bool) (token : string) : reply_of PStats :=
  match m !! token with
  | Some l => if alive token then RValue (mkPStats true false (visible_limit l)) else RTimeout
  | None => RError []
  end.

(** [alive] says which proxies answer in time *)
Definition proxyQPSLimitSyncStatus (alive : string → bool) (tokens : list string) (config : ProxyQPSLimit) (m : gmap string QPSLimiter) : string :=
  if shouldSyncProxyQPSLimit config then
    let tokens := merge_sort name_le tokens in
    match filter (λ t, proxyQPSLimitApplied (Some (newProxyStats (probe m alive t) 0)) config = false) tokens with
    | [] => "ready"
    | failed => "proxy_sync_failed:" +:+ String.concat "," failed
    end
  else "not_configured".

Definition GetProxyQPSLimit (alive : string → bool) : QM ProxyQPSLimitView :=
  '(config, tokens) ← snapshotProxyQPSLimit;
  m ← gets snd;
  mret (newProxyQPSLimitView config (proxyQPSLimitSyncStatus alive tokens config m)).
End qps.

(** * What an update does *)
Section theorems.
Context `{Env} `{TopomState.Config} `{UnicodeUpper} `{RBTree} `{!EnvLaws} `{ProxyClock}.

Definition current_limit (d : db) : ProxyQPSLimit := default zero_ProxyQPSLimit (db_qps d).

(** the limiter of a proxy is the stored one *)
Definition limited (config : ProxyQPSLimit) (m : gmap string QPSLimiter) (token : string) : Prop :=
  ∃ l, m !! token = Some l /\ ql_revision l = ql_Revision config /\ ql_limit l = ql_Limit config.

Lemma wp_qtopom {A} (m : T A) (Q : outcome qpserr A → QW → Prop) w :
  wp m (λ r w', Q (match r with Ok a => Ok a | Err e => Err (QTopom e) | Panic => Panic end) (w', w.2)) w.1 → wp (qtopom m) Q w.
Proof. unfold wp, qtopom. by destruct (m w.1) as [[a|e|] w']. Qed.

Lemma set_limit_limited token config now m : 0 <= ql_Limit config → let '(r, m') := set_limit token (ql_Revision config) (ql_Limit config) now m in
  (r = Ok tt → limited config m' token) /\ (∀ t, t ≠ token → m' !! t = m !! t) /\ (limited config m token → limited config m' token).
Proof.
  intros Hl. unfold set_limit. destruct (m !! token) as [l|] eqn:Hm.
  - unfold SetLimit. rewrite decide_False by lia. split; [|split].
    + intros _. eexists. rewrite lookup_insert_eq. done.
    + intros t Ht. by apply lookup_insert_ne.
    + intros _. eexists. rewrite lookup_insert_eq. done.
  - split; [done|]. split; [done|done].
Qed.

Lemma limit_proxies_wp config tokens : 0 <= ql_Limit config → ∀ w, wp (limit_proxies config tokens) (λ r w',
  same_store w.1 w'.1 /\ (∀ t, limited config w.2 t → limited config w'.2 t) /\
  (∀ t, t ∉ tokens → w'.2 !! t = w.2 !! t) /\
  match r with Ok failed => ∀ t, t ∈ tokens → t ∈ failed \/ limited config w'.2 t | _ => False end) w.
Proof.
  intros Hl. induction tokens as [|token tokens IH]; intros w; cbn [limit_proxies].
  { apply wp_ret. split; [done|]. split; [done|]. split; [done|]. by intros t ?%not_elem_of_nil. }
  apply wp_bind. unfold wp, SetQPSLimit.
  pose proof (set_limit_limited token config (proxy_now (w_tick w.1)) w.2 Hl) as Hset.
  destruct (set_limit token _ _ _ w.2) as [res m]. destruct Hset as (Hok & Hoth & Hkeep).
  assert (∀ t, limited config w.2 t → limited config m t) as Hmono.
  { intros t Ht. destruct (decide (t = token)) as [->|Hne]; [by apply Hkeep|]. destruct Ht as (l & Hm & ?). exists l. by rewrite Hoth. }
  assert (∀ (b : bool) (m' : gmap string QPSLimiter), (b = true → limited config m' token) → (∀ t, limited config w.2 t → limited config m' t) →
    (∀ t, t ≠ token → m' !! t = w.2 !! t) →
    wp (failed ← limit_proxies config tokens; mret (if b then failed else token :: failed)) (λ r w',
      same_store w.1 w'.1 /\ (∀ t, limited config w.2 t → limited config w'.2 t) /\
      (∀ t, t ∉ token :: tokens → w'.2 !! t = w.2 !! t) /\
      match r with Ok failed => ∀ t, t ∈ token :: tokens → t ∈ failed \/ limited config w'.2 t | _ => False end)
      (set_tick (S (w_tick w.1)) w.1, m')) as Hrest.
  { intros b m' Hb Hm' Ho'. apply wp_bind. eapply wp_mono; [apply IH|]. cbn [fst snd]. intros r w' (Hs & Hk & Hout & Hr).
    destruct r as [failed| |]; [|done..]. apply wp_ret. split; [done|]. split; [naive_solver|]. split.
    - intros t Ht. rewrite Hout by set_solver. apply Ho'. set_solver.
    - intros t [->|Ht]%elem_of_cons.
      + destruct b; [right; apply Hk; by apply Hb|left; by left].
      + destruct (Hr t Ht); [left; destruct b; [done|by right]|by right]. }
  destruct (env_write _) as [|[]]; cbn [fst snd].
  - apply (Hrest (match res with Ok _ => true | _ => false end)); [|done|done]. intros Hb. apply Hok. by destruct res as [[]| |].
  - destruct res; by apply (Hrest false).
  - by apply (Hrest false).
Qed.

Lemma coh_store_qps D q w : HookProxyQPSLimit ∈ D → coh D w → coh D (set_db (db_set_qps q (w_db w)) w).
Proof. intros Hh [[W1 W2 W3] [C1 C2 C3 C4 C5 C6 C7]]. split; split; try done. left. by eapply dirty_app. Qed.

Definition qps_result (req : option Z) (w : QW) (r : outcome qpserr ProxyQPSLimitView) (w' : QW) : Prop :=
  let d := w_db w.1 in
  let stored config := (∃ limit now, req = Some limit /\ 0 <= limit /\ config = mkProxyQPSLimit (Z.max 1 (ql_Revision (current_limit d) + 1)) limit now) /\
    w_db w'.1 = db_set_qps config d in
  match r with
  | Ok view => ∃ config, stored config /\ coh [] w'.1 /\ (∀ t, is_Some (db_proxy d !! t) → limited config w'.2 t) /\
      view = newProxyQPSLimitView config "ready"
  | Err (QSyncFailed failed) => failed ≠ [] /\ ∃ config, stored config /\ coh [] w'.1 /\
      ∀ t, is_Some (db_proxy d !! t) → t ∈ failed \/ limited config w'.2 t
  | Err _ => w'.2 = w.2 /\ (w_db w'.1 = d \/ ∃ config, stored config)
  | Panic => False
  end.

Lemma UpdateProxyQPSLimit_wp req w : coh [] w.1 → 0 <= ql_Revision (current_limit (w_db w.1)) < max_int64 →
  wp (UpdateProxyQPSLimit req) (qps_result req w) w.
Proof.
  intros Hc Hrev. unfold UpdateProxyQPSLimit. apply wp_bind, wp_qtopom, newContext_wp; [done|..].
  2: { intros e w1 Hc1 Hs1. split; [done|]. left. apply Hs1. }
  intros w1 Hc1 (Hdb1 & _) _ _ _. set (ctx := ctx_db (w_db w.1) _).
  apply wp_bind, wp_qtopom, wp_bind, wp_next_tick, wp_ret. cbn [fst snd]. set (w2 := set_tick _ w1). set (now := env_now _).
  assert (coh [] w2) as Hc2 by by apply (coh_other _ w1). assert (w_db w2 = w_db w.1) as Hdb2 by exact Hdb1.
  change (ctx_proxyQPSLimit ctx) with (current_limit (w_db w.1)). destruct req as [limit|]; cbn [buildProxyQPSLimit].
  2: { apply wp_lift_bind; [done| |done]. intros e [= <-]. split; [done|by left]. }
  destruct (decide (limit < 0)) as [Hneg|Hnn].
  { apply wp_lift_bind; [done| |done]. intros e [= <-]. split; [done|by left]. }
  cbv zeta. set (config := mkProxyQPSLimit _ limit now).
  assert (ql_Revision config = Z.max 1 (ql_Revision (current_limit (w_db w.1)) + 1)) as Hr.
  { cbn. destruct (decide (_ >= 1)); [rewrite i64_id by (unfold max_int64 in *; lia)|]; lia. }
  apply wp_lift_bind; [|done..]. intros config' [= <-].
  assert (∃ limit0 now0, Some limit = Some limit0 /\ 0 <= limit0 /\
    config = mkProxyQPSLimit (Z.max 1 (ql_Revision (current_limit (w_db w.1)) + 1)) limit0 now0) as Hform.
  { exists limit, now. split; [done|]. split; [lia|]. rewrite <-Hr. done. }
  apply wp_bind, wp_qtopom. unfold storeUpdateProxyQPSLimit, store_write. apply wp_bind, wp_next_tick. cbn [fst snd].
  set (w4 := set_tick _ w2). assert (coh [] w4) as Hc4 by by apply (coh_other _ w2).
  destruct (env_write _) as [|[]].
  2: { apply wp_bind, wp_modify, wp_fail. split; [done|]. right. exists config. split; [done|]. cbn. by rewrite Hdb1. }
  2: { apply wp_fail. split; [done|]. by left. }
  apply wp_modify, wp_bind, wp_qtopom, wp_modify. cbn [fst snd]. set (w5 := dirtyProxyQPSLimitCache _).
  assert (coh [] w5) as Hc5.
  { apply coh_push, coh_store_qps; [by left|]. by apply coh_weaken. }
  assert (w_db w5 = db_set_qps config (w_db w.1)) as Hdb5 by (unfold w5; cbn; by rewrite Hdb1).
  apply wp_bind. unfold syncProxyQPSLimitToProxies, shouldSyncProxyQPSLimit. rewrite bool_decide_eq_true_2 by lia.
  apply wp_bind. eapply wp_mono; [apply (limit_proxies_wp config); cbn; lia|]. cbn [fst snd].
  intros r [w6 m6] ((Hd6 & Hca6) & _ & _ & Hall). cbn [fst snd] in *. destruct r as [failed| |]; [|done..].
  assert (∀ t, is_Some (db_proxy (w_db w.1) !! t) → t ∈ failed \/ limited config m6 t) as Hall'.
  { intros t [p Hp]. apply Hall. rewrite merge_sort_Permutation. apply list_elem_of_fmap. exists (t, p). split; [done|]. by apply elem_of_map_to_list. }
  assert (coh [] w6) as Hc6 by by apply (coh_other _ w5). rewrite Hdb5 in Hd6.
  destruct failed as [|f failed].
  - apply wp_ret, wp_ret. exists config. split; [done|]. split; [done|]. split; [|done].
    intros t Ht. by destruct (Hall' t Ht) as [?%not_elem_of_nil|].
  - apply wp_fail. split; [done|]. exists config. done.
Qed.

(** an update of the rate limit that succeeds is stored with a new revision, and every
    registered proxy limits its requests by it; one that fails at some proxies says at
    which, and the others have it; any other failure leaves all proxies as they were. *)
Theorem qps_update_correct S req w : reach S w.1 → 0 <= ql_Revision (current_limit (w_db w.1)) < max_int64 →
  wp (UpdateProxyQPSLimit req) (qps_result req w) w.
Proof. intros [Hc _ _ _]%reach_Inv Hrev. by apply UpdateProxyQPSLimit_wp. Qed.

(** * What the status says *)
Lemma applied_spec m alive token config : 0 < ql_Revision config →
  proxyQPSLimitApplied (Some (newProxyStats (probe m alive token) 0)) config = true ↔ alive token = true /\ limited config m token.
Proof.
  intros Hrev. unfold probe, limited. destruct (m !! token) as [l|]; cbn.
  2: { split; [done|]. by intros (_ & l & ? & _). }
  destruct (alive token); cbn; [|split; [done|]; by intros [? _]]. unfold visible_limit, limiter_Visible, limiter_Stats. cbn.
  destruct (_ || _ || _) eqn:Hv; cbn.
  - rewrite bool_decide_eq_true. split; [intros [? ?]; split; [done|]; by exists l|]. intros (_ & l' & [= <-] & ? & ?). done.
  - split; [done|]. intros (_ & l' & [= <-] & Hr & _). rewrite Hr in Hv.
    rewrite (bool_decide_eq_true_2 (ql_Revision config ≠ 0)) in Hv by lia. by rewrite orb_true_r in Hv.
Qed.

(** The status tells the truth.  With a limit configured, it is ready exactly when every
    registered proxy answers in time and limits its requests by the stored limit. *)
Theorem qps_status_true S alive w : reach S w.1 → let d := w_db w.1 in let config := current_limit d in
  0 < ql_Revision config →
  wp (GetProxyQPSLimit alive) (λ r w', w_db w'.1 = d /\ w'.2 = w.2 /\ ∀ view, r = Ok view →
    qv_Revision view = ql_Revision config /\ qv_Limit view = ql_Limit config /\
    (qv_SyncStatus view = "ready"%string ↔ ∀ t, is_Some (db_proxy d !! t) → alive t = true /\ limited config w.2 t)) w.
Proof.
  intros [Hc _ _ _]%reach_Inv. cbv zeta. set (config := current_limit _). intros Hrev.
  unfold GetProxyQPSLimit, snapshotProxyQPSLimit. apply wp_bind, wp_bind, wp_qtopom, newContext_wp; [done|..].
  2: { intros e w1 _ Hs1. split; [apply Hs1|]. done. }
  intros w1 Hc1 (Hdb1 & _) _ _ _. apply wp_ret, wp_bind, wp_gets, wp_ret. cbn [fst snd].
  split; [done|]. split; [done|]. intros view [= <-]. split; [done|]. split; [done|].
  cbn [newProxyQPSLimitView qv_SyncStatus ctx_proxyQPSLimit ctx_proxy ctx_db]. fold (current_limit (w_db w.1)). fold config.
  rewrite bool_decide_eq_false_2 by lia. unfold proxyQPSLimitSyncStatus, shouldSyncProxyQPSLimit. rewrite bool_decide_eq_true_2 by lia.
  cbv zeta. set (tokens := merge_sort name_le _).
  assert (∀ t, t ∈ tokens ↔ is_Some (db_proxy (w_db w.1) !! t)) as Htok.
  { intros t. unfold tokens. rewrite merge_sort_Permutation, list_elem_of_fmap. split.
    - intros ([t' p] & -> & Hin%elem_of_map_to_list). by exists p.
    - intros [p Hp]. exists (t, p). split; [done|]. by apply elem_of_map_to_list. }
  setoid_rewrite <-Htok. clear Htok. setoid_rewrite <-(applied_spec w.2 alive _ config Hrev).
  destruct (filter _ tokens) as [|f failed] eqn:Hf.
  - split; [|done]. intros _ t Ht. destruct (proxyQPSLimitApplied _ _) eqn:Ha; [done|]. exfalso.
    assert (t ∈ filter (λ t, proxyQPSLimitApplied (Some (newProxyStats (probe w.2 alive t) 0)) config = false) tokens) as Hin
      by by apply list_elem_of_filter. rewrite Hf in Hin. by apply not_elem_of_nil in Hin.
  - split; [done|]. intros Hall. assert (f ∈ filter (λ t, proxyQPSLimitApplied (Some (newProxyStats (probe w.2 alive t) 0)) config = false) tokens) as Hin
      by (rewrite Hf; by left). apply list_elem_of_filter in Hin as [Hn Hin]. rewrite Hall in Hn by done. done.
Qed.
End theorems.

(** * A concrete update *)
Definition demo_clock : ProxyClock := λ n, Z.of_nat n + 1.
Definition demo_limiters : gmap string QPSLimiter := {[ "p"%string := zero_limiter; "q"%string := zero_limiter ]}.

Lemma qps_update_correct_witness :
  (let '(r, w') := @UpdateProxyQPSLimit calm demo_config demo_upper demo_clock (Some 100) (w_online, demo_limiters) in
   (r, ql_limit <$> w'.2 !! "p"%string)) = (Ok (mkQView 1 100 true "ready"), Some 100) /\
  wp (@UpdateProxyQPSLimit calm demo_config demo_upper demo_clock (Some 100))
    (qps_result (Some 100) (w_online, demo_limiters)) (w_online, demo_limiters).
Proof.
  split; [by vm_compute|].
  apply (@qps_update_correct calm demo_config demo_upper list_tree calm_laws demo_clock true (Some 100) (w_online, demo_limiters) w_online_reach).
  vm_compute. split; congruence.
Defined.

(** a store with a limit that one of the two proxies does not have *)
Definition limited_db (d : db) : db := db_set_qps (mkProxyQPSLimit 4 100 "") d.
Definition limited_world : world :=
  mkWorld (limited_db (demo_db (new_mapping 0 1))) empty_cache false false false 0 0 None ∅ (λ _, None) 0 [].
Lemma limited_world_reach : @reach calm demo_config demo_upper list_tree false limited_world.
Proof.
  apply reach_init. destruct (demo_cluster (new_mapping 0 1)) as [[W1 W2 W3] [C1 C2 C3]]; [done|split; [by right; left|done]|].
  split; try done; split; done.
Qed.
Definition limited_online : world :=
  (@run_op calm demo_config demo_upper list_tree (OpStart (mkTopomModel "" "" "" "" 0 "" "") false) limited_world).2.

Lemma qps_status_true_witness :
  (@GetProxyQPSLimit calm demo_config demo_upper (λ _, true) (limited_online, {[ "p"%string := mkLimiter 4 100 0 0 (float64 0) 0; "q"%string := zero_limiter ]})).1 =
    Ok (mkQView 4 100 true "proxy_sync_failed:q") /\
  wp (@GetProxyQPSLimit calm demo_config demo_upper (λ _, true)) (λ r w', w_db w'.1 = w_db limited_online /\ w'.2 = demo_limiters /\ ∀ view, r = Ok view →
    qv_Revision view = 4 /\ qv_Limit view = 100 /\
    (qv_SyncStatus view = "ready"%string ↔ ∀ t, is_Some (db_proxy (w_db limited_online) !! t) → true = true /\ limited (mkProxyQPSLimit 4 100 "") demo_limiters t))
    (limited_online, demo_limiters).
Proof.
  split; [by vm_compute|].
  assert (current_limit (w_db limited_online) = mkProxyQPSLimit 4 100 "") as Hcur by by vm_compute.
  pose proof (@qps_status_true calm demo_config demo_upper list_tree calm_laws false (λ _, true) (limited_online, demo_limiters)
    (reach_op false _ (OpStart (mkTopomModel "" "" "" "" 0 "" "") false) limited_world_reach ltac:(done))) as Ht.
  cbv zeta in Ht. cbn [fst snd] in Ht. rewrite Hcur in Ht. apply Ht. done.
Defined.
