(* ===== verification/ProxyServer.v ===== *)
(** A proxy as the dashboard and its operators see it: pkg/proxy/proxy.go, its registration in
    the coordinator (jodis.go) and its admin API (proxy_api.go).

    The lock of a proxy makes its operations atomic, except that a goroutine that fetched
    the masters from the sentinels looks whether it is canceled before it asks for the
    lock: [EvReport] is the look, [EvSwitch] what follows.  [pv_exec] executes one event.
    Logging, listeners, metrics and garbage collection are left out; the invalidation of hot
    keys is Broadcast's. *)

From S2P Require Import Prelude Bufio Resp Mapper Models TopomContext TopomState TopomProxy TopomGroup Limiter.
From S2P Require Import Router RouterInv RouterTheorems Stream Forward SessionState ClusterNodes TopomACL PitrFiles BackendConn RedisClient Sentinel.
From S2P Require Import TopomCache TopomFrame TopomSlots TopomInv TopomRules TopomRebalance TopomSafety TopomStats.
(** * jodis.go *)

(** [jd_created] counts the nodes created so far *)
Record Jodis := mkJodis { jd_online : bool; jd_closed : bool; jd_watching : bool; jd_created : nat; jd_deleted : nat }.
Definition new_jodis : Jodis := mkJodis false false false 0 0.

(** [Start] starts the goroutine that calls [Rewatch] until [IsClosed] *)
Definition jodis_Start (j : Jodis) : Jodis := mkJodis true (jd_closed j) (jd_watching j) (jd_created j) (jd_deleted j).
(** [deleted] tells whether the node could be removed *)
Definition jodis_Close (deleted : bool) (j : Jodis) : Jodis :=
  if jd_closed j then j
  else mkJodis (jd_online j) true (jd_watching j) (jd_created j) (jd_deleted j + if jd_watching j && deleted then 1 else 0).
(** [created] tells whether the node could be created *)
Definition jodis_Rewatch (created : bool) (j : Jodis) : Jodis :=
  if jd_closed j then j
  else mkJodis (jd_online j) false created (jd_created j + if created then 1 else 0) (jd_deleted j).
Definition jodis_IsWatching (j : Jodis) : bool := jd_watching j && negb (jd_closed j).

(** * proxy.go *)
Record ProxyState := mkPV {
  pv_xauth : string;
  pv_online : bool;
  pv_closed : bool;
  pv_fwd : Fwd;                           (** [router], with the ACL and the pools of its users *)
  pv_limiter : QPSLimiter;
  pv_jodis : option Jodis;
  pv_servers : list string;               (** [ha.servers] *)
  pv_masters : option (gmap Z string);    (** [ha.masters] *)
  pv_monitor : option nat;                (** [ha.monitor]: the number of a sentinel client *)
  pv_monitors : nat;                      (** how many were created *)
  pv_canceled : gset nat;
  pv_reports : list (gmap Z string);      (** masters about to be switched to *)
}.

Definition pv_router (s : ProxyState) : Router := fw_router (pv_fwd s).

Inductive proxyerr :=
| ErrClosedProxy
| ErrOfRouter (e : routererr)
| ErrOfLimiter
| ErrMissingXAuth
| ErrInvalidXAuth
| ErrFlags.

Abbreviation PM := (M ProxyState proxyerr).

Definition pv_set_online (b : bool) (s : ProxyState) : ProxyState :=
  mkPV (pv_xauth s) b (pv_closed s) (pv_fwd s) (pv_limiter s) (pv_jodis s) (pv_servers s) (pv_masters s) (pv_monitor s) (pv_monitors s) (pv_canceled s) (pv_reports s).
Definition pv_set_closed (b : bool) (s : ProxyState) : ProxyState :=
  mkPV (pv_xauth s) (pv_online s) b (pv_fwd s) (pv_limiter s) (pv_jodis s) (pv_servers s) (pv_masters s) (pv_monitor s) (pv_monitors s) (pv_canceled s) (pv_reports s).
Definition pv_set_fwd (w : Fwd) (s : ProxyState) : ProxyState :=
  mkPV (pv_xauth s) (pv_online s) (pv_closed s) w (pv_limiter s) (pv_jodis s) (pv_servers s) (pv_masters s) (pv_monitor s) (pv_monitors s) (pv_canceled s) (pv_reports s).
Definition pv_set_router (r : Router) (s : ProxyState) : ProxyState :=
  pv_set_fwd (mkFwd r (fw_acl (pv_fwd s)) (fw_userPrimary (pv_fwd s)) (fw_userReplica (pv_fwd s)) (fw_refs (pv_fwd s)) (fw_sent (pv_fwd s))) s.
Definition pv_set_limiter (l : QPSLimiter) (s : ProxyState) : ProxyState :=
  mkPV (pv_xauth s) (pv_online s) (pv_closed s) (pv_fwd s) l (pv_jodis s) (pv_servers s) (pv_masters s) (pv_monitor s) (pv_monitors s) (pv_canceled s) (pv_reports s).
Definition pv_set_jodis (f : Jodis → Jodis) (s : ProxyState) : ProxyState :=
  mkPV (pv_xauth s) (pv_online s) (pv_closed s) (pv_fwd s) (pv_limiter s) (f <$> pv_jodis s) (pv_servers s) (pv_masters s) (pv_monitor s) (pv_monitors s) (pv_canceled s) (pv_reports s).
Definition pv_set_servers (l : list string) (s : ProxyState) : ProxyState :=
  mkPV (pv_xauth s) (pv_online s) (pv_closed s) (pv_fwd s) (pv_limiter s) (pv_jodis s) l (pv_masters s) (pv_monitor s) (pv_monitors s) (pv_canceled s) (pv_reports s).
Definition pv_set_masters (m : option (gmap Z string)) (s : ProxyState) : ProxyState :=
  mkPV (pv_xauth s) (pv_online s) (pv_closed s) (pv_fwd s) (pv_limiter s) (pv_jodis s) (pv_servers s) m (pv_monitor s) (pv_monitors s) (pv_canceled s) (pv_reports s).
Definition pv_set_reports (l : list (gmap Z string)) (s : ProxyState) : ProxyState :=
  mkPV (pv_xauth s) (pv_online s) (pv_closed s) (pv_fwd s) (pv_limiter s) (pv_jodis s) (pv_servers s) (pv_masters s) (pv_monitor s) (pv_monitors s) (pv_canceled s) l.

(** [monitor.Cancel()] *)
Definition cancel_monitor (s : ProxyState) : ProxyState :=
  mkPV (pv_xauth s) (pv_online s) (pv_closed s) (pv_fwd s) (pv_limiter s) (pv_jodis s) (pv_servers s) (pv_masters s) (pv_monitor s) (pv_monitors s)
    (match pv_monitor s with Some i => {[i]} ∪ pv_canceled s | None => pv_canceled s end) (pv_reports s).
(** [ha.monitor = nil] *)
Definition drop_monitor (s : ProxyState) : ProxyState :=
  mkPV (pv_xauth s) (pv_online s) (pv_closed s) (pv_fwd s) (pv_limiter s) (pv_jodis s) (pv_servers s) (pv_masters s) None (pv_monitors s) (pv_canceled s) (pv_reports s).
(** [ha.monitor = redis.NewSentinel(...)] *)
Definition new_monitor (s : ProxyState) : ProxyState :=
  mkPV (pv_xauth s) (pv_online s) (pv_closed s) (pv_fwd s) (pv_limiter s) (pv_jodis s) (pv_servers s) (pv_masters s) (Some (pv_monitors s)) (S (pv_monitors s)) (pv_canceled s) (pv_reports s).

(** a call of the router *)
Definition on_router {A} (m : RM A) : PM A := λ s,
  let '(r, ro) := m (pv_router s) in
  (match r with Ok a => Ok a | Err e => Err (ErrOfRouter e) | Panic => Panic end, pv_set_router ro s).

Definition if_open {A} (m : PM A) : PM A :=
  closed ← gets pv_closed;
  if closed : bool then fail ErrClosedProxy else m.

(** [setup] of a new proxy; [jodis] is set when it registers itself *)
Definition New_proxy (xauth : string) (primaryOnly jodis : bool) (limiter : QPSLimiter) : ProxyState :=
  mkPV xauth false false (mkFwd (NewRouter primaryOnly) None ∅ ∅ ((λ _, 0) <$> slot_ids) []) limiter (if jodis then Some new_jodis else None) [] None None 0 ∅ [].

Definition Proxy_Start : PM unit :=
  if_open (
    online ← gets pv_online;
    if online : bool then mret tt
    else
      modify (pv_set_online true) ;;
      modify (λ s, pv_set_router (Router_Start (pv_router s)) s) ;;
      modify (pv_set_jodis jodis_Start)).

(** the slots of the router are emptied, which releases the connections of the shared pools;
    the pools of the users are not closed *)
Definition Proxy_Close (deleted : bool) : PM unit :=
  closed ← gets pv_closed;
  if closed : bool then mret tt
  else
    modify (pv_set_closed true) ;;
    modify (pv_set_jodis (jodis_Close deleted)) ;;
    on_router Router_Close ;;
    modify cancel_monitor.

Definition Proxy_SetQPSLimit (revision limit now : Z) : PM unit := λ s,
  match SetLimit revision limit now (pv_limiter s) with
  | (Ok _, l) => (Ok tt, pv_set_limiter l s)
  | (_, l) => (Err ErrOfLimiter, pv_set_limiter l s)
  end.
(** the sessions, which [Router.SetACL] tells, are SessionState's *)
Definition Proxy_SetACL (acl : ACL) : PM unit := if_open (modify (λ s, pv_set_fwd (SetACL (Some acl) (pv_fwd s)).2 s)).
Definition Proxy_ResetStats : PM unit := modify (λ s, pv_set_limiter (ResetStats (pv_limiter s)) s).

Definition IsOnline (s : ProxyState) : bool := pv_online s && negb (pv_closed s).
Definition Proxy_Slots (s : ProxyState) : list Slot := GetSlots (pv_router s).

Definition Proxy_FillSlot (m : Slot) : PM unit := if_open (on_router (FillSlot m)).
Definition Proxy_FillSlots (slots : list Slot) : PM unit := if_open (for_each slots (λ m, on_router (FillSlot m))).

(** the router's own error is not looked at *)
Definition Proxy_SwitchMasters (runid : string → string) (masters : gmap Z string) : PM unit :=
  if_open (
    modify (pv_set_masters (Some masters)) ;;
    if decide (masters = ∅) then mret tt else ignore_err (on_router (SwitchMasters runid masters))).

Definition GetSentinels (s : ProxyState) : list string * option (gmap Z string) :=
  if pv_closed s then ([], None) else (pv_servers s, pv_masters s).

Definition Proxy_rewatchSentinels (servers : list string) : PM unit :=
  modify (λ s, match pv_monitor s with Some _ => pv_set_masters None (drop_monitor (cancel_monitor s)) | None => s end) ;;
  match servers with [] => mret tt | _ => modify new_monitor end.
Definition SetSentinels (servers : list string) : PM unit :=
  if_open (modify (pv_set_servers servers) ;; Proxy_rewatchSentinels servers).
Definition RewatchSentinels : PM unit :=
  if_open (servers ← gets pv_servers; Proxy_rewatchSentinels servers).

(** [Proxy.Stats], as far as the dashboard reads it *)
Definition Proxy_Stats (s : ProxyState) : PStats := mkPStats (IsOnline s) (pv_closed s) (visible_limit (pv_limiter s)).

(** * proxy_api.go *)
Definition verifyXAuth (xauth : string) : PM unit :=
  if_open (
    mine ← gets pv_xauth;
    if decide (xauth = "") then fail ErrMissingXAuth
    else if decide (xauth ≠ mine) then fail ErrInvalidXAuth
    else mret tt).

Inductive request :=
| ReqPing | ReqStart | ReqShutdown (deleted : bool) | ReqResetStats
| ReqFillSlots (slots : list Slot)
| ReqSetSentinels (servers : list string) | ReqRewatchSentinels
| ReqSetACL (acl : ACL)
| ReqSetQPSLimit (revision limit now : Z).

(** the requests that only look: those under /proxy, and /api/proxy/model, take no key *)
Inductive reading :=
| LookOverview | LookModel | LookStatsNoXAuth | LookSlotsNoXAuth
| LookStats (xauth flags : string) | LookSlots (xauth : string).
(** the answer; of an overview, what of it changes *)
Inductive shown :=
| ShowOverview (model : Proxy) (stats : PStats) (slots : list Slot)
| ShowModel (model : Proxy)
| ShowStats (stats : PStats)
| ShowSlots (slots : list Slot).

Definition XPing (xauth : string) : PM unit := verifyXAuth xauth.
Definition api_Start (xauth : string) : PM unit := verifyXAuth xauth ;; Proxy_Start.
Definition api_ResetStats (xauth : string) : PM unit := verifyXAuth xauth ;; Proxy_ResetStats.
Definition api_Shutdown (deleted : bool) (xauth : string) : PM unit := verifyXAuth xauth ;; Proxy_Close deleted.
Definition api_FillSlots (slots : list Slot) (xauth : string) : PM unit := verifyXAuth xauth ;; Proxy_FillSlots slots.
Definition api_SetSentinels (servers : list string) (xauth : string) : PM unit := verifyXAuth xauth ;; SetSentinels servers.
Definition api_RewatchSentinels (xauth : string) : PM unit := verifyXAuth xauth ;; RewatchSentinels.
Definition api_SetACL (acl : ACL) (xauth : string) : PM unit := verifyXAuth xauth ;; Proxy_SetACL acl.
Definition api_SetQPSLimit (revision limit now : Z) (xauth : string) : PM unit := verifyXAuth xauth ;; Proxy_SetQPSLimit revision limit now.

Definition api (xauth : string) (r : request) : PM unit :=
  match r with
  | ReqPing => XPing xauth
  | ReqStart => api_Start xauth
  | ReqShutdown deleted => api_Shutdown deleted xauth
  | ReqResetStats => api_ResetStats xauth
  | ReqFillSlots slots => api_FillSlots slots xauth
  | ReqSetSentinels servers => api_SetSentinels servers xauth
  | ReqRewatchSentinels => api_RewatchSentinels xauth
  | ReqSetACL acl => api_SetACL acl xauth
  | ReqSetQPSLimit revision limit now => api_SetQPSLimit revision limit now xauth
  end.

Definition SlotsNoXAuth : PM shown := gets (λ s, ShowSlots (Proxy_Slots s)).
Definition api_Slots (xauth : string) : PM shown := verifyXAuth xauth ;; SlotsNoXAuth.
(** the flags say which statistics to add to those the dashboard reads *)
Definition api_Stats (xauth flags : string) : PM shown :=
  verifyXAuth xauth ;;
  if decide (flags ≠ "") then
    match ParseInt (bstr flags) with
    | Ok _ => gets (λ s, ShowStats (Proxy_Stats s))
    | _ => fail ErrFlags
    end
  else gets (λ s, ShowStats (Proxy_Stats s)).
(** [model] describes the proxy; it is made before the proxy serves, and not changed *)
Definition api_get (model : Proxy) (g : reading) : PM shown :=
  match g with
  | LookOverview => gets (λ s, ShowOverview model (Proxy_Stats s) (Proxy_Slots s))
  | LookModel => mret (ShowModel model)
  | LookStatsNoXAuth => gets (λ s, ShowStats (Proxy_Stats s))
  | LookSlotsNoXAuth => SlotsNoXAuth
  | LookStats xauth flags => api_Stats xauth flags
  | LookSlots xauth => api_Slots xauth
  end.

(** * Events *)
Inductive pvevent :=
| EvApi (xauth : string) (r : request)
| EvUser (cfg : Config) (replica : bool) (identity : SessionACLIdentity) (addr : string)  (** a request of an ACL user is about to be sent *)
| EvExit (deleted : bool)                                   (** a listener fails, and the proxy closes itself *)
| EvJodis (created : bool)
| EvReport (i : nat) (masters : gmap Z string)
| EvSwitch (k : nat) (runid : string → string).

(** the pools' part of [userBackendConn] *)
Definition open_user (cfg : Config) (replica : bool) (identity : SessionACLIdentity) (addr : string) (w : Fwd) : Fwd :=
  match userBackendPool cfg replica identity w with
  | (Ok (Some _), w') => (GetOrCreate replica (userBackendKey (Some identity)) addr w').2
  | (_, w') => w'
  end.

Definition pv_exec (ev : pvevent) (s : ProxyState) : ProxyState :=
  match ev with
  | EvApi xauth r => (api xauth r s).2
  | EvUser cfg replica identity addr => pv_set_fwd (open_user cfg replica identity addr (pv_fwd s)) s
  | EvExit deleted => (Proxy_Close deleted s).2
  | EvJodis created =>
      match pv_jodis s with
      | Some j => if jd_online j && negb (jd_closed j) then pv_set_jodis (jodis_Rewatch created) s else s
      | None => s
      end
  | EvReport i masters =>
      if decide (i < pv_monitors s /\ i ∉ pv_canceled s)%nat then pv_set_reports (pv_reports s ++ [masters]) s else s
  | EvSwitch k runid =>
      match pv_reports s !! k with
      | Some masters => (Proxy_SwitchMasters runid masters (pv_set_reports (delete k (pv_reports s)) s)).2
      | None => s
      end
  end.

Definition pv_run (s : ProxyState) (evs : list pvevent) : ProxyState := foldl (λ s ev, pv_exec ev s) s evs.

(** A proxy that is closed stays closed and lets go of everything; the slots it is told are
    the slots it serves, or a prefix of them; and only who knows its key may tell it. *)

(** * The router below *)
Lemma reach_FillSlot m r : reach_router r → reach_router (FillSlot m r).2.
Proof. apply (reach_rop r (RFillSlot m)). Qed.
Lemma reach_SwitchMasters runid masters r : reach_router r → reach_router (SwitchMasters runid masters r).2.
Proof. apply (reach_rop r (RSwitchMasters runid masters)). Qed.
Lemma reach_Start r : reach_router r → reach_router (Router_Start r).
Proof. apply (reach_rop r RStart). Qed.
Lemma reach_Close r : reach_router r → reach_router (Router_Close r).2.
Proof. apply (reach_rop r RouterTheorems.RClose). Qed.
Lemma no_router_panic o r : reach_router r → (run_rop o r).1 ≠ Panic.
Proof. intros Hr%reach_router_inv. by apply run_rop_ok. Qed.

Lemma FillSlot_closed m r : reach_router r → ro_closed (FillSlot m r).2 = ro_closed r /\ ro_primaryOnly (FillSlot m r).2 = ro_primaryOnly r.
Proof.
  intros Hr%reach_router_inv. destruct (FillSlot_cases m r Hr) as [(e & ->)|(_ & Hid & ->)]; [done|].
  by destruct (fillSlot_step m false (Some (slot_ForwardMethod m)) Hid r Hr) as (r' & -> & _ & ? & ? & _).
Qed.
Lemma SwitchMasters_closed runid masters r : reach_router r → ro_closed (SwitchMasters runid masters r).2 = ro_closed r.
Proof.
  intros Hr%reach_router_inv. destruct (ro_closed r) eqn:Hc.
  - unfold SwitchMasters, mbind, M_bind, gets. by rewrite Hc.
  - destruct (SwitchMasters_ok runid masters r Hr Hc) as (r' & -> & _ & ? & _). cbn. congruence.
Qed.

(** a slot that is sent nowhere *)
Definition no_backend (m : Slot) : Prop := slot_BackendAddr m = ""%string /\ slot_MigrateFrom m = ""%string /\ slot_ReplicaGroups m = [].
Definition emptied (r : Router) : Prop := (∀ b addr, ¬ connected b addr r) /\ Forall no_backend (GetSlots r).

Lemma Router_Close_final r : reach_router r → ro_closed r = false →
  (Router_Close r).1 = Ok tt /\ ro_closed (Router_Close r).2 = true /\ emptied (Router_Close r).2.
Proof.
  intros Hr Hc. destruct (SwitchMasters_correct r (λ a, a) ∅ Hr Hc) as [_ (r' & Hclose & Hno)]. rewrite Hclose. cbn.
  destruct (Router_Close_ok r (reach_router_inv r Hr) Hc) as (r'' & Hclose' & (Hlen & _) & Hempty).
  assert (r'' = r') as -> by congruence.
  split; [done|]. split; [|split; [done|]].
  2: { apply Forall_forall. intros m (i & Hi)%list_elem_of_lookup. apply (Hempty (Z.of_nat i)). unfold GetSlots in Hi.
       rewrite list_lookup_fmap in Hi. apply fmap_Some_1 in Hi as (x & Hx & ->). unfold GetSlot.
       apply lookup_lt_Some in Hx as Hlt. rewrite decide_False by lia. by rewrite Nat2Z.id, Hx. }
  assert (∀ l r0, router_inv r0 → Forall (λ i, 0 <= i < MaxSlotNum) l →
    ro_closed (for_each l (λ i, fillSlot (empty_slot i) false None) r0).2 = ro_closed r0) as Hkeep.
  { induction l as [|i l IH]; intros r0 Hr0 Hl; [done|]. apply Forall_cons in Hl as [Hi Hl]. cbn [for_each].
    unfold mbind, M_bind. destruct (fillSlot_step (empty_slot i) false None Hi r0 Hr0) as (r1 & -> & Hr1 & Hc1 & _).
    rewrite IH by done. done. }
  revert Hclose. unfold Router_Close, mbind at 1, M_bind at 1, gets. rewrite Hc. unfold mbind at 1, M_bind at 1, modify. intros Hclose.
  specialize (Hkeep slot_ids (Router.set_closed true r)). rewrite Hclose in Hkeep. apply Hkeep.
  - apply reach_router_inv in Hr. done.
  - apply Forall_forall. intros i Hi. by apply slot_ids_bounds.
Qed.

(** * The invariant of a proxy *)
Record pv_inv (s : ProxyState) : Prop := {
  pi_router : reach_router (pv_router s);
  pi_closed : pv_closed s = ro_closed (pv_router s);
  pi_final : pv_closed s = true → emptied (pv_router s);
  pi_monitor i : pv_monitor s = Some i → (i < pv_monitors s)%nat;
  pi_live i : (i < pv_monitors s)%nat → i ∉ pv_canceled s → pv_monitor s = Some i /\ pv_closed s = false;
  pi_known i : i ∈ pv_canceled s → (i < pv_monitors s)%nat;
  pi_jodis j : pv_jodis s = Some j → jd_closed j = pv_closed s /\ (jd_online j = true → pv_online s = true) /\
    (jd_online j = false → jd_created j = O) /\ (jd_deleted j ≤ jd_created j)%nat /\ (jd_watching j = true → jd_created j ≠ O) /\
    (jd_closed j = false → jd_deleted j = O);
}.

(** a change that touches neither router nor sentinels nor registration *)
Lemma pv_inv_other s s' : pv_inv s → pv_router s' = pv_router s → pv_closed s' = pv_closed s → pv_online s' = pv_online s → pv_monitor s' = pv_monitor s →
  pv_monitors s' = pv_monitors s → pv_canceled s' = pv_canceled s → pv_jodis s' = pv_jodis s → pv_inv s'.
Proof. intros [H1 H2 H3 H4 H5 H6 H7] Er Ec Eo Em En Ek Ej. split; rewrite ?Er, ?Ec, ?Em, ?En, ?Ek, ?Ej, ?Eo; done. Qed.

(** an operation of the router that leaves it open *)
Lemma pv_inv_router s r : pv_inv s → pv_closed s = false → reach_router r → ro_closed r = false → pv_inv (pv_set_router r s).
Proof. intros [H1 H2 H3 H4 H5 H6 H7] Hc Hr Hcr. split; cbn; try done; congruence. Qed.

Lemma safe_if_open {A} (m : PM A) : (∀ s, pv_inv s → pv_closed s = false → wp m (λ r s', r ≠ Panic /\ pv_inv s') s) → safe pv_inv (if_open m).
Proof.
  intros Hm s Hs. unfold if_open. apply wp_bind, wp_gets. destruct (pv_closed s) eqn:Hc; [by apply wp_fail|]. by apply Hm.
Qed.

Lemma on_router_wp {A} (m : RM A) (Q : outcome proxyerr A → ProxyState → Prop) s :
  Q (match (m (pv_router s)).1 with Ok a => Ok a | Err e => Err (ErrOfRouter e) | Panic => Panic end) (pv_set_router (m (pv_router s)).2 s) →
  wp (on_router m) Q s.
Proof. unfold wp, on_router. by destruct (m (pv_router s)) as [[a|e|] r]. Qed.

Definition open_inv (s : ProxyState) : Prop := pv_inv s /\ pv_closed s = false.

Lemma safe_fill m : safe open_inv (on_router (FillSlot m)).
Proof.
  intros s [Hs Hc]. apply on_router_wp. pose proof (pi_router s Hs) as Hr. destruct (FillSlot_closed m _ Hr) as [Hcl _].
  pose proof (no_router_panic (RFillSlot m) _ Hr) as Hp. cbn [run_rop] in Hp. split.
  - by destruct (FillSlot m (pv_router s)).1.
  - split; [|done]. apply pv_inv_router; [done|done|by apply reach_FillSlot|]. rewrite Hcl. by rewrite <-(pi_closed s Hs).
Qed.

Lemma safe_Start : safe pv_inv Proxy_Start.
Proof.
  apply safe_if_open. intros s Hs Hc. apply wp_bind, wp_gets. destruct (pv_online s) eqn:Hon; [by apply wp_ret|].
  apply wp_bind, wp_modify, wp_bind, wp_modify, wp_modify. split; [done|]. destruct Hs as [H1 H2 H3 H4 H5 H6 H7]. split; cbn; try done.
  - by apply reach_Start.
  - change (pv_router (pv_set_online true s)) with (pv_router s). unfold Router_Start. rewrite H2. by destruct (ro_closed (pv_router s)) eqn:E.
  - congruence.
  - intros j' (j & Hj & ->)%fmap_Some_1. destruct (H7 j Hj) as (E1 & E2 & E3 & E4 & E5 & E6). cbn. split_and!; done.
Qed.

Lemma safe_Close deleted : safe pv_inv (Proxy_Close deleted).
Proof.
  intros s Hs. unfold Proxy_Close. apply wp_bind, wp_gets. destruct (pv_closed s) eqn:Hc; [by apply wp_ret|].
  apply wp_bind, wp_modify, wp_bind, wp_modify, wp_bind, on_router_wp. destruct Hs as [H1 H2 H3 H4 H5 H6 H7].
  destruct (Router_Close_final (pv_router s) H1) as (Hok & Hcl & Hno); [congruence|]. change (pv_router (pv_set_jodis _ _)) with (pv_router s).
  rewrite Hok. apply wp_modify. split; [done|]. split; cbn; try done.
  - by apply reach_Close.
  - intros i Hi Hni. destruct (pv_monitor s) as [k|] eqn:Hm; [|destruct (H5 i Hi Hni); done].
    destruct (decide (i = k)) as [->|Hne]; [by destruct Hni; apply elem_of_union_l, elem_of_singleton|].
    destruct (H5 i Hi) as [? _]; [by intros ?; destruct Hni; apply elem_of_union_r|congruence].
  - intros i Hi. destruct (pv_monitor s) as [k|] eqn:Hm; [|by apply H6]. apply elem_of_union in Hi as [->%elem_of_singleton|?]; [by apply H4|by apply H6].
  - intros j' (j & Hj & ->)%fmap_Some_1. destruct (H7 j Hj) as (E1 & E2 & E3 & E4 & E5 & E6). unfold jodis_Close. rewrite E1, Hc. cbn.
    specialize (E6 ltac:(congruence)). split_and!; try done. destruct (jd_watching j && deleted) eqn:Hw; [|lia].
    apply andb_true_iff in Hw as [Hw _]. specialize (E5 Hw). lia.
Qed.

Lemma safe_rewatch servers s : open_inv s → wp (Proxy_rewatchSentinels servers) (λ r s', r ≠ Panic /\ pv_inv s') s.
Proof.
  intros [Hs Hc]. unfold Proxy_rewatchSentinels. apply wp_bind, wp_modify.
  set (s1 := match pv_monitor s with Some _ => _ | None => s end).
  assert (pv_inv s1 /\ pv_closed s1 = false /\ pv_monitor s1 = None /\ ∀ i, (i < pv_monitors s1)%nat → i ∈ pv_canceled s1) as (H1 & H2 & H3 & H4).
  { unfold s1. pose proof Hs as [H1 H2 H3 H4 H5 H6 H7]. destruct (pv_monitor s) as [k|] eqn:Hm.
    - assert (∀ i, (i < pv_monitors s)%nat → i ∈ ({[k]} ∪ pv_canceled s : gset nat)) as Hall.
      { intros i Hi. destruct (decide (i = k)) as [->|Hne]; [set_solver|]. destruct (decide (i ∈ pv_canceled s)); [set_solver|].
        destruct (H5 i Hi) as [? _]; [done|congruence]. }
      cbn. rewrite Hm. split; [|split; [done|split; [done|exact Hall]]]. split; cbn; rewrite ?Hm; try done.
      + intros i Hi Hn. by destruct Hn; apply Hall.
      + intros i [->%elem_of_singleton|?]%elem_of_union; [by apply H4|by apply H6].
    - split; [exact Hs|]. split; [done|]. split; [done|]. intros i Hi. destruct (decide (i ∈ pv_canceled s)) as [|Hn]; [done|]. by destruct (H5 i Hi Hn). }
  clearbody s1. destruct servers; [by apply wp_ret|]. apply wp_modify. split; [done|]. destruct H1 as [K1 K2 K3 K4 K5 K6 K7].
  split; cbn; try done.
  - intros i [= <-]. lia.
  - intros i Hi Hn. split; [|done]. f_equal. destruct (decide (i < pv_monitors s1)%nat) as [Hlt|]; [by destruct Hn; apply H4|lia].
  - intros i Hi. specialize (K6 i Hi). lia.
Qed.

(** what a handler does after the check of the key *)
Definition handle (r : request) : PM unit :=
  match r with
  | ReqPing => mret tt
  | ReqStart => Proxy_Start
  | ReqShutdown deleted => Proxy_Close deleted
  | ReqResetStats => Proxy_ResetStats
  | ReqFillSlots slots => Proxy_FillSlots slots
  | ReqSetSentinels servers => SetSentinels servers
  | ReqRewatchSentinels => RewatchSentinels
  | ReqSetACL acl => Proxy_SetACL acl
  | ReqSetQPSLimit revision limit now => Proxy_SetQPSLimit revision limit now
  end.

Lemma api_handle xauth r s : api xauth r s = (verifyXAuth xauth ;; handle r) s.
Proof. destruct r; try done. cbn. unfold XPing, mbind, M_bind. by destruct (verifyXAuth xauth s) as [[[]| |] ?]. Qed.

Lemma pools_router acl cfg replica i addr w : fw_router (SetACL acl w).2 = fw_router w /\ fw_router (open_user cfg replica i addr w) = fw_router w.
Proof.
  split; [unfold SetACL; by case_match|]. unfold open_user, userBackendPool. destruct (aclIdentityCurrent _ _ _); [|done].
  case_match eqn:E; case_match; simplify_eq; by destruct replica.
Qed.

Lemma safe_handle r : safe pv_inv (handle r).
Proof.
  destruct r; cbn [handle]; [apply safe_ret|apply safe_Start|apply safe_Close| | | | | |].
  - apply safe_modify. intros s Hs. by apply (pv_inv_other s).
  - apply safe_if_open. intros s Hs Hc. pose proof (safe_for_each open_inv slots (λ m, on_router (FillSlot m)) (λ m _, safe_fill m) s (conj Hs Hc)) as Hw.
    eapply wp_mono; [exact Hw|]. by intros r s' [? [? _]].
  - apply safe_if_open. intros s Hs Hc. apply wp_bind, wp_modify, safe_rewatch. split; [by apply (pv_inv_other s)|done].
  - apply safe_if_open. intros s Hs Hc. by apply wp_bind, wp_gets, safe_rewatch.
  - apply safe_if_open. intros s Hs Hc. apply wp_modify. split; [done|]. apply (pv_inv_other s); try done.
    apply (pools_router _ (mkConfig 0 0 0 false []) false (mkIdentity [] "" [] 0 false None) "").
  - intros s Hs. unfold wp, Proxy_SetQPSLimit. destruct (SetLimit _ _ _ _) as [[]]; (split; [done|]); by apply (pv_inv_other s).
Qed.

Lemma safe_api xauth r : safe pv_inv (api xauth r).
Proof.
  intros s0. unfold wp. rewrite api_handle. revert s0. apply safe_bind; [|intros []; apply safe_handle]. apply safe_if_open. intros s Hs Hc. apply wp_bind, wp_gets.
  repeat case_decide; first [by apply wp_fail|by apply wp_ret].
Qed.

Lemma safe_SwitchMasters runid masters : safe pv_inv (Proxy_SwitchMasters runid masters).
Proof.
  apply safe_if_open. intros s Hs Hc. apply wp_bind, wp_modify. set (s1 := pv_set_masters _ s).
  assert (pv_inv s1) as Hs1 by by apply (pv_inv_other s). case_decide; [by apply wp_ret|]. apply wp_ignore_err, on_router_wp.
  pose proof (no_router_panic (RSwitchMasters runid masters) _ (pi_router s1 Hs1)) as Hp. cbn [run_rop] in Hp. split.
  - by destruct (SwitchMasters runid masters (pv_router s1)).1.
  - apply pv_inv_router; [done|done|by apply reach_SwitchMasters, (pi_router s1 Hs1)|].
    rewrite SwitchMasters_closed by by apply (pi_router s1 Hs1). rewrite <-(pi_closed s1 Hs1). done.
Qed.

Lemma pv_exec_inv ev s : pv_inv s → pv_inv (pv_exec ev s).
Proof.
  intros Hs. destruct ev as [xauth r|cfg replica u addr|deleted|created|i masters|k runid]; cbn [pv_exec].
  - by apply (safe_api xauth r s Hs).
  - apply (pv_inv_other s); try done. apply (pools_router None).
  - by apply (safe_Close deleted s Hs).
  - destruct (pv_jodis s) as [j|] eqn:Hj; [|done]. destruct (jd_online j && negb (jd_closed j)) eqn:Hon; [|done].
    apply andb_true_iff in Hon as [Hon Hncl%negb_true_iff]. destruct Hs as [H1 H2 H3 H4 H5 H6 H7]. split; cbn; try done.
    rewrite Hj. intros j' [= <-]. destruct (H7 j Hj) as (E1 & E2 & E3 & E4 & E5 & E6). unfold jodis_Rewatch. rewrite Hncl. cbn.
    rewrite E6 by done. split_and!; try done; [congruence|rewrite Hon; done|lia|]. destruct created; [lia|done].
  - case_decide; [by apply (pv_inv_other s)|done].
  - destruct (pv_reports s !! k) as [masters|]; [|done].
    apply (safe_SwitchMasters runid masters (pv_set_reports _ s)). by apply (pv_inv_other s).
Qed.

Lemma New_inv xauth only jodis l : pv_inv (New_proxy xauth only jodis l).
Proof.
  split; cbn; try done; [apply reach_new|lia|]. intros j. destruct jodis; [|done]. intros [= <-]. cbn. split_and!; try done; lia.
Qed.

Lemma pv_run_inv xauth only jodis l evs : pv_inv (pv_run (New_proxy xauth only jodis l) evs).
Proof.
  unfold pv_run. generalize (New_inv xauth only jodis l). generalize (New_proxy xauth only jodis l).
  induction evs as [|ev evs IH]; intros s Hs; cbn; [done|]. by apply IH, pv_exec_inv.
Qed.

(** * After the end *)
Definition dead (s : ProxyState) : Prop := pv_closed s = true /\ ∀ i, (i < pv_monitors s)%nat → i ∈ pv_canceled s.

Lemma inv_dead s : pv_inv s → pv_closed s = true → dead s.
Proof.
  intros Hs Hc. split; [done|]. intros i Hi. destruct (decide (i ∈ pv_canceled s)) as [|Hn]; [done|].
  destruct (pi_live s Hs i Hi Hn). congruence.
Qed.

Lemma api_closed xauth r s : pv_closed s = true → api xauth r s = (Err ErrClosedProxy, s).
Proof. intros Hc. rewrite api_handle. unfold verifyXAuth, if_open, mbind, M_bind, gets. by rewrite Hc. Qed.

Lemma api_get_closed model g s : pv_closed s = true → api_get model g s = (match g with
  | LookOverview => Ok (ShowOverview model (mkPStats false true (visible_limit (pv_limiter s))) (GetSlots (pv_router s)))
  | LookModel => Ok (ShowModel model)
  | LookStatsNoXAuth => Ok (ShowStats (mkPStats false true (visible_limit (pv_limiter s))))
  | LookSlotsNoXAuth => Ok (ShowSlots (GetSlots (pv_router s)))
  | _ => Err ErrClosedProxy
  end, s).
Proof.
  intros Hc. destruct g; cbn [api_get]; unfold api_Stats, api_Slots, verifyXAuth, if_open, gets, mbind, M_bind, Proxy_Stats, IsOnline;
    rewrite ?Hc, ?andb_false_r; done.
Qed.

Lemma dead_step ev s : pv_inv s → dead s → dead (pv_exec ev s) /\ pv_router (pv_exec ev s) = pv_router s /\ pv_jodis (pv_exec ev s) = pv_jodis s.
Proof.
  intros Hs Hd. pose proof Hd as [Hc Hall]. destruct ev as [xauth r|cfg replica u addr|deleted|created|i masters|k runid]; cbn [pv_exec].
  - by rewrite api_closed.
  - split; [done|]. split; [apply (pools_router None)|done].
  - unfold Proxy_Close, mbind, M_bind, gets. by rewrite Hc.
  - destruct (pv_jodis s) as [j|] eqn:Hj; [|done]. destruct (pi_jodis s Hs j Hj) as (E & _). rewrite E, Hc. cbn. by rewrite andb_false_r.
  - case_decide as Hi; [|done]. destruct Hi as [Hi Hn]. by destruct Hn; apply Hall.
  - destruct (pv_reports s !! k) as [masters|]; [|done]. unfold Proxy_SwitchMasters, if_open, mbind, M_bind, gets. cbn. rewrite Hc. done.
Qed.

(** C32: a closed proxy is at its end.  Whatever requests, ACL users, listeners, sentinels and
    its registration do afterwards, its routing table stays as the closing left it, with no
    connection of the two shared pools open, no sentinel client is left running, it
    does not register itself again, and every request that needs the key is refused and
    changes nothing.  The four requests without a key it still answers: they show
    a proxy that is not online and is closed, and slots without a backend, and change
    nothing.  Nothing is said of the pools of the ACL users. *)
Theorem proxy_close_final xauth only jodis l before after model :
  let s := pv_run (New_proxy xauth only jodis l) before in pv_closed s = true →
  let s' := pv_run s after in
  pv_closed s' = true /\ pv_router s' = pv_router s /\ (∀ b addr, ¬ connected b addr (pv_router s')) /\
  (∀ i, (i < pv_monitors s')%nat → i ∈ pv_canceled s') /\ pv_jodis s' = pv_jodis s /\
  (∀ x r, api x r s' = (Err ErrClosedProxy, s')) /\
  (∀ g, api_get model g s' = (match g with
     | LookOverview => Ok (ShowOverview model (mkPStats false true (visible_limit (pv_limiter s'))) (GetSlots (pv_router s)))
     | LookModel => Ok (ShowModel model)
     | LookStatsNoXAuth => Ok (ShowStats (mkPStats false true (visible_limit (pv_limiter s'))))
     | LookSlotsNoXAuth => Ok (ShowSlots (GetSlots (pv_router s)))
     | _ => Err ErrClosedProxy
     end, s')) /\
  Forall no_backend (GetSlots (pv_router s)).
Proof.
  cbv zeta. intros Hc. pose proof (pv_run_inv xauth only jodis l before) as Hs. revert Hc Hs.
  generalize (pv_run (New_proxy xauth only jodis l) before). intros s Hc Hs. pose proof (inv_dead s Hs Hc) as Hd.
  assert (∀ t, pv_inv t → dead t → let t' := pv_run t after in pv_inv t' /\ dead t' /\ pv_router t' = pv_router t /\ pv_jodis t' = pv_jodis t) as Hrun.
  { clear. induction after as [|ev after IH]; intros t Ht Hd; [done|]. destruct (dead_step ev t Ht Hd) as (Hd1 & Hr1 & Hj1).
    destruct (IH (pv_exec ev t) (pv_exec_inv ev t Ht) Hd1) as (H1 & H2 & H3 & H4). cbv zeta. cbn [pv_run foldl] in *.
    split; [done|]. split; [done|]. split; [exact (eq_trans H3 Hr1)|exact (eq_trans H4 Hj1)]. }
  destruct (Hrun s Hs Hd) as (Hs' & [Hc' Hall'] & Hr' & Hj'). pose proof (pi_final _ Hs' Hc') as [Hno Hempty].
  split_and!; try done; [intros x r; by apply api_closed| |by rewrite <-Hr']. rewrite <-Hr'. intros g. by apply api_get_closed.
Qed.

(** * What a proxy is told and what it serves *)

(** the table that the dashboard keeps of a proxy, when the proxy took [slots] *)
Definition fill_table (slots : list Slot) (tb : gmap Z Slot) : gmap Z Slot := foldl (λ tb m, <[slot_Id m := m]> tb) tb slots.

(** the proxy serves what the table says *)
Definition serves (r : Router) (tb : gmap Z Slot) : Prop :=
  ∀ id m, tb !! id = Some m → GetSlot id r = Some (filled m (slot_ForwardMethod m) (ro_primaryOnly r)).

Definition valid_slot (m : Slot) : bool :=
  bool_decide (0 <= slot_Id m < MaxSlotNum) && bool_decide (slot_ForwardMethod m = ForwardSync \/ slot_ForwardMethod m = ForwardSemiAsync).
(** how many slots the proxy takes: those up to the first that is not valid *)
Fixpoint taken (slots : list Slot) : nat :=
  match slots with [] => O | m :: slots => if valid_slot m then S (taken slots) else O end.

Lemma FillSlot_step m r tb : reach_router r → ro_closed r = false → serves r tb →
  if valid_slot m then ∃ r', FillSlot m r = (Ok tt, r') /\ reach_router r' /\ ro_closed r' = false /\ serves r' (<[slot_Id m := m]> tb)
  else ∃ e, FillSlot m r = (Err e, r).
Proof.
  intros Hr Hc Hserve. unfold valid_slot. destruct (bool_decide (0 <= slot_Id m < MaxSlotNum)) eqn:Hid; cbn [andb].
  2: { apply bool_decide_eq_false in Hid. unfold FillSlot, mbind, M_bind, gets. rewrite Hc, decide_True by lia. by eexists. }
  apply bool_decide_eq_true in Hid. case_bool_decide as Hm.
  - destruct (FillSlot_correct r m Hr Hc Hid Hm) as (r' & Hf & Hget & Hother). exists r'.
    destruct (FillSlot_closed m r Hr) as [Hc' Ho']. pose proof (reach_FillSlot m r Hr) as Hr'. rewrite Hf in Hc', Ho', Hr'. cbn in Hc', Ho', Hr'.
    split; [done|]. split; [done|]. split; [congruence|]. intros id x. rewrite Ho'. intros [[<- <-]|[Hne Hx]]%lookup_insert_Some; [done|].
    rewrite Hother by done. by apply Hserve.
  - unfold FillSlot, mbind, M_bind, gets. rewrite Hc, decide_False by lia. rewrite decide_False by tauto. rewrite decide_False by tauto. by eexists.
Qed.

Lemma fill_all_wp slots : ∀ s tb, pv_inv s → pv_closed s = false → serves (pv_router s) tb →
  wp (for_each slots (λ m, on_router (FillSlot m))) (λ r s',
    serves (pv_router s') (fill_table (take (taken slots) slots) tb) /\ (r = Ok tt ↔ taken slots = length slots) /\ r ≠ Panic) s.
Proof.
  induction slots as [|m slots IH]; intros s tb Hs Hc Hserve; cbn [for_each taken].
  { apply wp_ret. done. }
  assert (ro_closed (pv_router s) = false) as Hcr by by rewrite <-(pi_closed s Hs).
  pose proof (FillSlot_step m (pv_router s) tb (pi_router s Hs) Hcr Hserve) as Hstep. apply wp_bind, on_router_wp.
  destruct (valid_slot m).
  - destruct Hstep as (r' & Hf & Hr' & Hc' & Hserve'). rewrite Hf. cbn [fst snd].
    eapply wp_mono; [apply (IH _ (<[slot_Id m := m]> tb)); [by apply pv_inv_router|done|done]|].
    intros r s' (H1 & H2 & H3). split; [done|]. split; [|done]. rewrite H2. cbn. lia.
  - destruct Hstep as [e Hf]. rewrite Hf. cbn [fst snd]. split; [|split; [|done]].
    + by destruct s.
    + split; [done|]. cbn. lia.
Qed.

(** ** The dashboard's side *)
Section dashboard.
Context `{Env}.

Lemma fill_slots_table p slots : ∀ w, token_table (for_each slots (fill_slot p) w).2 (p_Token p) = fill_table slots (token_table w (p_Token p)) /\
  (for_each slots (fill_slot p) w).1 = Ok tt.
Proof.
  induction slots as [|m slots IH]; intros w; [done|].
  set (w1 := set_tables (<[p_Token p := <[slot_Id m := m]> (token_table w (p_Token p))]> (w_tables w)) w).
  change (for_each (m :: slots) (fill_slot p) w) with (for_each slots (fill_slot p) w1). destruct (IH w1) as [-> ->].
  split; [|done]. cbn [fill_table foldl]. unfold token_table at 1, w1. cbn [w_tables set_tables]. by rewrite lookup_insert_eq.
Qed.

Lemma FillSlots_table p slots w : token_table (FillSlots p slots w).2 (p_Token p) =
  fill_table (match env_fill (w_tick w) with FillOk => slots | FillErr n => take n slots end) (token_table w (p_Token p)).
Proof.
  unfold FillSlots, next_tick, mbind at 1, M_bind at 1. destruct (env_fill (w_tick w)) as [|n].
  - destruct (fill_slots_table p slots (set_tick (S (w_tick w)) w)) as [Ht Hok]. unfold mbind, M_bind.
    destruct (for_each slots (fill_slot p) _) as [r w']. cbn in Hok. subst r. exact Ht.
  - destruct (fill_slots_table p (take n slots) (set_tick (S (w_tick w)) w)) as [Ht Hok]. unfold mbind, M_bind.
    destruct (for_each (take n slots) (fill_slot p) _) as [r w']. cbn in Hok. subst r. exact Ht.
Qed.
End dashboard.

(** C33: the dashboard's picture of a proxy is right.  When the dashboard's table of a proxy is
    what the proxy serves and the dashboard sends slots with the key of the proxy, the
    proxy takes them up to the first that is not valid and answers without error
    exactly if there is none; and if the dashboard's view of this call is the answer
    (all slots, or that many of them), its table is again what the proxy serves.
    Without the key nothing changes. *)
Theorem fill_refines `{Env} xauth only jodis l evs x slots p w :
  let s := pv_run (New_proxy xauth only jodis l) evs in
  pv_closed s = false → serves (pv_router s) (token_table w (p_Token p)) →
  let '(r, s') := api x (ReqFillSlots slots) s in
  if decide (x = pv_xauth s /\ x ≠ ""%string) then
    (r = Ok tt ↔ taken slots = length slots) /\
    ((env_fill (w_tick w) = match r with Ok _ => FillOk | _ => FillErr (taken slots) end) →
     serves (pv_router s') (token_table (FillSlots p slots w).2 (p_Token p)))
  else (r = Err ErrMissingXAuth \/ r = Err ErrInvalidXAuth) /\ s' = s.
Proof.
  cbv zeta. pose proof (pv_run_inv xauth only jodis l evs) as Hs. revert Hs. generalize (pv_run (New_proxy xauth only jodis l) evs).
  intros s Hs Hc Hserve. pose proof (fill_all_wp slots s _ Hs Hc Hserve) as Hfill. unfold wp in Hfill.
  rewrite api_handle. unfold verifyXAuth, if_open, mbind at 1 2 3, M_bind at 1 2 3, gets at 1 2. rewrite Hc.
  destruct (decide (x = "")) as [->|Hne].
  { cbn. rewrite decide_False by tauto. auto. }
  destruct (decide (x ≠ pv_xauth s)) as [Hx|Hx].
  { cbn. rewrite decide_False by tauto. auto. }
  cbn [mret M_ret handle]. unfold Proxy_FillSlots, if_open, mbind at 1, M_bind at 1, gets. rewrite Hc.
  destruct (for_each slots _ s) as [r s']. cbn [fst snd] in Hfill. destruct Hfill as (H1 & H2 & H3).
  rewrite decide_True by (split; [by destruct (decide (x = pv_xauth s))|done]). split; [done|]. intros Henv.
  rewrite FillSlots_table, Henv. destruct r as [[]| |]; [|done..]. rewrite (proj1 H2 eq_refl), firstn_all in H1. done.
Qed.

(** * Concrete runs *)
Definition demo_fill (id : Z) (addr : string) : Slot := mkSlot id false addr 1 "" 0 0 [].
Definition told_proxy : Proxy := mkProxy 1 "p" "" "" "" "" "" "" 0 "" "" "" "".
(** a proxy with one slot that is then shut down *)
Definition demo_proxy_events : list pvevent :=
  [EvApi "key" (ReqFillSlots [demo_fill 7 "a:1"]); EvApi "key" ReqStart; EvJodis true; EvApi "key" (ReqSetSentinels ["s:1"]);
   EvReport 0 {[ 1 := "a:2"%string ]}; EvApi "key" (ReqShutdown true)].
(** and what comes too late *)
Definition demo_late_events : list pvevent :=
  [EvApi "key" (ReqSetACL (mkACL 1 true [] "")); EvSwitch 0 (λ a, a); EvJodis true; EvApi "key" ReqStart; EvApi "key" (ReqFillSlots [demo_fill 7 "a:1"])].

Lemma proxy_close_final_witness :
  let s := pv_run (New_proxy "key" false true zero_limiter) demo_proxy_events in
  let s' := pv_run s demo_late_events in
  pv_closed s = true /\ pv_closed s' = true /\ (∀ b addr, ¬ connected b addr (pv_router s')) /\ pv_jodis s' = Some (mkJodis true true true 1 1) /\
  ∃ q, (api_get told_proxy LookStatsNoXAuth s').1 = Ok (ShowStats (mkPStats false true q)).
Proof.
  cbv zeta. assert (pv_closed (pv_run (New_proxy "key" false true zero_limiter) demo_proxy_events) = true) as Hc by by vm_compute.
  destruct (proxy_close_final "key" false true zero_limiter demo_proxy_events demo_late_events told_proxy Hc) as (H1 & H2 & H3 & H4 & H5 & _ & H7 & _).
  split; [exact Hc|]. split; [exact H1|]. split; [exact H3|]. split; [rewrite H5; by vm_compute|]. rewrite H7. eexists. cbn [fst]. reflexivity.
Defined.

(** the pool of an ACL user is still open after the proxy is closed: its connection is that of
    no slot, and only the next update of the ACL, which a closed proxy refuses, would
    close it *)
Definition demo_user : SessionACLIdentity := mkIdentity [x61] "" [] 1 false None.
Lemma user_pool_outlives :
  let s := pv_run (New_proxy "key" false false zero_limiter)
    [EvApi "key" (ReqSetACL (mkACL 1 true [] "")); EvApi "key" (ReqFillSlots [demo_fill 7 "a:1"]);
     EvUser (mkConfig 16 1 1 true []) false demo_user "a:1"; EvApi "key" (ReqShutdown true); EvApi "key" (ReqSetACL (mkACL 2 true [] ""))] in
  pv_closed s = true /\ fw_userPrimary (pv_fwd s) !! userBackendKey (Some demo_user) = Some {[ "a:1"%string ]}.
Proof. by vm_compute. Qed.

(** the dashboard's table says that slot 7 is at a:1; two slots are sent, of which the second
    has no valid number *)
Definition told_world : world :=
  mkWorld (mkDb ∅ ∅ ∅ None None None None) empty_cache false false false 0 0 None {[ "p"%string := {[ 7 := demo_fill 7 "a:1" ]} ]} (λ _, None) 0 [].
Definition half_fill : Env := {|
  env_read _ := true; env_write _ := WriteOk; env_fill _ := FillErr 1; env_call _ := true;
  env_model _ := None; env_migrate _ := None; env_keyspace _ := None; env_runid _ _ := ""%string;
  env_resolve _ _ := None; env_now _ := ""%string; env_range _ l := l; env_range_tokens _ l := l
|}.

Lemma fill_refines_witness :
  let s := pv_run (New_proxy "key" false false zero_limiter) [EvApi "key" (ReqFillSlots [demo_fill 7 "a:1"])] in
  let slots := [demo_fill 7 "b:1"; demo_fill 2000 "b:1"] in
  (slot_BackendAddr <$> GetSlot 7 (pv_router (api "key" (ReqFillSlots slots) s).2)) = Some "b:1"%string /\
  serves (pv_router (api "key" (ReqFillSlots slots) s).2) (token_table (@FillSlots half_fill told_proxy slots told_world).2 "p").
Proof.
  cbv zeta. set (s := pv_run _ _). split; [by vm_compute|].
  assert (pv_closed s = false) as Hc by by vm_compute.
  assert (serves (pv_router s) (token_table told_world "p")) as Hserve.
  { intros id m Hm. assert (token_table told_world "p" = {[ 7 := demo_fill 7 "a:1" ]}) as Htb by by vm_compute. rewrite Htb in Hm.
    apply lookup_singleton_Some in Hm as [<- <-]. by vm_compute. }
  pose proof (@fill_refines half_fill "key" false false zero_limiter [EvApi "key" (ReqFillSlots [demo_fill 7 "a:1"])] "key"
    [demo_fill 7 "b:1"; demo_fill 2000 "b:1"] told_proxy told_world Hc Hserve) as Ht.
  change (pv_run _ _) with s in Ht.
  assert ((api "key" (ReqFillSlots [demo_fill 7 "b:1"; demo_fill 2000 "b:1"]) s).1 = Err (ErrOfRouter ErrInvalidSlotId)) as Hr by by vm_compute.
  destruct (api "key" _ s) as [r s']. cbn [fst snd] in Hr |- *. subst r.
  rewrite decide_True in Ht by by vm_compute. by apply Ht.
Defined.

(** The sentinels are taken away, but a goroutine that had looked before switches the masters
    all the same, and nobody will correct it. *)
Lemma stale_switch :
  let s := pv_run (New_proxy "key" false false zero_limiter)
    [EvApi "key" (ReqSetSentinels ["s:1"]); EvReport 0 {[ 1 := "a:2"%string ]}; EvApi "key" (ReqSetSentinels []); EvSwitch 0 (λ a, a)] in
  pv_servers s = [] /\ pv_monitor s = None /\ pv_masters s = Some {[ 1 := "a:2"%string ]}.
Proof. by vm_compute. Qed.
