(* ===== verification/Units.v ===== *)
(** Sizes and durations of the configuration files: pkg/utils/bytesize and pkg/utils/timesize.

    A text is bytes.  The regular expressions are read as the scanners they stand for; of the
    standard library [strconv.ParseInt], [strconv.ParseFloat] on the texts that the
    expressions let through, [time.ParseDuration] of one number with its unit and
    [Duration.String] are written out, with 64-bit integers and IEEE doubles.  What the
    conversion of a double out of range to an integer yields depends on the machine and is a
    parameter. *)

From S2P Require Import Prelude Bufio Resp RespNumbers Mapper Models Limiter.
From Stdlib Require Import SpecFloat.

Definition letter (c : byte) : bool := (97 <=? byte_val c) && (byte_val c <=? 122).
Definition point_byte : byte := x2e.
(** [\s] *)
Definition re_space (c : byte) : bool := bool_decide (c = x09 \/ c = x0a \/ c = x0c \/ c = x0d \/ c = x20).
(** [[\d\.]] *)
Definition number_byte (c : byte) : bool := is_digit c || bool_decide (c = point_byte).

Fixpoint span (p : byte → bool) (b : bytes) : bytes * bytes :=
  match b with
  | [] => ([], [])
  | c :: b' => if p c then let '(l, r) := span p b' in (c :: l, r) else ([], b)
  end.

(** [^\s*(\-?[\d\.]+)\s*([a-z]+|)\s*$]: the sign, the number and the unit *)
Definition split_size (b : bytes) : option (bool * bytes * bytes) :=
  let b := (span re_space b).2 in
  let '(neg, b) := match b with c :: b' => if decide (c = minus_sign) then (true, b') else (false, b) | [] => (false, b) end in
  let '(num, b) := span number_byte b in
  let '(unit, b) := span letter (span re_space b).2 in
  match num, (span re_space b).2 with
  | _ :: _, [] => Some (neg, num, unit)
  | _, _ => None
  end.

(** [^\-?\d+$] *)
Definition digitsOnly (num : bytes) : bool := forallb is_digit num.
Definition with_sign (neg : bool) (num : bytes) : bytes := if neg then minus_sign :: num else num.

(** ** Numbers with a point *)
Definition digits_value (b : bytes) : Z := foldl (λ n c, n * 10 + digit_val c) 0 b.

(** the double next to [m / 10 ^ k]: enough bits of the quotient, and one more that tells
    whether it is exact *)
Definition decimal (m : Z) (k : nat) : spec_float :=
  let s := 70 + 4 * Z.of_nat k in
  let p := 10 ^ Z.of_nat k in
  let q := (m * 2 ^ s) / p in
  let sticky := if decide ((m * 2 ^ s) mod p = 0) then 0 else 1 in
  binary_normalize prec emax (2 * q + sticky) (- (s + 1)) false.

(** [strconv.ParseFloat] of digits with one point; a number too large is an error *)
Definition ParseFloat (neg : bool) (num : bytes) : option spec_float :=
  let '(int, rest) := span is_digit num in
  match rest with
  | c :: frac =>
      if bool_decide (c = point_byte) && forallb is_digit frac && bool_decide (int ++ frac ≠ []) then
        match decimal (digits_value (int ++ frac)) (length frac) with
        | S754_infinity _ => None
        | f => Some (if neg then SFopp f else f)
        end
      else None
  | [] => None
  end.

Class FloatToInt := out_of_range : spec_float → Z.
(** [int64(f)] *)
Definition int64_of `{FloatToInt} (f : spec_float) : Z :=
  match f with
  | S754_zero _ => 0
  | S754_finite s m e =>
      let v := if decide (0 <= e) then Zpos m * 2 ^ e else Zpos m / 2 ^ (- e) in
      let v := if s then - v else v in
      if decide (- 2 ^ 63 <= v < 2 ^ 63) then v else out_of_range f
  | _ => out_of_range f
  end.

Inductive sizeerr := ErrBadSize | ErrBadDuration.

(** * bytesize *)
Definition KB : Z := 2 ^ 10.
Definition MB : Z := 2 ^ 20.
Definition GB : Z := 2 ^ 30.
Definition TB : Z := 2 ^ 40.
Definition PB : Z := 2 ^ 50.

(** [None]: not one of [[kmgtp]?b|[bkmgtp]|] *)
Definition size_unit (u : bytes) : option Z :=
  if decide (u = bstr "b" \/ u = []) then Some 1
  else if decide (u = bstr "k" \/ u = bstr "kb") then Some KB
  else if decide (u = bstr "m" \/ u = bstr "mb") then Some MB
  else if decide (u = bstr "g" \/ u = bstr "gb") then Some GB
  else if decide (u = bstr "t" \/ u = bstr "tb") then Some TB
  else if decide (u = bstr "p" \/ u = bstr "pb") then Some PB
  else None.

Definition size_Parse `{FloatToInt} (s : bytes) : outcome sizeerr Z :=
  match split_size s with
  | None => Err ErrBadSize
  | Some (neg, num, unit) =>
      match size_unit unit with
      | None => Err ErrBadSize
      | Some size =>
          if digitsOnly num then
            match ParseInt (with_sign neg num) with Ok n => Ok (i64 (size * n)) | _ => Err ErrBadSize end
          else
            match ParseFloat neg num with Some f => Ok (int64_of (fmul (float64 size) f)) | None => Err ErrBadSize end
      end
  end.

(** [abs%u == 0 { return b/u, unit }] for the units in this order *)
Fixpoint marshal (abs b : Z) (units : list (Z * string)) : option bytes :=
  match units with
  | [] => None
  | (u, name) :: units => if decide (Z.rem abs u = 0) then Some (FormatInt (Z.quot b u) ++ bstr name) else marshal abs b units
  end.
Definition abs64 (b : Z) : Z := if decide (b < 0) then i64 (- b) else b.

Definition size_units : list (Z * string) := [(PB, "pb"); (TB, "tb"); (GB, "gb"); (MB, "mb"); (KB, "kb")]%string.
Definition size_MarshalText (b : Z) : bytes :=
  if decide (b = 0) then bstr "0" else default (FormatInt b) (marshal (abs64 b) b size_units).

(** * timesize *)
Definition Microsecond : Z := 1000.
Definition Millisecond : Z := 1000000.
Definition Minute : Z := 60 * Second.
Definition Hour : Z := 3600 * Second.

Definition time_unit (u : bytes) : option Z :=
  if decide (u = bstr "ns") then Some 1
  else if decide (u = bstr "us") then Some Microsecond
  else if decide (u = bstr "ms") then Some Millisecond
  else if decide (u = bstr "s") then Some Second
  else if decide (u = bstr "m") then Some Minute
  else if decide (u = bstr "h") then Some Hour
  else None.

(** [leadingFraction]: the digits that fit in 63 bits, and the power of ten they are over *)
Definition fraction_step (st : Z * spec_float * bool) (c : byte) : Z * spec_float * bool :=
  let '(f, scale, overflow) := st in
  if overflow then st
  else if decide (f > (2 ^ 63 - 1) / 10) then (f, scale, true)
  else let y := f * 10 + digit_val c in
    if decide (y > 2 ^ 63) then (f, scale, true) else (y, fmul scale (float64 10), false).
Definition leadingFraction (b : bytes) : Z * spec_float :=
  let '(f, scale, _) := foldl fraction_step (0, float64 1, false) b in (f, scale).

(** [time.ParseDuration] of one number and its unit *)
Definition ParseDuration `{FloatToInt} (neg : bool) (num unit : bytes) : outcome sizeerr Z :=
  let '(int, rest) := span is_digit num in
  let v := digits_value int in
  let '(frac, rest) := match rest with c :: r => if decide (c = point_byte) then span is_digit r else ([], rest) | [] => ([], []) end in
  if decide (v > 2 ^ 63) then Err ErrBadDuration
  else match rest, int ++ frac, time_unit unit with
  | [], _ :: _, Some u =>
      if decide (v > 2 ^ 63 / u) then Err ErrBadDuration
      else
        let '(f, scale) := leadingFraction frac in
        let v := v * u + (if decide (0 < f) then int64_of (fmul (float64 f) (fdiv (float64 u) scale)) else 0) in
        if decide (v > 2 ^ 63) then Err ErrBadDuration
        else if neg then Ok (i64 (- v))
        else if decide (v > 2 ^ 63 - 1) then Err ErrBadDuration
        else Ok v
  | _, _, _ => Err ErrBadDuration
  end.

Definition time_Parse `{FloatToInt} (s : bytes) : outcome sizeerr Z :=
  match split_size s with
  | None => Err ErrBadSize
  | Some (neg, num, unit) =>
      if decide (unit ≠ []) then ParseDuration neg num unit
      else if digitsOnly num then
        match ParseInt (with_sign neg num) with Ok n => Ok (i64 (n * Second)) | _ => Err ErrBadSize end
      else
        match ParseFloat neg num with Some f => Ok (int64_of (fmul f (float64 Second))) | None => Err ErrBadSize end
  end.

(** ** [Duration.String] *)
Definition pad (n : nat) (b : bytes) : bytes := replicate (n - length b) x30 ++ b.
Fixpoint strip_zeros (b : bytes) : bytes :=
  match b with
  | [] => []
  | c :: b => match strip_zeros b with [] => if decide (c = x30) then [] else [c] | l => c :: l end
  end.
(** [fmtFrac]: the last [prec] digits after a point, and what is left *)
Definition fmtFrac (v : Z) (prec : nat) : bytes * Z :=
  let p := 10 ^ Z.of_nat prec in
  (match strip_zeros (pad prec (FormatInt (v mod p))) with [] => [] | l => point_byte :: l end, v / p).
Definition mu : bytes := [xc2; xb5].
Definition Duration_String (d : Z) : bytes :=
  let u := Z.abs d in
  let sign := if decide (d < 0) then [minus_sign] else [] in
  if decide (d = 0) then bstr "0s"
  else if decide (u < Second) then
    let '(prec, name) := if decide (u < Microsecond) then (0%nat, bstr "ns")
      else if decide (u < Millisecond) then (3%nat, mu ++ bstr "s") else (6%nat, bstr "ms") in
    let '(frac, n) := fmtFrac u prec in
    sign ++ FormatInt n ++ frac ++ name
  else
    let '(frac, n) := fmtFrac u 9 in
    let secs := FormatInt (n mod 60) ++ frac ++ bstr "s" in
    let m := n / 60 in
    sign ++ (if decide (m = 0) then secs
      else (if decide (m / 60 = 0) then [] else FormatInt (m / 60) ++ bstr "h") ++ FormatInt (m mod 60) ++ bstr "m" ++ secs).

Definition time_units : list (Z * string) := [(Hour, "h"); (Minute, "m"); (Second, "s"); (Millisecond, "ms"); (Microsecond, "us")]%string.
Definition time_MarshalText (d : Z) : bytes :=
  if decide (d = 0) then bstr "0" else default (Duration_String d) (marshal (abs64 d) d time_units).

(** ** Examples *)
Definition amd64 : FloatToInt := λ _, - 2 ^ 63.
Example size_examples :
  @size_Parse amd64 (bstr " 1.5 kb ") = Ok 1536 /\ @size_Parse amd64 (bstr "-.5m") = Ok (- 524288) /\ @size_Parse amd64 (bstr "1.2.3") = Err ErrBadSize /\
  @size_Parse amd64 (bstr "12 xb") = Err ErrBadSize /\ @time_Parse amd64 (bstr "1.5ms") = Ok 1500000 /\ @time_Parse amd64 (bstr "10") = Ok (10 * Second) /\
  @time_Parse amd64 (bstr "0.3") = Ok 300000000 /\ Duration_String 3661000000500 = bstr "1h1m1.0000005s" /\ Duration_String (-1500) = minus_sign :: bstr "1.5" ++ mu ++ bstr "s".
Proof. by vm_compute. Qed.

(** * What is printed is read back *)
Lemma span_all p b c l : Forall (λ c, p c = true) b → p c = false → span p (b ++ c :: l) = (b, c :: l).
Proof. intros Hb Hc. induction Hb as [|x b Hx _ IH]; cbn; [by rewrite Hc|]. by rewrite Hx, IH. Qed.
Lemma span_end p b : Forall (λ c, p c = true) b → span p b = (b, []).
Proof. intros Hb. induction Hb as [|x b Hx _ IH]; cbn; [done|]. by rewrite Hx, IH. Qed.
Lemma span_none p b : match b with c :: _ => p c = false | [] => True end → span p b = ([], b).
Proof. destruct b as [|c b]; cbn; [done|]. by intros ->. Qed.

Lemma digit_facts c : is_digit c = true → number_byte c = true /\ re_space c = false /\ c ≠ minus_sign /\ letter c = false.
Proof. by destruct c; vm_compute. Qed.
Lemma letter_facts c : letter c = true → number_byte c = false /\ re_space c = false.
Proof. by destruct c; vm_compute. Qed.

(** a sign and digits followed by a unit *)
Lemma split_printed neg ds unit : ds ≠ [] → Forall (λ c, is_digit c = true) ds → Forall (λ c, letter c = true) unit →
  split_size (with_sign neg ds ++ unit) = Some (neg, ds, unit).
Proof.
  intros Hne Hd Hu. unfold split_size, with_sign.
  assert (span number_byte (ds ++ unit) = (ds, unit)) as Hspan.
  { assert (Forall (λ c, number_byte c = true) ds) as Hd'. { eapply Forall_impl; [exact Hd|]. intros c Hc. by apply digit_facts. }
    destruct unit as [|c u]; [rewrite app_nil_r; by apply span_end|]. apply span_all; [done|]. apply Forall_cons in Hu as [Hc _]. by apply letter_facts. }
  assert (span re_space unit = ([], unit)) as Hus.
  { apply span_none. destruct Hu as [|c u Hc _]; [done|]. by apply letter_facts. }
  destruct ds as [|d ds]; [done|]. apply Forall_cons in Hd as [Hd0 Hd]. destruct (digit_facts d Hd0) as (_ & Hsp & Hm & _).
  destruct neg; cbn [app].
  - rewrite (span_none re_space (minus_sign :: _)) by done. cbn [snd]. rewrite decide_True by done. cbn [app] in Hspan. rewrite Hspan, Hus. cbn [snd].
    by rewrite (span_end letter unit).
  - rewrite (span_none re_space (d :: _)) by done. cbn [snd]. rewrite decide_False by done. cbn [app] in Hspan. rewrite Hspan, Hus. cbn [snd].
    by rewrite (span_end letter unit).
Qed.

Lemma format_sign n : - 2 ^ 63 <= n < 2 ^ 63 → ∃ ds, FormatInt n = with_sign (bool_decide (n < 0)) ds /\ ds ≠ [] /\
  Forall (λ c, is_digit c = true) ds /\ digits_loop 0 ds = (Z.abs n, []).
Proof.
  intros Hn. exists (format_digits 20 (Z.abs n)).
  assert (digits_loop 0 (format_digits 20 (Z.abs n)) = (Z.abs n, [])) as Hl by (apply format_digits_loop; lia).
  split; [|split; [apply format_digits_ne|split; [by eapply digits_loop_all|done]]].
  unfold FormatInt. destruct (n <? 0) eqn:H0.
  - rewrite bool_decide_eq_true_2 by lia. by replace (Z.abs n) with (- n) by lia.
  - rewrite bool_decide_eq_false_2 by lia. by replace (Z.abs n) with n by lia.
Qed.

Lemma digitsOnly_spec ds : Forall (λ c, is_digit c = true) ds → digitsOnly ds = true.
Proof. intros Hd. unfold digitsOnly. apply List.forallb_forall. intros c Hc%list_elem_of_In. rewrite Forall_forall in Hd. by apply Hd. Qed.

Lemma abs64_rem b u : - 2 ^ 63 <= b < 2 ^ 63 → 0 < u → Z.rem (abs64 b) u = 0 → b = u * Z.quot b u.
Proof.
  intros Hb Hu Hr. assert (Z.rem b u = 0) as Hz.
  { unfold abs64 in Hr. destruct (decide (b < 0)); [|done]. destruct (decide (b = - 2 ^ 63)) as [->|Hne].
    - by replace (i64 (- - 2 ^ 63)) with (- 2 ^ 63) in Hr by by vm_compute.
    - rewrite i64_id, Z.rem_opp_l in Hr by (unfold max_int64; lia). lia. }
  pose proof (Z.quot_rem' b u). lia.
Qed.

(** the text of a number in a unit of the list *)
Lemma marshal_spec b units text : - 2 ^ 63 <= b < 2 ^ 63 → (∀ u name, (u, name) ∈ units → 0 < u) → marshal (abs64 b) b units = Some text →
  ∃ u name, (u, name) ∈ units /\ text = FormatInt (Z.quot b u) ++ bstr name /\ b = u * Z.quot b u.
Proof.
  intros Hb. induction units as [|[u name] units IH]; intros Hu; cbn; [done|]. destruct (decide _) as [Hr|_].
  - intros [= <-]. exists u, name. split; [by left|]. split; [done|]. apply abs64_rem; [done|apply (Hu u name); by left|done].
  - intros Ht. destruct IH as (u' & n' & Hin & ?); [intros; eapply Hu; by right|done|]. exists u', n'. split; [by right|done].
Qed.

Lemma quot_range b u : - 2 ^ 63 <= b < 2 ^ 63 → 1 <= u → b = u * Z.quot b u → - 2 ^ 63 <= Z.quot b u < 2 ^ 63.
Proof. intros Hb Hu He. nia. Qed.

Section roundtrip.
Context `{FloatToInt}.

Lemma parse_size_number u name n : size_unit (bstr name) = Some u → Forall (λ c, letter c = true) (bstr name) → - 2 ^ 63 <= n < 2 ^ 63 →
  - 2 ^ 63 <= u * n < 2 ^ 63 → size_Parse (FormatInt n ++ bstr name) = Ok (u * n).
Proof.
  intros Hu Hl Hn Hun. destruct (format_sign n Hn) as (ds & Hf & Hne & Hd & _). unfold size_Parse. rewrite Hf, split_printed by done.
  rewrite Hu, digitsOnly_spec by done. rewrite <-Hf, parse_format by done. by rewrite i64_id by (unfold max_int64; lia).
Qed.

(** every 64-bit size is read back from its text, the smallest included *)
Lemma size_roundtrip b : - 2 ^ 63 <= b < 2 ^ 63 → size_Parse (size_MarshalText b) = Ok b.
Proof.
  intros Hb. unfold size_MarshalText. destruct (decide (b = 0)) as [->|Hz]; [by vm_compute|].
  destruct (marshal (abs64 b) b size_units) as [text|] eqn:Hm; cbn [default from_option id].
  - apply marshal_spec in Hm as (u & name & Hin & -> & He); [|done|].
    + rewrite He at 2. assert (1 <= u /\ size_unit (bstr name) = Some u /\ Forall (λ c, letter c = true) (bstr name)) as (H1 & H2 & H3).
      { unfold size_units in Hin. rewrite !elem_of_cons, elem_of_nil in Hin.
        destruct Hin as [[= -> ->]|[[= -> ->]|[[= -> ->]|[[= -> ->]|[[= -> ->]|[]]]]]]; (split; [by vm_compute|split; [done|repeat constructor]]). }
      apply parse_size_number; [done|done|by apply quot_range|lia].
    + intros u name. unfold size_units. rewrite !elem_of_cons, elem_of_nil.
      intros [[= -> ->]|[[= -> ->]|[[= -> ->]|[[= -> ->]|[[= -> ->]|[]]]]]]; by vm_compute.
  - pose proof (parse_size_number 1 "" b) as Hp. rewrite app_nil_r, Z.mul_1_l in Hp. apply Hp; [done|constructor|done|done].
Qed.

Lemma digits_value_loop n ds v : digits_loop n ds = (v, []) → foldl (λ n c, n * 10 + digit_val c) n ds = v.
Proof.
  revert n. induction ds as [|c ds IH]; intros n; cbn; [by intros [= ->]|]. destruct (is_digit c); [|done].
  intros Hl. rewrite Z.add_comm. by apply IH.
Qed.

Lemma parse_time_number u name n : time_unit (bstr name) = Some u → bstr name ≠ [] → Forall (λ c, letter c = true) (bstr name) → 1 <= u →
  - 2 ^ 63 <= n < 2 ^ 63 → - 2 ^ 63 < u * n < 2 ^ 63 → time_Parse (FormatInt n ++ bstr name) = Ok (u * n).
Proof.
  intros Hu Hname Hl H1 Hn Hun. destruct (format_sign n Hn) as (ds & Hf & Hne & Hd & Hv). unfold time_Parse. rewrite Hf, split_printed by done.
  rewrite decide_True by done. unfold ParseDuration. rewrite (span_end is_digit ds) by done. unfold digits_value.
  rewrite (digits_value_loop 0 ds (Z.abs n) Hv). rewrite decide_False by lia. rewrite app_nil_r. destruct ds as [|d ds]; [done|]. rewrite Hu.
  assert (Z.abs n <= 2 ^ 63 / u) as Hq by (apply Z.div_le_lower_bound; nia). rewrite decide_False by lia.
  change (leadingFraction []) with (0, float64 1). cbv beta iota. rewrite (decide_False (P := 0 < 0)) by lia.
  rewrite decide_False by nia. case_bool_decide as Hneg.
  - rewrite i64_id by (unfold max_int64; nia). f_equal. nia.
  - rewrite decide_False by nia. f_equal. nia.
Qed.

(** every duration of whole microseconds is read back from its text *)
Lemma time_roundtrip d : - 2 ^ 63 <= d < 2 ^ 63 → Z.rem d Microsecond = 0 → time_Parse (time_MarshalText d) = Ok d.
Proof.
  intros Hd Hr. assert (d ≠ - 2 ^ 63) as Hmin by (intros ->; by vm_compute in Hr).
  unfold time_MarshalText. destruct (decide (d = 0)) as [->|Hz]; [by vm_compute|].
  destruct (marshal (abs64 d) d time_units) as [text|] eqn:Hm; cbn [default from_option id].
  - apply marshal_spec in Hm as (u & name & Hin & -> & He); [|done|].
    + rewrite He at 2. assert (1 <= u /\ time_unit (bstr name) = Some u /\ bstr name ≠ [] /\ Forall (λ c, letter c = true) (bstr name)) as (H1 & H2 & H3 & H4).
      { unfold time_units in Hin. rewrite !elem_of_cons, elem_of_nil in Hin.
        destruct Hin as [[= -> ->]|[[= -> ->]|[[= -> ->]|[[= -> ->]|[[= -> ->]|[]]]]]]; (split; [by vm_compute|split; [done|split; [done|repeat constructor]]]). }
      apply parse_time_number; [done|done|done|done|by apply quot_range|lia].
    + intros u name. unfold time_units. rewrite !elem_of_cons, elem_of_nil.
      intros [[= -> ->]|[[= -> ->]|[[= -> ->]|[[= -> ->]|[[= -> ->]|[]]]]]]; by vm_compute.
  - exfalso. assert (Z.rem (abs64 d) Microsecond = 0) as Ha.
    { unfold abs64. destruct (decide (d < 0)); [|done]. rewrite i64_id, Z.rem_opp_l by (unfold max_int64, Microsecond; lia). lia. }
    revert Hm. unfold time_units. cbn [marshal]. repeat case_decide; done.
Qed.

(** Sizes and durations survive the configuration file: every 64-bit size is read back
    from the text that is printed for it, the smallest one included, and so is every
    duration of whole microseconds. *)
Theorem units_roundtrip n : - 2 ^ 63 <= n < 2 ^ 63 →
  size_Parse (size_MarshalText n) = Ok n /\ (Z.rem n Microsecond = 0 → time_Parse (time_MarshalText n) = Ok n).
Proof. intros Hn. split; [by apply size_roundtrip|by apply time_roundtrip]. Qed.
End roundtrip.

Lemma units_roundtrip_witness :
  (size_MarshalText (- 2 ^ 63) = bstr "-8192pb" /\ @size_Parse amd64 (size_MarshalText (- 2 ^ 63)) = Ok (- 2 ^ 63)) /\
  (time_MarshalText 90000000000 = bstr "90s" /\ @time_Parse amd64 (time_MarshalText 90000000000) = Ok 90000000000).
Proof.
  split; (split; [by vm_compute|]).
  - apply (@units_roundtrip amd64 (- 2 ^ 63)). lia.
  - destruct (@units_roundtrip amd64 90000000000) as [_ Ht]; [lia|]. by apply Ht.
Defined.

(** other durations are not: the printed text is refused *)
Lemma duration_not_read_back : ∀ `{FloatToInt},
  time_MarshalText 1500 = bstr "1.5" ++ mu ++ bstr "s" /\ time_Parse (time_MarshalText 1500) = Err ErrBadSize /\
  time_MarshalText 60000000001 = bstr "1m0.000000001s" /\ time_Parse (time_MarshalText 60000000001) = Err ErrBadSize.
Proof. intros. by vm_compute. Qed.

(** a size that does not fit in 64 bits is not refused but wraps around *)
Lemma size_overflows : ∀ `{FloatToInt}, size_Parse (bstr "16385pb") = Ok PB /\ size_Parse (bstr "8192pb") = Ok (- 2 ^ 63).
Proof. intros. by vm_compute. Qed.
