(* ===== verification/TopomApi.v ===== *)
(** The HTTP API of the dashboard and its client: pkg/topom/topom_api.go, with the calls of
    utils/rpc/api.go and the key of utils/rpc/crypto.go.

    A request is its method, the path that [EncodeURL] prints and a body; [serve] is what the
    dashboard does with one: the standard library's multiplexer, the router of martini, the
    handler, the reply.  Martini's matching of a path and the JSON binding are parameters
    with their documented laws, the SHA-256 is another.  The requests for recoveries run the
    manager of PitrRun; those for the analysis of RDB files start a request of RdbManager,
    which goes on after the first of its sections. *)

From S2P Require Import Prelude Bufio Resp RespNumbers Mapper Models TopomContext TopomState TopomCache TopomFrame TopomProxy.
From S2P Require Import TopomSlots TopomGroup TopomInv TopomRules TopomRebalance TopomSafety.
From S2P Require Import Router Stream Forward SessionState ClusterNodes TopomACL PitrFiles RdbPaths Limiter.
From S2P Require Import BackendConn RedisClient Sentinel TopomStats TopomQPS HotKeyCache Broadcast PitrRun RdbAnalysis RdbManager RdbApi.
(** * utils/rpc *)
Inductive http_method := GET | PUT | POST | ANY.
#[export] Instance http_method_eq_dec : EqDecision http_method.
Proof. solve_decision. Defined.

Record http_request := mkHttp { rq_method : http_method; rq_path : bytes; rq_body : bytes }.

(** [fmt.Sprintf] with the verbs %s and %d; the arguments are printed *)
Fixpoint Sprintf (format : bytes) (args : list bytes) : bytes :=
  match format with
  | x25 :: _ :: format => match args with a :: args => a ++ Sprintf format args | [] => Sprintf format [] end
  | c :: format => c :: Sprintf format args
  | [] => []
  end.

(** the path of the URL; a server decodes the path that [URL.String] encodes *)
Definition EncodeURL (format : string) (args : list bytes) : bytes := Sprintf (bstr format) args.
Definition ApiGetJson (path : bytes) : http_request := mkHttp GET path [].
Definition ApiPutJson (path body : bytes) : http_request := mkHttp PUT path body.

(** the key *)
Class Sha256 := sha256 : bytes → bytes.
Class Sha256Laws `{Sha256} := sha256_length b : length (sha256 b) = 32%nat.

Definition hex_digit (n : N) : byte := default x30 (Byte.of_N (if (n <? 10)%N then 48 + n else 87 + n)%N).
Definition hex (b : bytes) : bytes := concat ((λ c, [hex_digit (Byte.to_N c / 16); hex_digit (Byte.to_N c mod 16)]%N) <$> b).
Definition NewXAuth `{Sha256} (segs : list string) : string :=
  string_of_bytes (hex (take 16 (sha256 (bstr "Codis-XAuth" ++ concat ((λ s, bstr "-[" ++ bstr s ++ bstr "]") <$> segs))))).

(** * Martini *)
Inductive seg := Lit (b : bytes) | Var (name : string) | Glob.
#[export] Instance seg_eq_dec : EqDecision seg.
Proof. solve_decision. Defined.

Definition seg_of (b : bytes) : seg :=
  match b with
  | x3a :: name => Var (string_of_bytes name)
  | [x2a; x2a] => Glob
  | _ => Lit b
  end.
Definition pattern (pat : string) : list seg := seg_of <$> split_on slash (bstr pat).

(** the path of a pattern with values for its parameters *)
Fixpoint fill_in (p : list seg) (vals : list bytes) : list bytes :=
  match p with
  | [] => []
  | Lit b :: p => b :: fill_in p vals
  | Var _ :: p => match vals with v :: vals => v :: fill_in p vals | [] => [] :: fill_in p [] end
  | Glob :: p => [] :: fill_in p vals
  end.
Fixpoint names_of (p : list seg) : list string :=
  match p with [] => [] | Var n :: p => n :: names_of p | _ :: p => names_of p end.

(** the segments of a path agree with the literal segments of a pattern *)
Fixpoint agrees (p : list seg) (path : list bytes) : Prop :=
  match p, path with
  | Glob :: _, _ => True
  | Lit b :: p, s :: path => b = s /\ agrees p path
  | Var _ :: p, _ :: path => agrees p path
  | [], [] => True
  | _, _ => False
  end.

(** a value that may stand for a parameter: one clean segment of a URL's path *)
Definition url_safe (v : bytes) : Prop := proper v /\ x23 ∉ v /\ x3f ∉ v.

Abbreviation params := (list (string * string)).
(** [params[name]] *)
Definition param (name : string) (ps : params) : string :=
  match List.find (λ p, String.eqb p.1 name) ps with Some p => p.2 | None => "" end.

Class Martini := route_match : string → bytes → option params.
Class MartiniLaws `{Martini} := {
  (** named parameters *)
  match_named pat vals : Glob ∉ pattern pat → length vals = length (names_of (pattern pat)) → Forall url_safe vals →
    route_match pat (join_with slash (fill_in (pattern pat) vals)) = Some (zip (names_of (pattern pat)) (string_of_bytes <$> vals));
  (** everything else is literal, up to a slash at the end *)
  match_literal pat path ps : route_match pat path = Some ps →
    agrees (pattern pat) (split_on slash path) \/ ∃ path', path = path' ++ [slash] /\ agrees (pattern pat) (split_on slash path')
}.

(** * The dashboard behind the API *)
Inductive apierr :=
| ATopom (e : terror) | AStats (e : terror) | AOfACL (e : aclerr) | AOfQPS (e : qpserr) | AHotKey
| APitr (e : merror) | ARdb (e : api_error) | ARdbFailed (e : rerror)
| AClosed | AMissingXAuth | AInvalidXAuth | AMissing (entry : string) | AInvalid (entry : string) | ARedis (addr : string).

Record apiworld := mkApi {
  ap_stats : sworld;                     (** the dashboard with its statistics *)
  ap_acl : aclState;
  ap_limits : gmap string QPSLimiter;
  ap_caches : caches;
  ap_level : Z;                          (** the level of the log *)
  ap_calls : nat;                        (** how many calls of other servers were made *)
  ap_pitr : option PitrManager;          (** [None] when it is not initialized *)
  ap_rdb : option rsys
}.
Definition ap_topom (w : apiworld) : world := sw_world (ap_stats w).
Definition ap_set_stats (s : sworld) (w : apiworld) : apiworld := mkApi s (ap_acl w) (ap_limits w) (ap_caches w) (ap_level w) (ap_calls w) (ap_pitr w) (ap_rdb w).
Definition ap_set_topom (t : world) (w : apiworld) : apiworld := ap_set_stats (sw_set_world t (ap_stats w)) w.
Definition ap_set_acl (s : aclState) (w : apiworld) : apiworld := mkApi (ap_stats w) s (ap_limits w) (ap_caches w) (ap_level w) (ap_calls w) (ap_pitr w) (ap_rdb w).
Definition ap_set_limits (m : gmap string QPSLimiter) (w : apiworld) : apiworld := mkApi (ap_stats w) (ap_acl w) m (ap_caches w) (ap_level w) (ap_calls w) (ap_pitr w) (ap_rdb w).
Definition ap_set_caches (c : caches) (w : apiworld) : apiworld := mkApi (ap_stats w) (ap_acl w) (ap_limits w) c (ap_level w) (ap_calls w) (ap_pitr w) (ap_rdb w).
Definition ap_set_level (l : Z) (w : apiworld) : apiworld := mkApi (ap_stats w) (ap_acl w) (ap_limits w) (ap_caches w) l (ap_calls w) (ap_pitr w) (ap_rdb w).
Definition ap_count (w : apiworld) : apiworld := mkApi (ap_stats w) (ap_acl w) (ap_limits w) (ap_caches w) (ap_level w) (S (ap_calls w)) (ap_pitr w) (ap_rdb w).
Definition ap_set_pitr (m : option PitrManager) (w : apiworld) : apiworld := mkApi (ap_stats w) (ap_acl w) (ap_limits w) (ap_caches w) (ap_level w) (ap_calls w) m (ap_rdb w).
Definition ap_set_rdb (s : option rsys) (w : apiworld) : apiworld := mkApi (ap_stats w) (ap_acl w) (ap_limits w) (ap_caches w) (ap_level w) (ap_calls w) (ap_pitr w) s.

Abbreviation AP := (M apiworld apierr).

Definition with_err {E E' A} (f : E → E') (r : outcome E A) : outcome E' A :=
  match r with Ok a => Ok a | Err e => Err (f e) | Panic => Panic end.

(** calls of the dashboard *)
Definition on_topom {A} (m : T A) : AP A := λ w, let '(r, t) := m (ap_topom w) in (with_err ATopom r, ap_set_topom t w).
Definition on_stats {A} (m : SM A) : AP A := λ w, let '(r, s) := m (ap_stats w) in (with_err AStats r, ap_set_stats s w).
Definition on_acl {A} (m : M AW aclerr A) : AP A := λ w, let '(r, (t, s)) := m (ap_topom w, ap_acl w) in (with_err AOfACL r, ap_set_acl s (ap_set_topom t w)).
Definition on_qps {A} (m : QM A) : AP A := λ w, let '(r, (t, l)) := m (ap_topom w, ap_limits w) in (with_err AOfQPS r, ap_set_limits l (ap_set_topom t w)).

Record HotKeyCacheBroadcastRequest := mkBRequest { bq_SourceProxyToken : string; bq_Database : Z; bq_Keys : list bytes; bq_TimeoutMillis : Z }.

(** what the outside answers a handler: servers, the file system, the clock *)
Class Peers := {
  out_slots_info : nat → string → bool;                          (** connecting, and SLOTSINFO *)
  out_info : nat → string → option (gmap bytes bytes);
  out_monitored : nat → string → option (gmap bytes SentinelGroup);
  out_alive : nat → string → bool;
  out_attempt : nat → attempt;
  out_range : gmap string Proxy → list string;                   (** the order of a map of proxies *)
  out_job : nat → option string * Z;                             (** the id of a new job, and the time *)
  out_executable : string → bool;                                (** [pitrBinExecutable] *)
  out_range_pitr : gmap string pitrEntry → list (string * pitrEntry);
  out_stat : nat → option (bool * Z);                            (** a file of the workspace *)
  out_temp : nat → option bytes                                  (** a new temporary file *)
}.
(** the manager of RDB analyses: its settings and what it calls *)
Class RdbOutside := {
  rb_config : RDBAnalysisManager;
  rb_fetch_enabled : bool;                                       (** rdb_analysis_remote_fetch_enabled *)
  rb_range_types : gmap bytes RDBAnalysisSummary → list RDBAnalysisSummary;
  rb_range_dbs : gmap Z RDBAnalysisSummary → list RDBAnalysisSummary;
  rb_range_jobs : gmap string rentry → list rentry;
  rb_compile : bytes → option (bytes → bool);
  rb_media_filename : bytes → option bytes;
  rb_getwd : option bytes;
  rb_evalSymlinks : bytes → option bytes;
  rb_multipart : bytes → option ((string → bytes) * option bytes)  (** the form of an upload *)
}.

(** ** Bodies in JSON *)

(** [utf8.Valid] *)
Definition byte_in (lo hi : Z) (c : byte) : bool := (lo <=? byte_val c) && (byte_val c <=? hi).
Fixpoint valid_utf8 (b : bytes) : bool :=
  match b with
  | [] => true
  | c0 :: r0 =>
      if byte_in 0 127 c0 then valid_utf8 r0
      else match r0 with
      | [] => false
      | c1 :: r1 =>
          if byte_in 194 223 c0 then byte_in 128 191 c1 && valid_utf8 r1
          else match r1 with
          | [] => false
          | c2 :: r2 =>
              if byte_in 224 239 c0 then
                byte_in (if byte_in 224 224 c0 then 160 else 128) (if byte_in 237 237 c0 then 159 else 191) c1 && byte_in 128 191 c2 && valid_utf8 r2
              else match r2 with
              | [] => false
              | c3 :: r3 =>
                  byte_in 240 244 c0 && byte_in (if byte_in 240 240 c0 then 144 else 128) (if byte_in 244 244 c0 then 143 else 191) c1 &&
                  byte_in 128 191 c2 && byte_in 128 191 c3 && valid_utf8 r3
              end
          end
      end
  end.

(** the values that encoding/json gives back: texts in UTF-8 and numbers of their width *)
Definition int64 (n : Z) : Prop := - 2 ^ 63 <= n < 2 ^ 63.
Definition utf8 (s : string) : Prop := valid_utf8 (bstr s) = true.
Definition json_user (u : ACLUserUpdate) : Prop :=
  utf8 (uu_Name u) /\ match uu_DB u with Some n => int64 n | None => True end /\ utf8 (uu_NewPassword u) /\ Forall utf8 (uu_PasswordHashes u) /\ Forall utf8 (uu_Rules u).
Definition json_update (r : ACLUpdateRequest) : Prop := Forall (λ u, match u with Some u => json_user u | None => True end) (ar_Users r).
Definition json_keyset (r : HotKeyCacheBroadcastRequest) : Prop :=
  utf8 (bq_SourceProxyToken r) /\ - 2 ^ 31 <= bq_Database r < 2 ^ 31 /\ int64 (bq_TimeoutMillis r).
Definition json_mapping (m : SlotMapping) : Prop :=
  int64 (sm_Id m) /\ int64 (sm_GroupId m) /\ int64 (sa_Index (sm_Action m)) /\ int64 (sa_TargetId (sm_Action m)) /\
  match sa_State (sm_Action m) with ActionOther s => utf8 s | _ => True end.
Definition json_slot_list (l : list (option SlotMapping)) : Prop := Forall (λ m, match m with Some m => json_mapping m | None => True end) l.
Definition json_options (o : RDBAnalysisOptions) : Prop :=
  int64 (ro_TopN o) /\ int64 (ro_MaxDepth o) /\ valid_utf8 (ro_Regex o) = true /\ Forall (λ b, valid_utf8 b = true) (ro_PrefixSeparators o).

(** [binding.Json] maps a value into the handler's arguments, [json.Decoder] decodes a body
    or fails; [json] is the encoding of the client *)
Class Binding := {
  bind_acl : bytes → ACLUpdateRequest; json_acl : ACLUpdateRequest → bytes;
  bind_limit : bytes → Z; json_limit : Z → bytes;
  bind_keys : bytes → HotKeyCacheBroadcastRequest; json_keys : HotKeyCacheBroadcastRequest → bytes;
  bind_slots : bytes → list (option SlotMapping); json_slots : list (option SlotMapping) → bytes;
  decode_pitr : bytes → option (string * Z); json_pitr : string * Z → bytes;
  decode_start : bytes → option (bytes * RDBAnalysisOptions); json_start : bytes * RDBAnalysisOptions → bytes;
  decode_fetch : bytes → option (bytes * RDBAnalysisOptions); json_fetch : bytes * RDBAnalysisOptions → bytes;
  decode_options : bytes → option RDBAnalysisOptions
}.
Class BindingLaws `{Binding} := {
  bind_json_acl r : json_update r → bind_acl (json_acl r) = r;
  bind_json_limit r : int64 r → bind_limit (json_limit r) = r;
  bind_json_keys r : json_keyset r → bind_keys (json_keys r) = r;
  bind_json_slots r : json_slot_list r → bind_slots (json_slots r) = r;
  decode_json_pitr addr ts : utf8 addr → int64 ts → decode_pitr (json_pitr (addr, ts)) = Some (addr, ts);
  decode_json_start path o : valid_utf8 path = true → json_options o → decode_start (json_start (path, o)) = Some (path, o);
  decode_json_fetch addr o : valid_utf8 addr = true → json_options o → decode_fetch (json_fetch (addr, o)) = Some (addr, o)
}.

Inductive api_handler :=
| H_Root | H_Debug | H_Overview | H_Model | H_StatsNoXAuth | H_SlotsNoXAuth | H_XPing | H_Stats | H_Slots | H_Reload | H_Shutdown | H_LogLevel
| H_RDBUpload | H_RDBStart | H_RDBRemoteFetch | H_RDBCancel | H_RDBRemove | H_RDBGet
| H_PitrCreate | H_PitrList | H_PitrGet | H_PitrCancel | H_PitrRemove
| H_GetACL | H_SetACL | H_SyncACL | H_GetProxyQPSLimit | H_SetProxyQPSLimit | H_HotKeyCacheInvalidate
| H_CreateProxy | H_OnlineProxy | H_ReinitProxy | H_RemoveProxy
| H_CreateGroup | H_RemoveGroup | H_ResyncGroup | H_ResyncGroupAll | H_GroupAddServer | H_GroupDelServer | H_GroupPromoteServer
| H_EnableReplicaGroups | H_EnableReplicaGroupsAll | H_SyncCreateAction | H_SyncRemoveAction | H_InfoServer
| H_SlotCreateAction | H_SlotCreateActionSome | H_SlotCreateActionRange | H_SlotRemoveAction | H_SetSlotActionInterval | H_SetSlotActionDisabled
| H_SlotsAssignGroup | H_SlotsAssignOffline | H_SlotsRebalance
| H_AddSentinel | H_DelSentinel | H_ResyncSentinels | H_InfoSentinel | H_InfoSentinelMonitored.
#[export] Instance handler_eq_dec : EqDecision api_handler.
Proof. solve_decision. Defined.

(** what a handler answers with *)
Inductive reply :=
| ROk
| RModel (m : TopomModel)
| ROverview (m : TopomModel) (s : TStats)
| RStats (s : TStats)
| RSlots (l : list Slot)
| RACL (v : ACLView)
| RLimit (v : ProxyQPSLimitView)
| RBroadcast (r : HotKeyCacheBroadcastResult)
| RPlan (m : gmap bytes Z)
| RInfo (m : gmap bytes bytes)
| RMonitored (m : gmap bytes SentinelGroup)
| RJobID (id : string)
| RPitrJobs (l : list PitrJob)
| RPitrJob (j : PitrJob)
| RRdbJob (j : RDBAnalysisJob)
| RPending (t : nat)                                     (** answered when the request [t] of RdbManager ends *)
| RElsewhere.                                            (** a redirection, or the debugger *)

(** [LogLevel.ParseFromString], [LogLevel.String] *)
Definition LevelNone : Z := 0.
Definition LevelError : Z := 1.
Definition LevelWarn : Z := 3.
Definition LevelInfo : Z := 7.
Definition LevelDebug : Z := 15.
Definition ParseFromString `{UnicodeUpper} (s : string) : option Z :=
  let u := ToUpper s in
  if decide (u = "ERROR") then Some LevelError
  else if decide (u = "DEBUG") then Some LevelDebug
  else if decide (u = "WARN" \/ u = "WARNING") then Some LevelWarn
  else if decide (u = "INFO") then Some LevelInfo
  else if decide (u = "NONE") then Some LevelNone
  else None.
Definition level_String (l : Z) : string :=
  if decide (l = LevelDebug) then "DEBUG"
  else if decide (l = LevelInfo) then "INFO"
  else if decide (l = LevelWarn) then "WARN"
  else if decide (l = LevelError) then "ERROR"
  else if decide (l = LevelNone) then "NONE"
  else "UNKNOWN".

(** * topom_api.go: the server *)
Section api.
Context `{Env} `{TopomState.Config} `{UnicodeUpper} `{RBTree} `{ProxyClock} `{Sha256} `{Peers} `{RdbOutside} `{Binding}.
Context (ProductName : string) (model : TopomModel) (ACLPasswordHash : bytes → string) (BackendAuthPassword : string).

(** [Topom.XAuth] *)
Definition XAuth : string := NewXAuth [ProductName].

Definition topom_verifyXAuth (ps : params) : AP unit :=
  closed ← gets (λ w, w_closed (ap_topom w));
  if closed : bool then fail AClosed
  else
    let xauth := param "xauth" ps in
    if decide (xauth = "") then fail AMissingXAuth
    else if decide (xauth ≠ XAuth) then fail AInvalidXAuth
    else mret tt.

Definition parseAddr (ps : params) : AP string :=
  if decide (param "addr" ps = "") then fail (AMissing "addr") else mret (param "addr" ps).
Definition parseToken (ps : params) : AP string :=
  if decide (param "token" ps = "") then fail (AMissing "token") else mret (param "token" ps).
Definition parseInteger (ps : params) (entry : string) : AP Z :=
  let text := param entry ps in
  if decide (text = "") then fail (AMissing entry)
  else match ParseInt (bstr text) with
  | Ok v => mret v
  | _ => fail (AInvalid entry)
  end.
Definition nonzero (n : Z) : bool := bool_decide (n ≠ 0).

(** an operation that answers OK *)
Definition replies_ok {A} (m : AP A) : AP reply := m ;; mret ROk.

(** a call of another server *)
Definition ask_peer {A} (answer : nat → A) : AP A := λ w, (Ok (answer (ap_calls w)), ap_count w).

Definition handle_Overview : AP reply := stats ← on_stats Stats; mret (ROverview model stats).
Definition handle_Model : AP reply := mret (RModel model).
Definition handle_StatsNoXAuth : AP reply := stats ← on_stats Stats; mret (RStats stats).
Definition handle_SlotsNoXAuth : AP reply := slots ← on_topom Slots; mret (RSlots slots).
Definition handle_XPing (ps : params) : AP reply := replies_ok (topom_verifyXAuth ps).
Definition handle_GetACL (ps : params) : AP reply :=
  topom_verifyXAuth ps ;; view ← on_acl GetACL; mret (RACL view).
Definition handle_SetACL (req : ACLUpdateRequest) (ps : params) : AP reply :=
  topom_verifyXAuth ps ;; view ← on_acl (UpdateACL ACLPasswordHash BackendAuthPassword (Some req)); mret (RACL view).
Definition handle_SyncACL (ps : params) : AP reply :=
  topom_verifyXAuth ps ;; view ← on_acl (SyncACL ACLPasswordHash BackendAuthPassword); mret (RACL view).
Definition handle_GetProxyQPSLimit (ps : params) : AP reply :=
  topom_verifyXAuth ps ;; alive ← ask_peer out_alive; view ← on_qps (GetProxyQPSLimit alive); mret (RLimit view).
Definition handle_SetProxyQPSLimit (limit : Z) (ps : params) : AP reply :=
  topom_verifyXAuth ps ;; view ← on_qps (UpdateProxyQPSLimit (Some limit)); mret (RLimit view).
Definition handle_Stats (ps : params) : AP reply := topom_verifyXAuth ps ;; handle_StatsNoXAuth.
Definition handle_Slots (ps : params) : AP reply := topom_verifyXAuth ps ;; handle_SlotsNoXAuth.
Definition handle_Reload (ps : params) : AP reply := topom_verifyXAuth ps ;; replies_ok (on_topom Reload).

(** [Topom.HotKeyCacheInvalidate] *)
Definition invalidate_keys (req : HotKeyCacheBroadcastRequest) : AP reply := λ w,
  let '(r, t, c) := HotKeyCacheInvalidate out_range (out_attempt (ap_calls w)) (bq_SourceProxyToken req) (bq_Database req) (bq_Keys req)
                      (ap_topom w) (ap_caches w) in
  (match r with Some res => Ok (RBroadcast res) | None => Err AHotKey end, ap_count (ap_set_caches c (ap_set_topom t w))).
Definition handle_HotKeyCacheInvalidate (req : HotKeyCacheBroadcastRequest) (ps : params) : AP reply :=
  topom_verifyXAuth ps ;; invalidate_keys req.

Definition handle_CreateProxy (ps : params) : AP reply :=
  topom_verifyXAuth ps ;; addr ← parseAddr ps; replies_ok (on_topom (CreateProxy addr)).
Definition handle_OnlineProxy (ps : params) : AP reply :=
  topom_verifyXAuth ps ;; addr ← parseAddr ps; replies_ok (on_topom (OnlineProxy addr)).
Definition handle_ReinitProxy (ps : params) : AP reply :=
  topom_verifyXAuth ps ;; token ← parseToken ps; replies_ok (on_topom (ReinitProxy token)).
Definition handle_RemoveProxy (ps : params) : AP reply :=
  topom_verifyXAuth ps ;; token ← parseToken ps; force ← parseInteger ps "force";
  replies_ok (on_topom (RemoveProxy token (nonzero force))).

Definition handle_CreateGroup (ps : params) : AP reply :=
  topom_verifyXAuth ps ;; gid ← parseInteger ps "gid"; replies_ok (on_topom (CreateGroup gid)).
Definition handle_RemoveGroup (ps : params) : AP reply :=
  topom_verifyXAuth ps ;; gid ← parseInteger ps "gid"; replies_ok (on_topom (RemoveGroup gid)).
Definition handle_ResyncGroup (ps : params) : AP reply :=
  topom_verifyXAuth ps ;; gid ← parseInteger ps "gid"; replies_ok (on_topom (ResyncGroup gid)).
Definition handle_ResyncGroupAll (ps : params) : AP reply :=
  topom_verifyXAuth ps ;; replies_ok (on_topom ResyncGroupAll).

(** the server must answer to SLOTSINFO *)
Definition check_server (addr : string) : AP unit :=
  up ← ask_peer out_slots_info;
  if up addr : bool then mret tt else fail (ARedis addr).
Definition handle_GroupAddServer (ps : params) : AP reply :=
  topom_verifyXAuth ps ;; gid ← parseInteger ps "gid"; addr ← parseAddr ps;
  let dc := param "datacenter" ps in
  check_server addr ;; replies_ok (on_topom (GroupAddServer gid dc addr)).
Definition handle_GroupDelServer (ps : params) : AP reply :=
  topom_verifyXAuth ps ;; gid ← parseInteger ps "gid"; addr ← parseAddr ps;
  replies_ok (on_topom (GroupDelServer gid addr)).
Definition handle_GroupPromoteServer (ps : params) : AP reply :=
  topom_verifyXAuth ps ;; gid ← parseInteger ps "gid"; addr ← parseAddr ps;
  replies_ok (on_topom (GroupPromoteServer gid addr)).
Definition handle_EnableReplicaGroups (ps : params) : AP reply :=
  topom_verifyXAuth ps ;; gid ← parseInteger ps "gid"; addr ← parseAddr ps; n ← parseInteger ps "value";
  replies_ok (on_topom (EnableReplicaGroups gid addr (nonzero n))).
Definition handle_EnableReplicaGroupsAll (ps : params) : AP reply :=
  topom_verifyXAuth ps ;; n ← parseInteger ps "value"; replies_ok (on_topom (EnableReplicaGroupsAll (nonzero n))).

Definition handle_AddSentinel (ps : params) : AP reply :=
  topom_verifyXAuth ps ;; addr ← parseAddr ps; replies_ok (on_topom (AddSentinel addr)).
Definition handle_DelSentinel (ps : params) : AP reply :=
  topom_verifyXAuth ps ;; addr ← parseAddr ps; force ← parseInteger ps "force";
  replies_ok (on_topom (DelSentinel addr (nonzero force))).
Definition handle_ResyncSentinels (ps : params) : AP reply :=
  topom_verifyXAuth ps ;; replies_ok (on_topom ResyncSentinels).

(** these three do not ask for the key *)
Definition handle_InfoServer (ps : params) : AP reply :=
  addr ← parseAddr ps; info ← ask_peer out_info;
  match info addr with Some m => mret (RInfo m) | None => fail (ARedis addr) end.
Definition handle_InfoSentinel (ps : params) : AP reply :=
  addr ← parseAddr ps; info ← ask_peer out_info;
  match info addr with Some m => mret (RInfo m) | None => fail (ARedis addr) end.
Definition handle_InfoSentinelMonitored (ps : params) : AP reply :=
  addr ← parseAddr ps; info ← ask_peer out_monitored;
  match info addr with Some m => mret (RMonitored m) | None => fail (ARedis addr) end.

Definition handle_SyncCreateAction (ps : params) : AP reply :=
  topom_verifyXAuth ps ;; addr ← parseAddr ps; replies_ok (on_topom (SyncCreateAction addr)).
Definition handle_SyncRemoveAction (ps : params) : AP reply :=
  topom_verifyXAuth ps ;; addr ← parseAddr ps; replies_ok (on_topom (SyncRemoveAction addr)).

Definition handle_SlotCreateAction (ps : params) : AP reply :=
  topom_verifyXAuth ps ;; sid ← parseInteger ps "sid"; gid ← parseInteger ps "gid";
  replies_ok (on_topom (SlotCreateAction sid gid)).
Definition handle_SlotCreateActionSome (ps : params) : AP reply :=
  topom_verifyXAuth ps ;; groupFrom ← parseInteger ps "src"; groupTo ← parseInteger ps "dst"; numSlots ← parseInteger ps "num";
  replies_ok (on_topom (SlotCreateActionSome groupFrom groupTo numSlots)).
Definition handle_SlotCreateActionRange (ps : params) : AP reply :=
  topom_verifyXAuth ps ;; beg ← parseInteger ps "beg"; end_ ← parseInteger ps "end"; gid ← parseInteger ps "gid";
  replies_ok (on_topom (SlotCreateActionRange beg end_ gid true)).
Definition handle_SlotRemoveAction (ps : params) : AP reply :=
  topom_verifyXAuth ps ;; sid ← parseInteger ps "sid"; replies_ok (on_topom (SlotRemoveAction sid)).

Definition handle_LogLevel (ps : params) : AP reply :=
  topom_verifyXAuth ps ;;
  let v := param "value" ps in
  if decide (v = "") then fail (AMissing "loglevel")
  else match ParseFromString v with
  | None => fail (AInvalid "loglevel")
  | Some l => modify (ap_set_level l) ;; mret ROk
  end.
Definition handle_Shutdown (ps : params) : AP reply := topom_verifyXAuth ps ;; replies_ok (on_topom Close).
Definition handle_SetSlotActionInterval (ps : params) : AP reply :=
  topom_verifyXAuth ps ;; value ← parseInteger ps "value"; replies_ok (on_topom (SetSlotActionInterval value)).
Definition handle_SetSlotActionDisabled (ps : params) : AP reply :=
  topom_verifyXAuth ps ;; value ← parseInteger ps "value"; replies_ok (on_topom (SetSlotActionDisabled (nonzero value))).
Definition handle_SlotsAssignGroup (slots : list (option SlotMapping)) (ps : params) : AP reply :=
  topom_verifyXAuth ps ;; replies_ok (on_topom (SlotsAssignGroup slots)).
Definition handle_SlotsAssignOffline (slots : list (option SlotMapping)) (ps : params) : AP reply :=
  topom_verifyXAuth ps ;; replies_ok (on_topom (SlotsAssignOffline slots)).

(** the slots of a plan, printed *)
Definition print_plan (plans : gmap Z Z) : gmap bytes Z :=
  foldr (λ p m, <[FormatInt p.1 := p.2]> m) ∅ (map_to_list plans).
Definition handle_SlotsRebalance (ps : params) : AP reply :=
  topom_verifyXAuth ps ;; confirm ← parseInteger ps "confirm";
  plans ← on_topom (SlotsRebalance (nonzero confirm)); mret (RPlan (print_plan plans)).

(** ** topom_pitr_api.go *)
Definition on_pitr {A} (m : option PitrManager → outcome merror A * option PitrManager) : AP A := λ w,
  let '(r, p) := m (ap_pitr w) in (with_err APitr r, ap_set_pitr p w).
Definition create_pitr (request : option (string * Z)) : AP reply :=
  job ← ask_peer out_job; id ← on_pitr (PitrCreate out_executable ProductName true request job.1 job.2); mret (RJobID id).
Definition handle_PitrCreate (request : option (string * Z)) (ps : params) : AP reply := topom_verifyXAuth ps ;; create_pitr request.
Definition handle_PitrList (ps : params) : AP reply :=
  topom_verifyXAuth ps ;; l ← on_pitr (PitrList out_range_pitr true); mret (RPitrJobs l).
Definition handle_PitrGet (ps : params) : AP reply :=
  topom_verifyXAuth ps ;; j ← on_pitr (PitrGet true (param "id" ps)); mret (RPitrJob j).
Definition handle_PitrCancel (ps : params) : AP reply :=
  topom_verifyXAuth ps ;; replies_ok (on_pitr (PitrCancel true (param "id" ps))).
Definition handle_PitrRemove (ps : params) : AP reply :=
  topom_verifyXAuth ps ;; replies_ok (on_pitr (PitrRemove true (param "id" ps))).

(** ** topom_rdb_analysis_api.go *)
Definition rdb_exec (ev : revent) (s : rsys) : option rsys :=
  rm_exec rb_range_types rb_range_dbs rb_range_jobs rb_compile rb_media_filename rb_getwd rb_evalSymlinks rb_config ev s.
(** [rdbAnalysisManager], and a number for the request *)
Definition rdbAnalysisManager : AP nat := λ w,
  match ap_rdb w with Some s => (Ok (fresh (dom (rs_threads s))), w) | None => (Err (ARdb ANotInitialized), w) end.
Definition rdb_event (ev : revent) : AP unit := λ w,
  match ap_rdb w ≫= rdb_exec ev with Some s => (Ok tt, ap_set_rdb (Some s) w) | None => (Err (ARdbFailed RSystem), w) end.
Definition on_rdb {A} (m : rsys → outcome rerror A * rsys) : AP A := λ w,
  match ap_rdb w with Some s => let '(r, s) := m s in (with_err ARdbFailed r, ap_set_rdb (Some s) w) | None => (Err (ARdb ANotInitialized), w) end.
(** a request that has passed its checks *)
Definition rdb_request (t : nat) (ev : outcome api_error revent) : AP reply :=
  ev ← lift (with_err ARdb ev); rdb_event ev ;; mret (RPending t).

Definition rdb_upload (body : bytes) : AP reply :=
  t ← rdbAnalysisManager; tmp ← ask_peer out_temp;
  rdb_request t (RDBAnalysisUpload true true rb_config decode_options (Z.of_nat (length body)) (rb_multipart body) t tmp).
Definition rdb_start (request : option (bytes * RDBAnalysisOptions)) : AP reply :=
  t ← rdbAnalysisManager; stat ← ask_peer out_stat;
  rdb_request t (RDBAnalysisStart true true request t stat).
(** the server is looked up when the other checks have passed *)
Definition rdb_remote_fetch (request : option (bytes * RDBAnalysisOptions)) : AP reply :=
  t ← rdbAnalysisManager;
  let request := (λ x, (string_of_bytes x.1, x.2)) <$> request in
  _ ← lift (with_err ARdb (RDBAnalysisRemoteFetch true true rb_fetch_enabled rb_config request Ok t));
  match request with
  | Some (addr, _) =>
      verified ← on_topom (verifyRDBAnalysisRemoteFetchServer addr);
      rdb_request t (RDBAnalysisRemoteFetch true true rb_fetch_enabled rb_config request (λ _, verified) t)
  | None => fail (ARdb ABadRequest)
  end.
Definition rdb_get (id : string) : AP reply := j ← on_rdb (λ s, (rdb_Get id s, s)); mret (RRdbJob j).
Definition rdb_cancel (id : string) : AP reply := replies_ok (on_rdb (rdb_Cancel id)).
Definition rdb_remove (id : string) : AP reply := t ← rdbAnalysisManager; replies_ok (on_rdb (rdb_Remove t id)).

Definition handle_RDBUpload (body : bytes) (ps : params) : AP reply := topom_verifyXAuth ps ;; rdb_upload body.
Definition handle_RDBStart (request : option (bytes * RDBAnalysisOptions)) (ps : params) : AP reply := topom_verifyXAuth ps ;; rdb_start request.
Definition handle_RDBRemoteFetch (request : option (bytes * RDBAnalysisOptions)) (ps : params) : AP reply :=
  topom_verifyXAuth ps ;; rdb_remote_fetch request.
Definition handle_RDBGet (ps : params) : AP reply := topom_verifyXAuth ps ;; rdb_get (param "id" ps).
Definition handle_RDBCancel (ps : params) : AP reply := topom_verifyXAuth ps ;; rdb_cancel (param "id" ps).
Definition handle_RDBRemove (ps : params) : AP reply := topom_verifyXAuth ps ;; rdb_remove (param "id" ps).

Definition run_handler (h : api_handler) (ps : params) (body : bytes) : AP reply :=
  match h with
  | H_Root | H_Debug => mret RElsewhere
  | H_Overview => handle_Overview
  | H_Model => handle_Model
  | H_StatsNoXAuth => handle_StatsNoXAuth
  | H_SlotsNoXAuth => handle_SlotsNoXAuth
  | H_XPing => handle_XPing ps
  | H_Stats => handle_Stats ps
  | H_Slots => handle_Slots ps
  | H_Reload => handle_Reload ps
  | H_Shutdown => handle_Shutdown ps
  | H_LogLevel => handle_LogLevel ps
  | H_RDBUpload => handle_RDBUpload body ps
  | H_RDBStart => handle_RDBStart (decode_start body) ps
  | H_RDBRemoteFetch => handle_RDBRemoteFetch (decode_fetch body) ps
  | H_RDBCancel => handle_RDBCancel ps
  | H_RDBRemove => handle_RDBRemove ps
  | H_RDBGet => handle_RDBGet ps
  | H_PitrCreate => handle_PitrCreate (decode_pitr body) ps
  | H_PitrList => handle_PitrList ps
  | H_PitrGet => handle_PitrGet ps
  | H_PitrCancel => handle_PitrCancel ps
  | H_PitrRemove => handle_PitrRemove ps
  | H_GetACL => handle_GetACL ps
  | H_SetACL => handle_SetACL (bind_acl body) ps
  | H_SyncACL => handle_SyncACL ps
  | H_GetProxyQPSLimit => handle_GetProxyQPSLimit ps
  | H_SetProxyQPSLimit => handle_SetProxyQPSLimit (bind_limit body) ps
  | H_HotKeyCacheInvalidate => handle_HotKeyCacheInvalidate (bind_keys body) ps
  | H_CreateProxy => handle_CreateProxy ps
  | H_OnlineProxy => handle_OnlineProxy ps
  | H_ReinitProxy => handle_ReinitProxy ps
  | H_RemoveProxy => handle_RemoveProxy ps
  | H_CreateGroup => handle_CreateGroup ps
  | H_RemoveGroup => handle_RemoveGroup ps
  | H_ResyncGroup => handle_ResyncGroup ps
  | H_ResyncGroupAll => handle_ResyncGroupAll ps
  | H_GroupAddServer => handle_GroupAddServer ps
  | H_GroupDelServer => handle_GroupDelServer ps
  | H_GroupPromoteServer => handle_GroupPromoteServer ps
  | H_EnableReplicaGroups => handle_EnableReplicaGroups ps
  | H_EnableReplicaGroupsAll => handle_EnableReplicaGroupsAll ps
  | H_SyncCreateAction => handle_SyncCreateAction ps
  | H_SyncRemoveAction => handle_SyncRemoveAction ps
  | H_InfoServer => handle_InfoServer ps
  | H_SlotCreateAction => handle_SlotCreateAction ps
  | H_SlotCreateActionSome => handle_SlotCreateActionSome ps
  | H_SlotCreateActionRange => handle_SlotCreateActionRange ps
  | H_SlotRemoveAction => handle_SlotRemoveAction ps
  | H_SetSlotActionInterval => handle_SetSlotActionInterval ps
  | H_SetSlotActionDisabled => handle_SetSlotActionDisabled ps
  | H_SlotsAssignGroup => handle_SlotsAssignGroup (bind_slots body) ps
  | H_SlotsAssignOffline => handle_SlotsAssignOffline (bind_slots body) ps
  | H_SlotsRebalance => handle_SlotsRebalance ps
  | H_AddSentinel => handle_AddSentinel ps
  | H_DelSentinel => handle_DelSentinel ps
  | H_ResyncSentinels => handle_ResyncSentinels ps
  | H_InfoSentinel => handle_InfoSentinel ps
  | H_InfoSentinelMonitored => handle_InfoSentinelMonitored ps
  end.
End api.

(** ** Routes, in the order in which they are registered *)
Definition under (prefix : string) (l : list (http_method * string * api_handler)) : list (http_method * string * api_handler) :=
  (λ '(m, pat, h), (m, prefix +:+ pat, h)) <$> l.

Definition routes : list (http_method * string * api_handler) :=
  [(GET, "/", H_Root); (ANY, "/debug/**", H_Debug)] ++
  under "/topom" [(GET, "", H_Overview); (GET, "/model", H_Model); (GET, "/stats", H_StatsNoXAuth); (GET, "/slots", H_SlotsNoXAuth)] ++
  under "/api/topom" (
    [(GET, "/model", H_Model); (GET, "/xping/:xauth", H_XPing); (GET, "/stats/:xauth", H_Stats); (GET, "/slots/:xauth", H_Slots);
     (PUT, "/reload/:xauth", H_Reload); (PUT, "/shutdown/:xauth", H_Shutdown); (PUT, "/loglevel/:xauth/:value", H_LogLevel)] ++
    under "/rdb-analysis"
      [(POST, "/upload/:xauth", H_RDBUpload); (PUT, "/start/:xauth", H_RDBStart); (PUT, "/remote-fetch/:xauth", H_RDBRemoteFetch);
       (PUT, "/cancel/:xauth/:id", H_RDBCancel); (PUT, "/remove/:xauth/:id", H_RDBRemove); (GET, "/:xauth/:id", H_RDBGet)] ++
    under "/pitr"
      [(PUT, "/create/:xauth", H_PitrCreate); (GET, "/jobs/:xauth", H_PitrList); (GET, "/:xauth/:id", H_PitrGet);
       (PUT, "/cancel/:xauth/:id", H_PitrCancel); (PUT, "/remove/:xauth/:id", H_PitrRemove)] ++
    [(GET, "/acl/:xauth", H_GetACL); (PUT, "/acl/:xauth", H_SetACL); (PUT, "/acl/sync/:xauth", H_SyncACL);
     (GET, "/proxy/qps-limit/:xauth", H_GetProxyQPSLimit); (PUT, "/proxy/qps-limit/:xauth", H_SetProxyQPSLimit);
     (PUT, "/hot-key-cache/invalidate/:xauth", H_HotKeyCacheInvalidate)] ++
    under "/proxy"
      [(PUT, "/create/:xauth/:addr", H_CreateProxy); (PUT, "/online/:xauth/:addr", H_OnlineProxy);
       (PUT, "/reinit/:xauth/:token", H_ReinitProxy); (PUT, "/remove/:xauth/:token/:force", H_RemoveProxy)] ++
    under "/group" (
      [(PUT, "/create/:xauth/:gid", H_CreateGroup); (PUT, "/remove/:xauth/:gid", H_RemoveGroup); (PUT, "/resync/:xauth/:gid", H_ResyncGroup);
       (PUT, "/resync-all/:xauth", H_ResyncGroupAll); (PUT, "/add/:xauth/:gid/:addr", H_GroupAddServer);
       (PUT, "/add/:xauth/:gid/:addr/:datacenter", H_GroupAddServer); (PUT, "/del/:xauth/:gid/:addr", H_GroupDelServer);
       (PUT, "/promote/:xauth/:gid/:addr", H_GroupPromoteServer); (PUT, "/replica-groups/:xauth/:gid/:addr/:value", H_EnableReplicaGroups);
       (PUT, "/replica-groups-all/:xauth/:value", H_EnableReplicaGroupsAll)] ++
      under "/action" [(PUT, "/create/:xauth/:addr", H_SyncCreateAction); (PUT, "/remove/:xauth/:addr", H_SyncRemoveAction)] ++
      [(GET, "/info/:addr", H_InfoServer)]) ++
    under "/slots" (
      under "/action"
        [(PUT, "/create/:xauth/:sid/:gid", H_SlotCreateAction); (PUT, "/create-some/:xauth/:src/:dst/:num", H_SlotCreateActionSome);
         (PUT, "/create-range/:xauth/:beg/:end/:gid", H_SlotCreateActionRange); (PUT, "/remove/:xauth/:sid", H_SlotRemoveAction);
         (PUT, "/interval/:xauth/:value", H_SetSlotActionInterval); (PUT, "/disabled/:xauth/:value", H_SetSlotActionDisabled)] ++
      [(PUT, "/assign/:xauth", H_SlotsAssignGroup); (PUT, "/assign/:xauth/offline", H_SlotsAssignOffline);
       (PUT, "/rebalance/:xauth/:confirm", H_SlotsRebalance)]) ++
    under "/sentinels"
      [(PUT, "/add/:xauth/:addr", H_AddSentinel); (PUT, "/del/:xauth/:addr/:force", H_DelSentinel); (PUT, "/resync-all/:xauth", H_ResyncSentinels);
       (GET, "/info/:addr", H_InfoSentinel); (GET, "/info/:addr/monitored", H_InfoSentinelMonitored)]).

Definition takes (route m : http_method) : bool := bool_decide (route = ANY \/ route = m).

(** the first route that matches *)
Fixpoint find_route `{Martini} (l : list (http_method * string * api_handler)) (m : http_method) (path : bytes) : option (api_handler * params) :=
  match l with
  | [] => None
  | (m', pat, h) :: l =>
      match (if takes m' m then route_match pat path else None) with
      | Some ps => Some (h, ps)
      | None => find_route l m path
      end
  end.

(** the multiplexer of the standard library redirects a path that is not clean *)
Definition cleanPath (p : bytes) : bytes :=
  let p := if IsAbs p then p else slash :: p in
  let np := Clean p in
  if bool_decide (last p = Some slash /\ np ≠ [slash]) then np ++ [slash] else np.

(** ** Replies *)
Inductive rbody := BReply (r : reply) | BError (e : apierr) | BNone.
Definition http_response : Type := Z * rbody.
Definition ApiResponseError (e : apierr) : http_response := (800, BError e).
Definition ApiResponseJson (r : reply) : http_response := (200, BReply r).

(** a panic of a handler is recovered by martini *)
Definition respond (r : outcome apierr reply) : http_response :=
  match r with Ok v => ApiResponseJson v | Err e => ApiResponseError e | Panic => (500, BNone) end.

Section serve.
Context `{Env} `{TopomState.Config} `{UnicodeUpper} `{RBTree} `{ProxyClock} `{Sha256} `{Peers} `{RdbOutside} `{Binding} `{Martini}.
Context (ProductName : string) (model : TopomModel) (ACLPasswordHash : bytes → string) (BackendAuthPassword : string).

Definition newApiServer (rq : http_request) (w : apiworld) : http_response * apiworld :=
  match find_route routes (rq_method rq) (rq_path rq) with
  | None => ((404, BNone), w)
  | Some (h, ps) =>
      let '(r, w') := run_handler ProductName model ACLPasswordHash BackendAuthPassword h ps (rq_body rq) w in (respond r, w')
  end.
Definition serve_http (rq : http_request) (w : apiworld) : http_response * apiworld :=
  if decide (cleanPath (rq_path rq) ≠ rq_path rq) then ((301, BNone), w) else newApiServer rq w.
End serve.

(** * The client *)
Inductive clienterr := RemoteError (e : apierr) | BadStatus (code : Z).

(** the answer of [apiRequestJsonWithClient]; a reply that is not decoded is ignored *)
Definition apiRequestJson (rsp : http_response) : outcome clienterr reply :=
  if decide (rsp.1 = 200) then match rsp.2 with BReply r => Ok r | _ => Err (BadStatus 200) end
  else if decide (rsp.1 = 800 \/ rsp.1 = 1500) then match rsp.2 with BError e => Err (RemoteError e) | _ => Err (BadStatus rsp.1) end
  else Err (BadStatus rsp.1).

Definition parse_plan (plans : gmap bytes Z) : outcome clienterr (gmap Z Z) :=
  foldr (λ p r, match r, ParseInt p.1 with
                | Ok m, Ok n => Ok (<[n := p.2]> m)
                | Ok _, _ => Err (BadStatus 0)
                | r, _ => r
                end) (Ok ∅) (map_to_list plans).

Section client.
Context `{Binding} (c_xauth : string).

Definition flag (b : bool) : bytes := FormatInt (if b then 1 else 0).
Definition url (format : string) (args : list bytes) : bytes := EncodeURL format (bstr c_xauth :: args).

Definition client_Overview : http_request := ApiGetJson (EncodeURL "/topom" []).
Definition client_Model : http_request := ApiGetJson (EncodeURL "/api/topom/model" []).
Definition client_XPing : http_request := ApiGetJson (url "/api/topom/xping/%s" []).
Definition client_Stats : http_request := ApiGetJson (url "/api/topom/stats/%s" []).
Definition client_Slots : http_request := ApiGetJson (url "/api/topom/slots/%s" []).
Definition client_GetACL : http_request := ApiGetJson (url "/api/topom/acl/%s" []).
Definition client_SetACL (req : ACLUpdateRequest) : http_request := ApiPutJson (url "/api/topom/acl/%s" []) (json_acl req).
Definition client_SyncACL : http_request := ApiPutJson (url "/api/topom/acl/sync/%s" []) [].
Definition client_GetProxyQPSLimit : http_request := ApiGetJson (url "/api/topom/proxy/qps-limit/%s" []).
Definition client_SetProxyQPSLimit (limit : Z) : http_request := ApiPutJson (url "/api/topom/proxy/qps-limit/%s" []) (json_limit limit).
Definition client_Reload : http_request := ApiPutJson (url "/api/topom/reload/%s" []) [].
Definition client_LogLevel (level : Z) : http_request := ApiPutJson (url "/api/topom/loglevel/%s/%s" [bstr (level_String level)]) [].
Definition client_ShutdownTopom : http_request := ApiPutJson (url "/api/topom/shutdown/%s" []) [].
Definition client_InvalidateHotKeyCache (req : HotKeyCacheBroadcastRequest) : http_request :=
  ApiPutJson (url "/api/topom/hot-key-cache/invalidate/%s" []) (json_keys req).
Definition client_CreateProxy (addr : string) : http_request := ApiPutJson (url "/api/topom/proxy/create/%s/%s" [bstr addr]) [].
Definition client_OnlineProxy (addr : string) : http_request := ApiPutJson (url "/api/topom/proxy/online/%s/%s" [bstr addr]) [].
Definition client_ReinitProxy (token : string) : http_request := ApiPutJson (url "/api/topom/proxy/reinit/%s/%s" [bstr token]) [].
Definition client_RemoveProxy (token : string) (force : bool) : http_request :=
  ApiPutJson (url "/api/topom/proxy/remove/%s/%s/%d" [bstr token; flag force]) [].
Definition client_CreateGroup (gid : Z) : http_request := ApiPutJson (url "/api/topom/group/create/%s/%d" [FormatInt gid]) [].
Definition client_RemoveGroup (gid : Z) : http_request := ApiPutJson (url "/api/topom/group/remove/%s/%d" [FormatInt gid]) [].
Definition client_ResyncGroup (gid : Z) : http_request := ApiPutJson (url "/api/topom/group/resync/%s/%d" [FormatInt gid]) [].
Definition client_ResyncGroupAll : http_request := ApiPutJson (url "/api/topom/group/resync-all/%s" []) [].
Definition client_GroupAddServer (gid : Z) (dc addr : string) : http_request :=
  ApiPutJson (if decide (dc ≠ "") then url "/api/topom/group/add/%s/%d/%s/%s" [FormatInt gid; bstr addr; bstr dc]
              else url "/api/topom/group/add/%s/%d/%s" [FormatInt gid; bstr addr]) [].
Definition client_GroupDelServer (gid : Z) (addr : string) : http_request :=
  ApiPutJson (url "/api/topom/group/del/%s/%d/%s" [FormatInt gid; bstr addr]) [].
Definition client_GroupPromoteServer (gid : Z) (addr : string) : http_request :=
  ApiPutJson (url "/api/topom/group/promote/%s/%d/%s" [FormatInt gid; bstr addr]) [].
Definition client_EnableReplicaGroups (gid : Z) (addr : string) (value : bool) : http_request :=
  ApiPutJson (url "/api/topom/group/replica-groups/%s/%d/%s/%d" [FormatInt gid; bstr addr; flag value]) [].
Definition client_EnableReplicaGroupsAll (value : bool) : http_request :=
  ApiPutJson (url "/api/topom/group/replica-groups-all/%s/%d" [flag value]) [].
Definition client_AddSentinel (addr : string) : http_request := ApiPutJson (url "/api/topom/sentinels/add/%s/%s" [bstr addr]) [].
Definition client_DelSentinel (addr : string) (force : bool) : http_request :=
  ApiPutJson (url "/api/topom/sentinels/del/%s/%s/%d" [bstr addr; flag force]) [].
Definition client_ResyncSentinels : http_request := ApiPutJson (url "/api/topom/sentinels/resync-all/%s" []) [].
Definition client_SyncCreateAction (addr : string) : http_request := ApiPutJson (url "/api/topom/group/action/create/%s/%s" [bstr addr]) [].
Definition client_SyncRemoveAction (addr : string) : http_request := ApiPutJson (url "/api/topom/group/action/remove/%s/%s" [bstr addr]) [].
Definition client_SlotCreateAction (sid gid : Z) : http_request :=
  ApiPutJson (url "/api/topom/slots/action/create/%s/%d/%d" [FormatInt sid; FormatInt gid]) [].
Definition client_SlotCreateActionSome (groupFrom groupTo numSlots : Z) : http_request :=
  ApiPutJson (url "/api/topom/slots/action/create-some/%s/%d/%d/%d" [FormatInt groupFrom; FormatInt groupTo; FormatInt numSlots]) [].
Definition client_SlotCreateActionRange (beg end_ gid : Z) : http_request :=
  ApiPutJson (url "/api/topom/slots/action/create-range/%s/%d/%d/%d" [FormatInt beg; FormatInt end_; FormatInt gid]) [].
Definition client_SlotRemoveAction (sid : Z) : http_request := ApiPutJson (url "/api/topom/slots/action/remove/%s/%d" [FormatInt sid]) [].
Definition client_SetSlotActionInterval (usecs : Z) : http_request :=
  ApiPutJson (url "/api/topom/slots/action/interval/%s/%d" [FormatInt usecs]) [].
Definition client_SetSlotActionDisabled (disabled : bool) : http_request :=
  ApiPutJson (url "/api/topom/slots/action/disabled/%s/%d" [flag disabled]) [].
Definition client_SlotsAssignGroup (slots : list (option SlotMapping)) : http_request := ApiPutJson (url "/api/topom/slots/assign/%s" []) (json_slots slots).
Definition client_SlotsAssignOffline (slots : list (option SlotMapping)) : http_request :=
  ApiPutJson (url "/api/topom/slots/assign/%s/offline" []) (json_slots slots).
Definition client_CreatePitr (serverAddr : string) (truncateTs : Z) : http_request :=
  ApiPutJson (url "/api/topom/pitr/create/%s" []) (json_pitr (serverAddr, truncateTs)).
Definition client_ListPitr : http_request := ApiGetJson (url "/api/topom/pitr/jobs/%s" []).
Definition client_GetPitr (id : string) : http_request := ApiGetJson (url "/api/topom/pitr/%s/%s" [bstr id]).
Definition client_CancelPitr (id : string) : http_request := ApiPutJson (url "/api/topom/pitr/cancel/%s/%s" [bstr id]) [].
Definition client_RemovePitr (id : string) : http_request := ApiPutJson (url "/api/topom/pitr/remove/%s/%s" [bstr id]) [].
Definition client_StartRDBAnalysis (path : bytes) (options : RDBAnalysisOptions) : http_request :=
  ApiPutJson (url "/api/topom/rdb-analysis/start/%s" []) (json_start (path, options)).
Definition client_StartRDBAnalysisRemoteFetch (serverAddr : string) (options : RDBAnalysisOptions) : http_request :=
  ApiPutJson (url "/api/topom/rdb-analysis/remote-fetch/%s" []) (json_fetch (bstr serverAddr, options)).
Definition client_GetRDBAnalysis (id : string) : http_request := ApiGetJson (url "/api/topom/rdb-analysis/%s/%s" [bstr id]).
Definition client_CancelRDBAnalysis (id : string) : http_request := ApiPutJson (url "/api/topom/rdb-analysis/cancel/%s/%s" [bstr id]) [].
Definition client_RemoveRDBAnalysis (id : string) : http_request := ApiPutJson (url "/api/topom/rdb-analysis/remove/%s/%s" [bstr id]) [].
Definition client_SlotsRebalance (confirm : bool) : http_request := ApiPutJson (url "/api/topom/slots/rebalance/%s/%d" [flag confirm]) [].
End client.
