(* ===== verification/TopomApiTheorems.v ===== *)
(** What the API of the dashboard does (TopomApi): a call of the client is the operation it
    names, requests without the key change nothing, and whatever requests come the cluster
    stays well formed. *)

From S2P Require Import Prelude Bufio Resp RespNumbers Mapper Models TopomContext TopomState TopomCache TopomFrame TopomProxy.
From S2P Require Import TopomSlots TopomGroup TopomInv TopomRules TopomRebalance TopomSafety TopomTheorems TopomFunctional.
From S2P Require Import Router Stream Forward SessionState ClusterNodes TopomACL ACLTheorems PitrFiles RdbPaths Limiter.
From S2P Require Import BackendConn RedisClient Sentinel TopomStats TopomQPS HotKeyCache Broadcast Units PitrRun RdbAnalysis RdbManager RdbApi TopomApi.
(** * Paths *)

(** a format as a pattern: its verbs are parameters *)
Definition fmt_seg (b : bytes) : seg := match b with [x25; _] => Var "" | _ => Lit b end.
Definition fmt_ok (b : bytes) : Prop := x25 ∉ b \/ length b = 2%nat /\ head b = Some x25.
#[export] Instance fmt_ok_dec b : Decision (fmt_ok b).
Proof. unfold fmt_ok. apply _. Defined.

Lemma Sprintf_lit l f args : x25 ∉ l → Sprintf (l ++ f) args = l ++ Sprintf f args.
Proof.
  intros Hl. induction l as [|c l IH]; [done|]. apply not_elem_of_cons in Hl as [Hc Hl]. cbn [app Sprintf].
  rewrite <-(IH Hl). by destruct c.
Qed.

Lemma join_cons c x y l : join_with c (x :: y :: l) = x ++ c :: join_with c (y :: l).
Proof. done. Qed.

Lemma fill_in_length p vals : length (fill_in p vals) = length p.
Proof. revert vals. induction p as [|[] p IH]; intros vals; cbn; [done|by rewrite IH| |by rewrite IH]. destruct vals; cbn; by rewrite IH. Qed.

Lemma fmt_seg_cases s : fmt_ok s → x25 ∉ s /\ fmt_seg s = Lit s \/ ∃ v, s = [x25; v].
Proof.
  intros [Hno|[Hl Hh]].
  - left. split; [done|]. destruct s as [|a [|b [|? ?]]]; cbn; try done; destruct a; try done; exfalso; apply Hno; left.
  - right. destruct s as [|a [|b [|? ?]]]; try done. injection Hh as ->. by exists b.
Qed.

Lemma Sprintf_join ss : ∀ args, Forall fmt_ok ss → length args = length (names_of (fmt_seg <$> ss)) →
  Sprintf (join_with slash ss) args = join_with slash (fill_in (fmt_seg <$> ss) args).
Proof.
  induction ss as [|s ss IH]; intros args Hss Hlen; [done|]. inversion Hss as [|? ? Hs Hss']; subst. clear Hss.
  assert (∀ a r, length r = length ss → ∃ tail, join_with slash (a :: r) = a ++ tail /\
    tail = match ss with [] => [] | _ => slash :: join_with slash r end) as Htail.
  { intros a r Hr. destruct ss, r; try done; [exists []; by rewrite app_nil_r|]. rewrite join_cons. by eexists. }
  destruct (Htail s ss eq_refl) as (tail & -> & Ht). rewrite fmap_cons in *.
  destruct (fmt_seg_cases s Hs) as [[Hno Hf]|[v ->]].
  - rewrite Hf in *. cbn [fill_in names_of] in *. destruct (Htail s (fill_in (fmt_seg <$> ss) args)) as (tail' & -> & Ht').
    { by rewrite fill_in_length, length_fmap. }
    rewrite Sprintf_lit by done. f_equal. subst. destruct ss as [|y ss]; [done|].
    rewrite <-(IH args Hss' Hlen). done.
  - cbn [fmt_seg] in *. cbn [fill_in names_of] in *. destruct args as [|a args]; [done|]. injection Hlen as Hlen.
    destruct (Htail a (fill_in (fmt_seg <$> ss) args)) as (tail' & -> & Ht').
    { by rewrite fill_in_length, length_fmap. }
    cbn [app Sprintf]. f_equal. subst. destruct ss as [|y ss]; [done|]. rewrite <-(IH args Hss' Hlen). done.
Qed.

Definition erase (s : seg) : option bytes := match s with Lit b => Some b | _ => None end.
Lemma fill_in_erase p : ∀ q vals, Glob ∉ p → Glob ∉ q → erase <$> p = erase <$> q → fill_in p vals = fill_in q vals.
Proof.
  induction p as [|s p IH]; intros [|t q] vals Hp Hq He; try done. cbn [fmap list_fmap] in He. injection He as He1 He2.
  apply not_elem_of_cons in Hp as [Hs Hp], Hq as [Ht Hq].
  destruct s, t; try done; cbn [erase fill_in] in *; simplify_eq; [by rewrite (IH q)|]. destruct vals; by rewrite (IH q).
Qed.

Lemma line_split_end c b : split_on c (b ++ [c]) = split_on c b ++ [[]].
Proof.
  unfold split_on. induction b as [|x b IH]; cbn [app line_split]; [by rewrite decide_True|].
  destruct (line_split c (b ++ [c])) as [ls l], (line_split c b) as [ls' l'].
  assert (ls = ls' ++ [l'] /\ l = []) as [-> ->] by by apply app_inj_2 in IH as [? [= ->]].
  destruct (decide (x = c)); [done|]. by destruct ls'.
Qed.

Lemma no_slash_end segs s path : Forall (λ x, slash ∉ x) segs → last segs = Some s → s ≠ [] → join_with slash segs ≠ path ++ [slash].
Proof.
  intros Hsegs Hlast Hs He. assert (segs ≠ []) as Hne by by intros ->. pose proof (split_on_join segs Hne Hsegs) as Hj.
  rewrite He, line_split_end in Hj. by rewrite <-Hj, last_snoc in Hlast; simplify_eq.
Qed.

(** the key of a product is 32 digits *)
Definition key_long (p : string * bytes) : Prop := p.1 = "xauth" → length p.2 = 32%nat.

(** what is checked of a route and of the format of a client *)
Fixpoint overlaps (p q : list seg) : bool :=
  match p, q with
  | Glob :: _, _ => true
  | Lit b :: p, Lit s :: q => bool_decide (b = s) && overlaps p q
  | Lit b :: p, Var n :: q => bool_decide (n ≠ "xauth" \/ length b = 32%nat) && overlaps p q
  | Var _ :: p, _ :: q => overlaps p q
  | [], [] => true
  | _, _ => false
  end.
Definition lit_ok (s : seg) : bool :=
  match s with
  | Lit b => bool_decide (b ≠ [] /\ b ≠ dot /\ b ≠ dotdot /\ slash ∉ b)
  | Var _ => true
  | Glob => false
  end.
Definition route_fine (p : list seg) : bool := match p with Lit [] :: q => bool_decide (q ≠ []) && forallb lit_ok q | _ => false end.
Definition fits_route (format : string) (p : list seg) : bool :=
  let ss := split_on slash (bstr format) in
  bool_decide (join_with slash ss = bstr format) && bool_decide (Forall fmt_ok ss) && bool_decide (erase <$> (fmt_seg <$> ss) = erase <$> p) &&
  bool_decide (Glob ∉ p).
Fixpoint first_of (l : list (http_method * string * api_handler)) (m : http_method) (pat : string) (h : api_handler) : bool :=
  match l with
  | [] => false
  | (m', pat', h') :: l =>
      if decide (m' = m /\ pat' = pat /\ h' = h) then true
      else negb (takes m' m && overlaps (pattern pat') (pattern pat)) && first_of l m pat h
  end.

Lemma agrees_overlaps p : ∀ q vals, Glob ∉ q → length vals = length (names_of q) → Forall key_long (zip (names_of q) vals) →
  agrees p (fill_in q vals) → overlaps p q = true.
Proof.
  induction p as [|s p IH]; intros [|t q] vals Hq Hlen Hk Ha; try done.
  { destruct t; [done| |by apply not_elem_of_cons in Hq as [? _]]. cbn in Ha. by destruct vals. }
  { by destruct s. }
  apply not_elem_of_cons in Hq as [Ht Hq]. destruct s as [b|n|]; [| |done].
  - destruct t as [b'|n'|]; [| |done]; cbn in *; [destruct Ha as [-> Ha]; rewrite bool_decide_true by done; by apply (IH q vals)|].
    destruct vals as [|v vals]; [done|]. cbn in Ha, Hk. destruct Ha as [-> Ha]. injection Hlen as Hlen. inversion Hk as [|? ? Hv Hk']; subst.
    rewrite (IH q vals), andb_true_r by done. apply bool_decide_eq_true. destruct (decide (n' = "xauth")); [right; by apply Hv|by left].
  - destruct t as [b'|n'|]; [| |done]; cbn in *; [by apply (IH q vals)|]. destruct vals as [|v vals]; [done|]. injection Hlen as Hlen.
    inversion Hk; subst. by apply (IH q vals).
Qed.

Lemma route_ok_spec p vals : route_fine p = true → Forall url_safe vals → length vals = length (names_of p) →
  Glob ∉ p /\ ∃ cs, cs ≠ [] /\ fill_in p vals = [] :: cs /\ Forall proper cs.
Proof.
  destruct p as [|[[|? ?]|?|] p]; try done. cbn [route_fine fill_in names_of]. intros [Hne%bool_decide_eq_true Hp]%andb_true_iff Hvals Hlen.
  rewrite forallb_forall in Hp. split.
  { intros [?|Hin]%elem_of_cons; [done|]. by specialize (Hp _ ltac:(by apply list_elem_of_In)). }
  exists (fill_in p vals). split; [intros He; apply Hne; apply length_zero_iff_nil; by rewrite <-(fill_in_length p vals), He|]. split; [done|]. clear Hne.
  revert vals Hvals Hlen. induction p as [|s p IH]; intros vals Hvals Hlen; [constructor|].
  assert (∀ x, In x p → lit_ok x = true) as Hp' by (intros x Hx; apply Hp; by right). specialize (Hp s ltac:(by left)).
  destruct s as [b|n|]; [| |done]; cbn [fill_in names_of lit_ok] in *.
  - apply bool_decide_eq_true in Hp. constructor; [done|by apply IH].
  - destruct vals as [|v vals]; [done|]. inversion Hvals as [|? ? [Hv _] ?]; subst. injection Hlen as Hlen. constructor; [done|by apply IH].
Qed.

Lemma path_no_slash cs : cs ≠ [] → Forall proper cs → ∀ path, join_with slash ([] :: cs) ≠ path ++ [slash].
Proof.
  intros Hne Hcs path. destruct (exists_last Hne) as (cs' & s & Hs).
  apply (no_slash_end _ s); [constructor; [apply not_elem_of_nil|by apply proper_no_sep]|by rewrite Hs, app_comm_cons, last_snoc|].
  rewrite Hs in Hcs. apply Forall_app in Hcs as [_ Hs']. inversion Hs' as [|? ? (H1 & _)]; done.
Qed.

Lemma cleanPath_keeps cs : cs ≠ [] → Forall proper cs → cleanPath (join_with slash ([] :: cs)) = join_with slash ([] :: cs).
Proof.
  intros Hne Hcs. pose proof (path_no_slash cs Hne Hcs) as Hend. destruct cs as [|c cs]; [done|].
  change (join_with slash ([] :: c :: cs)) with (abs_path (c :: cs)) in *. unfold cleanPath.
  assert (IsAbs (abs_path (c :: cs)) = true) as -> by by apply bool_decide_true. cbv zeta. rewrite Clean_abs_path by done. rewrite bool_decide_eq_false_2; [done|].
  intros [Hl _]. apply last_Some in Hl as [path Hp]. by apply (Hend path).
Qed.

Section routing.
Context `{MartiniLaws}.

Lemma no_match pat' p cs vals : Glob ∉ p → length vals = length (names_of p) → Forall key_long (zip (names_of p) vals) → fill_in p vals = [] :: cs → cs ≠ [] → Forall proper cs → overlaps (pattern pat') p = false →
  route_match pat' (join_with slash (fill_in p vals)) = None.
Proof.
  intros Hg Hlen Hk Hfill Hne Hcs Ho. destruct (route_match _ _) as [ps|] eqn:Hm; [|done]. exfalso.
  apply match_literal in Hm as [Ha|(path & He & _)].
  - rewrite Hfill, split_on_join in Ha by (done || (constructor; [apply not_elem_of_nil|by apply proper_no_sep])). rewrite <-Hfill in Ha.
    apply agrees_overlaps in Ha; [|done..]. congruence.
  - rewrite Hfill in He. by apply (path_no_slash cs Hne Hcs path).
Qed.

Lemma find_first l m pat h vals : m ≠ ANY → first_of l m pat h = true → route_fine (pattern pat) = true →
  Forall url_safe vals → length vals = length (names_of (pattern pat)) → Forall key_long (zip (names_of (pattern pat)) vals) →
  find_route l m (join_with slash (fill_in (pattern pat) vals)) = Some (h, zip (names_of (pattern pat)) (string_of_bytes <$> vals)).
Proof.
  intros Hm Hl Hr Hvals Hlen Hk. destruct (route_ok_spec _ vals Hr Hvals Hlen) as (Hg & cs & Hne & Hfill & Hcs).
  induction l as [|[[m' pat'] h'] l IH]; [done|]. cbn [first_of find_route] in *. destruct (decide _) as [(-> & -> & ->)|].
  - unfold takes. rewrite bool_decide_true by by right. by rewrite match_named.
  - apply andb_true_iff in Hl as [Ho%negb_true_iff Hl]. destruct (takes m' m); [|by apply IH].
    rewrite (no_match pat' _ cs vals) by done. by apply IH.
Qed.
End routing.

Lemma EncodeURL_fill format p args : fits_route format p = true → length args = length (names_of p) →
  EncodeURL format args = join_with slash (fill_in p args).
Proof.
  intros [[[H1%bool_decide_eq_true H2%bool_decide_eq_true]%andb_true_iff H3%bool_decide_eq_true]%andb_true_iff H4%bool_decide_eq_true]%andb_true_iff Hlen.
  assert (Glob ∉ fmt_seg <$> split_on slash (bstr format)) as Hg.
  { intros (s & Hs & _)%list_elem_of_fmap. by destruct s as [|[] [|? [|? ?]]]. }
  unfold EncodeURL. rewrite <-H1, Sprintf_join; [by rewrite (fill_in_erase _ p)|done|]. rewrite Hlen. clear -H3 Hg H4. revert p H3 H4.
  generalize dependent (fmt_seg <$> split_on slash (bstr format)). induction l as [|s l IH]; intros Hg [|t p] He Hp; try done.
  cbn [fmap list_fmap] in He. injection He as He1 He2. apply not_elem_of_cons in Hg as [? ?], Hp as [? ?].
  destruct s, t; try done; cbn; [|f_equal]; by apply IH.
Qed.

(** * Values in a path *)
Definition plain (c : byte) : bool := bool_decide (c ≠ x2e /\ c ≠ slash /\ c ≠ x23 /\ c ≠ x3f).
Lemma plain_safe b : b ≠ [] → Forall (λ c, plain c = true) b → url_safe b.
Proof.
  intros Hne Hb. rewrite Forall_forall in Hb.
  assert (∀ c, plain c = false → c ∉ b) as Hno by (intros c Hc Hin; specialize (Hb c Hin); congruence).
  assert (x2e ∉ b) as Hdot by by apply Hno. split; [|split; by apply Hno].
  split; [done|]. split; [intros ->; apply Hdot; left|]. split; [intros ->; apply Hdot; left|]. by apply Hno.
Qed.

Lemma FormatInt_safe n : - 2 ^ 63 <= n < 2 ^ 63 → url_safe (FormatInt n).
Proof.
  intros Hn. destruct (format_sign n Hn) as (ds & -> & Hne & Hds & _). apply plain_safe; [by destruct (bool_decide _)|].
  assert (Forall (λ c, plain c = true) ds) as Hp.
  { eapply Forall_impl; [exact Hds|]. intros c Hc. destruct c; try done; by vm_compute in Hc. }
  destruct (bool_decide _); [|done]. by constructor.
Qed.

Lemma flag_safe b : url_safe (flag b).
Proof. unfold flag. destruct b; apply FormatInt_safe; lia. Qed.

Lemma hex_plain b : Forall (λ c, plain c = true) (hex b).
Proof.
  induction b as [|c b IH]; [constructor|]. change (hex (c :: b)) with ([hex_digit (Byte.to_N c / 16); hex_digit (Byte.to_N c mod 16)]%N ++ hex b).
  apply Forall_app. split; [|done]. clear. constructor; [by destruct c|]. constructor; [by destruct c|constructor].
Qed.

Lemma hex_length b : length (hex b) = (2 * length b)%nat.
Proof. unfold hex. induction b as [|c b IH]; [done|]. cbn [fmap list_fmap concat app length] in *. rewrite IH. lia. Qed.
Lemma XAuth_length `{Sha256Laws} name : length (bstr (XAuth name)) = 32%nat.
Proof. unfold XAuth, NewXAuth. rewrite bstr_of_bytes, hex_length, length_take, sha256_length. done. Qed.

Lemma XAuth_safe `{Sha256Laws} name : url_safe (bstr (XAuth name)).
Proof.
  unfold XAuth, NewXAuth. rewrite bstr_of_bytes. apply plain_safe; [|apply hex_plain].
  generalize (bstr "Codis-XAuth" ++ concat ((λ s, bstr "-[" ++ bstr s ++ bstr "]") <$> [name])). intros b.
  pose proof (sha256_length b). by destruct (sha256 b).
Qed.

Lemma safe_nonempty s : url_safe (bstr s) → s ≠ "".
Proof. by intros [(Hne & _) _] ->. Qed.

(** * Calls of the client *)
Inductive api_call :=
| C_Overview | C_Model | C_XPing | C_Stats | C_Slots | C_GetACL | C_SetACL (req : ACLUpdateRequest) | C_SyncACL
| C_GetProxyQPSLimit | C_SetProxyQPSLimit (limit : Z) | C_Reload | C_LogLevel (level : Z) | C_Shutdown | C_InvalidateHotKeyCache (req : HotKeyCacheBroadcastRequest)
| C_CreateProxy (addr : string) | C_OnlineProxy (addr : string) | C_ReinitProxy (token : string) | C_RemoveProxy (token : string) (force : bool)
| C_CreateGroup (gid : Z) | C_RemoveGroup (gid : Z) | C_ResyncGroup (gid : Z) | C_ResyncGroupAll
| C_GroupAddServer (gid : Z) (dc addr : string) | C_GroupDelServer (gid : Z) (addr : string) | C_GroupPromoteServer (gid : Z) (addr : string)
| C_EnableReplicaGroups (gid : Z) (addr : string) (value : bool) | C_EnableReplicaGroupsAll (value : bool)
| C_AddSentinel (addr : string) | C_DelSentinel (addr : string) (force : bool) | C_ResyncSentinels
| C_SyncCreateAction (addr : string) | C_SyncRemoveAction (addr : string)
| C_SlotCreateAction (sid gid : Z) | C_SlotCreateActionSome (from to n : Z) | C_SlotCreateActionRange (beg end_ gid : Z) | C_SlotRemoveAction (sid : Z)
| C_SetSlotActionInterval (usecs : Z) | C_SetSlotActionDisabled (disabled : bool)
| C_SlotsAssignGroup (slots : list (option SlotMapping)) | C_SlotsAssignOffline (slots : list (option SlotMapping)) | C_SlotsRebalance (confirm : bool)
| C_CreatePitr (serverAddr : string) (truncateTs : Z) | C_ListPitr | C_GetPitr (id : string) | C_CancelPitr (id : string) | C_RemovePitr (id : string)
| C_StartRDBAnalysis (path : bytes) (options : RDBAnalysisOptions) | C_StartRDBAnalysisRemoteFetch (serverAddr : string) (options : RDBAnalysisOptions)
| C_GetRDBAnalysis (id : string) | C_CancelRDBAnalysis (id : string) | C_RemoveRDBAnalysis (id : string).

Definition request_of `{Binding} (x : string) (c : api_call) : http_request :=
  match c with
  | C_Overview => client_Overview
  | C_Model => client_Model
  | C_XPing => client_XPing x
  | C_Stats => client_Stats x
  | C_Slots => client_Slots x
  | C_GetACL => client_GetACL x
  | C_SetACL req => client_SetACL x req
  | C_SyncACL => client_SyncACL x
  | C_GetProxyQPSLimit => client_GetProxyQPSLimit x
  | C_SetProxyQPSLimit limit => client_SetProxyQPSLimit x limit
  | C_Reload => client_Reload x
  | C_LogLevel l => client_LogLevel x l
  | C_Shutdown => client_ShutdownTopom x
  | C_InvalidateHotKeyCache req => client_InvalidateHotKeyCache x req
  | C_CreateProxy addr => client_CreateProxy x addr
  | C_OnlineProxy addr => client_OnlineProxy x addr
  | C_ReinitProxy token => client_ReinitProxy x token
  | C_RemoveProxy token force => client_RemoveProxy x token force
  | C_CreateGroup gid => client_CreateGroup x gid
  | C_RemoveGroup gid => client_RemoveGroup x gid
  | C_ResyncGroup gid => client_ResyncGroup x gid
  | C_ResyncGroupAll => client_ResyncGroupAll x
  | C_GroupAddServer gid dc addr => client_GroupAddServer x gid dc addr
  | C_GroupDelServer gid addr => client_GroupDelServer x gid addr
  | C_GroupPromoteServer gid addr => client_GroupPromoteServer x gid addr
  | C_EnableReplicaGroups gid addr value => client_EnableReplicaGroups x gid addr value
  | C_EnableReplicaGroupsAll value => client_EnableReplicaGroupsAll x value
  | C_AddSentinel addr => client_AddSentinel x addr
  | C_DelSentinel addr force => client_DelSentinel x addr force
  | C_ResyncSentinels => client_ResyncSentinels x
  | C_SyncCreateAction addr => client_SyncCreateAction x addr
  | C_SyncRemoveAction addr => client_SyncRemoveAction x addr
  | C_SlotCreateAction sid gid => client_SlotCreateAction x sid gid
  | C_SlotCreateActionSome from to n => client_SlotCreateActionSome x from to n
  | C_SlotCreateActionRange beg end_ gid => client_SlotCreateActionRange x beg end_ gid
  | C_SlotRemoveAction sid => client_SlotRemoveAction x sid
  | C_SetSlotActionInterval usecs => client_SetSlotActionInterval x usecs
  | C_SetSlotActionDisabled disabled => client_SetSlotActionDisabled x disabled
  | C_SlotsAssignGroup slots => client_SlotsAssignGroup x slots
  | C_SlotsAssignOffline slots => client_SlotsAssignOffline x slots
  | C_SlotsRebalance confirm => client_SlotsRebalance x confirm
  | C_CreatePitr addr ts => client_CreatePitr x addr ts
  | C_ListPitr => client_ListPitr x
  | C_GetPitr id => client_GetPitr x id
  | C_CancelPitr id => client_CancelPitr x id
  | C_RemovePitr id => client_RemovePitr x id
  | C_StartRDBAnalysis path o => client_StartRDBAnalysis x path o
  | C_StartRDBAnalysisRemoteFetch addr o => client_StartRDBAnalysisRemoteFetch x addr o
  | C_GetRDBAnalysis id => client_GetRDBAnalysis x id
  | C_CancelRDBAnalysis id => client_CancelRDBAnalysis x id
  | C_RemoveRDBAnalysis id => client_RemoveRDBAnalysis x id
  end.

(** the arguments that survive the path of a URL, and the encoding of a body *)
Definition text_ok (s : string) : Prop := url_safe (bstr s).
Definition call_ok (c : api_call) : Prop :=
  match c with
  | C_LogLevel l => l ∈ [LevelNone; LevelError; LevelWarn; LevelInfo; LevelDebug]
  | C_CreateProxy s | C_OnlineProxy s | C_ReinitProxy s | C_RemoveProxy s _ | C_AddSentinel s | C_DelSentinel s _ | C_SyncCreateAction s | C_SyncRemoveAction s => text_ok s
  | C_CreateGroup n | C_RemoveGroup n | C_ResyncGroup n | C_SlotRemoveAction n | C_SetSlotActionInterval n => int64 n
  | C_GroupAddServer n dc s => int64 n /\ text_ok s /\ (dc = "" \/ text_ok dc)
  | C_GroupDelServer n s | C_GroupPromoteServer n s | C_EnableReplicaGroups n s _ => int64 n /\ text_ok s
  | C_SlotCreateAction a b => int64 a /\ int64 b
  | C_SlotCreateActionSome a b c | C_SlotCreateActionRange a b c => int64 a /\ int64 b /\ int64 c
  | C_SetACL req => json_update req
  | C_SetProxyQPSLimit n => int64 n
  | C_InvalidateHotKeyCache req => json_keyset req
  | C_SlotsAssignGroup l | C_SlotsAssignOffline l => json_slot_list l
  | C_CreatePitr addr ts => utf8 addr /\ int64 ts
  | C_GetPitr id | C_CancelPitr id | C_RemovePitr id | C_GetRDBAnalysis id | C_CancelRDBAnalysis id | C_RemoveRDBAnalysis id => text_ok id
  | C_StartRDBAnalysis path o => valid_utf8 path = true /\ json_options o
  | C_StartRDBAnalysisRemoteFetch addr o => utf8 addr /\ json_options o
  | _ => True
  end.

Section faithful.
Context `{Env} `{TopomState.Config} `{UnicodeUpper} `{RBTree} `{ProxyClock} `{Sha256Laws} `{Peers} `{RdbOutside} `{BindingLaws} `{MartiniLaws}.
Context (ProductName : string) (model : TopomModel) (ACLPasswordHash : bytes → string) (BackendAuthPassword : string).
Local Abbreviation XA := (XAuth ProductName).
Local Abbreviation handling := (run_handler ProductName model ACLPasswordHash BackendAuthPassword).
Local Abbreviation serve := (serve_http ProductName model ACLPasswordHash BackendAuthPassword).

(** what a call stands for *)
Definition perform_op (o : op) : AP reply := replies_ok (on_topom (run_op o)).
Definition perform_call (c : api_call) : AP reply :=
  match c with
  | C_Overview => handle_Overview model
  | C_Model => mret (RModel model)
  | C_XPing => mret ROk
  | C_Stats => handle_StatsNoXAuth
  | C_Slots => slots ← on_topom Slots; mret (RSlots slots)
  | C_GetACL => view ← on_acl GetACL; mret (RACL view)
  | C_SetACL req => view ← on_acl (UpdateACL ACLPasswordHash BackendAuthPassword (Some req)); mret (RACL view)
  | C_SyncACL => view ← on_acl (SyncACL ACLPasswordHash BackendAuthPassword); mret (RACL view)
  | C_GetProxyQPSLimit => alive ← ask_peer out_alive; view ← on_qps (GetProxyQPSLimit alive); mret (RLimit view)
  | C_SetProxyQPSLimit limit => view ← on_qps (UpdateProxyQPSLimit (Some limit)); mret (RLimit view)
  | C_Reload => perform_op OpReload
  | C_LogLevel l => modify (ap_set_level l) ;; mret ROk
  | C_Shutdown => perform_op OpClose
  | C_InvalidateHotKeyCache req => invalidate_keys req
  | C_CreateProxy addr => perform_op (OpCreateProxy addr)
  | C_OnlineProxy addr => perform_op (OpOnlineProxy addr)
  | C_ReinitProxy token => perform_op (OpReinitProxy token)
  | C_RemoveProxy token force => perform_op (OpRemoveProxy token force)
  | C_CreateGroup gid => perform_op (OpCreateGroup gid)
  | C_RemoveGroup gid => perform_op (OpRemoveGroup gid)
  | C_ResyncGroup gid => perform_op (OpResyncGroup gid)
  | C_ResyncGroupAll => perform_op OpResyncGroupAll
  | C_GroupAddServer gid dc addr => check_server addr ;; perform_op (OpGroupAddServer gid dc addr)
  | C_GroupDelServer gid addr => perform_op (OpGroupDelServer gid addr)
  | C_GroupPromoteServer gid addr => perform_op (OpGroupPromoteServer gid addr)
  | C_EnableReplicaGroups gid addr value => perform_op (OpEnableReplicaGroups gid addr value)
  | C_EnableReplicaGroupsAll value => perform_op (OpEnableReplicaGroupsAll value)
  | C_AddSentinel addr => perform_op (OpAddSentinel addr)
  | C_DelSentinel addr force => perform_op (OpDelSentinel addr force)
  | C_ResyncSentinels => perform_op OpResyncSentinels
  | C_SyncCreateAction addr => perform_op (OpSyncCreateAction addr)
  | C_SyncRemoveAction addr => perform_op (OpSyncRemoveAction addr)
  | C_SlotCreateAction sid gid => perform_op (OpSlotCreateAction sid gid)
  | C_SlotCreateActionSome from to n => perform_op (OpSlotCreateActionSome from to n)
  | C_SlotCreateActionRange beg end_ gid => perform_op (OpSlotCreateActionRange beg end_ gid true)
  | C_SlotRemoveAction sid => perform_op (OpSlotRemoveAction sid)
  | C_SetSlotActionInterval usecs => perform_op (OpSetSlotActionInterval usecs)
  | C_SetSlotActionDisabled disabled => perform_op (OpSetSlotActionDisabled disabled)
  | C_SlotsAssignGroup slots => perform_op (OpSlotsAssignGroup slots)
  | C_SlotsAssignOffline slots => perform_op (OpSlotsAssignOffline slots)
  | C_SlotsRebalance confirm => plans ← on_topom (SlotsRebalance confirm); mret (RPlan (print_plan plans))
  | C_CreatePitr addr ts => create_pitr ProductName (Some (addr, ts))
  | C_ListPitr => l ← on_pitr (PitrList out_range_pitr true); mret (RPitrJobs l)
  | C_GetPitr id => j ← on_pitr (PitrGet true id); mret (RPitrJob j)
  | C_CancelPitr id => replies_ok (on_pitr (PitrCancel true id))
  | C_RemovePitr id => replies_ok (on_pitr (PitrRemove true id))
  | C_StartRDBAnalysis path o => rdb_start (Some (path, o))
  | C_StartRDBAnalysisRemoteFetch addr o => rdb_remote_fetch (Some (bstr addr, o))
  | C_GetRDBAnalysis id => rdb_get id
  | C_CancelRDBAnalysis id => rdb_cancel id
  | C_RemoveRDBAnalysis id => rdb_remove id
  end.

(** the routes of a call, checked by computation *)
Definition checked (m : http_method) (format pat : string) (names : list string) (h : api_handler) : bool :=
  bool_decide (m ≠ ANY) && first_of routes m pat h && route_fine (pattern pat) && fits_route format (pattern pat) && bool_decide (names_of (pattern pat) = names).

Lemma served m format pat names h args body w : checked m format pat names h = true →
  Forall url_safe args → length args = length names → Forall key_long (zip names args) →
  serve (mkHttp m (EncodeURL format args) body) w =
    let '(r, w') := handling h (zip names (string_of_bytes <$> args)) body w in (respond r, w').
Proof.
  intros [[[[Hm%bool_decide_eq_true K1]%andb_true_iff K2]%andb_true_iff K3]%andb_true_iff K4%bool_decide_eq_true]%andb_true_iff Hargs Hlen Hk.
  rewrite <-K4 in *. rewrite (EncodeURL_fill format (pattern pat)) by done.
  unfold serve_http, newApiServer. cbn [rq_path rq_method rq_body].
  destruct (route_ok_spec _ args K2 Hargs Hlen) as (_ & cs & Hne & Hfill & Hcs).
  rewrite Hfill, decide_False by (intros Hx; by apply Hx, cleanPath_keeps). rewrite <-Hfill. by rewrite (find_first _ _ pat h).
Qed.

(** ** The handlers on the parameters of a call *)
Lemma verify_bind {A} ps (m : AP A) w : param "xauth" ps = XA → w_closed (ap_topom w) = false →
  (topom_verifyXAuth ProductName ps ;; m) w = m w.
Proof.
  intros Hx Hc. unfold topom_verifyXAuth, mbind, M_bind, gets. rewrite Hc, Hx.
  rewrite decide_False by apply safe_nonempty, XAuth_safe. by rewrite decide_False by (intros Hn; by apply Hn).
Qed.
Lemma addr_bind {A} ps a (k : string → AP A) w : param "addr" ps = a → text_ok a → (parseAddr ps ≫= k) w = k a w.
Proof. intros Ha Hok. unfold parseAddr. rewrite Ha, decide_False by by apply safe_nonempty. done. Qed.
Lemma token_bind {A} ps a (k : string → AP A) w : param "token" ps = a → text_ok a → (parseToken ps ≫= k) w = k a w.
Proof. intros Ha Hok. unfold parseToken. rewrite Ha, decide_False by by apply safe_nonempty. done. Qed.
Lemma int_bind {A} ps e n (k : Z → AP A) w : param e ps = string_of_bytes (FormatInt n) → int64 n → (parseInteger ps e ≫= k) w = k n w.
Proof.
  intros Hp Hn. unfold parseInteger. rewrite Hp, bstr_of_bytes, parse_format by done.
  rewrite decide_False; [done|]. apply safe_nonempty. rewrite bstr_of_bytes. by apply FormatInt_safe.
Qed.
Lemma flag_bind {A} ps e (b : bool) (k : Z → AP A) w : param e ps = string_of_bytes (flag b) →
  (parseInteger ps e ≫= k) w = k (if b then 1 else 0) w.
Proof. intros Hp. apply int_bind; [done|]. unfold int64. by destruct b. Qed.
Lemma nonzero_flag (b : bool) : nonzero (if b then 1 else 0) = b.
Proof. by destruct b. Qed.

(** the route of a format *)
Definition route_for (m : http_method) (format : string) : option (string * api_handler) :=
  match List.find (λ '(m', pat, h), bool_decide (m' = m) && fits_route format (pattern pat)) routes with
  | Some (_, pat, h) => Some (pat, h)
  | None => None
  end.

Ltac safe_args := repeat (apply Forall_cons; split); try apply Forall_nil; eauto using XAuth_safe, FormatInt_safe, flag_safe.
Ltac safe_keys := cbn [zip_with]; repeat (apply Forall_cons; split); try exact (Forall_nil_2 _); intros Hname; first [apply XAuth_length | by vm_compute in Hname].
Ltac routed :=
  match goal with
  | |- serve_http _ _ _ _ (mkHttp ?m (EncodeURL ?f _) _) _ = _ =>
      let r := eval vm_compute in (route_for m f) in
      match r with
      | Some (?pat, ?h) =>
          let names := eval vm_compute in (names_of (pattern pat)) in
          rewrite (served _ _ pat names h); [|vm_compute; reflexivity|safe_args|reflexivity|safe_keys]
      end
  end;
  cbn [zip zip_with fmap list_fmap run_handler]; rewrite ?of_bytes_bstr.
Ltac handled :=
  rewrite ?verify_bind by done;
  repeat first [rewrite (addr_bind _ _ _ _ eq_refl) by done | rewrite (token_bind _ _ _ _ eq_refl) by done
               | erewrite flag_bind; [|reflexivity] | erewrite int_bind; [|reflexivity|done]];
  rewrite ?nonzero_flag, ?bind_json_acl, ?bind_json_limit, ?bind_json_keys, ?bind_json_slots, ?decode_json_pitr, ?decode_json_start, ?decode_json_fetch by done; try done.
Ltac open_handler :=
  cbv delta [
    handle_Overview handle_Model handle_StatsNoXAuth handle_SlotsNoXAuth handle_XPing handle_GetACL handle_SetACL handle_SyncACL
    handle_GetProxyQPSLimit handle_SetProxyQPSLimit handle_Stats handle_Slots handle_Reload handle_HotKeyCacheInvalidate
    handle_CreateProxy handle_OnlineProxy handle_ReinitProxy handle_RemoveProxy handle_CreateGroup handle_RemoveGroup
    handle_ResyncGroup handle_ResyncGroupAll handle_GroupAddServer handle_GroupDelServer handle_GroupPromoteServer
    handle_EnableReplicaGroups handle_EnableReplicaGroupsAll handle_AddSentinel handle_DelSentinel handle_ResyncSentinels
    handle_InfoServer handle_InfoSentinel handle_InfoSentinelMonitored handle_SyncCreateAction handle_SyncRemoveAction
    handle_SlotCreateAction handle_SlotCreateActionSome handle_SlotCreateActionRange handle_SlotRemoveAction handle_LogLevel
    handle_Shutdown handle_SetSlotActionInterval handle_SetSlotActionDisabled handle_SlotsAssignGroup handle_SlotsAssignOffline
    handle_SlotsRebalance handle_RDBUpload handle_RDBStart handle_RDBRemoteFetch handle_RDBGet handle_RDBCancel handle_RDBRemove
    handle_PitrCreate handle_PitrList handle_PitrGet handle_PitrCancel handle_PitrRemove] beta.
Ltac call_by_call :=
  cbv delta [request_of call_ok
    client_Overview client_Model client_XPing client_Stats client_Slots client_GetACL client_SetACL client_SyncACL
    client_GetProxyQPSLimit client_SetProxyQPSLimit client_Reload client_LogLevel client_ShutdownTopom client_InvalidateHotKeyCache
    client_CreateProxy client_OnlineProxy client_ReinitProxy client_RemoveProxy client_CreateGroup client_RemoveGroup
    client_ResyncGroup client_ResyncGroupAll client_GroupAddServer client_GroupDelServer client_GroupPromoteServer
    client_EnableReplicaGroups client_EnableReplicaGroupsAll client_AddSentinel client_DelSentinel client_ResyncSentinels
    client_SyncCreateAction client_SyncRemoveAction client_SlotCreateAction client_SlotCreateActionSome
    client_SlotCreateActionRange client_SlotRemoveAction client_SetSlotActionInterval client_SetSlotActionDisabled
    client_SlotsAssignGroup client_SlotsAssignOffline client_SlotsRebalance client_CreatePitr client_ListPitr client_GetPitr client_CancelPitr
    client_RemovePitr client_StartRDBAnalysis client_StartRDBAnalysisRemoteFetch client_GetRDBAnalysis client_CancelRDBAnalysis
    client_RemoveRDBAnalysis] beta iota; unfold url, ApiPutJson, ApiGetJson; intros Hok Hc; destruct_and?;
  routed;
  open_handler;
  handled.

Lemma level_parsed l : l ∈ [LevelNone; LevelError; LevelWarn; LevelInfo; LevelDebug] →
  text_ok (level_String l) /\ ParseFromString (level_String l) = Some l.
Proof.
  rewrite !elem_of_cons, elem_of_nil. intros [->|[->|[->|[->|[->|[]]]]]]; (split; [|reflexivity]);
    (apply plain_safe; [done|by repeat constructor]).
Qed.

Lemma serve_call c w : call_ok c → w_closed (ap_topom w) = false →
  serve (request_of XA c) w = let '(r, w') := perform_call c w in (respond r, w').
Proof.
  destruct c; try solve [call_by_call].
  - call_by_call. unfold replies_ok. handled.
  - cbn [call_ok]. intros [Hl Hp]%level_parsed. revert Hl. call_by_call. cbv zeta.
    change (param "value" _) with (level_String level). rewrite decide_False by by apply safe_nonempty. by rewrite Hp.
  - cbn [call_ok request_of client_GroupAddServer]. unfold client_GroupAddServer. destruct (decide (dc ≠ "")) as [Hdc|Hdc].
    + intros (Hg & Ha & [?|Hd]); [done|]. assert (True) as Ht by done. revert Ht. call_by_call.
    + assert (dc = "") as -> by (destruct (decide (dc = "")); tauto). intros (Hg & Ha & _). assert (True) as Ht by done. revert Ht. call_by_call.
Qed.

(** ** Calls *)
Definition client_view (r : outcome apierr reply) : outcome clienterr reply :=
  match r with Ok v => Ok v | Err e => Err (RemoteError e) | Panic => Err (BadStatus 500) end.
Lemma client_respond r : apiRequestJson (respond r) = client_view r.
Proof. by destruct r. Qed.


(** ** Requests without the key *)
Context `{!EnvLaws}.

Definition unchanged (w w' : apiworld) : Prop :=
  same_outside (ap_topom w) (ap_topom w') /\ ap_acl w' = ap_acl w /\ ap_limits w' = ap_limits w /\ ap_caches w' = ap_caches w /\ ap_level w' = ap_level w /\
  ap_pitr w' = ap_pitr w /\ ap_rdb w' = ap_rdb w /\
  sw_servers (ap_stats w') = sw_servers (ap_stats w) /\ sw_proxies (ap_stats w') = sw_proxies (ap_stats w).
Lemma unchanged_refl w : unchanged w w.
Proof. by repeat split. Qed.

Lemma refused {A} ps (m : AP A) w : param "xauth" ps ≠ XA → (topom_verifyXAuth ProductName ps ;; m) w = (Err (if w_closed (ap_topom w) then AClosed else if decide (param "xauth" ps = "") then AMissingXAuth else AInvalidXAuth), w).
Proof.
  intros Hx. unfold topom_verifyXAuth, mbind, M_bind, gets. destruct (w_closed _); [done|]. destruct (decide (param "xauth" ps = "")); [done|].
  by rewrite decide_True.
Qed.

Lemma reads_only {A} (k : context → T A) t : coh [] t → (∀ ctx t', (k ctx t').2 = t') → same_outside t ((newContext ≫= k) t).2.
Proof.
  intros Hc Hk. assert (wp (newContext ≫= k) (λ _ t', same_outside t t') t) as Hw; [|unfold wp in Hw; by destruct ((newContext ≫= k) t)].
  apply wp_bind, newContext_wp; [done|..]; [|done]. intros t' _ Hs _ _ _. unfold wp. specialize (Hk (ctx_db (w_db t) (w_hosts t')) t').
  destruct (k _ t') as [r t'']. cbn in Hk. by subst.
Qed.

Lemma unguarded h ps body w : coh [] (ap_topom w) → h ∈ [H_Overview; H_StatsNoXAuth; H_SlotsNoXAuth] → unchanged w (handling h ps body w).2.
Proof.
  intros Hc Hh. assert (same_outside (ap_topom w) (newContext (ap_topom w)).2) as Hn.
  { replace (newContext (ap_topom w)).2 with ((newContext ≫= (λ ctx, mret ctx)) (ap_topom w)).2; [by apply reads_only|].
    unfold mbind, M_bind. by destruct (newContext (ap_topom w)) as [[]]. }
  assert (∀ m : TStats → reply, unchanged w ((on_stats Stats ≫= λ s, mret (m s)) w).2) as Hst.
  { intros m. unfold on_stats, Stats, dashboard, mbind, M_bind. destruct (newContext (sw_world (ap_stats w))) as [r t] eqn:Hr.
    unfold ap_topom in Hn. rewrite Hr in Hn. destruct r; by repeat split; apply Hn. }
  rewrite !elem_of_cons, elem_of_nil in Hh. destruct Hh as [->|[->|[->|[]]]]; [apply Hst|apply Hst|].
  cbn [run_handler]. unfold handle_SlotsNoXAuth, on_topom, mbind at 1, M_bind at 1.
  pose proof (reads_only (λ ctx, lift (toSlotSlice ctx (ctx_slots ctx) None)) (ap_topom w) Hc ltac:(done)) as Hs.
  change (newContext ≫= _) with Slots in Hs. destruct (Slots (ap_topom w)) as [[] t]; by repeat split; apply Hs.
Qed.

Lemma asks_only {A} ps (answer : nat → string → option A) (m : A → reply) w :
  unchanged w ((addr ← parseAddr ps; info ← ask_peer answer; match info addr with Some x => mret (m x) | None => fail (ARedis addr) end) w).2.
Proof. unfold parseAddr, ask_peer, mbind, M_bind. destruct (decide _); [by repeat split|]. cbn. by destruct (answer _ _); repeat split. Qed.

(** C35: a request that does not carry the key of the product changes nothing at the
    dashboard: not the store, not what the proxies were told, no setting, no job; it may read the
    overview, the statistics and the slots, and have servers asked for their INFO. *)
Theorem api_guarded S rq w : reach S (ap_topom w) →
  (∀ h ps, find_route routes (rq_method rq) (rq_path rq) = Some (h, ps) → param "xauth" ps ≠ XA) →
  unchanged w (serve rq w).2.
Proof.
  intros [Hc _ _ _]%reach_Inv Hx. unfold serve_http, newApiServer. destruct (decide _); [apply unchanged_refl|].
  destruct (find_route _ _ _) as [[h ps]|]; [|apply unchanged_refl]. specialize (Hx h ps eq_refl).
  assert (unchanged w (handling h ps (rq_body rq) w).2) as Hu; [|by destruct (handling h ps (rq_body rq) w)].
  destruct (decide (h ∈ [H_Overview; H_StatsNoXAuth; H_SlotsNoXAuth])) as [Hh|Hh]; [by apply unguarded|].
  rewrite !elem_of_cons in Hh. destruct h; try (exfalso; tauto); clear Hh; cbn [run_handler]; try apply unchanged_refl; open_handler;
    unfold replies_ok; try (rewrite refused by done; apply unchanged_refl); by apply asks_only.
Qed.
End faithful.

(** ** The plan of a rebalancing comes back as it was *)
Lemma parse_fold (l : list (bytes * Z)) : (∀ p, p ∈ l → ∃ n, ParseInt p.1 = Ok n) →
  foldr (λ p r, match r, ParseInt p.1 with Ok m, Ok n => Ok (<[n := p.2]> m) | Ok _, _ => Err (BadStatus 0) | r, _ => r end) (Ok ∅) l
  = @Ok clienterr (gmap Z Z) (list_to_map ((λ p : bytes * Z, (match ParseInt p.1 with Ok n => n | _ => 0 end, p.2)) <$> l)).
Proof.
  induction l as [|p l IH]; intros Hl; [done|]. cbn [foldr fmap list_fmap list_to_map]. rewrite IH by (intros; apply Hl; by right).
  destruct (Hl p) as [n Hn]; [by left|]. by rewrite Hn.
Qed.

Lemma FormatInt_inj n m : int64 n → int64 m → FormatInt n = FormatInt m → n = m.
Proof. intros Hn Hm He. assert (@Ok resperr Z n = Ok m) as [= ?]; [|done]. by rewrite <-(parse_format n), <-(parse_format m), He. Qed.

Lemma print_fold (l : list (Z * Z)) : (∀ p, p ∈ l → int64 p.1) → NoDup l.*1 →
  ∀ k v, (foldr (λ p m, <[FormatInt p.1 := p.2]> m) ∅ l : gmap bytes Z) !! k = Some v ↔ ∃ n, k = FormatInt n /\ (n, v) ∈ l.
Proof.
  induction l as [|[n0 v0] l IH]; intros Hl Hnd k v; [split; [done|]; by intros (? & _ & ?%not_elem_of_nil)|].
  cbn in Hnd. apply NoDup_cons in Hnd as [Hn0 Hnd]. cbn [foldr fst snd]. rewrite lookup_insert_Some, IH by (done || (intros; apply Hl; by right)). split.
  - intros [[<- <-]|(_ & n & -> & Hin)]; [exists n0; split; [done|left]|exists n; split; [done|by right]].
  - intros (n & -> & [[= -> ->]|Hin]%elem_of_cons); [by left|]. right. split; [|by exists n].
    intros He%FormatInt_inj; [|apply (Hl (n0, v0)); by left|apply (Hl (n, v)); by right]. subst. apply Hn0, list_elem_of_fmap. by exists (n, v).
Qed.

Lemma parse_print_plan plans : (∀ sid, is_Some (plans !! sid) → int64 sid) → parse_plan (print_plan plans) = Ok plans.
Proof.
  intros Hr. assert (∀ n v, plans !! n = Some v → ParseInt (FormatInt n) = Ok n) as Hparse by (intros n v Hn; apply parse_format, Hr; by eexists).
  assert (∀ k v, print_plan plans !! k = Some v ↔ ∃ n, k = FormatInt n /\ plans !! n = Some v) as Hp.
  { intros k v. unfold print_plan. rewrite print_fold; [| |apply NoDup_fst_map_to_list].
    - setoid_rewrite elem_of_map_to_list. done.
    - intros [n v'] Hin%elem_of_map_to_list. apply Hr. by eexists. }
  unfold parse_plan. rewrite parse_fold by (intros [k v] (n & -> & Hn)%elem_of_map_to_list%Hp; exists n; by eapply Hparse).
  f_equal. apply map_eq. intros n. apply option_eq. intros v. rewrite <-elem_of_list_to_map.
  - rewrite list_elem_of_fmap. split.
    + intros ([k v'] & [= -> ->] & (n' & -> & Hn)%elem_of_map_to_list%Hp). cbn [fst]. by rewrite (Hparse _ _ Hn).
    + intros Hn. exists (FormatInt n, v). cbn [fst snd]. rewrite (Hparse _ _ Hn). split; [done|]. apply elem_of_map_to_list, Hp. by exists n.
  - rewrite <-list_fmap_compose. apply NoDup_fmap_2_strong; [|apply NoDup_map_to_list].
    intros [k v1] [k' v2] (n1 & -> & H1)%elem_of_map_to_list%Hp (n2 & -> & H2)%elem_of_map_to_list%Hp. cbn.
    rewrite (Hparse _ _ H1), (Hparse _ _ H2). intros ->. by simplify_eq.
Qed.

(** * Parameters that satisfy the laws *)

(** a parameter matches [[^/#?]+], and a slash may follow *)
Fixpoint walk (p : list seg) (path : list bytes) : option params :=
  match p, path with
  | Glob :: _, _ => Some []
  | Lit b :: p, s :: path => if decide (b = s) then walk p path else None
  | Var n :: p, s :: path =>
      if decide (s ≠ [] /\ x23 ∉ s /\ x3f ∉ s) then (λ ps, (n, string_of_bytes s) :: ps) <$> walk p path else None
  | [], [] => Some []
  | _, _ => None
  end.
Definition re_match : Martini := λ pat path,
  match walk (pattern pat) (split_on slash path) with
  | Some ps => Some ps
  | None => if decide (last path = Some slash) then walk (pattern pat) (split_on slash (removelast path)) else None
  end.

Lemma walk_agrees p : ∀ path ps, walk p path = Some ps → agrees p path.
Proof.
  induction p as [|[b|n|] p IH]; intros [|s path] ps Hw; try done; cbn in *.
  - destruct (decide (b = s)); [|done]. split; [done|by eapply IH].
  - destruct (decide _); [|done]. apply fmap_Some in Hw as (ps' & Hw & _). by eapply IH.
Qed.
Lemma walk_fill p : ∀ vals, Glob ∉ p → length vals = length (names_of p) → Forall url_safe vals →
  walk p (fill_in p vals) = Some (zip (names_of p) (string_of_bytes <$> vals)).
Proof.
  induction p as [|[b|n|] p IH]; intros vals Hg Hlen Hv; [by destruct vals|..]; apply not_elem_of_cons in Hg as [? Hg]; [| |done]; cbn in *.
  - rewrite decide_True by done. by apply IH.
  - destruct vals as [|v vals]; [done|]. inversion Hv as [|? ? [(Hne & _) [? ?]] Hv']; subst. injection Hlen as Hlen. cbn.
    rewrite decide_True by done. by rewrite IH.
Qed.
Lemma fill_no_slash p : ∀ vals, Forall (λ s, match s with Lit b => slash ∉ b | _ => True end) p → Forall url_safe vals → Forall (λ x, slash ∉ x) (fill_in p vals).
Proof.
  induction p as [|[b|n|] p IH]; intros vals Hp Hv; cbn; [constructor|..]; inversion Hp as [|? ? Hb Hp']; subst.
  - constructor; [done|by apply IH].
  - destruct vals as [|v vals]; [constructor; [apply not_elem_of_nil|by apply IH]|]. inversion Hv as [|? ? [(_ & _ & _ & ?) _]]; subst. constructor; [done|by apply IH].
  - constructor; [apply not_elem_of_nil|by apply IH].
Qed.
Lemma seg_of_lit b b' : seg_of b = Lit b' → b' = b.
Proof.
  unfold seg_of. destruct b as [|c b]; [by intros [= <-]|]. destruct c; try (by intros [= <-]).
  destruct b as [|c [|? ?]]; try (by intros [= <-]); destruct c; by intros [= <-].
Qed.

#[export] Instance re_match_laws : @MartiniLaws re_match.
Proof.
  split.
  - intros pat vals Hg Hlen Hv. unfold route_match, re_match. rewrite split_on_join; [by rewrite walk_fill|..].
    + intros He. pose proof (fill_in_length (pattern pat) vals) as Hl. rewrite He in Hl. unfold pattern, split_on in Hl. destruct (line_split slash _).
      by rewrite length_fmap, length_app, Nat.add_comm in Hl.
    + apply fill_no_slash; [|done]. unfold pattern. apply Forall_fmap. eapply Forall_impl; [apply split_on_no_sep|].
      intros b Hb. unfold compose. destruct (seg_of b) as [b'|n|] eqn:He; [|done..]. by rewrite (seg_of_lit b b' He).
  - intros pat path ps. unfold route_match, re_match. destruct (walk _ _) as [ps'|] eqn:Hw; [intros _; left; by eapply walk_agrees|].
    destruct (decide (last path = Some slash)) as [Hl|]; [|done]. intros Hw'. right. apply last_Some in Hl as [path' ->].
    rewrite removelast_last in Hw'. exists path'. split; [done|by eapply walk_agrees].
Qed.

(** an encoding for every type of body *)
Fixpoint bits (p : positive) : bytes := match p with xH => [] | xO p => x30 :: bits p | xI p => x31 :: bits p end.
Fixpoint of_bits (b : bytes) : positive := match b with [] => xH | x30 :: b => xO (of_bits b) | _ :: b => xI (of_bits b) end.
Lemma of_bits_bits p : of_bits (bits p) = p.
Proof. induction p as [p IH|p IH|]; cbn; by rewrite ?IH. Qed.
Definition coded {A} `{Countable A} (a : A) : bytes := bits (encode a).
Definition uncoded {A} `{Countable A} (a0 : A) (b : bytes) : A := default a0 (decode (of_bits b)).
Lemma uncoded_coded {A} `{Countable A} (a0 a : A) : uncoded a0 (coded a) = a.
Proof. unfold uncoded, coded. by rewrite of_bits_bits, decode_encode. Qed.

#[export] Instance user_update_eq : EqDecision ACLUserUpdate.
Proof. solve_decision. Defined.
#[export] Instance user_update_countable : Countable ACLUserUpdate.
Proof.
  refine (inj_countable' (λ u, (uu_Name u, uu_Enabled u, uu_DB u, uu_NewPassword u, uu_PasswordHashes u, uu_Rules u))
    (λ '(n, e, d, p, h, r), mkUserUpdate n e d p h r) _). by intros [].
Defined.
#[export] Instance action_state_countable : Countable ActionState.
Proof.
  refine (inj_countable' (λ s, match s with
      | ActionNothing => inl 0%nat | ActionPending => inl 1%nat | ActionPreparing => inl 2%nat | ActionPrepared => inl 3%nat
      | ActionMigrating => inl 4%nat | ActionFinished => inl 5%nat | ActionSyncing => inl 6%nat | ActionOther s => inr s end)
    (λ x, match x with
      | inl 0%nat => ActionNothing | inl 1%nat => ActionPending | inl 2%nat => ActionPreparing | inl 3%nat => ActionPrepared
      | inl 4%nat => ActionMigrating | inl 5%nat => ActionFinished | inl _ => ActionSyncing | inr s => ActionOther s end) _). by intros [].
Defined.
#[export] Instance mapping_countable : Countable SlotMapping.
Proof.
  refine (inj_countable' (λ m, (sm_Id m, sm_GroupId m, sa_Index (sm_Action m), sa_State (sm_Action m), sa_TargetId (sm_Action m)))
    (λ '(i, g, a, s, t), mkSlotMapping i g (mkSlotAction a s t)) _). by intros [? ? []].
Defined.

#[export] Instance options_eq : EqDecision RDBAnalysisOptions.
Proof. solve_decision. Defined.
#[export] Instance options_countable : Countable RDBAnalysisOptions.
Proof.
  refine (inj_countable' (λ o, (ro_TopN o, ro_PrefixSeparators o, ro_MaxDepth o, ro_Regex o, ro_IncludeExpired o))
    (λ '(n, p, d, r, e), mkOptions n p d r e) _). by intros [].
Defined.

Definition coded_bodies : Binding := {|
  bind_acl b := let '(e, l) := uncoded (true, []) b in mkUpdate e l; json_acl r := coded (ar_Enabled r, ar_Users r);
  bind_limit := uncoded 0; json_limit := coded;
  bind_keys b := let '(s, d, k, t) := uncoded (""%string, 0, [], 0) b in mkBRequest s d (bstr <$> k) t;
  json_keys r := coded (bq_SourceProxyToken r, bq_Database r, string_of_bytes <$> bq_Keys r, bq_TimeoutMillis r);
  bind_slots := uncoded []; json_slots := coded;
  decode_pitr b := Some (uncoded ("", 0) b); json_pitr := coded;
  decode_start b := Some (uncoded ([], mkOptions 0 [] 0 [] false) b); json_start := coded;
  decode_fetch b := Some (uncoded ([], mkOptions 0 [] 0 [] false) b); json_fetch := coded;
  decode_options b := Some (uncoded (mkOptions 0 [] 0 [] false) b)
|}.
#[export] Instance coded_bodies_laws : @BindingLaws coded_bodies.
Proof.
  split; cbn; intros; rewrite ?uncoded_coded; try done.
  - by destruct r.
  - destruct r as [s d k t]. cbn. f_equal. rewrite <-list_fmap_compose. rewrite <-(list_fmap_id k) at 2. apply list_fmap_ext. intros; apply bstr_of_bytes.
Qed.

Definition zero_sum : Sha256 := λ _, replicate 32 x00.
#[export] Instance zero_sum_laws : @Sha256Laws zero_sum.
Proof. done. Qed.
Definition quiet_peers : Peers := {|
  out_slots_info _ addr := negb (String.eqb addr "down:6379"); out_info _ _ := None; out_monitored _ _ := None;
  out_alive _ _ := true; out_attempt _ := mkAttempt true (λ _, Delivered) true; out_range m := (map_to_list m).*1;
  out_job _ := (Some "j1"%string, 7); out_executable _ := true; out_range_pitr := map_to_list; out_stat _ := None; out_temp _ := None
|}.
Definition demo_rdb : RdbOutside := {|
  rb_config := NewRDBAnalysisManager None (bstr "/tmp") [] 0 0 0 0 [] 0 0; rb_fetch_enabled := true;
  rb_range_types m := (map_to_list m).*2; rb_range_dbs m := (map_to_list m).*2; rb_range_jobs m := (map_to_list m).*2;
  rb_compile _ := None; rb_media_filename _ := None; rb_getwd := None; rb_evalSymlinks _ := None; rb_multipart _ := None
|}.
Definition demo_api : apiworld := mkApi (mkSW w_online ∅ ∅ [] [] []) no_sync demo_limiters ∅ LevelInfo 0 (Some (NewPitrManager Some true "" 0 0 "")) (Some rs_init).

Abbreviation demo_serve := (@serve_http calm demo_config demo_upper list_tree demo_clock zero_sum quiet_peers demo_rdb coded_bodies re_match
  "demo" (mkTopomModel "" "" "" "" 0 "" "") demo_hash "").
Abbreviation demo_perform := (@perform_call calm demo_config demo_upper list_tree demo_clock quiet_peers demo_rdb "demo" (mkTopomModel "" "" "" "" 0 "" "") demo_hash "").


Lemma api_guarded_witness :
  let rq := mkHttp PUT (bstr "/api/topom/pitr/create/0123") (@json_pitr coded_bodies ("a:2"%string, 150)) in
  (demo_serve rq demo_api).1 = (800, BError AInvalidXAuth) /\ unchanged demo_api (demo_serve rq demo_api).2.
Proof.
  cbv zeta. split; [by vm_compute|].
  apply (@api_guarded calm demo_config demo_upper list_tree demo_clock zero_sum quiet_peers demo_rdb coded_bodies re_match "demo" _ demo_hash "" calm_laws true).
  - exact w_online_reach.
  - intros h ps Hr. vm_compute in Hr. injection Hr as <- <-. by vm_compute.
Defined.

(** a recovery of a server is created and shown *)
Example api_pitr :
  let w := (demo_serve (@request_of coded_bodies (@NewXAuth zero_sum ["demo"%string]) (C_CreatePitr "a:2" 150)) demo_api).2 in
  (demo_serve (@request_of coded_bodies (@NewXAuth zero_sum ["demo"%string]) (C_CreatePitr "a:2" 150)) demo_api).1 = (200, BReply (RJobID "j1")) /\
  match (demo_serve (@request_of coded_bodies (@NewXAuth zero_sum ["demo"%string]) (C_GetPitr "j1")) w).1 with
  | (200, BReply (RPitrJob j)) => pj_ServerAddr j = "a:2"%string
  | _ => False
  end.
Proof. by vm_compute. Qed.

(** requests that reach no handler *)
Example api_edges :
  (demo_serve (mkHttp PUT (bstr "/api/topom/group/../group/create/x/7") []) demo_api).1 = (301, BNone) /\
  (demo_serve (mkHttp GET (bstr "/api/topom/group/create/x/7") []) demo_api).1 = (404, BNone) /\
  (demo_serve (mkHttp PUT (bstr "/api/topom/group/create/" ++ bstr (@NewXAuth zero_sum ["demo"%string]) ++ bstr "/7x") []) demo_api).1 = (800, BError (AInvalid "gid")) /\
  (demo_serve (@request_of coded_bodies (@NewXAuth zero_sum ["demo"%string]) (C_GroupAddServer 1 "" "down:6379")) demo_api).1 = (800, BError (ARedis "down:6379")).
Proof. by vm_compute. Qed.
