(* ===== verification/Store.v ===== *)
(** The store of the cluster description in a coordinator: pkg/models/store.go and the
    interface of pkg/models/client.go.

    A coordinator keeps documents at paths.  The class [Client] is its interface and
    [ClientLaws] what the store relies on: a write that reports an error may have taken
    effect.  [reads] and [writes] say that an operation of the store is an operation of the
    description [db] that the dashboard works with (TopomState).  The JSON encoding of a
    document is a parameter that decodes what it encoded. *)

From S2P Require Import Prelude Bufio Resp RespNumbers Mapper Models TopomContext TopomState TopomCache TopomProxy TopomGroup.
From S2P Require Import Router Stream Forward SessionState ClusterNodes TopomACL ACLTheorems PitrFiles RdbPaths Units.
(** * client.go *)
Inductive clerr := ErrClosedClient | ErrClient | ErrNotSupported.

Class Client := {
  cl : Type;
  cl_ok : cl → Prop;
  files : cl → gmap bytes bytes;
  Create : bytes → bytes → M cl clerr unit;
  Update : bytes → bytes → M cl clerr unit;
  Delete : bytes → M cl clerr unit;
  Client_Read : bytes → bool → M cl clerr (option bytes);
  List : bytes → bool → M cl clerr (list bytes)
}.

(** one name below another path *)
Definition child (dir names : list bytes) : Prop := ∃ name, names = dir ++ [name].

Class ClientLaws `{Client} := {
  Create_law names data s : cl_ok s → Forall proper names → names ≠ [] → wp (Create (abs_path names) data) (λ r s',
    cl_ok s' /\ r ≠ Panic /\ let after := <[abs_path names := data]> (files s) in
    match r with
    | Ok _ => files s !! abs_path names = None /\ files s' = after
    | _ => files s' = files s \/ files s !! abs_path names = None /\ files s' = after
    end) s;
  Update_law names data s : cl_ok s → Forall proper names → names ≠ [] → wp (Update (abs_path names) data) (λ r s',
    cl_ok s' /\ r ≠ Panic /\ let after := <[abs_path names := data]> (files s) in
    match r with Ok _ => files s' = after | _ => files s' = files s \/ files s' = after end) s;
  (** of a document with nothing below it *)
  Delete_law names s : cl_ok s → Forall proper names → names ≠ [] →
    (∀ more, Forall proper more → more ≠ [] → files s !! abs_path (names ++ more) = None) →
    wp (Delete (abs_path names)) (λ r s',
    cl_ok s' /\ r ≠ Panic /\ let after := delete (abs_path names) (files s) in
    match r with Ok _ => files s' = after | _ => files s' = files s \/ files s' = after end) s;
  Read_law names must s : cl_ok s → Forall proper names → wp (Client_Read (abs_path names) must) (λ r s',
    cl_ok s' /\ r ≠ Panic /\ files s' = files s /\ ∀ b, r = Ok b → files s !! abs_path names = b) s;
  (** the paths below a directory; one of them may be a directory itself *)
  List_law dir must s : cl_ok s → Forall proper dir → wp (List (abs_path dir) must) (λ r s',
    cl_ok s' /\ r ≠ Panic /\ files s' = files s /\ ∀ paths, r = Ok paths →
      (∀ path, path ∈ paths → ∃ names, path = abs_path names /\ Forall proper names /\ child dir names) /\
      (∀ names, Forall proper names → child dir names → is_Some (files s !! abs_path names) → abs_path names ∈ paths)) s
}.

(** * Paths *)

(** [filepath.Join] *)
Fixpoint JoinAll (l : list bytes) : bytes :=
  match l with
  | [] => []
  | x :: l' => if decide (x = []) then JoinAll l' else Clean (join_with slash l)
  end.

(** [%04d] *)
Definition Fmt04 (n : Z) : bytes :=
  let ds := FormatInt (Z.abs n) in
  if n <? 0 then minus_sign :: replicate (3 - length ds) x30 ++ ds else replicate (4 - length ds) x30 ++ ds.

Definition JodisDir : bytes := bstr "/jodis".
Definition JodisPath (product token : string) : bytes := JoinAll [JodisDir; bstr product; bstr "proxy-" ++ bstr token].
Definition CodisDir : bytes := bstr "/codis3".
Definition ProductDir (product : string) : bytes := JoinAll [CodisDir; bstr product].
Definition LockPath (product : string) : bytes := JoinAll [CodisDir; bstr product; bstr "topom"].
Definition SlotPath (product : string) (sid : Z) : bytes := JoinAll [CodisDir; bstr product; bstr "slots"; bstr "slot-" ++ Fmt04 sid].
Definition GroupDir (product : string) : bytes := JoinAll [CodisDir; bstr product; bstr "group"].
Definition ProxyDir (product : string) : bytes := JoinAll [CodisDir; bstr product; bstr "proxy"].
Definition GroupPath (product : string) (gid : Z) : bytes := JoinAll [CodisDir; bstr product; bstr "group"; bstr "group-" ++ Fmt04 gid].
Definition ProxyPath (product token : string) : bytes := JoinAll [CodisDir; bstr product; bstr "proxy"; bstr "proxy-" ++ bstr token].
Definition SentinelPath (product : string) : bytes := JoinAll [CodisDir; bstr product; bstr "sentinel"].
Definition ACLPath (product : string) : bytes := JoinAll [CodisDir; bstr product; bstr "acl"].
Definition ProxyQPSLimitPath (product : string) : bytes := JoinAll [CodisDir; bstr product; bstr "proxy_qps_limit"].

(** [^\w[\w\.\-]*$] *)
Definition ValidateProduct (name : string) : bool :=
  match bstr name with
  | [] => false
  | c :: b => is_word c && forallb (λ c, is_word c || bool_decide (c = x2e \/ c = x2d)) b
  end.

(** * Documents *)
Inductive doc :=
| DSlot (m : SlotMapping) | DGroup (g : Group) | DProxy (p : Proxy)
| DSentinel (s : Models.Sentinel) | DACL (a : ACL) | DQPS (q : ProxyQPSLimit) | DTopom (t : TopomModel).
Inductive kind := KindSlot | KindGroup | KindProxy | KindSentinel | KindACL | KindQPS | KindTopom.
#[export] Instance kind_eq_dec : EqDecision kind.
Proof. solve_decision. Defined.
Definition kind_of (x : doc) : kind :=
  match x with
  | DSlot _ => KindSlot | DGroup _ => KindGroup | DProxy _ => KindProxy | DSentinel _ => KindSentinel
  | DACL _ => KindACL | DQPS _ => KindQPS | DTopom _ => KindTopom
  end.

(** encode.go; [None] when the bytes are no such document *)
Class Json := { jsonEncode : doc → bytes; jsonDecode : kind → bytes → option doc; json_valid : doc → Prop }.
Class JsonLaws `{Json} := json_roundtrip x : json_valid x → jsonDecode (kind_of x) (jsonEncode x) = Some x.

Inductive storeerr := SClient (e : clerr) | SDecode.

(** * store.go *)
Section store.
Context `{Client} `{Json} (product : string).
Local Abbreviation ST := (M cl storeerr).

Definition on_client {A} (m : M cl clerr A) : ST A := λ s,
  let '(r, s') := m s in (match r with Ok a => Ok a | Err e => Err (SClient e) | Panic => Panic end, s').

Definition decode_as {A} (k : kind) (as_a : doc → option A) (b : bytes) : ST A :=
  match jsonDecode k b with
  | Some x => match as_a x with Some a => mret a | None => fail SDecode end
  | None => fail SDecode
  end.
(** a document that may be missing *)
Definition load {A} (k : kind) (as_a : doc → option A) (path : bytes) (must : bool) : ST (option A) :=
  b ← on_client (Client_Read path must);
  match b with
  | None => mret None
  | Some b => a ← decode_as k as_a b; mret (Some a)
  end.

Definition as_slot (x : doc) := match x with DSlot m => Some m | _ => None end.
Definition as_group (x : doc) := match x with DGroup g => Some g | _ => None end.
Definition as_proxy (x : doc) := match x with DProxy p => Some p | _ => None end.
Definition as_sentinel (x : doc) := match x with DSentinel s => Some s | _ => None end.
Definition as_acl (x : doc) := match x with DACL a => Some a | _ => None end.
Definition as_qps (x : doc) := match x with DQPS q => Some q | _ => None end.
Definition as_topom (x : doc) := match x with DTopom t => Some t | _ => None end.

Definition Store_Acquire (topom : TopomModel) : ST unit := on_client (Create (LockPath product) (jsonEncode (DTopom topom))).
Definition Store_Release : ST unit := on_client (Delete (LockPath product)).
Definition Store_LoadTopom (must : bool) : ST (option TopomModel) := load KindTopom as_topom (LockPath product) must.
Definition Store_LoadACL (must : bool) : ST (option ACL) := load KindACL as_acl (ACLPath product) must.
Definition Store_UpdateACL (acl : ACL) : ST unit := on_client (Update (ACLPath product) (jsonEncode (DACL acl))).
Definition Store_LoadProxyQPSLimit (must : bool) : ST (option ProxyQPSLimit) := load KindQPS as_qps (ProxyQPSLimitPath product) must.
Definition Store_UpdateProxyQPSLimit (config : ProxyQPSLimit) : ST unit :=
  on_client (Update (ProxyQPSLimitPath product) (jsonEncode (DQPS config))).
Definition Store_LoadSlotMapping (sid : Z) (must : bool) : ST (option SlotMapping) := load KindSlot as_slot (SlotPath product sid) must.
Fixpoint Store_SlotMappings_from (i : Z) (n : nat) : ST (list SlotMapping) :=
  match n with
  | O => mret []
  | S n =>
      m ← Store_LoadSlotMapping i false;
      rest ← Store_SlotMappings_from (i + 1) n;
      mret (default (new_mapping i 0) m :: rest)
  end.
Definition Store_SlotMappings : ST (list SlotMapping) := Store_SlotMappings_from 0 (Z.to_nat MaxSlotNum).
Definition Store_UpdateSlotMapping (m : SlotMapping) : ST unit := on_client (Update (SlotPath product (sm_Id m)) (jsonEncode (DSlot m))).

(** the documents at some paths, by the keys they carry *)
Fixpoint load_paths {K A} `{Countable K} (k : kind) (as_a : doc → option A) (key : A → K) (paths : list bytes) (m : gmap K A) : ST (gmap K A) :=
  match paths with
  | [] => mret m
  | path :: paths =>
      b ← on_client (Client_Read path true);
      a ← match b with Some b => decode_as k as_a b | None => fail SDecode end;
      load_paths k as_a key paths (<[key a := a]> m)
  end.
Definition Store_ListGroup : ST (gmap Z Group) :=
  paths ← on_client (List (GroupDir product) false);
  load_paths KindGroup as_group g_Id paths ∅.
Definition Store_LoadGroup (gid : Z) (must : bool) : ST (option Group) := load KindGroup as_group (GroupPath product gid) must.
Definition Store_UpdateGroup (g : Group) : ST unit := on_client (Update (GroupPath product (g_Id g)) (jsonEncode (DGroup g))).
Definition Store_DeleteGroup (gid : Z) : ST unit := on_client (Delete (GroupPath product gid)).
Definition Store_ListProxy : ST (gmap string Proxy) :=
  paths ← on_client (List (ProxyDir product) false);
  load_paths KindProxy as_proxy p_Token paths ∅.
Definition Store_LoadProxy (token : string) (must : bool) : ST (option Proxy) := load KindProxy as_proxy (ProxyPath product token) must.
Definition Store_UpdateProxy (p : Proxy) : ST unit := on_client (Update (ProxyPath product (p_Token p)) (jsonEncode (DProxy p))).
Definition Store_DeleteProxy (token : string) : ST unit := on_client (Delete (ProxyPath product token)).
Definition Store_LoadSentinel (must : bool) : ST (option Models.Sentinel) := load KindSentinel as_sentinel (SentinelPath product) must.
Definition Store_UpdateSentinel (p : Models.Sentinel) : ST unit := on_client (Update (SentinelPath product) (jsonEncode (DSentinel p))).
End store.
