(* ===== verification/StoreTheorems.v ===== *)
(** The store of pkg/models/store.go over any coordinator with the laws of [Client] is the
    description [db] of the dashboard: what is read is what the description holds, and a
    write that reports success has changed it as it says, one that fails has changed it so
    or not at all. *)

From S2P Require Import Prelude Bufio Resp RespNumbers Mapper Models TopomContext TopomState TopomCache TopomProxy TopomGroup.
From S2P Require Import Router Stream Forward SessionState ClusterNodes TopomACL ACLTheorems PitrFiles RdbPaths Units Store.
(** * Keys: the places of the documents *)
Inductive key := KSlot (sid : Z) | KGroup (gid : Z) | KProxy (token : string) | KSentinel | KACL | KQPS | KLock.
#[export] Instance key_eq_dec : EqDecision key.
Proof. solve_decision. Defined.

Definition place (k : key) : list bytes :=
  match k with
  | KSlot sid => [bstr "slots"; bstr "slot-" ++ Fmt04 sid]
  | KGroup gid => [bstr "group"; bstr "group-" ++ Fmt04 gid]
  | KProxy token => [bstr "proxy"; bstr "proxy-" ++ bstr token]
  | KSentinel => [bstr "sentinel"]
  | KACL => [bstr "acl"]
  | KQPS => [bstr "proxy_qps_limit"]
  | KLock => [bstr "topom"]
  end.
Definition key_of (x : doc) : key :=
  match x with
  | DSlot m => KSlot (sm_Id m) | DGroup g => KGroup (g_Id g) | DProxy p => KProxy (p_Token p)
  | DSentinel _ => KSentinel | DACL _ => KACL | DQPS _ => KQPS | DTopom _ => KLock
  end.
Definition kind_at (k : key) : kind :=
  match k with
  | KSlot _ => KindSlot | KGroup _ => KindGroup | KProxy _ => KindProxy | KSentinel => KindSentinel
  | KACL => KindACL | KQPS => KindQPS | KLock => KindTopom
  end.
Definition key_ok (k : key) : Prop :=
  match k with
  | KSlot n | KGroup n => - 2 ^ 63 < n < 2 ^ 63
  | KProxy token => slash ∉ bstr token
  | _ => True
  end.

(** the description, document by document *)
Definition at_key (d : db) (k : key) : option doc :=
  match k with
  | KSlot sid => DSlot <$> db_slots d !! sid
  | KGroup gid => DGroup <$> db_group d !! gid
  | KProxy token => DProxy <$> db_proxy d !! token
  | KSentinel => DSentinel <$> db_sentinel d
  | KACL => DACL <$> db_acl d
  | KQPS => DQPS <$> db_qps d
  | KLock => DTopom <$> db_lock d
  end.
Definition set_doc (x : doc) : db → db :=
  match x with
  | DSlot m => db_set_slot m | DGroup g => db_set_group g | DProxy p => db_set_proxy p | DSentinel s => db_set_sentinel s
  | DACL a => db_set_acl a | DQPS q => db_set_qps q | DTopom t => db_set_lock (Some t)
  end.

Lemma at_key_set x d k : at_key (set_doc x d) k = if decide (k = key_of x) then Some x else at_key d k.
Proof.
  destruct x as [m|g|p|s|a|q|t], k as [n|n|u| | | |]; cbn; try done.
  - destruct (decide (KSlot n = _)) as [[= ->]|Hn]; [by rewrite lookup_insert_eq|]. rewrite lookup_insert_ne; [done|]. intros He. apply Hn. cbn. by rewrite He.
  - destruct (decide (KGroup n = _)) as [[= ->]|Hn]; [by rewrite lookup_insert_eq|]. rewrite lookup_insert_ne; [done|]. intros He. apply Hn. cbn. by rewrite He.
  - destruct (decide (KProxy u = _)) as [[= ->]|Hn]; [by rewrite lookup_insert_eq|]. rewrite lookup_insert_ne; [done|]. intros He. apply Hn. cbn. by rewrite He.
Qed.

(** what can be deleted *)
Definition del_key (k : key) : db → db :=
  match k with
  | KGroup gid => db_del_group gid
  | KProxy token => db_del_proxy token
  | KLock => db_set_lock None
  | _ => id
  end.
Definition deletable (k : key) : Prop := match k with KGroup _ | KProxy _ | KLock => True | _ => False end.
Lemma at_key_del k d k' : deletable k → at_key (del_key k d) k' = if decide (k' = k) then None else at_key d k'.
Proof.
  destruct k as [n|n|u| | | |], k' as [n'|n'|u'| | | |]; intros Hk; try done; cbn.
  - destruct (decide _) as [[= ->]|Hn]; [by rewrite lookup_delete_eq|]. rewrite lookup_delete_ne; [done|]. intros He. apply Hn. by rewrite He.
  - destruct (decide _) as [[= ->]|Hn]; [by rewrite lookup_delete_eq|]. rewrite lookup_delete_ne; [done|]. intros He. apply Hn. by rewrite He.
Qed.

Lemma db_wf_keys d : db_wf d ↔ ∀ k x, at_key d k = Some x → key_of x = k.
Proof.
  split.
  - intros [H1 H2 H3] [] x Hx; cbn in Hx; apply fmap_Some in Hx as (y & Hy & ->); cbn; f_equal; eauto.
  - intros Hk. split; intros i x Hx.
    + assert (key_of (DSlot x) = KSlot i) as [= ?] by (apply Hk; cbn; by rewrite Hx). done.
    + assert (key_of (DGroup x) = KGroup i) as [= ?] by (apply Hk; cbn; by rewrite Hx). done.
    + assert (key_of (DProxy x) = KProxy i) as [= ?] by (apply Hk; cbn; by rewrite Hx). done.
Qed.

(** * Paths *)
Lemma zeros_loop k ds : digits_loop 0 (replicate k x30 ++ ds) = digits_loop 0 ds.
Proof. by induction k. Qed.

Lemma Fmt04_digits n : - 2 ^ 63 < n < 2 ^ 63 → ∃ ds, Fmt04 n = (if n <? 0 then [minus_sign] else []) ++ ds /\ ds ≠ [] /\
  Forall (λ c, is_digit c = true) ds /\ digits_loop 0 ds = (Z.abs n, []).
Proof.
  intros Hn. destruct (format_sign (Z.abs n)) as (ds & Hf & Hne & Hd & Hl); [lia|].
  rewrite bool_decide_eq_false_2 in Hf by lia. cbn in Hf. rewrite (Z.abs_eq (Z.abs n)) in Hl by lia.
  assert (∀ k, replicate k x30 ++ ds ≠ [] /\ Forall (λ c, is_digit c = true) (replicate k x30 ++ ds) /\ digits_loop 0 (replicate k x30 ++ ds) = (Z.abs n, [])) as Hk.
  { intros k. split; [by destruct k, ds|]. split; [apply Forall_app; split; [by apply Forall_replicate|done]|by rewrite zeros_loop]. }
  unfold Fmt04. rewrite Hf. destruct (n <? 0); eexists; (split; [reflexivity|apply Hk]).
Qed.

Lemma Fmt04_inj n m : - 2 ^ 63 < n < 2 ^ 63 → - 2 ^ 63 < m < 2 ^ 63 → Fmt04 n = Fmt04 m → n = m.
Proof.
  intros Hn Hm He. destruct (Fmt04_digits n Hn) as (dn & En & Nn & Dn & Ln), (Fmt04_digits m Hm) as (dm & Em & Nm & Dm & Lm).
  rewrite En, Em in He. destruct dn as [|c dn], dm as [|c' dm]; try done. inversion Dn as [|? ? Hc]; inversion Dm as [|? ? Hc']; subst.
  destruct (n <? 0) eqn:Sn, (m <? 0) eqn:Sm; cbn in He; injection He as He1 He2; subst; try done; rewrite Ln in Lm; injection Lm as Lm; lia.
Qed.

Lemma Fmt04_no_slash n : - 2 ^ 63 < n < 2 ^ 63 → slash ∉ Fmt04 n.
Proof.
  intros Hn. destruct (Fmt04_digits n Hn) as (ds & -> & _ & Hd & _). rewrite Forall_forall in Hd.
  intros [Hin|Hin]%elem_of_app; [|by specialize (Hd _ Hin)]. destruct (n <? 0); [|by apply not_elem_of_nil in Hin]. by apply list_elem_of_singleton in Hin.
Qed.

Definition plain_name (b : bytes) : bool := forallb (λ c, negb (bool_decide (c = slash \/ c = x2e))) b.
Lemma plain_name_no c b : plain_name b = true → c = slash \/ c = x2e → c ∉ b.
Proof.
  intros Hb Hc Hin%list_elem_of_In. unfold plain_name in Hb. rewrite List.forallb_forall in Hb. specialize (Hb c Hin).
  by rewrite negb_true_iff, bool_decide_eq_false in Hb.
Qed.
Lemma plain_name_proper b : plain_name b = true → b ≠ [] → proper b.
Proof.
  intros Hb Hne. pose proof (plain_name_no x2e b Hb ltac:(by right)) as Hdot. split; [done|].
  split; [intros ->; apply Hdot; left|]. split; [intros ->; apply Hdot; left|]. apply plain_name_no; [done|by left].
Qed.
Lemma plain_prefix_proper p s : plain_name p = true → p ≠ [] → slash ∉ s → proper (p ++ s).
Proof.
  intros Hp Hne Hs. pose proof (plain_name_no slash p Hp ltac:(by left)). pose proof (plain_name_no x2e p Hp ltac:(by right)) as Hdot.
  destruct p as [|c p]; [done|]. apply not_elem_of_cons in Hdot as [Hdot _].
  split; [done|]. split; [by intros [= ->]|]. split; [by intros [= ->]|]. rewrite elem_of_app. tauto.
Qed.

Lemma place_proper k : key_ok k → Forall proper (place k).
Proof.
  intros Hk. destruct k; cbn [place key_ok] in *; repeat apply Forall_cons_2; try exact (Forall_nil_2 _);
    first [apply plain_name_proper; [reflexivity|discriminate] | apply plain_prefix_proper; [reflexivity|discriminate|first [done|by apply Fmt04_no_slash]]].
Qed.

Lemma place_inj k k' : key_ok k → key_ok k' → place k = place k' → k = k'.
Proof.
  intros Hk Hk' He. pose proof (f_equal head He) as Hhead. pose proof (f_equal last He) as Hlast. clear He.
  destruct k, k'; cbn [place head] in Hhead; try discriminate Hhead; try reflexivity; cbn [place last key_ok] in *;
    injection Hlast as Hlast.
  - f_equal. by apply Fmt04_inj.
  - f_equal. by apply Fmt04_inj.
  - f_equal. rewrite <-(of_bytes_bstr token), Hlast. apply of_bytes_bstr.
Qed.

Lemma place_leaf k k' more : more ≠ [] → place k' ≠ place k ++ more.
Proof.
  intros Hm He. pose proof (f_equal head He) as Hhead. pose proof (f_equal length He) as Hlen. clear He. rewrite length_app in Hlen.
  destruct more; [done|]. destruct k, k'; cbn [place head app length] in *; first [discriminate Hhead|lia].
Qed.

Lemma JoinAll_abs a b names : Forall proper (a :: b :: names) → JoinAll ((slash :: a) :: b :: names) = abs_path (a :: b :: names).
Proof.
  intros Hp. cbn [JoinAll]. rewrite decide_False by done.
  change (join_with slash ((slash :: a) :: b :: names)) with (abs_path (a :: b :: names)). by apply Clean_abs_path.
Qed.

Lemma ValidateProduct_proper product : ValidateProduct product = true → proper (bstr product).
Proof.
  unfold ValidateProduct. destruct (bstr product) as [|c b]; [done|]. intros [Hc Hb]%andb_true_iff.
  assert (∀ c, is_word c = true → c ≠ slash /\ c ≠ x2e) as Hword by (intros []; done).
  destruct (Hword c Hc) as [H1 H2]. split; [done|]. split; [by intros [= ->]|]. split; [by intros [= ->]|].
  intros [?|Hin%list_elem_of_In]%elem_of_cons; [congruence|]. rewrite List.forallb_forall in Hb. specialize (Hb _ Hin).
  apply orb_true_iff in Hb as [Hb|Hb]; [by destruct (Hword _ Hb)|]. by apply bool_decide_eq_true in Hb as [?|?].
Qed.

Section refinement.
Context `{ClientLaws} `{JsonLaws} (product : string) (Hproduct : ValidateProduct product = true).

Definition below_product (names : list bytes) : list bytes := bstr "codis3" :: bstr product :: names.
Definition path_of (k : key) : bytes := abs_path (below_product (place k)).

Lemma below_proper names : Forall proper names → Forall proper (below_product names).
Proof.
  intros Hn. constructor; [by apply plain_name_proper|]. constructor; [by apply ValidateProduct_proper|done].
Qed.
Lemma path_of_inj k names : key_ok k → Forall proper names → path_of k = abs_path (below_product names) → place k = names.
Proof.
  intros Hk Hn He. apply abs_path_inj in He; [|by apply below_proper, place_proper|by apply below_proper]. by injection He.
Qed.

(** the paths of store.go *)
Lemma SlotPath_key sid : key_ok (KSlot sid) → SlotPath product sid = path_of (KSlot sid).
Proof. intros Hk. apply JoinAll_abs, below_proper, (place_proper (KSlot sid)), Hk. Qed.
Lemma GroupPath_key gid : key_ok (KGroup gid) → GroupPath product gid = path_of (KGroup gid).
Proof. intros Hk. apply JoinAll_abs, below_proper, (place_proper (KGroup gid)), Hk. Qed.
Lemma ProxyPath_key token : key_ok (KProxy token) → ProxyPath product token = path_of (KProxy token).
Proof. intros Hk. apply JoinAll_abs, below_proper, (place_proper (KProxy token)), Hk. Qed.
Lemma SentinelPath_key : SentinelPath product = path_of KSentinel.
Proof. apply JoinAll_abs, below_proper, (place_proper KSentinel). done. Qed.
Lemma ACLPath_key : ACLPath product = path_of KACL.
Proof. apply JoinAll_abs, below_proper, (place_proper KACL). done. Qed.
Lemma ProxyQPSLimitPath_key : ProxyQPSLimitPath product = path_of KQPS.
Proof. apply JoinAll_abs, below_proper, (place_proper KQPS). done. Qed.
Lemma LockPath_key : LockPath product = path_of KLock.
Proof. apply JoinAll_abs, below_proper, (place_proper KLock). done. Qed.

(** the coordinator holds the description: below the directory of the product there are
    exactly its documents *)
Record holds (s : cl) (d : db) : Prop := {
  h_ok : cl_ok s;
  h_wf : db_wf d;
  h_keys k x : at_key d k = Some x → key_ok k /\ json_valid x;
  h_files names b : Forall proper names → files s !! abs_path (below_product names) = Some b ↔
    ∃ k x, at_key d k = Some x /\ place k = names /\ jsonEncode x = b
}.

Lemma holds_at s d k : holds s d → key_ok k → files s !! path_of k = jsonEncode <$> at_key d k.
Proof.
  intros [Q1 Q2 Q3 Q4] Hk. apply option_eq. intros b. unfold path_of. rewrite Q4 by by apply place_proper. rewrite fmap_Some. split.
  - intros (k' & x & Hx & Hp & <-). apply place_inj in Hp; [subst k'; by exists x|by apply (Q3 k' x)|done].
  - intros (x & Hx & ->). by exists k, x.
Qed.

Lemma holds_change s d s' d' k (v : option doc) : holds s d → cl_ok s' → key_ok k → db_wf d' → (∀ x, v = Some x → json_valid x) →
  (∀ k', at_key d' k' = if decide (k' = k) then v else at_key d k') →
  files s' = partial_alter (λ _, jsonEncode <$> v) (path_of k) (files s) → holds s' d'.
Proof.
  intros Hh Hok Hk Hwf Hv Hat Hf. pose proof Hh as [Q1 Q2 Q3 Q4]. split; [done|done|..].
  - intros k' x. rewrite Hat. destruct (decide _) as [->|]; [intros Hx; split; [done|by apply Hv]|apply Q3].
  - intros names b Hn. rewrite Hf. destruct (decide (place k = names)) as [<-|Hne].
    + fold (path_of k). rewrite lookup_partial_alter_eq, fmap_Some. split.
      * intros (x & Hx & ->). exists k, x. rewrite Hat, decide_True by done. done.
      * intros (k' & x & Hx & Hp & <-). rewrite Hat in Hx. destruct (decide _) as [->|Hne]; [by exists x|].
        exfalso. apply Hne, place_inj; [by apply (Q3 k' x)|done|done].
    + rewrite lookup_partial_alter_ne, Q4; [|done|intros He; by apply Hne, path_of_inj]. split.
      * intros (k' & x & Hx & Hp & Hb). exists k', x. rewrite Hat, decide_False; [done|]. intros ->. by apply Hne.
      * intros (k' & x & Hx & Hp & Hb). exists k', x. rewrite Hat in Hx. destruct (decide _) as [->|]; [by exfalso; apply Hne|done].
Qed.

Lemma holds_set s d s' x : holds s d → cl_ok s' → key_ok (key_of x) → json_valid x →
  files s' = <[path_of (key_of x) := jsonEncode x]> (files s) → holds s' (set_doc x d).
Proof.
  intros Hh Hok Hk Hv Hf. apply (holds_change s d s' _ (key_of x) (Some x)); try done; [|by intros ? [= ->]|apply at_key_set].
  apply db_wf_keys. intros k y. rewrite at_key_set. destruct (decide _) as [->|]; [by intros [= ->]|]. apply db_wf_keys, (h_wf s d Hh).
Qed.

Lemma holds_del s d s' k : holds s d → cl_ok s' → key_ok k → deletable k → files s' = delete (path_of k) (files s) → holds s' (del_key k d).
Proof.
  intros Hh Hok Hk Hd Hf. apply (holds_change s d s' _ k None); try done; [|intros k'; by apply at_key_del].
  apply db_wf_keys. intros k' y. rewrite at_key_del by done. destruct (decide _) as [->|]; [done|]. apply db_wf_keys, (h_wf s d Hh).
Qed.

Lemma holds_same s d s' : holds s d → cl_ok s' → files s' = files s → holds s' d.
Proof. intros [Q1 Q2 Q3 Q4] Hok Hf. split; [done..|]. by rewrite Hf. Qed.

(** ** Reads and writes *)
Definition reads {A} (m : M cl storeerr A) (f : db → A) : Prop := ∀ s d, holds s d →
  wp m (λ r s', r ≠ Panic /\ holds s' d /\ ∀ a, r = Ok a → a = f d) s.
Definition writes {A} (m : M cl storeerr A) (f : db → db) : Prop := ∀ s d, holds s d →
  wp m (λ r s', r ≠ Panic /\ match r with Ok _ => holds s' (f d) | _ => holds s' d \/ holds s' (f d) end) s.

Lemma wp_on_client {A} (m : M cl clerr A) (Q : outcome storeerr A → cl → Prop) s :
  wp m (λ r s', Q (match r with Ok a => Ok a | Err e => Err (SClient e) | Panic => Panic end) s') s → wp (on_client m) Q s.
Proof. unfold wp, on_client. by destruct (m s). Qed.

Lemma update_writes x path : path = path_of (key_of x) → key_ok (key_of x) → json_valid x →
  writes (on_client (Update path (jsonEncode x))) (set_doc x).
Proof.
  intros -> Hk Hv s d Hh. apply wp_on_client. eapply wp_mono; [apply Update_law; [apply Hh|by apply below_proper, place_proper|done]|].
  intros r s' (Hok & Hr & Hf). cbv zeta in Hf. destruct r as [u|e|]; [| |done]; (split; [done|]).
  - by eapply holds_set.
  - destruct Hf as [Hf|Hf]; [left; by eapply holds_same|right; by eapply holds_set].
Qed.

Lemma delete_writes k path : path = path_of k → key_ok k → deletable k → writes (on_client (Delete path)) (del_key k).
Proof.
  intros -> Hk Hd s d Hh. apply wp_on_client. eapply wp_mono; [apply Delete_law; [apply Hh|by apply below_proper, place_proper|done|]|].
  { intros more Hm Hne. apply eq_None_not_Some. intros [b Hb]. change (below_product (place k) ++ more) with (below_product (place k ++ more)) in Hb.
    apply (h_files s d Hh) in Hb as (k' & x & _ & Hp & _); [by apply (place_leaf k k' more)|]. apply Forall_app. split; [by apply place_proper|done]. }
  intros r s' (Hok & Hr & Hf). cbv zeta in Hf. destruct r as [u|e|]; [| |done]; (split; [done|]).
  - by eapply holds_del.
  - destruct Hf as [Hf|Hf]; [left; by eapply holds_same|right; by eapply holds_del].
Qed.

(** a document of its kind *)
Definition reader {A} (k : key) (as_a : doc → option A) : Prop := ∀ x, key_of x = k → kind_of x = kind_at k /\ is_Some (as_a x).

Lemma decode_doc {A} k (as_a : doc → option A) x s (Q : outcome storeerr A → cl → Prop) :
  reader k as_a → key_of x = k → json_valid x → (∀ a, as_a x = Some a → Q (Ok a) s) → wp (decode_as (kind_at k) as_a (jsonEncode x)) Q s.
Proof.
  intros Hr Hk Hv HQ. destruct (Hr x Hk) as [<- [a Ha]]. unfold decode_as. rewrite json_roundtrip, Ha by done. apply wp_ret. by apply HQ.
Qed.

Lemma load_reads {A} k (as_a : doc → option A) path must : path = path_of k → key_ok k → reader k as_a →
  reads (load (kind_at k) as_a path must) (λ d, at_key d k ≫= as_a).
Proof.
  intros -> Hk Hread s d Hh. unfold load. apply wp_bind, wp_on_client.
  eapply wp_mono; [apply Read_law; [apply Hh|by apply below_proper, place_proper]|]. intros r s' (Hok & Hr & Hf & Hb).
  assert (holds s' d) as Hh' by by eapply holds_same. destruct r as [b|e|]; [|by split_and!|done].
  specialize (Hb b eq_refl). fold (path_of k) in Hb. rewrite (holds_at s d) in Hb by done. destruct (at_key d k) as [x|] eqn:Hx; cbn in Hb; subst b.
  - apply wp_bind. apply (decode_doc k); [done|by apply (db_wf_keys d); [apply Hh|]|by apply (h_keys s d Hh k)|].
    intros a Ha. apply wp_ret. split_and!; [done|done|]. intros a' [= <-]. cbn. by rewrite Ha.
  - apply wp_ret. split_and!; [done|done|]. by intros a [= <-].
Qed.

(** ** Directories *)
Lemma load_paths_reads {K A} `{Countable K} (mk : K → key) (as_a : doc → option A) (key : A → K) kd s d :
  (∀ i, kind_at (mk i) = kd) → (∀ i, reader (mk i) as_a) → (∀ x a, as_a x = Some a → key_of x = mk (key a)) → (∀ i j, mk i = mk j → i = j) → holds s d →
  ∀ (paths : list bytes) (m : gmap K A) s1, holds s1 d →
  (∀ path, path ∈ paths → ∃ names, path = abs_path (below_product names) /\ Forall proper names /\ ∀ k, place k = names → ∃ i, k = mk i) →
  (∀ i a, m !! i = Some a → (at_key d (mk i) ≫= as_a) = Some a) →
  wp (load_paths kd as_a key paths m) (λ r s', r ≠ Panic /\ holds s' d /\ ∀ m', r = Ok m' →
    (∀ i a, m' !! i = Some a → (at_key d (mk i) ≫= as_a) = Some a) /\ (∀ i, is_Some (m !! i) → is_Some (m' !! i)) /\
    (∀ i, path_of (mk i) ∈ paths → key_ok (mk i) → is_Some (m' !! i))) s1.
Proof.
  intros Hkind Hread Hkey Hmk Hh. induction paths as [|path paths IH]; intros m s1 Hh1 Hpaths Hm.
  { apply wp_ret. split_and!; [done|done|]. intros m' [= <-]. split_and!; [done|done|]. by intros i ?%not_elem_of_nil. }
  cbn [load_paths]. destruct (Hpaths path) as (names & -> & Hn & Hplace); [by left|].
  apply wp_bind, wp_on_client. eapply wp_mono; [apply Read_law; [apply Hh1|by apply below_proper]|]. intros r s2 (Hok & Hr & Hf & Hb).
  assert (holds s2 d) as Hh2 by by eapply holds_same. destruct r as [b|e|]; [|by split_and!|done]. specialize (Hb b eq_refl).
  destruct b as [b|]; [|apply wp_bind, wp_fail; by split_and!]. apply (h_files s1 d Hh1) in Hb as (k & x & Hx & Hp & <-); [|done].
  destruct (Hplace k Hp) as [i ->]. assert (key_of x = mk i) as Hki by (apply (db_wf_keys d); [apply Hh|done]).
  apply wp_bind. rewrite <-(Hkind i). apply (decode_doc (mk i)); [done|done|by apply (h_keys s d Hh (mk i))|].
  intros a Ha. rewrite Hkind. assert (key a = i) as -> by (apply Hmk; by rewrite <-(Hkey x a Ha)).
  eapply wp_mono; [apply IH; [done|intros; apply Hpaths; by right|]|].
  { intros j a'. rewrite lookup_insert_Some. intros [[<- <-]|[_ ?]]; [by rewrite Hx|by apply Hm]. }
  intros r s3 (Hr3 & Hh3 & HM). split_and!; [done|done|]. intros m' ->. destruct (HM m' eq_refl) as (K1 & K2 & K3). split_and!; [done|..].
  - intros j Hj. apply K2. rewrite lookup_insert_is_Some. destruct (decide (i = j)); [by left|by right].
  - intros j [He|Hin]%elem_of_cons Hok'; [|by apply K3]. apply K2. apply path_of_inj in He; [|done|done].
    rewrite <-Hp in He. apply place_inj in He; [|done|by apply (h_keys s d Hh (mk i) x)]. apply Hmk in He as ->. rewrite lookup_insert_eq. by eexists.
Qed.

Lemma list_reads {K A} `{Countable K} (mk : K → key) (as_a : doc → option A) (key : A → K) kd dir path (get : db → gmap K A) :
  (∀ i, kind_at (mk i) = kd) → (∀ i, reader (mk i) as_a) → (∀ x a, as_a x = Some a → key_of x = mk (key a)) → (∀ i j, mk i = mk j → i = j) →
  proper dir → path = abs_path (below_product [dir]) → (∀ i, child [dir] (place (mk i))) → (∀ k, child [dir] (place k) → ∃ i, k = mk i) →
  (∀ d i, get d !! i = at_key d (mk i) ≫= as_a) →
  reads (paths ← on_client (List path false); load_paths kd as_a key paths ∅) get.
Proof.
  intros Hkind Hread Hkey Hmk Hdir -> Hchild Hof Hget s d Hh. apply wp_bind, wp_on_client.
  eapply wp_mono; [apply List_law; [apply Hh|by apply below_proper, Forall_singleton]|]. intros r s1 (Hok & Hr & Hf & Hl).
  assert (holds s1 d) as Hh1 by by eapply holds_same. destruct r as [paths|e|]; [|by split_and!|done]. destruct (Hl paths eq_refl) as [Hin Hall].
  eapply wp_mono; [apply (load_paths_reads mk as_a key kd s d); try done|].
  - intros p (ns & -> & Hns & name & ->)%Hin. exists [dir; name]. split; [done|].
    split; [by do 2 apply Forall_inv_tail in Hns|]. intros k Hk. apply Hof. exists name. by rewrite Hk.
  - intros r s2 (Hr2 & Hh2 & Hm). split_and!; [done|done|]. intros m ->. destruct (Hm m eq_refl) as (K1 & _ & K3).
    apply map_eq. intros i. rewrite Hget. destruct (m !! i) as [a|] eqn:Ha; [symmetry; by apply K1|].
    destruct (at_key d (mk i)) as [x|] eqn:Hx; [|done]. destruct (h_keys s d Hh _ _ Hx) as [Hki _].
    exfalso. destruct (K3 i) as [? ?]; [|done|congruence]. apply Hall; [by apply below_proper, place_proper|..].
    + destruct (Hchild i) as [name ->]. by exists name.
    + fold (path_of (mk i)). rewrite (holds_at s d) by done. by rewrite Hx.
Qed.

Lemma SlotMappings_reads n i : - 2 ^ 63 < i → i + Z.of_nat n < 2 ^ 63 →
  reads (Store_SlotMappings_from product i n) (λ d, (λ j, or_new_mapping j (db_slots d !! j)) <$> seqZ i (Z.of_nat n)).
Proof.
  revert i. induction n as [|n IH]; intros i Hi Hn s d Hh; [apply wp_ret; split_and!; [done|done|]; by intros a [= <-]|].
  cbn [Store_SlotMappings_from]. apply wp_bind.
  eapply wp_mono; [apply (load_reads (KSlot i) as_slot); [apply SlotPath_key|..|exact Hh]|]; [cbn; lia..| |].
  { intros [] [= <-]. by split; [|eexists]. }
  intros r s1 (Hr & Hh1 & Ha). destruct r as [m|e|]; [|by split_and!|done]. specialize (Ha m eq_refl). apply wp_bind.
  eapply wp_mono; [apply (IH (i + 1)); [lia|lia|exact Hh1]|]. intros r s2 (Hr2 & Hh2 & Hl).
  destruct r as [rest|e|]; [|by split_and!|done]. apply wp_ret. split_and!; [done|done|]. intros a [= <-]. rewrite (Hl rest eq_refl).
  rewrite (seqZ_cons i) by lia. cbn [fmap list_fmap]. unfold or_new_mapping at 2. f_equal.
  - subst m. cbn. by destruct (db_slots d !! i).
  - by replace (Z.pred (Z.of_nat (S n))) with (Z.of_nat n) by lia.
Qed.

(** [Acquire] takes effect only when there is no lock *)
Lemma acquire_locks t s d : json_valid (DTopom t) → holds s d → wp (Store_Acquire product t) (λ r s', r ≠ Panic ∧
  match r with
  | Ok _ => db_lock d = None ∧ holds s' (db_set_lock (Some t) d)
  | _ => holds s' d ∨ db_lock d = None ∧ holds s' (db_set_lock (Some t) d)
  end) s.
Proof.
  intros Hv Hh. unfold Store_Acquire. rewrite LockPath_key. apply wp_on_client.
  eapply wp_mono; [apply Create_law; [apply Hh|by apply below_proper, (place_proper KLock)|done]|].
  assert (∀ s', cl_ok s' → files s !! path_of KLock = None ∧ files s' = <[path_of KLock := jsonEncode (DTopom t)]> (files s) →
    db_lock d = None ∧ holds s' (db_set_lock (Some t) d)) as Hset.
  { intros s' Hok [Hn Hf]. split; [|by apply (holds_set s d s' (DTopom t))]. rewrite (holds_at s d) in Hn by done. cbn in Hn. by destruct (db_lock d). }
  intros r s' (Hok & Hr & Hf). cbv zeta in Hf. destruct r as [u|e|]; [| |done]; (split; [done|]); [by apply Hset|].
  destruct Hf as [Hf|Hf]; [left; by eapply holds_same|right; by apply Hset].
Qed.

(** the update of a document *)
Definition update_of (x : doc) : option (M cl storeerr unit) :=
  match x with
  | DSlot m => Some (Store_UpdateSlotMapping product m)
  | DGroup g => Some (Store_UpdateGroup product g)
  | DProxy p => Some (Store_UpdateProxy product p)
  | DSentinel s => Some (Store_UpdateSentinel product s)
  | DACL a => Some (Store_UpdateACL product a)
  | DQPS q => Some (Store_UpdateProxyQPSLimit product q)
  | DTopom _ => None
  end.
Lemma updates_write x m : update_of x = Some m → key_ok (key_of x) → json_valid x → writes m (set_doc x).
Proof.
  intros Hm Hk Hv. destruct x; cbn [update_of] in Hm; try discriminate Hm; injection Hm as <-; (apply update_writes; [|done|done]).
  - by apply SlotPath_key.
  - by apply GroupPath_key.
  - by apply ProxyPath_key.
  - apply SentinelPath_key.
  - apply ACLPath_key.
  - apply ProxyQPSLimitPath_key.
Qed.

Lemma reads_ext {A} (m : M cl storeerr A) f g : reads m f → (∀ d, f d = g d) → reads m g.
Proof.
  intros Hm Hfg s d Hh. eapply wp_mono; [by apply Hm|]. intros r s' (Hr & Hh' & Ha). split_and!; [done|done|]. intros a ->. rewrite <-Hfg. by apply Ha.
Qed.

Ltac is_reader := let x := fresh in let Hx := fresh in intros x Hx; destruct x; try discriminate Hx; (split; [done|by eexists]).
Ltac by_key k as_a lemma :=
  eapply reads_ext; [apply (load_reads k as_a); [by apply lemma|done|is_reader]|];
  intros d; cbn [at_key]; match goal with |- context [_ <$> ?o] => by destruct o end.

Lemma child_dir dir k : child [dir] (place k) → head (place k) = Some dir /\ length (place k) = 2%nat.
Proof. by intros [name ->]. Qed.

Lemma ListGroup_reads : reads (Store_ListGroup product) db_group.
Proof.
  apply (list_reads KGroup as_group g_Id KindGroup (bstr "group")); try done.
  - intros i. is_reader.
  - intros x a Ha. destruct x; try discriminate Ha. by injection Ha as ->.
  - by intros i j [= ->].
  - by apply plain_name_proper.
  - apply JoinAll_abs, below_proper, Forall_singleton. by apply plain_name_proper.
  - intros i. by eexists.
  - intros k [Hh Hl]%child_dir. destruct k; cbn [place head length] in *; try discriminate Hh; [by eexists].
  - intros d i. cbn [at_key]. by destruct (db_group d !! i).
Qed.
Lemma ListProxy_reads : reads (Store_ListProxy product) db_proxy.
Proof.
  apply (list_reads KProxy as_proxy p_Token KindProxy (bstr "proxy")); try done.
  - intros i. is_reader.
  - intros x a Ha. destruct x; try discriminate Ha. by injection Ha as ->.
  - by intros i j [= ->].
  - by apply plain_name_proper.
  - apply JoinAll_abs, below_proper, Forall_singleton. by apply plain_name_proper.
  - intros i. by eexists.
  - intros k [Hh Hl]%child_dir. destruct k; cbn [place head length] in *; try discriminate Hh; [by eexists].
  - intros d i. cbn [at_key]. by destruct (db_proxy d !! i).
Qed.

(** C36: the store is the description of the cluster.  Over any coordinator that keeps its
    laws and holds a description, every operation of the store that reads returns what the
    description says, if it returns; every one that writes changes the description as the
    dashboard expects when it succeeds, and when it fails either so or not at all; the lock
    is taken only where there is none; no operation panics, and the paths of different documents never meet. *)
Theorem store_refines :
  (∀ must, reads (Store_LoadTopom product must) db_lock ∧ reads (Store_LoadACL product must) db_acl ∧
     reads (Store_LoadProxyQPSLimit product must) db_qps ∧ reads (Store_LoadSentinel product must) db_sentinel) ∧
  (∀ n must, - 2 ^ 63 < n < 2 ^ 63 → reads (Store_LoadSlotMapping product n must) (λ d, db_slots d !! n) ∧
     reads (Store_LoadGroup product n must) (λ d, db_group d !! n)) ∧
  (∀ token must, slash ∉ bstr token → reads (Store_LoadProxy product token must) (λ d, db_proxy d !! token)) ∧
  reads (Store_ListGroup product) db_group ∧ reads (Store_ListProxy product) db_proxy ∧
  reads (Store_SlotMappings product) (λ d, (λ j, or_new_mapping j (db_slots d !! j)) <$> seqZ 0 MaxSlotNum) ∧
  (∀ x m, update_of x = Some m → key_ok (key_of x) → json_valid x → writes m (set_doc x)) ∧
  (∀ gid, - 2 ^ 63 < gid < 2 ^ 63 → writes (Store_DeleteGroup product gid) (db_del_group gid)) ∧
  (∀ token, slash ∉ bstr token → writes (Store_DeleteProxy product token) (db_del_proxy token)) ∧
  writes (Store_Release product) (db_set_lock None) ∧
  (∀ t s d, json_valid (DTopom t) → holds s d → wp (Store_Acquire product t) (λ r s', r ≠ Panic ∧
     match r with
     | Ok _ => db_lock d = None ∧ holds s' (db_set_lock (Some t) d)
     | _ => holds s' d ∨ db_lock d = None ∧ holds s' (db_set_lock (Some t) d)
     end) s).
Proof.
  split_and!.
  - intros must. split_and!; [by_key KLock as_topom LockPath_key|by_key KACL as_acl ACLPath_key|by_key KQPS as_qps ProxyQPSLimitPath_key|by_key KSentinel as_sentinel SentinelPath_key].
  - intros n must Hn. split; [by_key (KSlot n) as_slot SlotPath_key|by_key (KGroup n) as_group GroupPath_key].
  - intros token must Ht. by_key (KProxy token) as_proxy ProxyPath_key.
  - apply ListGroup_reads.
  - apply ListProxy_reads.
  - apply SlotMappings_reads; vm_compute; done.
  - apply updates_write.
  - intros gid Hg. apply (delete_writes (KGroup gid)); [by apply GroupPath_key|done|done].
  - intros token Ht. apply (delete_writes (KProxy token)); [by apply ProxyPath_key|done|done].
  - apply (delete_writes KLock); [apply LockPath_key|done|done].
  - apply acquire_locks.
Qed.
End refinement.
