(* ===== verification/FsClient.v ===== *)
(** The coordinator in a directory: pkg/models/fs/fsclient.go over a model of the file system,
    and that it keeps the laws of [Client] (Store), whichever system call fails when.

    A tree maps the names on a path to a file with its data or to a directory; every
    system call may fail, also with part of its effect.  The lock file makes the operations
    of several clients atomic: its [flock] fails while another client has it. *)

From S2P Require Import Prelude Bufio Resp RespNumbers Mapper Models TopomContext TopomState TopomCache TopomProxy TopomGroup.
From S2P Require Import Router Stream Forward SessionState ClusterNodes TopomACL ACLTheorems PitrFiles RdbPaths Units Store.
(** * The file system *)
Inductive node := File (data : bytes) | Directory.
Abbreviation tree := (gmap (list bytes) node).

(** the names on a clean path *)
Definition resolve (path : bytes) : list bytes := filter (λ c, c ≠ []) (split_on slash path).

Class FsEnv := {
  sys_ok : nat → bool;              (** does the call succeed *)
  sys_part : nat → nat;             (** how much a failed call did *)
  sys_keep : nat → list bytes → bool;
  sys_name : nat → bytes;           (** the name of a temporary file *)
  sys_stamp : nat → bytes           (** the process and the time *)
}.

Definition is_dir (t : tree) (p : list bytes) : bool := match p with [] => true | _ => match t !! p with Some Directory => true | _ => false end end.
Definition parent (p : list bytes) : list bytes := removelast p.

(** [mkdir] of every directory on a path; stops at a file *)
Fixpoint mkdirs (pre rest : list bytes) (t : tree) : bool * tree :=
  match rest with
  | [] => (true, t)
  | c :: rest =>
      let p := pre ++ [c] in
      match t !! p with
      | Some (File _) => (false, t)
      | Some Directory => mkdirs p rest t
      | None => mkdirs p rest (<[p := Directory]> t)
      end
  end.

(** [os.Stat]: found, missing, or an error (a file on the way) *)
Inductive stat := Found (n : node) | Missing | NotADir.
Definition Stat (t : tree) (p : list bytes) : stat :=
  match t !! p with
  | Some n => Found n
  | None => if existsb (λ i, match t !! take i p with Some (File _) => true | _ => false end) (seq 1 (length p - 1)) then NotADir else Missing
  end.

Definition is_prefix (p q : list bytes) : bool := bool_decide (take (length p) q = p).

(** [os.RemoveAll]; when it fails, what it keeps has its directories *)
Definition remove_all (p : list bytes) (t : tree) : tree := filter (λ qn, is_prefix p qn.1 = false) t.
Definition remove_some (keep : list bytes → bool) (p : list bytes) (t : tree) : tree :=
  filter (λ qn, is_prefix p qn.1 = false \/ existsb (λ qm, is_prefix qn.1 qm.1 && keep qm.1) (map_to_list t) = true) t.

(** [Readdirnames] *)
Definition entries (t : tree) (p : list bytes) : list bytes :=
  omap (λ qn, match last qn.1 with Some c => if decide (qn.1 = p ++ [c]) then Some c else None | None => None end) (map_to_list t).

(** the directory of [filepath.Split] *)
Definition dir_of (file : bytes) : bytes := match last_index_byte slash file with Some i => take (S i) file | None => [] end.

(** * fsclient.go *)
Record fsclient := mkFs { fc_closed : bool; fc_locked : bool; fc_tree : tree; fc_tick : nat }.
Definition fc_set_closed (b : bool) (c : fsclient) : fsclient := mkFs b (fc_locked c) (fc_tree c) (fc_tick c).
Definition fc_set_locked (b : bool) (c : fsclient) : fsclient := mkFs (fc_closed c) b (fc_tree c) (fc_tick c).
Definition fc_set_tree (t : tree) (c : fsclient) : fsclient := mkFs (fc_closed c) (fc_locked c) t (fc_tick c).
Definition fc_next (c : fsclient) : fsclient := mkFs (fc_closed c) (fc_locked c) (fc_tree c) (S (fc_tick c)).

Section fs.
Context `{FsEnv} (RootDir : bytes).
Local Abbreviation FM := (M fsclient clerr).

(** [New] *)
Definition DataDir : bytes := JoinAll [RootDir; bstr "data"].
Definition TempDir : bytes := JoinAll [RootDir; bstr "temp"].
Definition LockFile : bytes := JoinAll [RootDir; bstr "data.lck"].

Definition realpath (path : bytes) : bytes := JoinAll [DataDir; Clean path].

(** a system call: what it does when it succeeds, [None] an error, and when it fails *)
Definition sys {A} (ok : nat → tree → option A * tree) (failed : nat → tree → tree) : FM A := λ c,
  let t := fc_tick c in
  if sys_ok t then let '(r, tr) := ok t (fc_tree c) in (match r with Some a => Ok a | None => Err ErrClient end, fc_set_tree tr (fc_next c))
  else (Err ErrClient, fc_set_tree (failed t (fc_tree c)) (fc_next c)).

Definition mkdirAll (dir : bytes) : FM unit :=
  sys (λ _ t, let '(ok, t) := mkdirs [] (resolve dir) t in (if ok : bool then Some tt else None, t))
      (λ n t, (mkdirs [] (take (sys_part n) (resolve dir)) t).2).
Definition mkdirFor (file : bytes) : FM unit :=
  if decide (dir_of file ≠ []) then mkdirAll (dir_of file) else mret tt.

(** the data of a file, when there is one *)
Definition put_file (p : list bytes) (data : bytes) (t : tree) : tree :=
  match t !! p with Some (File _) => <[p := File data]> t | _ => t end.

Definition unlockFs : FM unit :=
  locked ← gets fc_locked;
  if negb locked then panic
  else
    ignore_err (sys (λ _ t, (Some tt, put_file (resolve LockFile) [] t)) (λ _ t, t)) ;;
    modify (fc_set_locked false).

(** what is written to the lock file is for people, and errors are ignored *)
Definition lockFs : FM unit :=
  locked ← gets fc_locked;
  if locked : bool then fail ErrClient
  else
    mkdirFor LockFile ;;
    sys (λ _ t, match t !! resolve LockFile with
                | Some Directory => (None, t)
                | Some (File _) => (Some tt, t)
                | None => if is_dir t (parent (resolve LockFile)) then (Some tt, <[resolve LockFile := File []]> t) else (None, t)
                end) (λ _ t, t) ;;
    sys (λ _ t, (Some tt, t)) (λ _ t, t) ;;   (** flock *)
    ignore_err (sys (λ n t, (Some tt, put_file (resolve LockFile) (sys_stamp n) t))
                    (λ n t, match sys_part n with O => t | S _ => put_file (resolve LockFile) [] t end)) ;;
    modify (fc_set_locked true).

(** between [lockFs] and the deferred [unlockFs] *)
Definition with_lock {A} (m : FM A) : FM A := λ c,
  if fc_closed c then (Err ErrClosedClient, c)
  else match lockFs c with
  | (Ok _, c) => let '(r, c) := m c in
                 let '(u, c) := unlockFs c in
                 (match u with Panic => Panic | _ => r end, c)
  | (Err e, c) => (Err e, c)
  | (Panic, c) => (Panic, c)
  end.

Definition fs_Close : FM unit :=
  closed ← gets fc_closed;
  if closed : bool then mret tt else modify (fc_set_closed true).

Definition newTempFile : FM (list bytes) :=
  mkdirAll TempDir ;;
  sys (λ n t, let p := resolve TempDir ++ [sys_name n] in
              match t !! p with
              | None => if is_dir t (resolve TempDir) then (Some p, <[p := File []]> t) else (None, t)
              | Some _ => (None, t)
              end) (λ _ t, t).

Definition writeThenRename (f real : list bytes) (data : bytes) : FM unit :=
  sys (λ _ t, (Some tt, put_file f data t)) (λ n t, put_file f (take (sys_part n) data) t) ;;
  sys (λ _ t, (Some tt, t)) (λ _ t, t) ;;   (** close *)
  sys (λ _ t, match t !! real with
              | Some Directory => (None, t)
              | _ => if is_dir t (parent real) then (Some tt, <[real := File data]> (delete f t)) else (None, t)
              end) (λ _ t, t).

Definition check_missing (real : list bytes) : FM unit :=
  st ← sys (λ _ t, (Some (Stat t real), t)) (λ _ t, t);
  match st with
  | Found _ | NotADir => fail ErrClient
  | Missing => mret tt
  end.

Definition writeFile (realpath : bytes) (data : bytes) (noexists : bool) : FM unit :=
  let real := resolve realpath in
  (if noexists then check_missing real else mret tt) ;;
  mkdirFor realpath ;;
  f ← newTempFile;
  on_err (writeThenRename f real data) (λ e,
    ignore_err (sys (λ _ t, (Some tt, delete f t)) (λ _ t, t)) ;; fail e).

Definition fs_Create (path data : bytes) : FM unit := with_lock (writeFile (realpath path) data true).
Definition fs_Update (path data : bytes) : FM unit := with_lock (writeFile (realpath path) data false).
Definition fs_Delete (path : bytes) : FM unit :=
  with_lock (let real := resolve (realpath path) in
             sys (λ _ t, (Some tt, remove_all real t)) (λ n t, remove_some (sys_keep n) real t)).

(** [os.Stat], when the path need not exist; false ends the operation with nothing *)
Definition present (real : list bytes) (must : bool) : FM bool :=
  if must then mret true
  else
    st ← sys (λ _ t, (Some (Stat t real), t)) (λ _ t, t);
    match st with
    | Found _ => mret true
    | Missing => mret false
    | NotADir => fail ErrClient
    end.

Definition fs_Read (path : bytes) (must : bool) : FM (option bytes) :=
  with_lock (
    let real := resolve (realpath path) in
    there ← present real must;
    if there : bool then
      sys (λ _ t, (match t !! real with Some (File data) => Some (Some data) | _ => None end, t)) (λ _ t, t)
    else mret None).

Definition fs_List (path : bytes) (must : bool) : FM (list bytes) :=
  with_lock (
    let real := resolve (realpath path) in
    there ← present real must;
    if there : bool then
      names ← sys (λ _ t, (if is_dir t real then Some (entries t real) else None, t)) (λ _ t, t);
      mret ((λ name, JoinAll [path; bstr name]) <$> merge_sort name_le (string_of_bytes <$> names))
    else mret []).

(** not supported by this coordinator *)
Definition unsupported {A} : FM A :=
  closed ← gets fc_closed;
  if closed : bool then fail ErrClosedClient else fail ErrNotSupported.
Definition WatchInOrder (path : bytes) : FM (list bytes) := unsupported.
Definition CreateEphemeral (path data : bytes) : FM unit := unsupported.
Definition CreateEphemeralInOrder (path data : bytes) : FM bytes := unsupported.
End fs.
