(* ===== verification/FsTheorems.v ===== *)
(** The coordinator in a directory (FsClient) keeps the laws of a coordinator (Store). *)

From S2P Require Import Prelude Bufio Resp RespNumbers Mapper Models TopomContext TopomState TopomCache TopomProxy TopomGroup.
From S2P Require Import Router Stream Forward SessionState ClusterNodes TopomACL ACLTheorems PitrFiles RdbPaths Units TopomApiTheorems Store StoreTheorems FsClient.
(** * Trees *)
Record tree_ok (t : tree) : Prop := {
  to_names p n : t !! p = Some n → p ≠ [] /\ Forall proper p;
  to_parent p n : t !! p = Some n → is_dir t (parent p) = true
}.

Lemma parent_snoc p c : parent (p ++ [c]) = p.
Proof. apply removelast_last. Qed.
Lemma parent_ne p : p ≠ [] → parent p ≠ p.
Proof. intros Hp He. destruct (exists_last Hp) as (q & c & ->). rewrite parent_snoc in He. apply (f_equal length) in He. rewrite length_app in He. cbn in He. lia. Qed.

Lemma is_dir_insert_dir t p q : is_dir t q = true → is_dir (<[p := Directory]> t) q = true.
Proof. unfold is_dir. destruct q as [|b q]; [done|]. destruct (decide (p = b :: q)) as [->|]; [by rewrite lookup_insert_eq|by rewrite lookup_insert_ne]. Qed.
Lemma is_dir_other t t' q : (q ≠ [] → t' !! q = t !! q) → is_dir t' q = is_dir t q.
Proof. unfold is_dir. destruct q; [done|]. intros Hq. by rewrite Hq. Qed.
Lemma is_dir_lookup t p : p ≠ [] → is_dir t p = true ↔ t !! p = Some Directory.
Proof. unfold is_dir. destruct p; [done|]. intros _. destruct (t !! _) as [[]|]; split; congruence. Qed.

Lemma ok_mkdir t p : tree_ok t → p ≠ [] → Forall proper p → is_dir t (parent p) = true → t !! p = None → tree_ok (<[p := Directory]> t).
Proof.
  intros [O1 O2] Hne Hp Hd Hn. split; intros q n; rewrite lookup_insert_Some.
  - intros [[<- _]|[_ Hq]]; [done|by apply (O1 q n)].
  - intros [[<- _]|[_ Hq]]; apply is_dir_insert_dir; [done|by apply (O2 q n)].
Qed.

Lemma ok_put t p data : tree_ok t → p ≠ [] → Forall proper p → is_dir t (parent p) = true → t !! p ≠ Some Directory → tree_ok (<[p := File data]> t).
Proof.
  intros [O1 O2] Hne Hp Hd Hn. split; intros q n; rewrite lookup_insert_Some.
  - intros [[<- _]|[_ Hq]]; [done|by apply (O1 q n)].
  - intros Hq. assert (is_dir t (parent q) = true) as Hdq by (destruct Hq as [[<- _]|[_ Hq]]; [done|by apply (O2 q n)]).
    erewrite is_dir_other; [exact Hdq|]. intros Hqne. rewrite lookup_insert_ne; [done|]. intros He. apply Hn. rewrite He. by apply is_dir_lookup.
Qed.

Lemma ok_delete t p : tree_ok t → t !! p ≠ Some Directory → tree_ok (delete p t).
Proof.
  intros [O1 O2] Hn. split; intros q n [Hpq Hq]%lookup_delete_Some; [by apply (O1 q n)|].
  pose proof (O2 q n Hq) as Hd. erewrite is_dir_other; [exact Hd|]. intros Hqne. rewrite lookup_delete_ne; [done|].
  intros ->. by apply Hn, is_dir_lookup.
Qed.

Lemma ok_put_file t p data : tree_ok t → tree_ok (put_file p data t).
Proof.
  intros Ht. unfold put_file. destruct (t !! p) as [[old|]|] eqn:Hp; [|done..]. destruct (to_names t Ht p _ Hp) as [H1 H2].
  apply ok_put; [done..|by apply (to_parent t Ht p (File old))|by rewrite Hp].
Qed.
Lemma put_file_other t p data q : q ≠ p → put_file p data t !! q = t !! q.
Proof. intros Hq. unfold put_file. destruct (t !! p) as [[]|]; [|done..]. by rewrite lookup_insert_ne. Qed.
Lemma put_file_not_dir t p data : t !! p ≠ Some Directory → put_file p data t !! p ≠ Some Directory.
Proof. unfold put_file. intros Hp. destruct (t !! p) as [[]|] eqn:E; [by rewrite lookup_insert_eq|by rewrite E..]. Qed.

(** [mkdirs] makes directories and nothing else *)
Lemma mkdirs_spec rest : ∀ pre t, tree_ok t → Forall proper (pre ++ rest) → is_dir t pre = true →
  let '(ok, t') := mkdirs pre rest t in
  tree_ok t' /\ (∀ q b, t' !! q = Some (File b) ↔ t !! q = Some (File b)) /\ (∀ q, is_dir t q = true → is_dir t' q = true) /\
  (ok = true → is_dir t' (pre ++ rest) = true).
Proof.
  induction rest as [|c rest IH]; intros pre t Ht Hp Hd; [split_and!; try done; by rewrite app_nil_r|].
  cbn [mkdirs]. assert (pre ++ c :: rest = (pre ++ [c]) ++ rest) as He by by rewrite <-app_assoc. rewrite He in *. clear He.
  assert (Forall proper (pre ++ [c])) as Hpc by (by apply Forall_app in Hp as [? _]).
  destruct (t !! (pre ++ [c])) as [[old|]|] eqn:Hl.
  - cbv beta iota. by split_and!.
  - apply IH; [done|done|]. apply is_dir_lookup; [by destruct pre|done].
  - specialize (IH (pre ++ [c]) (<[pre ++ [c] := Directory]> t)). destruct (mkdirs _ _ _) as [ok t'].
    destruct IH as (K1 & K2 & K3 & K4); [|done|apply is_dir_lookup; [by destruct pre|by rewrite lookup_insert_eq]|].
    { apply ok_mkdir; [done|by destruct pre|done|by rewrite parent_snoc|done]. }
    split_and!; [done| |intros; by apply K3, is_dir_insert_dir|done].
    intros q b. rewrite K2. destruct (decide (pre ++ [c] = q)) as [<-|]; [by rewrite lookup_insert_eq, Hl|by rewrite lookup_insert_ne].
Qed.

Lemma is_prefix_spec p q : is_prefix p q = true ↔ ∃ r, q = p ++ r.
Proof.
  unfold is_prefix. rewrite bool_decide_eq_true. split; [intros He; exists (drop (length p) q); by rewrite <-(take_drop (length p) q), He at 1|].
  intros [r ->]. apply take_app_length.
Qed.
Lemma prefix_parent p q : is_prefix p (parent q) = true → is_prefix p q = true.
Proof.
  rewrite !is_prefix_spec. intros [r Hr]. destruct (decide (q = [])) as [->|Hq]; [cbn in Hr; exists []; by destruct p|].
  destruct (exists_last Hq) as (q' & c & ->). rewrite parent_snoc in Hr. subst. exists (r ++ [c]). by rewrite app_assoc.
Qed.

Lemma ok_filter t (P : list bytes * node → Prop) `{!∀ x, Decision (P x)} : tree_ok t →
  (∀ q n d, t !! q = Some n → P (q, n) → t !! parent q = Some d → P (parent q, d)) → tree_ok (filter P t).
Proof.
  intros [O1 O2] HP. split; intros q n [Hq Hn]%map_lookup_filter_Some; [by apply (O1 q n)|].
  pose proof (O2 q n Hq) as Hd. destruct (decide (parent q = [])) as [->|Hne]; [done|]. apply is_dir_lookup in Hd; [|done].
  apply is_dir_lookup; [done|]. apply map_lookup_filter_Some. split; [done|]. by eapply HP.
Qed.
Lemma ok_remove_all p t : tree_ok t → tree_ok (remove_all p t).
Proof.
  intros Ht. apply ok_filter; [done|]. cbn. intros q n d _ Hq _. destruct (is_prefix p (parent q)) eqn:E; [|done].
  apply prefix_parent in E. congruence.
Qed.
Lemma ok_remove_some keep p t : tree_ok t → tree_ok (remove_some keep p t).
Proof.
  intros Ht. apply ok_filter; [done|]. cbn. intros q n d _ Hq _. destruct (is_prefix p (parent q)) eqn:E; [|by left]. right.
  apply prefix_parent in E. destruct Hq as [Hq|Hq]; [congruence|]. apply existsb_exists in Hq as (x & Hx & [Hp Hk]%andb_true_iff).
  apply existsb_exists. exists x. split; [done|]. rewrite Hk, andb_true_r. apply is_prefix_spec in Hp as [r Hr].
  apply is_prefix_spec. destruct (decide (q = [])) as [->|Hqe]; [by exists x.1|]. destruct (exists_last Hqe) as (q' & c & ->).
  rewrite parent_snoc. exists (c :: r). by rewrite Hr, <-app_assoc.
Qed.

(** * Paths *)
Lemma split_on_app c a b : split_on c (a ++ c :: b) = split_on c a ++ split_on c b.
Proof.
  unfold split_on. induction a as [|x a IH]; cbn [app line_split].
  - destruct (line_split c b) as [ls l]. by rewrite decide_True.
  - destruct (line_split c (a ++ c :: b)) as [ls l], (line_split c a) as [la l1], (line_split c b) as [lb l2].
    rewrite <-app_assoc in IH. cbn in IH.
    assert (ls = la ++ l1 :: lb /\ l = l2) as [-> ->].
    { change (la ++ l1 :: lb ++ [l2]) with (la ++ (l1 :: lb) ++ [l2]) in IH. rewrite app_assoc in IH. by apply app_inj_2 in IH as [? [= ->]]. }
    destruct (decide (x = c)); [cbn; f_equal; by rewrite <-!app_assoc|]. destruct la; cbn; [done|]. f_equal. by rewrite <-!app_assoc.
Qed.
Lemma split_abs names : Forall proper names → split_on slash (abs_path names) = [] :: match names with [] => [[]] | _ => names end.
Proof.
  intros Hn. unfold abs_path. rewrite split_on_slash. destruct names; [done|]. by rewrite split_on_join by (done || by apply proper_no_sep).
Qed.
Lemma filter_proper names : Forall proper names → filter (λ c, c ≠ []) names = names.
Proof. induction 1 as [|c l (Hc & _) _ IH]; [done|]. rewrite filter_cons_True by done. by rewrite IH. Qed.
Lemma resolve_abs names : Forall proper names → resolve (abs_path names) = names.
Proof.
  intros Hn. unfold resolve. rewrite split_abs by done. rewrite filter_cons_False by (by intros []). destruct names; [done|]. by apply filter_proper.
Qed.

Lemma join_cons_slash a b l : join_with slash (a :: b :: l) = a ++ slash :: join_with slash (b :: l).
Proof. done. Qed.

(** the path [x] below [a], when [x] is the names [b] *)
Lemma Clean_below a b x : Forall proper a → (∀ st, foldl (clean_push true) st (split_on slash x) = rev b ++ st) →
  Clean (abs_path a ++ slash :: x) = abs_path (a ++ b).
Proof.
  intros Ha Hx. change (abs_path a ++ slash :: x) with (slash :: join_with slash a ++ slash :: x). unfold Clean.
  rewrite bool_decide_true by done. cbv zeta. unfold abs_path at 1. f_equal. f_equal.
  change (slash :: join_with slash a ++ slash :: x) with (abs_path a ++ slash :: x).
  rewrite split_on_app, split_abs, foldl_app, Hx by done. cbn [foldl]. change (clean_push true [] []) with (@nil bytes).
  assert (foldl (clean_push true) [] match a with [] => [[]] | _ => a end = rev a) as ->; [|by rewrite <-rev_app_distr, rev_involutive].
  destruct a; [done|]. by rewrite clean_keeps, app_nil_r.
Qed.
Lemma Clean_join a b : Forall proper a → Forall proper b → Clean (abs_path a ++ slash :: abs_path b) = abs_path (a ++ b).
Proof.
  intros Ha Hb. apply Clean_below; [done|]. intros st. rewrite split_abs by done. cbn [foldl]. change (clean_push true st []) with st.
  destruct b; [done|]. by apply clean_keeps.
Qed.
Lemma JoinAll_child a c : Forall proper a → proper c → JoinAll [abs_path a; c] = abs_path (a ++ [c]).
Proof.
  intros Ha Hc. cbn [JoinAll]. rewrite decide_False by done. apply (Clean_below a [c] c); [done|].
  intros st. assert (split_on slash c = [c]) as ->; [|by apply (clean_keeps [c]), Forall_singleton].
  apply (split_on_join [c]); [done|]. apply Forall_singleton. apply Hc.
Qed.
Lemma JoinAll_join a b : Forall proper a → Forall proper b → JoinAll [abs_path a; abs_path b] = abs_path (a ++ b).
Proof. intros Ha Hb. cbn [JoinAll]. rewrite decide_False by done. by apply Clean_join. Qed.

Lemma last_index_split c x y : c ∉ y → last_index_byte c (x ++ c :: y) = Some (length x).
Proof.
  intros Hy. unfold last_index_byte, index_byte.
  assert (list_find (λ z, z = c) (rev (x ++ c :: y)) = Some (length y, c)) as ->.
  { apply list_find_Some. rewrite rev_app_distr. cbn [rev]. split_and!; [|done|].
    - rewrite <-app_assoc, lookup_app_r by by rewrite length_rev. by rewrite length_rev, Nat.sub_diag.
    - intros j z Hj Hlt He. subst. rewrite <-app_assoc, lookup_app_l in Hj by by rewrite length_rev.
      apply list_elem_of_lookup_2, list_elem_of_In, in_rev in Hj. by apply Hy, list_elem_of_In. }
  cbn. f_equal. rewrite length_app. cbn. lia.
Qed.

Lemma dir_of_abs p c : Forall proper p → proper c → dir_of (abs_path (p ++ [c])) ≠ [] /\ resolve (dir_of (abs_path (p ++ [c]))) = p.
Proof.
  intros Hp Hc. assert (∃ x, abs_path (p ++ [c]) = x ++ slash :: c /\ resolve (x ++ [slash]) = p) as (x & Hx & Hr).
  { destruct p as [|a p]; [by exists []|]. exists (abs_path (a :: p)). split.
    - unfold abs_path. cbn [app]. f_equal. clear. revert a. induction p as [|b p IH]; intros a; [done|]. cbn [app]. rewrite !join_cons_slash, IH. by rewrite <-app_assoc.
    - unfold resolve. rewrite (split_on_app slash _ []). rewrite split_abs by done. rewrite filter_app.
      rewrite filter_cons_False by (by intros []). rewrite filter_proper by done. apply app_nil_r. }
  unfold dir_of. rewrite Hx, last_index_split by apply Hc. change (take (S (length x)) (x ++ slash :: c)) with (take (S (length x)) (x ++ [slash] ++ c)).
  rewrite app_assoc, take_app_length' by (rewrite length_app; cbn; lia). split; [by destruct x|done].
Qed.

(** * The client *)
Class FsEnvLaws `{FsEnv} := sys_name_proper n : proper (sys_name n).

Section client.
Context `{FsEnvLaws} (root : list bytes) (Hroot : Forall proper root).
Local Abbreviation RootDir := (abs_path root).
Local Abbreviation FM := (M fsclient clerr).

Definition data_names : list bytes := root ++ [bstr "data"].
Definition temp_names : list bytes := root ++ [bstr "temp"].
Definition lock_names : list bytes := root ++ [bstr "data.lck"].

Lemma lock_name_proper : proper (bstr "data.lck").
Proof. unfold proper. split_and!; [done..|]. by vm_compute; intros Hin; repeat (apply elem_of_cons in Hin as [?|Hin]; [done|]); apply not_elem_of_nil in Hin. Qed.
Lemma data_proper : Forall proper data_names.
Proof. apply Forall_app. split; [done|]. apply Forall_singleton. by apply plain_name_proper. Qed.
Lemma temp_proper : Forall proper temp_names.
Proof. apply Forall_app. split; [done|]. apply Forall_singleton. by apply plain_name_proper. Qed.
Lemma lock_proper : Forall proper lock_names.
Proof. apply Forall_app. split; [done|]. apply Forall_singleton, lock_name_proper. Qed.

Lemma lock_ne : lock_names ≠ [].
Proof. unfold lock_names. by destruct root. Qed.

Lemma data_ne rel : data_names ++ rel ≠ [].
Proof. unfold data_names. by destruct root. Qed.
Lemma realpath_abs names : Forall proper names → realpath RootDir (abs_path names) = abs_path (data_names ++ names).
Proof.
  intros Hn. unfold realpath, DataDir. rewrite Clean_abs_path by done. rewrite JoinAll_child by (done || by apply plain_name_proper).
  apply JoinAll_join; [apply data_proper|done].
Qed.
Lemma LockFile_abs : LockFile RootDir = abs_path lock_names.
Proof. apply JoinAll_child; [done|apply lock_name_proper]. Qed.
Lemma TempDir_abs : TempDir RootDir = abs_path temp_names.
Proof. apply JoinAll_child; [done|by apply plain_name_proper]. Qed.

(** ** What the operations do to the documents *)
Definition same_docs (t t' : tree) : Prop := ∀ rel b, t' !! (data_names ++ rel) = Some (File b) ↔ t !! (data_names ++ rel) = Some (File b).
Lemma same_docs_refl t : same_docs t t.
Proof. done. Qed.
Lemma same_docs_trans t1 t2 t3 : same_docs t1 t2 → same_docs t2 t3 → same_docs t1 t3.
Proof. intros Ha Hb rel b. etrans; [apply Hb|apply Ha]. Qed.

(** [m] leaves a tree in order, the flags and the documents alone *)
Definition quiet {A} (m : FM A) (P : A → tree → Prop) : Prop := ∀ c, tree_ok (fc_tree c) → wp m (λ r c',
  r ≠ Panic /\ fc_closed c' = fc_closed c /\ fc_locked c' = fc_locked c /\ tree_ok (fc_tree c') /\ same_docs (fc_tree c) (fc_tree c') /\
  ∀ a, r = Ok a → P a (fc_tree c')) c.

Lemma fs_quiet_bind {A B} (m : FM A) (k : A → FM B) P Q : quiet m P → (∀ a, quiet (k a) Q) → quiet (m ≫= k) Q.
Proof.
  intros Hm Hk c Hc. apply wp_bind. eapply wp_mono; [by apply Hm|]. intros r c1 (Hr & Hcl & Hlo & Ht & Hs & Ha).
  destruct r as [a|e|]; [|by split_and!|done]. eapply wp_mono; [by apply Hk|]. intros r c2 (Hr2 & Hcl2 & Hlo2 & Ht2 & Hs2 & Ha2).
  split_and!; [done|congruence|congruence|done|by eapply same_docs_trans|done].
Qed.
Lemma fs_quiet_ret {A} (a : A) (P : A → tree → Prop) : (∀ t, tree_ok t → P a t) → quiet (mret a) P.
Proof. intros HP c Hc. apply wp_ret. split_and!; try done. intros a' [= <-]. by apply HP. Qed.
Lemma quiet_fail {A} (e : clerr) (P : A → tree → Prop) : quiet (fail e) P.
Proof. intros c Hc. by apply wp_fail. Qed.
Lemma quiet_sys {A} (ok : nat → tree → option A * tree) (failed : nat → tree → tree) (P : A → tree → Prop) :
  (∀ n t, tree_ok t → tree_ok (ok n t).2 /\ same_docs t (ok n t).2 /\ ∀ a, (ok n t).1 = Some a → P a (ok n t).2) →
  (∀ n t, tree_ok t → tree_ok (failed n t) /\ same_docs t (failed n t)) → quiet (sys ok failed) P.
Proof.
  intros Hok Hfail c Hc. unfold wp, sys. destruct (sys_ok (fc_tick c)).
  - destruct (Hok (fc_tick c) _ Hc) as (K1 & K2 & K3). destruct (ok (fc_tick c) (fc_tree c)) as [r t]. cbn in *.
    split_and!; [by destruct r|done|done|done|done|]. intros a. destruct r; [|done]. intros [= ->]. by apply K3.
  - destruct (Hfail (fc_tick c) _ Hc) as (K1 & K2). cbn. by split_and!.
Qed.
Lemma quiet_ignore {A} (m : FM A) P : quiet m P → quiet (ignore_err m) (λ _ _, True).
Proof.
  intros Hm c Hc. apply wp_ignore_err. eapply wp_mono; [by apply Hm|]. intros r c1 (Hr & Hcl & Hlo & Ht & Hs & _). split_and!; try done. by destruct r.
Qed.
Lemma quiet_weaken {A} (m : FM A) (P Q : A → tree → Prop) : quiet m P → (∀ a t, P a t → Q a t) → quiet m Q.
Proof. intros Hm HPQ c Hc. eapply wp_mono; [by apply Hm|]. intros r c1 (Hr & Hcl & Hlo & Ht & Hs & HP). split_and!; try done. intros a Ha. by apply HPQ, HP. Qed.

(** *** The lock *)
Lemma outside_data p rel : p = lock_names \/ (∃ more, p = temp_names ++ more) → data_names ++ rel ≠ p.
Proof.
  unfold data_names, lock_names, temp_names. intros [->|[more ->]]; rewrite <-!app_assoc; intros He%app_inv_head; discriminate He.
Qed.
Lemma same_docs_outside t t' : (∀ q, (∀ rel, q ≠ data_names ++ rel) \/ t' !! q = t !! q) → same_docs t t'.
Proof. intros Hq rel b. destruct (Hq (data_names ++ rel)) as [Hn| ->]; [by destruct (Hn rel)|done]. Qed.

Lemma quiet_mkdirAll names : Forall proper names → ∀ dir, resolve dir = names → quiet (mkdirAll dir) (λ _ t, is_dir t names = true).
Proof.
  intros Hn dir Hd. unfold mkdirAll. rewrite Hd. apply quiet_sys.
  - intros _ t Ht. pose proof (mkdirs_spec names [] t Ht Hn eq_refl) as Hm. destruct (mkdirs [] names t) as [ok t']. destruct Hm as (K1 & K2 & K3 & K4).
    cbn. split_and!; [done|intros rel b; apply K2|]. intros a. destruct ok; [|done]. intros _. by apply K4.
  - intros n t Ht. pose proof (mkdirs_spec (take (sys_part n) names) [] t Ht ltac:(by apply Forall_take) eq_refl) as Hm.
    destruct (mkdirs _ _ t) as [ok t']. destruct Hm as (K1 & K2 & _). cbn. split; [done|]. intros rel b; apply K2.
Qed.
Lemma quiet_mkdirFor p c : Forall proper p → proper c → quiet (mkdirFor (abs_path (p ++ [c]))) (λ _ t, is_dir t p = true).
Proof.
  intros Hp Hc. destruct (dir_of_abs p c Hp Hc) as [Hne Hr]. unfold mkdirFor. rewrite decide_True by done. by apply quiet_mkdirAll.
Qed.

Lemma quiet_put_lock (data : nat → bytes) (failed : nat → tree → tree) : (∀ n t, failed n t = t \/ ∃ d, failed n t = put_file lock_names d t) →
  quiet (sys (λ n t, (Some tt, put_file lock_names (data n) t)) failed) (λ _ _, True).
Proof.
  assert (∀ d t, tree_ok t → tree_ok (put_file lock_names d t) /\ same_docs t (put_file lock_names d t)) as Hput.
  { intros d t Ht. split; [by apply ok_put_file|]. apply same_docs_outside. intros q. destruct (decide (q = lock_names)) as [->|Hq]; [left|right; by apply put_file_other].
    intros rel He. by apply (outside_data lock_names rel); [left|]. }
  intros Hf. apply quiet_sys; cbn.
  - intros n t Ht. destruct (Hput (data n) t Ht). by split_and!.
  - intros n t Ht. destruct (Hf n t) as [->|[d ->]]; [by split|by apply Hput].
Qed.

Lemma wp_quiet {A B} (m : FM A) (k : A → FM B) P Q c : quiet m P → tree_ok (fc_tree c) →
  (∀ r c1, r ≠ Panic → fc_closed c1 = fc_closed c → fc_locked c1 = fc_locked c → tree_ok (fc_tree c1) → same_docs (fc_tree c) (fc_tree c1) →
     match r with Ok a => P a (fc_tree c1) → wp (k a) Q c1 | Err e => Q (Err e) c1 | Panic => True end) →
  wp (m ≫= k) Q c.
Proof.
  intros Hm Hc HQ. apply wp_bind. eapply wp_mono; [by apply Hm|]. intros r c1 (Hr & Hcl & Hlo & Ht & Hs & Ha).
  specialize (HQ r c1 Hr Hcl Hlo Ht Hs). destruct r; [by apply HQ, Ha|done|done].
Qed.

Lemma quiet_open : quiet (sys (λ _ t, match t !! lock_names with
    | Some Directory => (None, t)
    | Some (File _) => (Some tt, t)
    | None => if is_dir t (parent lock_names) then (Some tt, <[lock_names := File []]> t) else (None, t)
    end) (λ _ t, t)) (λ _ _, True).
Proof.
  apply quiet_sys; [|done]. intros _ t Ht. destruct (t !! lock_names) as [[old|]|] eqn:Hl; [done..|].
  destruct (is_dir t (parent lock_names)) eqn:Hd; [|done]. cbn. split_and!; [|by apply same_docs_outside; intros q; destruct (decide (q = lock_names)) as [->|Hq];
    [left; intros rel He; by apply (outside_data lock_names rel); [left|]|right; by rewrite lookup_insert_ne]|done].
  apply ok_put; [done|apply lock_ne|apply lock_proper|done|by rewrite Hl].
Qed.

Lemma lockFs_wp c : fc_locked c = false → tree_ok (fc_tree c) → wp (lockFs RootDir) (λ r c1,
  r ≠ Panic /\ fc_closed c1 = fc_closed c /\ tree_ok (fc_tree c1) /\ same_docs (fc_tree c) (fc_tree c1) /\
  fc_locked c1 = match r with Ok _ => true | _ => false end) c.
Proof.
  intros Hl Hc. unfold lockFs. rewrite LockFile_abs, resolve_abs by apply lock_proper. apply wp_bind, wp_gets. rewrite Hl.
  eapply wp_quiet; [apply quiet_mkdirFor; [done|apply lock_name_proper]|done|]. intros r1 c1 Hr1 E1 L1 T1 S1. destruct r1; [intros _|split_and!; [done..|congruence]|done].
  eapply wp_quiet; [apply quiet_open|done|]. intros r2 c2 Hr2 E2 L2 T2 S2. pose proof (same_docs_trans _ _ _ S1 S2) as S12. destruct r2; [intros _|split_and!; [done|congruence|done|done|congruence]|done].
  eapply (wp_quiet _ _ (λ _ _, True)); [by apply quiet_sys|done|]. intros r3 c3 Hr3 E3 L3 T3 S3. pose proof (same_docs_trans _ _ _ S12 S3) as S13.
  destruct r3; [intros _|split_and!; [done|congruence|done|done|congruence]|done].
  eapply wp_quiet; [eapply quiet_ignore, quiet_put_lock; intros n t; destruct (sys_part n); [by left|right; by eexists]|done|].
  intros r4 c4 Hr4 E4 L4 T4 S4. pose proof (same_docs_trans _ _ _ S13 S4) as S14. destruct r4; [intros _|split_and!; [done|congruence|done|done|congruence]|done].
  apply wp_modify. split_and!; [done|cbn; congruence|done..].
Qed.

Lemma unlockFs_wp c : fc_locked c = true → tree_ok (fc_tree c) → wp (unlockFs RootDir) (λ r c1,
  r = Ok tt /\ fc_closed c1 = fc_closed c /\ fc_locked c1 = false /\ tree_ok (fc_tree c1) /\ same_docs (fc_tree c) (fc_tree c1)) c.
Proof.
  intros Hl Hc. unfold unlockFs. rewrite LockFile_abs, resolve_abs by apply lock_proper. apply wp_bind, wp_gets. rewrite Hl. cbn [negb].
  apply wp_bind, wp_ignore_err. eapply wp_mono; [eapply quiet_put_lock; [by left|done]|].
  intros r c1 (Hr & E1 & L1 & T1 & S1 & _). destruct r; [apply wp_modify; by split_and!..|done].
Qed.

(** *** Operations under the lock *)

(** what an operation did, but for the lock file *)
Definition did {A} (R : outcome clerr A → tree → tree → Prop) (r : outcome clerr A) (t t' : tree) : Prop :=
  (∃ e, r = Err e /\ same_docs t t') \/ ∃ t1 t2, tree_ok t1 /\ tree_ok t2 /\ same_docs t t1 /\ R r t1 t2 /\ same_docs t2 t'.

(** [m] keeps the tree in order and the flags, and relates the trees by [R] *)
Definition effect {A} (m : FM A) (R : outcome clerr A → tree → tree → Prop) : Prop := ∀ c, tree_ok (fc_tree c) → wp m (λ r c',
  r ≠ Panic /\ fc_closed c' = fc_closed c /\ fc_locked c' = fc_locked c /\ tree_ok (fc_tree c') /\ R r (fc_tree c) (fc_tree c')) c.

Lemma with_lock_wp {A} (m : FM A) R c : effect m R → fc_locked c = false → tree_ok (fc_tree c) → wp (with_lock RootDir m) (λ r c',
  r ≠ Panic /\ fc_closed c' = fc_closed c /\ fc_locked c' = false /\ tree_ok (fc_tree c') /\ did R r (fc_tree c) (fc_tree c')) c.
Proof.
  intros Hm Hl Hc. unfold wp, with_lock. destruct (fc_closed c) eqn:Hcl; [cbn; split_and!; try done; left; by eexists|].
  pose proof (lockFs_wp c Hl Hc) as Hk. unfold wp in Hk. destruct (lockFs RootDir c) as [r1 c1]. destruct Hk as (Hr1 & E1 & T1 & S1 & L1). cbn [fst snd] in *.
  destruct r1 as [[]|e|]; [|cbn; split_and!; try done; [congruence|left; by eexists]|done].
  pose proof (Hm c1 T1) as Hk. unfold wp in Hk. destruct (m c1) as [r2 c2]. destruct Hk as (Hr2 & E2 & L2 & T2 & R2). cbn [fst snd] in *.
  pose proof (unlockFs_wp c2 ltac:(congruence) T2) as Hk. unfold wp in Hk. destruct (unlockFs RootDir c2) as [r3 c3]. cbn [fst snd] in Hk. destruct Hk as (-> & E3 & L3 & T3 & S3). cbn [fst snd] in *.
  split_and!; [done|congruence|done|done|]. right. exists (fc_tree c1), (fc_tree c2). by split_and!.
Qed.

Lemma effect_quiet {A} (m : FM A) P : quiet m P → effect m (λ r t t', same_docs t t' /\ ∀ a, r = Ok a → P a t').
Proof. intros Hm c Hc. eapply wp_mono; [by apply Hm|]. intros r c1 (K1 & K2 & K3 & K4 & K5 & K6). by split_and!. Qed.

(** *** Writing *)
Definition docs_put (rel : list bytes) (data : bytes) (t t' : tree) : Prop := ∀ rel' b,
  t' !! (data_names ++ rel') = Some (File b) ↔ (rel' = rel /\ b = data \/ rel' ≠ rel /\ t !! (data_names ++ rel') = Some (File b)).

Lemma temp_outside name rel : data_names ++ rel ≠ temp_names ++ [name].
Proof. apply outside_data. right. by eexists. Qed.

Lemma quiet_put_temp (f : list bytes) name (data : bytes) (failed : nat → bytes) : f = temp_names ++ [name] →
  quiet (sys (λ _ t, (Some tt, put_file f data t)) (λ n t, put_file f (failed n) t)) (λ _ _, True).
Proof.
  intros ->. assert (∀ d t, tree_ok t → tree_ok (put_file (temp_names ++ [name]) d t) /\ same_docs t (put_file (temp_names ++ [name]) d t)) as Hput.
  { intros d t Ht. split; [by apply ok_put_file|]. intros rel b. by rewrite put_file_other by apply temp_outside. }
  apply quiet_sys; cbn; intros n t Ht; [|by apply Hput]. destruct (Hput data t Ht). by split_and!.
Qed.

Lemma quiet_newTempFile : quiet (newTempFile RootDir) (λ f t, ∃ name, f = temp_names ++ [name] /\ t !! f ≠ Some Directory).
Proof.
  unfold newTempFile. rewrite TempDir_abs. eapply fs_quiet_bind; [apply quiet_mkdirAll; [apply temp_proper|apply resolve_abs, temp_proper]|]. intros _.
  rewrite resolve_abs by apply temp_proper. apply quiet_sys; [|done]. intros n t Ht. cbn.
  destruct (t !! (temp_names ++ [sys_name n])) as [|] eqn:Hl; [done|]. destruct (is_dir t temp_names) eqn:Hd; [|done]. cbn. split_and!.
  - apply ok_put; [done|by destruct temp_names| |by rewrite parent_snoc|by rewrite Hl].
    apply Forall_app. split; [apply temp_proper|]. apply Forall_singleton, sys_name_proper.
  - intros rel b. by rewrite lookup_insert_ne by (symmetry; apply temp_outside).
  - intros a [= <-]. exists (sys_name n). split; [done|]. by rewrite lookup_insert_eq.
Qed.

(** [m], when the tree meets [pre] *)
Definition kept (pre : tree → Prop) (c c' : fsclient) : Prop :=
  fc_closed c' = fc_closed c /\ fc_locked c' = fc_locked c /\ tree_ok (fc_tree c') /\ same_docs (fc_tree c) (fc_tree c') /\ pre (fc_tree c').
Lemma kept_trans pre c1 c2 c3 : kept pre c1 c2 → kept pre c2 c3 → kept pre c1 c3.
Proof. intros (A1 & A2 & A3 & A4 & A5) (B1 & B2 & B3 & B4 & B5). split_and!; [congruence|congruence|done|by eapply same_docs_trans|done]. Qed.

Lemma sys_wp {A} (ok : nat → tree → option A * tree) (failed : nat → tree → tree) Q c :
  (∀ n r t, ok n (fc_tree c) = (r, t) → Q (match r with Some a => Ok a | None => Err ErrClient end) (fc_set_tree t (fc_next c))) →
  (∀ n, Q (Err ErrClient) (fc_set_tree (failed n (fc_tree c)) (fc_next c))) → wp (sys ok failed) Q c.
Proof. intros Hok Hf. unfold wp, sys. destruct (sys_ok _); [|apply Hf]. specialize (Hok (fc_tick c)). destruct (ok _ _) as [r t]. by apply Hok. Qed.

Lemma put_temp_kept name data c : let f := temp_names ++ [name] in
  tree_ok (fc_tree c) → fc_tree c !! f ≠ Some Directory → kept (λ t, t !! f ≠ Some Directory) c (fc_set_tree (put_file f data (fc_tree c)) (fc_next c)).
Proof.
  intros f Ht Hf. split_and!; [done|done|by apply ok_put_file| |by apply put_file_not_dir].
  intros rel b. cbn. by rewrite put_file_other by apply temp_outside.
Qed.

Lemma rename_wp name rel data c : let f := temp_names ++ [name] in let real := data_names ++ rel in Forall proper rel →
  tree_ok (fc_tree c) → fc_tree c !! f ≠ Some Directory →
  wp (sys (λ _ t, match t !! real with
              | Some Directory => (None, t)
              | _ => if is_dir t (parent real) then (Some tt, <[real := File data]> (delete f t)) else (None, t)
              end) (λ _ t, t)) (λ r c', match r with
    | Ok _ => fc_closed c' = fc_closed c /\ fc_locked c' = fc_locked c /\ tree_ok (fc_tree c') /\ docs_put rel data (fc_tree c) (fc_tree c')
    | Err _ => kept (λ t, t !! f ≠ Some Directory) c c'
    | Panic => False
    end) c.
Proof.
  intros f real Hrel Hc Hf. assert (real ≠ f) as Hne by apply temp_outside.
  assert (kept (λ t, t !! f ≠ Some Directory) c (fc_set_tree (fc_tree c) (fc_next c))) as Hsame by done.
  apply sys_wp; [|done]. intros _ r t. assert (fc_tree c !! real = Some Directory \/ fc_tree c !! real ≠ Some Directory) as [->|Hd]; [destruct (fc_tree c !! real) as [[]|]; auto|by intros [= <- <-]|].
  assert (∀ x y : option unit * tree, match fc_tree c !! real with Some Directory => x | _ => y end = y) as ->
    by (intros x y; destruct (fc_tree c !! real) as [[]|]; done).
  destruct (is_dir (fc_tree c) (parent real)) eqn:Hp; [|by intros [= <- <-]]. intros [= <- <-]. split_and!; [done|done| |].
  - cbn. apply ok_put; [by apply ok_delete|apply data_ne|apply Forall_app; split; [apply data_proper|done]| |by rewrite lookup_delete_ne].
    erewrite is_dir_other; [exact Hp|]. intros Hpne. rewrite lookup_delete_ne; [done|]. intros He. apply Hf. rewrite He. by apply is_dir_lookup.
  - intros rel' b. cbn. rewrite lookup_insert_Some, lookup_delete_Some. split.
    + intros [[<-%app_inv_head [= ->]]|[Hn [_ Hb]]]; [by left|right]. split; [|done]. intros ->. by apply Hn.
    + intros [[-> ->]|[Hn Hb]]; [by left|right]. split; [by intros <-%app_inv_head|]. split; [|done]. intros He. by apply (temp_outside name rel').
Qed.

Definition put_or_same (rel : list bytes) (data : bytes) (r : outcome clerr unit) (t t' : tree) : Prop :=
  match r with Ok _ => docs_put rel data t t' | _ => same_docs t t' end.

Lemma docs_put_same rel data t1 t2 t3 : same_docs t1 t2 → docs_put rel data t2 t3 → docs_put rel data t1 t3.
Proof. intros Hs Hp rel' b. rewrite (Hp rel' b), (Hs rel' b). done. Qed.

Lemma remove_temp name c e : let f := temp_names ++ [name] in tree_ok (fc_tree c) → fc_tree c !! f ≠ Some Directory →
  wp (ignore_err (sys (λ _ t, (Some tt, delete f t)) (λ _ t, t)) ;; fail e : FM unit) (λ r c', r = Err e /\ kept (λ _, True) c c') c.
Proof.
  intros f Hc Hf. apply wp_bind, wp_ignore_err, sys_wp.
  - intros _ r t [= <- <-]. apply wp_fail. split; [done|]. split_and!; [done|done|by apply ok_delete| |done].
    intros rel b. cbn. by rewrite lookup_delete_ne by (symmetry; apply temp_outside).
  - intros _. by apply wp_fail.
Qed.

Lemma writeThenRename_wp name rel data c : let f := temp_names ++ [name] in Forall proper rel → tree_ok (fc_tree c) → fc_tree c !! f ≠ Some Directory →
  wp (writeThenRename f (data_names ++ rel) data) (λ r c', match r with
    | Ok _ => fc_closed c' = fc_closed c /\ fc_locked c' = fc_locked c /\ tree_ok (fc_tree c') /\ docs_put rel data (fc_tree c) (fc_tree c')
    | Err _ => kept (λ t, t !! f ≠ Some Directory) c c'
    | Panic => False
    end) c.
Proof.
  intros f Hrel Hc Hf. unfold writeThenRename. apply wp_bind, sys_wp; [|intros n; by apply put_temp_kept]. intros _ r t [= <- <-].
  pose proof (put_temp_kept name data c Hc Hf) as K1. fold f in K1. set (c1 := fc_set_tree _ _) in *. destruct K1 as (A1 & A2 & A3 & A4 & A5).
  apply wp_bind, sys_wp; [|by intros n]. intros _ r t [= <- <-].
  eapply wp_mono; [apply (rename_wp name rel data (fc_set_tree (fc_tree c1) (fc_next c1))); [done..]|]. intros [u|e|] c2; [|apply kept_trans; by split_and!|done].
  intros (B1 & B2 & B3 & B4). split_and!; [done..|]. by eapply docs_put_same.
Qed.

Lemma effect_put rel data : Forall proper rel → rel ≠ [] →
  effect (mkdirFor (abs_path (data_names ++ rel)) ;; f ← newTempFile RootDir;
          on_err (writeThenRename f (data_names ++ rel) data) (λ e, ignore_err (sys (λ _ t, (Some tt, delete f t)) (λ _ t, t)) ;; fail e))
    (put_or_same rel data).
Proof.
  intros Hrel Hne c Hc. destruct (exists_last Hne) as (rel0 & x & Hx). assert (Forall proper rel0 /\ proper x) as [Hp0 Hpx]
    by (rewrite Hx, Forall_app, Forall_singleton in Hrel; done).
  eapply wp_quiet; [rewrite Hx, app_assoc; apply quiet_mkdirFor; [apply Forall_app; split; [apply data_proper|done]|done]|done|].
  intros r1 c1 Hr1 E1 L1 T1 S1. destruct r1; [intros _|by split_and!|done].
  eapply wp_quiet; [apply quiet_newTempFile|done|]. intros r2 c2 Hr2 E2 L2 T2 S2. pose proof (same_docs_trans _ _ _ S1 S2) as S12.
  destruct r2 as [f|e|]; [intros (name & -> & Hf)|split_and!; [done|congruence|congruence|done|done]|done].
  apply wp_on_err. eapply wp_mono; [by apply writeThenRename_wp|]. intros [[]|e|] c3; [| |done].
  - intros (E3 & L3 & T3 & D3). split_and!; [done|congruence|congruence|done|]. by eapply docs_put_same.
  - intros (E3 & L3 & T3 & S3 & Hf3). eapply wp_mono; [by apply remove_temp|]. intros r c4 (-> & E4 & L4 & T4 & S4 & _).
    split_and!; [done|congruence|congruence|done|]. eapply same_docs_trans; [done|]. by eapply same_docs_trans.
Qed.

Lemma quiet_check_missing real : quiet (check_missing real) (λ _ t, t !! real = None).
Proof.
  unfold check_missing. intros c Hc. apply wp_bind, sys_wp; [|by intros _; split_and!]. intros _ r t [= <- <-].
  unfold Stat. destruct (fc_tree c !! real) as [n|] eqn:Hl; [by apply wp_fail|]. destruct (existsb _ _); [by apply wp_fail|]. by apply wp_ret.
Qed.

Lemma Update_effect names data : Forall proper names → names ≠ [] → effect (writeFile RootDir (realpath RootDir (abs_path names)) data false) (put_or_same names data).
Proof.
  intros Hn Hne. unfold writeFile. rewrite realpath_abs, resolve_abs by (done || (apply Forall_app; split; [apply data_proper|done])).
  exact (effect_put names data Hn Hne).
Qed.
Lemma Create_effect names data : Forall proper names → names ≠ [] → effect (writeFile RootDir (realpath RootDir (abs_path names)) data true)
  (λ r t t', put_or_same names data r t t' /\ (∀ u, r = Ok u → ∀ b, t !! (data_names ++ names) ≠ Some (File b))).
Proof.
  intros Hn Hne c Hc. unfold writeFile. rewrite realpath_abs, resolve_abs by (done || (apply Forall_app; split; [apply data_proper|done])).
  eapply wp_quiet; [apply quiet_check_missing|done|]. intros r1 c1 Hr1 E1 L1 T1 S1. destruct r1; [intros Hm|by split_and!|done].
  eapply wp_mono; [by apply (effect_put names data)|]. intros r c2 (K1 & K2 & K3 & K4 & K5). split_and!; [done|congruence|congruence|done| |].
  - destruct r; [by eapply docs_put_same|by eapply same_docs_trans|done].
  - intros u _ b Hb. apply S1 in Hb. congruence.
Qed.

(** ** The documents *)
Definition doc_at (qn : list bytes * node) : option (bytes * bytes) :=
  match qn.2 with
  | File b => if is_prefix data_names qn.1 then Some (abs_path (drop (length data_names) qn.1), b) else None
  | Directory => None
  end.
Definition fs_files (t : tree) : gmap bytes bytes := list_to_map (omap doc_at (map_to_list t)).

Lemma elem_of_docs t k b : tree_ok t →
  (k, b) ∈ omap doc_at (map_to_list t) ↔ ∃ rel, Forall proper rel /\ k = abs_path rel /\ t !! (data_names ++ rel) = Some (File b).
Proof.
  intros Ht. rewrite list_elem_of_omap. split.
  - intros ([q n] & Hq%elem_of_map_to_list & Hd). unfold doc_at in Hd. cbn in Hd. destruct n as [data|]; [|done].
    destruct (is_prefix data_names q) eqn:Hp; [|done]. apply is_prefix_spec in Hp as [rel ->]. rewrite drop_app_length in Hd.
    injection Hd as <- <-. exists rel. split_and!; [|done|done]. apply (to_names t Ht) in Hq as [_ Hq]. by apply Forall_app in Hq as [_ ?].
  - intros (rel & Hrel & -> & Hl). exists (data_names ++ rel, File b). split; [by apply elem_of_map_to_list|]. unfold doc_at. cbn.
    rewrite drop_app_length. assert (is_prefix data_names (data_names ++ rel) = true) as ->; [|done]. apply is_prefix_spec. by eexists.
Qed.
Lemma fs_files_Some t k b : tree_ok t →
  fs_files t !! k = Some b ↔ ∃ rel, Forall proper rel /\ k = abs_path rel /\ t !! (data_names ++ rel) = Some (File b).
Proof.
  intros Ht. rewrite <-(elem_of_docs t k b Ht). split; [apply elem_of_list_to_map_2|]. intros Hin. apply elem_of_list_to_map_1'; [|done].
  intros y Hy. apply elem_of_docs in Hin as (r1 & P1 & -> & L1); [|done]. apply elem_of_docs in Hy as (r2 & P2 & He & L2); [|done].
  apply abs_path_inj in He as <-; [|done..]. congruence.
Qed.
Lemma fs_files_abs t rel b : tree_ok t → Forall proper rel → fs_files t !! abs_path rel = Some b ↔ t !! (data_names ++ rel) = Some (File b).
Proof.
  intros Ht Hrel. rewrite fs_files_Some by done. split; [|intros; by exists rel]. intros (r2 & P2 & He & L2). by apply abs_path_inj in He as <-.
Qed.
Lemma fs_files_same t t' : tree_ok t → tree_ok t' → same_docs t t' → fs_files t' = fs_files t.
Proof.
  intros Ht Ht' Hs. apply map_eq. intros k. apply option_eq. intros b. rewrite !fs_files_Some by done. by setoid_rewrite (λ rel, Hs rel b).
Qed.
Lemma fs_files_put t t' rel data : tree_ok t → tree_ok t' → Forall proper rel → docs_put rel data t t' →
  fs_files t' = <[abs_path rel := data]> (fs_files t).
Proof.
  intros Ht Ht' Hrel Hs. apply map_eq. intros k. apply option_eq. intros b. rewrite lookup_insert_Some, !fs_files_Some by done. split.
  - intros (r2 & P2 & -> & [[-> ->]|[Hne Hb]]%Hs); [by left|right]. split; [intros He; apply Hne; by apply abs_path_inj in He|by exists r2].
  - intros [[<- <-]|(Hne & r2 & P2 & -> & Hb)]; [exists rel|exists r2]; (split_and!; [done|done|]); apply Hs; [by left|right]. split; [by intros ->|done].
Qed.

Lemma did_files {A} (R : outcome clerr A → tree → tree → Prop) r t t' : tree_ok t → tree_ok t' → did R r t t' →
  (∃ e, r = Err e /\ fs_files t' = fs_files t) \/ ∃ t1 t2, tree_ok t1 /\ tree_ok t2 /\ fs_files t1 = fs_files t /\ R r t1 t2 /\ fs_files t' = fs_files t2.
Proof.
  intros Ht Ht' [(e & -> & Hs)|(t1 & t2 & H1 & H2 & Hs1 & HR & Hs2)]; [left|right].
  - exists e. split; [done|]. by apply fs_files_same.
  - exists t1, t2. split_and!; [done|done|by apply fs_files_same|done|by apply fs_files_same].
Qed.

(** ** The operations keep the laws of a coordinator *)

(** [m] looks at the tree and does not change it *)
Definition looks {A} (m : FM A) (P : A → tree → Prop) : Prop := ∀ c, wp m (λ r c',
  r ≠ Panic /\ fc_closed c' = fc_closed c /\ fc_locked c' = fc_locked c /\ fc_tree c' = fc_tree c /\ ∀ a, r = Ok a → P a (fc_tree c)) c.

Lemma looks_sys {A} (f : tree → option A) (P : A → tree → Prop) : (∀ a t, f t = Some a → P a t) → looks (sys (λ _ t, (f t, t)) (λ _ t, t)) P.
Proof.
  intros HP c. apply sys_wp; [|by intros _; split_and!]. intros _ r t [= <- <-]. split_and!; [by destruct (f _)|done..|]. intros a. destruct (f _) eqn:Hf; [|done]. intros [= <-]. by apply HP.
Qed.
Lemma looks_bind {A B} (m : FM A) (k : A → FM B) P Q : looks m P → (∀ a, looks (k a) (λ b t, P a t → Q b t)) → looks (m ≫= k) Q.
Proof.
  intros Hm Hk c. apply wp_bind. eapply wp_mono; [apply Hm|]. intros r c1 (K1 & K2 & K3 & K4 & K5). destruct r as [a|e|]; [|by split_and!|done].
  eapply wp_mono; [apply Hk|]. intros r c2 (J1 & J2 & J3 & J4 & J5). split_and!; [done|congruence|congruence|congruence|].
  intros b Hb. rewrite <-K4. apply J5; [done|]. rewrite K4. by apply K5.
Qed.
Lemma looks_ret {A} (a : A) (P : A → tree → Prop) : (∀ t, P a t) → looks (mret a) P.
Proof. intros HP c. apply wp_ret. split_and!; try done. by intros a' [= <-]. Qed.
Lemma looks_fail {A} (e : clerr) (P : A → tree → Prop) : looks (fail e) P.
Proof. intros c. by apply wp_fail. Qed.
Lemma looks_effect {A} (m : FM A) P : looks m P → effect m (λ r t t', t' = t /\ ∀ a, r = Ok a → P a t).
Proof. intros Hm c Hc. eapply wp_mono; [apply Hm|]. intros r c1 (K1 & K2 & K3 & K4 & K5). rewrite K4. by split_and!. Qed.

Lemma looks_present real must : looks (present real must) (λ there t, there = false → t !! real = None).
Proof.
  unfold present. destruct must; [by apply looks_ret|].
  apply (looks_bind _ _ (λ st t, st = Missing → t !! real = None)).
  - apply looks_sys. intros a t [= <-]. unfold Stat. by destruct (t !! real).
  - intros [n| |]; [by apply looks_ret| |apply looks_fail]. apply looks_ret. auto.
Qed.

Lemma looks_Read real must : looks (there ← present real must;
    if there : bool then sys (λ _ t, (match t !! real with Some (File data) => Some (Some data) | _ => None end, t)) (λ _ t, t) else mret None)
  (λ b t, ∀ d, b = Some d ↔ t !! real = Some (File d)).
Proof.
  eapply looks_bind; [apply looks_present|]. intros [].
  - apply looks_sys. intros b t Hb _ d. destruct (t !! real) as [[]|]; [|done..]. injection Hb as <-. split; congruence.
  - apply looks_ret. intros t Ht d. rewrite Ht by done. done.
Qed.

Lemma entries_spec t p x : x ∈ entries t p ↔ is_Some (t !! (p ++ [x])).
Proof.
  unfold entries. rewrite list_elem_of_omap. split.
  - intros ([q n] & Hq%elem_of_map_to_list & Hx). cbn in Hx. destruct (last q) as [z|]; [|done]. destruct (decide (q = p ++ [z])) as [->|]; [|done].
    injection Hx as ->. by eexists.
  - intros [n Hn]. exists (p ++ [x], n). split; [by apply elem_of_map_to_list|]. cbn. rewrite last_snoc. by rewrite decide_True.
Qed.
Lemma child_of_dir t p x : tree_ok t → p ≠ [] → is_Some (t !! (p ++ [x])) → is_dir t p = true.
Proof. intros Ht Hp [n Hn]. apply (to_parent t Ht) in Hn. by rewrite parent_snoc in Hn. Qed.

Lemma looks_List (path : bytes) real must : looks (there ← present real must;
    if there : bool then
      names ← sys (λ _ t, (if is_dir t real then Some (entries t real) else None, t)) (λ _ t, t);
      mret ((λ name, JoinAll [path; bstr name]) <$> merge_sort name_le (string_of_bytes <$> names))
    else mret [])
  (λ paths t, tree_ok t → real ≠ [] → ∀ x, x ∈ paths ↔ ∃ name, x = JoinAll [path; name] /\ is_Some (t !! (real ++ [name]))).
Proof.
  eapply looks_bind; [apply looks_present|]. intros [].
  - eapply (looks_bind _ _ (λ names t, names = entries t real)); [apply looks_sys; intros names t; by destruct (is_dir t real); [intros [= <-]|]|].
    intros names. apply looks_ret. intros t -> _ Ht Hr x. rewrite list_elem_of_fmap. split.
    + intros (name & -> & Hn). rewrite merge_sort_Permutation, list_elem_of_fmap in Hn. destruct Hn as (b & -> & Hb).
      rewrite bstr_of_bytes. exists b. split; [done|]. by apply entries_spec.
    + intros (name & -> & Hn). exists (string_of_bytes name). rewrite bstr_of_bytes. split; [done|].
      rewrite merge_sort_Permutation. apply list_elem_of_fmap_2. by apply entries_spec.
  - apply looks_ret. intros t Hm Ht Hr x. split; [by intros ?%not_elem_of_nil|]. intros (name & _ & Hn).
    apply child_of_dir, is_dir_lookup in Hn; [|done..]. rewrite Hm in Hn by done. done.
Qed.

(** what a removal below [rel] leaves *)
Definition removed (rel : list bytes) (t t' : tree) : Prop := ∀ rel' b,
  (t' !! (data_names ++ rel') = Some (File b) → t !! (data_names ++ rel') = Some (File b)) /\
  ((∀ more, rel' ≠ rel ++ more) → t !! (data_names ++ rel') = Some (File b) → t' !! (data_names ++ rel') = Some (File b)).

Lemma prefix_data rel rel' : is_prefix (data_names ++ rel) (data_names ++ rel') = true ↔ ∃ more, rel' = rel ++ more.
Proof. rewrite is_prefix_spec. split; intros [more He]; exists more; [by rewrite <-app_assoc in He; apply app_inv_head in He|by rewrite He, app_assoc]. Qed.

Lemma filter_removed (rel : list bytes) (t : tree) (P : list bytes * node → Prop) {_ : ∀ x, Decision (P x)} : (∀ qn, is_prefix (data_names ++ rel) qn.1 = false → P qn) →
  removed rel t (filter P t).
Proof.
  intros HP rel' b. split; [by intros [? _]%map_lookup_filter_Some|]. intros Hm Hb. apply map_lookup_filter_Some. split; [done|]. apply HP. cbn.
  destruct (is_prefix _ _) eqn:E; [|done]. apply prefix_data in E as [more He]. by destruct (Hm more).
Qed.

Lemma Delete_effect rel : effect (sys (λ _ t, (Some tt, remove_all (data_names ++ rel) t)) (λ n t, remove_some (sys_keep n) (data_names ++ rel) t))
  (λ r t t', removed rel t t' /\ ∀ u, r = Ok u → ∀ more b, t' !! (data_names ++ rel ++ more) ≠ Some (File b)).
Proof.
  intros c Hc. apply sys_wp.
  - intros _ r t [= <- <-]. split_and!; [done|done|done|by apply ok_remove_all|by apply filter_removed|]. intros u _ more b [_ Hf]%map_lookup_filter_Some.
    cbn in Hf. assert (is_prefix (data_names ++ rel) (data_names ++ rel ++ more) = true) as Hp by (apply prefix_data; by eexists). congruence.
  - intros n. split_and!; [done|done|done|by apply ok_remove_some|apply filter_removed; by left|done].
Qed.

Lemma fs_files_removed t t' rel : tree_ok t → tree_ok t' → Forall proper rel → removed rel t t' →
  (∀ more, Forall proper more → more ≠ [] → fs_files t !! abs_path (rel ++ more) = None) →
  ((∀ b, t' !! (data_names ++ rel) ≠ Some (File b)) → fs_files t' = delete (abs_path rel) (fs_files t)) /\
  (fs_files t' = fs_files t \/ fs_files t' = delete (abs_path rel) (fs_files t)).
Proof.
  intros Ht Ht' Hrel Hr Hmore.
  assert (∀ r2 b, Forall proper r2 → r2 ≠ rel → t !! (data_names ++ r2) = Some (File b) ↔ t' !! (data_names ++ r2) = Some (File b)) as Hother.
  { intros r2 b Hr2 Hne. split; [|apply Hr]. intros Hb. apply Hr; [|done]. intros more He. rewrite He in *. apply Forall_app in Hr2 as [_ Hpm].
    assert (more ≠ []) as Hm by (intros ->; by rewrite app_nil_r in Hne). specialize (Hmore more Hpm Hm).
    assert (fs_files t !! abs_path (rel ++ more) = Some b) as Hs by (apply fs_files_abs; [done|by apply Forall_app|done]). congruence. }
  assert ((∀ b, t' !! (data_names ++ rel) ≠ Some (File b)) → fs_files t' = delete (abs_path rel) (fs_files t)) as Hdel.
  { intros Hn. apply map_eq. intros k. apply option_eq. intros b. rewrite lookup_delete_Some, !fs_files_Some by done. split.
    - intros (r2 & P2 & -> & Hb). assert (r2 ≠ rel) as Hne by (intros ->; by destruct (Hn b)).
      split; [intros He; by apply abs_path_inj in He as <-|]. exists r2. split_and!; [done|done|]. by apply Hother.
    - intros (Hne & r2 & P2 & -> & Hb). exists r2. split_and!; [done|done|]. apply Hother; [done|by intros ->|done]. }
  split; [done|]. destruct (t' !! (data_names ++ rel)) as [[d|]|] eqn:Hl; [left|right; by apply Hdel..].
  apply fs_files_same; [done..|]. intros r2 b. split; [apply Hr|]. intros Hb. destruct (decide (r2 = rel)) as [->|Hne]; [|apply Hother; [|done|done]].
  - apply Hr in Hl as Hl'. congruence.
  - apply (to_names t Ht) in Hb as [_ Hb]. by apply Forall_app in Hb as [_ ?].
Qed.
End client.

(** ** The coordinator *)
Definition fs_client `{FsEnv} (root : list bytes) : Client := {|
  cl := fsclient;
  cl_ok c := fc_locked c = false /\ tree_ok (fc_tree c);
  files c := fs_files root (fc_tree c);
  Create := fs_Create (abs_path root);
  Update := fs_Update (abs_path root);
  Delete := fs_Delete (abs_path root);
  Client_Read := fs_Read (abs_path root);
  List := fs_List (abs_path root)
|}.

Lemma with_lock_refuses `{FsEnv} RootDir {A} (m : M fsclient clerr A) c : fc_closed c = true ∨ fc_locked c = true →
  with_lock RootDir m c = (Err (if fc_closed c then ErrClosedClient else ErrClient), c).
Proof.
  intros Hc. unfold with_lock. destruct (fc_closed c) eqn:Hcl; [done|]. destruct Hc as [?|Hl]; [done|].
  assert (lockFs RootDir c = (Err ErrClient, c)) as ->; [|done]. unfold lockFs, mbind, M_bind, gets. by rewrite Hl.
Qed.

Section laws.
Context `{FsEnvLaws} (root : list bytes) (Hroot : Forall proper root).

Lemma locked_wp {A} (m : M fsclient clerr A) (R : outcome clerr A → tree → tree → Prop) (Q : outcome clerr A → gmap bytes bytes → gmap bytes bytes → Prop) c :
  effect m R → fc_locked c = false → tree_ok (fc_tree c) → (∀ e fs, Q (Err e) fs fs) →
  (∀ r t1 t2, tree_ok t1 → tree_ok t2 → fs_files root t1 = fs_files root (fc_tree c) → R r t1 t2 → Q r (fs_files root t1) (fs_files root t2)) →
  wp (with_lock (abs_path root) m) (λ r c', (fc_locked c' = false /\ tree_ok (fc_tree c')) /\ r ≠ Panic /\
    Q r (fs_files root (fc_tree c)) (fs_files root (fc_tree c'))) c.
Proof.
  intros Hm Hl Hc HE HQ. eapply wp_mono; [by apply (with_lock_wp root Hroot m R)|]. intros r c' (K1 & K2 & K3 & K4 & K5). split_and!; [done..|].
  apply (did_files root) in K5 as [(e & -> & ->)|(t1 & t2 & T1 & T2 & F1 & HR & F2)]; [apply HE| |done|done].
  rewrite F2, <-F1. by apply HQ.
Qed.

Lemma fs_client_laws : @ClientLaws (fs_client root).
Proof.
  split; cbn [cl cl_ok files Create Update Delete Client_Read List fs_client].
  - intros names data c [Hl Hc] Hn Hne.
    eapply (locked_wp _ _ (λ r fs fs', match r with Ok _ => fs !! abs_path names = None /\ fs' = <[abs_path names := data]> fs
      | _ => fs' = fs \/ fs !! abs_path names = None /\ fs' = <[abs_path names := data]> fs end)); [by apply Create_effect|done|done|by left|].
    intros r t1 t2 T1 T2 _ [Hp Hm]. destruct r as [u|e|]; [|left; by apply fs_files_same..]. split; [|by apply fs_files_put].
    apply eq_None_not_Some. intros [b Hb]. apply fs_files_abs in Hb; [|done..]. by apply (Hm u eq_refl b).
  - intros names data c [Hl Hc] Hn Hne.
    eapply (locked_wp _ _ (λ r fs fs', match r with Ok _ => fs' = <[abs_path names := data]> fs
      | _ => fs' = fs \/ fs' = <[abs_path names := data]> fs end)); [by apply Update_effect|done|done|by left|].
    intros r t1 t2 T1 T2 _ Hp. destruct r as [u|e|]; [by apply fs_files_put|left; by apply fs_files_same..].
  - intros names c [Hl Hc] Hn Hne Hmore. unfold fs_Delete. rewrite realpath_abs, resolve_abs by (done || (apply Forall_app; split; [by apply data_proper|done])).
    eapply (locked_wp _ _ (λ r fs fs', match r with Ok _ => fs' = delete (abs_path names) fs
      | _ => fs' = fs \/ fs' = delete (abs_path names) fs end)); [by apply Delete_effect|done|done|by left|].
    intros r t1 t2 T1 T2 F1 [Hr Hok]. rewrite <-F1 in Hmore. destruct (fs_files_removed root t1 t2 names T1 T2 Hn Hr Hmore) as [K1 K2].
    destruct r as [u|e|]; [|done..]. apply K1. intros b Hb. apply (Hok u eq_refl [] b). by rewrite app_nil_r.
  - intros names must c [Hl Hc] Hn. unfold fs_Read. rewrite realpath_abs, resolve_abs by (done || (apply Forall_app; split; [by apply data_proper|done])).
    eapply (locked_wp _ _ (λ r fs fs', fs' = fs /\ ∀ b, r = Ok b → fs !! abs_path names = b)); [eapply looks_effect, looks_Read|done|done|done|].
    intros r t1 t2 T1 T2 _ [-> Hr]. split; [done|]. intros b Hb. apply option_eq. intros d. rewrite fs_files_abs by done. symmetry. by apply Hr.
  - intros dir must c [Hl Hc] Hn. unfold fs_List. rewrite realpath_abs, resolve_abs by (done || (apply Forall_app; split; [by apply data_proper|done])).
    eapply (locked_wp _ _ (λ r fs fs', fs' = fs /\ ∀ paths, r = Ok paths →
      (∀ path, path ∈ paths → ∃ names, path = abs_path names /\ Forall proper names /\ child dir names) /\
      (∀ names, Forall proper names → child dir names → is_Some (fs !! abs_path names) → abs_path names ∈ paths)));
      [eapply looks_effect, looks_List|done|done|done|].
    intros r t1 t2 T1 T2 _ [-> Hr]. split; [done|]. intros paths Hps. pose proof (Hr paths Hps T1 (data_ne root Hroot dir)) as Hx. split.
    + intros path (name & -> & n & Hname)%Hx. apply (to_names t1 T1) in Hname as [_ Hp]. rewrite <-app_assoc, Forall_app in Hp. destruct Hp as [_ Hp].
      exists (dir ++ [name]). split_and!; [|done|by exists name]. rewrite Forall_app, Forall_singleton in Hp; destruct Hp as [_ Hp].
      apply JoinAll_child; [exact Hn|exact Hp].
    + intros names Hp [name ->] [d Hd]. apply fs_files_abs in Hd; [|done..]. apply Hx. exists name. rewrite Forall_app, Forall_singleton in Hp; destruct Hp as [_ Hp].
      split; [symmetry; apply JoinAll_child; [exact Hn|exact Hp]|]. rewrite <-app_assoc. by eexists.
Qed.
End laws.

(** C37: the coordinator in a directory.  Over a root directory given by proper names, and
    whichever system calls fail when and with which part of their effect, the client keeps
    the laws of a coordinator: a document is created only where there was none, an update
    or a removal is done or not done as a whole, a read or a listing tells what is there,
    and the lock is free again afterwards.  A closed client refuses every operation and
    changes nothing; so does one that has the lock. *)
Theorem fs_coordinator `{FsEnvLaws} (root : list bytes) : Forall proper root →
  @ClientLaws (fs_client root) ∧
  ∀ c path data must, fc_closed c = true ∨ fc_locked c = true → let e := if fc_closed c then ErrClosedClient else ErrClient in
    fs_Create (abs_path root) path data c = (Err e, c) ∧ fs_Update (abs_path root) path data c = (Err e, c) ∧ fs_Delete (abs_path root) path c = (Err e, c) ∧
    fs_Read (abs_path root) path must c = (Err e, c) ∧ fs_List (abs_path root) path must c = (Err e, c).
Proof.
  intros Hroot. split; [by apply fs_client_laws|]. intros c path data must Hc e. split_and!; apply (with_lock_refuses (abs_path root) _ c Hc).
Qed.

(** ** A cluster in a directory *)
#[export] Instance group_server_countable : Countable GroupServer.
Proof.
  refine (inj_countable' (λ s, (gs_Addr s, gs_DataCenter s, ga_Index (gs_Action s), ga_State (gs_Action s), gs_ReplicaGroup s))
    (λ '(a, d, i, st, r), mkGroupServer a d (mkServerAction i st) r) _). by intros [? ? [] ?].
Defined.
#[export] Instance group_countable : Countable Group.
Proof.
  refine (inj_countable' (λ g, (g_Id g, g_Servers g, pr_Index (g_Promoting g), pr_State (g_Promoting g), g_OutOfSync g))
    (λ '(n, s, i, st, o), mkGroup n s (mkPromoting i st) o) _). by intros [? ? [] ?].
Defined.
#[export] Instance proxy_countable : Countable Proxy.
Proof.
  refine (inj_countable' (λ p, (p_Id p, p_Token p, p_StartTime p, p_AdminAddr p, p_ProtoType p, p_ProxyAddr p, p_JodisPath p, p_ProductName p, p_Pid p, p_Pwd p, p_Sys p, p_Hostname p, p_DataCenter p))
    (λ '(a, b, c, d, e, f, g, h, i, j, k, l, m), mkProxy a b c d e f g h i j k l m) _). by intros [].
Defined.
#[export] Instance acl_user_countable : Countable ACLUser.
Proof.
  refine (inj_countable' (λ u, (au_Name u, au_Enabled u, au_DB u, au_PasswordHashes u, au_Rules u)) (λ '(n, e, d, h, r), mkACLUser n e d h r) _). by intros [].
Defined.
#[export] Instance topom_model_eq_dec : EqDecision TopomModel.
Proof. solve_decision. Defined.
#[export] Instance doc_eq_dec : EqDecision doc.
Proof. solve_decision. Defined.
#[export] Instance doc_countable : Countable doc.
Proof.
  refine (inj_countable' (λ x, match x with
      | DSlot m => inl (inl (inl m)) | DGroup g => inl (inl (inr g)) | DProxy p => inl (inr p)
      | DSentinel s => inr (inl (inl (se_Servers s, se_OutOfSync s)))
      | DACL a => inr (inl (inr (acl_Revision a, acl_Enabled a, acl_Users a, acl_UpdatedAt a)))
      | DQPS q => inr (inr (inl (ql_Revision q, ql_Limit q, ql_UpdatedAt q)))
      | DTopom t => inr (inr (inr (tm_Token t, tm_StartTime t, tm_AdminAddr t, tm_ProductName t, tm_Pid t, tm_Pwd t, tm_Sys t)))
      end) (λ x, match x with
      | inl (inl (inl m)) => DSlot m | inl (inl (inr g)) => DGroup g | inl (inr p) => DProxy p
      | inr (inl (inl (s, o))) => DSentinel (mkSentinel s o)
      | inr (inl (inr (r, e, u, t))) => DACL (mkACL r e u t)
      | inr (inr (inl (r, l, t))) => DQPS (mkProxyQPSLimit r l t)
      | inr (inr (inr (a, b, c, d, e, f, g))) => DTopom (mkTopomModel a b c d e f g)
      end) _). by intros [| | |[]|[]|[]|[]].
Defined.

(** documents as bytes, one text for every document *)
Definition coded_docs : Json := {|
  jsonEncode := coded;
  jsonDecode k b := x ← decode (of_bits b); if decide (kind_of x = k) then Some x else None;
  json_valid _ := True
|}.
Lemma coded_docs_laws : @JsonLaws coded_docs.
Proof.
  intros x _. cbn [jsonEncode jsonDecode coded_docs]. unfold coded. rewrite of_bits_bits, decode_encode. cbn [mbind option_bind]. by rewrite decide_True.
Qed.

(** a file system where every call succeeds *)
Definition demo_env : FsEnv := {| sys_ok _ := true; sys_part _ := 0%nat; sys_keep _ _ := true; sys_name _ := bstr "tmp"; sys_stamp _ := [] |}.
Lemma demo_env_laws : @FsEnvLaws demo_env.
Proof. intros n. by apply plain_name_proper. Qed.
Definition demo_root : list bytes := [bstr "var"].
Lemma demo_root_proper : Forall proper demo_root.
Proof. apply Forall_singleton. by apply plain_name_proper. Qed.
#[local] Existing Instances demo_env coded_docs.

Definition demo_client : Client := fs_client demo_root.
#[local] Existing Instance demo_client.
Definition empty_fs : fsclient := mkFs false false ∅ 0.
Definition empty_db : db := mkDb ∅ ∅ ∅ None None None None.
Lemma empty_holds : holds "demo" empty_fs empty_db.
Proof.
  assert (∀ k, at_key empty_db k = None) as Hn by (intros []; cbn; by rewrite ?lookup_empty). split.
  - split; [done|]. split; intros p n Hp; change (fc_tree empty_fs) with (∅ : tree) in Hp; by rewrite lookup_empty in Hp.
  - apply db_wf_keys. intros k x. by rewrite Hn.
  - intros k x. by rewrite Hn.
  - intros names b Hp. change (@files demo_client empty_fs) with (∅ : gmap bytes bytes). rewrite lookup_empty. split; [done|]. intros (k & x & Hx & _). by rewrite Hn in Hx.
Qed.

Definition demo_group : Group := new_group 1 [mkGroupServer "10.0.0.1:6379" "" (mkServerAction 0 ActionNothing) true].
Lemma demo_product_ok : ValidateProduct "demo" = true.
Proof. reflexivity. Qed.

(** a group is written to an empty directory and read back *)
Lemma store_refines_witness : ValidateProduct "demo" = true ∧ holds "demo" empty_fs empty_db ∧
  (Store_UpdateGroup "demo" demo_group empty_fs).1 = Ok tt ∧
  (∃ s, s = (Store_UpdateGroup "demo" demo_group empty_fs).2 ∧ holds "demo" s (db_set_group demo_group empty_db) ∧
     (Store_LoadGroup "demo" 1 true s).1 = Ok (Some demo_group)).
Proof.
  pose proof (@store_refines demo_client (fs_client_laws (H := demo_env) (H0 := demo_env_laws) demo_root demo_root_proper) coded_docs coded_docs_laws "demo" demo_product_ok) as
    (_ & _ & _ & _ & _ & _ & Hw & _).
  split; [exact demo_product_ok|]. split; [exact empty_holds|].
  assert ((Store_UpdateGroup "demo" demo_group empty_fs).1 = Ok tt) as Hok by (vm_compute; reflexivity).
  split; [exact Hok|]. eexists. split; [reflexivity|].
  pose proof (Hw (DGroup demo_group) _ eq_refl ltac:(cbn; lia) I empty_fs empty_db empty_holds) as [_ Hh]. rewrite Hok in Hh. split; [exact Hh|].
  vm_compute. reflexivity.
Defined.

Lemma fs_coordinator_witness : Forall proper demo_root ∧ @ClientLaws demo_client ∧
  fs_Create (abs_path demo_root) (bstr "/a") [] (mkFs true false ∅ 0) = (Err ErrClosedClient, mkFs true false ∅ 0).
Proof.
  split; [exact demo_root_proper|]. pose proof (@fs_coordinator demo_env demo_env_laws demo_root demo_root_proper) as [Hl Hc]. split; [exact Hl|].
  exact (proj1 (Hc (mkFs true false ∅ 0) (bstr "/a") [] true (or_introl eq_refl))).
Defined.
