(* ===== verification/AdminConfig.v ===== *)
(** codis-admin on a coordinator: cmd/admin/admin.go, with its options (utils/args.go and
    cmd/internal/coordinator/args.go): the lock of a dashboard, the dump of a cluster
    description, its restoration, and the conversion of a description of Codis 1.

    A run works on the coordinator through the store and prints texts.  [log.Panicf] ends
    the program with an error, a value of [admerr]; a failed type assertion or a nil
    pointer is a panic.  The JSON of a description and the files are parameters. *)

From S2P Require Import Prelude Bufio Resp RespNumbers Mapper Models TopomContext TopomState TopomCache TopomProxy TopomGroup.
From S2P Require Import Router Stream Forward SessionState ClusterNodes TopomACL PitrFiles RdbPaths Units Store.
From S2P Require Import TopomFrame TopomInv StoreTheorems.
From S2P Require Import TopomApiTheorems FsClient FsTheorems.
From Stdlib Require Import SpecFloat.

(** * Options *)
Inductive argument := ANone | AFlag (b : bool) | AText (s : string).
Abbreviation options := (string → argument).

Inductive admerr :=
| BadOption (name : string) | BadCoordinator | BadProduct | NoClient
| NoFile (name : string) | BadJson | OnStore (e : storeerr) | OnClient (e : clerr)
| NoProduct | NotEmpty | DupProxy (token : string)
| BadGroup (gid : Z) | DupGroup (gid : Z) | IsPromoting (gid : Z) | DupServer (addr : string)
| BadSlot (sid : Z) | DupSlot (sid : Z) | HasAction (sid : Z) | NoGroupOf (sid : Z)
| BadStatus | ConvertFailed.

Definition Argument (d : options) (name : string) : outcome admerr (option string) :=
  match d name with
  | AText s => if decide (s = "") then Err (BadOption name) else Ok (Some s)
  | AFlag _ => Err (BadOption name)
  | ANone => Ok None
  end.
Definition ArgumentMust (d : options) (name : string) : outcome admerr string :=
  match Argument d name with
  | Ok (Some s) => Ok s
  | Ok None => Err (BadOption name)
  | Err e => Err e
  | Panic => Panic
  end.
(** [d[name].(bool)] *)
Definition flag_of (d : options) (name : string) : outcome admerr bool := match d name with AFlag b => Ok b | _ => Panic end.

Record coordArgs := mkArgs { ca_Name : string; ca_Addr : string; ca_Auth : string; ca_HasAuth : bool }.
(** name, option of the address, option of the authentication *)
Definition coord_options : list (string * string * string) :=
  [("zookeeper", "--zookeeper", "--zookeeper-auth"); ("etcd", "--etcd", "--etcd-auth");
   ("filesystem", "--filesystem", ""); ("consul", "--consul", "--consul-auth")]%string.
Fixpoint coord_Parse (opts : list (string * string * string)) (d : options) : outcome admerr (option coordArgs) :=
  match opts with
  | [] => Ok None
  | (name, addrFlag, authFlag) :: opts =>
      match d addrFlag with
      | ANone => coord_Parse opts d
      | _ =>
          addr ← ArgumentMust d addrFlag;
          match (if decide (authFlag = "") then ANone else d authFlag) with
          | ANone => Ok (Some (mkArgs name addr "" false))
          | _ => auth ← ArgumentMust d authFlag; Ok (Some (mkArgs name addr auth true))
          end
      end
  end.
Definition MustParse (d : options) : outcome admerr coordArgs :=
  args ← coord_Parse coord_options d;
  match args with Some a => Ok a | None => Err BadCoordinator end.

(** [models.NewClient] knows these names; a connection may fail *)
Definition known_coordinator (name : string) : bool :=
  bool_decide (name ∈ ["zk"; "zookeeper"; "etcd"; "fs"; "filesystem"; "consul"]%string).

(** * Descriptions *)

(** a null in a list is a nil pointer *)
Record ConfigV3 := mkConfigV3 { c3_Slots : list (option SlotMapping); c3_Group : list (option Group); c3_Proxy : list (option Proxy) }.

(** a JSON value; an object has its members in the order in which Go ranges over it *)
Inductive jval := JNull | JBool (b : bool) | JNum (f : spec_float) | JStr (s : string) | JArr (l : list jval) | JObj (l : list (string * jval)).

Class AdminIO := {
  ReadFile : string → option bytes;
  connects : coordArgs → bool;
  marshal_config : ConfigV3 → bytes;
  unmarshal_config : bytes → option ConfigV3;
  unmarshal_value : bytes → option jval;
  marshal_list : list (string * string) → bytes
}.
(** a description of which encoding/json gives everything back: documents as the store has
    them, or slots as they are made *)
Definition config_valid `{Json} (c : ConfigV3) : Prop :=
  Forall (λ x, match x with Some m => json_valid (DSlot m) ∨ ∃ i, 0 ≤ i < MaxSlotNum ∧ m = new_mapping i 0 | None => True end) (c3_Slots c) ∧
  Forall (λ x, match x with Some g => json_valid (DGroup g) | None => True end) (c3_Group c) ∧
  Forall (λ x, match x with Some p => json_valid (DProxy p) | None => True end) (c3_Proxy c).
Class AdminIOLaws `{AdminIO} `{Json} := config_roundtrip c : config_valid c → unmarshal_config (marshal_config c) = Some c.

(** ** Checks of a description: loadJsonConfigV3 *)
Fixpoint check_proxies (l : list (option Proxy)) (proxy : gmap string Proxy) : outcome admerr unit :=
  match l with
  | [] => Ok tt
  | None :: _ => Panic
  | Some p :: l => match proxy !! p_Token p with
                   | Some _ => Err (DupProxy (p_Token p))
                   | None => check_proxies l (<[p_Token p := p]> proxy)
                   end
  end.
Fixpoint check_servers (l : list GroupServer) (maddr : gset string) : outcome admerr (gset string) :=
  match l with
  | [] => Ok maddr
  | x :: l => if decide (gs_Addr x ∈ maddr) then Err (DupServer (gs_Addr x)) else check_servers l ({[gs_Addr x]} ∪ maddr)
  end.
Fixpoint check_groups (l : list (option Group)) (group : gmap Z Group) (maddr : gset string) : outcome admerr (gmap Z Group) :=
  match l with
  | [] => Ok group
  | None :: _ => Panic
  | Some g :: l =>
      if decide (g_Id g ≤ 0 ∨ MaxGroupId < g_Id g) then Err (BadGroup (g_Id g))
      else match group !! g_Id g with
      | Some _ => Err (DupGroup (g_Id g))
      | None =>
          if decide (pr_State (g_Promoting g) ≠ ActionNothing) then Err (IsPromoting (g_Id g))
          else maddr ← check_servers (g_Servers g) maddr;
               check_groups l (<[g_Id g := g]> group) maddr
      end
  end.
Definition serves_slot (group : gmap Z Group) (gid : Z) : bool :=
  match group !! gid with Some g => match g_Servers g with [] => false | _ => true end | None => false end.
Fixpoint check_slots (group : gmap Z Group) (l : list (option SlotMapping)) (slots : gmap Z SlotMapping) : outcome admerr unit :=
  match l with
  | [] => Ok tt
  | None :: _ => Panic
  | Some s :: l =>
      if decide (sm_Id s < 0 ∨ MaxSlotNum ≤ sm_Id s) then Err (BadSlot (sm_Id s))
      else match slots !! sm_Id s with
      | Some _ => Err (DupSlot (sm_Id s))
      | None =>
          if decide (sm_State s ≠ ActionNothing) then Err (HasAction (sm_Id s))
          else if negb (serves_slot group (sm_GroupId s)) then Err (NoGroupOf (sm_Id s))
          else check_slots group l (<[sm_Id s := s]> slots)
      end
  end.
Definition check_config (c : ConfigV3) : outcome admerr unit :=
  check_proxies (c3_Proxy c) ∅ ;;
  group ← check_groups (c3_Group c) ∅ ∅;
  check_slots group (c3_Slots c) ∅.

(** ** Descriptions of Codis 1 *)
Definition member (m : list (string * jval)) (name : string) : jval :=
  match list_find (λ kv, kv.1 = name) m with Some (_, (_, v)) => v | None => JNull end.
Definition as_object (v : jval) : outcome admerr (list (string * jval)) := match v with JObj l => Ok l | _ => Panic end.
Definition as_text (v : jval) : outcome admerr string := match v with JStr s => Ok s | _ => Panic end.
Definition as_int `{FloatToInt} (v : jval) : outcome admerr Z := match v with JNum f => Ok (int64_of f) | _ => Panic end.

Section convert.
Context `{FloatToInt}.

Definition convertSlotsV1 (slots : gmap Z SlotMapping) (v : jval) : outcome admerr (gmap Z SlotMapping) :=
  m ← as_object v;
  sid ← as_int (member m "id");
  gid ← as_int (member m "group_id");
  state ← as_object (member m "state");
  status ← as_text (member state "status");
  if decide (status = "offline"%string) then Ok slots
  else if decide (status ≠ "online"%string) then Err BadStatus
  else match slots !! sid with
  | Some _ => Err (DupSlot sid)
  | None => Ok (<[sid := new_mapping sid gid]> slots)
  end.

Definition bare_server (addr : string) : GroupServer := mkGroupServer addr "" (mkServerAction 0 ActionNothing) false.
Definition convertGroupV1 (group : gmap Z Group) (v : jval) : outcome admerr (gmap Z Group) :=
  m ← as_object v;
  addr ← as_text (member m "addr");
  gid ← as_int (member m "group_id");
  kind ← as_text (member m "type");
  if decide (gid ≤ 0 ∨ MaxGroupId < gid) then Err (BadGroup gid)
  else
    let g := default (new_group gid []) (group !! gid) in
    let servers := if decide (kind = "master"%string) then bare_server addr :: g_Servers g else g_Servers g ++ [bare_server addr] in
    Ok (<[gid := g_set_Servers servers g]> group).

Fixpoint foldM {A B} (f : A → B → outcome admerr A) (a : A) (l : list B) : outcome admerr A :=
  match l with
  | [] => Ok a
  | x :: l => a ← f a x; foldM f a l
  end.
Definition convert_slots (v : jval) : outcome admerr (list (option SlotMapping)) :=
  match v with
  | JNull => Ok []
  | _ => m ← as_object v;
         temp ← foldM convertSlotsV1 ∅ m.*2;
         Ok (Some <$> omap (λ i, temp !! i) (seqZ 0 MaxSlotNum))
  end.
Definition convert_groups (v : jval) : outcome admerr (list (option Group)) :=
  match v with
  | JNull => Ok []
  | _ => m ← as_object v;
         group ← foldM (λ group g, m ← as_object g; foldM convertGroupV1 group m.*2) ∅ m.*2;
         Ok (Some <$> SortGroup group)
  end.
Definition convert_config (cfg1 : list (string * jval)) : outcome admerr ConfigV3 :=
  slots ← convert_slots (member cfg1 "slots");
  group ← convert_groups (member cfg1 "servers");
  Ok (mkConfigV3 slots group []).
End convert.

(** * Commands *)
Record adm `{Client} := mkAdm { ad_cl : cl; ad_out : list bytes }.

Section admin.
Context `{Client} `{Json} `{AdminIO} `{FloatToInt}.
Local Abbreviation AD := (M adm admerr).

Definition on_store {A} (m : M cl storeerr A) : AD A := λ w,
  let '(r, s) := m (ad_cl w) in
  (match r with Ok a => Ok a | Err e => Err (OnStore e) | Panic => Panic end, mkAdm _ s (ad_out w)).
Definition on_client_of {A} (m : M cl clerr A) : AD A := λ w,
  let '(r, s) := m (ad_cl w) in
  (match r with Ok a => Ok a | Err e => Err (OnClient e) | Panic => Panic end, mkAdm _ s (ad_out w)).
Definition Println (b : bytes) : AD unit := modify (λ w, mkAdm _ (ad_cl w) (ad_out w ++ [b])).

Definition newTopomClient (d : options) : AD unit :=
  args ← lift (MustParse d);
  if known_coordinator (ca_Name args) && connects args then mret tt else fail NoClient.
Definition newTopomStore (product : string) (d : options) : AD unit :=
  if negb (ValidateProduct product) then fail BadProduct else newTopomClient d.

Definition handleRemoveLock (product : string) (d : options) : AD unit :=
  newTopomStore product d ;;
  on_store (Store_Release product).

Definition dumpConfigV3 (product : string) (d : options) : AD unit :=
  newTopomStore product d ;;
  group ← on_store (Store_ListGroup product);
  proxy ← on_store (Store_ListProxy product);
  if decide (size group = 0%nat ∧ size proxy = 0%nat) then fail NoProduct
  else
    slots ← on_store (Store_SlotMappings product);
    Println (marshal_config (mkConfigV3 (Some <$> slots) (Some <$> SortGroup group) (Some <$> SortProxy proxy))).

Definition read_file (file : string) : AD bytes := match ReadFile file with Some b => mret b | None => fail (NoFile file) end.

(** [recover]: a panic ends with an error as well *)
Definition recover_all {A} (r : outcome admerr A) : outcome admerr A := match r with Ok a => Ok a | _ => Err ConvertFailed end.
Definition handleConfigConvert (d : options) : AD unit :=
  file ← lift (recover_all (ArgumentMust d "--config-convert"));
  b ← lift (recover_all (match ReadFile file with Some b => Ok b | None => Err (NoFile file) end));
  v ← lift (recover_all (match unmarshal_value b with Some v => Ok v | None => Err BadJson end));
  cfg2 ← lift (recover_all (cfg1 ← as_object v; convert_config cfg1));
  Println (marshal_config cfg2).

Definition loadJsonConfigV3 (file : string) : AD ConfigV3 :=
  b ← read_file file;
  match unmarshal_config b with
  | None => fail BadJson
  | Some config => lift (check_config config) ;; mret config
  end.

Definition restore_one {A} (update : A → M cl storeerr unit) (x : option A) : AD unit :=
  match x with Some a => on_store (update a) | None => panic end.
Definition restore_docs (product : string) (config : ConfigV3) : AD unit :=
  for_each (c3_Slots config) (restore_one (Store_UpdateSlotMapping product)) ;;
  for_each (c3_Group config) (restore_one (Store_UpdateGroup product)) ;;
  for_each (c3_Proxy config) (restore_one (Store_UpdateProxy product)).

Definition handleConfigRestore (product : string) (d : options) : AD unit :=
  newTopomStore product d ;;
  file ← lift (ArgumentMust d "--config-restore");
  config ← loadJsonConfigV3 file;
  confirm ← lift (flag_of d "--confirm");
  if negb confirm then Println (marshal_config config)
  else
    proxy ← on_store (Store_ListProxy product);
    group ← on_store (Store_ListGroup product);
    if decide (size group ≠ 0%nat ∨ size proxy ≠ 0%nat) then fail NotEmpty
    else restore_docs product config.

(** one product of the list, with the address of its dashboard *)
Definition dashboard_of (path : bytes) : AD (string * string) :=
  let name := string_of_bytes (Base path) in
  b ← on_client_of (Client_Read (LockPath name) false);
  match b with
  | None => mret (name, ""%string)
  | Some b => match jsonDecode KindTopom b with
              | Some (DTopom t) => mret (name, tm_AdminAddr t)
              | _ => fail BadJson
              end
  end.
Fixpoint dashboards_of (paths : list bytes) : AD (list (string * string)) :=
  match paths with
  | [] => mret []
  | path :: paths => x ← dashboard_of path; l ← dashboards_of paths; mret (x :: l)
  end.
Definition handleDashboardList (d : options) : AD unit :=
  newTopomClient d ;;
  list ← on_client_of (List CodisDir false);
  nodes ← dashboards_of list;
  Println (marshal_list nodes).
End admin.

(** What codis-admin's dump, restoration and conversion of a cluster description do. *)

(** * Documents with keys *)
Definition put_all {K A} `{Countable K} (key : A → K) (m : gmap K A) (l : list A) : gmap K A := foldl (λ m a, <[key a := a]> m) m l.

Lemma put_all_lookup {K A} `{Countable K} (key : A → K) l : ∀ m k x, NoDup (key <$> l) →
  put_all key m l !! k = Some x ↔ (x ∈ l ∧ key x = k) ∨ (m !! k = Some x ∧ k ∉ key <$> l).
Proof.
  induction l as [|a l IH]; intros m k x Hnd; [cbn; set_solver|]. cbn [put_all foldl]. rewrite fmap_cons, NoDup_cons in Hnd. destruct Hnd as [Ha Hnd].
  fold (put_all key (<[key a := a]> m) l). rewrite IH by done. rewrite lookup_insert_Some, elem_of_cons, fmap_cons, not_elem_of_cons. split.
  - intros [[Hx <-]|[[[<- <-]|[Hne Hm]] Hk]]; [by left; split; [right|]|by left; split; [left|]|by right].
  - intros [[[-> |Hx] <-]|(Hm & Hne & Hk)]; [right; split; [by left|done]|by left|right]. split; [right|done]. by split.
Qed.
Lemma put_all_absent {K A} `{Countable K} (key : A → K) l m k : NoDup (key <$> l) → k ∉ key <$> l → put_all key m l !! k = m !! k.
Proof.
  intros Hnd Hk. apply option_eq. intros x. rewrite put_all_lookup by done. split; [|by right]. intros [[Hx <-]|[? _]]; [|done].
  exfalso. apply Hk. by apply list_elem_of_fmap_2.
Qed.
(** the values of a map, filed again *)
Lemma put_all_values {K A} `{Countable K} (key : A → K) (m : gmap K A) l : (∀ k x, m !! k = Some x → key x = k) → l ≡ₚ (map_to_list m).*2 →
  NoDup (key <$> l) ∧ put_all key ∅ l = m.
Proof.
  intros Hk Hl. assert (key <$> l ≡ₚ (map_to_list m).*1) as Hp.
  { rewrite Hl, <-list_fmap_compose. apply reflexive_eq, list_fmap_ext. intros i [k x] Hi. apply Hk. apply elem_of_map_to_list, list_elem_of_lookup. by exists i. }
  assert (NoDup (key <$> l)) as Hnd by (rewrite Hp; apply NoDup_fst_map_to_list). split; [done|]. apply map_eq. intros k. apply option_eq. intros x.
  rewrite put_all_lookup by done. rewrite lookup_empty, Hl, list_elem_of_fmap. split.
  - intros [(([k' x'] & -> & Hx) & <-)|[? _]]; [|done]. cbn. apply elem_of_map_to_list in Hx. by rewrite (Hk _ _ Hx).
  - intros Hx. left. split; [|by apply Hk]. exists (k, x). split; [done|]. by apply elem_of_map_to_list.
Qed.

(** * The checks of a restoration *)
Record config_ok (ss : list SlotMapping) (gs : list Group) (ps : list Proxy) : Prop := {
  co_proxies : NoDup (p_Token <$> ps);
  co_groups : NoDup (g_Id <$> gs);
  co_group g : g ∈ gs → 0 < g_Id g ≤ MaxGroupId ∧ pr_State (g_Promoting g) = ActionNothing;
  co_servers : NoDup (gs ≫= addrs);
  co_slots : NoDup (sm_Id <$> ss);
  co_slot s : s ∈ ss → 0 ≤ sm_Id s < MaxSlotNum ∧ sm_State s = ActionNothing ∧ ∃ g, g ∈ gs ∧ g_Id g = sm_GroupId s ∧ g_Servers g ≠ []
}.
Definition full_config (ss : list SlotMapping) (gs : list Group) (ps : list Proxy) : ConfigV3 := mkConfigV3 (Some <$> ss) (Some <$> gs) (Some <$> ps).

Lemma check_proxies_spec l : ∀ m, check_proxies l m = Ok tt ↔ ∃ ps, l = Some <$> ps ∧ NoDup (p_Token <$> ps) ∧ ∀ p, p ∈ ps → m !! p_Token p = None.
Proof.
  induction l as [|[p|] l IH]; intros m; cbn [check_proxies].
  - split; [|done]. intros _. exists []. split_and!; [done|apply NoDup_nil_2|]. by intros p ?%not_elem_of_nil.
  - destruct (m !! p_Token p) eqn:Hp.
    + split; [done|]. intros ([|p' ps] & He & _ & Hm); [done|]. injection He as <- ->. rewrite Hm in Hp; [done|by left].
    + rewrite IH. split.
      * intros (ps & -> & Hnd & Hm). exists (p :: ps). split; [done|]. split.
        -- rewrite fmap_cons. apply NoDup_cons. split; [|done]. intros (q & Hq & Hin)%list_elem_of_fmap. specialize (Hm q Hin). by rewrite Hq, lookup_insert_eq in Hm.
        -- intros q [->|Hq]%elem_of_cons; [done|]. specialize (Hm q Hq). by apply lookup_insert_None in Hm as [? _].
      * intros ([|p' ps] & He & Hnd & Hm); [done|]. injection He as <- ->. exists ps. rewrite fmap_cons, NoDup_cons in Hnd. destruct Hnd as [Hp' Hnd].
        split_and!; [done|done|]. intros q Hq. apply lookup_insert_None. split; [apply Hm; by right|]. intros He. apply Hp'. rewrite He. by apply list_elem_of_fmap_2.
  - split; [done|]. by intros ([|p' ps] & He & _).
Qed.

Lemma check_servers_spec l : ∀ seen seen', check_servers l seen = Ok seen' ↔
  NoDup (gs_Addr <$> l) ∧ (∀ a, a ∈ gs_Addr <$> l → a ∉ seen) ∧ seen' = list_to_set (gs_Addr <$> l) ∪ seen.
Proof.
  induction l as [|x l IH]; intros seen seen'; cbn [check_servers].
  - split; [intros [= <-]|intros (_ & _ & ->)]; [|f_equal; set_solver]. split_and!; [apply NoDup_nil_2|by intros a ?%not_elem_of_nil|set_solver].
  - rewrite fmap_cons, NoDup_cons. destruct (decide (gs_Addr x ∈ seen)) as [Hx|Hx].
    + split; [done|]. intros (_ & Hs & _). by destruct (Hs (gs_Addr x) ltac:(by left)).
    + rewrite IH. split.
      * intros (Hnd & Hs & ->). split_and!; [|done| |set_solver].
        -- intros Hin. apply (Hs _ Hin). set_solver.
        -- intros a [->|Ha]%elem_of_cons; [done|]. specialize (Hs a Ha). set_solver.
      * intros ([Hn Hnd] & Hs & ->). split_and!; [done| |set_solver]. intros a Ha. specialize (Hs a ltac:(by right)).
        assert (a ≠ gs_Addr x) by (by intros ->). set_solver.
Qed.

Lemma check_groups_spec l : ∀ m seen m', check_groups l m seen = Ok m' ↔ ∃ gs, l = Some <$> gs ∧ NoDup (g_Id <$> gs) ∧ NoDup (gs ≫= addrs) ∧
  (∀ g, g ∈ gs → 0 < g_Id g ≤ MaxGroupId ∧ pr_State (g_Promoting g) = ActionNothing ∧ m !! g_Id g = None) ∧
  (∀ a, a ∈ gs ≫= addrs → a ∉ seen) ∧ m' = put_all g_Id m gs.
Proof.
  induction l as [|[g|] l IH]; intros m seen m'; cbn [check_groups].
  - split; [intros [= <-]; exists []; split_and!; try done; try apply NoDup_nil_2; by intros ? ?%not_elem_of_nil|].
    intros ([|g gs] & He & _ & _ & _ & _ & ->); [done|done].
  - assert (∀ gs, Some g :: l = Some <$> gs → ∃ gs', gs = g :: gs' ∧ l = Some <$> gs') as Hsplit
      by (intros [|g' gs] He; [done|]; injection He as <- ->; by exists gs).
    destruct (decide (g_Id g ≤ 0 ∨ MaxGroupId < g_Id g)) as [Hr|Hr].
    { split; [done|]. intros (gs & (gs' & -> & _)%Hsplit & _ & _ & Hg & _). destruct (Hg g ltac:(by left)) as [? _]. lia. }
    destruct (m !! g_Id g) eqn:Hm.
    { split; [done|]. intros (gs & (gs' & -> & _)%Hsplit & _ & _ & Hg & _). destruct (Hg g ltac:(by left)) as (_ & _ & ?). congruence. }
    destruct (decide (pr_State (g_Promoting g) ≠ ActionNothing)) as [Hp|Hp].
    { split; [done|]. intros (gs & (gs' & -> & _)%Hsplit & _ & _ & Hg & _). by destruct (Hg g ltac:(by left)) as (_ & ? & _). }
    apply dec_stable in Hp. split.
    + intros Hc. destruct (check_servers (g_Servers g) seen) as [seen1|e|] eqn:Hs; [|done..]. cbn in Hc. apply check_servers_spec in Hs as (Hnd1 & Hs1 & ->).
      apply IH in Hc as (gs & -> & N1 & N2 & Hg & Ha & ->). exists (g :: gs). split_and!; [done|..|done].
      * rewrite fmap_cons. apply NoDup_cons. split; [|done]. intros (h & Hh & Hin)%list_elem_of_fmap. destruct (Hg h Hin) as (_ & _ & Hn).
        by rewrite Hh, lookup_insert_eq in Hn.
      * rewrite bind_cons. apply NoDup_app. split_and!; [done| |done]. intros a Ha1 Ha2. specialize (Ha a Ha2). unfold addrs in Ha1. set_solver.
      * intros h [->|Hin]%elem_of_cons; [split_and!; [lia|lia|done|done]|]. destruct (Hg h Hin) as (K1 & K2 & K3). apply lookup_insert_None in K3 as [K3 _]. done.
      * intros a. rewrite bind_cons, elem_of_app. intros [Ha1|Ha1]; [by apply Hs1|]. specialize (Ha a Ha1). set_solver.
    + intros (gs & (gs' & -> & ->)%Hsplit & N1 & N2 & Hg & Ha & ->). rewrite fmap_cons, NoDup_cons in N1. destruct N1 as [N0 N1].
      rewrite bind_cons in N2, Ha. apply NoDup_app in N2 as (N2 & N3 & N4).
      assert (check_servers (g_Servers g) seen = Ok (list_to_set (gs_Addr <$> g_Servers g) ∪ seen)) as ->.
      { apply check_servers_spec. split_and!; [done| |done]. intros a Ha1. apply Ha, elem_of_app. by left. }
      cbn. apply IH. exists gs'. split_and!; [done|done|done| | |done].
      * intros h Hh. destruct (Hg h ltac:(by right)) as (K1 & K2 & K3). split_and!; [lia|lia|done|]. apply lookup_insert_None. split; [done|].
        intros He. apply N0. rewrite He. by apply list_elem_of_fmap_2.
      * intros a Ha1. pose proof (Ha a ltac:(apply elem_of_app; by right)) as Ha2. assert (a ∉ gs_Addr <$> g_Servers g) by (intros Ha3; by apply (N3 a)). set_solver.
  - split; [done|]. by intros ([|g' gs] & He & _).
Qed.

Lemma serves_spec gs gid : NoDup (g_Id <$> gs) → serves_slot (put_all g_Id ∅ gs) gid = true ↔ ∃ g, g ∈ gs ∧ g_Id g = gid ∧ g_Servers g ≠ [].
Proof.
  intros Hnd. unfold serves_slot. split.
  - destruct (put_all g_Id ∅ gs !! gid) as [g|] eqn:Hg; [|done]. apply put_all_lookup in Hg as [[Hin He]|[? _]]; [|by rewrite lookup_empty in *|done].
    intros Hs. exists g. split_and!; [done|done|]. by destruct (g_Servers g).
  - intros (g & Hin & He & Hs). assert (put_all g_Id ∅ gs !! gid = Some g) as ->; [apply put_all_lookup; [done|by left]|]. by destruct (g_Servers g).
Qed.

Lemma check_slots_spec gm l : ∀ m, check_slots gm l m = Ok tt ↔ ∃ ss, l = Some <$> ss ∧ NoDup (sm_Id <$> ss) ∧
  ∀ s, s ∈ ss → 0 ≤ sm_Id s < MaxSlotNum ∧ sm_State s = ActionNothing ∧ serves_slot gm (sm_GroupId s) = true ∧ m !! sm_Id s = None.
Proof.
  induction l as [|[s|] l IH]; intros m; cbn [check_slots].
  - split; [|done]. intros _. exists []. split_and!; [done|apply NoDup_nil_2|]. by intros p ?%not_elem_of_nil.
  - assert (∀ ss, Some s :: l = Some <$> ss → ∃ ss', ss = s :: ss' ∧ l = Some <$> ss') as Hsplit
      by (intros [|s' ss] He; [done|]; injection He as <- ->; by exists ss).
    destruct (decide (sm_Id s < 0 ∨ MaxSlotNum ≤ sm_Id s)) as [Hr|Hr].
    { split; [done|]. intros (ss & (ss' & -> & _)%Hsplit & _ & Hs). destruct (Hs s ltac:(by left)) as [? _]. lia. }
    destruct (m !! sm_Id s) eqn:Hm.
    { split; [done|]. intros (ss & (ss' & -> & _)%Hsplit & _ & Hs). destruct (Hs s ltac:(by left)) as (_ & _ & _ & ?). congruence. }
    destruct (decide (sm_State s ≠ ActionNothing)) as [Hp|Hp].
    { split; [done|]. intros (ss & (ss' & -> & _)%Hsplit & _ & Hs). by destruct (Hs s ltac:(by left)) as (_ & ? & _). }
    apply dec_stable in Hp. destruct (serves_slot gm (sm_GroupId s)) eqn:Hg; cbn [negb].
    2:{ split; [done|]. intros (ss & (ss' & -> & _)%Hsplit & _ & Hs). destruct (Hs s ltac:(by left)) as (_ & _ & ? & _). congruence. }
    rewrite IH. split.
    + intros (ss & -> & Hnd & Hs). exists (s :: ss). split_and!; [done|..].
      * rewrite fmap_cons. apply NoDup_cons. split; [|done]. intros (h & Hh & Hin)%list_elem_of_fmap. destruct (Hs h Hin) as (_ & _ & _ & Hn).
        by rewrite Hh, lookup_insert_eq in Hn.
      * intros h [->|Hin]%elem_of_cons; [split_and!; [lia|lia|done|done|done]|]. destruct (Hs h Hin) as (K1 & K2 & K3 & K4). apply lookup_insert_None in K4 as [K4 _]. done.
    + intros (ss & (ss' & -> & ->)%Hsplit & Hnd & Hs). rewrite fmap_cons, NoDup_cons in Hnd. destruct Hnd as [N0 N1]. exists ss'. split_and!; [done|done|].
      intros h Hh. destruct (Hs h ltac:(by right)) as (K1 & K2 & K3 & K4). split_and!; [lia|lia|done|done|]. apply lookup_insert_None. split; [done|].
      intros He. apply N0. rewrite He. by apply list_elem_of_fmap_2.
  - split; [done|]. by intros ([|s' ss] & He & _).
Qed.

(** the checks accept exactly the descriptions that are in order *)
Lemma check_config_spec c : check_config c = Ok tt ↔ ∃ ss gs ps, c = full_config ss gs ps ∧ config_ok ss gs ps.
Proof.
  unfold check_config. destruct c as [ls lg lp]. cbn [c3_Slots c3_Group c3_Proxy]. split.
  - destruct (check_proxies lp ∅) as [[]|e|] eqn:Hp; [|done..]. cbn. destruct (check_groups lg ∅ ∅) as [gm|e|] eqn:Hg; [|done..]. cbn. intros Hs.
    apply check_proxies_spec in Hp as (ps & -> & P1 & _). apply check_groups_spec in Hg as (gs & -> & G1 & G2 & G3 & _ & ->).
    apply check_slots_spec in Hs as (ss & -> & S1 & S2). exists ss, gs, ps. split; [done|]. split; try done.
    + intros g Hg. destruct (G3 g Hg) as (? & ? & _). done.
    + intros s Hs. destruct (S2 s Hs) as (? & ? & Hsv & _). split_and!; [lia|lia|done|]. by apply serves_spec.
  - intros (ss & gs & ps & [= -> -> ->] & [C1 C2 C3 C4 C5 C6]).
    assert (check_proxies (Some <$> ps) ∅ = Ok tt) as -> by (apply check_proxies_spec; exists ps; split_and!; try done; intros; by rewrite lookup_empty). cbn.
    assert (check_groups (Some <$> gs) ∅ ∅ = Ok (put_all g_Id ∅ gs)) as ->.
    { apply check_groups_spec. exists gs. split_and!; try done. intros g Hg. destruct (C3 g Hg). by rewrite lookup_empty. }
    cbn. apply check_slots_spec. exists ss. split_and!; [done|done|]. intros s Hs. destruct (C6 s Hs) as (K1 & K2 & K3). split_and!; [lia|lia|done| |by rewrite lookup_empty].
    by apply serves_spec.
Qed.

(** * Restoration *)
Definition docs_of (ss : list SlotMapping) (gs : list Group) (ps : list Proxy) : list doc := (DSlot <$> ss) ++ (DGroup <$> gs) ++ (DProxy <$> ps).
Definition set_docs (l : list doc) (d : db) : db := foldl (flip set_doc) d l.

Lemma set_docs_slots ss : ∀ d, set_docs (DSlot <$> ss) d = mkDb (put_all sm_Id (db_slots d) ss) (db_group d) (db_proxy d) (db_sentinel d) (db_acl d) (db_qps d) (db_lock d).
Proof. induction ss as [|m ss IH]; intros d; [by destruct d|]. change (set_docs (DSlot <$> m :: ss) d) with (set_docs (DSlot <$> ss) (db_set_slot m d)). by rewrite IH. Qed.
Lemma set_docs_groups gs : ∀ d, set_docs (DGroup <$> gs) d = mkDb (db_slots d) (put_all g_Id (db_group d) gs) (db_proxy d) (db_sentinel d) (db_acl d) (db_qps d) (db_lock d).
Proof. induction gs as [|m gs IH]; intros d; [by destruct d|]. change (set_docs (DGroup <$> m :: gs) d) with (set_docs (DGroup <$> gs) (db_set_group m d)). by rewrite IH. Qed.
Lemma set_docs_proxies ps : ∀ d, set_docs (DProxy <$> ps) d = mkDb (db_slots d) (db_group d) (put_all p_Token (db_proxy d) ps) (db_sentinel d) (db_acl d) (db_qps d) (db_lock d).
Proof. induction ps as [|m ps IH]; intros d; [by destruct d|]. change (set_docs (DProxy <$> m :: ps) d) with (set_docs (DProxy <$> ps) (db_set_proxy m d)). by rewrite IH. Qed.

(** the description after a restoration *)
Definition restored (ss : list SlotMapping) (gs : list Group) (ps : list Proxy) (d : db) : db :=
  mkDb (put_all sm_Id (db_slots d) ss) (put_all g_Id (db_group d) gs) (put_all p_Token (db_proxy d) ps) (db_sentinel d) (db_acl d) (db_qps d) (db_lock d).
Lemma set_docs_all ss gs ps d : set_docs (docs_of ss gs ps) d = restored ss gs ps d.
Proof. unfold docs_of, set_docs. rewrite !foldl_app. fold (set_docs (DSlot <$> ss) d). rewrite set_docs_slots. fold (set_docs (DGroup <$> gs) (mkDb (put_all sm_Id (db_slots d) ss) (db_group d) (db_proxy d) (db_sentinel d) (db_acl d) (db_qps d) (db_lock d))). rewrite set_docs_groups. apply set_docs_proxies. Qed.

Lemma NoDup_bind_index {A B} (f : A → list B) l : ∀ i j x y b, NoDup (l ≫= f) → l !! i = Some x → l !! j = Some y → b ∈ f x → b ∈ f y → i = j.
Proof.
  induction l as [|z l IH]; intros i j x y b Hnd Hi Hj Hx Hy; [done|]. rewrite bind_cons in Hnd. apply NoDup_app in Hnd as (_ & Hd & Hnd).
  assert (∀ k w, l !! k = Some w → b ∈ f w → b ∉ f z) as Hz by (intros k w Hk Hw Hb; apply (Hd b Hb), list_elem_of_bind; exists w; split; [done|by eapply list_elem_of_lookup_2]).
  destruct i as [|i], j as [|j]; cbn in Hi, Hj; [done| | |f_equal; by apply (IH i j x y b)]; simplify_eq.
  - by destruct (Hz j y Hj Hy).
  - by destruct (Hz i x Hi Hx).
Qed.

(** a restoration into a cluster without groups is in order *)
Lemma restored_ok ss gs ps d : config_ok ss gs ps → cluster_ok d → db_group d = ∅ → cluster_ok (restored ss gs ps d).
Proof.
  intros [C1 C2 C3 C4 C5 C6] [K1 K2 K3] Hd.
  assert (∀ gid g, db_group (restored ss gs ps d) !! gid = Some g ↔ g ∈ gs ∧ g_Id g = gid) as Hg.
  { intros gid g. cbn. rewrite put_all_lookup by done. rewrite Hd, lookup_empty. split; [by intros [?|[? _]]|by left]. }
  assert (∀ g a, g ∈ gs → a ∈ addrs g → a ∈ gs ≫= addrs) as Hin by (intros g a Hin Ha; apply list_elem_of_bind; by exists g).
  split.
  - intros i m [Hi ->]%all_slots_lookup. unfold slot_at. cbn [db_slots restored]. destruct (put_all sm_Id (db_slots d) ss !! Z.of_nat i) as [m|] eqn:Hm; [|by split; [left|]].
    cbn. apply put_all_lookup in Hm as [[Hm He]|[Hm _]]; [|clear C6|done].
    + destruct (C6 m Hm) as (_ & Hst & g & Hgin & Hid & Hs). split; [right; exists g; split; [by apply Hg|done]|]. by rewrite Hst.
    + assert (slot_ok (alive (db_group d)) m) as [S1 S2] by (apply (K1 i), all_slots_lookup; split; [done|]; unfold slot_at; by rewrite Hm).
      assert (∀ k, ¬ alive (db_group d) k) as Hn by (intros k (g & Hk & _); by rewrite Hd, lookup_empty in Hk).
      split; [left; by destruct S1 as [|?%Hn]|]. destruct (sm_State m); try done; by apply Hn in S2.
  - intros gid g [Hg1 <-]%Hg. destruct (C3 g Hg1) as [Hr Hp]. split_and!; [lia|lia|done| |by rewrite Hp].
    apply list_elem_of_split in Hg1 as (l1 & l2 & ->). rewrite bind_app, bind_cons in C4. apply NoDup_app in C4 as (_ & _ & C4). by apply NoDup_app in C4 as (? & _).
  - intros k1 k2 g1 g2 a [H1 <-]%Hg [H2 <-]%Hg Ha1 Ha2. clear Hg K1 K2 K3 C6 C3.
    apply list_elem_of_lookup in H1 as [i1 H1]. apply list_elem_of_lookup in H2 as [i2 H2]. f_equal.
    assert (i1 = i2) as -> by (by apply (NoDup_bind_index addrs gs i1 i2 g1 g2 a)). congruence.
Qed.

Section restore.
Context `{ClientLaws} `{JsonLaws} `{!AdminIO} `{!AdminIOLaws} `{FloatToInt} (product : string) (Hproduct : ValidateProduct product = true).
Local Abbreviation AD := (M adm admerr).
Local Abbreviation holding := (holds product).

Lemma wp_on_store {A} (m : M cl storeerr A) (Q : outcome admerr A → adm → Prop) w :
  wp m (λ r s', Q (match r with Ok a => Ok a | Err e => Err (OnStore e) | Panic => Panic end) (mkAdm _ s' (ad_out w))) (ad_cl w) → wp (on_store m) Q w.
Proof. unfold wp, on_store. by destruct (m (ad_cl w)). Qed.

(** [m] writes [l], document by document, and stops at the first error of the coordinator *)
Definition writes_all (m : AD unit) (l : list doc) : Prop := ∀ w d, holding (ad_cl w) d → wp m (λ r w', ad_out w' = ad_out w ∧
  match r with
  | Ok _ => holding (ad_cl w') (set_docs l d)
  | Err e => (∃ e', e = OnStore e') ∧ ∃ n, (n ≤ length l)%nat ∧ holding (ad_cl w') (set_docs (take n l) d)
  | Panic => False
  end) w.

Lemma writes_all_nil : writes_all (mret tt) [].
Proof. intros w d Hh. by apply wp_ret. Qed.
Lemma writes_all_bind m1 m2 l1 l2 : writes_all m1 l1 → writes_all m2 l2 → writes_all (m1 ;; m2) (l1 ++ l2).
Proof.
  intros W1 W2 w d Hh. apply wp_bind. eapply wp_mono; [by apply W1|]. intros [[]|e|] w1 [Ho Hr]; [| |done].
  - eapply wp_mono; [by apply W2|]. intros [[]|e|] w2 [Ho2 Hr2]; [| |done]; (split; [congruence|]).
    + unfold set_docs. by rewrite foldl_app.
    + destruct Hr2 as (He & n & Hn & Hh2). split; [done|]. exists (length l1 + n)%nat. rewrite length_app. split; [lia|].
      rewrite take_app_add. unfold set_docs. by rewrite foldl_app.
  - split; [done|]. destruct Hr as (He & n & Hn & Hh1). split; [done|]. exists n. rewrite length_app. split; [lia|]. by rewrite take_app_le by lia.
Qed.
Lemma writes_all_one (m : M cl storeerr unit) x : writes product m (set_doc x) → writes_all (on_store m) [x].
Proof.
  intros Hm w d Hh. apply wp_on_store. eapply wp_mono; [by apply Hm|]. intros [u|e|] s' [Hr Hs]; [done| |done]. split; [done|]. split; [by eexists|].
  destruct Hs as [Hs|Hs]; [exists 0%nat|exists 1%nat]; (split; [cbn; lia|done]).
Qed.
Lemma writes_all_each {A} (mk : A → doc) (update : A → M cl storeerr unit) l : (∀ a, a ∈ l → writes product (update a) (set_doc (mk a))) →
  writes_all (for_each (Some <$> l) (restore_one update)) (mk <$> l).
Proof.
  induction l as [|a l IH]; intros Hl; [apply writes_all_nil|].
  change (writes_all (on_store (update a) ;; for_each (Some <$> l) (restore_one update)) ([mk a] ++ (mk <$> l))). apply writes_all_bind.
  - apply writes_all_one, Hl. by left.
  - apply IH. intros b Hb. apply Hl. by right.
Qed.

(** what can be encoded and filed *)
Definition storable (x : doc) : Prop := key_ok (key_of x) ∧ json_valid x.

Lemma restore_docs_writes ss gs ps : (∀ x, x ∈ docs_of ss gs ps → storable x) → writes_all (restore_docs product (full_config ss gs ps)) (docs_of ss gs ps).
Proof.
  intros Hx. unfold restore_docs, docs_of. apply writes_all_bind; [|apply writes_all_bind]; apply writes_all_each; intros a Ha.
  - destruct (Hx (DSlot a)) as [Hk Hv]; [unfold docs_of; rewrite !elem_of_app; left; by apply list_elem_of_fmap_2|]. by apply (updates_write product Hproduct (DSlot a)).
  - destruct (Hx (DGroup a)) as [Hk Hv]; [unfold docs_of; rewrite !elem_of_app; right; left; by apply list_elem_of_fmap_2|]. by apply (updates_write product Hproduct (DGroup a)).
  - destruct (Hx (DProxy a)) as [Hk Hv]; [unfold docs_of; rewrite !elem_of_app; right; right; by apply list_elem_of_fmap_2|]. by apply (updates_write product Hproduct (DProxy a)).
Qed.

Lemma ListGroup_ad w d : holding (ad_cl w) d → wp (on_store (Store_ListGroup product)) (λ r w', ad_out w' = ad_out w ∧ holding (ad_cl w') d ∧
  match r with Ok g => g = db_group d | Err e => ∃ e', e = OnStore e' | Panic => False end) w.
Proof.
  intros Hh. apply wp_on_store. eapply wp_mono; [by apply (ListGroup_reads product Hproduct)|]. intros [g|e|] s' (Hp & Hh' & Hr); [|by split_and!; try done; eexists|done].
  split_and!; [done..|]. by apply Hr.
Qed.
Lemma ListProxy_ad w d : holding (ad_cl w) d → wp (on_store (Store_ListProxy product)) (λ r w', ad_out w' = ad_out w ∧ holding (ad_cl w') d ∧
  match r with Ok g => g = db_proxy d | Err e => ∃ e', e = OnStore e' | Panic => False end) w.
Proof.
  intros Hh. apply wp_on_store. eapply wp_mono; [by apply (ListProxy_reads product Hproduct)|]. intros [g|e|] s' (Hp & Hh' & Hr); [|by split_and!; try done; eexists|done].
  split_and!; [done..|]. by apply Hr.
Qed.
Lemma SlotMappings_ad w d : holding (ad_cl w) d → wp (on_store (Store_SlotMappings product)) (λ r w', ad_out w' = ad_out w ∧ holding (ad_cl w') d ∧
  match r with Ok g => g = all_slots d | Err e => ∃ e', e = OnStore e' | Panic => False end) w.
Proof.
  intros Hh. apply wp_on_store. eapply wp_mono; [by apply (SlotMappings_reads product Hproduct (Z.to_nat MaxSlotNum) 0); vm_compute|].
  intros [g|e|] s' (Hp & Hh' & Hr); [|by split_and!; try done; eexists|done]. split_and!; [done..|]. rewrite (Hr g eq_refl). done.
Qed.

(** the options name a coordinator that can be reached *)
Definition reaches (opts : options) : Prop := ∃ a, MustParse opts = Ok a ∧ known_coordinator (ca_Name a) = true ∧ connects a = true.
Lemma newTopomStore_ok opts Q w : reaches opts → Q (Ok tt) w → wp (newTopomStore product opts) Q w.
Proof.
  intros (a & Ha & Hk & Hc) HQ. unfold newTopomStore. rewrite Hproduct. cbn [negb]. unfold newTopomClient. rewrite Ha. apply wp_bind, wp_lift.
  rewrite Hk, Hc. by apply wp_ret.
Qed.

(** a confirmed restoration from a file *)
Record restoring (opts : options) (config : ConfigV3) : Prop := {
  rs_reaches : reaches opts;
  rs_file : ∃ file b, ArgumentMust opts "--config-restore" = Ok file ∧ ReadFile file = Some b ∧ unmarshal_config b = Some config;
  rs_confirm : flag_of opts "--confirm" = Ok true
}.

(** the texts of a file can be encoded again, and tokens are names *)
Definition writable (ss : list SlotMapping) (gs : list Group) (ps : list Proxy) : Prop :=
  (∀ x, x ∈ docs_of ss gs ps → json_valid x) ∧ ∀ p, p ∈ ps → slash ∉ bstr (p_Token p).
Lemma writable_storable ss gs ps : config_ok ss gs ps → writable ss gs ps → ∀ x, x ∈ docs_of ss gs ps → storable x.
Proof.
  intros [_ _ C3 _ _ C6] [Hj Ht] x Hx. split; [|by apply Hj]. unfold docs_of in Hx. rewrite !elem_of_app, !list_elem_of_fmap in Hx.
  destruct Hx as [(m & -> & Hm)|[(g & -> & Hg)|(p & -> & Hp)]]; cbn.
  - destruct (C6 m Hm) as [Hr _]. unfold MaxSlotNum in Hr. lia.
  - destruct (C3 g Hg) as [Hr _]. unfold MaxGroupId in Hr. lia.
  - by apply Ht.
Qed.

(** the result of a confirmed restoration of [config] into [d] *)
Definition restore_result (config : ConfigV3) (d : db) (r : outcome admerr unit) (s : cl) : Prop :=
  match r with
  | Ok _ => ∃ ss gs ps, config = full_config ss gs ps ∧ config_ok ss gs ps ∧ db_group d = ∅ ∧ db_proxy d = ∅ ∧ holding s (restored ss gs ps d)
  | Err e => (check_config config = Err e ∨ e = NotEmpty ∧ (db_group d ≠ ∅ ∨ db_proxy d ≠ ∅)) ∧ holding s d ∨
      (∃ e', e = OnStore e') ∧ ∃ ss gs ps n, config = full_config ss gs ps ∧ holding s (set_docs (take n (docs_of ss gs ps)) d)
  | Panic => check_config config = Panic ∧ holding s d
  end.

Lemma restore_wp opts config w d : restoring opts config → (∀ ss gs ps, config = full_config ss gs ps → config_ok ss gs ps → writable ss gs ps) → holding (ad_cl w) d →
  wp (handleConfigRestore product opts) (λ r w', ad_out w' = ad_out w ∧ restore_result config d r (ad_cl w')) w.
Proof.
  intros [Hr (file & b & Hf & Hb & Hu) Hc] Hwr Hh. unfold handleConfigRestore. apply wp_bind, newTopomStore_ok; [done|].
  apply wp_bind, wp_lift. rewrite Hf. unfold loadJsonConfigV3, read_file. apply wp_bind, wp_bind. rewrite Hb. apply wp_ret. rewrite Hu.
  apply wp_bind, wp_lift. destruct (check_config config) as [[]|e|] eqn:Hck; [|split; [done|left; split; [by left|done]]|done].
  apply wp_ret, wp_bind, wp_lift. rewrite Hc. cbn [negb]. apply check_config_spec in Hck as (ss & gs & ps & -> & Hok).
  assert (∀ e s, holding s d → restore_result (full_config ss gs ps) d (Err (OnStore e)) s) as Herr.
  { intros e s Hs. right. split; [by eexists|]. by exists ss, gs, ps, 0%nat. }
  apply wp_bind. eapply wp_mono; [by apply ListProxy_ad|]. intros r1 w1 (O1 & Hh1 & Hr1). destruct r1 as [proxy|e|]; [subst proxy|destruct Hr1 as [e' ->]; split; [done|by apply Herr]|done].
  apply wp_bind. eapply wp_mono; [by apply ListGroup_ad|]. intros r2 w2 (O2 & Hh2 & Hr2). destruct r2 as [group|e|]; [subst group|destruct Hr2 as [e' ->]; split; [congruence|by apply Herr]|done].
  destruct (decide (size (db_group d) ≠ 0%nat ∨ size (db_proxy d) ≠ 0%nat)) as [Hne|He].
  - apply wp_fail. split; [congruence|]. left. split; [|done]. right. split; [done|]. by rewrite !map_size_non_empty_iff in Hne.
  - eapply wp_mono; [apply (restore_docs_writes ss gs ps); [by apply writable_storable; [|apply Hwr]|done]|]. intros r w' [Ho Hw]. split; [congruence|].
    destruct r as [u|e|]; [| |done].
    + exists ss, gs, ps. rewrite <-set_docs_all. split_and!; [done|done|apply map_size_empty_inv; lia|apply map_size_empty_inv; lia|done].
    + destruct Hw as (He' & n & _ & Hw). right. split; [done|]. by exists ss, gs, ps, n.
Qed.

(** ** Dumps *)
Definition dump_of (d : db) : ConfigV3 := full_config (all_slots d) (SortGroup (db_group d)) (SortProxy (db_proxy d)).

Lemma dump_wp opts w d : reaches opts → holding (ad_cl w) d → wp (dumpConfigV3 product opts) (λ r w', holding (ad_cl w') d ∧
  match r with
  | Ok _ => ad_out w' = ad_out w ++ [marshal_config (dump_of d)] ∧ (db_group d ≠ ∅ ∨ db_proxy d ≠ ∅)
  | Err e => ad_out w' = ad_out w ∧ (e = NoProduct ∧ db_group d = ∅ ∧ db_proxy d = ∅ ∨ ∃ e', e = OnStore e')
  | Panic => False
  end) w.
Proof.
  intros Hr Hh. unfold dumpConfigV3. apply wp_bind, newTopomStore_ok; [done|].
  apply wp_bind. eapply wp_mono; [by apply ListGroup_ad|]. intros r1 w1 (O1 & Hh1 & Hr1). destruct r1 as [group|e|]; [subst group|by split_and!; try done; right|done].
  apply wp_bind. eapply wp_mono; [by apply ListProxy_ad|]. intros r2 w2 (O2 & Hh2 & Hr2). destruct r2 as [proxy|e|]; [subst proxy|split_and!; [done|congruence|by right]|done].
  rewrite O1 in O2. destruct (decide (size (db_group d) = 0%nat ∧ size (db_proxy d) = 0%nat)) as [[He1 He2]|Hne].
  - apply wp_fail. split_and!; [done|done|]. left. split_and!; [done|by apply map_size_empty_inv..].
  - apply wp_bind. eapply wp_mono; [by apply SlotMappings_ad|]. intros r3 w3 (O3 & Hh3 & Hr3). rewrite O2 in O3.
    destruct r3 as [slots|e|]; [subst slots|split_and!; [done|congruence|by right]|done].
    apply wp_modify. split_and!; [done|cbn; by rewrite O3|]. rewrite <-!map_size_non_empty_iff. lia.
Qed.

(** no migration or promotion is under way, and every slot has a group *)
Definition at_rest (d : db) : Prop :=
  (∀ m, m ∈ all_slots d → sm_State m = ActionNothing ∧ sm_GroupId m ≠ 0) ∧
  ∀ gid g, db_group d !! gid = Some g → pr_State (g_Promoting g) = ActionNothing.

Lemma NoDup_bind_intro {A B} (f : A → list B) l : NoDup l → (∀ x, x ∈ l → NoDup (f x)) → (∀ x y b, x ∈ l → y ∈ l → b ∈ f x → b ∈ f y → x = y) → NoDup (l ≫= f).
Proof.
  induction l as [|x l IH]; intros Hnd Hf Hd; [apply NoDup_nil_2|]. apply NoDup_cons in Hnd as [Hx Hnd]. rewrite bind_cons. apply NoDup_app. split_and!.
  - apply Hf. by left.
  - intros b Hb (y & Hby & Hy)%list_elem_of_bind. apply Hx. rewrite (Hd x y b); [done|by left|by right|done|done].
  - apply IH; [done|intros; apply Hf; by right|]. intros y z b Hy Hz. apply Hd; by right.
Qed.

Lemma SortGroup_elem g gm : g ∈ SortGroup gm ↔ ∃ gid, gm !! gid = Some g.
Proof.
  rewrite SortGroup_perm, list_elem_of_fmap. split; [intros ([k x] & -> & Hx%elem_of_map_to_list); by exists k|].
  intros [gid Hg]. exists (gid, g). split; [done|by apply elem_of_map_to_list].
Qed.
Lemma SortProxy_perm proxy : SortProxy proxy ≡ₚ (map_to_list proxy).*2.
Proof. apply merge_sort_Permutation. Qed.

Lemma all_slots_ids d : db_wf d → sm_Id <$> all_slots d = seqZ 0 MaxSlotNum.
Proof.
  intros Hd. unfold all_slots. rewrite <-list_fmap_compose. rewrite <-(list_fmap_id (seqZ 0 MaxSlotNum)) at 2. apply list_fmap_ext. intros i j _. by apply slot_at_Id.
Qed.
Lemma all_slots_elem d m : m ∈ all_slots d → ∃ i, 0 ≤ i < MaxSlotNum ∧ m = slot_at d i ∧ all_slots d !! Z.to_nat i = Some m.
Proof.
  intros [i Hi]%list_elem_of_lookup. exists (Z.of_nat i). rewrite Nat2Z.id. pose proof Hi as [Hlt ->]%all_slots_lookup. unfold MaxSlotNum. split_and!; [lia|lia|done|done].
Qed.

Lemma dump_accepted d : db_wf d → cluster_ok d → config_ok (all_slots d) (SortGroup (db_group d)) (SortProxy (db_proxy d)) ↔ at_rest d.
Proof.
  intros [W1 W2 W3] [K1 K2 K3]. split.
  - intros [_ _ C3 _ _ C6]. split.
    + intros m Hm. destruct (C6 m Hm) as (_ & Hs & g & Hg & Hid & _). split; [done|]. destruct (C3 g Hg) as [Hr _]. lia.
    + intros gid g Hg. apply C3, SortGroup_elem. by exists gid.
  - intros [R1 R2]. destruct (put_all_values g_Id (db_group d) (SortGroup (db_group d)) W2 (SortGroup_perm _)) as [N1 _].
    destruct (put_all_values p_Token (db_proxy d) (SortProxy (db_proxy d)) W3 (SortProxy_perm _)) as [N2 _]. split; [done|done|..].
    + intros g [gid Hg]%SortGroup_elem. destruct (K2 gid g Hg) as (Hr & <- & _). split; [lia|by apply (R2 _ g Hg)].
    + apply NoDup_bind_intro; [by apply NoDup_fmap_1 in N1|..].
      * intros g [gid Hg]%SortGroup_elem. by destruct (K2 gid g Hg) as (_ & _ & ? & _).
      * intros g1 g2 a [k1 Hg1]%SortGroup_elem [k2 Hg2]%SortGroup_elem Ha1 Ha2. pose proof (K3 k1 k2 g1 g2 a Hg1 Hg2 Ha1 Ha2) as ->. congruence.
    + rewrite all_slots_ids by done. apply NoDup_seqZ.
    + intros m Hm. destruct (R1 m Hm) as [Hs Hg]. destruct (all_slots_elem d m Hm) as (i & Hi & He & Hl). destruct (K1 _ _ Hl) as [[?|(g & Hg1 & Hg2)] _]; [done|].
      assert (sm_Id m = i) as Hid by (rewrite He; by apply slot_at_Id). split_and!; [lia|lia|done|]. exists g.
      split_and!; [apply SortGroup_elem; by eexists|by apply W2|done].
Qed.
(** only a null in a list makes the checks panic *)
Lemma check_config_total ss gs ps : check_config (full_config ss gs ps) ≠ Panic.
Proof.
  assert (∀ m, check_proxies (Some <$> ps) m ≠ Panic) as Hp by (induction ps as [|p ps' IH]; intros m; [done|]; cbn; destruct (m !! p_Token p); [done|apply IH]).
  assert (∀ l seen, check_servers l seen ≠ Panic) as Hsv by (induction l as [|x l IH]; intros seen; [done|]; cbn; destruct (decide _); [done|apply IH]).
  assert (∀ m seen, check_groups (Some <$> gs) m seen ≠ Panic) as Hg.
  { induction gs as [|g gs' IH]; intros m seen; [done|]. cbn. destruct (decide _); [done|]. destruct (m !! g_Id g); [done|]. destruct (decide _); [|].
    all: try done. destruct (check_servers (g_Servers g) seen) eqn:E; [apply IH|done|by apply Hsv in E]. }
  assert (∀ gm m, check_slots gm (Some <$> ss) m ≠ Panic) as Hs.
  { intros gm. induction ss as [|x ss' IH]; intros m; [done|]. cbn. destruct (decide _); [done|]. destruct (m !! sm_Id x); [done|].
    destruct (decide _); [done|]. destruct (serves_slot _ _); [apply IH|done]. }
  unfold check_config. cbn [full_config c3_Slots c3_Group c3_Proxy]. destruct (check_proxies (Some <$> ps) ∅) eqn:E; [cbn|done|by apply Hp in E].
  destruct (check_groups (Some <$> gs) ∅ ∅) eqn:E2; [apply Hs|done|by apply Hg in E2].
Qed.
Lemma full_config_inj ss gs ps ss' gs' ps' : full_config ss gs ps = full_config ss' gs' ps' → ss = ss' ∧ gs = gs' ∧ ps = ps'.
Proof. intros [= E1 E2 E3]. split_and!; by apply (inj (fmap Some)). Qed.

Lemma restored_dump d1 d2 : db_wf d1 → db_group d2 = ∅ → db_proxy d2 = ∅ → let d := restored (all_slots d1) (SortGroup (db_group d1)) (SortProxy (db_proxy d1)) d2 in
  db_group d = db_group d1 ∧ db_proxy d = db_proxy d1 ∧ all_slots d = all_slots d1.
Proof.
  intros Hwf Hg Hp d. pose proof Hwf as [W1 W2 W3]. split_and!.
  - cbn. rewrite Hg. by apply put_all_values; [|apply SortGroup_perm].
  - cbn. rewrite Hp. by apply put_all_values; [|apply SortProxy_perm].
  - unfold all_slots at 1 2. apply list_fmap_ext. intros k i [-> Hk]%lookup_seqZ.
    assert (all_slots d1 !! k = Some (slot_at d1 (0 + Z.of_nat k))) as Hin by (apply all_slots_lookup; unfold MaxSlotNum in Hk; split; [lia|f_equal; lia]).
    unfold slot_at at 1. cbn [db_slots d restored]. assert (put_all sm_Id (db_slots d2) (all_slots d1) !! (0 + Z.of_nat k) = Some (slot_at d1 (0 + Z.of_nat k))) as ->; [|done].
    apply put_all_lookup; [rewrite all_slots_ids by done; apply NoDup_seqZ|]. left. split; [by eapply list_elem_of_lookup_2|by apply slot_at_Id].
Qed.

Lemma dump_writable s d : holding s d → at_rest d → writable (all_slots d) (SortGroup (db_group d)) (SortProxy (db_proxy d)).
Proof.
  intros Hh [R1 _]. pose proof (h_keys product s d Hh) as Hk. split.
  - intros x. unfold docs_of. rewrite !elem_of_app, !list_elem_of_fmap. intros [(m & -> & Hm)|[(g & -> & Hg)|(p & -> & Hp)]].
    + destruct (R1 m Hm) as [_ Hg]. destruct (all_slots_elem d m Hm) as (i & _ & He & _). apply (Hk (KSlot i)). cbn.
      unfold slot_at in He. destruct (db_slots d !! i); [by rewrite He|]. by rewrite He in Hg.
    + apply SortGroup_elem in Hg as [gid Hg]. apply (Hk (KGroup gid)). cbn. by rewrite Hg.
    + rewrite SortProxy_perm, list_elem_of_fmap in Hp. destruct Hp as ([t p'] & -> & Hp%elem_of_map_to_list). apply (Hk (KProxy t)). cbn. by rewrite Hp.
  - intros p Hp. rewrite SortProxy_perm, list_elem_of_fmap in Hp. destruct Hp as ([t p'] & -> & Hp%elem_of_map_to_list). cbn.
    destruct (Hk (KProxy t) (DProxy p')) as [Ht _]; [cbn; by rewrite Hp|]. rewrite (db_wf_proxy d (h_wf product s d Hh) t p' Hp). exact Ht.
Qed.

Lemma dump_valid s d : holding s d → config_valid (dump_of d).
Proof.
  intros Hh. pose proof (h_keys product s d Hh) as Hk. unfold dump_of, config_valid. cbn [full_config c3_Slots c3_Group c3_Proxy]. split_and!; apply Forall_fmap, Forall_forall.
  - intros m Hm. cbn. destruct (all_slots_elem d m Hm) as (i & Hi & -> & _). unfold slot_at. destruct (db_slots d !! i) as [m'|] eqn:Hs.
    + left. apply (Hk (KSlot i)). cbn. by rewrite Hs.
    + right. by exists i.
  - intros g [gid Hg]%SortGroup_elem. cbn. apply (Hk (KGroup gid)). cbn. by rewrite Hg.
  - intros p Hp. rewrite SortProxy_perm, list_elem_of_fmap in Hp. destruct Hp as ([t p'] & -> & Hp%elem_of_map_to_list). apply (Hk (KProxy t)). cbn. by rewrite Hp.
Qed.

(** C38: a dump can be restored.  The description that codis-admin dumps from a cluster in
    order is taken by a restoration into an empty cluster, unless the coordinator fails,
    exactly when no migration and no
    promotion is under way and every slot has a group.  When it succeeds the restored cluster has the
    same slots, groups and proxies and is in order again; when it is refused nothing is
    written; when the coordinator fails, the restoration may have been written in part.  A dump itself changes nothing. *)
Theorem dump_restore opts1 w1 d1 : reaches opts1 → holding (ad_cl w1) d1 → cluster_ok d1 →
  wp (dumpConfigV3 product opts1) (λ r w1', holding (ad_cl w1') d1 ∧ r ≠ Panic ∧ (r = Ok tt → ∃ text, ad_out w1' = ad_out w1 ++ [text] ∧
    ∀ opts2 config w2 d2, restoring opts2 config → unmarshal_config text = Some config →
      holding (ad_cl w2) d2 → cluster_ok d2 → db_group d2 = ∅ → db_proxy d2 = ∅ →
      wp (handleConfigRestore product opts2) (λ r w2', match r with
        | Ok _ => at_rest d1 ∧ ∃ d, holding (ad_cl w2') d ∧ cluster_ok d ∧
                    db_group d = db_group d1 ∧ db_proxy d = db_proxy d1 ∧ all_slots d = all_slots d1
        | Err e => (∃ e', e = OnStore e') ∨ ¬ at_rest d1 ∧ holding (ad_cl w2') d2
        | Panic => False
        end) w2)) w1.
Proof.
  intros Hr1 Hh1 Hok1. pose proof (h_wf product _ _ Hh1) as Hwf1. eapply wp_mono; [by apply dump_wp|]. intros r w1' [Hh1' Ho]. split_and!; [done|by destruct r|].
  intros ->. destruct Ho as [Ho _]. eexists. split; [done|]. intros opts2 config w2 d2 Hrs Hu Hh2 Hok2 Hg2 Hp2.
  rewrite config_roundtrip in Hu by by eapply dump_valid. injection Hu as <-. pose proof (dump_accepted d1 Hwf1 Hok1) as Hacc. eapply wp_mono; [apply (restore_wp opts2 (dump_of d1) w2 d2 Hrs); [|done]|].
  - intros ss gs ps (<- & <- & <-)%full_config_inj Hc. by eapply dump_writable, Hacc.
  - intros r w2' [_ Hres]. destruct r as [u|e|]; cbn [restore_result] in Hres.
    + destruct Hres as (ss & gs & ps & (<- & <- & <-)%full_config_inj & Hc & _ & _ & Hh). split; [by apply Hacc|].
      eexists. split; [exact Hh|]. split; [by apply restored_ok|]. by apply restored_dump.
    + destruct Hres as [[[Hck|[_ [?|?]]] Hh]|[He _]]; [right|done|done|by left]. split; [|done]. intros Hrest%Hacc.
      assert (check_config (dump_of d1) = Ok tt) by (apply check_config_spec; by exists (all_slots d1), (SortGroup (db_group d1)), (SortProxy (db_proxy d1))). congruence.
    + destruct Hres as [Hck _]. by apply (check_config_total (all_slots d1) (SortGroup (db_group d1)) (SortProxy (db_proxy d1))).
Qed.

(** A dump of a cluster with a slot that no group serves cannot be restored. *)
Lemma unassigned_refused d m : db_wf d → cluster_ok d → m ∈ all_slots d → sm_GroupId m = 0 → check_config (dump_of d) ≠ Ok tt.
Proof.
  intros Hwf Hok Hm Hg (ss & gs & ps & (<- & <- & <-)%full_config_inj & Hc)%check_config_spec. apply dump_accepted in Hc as [Hr _]; [|done..]. by destruct (Hr m Hm).
Qed.

(** A restoration that succeeds leaves a cluster in order, on which the dashboard can start;
    one that is refused has written nothing; one that the coordinator interrupts has written
    a beginning of the slots, groups and proxies, in this order. *)
Theorem config_restore opts config w d : restoring opts config → (∀ ss gs ps, config = full_config ss gs ps → config_ok ss gs ps → writable ss gs ps) →
  holding (ad_cl w) d → cluster_ok d →
  wp (handleConfigRestore product opts) (λ r w', restore_result config d r (ad_cl w') ∧ (r = Ok tt → ∃ d', holding (ad_cl w') d' ∧ db_wf d' ∧ cluster_ok d')) w.
Proof.
  intros Hrs Hwr Hh Hok. eapply wp_mono; [by apply (restore_wp opts config w d)|]. intros r w' [_ Hres]. split; [done|]. intros ->.
  destruct Hres as (ss & gs & ps & _ & Hc & Hg & _ & Hh'). eexists. split; [exact Hh'|]. split; [by eapply h_wf|by apply restored_ok].
Qed.
End restore.

(** * Conversion *)
Section conversion.
Context `{FloatToInt}.

(** a slot of a description of Codis 1: online, id and group *)
Definition v1_slot (v : jval) : outcome admerr (bool * Z * Z) :=
  m ← as_object v; sid ← as_int (member m "id"); gid ← as_int (member m "group_id");
  state ← as_object (member m "state"); status ← as_text (member state "status");
  if decide (status = "offline"%string) then Ok (false, sid, gid) else if decide (status ≠ "online"%string) then Err BadStatus else Ok (true, sid, gid).
Definition online_slots (es : list (bool * Z * Z)) : list SlotMapping := omap (λ '(on, sid, gid), if on : bool then Some (new_mapping sid gid) else None) es.
(** a server of a description of Codis 1: group, master and address *)
Definition v1_server (v : jval) : outcome admerr (Z * bool * string) :=
  m ← as_object v; addr ← as_text (member m "addr"); gid ← as_int (member m "group_id"); kind ← as_text (member m "type");
  if decide (gid ≤ 0 ∨ MaxGroupId < gid) then Err (BadGroup gid) else Ok (gid, bool_decide (kind = "master"%string), addr).
Definition v1_servers_of (gid : Z) (master : bool) (es : list (Z * bool * string)) : list string :=
  omap (λ '(k, ms, addr), if decide (k = gid ∧ ms = master) then Some addr else None) es.

Lemma convertSlotsV1_entry m v : convertSlotsV1 m v = match v1_slot v with
  | Ok (true, sid, gid) => match m !! sid with Some _ => Err (DupSlot sid) | None => Ok (<[sid := new_mapping sid gid]> m) end
  | Ok (false, _, _) => Ok m
  | Err e => Err e
  | Panic => Panic
  end.
Proof.
  unfold convertSlotsV1, v1_slot. destruct (as_object v) as [l|e|]; [cbn|done..]. destruct (as_int (member l "id")) as [sid|e|]; [cbn|done..].
  destruct (as_int (member l "group_id")) as [gid|e|]; [cbn|done..]. destruct (as_object (member l "state")) as [st|e|]; [cbn|done..].
  destruct (as_text (member st "status")) as [status|e|]; [cbn|done..]. destruct (decide (status = "offline"%string)); [done|]. by destruct (decide (status ≠ "online"%string)).
Qed.

Lemma convert_slots_fold l : ∀ m m', foldM convertSlotsV1 m l = Ok m' → ∃ es, v1_slot <$> l = Ok <$> es ∧
  NoDup (sm_Id <$> online_slots es) ∧ (∀ x, x ∈ online_slots es → m !! sm_Id x = None) ∧ m' = put_all sm_Id m (online_slots es).
Proof.
  induction l as [|v l IH]; intros m m'; cbn [foldM].
  - intros [= <-]. exists []. split_and!; [done|apply NoDup_nil_2| |done]. by intros x ?%not_elem_of_nil.
  - rewrite convertSlotsV1_entry. destruct (v1_slot v) as [[[on sid] gid]|e|] eqn:Hv; [|done..]. destruct on.
    + destruct (m !! sid) eqn:Hm; [done|]. cbn [mbind outcome_bind]. intros (es & He & Hnd & Hx & ->)%IH. exists ((true, sid, gid) :: es).
      rewrite !fmap_cons, Hv, He. split; [done|]. change (online_slots ((true, sid, gid) :: es)) with (new_mapping sid gid :: online_slots es). split_and!.
      * rewrite fmap_cons. apply NoDup_cons. split; [|done]. intros (y & Hy & Hin)%list_elem_of_fmap. specialize (Hx y Hin). rewrite <-Hy in Hx. cbn in Hx. by rewrite lookup_insert_eq in Hx.
      * intros x [->|Hin]%elem_of_cons; [done|]. specialize (Hx x Hin). by apply lookup_insert_None in Hx as [? _].
      * done.
    + cbn [mbind outcome_bind]. intros (es & He & Hnd & Hx & ->)%IH. exists ((false, sid, gid) :: es). rewrite !fmap_cons, Hv, He. by split_and!.
Qed.

(** the servers of the groups of a map *)
Definition group_addrs (m : gmap Z Group) (gid : Z) : list string := match m !! gid with Some g => addrs g | None => [] end.
Definition plain_group (gid : Z) (g : Group) : Prop := g_Id g = gid ∧ 0 < gid ≤ MaxGroupId ∧ pr_State (g_Promoting g) = ActionNothing.

Lemma convertGroupV1_entry m v m' : (∀ gid g, m !! gid = Some g → plain_group gid g) → convertGroupV1 m v = Ok m' → ∃ gid ms addr, v1_server v = Ok (gid, ms, addr) ∧
  (∀ k g, m' !! k = Some g → plain_group k g) ∧ (∀ k, is_Some (m' !! k) ↔ k = gid ∨ is_Some (m !! k)) ∧
  ∀ k, group_addrs m' k = if decide (k = gid) then (if ms : bool then addr :: group_addrs m k else group_addrs m k ++ [addr]) else group_addrs m k.
Proof.
  intros Hp. unfold convertGroupV1, v1_server. destruct (as_object v) as [l|e|]; [cbn|done..]. destruct (as_text (member l "addr")) as [addr|e|]; [cbn|done..].
  destruct (as_int (member l "group_id")) as [gid|e|]; [cbn|done..]. destruct (as_text (member l "type")) as [kind|e|]; [cbn|done..].
  destruct (decide (gid ≤ 0 ∨ MaxGroupId < gid)) as [|Hr]; [done|]. intros [= <-]. exists gid, (bool_decide (kind = "master"%string)), addr. split_and!; [done|..].
  - intros k g. rewrite lookup_insert_Some. intros [[<- <-]|[_ Hk]]; [|by apply Hp]. destruct (m !! gid) as [g|] eqn:Hm; cbn; [|split_and!; [done|lia|lia|done]].
    by apply Hp in Hm.
  - intros k. rewrite lookup_insert_is_Some. destruct (decide (gid = k)) as [->|Hne]; [by split; intros; left|]. split; [intros [?|[_ ?]]; auto|intros [?|?]; [by left|by right]].
  - intros k. unfold group_addrs. destruct (decide (k = gid)) as [->|Hne]; [|by rewrite lookup_insert_ne by done]. rewrite lookup_insert_eq. unfold addrs.
    destruct (decide (kind = "master"%string)) as [Hk|Hk]; [rewrite bool_decide_true by done|rewrite bool_decide_false by done]; destruct (m !! gid) as [g|]; cbn; [done|done|by rewrite fmap_app|done].
Qed.

Definition placed (gid : Z) (es : list (Z * bool * string)) (l : list string) : list string := rev (v1_servers_of gid true es) ++ l ++ v1_servers_of gid false es.

Lemma convert_groups_fold l : ∀ m m', (∀ gid g, m !! gid = Some g → plain_group gid g) → foldM convertGroupV1 m l = Ok m' → ∃ es, v1_server <$> l = Ok <$> es ∧
  (∀ gid g, m' !! gid = Some g → plain_group gid g) ∧ (∀ k, is_Some (m' !! k) ↔ k ∈ es.*1.*1 ∨ is_Some (m !! k)) ∧
  ∀ k, group_addrs m' k = placed k es (group_addrs m k).
Proof.
  induction l as [|v l IH]; intros m m' Hp; cbn [foldM].
  - intros [= <-]. exists []. split_and!; [done|done| |]; intros k; [split; [by right|intros [?%not_elem_of_nil|?]; done]|]. unfold placed. cbn. by rewrite app_nil_r.
  - destruct (convertGroupV1 m v) as [m1|e|] eqn:Hc; [|done..]. cbn [mbind outcome_bind]. intros Hf.
    apply convertGroupV1_entry in Hc as (gid & ms & addr & Hv & Hp1 & Hs1 & Ha1); [|done]. apply IH in Hf as (es & He & Hp2 & Hs2 & Ha2); [|done].
    exists ((gid, ms, addr) :: es). rewrite !fmap_cons, Hv, He. split_and!; [done|done|..]; intros k.
    + rewrite Hs2, Hs1, elem_of_cons. cbn. tauto.
    + rewrite Ha2, Ha1. unfold placed, v1_servers_of. cbn [omap list_omap]. destruct (decide (k = gid)) as [->|Hne].
      * destruct ms; [rewrite (decide_True (P := gid = gid ∧ true = true)) by done; rewrite (decide_False (P := gid = gid ∧ true = false)) by (by intros [])|
          rewrite (decide_False (P := gid = gid ∧ false = true)) by (by intros []); rewrite (decide_True (P := gid = gid ∧ false = false)) by done];
          cbn; by rewrite <-!app_assoc.
      * rewrite !decide_False by (by intros [-> _]). done.
Qed.

Lemma convert_groups_folds gl : ∀ m m', (∀ gid g, m !! gid = Some g → plain_group gid g) →
  foldM (λ group g, l ← as_object g; foldM convertGroupV1 group l.*2) m gl = Ok m' → ∃ ls es, as_object <$> gl = Ok <$> ls ∧
  v1_server <$> (ls ≫= λ l, l.*2) = Ok <$> es ∧ (∀ gid g, m' !! gid = Some g → plain_group gid g) ∧ (∀ k, is_Some (m' !! k) ↔ k ∈ es.*1.*1 ∨ is_Some (m !! k)) ∧
  ∀ k, group_addrs m' k = placed k es (group_addrs m k).
Proof.
  induction gl as [|g gl IH]; intros m m' Hp; cbn [foldM].
  - intros [= <-]. exists [], []. split_and!; [done|done|done| |]; intros k; [split; [by right|intros [?%not_elem_of_nil|?]; done]|]. unfold placed. cbn. by rewrite app_nil_r.
  - destruct (as_object g) as [l|e|] eqn:Hg; [cbn [mbind outcome_bind]|done..]. destruct (foldM convertGroupV1 m l.*2) as [m1|e|] eqn:Hf; [cbn [mbind outcome_bind]|done..].
    intros Hr. apply convert_groups_fold in Hf as (es1 & He1 & Hp1 & Hs1 & Ha1); [|done]. apply IH in Hr as (ls & es2 & Hl & He2 & Hp2 & Hs2 & Ha2); [|done].
    exists (l :: ls), (es1 ++ es2). rewrite fmap_cons, Hg, Hl, bind_cons, !fmap_app, He1, He2. split_and!; [done|done|done|..]; intros k.
    + rewrite Hs2, Hs1, elem_of_app. tauto.
    + rewrite Ha2, Ha1. unfold placed, v1_servers_of. rewrite !omap_app, rev_app_distr, <-!app_assoc. done.
Qed.

Definition members (v : jval) : list jval := match v with JObj l => l.*2 | _ => [] end.

Lemma sorted_lookups (m : gmap Z SlotMapping) : ∀ n i, (∀ k x, m !! k = Some x → sm_Id x = k) → StronglySorted Z.lt (sm_Id <$> omap (λ i, m !! i) (seqZ i (Z.of_nat n))).
Proof.
  induction n as [|n IH]; intros i Hm; [constructor|]. rewrite seqZ_cons by lia. replace (Z.pred (Z.of_nat (S n))) with (Z.of_nat n) by lia. cbn [omap list_omap].
  destruct (m !! i) as [x|] eqn:Hx; [|by apply IH]. rewrite fmap_cons. constructor; [by apply IH|]. rewrite Forall_fmap, Forall_forall. intros y (k & Hk & Hy)%list_elem_of_omap.
  apply elem_of_seqZ in Hk. cbn. rewrite (Hm _ _ Hx), (Hm _ _ Hy). lia.
Qed.

(** The conversion of a description of Codis 1, when it succeeds, has exactly the slots
    that are online there, once each and in order, without actions; and a group for each
    group that some server names there, in order, with the servers of that group: the
    masters, the last named first, then the others in the order in which they are named. *)
Theorem convert_correct cfg1 c : convert_config cfg1 = Ok c → ∃ ss gs es fs, c = full_config ss gs [] ∧
  v1_slot <$> members (member cfg1 "slots") = Ok <$> es ∧ StronglySorted Z.lt (sm_Id <$> ss) ∧
  (∀ m, m ∈ ss ↔ m ∈ online_slots es ∧ 0 ≤ sm_Id m < MaxSlotNum) ∧
  v1_server <$> (members (member cfg1 "servers") ≫= members) = Ok <$> fs ∧ Sorted group_le gs ∧ NoDup (g_Id <$> gs) ∧
  (∀ k, k ∈ g_Id <$> gs ↔ k ∈ fs.*1.*1) ∧
  ∀ g, g ∈ gs → plain_group (g_Id g) g ∧ addrs g = rev (v1_servers_of (g_Id g) true fs) ++ v1_servers_of (g_Id g) false fs.
Proof.
  intros Hc. unfold convert_config in Hc. destruct (convert_slots (member cfg1 "slots")) as [ls|e|] eqn:Hs; [|done..].
  destruct (convert_groups (member cfg1 "servers")) as [lg|e|] eqn:Hg; [|done..]. injection Hc as <-.
  assert (∃ ss es, ls = Some <$> ss ∧ v1_slot <$> members (member cfg1 "slots") = Ok <$> es ∧ StronglySorted Z.lt (sm_Id <$> ss) ∧
    (∀ m, m ∈ ss ↔ m ∈ online_slots es ∧ 0 ≤ sm_Id m < MaxSlotNum)) as (ss & es & -> & K1 & K2 & K3).
  { destruct (member cfg1 "slots") as [| | | | |l]; [|done..|].
    - injection Hs as <-. exists [], []. split_and!; [done|done|constructor|]. intros m. cbn. split; [by intros ?%not_elem_of_nil|by intros [?%not_elem_of_nil _]].
    - unfold convert_slots in Hs. cbn [as_object mbind outcome_bind] in Hs. destruct (foldM convertSlotsV1 ∅ l.*2) as [m|e|] eqn:Hf; [|discriminate Hs..]. cbn [mbind outcome_bind] in Hs.
      assert (ls = Some <$> omap (λ i, m !! i) (seqZ 0 MaxSlotNum)) as -> by congruence. clear Hs. apply convert_slots_fold in Hf as (es & He & Hnd & _ & ->).
      assert (∀ k x, put_all sm_Id ∅ (online_slots es) !! k = Some x → sm_Id x = k) as Hk by (intros k x [[_ ?]|[? _]]%put_all_lookup; done).
      eexists _, es. split_and!; [done|done|by apply (sorted_lookups _ (Z.to_nat MaxSlotNum) 0)|]. intros x. rewrite list_elem_of_omap. split.
      + intros (k & Hin%elem_of_seqZ & Hx). pose proof (Hk _ _ Hx) as Hid. apply put_all_lookup in Hx as [[Hx _]|[? _]]; [|done..]. split; [done|lia].
      + intros [Hx Hr]. exists (sm_Id x). split; [apply elem_of_seqZ; lia|]. apply put_all_lookup; [done|by left]. }
  assert (∃ gs fs, lg = Some <$> gs ∧ v1_server <$> (members (member cfg1 "servers") ≫= members) = Ok <$> fs ∧ Sorted group_le gs ∧ NoDup (g_Id <$> gs) ∧
    (∀ k, k ∈ g_Id <$> gs ↔ k ∈ fs.*1.*1) ∧ ∀ g, g ∈ gs → plain_group (g_Id g) g ∧ addrs g = rev (v1_servers_of (g_Id g) true fs) ++ v1_servers_of (g_Id g) false fs)
    as (gs & fs & -> & J1 & J2 & J3 & J4 & J5); [|exists ss, gs, es, fs; by split_and!].
  destruct (member cfg1 "servers") as [| | | | |l]; [|done..|].
  - injection Hg as <-. exists [], []. split_and!; [done|done|constructor|apply NoDup_nil_2|done|by intros g ?%not_elem_of_nil].
  - cbn in Hg. destruct (foldM _ ∅ l.*2) as [m|e|] eqn:Hf; [|done..]. injection Hg as <-. apply convert_groups_folds in Hf as (ls & fs & Hls & He & Hp & Hk & Ha); [|done].
    assert (∀ k g, m !! k = Some g → g_Id g = k) as Hid by (intros k g Hg; by apply Hp in Hg as [? _]).
    destruct (put_all_values g_Id m (SortGroup m) Hid (SortGroup_perm _)) as [Hnd _]. exists (SortGroup m), fs. split_and!; [done| |apply SortGroup_sorted|done|..].
    + cbn [members]. rewrite <-He. f_equal. clear -Hls. revert ls Hls. induction (l.*2) as [|v vs IH]; intros [|l0 ls] Hls; [done|done|done|].
      injection Hls as Hv Hls. rewrite !bind_cons. f_equal; [|by apply IH]. destruct v; try done. cbn in Hv. by injection Hv as ->.
    + intros k. rewrite list_elem_of_fmap. transitivity (is_Some (m !! k)).
      * split; [intros (g & -> & [gid Hg]%SortGroup_elem); rewrite (Hid gid g Hg); by eexists|]. intros [g Hg]. exists g. split; [symmetry; by apply Hid|]. apply SortGroup_elem. by exists k.
      * rewrite Hk, lookup_empty. split; [intros [?|[]]; done|by left].
    + intros g [gid Hg]%SortGroup_elem. pose proof (Hid _ _ Hg) as <-. split; [by apply Hp|]. specialize (Ha (g_Id g)). unfold group_addrs in Ha. rewrite Hg, lookup_empty in Ha. exact Ha.
Qed.
End conversion.

(** Concrete runs of codis-admin over the coordinator in a directory, and a restoration
    that is interrupted. *)

#[export] Instance config_eq_dec : EqDecision ConfigV3.
Proof. solve_decision. Defined.
#[export] Instance config_countable : Countable ConfigV3.
Proof. refine (inj_countable' (λ c, (c3_Slots c, c3_Group c, c3_Proxy c)) (λ '(s, g, p), mkConfigV3 s g p) _). by intros []. Defined.

(** one file, with the description to restore *)
Definition demo_io (file : bytes) : AdminIO := {|
  ReadFile name := if decide (name = "cluster.json"%string) then Some file else None;
  connects _ := true;
  marshal_config c := coded c;
  unmarshal_config b := decode (of_bits b);
  unmarshal_value _ := None;
  marshal_list _ := []
|}.
Lemma demo_io_laws `{Json} file : @AdminIOLaws (demo_io file) _.
Proof. intros c _. cbn [marshal_config unmarshal_config demo_io]. unfold coded. by rewrite of_bits_bits, decode_encode. Qed.
Definition amd64_ints : FloatToInt := λ _, - 2 ^ 63.

Definition demo_options : options := λ name,
  if decide (name = "--filesystem"%string) then AText "/var"
  else if decide (name = "--config-restore"%string) then AText "cluster.json"
  else if decide (name = "--confirm"%string) then AFlag true
  else ANone.

#[local] Existing Instances coded_docs amd64_ints.

(** ** A dump *)
Definition demo_file : bytes := coded (full_config [new_mapping 0 1] [demo_group] []).
Definition demo_d1 : db := db_set_group demo_group empty_db.
Lemma demo_reaches : @reaches (demo_io demo_file) demo_options.
Proof. exists (mkArgs "filesystem" "/var" "" false). split_and!; reflexivity. Qed.
Lemma demo_d1_ok : cluster_ok demo_d1.
Proof.
  split.
  - intros i m [_ ->]%all_slots_lookup. unfold slot_at. cbn [db_slots demo_d1 db_set_group empty_db]. rewrite lookup_empty. split; [by left|done].
  - intros gid g. cbn. rewrite lookup_insert_Some, lookup_empty. intros [[<- <-]|[_ ?]]; [|done]. split_and!; [done|done|done| |done]. apply NoDup_singleton.
  - intros k1 k2 g1 g2 a. cbn. rewrite !lookup_insert_Some, !lookup_empty. intros [[<- _]|[_ ?]] [[<- _]|[_ ?]]; done.
Qed.
Definition demo_adm : @adm demo_client := mkAdm _ (@Store_UpdateGroup demo_client coded_docs "demo" demo_group empty_fs).2 [].
Lemma demo_adm_holds : @holds demo_client coded_docs "demo" (ad_cl demo_adm) demo_d1.
Proof.
  pose proof (@updates_write demo_client (fs_client_laws (H := demo_env) (H0 := demo_env_laws) demo_root demo_root_proper) coded_docs "demo" demo_product_ok
    (DGroup demo_group) _ eq_refl ltac:(cbn; lia) I empty_fs empty_db empty_holds) as [_ Hh].
  assert ((@Store_UpdateGroup demo_client coded_docs "demo" demo_group empty_fs).1 = Ok tt) as Hok by (vm_compute; reflexivity). rewrite Hok in Hh. exact Hh.
Qed.

Lemma dump_restore_witness : @reaches (demo_io demo_file) demo_options ∧ @holds demo_client coded_docs "demo" (ad_cl demo_adm) demo_d1 ∧ cluster_ok demo_d1 ∧
  wp (@dumpConfigV3 demo_client coded_docs (demo_io demo_file) "demo" demo_options) (λ r w', @holds demo_client coded_docs "demo" (ad_cl w') demo_d1 ∧ r ≠ Panic) demo_adm.
Proof.
  split; [exact demo_reaches|]. split; [exact demo_adm_holds|]. split; [exact demo_d1_ok|].
  eapply wp_mono; [exact (@dump_restore demo_client (fs_client_laws (H := demo_env) (H0 := demo_env_laws) demo_root demo_root_proper) coded_docs coded_docs_laws
    (demo_io demo_file) (demo_io_laws demo_file) "demo" demo_product_ok demo_options demo_adm demo_d1 demo_reaches demo_adm_holds demo_d1_ok)|].
  intros r w' (Hh & Hp & _). exact (conj Hh Hp).
Defined.

(** a cluster at rest: every slot in group 1 *)
Definition demo_slots : list SlotMapping := (λ i, new_mapping i 1) <$> seqZ 0 MaxSlotNum.
Lemma demo_at_rest : at_rest (restored demo_slots [demo_group] [] empty_db).
Proof.
  assert (NoDup (sm_Id <$> demo_slots)) as Hnd.
  { unfold demo_slots. rewrite <-list_fmap_compose. change (sm_Id ∘ (λ i, new_mapping i 1)) with (λ i : Z, i). rewrite list_fmap_id. apply NoDup_seqZ. }
  split.
  - intros m (i & Hi & -> & _)%all_slots_elem. unfold slot_at. cbn [db_slots restored].
    assert (put_all sm_Id (db_slots empty_db) demo_slots !! i = Some (new_mapping i 1)) as ->; [|done].
    apply put_all_lookup; [exact Hnd|]. left. split; [|done]. unfold demo_slots. apply list_elem_of_fmap. exists i. split; [done|]. apply elem_of_seqZ. lia.
  - intros gid g. cbn. rewrite lookup_insert_Some, lookup_empty. by intros [[<- <-]|[_ ?]].
Qed.

(** ** An interrupted restoration

    The slots are written before the groups.  When the coordinator fails in between, the
    store has slots in groups that do not exist. *)
Definition failing_env (n : nat) : FsEnv :=
  {| sys_ok t := negb (Nat.eqb t n); sys_part _ := 0%nat; sys_keep _ _ := true; sys_name _ := bstr "tmp"; sys_stamp _ := [] |}.
Definition failing_client (n : nat) : Client := @fs_client (failing_env n) demo_root.
Lemma restore_interrupted : let '(r, w) := @handleConfigRestore (failing_client 24) coded_docs (demo_io demo_file) "demo" demo_options (@mkAdm (failing_client 24) empty_fs []) in
  r = Err (OnStore (SClient ErrClient)) ∧ (@Store_LoadSlotMapping (failing_client 24) coded_docs "demo" 0 true (ad_cl w)).1 = Ok (Some (new_mapping 0 1)) ∧
  (@Store_ListGroup (failing_client 24) coded_docs "demo" (ad_cl w)).1 = Ok ∅.
Proof. vm_compute. split_and!; reflexivity. Qed.

(** ** A conversion *)
Definition jint (n : positive) : jval := JNum (S754_finite false n 0).
Definition v1_demo : list (string * jval) :=
  [("slots", JObj [("slot_7", JObj [("id", jint 7); ("group_id", jint 2); ("state", JObj [("status", JStr "online")])]);
                   ("slot_3", JObj [("id", jint 3); ("group_id", jint 2); ("state", JObj [("status", JStr "online")])]);
                   ("slot_9", JObj [("id", jint 9); ("group_id", jint 2); ("state", JObj [("status", JStr "offline")])])]);
   ("servers", JObj [("group_2", JObj [("b:1", JObj [("addr", JStr "b:1"); ("group_id", jint 2); ("type", JStr "slave")]);
                                       ("a:1", JObj [("addr", JStr "a:1"); ("group_id", jint 2); ("type", JStr "master")])])])]%string.
Example convert_demo : @convert_config amd64_ints v1_demo =
  Ok (full_config [new_mapping 3 2; new_mapping 7 2] [new_group 2 [bare_server "a:1"; bare_server "b:1"]] []).
Proof. vm_compute. reflexivity. Qed.
