(* ===== verification/AdminDashboard.v ===== *)
(** codis-admin on a dashboard: cmd/admin/dashboard.go.  A command reads its options, makes
    calls of the dashboard's API, and prints.

    The calls go to any dashboard, a function [rpc] on its state; [dw_calls] records them.
    [log.Panicf] ends the program with an error.  The texts of [json.MarshalIndent] and the
    files are parameters.  The overview, the commands on recoveries and the fetching of RDB
    files are not modelled. *)

From S2P Require Import Prelude Bufio Resp RespNumbers Mapper Models TopomContext TopomState TopomCache TopomProxy TopomGroup.
From S2P Require Import Router Stream Forward SessionState ClusterNodes TopomACL ACLTheorems PitrFiles RdbPaths Units Store AdminConfig TopomStats TopomApi TopomApiTheorems.
From S2P Require Import TopomQPS Broadcast TopomSafety TopomRebalance.
Inductive cmderr := OnOption (e : admerr) | BadInteger (name : string) | RpcFailed (c : api_call) | NoSuchProxy | BadLevel | BadACLFile.

(** what is printed as JSON *)
Inductive printed := PSlots (l : list SlotMapping) | PSlotViews (l : list Slot) | PACLView (v : ACLView) | PACLRequest (r : ACLUpdateRequest) | PProxy (p : Proxy).
Class Printing := { print_json : printed → bytes; read_acl : string → option ACLUpdateRequest }.

Record dworld (W : Type) := mkDW { dw_state : W; dw_calls : list api_call; dw_out : list bytes }.
Arguments mkDW {W}. Arguments dw_state {W}. Arguments dw_calls {W}. Arguments dw_out {W}.

(** ** Integers of options *)
Definition ArgumentIntegerMust (d : options) (name : string) : outcome cmderr Z :=
  match ArgumentMust d name with
  | Ok s => match ParseInt (bstr s) with Ok n => Ok n | _ => Err (BadInteger name) end
  | Err e => Err (OnOption e)
  | Panic => Panic
  end.
Definition text_of (d : options) (name : string) : outcome cmderr string := with_err OnOption (ArgumentMust d name).
Definition bool_option (d : options) (name : string) : outcome cmderr bool := with_err OnOption (flag_of d name).
Definition given (d : options) (name : string) : bool := match d name with ANone => false | _ => true end.

(** ** Printing *)
Definition blanks (n : nat) : bytes := replicate n x20.
(** [%0*d] of a number that is not negative, [%-*s] of an ASCII text *)
Definition zeros_left (w : nat) (b : bytes) : bytes := replicate (w - length b) x30 ++ b.
Definition pad_right (w : nat) (s : bytes) : bytes := s ++ blanks (w - length s).
Definition widest {A} (f : A → bytes) (l : list A) : nat := foldr (λ a n, Nat.max (length (f a)) n) 0%nat l.

(** the ranges of a rebalancing plan *)
Record prange := mkRange { pg_beg : Z; pg_end : Z; pg_gid : Z }.
Definition range_text (r : prange) : bytes := bstr "[" ++ Fmt04 (pg_beg r) ++ bstr "," ++ Fmt04 (pg_end r) ++ bstr "] => " ++ FormatInt (pg_gid r).
Fixpoint plan_ranges (plans : gmap Z Z) (ids : list Z) (cur : prange) : list prange :=
  match ids with
  | [] => if decide (pg_beg cur ≤ pg_end cur) then [cur] else []
  | sid :: ids =>
      let gid := default 0 (plans !! sid) in
      if decide (pg_beg cur ≤ pg_end cur) then
        if decide (sid = pg_end cur + 1 ∧ gid = pg_gid cur) then plan_ranges plans ids (mkRange (pg_beg cur) sid (pg_gid cur))
        else cur :: plan_ranges plans ids (mkRange sid sid gid)
      else plan_ranges plans ids (mkRange sid sid gid)
  end.
Definition plan_ids (plans : gmap Z Z) : list Z := merge_sort Z.le (map_to_list plans).*1.

(** redactACLUpdateRequest *)
Definition redact_user (u : ACLUserUpdate) : ACLUserUpdate :=
  mkUserUpdate (uu_Name u) (uu_Enabled u) (uu_DB u) (if decide (uu_NewPassword u = "") then "" else "<redacted>") (uu_PasswordHashes u) (uu_Rules u).
Definition redactACLUpdateRequest (req : ACLUpdateRequest) : ACLUpdateRequest := mkUpdate (ar_Enabled req) ((λ u : option ACLUserUpdate, redact_user <$> u) <$> ar_Users req).

(** the mark of a server in the status of a group *)
Definition master_text (stats : gmap bytes bytes) : bytes :=
  match stats !! bstr "master_addr" with
  | Some s => s ++ bstr ":" ++ default [] (stats !! bstr "master_link_status")
  | None => bstr "NO:ONE"
  end.
Definition expected_master (g : Group) (i : nat) : bytes :=
  match i, g_Servers g with
  | O, _ => bstr "NO:ONE"
  | _, m :: _ => bstr (gs_Addr m) ++ bstr ":up"
  | _, [] => []
  end.

Section commands.
Context {W : Type} (rpc : string → api_call → W → outcome clienterr reply * W).
Context `{UnicodeUpper} `{Sha256} `{Printing}.
Local Abbreviation DM := (M (dworld W) cmderr).

Definition Println (b : bytes) : DM unit := modify (λ w, mkDW (dw_state w) (dw_calls w) (dw_out w ++ [b])).
Definition print (p : printed) : DM unit := Println (print_json p).

(** a call of the API; an error ends the program *)
Definition rpc_call (x : string) (c : api_call) : DM reply := λ w,
  let '(r, s) := rpc x c (dw_state w) in
  (match r with Ok v => Ok v | _ => Err (RpcFailed c) end, mkDW s (dw_calls w ++ [c]) (dw_out w)).
Definition do_call (x : string) (c : api_call) : DM unit := rpc_call x c ;; mret tt.
(** the reply is decoded into what the call returns *)
Definition bad_reply {A} (c : api_call) : DM A := fail (RpcFailed c).

Definition newTopomClient : DM string :=
  r ← rpc_call "" C_Model;
  match r with
  | RModel m => let x := NewXAuth [tm_ProductName m] in do_call x C_XPing ;; mret x
  | _ => bad_reply C_Model
  end.
Definition get_stats (x : string) : DM TStats :=
  r ← rpc_call x C_Stats;
  match r with RStats s => mret s | _ => bad_reply C_Stats end.

Definition handleLogLevel (d : options) : DM unit :=
  x ← newTopomClient;
  s ← lift (text_of d "--log-level");
  match ParseFromString s with
  | None => fail BadLevel
  | Some l => do_call x (C_LogLevel l)
  end.
Definition handleShutdown (d : options) : DM unit := x ← newTopomClient; do_call x C_Shutdown.
Definition handleReload (d : options) : DM unit := x ← newTopomClient; do_call x C_Reload.

(** the slots from [beg] to [end], which is not the largest integer *)
Definition slot_range (beg end_ gid : Z) : list SlotMapping := (λ i, new_mapping i gid) <$> seqZ beg (end_ - beg + 1).
Definition handleSlotsCommand (d : options) : DM unit :=
  x ← newTopomClient;
  status ← lift (bool_option d "--slots-status");
  if status : bool then
    r ← rpc_call x C_Slots;
    match r with RSlots l => print (PSlotViews l) | _ => bad_reply C_Slots end
  else
    assign ← lift (bool_option d "--slots-assign");
    if negb assign then mret tt
    else
      offline ← lift (bool_option d "--offline");
      beg ← lift (ArgumentIntegerMust d "--beg");
      end_ ← lift (ArgumentIntegerMust d "--end");
      gid ← (if offline : bool then mret 0 else lift (ArgumentIntegerMust d "--gid") : DM Z);
      let slots := slot_range beg end_ gid in
      confirm ← lift (bool_option d "--confirm");
      if negb confirm then print (PSlots slots)
      else do_call x (if offline : bool then C_SlotsAssignOffline (Some <$> slots) else C_SlotsAssignGroup (Some <$> slots)).

Definition acl_view (x : string) (c : api_call) : DM unit :=
  r ← rpc_call x c;
  match r with RACL v => print (PACLView v) | _ => bad_reply c end.
Definition handleACLCommand (d : options) : DM unit :=
  x ← newTopomClient;
  get ← lift (bool_option d "--acl");
  if get : bool then acl_view x C_GetACL
  else
    sync ← lift (bool_option d "--acl-sync");
    if sync : bool then acl_view x C_SyncACL
    else if negb (given d "--acl-set") then mret tt
    else
      path ← lift (text_of d "--acl-set");
      match read_acl path with
      | None => fail BadACLFile
      | Some req =>
          confirm ← lift (bool_option d "--confirm");
          if negb confirm then print (PACLRequest (redactACLUpdateRequest req))
          else acl_view x (C_SetACL req)
      end.

Definition proxies_with (sel : Proxy → bool) (d : options) : DM (list string) :=
  x ← newTopomClient;
  s ← get_stats x;
  match omap (λ p, if sel p then Some (p_Token p) else None) (ts_Proxies s) with
  | [] => force ← lift (bool_option d "--force"); if force : bool then mret [] else fail NoSuchProxy
  | tokens => mret tokens
  end.
Definition parseProxyTokens (d : options) : DM (list string) :=
  if given d "--token" then token ← lift (text_of d "--token"); mret [token]
  else if given d "--pid" then pid ← lift (ArgumentIntegerMust d "--pid"); proxies_with (λ p, bool_decide (p_Id p = pid)) d
  else if given d "--addr" then addr ← lift (text_of d "--addr"); proxies_with (λ p, bool_decide (p_AdminAddr p = addr)) d
  else fail NoSuchProxy.

Definition proxy_mark (s : option ProxyStats) : bytes :=
  match s with
  | None => bstr "[?] "
  | Some s => match px_Error s with
              | Some _ => bstr "[E] "
              | None => match px_Timeout s, px_Stats s with false, Some _ => bstr "[ ] " | _, _ => bstr "[T] " end
              end
  end.
Definition proxy_line (s : TStats) (p : Proxy) : bytes :=
  let l := ts_Proxies s in
  proxy_mark (ts_ProxyStats s !! p_Token p) ++
  bstr "proxy-" ++ zeros_left (widest (λ p, FormatInt (p_Id p)) l) (FormatInt (p_Id p)) ++ bstr " [T] " ++ bstr (p_Token p) ++
  bstr " [A] " ++ pad_right (widest (λ p, bstr (p_AdminAddr p)) l) (bstr (p_AdminAddr p)) ++
  bstr " [P] " ++ pad_right (widest (λ p, bstr (p_ProxyAddr p)) l) (bstr (p_ProxyAddr p)).

Definition handleProxyCommand (d : options) : DM unit :=
  x ← newTopomClient;
  create ← lift (bool_option d "--create-proxy");
  if create : bool then addr ← lift (text_of d "--addr"); do_call x (C_CreateProxy addr)
  else
  online ← lift (bool_option d "--online-proxy");
  if online : bool then addr ← lift (text_of d "--addr"); do_call x (C_OnlineProxy addr)
  else
  remove ← lift (bool_option d "--remove-proxy");
  if remove : bool then
    force ← lift (bool_option d "--force");
    tokens ← parseProxyTokens d;
    for_each tokens (λ token, do_call x (C_RemoveProxy token force))
  else
  reinit ← lift (bool_option d "--reinit-proxy");
  if reinit : bool then
    all ← lift (bool_option d "--all");
    if all : bool then
      s ← get_stats x;
      for_each (ts_Proxies s) (λ p, Println (bstr "reinit proxy: " ++ print_json (PProxy p)) ;; do_call x (C_ReinitProxy (p_Token p)))
    else
      tokens ← parseProxyTokens d;
      for_each tokens (λ token, do_call x (C_ReinitProxy token))
  else
  status ← lift (bool_option d "--proxy-status");
  if status : bool then s ← get_stats x; for_each (ts_Proxies s) (λ p, Println (proxy_line s p)) else mret tt.

Definition server_line (s : TStats) (g : Group) (i : nat) (server : GroupServer) : bytes :=
  let groups := ts_Groups s in
  let line := bstr "group-" ++ zeros_left (widest (λ g, FormatInt (g_Id g)) groups) (FormatInt (g_Id g)) ++ bstr " [" ++
    zeros_left (foldr (λ g n, Nat.max (widest (λ i, FormatInt (Z.of_nat i)) (seq 0 (length (g_Servers g)))) n) 0%nat groups) (FormatInt (Z.of_nat i)) ++ bstr "] " ++
    pad_right (foldr (λ g n, Nat.max (widest (λ x, bstr (gs_Addr x)) (g_Servers g)) n) 0%nat groups) (bstr (gs_Addr server)) in
  match ts_GroupStats s !! gs_Addr server with
  | None => bstr "[?] " ++ line
  | Some st =>
      match rs_Error st with
      | Some _ => bstr "[E] " ++ line
      | None =>
          match rs_Timeout st, rs_Stats st with
          | false, Some stats =>
              let master := master_text stats in
              (if decide (master = expected_master g i) then bstr "[ ] " else bstr "[X] ") ++ line ++ bstr "      ==> " ++ master
          | _, _ => bstr "[T] " ++ line
          end
      end
  end.
Definition print_groups (s : TStats) : DM unit :=
  for_each (ts_Groups s) (λ g, for_each (imap (λ i x, (i, x)) (g_Servers g)) (λ '(i, x), Println (server_line s g i x))).

Definition handleGroupCommand (d : options) : DM unit :=
  x ← newTopomClient;
  create ← lift (bool_option d "--create-group");
  if create : bool then gid ← lift (ArgumentIntegerMust d "--gid"); do_call x (C_CreateGroup gid)
  else
  remove ← lift (bool_option d "--remove-group");
  if remove : bool then gid ← lift (ArgumentIntegerMust d "--gid"); do_call x (C_RemoveGroup gid)
  else
  resync ← lift (bool_option d "--resync-group");
  if resync : bool then
    all ← lift (bool_option d "--all");
    if all : bool then
      s ← get_stats x;
      for_each (ts_Groups s) (λ g, do_call x (C_ResyncGroup (g_Id g)))
    else gid ← lift (ArgumentIntegerMust d "--gid"); do_call x (C_ResyncGroup gid)
  else
  add ← lift (bool_option d "--group-add");
  if add : bool then
    gid ← lift (ArgumentIntegerMust d "--gid");
    addr ← lift (text_of d "--addr");
    dc ← lift (with_err OnOption (Argument d "--datacenter"));
    do_call x (C_GroupAddServer gid (default "" dc) addr)
  else
  del ← lift (bool_option d "--group-del");
  if del : bool then
    gid ← lift (ArgumentIntegerMust d "--gid");
    addr ← lift (text_of d "--addr");
    do_call x (C_GroupDelServer gid addr)
  else
  replica ← lift (bool_option d "--replica-groups");
  if replica : bool then
    gid ← lift (ArgumentIntegerMust d "--gid");
    addr ← lift (text_of d "--addr");
    value ← lift (bool_option d "--enable");
    do_call x (C_EnableReplicaGroups gid addr value)
  else
  promote ← lift (bool_option d "--promote-server");
  if promote : bool then
    gid ← lift (ArgumentIntegerMust d "--gid");
    addr ← lift (text_of d "--addr");
    do_call x (C_GroupPromoteServer gid addr) ;;
    s ← get_stats x; print_groups s
  else
  status ← lift (bool_option d "--group-status");
  if status : bool then s ← get_stats x; print_groups s else mret tt.

Definition handleSentinelCommand (d : options) : DM unit :=
  x ← newTopomClient;
  add ← lift (bool_option d "--sentinel-add");
  if add : bool then addr ← lift (text_of d "--addr"); do_call x (C_AddSentinel addr)
  else
  del ← lift (bool_option d "--sentinel-del");
  if del : bool then
    addr ← lift (text_of d "--addr");
    force ← lift (bool_option d "--force");
    do_call x (C_DelSentinel addr force)
  else
  resync ← lift (bool_option d "--sentinel-resync");
  if resync : bool then do_call x C_ResyncSentinels else mret tt.

Definition handleSyncActionCommand (d : options) : DM unit :=
  x ← newTopomClient;
  create ← lift (bool_option d "--create");
  if create : bool then addr ← lift (text_of d "--addr"); do_call x (C_SyncCreateAction addr)
  else
  remove ← lift (bool_option d "--remove");
  if remove : bool then addr ← lift (text_of d "--addr"); do_call x (C_SyncRemoveAction addr) else mret tt.

Definition handleSlotActionCommand (d : options) : DM unit :=
  x ← newTopomClient;
  create ← lift (bool_option d "--create");
  if create : bool then
    sid ← lift (ArgumentIntegerMust d "--sid");
    gid ← lift (ArgumentIntegerMust d "--gid");
    do_call x (C_SlotCreateAction sid gid)
  else
  remove ← lift (bool_option d "--remove");
  if remove : bool then sid ← lift (ArgumentIntegerMust d "--sid"); do_call x (C_SlotRemoveAction sid)
  else
  some ← lift (bool_option d "--create-some");
  if some : bool then
    src ← lift (ArgumentIntegerMust d "--gid-from");
    dst ← lift (ArgumentIntegerMust d "--gid-to");
    num ← lift (ArgumentIntegerMust d "--num-slots");
    do_call x (C_SlotCreateActionSome src dst num)
  else
  range ← lift (bool_option d "--create-range");
  if range : bool then
    beg ← lift (ArgumentIntegerMust d "--beg");
    end_ ← lift (ArgumentIntegerMust d "--end");
    gid ← lift (ArgumentIntegerMust d "--gid");
    do_call x (C_SlotCreateActionRange beg end_ gid)
  else if given d "--interval" then value ← lift (ArgumentIntegerMust d "--interval"); do_call x (C_SetSlotActionInterval value)
  else if given d "--disabled" then value ← lift (ArgumentIntegerMust d "--disabled"); do_call x (C_SetSlotActionDisabled (nonzero value))
  else mret tt.

Definition handleSlotRebalance (d : options) : DM unit :=
  x ← newTopomClient;
  confirm ← lift (bool_option d "--confirm");
  r ← rpc_call x (C_SlotsRebalance confirm);
  match r with
  | RPlan m =>
      match parse_plan m with
      | Ok plans =>
          if decide (size plans = 0%nat) then Println (bstr "nothing changes")
          else for_each (plan_ranges plans (plan_ids plans) (mkRange 0 (-1) (-1))) (λ r, Println (range_text r)) ;; Println (bstr "done")
      | _ => bad_reply (C_SlotsRebalance confirm)
      end
  | _ => bad_reply (C_SlotsRebalance confirm)
  end.
End commands.

(** What the commands of codis-admin do at a dashboard, and what they print. *)

(** * The printed plan *)
Definition covers (r : prange) : list (Z * Z) := (λ i, (i, pg_gid r)) <$> seqZ (pg_beg r) (pg_end r - pg_beg r + 1).
Definition planned (plans : gmap Z Z) (ids : list Z) : list (Z * Z) := (λ sid, (sid, default 0 (plans !! sid))) <$> ids.

Lemma covers_extend cur gid : pg_beg cur ≤ pg_end cur → gid = pg_gid cur →
  covers (mkRange (pg_beg cur) (pg_end cur + 1) (pg_gid cur)) = covers cur ++ [(pg_end cur + 1, gid)].
Proof.
  intros Hle ->. unfold covers. cbn [pg_beg pg_end pg_gid]. replace (pg_end cur + 1 - pg_beg cur + 1) with ((pg_end cur - pg_beg cur + 1) + 1) by lia.
  rewrite seqZ_app by lia. rewrite fmap_app. f_equal. replace (pg_beg cur + (pg_end cur - pg_beg cur + 1)) with (pg_end cur + 1) by lia. done.
Qed.
Lemma covers_one sid gid : covers (mkRange sid sid gid) = [(sid, gid)].
Proof. unfold covers. cbn [pg_beg pg_end pg_gid]. replace (sid - sid + 1) with 1 by lia. done. Qed.

Lemma plan_ranges_cover plans ids : ∀ cur, concat (covers <$> plan_ranges plans ids cur) = (if decide (pg_beg cur ≤ pg_end cur) then covers cur else []) ++ planned plans ids.
Proof.
  induction ids as [|sid ids IH]; intros cur; cbn [plan_ranges planned fmap list_fmap].
  - destruct (decide _); cbn; by rewrite ?app_nil_r.
  - fold (planned plans ids). destruct (decide (pg_beg cur ≤ pg_end cur)) as [Hle|Hle].
    + destruct (decide (sid = pg_end cur + 1 ∧ default 0 (plans !! sid) = pg_gid cur)) as [[Hs Hg]|Hne].
      * rewrite IH. cbn [pg_beg pg_end]. rewrite decide_True by lia. subst sid. rewrite (covers_extend cur (default 0 (plans !! (pg_end cur + 1)))) by done. by rewrite <-app_assoc.
      * cbn [fmap list_fmap concat]. rewrite IH. cbn [pg_beg pg_end]. rewrite decide_True by lia. rewrite covers_one. done.
    + rewrite IH. cbn [pg_beg pg_end]. rewrite decide_True by lia. by rewrite covers_one.
Qed.

(** two ranges that follow each other could not have been one *)
Definition apart (r1 r2 : prange) : Prop := pg_beg r2 = pg_end r1 + 1 → pg_gid r2 ≠ pg_gid r1.
Fixpoint all_apart (l : list prange) : Prop := match l with r1 :: (r2 :: _) as l' => apart r1 r2 ∧ all_apart l' | _ => True end.
Lemma plan_ranges_apart plans ids : ∀ cur, all_apart (plan_ranges plans ids cur) ∧
  ∀ r, head (plan_ranges plans ids cur) = Some r → pg_beg cur ≤ pg_end cur → pg_beg r = pg_beg cur ∧ pg_gid r = pg_gid cur.
Proof.
  induction ids as [|sid ids IH]; intros cur; cbn [plan_ranges].
  - destruct (decide _); [|done]. split; [done|]. by intros r [= <-].
  - destruct (decide (pg_beg cur ≤ pg_end cur)) as [Hle|Hle]; [|by destruct (IH (mkRange sid sid (default 0 (plans !! sid))))].
    destruct (decide _) as [[-> Hg]|Hne].
    + destruct (IH (mkRange (pg_beg cur) (pg_end cur + 1) (pg_gid cur))) as [K1 K2]. split; [done|]. intros r Hr _. by apply K2; cbn; [|lia].
    + destruct (IH (mkRange sid sid (default 0 (plans !! sid)))) as [K1 K2]. split; [|by intros r [= <-]].
      destruct (plan_ranges plans ids _) as [|r l]; [done|]. split; [|done]. destruct (K2 r eq_refl ltac:(cbn; lia)) as [Hb Hgid]. cbn in Hb, Hgid.
      intros He Hg. apply Hne. split; congruence.
Qed.

(** The ranges printed for a plan say what the plan says: written out they are the slots of
    the plan in ascending order with their groups, and no two ranges that follow each other
    could be one. *)
Theorem printed_plan plans : let rs := plan_ranges plans (plan_ids plans) (mkRange 0 (-1) (-1)) in
  list_to_map (concat (covers <$> rs)) = plans ∧ StronglySorted Z.lt (concat (covers <$> rs)).*1 ∧ all_apart rs.
Proof.
  intros rs. pose proof (plan_ranges_cover plans (plan_ids plans) (mkRange 0 (-1) (-1))) as Hc. fold rs in Hc. cbn [pg_beg pg_end] in Hc.
  rewrite decide_False in Hc by lia. rewrite app_nil_l in Hc. rewrite Hc.
  assert (plan_ids plans ≡ₚ (map_to_list plans).*1) as Hp by apply merge_sort_Permutation.
  assert ((planned plans (plan_ids plans)).*1 = plan_ids plans) as Hk by (unfold planned; rewrite <-list_fmap_compose; apply list_fmap_id).
  assert (NoDup (plan_ids plans)) as Hnd by (rewrite Hp; apply NoDup_fst_map_to_list). split_and!; [..|by apply plan_ranges_apart].
  - apply map_eq. intros k. apply option_eq. intros g. rewrite <-elem_of_list_to_map by by rewrite Hk. unfold planned. rewrite list_elem_of_fmap. split.
    + intros (sid & [= -> ->] & Hin). rewrite Hp, list_elem_of_fmap in Hin. destruct Hin as ([k' g'] & -> & Hg%elem_of_map_to_list). cbn. by rewrite Hg.
    + intros Hg. exists k. rewrite Hg. split; [done|]. rewrite Hp. apply list_elem_of_fmap. exists (k, g). split; [done|by apply elem_of_map_to_list].
  - rewrite Hk. assert (StronglySorted Z.le (plan_ids plans)) as Hs by (apply StronglySorted_merge_sort; [intros x y z; lia|intros x y; lia]).
    clear -Hs Hnd. induction Hs as [|x l Hs IH Hx]; [constructor|]. apply NoDup_cons in Hnd as [Hx' Hnd]. constructor; [by apply IH|].
    rewrite Forall_forall in Hx |- *. intros y Hy. assert (x ≠ y) by (by intros ->). specialize (Hx y Hy). lia.
Qed.

(** * Calls *)

(** the calls that only read *)
Definition only_reads (c : api_call) : bool :=
  match c with
  | C_Model | C_XPing | C_Overview | C_Stats | C_Slots | C_GetACL | C_SlotsRebalance false => true
  | _ => false
  end.

Section calls.
Context {W : Type} (rpc : string → api_call → W → outcome clienterr reply * W).
Context `{UnicodeUpper} `{Sha256} `{Printing}.
Local Abbreviation DM := (M (dworld W) cmderr).

(** the calls of [m] satisfy [P] *)
Definition makes {A} (P : api_call → Prop) (m : DM A) : Prop := ∀ w, wp m (λ _ w', ∃ cs, dw_calls w' = dw_calls w ++ cs ∧ Forall P cs) w.

Lemma makes_bind {A B} P (m : DM A) (k : A → DM B) : makes P m → (∀ a, makes P (k a)) → makes P (m ≫= k).
Proof.
  intros Hm Hk w. apply wp_bind. eapply wp_mono; [apply Hm|]. intros [a|e|] w1 (cs & Hc & HP); [|by exists cs..].
  eapply wp_mono; [apply Hk|]. intros r w2 (cs2 & Hc2 & HP2). exists (cs ++ cs2). rewrite Hc2, Hc, app_assoc. split; [done|by apply Forall_app].
Qed.
Lemma makes_still {A} P (m : DM A) : (∀ w, dw_calls (m w).2 = dw_calls w) → makes P m.
Proof. intros Hm w. exists []. rewrite Hm, app_nil_r. split; [done|by constructor]. Qed.
Lemma makes_ret {A} P (a : A) : makes P (mret a : DM A).
Proof. by apply makes_still. Qed.
Lemma makes_fail {A} P e : makes P (fail e : DM A).
Proof. by apply makes_still. Qed.
Lemma makes_lift {A} P r : makes P (lift r : DM A).
Proof. by apply makes_still. Qed.
Lemma makes_print P p : makes P (print p : DM unit).
Proof. by apply makes_still. Qed.
Lemma makes_println P b : makes P (Println b : DM unit).
Proof. by apply makes_still. Qed.
Lemma makes_call (P : api_call → Prop) x c : P c → makes P (rpc_call rpc x c).
Proof. intros Hc w. unfold wp, rpc_call. destruct (rpc x c (dw_state w)) as [r s]. exists [c]. split; [done|]. by apply Forall_singleton. Qed.
Lemma makes_do_call (P : api_call → Prop) x c : P c → makes P (do_call rpc x c).
Proof. intros Hc. apply makes_bind; [by apply makes_call|]. intros _. apply makes_ret. Qed.
Lemma makes_client (P : api_call → Prop) : P C_Model → P C_XPing → makes P (newTopomClient rpc).
Proof.
  intros Hm Hx. apply makes_bind; [by apply makes_call|]. intros []; try apply makes_fail. apply makes_bind; [by apply makes_do_call|]. intros _. apply makes_ret.
Qed.
Lemma makes_each {A} P (l : list A) (body : A → DM unit) : (∀ a, makes P (body a)) → makes P (for_each l body).
Proof. intros Hb. induction l as [|a l IH]; [apply makes_ret|]. apply makes_bind; [apply Hb|]. intros _. exact IH. Qed.

Lemma makes_known {A B} P (a : A) (k : A → DM B) : makes P (k a) → makes P (lift (Ok a) ≫= k).
Proof. done. Qed.

Ltac makes_step :=
  match goal with
  | |- makes _ (mbind _ (lift (Ok _))) => apply makes_known; cbn beta iota delta [negb]
  | |- makes _ (mbind _ _) => apply makes_bind; [|intros ?]
  | |- makes _ (mret _) => apply makes_ret
  | |- makes _ (fail _) => apply makes_fail
  | |- makes _ (bad_reply _) => apply makes_fail
  | |- makes _ (lift _) => apply makes_lift
  | |- makes _ (print _) => apply makes_print
  | |- makes _ (Println _) => apply makes_println
  | |- makes _ (newTopomClient _) => apply makes_client; by auto
  | |- makes _ (do_call _ _ _) => apply makes_do_call; by auto
  | |- makes _ (rpc_call _ _ _) => apply makes_call; by auto
  | |- makes _ (for_each _ _) => apply makes_each; intros ?
  | |- makes _ (if ?b then _ else _) => destruct b
  | |- makes _ (match ?r with _ => _ end) => destruct r
  end.
Ltac makes_go := repeat makes_step.

(** Without --confirm, an assignment of slots and a rebalancing only read, and a command on
    the ACL only reads, or pushes the ACL that is stored. *)
Theorem unconfirmed_reads d : d "--confirm"%string = AFlag false →
  makes (λ c, only_reads c = true) (handleSlotsCommand rpc d) ∧ makes (λ c, only_reads c = true ∨ c = C_SyncACL) (handleACLCommand rpc d) ∧
  makes (λ c, only_reads c = true) (handleSlotRebalance rpc d).
Proof.
  intros Hc. assert (bool_option d "--confirm" = Ok false) as Hb by (unfold bool_option, flag_of; by rewrite Hc). split_and!.
  - unfold handleSlotsCommand. rewrite Hb. cbn [negb]. makes_go.
  - unfold handleACLCommand, acl_view. rewrite Hb. cbn [negb]. makes_go.
  - unfold handleSlotRebalance. rewrite Hb. makes_go.
Qed.

(** The proxies that a removal or a new initialization is for: those registered with the id
    or the address, of which there is one unless --force is given. *)
Lemma proxies_with_spec sel d w : wp (proxies_with rpc sel d) (λ r _, ∀ tokens, r = Ok tokens → ∃ x s w1 w2, rpc_call rpc x C_Stats w1 = (Ok (RStats s), w2) ∧
  (∀ token, token ∈ tokens ↔ ∃ p, p ∈ ts_Proxies s ∧ sel p = true ∧ p_Token p = token) ∧ (tokens = [] → d "--force"%string = AFlag true)) w.
Proof.
  unfold proxies_with. apply wp_bind. eapply (wp_mono _ (λ _ _, True)); [done|]. intros [x|e|] w1 _; [|done..].
  apply wp_bind. unfold get_stats. apply wp_bind. unfold wp at 1. destruct (rpc_call rpc x C_Stats w1) as [r w2] eqn:Hcall. cbn [fst snd]. destruct r as [r|e|]; [|done..].
  destruct r; try (by apply wp_fail). apply wp_ret.
  assert (∀ token, token ∈ omap (λ p, if sel p then Some (p_Token p) else None) (ts_Proxies s) ↔ ∃ p, p ∈ ts_Proxies s ∧ sel p = true ∧ p_Token p = token) as Hspec.
  { intros token. rewrite list_elem_of_omap. split; intros (p & Hp & Hs); exists p; [destruct (sel p); [by injection Hs|done]|destruct Hs as [-> ->]; done]. }
  destruct (omap _ _) as [|t0 ts] eqn:Ho.
  - apply wp_bind, wp_lift. unfold bool_option, flag_of. destruct (d "--force"%string) as [|[]|] eqn:Hf; cbn; [done| |by apply wp_fail|done].
    apply wp_ret. intros tokens [= <-]. exists x, s, w1, w2. by split_and!.
  - apply wp_ret. intros tokens [= <-]. exists x, s, w1, w2. by split_and!.
Qed.
End calls.

(** * At the dashboard *)
Section at_dashboard.
Context `{Env} `{TopomState.Config} `{UnicodeUpper} `{RBTree} `{ProxyClock} `{Sha256Laws} `{Peers} `{RdbOutside} `{BindingLaws} `{MartiniLaws} `{Printing}.
Context (ProductName : string) (model : TopomModel) (ACLPasswordHash : bytes → string) (BackendAuthPassword : string).
Context (Hmodel : tm_ProductName model = ProductName).

(** calls over HTTP *)
Definition http_rpc (x : string) (c : api_call) (w : apiworld) : outcome clienterr reply * apiworld :=
  let '(rsp, w') := serve_http ProductName model ACLPasswordHash BackendAuthPassword (request_of x c) w in (apiRequestJson rsp, w').
Local Abbreviation perform := (perform_call ProductName model ACLPasswordHash BackendAuthPassword).
Local Abbreviation XA := (XAuth ProductName).

Lemma http_call c (w : apiworld) : call_ok c → w_closed (ap_topom w) = false →
  http_rpc XA c w = let '(r, w') := perform c w in (client_view r, w').
Proof.
  intros Hc Hw. unfold http_rpc. rewrite serve_call by done. destruct (perform c w) as [r w']. by rewrite client_respond.
Qed.

Definition open (w : dworld apiworld) : Prop := w_closed (ap_topom (dw_state w)) = false.
Lemma admin_connected (w : dworld apiworld) : open w → newTopomClient http_rpc w = (Ok XA, mkDW (dw_state w) (dw_calls w ++ [C_Model; C_XPing]) (dw_out w)).
Proof.
  intros Hw. unfold newTopomClient, mbind, M_bind, rpc_call. change (http_rpc "" C_Model) with (http_rpc XA C_Model). rewrite http_call by done. cbn.
  rewrite Hmodel. unfold do_call, mbind, M_bind, rpc_call. cbn. change (NewXAuth [ProductName]) with XA. rewrite http_call by done. cbn. by rewrite <-app_assoc.
Qed.

(** a command that is one call: what the call stands for, at the dashboard *)
Definition as_operation (c : api_call) (w : dworld apiworld) : outcome cmderr unit * dworld apiworld :=
  let '(r, s) := perform c (dw_state w) in
  (match r with Ok _ => Ok tt | _ => Err (RpcFailed c) end, mkDW s (dw_calls w ++ [C_Model; C_XPing; c]) (dw_out w)).
Lemma one_call c (w : dworld apiworld) : call_ok c → open w → (x ← newTopomClient http_rpc; do_call http_rpc x c) w = as_operation c w.
Proof.
  intros Hc Hw. unfold mbind, M_bind. rewrite admin_connected by done. unfold do_call, mbind, M_bind, rpc_call. cbn [dw_state]. rewrite http_call by done.
  unfold as_operation. destruct (perform c (dw_state w)) as [[] s]; cbn; by rewrite <-app_assoc.
Qed.

(** the integer of an option *)
Definition int_is (d : options) (name : string) (n : Z) : Prop := ArgumentIntegerMust d name = Ok n ∧ int64 n.
Definition text_is (d : options) (name : string) (s : string) : Prop := text_of d name = Ok s ∧ text_ok s.
Definition flag_is (d : options) (name : string) (b : bool) : Prop := bool_option d name = Ok b.

Lemma slot_range_json beg end_ gid : int64 beg → int64 end_ → int64 gid → json_slot_list (Some <$> slot_range beg end_ gid).
Proof.
  intros Hb He Hg. unfold json_slot_list, slot_range. rewrite <-list_fmap_compose. apply Forall_fmap, Forall_forall. intros i Hi%elem_of_seqZ.
  unfold json_mapping, int64 in *. cbn. split_and!; lia || done.
Qed.

Ltac command := intros; repeat match goal with Q : _ ∧ _ |- _ => destruct Q | Q : int_is _ _ _ |- _ => destruct Q | Q : text_is _ _ _ |- _ => destruct Q end; unfold flag_is in *.

(** Commands of codis-admin over HTTP at an open dashboard are the operations they are named
    after, with the numbers and texts of the options. *)
Theorem admin_commands d (w : dworld apiworld) : open w →
  (∀ sid gid, flag_is d "--create" true → int_is d "--sid" sid → int_is d "--gid" gid →
     handleSlotActionCommand http_rpc d w = as_operation (C_SlotCreateAction sid gid) w) ∧
  (∀ beg end_ gid, flag_is d "--create" false → flag_is d "--remove" false → flag_is d "--create-some" false → flag_is d "--create-range" true →
     int_is d "--beg" beg → int_is d "--end" end_ → int_is d "--gid" gid →
     handleSlotActionCommand http_rpc d w = as_operation (C_SlotCreateActionRange beg end_ gid) w) ∧
  (∀ beg end_ gid, flag_is d "--slots-status" false → flag_is d "--slots-assign" true → flag_is d "--offline" false → flag_is d "--confirm" true →
     int_is d "--beg" beg → int_is d "--end" end_ → int_is d "--gid" gid →
     handleSlotsCommand http_rpc d w = as_operation (C_SlotsAssignGroup (Some <$> slot_range beg end_ gid)) w) ∧
  (∀ gid, flag_is d "--create-group" true → int_is d "--gid" gid → handleGroupCommand http_rpc d w = as_operation (C_CreateGroup gid) w) ∧
  (∀ addr, flag_is d "--create-proxy" true → text_is d "--addr" addr → handleProxyCommand http_rpc d w = as_operation (C_CreateProxy addr) w) ∧
  (∀ addr, flag_is d "--sentinel-add" true → text_is d "--addr" addr → handleSentinelCommand http_rpc d w = as_operation (C_AddSentinel addr) w).
Proof.
  intros Hw. split_and!; command; (etrans; [|apply one_call; first [done | by apply slot_range_json]]);
    unfold handleSlotActionCommand, handleSlotsCommand, handleGroupCommand, handleProxyCommand, handleSentinelCommand;
    repeat match goal with Q : _ = Ok _ |- _ => rewrite Q; clear Q end; reflexivity.
Qed.
End at_dashboard.
