(* ===== verification/Configs.v ===== *)
(** The configurations of a proxy and of the dashboard: pkg/proxy/config.go and
    pkg/topom/config.go.  TOML is decoded by a third-party library; a configuration is the
    record it fills, and the default one is read from its text value by value. *)

From S2P Require Import Prelude Bufio Resp RespNumbers Mapper Models TopomContext TopomState TopomCache TopomProxy TopomGroup.
From S2P Require Import Router Stream Forward AuthBruteforce HotKeyCache SessionState ClusterNodes BackendConn Broadcast RdbManager Units.
From Stdlib Require Import SpecFloat.

(** a check that fails, and the value it names *)
Abbreviation checks := (list (bool * string)).
Definition validate (l : checks) : outcome string unit :=
  match list_find (λ x, x.1 = true) l with Some (_, (_, name)) => Err name | None => Ok tt end.
Lemma validate_ok l : validate l = Ok tt ↔ ∀ b name, (b, name) ∈ l → b = false.
Proof.
  unfold validate. split.
  - destruct (list_find _ l) as [[i [b' n']]|] eqn:Hf; [done|]. intros _ b name Hin. apply list_find_None in Hf. rewrite Forall_forall in Hf. specialize (Hf _ Hin). cbn in Hf. by destruct b.
  - intros Hl. destruct (list_find _ l) as [[i [b' n']]|] eqn:Hf; [|done]. apply list_find_Some in Hf as (Hi & Hb & _). cbn in Hb. subst.
    specialize (Hl true n' ltac:(by eapply list_elem_of_lookup_2)). done.
Qed.

Definition chk (b : bool) (name : string) : bool * string := (b, name).
Definition empty (s : string) : bool := bool_decide (s = ""%string).
Definition MaxInt64 : Z := 2 ^ 63 - 1.
Definition bad_size (d : Z) : bool := (d <? 0) || (MaxInt64 <? d).

(** * The proxy *)
Module ProxyConfig.
Record proxy_Config := mkConfig {
  ProtoType : string; ProxyAddr : string; AdminAddr : string;
  JodisName : string; JodisAddr : string; JodisAuth : string; JodisTimeout : Z; JodisCompatible : bool;
  ClusterNodesCompat : string; ClusterNodesRefreshPeriod : Z;
  ProductName : string; ProductAuth : string; SessionAuth : string;
  SessionAuthBruteforceEnabled : bool; SessionAuthBruteforceMaxFailures : Z; SessionAuthBruteforceLockDuration : Z;
  CodisACLEnabled : bool; BackendAuthUsername : string; BackendAuthPassword : string;
  ProxyDataCenter : string; ProxyMaxClients : Z; ProxyQPSLimit : Z; ProxyMaxOffheapBytes : Z; ProxyHeapPlaceholder : Z;
  BackendPingPeriod : Z; BackendRecvBufsize : Z; BackendRecvTimeout : Z; BackendSendBufsize : Z; BackendSendTimeout : Z; BackendMaxPipeline : Z;
  BackendPrimaryOnly : bool; BackendPrimaryParallel : Z; BackendReplicaParallel : Z; BackendKeepAlivePeriod : Z; BackendNumberDatabases : Z;
  SessionRecvBufsize : Z; SessionRecvTimeout : Z; SessionSendBufsize : Z; SessionSendTimeout : Z; SessionMaxPipeline : Z; SessionKeepAlivePeriod : Z;
  SessionBreakOnFailure : bool;
  HotKeyCacheEnabled : bool; HotKeyCacheTTL : Z; HotKeyCacheMaxEntries : Z; HotKeyCacheMaxValueSize : Z; HotKeyCacheKeys : list string;
  HotKeyCacheBroadcastEnabled : bool; HotKeyCacheBroadcastTimeout : Z; HotKeyCacheBroadcastQueueSize : Z;
  MetricsReportServer : string; MetricsReportPeriod : Z;
  MetricsReportInfluxdbServer : string; MetricsReportInfluxdbPeriod : Z; MetricsReportInfluxdbUsername : string; MetricsReportInfluxdbPassword : string;
  MetricsReportInfluxdbDatabase : string;
  MetricsReportStatsdServer : string; MetricsReportStatsdPeriod : Z; MetricsReportStatsdPrefix : string
}.
Definition set_compat (s : string) (c : proxy_Config) : proxy_Config :=
  mkConfig (ProtoType c) (ProxyAddr c) (AdminAddr c) (JodisName c) (JodisAddr c) (JodisAuth c) (JodisTimeout c) (JodisCompatible c) s (ClusterNodesRefreshPeriod c)
    (ProductName c) (ProductAuth c) (SessionAuth c) (SessionAuthBruteforceEnabled c) (SessionAuthBruteforceMaxFailures c) (SessionAuthBruteforceLockDuration c)
    (CodisACLEnabled c) (BackendAuthUsername c) (BackendAuthPassword c) (ProxyDataCenter c) (ProxyMaxClients c) (ProxyQPSLimit c) (ProxyMaxOffheapBytes c)
    (ProxyHeapPlaceholder c) (BackendPingPeriod c) (BackendRecvBufsize c) (BackendRecvTimeout c) (BackendSendBufsize c) (BackendSendTimeout c) (BackendMaxPipeline c)
    (BackendPrimaryOnly c) (BackendPrimaryParallel c) (BackendReplicaParallel c) (BackendKeepAlivePeriod c) (BackendNumberDatabases c)
    (SessionRecvBufsize c) (SessionRecvTimeout c) (SessionSendBufsize c) (SessionSendTimeout c) (SessionMaxPipeline c) (SessionKeepAlivePeriod c)
    (SessionBreakOnFailure c) (HotKeyCacheEnabled c) (HotKeyCacheTTL c) (HotKeyCacheMaxEntries c) (HotKeyCacheMaxValueSize c) (HotKeyCacheKeys c)
    (HotKeyCacheBroadcastEnabled c) (HotKeyCacheBroadcastTimeout c) (HotKeyCacheBroadcastQueueSize c) (MetricsReportServer c) (MetricsReportPeriod c)
    (MetricsReportInfluxdbServer c) (MetricsReportInfluxdbPeriod c) (MetricsReportInfluxdbUsername c) (MetricsReportInfluxdbPassword c) (MetricsReportInfluxdbDatabase c)
    (MetricsReportStatsdServer c) (MetricsReportStatsdPeriod c) (MetricsReportStatsdPrefix c).

(** [ClusterNodesCompatDisabled], [ClusterNodesCompatSelf], [ClusterNodesCompatAll] *)
Definition compat_modes : list string := ["disabled"; "self"; "all"]%string.

Definition proxy_checks (c : proxy_Config) : checks :=
  [chk (empty (ProtoType c)) "proto_type"; chk (empty (ProxyAddr c)) "proxy_addr"; chk (empty (AdminAddr c)) "admin_addr";
   chk (negb (empty (JodisName c)) && empty (JodisAddr c)) "jodis_addr"; chk (negb (empty (JodisName c)) && (JodisTimeout c <? 0)) "jodis_timeout";
   chk (bool_decide (ClusterNodesCompat c ∉ compat_modes)) "cluster_nodes_compat";
   chk (ClusterNodesRefreshPeriod c <? 0) "cluster_nodes_refresh_period";
   chk (bool_decide (ClusterNodesCompat c = "all") && (empty (JodisName c) || empty (JodisAddr c))) "cluster_nodes_compat";
   chk (bool_decide (ClusterNodesCompat c = "all") && (ClusterNodesRefreshPeriod c <=? 0)) "cluster_nodes_refresh_period";
   chk (empty (ProductName c)) "product_name"; chk (negb (empty (BackendAuthUsername c)) && empty (BackendAuthPassword c)) "backend_auth_password";
   chk (SessionAuthBruteforceEnabled c && (SessionAuthBruteforceMaxFailures c <=? 0)) "session_auth_bruteforce_max_failures";
   chk (SessionAuthBruteforceEnabled c && (SessionAuthBruteforceLockDuration c <=? 0)) "session_auth_bruteforce_lock_duration";
   chk (ProxyMaxClients c <? 0) "proxy_max_clients"; chk (ProxyQPSLimit c <? 0) "proxy_qps_limit";
   chk (bad_size (ProxyMaxOffheapBytes c)) "proxy_max_offheap_size"; chk (bad_size (ProxyHeapPlaceholder c)) "proxy_heap_placeholder";
   chk (BackendPingPeriod c <? 0) "backend_ping_period"; chk (bad_size (BackendRecvBufsize c)) "backend_recv_bufsize";
   chk (BackendRecvTimeout c <? 0) "backend_recv_timeout"; chk (bad_size (BackendSendBufsize c)) "backend_send_bufsize";
   chk (BackendSendTimeout c <? 0) "backend_send_timeout"; chk (BackendMaxPipeline c <? 0) "backend_max_pipeline";
   chk (BackendPrimaryParallel c <? 0) "backend_primary_parallel"; chk (BackendReplicaParallel c <? 0) "backend_replica_parallel";
   chk (BackendKeepAlivePeriod c <? 0) "backend_keepalive_period"; chk (BackendNumberDatabases c <? 1) "backend_number_databases";
   chk (bad_size (SessionRecvBufsize c)) "session_recv_bufsize"; chk (SessionRecvTimeout c <? 0) "session_recv_timeout";
   chk (bad_size (SessionSendBufsize c)) "session_send_bufsize"; chk (SessionSendTimeout c <? 0) "session_send_timeout";
   chk (SessionMaxPipeline c <? 0) "session_max_pipeline"; chk (SessionKeepAlivePeriod c <? 0) "session_keepalive_period";
   chk (HotKeyCacheTTL c <? 0) "hot_key_cache_ttl"; chk (HotKeyCacheMaxEntries c <? 0) "hot_key_cache_max_entries";
   chk (bad_size (HotKeyCacheMaxValueSize c)) "hot_key_cache_max_value_size";
   chk (HotKeyCacheEnabled c && (HotKeyCacheTTL c <=? 0)) "hot_key_cache_ttl";
   chk (HotKeyCacheEnabled c && (HotKeyCacheMaxEntries c =? 0)) "hot_key_cache_max_entries";
   chk (HotKeyCacheBroadcastTimeout c <? 0) "hot_key_cache_broadcast_timeout";
   chk (HotKeyCacheBroadcastQueueSize c <? 0) "hot_key_cache_broadcast_queue_size";
   chk (HotKeyCacheBroadcastEnabled c && (HotKeyCacheBroadcastTimeout c <=? 0)) "hot_key_cache_broadcast_timeout";
   chk (HotKeyCacheBroadcastEnabled c && (HotKeyCacheBroadcastQueueSize c =? 0)) "hot_key_cache_broadcast_queue_size";
   chk (MetricsReportPeriod c <? 0) "metrics_report_period"; chk (MetricsReportInfluxdbPeriod c <? 0) "metrics_report_influxdb_period";
   chk (MetricsReportStatsdPeriod c <? 0) "metrics_report_statsd_period"].

Definition proxy_Validate (c : proxy_Config) : outcome string proxy_Config :=
  let c := if empty (ClusterNodesCompat c) then set_compat "disabled" c else c in
  validate (proxy_checks c) ;; Ok c.

Definition proxy_BackendAuthIdentity (c : proxy_Config) : RedisAuthIdentity :=
  if negb (empty (BackendAuthUsername c)) || negb (empty (BackendAuthPassword c)) then mkLogin (bstr (BackendAuthUsername c)) (bstr (BackendAuthPassword c))
  else mkLogin [] (bstr (ProductAuth c)).
End ProxyConfig.

(** * The dashboard *)
Module DashboardConfig.
Record dashboard_Config := mkConfig {
  CoordinatorName : string; CoordinatorAddr : string; CoordinatorAuth : string; AdminAddr : string;
  ProductName : string; ProductAuth : string; BackendAuthUsername : string; BackendAuthPassword : string;
  RDBAnalysisWorkspace : string; RDBAnalysisMaxUploadSize : Z; RDBAnalysisMaxConcurrentJobs : Z; RDBAnalysisMaxJobsRetained : Z; RDBAnalysisMaxTopN : Z;
  RDBAnalysisRemoteFetchEnabled : bool; RDBAnalysisRemoteFetchAuth : string; RDBAnalysisRemoteFetchTimeout : Z; RDBAnalysisRemoteFetchMaxConcurrent : Z;
  PitrEnabled : bool; PitrRedisCheckAofBin : string; PitrMaxConcurrentJobs : Z; PitrJobTimeout : Z; PitrRestartCommand : string;
  MigrationMethod : string; MigrationParallelSlots : Z; MigrationAsyncMaxBulks : Z; MigrationAsyncMaxBytes : Z; MigrationAsyncNumKeys : Z; MigrationTimeout : Z;
  SentinelClientTimeout : Z; SentinelQuorum : Z; SentinelParallelSyncs : Z; SentinelDownAfter : Z; SentinelFailoverTimeout : Z;
  SentinelNotificationScript : string; SentinelClientReconfigScript : string
}.

Definition dashboard_checks `{UnicodeUpper} (c : dashboard_Config) : checks :=
  [chk (empty (CoordinatorName c)) "coordinator_name"; chk (empty (CoordinatorAddr c)) "coordinator_addr"; chk (empty (AdminAddr c)) "admin_addr";
   chk (empty (ProductName c)) "product_name"; chk (negb (empty (BackendAuthUsername c)) && empty (BackendAuthPassword c)) "backend_auth_password";
   chk (RDBAnalysisMaxUploadSize c <? 0) "rdb_analysis_max_upload_size"; chk (RDBAnalysisMaxConcurrentJobs c <? 0) "rdb_analysis_max_concurrent_jobs";
   chk (RDBAnalysisMaxJobsRetained c <? 0) "rdb_analysis_max_jobs_retained"; chk (RDBAnalysisMaxTopN c <? 0) "rdb_analysis_max_top_n";
   chk (RDBAnalysisRemoteFetchEnabled c && empty (RDBAnalysisRemoteFetchAuth c)) "rdb_analysis_remote_fetch_auth";
   chk (RDBAnalysisRemoteFetchTimeout c <? 0) "rdb_analysis_remote_fetch_timeout";
   chk (RDBAnalysisRemoteFetchMaxConcurrent c <? 0) "rdb_analysis_remote_fetch_max_concurrent";
   chk (PitrMaxConcurrentJobs c <? 0) "pitr_max_concurrent_jobs"; chk (PitrJobTimeout c <? 0) "pitr_job_timeout";
   chk (negb (ParseForwardMethod (MigrationMethod c)).2) "migration_method"; chk (MigrationParallelSlots c <=? 0) "migration_parallel_slots";
   chk (MigrationAsyncMaxBulks c <=? 0) "migration_async_maxbulks"; chk (MigrationAsyncMaxBytes c <=? 0) "migration_async_maxbytes";
   chk (MigrationAsyncNumKeys c <=? 0) "migration_async_numkeys"; chk (MigrationTimeout c <=? 0) "migration_timeout";
   chk (SentinelClientTimeout c <=? 0) "sentinel_client_timeout"; chk (SentinelQuorum c <=? 0) "sentinel_quorum";
   chk (SentinelParallelSyncs c <=? 0) "sentinel_parallel_syncs"; chk (SentinelDownAfter c <=? 0) "sentinel_down_after";
   chk (SentinelFailoverTimeout c <=? 0) "sentinel_failover_timeout"].
Definition dashboard_Validate `{UnicodeUpper} (c : dashboard_Config) : outcome string unit := validate (dashboard_checks c).

Definition dashboard_BackendAuthIdentity (c : dashboard_Config) : RedisAuthIdentity :=
  if negb (empty (BackendAuthUsername c)) || negb (empty (BackendAuthPassword c)) then mkLogin (bstr (BackendAuthUsername c)) (bstr (BackendAuthPassword c))
  else mkLogin [] (bstr (ProductAuth c)).
End DashboardConfig.

(** * The default configurations *)
Section defaults.
Context `{FloatToInt}.
Local Abbreviation size s := (size_Parse (bstr s)).
Local Abbreviation time s := (time_Parse (bstr s)).

Definition DefaultProxyConfig : outcome sizeerr ProxyConfig.proxy_Config :=
  lock ← time "60s"; jodis ← time "20s"; refresh ← time "30s"; offheap ← size "1024mb"; heap ← size "256mb"; ping ← time "5s";
  brecv ← size "128kb"; brt ← time "30s"; bsend ← size "128kb"; bst ← time "30s"; bkeep ← time "75s";
  srecv ← size "128kb"; srt ← time "30m"; ssend ← size "64kb"; sst ← time "30s"; skeep ← time "75s";
  ttl ← time "1s"; value ← size "64kb"; broadcast ← time "100ms"; m1 ← time "1s"; m2 ← time "1s"; m3 ← time "1s";
  Ok (ProxyConfig.mkConfig "tcp4" "0.0.0.0:19000" "0.0.0.0:11080" "" "" "" jodis false "disabled" refresh "codis-demo" "" "" false 5 lock
    false "" "" "" 1000 0 offheap heap ping brecv brt bsend bst 20480 false 1 1 bkeep 16 srecv srt ssend sst 10000 skeep false
    false ttl 1024 value [] false broadcast 1024 "" m1 "" m2 "" "" "" "" m3 "").

Definition DefaultDashboardConfig : outcome sizeerr DashboardConfig.dashboard_Config :=
  upload ← size "1gb"; fetch ← time "30m"; pitr ← time "30m"; bulk ← size "32mb"; move ← time "30s"; client ← time "10s"; down ← time "30s"; failover ← time "5m";
  Ok (DashboardConfig.mkConfig "filesystem" "/tmp/codis" "" "0.0.0.0:18080" "codis-demo" "" "" "" "/tmp/codis-rdb-analysis" upload 1 16 100 false "" fetch 1
    false "bin/redis-check-aof" 1 pitr "" "semi-async" 100 200 bulk 500 move client 2 1 down failover "" "").
End defaults.

(** * What an accepted configuration gives the components *)
Lemma checked_false l b name : validate l = Ok tt → chk b name ∈ l → b = false.
Proof. intros Hl Hin. by apply (proj1 (validate_ok l) Hl b name). Qed.
(** the check of a name, by its place in the list *)
Ltac checked Hv := eapply (checked_false _ _ _ Hv); repeat first [left; reflexivity | right].

Lemma login_valid u p auth : negb (empty u) && empty p = false →
  BackendConn.Validate (if negb (empty u) || negb (empty p) then mkLogin (bstr u) (bstr p) else mkLogin [] auth) = true.
Proof. by destruct u, p. Qed.

Section accepted.
Import ProxyConfig.

(** A configuration that the proxy accepts is one its parts can work with: a guard
    against guessed passwords that is enabled is active, a cache of hot keys that is enabled
    and has keys works, a broadcast that is enabled has a queue, a session starts in a database that exists, the limit of requests and all
    sizes fit; a second check changes nothing.  The default configuration is accepted. *)
Theorem proxy_config_works c c' : proxy_Validate c = Ok c' →
  (SessionAuthBruteforceEnabled c' = true →
     active (Some (newAuthBruteforceGuard true (SessionAuthBruteforceMaxFailures c') (SessionAuthBruteforceLockDuration c'))) = true) ∧
  (HotKeyCacheEnabled c' = true → HotKeyCacheKeys c' ≠ [] →
     Enabled (newHotKeyCache true (HotKeyCacheTTL c') (HotKeyCacheMaxEntries c') (HotKeyCacheMaxValueSize c') (bstr <$> HotKeyCacheKeys c')) = true) ∧
  (HotKeyCacheBroadcastEnabled c' = true →
     rp_queue (newHotKeyCacheBroadcastReporter true (HotKeyCacheBroadcastTimeout c') (HotKeyCacheBroadcastQueueSize c')) = Some []) ∧
  0 < BackendNumberDatabases c' ∧ 0 ≤ ProxyQPSLimit c' ∧ 0 ≤ ProxyMaxClients c' ∧ BackendConn.Validate (proxy_BackendAuthIdentity c') = true ∧
  proxy_Validate c' = Ok c'.
Proof.
  intros Hv. unfold proxy_Validate in Hv. set (c0 := if empty (ClusterNodesCompat c) then _ else _) in Hv.
  destruct (validate (proxy_checks c0)) as [[]|e|] eqn:Hc; [|done..]. injection Hv as <-.
  assert (SessionAuthBruteforceEnabled c0 && (SessionAuthBruteforceMaxFailures c0 <=? 0) = false) as K1 by checked Hc.
  assert (SessionAuthBruteforceEnabled c0 && (SessionAuthBruteforceLockDuration c0 <=? 0) = false) as K2 by checked Hc.
  assert (HotKeyCacheEnabled c0 && (HotKeyCacheTTL c0 <=? 0) = false) as K3 by checked Hc.
  assert (HotKeyCacheEnabled c0 && (HotKeyCacheMaxEntries c0 =? 0) = false) as K4 by checked Hc.
  assert ((HotKeyCacheMaxEntries c0 <? 0) = false) as K5 by checked Hc.
  assert (HotKeyCacheBroadcastEnabled c0 && (HotKeyCacheBroadcastTimeout c0 <=? 0) = false) as K6 by checked Hc.
  assert (HotKeyCacheBroadcastEnabled c0 && (HotKeyCacheBroadcastQueueSize c0 =? 0) = false) as K7 by checked Hc.
  assert ((HotKeyCacheBroadcastQueueSize c0 <? 0) = false) as K8 by checked Hc.
  assert ((BackendNumberDatabases c0 <? 1) = false) as K9 by checked Hc.
  assert ((ProxyQPSLimit c0 <? 0) = false) as K10 by checked Hc.
  assert ((ProxyMaxClients c0 <? 0) = false) as K11 by checked Hc.
  assert (negb (empty (BackendAuthUsername c0)) && empty (BackendAuthPassword c0) = false) as K12 by checked Hc.
  assert (bool_decide (ClusterNodesCompat c0 ∉ compat_modes) = false) as K13 by checked Hc.
  split_and!; try lia.
  - intros He. rewrite He in K1, K2. cbn in *. lia.
  - intros He Hk. rewrite He in K3, K4. unfold Enabled. cbn in *. rewrite bool_decide_false by (by intros ?%fmap_nil_inv). lia.
  - intros He. rewrite He in K6, K7. unfold newHotKeyCacheBroadcastReporter. cbn [andb] in *. rewrite decide_False by lia. cbn [rp_queue].
    destruct (0 <? HotKeyCacheBroadcastTimeout c0) eqn:E1; [|lia]. destruct (0 <? HotKeyCacheBroadcastQueueSize c0) eqn:E2; [done|lia].
  - by apply login_valid.
  - unfold proxy_Validate. assert (empty (ClusterNodesCompat c0) = false) as ->; [|by rewrite Hc].
    unfold empty. apply bool_decide_false. intros He. apply bool_decide_eq_false in K13. rewrite He in K13. apply K13.
    unfold compat_modes. rewrite !not_elem_of_cons. split_and!; try done. apply not_elem_of_nil.
Qed.

Lemma default_proxy_accepted `{FloatToInt} : ∃ c, DefaultProxyConfig = Ok c ∧ proxy_Validate c = Ok c.
Proof. eexists. split; [vm_compute; reflexivity|]. vm_compute. reflexivity. Qed.
End accepted.

Section accepted_dashboard.
Context `{UnicodeUpper}.
Import DashboardConfig.

(** A configuration that the dashboard accepts: a known migration method, at least one slot
    moved at a time, and managers of RDB analyses and recoveries whose limits are positive. *)
Theorem dashboard_config_works c : dashboard_Validate c = Ok tt → 0 < MigrationParallelSlots c ∧ 0 < SentinelQuorum c ∧
  (ParseForwardMethod (MigrationMethod c)).2 = true ∧ (RDBAnalysisRemoteFetchEnabled c = true → RDBAnalysisRemoteFetchAuth c ≠ ""%string) ∧
  BackendConn.Validate (dashboard_BackendAuthIdentity c) = true ∧
  ∀ getwd tempDir workspace auth, let m := NewRDBAnalysisManager getwd tempDir workspace (RDBAnalysisMaxUploadSize c) (RDBAnalysisMaxConcurrentJobs c)
      (RDBAnalysisMaxJobsRetained c) (RDBAnalysisMaxTopN c) auth (RDBAnalysisRemoteFetchTimeout c) (RDBAnalysisRemoteFetchMaxConcurrent c) in
    0 < rm_maxTopN m ∧ 0 < rm_remoteFetchMaxConcurrent m ∧ 0 < rm_maxConcurrent m.
Proof.
  intros Hc. unfold dashboard_Validate in Hc. assert ((MigrationParallelSlots c <=? 0) = false) as K1 by checked Hc. assert ((SentinelQuorum c <=? 0) = false) as K2 by checked Hc.
  assert (negb (ParseForwardMethod (MigrationMethod c)).2 = false) as K3 by checked Hc.
  assert (RDBAnalysisRemoteFetchEnabled c && empty (RDBAnalysisRemoteFetchAuth c) = false) as K4 by checked Hc.
  assert (negb (empty (BackendAuthUsername c)) && empty (BackendAuthPassword c) = false) as K5 by checked Hc.
  split_and!; [lia|lia|by destruct (ParseForwardMethod _).2|..].
  - intros He Hn. rewrite He in K4. unfold empty in K4. by rewrite bool_decide_true in K4.
  - by apply login_valid.
  - intros getwd tempDir workspace auth. cbn. unfold or_default. repeat case_decide; lia.
Qed.
Lemma default_dashboard_accepted `{FloatToInt} : ∃ c, DefaultDashboardConfig = Ok c ∧ dashboard_Validate c = Ok tt.
Proof. eexists. split; [vm_compute; reflexivity|]. vm_compute. reflexivity. Qed.
End accepted_dashboard.
